(* ===== verification/_CoqProject ===== *)
-Q . S2P
Prelude.v
Shape.v
View.v
Reshape.v
ReshapeAddr.v
Tracker.v
Float.v
Alu.v
Expr.v
Rewrite.v
Optimize.v
Flatten.v
Cpu.v
Kernel.v
Code.v
Shader.v
Emits.v
Spell.v
Reading.v
Lexing.v
Parsing.v
Written.v
Schedule.v
Device.v
Slots.v
Eval.v
Tensor.v
Realize.v
Nn.v
Layers.v
Table.v
Demo.v
Evaluation.v
Gpu.v
Sessions.v
Addresses.v
Graphs.v
Networks.v
Strings.v
Versions.v
Specs.v
Formulas.v
Channels.v
Records.v
Picks.v
Closure.v
Solver.v
Samples.v
Solving.v
Ending.v
Conda.v
Grammars.v
Compile.v
Lexer.v
Glr.v
Derive.v
Firsts.v
Automaton.v
Language.v
Machine.v
Checked.v
Stacks.v
Exact.v
Follow.v
Acts.v
Rounds.v
Trees.v
Nodes.v
Patterns.v
Forms.v
Meanings.v
Placing.v
Walks.v
Sentences.v
Compiled.v
Tables.v
Stored.v
Parses.v
Declared.v
Findings.v
