(* ===== verification/Prelude.v ===== *)
(** * lewkit: a verification library for its arrays, its package solver and its parsers

    lewkit is a collection of Go packages under src/x.  This library models
    three of its subsystems.

    The first is src/x/ndarray, the lazy array package, with the part of
    src/x/driver/ndeval that runs its kernels on GPUs.  A tensor is a node of a
    graph of constants, buffer views, coordinates and ALU operations; movements
    (reshape, permute, expand, pad, shrink, flip) only change how coordinates
    are turned into buffer offsets.  To evaluate, the package compiles the graph
    to a kernel (it pushes the views to the leaves, optimizes the graph and
    lists its nodes) and runs the kernel on the CPU, as a tape, or on a GPU, as
    a schedule of statements that a backend prints as a shader.

    The second is src/x/tool/conda, which finds the conda packages a tool needs.
    A reference is a URL with a matchspec in its query; the package asks an
    index service for the records of a name, picks the greatest version and
    build that every constraint accepts, and follows the dependencies of the
    picks with one goroutine per package.

    The third is src/x/parse, which compiles a grammar to the tables of an LR(1)
    automaton and parses with them.  A cell of the table may keep several
    actions; the parser then follows all of them over a graph-structured stack
    and copies the tree of the stack that wins.

    ** Files

    Addresses.
    - Shape.v: shape.go, and [unravel] of view.go.  Row-major numbering.
    - View.v, Reshape.v, ReshapeAddr.v: view.go.  A [view] maps coordinates to
      an offset, or to nothing in padding; [addr] is that partial map.
    - Tracker.v: tracker.go.  A stack of views; [t_locate] is its partial map.

    Graphs.
    - Float.v, Alu.v: op.go and the arithmetic of cpu.go, on 32-bit words.
    - Expr.v: expr.go.  Nodes are kept in an arena [heap]: a *node pointer is an
      index, allocation appends.  [den] is the meaning of a node.
    - Tensor.v: tensor.go.  A *Tensor is a record [tensor]; its methods pass the
      heap along.

    Kernels.
    - Rewrite.v, Optimize.v, Flatten.v: the passes of kernel.go and
      optimize.go.  [flat] is the meaning of a graph whose views have been
      pushed to its leaves.
    - Kernel.v: [compile] and the methods of a kernel.

    Evaluation.
    - Cpu.v: cpu.go.  [lowerCPU], the tape, and its workers ([par_step] is one
      cell of one worker, in any order).
    - Eval.v, Realize.v: eval.go, and [Eval] of a tensor with the evaluator's
      table of bound programs ([world]).
    - Code.v: code.go.  The statements of a schedule and the writer that emits
      them; each method of the writer is a function [CW A] of its state.
      Shader.v gives the statements a partial semantics, Emits.v and Schedule.v
      prove what the writer emits.
    - Spell.v: driver/ndeval/spell and the headers of the four backends, as
      strings.  Reading.v is the specification of the text, a lexer and a
      parser of C expressions; Lexing.v and Parsing.v prove that the printer's
      spaces and parentheses suffice for them, Written.v that what they read
      means the schedule and that [Kernel.Code] emits what can be printed.

    GPU evaluators.
    - Table.v: driver/ndeval/internal/table.  The critical sections of [Open],
      [Forget] and [Take] are functions of the map; [table_step] runs one
      section of one call, in any order.
    - Device.v: the interface [slots.Buffer] and a program, as the class
      [Device] with its laws; a device that computes is an instance.
    - Slots.v: internal/slots, internal/pack, internal/run and
      opengl/session.go.  A session grows, fills, binds, runs, reads and closes
      its buffers; a method is a function [GM A] of the session and the device.

    Layers.
    - Nn.v, Layers.v: the package nn, over the monad [TM] of heap and errors.

    Packages.
    - Strings.v: the functions of package strings, path and bytes that the
      solver calls, on ASCII strings, and text.IsDigits.
    - Versions.v: version.go, the order of versions.
    - Specs.v: match.go, the reader and the matcher of version specs; the
      class [Regexp] stands for package regexp.  Formulas.v is the meaning of a
      spec as a boolean formula over version patterns.
    - Channels.v: ref.go, platform.go and the subdirectories of conda.go; the
      class [Urls] stands for package net/url.
    - Records.v: the wire records of index.go and the loading of a name; the
      class [Fetcher] is the index service.
    - Picks.v: the record functions of resolve.go (variants, the better of two
      records, the pick); the class [SortSlice] stands for sort.Slice.
    - Closure.v: the dependency texts and the depth-first order of
      [finalRecords].
    - Solver.v: the solver session.  A state is the map of slots and the tree
      of the running calls of [pick], [update] and [ensure]; [step] is one
      critical section of one call, in any order.
    - Solving.v, Ending.v: invariants of the reachable states, the
      closed result of a finished session, and its termination.
    - Samples.v: small indexes and scripts.

    Parsers.
    - Grammars.v: grammar.go.  A grammar is a value, an operation returns the
      next one; symbols, alternatives, states and offsets are naturals.
    - Compile.v: compile.go, from the checks to the tables.
    - Lexer.v: lex.go, and the line starts of tree.go.
    - Glr.v: parse.go and [concreteTree] of tree.go.  [pr] is the parser's
      state; [parse_loop] is a round over all heads.
    - Derive.v: derivation trees, the specification of a grammar.  Firsts.v,
      Automaton.v, Language.v: the first sets and closures, the states, the
      cells and tables are what they should be.  Checked.v: what a grammar has
      that passes the checks.
    - Machine.v: the specification of the tables, a nondeterministic machine
      with one stack.
    - Stacks.v: the invariant of the graph-structured stack, for any property
      of its edges that a shift and a reduction establish, and that every
      operation keeps it.  Trees.v has the property that an edge's node reads as
      a derivation; Exact.v that an edge is a run of the machine.
    - Exact.v, Follow.v, Acts.v: no operation loses a predecessor, so acting on
      a head gives heads for every step of the machine.  Rounds.v: the heads
      stay in step, so merging them and the bound of the loop are right.
    - Trees.v: also the copy of the tree.  Nodes.v: the rest of tree.go, the handles,
      leaves and text of a tree.  Compiled.v puts this together for a
      grammar that compiles.
    - Tables.v: table.go, the stored tables.  Stored.v: what is written is read
      back, and the tables of a compiled grammar can be written.
    - Patterns.v: pattern.go, the descriptions of tokens, the matchers they are
      built to, and the relation [takes] that says what they describe.
    - Forms.v: form.go.  A *Form is an index into an arena of forms, which do
      not change; [Build] walks one and places it into a grammar.
    - Meanings.v: [sentence], the sequences of tokens that an expression stands
      for, and what an operation of grammar.go adds to the language of a
      grammar.  A ghost list of languages, one for each symbol, bounds what the
      symbols derive.  Placing.v: a symbol placed for a form stands for it.
      Walks.v: the walk collects the rules that the expression binds, and the
      fuel of [Build] is enough.  Sentences.v: the grammar built.

    Theorems.
    - Evaluation.v, Gpu.v, Sessions.v, Addresses.v, Graphs.v, Networks.v,
      Conda.v, Parses.v and Declared.v hold the claims, each with an instance on
      the small graphs of Demo.v, the indexes of Samples.v, a grammar of
      expressions or a grammar of lists.
      Findings.v has the examples on which the array packages depart from their
      documentation.

    ** What the theorems show

    - Addresses.v: a tracker refines an abstract array under every sequence of
      movements, with the same errors; reshaping ends and keeps the reading of
      every cell; lookups are checked; the shape arithmetic is exact.
    - Graphs.v: the constructors check their operands and build nodes that
      compute their operation cell by cell; movements of tensors denote the
      moved array; storage is shared and grown without changing any value.
    - Evaluation.v: rewriting, optimizing, flattening and lowering keep the
      meaning of a graph (floats up to the payload of a NaN, [weq]); the run
      returns and writes the same bytes under every interleaving of its
      workers; [Eval] returns the denoted values or the documented error.
    - Gpu.v: the schedule of a kernel never divides by zero, reads outside a
      buffer or binds a name twice; the invocations of a dispatch in any order
      store what the tape stores, which is what the graph denotes; and the
      text of the schedule, read back, runs as the schedule.
    - Sessions.v: an open session returns the denoted values of its kernel or a
      documented error, never panics, agrees with the CPU evaluator and leaves
      the buffers of other sessions alone; closing releases its buffers.  The
      table of programs holds live programs of their kernels in every
      interleaving, concurrent [Open]s agree, and every call ends.
    - Networks.v: linear layers, convolutions and maximum pools compute their
      sums and maxima; the table of bound programs is a cache.
    - Conda.v: a finished session has a pick for every dependency of its picks,
      and each pick meets every constraint asked of it; every session over an
      index without dependency cycles ends, whatever the schedule; a spec is
      read to the formula it writes and matched to its meaning; versions are
      compared by a total preorder; the pick is a greatest record and does not
      depend on the order of the index; records are installed after their
      dependencies.  Also what goes wrong: a cycle of dependencies blocks, a
      number past the 64 bits of an int wraps.
    - Parses.v: compiling ends with the tables of an automaton; look-aheads
      are exact; what [Parse] returns is a derivation of the whole input, and its
      leaves are the tokens of the input.  Over
      the tokens of a scanner it accepts exactly what the machine accepts, or
      has too many stacks, and so every sentence of a plain grammar.
      A stored table loads as the language it was written from.
    - Declared.v: the grammar that is built of an expression derives exactly the
      sentences of the expression; the leaves of a tree that is parsed with it
      spell one; a token's matcher takes what its pattern describes.  A literal
      with the name of a rule is the rule, which the code's comments deny.
    - Findings.v: graphs on which the code departs from its documentation or
      the two backends from each other, and a race of the table of programs.

    ** Conventions

    - Go's int is [Z], without its 64-bit wrap-around: sizes, strides and
      offsets are taken to fit in an int, as the package assumes.  Registers
      and elements are 32-bit words, [0 <= w < 2^32], with their wrap-around
      written out; a uint8 element is a word below 256.  The int32 arithmetic
      of a schedule wraps, and the theorems about it say which offsets must fit.
    - float32 arithmetic is that of [SpecFloat].  What Go leaves open (the
      payload of a NaN result, [int32(x)] of a float that does not fit,
      [math.Exp2], [math.Log2], [math.Sin]) are fields of the class
      [FloatEnv]; the theorems hold for every instance.
    - An error is the sentinel that [errors.Is] finds; its text is dropped.  A
      panic is [None].
    - A node reached through pointers is older than the node that points to it,
      so recursion on a graph of root [l] uses [S l] as fuel, which is enough.
      The optimizer may add nodes: its result is stated with [gives], "some
      fuel, and every larger one, gives the result", and proved for every
      graph.  The loops of [reshape] run on a measure that is proved sufficient.
    - [rewrite] keys its memo by a 64-bit hash of a chain of trackers.  The
      theorems ask that the hashes of the chains that occur do not collide
      ([hash_ok]); a graph whose operations are unviewed has one chain.
    - [strconv.FormatFloat] is a field of the class [FloatText]: its text is a
      number with a sign, and reads back as the float.
    - A device is any instance of [Device]: a call that succeeds does what its
      law says, a call that fails says nothing of the state after it, and a
      program stores what its statements mean on the words of its bindings, in
      some order of the invocations.  [Reliable] adds that calls succeed.
    - The random source of [Rand] and the goroutine scheduler are arguments or
      relations, not assumptions.
    - The texts of the solver are lists of ASCII bytes ([string]), so a byte is
      a character.  Its errors are lists of sentinels ([outcome]), the ones
      [errors.Is] finds in the chain.  The first error cancels the session: a
      failed session has no more steps and no result.
    - The readers of a spec and the depth-first search run on fuel computed
      from their input, and the fuel is proved to be enough.

    - Symbols, alternatives and dots of a grammar are 16-bit numbers in Go.  They
      are naturals here, with the bounds as hypotheses ([grammar_fits]); tokens
      of a scanner have 16-bit symbols ([scan_fits]).  The uint32 of nodes,
      links and states is taken to suffice.
    - [Compile] is run with fuel for its loop over the states: [Some None] is
      the error of the checks, and some fuel is enough for every grammar.  The
      other loops of the generator and the parser run on fuel that is computed
      from their input (the number of nodes, extras, links or bytes) and proved
      to be enough, or, for [parse_loop], on the limit that the code has.  That
      limit, and the bounds of reductions in a row and of heads, are enough
      under [within]: fewer than [B] reductions in a row in any run of the
      machine over the tokens, with [B] at most 64, or 8192 where no
      alternative is empty, and at most 1365 states.  The bound of paths may
      be passed, and is then reported ("too many stacks").

    - The forms of an arena have older kids ([arena_wf]), as the constructors
      make them, and no name of the form that invented rules get
      ([names_plain]).  [Build] runs on three units of fuel for each form, which
      is proved enough.  A method value reads the grammar when it is called: the
      matchers that compare the previous terminal get the names of the finished
      grammar ([resolve_names]).

    ** Not modelled

    - The compilers and libraries of the GPUs: a compiled program is its
      [Code], and its text is read by the parser of Reading.v, not compiled.
      The headers of a shader are printed but not parsed.  [String] methods.
    - ndarray/onnx (a protobuf reader over the tensor layer) and ndarray/image.
    - conda: the cache and the in-flight calls of the index, which return what
      the load of a name returns, and the unpacking of archives (extract.go).
    - parse: the typed layer over the forms (syntax.go), scanner modes
      (mode.go), the filling of records by reflection (record.go), the readers
      of tree-sitter grammars (treesitter.go, tsre.go), the printing of errors
      and the grammars of languages.
    - The other packages of src/x: the vendored Go toolchain, platform drivers,
      file, network and user interface code, and command-line tools. *)
From Stdlib Require Import ZArith Lia.
From stdpp Require Import base numbers option list.

Local Open Scope Z_scope.

(** ** Results

    Go functions return a value and an [error].  A result is either a value
    or the sentinel that [errors.Is] finds in the returned error. *)

(** The sentinels of x/ndarray/errors.go. *)
Inductive err : Type :=
| ErrShape | ErrAxis | ErrSize | ErrExpand | ErrPad | ErrShrink
| ErrIndex | ErrOp | ErrType.

#[export] Instance err_eq_dec : EqDecision err.
Proof. solve_decision. Defined.

Inductive res (A : Type) : Type :=
| Ok (a : A)
| Err (e : err).
Arguments Ok {A} a.
Arguments Err {A} e.

Definition res_bind {A B : Type} (m : res A) (k : A -> res B) : res B :=
  match m with
  | Ok a => k a
  | Err e => Err e
  end.

Definition is_err {A : Type} (m : res A) : bool :=
  match m with Ok _ => false | Err _ => true end.

Definition res_map {A B : Type} (f : A -> B) (m : res A) : res B :=
  res_bind m (fun a => Ok (f a)).

Declare Scope lewkit_scope.
Delimit Scope lewkit_scope with lewkit.
Notation "'let?' x ':=' m 'in' k" := (res_bind m (fun x => k))
  (at level 10, x pattern, m at level 100, k at level 200,
   format "'let?'  x  ':='  m  'in' '//' k") : lewkit_scope.
Open Scope lewkit_scope.

Lemma res_bind_ok {A B : Type} (m : res A) (k : A -> res B) b :
  res_bind m k = Ok b <-> exists a, m = Ok a /\ k a = Ok b.
Proof.
  destruct m as [a|e]; simpl; split.
  - intros H; exists a; auto.
  - intros (a' & [= ->] & H); exact H.
  - discriminate.
  - intros (a' & [=] & _).
Qed.

Lemma res_bind_err {A B : Type} (m : res A) (k : A -> res B) e :
  res_bind m k = Err e <-> m = Err e \/ exists a, m = Ok a /\ k a = Err e.
Proof.
  destruct m as [a|e']; simpl; split.
  - intros H; right; exists a; auto.
  - intros [[=]|(a' & [= ->] & H)]; exact H.
  - intros H; left; congruence.
  - intros [H|(a' & [=] & _)]; congruence.
Qed.

(** ** Slices

    A slice that may be nil; its elements when nil does not matter. *)
Definition opt_list {A} (o : option (list A)) : list A :=
  match o with None => [] | Some l => l end.

(** Replacing the last element. *)
Lemma insert_snoc {A} (l : list A) x y : <[length l := y]> (l ++ [x]) = l ++ [y].
Proof.
  replace (length l) with (length l + 0)%nat by lia. rewrite insert_app_r. reflexivity.
Qed.

(** ** Fuel *)

(** With enough fuel, and with any more, the computation gives [res]. *)
Definition gives {A} (f : nat -> option A) (res : A) : Prop :=
  exists fuel0, forall fuel, (fuel0 <= fuel)%nat -> f fuel = Some res.

Lemma gives_unique {A} (f : nat -> option A) a b : gives f a -> gives f b -> a = b.
Proof.
  intros [F Hf] [G Hg]. pose proof (Hf (F + G)%nat ltac:(lia)). pose proof (Hg (F + G)%nat ltac:(lia)). congruence.
Qed.

Lemma gives_ret {A} (a : A) : gives (fun _ => Some a) a.
Proof. exists 0%nat. reflexivity. Qed.

(** One unit of fuel for a call. *)
Lemma gives_step {A} (f g : nat -> option A) a : (forall n, f (S n) = g n) -> gives g a -> gives f a.
Proof. intros H [F Hf]. exists (S F). intros [|n] Hn; [lia|]. rewrite H. apply Hf. lia. Qed.

Lemma gives_bind {A B} (f : nat -> option A) (g : nat -> A -> option B) a b :
  gives f a -> gives (fun n => g n a) b -> gives (fun n => mbind (g n) (f n)) b.
Proof.
  intros [F Hf] [G Hg]. exists (F + G)%nat. intros n Hn. rewrite Hf by lia. apply Hg. lia.
Qed.

(** ** Automation

    [nd] collects the lemmas about shapes, address maps and graphs that the
    later files use for their side conditions. *)
Create HintDb nd.
