(* ===== verification/Shape.v ===== *)
(** * Tensor shapes (src/x/ndarray/shape.go)

    A [Shape] is the list of a tensor's dimensions.  The file models the
    operations of shape.go, the row-major numbering of cells that every
    address map is built on (the [unravel] of view.go and its inverse), and
    proves that the numbering is a bijection. *)
From Stdlib Require Import ZArith Lia.
From stdpp Require Import base numbers option list.
From S2P Require Import Prelude.

Local Open Scope Z_scope.

(** ** Operations of shape.go *)

Abbreviation Shape := (list Z).

Definition Rank (s : Shape) : Z := Z.of_nat (length s).

(** [n := 1; for dim { n *= dim }] *)
Definition Size (s : Shape) : Z := fold_left Z.mul s 1.

Definition With (s dims : Shape) : Shape := s ++ dims.

Definition WindowLength (inn before after kernel stride : Z) : Z :=
  let stride := if stride <? 1 then 1 else stride in
  let span := inn + before + after - kernel in
  if span <? 0 then 0 else Z.quot span stride + 1.

Definition CoverPad (inn kernel stride out before after : Z) : Z * Z :=
  let stride := if stride <=? 0 then 1 else stride in
  let need := kernel - 1 + out * stride in
  let have := inn + before + after in
  (before, if have <? need then after + (need - have) else after).

Definition Equal (s other : Shape) : bool := bool_decide (s = other).

Definition HasZero (s : Shape) : bool := existsb (Z.eqb 0) s.

(** The scan of [Infer]: the position of the -1 seen so far (or -1) and the
    product of the other dimensions. *)
Fixpoint Infer_scan (s : Shape) (i hole n : Z) : res (Z * Z) :=
  match s with
  | [] => Ok (hole, n)
  | dim :: s' =>
      if dim =? -1 then
        if 0 <=? hole then Err ErrShape else Infer_scan s' (i + 1) i n
      else if dim <? 0 then Err ErrShape
      else Infer_scan s' (i + 1) hole (n * dim)
  end.

Definition Infer (s : Shape) (size : Z) : res Shape :=
  let? (hole, n) := Infer_scan s 0 (-1) 1 in
  if 0 <=? hole then
    if n =? 0 then
      if size =? 0 then Ok (<[Z.to_nat hole := 0]> s) else Err ErrSize
    else if Z.rem size n =? 0 then Ok (<[Z.to_nat hole := Z.quot size n]> s)
    else Err ErrSize
  else if n =? size then Ok s else Err ErrSize.

Definition check (s : Shape) : res unit :=
  if existsb (fun dim => dim <? 0) s then Err ErrShape else Ok tt.

(** ** Row-major cell numbers

    [unravel] is the loop of view.go: dimensions are visited from the last
    one, [acc] is the product of those already visited, and a zero dimension
    is skipped. *)
Fixpoint unravel_acc (shape : Shape) (i : Z) : list Z * Z :=
  match shape with
  | [] => ([], 1)
  | s :: rest =>
      let '(coords, acc) := unravel_acc rest i in
      if s =? 0 then (0 :: coords, acc)
      else (Z.rem (Z.quot i acc) s :: coords, acc * s)
  end.

Definition unravel (shape : Shape) (i : Z) : list Z := fst (unravel_acc shape i).

(** The inverse numbering is a specification: the code never computes it. *)
Fixpoint ravel (shape : Shape) (coords : list Z) : Z :=
  match shape, coords with
  | _ :: rest, c :: cs => c * Size rest + ravel rest cs
  | _, _ => 0
  end.

Definition in_bounds (shape : Shape) (coords : list Z) : Prop :=
  Forall2 (fun d c => 0 <= c < d) shape coords.

Definition nonneg (s : Shape) : Prop := Forall (fun d => 0 <= d) s.
Definition positive_dims (s : Shape) : Prop := Forall (fun d => 0 < d) s.

#[export] Instance in_bounds_dec shape coords : Decision (in_bounds shape coords).
Proof. unfold in_bounds; apply _. Defined.

(** ** Sizes *)

Lemma fold_mul_acc (s : Shape) a : fold_left Z.mul s a = a * Size s.
Proof.
  unfold Size. revert a; induction s as [|d s IH]; intros a; cbn [fold_left]; [lia|].
  rewrite (IH (a * d)), (IH (1 * d)). lia.
Qed.

Lemma Size_nil : Size [] = 1.
Proof. reflexivity. Qed.

Lemma Size_cons d s : Size (d :: s) = d * Size s.
Proof.
  unfold Size at 1. change (fold_left Z.mul s (1 * d) = d * Size s).
  rewrite fold_mul_acc; lia.
Qed.

Lemma Size_app s t : Size (s ++ t) = Size s * Size t.
Proof.
  induction s as [|d s IH]; simpl app.
  - rewrite Size_nil; lia.
  - rewrite !Size_cons, IH; lia.
Qed.

Lemma Size_nonneg s : nonneg s -> 0 <= Size s.
Proof.
  induction 1; [rewrite Size_nil; lia|]. rewrite Size_cons; nia.
Qed.

Lemma Size_pos s : positive_dims s -> 0 < Size s.
Proof.
  induction 1; [rewrite Size_nil; lia|]. rewrite Size_cons; nia.
Qed.

Lemma existsb_Forall {A} (f : A -> bool) l :
  existsb f l = false <-> Forall (fun x => f x = false) l.
Proof.
  induction l as [|x l IH]; simpl; [split; auto|].
  rewrite orb_false_iff, IH, Forall_cons. reflexivity.
Qed.

Lemma check_ok s : check s = Ok tt <-> nonneg s.
Proof.
  unfold check, nonneg. destruct (existsb _ s) eqn:E.
  - split; [discriminate|]. intros H. exfalso.
    assert (existsb (fun dim => dim <? 0) s = false) by
      (apply existsb_Forall; eapply Forall_impl; [exact H|]; simpl; intros; lia).
    congruence.
  - split; [intros _|reflexivity]. apply existsb_Forall in E.
    eapply Forall_impl; [exact E|]; simpl; intros; lia.
Qed.

Lemma HasZero_false s : nonneg s -> HasZero s = false <-> positive_dims s.
Proof.
  unfold HasZero, positive_dims, nonneg. intros H.
  rewrite existsb_Forall, !Forall_forall in *. split; intros K x Hx.
  - specialize (H x Hx). specialize (K x Hx). lia.
  - specialize (K x Hx). lia.
Qed.

Lemma HasZero_true s : HasZero s = true -> Size s = 0.
Proof.
  unfold HasZero. induction s as [|d s IH]; simpl; [discriminate|].
  rewrite Size_cons, orb_true_iff. intros [E|E]; [destruct d; discriminate || reflexivity|rewrite (IH E)]; lia.
Qed.

(** ** Bijection between coordinates and cell numbers *)

Lemma in_bounds_nil c : in_bounds [] c <-> c = [].
Proof.
  unfold in_bounds. split; [intros H; inversion H; auto | intros ->; constructor].
Qed.

Lemma in_bounds_cons d s c :
  in_bounds (d :: s) c <-> exists x c', c = x :: c' /\ 0 <= x < d /\ in_bounds s c'.
Proof.
  unfold in_bounds. split.
  - intros H; inversion H; subst. eauto.
  - intros (x & c' & -> & Hx & H). constructor; auto.
Qed.

Lemma in_bounds_length s c : in_bounds s c -> length c = length s.
Proof. intros H. apply Forall2_length in H. auto. Qed.

Lemma in_bounds_pos s c : in_bounds s c -> positive_dims s.
Proof. induction 1; constructor; auto; lia. Qed.

Lemma ravel_bounds s c : in_bounds s c -> 0 <= ravel s c < Size s.
Proof.
  induction 1 as [|d x s c Hx H IH]; simpl.
  - rewrite Size_nil; lia.
  - rewrite Size_cons. nia.
Qed.

Lemma unravel_acc_size s i : positive_dims s -> snd (unravel_acc s i) = Size s.
Proof.
  induction 1 as [|d s Hd Hs IH]; simpl; [reflexivity|].
  destruct (unravel_acc s i) as [cs acc]; simpl in *.
  destruct (d =? 0) eqn:E; simpl; [lia|]. rewrite Size_cons, IH; lia.
Qed.

Lemma unravel_cons d s i :
  positive_dims (d :: s) ->
  unravel (d :: s) i = Z.rem (Z.quot i (Size s)) d :: unravel s i.
Proof.
  intros H. inversion H as [|? ? Hd Hs]; subst. unfold unravel; simpl.
  pose proof (unravel_acc_size s i Hs) as E.
  destruct (unravel_acc s i) as [cs acc]; simpl in *; subst.
  destruct (d =? 0) eqn:E; simpl; [lia|reflexivity].
Qed.

Lemma length_unravel s i : length (unravel s i) = length s.
Proof.
  unfold unravel. induction s as [|d s IH]; simpl; [reflexivity|].
  destruct (unravel_acc s i); simpl in *. destruct (d =? 0); simpl; lia.
Qed.

(** For a cell number the truncated division and remainder of Go are the
    Euclidean ones. *)
Lemma unravel_step i a d :
  0 <= i -> 0 < a -> 0 < d -> 0 <= Z.rem (Z.quot i a) d < d.
Proof.
  intros. rewrite Z.quot_div_nonneg by lia.
  pose proof (Z.div_pos i a). rewrite Z.rem_mod_nonneg by lia.
  apply Z.mod_pos_bound; lia.
Qed.

Lemma unravel_in_bounds s i : positive_dims s -> 0 <= i -> in_bounds s (unravel s i).
Proof.
  intros Hs Hi. induction Hs as [|d s Hd Hs IH].
  - constructor.
  - rewrite unravel_cons by (constructor; auto). constructor; [|exact IH].
    apply unravel_step; auto using Size_pos.
Qed.

Lemma ravel_unravel_mod s i :
  positive_dims s -> 0 <= i -> ravel s (unravel s i) = i mod Size s.
Proof.
  intros Hs Hi. induction Hs as [|d s Hd Hs IH].
  - simpl. rewrite Size_nil, Z.mod_1_r. reflexivity.
  - rewrite unravel_cons by (constructor; auto). cbn [ravel].
    rewrite IH, Size_cons. pose proof (Size_pos s Hs) as Hp.
    rewrite Z.quot_div_nonneg by lia. pose proof (Z.div_pos i (Size s)).
    rewrite Z.rem_mod_nonneg by lia.
    rewrite (Z.mul_comm d (Size s)), Z.rem_mul_r by lia. lia.
Qed.

Lemma ravel_unravel s i :
  positive_dims s -> 0 <= i < Size s -> ravel s (unravel s i) = i.
Proof. intros Hs Hi. rewrite ravel_unravel_mod by (auto; lia). apply Z.mod_small; lia. Qed.

(** A multiple of the size does not change the coordinates. *)
Lemma unravel_shift s i k :
  positive_dims s -> 0 <= i -> 0 <= k -> unravel s (i + k * Size s) = unravel s i.
Proof.
  intros Hs. revert i k. induction Hs as [|d s Hd Hs IH]; intros i k Hi Hk; [reflexivity|].
  pose proof (Size_pos s Hs) as Hp.
  rewrite !unravel_cons by (constructor; auto). rewrite Size_cons. f_equal.
  - rewrite !Z.quot_div_nonneg by nia.
    replace (i + k * (d * Size s)) with (i + (k * d) * Size s) by ring.
    rewrite Z.div_add by lia. pose proof (Z.div_pos i (Size s)).
    rewrite !Z.rem_mod_nonneg by nia. apply Z.mod_add; lia.
  - replace (i + k * (d * Size s)) with (i + (k * d) * Size s) by ring. apply IH; nia.
Qed.

Lemma unravel_ravel s c : in_bounds s c -> unravel s (ravel s c) = c.
Proof.
  induction 1 as [|d x s c Hx H IH]; [reflexivity|].
  assert (Hs : positive_dims s) by (eapply in_bounds_pos; exact H).
  pose proof (ravel_bounds s c H) as Hb.
  rewrite unravel_cons by (constructor; auto; lia). cbn [ravel]. f_equal.
  - rewrite Z.quot_div_nonneg by nia. rewrite Z.div_add_l by lia.
    rewrite (Z.div_small (ravel s c)) by lia. rewrite Z.rem_mod_nonneg by lia.
    rewrite Z.mod_small; lia.
  - rewrite Z.add_comm, unravel_shift by (auto; lia). exact IH.
Qed.

Lemma ravel_inj s c c' :
  in_bounds s c -> in_bounds s c' -> ravel s c = ravel s c' -> c = c'.
Proof.
  intros H H' E. rewrite <- (unravel_ravel s c H), <- (unravel_ravel s c' H'), E. reflexivity.
Qed.

(** ** Infer: the reshape wildcard *)

(** [completes s s']: [s'] is [s] with a non-negative dimension in place of
    each -1. *)
Definition completes (s s' : Shape) : Prop :=
  Forall2 (fun d d' => 0 <= d' /\ (d = -1 \/ d = d')) s s'.

(** The shapes that may be passed: at most one -1, no other negative. *)
Inductive one_hole : Shape -> Prop :=
| no_hole s : nonneg s -> one_hole s
| a_hole a b : nonneg a -> nonneg b -> one_hole (a ++ -1 :: b).

Lemma Infer_scan_nonneg s : forall i hole n, nonneg s -> Infer_scan s i hole n = Ok (hole, n * Size s).
Proof.
  induction s as [|d s IH]; intros i hole n H; inversion H; subst; cbn [Infer_scan].
  - rewrite Size_nil, Z.mul_1_r. reflexivity.
  - destruct (Z.eqb_spec d (-1)); [lia|]. destruct (Z.ltb_spec d 0); [lia|].
    rewrite IH by assumption. rewrite Size_cons, Z.mul_assoc. reflexivity.
Qed.

Lemma Infer_scan_hole a : forall b i n, nonneg a -> nonneg b -> 0 <= i ->
  Infer_scan (a ++ -1 :: b) i (-1) n = Ok (i + Z.of_nat (length a), n * (Size a * Size b)).
Proof.
  induction a as [|d a IH]; intros b i n Ha Hb Hi; cbn [app Infer_scan].
  - change (-1 =? -1) with true. change (0 <=? -1) with false. cbv iota.
    rewrite Infer_scan_nonneg by assumption. rewrite Size_nil. simpl length. do 2 f_equal; lia.
  - inversion Ha; subst. destruct (Z.eqb_spec d (-1)); [lia|]. destruct (Z.ltb_spec d 0); [lia|].
    rewrite IH by (auto; lia). rewrite Size_cons. simpl length. do 2 f_equal; [lia|ring].
Qed.

Lemma Infer_scan_inv s : forall i hole n r, 0 <= i ->
  Infer_scan s i hole n = Ok r ->
  nonneg s \/ (hole < 0 /\ exists a b, s = a ++ -1 :: b /\ nonneg a /\ nonneg b).
Proof.
  induction s as [|d s IH]; intros i hole n r Hi H; cbn [Infer_scan] in H; [left; constructor|].
  destruct (Z.eqb_spec d (-1)) as [->|Hd].
  - destruct (Z.leb_spec 0 hole); [discriminate H|]. right. split; [assumption|].
    apply IH in H as [H|[? _]]; [|lia|lia]. exists [], s. repeat split; auto. constructor.
  - destruct (Z.ltb_spec d 0); [discriminate H|]. apply IH in H as [H|(Hh & a & b & -> & Ha & Hb)]; [| |lia].
    + left. constructor; auto.
    + right. split; [exact Hh|]. exists (d :: a), b. repeat split; auto. constructor; auto.
Qed.

Lemma Infer_scan_err s : forall i hole n e, Infer_scan s i hole n = Err e -> e = ErrShape.
Proof.
  induction s as [|d s IH]; intros i hole n e H; cbn [Infer_scan] in H; [discriminate H|].
  destruct (d =? -1); [destruct (0 <=? hole)|destruct (d <? 0)]; eauto; congruence.
Qed.

Lemma Infer_nonneg s size :
  nonneg s -> Infer s size = if Size s =? size then Ok s else Err ErrSize.
Proof.
  intros H. unfold Infer. rewrite Infer_scan_nonneg by exact H. rewrite Z.mul_1_l. reflexivity.
Qed.

Lemma Infer_hole a b size :
  nonneg a -> nonneg b ->
  Infer (a ++ -1 :: b) size =
  let n := Size a * Size b in
  if n =? 0 then if size =? 0 then Ok (a ++ 0 :: b) else Err ErrSize
  else if Z.rem size n =? 0 then Ok (a ++ Z.quot size n :: b) else Err ErrSize.
Proof.
  intros Ha Hb. unfold Infer. rewrite Infer_scan_hole by (auto; lia). cbn [res_bind].
  destruct (Z.leb_spec 0 (0 + Z.of_nat (length a))); [|lia].
  rewrite Z.add_0_l, Nat2Z.id, Z.mul_1_l. cbv zeta.
  assert (E : forall x, <[length a := x]> (a ++ -1 :: b) = a ++ x :: b).
  { intros x. replace (length a) with (length a + 0)%nat by lia. rewrite insert_app_r. reflexivity. }
  rewrite !E. reflexivity.
Qed.

Lemma Infer_bad s size : ~ one_hole s -> Infer s size = Err ErrShape.
Proof.
  intros H. unfold Infer. destruct (Infer_scan s 0 (-1) 1) as [r|e] eqn:E.
  - exfalso. apply Infer_scan_inv in E as [E|(_ & a & b & -> & Ha & Hb)]; [| |lia]; apply H; auto using no_hole, a_hole.
  - apply Infer_scan_err in E as ->. reflexivity.
Qed.

Lemma completes_nonneg s s' : completes s s' -> nonneg s'.
Proof. induction 1; constructor; auto; lia. Qed.

Lemma completes_refl s : nonneg s -> completes s s.
Proof. induction 1; constructor; auto. Qed.

Lemma completes_eq s s' : nonneg s -> completes s s' -> s' = s.
Proof.
  intros H K; induction K as [|d d' s s' Hd K IH]; inversion H; subst; [reflexivity|].
  f_equal; [lia|auto].
Qed.

Lemma completes_hole a b s' :
  nonneg a -> nonneg b -> completes (a ++ -1 :: b) s' -> exists d, 0 <= d /\ s' = a ++ d :: b.
Proof.
  intros Ha Hb H. apply Forall2_app_inv_l in H as (a' & r & H1 & H2 & ->).
  inversion H2 as [|x d y b' Hd H3]; subst. exists d. split; [lia|].
  rewrite (completes_eq a a'), (completes_eq b b'); auto.
Qed.

Lemma Size_hole a d b : Size (a ++ d :: b) = d * (Size a * Size b).
Proof. rewrite Size_app, Size_cons. lia. Qed.

(** What [Infer] returns is a completion of the right size. *)
Lemma Infer_ok s size s' :
  0 <= size -> Infer s size = Ok s' -> one_hole s /\ completes s s' /\ Size s' = size.
Proof.
  intros Hz H.
  assert (Ho : one_hole s).
  { unfold Infer in H. destruct (Infer_scan s 0 (-1) 1) as [r|e] eqn:E; [|discriminate H].
    apply Infer_scan_inv in E as [Hs|(_ & a & b & -> & Ha & Hb)]; [| |lia]; auto using no_hole, a_hole. }
  split; [exact Ho|]. destruct Ho as [s Hs|a b Ha Hb].
  - rewrite Infer_nonneg in H by exact Hs. destruct (Z.eqb_spec (Size s) size) as [E|]; [|discriminate H].
    injection H as <-. auto using completes_refl.
  - rewrite Infer_hole in H by assumption. pose proof (Size_nonneg a Ha). pose proof (Size_nonneg b Hb).
    assert (Hc : forall x, 0 <= x -> completes (a ++ -1 :: b) (a ++ x :: b)).
    { intros x Hx. apply Forall2_app; [apply completes_refl, Ha|]. constructor; auto. apply completes_refl, Hb. }
    cbv zeta in H. destruct (Z.eqb_spec (Size a * Size b) 0) as [En|En].
    + destruct (Z.eqb_spec size 0); [|discriminate H]. injection H as <-. rewrite Size_hole. split; [apply Hc|]; lia.
    + destruct (Z.eqb_spec (Z.rem size (Size a * Size b)) 0) as [Er|]; [|discriminate H]. injection H as <-.
      rewrite Size_hole. pose proof (Z.quot_rem size (Size a * Size b) En).
      split; [apply Hc, Z.quot_pos; nia|lia].
Qed.

(** It returns one whenever one exists, and with a non-empty tensor there is
    no other. *)
Lemma Infer_complete s size s' :
  one_hole s -> completes s s' -> Size s' = size ->
  exists s'', Infer s size = Ok s'' /\ (size <> 0 -> s'' = s').
Proof.
  intros Ho Hc HS. destruct Ho as [s Hs|a b Ha Hb].
  - rewrite (completes_eq s s' Hs Hc) in *. rewrite Infer_nonneg by exact Hs.
    rewrite HS, Z.eqb_refl. eauto.
  - destruct (completes_hole _ _ _ Ha Hb Hc) as (d & Hd & ->). rewrite Size_hole in HS.
    rewrite Infer_hole by assumption. cbv zeta. destruct (Z.eqb_spec (Size a * Size b) 0) as [En|En].
    + rewrite En in HS. rewrite (proj2 (Z.eqb_eq size 0)) by lia. eexists; split; [reflexivity|]. lia.
    + rewrite <- HS, Z.rem_mul, Z.quot_mul by exact En. cbn. eauto.
Qed.

(** ** Window arithmetic *)

(** The number of windows is the number of positions [k * stride] at which a
    whole kernel fits. *)
Lemma WindowLength_spec inn before after kernel stride k :
  let st := Z.max 1 stride in
  0 <= k -> (k < WindowLength inn before after kernel stride <-> k * st + kernel <= inn + before + after).
Proof.
  intros st Hk. unfold WindowLength.
  assert (Est : (if stride <? 1 then 1 else stride) = st) by (unfold st; destruct (Z.ltb_spec stride 1); lia).
  rewrite Est. assert (1 <= st) by (unfold st; lia). clearbody st.
  destruct (Z.ltb_spec (inn + before + after - kernel) 0); [nia|].
  rewrite Z.quot_div_nonneg by lia.
  pose proof (Z.div_mod (inn + before + after - kernel) st ltac:(lia)).
  pose proof (Z.mod_pos_bound (inn + before + after - kernel) st ltac:(lia)). nia.
Qed.

(** The grown padding fits [out] windows, and is the old one if they fitted. *)
Lemma CoverPad_spec inn kernel stride out before after :
  let st := if stride <=? 0 then 1 else stride in
  let '(b, a) := CoverPad inn kernel stride out before after in
  b = before /\ after <= a /\ kernel - 1 + out * st <= inn + b + a /\
  (kernel - 1 + out * st <= inn + before + after -> a = after) /\
  (after < a -> inn + b + a = kernel - 1 + out * st).
Proof.
  cbv zeta. unfold CoverPad. destruct (Z.ltb_spec (inn + before + after) (kernel - 1 + out * (if stride <=? 0 then 1 else stride)));
    repeat split; lia.
Qed.


#[export] Hint Resolve ravel_bounds unravel_in_bounds in_bounds_pos in_bounds_length Size_pos : nd.
