(* ===== verification/View.v ===== *)
(** * Address maps (src/x/ndarray/view.go)

    A [view] sends the coordinates of a logical cell to an offset of a flat
    buffer, or to nothing when the cell is padding.  The file models every
    constructor and movement operation of view.go except the reshape, which
    is in Reshape.v, and proves what each one does to the address map. *)
From Stdlib Require Import ZArith Lia.
From stdpp Require Import base numbers option list.
From S2P Require Import Prelude Shape.

Local Open Scope Z_scope.

(** ** Data and construction *)

(** [mask] is nil or one half-open interval per axis. *)
Record view : Type := mkView {
  v_shape : Shape;
  v_strides : list Z;
  v_offset : Z;
  v_mask : option (list (Z * Z))
}.

#[export] Instance view_eq_dec : EqDecision view.
Proof. solve_decision. Defined.

(** The loop runs from the last axis; the second component is [acc]. *)
Fixpoint stridesFor_acc (shape : Shape) : list Z * Z :=
  match shape with
  | [] => ([], 1)
  | s :: rest =>
      let '(strides, acc) := stridesFor_acc rest in
      ((if s =? 1 then 0 else acc) :: strides, acc * s)
  end.

Definition stridesFor (shape : Shape) : list Z := fst (stridesFor_acc shape).

Fixpoint canonicalStrides (shape : Shape) (strides : list Z) : list Z :=
  match shape, strides with
  | dim :: shape', st :: strides' =>
      (if dim =? 1 then 0 else st) :: canonicalStrides shape' strides'
  | _, _ => strides
  end.

Definition zeros (n : nat) : list Z := replicate n 0.

Definition zerosMask (n : nat) : option (list (Z * Z)) :=
  match n with
  | O => None
  | S _ => Some (replicate n (0, 0))
  end.

(** The mask that keeps every cell of [shape]. *)
Definition full_mask (shape : Shape) : list (Z * Z) := map (fun s => (0, s)) shape.

(** The mask loop of [create]: an axis left with one valid coordinate moves
    its contribution to the offset and gets stride 0. *)
Fixpoint eliminate (strides : list Z) (mask : list (Z * Z)) (offset : Z) : list Z * Z :=
  match strides, mask with
  | st :: strides', (lo, hi) :: mask' =>
      if hi <=? lo + 1 then
        let '(out, off) := eliminate strides' mask' (offset + st * lo) in (0 :: out, off)
      else
        let '(out, off) := eliminate strides' mask' offset in (st :: out, off)
  | _, _ => (strides, offset)
  end.

Definition mask_empty (mask : list (Z * Z)) : bool :=
  existsb (fun m => snd m <=? fst m) mask.

Definition create (shape : Shape) (strides : option (list Z)) (offset : Z)
    (mask : option (list (Z * Z))) : res view :=
  let? _ := check shape in
  let? strides :=
    match strides with
    | None => Ok (stridesFor shape)
    | Some st =>
        if bool_decide (length st = length shape) then Ok (canonicalStrides shape st)
        else Err ErrShape
    end in
  if HasZero shape then Ok (mkView shape (zeros (length shape)) 0 None) else
  let? mask :=
    match mask with
    | None => Ok None
    | Some m =>
        if bool_decide (length m = length shape) then
          Ok (if bool_decide (m = full_mask shape) then None else Some m)
        else Err ErrShape
    end in
  match mask with
  | None => Ok (mkView shape strides offset None)
  | Some m =>
      if mask_empty m then
        Ok (mkView shape (zeros (length shape)) 0 (zerosMask (length shape)))
      else
        let '(strides, offset) := eliminate strides m offset in
        Ok (mkView shape strides offset (Some m))
  end.

Definition v_size (v : view) : Z := Size (v_shape v).

Definition contiguous (v : view) : bool :=
  if negb (v_offset v =? 0) || bool_decide (v_mask v <> None) then false
  else if HasZero (v_shape v) then true
  else bool_decide (v_strides v = stridesFor (v_shape v)).

(** ** Addressing *)

Fixpoint index_loop (coords strides : list Z) (mask : option (list (Z * Z)))
    (off : Z) (ok : bool) : Z * bool :=
  match coords with
  | [] => (off, ok)
  | c :: coords' =>
      let off := match strides with st :: _ => off + c * st | [] => off end in
      let ok :=
        match mask with
        | Some ((lo, hi) :: _) => if (c <? lo) || (hi <=? c) then false else ok
        | _ => ok
        end in
      index_loop coords' (tail strides) (option_map (@tail _) mask) off ok
  end.

Definition index (v : view) (coords : list Z) : Z * bool :=
  if bool_decide (length (v_shape v) = O) then (v_offset v, true)
  else index_loop coords (v_strides v) (v_mask v) (v_offset v) true.

(** ** Movement operations *)

Fixpoint isPermutation_loop (axes : list Z) (n : Z) (seen : list bool) : bool :=
  match axes with
  | [] => true
  | a :: rest =>
      if (a <? 0) || (n <=? a) || nth (Z.to_nat a) seen false then false
      else isPermutation_loop rest n (<[Z.to_nat a := true]> seen)
  end.

Definition isPermutation (axes : list Z) (n : nat) : bool :=
  if bool_decide (length axes = n)
  then isPermutation_loop axes (Z.of_nat n) (replicate n false)
  else false.

(** [s[a]] for an index already checked to be in range. *)
Definition at_axis {A} (d : A) (l : list A) (a : Z) : A := nth (Z.to_nat a) l d.

Definition permute (v : view) (axes : list Z) : res view :=
  if negb (isPermutation axes (length (v_shape v))) then Err ErrAxis else
  create (map (at_axis 0 (v_shape v)) axes)
         (Some (map (at_axis 0 (v_strides v)) axes))
         (v_offset v)
         (option_map (fun m => map (at_axis (0, 0) m) axes) (v_mask v)).

Fixpoint expand_ok (from into : Shape) : bool :=
  match from, into with
  | s :: from', d :: into' =>
      if negb (s =? d) && negb (s =? 1) then false else expand_ok from' into'
  | _, _ => true
  end.

Fixpoint expand_mask (from into : Shape) (mask : list (Z * Z)) : list (Z * Z) :=
  match from, into, mask with
  | s :: from', d :: into', m :: mask' =>
      (if negb (s =? d) then
         if negb (bool_decide (m = (0, 1))) then (0, 0) else (0, d)
       else m) :: expand_mask from' into' mask'
  | _, _, _ => []
  end.

Definition expand (v : view) (shape : Shape) : res view :=
  if negb (bool_decide (length shape = length (v_shape v))) then Err ErrExpand else
  if negb (expand_ok (v_shape v) shape) then Err ErrExpand else
  if HasZero (v_shape v) then create shape None 0 None else
  create shape (Some (v_strides v)) (v_offset v)
    (option_map (expand_mask (v_shape v) shape) (v_mask v)).

Fixpoint flip_offset (which : list bool) (shape strides : list Z) (offset : Z) : Z :=
  match which, shape, strides with
  | f :: which', s :: shape', st :: strides' =>
      flip_offset which' shape' strides' (if f then offset + (s - 1) * st else offset)
  | _, _, _ => offset
  end.

Fixpoint flip_strides (which : list bool) (strides : list Z) : list Z :=
  match which, strides with
  | f :: which', st :: strides' => (if f then - st else st) :: flip_strides which' strides'
  | _, _ => strides
  end.

Fixpoint flip_mask (which : list bool) (shape : Shape) (mask : list (Z * Z)) : list (Z * Z) :=
  match which, shape, mask with
  | f :: which', s :: shape', m :: mask' =>
      (if f : bool then (s - snd m, s - fst m) else m) :: flip_mask which' shape' mask'
  | _, _, _ => []
  end.

Definition flip (v : view) (which : list bool) : res view :=
  if negb (bool_decide (length which = length (v_shape v))) then Err ErrAxis else
  create (v_shape v) (Some (flip_strides which (v_strides v)))
    (flip_offset which (v_shape v) (v_strides v) (v_offset v))
    (option_map (flip_mask which (v_shape v)) (v_mask v)).

Fixpoint resize_offset (strides : list Z) (arg : list (Z * Z)) (offset : Z) : Z :=
  match strides, arg with
  | st :: strides', a :: arg' => resize_offset strides' arg' (offset + st * fst a)
  | _, _ => offset
  end.

Fixpoint resize_mask (mask arg : list (Z * Z)) : list (Z * Z) :=
  match mask, arg with
  | (mx, my) :: mask', a :: arg' =>
      (Z.max 0 (Z.min (mx - fst a) (snd a - fst a)),
       Z.max 0 (Z.min (my - fst a) (snd a - fst a))) :: resize_mask mask' arg'
  | _, _ => []
  end.

Definition meet_mask (m1 m2 : list (Z * Z)) : list (Z * Z) :=
  zip_with (fun a b => (Z.max (fst a) (fst b), Z.min (snd a) (snd b))) m1 m2.

Definition resize (v : view) (arg : list (Z * Z)) (mask : option (list (Z * Z))) : res view :=
  let offset := resize_offset (v_strides v) arg (v_offset v) in
  let mask :=
    match v_mask v with
    | None => mask
    | Some vm =>
        let newMask := resize_mask vm arg in
        Some (match mask with None => newMask | Some m => meet_mask newMask m end)
    end in
  create (map (fun a => snd a - fst a) arg) (Some (v_strides v)) offset mask.

Definition pad (v : view) (arg : list (Z * Z)) : res view :=
  if negb (bool_decide (length arg = length (v_shape v))) then Err ErrPad else
  if existsb (fun a => (fst a <? 0) || (snd a <? 0)) arg then Err ErrPad else
  if negb (existsb (fun a => negb (fst a =? 0) || negb (snd a =? 0)) arg) then Ok v else
  resize v (zip_with (fun a s => (- fst a, s + snd a)) arg (v_shape v))
    (Some (zip_with (fun a s => (fst a, s + fst a)) arg (v_shape v))).

Fixpoint shrink_ok (arg : list (Z * Z)) (shape : Shape) : bool :=
  match arg, shape with
  | a :: arg', s :: shape' =>
      if (fst a <? 0) || (snd a <? fst a) || (s <? snd a) then false
      else shrink_ok arg' shape'
  | _, _ => true
  end.

Definition shrink (v : view) (arg : list (Z * Z)) : res view :=
  if negb (bool_decide (length arg = length (v_shape v))) then Err ErrShrink else
  if negb (shrink_ok arg (v_shape v)) then Err ErrShrink else
  resize v arg None.

(** ** Addresses as a partial function *)

(** The buffer offset of a cell, or [None] for padding.  [addr] is what the
    callers of [index] observe: the offset of a masked cell is never read. *)
Definition addr (v : view) (coords : list Z) : option Z :=
  let '(off, ok) := index v coords in if ok then Some off else None.

Fixpoint dot (coords strides : list Z) : Z :=
  match coords, strides with
  | c :: coords', st :: strides' => c * st + dot coords' strides'
  | _, _ => 0
  end.

Fixpoint mask_ok (mask : list (Z * Z)) (coords : list Z) : bool :=
  match mask, coords with
  | (lo, hi) :: mask', c :: coords' => (lo <=? c) && (c <? hi) && mask_ok mask' coords'
  | _, _ => true
  end.

Definition mask_opt_ok (mask : option (list (Z * Z))) (coords : list Z) : bool :=
  match mask with None => true | Some m => mask_ok m coords end.

(** The affine map that [create] is asked for. *)
Definition affine (strides : list Z) (offset : Z) (mask : option (list (Z * Z)))
    (coords : list Z) : option Z :=
  if mask_opt_ok mask coords then Some (offset + dot coords strides) else None.

Lemma index_loop_spec coords strides mask off ok :
  index_loop coords strides mask off ok
  = (off + dot coords strides, ok && mask_opt_ok mask coords).
Proof.
  revert strides mask off ok; induction coords as [|c cs IH]; intros strides mask off ok.
  - simpl. f_equal; [lia|]. destruct mask as [[|[lo hi] m]|]; simpl; rewrite andb_true_r; reflexivity.
  - cbn [index_loop]. rewrite IH. f_equal.
    + destruct strides; simpl; destruct cs; simpl; lia.
    + destruct mask as [[|[lo hi] m]|]; simpl; [destruct cs; reflexivity| |reflexivity].
      rewrite andb_assoc. f_equal.
      destruct (Z.ltb_spec c lo), (Z.leb_spec hi c), (Z.leb_spec lo c), (Z.ltb_spec c hi), ok;
        simpl; try lia; reflexivity.
Qed.

Lemma index_spec v coords :
  length coords = length (v_shape v) ->
  index v coords = (v_offset v + dot coords (v_strides v), mask_opt_ok (v_mask v) coords).
Proof.
  intros H. unfold index. case_bool_decide as E.
  - rewrite E in H. destruct coords; [|discriminate]. simpl. f_equal; [lia|].
    destruct (v_mask v) as [[|[? ?] ?]|]; reflexivity.
  - rewrite index_loop_spec. reflexivity.
Qed.

Lemma addr_spec v coords :
  length coords = length (v_shape v) ->
  addr v coords = affine (v_strides v) (v_offset v) (v_mask v) coords.
Proof. intros H. unfold addr. rewrite index_spec by exact H. reflexivity. Qed.

(** ** What [create] builds *)

Lemma dot_zeros c n : dot c (zeros n) = 0.
Proof.
  unfold zeros. revert c; induction n as [|n IH]; intros [|x c]; simpl; auto.
  rewrite IH; lia.
Qed.

Lemma stridesFor_acc_size s : snd (stridesFor_acc s) = Size s.
Proof.
  induction s as [|d s IH]; simpl; [reflexivity|].
  destruct (stridesFor_acc s); simpl in *. rewrite Size_cons, IH; lia.
Qed.

Lemma stridesFor_cons d s :
  stridesFor (d :: s) = (if d =? 1 then 0 else Size s) :: stridesFor s.
Proof.
  unfold stridesFor; simpl. pose proof (stridesFor_acc_size s).
  destruct (stridesFor_acc s); simpl in *; subst; reflexivity.
Qed.

Lemma length_stridesFor s : length (stridesFor s) = length s.
Proof. induction s as [|d s IH]; [reflexivity|]. rewrite stridesFor_cons; simpl; lia. Qed.

(** Row-major strides number the cells. *)
Lemma dot_stridesFor s c : in_bounds s c -> dot c (stridesFor s) = ravel s c.
Proof.
  induction 1 as [|d x s c Hx H IH]; [reflexivity|].
  rewrite stridesFor_cons. simpl. rewrite IH.
  destruct (Z.eqb_spec d 1); [|lia]. assert (x = 0) by lia. subst x; lia.
Qed.

Lemma length_canonicalStrides s st :
  length (canonicalStrides s st) = length st.
Proof. revert st; induction s; intros [|? st]; simpl; auto. Qed.

Lemma dot_canonicalStrides s st c :
  in_bounds s c -> dot c (canonicalStrides s st) = dot c st.
Proof.
  intros H; revert st; induction H as [|d x s c Hx H IH]; intros [|y st]; simpl; auto.
  rewrite IH. destruct (Z.eqb_spec d 1); [|lia]. assert (x = 0) by lia. subst x; lia.
Qed.

Lemma mask_ok_full s c : in_bounds s c -> mask_ok (full_mask s) c = true.
Proof.
  induction 1 as [|d x s c Hx H IH]; simpl; [reflexivity|]. rewrite IH. lia.
Qed.

Lemma mask_ok_empty m c :
  mask_empty m = true -> length c = length m -> mask_ok m c = false.
Proof.
  unfold mask_empty. revert c; induction m as [|[lo hi] m IH]; intros [|x c] He Hl;
    simpl in *; try discriminate.
  destruct (Z.leb_spec hi lo); simpl in He.
  - destruct (Z.leb_spec lo x), (Z.ltb_spec x hi); simpl; auto; lia.
  - rewrite IH by (auto; lia). apply andb_false_r.
Qed.

Lemma mask_ok_zeros n c : length c = S n -> mask_ok (replicate (S n) (0, 0)) c = false.
Proof.
  intros Hl. apply mask_ok_empty; [reflexivity|]. rewrite length_replicate; exact Hl.
Qed.

Lemma length_eliminate st m off : length (fst (eliminate st m off)) = length st.
Proof.
  revert m off; induction st as [|s st IH]; intros [|[lo hi] m] off; simpl; auto.
  destruct (hi <=? lo + 1).
  - specialize (IH m (off + s * lo)). destruct (eliminate st m _); simpl in *; lia.
  - specialize (IH m off). destruct (eliminate st m _); simpl in *; lia.
Qed.

Lemma eliminate_spec st m off c :
  mask_ok m c = true -> length c = length m -> length st = length m ->
  snd (eliminate st m off) + dot c (fst (eliminate st m off)) = off + dot c st.
Proof.
  revert m off c; induction st as [|s st IH]; intros [|[lo hi] m] off [|x c] Hm Hc Hs;
    simpl in *; try discriminate; try lia.
  apply andb_true_iff in Hm as [Hx Hm]. apply andb_true_iff in Hx as [Hlo Hhi].
  destruct (Z.leb_spec hi (lo + 1)).
  - specialize (IH m (off + s * lo) c Hm). destruct (eliminate st m _) as [out o]; simpl in *.
    assert (x = lo) by lia. subst x. lia.
  - specialize (IH m off c Hm). destruct (eliminate st m _) as [out o]; simpl in *. lia.
Qed.

(** The strides that [create] starts from. *)
Definition given_strides (shape : Shape) (strides : option (list Z)) : list Z :=
  match strides with None => stridesFor shape | Some st => st end.

Lemma create_shape shape st off m v : create shape st off m = Ok v -> v_shape v = shape.
Proof.
  unfold create. intros H.
  apply res_bind_ok in H as ([] & _ & H). apply res_bind_ok in H as (st' & _ & H).
  destruct (HasZero shape); [injection H as <-; reflexivity|].
  apply res_bind_ok in H as (m' & _ & H). destruct m' as [m'|]; [|injection H as <-; reflexivity].
  destruct (mask_empty m'); [injection H as <-; reflexivity|].
  destruct (eliminate st' m' off); injection H as <-; reflexivity.
Qed.

Lemma create_mask_length shape st off m v :
  create shape st off (Some m) = Ok v -> positive_dims shape -> length m = length shape.
Proof.
  unfold create. intros H Hp. apply res_bind_ok in H as ([] & _ & H).
  apply res_bind_ok in H as (st' & _ & H).
  rewrite (proj2 (HasZero_false shape ltac:(eapply Forall_impl; [exact Hp|]; simpl; lia)) Hp) in H.
  simpl in H. case_bool_decide; [assumption|discriminate H].
Qed.

(** The interface of [create] for the rest of the development: the view it
    returns computes exactly the affine map it was given. *)
Lemma create_addr shape st off m v c :
  create shape st off m = Ok v -> in_bounds shape c ->
  addr v c = affine (given_strides shape st) off m c.
Proof.
  intros H Hc. pose proof (create_shape _ _ _ _ _ H) as Hsh.
  pose proof (in_bounds_length _ _ Hc) as Hlc.
  rewrite addr_spec by congruence. revert H. unfold create.
  intros H. apply res_bind_ok in H as ([] & Hck & H).
  apply check_ok in Hck. apply res_bind_ok in H as (st' & Hst & H).
  assert (Hdot : dot c st' = dot c (given_strides shape st) /\ length st' = length shape).
  { destruct st as [st|]; simpl.
    - case_bool_decide as E; [|discriminate]. injection Hst as <-.
      rewrite dot_canonicalStrides, length_canonicalStrides by exact Hc. auto.
    - injection Hst as <-. rewrite length_stridesFor; auto. }
  destruct Hdot as [Hdot Hlst].
  destruct (HasZero shape) eqn:Hz.
  { apply HasZero_true in Hz. apply ravel_bounds in Hc. lia. }
  unfold affine. rewrite <- Hdot.
  destruct m as [m|]; simpl in H; [|injection H as <-; reflexivity].
  case_bool_decide as Hlm; [|discriminate]. simpl in H.
  case_bool_decide as Hfull.
  { injection H as <-. simpl. subst m. rewrite mask_ok_full by exact Hc. reflexivity. }
  destruct (mask_empty m) eqn:He.
  - injection H as <-. simpl. rewrite (mask_ok_empty m c) by (auto; congruence).
    destruct shape as [|d shape]; [destruct m; [discriminate He|discriminate Hlm]|].
    unfold zerosMask. cbn [length mask_opt_ok]. rewrite mask_ok_zeros by exact Hlc. reflexivity.
  - pose proof (eliminate_spec st' m off c) as K.
    destruct (eliminate st' m off) as [st2 off2]; simpl in K. injection H as <-. simpl.
    destruct (mask_ok m c) eqn:Hm; [|reflexivity].
    f_equal. apply K; auto; congruence.
Qed.

#[export] Hint Resolve in_bounds_length : nd.

(** ** The invariant of constructed views

    Every view the package hands out went through [create].  Its strides and
    mask have one entry per axis, an axis of length 1 has stride 0, a mask is
    never the full one, and a mask is either everywhere empty or leaves at
    least one coordinate per axis, the axes left with one having stride 0. *)
Definition mask_valid (shape : Shape) (mask : list (Z * Z)) : Prop :=
  Forall2 (fun d m => 0 <= fst m < snd m /\ snd m <= d) shape mask.

Definition mask_in (shape : Shape) (mask : list (Z * Z)) : Prop :=
  Forall2 (fun d m => 0 <= fst m /\ snd m <= d) shape mask.

Definition canonical_mask (shape : Shape) (strides : list Z) (mask : list (Z * Z)) : Prop :=
  mask <> full_mask shape /\
  ((shape <> [] /\ mask = replicate (length shape) (0, 0)
    /\ strides = zeros (length shape)) \/
   (mask_valid shape mask /\
    Forall2 (fun m st => snd m <= fst m + 1 -> st = 0) mask strides)).

Record canonical (v : view) : Prop := {
  can_nonneg : nonneg (v_shape v);
  can_unit : Forall2 (fun d st => d = 1 -> st = 0) (v_shape v) (v_strides v);
  can_zero : HasZero (v_shape v) = true ->
    v_strides v = zeros (length (v_shape v)) /\ v_offset v = 0 /\ v_mask v = None;
  can_mask : forall m, v_mask v = Some m -> canonical_mask (v_shape v) (v_strides v) m
}.

Lemma can_length v : canonical v -> length (v_strides v) = length (v_shape v).
Proof. intros H. pose proof (Forall2_length _ _ _ (can_unit v H)). congruence. Qed.

Lemma mask_valid_in s m : mask_valid s m -> mask_in s m.
Proof. induction 1; constructor; auto; lia. Qed.

Lemma mask_in_length s m : mask_in s m -> length m = length s.
Proof. intros H. apply Forall2_length in H. auto. Qed.

Lemma zeros_unit s : Forall2 (fun d st => d = 1 -> st = 0) s (zeros (length s)).
Proof. unfold zeros. induction s; simpl; constructor; auto. Qed.

Lemma stridesFor_unit s : Forall2 (fun d st => d = 1 -> st = 0) s (stridesFor s).
Proof.
  induction s as [|d s IH]; [constructor|]. rewrite stridesFor_cons. constructor; [|exact IH].
  intros ->; reflexivity.
Qed.

Lemma canonicalStrides_unit s st :
  length st = length s -> Forall2 (fun d st => d = 1 -> st = 0) s (canonicalStrides s st).
Proof.
  revert st; induction s as [|d s IH]; intros [|y st] H; simpl in *; try discriminate; constructor.
  - intros ->; reflexivity.
  - apply IH; lia.
Qed.

Lemma eliminate_unit s st m off :
  Forall2 (fun d st => d = 1 -> st = 0) s st ->
  Forall2 (fun d st => d = 1 -> st = 0) s (fst (eliminate st m off)).
Proof.
  intros H; revert m off; induction H as [|d y s st Hy H IH]; intros [|[lo hi] m] off; simpl;
    try (constructor; auto).
  destruct (hi <=? lo + 1).
  - specialize (IH m (off + y * lo)). destruct (eliminate st m _); simpl in *. constructor; auto.
  - specialize (IH m off). destruct (eliminate st m _); simpl in *. constructor; auto.
Qed.

Lemma eliminate_narrow st m off :
  length st = length m ->
  Forall2 (fun m st => snd m <= fst m + 1 -> st = 0) m (fst (eliminate st m off)).
Proof.
  revert m off; induction st as [|y st IH]; intros [|[lo hi] m] off H; simpl in *;
    try discriminate; [constructor|].
  destruct (Z.leb_spec hi (lo + 1)).
  - specialize (IH m (off + y * lo)). destruct (eliminate st m _); simpl in *.
    constructor; auto.
  - specialize (IH m off). destruct (eliminate st m _); simpl in *. constructor; auto. simpl; lia.
Qed.

Lemma mask_empty_false s m : mask_in s m -> mask_empty m = false -> mask_valid s m.
Proof.
  unfold mask_empty. induction 1 as [|d [lo hi] s m Hm H IH]; simpl; [constructor|].
  rewrite orb_false_iff. intros [Hlt He]. constructor; [simpl in *; lia|]. apply IH, He.
Qed.

Lemma create_canonical_or_empty shape st off m v :
  create shape st off m = Ok v ->
  (forall m0, m = Some m0 -> mask_in shape m0 \/ mask_empty m0 = true) ->
  canonical v.
Proof.
  unfold create. intros H Hm.
  apply res_bind_ok in H as ([] & Hck & H). apply check_ok in Hck.
  apply res_bind_ok in H as (st' & Hst & H).
  assert (Hu : Forall2 (fun d st => d = 1 -> st = 0) shape st').
  { destruct st as [st|].
    - case_bool_decide as E; [|discriminate]. injection Hst as <-.
      apply canonicalStrides_unit, E.
    - injection Hst as <-. apply stridesFor_unit. }
  destruct (HasZero shape) eqn:Hz.
  { injection H as <-. split; simpl; auto using zeros_unit. discriminate. }
  destruct m as [m|]; simpl in H.
  2: { injection H as <-. split; simpl; auto; [congruence|discriminate]. }
  case_bool_decide as Hlm; [|discriminate]. simpl in H.
  specialize (Hm m eq_refl).
  case_bool_decide as Hfull.
  { injection H as <-. split; simpl; auto; [congruence|discriminate]. }
  destruct (mask_empty m) eqn:He.
  - injection H as <-. split; simpl; auto using zeros_unit; [congruence|].
    intros m0 Hm0. destruct shape as [|d shape]; [discriminate|]. simpl in Hm0.
    injection Hm0 as <-. split.
    + simpl. intros E. injection E as E _. simpl in Hz. subst d. discriminate.
    + left; repeat split; auto.
  - destruct Hm as [Hm|Hm]; [|congruence]. pose proof (mask_empty_false _ _ Hm He) as Hv.
    pose proof (eliminate_unit _ _ m off Hu) as Ku.
    pose proof (eliminate_narrow st' m off) as Kn.
    destruct (eliminate st' m off) as [st2 off2]; simpl in *. injection H as <-.
    split; simpl; auto; [congruence|]. intros m0 Hm0; injection Hm0 as <-.
    split; [exact Hfull|]. right. split; [exact Hv|]. apply Kn.
    apply Forall2_length in Hu. congruence.
Qed.

Lemma create_canonical shape st off m v :
  create shape st off m = Ok v ->
  (forall m0, m = Some m0 -> mask_in shape m0) ->
  canonical v.
Proof. intros H Hm. eapply create_canonical_or_empty; [exact H|]. auto. Qed.

Lemma canonical_mask_in s st m : nonneg s -> canonical_mask s st m -> mask_in s m.
Proof.
  intros Hn [_ [(_ & -> & _)|[H _]]]; [|apply mask_valid_in, H].
  clear st. induction Hn; simpl; constructor; simpl; auto; lia.
Qed.

Lemma can_mask_in v m : canonical v -> v_mask v = Some m -> mask_in (v_shape v) m.
Proof.
  intros Hc Hm. eapply canonical_mask_in; [apply can_nonneg, Hc|]. apply can_mask; auto.
Qed.

(** [create] succeeds exactly on shapes without negative dimensions, with
    one stride and one mask interval per axis. *)
Lemma create_total shape st off m :
  nonneg shape ->
  (forall s, st = Some s -> length s = length shape) ->
  (forall m0, m = Some m0 -> length m0 = length shape) ->
  exists v, create shape st off m = Ok v.
Proof.
  intros Hn Hs Hm. unfold create. rewrite (proj2 (check_ok shape) Hn); simpl.
  destruct st as [st|]; simpl;
    [rewrite bool_decide_true by auto; simpl|]; (destruct (HasZero shape); [eauto|]);
    (destruct m as [m|]; simpl; [|eauto]);
    (rewrite bool_decide_true by auto; simpl);
    (case_bool_decide; [eauto|]); (destruct (mask_empty m); [eauto|]);
    (destruct (eliminate _ m off); eauto).
Qed.

#[export] Hint Resolve can_nonneg can_length can_mask_in mask_in_length : nd.

(** ** Flip *)

Fixpoint flip_coords (which : list bool) (shape : Shape) (coords : list Z) : list Z :=
  match which, shape, coords with
  | f :: which', s :: shape', c :: coords' =>
      (if f : bool then s - 1 - c else c) :: flip_coords which' shape' coords'
  | _, _, _ => coords
  end.

Lemma flip_coords_in_bounds w s c :
  in_bounds s c -> in_bounds s (flip_coords w s c).
Proof.
  intros H; revert w; induction H as [|d x s c Hx H IH]; intros [|f w]; simpl.
  1-2: apply in_bounds_nil; reflexivity.
  all: apply in_bounds_cons; do 2 eexists; split; [reflexivity|]; split; auto; destruct f; lia.
Qed.

Lemma flip_dot w s st off c :
  length w = length s -> length st = length s -> length c = length s ->
  flip_offset w s st off + dot c (flip_strides w st) = off + dot (flip_coords w s c) st.
Proof.
  revert w st off c; induction s as [|d s IH]; intros [|f w] [|y st] off [|x c] Hw Hs Hc;
    simpl in *; try discriminate; [lia|].
  destruct f.
  - pose proof (IH w st (off + (d - 1) * y) c). lia.
  - pose proof (IH w st off c). lia.
Qed.

Lemma flip_mask_ok w s m c :
  length w = length s -> length m = length s -> length c = length s ->
  mask_ok (flip_mask w s m) c = mask_ok m (flip_coords w s c).
Proof.
  revert w m c; induction s as [|d s IH]; intros [|f w] [|[lo hi] m] [|x c] Hw Hm Hc;
    simpl in *; try discriminate; [reflexivity|].
  rewrite <- IH by lia. destruct f; simpl; [|reflexivity]. f_equal.
  destruct (Z.leb_spec (d - hi) x), (Z.ltb_spec x (d - lo)), (Z.leb_spec lo (d - 1 - x)),
    (Z.ltb_spec (d - 1 - x) hi); simpl; lia.
Qed.

Lemma flip_mask_in w s m :
  length w = length s -> mask_in s m -> mask_in s (flip_mask w s m).
Proof.
  intros Hw H; revert w Hw; induction H as [|d [lo hi] s m Hm H IH]; intros [|f w] Hw;
    simpl in *; try discriminate; constructor.
  - destruct f; simpl; lia.
  - apply IH; lia.
Qed.

Lemma length_flip_strides w st : length (flip_strides w st) = length st.
Proof. revert w; induction st; intros [|f w]; simpl; auto. Qed.

Lemma flip_canonical v w v' : canonical v -> flip v w = Ok v' -> canonical v'.
Proof.
  intros Hc. unfold flip. case_bool_decide as E; simpl; [|discriminate]. intros H.
  eapply create_canonical; [exact H|]. intros m0 Hm.
  destruct (v_mask v) as [m|] eqn:Em; [|discriminate]. injection Hm as <-.
  apply flip_mask_in; eauto with nd.
Qed.

Lemma flip_shape v w v' : flip v w = Ok v' -> v_shape v' = v_shape v.
Proof.
  unfold flip. case_bool_decide; simpl; [|discriminate]. apply create_shape.
Qed.

Lemma flip_addr v w v' c :
  canonical v -> flip v w = Ok v' -> in_bounds (v_shape v) c ->
  addr v' c = addr v (flip_coords w (v_shape v) c).
Proof.
  intros Hv. unfold flip. case_bool_decide as E; simpl; [|discriminate]. intros H Hc.
  rewrite (create_addr _ _ _ _ _ _ H Hc).
  rewrite addr_spec by eauto using flip_coords_in_bounds with nd.
  unfold affine; simpl. rewrite flip_dot by eauto with nd.
  destruct (v_mask v) as [m|] eqn:Em; simpl; [|reflexivity].
  rewrite flip_mask_ok by eauto with nd. reflexivity.
Qed.

Lemma flip_total v w :
  canonical v -> length w = length (v_shape v) -> exists v', flip v w = Ok v'.
Proof.
  intros Hc E. unfold flip. rewrite bool_decide_true by exact E; simpl.
  apply create_total; [eauto with nd| |].
  - intros s [= <-]. rewrite length_flip_strides; eauto with nd.
  - intros m0 Hm. destruct (v_mask v) as [m|] eqn:Em; [|discriminate]. injection Hm as <-.
    eapply mask_in_length, flip_mask_in; eauto with nd.
Qed.

(** ** Expand *)

Definition expand_coords (from : Shape) (coords : list Z) : list Z :=
  zip_with (fun s c => if s =? 1 then 0 else c) from coords.

Lemma expand_ok_spec s d :
  length d = length s ->
  expand_ok s d = true <-> Forall2 (fun a b => a = b \/ a = 1) s d.
Proof.
  revert d; induction s as [|a s IH]; intros [|b d] H; simpl in *; try discriminate.
  - split; auto.
  - specialize (IH d). destruct (Z.eqb_spec a b), (Z.eqb_spec a 1); simpl;
      rewrite ?IH by lia; (split; [intros K|intros K; inversion K; subst]);
      try discriminate; auto; lia.
Qed.

Lemma expand_coords_in_bounds s d c :
  Forall2 (fun a b => a = b \/ a = 1) s d -> in_bounds d c ->
  in_bounds s (expand_coords s c).
Proof.
  intros H; revert c; induction H as [|a b s d Hab H IH]; intros c Hc.
  - apply in_bounds_nil in Hc as ->. constructor.
  - apply in_bounds_cons in Hc as (x & c' & -> & Hx & Hc). simpl.
    constructor; [destruct (Z.eqb_spec a 1); lia | apply IH, Hc].
Qed.

Lemma expand_dot s st d c :
  Forall2 (fun a st => a = 1 -> st = 0) s st ->
  Forall2 (fun a b => a = b \/ a = 1) s d -> in_bounds d c ->
  dot c st = dot (expand_coords s c) st.
Proof.
  intros Hu; revert d c; induction Hu as [|a y s st Hy Hu IH]; intros d c Hd Hc.
  - inversion Hd; subst. apply in_bounds_nil in Hc as ->. reflexivity.
  - inversion Hd as [|? b ? d' Hab Hd']; subst.
    apply in_bounds_cons in Hc as (x & c' & -> & Hx & Hc). simpl.
    rewrite (IH d' c' Hd' Hc). destruct (Z.eqb_spec a 1); [rewrite Hy by auto|]; lia.
Qed.

Lemma expand_mask_valid s m d c :
  mask_valid s m -> Forall2 (fun a b => a = b \/ a = 1) s d -> in_bounds d c ->
  mask_ok (expand_mask s d m) c = mask_ok m (expand_coords s c).
Proof.
  intros Hm; revert d c; induction Hm as [|a [lo hi] s m Hlh Hm IH]; intros d c Hd Hc.
  - inversion Hd; subst. reflexivity.
  - inversion Hd as [|? b ? d' Hab Hd']; subst.
    apply in_bounds_cons in Hc as (x & c' & -> & Hx & Hc).
    simpl in Hlh |- *. destruct (Z.eqb_spec a b); simpl; rewrite (IH d' c' Hd' Hc).
    + subst b. destruct (Z.eqb_spec a 1); [|reflexivity]. assert (x = 0) by lia. subst; reflexivity.
    + assert (a = 1) as -> by lia. assert (lo = 0) as -> by lia. assert (hi = 1) as -> by lia.
      rewrite bool_decide_true by reflexivity; simpl.
      replace (0 <=? x) with true by lia. replace (x <? b) with true by lia. reflexivity.
Qed.

Lemma expand_mask_zeros s d :
  Forall2 (fun a b => a = b \/ a = 1) s d ->
  expand_mask s d (replicate (length s) (0, 0)) = replicate (length s) (0, 0).
Proof.
  induction 1 as [|a b s d Hab H IH]; simpl; [reflexivity|]. rewrite IH. f_equal.
  destruct (a =? b); simpl; reflexivity.
Qed.

Lemma expand_mask_in s m d :
  nonneg d -> mask_in s m -> Forall2 (fun a b => a = b \/ a = 1) s d ->
  mask_in d (expand_mask s d m).
Proof.
  intros Hn Hm; revert d Hn; induction Hm as [|a [lo hi] s m Hlh Hm IH]; intros d Hn Hd.
  - inversion Hd; subst; constructor.
  - inversion Hd as [|? b ? d' Hab Hd']; subst. inversion Hn; subst. simpl. constructor.
    + destruct (Z.eqb_spec a b); simpl in *; [lia|]. case_bool_decide; simpl; lia.
    + apply IH; auto.
Qed.

(** A zero axis cannot be broadcast away. *)
Lemma expand_zero s d c :
  HasZero s = true -> Forall2 (fun a b => a = b \/ a = 1) s d -> in_bounds d c -> False.
Proof.
  intros Hz Hd Hc. pose proof (expand_coords_in_bounds _ _ _ Hd Hc) as K.
  apply ravel_bounds in K. apply HasZero_true in Hz. lia.
Qed.

Lemma expand_inv v s v' :
  expand v s = Ok v' ->
  length s = length (v_shape v) /\ Forall2 (fun a b => a = b \/ a = 1) (v_shape v) s /\
  v_shape v' = s.
Proof.
  unfold expand. case_bool_decide as E; simpl; [|discriminate].
  destruct (expand_ok (v_shape v) s) eqn:Ho; simpl; [|discriminate].
  apply expand_ok_spec in Ho; [|exact E]. intros H. split; [exact E|]. split; [exact Ho|].
  destruct (HasZero (v_shape v)); eapply create_shape; exact H.
Qed.

Lemma create_nonneg s st off m v : create s st off m = Ok v -> nonneg s.
Proof.
  unfold create. intros H. apply res_bind_ok in H as ([] & H & _). apply check_ok, H.
Qed.

Lemma expand_canonical v s v' : canonical v -> expand v s = Ok v' -> canonical v'.
Proof.
  intros Hv H. destruct (expand_inv _ _ _ H) as (E & Ho & Hs). revert H.
  unfold expand. rewrite bool_decide_true by exact E; simpl.
  rewrite (proj2 (expand_ok_spec _ _ E) Ho); simpl.
  destruct (HasZero (v_shape v)) eqn:Hz; intros H.
  - eapply create_canonical; [exact H|discriminate].
  - eapply create_canonical; [exact H|]. intros m0 Hm.
    destruct (v_mask v) as [m|] eqn:Em; [|discriminate]. injection Hm as <-.
    apply expand_mask_in; eauto using create_nonneg with nd.
Qed.

Lemma expand_addr v s v' c :
  canonical v -> expand v s = Ok v' -> in_bounds s c ->
  addr v' c = addr v (expand_coords (v_shape v) c).
Proof.
  intros Hv H Hc. destruct (expand_inv _ _ _ H) as (E & Ho & Hs). revert H.
  unfold expand. rewrite bool_decide_true by exact E; simpl.
  rewrite (proj2 (expand_ok_spec _ _ E) Ho); simpl.
  destruct (HasZero (v_shape v)) eqn:Hz; intros H; [exfalso; eauto using expand_zero|].
  rewrite (create_addr _ _ _ _ _ _ H Hc).
  pose proof (expand_coords_in_bounds _ _ _ Ho Hc) as Hc'.
  rewrite addr_spec by eauto with nd. unfold affine; simpl.
  rewrite (expand_dot _ _ _ _ (can_unit v Hv) Ho Hc).
  destruct (v_mask v) as [m|] eqn:Em; simpl; [|reflexivity].
  destruct (can_mask v Hv m Em) as [_ [(Hne & -> & _)|[Hval _]]].
  - rewrite expand_mask_zeros by exact Ho. destruct (v_shape v) as [|a sh]; [congruence|].
    cbn [length] in *.
    rewrite !mask_ok_zeros; auto; apply in_bounds_length in Hc, Hc'; simpl in *; congruence.
  - rewrite (expand_mask_valid _ _ _ _ Hval Ho Hc). reflexivity.
Qed.

(** ** Resize: the common part of pad and shrink *)

Definition shift_coords (arg : list (Z * Z)) (coords : list Z) : list Z :=
  zip_with (fun a c => c + fst a) arg coords.

Definition extents (arg : list (Z * Z)) : Shape := map (fun a => snd a - fst a) arg.

Lemma shift_dot st arg off c :
  length arg = length st -> length c = length st ->
  resize_offset st arg off + dot c st = off + dot (shift_coords arg c) st.
Proof.
  revert arg off c; induction st as [|y st IH]; intros [|a arg] off [|x c] Ha Hc;
    simpl in *; try discriminate; [lia|].
  pose proof (IH arg (off + y * fst a) c). lia.
Qed.

Lemma resize_mask_ok m arg c :
  in_bounds (extents arg) c -> length m = length arg ->
  mask_ok (resize_mask m arg) c = mask_ok m (shift_coords arg c).
Proof.
  unfold extents. revert m c; induction arg as [|[a b] arg IH]; intros [|[lo hi] m] c Hc Hl;
    simpl in *; try discriminate; [destruct c; reflexivity|].
  apply in_bounds_cons in Hc as (x & c' & -> & Hx & Hc).
  simpl. rewrite (IH m c' Hc) by lia. f_equal.
  destruct (Z.leb_spec (Z.max 0 (Z.min (lo - a) (b - a))) x),
    (Z.ltb_spec x (Z.max 0 (Z.min (hi - a) (b - a)))),
    (Z.leb_spec lo (x + a)), (Z.ltb_spec (x + a) hi); simpl; lia.
Qed.

Lemma meet_mask_ok m1 m2 c :
  length m1 = length m2 -> length c = length m1 ->
  mask_ok (meet_mask m1 m2) c = mask_ok m1 c && mask_ok m2 c.
Proof.
  unfold meet_mask. revert m2 c; induction m1 as [|[l1 h1] m1 IH]; intros [|[l2 h2] m2] [|x c] Hl Hc;
    simpl in *; try discriminate; auto.
  rewrite IH by lia.
  destruct (Z.leb_spec (Z.max l1 l2) x), (Z.ltb_spec x (Z.min h1 h2)), (Z.leb_spec l1 x),
    (Z.ltb_spec x h1), (Z.leb_spec l2 x), (Z.ltb_spec x h2); simpl; try lia;
    destruct (mask_ok m1 c); reflexivity.
Qed.

Lemma length_resize_mask m arg : length m = length arg -> length (resize_mask m arg) = length arg.
Proof.
  revert arg; induction m as [|[lo hi] m IH]; intros [|a arg] H; simpl in *; try discriminate; auto.
Qed.

Lemma resize_mask_in m arg :
  nonneg (extents arg) -> length m = length arg -> mask_in (extents arg) (resize_mask m arg).
Proof.
  unfold extents, mask_in. revert m; induction arg as [|a arg IH]; intros [|[lo hi] m] Hn Hl;
    simpl in *; try discriminate; constructor; inversion Hn; subst; simpl; try lia.
  apply IH; auto.
Qed.

Lemma meet_mask_in s m1 m2 : mask_in s m1 -> mask_in s m2 -> mask_in s (meet_mask m1 m2).
Proof.
  unfold meet_mask, mask_in. intros H; revert m2; induction H as [|d m s m1 Hm H IH]; intros m2 H2;
    inversion H2; subst; simpl; constructor; simpl; [lia|]. apply IH; auto.
Qed.

Lemma resize_shape v arg m v' : resize v arg m = Ok v' -> v_shape v' = extents arg.
Proof. apply create_shape. Qed.

Lemma resize_canonical v arg m v' :
  canonical v -> length arg = length (v_shape v) ->
  (forall m0, m = Some m0 -> mask_in (extents arg) m0) ->
  resize v arg m = Ok v' -> canonical v'.
Proof.
  intros Hv Hl Hm H. unfold resize in H. pose proof (create_nonneg _ _ _ _ _ H) as Hn.
  eapply create_canonical; [exact H|]. intros m0 Hm0.
  destruct (v_mask v) as [vm|] eqn:Ev; [|exact (Hm m0 Hm0)].
  assert (Hlm : length vm = length arg) by (rewrite Hl; eauto with nd).
  injection Hm0 as <-. destruct m as [m|]; [apply meet_mask_in|]; auto using resize_mask_in.
Qed.

Lemma resize_addr v arg m v' c :
  canonical v -> length arg = length (v_shape v) ->
  (forall m0, m = Some m0 -> length m0 = length arg) ->
  resize v arg m = Ok v' -> in_bounds (extents arg) c ->
  addr v' c = if mask_opt_ok m c then addr v (shift_coords arg c) else None.
Proof.
  intros Hv Hl Hm H Hc. unfold resize in H.
  assert (Hlc : length c = length arg).
  { rewrite (in_bounds_length _ _ Hc). unfold extents. apply length_map. }
  rewrite (create_addr _ _ _ _ _ _ H Hc).
  rewrite addr_spec by (unfold shift_coords; rewrite length_zip_with; lia).
  unfold affine; simpl. rewrite shift_dot by (rewrite ?(can_length v Hv); congruence).
  destruct (v_mask v) as [vm|] eqn:Ev; simpl.
  2: { destruct (mask_opt_ok m c); reflexivity. }
  assert (Hlm : length vm = length arg) by (rewrite Hl; eauto with nd).
  destruct m as [m|]; simpl.
  - rewrite meet_mask_ok by (rewrite length_resize_mask by exact Hlm; auto; symmetry; auto).
    rewrite resize_mask_ok by auto.
    destruct (mask_ok m c), (mask_ok vm (shift_coords arg c)); reflexivity.
  - rewrite resize_mask_ok by auto. reflexivity.
Qed.

Lemma resize_total v arg m :
  canonical v -> length arg = length (v_shape v) -> nonneg (extents arg) ->
  (forall m0, m = Some m0 -> length m0 = length arg) -> exists v', resize v arg m = Ok v'.
Proof.
  intros Hv Hl Hn Hm. apply create_total; [exact Hn| |].
  - intros s [= <-]. unfold extents. rewrite length_map, Hl. eauto with nd.
  - intros m0 Hm0. rewrite length_map. destruct (v_mask v) as [vm|] eqn:Ev; [|auto].
    assert (Hlm : length vm = length arg) by (rewrite Hl; eauto with nd).
    injection Hm0 as <-. destruct m as [m|]; [|apply length_resize_mask, Hlm].
    unfold meet_mask. rewrite length_zip_with, length_resize_mask, (Hm m eq_refl) by auto. lia.
Qed.

(** ** Shrink *)

Lemma shrink_ok_spec arg s :
  length arg = length s ->
  shrink_ok arg s = true <-> Forall2 (fun a d => 0 <= fst a <= snd a /\ snd a <= d) arg s.
Proof.
  revert s; induction arg as [|a arg IH]; intros [|d s] H; simpl in *; try discriminate.
  - split; auto.
  - specialize (IH s).
    destruct (Z.ltb_spec (fst a) 0), (Z.ltb_spec (snd a) (fst a)), (Z.ltb_spec d (snd a)); simpl;
      rewrite ?IH by lia; (split; [intros K|intros K; inversion K; subst]);
      try discriminate; auto; lia.
Qed.

Lemma shrink_inv v arg v' :
  shrink v arg = Ok v' ->
  length arg = length (v_shape v) /\
  Forall2 (fun a d => 0 <= fst a <= snd a /\ snd a <= d) arg (v_shape v) /\
  resize v arg None = Ok v'.
Proof.
  unfold shrink. case_bool_decide as E; simpl; [|discriminate].
  destruct (shrink_ok arg (v_shape v)) eqn:Ho; simpl; [|discriminate].
  apply shrink_ok_spec in Ho; auto.
Qed.

Lemma shrink_canonical v arg v' : canonical v -> shrink v arg = Ok v' -> canonical v'.
Proof.
  intros Hv H. apply shrink_inv in H as (E & _ & H).
  eapply resize_canonical; eauto. discriminate.
Qed.

Lemma shrink_addr v arg v' c :
  canonical v -> shrink v arg = Ok v' -> in_bounds (extents arg) c ->
  addr v' c = addr v (shift_coords arg c).
Proof.
  intros Hv H Hc. apply shrink_inv in H as (E & _ & H).
  rewrite (resize_addr v arg None v' c) by (auto; discriminate). reflexivity.
Qed.

Lemma shrink_coords_in_bounds arg s c :
  Forall2 (fun a d => 0 <= fst a <= snd a /\ snd a <= d) arg s ->
  in_bounds (extents arg) c -> in_bounds s (shift_coords arg c).
Proof.
  unfold extents, shift_coords. intros H; revert c; induction H as [|a d arg s Ha H IH]; intros c Hc.
  - apply in_bounds_nil in Hc as ->. constructor.
  - apply in_bounds_cons in Hc as (x & c' & -> & Hx & Hc). simpl.
    constructor; [lia | apply IH, Hc].
Qed.

(** ** Pad *)

Definition pad_mask (arg : list (Z * Z)) (shape : Shape) : list (Z * Z) :=
  zip_with (fun a s => (fst a, s + fst a)) arg shape.

Definition padded (arg : list (Z * Z)) (shape : Shape) : Shape :=
  zip_with (fun a s => fst a + s + snd a) arg shape.

Definition pad_coords (arg : list (Z * Z)) (coords : list Z) : list Z :=
  zip_with (fun a c => c - fst a) arg coords.

Lemma pad_extents arg s :
  extents (zip_with (fun a s => (- fst a, s + snd a)) arg s) = padded arg s.
Proof.
  unfold extents, padded. revert s; induction arg as [|a arg IH]; intros [|d s]; simpl; auto.
  rewrite IH. f_equal; lia.
Qed.

Lemma pad_shift arg s c :
  length s = length arg ->
  shift_coords (zip_with (fun a s => (- fst a, s + snd a)) arg s) c = pad_coords arg c.
Proof.
  unfold shift_coords, pad_coords. revert s c; induction arg as [|a arg IH];
    intros [|d s] [|x c] H; simpl in *; try discriminate; auto.
  rewrite IH by lia. f_equal; lia.
Qed.

Definition pad_valid (arg : list (Z * Z)) : Prop := Forall (fun a => 0 <= fst a /\ 0 <= snd a) arg.

Lemma pad_valid_spec arg :
  existsb (fun a => (fst a <? 0) || (snd a <? 0)) arg = false <-> pad_valid arg.
Proof.
  unfold pad_valid. rewrite existsb_Forall, !Forall_forall. split; intros H x Hx; specialize (H x Hx); lia.
Qed.

Lemma pad_mask_in arg s :
  pad_valid arg -> nonneg s -> length arg = length s -> mask_in (padded arg s) (pad_mask arg s).
Proof.
  unfold padded, pad_mask, mask_in. intros H; revert s; induction H as [|a arg Ha H IH];
    intros [|d s] Hs Hl; simpl in *; try discriminate; constructor; inversion Hs; subst; simpl.
  - lia.
  - apply IH; auto.
Qed.

Lemma pad_inv v arg v' :
  pad v arg = Ok v' ->
  length arg = length (v_shape v) /\ pad_valid arg /\
  ((Forall (fun a => a = (0, 0)) arg /\ v' = v) \/
   resize v (zip_with (fun a s => (- fst a, s + snd a)) arg (v_shape v))
     (Some (pad_mask arg (v_shape v))) = Ok v').
Proof.
  unfold pad. intros H. revert H. case_bool_decide as E; simpl; [|discriminate].
  destruct (existsb (fun a => (fst a <? 0) || (snd a <? 0)) arg) eqn:Ho; [discriminate|].
  apply pad_valid_spec in Ho.
  destruct (existsb (fun a => negb (fst a =? 0) || negb (snd a =? 0)) arg) eqn:Hch; simpl.
  - auto.
  - intros H. injection H as <-. split; [exact E|]. split; [exact Ho|]. left. split; [|reflexivity].
    apply existsb_Forall in Hch. eapply Forall_impl; [exact Hch|]. simpl. intros [a b]; simpl.
    intros. f_equal; lia.
Qed.

Lemma padded_zero arg s :
  length arg = length s -> Forall (fun a => a = (0, 0)) arg -> padded arg s = s.
Proof.
  unfold padded. revert s; induction arg as [|a arg IH]; intros [|d s] Hl H; simpl in *;
    try discriminate; auto. inversion H; subst. rewrite IH by (auto; lia). simpl. f_equal; lia.
Qed.

Lemma pad_shape v arg v' : pad v arg = Ok v' -> v_shape v' = padded arg (v_shape v).
Proof.
  intros H. apply pad_inv in H as (E & _ & [[Hz ->]|H]).
  - symmetry. apply padded_zero; auto.
  - rewrite (resize_shape _ _ _ _ H). apply pad_extents.
Qed.

Lemma pad_arg_length (arg : list (Z * Z)) (s : Shape) :
  length arg = length s ->
  length (zip_with (fun a s => (- fst a, s + snd a)) arg s) = length s.
Proof. intros. rewrite length_zip_with; lia. Qed.

Lemma pad_canonical v arg v' : canonical v -> pad v arg = Ok v' -> canonical v'.
Proof.
  intros Hv H. apply pad_inv in H as (E & Hp & [[Hz ->]|H]); [exact Hv|].
  eapply resize_canonical; [exact Hv| | |exact H].
  - apply pad_arg_length, E.
  - intros m0 [= <-]. rewrite pad_extents. apply pad_mask_in; eauto with nd.
Qed.

Lemma pad_zero_coords arg c :
  length arg = length c -> Forall (fun a => a = (0, 0)) arg -> pad_coords arg c = c.
Proof.
  unfold pad_coords. revert c; induction arg as [|a arg IH]; intros [|x c] Hl H; simpl in *;
    try discriminate; auto. inversion H; subst. rewrite IH by (auto; lia). simpl. f_equal; lia.
Qed.

Lemma pad_zero_mask arg s c :
  Forall (fun a => a = (0, 0)) arg -> length arg = length s -> in_bounds s c ->
  mask_ok (pad_mask arg s) c = true.
Proof.
  unfold pad_mask. intros H; revert s c; induction H as [|a arg -> H IH]; intros s c Hl Hc.
  - reflexivity.
  - destruct s as [|d s]; [discriminate|]. apply in_bounds_cons in Hc as (x & c' & -> & Hx & Hc).
    simpl. rewrite IH by (auto; simpl in Hl; lia). lia.
Qed.

(** A padded view is the old one moved by the leading padding, and padding
    outside. *)
Lemma pad_addr v arg v' c :
  canonical v -> pad v arg = Ok v' -> in_bounds (v_shape v') c ->
  addr v' c = if mask_ok (pad_mask arg (v_shape v)) c then addr v (pad_coords arg c) else None.
Proof.
  intros Hv H Hc. rewrite (pad_shape _ _ _ H) in Hc.
  apply pad_inv in H as (E & Hp & [[Hz ->]|H]).
  - rewrite padded_zero in Hc by auto. rewrite pad_zero_mask by auto.
    rewrite pad_zero_coords by (auto; apply in_bounds_length in Hc; congruence). reflexivity.
  - rewrite <- pad_extents in Hc.
    assert (Hlm : forall m0, Some (pad_mask arg (v_shape v)) = Some m0 ->
      length m0 = length (zip_with (fun a s => (- fst a, s + snd a)) arg (v_shape v))).
    { intros m0 [= <-]. unfold pad_mask. rewrite !length_zip_with. reflexivity. }
    rewrite (resize_addr _ _ _ _ _ Hv (pad_arg_length _ _ E) Hlm H Hc).
    simpl. rewrite pad_shift by auto. reflexivity.
Qed.

(** The unpadded coordinates of an unmasked cell are inside the old view. *)
Lemma pad_coords_in_bounds arg s c :
  length arg = length s -> length c = length s -> mask_ok (pad_mask arg s) c = true ->
  in_bounds s (pad_coords arg c).
Proof.
  unfold pad_mask, pad_coords. revert s c; induction arg as [|a arg IH]; intros [|d s] [|x c] Hl Hc H;
    simpl in *; try discriminate; [constructor|].
  apply andb_true_iff in H as [Hx H]. constructor; [lia|]. apply IH; auto.
Qed.

(** ** Permute *)

Lemma isPermutation_loop_spec axes n seen :
  length seen = n ->
  isPermutation_loop axes (Z.of_nat n) seen = true <->
  NoDup axes /\ Forall (fun a => 0 <= a < Z.of_nat n /\ nth (Z.to_nat a) seen false = false) axes.
Proof.
  revert seen; induction axes as [|a axes IH]; intros seen Hl; simpl.
  - split; [intros _; split; constructor|reflexivity].
  - destruct (Z.ltb_spec a 0), (Z.leb_spec (Z.of_nat n) a); simpl;
      try (split; [discriminate|]; intros [_ K]; inversion K; lia).
    destruct (nth (Z.to_nat a) seen false) eqn:Es.
    { split; [discriminate|]. intros [_ K]. inversion K; subst. destruct H3; congruence. }
    rewrite IH by (rewrite length_insert; exact Hl).
    rewrite NoDup_cons, Forall_cons, !Forall_forall. split.
    + intros [Hnd Hf]. split; [split; [|exact Hnd]|split; [auto|]].
      * intros Hin. destruct (Hf a Hin) as [_ Hs].
        rewrite nth_lookup, list_lookup_insert_eq in Hs by lia. discriminate.
      * intros b Hb. destruct (Hf b Hb) as [Hr Hs]. split; [exact Hr|].
        destruct (decide (b = a)) as [->|Hne]; [exact Es|].
        rewrite nth_lookup, list_lookup_insert_ne in Hs by lia.
        rewrite nth_lookup. exact Hs.
    + intros [[Hnin Hnd] [_ Hf]]. split; [exact Hnd|]. intros b Hb.
      destruct (Hf b Hb) as [Hr Hs]. split; [exact Hr|].
      assert (b <> a) by (intros ->; auto).
      rewrite nth_lookup, list_lookup_insert_ne by lia. rewrite <- nth_lookup. exact Hs.
Qed.

Lemma isPermutation_spec axes n :
  isPermutation axes n = true <-> Permutation axes (seqZ 0 (Z.of_nat n)).
Proof.
  unfold isPermutation. case_bool_decide as E.
  - rewrite isPermutation_loop_spec by apply length_replicate. split.
    + intros [Hnd Hf].
      apply submseteq_length_Permutation.
      * apply NoDup_submseteq; [exact Hnd|]. intros a Ha. rewrite Forall_forall in Hf.
        apply elem_of_seqZ. destruct (Hf a Ha); lia.
      * rewrite length_seqZ. lia.
    + intros Hp. split.
      * eapply NoDup_Permutation_proper; [exact Hp|]. apply NoDup_seqZ.
      * apply Forall_forall. intros a Ha. rewrite Hp in Ha. apply elem_of_seqZ in Ha.
        split; [lia|]. rewrite nth_lookup, lookup_replicate_2 by lia. reflexivity.
  - split; [discriminate|]. intros Hp. apply Permutation_length in Hp.
    rewrite length_seqZ in Hp. lia.
Qed.

Definition permute_coords (axes coords : list Z) : list Z := map (at_axis 0 coords) axes.

Fixpoint sumZ (l : list Z) : Z := match l with [] => 0 | x :: l' => x + sumZ l' end.

Lemma sumZ_permutation l l' : Permutation l l' -> sumZ l = sumZ l'.
Proof. induction 1; simpl; lia. Qed.

Lemma map_at_axis_seq {A} (d : A) l k n :
  length l = n -> 0 <= k ->
  map (fun a => at_axis d l (a - k)) (seqZ k (Z.of_nat n)) = l.
Proof.
  intros Hl Hk. revert k Hk n Hl; induction l as [|x l IH]; intros k Hk n Hl; subst n; [reflexivity|].
  cbn [length]. rewrite Nat2Z.inj_succ, seqZ_cons by lia.
  rewrite Z.pred_succ. simpl. f_equal.
  - unfold at_axis. replace (k - k) with 0 by lia. reflexivity.
  - rewrite <- (IH (Z.succ k) ltac:(lia) (length l) eq_refl) at 2.
    apply map_ext_in. intros a Ha. apply list_elem_of_In, elem_of_seqZ in Ha.
    unfold at_axis. replace (Z.to_nat (a - k)) with (S (Z.to_nat (a - Z.succ k))) by lia.
    reflexivity.
Qed.

Lemma map_at_axis_id {A} (d : A) l : map (at_axis d l) (seqZ 0 (Z.of_nat (length l))) = l.
Proof.
  transitivity (map (fun a => at_axis d l (a - 0)) (seqZ 0 (Z.of_nat (length l)))).
  - apply map_ext. intros a. f_equal. lia.
  - apply map_at_axis_seq; auto; lia.
Qed.

Lemma dot_sum c st axes :
  dot (map (at_axis 0 c) axes) (map (at_axis 0 st) axes)
  = sumZ (map (fun a => at_axis 0 c a * at_axis 0 st a) axes).
Proof. induction axes as [|a axes IH]; simpl; [reflexivity|]. rewrite IH. reflexivity. Qed.

Lemma permute_dot n axes c st :
  Permutation axes (seqZ 0 (Z.of_nat n)) -> length c = n -> length st = n ->
  dot (permute_coords axes c) (map (at_axis 0 st) axes) = dot c st.
Proof.
  intros Hp Hc Hs. unfold permute_coords. rewrite dot_sum.
  rewrite (sumZ_permutation _ _ (Permutation_map _ Hp)).
  rewrite <- dot_sum.
  rewrite <- Hc at 1. rewrite map_at_axis_id. rewrite <- Hs, map_at_axis_id. reflexivity.
Qed.

Definition in_interval (m : Z * Z) (x : Z) : bool := (fst m <=? x) && (x <? snd m).

Lemma mask_ok_forallb c m axes :
  mask_ok (map (at_axis (0, 0) m) axes) (map (at_axis 0 c) axes)
  = forallb (fun a => in_interval (at_axis (0, 0) m a) (at_axis 0 c a)) axes.
Proof.
  induction axes as [|a axes IH]; simpl; [reflexivity|]. rewrite IH.
  unfold in_interval. destruct (at_axis (0, 0) m a); reflexivity.
Qed.

Lemma forallb_permutation {A} (f : A -> bool) l l' :
  Permutation l l' -> forallb f l = forallb f l'.
Proof.
  induction 1; simpl; auto; [congruence| |congruence].
  rewrite !andb_assoc, (andb_comm (f _) (f _)). reflexivity.
Qed.

Lemma permute_mask_ok n axes c m :
  Permutation axes (seqZ 0 (Z.of_nat n)) -> length c = n -> length m = n ->
  mask_ok (map (at_axis (0, 0) m) axes) (permute_coords axes c) = mask_ok m c.
Proof.
  intros Hp Hc Hm. unfold permute_coords. rewrite mask_ok_forallb.
  rewrite (forallb_permutation _ _ _ Hp), <- mask_ok_forallb.
  rewrite <- Hc at 1. rewrite Hc, <- Hm at 1. rewrite map_at_axis_id.
  rewrite <- Hc, map_at_axis_id. reflexivity.
Qed.

Lemma Forall2_at_axis {A B} (P : A -> B -> Prop) dA dB la lb axes n :
  Forall2 P la lb -> length la = n -> Forall (fun a => 0 <= a < Z.of_nat n) axes ->
  Forall2 P (map (at_axis dA la) axes) (map (at_axis dB lb) axes).
Proof.
  intros H Hl Hf. induction Hf as [|a axes Ha Hf IH]; simpl; constructor; [|exact IH].
  unfold at_axis. rewrite !nth_lookup.
  destruct (lookup_lt_is_Some_2 la (Z.to_nat a)) as [x Hx]; [lia|].
  destruct (Forall2_lookup_l _ _ _ _ _ H Hx) as (y & Hy & Hxy). rewrite Hx, Hy. exact Hxy.
Qed.

Lemma permutation_range axes n :
  Permutation axes (seqZ 0 (Z.of_nat n)) -> Forall (fun a => 0 <= a < Z.of_nat n) axes.
Proof.
  intros Hp. apply Forall_forall. intros a Ha. rewrite Hp in Ha. apply elem_of_seqZ in Ha. lia.
Qed.

Lemma permute_inv v axes v' :
  permute v axes = Ok v' ->
  Permutation axes (seqZ 0 (Z.of_nat (length (v_shape v)))) /\
  v_shape v' = permute_coords axes (v_shape v).
Proof.
  unfold permute. destruct (isPermutation axes _) eqn:E; simpl; [|discriminate].
  apply isPermutation_spec in E. intros H. split; [exact E|]. eapply create_shape, H.
Qed.

Lemma permute_canonical v axes v' : canonical v -> permute v axes = Ok v' -> canonical v'.
Proof.
  intros Hv H. pose proof (permute_inv _ _ _ H) as [Hp _].
  revert H. unfold permute. destruct (isPermutation axes _); simpl; [|discriminate]. intros H.
  eapply create_canonical; [exact H|]. intros m0 Hm.
  destruct (v_mask v) as [m|] eqn:Em; [|discriminate]. injection Hm as <-.
  apply (Forall2_at_axis _ _ _ _ _ _ (length (v_shape v)));
    eauto using permutation_range with nd.
  apply can_mask_in; auto.
Qed.

(** Permuting the coordinates along with the axes reads the same cell. *)
Lemma permute_addr v axes v' c :
  canonical v -> permute v axes = Ok v' -> in_bounds (v_shape v) c ->
  in_bounds (v_shape v') (permute_coords axes c) /\
  addr v' (permute_coords axes c) = addr v c.
Proof.
  intros Hv H Hc. pose proof (permute_inv _ _ _ H) as [Hp Hs].
  assert (Hb : in_bounds (permute_coords axes (v_shape v)) (permute_coords axes c)).
  { eapply Forall2_at_axis; eauto using permutation_range. }
  split; [rewrite Hs; exact Hb|].
  revert H. unfold permute. destruct (isPermutation axes _); simpl; [|discriminate]. intros H.
  rewrite (create_addr _ _ _ _ _ _ H Hb). rewrite addr_spec by eauto with nd.
  unfold affine; simpl.
  rewrite (permute_dot (length (v_shape v))) by eauto with nd.
  destruct (v_mask v) as [m|] eqn:Em; simpl; [|reflexivity].
  rewrite (permute_mask_ok (length (v_shape v))) by eauto with nd. reflexivity.
Qed.

(** The coordinates of the original cell, found through the position of each
    axis in [axes]. *)
Fixpoint index_of (a : Z) (axes : list Z) : Z :=
  match axes with
  | [] => 0
  | b :: rest => if a =? b then 0 else 1 + index_of a rest
  end.

Definition unpermute_coords (axes coords : list Z) : list Z :=
  map (fun i => at_axis 0 coords (index_of i axes)) (seqZ 0 (Z.of_nat (length axes))).

Lemma index_of_nonneg a axes : 0 <= index_of a axes.
Proof. induction axes as [|b axes IH]; simpl; [lia|]. destruct (a =? b); lia. Qed.

Lemma at_axis_cons x xs k : 0 <= k -> at_axis 0 (x :: xs) (1 + k) = at_axis 0 xs k.
Proof.
  intros H. unfold at_axis. replace (Z.to_nat (1 + k)) with (S (Z.to_nat k)) by lia. reflexivity.
Qed.

Lemma map_index_of axes c :
  NoDup axes -> length c = length axes ->
  map (fun a => at_axis 0 c (index_of a axes)) axes = c.
Proof.
  intros Hnd; revert c; induction Hnd as [|a axes Ha Hnd IH]; intros [|x c] Hl; simpl in *;
    try discriminate; [reflexivity|].
  rewrite Z.eqb_refl. f_equal.
  transitivity (map (fun b => at_axis 0 c (index_of b axes)) axes); [|apply IH; lia].
  apply map_ext_in. intros b Hb. apply list_elem_of_In in Hb.
  destruct (Z.eqb_spec b a) as [->|]; [contradiction|].
  apply at_axis_cons, index_of_nonneg.
Qed.

Lemma Forall2_index_of (P : Z -> Z -> Prop) f axes c a :
  Forall2 P (map f axes) c -> a ∈ axes -> P (f a) (at_axis 0 c (index_of a axes)).
Proof.
  revert c; induction axes as [|b axes IH]; intros c H Ha; [inversion Ha|].
  simpl in H. inversion H as [|? x ? c' Hx Hc]; subst. simpl.
  destruct (Z.eqb_spec a b) as [->|Hne]; [exact Hx|].
  rewrite at_axis_cons by apply index_of_nonneg. apply IH; [exact Hc|].
  inversion Ha; subst; congruence.
Qed.

Lemma at_axis_seq (g : Z -> Z) n a :
  0 <= a < Z.of_nat n -> at_axis 0 (map g (seqZ 0 (Z.of_nat n))) a = g a.
Proof.
  intros Ha. unfold at_axis. rewrite nth_lookup, list_lookup_fmap.
  rewrite lookup_seqZ_lt by lia. simpl. f_equal. lia.
Qed.

Lemma permute_unpermute n axes s c' :
  Permutation axes (seqZ 0 (Z.of_nat n)) -> length s = n ->
  in_bounds (permute_coords axes s) c' ->
  in_bounds s (unpermute_coords axes c') /\
  permute_coords axes (unpermute_coords axes c') = c'.
Proof.
  intros Hp Hs Hb. pose proof (permutation_range _ _ Hp) as Hr. rewrite Forall_forall in Hr.
  assert (Hl : length axes = n) by (rewrite Hp, length_seqZ; lia).
  unfold unpermute_coords. rewrite Hl. split.
  - assert (E : s = map (at_axis 0 s) (seqZ 0 (Z.of_nat n))) by (rewrite <- Hs; symmetry; apply map_at_axis_id).
    rewrite E at 1. unfold in_bounds. apply Forall2_fmap_2. apply Forall_Forall2_diag, Forall_forall.
    intros a Ha. unfold permute_coords in Hb.
    apply (Forall2_index_of (fun d c => 0 <= c < d) (at_axis 0 s) axes c' a Hb).
    rewrite Hp. exact Ha.
  - unfold permute_coords.
    transitivity (map (fun a => at_axis 0 c' (index_of a axes)) axes); [|apply map_index_of].
    + apply map_ext_in. intros a Ha. apply list_elem_of_In in Ha.
      apply (at_axis_seq (fun i => at_axis 0 c' (index_of i axes))); auto.
    + eapply NoDup_Permutation_proper; [exact Hp|]. apply NoDup_seqZ.
    + rewrite (in_bounds_length _ _ Hb). unfold permute_coords. apply length_map.
Qed.

(** ** Contiguous views and totality *)

Lemma contiguous_addr v c :
  contiguous v = true -> in_bounds (v_shape v) c -> addr v c = Some (ravel (v_shape v) c).
Proof.
  unfold contiguous. intros H Hc.
  destruct (negb (v_offset v =? 0) || _) eqn:E; [discriminate|].
  apply orb_false_iff in E as [E1 E2]. apply bool_decide_eq_false in E2.
  rewrite addr_spec by eauto with nd. unfold affine.
  destruct (v_mask v); [exfalso; apply E2; discriminate|]. simpl.
  destruct (HasZero (v_shape v)) eqn:Hz.
  { apply HasZero_true in Hz. apply ravel_bounds in Hc. lia. }
  apply bool_decide_eq_true in H. rewrite H, dot_stridesFor by exact Hc. f_equal. lia.
Qed.

(** A fresh view of a shape is row-major. *)
Lemma create_fresh_contiguous s v : create s None 0 None = Ok v -> contiguous v = true.
Proof.
  unfold create. intros H. apply res_bind_ok in H as ([] & _ & H). simpl in H.
  unfold contiguous. destruct (HasZero s) eqn:Hz; injection H as <-; simpl; rewrite ?Hz.
  - reflexivity.
  - apply bool_decide_eq_true_2. reflexivity.
Qed.

Lemma permute_total v axes :
  canonical v -> Permutation axes (seqZ 0 (Z.of_nat (length (v_shape v)))) ->
  exists v', permute v axes = Ok v'.
Proof.
  intros Hv Hp. unfold permute. rewrite (proj2 (isPermutation_spec _ _) Hp). simpl.
  apply create_total.
  - pose proof (can_nonneg _ Hv) as Hn. pose proof (permutation_range _ _ Hp) as Hr.
    unfold nonneg. rewrite Forall_fmap. eapply Forall_impl; [exact Hr|]. intros a Ha. simpl.
    unfold at_axis. rewrite nth_lookup.
    destruct (v_shape v !! Z.to_nat a) as [d|] eqn:E; simpl; [|lia].
    eapply Forall_lookup_1 in E; [|exact Hn]. exact E.
  - intros s [= <-]. rewrite !length_map. reflexivity.
  - intros m0 Hm. destruct (v_mask v); [|discriminate]. injection Hm as <-.
    rewrite !length_map. reflexivity.
Qed.

Lemma expand_total v s :
  canonical v -> nonneg s -> length s = length (v_shape v) ->
  Forall2 (fun a b => a = b \/ a = 1) (v_shape v) s -> exists v', expand v s = Ok v'.
Proof.
  intros Hv Hn Hl Ho. unfold expand. rewrite bool_decide_true by exact Hl; simpl.
  rewrite (proj2 (expand_ok_spec _ _ Hl) Ho); simpl.
  destruct (HasZero (v_shape v)); apply create_total; auto; try discriminate.
  - intros st [= <-]. rewrite Hl. eauto with nd.
  - intros m0 Hm. destruct (v_mask v) as [m|] eqn:Em; [|discriminate]. injection Hm as <-.
    eapply mask_in_length, expand_mask_in; eauto with nd.
Qed.

Lemma shrink_total v arg :
  canonical v -> length arg = length (v_shape v) ->
  Forall2 (fun a d => 0 <= fst a <= snd a /\ snd a <= d) arg (v_shape v) ->
  exists v', shrink v arg = Ok v'.
Proof.
  intros Hv Hl Ho. unfold shrink. rewrite bool_decide_true by exact Hl; simpl.
  rewrite (proj2 (shrink_ok_spec _ _ Hl) Ho); simpl.
  apply resize_total; auto; [|discriminate].
  unfold nonneg, extents. rewrite Forall_fmap. eapply Forall2_Forall_l; [exact Ho|].
  apply Forall_forall. simpl. intros; lia.
Qed.

Lemma pad_total v arg :
  canonical v -> length arg = length (v_shape v) -> pad_valid arg ->
  exists v', pad v arg = Ok v'.
Proof.
  intros Hv Hl Hp. unfold pad. rewrite bool_decide_true by exact Hl; simpl.
  rewrite (proj2 (pad_valid_spec arg) Hp).
  destruct (existsb _ arg); simpl; [|eauto].
  apply resize_total; auto.
  - apply pad_arg_length, Hl.
  - rewrite pad_extents. pose proof (can_nonneg _ Hv) as Hn. clear - Hl Hp Hn.
    unfold padded, nonneg in *. revert Hl Hn. generalize (v_shape v). induction Hp as [|a arg Ha Hp IH];
      intros [|d s] Hl Hn; simpl in *; try discriminate; constructor; inversion Hn; subst;
      [lia|apply IH; auto].
  - intros m0 [= <-]. rewrite !length_zip_with. reflexivity.
Qed.
