(* ===== verification/Reshape.v ===== *)
(** * Reshaping one address map (src/x/ndarray/view.go)

    [reshape] tries to give a view a new shape without stacking a second
    view on it.  It merges neighbouring axes into blocks ([mergeDims]), cuts
    each block into the new dimensions and re-expresses the mask
    ([reshapeMask]).  When the axes or the mask do not fit it reports
    failure and the tracker stacks a row-major view instead.  The file proves
    that a successful reshape reads, at every cell of the new shape, the cell
    of the old view with the same row-major number, for every mask, stride
    and offset a constructed view can have, and that the loops end. *)
From Stdlib Require Import ZArith Lia.
From stdpp Require Import base numbers option list.
From S2P Require Import Prelude Shape View.

Local Open Scope Z_scope.

(** ** Definitions *)

(** A Go loop that may not end: out of fuel, [ok = false], or a result. *)
Inductive outcome (A : Type) : Type :=
| Diverges
| Fails
| Done (a : A).
Arguments Diverges {A}.
Arguments Fails {A}.
Arguments Done {A} a.

Record merged : Type := mkMerged { m_size : Z; m_stride : Z; m_real : Z }.

Definition mask_width_one (mask : option (list (Z * Z))) (size : Z) : bool :=
  match mask with
  | Some ((lo, hi) :: _) => hi - lo =? 1
  | _ => size =? 1
  end.

(** The loop of [mergeDims] from axis 1 on; [last] is [ret[len(ret)-1]]. *)
Fixpoint mergeDims_loop (shape : Shape) (strides : list Z) (mask : option (list (Z * Z)))
    (last : merged) (merging : bool) : list merged :=
  match shape, strides with
  | size :: shape', stride :: strides' =>
      if size =? 1 then mergeDims_loop shape' strides' (option_map (@tail _) mask) last merging
      else
        let merging' := mask_width_one mask size in
        if merging || (m_stride last =? size * stride) then
          let pre := if merging then size else m_real last * size in
          mergeDims_loop shape' strides' (option_map (@tail _) mask)
            (mkMerged (m_size last * size) stride pre) merging'
        else
          last :: mergeDims_loop shape' strides' (option_map (@tail _) mask)
                    (mkMerged size stride size) merging'
  | _, _ => [last]
  end.

Definition mergeDims (shape : Shape) (strides : list Z) (mask : option (list (Z * Z)))
    : list merged :=
  match shape, strides with
  | size :: shape', stride :: strides' =>
      let real0 := if stride =? 0 then 0 else size in
      mergeDims_loop shape' strides' (option_map (@tail _) mask)
        (mkMerged size stride real0) (mask_width_one mask size)
  | _, _ => []
  end.

(** [pop] of a reversed shape or mask, with its default. *)
Definition pop {A} (s : list A) (def : A) : A * list A :=
  match s with
  | [] => (def, [])
  | v :: s' => (v, s')
  end.

(** The loop of [reshapeMask]; [need] is [len(newShape) - len(out)] and [out]
    is kept in the order of the final [slices.Reverse]. *)
Fixpoint reshapeMask_loop (fuel : nat) (rShape rNew : list Z) (rMasks : list (Z * Z))
    (oldDim newDim curr : Z) (m : Z * Z) (need : nat) (out : list (Z * Z))
    : outcome (list (Z * Z)) :=
  match need with
  | O => Done out
  | S need' =>
      match fuel with
      | O => Diverges
      | S fuel' =>
          let '(l, r) := m in
          let next := newDim * curr in
          if oldDim =? next then
            let out := (Z.quot l curr, Z.quot (r - 1) curr + 1) :: out in
            let '(oldDim, rShape) := pop rShape 1 in
            let '(newDim, rNew) := pop rNew 1 in
            let '(m, rMasks) := pop rMasks (0, 1) in
            reshapeMask_loop fuel' rShape rNew rMasks oldDim newDim 1 m need' out
          else if next <? oldDim then
            if (next =? 0) || negb (Z.rem oldDim next =? 0) then Fails
            else if (negb (Z.rem l next =? 0) || negb (Z.rem r next =? 0))
                    && negb (Z.quot l next =? Z.quot (r - 1) next) then Fails
            else
              let out := (Z.quot (Z.rem l next) curr,
                          Z.quot (Z.rem (r - 1) next) curr + 1) :: out in
              let '(newDim, rNew) := pop rNew 1 in
              reshapeMask_loop fuel' rShape rNew rMasks oldDim newDim next (l, r) need' out
          else
            let '(nextM, rMasks) := pop rMasks (0, 1) in
            if negb (bool_decide ((l, r) = (0, oldDim))) && negb (l =? r)
               && negb (snd nextM - fst nextM =? 1) then Fails
            else
              let m := (fst nextM * oldDim + l, (snd nextM - 1) * oldDim + r) in
              let '(d, rShape) := pop rShape 1 in
              reshapeMask_loop fuel' rShape rNew rMasks (oldDim * d) newDim curr m need out
      end
  end.

Definition reshapeMask (mask : option (list (Z * Z))) (oldShape newShape : Shape)
    : outcome (option (list (Z * Z))) :=
  match mask with
  | None => Done (Some (full_mask newShape))
  | Some m =>
      match newShape with
      | [] => Done None
      | _ =>
          let '(oldDim, rShape) := pop (rev oldShape) 1 in
          let '(newDim, rNew) := pop (rev newShape) 1 in
          let '(m0, rMasks) := pop (rev m) (0, 1) in
          match reshapeMask_loop (length oldShape + length newShape)
                  rShape rNew rMasks oldDim newDim 1 m0 (length newShape) [] with
          | Diverges => Diverges
          | Fails => Fails
          | Done out => Done (Some out)
          end
      end
  end.

(** The inner loop of [reshape]: new dimensions are taken from the right
    until they fill one merged block. *)
Fixpoint fill_block (rNew : list Z) (size stride real acc : Z) : option (list Z * list Z) :=
  if (acc <=? size) && negb (acc =? size) then
    match rNew with
    | [] => None
    | newDim :: rest =>
        if newDim <=? 0 then None else
        let acc' := acc * newDim in
        match fill_block rest size (if real <=? acc' then 0 else stride) real acc' with
        | None => None
        | Some (out, rest') => Some (stride * acc :: out, rest')
        end
    end
  else if negb (acc =? size) then None
  else Some ([], rNew).

(** The outer loop, over the blocks from the last one. *)
Fixpoint fill_strides (blocks : list merged) (rNew : list Z) : option (list Z) :=
  match blocks with
  | [] => Some []
  | md :: blocks' =>
      match fill_block rNew (m_size md) (m_stride md) (m_real md) 1 with
      | None => None
      | Some (out, rest) =>
          match fill_strides blocks' rest with
          | None => None
          | Some out' => Some (out ++ out')
          end
      end
  end.

Fixpoint extra_offset (mask : list (Z * Z)) (strides : list Z) : Z :=
  match mask, strides with
  | m :: mask', st :: strides' => fst m * st + extra_offset mask' strides'
  | _, _ => 0
  end.

Definition created (r : res view) : outcome view :=
  match r with Ok v => Done v | Err _ => Fails end.

Definition reshape (v : view) (newShape : Shape) : outcome view :=
  if bool_decide (v_shape v = newShape) then Done v else
  if HasZero (v_shape v) then created (create newShape None 0 None) else
  if bool_decide (newShape = []) && existsb (fun m => fst m =? snd m) (opt_list (v_mask v))
  then Fails else
  if contiguous v then created (create newShape None 0 None) else
  match fill_strides (rev (mergeDims (v_shape v) (v_strides v) (v_mask v))) (rev newShape) with
  | None => Fails
  | Some rStrides =>
      let newStrides := zeros (length newShape - length rStrides) ++ rev rStrides in
      match reshapeMask (v_mask v) (v_shape v) newShape with
      | Diverges => Diverges
      | Fails => Fails
      | Done newMask =>
          let extra := extra_offset (opt_list (v_mask v)) (v_strides v)
                       - extra_offset (opt_list newMask) newStrides in
          created (create newShape (Some newStrides) (v_offset v + extra) newMask)
      end
  end.

(** ** Reading a cell number from the last axis

    The two loops walk the axes from the right, so the proofs do as well:
    [rs], [rst] and [rm] are reversed shapes, strides and masks, and [k] is a
    row-major cell number of which the last axis is [k mod d]. *)

(** Is cell [k] inside the mask? *)
Fixpoint valid (rs : list Z) (rm : list (Z * Z)) (k : Z) : bool :=
  match rs, rm with
  | d :: rs', (lo, hi) :: rm' => (lo <=? k mod d) && (k mod d <? hi) && valid rs' rm' (k / d)
  | _, _ => true
  end.

(** The offset of cell [k] under the strides. *)
Fixpoint place (rs rst : list Z) (k : Z) : Z :=
  match rs, rst with
  | d :: rs', st :: rst' => (k mod d) * st + place rs' rst' (k / d)
  | _, _ => 0
  end.

(** The cell number whose digits are the lower ends of the mask. *)
Fixpoint corner (rs : list Z) (rm : list (Z * Z)) : Z :=
  match rs, rm with
  | d :: rs', (lo, _) :: rm' => lo + d * corner rs' rm'
  | _, _ => 0
  end.

Lemma unravel_snoc s d k :
  positive_dims (s ++ [d]) -> 0 <= k ->
  unravel (s ++ [d]) k = unravel s (k / d) ++ [k mod d].
Proof.
  intros Hp Hk. apply Forall_app in Hp as [Hs Hd].
  assert (Hd' : 0 < d) by (inversion Hd; auto).
  assert (E1 : unravel [d] k = [k mod d]).
  { rewrite unravel_cons by exact Hd. rewrite Size_nil, Z.quot_1_r, Z.rem_mod_nonneg by lia. reflexivity. }
  induction Hs as [|e s He Hs IH]; [exact E1|]. simpl app.
  rewrite unravel_cons by (constructor; auto; apply Forall_app; auto).
  rewrite IH, (unravel_cons e s (k / d)) by (constructor; auto). simpl. f_equal.
  pose proof (Size_pos s Hs). rewrite Size_app, Size_cons, Size_nil.
  replace (Size s * (d * 1)) with (d * Size s) by ring.
  rewrite !Z.quot_div_nonneg by (try apply Z.div_pos; nia).
  rewrite Z.div_div by lia. reflexivity.
Qed.

Lemma dot_snoc c x st y : length c = length st -> dot (c ++ [x]) (st ++ [y]) = dot c st + x * y.
Proof.
  revert st; induction c as [|z c IH]; intros [|w st] H; simpl in *; try discriminate; [lia|].
  rewrite IH by lia. lia.
Qed.

Lemma mask_ok_snoc m lo hi c x :
  length m = length c ->
  mask_ok (m ++ [(lo, hi)]) (c ++ [x]) = mask_ok m c && ((lo <=? x) && (x <? hi)).
Proof.
  revert c; induction m as [|[l h] m IH]; intros [|z c] H; simpl in *; try discriminate.
  - rewrite andb_true_r. reflexivity.
  - rewrite IH by lia. rewrite !andb_assoc. reflexivity.
Qed.

Lemma place_dot rs rst k :
  positive_dims rs -> length rst = length rs -> 0 <= k ->
  dot (unravel (rev rs) k) (rev rst) = place rs rst k.
Proof.
  intros Hp; revert rst k; induction Hp as [|d rs Hd Hp IH]; intros [|y rst] k Hl Hk; simpl in *;
    try discriminate; [reflexivity|].
  assert (Hr : positive_dims (rev rs ++ [d])).
  { apply Forall_app; split; [apply Forall_rev; exact Hp|constructor; auto]. }
  rewrite unravel_snoc by auto.
  rewrite dot_snoc by (rewrite length_unravel, !length_rev; lia).
  rewrite IH by (try lia; apply Z.div_pos; lia). lia.
Qed.

Lemma valid_mask_ok rs rm k :
  positive_dims rs -> length rm = length rs -> 0 <= k ->
  mask_ok (rev rm) (unravel (rev rs) k) = valid rs rm k.
Proof.
  intros Hp; revert rm k; induction Hp as [|d rs Hd Hp IH]; intros [|[lo hi] rm] k Hl Hk; simpl in *;
    try discriminate; [reflexivity|].
  assert (Hr : positive_dims (rev rs ++ [d])).
  { apply Forall_app; split; [apply Forall_rev; exact Hp|constructor; auto]. }
  rewrite unravel_snoc by auto.
  rewrite mask_ok_snoc by (rewrite length_unravel, !length_rev; lia).
  rewrite IH by (try lia; apply Z.div_pos; lia). apply andb_comm.
Qed.

(** *** Splitting a cell number between two groups of axes *)

Lemma valid_app rs1 rs2 rm1 rm2 k :
  positive_dims rs1 -> length rm1 = length rs1 ->
  valid (rs1 ++ rs2) (rm1 ++ rm2) k = valid rs1 rm1 k && valid rs2 rm2 (k / Size rs1).
Proof.
  intros Hp; revert rm1 k; induction Hp as [|d rs Hd Hp IH]; intros [|[lo hi] rm] k Hl; simpl in *;
    try discriminate.
  - rewrite Size_nil, Z.div_1_r. reflexivity.
  - rewrite IH by lia. rewrite Size_cons, <- Z.div_div by (try apply Size_pos; auto; lia).
    rewrite !andb_assoc. reflexivity.
Qed.

Lemma place_app rs1 rs2 rst1 rst2 k :
  positive_dims rs1 -> length rst1 = length rs1 ->
  place (rs1 ++ rs2) (rst1 ++ rst2) k = place rs1 rst1 k + place rs2 rst2 (k / Size rs1).
Proof.
  intros Hp; revert rst1 k; induction Hp as [|d rs Hd Hp IH]; intros [|y rst] k Hl; simpl in *;
    try discriminate.
  - rewrite Size_nil, Z.div_1_r. lia.
  - rewrite IH by lia. rewrite Size_cons, <- Z.div_div by (try apply Size_pos; auto; lia). lia.
Qed.

Lemma mod_mul_mod a b c : 0 < b -> 0 < c -> (a mod (b * c)) mod b = a mod b.
Proof.
  intros. rewrite Z.rem_mul_r by lia. rewrite Z.mul_comm, Z.mod_add by lia. apply Z.mod_mod; lia.
Qed.

Lemma mod_mul_div a b c : 0 < b -> 0 < c -> (a mod (b * c)) / b = (a / b) mod c.
Proof.
  intros. rewrite Z.rem_mul_r, Z.mul_comm, Z.div_add by lia.
  rewrite Z.div_small by (apply Z.mod_pos_bound; lia). lia.
Qed.

Lemma valid_mod rs rm k :
  positive_dims rs -> valid rs rm (k mod Size rs) = valid rs rm k.
Proof.
  intros Hp; revert rm k; induction Hp as [|d rs Hd Hp IH]; intros [|[lo hi] rm] k; simpl; auto.
  pose proof (Size_pos rs Hp). rewrite Size_cons, mod_mul_mod, mod_mul_div by lia.
  rewrite IH. reflexivity.
Qed.

Lemma place_mod rs rst k :
  positive_dims rs -> place rs rst (k mod Size rs) = place rs rst k.
Proof.
  intros Hp; revert rst k; induction Hp as [|d rs Hd Hp IH]; intros [|y rst] k; simpl; auto.
  pose proof (Size_pos rs Hp). rewrite Size_cons, mod_mul_mod, mod_mul_div by lia.
  rewrite IH. reflexivity.
Qed.

Lemma mask_valid_positive s m : mask_valid s m -> positive_dims s.
Proof. induction 1; constructor; auto; lia. Qed.

Lemma corner_bounds rs rm : mask_valid rs rm -> 0 <= corner rs rm < Size rs.
Proof.
  induction 1 as [|d [lo hi] rs rm H Hr IH]; simpl in *; [rewrite Size_nil; lia|].
  rewrite Size_cons. nia.
Qed.

Lemma corner_digits d lo x : 0 <= lo < d -> (lo + d * x) mod d = lo /\ (lo + d * x) / d = x.
Proof.
  intros. rewrite (Z.mul_comm d x). rewrite Z.mod_add, Z.div_add, Z.mod_small, Z.div_small by lia.
  lia.
Qed.

Lemma corner_valid rs rm : mask_valid rs rm -> valid rs rm (corner rs rm) = true.
Proof.
  induction 1 as [|d [lo hi] rs rm H Hr IH]; simpl in *; [reflexivity|].
  destruct (corner_digits d lo (corner rs rm)) as [-> ->]; [lia|]. rewrite IH. lia.
Qed.

Lemma corner_least rs rm k : mask_valid rs rm -> 0 <= k -> valid rs rm k = true -> corner rs rm <= k.
Proof.
  intros H; revert k; induction H as [|d [lo hi] rs rm H Hr IH]; intros k Hk; simpl in *; [lia|].
  rewrite !andb_true_iff. intros [[Hlo Hhi] Hv].
  specialize (IH (k / d) ltac:(apply Z.div_pos; lia) Hv).
  pose proof (Z.div_mod k d). nia.
Qed.

Lemma place_corner rs rst rm :
  mask_valid rs rm -> length rst = length rs ->
  place rs rst (corner rs rm) = extra_offset rm rst.
Proof.
  intros H; revert rst; induction H as [|d [lo hi] rs rm H Hr IH]; intros [|y rst] Hl; simpl in *;
    try discriminate; [reflexivity|].
  destruct (corner_digits d lo (corner rs rm)) as [-> ->]; [lia|]. rewrite IH by lia. lia.
Qed.

(** Two masks that keep the same cells have the same corner. *)
Lemma corner_unique rs rm rs' rm' :
  mask_valid rs rm -> mask_valid rs' rm' ->
  (forall k, 0 <= k -> valid rs rm k = valid rs' rm' k) -> corner rs rm = corner rs' rm'.
Proof.
  intros H H' E. pose proof (corner_bounds _ _ H). pose proof (corner_bounds _ _ H').
  apply Z.le_antisymm; apply corner_least; auto; try lia.
  - rewrite E by lia. apply corner_valid, H'.
  - rewrite <- E by lia. apply corner_valid, H.
Qed.

(** ** The mask of the new shape *)

Definition in_range (l r z : Z) : bool := (l <=? z) && (z <? r).

(** The part of the condition [l <= z < r] that the digits below weight [c]
    have already been checked for. *)
Definition low_ok (c l r k : Z) : bool := in_range (l mod c) ((r - 1) mod c + 1) (k mod c).

(** The interval can be cut at weight [c]. *)
Definition cuttable (c l r : Z) : Prop :=
  (l mod c = 0 /\ r mod c = 0) \/ l / c = (r - 1) / c.

Lemma in_range_spec l r z : in_range l r z = true <-> l <= z < r.
Proof. unfold in_range. lia. Qed.

Lemma bool_iff (a b : bool) : (a = true <-> b = true) -> a = b.
Proof. destruct a, b; intuition congruence. Qed.

Lemma pred_mod c r : 0 < c -> r mod c = 0 -> (r - 1) mod c = c - 1 /\ (r - 1) / c = r / c - 1.
Proof.
  intros Hc Hr. pose proof (Z.div_mod r c ltac:(lia)) as E. rewrite Hr in E.
  replace (r - 1) with ((c - 1) + (r / c - 1) * c) by lia.
  rewrite Z.mod_add, Z.div_add, Z.mod_small, Z.div_small by lia. lia.
Qed.

Lemma cut_interval c l r z :
  0 < c -> l < r -> cuttable c l r ->
  in_range l r z = low_ok c l r z && in_range (l / c) ((r - 1) / c + 1) (z / c).
Proof.
  intros Hc Hlr Hcut. apply bool_iff. unfold low_ok.
  rewrite andb_true_iff, !in_range_spec.
  pose proof (Z.div_mod z c ltac:(lia)). pose proof (Z.mod_pos_bound z c Hc).
  pose proof (Z.div_mod l c ltac:(lia)). pose proof (Z.mod_pos_bound l c Hc).
  pose proof (Z.div_mod (r - 1) c ltac:(lia)). pose proof (Z.mod_pos_bound (r - 1) c Hc).
  destruct Hcut as [[Hl0 Hr0]|Hq0].
  - destruct (pred_mod c r Hc Hr0). nia.
  - split; [|nia]. intros Hz.
    assert (z / c = l / c) as Hq.
    { apply Z.le_antisymm; [rewrite Hq0|]; apply Z.div_le_mono; lia. }
    nia.
Qed.

(** Cutting one more digit off the interval. *)
Lemma cut_digit c n l r k :
  0 < c -> 0 < n -> l < r -> cuttable c l r -> cuttable (c * n) l r ->
  low_ok (c * n) l r k
  = low_ok c l r k
    && in_range (l mod (c * n) / c) ((r - 1) mod (c * n) / c + 1) ((k / c) mod n).
Proof.
  intros Hc Hn Hlr Hcut Hcut'. assert (Hcn : 0 < c * n) by nia.
  unfold low_ok at 1.
  set (l' := l mod (c * n)). set (r' := (r - 1) mod (c * n) + 1).
  assert (Hlr' : l' < r').
  { unfold l', r'. pose proof (Z.mod_pos_bound (r - 1) _ Hcn).
    destruct Hcut' as [[Hl0 Hr0]|Hq0]; [lia|].
    pose proof (Z.div_mod l (c * n) ltac:(lia)). pose proof (Z.div_mod (r - 1) (c * n) ltac:(lia)).
    rewrite Hq0 in *. lia. }
  assert (Er : r' - 1 = (r - 1) mod (c * n)) by (unfold r'; lia).
  rewrite (cut_interval c l' r' _ Hc Hlr').
  - unfold low_ok. rewrite Er. unfold l'.
    rewrite !mod_mul_mod, !mod_mul_div by lia. reflexivity.
  - destruct Hcut as [[H1 H2]|H2].
    + left. unfold l'. rewrite mod_mul_mod by lia. split; [exact H1|].
      destruct (pred_mod c r Hc H2) as [E1 _]. unfold r'.
      assert (((r - 1) mod (c * n)) mod c = c - 1) as E2 by (rewrite mod_mul_mod by lia; exact E1).
      pose proof (Z.div_mod ((r - 1) mod (c * n)) c ltac:(lia)) as E3. rewrite E2 in E3.
      rewrite E3. replace (c * ((r - 1) mod (c * n) / c) + (c - 1) + 1)
        with ((((r - 1) mod (c * n)) / c + 1) * c) by ring. apply Z.mod_mul; lia.
    + right. rewrite Er. unfold l'. rewrite !mod_mul_div by lia. rewrite H2. reflexivity.
Qed.

(** Taking one more old axis into the interval. *)
Lemma join_interval O d l r nl nr k :
  0 < O -> 0 < d -> 0 <= l < r -> r <= O -> (l = 0 /\ r = O) \/ nr - nl = 1 ->
  in_range (nl * O + l) ((nr - 1) * O + r) (k mod (O * d))
  = in_range l r (k mod O) && in_range nl nr ((k / O) mod d).
Proof.
  intros HO Hd Hlr Hr Hc. apply bool_iff. rewrite andb_true_iff, !in_range_spec.
  rewrite Z.rem_mul_r by lia. pose proof (Z.mod_pos_bound k O HO).
  set (e := (k / O) mod d). set (z := k mod O) in *. clearbody e z.
  destruct Hc as [[-> ->]|Hc]; [nia|]. assert (nr = nl + 1) as -> by lia.
  split; [|nia]. intros. assert (e = nl) by nia. subst e. lia.
Qed.

Lemma mod_add_multiple c O n l : 0 < c -> (c | O) -> (n * O + l) mod c = l mod c.
Proof.
  intros Hc [q ->]. replace (n * (q * c) + l) with (l + (n * q) * c) by ring. apply Z.mod_add; lia.
Qed.

Lemma div_add_multiple c O n l : 0 < c -> (c | O) -> (n * O + l) / c = n * (O / c) + l / c.
Proof.
  intros Hc [q ->]. replace (n * (q * c) + l) with (l + (n * q) * c) by ring.
  rewrite Z.div_add, Z.div_mul by lia. ring.
Qed.

Lemma join_cuttable c O l r nl nr :
  0 < c -> (c | O) -> 0 <= l < r -> r <= O -> (l = 0 /\ r = O) \/ nr - nl = 1 ->
  cuttable c l r -> cuttable c (nl * O + l) ((nr - 1) * O + r).
Proof.
  intros Hc HO Hlr Hr Hj Hcut. unfold cuttable.
  replace ((nr - 1) * O + r - 1) with ((nr - 1) * O + (r - 1)) by ring.
  rewrite !mod_add_multiple, !div_add_multiple by auto.
  destruct Hj as [[-> ->]|Hj].
  - left. rewrite Z.mod_0_l by lia. split; [reflexivity|]. apply Z.mod_divide; [lia|exact HO].
  - replace (nr - 1) with nl by lia. destruct Hcut as [H|H]; [left; exact H|right; lia].
Qed.

Lemma join_low_ok c O l r nl nr k :
  0 < c -> (c | O) -> low_ok c (nl * O + l) ((nr - 1) * O + r) k = low_ok c l r k.
Proof.
  intros Hc HO. unfold low_ok.
  replace ((nr - 1) * O + r - 1) with ((nr - 1) * O + (r - 1)) by ring.
  rewrite !mod_add_multiple by auto. reflexivity.
Qed.

Lemma valid_unit rs rm k : mask_valid rs rm -> Size rs = 1 -> valid rs rm k = true.
Proof.
  intros H HS. rewrite <- valid_mod by (eapply mask_valid_positive; exact H).
  rewrite HS, Z.mod_1_r. pose proof (corner_bounds _ _ H).
  replace 0 with (corner rs rm) by lia. apply corner_valid, H.
Qed.

Lemma valid_cons d rs lo hi rm k :
  valid (d :: rs) ((lo, hi) :: rm) k = in_range lo hi (k mod d) && valid rs rm (k / d).
Proof. reflexivity. Qed.

Lemma low_ok_one l r k : low_ok 1 l r k = true.
Proof. unfold low_ok. rewrite !Z.mod_1_r. reflexivity. Qed.

Lemma cuttable_one l r : cuttable 1 l r.
Proof. left. rewrite !Z.mod_1_r. auto. Qed.

(** The loop state between two iterations.  [need] new axes are still to be
    written: [newDim :: rNew], or none when the default 1 was popped. *)
Definition loop_dims (need : nat) (newDim : Z) (rNew : list Z) : Prop :=
  positive_dims (newDim :: rNew) /\
  (need = S (length rNew) \/ (need = O /\ newDim = 1 /\ rNew = [])).

Lemma loop_dims_pop need' rNew :
  positive_dims rNew -> S need' = S (length rNew) ->
  loop_dims need' (fst (pop rNew 1)) (snd (pop rNew 1)) /\
  fst (pop rNew 1) * Size (snd (pop rNew 1)) = Size rNew /\
  take need' (fst (pop rNew 1) :: snd (pop rNew 1)) = rNew.
Proof.
  intros Hp Hn. destruct rNew as [|d rNew]; simpl in *.
  - assert (need' = O) as -> by lia. repeat split; auto. repeat constructor.
  - split; [split; [exact Hp|left; lia]|]. rewrite Size_cons. split; [reflexivity|].
    rewrite take_ge; [reflexivity|simpl; lia].
Qed.

Lemma cut_digit_bounds c n l r :
  0 < c -> 0 < n -> 0 <= l < r -> cuttable (c * n) l r ->
  0 <= l mod (c * n) / c < (r - 1) mod (c * n) / c + 1 /\ (r - 1) mod (c * n) / c + 1 <= n.
Proof.
  intros Hc Hn Hlr Hcut. assert (Hcn : 0 < c * n) by nia.
  pose proof (Z.mod_pos_bound l _ Hcn). pose proof (Z.mod_pos_bound (r - 1) _ Hcn).
  assert (l mod (c * n) <= (r - 1) mod (c * n)).
  { destruct Hcut as [[Hl0 Hr0]|Hq0]; [lia|].
    pose proof (Z.div_mod l (c * n) ltac:(lia)). pose proof (Z.div_mod (r - 1) (c * n) ltac:(lia)).
    rewrite Hq0 in *. lia. }
  pose proof (Z.div_pos (l mod (c * n)) c ltac:(lia) Hc).
  pose proof (Z.div_le_mono (l mod (c * n)) ((r - 1) mod (c * n)) c Hc ltac:(lia)).
  assert ((r - 1) mod (c * n) / c < n) by (apply Z.div_lt_upper_bound; lia). lia.
Qed.

Lemma sync_bounds c n l r :
  0 < c -> 0 <= l < r -> r <= n * c -> 0 <= l / c < (r - 1) / c + 1 /\ (r - 1) / c + 1 <= n.
Proof.
  intros Hc Hlr Hr. pose proof (Z.div_pos l c ltac:(lia) Hc).
  pose proof (Z.div_le_mono l (r - 1) c Hc ltac:(lia)).
  assert ((r - 1) / c < n) by (apply Z.div_lt_upper_bound; lia). lia.
Qed.

(** Popping the next old axis, or the default one when there is none. *)
Lemma pop_mask rS rM :
  mask_valid rS rM ->
  exists O l r rS' rM', pop rS 1 = (O, rS') /\ pop rM (0, 1) = ((l, r), rM') /\
    mask_valid rS' rM' /\ 0 <= l < r /\ r <= O /\ O * Size rS' = Size rS /\
    forall k, valid rS rM k = in_range l r (k mod O) && valid rS' rM' (k / O).
Proof.
  intros [|d [lo hi] rS' rM' Hd HM]; simpl.
  - exists 1, 0, 1, [], []. repeat split; try lia; [constructor|]. intros k.
    rewrite Z.mod_1_r. reflexivity.
  - exists d, lo, hi, rS', rM'. simpl in Hd. rewrite Size_cons. repeat split; auto; lia.
Qed.

(** [take need (newDim :: rNew)] are the axes the rest of the loop writes. *)
Lemma reshapeMask_loop_spec fuel : forall rS rN rM O nd curr l r need out res,
  reshapeMask_loop fuel rS rN rM O nd curr (l, r) need out = Done res ->
  mask_valid rS rM -> loop_dims need nd rN ->
  0 <= l < r -> r <= O -> 0 < curr -> (curr | O) -> cuttable curr l r ->
  O * Size rS = curr * (nd * Size rN) ->
  exists fut, res = rev fut ++ out /\ mask_valid (take need (nd :: rN)) fut /\
    forall k, 0 <= k ->
      in_range l r (k mod O) && valid rS rM (k / O)
      = low_ok curr l r k && valid (take need (nd :: rN)) fut (k / curr).
Proof.
  induction fuel as [|fuel IH]; intros rS rN rM O nd curr l r need out res H HM HD Hl Hr Hc HcO Hcut HS.
  all: destruct need as [|need']; [|try discriminate H].
  1-2: simpl in H; injection H as <-; exists []; split; [reflexivity|]; split; [constructor|];
    intros k Hk; destruct HD as [_ [HD|(_ & -> & ->)]]; [discriminate HD|].
  1-2: rewrite Size_nil in HS; pose proof (Size_pos _ (mask_valid_positive _ _ HM));
    assert (curr <= O) by (apply Z.divide_pos_le; [lia|exact HcO]);
    assert (Size rS = 1) as HS1 by nia; rewrite HS1 in HS; assert (O = curr) as -> by lia;
    rewrite valid_unit by auto; simpl; rewrite !andb_true_r; unfold low_ok;
    rewrite (Z.mod_small l), (Z.mod_small (r - 1)) by lia; f_equal; lia.
  destruct HD as [Hpos Hneed]. destruct Hneed as [Hneed|(HF & _)]; [|discriminate HF].
  assert (Hnd : 0 < nd) by (inversion Hpos; auto).
  assert (HpN : positive_dims rN) by (inversion Hpos; auto).
  assert (HpS : positive_dims rS) by (eapply mask_valid_positive; exact HM).
  assert (HO : 0 < O) by lia.
  cbn [reshapeMask_loop] in H.
  destruct (Z.eqb_spec O (nd * curr)) as [Eo|No].
  { (* the new axis ends where the old ones do *)
    destruct (loop_dims_pop need' rN HpN Hneed) as (HD' & HS' & Ht).
    destruct (pop rN 1) as [nd' rN'] eqn:Ep. simpl in HD', HS', Ht.
    pose proof (pop_mask _ _ HM) as Hpop.
    destruct Hpop as (O' & l' & r' & rS' & rM' & E1 & E2 & HM' & Hl' & Hr' & HSS & Hval).
    rewrite E1, E2 in H.
    destruct (IH _ _ _ _ _ _ _ _ _ _ _ H) as (fut & Hres & Hmv & Hfut);
      auto using cuttable_one, Z.divide_1_l; try lia.
    { rewrite HSS, HS'. nia. }
    rewrite Ht in Hmv, Hfut.
    rewrite !Z.quot_div_nonneg in Hres by lia.
    exists ((l / curr, (r - 1) / curr + 1) :: fut). split; [|split].
    - rewrite Hres. simpl. rewrite <- app_assoc. reflexivity.
    - rewrite Hneed. cbn [take]. rewrite firstn_all. constructor; [|exact Hmv].
      simpl. apply sync_bounds; lia.
    - intros k Hk. rewrite Hneed. cbn [take]. rewrite firstn_all, valid_cons.
      rewrite (cut_interval curr l r) by (auto; lia).
      rewrite Hval, (Hfut (k / O)) by (apply Z.div_pos; lia).
      rewrite low_ok_one, Z.div_1_r. simpl.
      subst O. rewrite (Z.mul_comm nd curr), mod_mul_div by lia.
      unfold low_ok at 1. rewrite mod_mul_mod by lia. fold (low_ok curr l r k).
      rewrite Z.div_div by lia. rewrite !andb_assoc. reflexivity. }
  destruct (Z.ltb_spec (nd * curr) O) as [Hlt|Hge].
  { (* the new axis ends inside the old ones *)
    assert (Hnext : 0 < nd * curr) by nia.
    destruct (Z.eqb_spec (nd * curr) 0); [lia|]. simpl in H.
    rewrite !Z.rem_mod_nonneg, !Z.quot_div_nonneg in H by lia.
    destruct (Z.eqb_spec (O mod (nd * curr)) 0) as [Hdiv|]; [|discriminate H]. simpl in H.
    destruct ((negb (l mod (nd * curr) =? 0) || negb (r mod (nd * curr) =? 0)) &&
      negb (l / (nd * curr) =? (r - 1) / (nd * curr))) eqn:Ecut; [discriminate H|].
    assert (Hcut' : cuttable (curr * nd) l r).
    { rewrite (Z.mul_comm curr nd). unfold cuttable. lia. }
    assert (HnO : (nd * curr | O)) by (apply Z.mod_divide; [lia|exact Hdiv]).
    pose proof (Z.mod_pos_bound l _ Hnext). pose proof (Z.mod_pos_bound (r - 1) _ Hnext).
    destruct (loop_dims_pop need' rN HpN Hneed) as (HD' & HS' & Ht).
    destruct (pop rN 1) as [nd' rN'] eqn:Ep. simpl in HD', HS', Ht.
    destruct (IH _ _ _ _ _ _ _ _ _ _ _ H) as (fut & Hres & Hmv & Hfut); auto; try lia.
    { rewrite (Z.mul_comm nd curr); exact Hcut'. }
    rewrite Ht in Hmv, Hfut.
    rewrite !Z.quot_div_nonneg in Hres by lia.
    rewrite (Z.mul_comm nd curr) in Hres.
    exists ((l mod (curr * nd) / curr, (r - 1) mod (curr * nd) / curr + 1) :: fut).
    split; [|split].
    - rewrite Hres. simpl. rewrite <- app_assoc. reflexivity.
    - rewrite Hneed. cbn [take]. rewrite firstn_all. constructor; [|exact Hmv].
      simpl. apply cut_digit_bounds; auto.
    - intros k Hk. rewrite Hneed. cbn [take]. rewrite firstn_all, valid_cons.
      rewrite Hfut by exact Hk. rewrite (Z.mul_comm nd curr).
      rewrite cut_digit by (auto; lia). rewrite Z.div_div by lia.
      rewrite andb_assoc. reflexivity. }
  (* another old axis is needed *)
  assert (Hlt : O < nd * curr) by lia.
  destruct HM as [|d [nl nr] rS' rM' Hd HM'].
  { exfalso. pose proof (Size_pos _ HpN). rewrite Size_nil in HS. nia. }
  simpl in Hd. rewrite Size_cons in HS. simpl pop in H. cbv iota beta in H.
  destruct (negb (bool_decide ((l, r) = (0, O))) && negb (l =? r) && negb (snd (nl, nr) - fst (nl, nr) =? 1))
    eqn:Ej; [discriminate H|].
  assert (Hj : (l = 0 /\ r = O) \/ nr - nl = 1).
  { simpl in Ej. destruct (bool_decide_reflect ((l, r) = (0, O))) as [E|E]; simpl in Ej.
    - injection E as -> ->. auto.
    - right. lia. }
  simpl fst in H. simpl snd in H.
  destruct (IH _ _ _ _ _ _ _ _ _ _ _ H) as (fut & Hres & Hmv & Hfut); auto.
  - split; auto.
  - nia.
  - nia.
  - apply Z.divide_mul_l; exact HcO.
  - apply join_cuttable; auto.
  - lia.
  - exists fut. split; [exact Hres|]. split; [exact Hmv|]. intros k Hk.
    rewrite <- (join_low_ok curr O l r nl nr) by auto. rewrite <- Hfut by exact Hk.
    rewrite valid_cons, join_interval by (auto; lia). rewrite Z.div_div by lia.
    rewrite !andb_assoc. reflexivity.
Qed.

(** *** The loop ends *)

(** Each iteration uses up a new axis or an old one, so the fuel that
    [reshapeMask] gives is enough whatever the mask is. *)
Lemma reshapeMask_loop_ends fuel : forall rS rN rM O nd curr m need out,
  positive_dims rS -> loop_dims need nd rN -> 0 < O -> 0 < curr ->
  O * Size rS = curr * (nd * Size rN) -> (length rS + need <= fuel)%nat ->
  reshapeMask_loop fuel rS rN rM O nd curr m need out <> Diverges.
Proof.
  induction fuel as [|fuel IH]; intros rS rN rM O nd curr [l r] need out HpS HD HO Hc HS Hf.
  { destruct need; [discriminate|lia]. }
  destruct need as [|need']; [discriminate|].
  destruct HD as [Hpos [Hneed|(HF & _)]]; [|discriminate HF].
  assert (Hnd : 0 < nd) by (inversion Hpos; auto).
  assert (HpN : positive_dims rN) by (inversion Hpos; auto).
  destruct (loop_dims_pop need' rN HpN Hneed) as (HD' & HS' & _).
  cbn [reshapeMask_loop]. destruct (pop rN 1) as [nd' rN']. simpl in HD', HS'.
  destruct (Z.eqb_spec O (nd * curr)) as [Eo|No].
  { destruct (pop rM (0, 1)) as [m' rM'].
    destruct rS as [|d rS]; cbn [pop]; apply IH; auto; try lia; simpl in *; try lia.
    - rewrite Size_nil in HS. rewrite Size_nil. nia.
    - inversion HpS; auto.
    - inversion HpS; auto.
    - rewrite Size_cons in HS. nia. }
  destruct (Z.ltb_spec (nd * curr) O).
  { destruct (_ || _); [discriminate|]. destruct (_ && _); [discriminate|].
    apply IH; auto; try lia; nia. }
  destruct (pop rM (0, 1)) as [nm rM']. destruct (_ && _); [discriminate|].
  destruct rS as [|d rS]; cbn [pop].
  { exfalso. pose proof (Size_pos _ HpN). rewrite Size_nil in HS. nia. }
  inversion HpS; subst. rewrite Size_cons in HS. simpl in Hf.
  apply IH; auto; try lia; try nia. split; auto.
Qed.

(** *** The mask that keeps nothing *)

Lemma mask_empty_rev m : mask_empty (rev m) = mask_empty m.
Proof.
  unfold mask_empty. destruct (existsb _ m) eqn:E.
  - apply existsb_exists in E as (x & Hx & Hlt). apply existsb_exists. exists x.
    rewrite <- in_rev. auto.
  - apply existsb_Forall in E. apply existsb_Forall, Forall_rev, E.
Qed.

(** Intervals already written are kept. *)
Lemma reshapeMask_loop_out fuel : forall rS rN rM O nd curr m need out res,
  reshapeMask_loop fuel rS rN rM O nd curr m need out = Done res ->
  mask_empty out = true -> mask_empty res = true.
Proof.
  induction fuel as [|fuel IH]; intros rS rN rM O nd curr [l r] need out res H He.
  { destruct need; [injection H as <-; exact He|discriminate H]. }
  destruct need as [|need']; [injection H as <-; exact He|].
  cbn [reshapeMask_loop] in H. destruct (pop rN 1), (pop rS 1), (pop rM (0, 1)).
  destruct (O =? nd * curr).
  { eapply IH; [exact H|]. simpl. rewrite He. apply orb_true_r. }
  destruct (nd * curr <? O).
  { destruct (_ || _); [discriminate|]. destruct (_ && _); [discriminate|].
    eapply IH; [exact H|]. simpl. rewrite He. apply orb_true_r. }
  destruct (_ && _); [discriminate|]. eapply IH; [exact H|exact He].
Qed.

Lemma rem_pred_nonpos r n : r <= 0 -> 2 <= n -> Z.rem r n = 0 -> Z.rem (r - 1) n = -1.
Proof.
  intros Hr Hn H. apply Z.rem_divide in H as [q ->]; [|lia].
  replace (q * n - 1) with (- (1 + (- q) * n)) by ring.
  rewrite Z.rem_opp_l by lia. rewrite Z.rem_mod_nonneg by nia.
  rewrite Z.mod_add by lia. rewrite Z.mod_small by lia. reflexivity.
Qed.

Lemma quot_neg_small r n : r <= 0 -> 0 < n -> Z.quot (r - 1) n = 0 -> Z.rem (r - 1) n = r - 1.
Proof. intros Hr Hn H. pose proof (Z.quot_rem (r - 1) n ltac:(lia)). nia. Qed.

Lemma reshapeMask_loop_empty fuel : forall rS rN O nd r need out res,
  reshapeMask_loop fuel rS rN (replicate (length rS) (0, 0)) O nd 1 (0, r) need out = Done res ->
  positive_dims rS -> loop_dims need nd rN -> 0 < O -> r <= 0 ->
  O * Size rS = nd * Size rN -> (1 <= need)%nat -> mask_empty res = true.
Proof.
  induction fuel as [|fuel IH]; intros rS rN O nd r need out res H HpS HD HO Hr HS Hn.
  { destruct need; [lia|discriminate H]. }
  destruct need as [|need']; [lia|].
  destruct HD as [Hpos [Hneed|(HF & _)]]; [|discriminate HF].
  assert (Hnd : 0 < nd) by (inversion Hpos; auto).
  assert (HpN : positive_dims rN) by (inversion Hpos; auto).
  destruct (loop_dims_pop need' rN HpN Hneed) as (HD' & HS' & _).
  cbn [reshapeMask_loop] in H. rewrite Z.mul_1_r in H.
  destruct (Z.eqb_spec O nd) as [Eo|No].
  { destruct (pop rN 1), (pop rS 1), (pop (replicate (length rS) (0, 0)) (0, 1)).
    eapply reshapeMask_loop_out; [exact H|]. simpl. rewrite !Z.quot_1_r.
    rewrite orb_true_iff. left. lia. }
  destruct (Z.ltb_spec nd O) as [Hlt|Hge].
  { destruct (Z.eqb_spec nd 0); [lia|]. cbn [orb] in H.
    destruct (negb (Z.rem O nd =? 0)); [discriminate H|].
    rewrite Z.rem_0_l, Z.quot_0_l in H by lia. rewrite !Z.quot_1_r in H.
    change (0 =? 0) with true in H. cbn [negb orb] in H.
    destruct (negb (Z.rem r nd =? 0) && negb (0 =? Z.quot (r - 1) nd)) eqn:Ec; [discriminate H|].
    destruct (Z.eq_dec nd 1) as [->|Hnd1].
    - destruct (pop rN 1) as [nd' rN'] eqn:Ep. simpl in HD', HS'.
      destruct need' as [|need'].
      { exfalso. destruct rN; [|simpl in Hneed; lia]. rewrite Size_nil in HS.
        pose proof (Size_pos _ HpS). nia. }
      eapply IH; [exact H| | | | | |]; auto; lia.
    - destruct (pop rN 1). eapply reshapeMask_loop_out; [exact H|]. simpl.
      rewrite orb_true_iff. left. apply andb_false_iff in Ec as [Ec|Ec].
      + rewrite (rem_pred_nonpos r nd) by lia. lia.
      + rewrite (quot_neg_small r nd) by lia. lia. }
  destruct rS as [|d rS].
  { exfalso. pose proof (Size_pos _ HpN). rewrite Size_nil in HS. nia. }
  inversion HpS; subst. rewrite Size_cons in HS. cbn [length replicate pop fst snd] in H.
  rewrite bool_decide_false in H by (intros [= E]; lia).
  destruct (Z.eqb_spec 0 r) as [<-|]; [|discriminate H].
  cbn [negb andb] in H. replace (0 * O + 0) with 0 in H by lia.
  eapply IH; [exact H| | | | | |]; auto; try lia; try nia. split; auto.
Qed.

(** *** The mask theorem *)

Definition mask_of (shape : Shape) (mask : option (list (Z * Z))) : list (Z * Z) :=
  match mask with None => full_mask shape | Some m => m end.

Lemma mask_valid_rev s m : mask_valid s m -> mask_valid (rev s) (rev m).
Proof.
  unfold mask_valid. induction 1 as [|d x s m H Hs IH]; simpl; [constructor|].
  apply Forall2_app; [exact IH|]. constructor; [exact H|constructor].
Qed.

Lemma full_mask_valid s : positive_dims s -> mask_valid s (full_mask s).
Proof. unfold mask_valid, full_mask. induction 1; simpl; constructor; simpl; auto; lia. Qed.

Lemma Size_rev s : Size (rev s) = Size s.
Proof.
  induction s as [|d s IH]; [reflexivity|]. simpl rev.
  rewrite Size_app, IH, !Size_cons, Size_nil. lia.
Qed.

Lemma positive_rev s : positive_dims s -> positive_dims (rev s).
Proof. apply Forall_rev. Qed.

Lemma valid_full s k : positive_dims s -> 0 <= k -> valid (rev s) (rev (full_mask s)) k = true.
Proof.
  intros Hp Hk.
  rewrite <- valid_mask_ok by (auto using positive_rev; unfold full_mask; rewrite !length_rev, length_map; auto).
  rewrite !rev_involutive. apply mask_ok_full, unravel_in_bounds; auto.
Qed.

Lemma reshapeMask_some m s n nm :
  positive_dims n -> Size n = Size s -> n <> [] ->
  mask_valid s m -> reshapeMask (Some m) s n = Done nm ->
  exists m', nm = Some m' /\ mask_valid n m' /\
    forall k, 0 <= k -> valid (rev n) (rev m') k = valid (rev s) (rev m) k.
Proof.
  intros Hn HS Hne Hm H. unfold reshapeMask in H. destruct n as [|d0 n0]; [congruence|].
  set (n := d0 :: n0) in *. clearbody n.
  destruct (pop_mask _ _ (mask_valid_rev _ _ Hm)) as (O & l & r & rS & rM & E1 & E2 & HM & Hl & Hr & HSz & Hval).
  rewrite E1, E2 in H.
  assert (HN : loop_dims (length n) (fst (pop (rev n) 1)) (snd (pop (rev n) 1)) /\
    fst (pop (rev n) 1) * Size (snd (pop (rev n) 1)) = Size n /\
    take (length n) (fst (pop (rev n) 1) :: snd (pop (rev n) 1)) = rev n).
  { rewrite <- (length_rev n), <- (Size_rev n). pose proof (positive_rev _ Hn) as Hp.
    apply loop_dims_pop; auto. }
  destruct (pop (rev n) 1) as [nd rN]. simpl in HN. destruct HN as (HD & HSN & Ht).
  destruct (reshapeMask_loop _ rS rN rM O nd 1 (l, r) (length n) []) as [| |res] eqn:El;
    try discriminate H. injection H as <-.
  destruct (reshapeMask_loop_spec _ _ _ _ _ _ _ _ _ _ _ _ El) as (fut & Hres & Hmv & Hfut);
    auto using cuttable_one, Z.divide_1_l; try lia.
  { rewrite HSz, HSN, Size_rev. lia. }
  rewrite Ht in *. rewrite app_nil_r in Hres. subst res. exists (rev fut).
  split; [reflexivity|]. split.
  - rewrite <- (rev_involutive n). apply mask_valid_rev, Hmv.
  - intros k Hk. rewrite rev_involutive, Hval, Hfut, low_ok_one, Z.div_1_r by exact Hk. reflexivity.
Qed.

(** A successful [reshapeMask] keeps exactly the cells the old mask keeps. *)
Lemma reshapeMask_spec mask s n nm :
  positive_dims s -> positive_dims n -> Size n = Size s -> mask_valid s (mask_of s mask) ->
  reshapeMask mask s n = Done nm ->
  mask_valid n (opt_list nm) /\
  forall k, 0 <= k ->
    valid (rev n) (rev (opt_list nm)) k = valid (rev s) (rev (mask_of s mask)) k.
Proof.
  intros Hs Hn HS Hm H. destruct mask as [m|].
  - destruct (decide (n = [])) as [->|Hne].
    + injection H as <-. split; [constructor|]. intros k Hk. simpl. symmetry.
      apply valid_unit; [apply mask_valid_rev, Hm|]. rewrite Size_rev, <- HS. reflexivity.
    + destruct (reshapeMask_some _ _ _ _ Hn HS Hne Hm H) as (m' & -> & ? & ?); auto.
  - injection H as <-. simpl. split; [apply full_mask_valid, Hn|]. intros k Hk.
    rewrite !valid_full by auto. reflexivity.
Qed.

Lemma reshapeMask_ends mask s n :
  positive_dims s -> positive_dims n -> Size n = Size s -> reshapeMask mask s n <> Diverges.
Proof.
  intros Hs Hn HS. unfold reshapeMask. destruct mask as [m|]; [|discriminate].
  destruct n as [|d0 n0]; [discriminate|]. set (n := d0 :: n0) in *. clearbody n.
  destruct (pop (rev m) (0, 1)) as [m0 rM].
  assert (HN : loop_dims (length n) (fst (pop (rev n) 1)) (snd (pop (rev n) 1)) /\
    fst (pop (rev n) 1) * Size (snd (pop (rev n) 1)) = Size n /\
    take (length n) (fst (pop (rev n) 1) :: snd (pop (rev n) 1)) = rev n).
  { rewrite <- (length_rev n), <- (Size_rev n). apply loop_dims_pop; auto using positive_rev. }
  destruct (pop (rev n) 1) as [nd rN]. simpl in HN. destruct HN as (HD & HSN & _).
  assert (HO : exists O rS, pop (rev s) 1 = (O, rS) /\ positive_dims rS /\ 0 < O /\
    O * Size rS = Size s /\ (length rS <= length s)%nat).
  { rewrite <- (Size_rev s), <- (length_rev s). destruct (positive_rev _ Hs) as [|d rS Hd Hr]; simpl.
    - exists 1, []. repeat split; auto; constructor.
    - exists d, rS. rewrite Size_cons. repeat split; auto. }
  destruct HO as (O & rS & -> & HpS & HO & HSO & Hlen).
  pose proof (reshapeMask_loop_ends (length s + length n) rS rN rM O nd 1 m0 (length n) [] HpS HD HO ltac:(lia)
    ltac:(lia) ltac:(lia)) as K.
  destruct (reshapeMask_loop _ _ _ _ _ _ _ _ _ _); [congruence|discriminate|discriminate].
Qed.
