(* ===== verification/ReshapeAddr.v ===== *)
(** * The strides of a reshaped view (src/x/ndarray/view.go)

    The second half of the correctness of [reshape]: the blocks that
    [mergeDims] builds describe the old strides on the cells the mask keeps,
    and the strides [fill_block] cuts out of a block place the new axes on
    the same offsets.  Together with the mask theorem of Reshape.v this gives
    the address map of a reshaped view. *)
From Stdlib Require Import ZArith Lia.
From stdpp Require Import base numbers option list.
From S2P Require Import Prelude Shape View Reshape.

Local Open Scope Z_scope.

(** ** Cutting a block at a weight inside its real extent

    [V] is the set of kept cells of a block.  The old axes of the block cut
    at weight [R], the new ones at weights [A] and [A * n] around it.  When a
    digit above [R] is constant on [V], counting from [R] or from [A * n]
    makes no difference. *)
Section gap.
Context (V : Z -> Prop) (S A n R sp : Z).
Hypothesis HA : 0 < A.
Hypothesis Hn : 0 < n.
Hypothesis HR : A < R <= A * n.
Hypothesis Hsp : 2 <= sp.
Hypothesis Vrange : forall x, V x -> 0 <= x < S.
Hypothesis Vmix : forall x y, V x -> V y -> V (x / R * R + y mod R).
Hypothesis Vmix' : forall x y, V x -> V y -> V (x / (A * n) * (A * n) + y mod (A * n)).
Hypothesis Vmid : forall x y d, V x -> V y -> x / (A * n) = y / (A * n) ->
  (x / A) mod n <= d <= (y / A) mod n -> V (x / (A * n) * (A * n) + d * A + x mod A).
Hypothesis Vconst : forall x y, V x -> V y -> (x / R) mod sp = (y / R) mod sp.

Lemma gap_near x y : V x -> V y -> x <= y -> y - x < R -> x / R = y / R.
Proof using HA HR Hsp Vconst.
  intros Hx Hy Hle Hd. pose proof (Vconst x y Hx Hy) as E.
  pose proof (Z.div_mod x R ltac:(lia)). pose proof (Z.mod_pos_bound x R ltac:(lia)).
  pose proof (Z.div_mod y R ltac:(lia)). pose proof (Z.mod_pos_bound y R ltac:(lia)).
  assert (x / R <= y / R) by (apply Z.div_le_mono; lia).
  destruct (Z.eq_dec (y / R) (x / R)) as [->|Hne]; [reflexivity|].
  assert (y / R = x / R + 1) as E2 by nia. rewrite E2 in E.
  pose proof (Z.div_mod (x / R) sp ltac:(lia)) as D1.
  pose proof (Z.div_mod (x / R + 1) sp ltac:(lia)) as D2. rewrite <- E in D2.
  exfalso. set (g := (x / R + 1) / sp - (x / R) / sp).
  assert (sp * g = 1) by (unfold g; nia). destruct (Z.le_gt_cases g 0); nia.
Qed.

Lemma gap_near' x y : V x -> V y -> Z.abs (y - x) < R -> x / R = y / R.
Proof using HA HR Hsp Vconst.
  intros Hx Hy Hd. destruct (Z.le_gt_cases x y).
  - apply gap_near; auto; lia.
  - symmetry. apply gap_near; auto; lia.
Qed.

(** Climbing the digit at weight [A] one step at a time. *)
Lemma gap_climb x y : V x -> V y -> x / (A * n) = y / (A * n) ->
  forall k : nat, (x / A) mod n + Z.of_nat k <= (y / A) mod n ->
  x / R = (x / (A * n) * (A * n) + ((x / A) mod n + Z.of_nat k) * A + x mod A) / R.
Proof using HA Hn HR Hsp Vconst Vmid.
  intros Hx Hy E k. induction k as [|k IH]; intros Hk.
  - f_equal. rewrite <- Z.div_div by lia.
    pose proof (Z.div_mod x A ltac:(lia)). pose proof (Z.div_mod (x / A) n ltac:(lia)). nia.
  - rewrite IH by lia. apply gap_near'.
    + apply (Vmid x y); auto. lia.
    + apply (Vmid x y); auto. lia.
    + rewrite Nat2Z.inj_succ. lia.
Qed.

Lemma gap_class_le x y : V x -> V y -> x / (A * n) = y / (A * n) ->
  (x / A) mod n <= (y / A) mod n -> x / R = y / R.
Proof using HA Hn HR Hsp Vconst Vmid.
  intros Hx Hy E Hle.
  rewrite (gap_climb x y Hx Hy E (Z.to_nat ((y / A) mod n - (x / A) mod n))) by lia.
  rewrite Z2Nat.id by lia.
  replace ((x / A) mod n + ((y / A) mod n - (x / A) mod n)) with ((y / A) mod n) by lia.
  apply gap_near'.
  - apply (Vmid x y); auto. lia.
  - exact Hy.
  - rewrite E, <- Z.div_div by lia.
    pose proof (Z.div_mod y A ltac:(lia)). pose proof (Z.div_mod (y / A) n ltac:(lia)).
    pose proof (Z.mod_pos_bound x A HA). pose proof (Z.mod_pos_bound y A HA). nia.
Qed.

Lemma gap_class x y : V x -> V y -> x / (A * n) = y / (A * n) -> x / R = y / R.
Proof using HA Hn HR Hsp Vconst Vmid.
  intros Hx Hy E. destruct (Z.le_gt_cases ((x / A) mod n) ((y / A) mod n)).
  - apply gap_class_le; auto.
  - symmetry. apply gap_class_le; auto; lia.
Qed.

Lemma split_div q r c : 0 < c -> 0 <= r < c -> (q * c + r) / c = q /\ (q * c + r) mod c = r.
Proof using.
  intros. rewrite Z.add_comm, Z.div_add, Z.mod_add, Z.div_small, Z.mod_small by lia. lia.
Qed.

Lemma gap_class_le_conv x y :
  V x -> V y -> x / R = y / R -> x / (A * n) <= y / (A * n) -> x / (A * n) = y / (A * n).
Proof using HA Hn HR Hsp Vconst Vmid Vmix'.
  intros Hx Hy E Hle. assert (HAn : 0 < A * n) by lia.
  destruct (Z.eq_dec (x / (A * n)) (y / (A * n))) as [|Hne]; [assumption|exfalso].
  pose proof (Vmix' x y Hx Hy) as Hz. set (z := x / (A * n) * (A * n) + y mod (A * n)) in *.
  pose proof (Z.mod_pos_bound y (A * n) HAn).
  destruct (split_div (x / (A * n)) (y mod (A * n)) (A * n) HAn ltac:(lia)) as [Hzd Hzm].
  fold z in Hzd, Hzm.
  pose proof (gap_class z x Hz Hx Hzd) as Ez.
  pose proof (Z.div_mod z R ltac:(lia)). pose proof (Z.mod_pos_bound z R ltac:(lia)).
  pose proof (Z.div_mod y R ltac:(lia)). pose proof (Z.mod_pos_bound y R ltac:(lia)).
  pose proof (Z.div_mod y (A * n) ltac:(lia)).
  assert (y - z < R) by nia. assert (A * n <= y - z) by (unfold z; nia). lia.
Qed.

Lemma gap_class_conv x y : V x -> V y -> x / R = y / R -> x / (A * n) = y / (A * n).
Proof using HA Hn HR Hsp Vconst Vmid Vmix'.
  intros Hx Hy E. destruct (Z.le_gt_cases (x / (A * n)) (y / (A * n))).
  - apply gap_class_le_conv; auto.
  - symmetry. apply gap_class_le_conv; auto; lia.
Qed.

(** Moving a class by the [R] grid and back by the [A * n] grid stays in
    the class, so the two moves have the same length. *)
Lemma gap_moves x y : V x -> V y ->
  forall k : nat,
  let c := (y / (A * n) - x / (A * n)) * (A * n) - (y / R - x / R) * R in
  V (x + Z.of_nat k * c) /\ (x + Z.of_nat k * c) / R = x / R.
Proof using HA Hn HR Hsp Vconst Vmid Vmix Vmix'.
  intros Hx Hy k c. assert (HAn : 0 < A * n) by lia. assert (HR0 : 0 < R) by lia.
  induction k as [|k [IHv IHr]]; [simpl; rewrite Z.add_0_r; auto|].
  set (u := x + Z.of_nat k * c) in *.
  pose proof (gap_class_conv u x IHv Hx IHr) as IHc.
  pose proof (Vmix' y u Hy IHv) as Hw. set (w := y / (A * n) * (A * n) + u mod (A * n)) in *.
  destruct (split_div (y / (A * n)) (u mod (A * n)) (A * n) HAn) as [Hwd _];
    [apply Z.mod_pos_bound; lia|]. fold w in Hwd.
  pose proof (gap_class w y Hw Hy Hwd) as Hwr.
  pose proof (Vmix x w Hx Hw) as Ht. set (t := x / R * R + w mod R) in *.
  destruct (split_div (x / R) (w mod R) R HR0) as [Htd _];
    [apply Z.mod_pos_bound; lia|]. fold t in Htd.
  assert (t = x + Z.of_nat (Datatypes.S k) * c) as Et.
  { pose proof (Z.div_mod w R ltac:(lia)). pose proof (Z.div_mod u (A * n) ltac:(lia)).
    unfold t, w, u, c in *. rewrite Nat2Z.inj_succ. rewrite IHc, Hwr in *. nia. }
  rewrite <- Et. split; assumption.
Qed.

Lemma gap_shift x y : V x -> V y ->
  (y / (A * n) - x / (A * n)) * (A * n) <= (y / R - x / R) * R.
Proof using HA Hn HR Hsp Vconst Vmid Vmix Vmix' Vrange.
  intros Hx Hy.
  destruct (Z.le_gt_cases ((y / (A * n) - x / (A * n)) * (A * n)) ((y / R - x / R) * R));
    [assumption|exfalso].
  destruct (gap_moves x y Hx Hy (Z.to_nat S)) as [Hv _].
  apply Vrange in Hv. pose proof (Vrange x Hx). rewrite Z2Nat.id in Hv by lia. nia.
Qed.

Lemma gap_offsets x y : V x -> V y ->
  x mod (A * n) - y mod (A * n) = x mod R - y mod R.
Proof using HA Hn HR Hsp Vconst Vmid Vmix Vmix' Vrange.
  intros Hx Hy. pose proof (gap_shift x y Hx Hy). pose proof (gap_shift y x Hy Hx).
  pose proof (Z.div_mod x R ltac:(lia)). pose proof (Z.div_mod y R ltac:(lia)).
  pose proof (Z.div_mod x (A * n) ltac:(lia)). pose proof (Z.div_mod y (A * n) ltac:(lia)). nia.
Qed.
End gap.

(** ** What [fill_block] cuts *)

(** The new axes a block consumed, the last of them that gets a stride being
    the one that reaches the real extent [R]. *)
Lemma fill_block_spec rNew : forall S t R acc out rest,
  fill_block rNew S t R acc = Some (out, rest) ->
  exists used, rNew = used ++ rest /\ positive_dims used /\ length out = length used /\
    acc * Size used = S.
Proof.
  induction rNew as [|d rNew IH]; intros S t R acc out rest H; cbn [fill_block] in H.
  - destruct ((acc <=? S) && negb (acc =? S)) eqn:E; [discriminate|].
    destruct (Z.eqb_spec acc S); [|discriminate]. injection H as <- <-.
    exists []. rewrite Size_nil. repeat split; auto; [constructor|lia].
  - destruct ((acc <=? S) && negb (acc =? S)) eqn:E.
    + destruct (Z.leb_spec d 0); [discriminate|].
      destruct (fill_block rNew S _ R (acc * d)) as [[out' rest']|] eqn:Ef; [|discriminate].
      injection H as <- <-. apply IH in Ef as (used & -> & Hp & Hl & Hs).
      exists (d :: used). rewrite Size_cons. simpl. repeat split; auto; [constructor; auto|nia].
    + destruct (Z.eqb_spec acc S); [|discriminate]. injection H as <- <-.
      exists []. rewrite Size_nil. repeat split; auto; [constructor|lia].
Qed.

Lemma fill_block_zero rNew : forall S R acc out rest,
  fill_block rNew S 0 R acc = Some (out, rest) ->
  forall used k, place used out k = 0.
Proof.
  induction rNew as [|d rNew IH]; intros S R acc out rest H used k; cbn [fill_block] in H.
  - destruct (_ && _); [discriminate|]. destruct (negb _); [discriminate|].
    injection H as <- <-. destruct used; reflexivity.
  - destruct (_ && _).
    + destruct (d <=? 0); [discriminate|].
      destruct (fill_block rNew S _ R (acc * d)) as [[out' rest']|] eqn:Ef; [|discriminate].
      injection H as <- <-. destruct used as [|u used]; [reflexivity|]. cbn [place].
      replace (if R <=? acc * d then 0 else 0) with 0 in Ef by (destruct (_ <=? _); reflexivity).
      rewrite (IH _ _ _ _ _ Ef). lia.
    + destruct (negb _); [discriminate|]. injection H as <- <-. destruct used; reflexivity.
Qed.

Lemma fill_block_place rNew : forall S t R acc out rest used,
  fill_block rNew S t R acc = Some (out, rest) -> rNew = used ++ rest ->
  0 < acc -> acc < R <= S ->
  exists P n Q, used = P ++ n :: Q /\ acc * Size P < R <= acc * Size P * n /\
    forall k, place used out k = t * acc * (k mod (Size P * n)).
Proof.
  induction rNew as [|d rNew IH]; intros S t R acc out rest used H Hu Ha HR; cbn [fill_block] in H.
  - destruct ((acc <=? S) && negb (acc =? S)) eqn:E; [discriminate|].
    destruct (Z.eqb_spec acc S); [lia|discriminate].
  - destruct ((acc <=? S) && negb (acc =? S)) eqn:E; [|lia].
    destruct (Z.leb_spec d 0); [discriminate|].
    destruct (fill_block rNew S _ R (acc * d)) as [[out' rest']|] eqn:Ef; [|discriminate].
    injection H as <- <-.
    destruct (fill_block_spec _ _ _ _ _ _ _ Ef) as (used' & Eu & Hp & Hl & Hs).
    assert (used = d :: used') as ->.
    { rewrite Eu in Hu. rewrite app_comm_cons in Hu. apply app_inv_tail in Hu. congruence. }
    destruct (Z.leb_spec R (acc * d)) as [Hle|Hgt].
    + exists [], d, used'. rewrite Size_nil. split; [reflexivity|]. split; [lia|].
      intros k. cbn [place]. rewrite (fill_block_zero _ _ _ _ _ _ Ef), Z.mul_1_l. lia.
    + destruct (IH _ _ _ _ _ _ used' Ef Eu ltac:(nia) ltac:(lia)) as (P & n & Q & -> & HPn & Hk).
      exists (d :: P), n, Q. rewrite Size_cons. split; [reflexivity|]. split; [lia|].
      intros k. cbn [place]. rewrite Hk.
      apply Forall_app in Hp as [HpP HpQ]. pose proof (Size_pos P HpP). inversion HpQ; subst.
      replace (d * Size P * n) with (d * (Size P * n)) by ring.
      rewrite (Z.rem_mul_r k d (Size P * n)) by nia. ring.
Qed.

(** ** What [mergeDims] describes *)

(** One block: its axes from the last one, their strides and mask, and the
    record [mergeDims] keeps for it.  Either the block does not move the
    address, or the address moves by [m_stride] times the cell number modulo
    [m_real], and any mask digit above [m_real] is fixed. *)
Record block : Type := mkBlock {
  b_shape : list Z; b_strides : list Z; b_mask : list (Z * Z); b_merged : merged
}.

Definition b_valid (b : block) (x : Z) : Prop :=
  0 <= x < Size (b_shape b) /\ valid (b_shape b) (b_mask b) x = true.

Definition b_place (b : block) (x : Z) : Z := place (b_shape b) (b_strides b) x.

Definition fixed_digit (V : Z -> Prop) (w : Z) : Prop :=
  exists sp, 2 <= sp /\ forall x y, V x -> V y -> (x / w) mod sp = (y / w) mod sp.

Definition still (b : block) : Prop :=
  m_stride (b_merged b) = 0 /\ forall x y, b_valid b x -> b_valid b y -> b_place b x = b_place b y.

Definition moving (b : block) : Prop :=
  let R := m_real (b_merged b) in
  2 <= R <= Size (b_shape b) /\ (R | Size (b_shape b)) /\
  (forall x y, b_valid b x -> b_valid b y ->
     b_place b x - b_place b y = m_stride (b_merged b) * (x mod R - y mod R)) /\
  (forall x y, b_valid b x -> b_valid b y -> b_valid b (x / R * R + y mod R)) /\
  (R = Size (b_shape b) \/ fixed_digit (b_valid b) R).

Record block_ok (b : block) : Prop := {
  b_in : mask_valid (b_shape b) (b_mask b);
  b_len : length (b_strides b) = length (b_shape b);
  b_size : m_size (b_merged b) = Size (b_shape b);
  b_moves : still b \/ moving b
}.

(** The flag [merging]: the address does not move inside the block and its
    last digit is fixed. *)
Definition flag_ok (b : block) (merging : bool) : Prop :=
  merging = true -> still b /\ (Size (b_shape b) = 1 \/ fixed_digit (b_valid b) 1).

Definition extend (b : block) (d st : Z) (m : Z * Z) (md : merged) : block :=
  mkBlock (d :: b_shape b) (st :: b_strides b) (m :: b_mask b) md.

(** The part of a block that no axis has been added to. *)
Definition no_axes : block := mkBlock [] [] [] (mkMerged 1 0 0).

(** The conditions on one axis: its mask interval is inside the dimension,
    and an axis with one coordinate has stride 0. *)
Definition axis_ok (d st : Z) (m : Z * Z) : Prop :=
  0 <= fst m < snd m /\ snd m <= d /\ (snd m <= fst m + 1 -> st = 0).

Section extend.
Context (b : block) (d st : Z) (m : Z * Z) (merging : bool).
Hypothesis Hb : block_ok b.
Hypothesis Hf : flag_ok b merging.
Hypothesis Hax : axis_ok d st m.

Lemma axis_pos : 0 < d.
Proof using Hax. unfold axis_ok in Hax. lia. Qed.

Lemma extend_valid md x :
  b_valid (extend b d st m md) x <-> b_valid b (x / d) /\ fst m <= x mod d < snd m.
Proof using Hax.
  pose proof axis_pos as Hd. unfold b_valid, extend. destruct m as [lo hi]. simpl. rewrite Size_cons.
  pose proof (Z.div_mod x d ltac:(lia)). pose proof (Z.mod_pos_bound x d Hd).
  rewrite !andb_true_iff, Z.leb_le, Z.ltb_lt.
  split; intros; repeat match goal with H : _ /\ _ |- _ => destruct H end;
    repeat split; auto; nia.
Qed.

Lemma extend_place md x :
  b_place (extend b d st m md) x = (x mod d) * st + b_place b (x / d).
Proof using. reflexivity. Qed.

Lemma extend_base md :
  m_size md = d * m_size (b_merged b) -> 
  still (extend b d st m md) \/ moving (extend b d st m md) ->
  block_ok (extend b d st m md).
Proof using Hb Hax.
  intros Hm Hmv. destruct Hb as [Hin Hl Hs _]. unfold axis_ok in Hax. split; auto.
  - constructor; [lia|exact Hin].
  - simpl. congruence.
  - simpl. rewrite Size_cons, Hm, Hs. reflexivity.
Qed.

Lemma ok_still : m_stride (b_merged b) = 0 -> still b.
Proof using Hb.
  intros H. destruct (b_moves b Hb) as [|(_ & _ & Hd' & _)]; [assumption|]. split; [exact H|].
  intros x y Hx Hy. specialize (Hd' x y Hx Hy). rewrite H in Hd'. lia.
Qed.

Lemma extend_still md :
  still b -> st = 0 -> m_stride md = 0 -> still (extend b d st m md).
Proof using Hax.
  intros [_ Hs] Est Hm. split; [exact Hm|]. intros x y Hx Hy.
  apply extend_valid in Hx as [Hx _]. apply extend_valid in Hy as [Hy _].
  rewrite !extend_place, (Hs _ _ Hx Hy), Est. lia.
Qed.

(** An axis of length 1 changes nothing. *)
Lemma extend_unit : d = 1 ->
  block_ok (extend b d st m (b_merged b)) /\ flag_ok (extend b d st m (b_merged b)) merging.
Proof using Hb Hf Hax.
  intros E1. assert (st = 0) as E2 by (unfold axis_ok in Hax; apply Hax; lia).
  assert (Hv : forall x, b_valid (extend b d st m (b_merged b)) x <-> b_valid b x).
  { intros x. rewrite extend_valid, E1, Z.div_1_r, Z.mod_1_r. unfold axis_ok in Hax.
    intuition lia. }
  assert (Hp : forall x, b_place (extend b d st m (b_merged b)) x = b_place b x).
  { intros x. rewrite extend_place, E1, E2, Z.div_1_r. lia. }
  assert (Hsz : Size (b_shape (extend b d st m (b_merged b))) = Size (b_shape b)).
  { simpl. rewrite Size_cons, E1. lia. }
  assert (Hfix : forall w, fixed_digit (b_valid b) w ->
            fixed_digit (b_valid (extend b d st m (b_merged b))) w).
  { intros w (sp & Hsp & Hw). exists sp. split; [exact Hsp|]. intros x y Hx Hy.
    apply Hw; apply Hv; assumption. }
  assert (Hst : still b -> still (extend b d st m (b_merged b))).
  { intros [? ?]. apply extend_still; auto. split; auto. }
  split.
  - apply extend_base; [lia|]. destruct (b_moves b Hb) as [Hs|(HR & Hdv & Hdf & Hmx & Hfx)]; [auto|].
    right. unfold moving. rewrite Hsz. split; [exact HR|]. split; [exact Hdv|].
    split; [|split].
    + intros x y Hx Hy. rewrite !Hp. apply Hdf; apply Hv; assumption.
    + intros x y Hx Hy. apply Hv, Hmx; apply Hv; assumption.
    + destruct Hfx; auto.
  - intros Hm. destruct (Hf Hm) as [Hs Hd1]. split; [auto|]. rewrite Hsz. destruct Hd1; auto.
Qed.

Lemma mix_digits x y R : 0 < R ->
  (x / (R * d) * (R * d) + y mod (R * d)) / d = (x / d) / R * R + (y / d) mod R /\
  (x / (R * d) * (R * d) + y mod (R * d)) mod d = y mod d.
Proof using Hax.
  intros HR. pose proof axis_pos as Hd. rewrite (Z.mul_comm R d) in *.
  rewrite (Z.rem_mul_r y d R), <- (Z.div_div x d R) by lia.
  replace (x / d / R * (d * R) + (y mod d + d * ((y / d) mod R)))
    with (y mod d + (x / d / R * R + (y / d) mod R) * d) by ring.
  rewrite Z.div_add, Z.mod_add by lia. pose proof (Z.mod_pos_bound y d Hd).
  rewrite (Z.div_small (y mod d)), (Z.mod_small (y mod d)) by lia. lia.
Qed.

(** The axis is merged because the address does not move inside the block. *)
Lemma extend_merging md :
  still b -> (Size (b_shape b) = 1 \/ fixed_digit (b_valid b) 1) -> 2 <= d ->
  m_stride md = st -> m_real md = d -> moving (extend b d st m md).
Proof using Hb Hax.
  intros [_ Hs] Hfix H2 Hst HR. unfold moving. change (b_merged (extend b d st m md)) with md.
  change (b_shape (extend b d st m md)) with (d :: b_shape b). rewrite Hst, HR, Size_cons. pose proof (Size_pos _ (mask_valid_positive _ _ (b_in b Hb))) as HS.
  split; [nia|]. split; [apply Z.divide_factor_l|]. split; [|split].
  - intros x y Hx Hy. apply extend_valid in Hx as [Hx _]. apply extend_valid in Hy as [Hy _].
    rewrite !extend_place, (Hs _ _ Hx Hy). lia.
  - intros x y Hx Hy. apply extend_valid in Hx as [Hx _]. apply extend_valid in Hy as [_ Hy].
    apply extend_valid. pose proof (mix_digits x y 1 ltac:(lia)) as [E1 E2].
    rewrite Z.mul_1_l in E1, E2. rewrite E1, E2, Z.div_1_r, Z.mod_1_r.
    rewrite Z.mul_1_r, Z.add_0_r. auto.
  - destruct Hfix as [E|(sp & Hsp & Hc)]; [left; lia|right]. exists sp. split; [exact Hsp|].
    intros x y Hx Hy. apply extend_valid in Hx as [Hx _]. apply extend_valid in Hy as [Hy _].
    specialize (Hc _ _ Hx Hy). rewrite !Z.div_1_r in Hc. exact Hc.
Qed.

(** The axis is merged because the strides fit. *)
Lemma extend_fitting md :
  moving b -> m_stride (b_merged b) = d * st ->
  m_stride md = st -> m_real md = m_real (b_merged b) * d -> moving (extend b d st m md).
Proof using Hb Hax.
  intros (HR & Hdv & Hdf & Hmx & Hfx) Hfit Hst HRm. unfold moving.
  change (b_merged (extend b d st m md)) with md.
  change (b_shape (extend b d st m md)) with (d :: b_shape b). rewrite Hst, HRm, Size_cons.
  pose proof axis_pos as Hd. set (R := m_real (b_merged b)) in *.
  split; [nia|]. split; [rewrite (Z.mul_comm R d); apply Z.mul_divide_mono_l; exact Hdv|].
  split; [|split].
  - intros x y Hx Hy. apply extend_valid in Hx as [Hx _]. apply extend_valid in Hy as [Hy _].
    rewrite !extend_place. specialize (Hdf _ _ Hx Hy). rewrite Hfit in Hdf.
    rewrite (Z.mul_comm R d), !Z.rem_mul_r by lia. lia.
  - intros x y Hx Hy. apply extend_valid in Hx as [Hx _]. apply extend_valid in Hy as [Hy Hym].
    apply extend_valid. destruct (mix_digits x y R ltac:(lia)) as [-> ->]. auto.
  - destruct Hfx as [E|(sp & Hsp & Hc)]; [left; rewrite E; lia|right]. exists sp.
    split; [exact Hsp|]. intros x y Hx Hy.
    apply extend_valid in Hx as [Hx _]. apply extend_valid in Hy as [Hy _].
    specialize (Hc _ _ Hx Hy). rewrite (Z.mul_comm R d), <- !Z.div_div by lia. exact Hc.
Qed.

Lemma extend_merged :
  2 <= d -> merging || (m_stride (b_merged b) =? d * st) = true ->
  let md := mkMerged (m_size (b_merged b) * d) st
              (if merging then d else m_real (b_merged b) * d) in
  block_ok (extend b d st m md) /\ (st = 0 -> still (extend b d st m md)).
Proof using Hb Hf Hax.
  intros H2 Hm md.
  assert (Hst : st = 0 -> still (extend b d st m md)).
  { intros E. apply extend_still; auto. destruct merging; [apply Hf; reflexivity|].
    apply ok_still. simpl in Hm. lia. }
  split; [|exact Hst]. apply extend_base; [simpl; lia|].
  destruct (Z.eq_dec st 0) as [E|Hne]; [auto|right]. subst md. destruct merging.
  - destruct (Hf eq_refl). apply extend_merging; auto.
  - simpl in Hm. destruct (b_moves b Hb) as [[E _]|Hmv]; [nia|].
    apply extend_fitting; auto. lia.
Qed.

Lemma extend_flag md :
  2 <= d -> (st = 0 -> still (extend b d st m md)) ->
  flag_ok (extend b d st m md) (snd m - fst m =? 1).
Proof using Hax.
  intros H2 Hs Hw. split.
  - apply Hs. unfold axis_ok in Hax. apply Hax. lia.
  - right. exists d. split; [exact H2|]. intros x y Hx Hy.
    apply extend_valid in Hx as [_ Hx]. apply extend_valid in Hy as [_ Hy].
    rewrite !Z.div_1_r. lia.
Qed.
End extend.

Lemma no_axes_ok : block_ok no_axes /\ flag_ok no_axes true.
Proof.
  assert (still no_axes) as Hs by (split; [reflexivity|intros x y _ _; reflexivity]).
  split; [split; simpl; auto; constructor|]. intros _. split; [exact Hs|left; reflexivity].
Qed.

(** A block with one axis. *)
Lemma one_axis_ok d st m :
  axis_ok d st m ->
  let b := mkBlock [d] [st] [m] (mkMerged d st d) in
  2 <= d -> block_ok b /\ flag_ok b (snd m - fst m =? 1).
Proof.
  intros Hax b H2. destruct no_axes_ok as [Ho Hf].
  destruct (extend_merged no_axes d st m true Ho Hf Hax H2 eq_refl) as [Hb Hs].
  cbn [m_size b_merged no_axes] in Hb, Hs. rewrite Z.mul_1_l in Hb, Hs.
  split; [exact Hb|]. apply (extend_flag no_axes d st m Hax _ H2 Hs).
Qed.

(** The first block of [mergeDims], whose real extent is 0 when the stride is. *)
Lemma first_axis_ok d st m :
  axis_ok d st m ->
  let b := mkBlock [d] [st] [m] (mkMerged d st (if st =? 0 then 0 else d)) in
  block_ok b /\ flag_ok b (snd m - fst m =? 1).
Proof.
  intros Hax b. destruct no_axes_ok as [Ho Hf]. destruct (Z.eqb_spec st 0) as [E|Hne].
  - assert (Hs : still b).
    { apply (extend_still no_axes d st m); auto. apply (Hf eq_refl). }
    split; [apply (extend_base no_axes d st m); auto; simpl; lia|].
    destruct (Z.eq_dec d 1) as [->|Hd1].
    + intros _. split; [exact Hs|left; reflexivity].
    + apply (extend_flag no_axes d st m Hax); auto. unfold axis_ok in Hax. lia.
  - apply one_axis_ok; auto. unfold axis_ok in Hax. lia.
Qed.

(** ** The blocks of a view *)

Inductive axes_ok : list Z -> list Z -> list (Z * Z) -> Prop :=
| axes_nil : axes_ok [] [] []
| axes_cons d st m s sts ms :
    axis_ok d st m -> axes_ok s sts ms -> axes_ok (d :: s) (st :: sts) (m :: ms).

Definition cells (bs : list block) : list Z := concat (map b_shape bs).
Definition steps (bs : list block) : list Z := concat (map b_strides bs).
Definition masks (bs : list block) : list (Z * Z) := concat (map b_mask bs).

Lemma mergeDims_loop_none shape : forall strides md merging,
  mergeDims_loop shape strides None md merging
  = mergeDims_loop shape strides (Some (full_mask shape)) md merging.
Proof.
  induction shape as [|d s IH]; intros [|st sts] md merging; try reflexivity. simpl.
  rewrite Z.sub_0_r, !IH. reflexivity.
Qed.

(** [bs] lists the blocks with the last axes first; its last element grew
    from the block [b] the loop started with. *)
Lemma mergeDims_loop_blocks shape strides ms :
  axes_ok shape strides ms ->
  forall b merging, block_ok b -> flag_ok b merging ->
  exists bs,
    mergeDims_loop shape strides (Some ms) (b_merged b) merging = rev (map b_merged bs) /\
    Forall block_ok bs /\
    cells bs = rev shape ++ b_shape b /\ steps bs = rev strides ++ b_strides b /\
    masks bs = rev ms ++ b_mask b.
Proof.
  induction 1 as [|d st m s sts ms Hax Hs IH]; intros b merging Hb Hf.
  { exists [b]. unfold cells, steps, masks. simpl. rewrite !app_nil_r. auto. }
  cbn [mergeDims_loop option_map tail].
  replace (mask_width_one (Some (m :: ms)) d) with (snd m - fst m =? 1) by (destruct m; reflexivity).
  simpl rev. rewrite <- !app_assoc. simpl app.
  destruct (Z.eqb_spec d 1) as [E1|N1].
  - destruct (extend_unit b d st m merging Hb Hf Hax E1) as [Hb' Hf'].
    apply (IH _ _ Hb' Hf').
  - assert (H2 : 2 <= d) by (unfold axis_ok in Hax; lia).
    destruct (merging || (m_stride (b_merged b) =? d * st)) eqn:Em.
    + destruct (extend_merged b d st m merging Hb Hf Hax H2 Em) as [Hb' Hs'].
      apply (IH _ _ Hb'), (extend_flag b d st m Hax); auto.
    + destruct (one_axis_ok d st m Hax H2) as [Hb' Hf'].
      destruct (IH _ _ Hb' Hf') as (bs & E & Hbs & Hc & Hst & Hm). cbn [b_merged] in E.
      exists (bs ++ [b]). unfold cells, steps, masks in *.
      rewrite E, !map_app, !concat_app, Hc, Hst, Hm, rev_app_distr, <- !app_assoc. simpl.
      rewrite !app_nil_r. repeat split; auto. apply Forall_app; auto.
Qed.

Lemma mergeDims_blocks shape strides mask :
  axes_ok shape strides (mask_of shape mask) ->
  exists bs, mergeDims shape strides mask = rev (map b_merged bs) /\ Forall block_ok bs /\
    cells bs = rev shape /\ steps bs = rev strides /\ masks bs = rev (mask_of shape mask).
Proof.
  intros H. assert (E : mergeDims shape strides mask = mergeDims shape strides (Some (mask_of shape mask))).
  { destruct mask as [m|]; [reflexivity|]. destruct shape as [|d s]; [reflexivity|].
    destruct strides; [reflexivity|]. simpl. rewrite Z.sub_0_r. apply mergeDims_loop_none. }
  rewrite E. revert H. generalize (mask_of shape mask) as ms. intros ms H.
  destruct H as [|d st m s sts ms Hax Hs]; [exists []; auto|].
  destruct (first_axis_ok d st m Hax) as [Hb Hf].
  destruct (mergeDims_loop_blocks _ _ _ Hs _ _ Hb Hf) as (bs & Eb & ? & ? & ? & ?).
  exists bs. cbn [b_merged] in Eb. cbn [mergeDims option_map tail].
  replace (mask_width_one (Some (m :: ms)) d) with (snd m - fst m =? 1) by (destruct m; reflexivity).
  auto.
Qed.

(** ** A block and its cut *)

Lemma valid_split P n Q pm m qm k :
  positive_dims P -> 0 < n -> length pm = length P ->
  valid (P ++ n :: Q) (pm ++ m :: qm) k
  = valid P pm k && (in_interval m ((k / Size P) mod n) && valid Q qm (k / (Size P * n))).
Proof.
  intros HP Hn Hl. rewrite valid_app by auto. destruct m as [lo hi]. cbn [valid].
  pose proof (Size_pos P HP). rewrite Z.div_div by lia. unfold in_interval. simpl. reflexivity.
Qed.

Lemma in_interval_mid m a b d :
  in_interval m a = true -> in_interval m b = true -> a <= d <= b -> in_interval m d = true.
Proof. unfold in_interval. lia. Qed.

Section cut.
Context (b : block) (P : list Z) (n : Z) (Q : list Z) (um : list (Z * Z)).
Hypothesis Hb : block_ok b.
Hypothesis Hm : mask_valid (P ++ n :: Q) um.
Hypothesis Hsize : Size (P ++ n :: Q) = Size (b_shape b).
Hypothesis Hvalid : forall x, 0 <= x ->
  valid (b_shape b) (b_mask b) x = valid (P ++ n :: Q) um x.

(** The cells kept, seen through the new axes. *)
Lemma cut_split : exists pm m qm,
  um = pm ++ m :: qm /\ 0 < n /\ positive_dims P /\ positive_dims Q /\
  forall x, b_valid b x <->
    0 <= x < Size P * (n * Size Q) /\ valid P pm x = true /\
    in_interval m ((x / Size P) mod n) = true /\ valid Q qm (x / (Size P * n)) = true.
Proof using Hm Hsize Hvalid.
  apply Forall2_app_inv_l in Hm as (pm & r & Hpm & Hr & E).
  inversion Hr as [|n0 m Q0 qm Hnm Hq E1 E2]; subst r. exists pm, m, qm. split; [exact E|].
  pose proof (mask_valid_positive _ _ Hpm). pose proof (mask_valid_positive _ _ Hq).
  assert (Hn : 0 < n) by lia. apply Forall2_length in Hpm.
  do 3 (split; [assumption|]). intros x. unfold b_valid. rewrite <- Hsize, Size_app, Size_cons.
  split; intros [Hx Hv]; (split; [exact Hx|]).
  - rewrite Hvalid, E, valid_split, !andb_true_iff in Hv by (auto; lia). exact Hv.
  - rewrite Hvalid, E, valid_split, !andb_true_iff by (auto; lia). exact Hv.
Qed.

(** Keeping the digits of [x] above weight [w] and those of [y] below. *)
Lemma mix_div_mod w x y : 0 < w ->
  (x / w * w + y mod w) / w = x / w /\ (x / w * w + y mod w) mod w = y mod w.
Proof using. intros Hw. apply split_div; [exact Hw|]. apply Z.mod_pos_bound, Hw. Qed.

Lemma mix_range w s x y : 0 < w -> 0 <= x < w * s -> 0 <= x / w * w + y mod w < w * s.
Proof using.
  intros Hw Hx. pose proof (Z.mod_pos_bound y w Hw). pose proof (Z.div_pos x w).
  pose proof (Z.div_lt_upper_bound x w s). nia.
Qed.

Lemma cut_mix x y : b_valid b x -> b_valid b y ->
  b_valid b (x / (Size P * n) * (Size P * n) + y mod (Size P * n)).
Proof using Hm Hsize Hvalid.
  destruct cut_split as (pm & m & qm & _ & Hn & HP & HQ & HV). rewrite !HV.
  intros (Hx & Hx1 & Hx2 & Hx3) (Hy & Hy1 & Hy2 & Hy3). pose proof (Size_pos P HP) as HA.
  destruct (mix_div_mod (Size P * n) x y ltac:(nia)) as [E1 E2].
  rewrite (Z.mul_assoc (Size P)) in *. split; [apply mix_range; nia|].
  set (z := x / (Size P * n) * (Size P * n) + y mod (Size P * n)) in *.
  rewrite E1. repeat split; auto.
  - rewrite <- (valid_mod P pm z), <- (mod_mul_mod z (Size P) n), E2, mod_mul_mod, valid_mod by auto. auto.
  - rewrite <- (mod_mul_div z (Size P) n), E2, mod_mul_div by lia. auto.
Qed.

Lemma cut_mid x y d : b_valid b x -> b_valid b y -> x / (Size P * n) = y / (Size P * n) ->
  (x / Size P) mod n <= d <= (y / Size P) mod n ->
  b_valid b (x / (Size P * n) * (Size P * n) + d * Size P + x mod Size P).
Proof using Hm Hsize Hvalid.
  destruct cut_split as (pm & m & qm & _ & Hn & HP & HQ & HV). rewrite !HV.
  intros (Hx & Hx1 & Hx2 & Hx3) (Hy & Hy1 & Hy2 & Hy3) Eq Hd. pose proof (Size_pos P HP) as HA.
  pose proof (Z.mod_pos_bound (x / Size P) n Hn). pose proof (Z.mod_pos_bound (y / Size P) n Hn).
  pose proof (Z.mod_pos_bound x (Size P) HA).
  set (q := x / (Size P * n)) in *.
  replace (q * (Size P * n) + d * Size P + x mod Size P)
    with ((q * n + d) * Size P + x mod Size P) by ring.
  destruct (split_div (q * n + d) (x mod Size P) (Size P) HA ltac:(lia)) as [E1 E2].
  destruct (split_div q d n Hn ltac:(lia)) as [E3 E4].
  set (z := (q * n + d) * Size P + x mod Size P) in *.
  assert (E5 : z / (Size P * n) = q) by (rewrite <- Z.div_div, E1, E3 by lia; reflexivity).
  rewrite E5, E1, E4. repeat split.
  - pose proof (Z.div_pos x (Size P * n)). unfold z. nia.
  - assert (q < Size Q) by (apply Z.div_lt_upper_bound; nia). unfold z.
    assert (q * n + d + 1 <= n * Size Q) by nia. nia.
  - rewrite <- (valid_mod P pm z), E2, valid_mod by auto. exact Hx1.
  - apply (in_interval_mid _ _ _ _ Hx2 Hy2 Hd).
  - exact Hx3.
Qed.
End cut.

Lemma block_place b rNew out rest used um :
  block_ok b ->
  fill_block rNew (m_size (b_merged b)) (m_stride (b_merged b)) (m_real (b_merged b)) 1 = Some (out, rest) ->
  rNew = used ++ rest -> Size used = Size (b_shape b) -> mask_valid used um ->
  (forall x, 0 <= x -> valid (b_shape b) (b_mask b) x = valid used um x) ->
  forall x y, b_valid b x -> b_valid b y ->
    b_place b x - b_place b y = place used out x - place used out y.
Proof.
  intros Hb Hf Hu Hs Hm Hv x y Hx Hy.
  destruct (b_moves b Hb) as [[Ht Hst]|(HR & Hdv & Hdf & Hmx & Hfx)].
  { rewrite Ht in Hf. rewrite !(fill_block_zero _ _ _ _ _ _ Hf), (Hst x y Hx Hy). lia. }
  rewrite (Hdf x y Hx Hy). rewrite (b_size b Hb) in Hf. set (R := m_real (b_merged b)) in *.
  destruct (fill_block_place _ _ _ _ _ _ _ used Hf Hu ltac:(lia) ltac:(lia))
    as (P & n & Q & E & HPn & Hk).
  subst used. rewrite !Hk. rewrite !Z.mul_1_l in HPn.
  assert (HP : positive_dims (P ++ n :: Q)) by (eapply mask_valid_positive; eauto).
  apply Forall_app in HP as [HP HQ]. inversion HQ as [|? ? Hn HQ']; subst.
  pose proof (Size_pos P HP). pose proof (Size_pos Q HQ').
  assert (x mod (Size P * n) - y mod (Size P * n) = x mod R - y mod R) as E; [|nia].
  destruct Hfx as [HRS|(sp & Hsp & Hc)].
  - assert (Size P * n = R) as ->; [|reflexivity]. rewrite Size_app, Size_cons in Hs. nia.
  - apply (gap_offsets (b_valid b) (Size (b_shape b)) (Size P) n R sp); auto.
    + intros z [Hz _]. exact Hz.
    + eapply cut_mix; eauto.
    + eapply cut_mid; eauto.
Qed.

(** ** All the blocks *)

(** Two masks over the same cut into low and high axes agree part by part. *)
Lemma valid_parts s1 m1 s2 m2 t1 n1 t2 n2 :
  mask_valid s1 m1 -> mask_valid s2 m2 -> mask_valid t1 n1 -> mask_valid t2 n2 ->
  Size s1 = Size t1 ->
  (forall k, 0 <= k -> valid (s1 ++ s2) (m1 ++ m2) k = valid (t1 ++ t2) (n1 ++ n2) k) ->
  (forall k, 0 <= k -> valid s1 m1 k = valid t1 n1 k) /\
  (forall k, 0 <= k -> valid s2 m2 k = valid t2 n2 k).
Proof.
  intros H1 H2 G1 G2 HS HV.
  pose proof (mask_valid_positive _ _ H1) as P1. pose proof (mask_valid_positive _ _ G1) as Q1.
  pose proof (Size_pos _ P1) as HS0.
  pose proof (corner_bounds _ _ H1) as B1. pose proof (corner_bounds _ _ H2) as B2.
  pose proof (corner_valid _ _ H1) as C1. pose proof (corner_valid _ _ H2) as C2.
  set (c1 := corner s1 m1) in *. set (c2 := corner s2 m2) in *.
  assert (HV' : forall lo hi, 0 <= lo -> 0 <= hi ->
    valid s1 m1 lo && valid s2 m2 hi = valid t1 n1 lo && valid t2 n2 hi).
  { intros lo hi Hlo Hhi. pose proof (Z.mod_pos_bound lo _ HS0) as Hb.
    specialize (HV (hi * Size s1 + lo mod Size s1) ltac:(nia)).
    rewrite !valid_app in HV by (auto using mask_in_length, mask_valid_in).
    destruct (split_div hi (lo mod Size s1) (Size s1) HS0 Hb) as [E1 E2].
    rewrite <- HS, E1 in HV.
    rewrite <- (valid_mod s1 m1 (_ + _)), E2, valid_mod in HV by auto.
    rewrite <- (valid_mod t1 n1 (_ + _)), <- HS, E2, HS, valid_mod in HV by auto. exact HV. }
  pose proof (HV' c1 c2 ltac:(lia) ltac:(lia)) as K. rewrite C1, C2 in K.
  symmetry in K. apply andb_true_iff in K as [K1 K2]. split; intros k Hk.
  - specialize (HV' k c2 Hk ltac:(lia)). rewrite C2, K2, !andb_true_r in HV'. exact HV'.
  - specialize (HV' c1 k ltac:(lia) Hk). rewrite C1, K1 in HV'. exact HV'.
Qed.

Lemma blocks_valid bs : Forall block_ok bs ->
  mask_valid (cells bs) (masks bs) /\ length (steps bs) = length (cells bs).
Proof.
  unfold cells, masks, steps, mask_valid. induction 1 as [|b bs Hb Hbs [IH1 IH2]]; simpl.
  - split; constructor.
  - split; [apply Forall2_app; [apply b_in; auto|exact IH1]|].
    rewrite !length_app, (b_len b Hb). lia.
Qed.

(** The strides cut out of the blocks move the address like the old ones. *)
Lemma fill_strides_place bs : Forall block_ok bs ->
  forall rNew out rnm,
  fill_strides (map b_merged bs) rNew = Some out ->
  mask_valid rNew rnm -> Size rNew = Size (cells bs) ->
  (forall k, 0 <= k -> valid (cells bs) (masks bs) k = valid rNew rnm k) ->
  forall x y, 0 <= x -> 0 <= y ->
    valid rNew rnm x = true -> valid rNew rnm y = true ->
    place (cells bs) (steps bs) x - place (cells bs) (steps bs) y
    = place rNew out x - place rNew out y.
Proof.
  induction 1 as [|b bs Hb Hbs IH]; intros rNew out rnm H Hm HS Hv x y Hx Hy Vx Vy.
  { injection H as <-. destruct rNew; reflexivity. }
  cbn [map fill_strides] in H.
  destruct (fill_block rNew _ _ _ 1) as [[o1 rest]|] eqn:Ef; [|discriminate H].
  destruct (fill_strides (map b_merged bs) rest) as [o2|] eqn:E2; [|discriminate H].
  injection H as <-.
  destruct (fill_block_spec _ _ _ _ _ _ _ Ef) as (used & Eu & Hpu & Hlo & Hsu).
  rewrite (b_size b Hb), Z.mul_1_l in Hsu. subst rNew.
  apply Forall2_app_inv_l in Hm as (um & rm & Hum & Hrm & ->).
  destruct (blocks_valid bs Hbs) as [Hbv Hbl].
  pose proof (mask_valid_positive _ _ (b_in b Hb)) as HpG.
  assert (HC : cells (b :: bs) = b_shape b ++ cells bs) by reflexivity.
  assert (HM : masks (b :: bs) = b_mask b ++ masks bs) by reflexivity.
  assert (HT : steps (b :: bs) = b_strides b ++ steps bs) by reflexivity.
  rewrite HC, HM in Hv. rewrite HC, HT. rewrite HC, !Size_app in HS.
  destruct (valid_parts _ _ _ _ _ _ _ _ (b_in b Hb) Hbv Hum Hrm ltac:(congruence) Hv) as [Hv1 Hv2].
  rewrite !place_app by (auto using b_len). rewrite Hsu.
  pose proof (Size_pos _ HpG) as HSG.
  rewrite !valid_app, Hsu in Vx, Vy by (auto using mask_in_length, mask_valid_in).
  apply andb_true_iff in Vx as [Vx1 Vx2]. apply andb_true_iff in Vy as [Vy1 Vy2].
  assert (Hrec := IH _ _ _ E2 Hrm ltac:(nia) Hv2 (x / Size (b_shape b)) (y / Size (b_shape b))
    ltac:(apply Z.div_pos; lia) ltac:(apply Z.div_pos; lia) Vx2 Vy2).
  assert (Hin : forall z, 0 <= z -> valid used um z = true -> b_valid b (z mod Size (b_shape b))).
  { intros z Hz Vz. split; [apply Z.mod_pos_bound, HSG|]. rewrite valid_mod, Hv1; auto. }
  pose proof (block_place b _ _ _ _ _ Hb Ef eq_refl Hsu Hum Hv1 _ _ (Hin x Hx Vx1) (Hin y Hy Vy1)) as Hblk.
  unfold b_place in Hblk. rewrite !place_mod in Hblk by auto.
  rewrite <- Hsu, !place_mod in Hblk by auto. lia.
Qed.

Lemma place_zeros rs n k : place rs (zeros n) k = 0.
Proof.
  unfold zeros. revert n k; induction rs as [|d rs IH]; intros [|n] k; cbn [place replicate]; auto.
  rewrite IH. lia.
Qed.

Lemma place_pad rs rst n k : place rs (rst ++ zeros n) k = place rs rst k.
Proof.
  revert rst k; induction rs as [|d rs IH]; intros [|y rst] k; cbn [place app]; auto.
  - apply (place_zeros (d :: rs)).
  - rewrite IH. reflexivity.
Qed.

(** ** The address map of a reshaped view *)

Lemma canonical_axes v :
  canonical v -> positive_dims (v_shape v) ->
  (forall m, v_mask v = Some m -> mask_valid (v_shape v) m /\
     Forall2 (fun m st => snd m <= fst m + 1 -> st = 0) m (v_strides v)) ->
  axes_ok (v_shape v) (v_strides v) (mask_of (v_shape v) (v_mask v)).
Proof.
  intros Hc Hp Hm. pose proof (can_unit v Hc) as Hu. revert Hm Hu Hp.
  destruct (v_mask v) as [m|]; simpl.
  - intros Hm _ _. destruct (Hm m eq_refl) as [Hv Hn]. clear Hm. revert Hn.
    generalize (v_strides v). induction Hv as [|d x s ms Hx Hv IH]; intros st Hn;
      inversion Hn; subst; constructor; [unfold axis_ok; intuition lia|auto].
  - intros _ Hu Hp. unfold full_mask. induction Hu as [|d st s sts Hd Hu IH]; simpl;
      inversion Hp; subst; constructor; [unfold axis_ok; simpl; intuition lia|auto].
Qed.

(** The part of [reshape] after its early exits. *)
Definition reshape_blocks (v : view) (newShape : Shape) : outcome view :=
  match fill_strides (rev (mergeDims (v_shape v) (v_strides v) (v_mask v))) (rev newShape) with
  | None => Fails
  | Some rStrides =>
      let newStrides := zeros (length newShape - length rStrides) ++ rev rStrides in
      match reshapeMask (v_mask v) (v_shape v) newShape with
      | Diverges => Diverges
      | Fails => Fails
      | Done newMask =>
          let extra := extra_offset (opt_list (v_mask v)) (v_strides v)
                       - extra_offset (opt_list newMask) newStrides in
          created (create newShape (Some newStrides) (v_offset v + extra) newMask)
      end
  end.

Lemma created_done r v : created r = Done v -> r = Ok v.
Proof. destruct r; simpl; congruence. Qed.

Lemma rev_zeros n : rev (zeros n) = zeros n.
Proof.
  unfold zeros. induction n as [|n IH]; [reflexivity|]. cbn [replicate rev]. rewrite IH.
  rewrite <- replicate_cons_app. reflexivity.
Qed.

Lemma fill_strides_length mds : forall rNew out,
  fill_strides mds rNew = Some out -> (length out <= length rNew)%nat.
Proof.
  induction mds as [|md mds IH]; intros rNew out H; simpl in H; [injection H as <-; simpl; lia|].
  destruct (fill_block rNew _ _ _ 1) as [[o1 rest]|] eqn:Ef; [|discriminate H].
  destruct (fill_strides mds rest) as [o2|] eqn:E2; [|discriminate H]. injection H as <-.
  destruct (fill_block_spec _ _ _ _ _ _ _ Ef) as (used & -> & _ & Hl & _).
  apply IH in E2. rewrite !length_app. lia.
Qed.

Lemma extra_offset_full s st : extra_offset (full_mask s) st = 0.
Proof. unfold full_mask. revert st; induction s as [|d s IH]; intros [|y st]; simpl; rewrite ?IH; lia. Qed.

Lemma extra_offset_snoc m st p y :
  length m = length st -> extra_offset (m ++ [p]) (st ++ [y]) = extra_offset m st + fst p * y.
Proof.
  revert st; induction m as [|q m IH]; intros [|z st] H; simpl in *; try discriminate; [lia|].
  rewrite IH by lia. lia.
Qed.

Lemma extra_offset_rev m st :
  length m = length st -> extra_offset (rev m) (rev st) = extra_offset m st.
Proof.
  revert st; induction m as [|p m IH]; intros [|y st] H; simpl in *; try discriminate; [reflexivity|].
  rewrite extra_offset_snoc by (rewrite !length_rev; lia). rewrite IH by lia. lia.
Qed.

Lemma extra_offset_mask_of s mask st :
  extra_offset (opt_list mask) st = extra_offset (mask_of s mask) st.
Proof. destruct mask; simpl; [reflexivity|]. rewrite extra_offset_full. reflexivity. Qed.

Section reshaped.
Context (s t : Shape) (sst tst : list Z) (sm : option (list (Z * Z))) (tm : list (Z * Z)) (k : Z).
Hypothesis Hs : positive_dims s.
Hypothesis Ht : positive_dims t.
Hypothesis Hls : length sst = length s.
Hypothesis Hlt : length tst = length t.
Hypothesis Hsm : mask_valid s (mask_of s sm).
Hypothesis Htm : mask_valid t tm.
Hypothesis Hk : 0 <= k < Size t.
Hypothesis Hval : forall k, 0 <= k ->
  valid (rev t) (rev tm) k = valid (rev s) (rev (mask_of s sm)) k.

(** The old mask and the new one keep the same cells. *)
Lemma reshaped_mask : Size t = Size s -> mask_ok tm (unravel t k) = mask_opt_ok sm (unravel s k).
Proof using Hs Ht Hsm Htm Hk Hval.
  clear Hls Hlt. intros HS. pose proof (mask_in_length _ _ (mask_valid_in _ _ Htm)).
  pose proof (mask_in_length _ _ (mask_valid_in _ _ Hsm)).
  transitivity (valid (rev t) (rev tm) k).
  - rewrite <- valid_mask_ok by (rewrite ?length_rev; auto using positive_rev; lia).
    rewrite !rev_involutive. reflexivity.
  - rewrite Hval by lia. rewrite <- valid_mask_ok by (rewrite ?length_rev; auto using positive_rev; lia).
    rewrite !rev_involutive. destruct sm; simpl; [reflexivity|].
    apply mask_ok_full, unravel_in_bounds; auto; lia.
Qed.

(** The base offsets agree with the addresses of the first kept cells. *)
Lemma reshaped_offset :
  (forall x y, 0 <= x -> 0 <= y ->
    valid (rev t) (rev tm) x = true -> valid (rev t) (rev tm) y = true ->
    place (rev s) (rev sst) x - place (rev s) (rev sst) y
    = place (rev t) (rev tst) x - place (rev t) (rev tst) y) ->
  mask_ok tm (unravel t k) = true ->
  extra_offset (opt_list sm) sst - extra_offset tm tst + dot (unravel t k) tst
  = dot (unravel s k) sst.
Proof using Hs Ht Hls Hlt Hsm Htm Hk Hval.
  intros Hdiff Hok. rewrite (extra_offset_mask_of s).
  pose proof (mask_in_length _ _ (mask_valid_in _ _ Htm)).
  pose proof (mask_in_length _ _ (mask_valid_in _ _ Hsm)).
  pose proof (mask_valid_rev _ _ Hsm) as Rs. pose proof (mask_valid_rev _ _ Htm) as Rt.
  rewrite <- (extra_offset_rev (mask_of s sm) sst), <- (extra_offset_rev tm tst) by lia.
  rewrite <- (place_corner (rev s) (rev sst) _ Rs), <- (place_corner (rev t) (rev tst) _ Rt)
    by (rewrite !length_rev; lia).
  pose proof (place_dot (rev t) (rev tst) k) as Dt. pose proof (place_dot (rev s) (rev sst) k) as Ds.
  rewrite !rev_involutive in Dt, Ds.
  rewrite Dt, Ds by (rewrite ?length_rev; auto using positive_rev; lia).
  rewrite (corner_unique _ _ _ _ Rt Rs Hval).
  pose proof (corner_bounds _ _ Rs).
  assert (valid (rev t) (rev tm) k = true) as Vk.
  { rewrite <- valid_mask_ok by (rewrite ?length_rev; auto using positive_rev; lia).
    rewrite !rev_involutive. exact Hok. }
  assert (valid (rev t) (rev tm) (corner (rev s) (rev (mask_of s sm))) = true) as Vc.
  { rewrite Hval by lia. apply corner_valid, Rs. }
  specialize (Hdiff k (corner (rev s) (rev (mask_of s sm))) ltac:(lia) ltac:(lia) Vk Vc). lia.
Qed.
End reshaped.

Definition full_or_valid (v : view) : Prop :=
  forall m, v_mask v = Some m -> mask_valid (v_shape v) m /\
    Forall2 (fun m st => snd m <= fst m + 1 -> st = 0) m (v_strides v).

Lemma opt_list_ok t nm c : mask_valid t (opt_list nm) -> mask_opt_ok nm c = mask_ok (opt_list nm) c.
Proof. destruct nm; reflexivity. Qed.

Lemma reshape_blocks_addr v s v' c :
  canonical v -> positive_dims (v_shape v) -> positive_dims s ->
  Size s = Size (v_shape v) -> full_or_valid v ->
  reshape_blocks v s = Done v' -> in_bounds s c ->
  addr v' c = addr v (unravel (v_shape v) (ravel s c)).
Proof.
  intros Hv Hp Hps HS Hm H Hc. unfold reshape_blocks in H.
  destruct (mergeDims_blocks _ _ _ (canonical_axes v Hv Hp Hm)) as (bs & Eb & Hbs & EC & ET & EM).
  rewrite Eb, rev_involutive in H.
  destruct (fill_strides (map b_merged bs) (rev s)) as [out|] eqn:Ef; [|discriminate H].
  destruct (reshapeMask (v_mask v) (v_shape v) s) as [| |nm] eqn:Em; try discriminate H.
  apply created_done in H.
  destruct (blocks_valid bs Hbs) as [Hbv _]. rewrite EC, EM in Hbv.
  apply mask_valid_rev in Hbv. rewrite !rev_involutive in Hbv.
  destruct (reshapeMask_spec _ _ _ _ Hp Hps HS Hbv Em) as [Hnv Hval].
  pose proof (fill_strides_length _ _ _ Ef) as Hlo. rewrite length_rev in Hlo.
  set (nst := zeros (length s - length out) ++ rev out) in *.
  assert (Hrst : rev nst = out ++ zeros (length s - length out)).
  { unfold nst. rewrite rev_app_distr, rev_involutive, rev_zeros. reflexivity. }
  assert (Hlst : length nst = length s).
  { unfold nst, zeros. rewrite length_app, length_replicate, length_rev. lia. }
  pose proof (ravel_bounds _ _ Hc) as Hk.
  rewrite (create_addr _ _ _ _ _ _ H Hc).
  rewrite addr_spec by (rewrite length_unravel; reflexivity).
  unfold affine. cbn [given_strides]. rewrite (opt_list_ok _ _ _ Hnv).
  pose proof (unravel_ravel s c Hc) as Ec. set (k := ravel s c) in *. clearbody k. subst c.
  rewrite <- (reshaped_mask (v_shape v) s (v_mask v) (opt_list nm) k) by auto.
  destruct (mask_ok (opt_list nm) (unravel s k)) eqn:Eok; [|reflexivity]. f_equal.
  rewrite <- (reshaped_offset (v_shape v) s (v_strides v) nst (v_mask v) (opt_list nm) k);
    auto using can_length; [lia|].
  intros x y Hx Hy Vx Vy. rewrite Hrst, !place_pad, <- EC, <- ET.
  apply (fill_strides_place bs Hbs _ _ (rev (opt_list nm)) Ef); auto using mask_valid_rev.
  - rewrite EC, !Size_rev. exact HS.
  - intros z Hz. rewrite EC, EM. symmetry. auto.
Qed.

(** *** A view whose mask keeps nothing *)

Definition keeps_nothing (v : view) : Prop :=
  v_shape v <> [] /\ v_mask v = Some (replicate (length (v_shape v)) (0, 0)).

Lemma canonical_cases v : canonical v -> keeps_nothing v \/ full_or_valid v.
Proof.
  intros Hc. unfold keeps_nothing, full_or_valid. destruct (v_mask v) as [m|] eqn:E.
  - destruct (can_mask v Hc m E) as [_ [(Hne & -> & _)|[Hv Hn]]]; [left; auto|right].
    intros m0 [= <-]. auto.
  - right. discriminate.
Qed.

Lemma keeps_nothing_addr v c : keeps_nothing v -> length c = length (v_shape v) -> addr v c = None.
Proof.
  intros [Hne E] Hl. rewrite addr_spec by exact Hl. unfold affine. rewrite E. simpl.
  destruct (v_shape v) as [|d s]; [congruence|]. cbn [length] in *. rewrite mask_ok_zeros by exact Hl.
  reflexivity.
Qed.

Lemma rev_replicate {A} n (x : A) : rev (replicate n x) = replicate n x.
Proof.
  induction n as [|n IH]; [reflexivity|]. cbn [replicate rev]. rewrite IH, <- replicate_cons_app.
  reflexivity.
Qed.

Lemma reshapeMask_empty s n nm :
  positive_dims s -> positive_dims n -> Size n = Size s -> s <> [] -> n <> [] ->
  reshapeMask (Some (replicate (length s) (0, 0))) s n = Done nm ->
  exists m, nm = Some m /\ mask_empty m = true.
Proof.
  intros Hs Hn HS Hsne Hnne H. unfold reshapeMask in H. destruct n as [|d0 n0]; [congruence|].
  set (n := d0 :: n0) in *. clearbody n. rewrite rev_replicate in H.
  assert (HN : loop_dims (length n) (fst (pop (rev n) 1)) (snd (pop (rev n) 1)) /\
    fst (pop (rev n) 1) * Size (snd (pop (rev n) 1)) = Size n /\
    take (length n) (fst (pop (rev n) 1) :: snd (pop (rev n) 1)) = rev n).
  { rewrite <- (length_rev n), <- (Size_rev n). apply loop_dims_pop; auto using positive_rev. }
  destruct (pop (rev n) 1) as [nd rN]. simpl in HN. destruct HN as (HD & HSN & _).
  pose proof (positive_rev _ Hs) as Hrs. pose proof (Size_rev s) as HSs.
  pose proof (length_rev s) as Hls. destruct (rev s) as [|O rS].
  { destruct s; [congruence|discriminate Hls]. }
  destruct s as [|e s0]; [congruence|]. cbn [length replicate pop] in H, Hls.
  replace (length s0) with (length rS) in H by lia.
  destruct (reshapeMask_loop _ _ _ _ _ _ _ _ _ _) as [| |res] eqn:El; try discriminate H.
  injection H as <-. exists res. split; [reflexivity|]. inversion Hrs; subst.
  rewrite Size_cons in HSs.
  eapply (reshapeMask_loop_empty _ _ _ _ _ _ _ _ _ El); auto; try lia.
  destruct n; [congruence|]. simpl. lia.
Qed.

(** *** The theorem on one view *)

Lemma reshape_unfold v s :
  reshape v s =
  if bool_decide (v_shape v = s) then Done v else
  if HasZero (v_shape v) then created (create s None 0 None) else
  if bool_decide (s = []) && existsb (fun m => fst m =? snd m) (opt_list (v_mask v))
  then Fails else
  if contiguous v then created (create s None 0 None) else reshape_blocks v s.
Proof. reflexivity. Qed.

Lemma positive_of_size s t : nonneg t -> positive_dims s -> Size t = Size s -> positive_dims t.
Proof.
  intros Ht Hs E. apply (HasZero_false t Ht). destruct (HasZero t) eqn:Hz; [|reflexivity].
  apply HasZero_true in Hz. pose proof (Size_pos s Hs). lia.
Qed.

Lemma keeps_nothing_reshape v s v' :
  keeps_nothing v -> s <> [] -> positive_dims (v_shape v) -> positive_dims s ->
  Size s = Size (v_shape v) -> reshape_blocks v s = Done v' ->
  exists st off m, create s (Some st) off (Some m) = Ok v' /\ mask_empty m = true.
Proof.
  intros [Hne E] Hs Hp Hps HS H. unfold reshape_blocks in H.
  destruct (fill_strides _ _); [|discriminate H].
  destruct (reshapeMask (v_mask v) (v_shape v) s) as [| |nm] eqn:Em; try discriminate H.
  apply created_done in H. rewrite E in Em.
  destruct (reshapeMask_empty _ _ _ Hp Hps HS Hne Hs Em) as (m & -> & He). eauto.
Qed.

Lemma keeps_nothing_exits v (s : Shape) :
  keeps_nothing v -> bool_decide (s = []) && existsb (fun m => fst m =? snd m) (opt_list (v_mask v)) = false ->
  s <> [].
Proof.
  intros [Hne E] H ->. rewrite E in H. destruct (v_shape v); [congruence|]. discriminate H.
Qed.

Lemma reshape_addr v s v' c :
  canonical v -> reshape v s = Done v' -> nonneg s -> Size s = Size (v_shape v) ->
  in_bounds s c -> addr v' c = addr v (unravel (v_shape v) (ravel s c)).
Proof.
  intros Hv H Hn HS Hc. rewrite reshape_unfold in H.
  pose proof (ravel_bounds _ _ Hc) as Hk.
  case_bool_decide as E; [injection H as <-; rewrite E, unravel_ravel by exact Hc; reflexivity|].
  destruct (HasZero (v_shape v)) eqn:Hz; [apply HasZero_true in Hz; lia|].
  apply HasZero_false in Hz; [|eauto with nd].
  destruct (bool_decide (s = []) && _) eqn:Ex; [discriminate H|].
  assert (Hci : in_bounds (v_shape v) (unravel (v_shape v) (ravel s c))) by (apply unravel_in_bounds; auto; lia).
  destruct (contiguous v) eqn:Ect.
  { apply created_done in H. rewrite (create_addr _ _ _ _ _ _ H Hc), (contiguous_addr v _ Ect Hci).
    rewrite ravel_unravel by (auto; lia). unfold affine. simpl. rewrite dot_stridesFor by exact Hc.
    f_equal; lia. }
  pose proof (positive_of_size _ _ Hn Hz HS) as Hp.
  destruct (canonical_cases v Hv) as [Hk0|Hfv]; [|eapply reshape_blocks_addr; eauto].
  pose proof (keeps_nothing_exits _ _ Hk0 Ex) as Hs.
  destruct (keeps_nothing_reshape _ _ _ Hk0 Hs Hz Hp HS H) as (st & off & m & Hcr & He).
  rewrite (keeps_nothing_addr v) by eauto with nd.
  rewrite (create_addr _ _ _ _ _ _ Hcr Hc). unfold affine. simpl.
  rewrite mask_ok_empty; auto.
  rewrite (in_bounds_length _ _ Hc). symmetry. eapply create_mask_length; eauto.
Qed.

Lemma reshape_shape v s v' : reshape v s = Done v' -> v_shape v' = s.
Proof.
  rewrite reshape_unfold. case_bool_decide as E; [intros [= <-]; exact E|].
  destruct (HasZero _); [intros H; apply created_done in H; eapply create_shape, H|].
  destruct (_ && _); [discriminate|].
  destruct (contiguous v); [intros H; apply created_done in H; eapply create_shape, H|].
  unfold reshape_blocks. destruct (fill_strides _ _); [|discriminate].
  destruct (reshapeMask _ _ _); try discriminate. intros H. apply created_done in H.
  eapply create_shape, H.
Qed.

Lemma reshape_canonical v s v' :
  canonical v -> reshape v s = Done v' -> nonneg s -> Size s = Size (v_shape v) -> canonical v'.
Proof.
  intros Hv H Hn HS. rewrite reshape_unfold in H.
  case_bool_decide as E; [injection H as <-; exact Hv|].
  destruct (HasZero (v_shape v)) eqn:Hz.
  { apply created_done in H. eapply create_canonical; [exact H|discriminate]. }
  apply HasZero_false in Hz; [|eauto with nd].
  destruct (bool_decide (s = []) && _) eqn:Ex; [discriminate H|].
  destruct (contiguous v).
  { apply created_done in H. eapply create_canonical; [exact H|discriminate]. }
  pose proof (positive_of_size _ _ Hn Hz HS) as Hp.
  destruct (canonical_cases v Hv) as [Hk0|Hfv].
  - pose proof (keeps_nothing_exits _ _ Hk0 Ex) as Hs.
    destruct (keeps_nothing_reshape _ _ _ Hk0 Hs Hz Hp HS H) as (st & off & m & Hcr & He).
    eapply create_canonical_or_empty; [exact Hcr|]. intros m0 [= <-]. auto.
  - unfold reshape_blocks in H. destruct (fill_strides _ _); [|discriminate H].
    destruct (reshapeMask (v_mask v) (v_shape v) s) as [| |nm] eqn:Em; try discriminate H.
    apply created_done in H. eapply create_canonical; [exact H|].
    assert (Hmv : mask_valid (v_shape v) (mask_of (v_shape v) (v_mask v))).
    { destruct (v_mask v) as [m|] eqn:Emv; simpl; [apply (Hfv m Emv)|apply full_mask_valid, Hz]. }
    destruct (reshapeMask_spec _ _ _ _ Hz Hp HS Hmv Em) as [Hnv _].
    intros m0 ->. apply mask_valid_in, Hnv.
Qed.

(** The loops of [reshape] end. *)
Lemma reshape_ends v s :
  nonneg (v_shape v) -> nonneg s -> Size s = Size (v_shape v) -> reshape v s <> Diverges.
Proof.
  intros Hv Hn HS. rewrite reshape_unfold. case_bool_decide; [discriminate|].
  destruct (HasZero (v_shape v)) eqn:Hz; [destruct (create s None 0 None); discriminate|].
  apply HasZero_false in Hz; [|exact Hv].
  destruct (_ && _); [discriminate|].
  destruct (contiguous v); [destruct (create s None 0 None); discriminate|].
  unfold reshape_blocks. destruct (fill_strides _ _); [|discriminate].
  pose proof (reshapeMask_ends (v_mask v) (v_shape v) s Hz (positive_of_size _ _ Hn Hz HS) HS).
  destruct (reshapeMask _ _ _); [congruence|discriminate|].
  destruct (create _ _ _ _); discriminate.
Qed.
