(* ===== verification/Tracker.v ===== *)
(** * Trackers (src/x/ndarray/tracker.go)

    A [Tracker] is a stack of views from a flat buffer to a logical tensor:
    the last view is addressed by the logical coordinates, each view below by
    the unravelled offset of the one above.  The file models every operation
    of tracker.go and gives the abstract meaning of a tracker, a shape with a
    partial map from coordinates to buffer offsets.  [moves_agree] states that
    every sequence of operations implements its abstract counterpart, errors
    included. *)
From Stdlib Require Import ZArith Lia.
From stdpp Require Import base numbers option list.
From S2P Require Import Prelude Shape View Reshape ReshapeAddr.

Local Open Scope Z_scope.

(** ** Definitions *)

(** [t_nil] records that the shape of the last view is a nil slice, which
    [Of(nil)] alone produces: [Shape] of such a tracker is nil, and the rest
    of the package takes a nil shape for a splat. *)
Record Tracker : Type := mkTracker { t_views : list view; t_nil : bool }.

#[export] Instance Tracker_eq_dec : EqDecision Tracker.
Proof. solve_decision. Defined.

(** [Tracker{}] *)
Definition no_tracker : Tracker := mkTracker [] false.

(** [None] is a nil shape. *)
Definition Of (shape : option Shape) : res Tracker :=
  let? v := create (opt_list shape) None 0 None in
  Ok (mkTracker [v] (match shape with None => true | Some _ => false end)).

Definition t_last (t : Tracker) : view :=
  List.last (t_views t) (mkView [] [] 0 None).

Definition t_check (t : Tracker) : res unit :=
  match t_views t with [] => Err ErrShape | _ => Ok tt end.

Definition replace (t : Tracker) (v : view) (isnil : bool) : Tracker :=
  mkTracker (removelast (t_views t) ++ [v]) isnil.

(** The dimensions of the last view, and the [Shape] method, which is nil
    for no views and for a nil shape. *)
Definition t_dims (t : Tracker) : Shape := v_shape (t_last t).

Definition t_Shape (t : Tracker) : option Shape :=
  match t_views t with
  | [] => None
  | _ => if t_nil t then None else Some (t_dims t)
  end.

Definition t_Size (t : Tracker) : Z :=
  match t_views t with [] => 0 | _ => v_size (t_last t) end.

Definition Contiguous (t : Tracker) : bool :=
  match t_views t with [v] => contiguous v | _ => false end.

(** The loop of [RealSize]; [None] is its early [return 0]. *)
Fixpoint RealSize_loop (shape strides : list Z) (mask : option (list (Z * Z))) (maxOff : Z) : option Z :=
  match shape, strides with
  | s :: shape', stride :: strides' =>
      let '(lo, hi) := match mask with Some (m :: _) => m | _ => (0, s) end in
      if hi <=? lo then None else
      let a := lo * stride in
      let b := (hi - 1) * stride in
      let b := if b <? a then a else b in
      RealSize_loop shape' strides' (option_map (@tail _) mask) (maxOff + b)
  | _, _ => Some maxOff
  end.

Definition RealSize (t : Tracker) : Z :=
  match t_views t with
  | [] => 0
  | v :: _ =>
      if HasZero (v_shape v) then 0 else
      match RealSize_loop (v_shape v) (v_strides v) (v_mask v) (v_offset v) with
      | None => 0
      | Some maxOff => Z.max 0 (maxOff + 1)
      end
  end.

(** The views below the last one, from the top. *)
Fixpoint Index_loop (below : list view) (off : Z) (ok : bool) : Z * bool :=
  match below with
  | [] => (off, ok)
  | v :: below' =>
      if v_size v =? 0 then (0, false) else
      let '(off', viewOK) := index v (unravel (v_shape v) off) in
      Index_loop below' off' (ok && viewOK)
  end.

Fixpoint coords_in (coords : list Z) (shape : Shape) : bool :=
  match coords, shape with
  | c :: coords', s :: shape' =>
      if (c <? 0) || (s <=? c) then false else coords_in coords' shape'
  | _, _ => true
  end.

Definition Index (t : Tracker) (coords : list Z) : res (Z * bool) :=
  let? _ := t_check t in
  let shape := t_dims t in
  if negb (bool_decide (length coords = length shape)) then Err ErrIndex else
  if negb (coords_in coords shape) then Err ErrIndex else
  let '(off, ok) := index (t_last t) coords in
  Ok (Index_loop (rev (removelast (t_views t))) off ok).

Definition At (t : Tracker) (i : Z) : res (Z * bool) :=
  let? _ := t_check t in
  let n := t_Size t in
  if (i <? 0) || ((0 <? n) && (n <=? i)) || (n =? 0) then Err ErrIndex
  else Index t (unravel (t_dims t) i).

(** A failed [reshape] stacks a row-major view.  [ErrSize] stands for the
    loop of [reshape] not ending, which [moves_agree] excludes. *)
Definition t_Reshape (t : Tracker) (shape : Shape) : res Tracker :=
  let? _ := t_check t in
  let? shape := Infer shape (t_Size t) in
  match reshape (t_last t) shape with
  | Done newView => Ok (replace t newView (t_nil t && bool_decide (t_dims t = shape)))
  | Fails =>
      let? newView := create shape None 0 None in
      Ok (mkTracker (t_views t ++ [newView]) false)
  | Diverges => Err ErrSize
  end.

Fixpoint normalizeAxes_loop (axes : list Z) (rank : Z) : res (list Z) :=
  match axes with
  | [] => Ok []
  | a :: axes' =>
      let a := if a <? 0 then a + rank else a in
      if (a <? 0) || (rank <=? a) then Err ErrAxis else
      let? out := normalizeAxes_loop axes' rank in
      Ok (a :: out)
  end.

Definition normalizeAxes (axes : list Z) (rank : nat) (perm : bool) : res (list Z) :=
  let? out := normalizeAxes_loop axes (Z.of_nat rank) in
  if perm && negb (isPermutation out rank) then Err ErrAxis else Ok out.

Definition t_Permute (t : Tracker) (axes : list Z) : res Tracker :=
  let? _ := t_check t in
  let? norm := normalizeAxes axes (length (t_dims t)) true in
  let? v := permute (t_last t) norm in
  Ok (replace t v false).

Definition mapView (t : Tracker) (fn : view -> res view) (isnil : bool) : res Tracker :=
  let? _ := t_check t in
  let? v := fn (t_last t) in
  Ok (replace t v isnil).

Definition t_Expand (t : Tracker) (shape : Shape) : res Tracker :=
  mapView t (fun v => expand v shape) false.

(** [pad] returns the view itself when nothing is added. *)
Definition t_Pad (t : Tracker) (arg : list (Z * Z)) : res Tracker :=
  mapView t (fun v => pad v arg) (t_nil t).

Definition t_Splat (t : Tracker) : res Tracker :=
  let? _ := t_check t in
  if negb (t_Size t =? 1) then Err ErrShape else
  let? (off, ok) := At t 0 in
  if negb ok then Err ErrIndex else
  let? v := create [] None off None in
  Ok (mkTracker [v] false).

Definition t_Shrink (t : Tracker) (arg : list (Z * Z)) : res Tracker :=
  mapView t (fun v => shrink v arg) false.

(** The loop that sets [which[a]]. *)
Definition flip_which (rank : nat) (norm : list Z) : list bool :=
  fold_left (fun which a => <[Z.to_nat a := true]> which) norm (replicate rank false).

Definition t_Flip (t : Tracker) (axes : list Z) : res Tracker :=
  let? _ := t_check t in
  let rank := length (t_dims t) in
  match axes with
  | [] => Ok t
  | _ =>
      let? norm := normalizeAxes axes rank false in
      let? v := flip (t_last t) (flip_which rank norm) in
      Ok (replace t v (t_nil t))
  end.

(** ** The abstract tensor map

    What a tracker promises: a shape, and for every cell in bounds the
    buffer offset it reads, or nothing in padding. *)
Record amap : Type := mkAmap { a_dims : Shape; a_cell : list Z -> option Z }.

(** The cells of a new shape, each read from an old cell or from padding. *)
Definition remap (a : amap) (dims : Shape) (f : list Z -> option (list Z)) : amap :=
  mkAmap dims (fun c => match f c with Some c0 => a_cell a c0 | None => None end).

(** The movement operations of a tracker as data. *)
Inductive move : Type :=
| MReshape (shape : Shape)
| MPermute (axes : list Z)
| MExpand (shape : Shape)
| MPad (arg : list (Z * Z))
| MShrink (arg : list (Z * Z))
| MFlip (axes : list Z)
| MSplat.

Definition apply_move (t : Tracker) (m : move) : res Tracker :=
  match m with
  | MReshape shape => t_Reshape t shape
  | MPermute axes => t_Permute t axes
  | MExpand shape => t_Expand t shape
  | MPad arg => t_Pad t arg
  | MShrink arg => t_Shrink t arg
  | MFlip axes => t_Flip t axes
  | MSplat => t_Splat t
  end.

Definition wrap_axis (rank : nat) (a : Z) : Z := if a <? 0 then a + Z.of_nat rank else a.

Definition axes_in_range (rank : nat) (axes : list Z) : bool :=
  forallb (fun a => (0 <=? a) && (a <? Z.of_nat rank)) axes.

(** The axes a flip names, after wrapping. *)
Definition flipped (rank : nat) (axes : list Z) : list bool :=
  map (fun i => bool_decide (i ∈ axes)) (seqZ 0 (Z.of_nat rank)).

(** What each operation means, and the error it gives. *)
Definition spec_move (a : amap) (m : move) : res amap :=
  let dims := a_dims a in
  let rank := length dims in
  match m with
  | MReshape shape =>
      let? s := Infer shape (Size dims) in
      Ok (remap a s (fun c => Some (unravel dims (ravel s c))))
  | MPermute axes =>
      let norm := map (wrap_axis rank) axes in
      if negb (bool_decide (Permutation norm (seqZ 0 (Z.of_nat rank)))) then Err ErrAxis else
      Ok (remap a (permute_coords norm dims) (fun c => Some (unpermute_coords norm c)))
  | MExpand s =>
      if negb (bool_decide (Forall2 (fun d e => d = e \/ d = 1) dims s)) then Err ErrExpand else
      if negb (bool_decide (nonneg s)) then Err ErrShape else
      Ok (remap a s (fun c => Some (expand_coords dims c)))
  | MPad arg =>
      if negb (bool_decide (length arg = rank)) then Err ErrPad else
      if negb (bool_decide (pad_valid arg)) then Err ErrPad else
      Ok (remap a (padded arg dims)
            (fun c => if mask_ok (pad_mask arg dims) c then Some (pad_coords arg c) else None))
  | MShrink arg =>
      if negb (bool_decide (Forall2 (fun p d => 0 <= fst p <= snd p /\ snd p <= d) arg dims))
      then Err ErrShrink else
      Ok (remap a (extents arg) (fun c => Some (shift_coords arg c)))
  | MFlip axes =>
      let norm := map (wrap_axis rank) axes in
      if negb (axes_in_range rank norm) then Err ErrAxis else
      Ok (remap a dims (fun c => Some (flip_coords (flipped rank norm) dims c)))
  | MSplat =>
      if negb (Size dims =? 1) then Err ErrShape else
      match a_cell a (unravel dims 0) with
      | None => Err ErrIndex
      | Some off => Ok (mkAmap [] (fun _ => Some off))
      end
  end.

(** A whole program of moves, on trackers and on abstract maps. *)
Fixpoint run_moves (t : Tracker) (ms : list move) : res Tracker :=
  match ms with
  | [] => Ok t
  | m :: ms' => let? t' := apply_move t m in run_moves t' ms'
  end.

Fixpoint spec_moves (a : amap) (ms : list move) : res amap :=
  match ms with
  | [] => Ok a
  | m :: ms' => let? a' := spec_move a m in spec_moves a' ms'
  end.

(** ** The invariant of trackers *)

(** Every kept cell of [v] lands in [0, n). *)
Definition fits (v : view) (n : Z) : Prop :=
  forall c o, in_bounds (v_shape v) c -> addr v c = Some o -> 0 <= o < n.

(** A stack over a buffer of [n] cells, from the top view down. *)
Inductive stack (n : Z) : list view -> Prop :=
| stack_base v : canonical v -> fits v n -> stack n [v]
| stack_on v w below :
    canonical v -> fits v (v_size w) -> stack n (w :: below) -> stack n (v :: w :: below).

Definition wf (n : Z) (t : Tracker) : Prop := stack n (rev (t_views t)).

(** The buffer offset of a cell, from the top view down. *)
Fixpoint locate (vs : list view) (c : list Z) : option Z :=
  match vs with
  | [] => None
  | v :: below =>
      match addr v c with
      | None => None
      | Some off =>
          match below with
          | [] => Some off
          | w :: _ => locate below (unravel (v_shape w) off)
          end
      end
  end.

Definition t_locate (t : Tracker) (c : list Z) : option Z := locate (rev (t_views t)) c.

(** Only a rank-0 tracker has a nil shape. *)
Definition nil_ok (t : Tracker) : Prop := t_nil t = true -> t_dims t = [].

(** A tracker implements an abstract map. *)
Definition implements (n : Z) (t : Tracker) (a : amap) : Prop :=
  wf n t /\ t_dims t = a_dims a /\
  forall c, in_bounds (a_dims a) c -> t_locate t c = a_cell a c.

Definition agree (n : Z) (r : res Tracker) (s : res amap) : Prop :=
  match r, s with
  | Ok t, Ok a => implements n t a
  | Err e, Err e' => e = e'
  | _, _ => False
  end.

(** *** Stacks *)

Lemma stack_canonical n v below : stack n (v :: below) -> canonical v.
Proof. intros H; inversion H; auto. Qed.

Lemma fits_unravel v w c o :
  canonical w -> fits v (v_size w) -> in_bounds (v_shape v) c -> addr v c = Some o ->
  in_bounds (v_shape w) (unravel (v_shape w) o).
Proof.
  intros Hw Hf Hc Ho. pose proof (Hf c o Hc Ho) as Hb. apply unravel_in_bounds; [|lia].
  apply (HasZero_false _ (can_nonneg w Hw)). destruct (HasZero (v_shape w)) eqn:Hz; [|reflexivity].
  apply HasZero_true in Hz. unfold v_size in Hb. lia.
Qed.

Lemma locate_range n vs v below c o :
  vs = v :: below -> stack n vs -> in_bounds (v_shape v) c -> locate vs c = Some o -> 0 <= o < n.
Proof.
  intros E H. revert v below c E. induction H as [v Hv Hf|v w below Hv Hf Hs IH]; intros v0 b0 c E Hc Ho;
    injection E as <- <-; cbn [locate] in Ho.
  - destruct (addr v c) as [off|] eqn:Ea; [|discriminate Ho]. injection Ho as <-. eapply Hf; eauto.
  - destruct (addr v c) as [off|] eqn:Ea; [|discriminate Ho].
    eapply IH; [reflexivity| |exact Ho].
    eapply fits_unravel; eauto using stack_canonical.
Qed.

Lemma t_views_snoc t : t_views t <> [] -> t_views t = removelast (t_views t) ++ [t_last t].
Proof. intros H. apply app_removelast_last, H. Qed.

Lemma rev_views t : t_views t <> [] -> rev (t_views t) = t_last t :: rev (removelast (t_views t)).
Proof. intros H. rewrite (t_views_snoc t H) at 1. apply rev_unit. Qed.

Lemma wf_views n t : wf n t -> t_views t <> [].
Proof. unfold wf. intros H E. rewrite E in H. inversion H. Qed.

Lemma wf_check n t : wf n t -> t_check t = Ok tt.
Proof. intros H. apply wf_views in H. unfold t_check. destruct (t_views t); [congruence|reflexivity]. Qed.

Lemma wf_stack n t : wf n t -> stack n (t_last t :: rev (removelast (t_views t))).
Proof. intros H. rewrite <- rev_views by (eapply wf_views, H). exact H. Qed.

Lemma wf_last n t : wf n t -> canonical (t_last t).
Proof. intros H. eapply stack_canonical, wf_stack, H. Qed.

Lemma wf_size n t : wf n t -> t_Size t = Size (t_dims t).
Proof. intros H. apply wf_views in H. unfold t_Size, t_dims, v_size. destruct (t_views t); [congruence|reflexivity]. Qed.

Lemma rev_replace t v b : rev (t_views (replace t v b)) = v :: rev (removelast (t_views t)).
Proof. unfold replace. simpl. apply rev_unit. Qed.

Lemma replace_last t v b : t_last (replace t v b) = v.
Proof. unfold t_last, replace. simpl. apply last_last. Qed.

(** *** Moves of the last view *)

(** A new last view whose cells are cells of the old one, or padding. *)
Lemma stack_move n v below v' f :
  stack n (v :: below) -> canonical v' ->
  (forall c, in_bounds (v_shape v') c ->
     match f c with
     | Some c0 => in_bounds (v_shape v) c0 /\ addr v' c = addr v c0
     | None => addr v' c = None
     end) ->
  stack n (v' :: below) /\
  forall c, in_bounds (v_shape v') c ->
    locate (v' :: below) c = match f c with Some c0 => locate (v :: below) c0 | None => None end.
Proof.
  intros H Hv' Hf.
  assert (Hfit : forall m, fits v m -> fits v' m).
  { intros m Hm c o Hc Ho. specialize (Hf c Hc). destruct (f c) as [c0|]; [|congruence].
    destruct Hf as [Hc0 E]. apply (Hm c0); congruence. }
  split.
  - inversion H; subst; [apply stack_base|apply stack_on]; auto.
  - intros c Hc. specialize (Hf c Hc). cbn [locate]. destruct (f c) as [c0|].
    + destruct Hf as [_ ->]. reflexivity.
    + rewrite Hf. reflexivity.
Qed.

Lemma replace_implements n t a v' b f :
  implements n t a -> canonical v' ->
  (forall c, in_bounds (v_shape v') c ->
     match f c with
     | Some c0 => in_bounds (t_dims t) c0 /\ addr v' c = addr (t_last t) c0
     | None => addr v' c = None
     end) ->
  implements n (replace t v' b) (remap a (v_shape v') f).
Proof.
  intros (Hw & Hd & Hc) Hv' Hf. pose proof (wf_stack n t Hw) as Hs.
  destruct (stack_move n _ _ v' f Hs Hv' Hf) as [Hs' Hl].
  split; [|split].
  - unfold wf. rewrite rev_replace. exact Hs'.
  - unfold t_dims. rewrite replace_last. reflexivity.
  - intros c Hb. simpl in Hb. unfold t_locate. rewrite rev_replace, Hl by exact Hb. simpl.
    specialize (Hf c Hb). destruct (f c) as [c0|]; [|reflexivity].
    destruct Hf as [Hc0 _]. rewrite <- Hc by (rewrite <- Hd; exact Hc0).
    unfold t_locate. rewrite rev_views by (eapply wf_views, Hw). reflexivity.
Qed.

(** *** Each move implements its abstract counterpart *)

Lemma create_negative s st off m : ~ nonneg s -> create s st off m = Err ErrShape.
Proof.
  intros H. unfold create. destruct (check s) as [[]|e] eqn:E.
  - apply check_ok in E. contradiction.
  - unfold check in E. destruct (existsb _ s); [|discriminate E]. injection E as <-. reflexivity.
Qed.

Section moves.
Context (n : Z) (t : Tracker) (a : amap).
Hypothesis Ht : implements n t a.

Lemma implements_wf : wf n t.
Proof using Ht. apply Ht. Qed.

Lemma implements_dims : v_shape (t_last t) = a_dims a.
Proof using Ht. apply Ht. Qed.

Lemma implements_canonical : canonical (t_last t).
Proof using Ht. eapply wf_last, implements_wf. Qed.

Lemma mapView_eq fn b :
  mapView t fn b = let? v := fn (t_last t) in Ok (replace t v b).
Proof using Ht. unfold mapView. rewrite (wf_check n t implements_wf). reflexivity. Qed.

Lemma Expand_agrees s : agree n (t_Expand t s) (spec_move a (MExpand s)).
Proof using Ht.
  pose proof implements_canonical as Hc. unfold t_Expand. rewrite mapView_eq. cbn [spec_move].
  rewrite <- implements_dims. case_bool_decide as Ho; simpl.
  2: { assert (expand (t_last t) s = Err ErrExpand) as ->; [|reflexivity].
    unfold expand. case_bool_decide as El; simpl; [|reflexivity].
    destruct (expand_ok (v_shape (t_last t)) s) eqn:Eo; [|reflexivity].
    apply expand_ok_spec in Eo; [contradiction|exact El]. }
  pose proof (Forall2_length _ _ _ Ho) as Hl. case_bool_decide as Hn; simpl.
  2: { assert (expand (t_last t) s = Err ErrShape) as ->; [|reflexivity].
    unfold expand. rewrite bool_decide_true by (symmetry; exact Hl); simpl.
    rewrite (proj2 (expand_ok_spec _ _ (eq_sym Hl)) Ho); simpl.
    destruct (HasZero _); apply create_negative; exact Hn. }
  destruct (expand_total _ s Hc Hn (eq_sym Hl) Ho) as [v' Hv']. rewrite Hv'. simpl.
  destruct (expand_inv _ _ _ Hv') as (_ & _ & Hs). rewrite <- Hs.
  apply replace_implements; eauto using expand_canonical.
  intros c Hb. rewrite Hs in Hb. split.
  - eapply expand_coords_in_bounds; eauto.
  - rewrite (expand_addr _ _ _ _ Hc Hv' Hb). reflexivity.
Qed.

Lemma Shrink_agrees arg : agree n (t_Shrink t arg) (spec_move a (MShrink arg)).
Proof using Ht.
  pose proof implements_canonical as Hc. unfold t_Shrink. rewrite mapView_eq. cbn [spec_move].
  rewrite <- implements_dims. case_bool_decide as Ho; simpl.
  2: { assert (shrink (t_last t) arg = Err ErrShrink) as ->; [|reflexivity].
    unfold shrink. case_bool_decide as El; simpl; [|reflexivity].
    destruct (shrink_ok arg (v_shape (t_last t))) eqn:Eo; [|reflexivity].
    apply shrink_ok_spec in Eo; [contradiction|exact El]. }
  pose proof (Forall2_length _ _ _ Ho) as Hl.
  destruct (shrink_total _ arg Hc Hl Ho) as [v' Hv']. rewrite Hv'. simpl.
  destruct (shrink_inv _ _ _ Hv') as (_ & _ & Hr). rewrite <- (resize_shape _ _ _ _ Hr).
  apply replace_implements; eauto using shrink_canonical.
  intros c Hb. rewrite (resize_shape _ _ _ _ Hr) in Hb. split.
  - eapply shrink_coords_in_bounds; eauto.
  - apply (shrink_addr _ _ _ _ Hc Hv' Hb).
Qed.

Lemma Pad_agrees arg : agree n (t_Pad t arg) (spec_move a (MPad arg)).
Proof using Ht.
  pose proof implements_canonical as Hc. unfold t_Pad. rewrite mapView_eq. cbn [spec_move].
  rewrite <- implements_dims.
  case_bool_decide as Hl; simpl.
  2: { unfold pad. rewrite bool_decide_false by exact Hl. reflexivity. }
  case_bool_decide as Hp; simpl.
  2: { assert (pad (t_last t) arg = Err ErrPad) as ->; [|reflexivity].
    unfold pad. rewrite bool_decide_true by exact Hl; simpl.
    destruct (existsb _ arg) eqn:Ex; [reflexivity|]. apply pad_valid_spec in Ex. contradiction. }
  destruct (pad_total _ arg Hc Hl Hp) as [v' Hv']. rewrite Hv'. simpl.
  rewrite <- (pad_shape _ _ _ Hv').
  apply replace_implements; eauto using pad_canonical.
  intros c Hb. rewrite (pad_addr _ _ _ _ Hc Hv' Hb). rewrite (pad_shape _ _ _ Hv') in Hb.
  destruct (mask_ok (pad_mask arg (v_shape (t_last t))) c) eqn:Em; [|reflexivity].
  split; [|reflexivity]. apply pad_coords_in_bounds; auto.
  apply in_bounds_length in Hb. unfold padded in Hb. rewrite length_zip_with in Hb. unfold t_dims. lia.
Qed.

Lemma normalizeAxes_loop_spec axes rank :
  normalizeAxes_loop axes (Z.of_nat rank)
  = if axes_in_range rank (map (wrap_axis rank) axes) then Ok (map (wrap_axis rank) axes)
    else Err ErrAxis.
Proof using.
  induction axes as [|x axes IH]; [reflexivity|]. cbn [normalizeAxes_loop map axes_in_range forallb].
  fold (axes_in_range rank (map (wrap_axis rank) axes)). fold (wrap_axis rank x).
  destruct (Z.ltb_spec (wrap_axis rank x) 0), (Z.leb_spec (Z.of_nat rank) (wrap_axis rank x)),
    (Z.leb_spec 0 (wrap_axis rank x)), (Z.ltb_spec (wrap_axis rank x) (Z.of_nat rank));
    try lia; simpl; try reflexivity.
  rewrite IH. destruct (axes_in_range _ _); reflexivity.
Qed.

Lemma normalizeAxes_perm axes rank :
  normalizeAxes axes rank true
  = if bool_decide (Permutation (map (wrap_axis rank) axes) (seqZ 0 (Z.of_nat rank)))
    then Ok (map (wrap_axis rank) axes) else Err ErrAxis.
Proof using.
  unfold normalizeAxes. rewrite normalizeAxes_loop_spec. case_bool_decide as Hp.
  - assert (axes_in_range rank (map (wrap_axis rank) axes) = true) as ->.
    2: { cbn [res_bind]. rewrite (proj2 (isPermutation_spec _ _) Hp). reflexivity. }
    apply permutation_range in Hp. unfold axes_in_range. apply forallb_forall.
    intros x Hx. apply list_elem_of_In in Hx. rewrite Forall_forall in Hp. specialize (Hp x Hx). lia.
  - destruct (axes_in_range _ _); simpl; [|reflexivity].
    destruct (isPermutation _ rank) eqn:E; [|reflexivity]. apply isPermutation_spec in E. contradiction.
Qed.

Lemma Permute_agrees axes : agree n (t_Permute t axes) (spec_move a (MPermute axes)).
Proof using Ht.
  pose proof implements_canonical as Hc. unfold t_Permute.
  rewrite (wf_check n t implements_wf). cbn [res_bind spec_move].
  rewrite normalizeAxes_perm, <- implements_dims. unfold t_dims. case_bool_decide as Hp; [|reflexivity].
  cbn [res_bind negb]. set (norm := map _ axes) in *.
  destruct (permute_total _ norm Hc Hp) as [v' Hv']. rewrite Hv'. simpl.
  destruct (permute_inv _ _ _ Hv') as [_ Hs]. rewrite <- Hs.
  apply replace_implements; eauto using permute_canonical.
  intros c Hb. rewrite Hs in Hb.
  destruct (permute_unpermute _ _ _ _ Hp eq_refl Hb) as [Hb0 Ec]. split; [exact Hb0|].
  destruct (permute_addr _ _ _ _ Hc Hv' Hb0) as [_ E]. rewrite Ec in E. exact E.
Qed.

Lemma flip_which_spec rank norm :
  axes_in_range rank norm = true -> flip_which rank norm = flipped rank norm.
Proof using.
  intros Hr. unfold flip_which, flipped.
  assert (H : forall w, length w = rank ->
    fold_left (fun which a => <[Z.to_nat a := true]> which) norm w
    = map (fun i => nth (Z.to_nat i) w false || bool_decide (i ∈ norm)) (seqZ 0 (Z.of_nat rank))).
  { revert Hr. induction norm as [|x norm IH]; intros Hr w Hw; simpl.
    - rewrite <- (map_at_axis_id false w) at 1. rewrite Hw. apply map_ext. intros i. unfold at_axis.
      rewrite orb_false_r. reflexivity.
    - simpl in Hr. apply andb_true_iff in Hr as [Hx Hr].
      rewrite IH by (auto; rewrite length_insert; exact Hw).
      apply map_ext_in. intros i Hi. apply list_elem_of_In, elem_of_seqZ in Hi.
      rewrite !nth_lookup. destruct (decide (i = x)) as [->|Hne].
      + rewrite list_lookup_insert_eq by lia. simpl.
        rewrite (bool_decide_true (x ∈ x :: norm)) by left. rewrite orb_true_r. reflexivity.
      + rewrite list_lookup_insert_ne by lia. f_equal. apply bool_decide_ext.
        rewrite elem_of_cons. intuition. }
  rewrite H by apply length_replicate. apply map_ext_in. intros i Hi.
  apply list_elem_of_In, elem_of_seqZ in Hi.
  rewrite nth_lookup, lookup_replicate_2 by lia. reflexivity.
Qed.

Lemma length_flipped rank norm : length (flipped rank norm) = rank.
Proof using. unfold flipped. rewrite length_map, length_seqZ. lia. Qed.

Lemma flip_coords_none dims c : in_bounds dims c -> flip_coords (flipped (length dims) []) dims c = c.
Proof using.
  unfold flipped. generalize 0 as k. intros k H. revert k.
  induction H as [|d x s c Hx H IH]; intros k; [destruct (map _ _); reflexivity|].
  simpl length. rewrite Nat2Z.inj_succ, seqZ_cons by lia. rewrite Z.pred_succ. simpl.
  f_equal. apply IH.
Qed.

Lemma Flip_agrees axes : agree n (t_Flip t axes) (spec_move a (MFlip axes)).
Proof using Ht.
  pose proof implements_canonical as Hc. unfold t_Flip.
  rewrite (wf_check n t implements_wf). cbn [res_bind spec_move].
  destruct axes as [|x axes].
  { simpl. destruct Ht as (Hw & Hd & Hl). split; [exact Hw|]. split; [exact Hd|].
    intros c Hb. simpl in *. rewrite flip_coords_none by exact Hb. auto. }
  set (axs := x :: axes) in *. clearbody axs. unfold normalizeAxes. cbn [andb].
  rewrite normalizeAxes_loop_spec, <- implements_dims. unfold t_dims.
  set (rank := length (v_shape (t_last t))) in *. set (norm := map (wrap_axis rank) axs) in *.
  destruct (axes_in_range rank norm) eqn:Er; [|reflexivity]. cbn [res_bind negb].
  rewrite (flip_which_spec _ _ Er).
  destruct (flip_total _ (flipped rank norm) Hc (length_flipped _ _)) as [v' Hv']. rewrite Hv'. simpl.
  rewrite <- (flip_shape _ _ _ Hv') at 1.
  apply replace_implements; eauto using flip_canonical.
  intros c Hb. rewrite (flip_shape _ _ _ Hv') in Hb. split.
  - apply flip_coords_in_bounds, Hb.
  - apply (flip_addr _ _ _ _ Hc Hv' Hb).
Qed.
End moves.

(** *** Index reads the cell *)

Lemma Index_loop_false below : forall off, snd (Index_loop below off false) = false.
Proof.
  induction below as [|v below IH]; intros off; simpl; [reflexivity|].
  destruct (v_size v =? 0); [reflexivity|]. destruct (index v _). apply IH.
Qed.

Definition as_option (r : Z * bool) : option Z := if snd r then Some (fst r) else None.

Lemma addr_index v c : as_option (index v c) = addr v c.
Proof. unfold as_option, addr. destruct (index v c) as [o []]; reflexivity. Qed.

Lemma Index_loop_spec n vs : stack n vs -> forall v below c,
  vs = v :: below -> in_bounds (v_shape v) c ->
  as_option (Index_loop below (fst (index v c)) (snd (index v c))) = locate vs c.
Proof.
  induction 1 as [v Hv Hf|v w below Hv Hf Hs IH]; intros v0 b0 c E Hc; injection E as <- <-.
  - cbn [Index_loop locate]. rewrite <- addr_index. unfold as_option.
    destruct (index v c) as [o []]; reflexivity.
  - cbn [Index_loop]. change (locate (v :: w :: below) c)
      with (match addr v c with None => None | Some off => locate (w :: below) (unravel (v_shape w) off) end).
    rewrite <- addr_index. unfold as_option at 2.
    destruct (index v c) as [o ok] eqn:Ei. simpl fst. simpl snd. destruct ok.
    + assert (Ha : addr v c = Some o) by (unfold addr; rewrite Ei; reflexivity).
      pose proof (Hf c o Hc Ha) as Hb.
      destruct (Z.eqb_spec (v_size w) 0) as [E0|_]; [lia|].
      rewrite <- (IH w below (unravel (v_shape w) o) eq_refl); [|eapply fits_unravel; eauto using stack_canonical].
      destruct (index w _). reflexivity.
    + destruct (v_size w =? 0); [reflexivity|]. destruct (index w _) as [o' ok'].
      unfold as_option. rewrite Index_loop_false. reflexivity.
Qed.

Lemma coords_in_spec c s : length c = length s -> coords_in c s = true <-> in_bounds s c.
Proof.
  unfold in_bounds. revert s; induction c as [|x c IH]; intros [|d s] Hl; simpl in *; try discriminate.
  - split; constructor.
  - destruct (Z.ltb_spec x 0), (Z.leb_spec d x); simpl;
      try (split; [discriminate|intros K; inversion K; lia]).
    rewrite IH by lia. split; [constructor; auto|intros K; inversion K; auto].
Qed.

(** [Index] is total on the cells in bounds and fails with ErrIndex
    elsewhere. *)
Lemma Index_in n t c : wf n t -> in_bounds (t_dims t) c ->
  exists r, Index t c = Ok r /\ as_option r = t_locate t c.
Proof.
  intros Hw Hc. unfold Index. rewrite (wf_check n t Hw). cbn [res_bind].
  rewrite bool_decide_true by eauto with nd.
  rewrite (proj2 (coords_in_spec c (t_dims t) ltac:(eauto with nd)) Hc). cbn [negb].
  pose proof (Index_loop_spec n _ (wf_stack n t Hw) _ _ c eq_refl Hc) as E.
  destruct (index (t_last t) c) as [o ok]. eexists; split; [reflexivity|].
  unfold t_locate. rewrite rev_views by (eapply wf_views, Hw). exact E.
Qed.

Lemma Index_out n t c : wf n t -> ~ in_bounds (t_dims t) c -> Index t c = Err ErrIndex.
Proof.
  intros Hw Hc. unfold Index. rewrite (wf_check n t Hw). cbn [res_bind].
  case_bool_decide as Hl; [|reflexivity]. cbn [negb].
  destruct (coords_in c (t_dims t)) eqn:E; [|reflexivity].
  apply coords_in_spec in E; [contradiction|exact Hl].
Qed.

Lemma wf_nonneg n t : wf n t -> nonneg (t_dims t).
Proof. intros H. apply can_nonneg. eapply wf_last, H. Qed.

Lemma At_in n t i : wf n t -> 0 <= i < t_Size t ->
  exists r, At t i = Ok r /\ as_option r = t_locate t (unravel (t_dims t) i).
Proof.
  intros Hw Hi. unfold At. rewrite (wf_check n t Hw). cbn [res_bind].
  destruct (Z.ltb_spec i 0), (Z.ltb_spec 0 (t_Size t)), (Z.leb_spec (t_Size t) i),
    (Z.eqb_spec (t_Size t) 0); try lia. simpl.
  apply (Index_in n); [exact Hw|]. rewrite (wf_size n t Hw) in Hi. apply unravel_in_bounds; [|lia].
  apply (HasZero_false _ (wf_nonneg n t Hw)). destruct (HasZero _) eqn:Hz; [|reflexivity].
  apply HasZero_true in Hz. lia.
Qed.

Lemma At_out n t i : wf n t -> ~ (0 <= i < t_Size t) -> At t i = Err ErrIndex.
Proof.
  intros Hw Hi. unfold At. rewrite (wf_check n t Hw). cbn [res_bind].
  pose proof (wf_size n t Hw). pose proof (Size_nonneg _ (wf_nonneg n t Hw)).
  destruct (Z.ltb_spec i 0), (Z.ltb_spec 0 (t_Size t)), (Z.leb_spec (t_Size t) i),
    (Z.eqb_spec (t_Size t) 0); try lia; reflexivity.
Qed.

(** *** Reshape and Splat *)

Lemma positive_of_nonempty s : nonneg s -> 0 < Size s -> positive_dims s.
Proof.
  intros Hn H. apply (HasZero_false s Hn). destruct (HasZero s) eqn:Hz; [|reflexivity].
  apply HasZero_true in Hz. lia.
Qed.

(** A row-major view stacked on top. *)
Lemma stack_fresh n v below s v' :
  stack n (v :: below) -> create s None 0 None = Ok v' -> Size s = Size (v_shape v) ->
  stack n (v' :: v :: below) /\
  forall c, in_bounds s c ->
    locate (v' :: v :: below) c = locate (v :: below) (unravel (v_shape v) (ravel s c)).
Proof.
  intros H Hcr HS. pose proof (create_shape _ _ _ _ _ Hcr) as Hsh.
  assert (Ha : forall c, in_bounds s c -> addr v' c = Some (ravel s c)).
  { intros c Hc. rewrite <- Hsh in Hc |- *. apply contiguous_addr; [|exact Hc].
    eapply create_fresh_contiguous, Hcr. }
  split.
  - apply stack_on; [eapply create_canonical; [exact Hcr|discriminate]| |exact H].
    intros c o Hc Ho. rewrite Hsh in Hc. rewrite Ha in Ho by exact Hc. injection Ho as <-.
    unfold v_size. rewrite <- HS. apply ravel_bounds, Hc.
  - intros c Hc. change (locate (v' :: v :: below) c)
      with (match addr v' c with None => None | Some off => locate (v :: below) (unravel (v_shape v) off) end).
    rewrite Ha by exact Hc. reflexivity.
Qed.

Lemma Reshape_agrees n t a shape :
  implements n t a -> agree n (t_Reshape t shape) (spec_move a (MReshape shape)).
Proof.
  intros Ht. pose proof (implements_wf _ _ _ Ht) as Hw. pose proof (implements_dims _ _ _ Ht) as Hd.
  pose proof (implements_canonical _ _ _ Ht) as Hc.
  unfold t_Reshape. rewrite (wf_check n t Hw), (wf_size n t Hw). cbn [res_bind spec_move].
  rewrite <- Hd. unfold t_dims.
  destruct (Infer shape (Size (v_shape (t_last t)))) as [s|e] eqn:Ei; [|reflexivity]. cbn [res_bind].
  apply Infer_ok in Ei as (_ & Hcm & HS); [|apply Size_nonneg, can_nonneg, Hc].
  pose proof (completes_nonneg _ _ Hcm) as Hn.
  assert (Hub : forall c, in_bounds s c -> in_bounds (v_shape (t_last t)) (unravel (v_shape (t_last t)) (ravel s c))).
  { intros c Hb. pose proof (ravel_bounds _ _ Hb). apply unravel_in_bounds; [|lia].
    apply positive_of_nonempty; [apply can_nonneg, Hc|lia]. }
  destruct (reshape (t_last t) s) as [| |v'] eqn:Er.
  - exfalso. apply (reshape_ends (t_last t) s); auto. apply can_nonneg, Hc.
  - destruct (create_total s None 0 None Hn ltac:(discriminate) ltac:(discriminate)) as [v' Hv'].
    rewrite Hv'. simpl.
    destruct (stack_fresh n _ _ s v' (wf_stack n t Hw) Hv' HS) as [Hs Hl].
    assert (Hrev : rev (t_views t ++ [v']) = v' :: t_last t :: rev (removelast (t_views t))).
    { rewrite rev_unit, rev_views by (eapply wf_views, Hw). reflexivity. }
    split; [|split].
    + unfold wf. simpl. rewrite Hrev. exact Hs.
    + unfold t_dims, t_last. simpl. rewrite last_last. eapply create_shape, Hv'.
    + intros c Hb. simpl in Hb |- *. unfold t_locate. simpl. rewrite Hrev, Hl by exact Hb.
      destruct Ht as (_ & Hdm & Hcell). rewrite <- Hcell by (rewrite <- Hd; apply Hub, Hb).
      unfold t_locate. rewrite rev_views by (eapply wf_views, Hw). reflexivity.
  - cbn [agree]. generalize (t_nil t && bool_decide (t_dims t = s)) as b. intros b.
    assert (Hi : implements n (replace t v' b) (remap a (v_shape v')
      (fun c => Some (unravel (v_shape (t_last t)) (ravel s c))))).
    { apply replace_implements; [exact Ht|eapply reshape_canonical; eauto|].
      intros c Hb. rewrite (reshape_shape _ _ _ Er) in Hb. split; [apply Hub, Hb|].
      eapply reshape_addr; eauto. }
    rewrite (reshape_shape _ _ _ Er) in Hi. exact Hi.
Qed.

(** [Splat] keeps the one offset of a 1-cell tensor. *)
Lemma Splat_agrees n t a :
  implements n t a -> agree n (t_Splat t) (spec_move a MSplat).
Proof.
  intros Ht. pose proof (implements_wf _ _ _ Ht) as Hw. pose proof (implements_dims _ _ _ Ht) as Hd.
  unfold t_Splat. rewrite (wf_check n t Hw), (wf_size n t Hw). cbn [res_bind spec_move].
  rewrite <- Hd. unfold t_dims.
  destruct (Z.eqb_spec (Size (v_shape (t_last t))) 1) as [E1|]; [|reflexivity]. cbn [negb].
  destruct (At_in n t 0 Hw) as (r & -> & Hr); [rewrite (wf_size n t Hw); unfold t_dims; lia|].
  unfold t_dims in Hr.
  assert (Hb : in_bounds (t_dims t) (unravel (v_shape (t_last t)) 0)).
  { apply unravel_in_bounds; [|lia]. apply positive_of_nonempty; [eapply wf_nonneg, Hw|unfold t_dims; lia]. }
  destruct Ht as (_ & Hdm & Hcell). rewrite (Hcell _ ltac:(rewrite <- Hdm; exact Hb)) in Hr.
  rewrite <- Hr. destruct r as [off ok]. unfold as_option in *. cbn [fst snd res_bind] in *.
  destruct ok; [|reflexivity]. cbn [negb].
  assert (Hoff : 0 <= off < n).
  { eapply locate_range; [reflexivity|apply wf_stack, Hw|exact Hb|].
    rewrite <- rev_views by (eapply wf_views, Hw). fold (t_locate t (unravel (v_shape (t_last t)) 0)).
    rewrite Hcell by (rewrite <- Hdm; exact Hb). symmetry. exact Hr. }
  change (create [] None off None) with (Ok (mkView [] [] off None)). cbn [res_bind agree].
  split; [|split; [reflexivity|]].
  - apply stack_base.
    + eapply (create_canonical [] None off None); [reflexivity|discriminate].
    + intros c o Hc Ho. cbv in Ho. congruence.
  - intros c Hc. reflexivity.
Qed.

(** *** Programs of moves *)

Lemma move_agrees n t a m : implements n t a -> agree n (apply_move t m) (spec_move a m).
Proof.
  intros H. destruct m; cbn [apply_move].
  - apply Reshape_agrees, H.
  - apply Permute_agrees, H.
  - apply Expand_agrees, H.
  - apply Pad_agrees, H.
  - apply Shrink_agrees, H.
  - apply Flip_agrees, H.
  - apply Splat_agrees, H.
Qed.

Lemma moves_agree n ms : forall t a, implements n t a -> agree n (run_moves t ms) (spec_moves a ms).
Proof.
  induction ms as [|m ms IH]; intros t a H; [exact H|]. cbn [run_moves spec_moves].
  pose proof (move_agrees n t a m H) as K.
  destruct (apply_move t m) as [t'|e], (spec_move a m) as [a'|e']; simpl in K |- *; try contradiction.
  - apply IH, K.
  - exact K.
Qed.

(** A fresh tracker numbers its cells row by row. *)
Definition row_major (s : Shape) : amap := mkAmap s (fun c => Some (ravel s c)).

Lemma Of_implements s : nonneg (opt_list s) ->
  exists t, Of s = Ok t /\ implements (Size (opt_list s)) t (row_major (opt_list s)) /\
    t_Shape t = s /\ Contiguous t = true.
Proof.
  intros Hn. destruct (create_total (opt_list s) None 0 None Hn ltac:(discriminate) ltac:(discriminate)) as [v Hv].
  unfold Of. rewrite Hv. eexists; split; [reflexivity|].
  pose proof (create_shape _ _ _ _ _ Hv) as Hs. pose proof (create_fresh_contiguous _ _ Hv) as Hcg.
  assert (Ha : forall c, in_bounds (opt_list s) c -> addr v c = Some (ravel (opt_list s) c)).
  { intros c Hc. rewrite <- Hs in Hc |- *. apply contiguous_addr; assumption. }
  split; [split; [|split]|split].
  - apply stack_base; [eapply create_canonical; [exact Hv|discriminate]|].
    intros c o Hc Ho. rewrite Hs in Hc. rewrite Ha in Ho by exact Hc. injection Ho as <-.
    apply ravel_bounds, Hc.
  - exact Hs.
  - intros c Hc. unfold t_locate. simpl. rewrite Ha by exact Hc. reflexivity.
  - unfold t_Shape, t_dims, t_last. simpl. rewrite Hs. destruct s; reflexivity.
  - exact Hcg.
Qed.

Lemma Of_negative s : ~ nonneg (opt_list s) -> Of s = Err ErrShape.
Proof. intros H. unfold Of. rewrite create_negative by exact H. reflexivity. Qed.

Lemma implements_range n t a c o :
  implements n t a -> in_bounds (t_dims t) c -> t_locate t c = Some o -> 0 <= o < n.
Proof.
  intros (Hw & _ & _) Hc Ho. eapply locate_range; [reflexivity|apply wf_stack, Hw|exact Hc|].
  rewrite <- rev_views by (eapply wf_views, Hw). exact Ho.
Qed.

(** *** RealSize *)

Lemma max_on_interval lo hi st : lo < hi ->
  let b := if (hi - 1) * st <? lo * st then lo * st else (hi - 1) * st in
  (forall x, lo <= x < hi -> x * st <= b) /\ exists x, lo <= x < hi /\ x * st = b.
Proof.
  intros H b. unfold b. destruct (Z.ltb_spec ((hi - 1) * st) (lo * st)).
  - split; [intros x Hx; destruct (Z.le_gt_cases 0 st); nia|]. exists lo. lia.
  - split; [intros x Hx; destruct (Z.le_gt_cases 0 st); nia|]. exists (hi - 1). lia.
Qed.

Definition kept (mask : option (list (Z * Z))) (s : Shape) (c : list Z) : Prop :=
  in_bounds s c /\ mask_opt_ok mask c = true.

Lemma kept_cons mask d s x c :
  kept mask (d :: s) (x :: c) <->
  (0 <= x < d /\ match mask with Some (m :: _) => fst m <= x < snd m | _ => True end)
  /\ kept (option_map (@tail _) mask) s c.
Proof.
  unfold kept, in_bounds. rewrite Forall2_cons.
  destruct mask as [[|[lo hi] m]|]; cbn [mask_opt_ok mask_ok option_map tail fst snd].
  - destruct c; cbn [mask_ok]; intuition.
  - rewrite !andb_true_iff, Z.leb_le, Z.ltb_lt. intuition.
  - intuition.
Qed.

Lemma RealSize_loop_spec s : forall st mask acc,
  length st = length s ->
  (forall m, mask = Some m -> mask_in s m) ->
  match RealSize_loop s st mask acc with
  | Some M => (forall c, kept mask s c -> acc + dot c st <= M) /\
              (exists c, kept mask s c /\ acc + dot c st = M)
  | None => forall c, ~ kept mask s c
  end.
Proof.
  induction s as [|d s IH]; intros [|y st] mask acc Hl Hm; try discriminate Hl.
  - cbn [RealSize_loop]. split.
    + intros c [Hc _]. apply in_bounds_nil in Hc as ->. simpl. lia.
    + exists []. split; [|simpl; lia]. split; [constructor|].
      destruct mask as [[|[? ?] ?]|]; reflexivity.
  - cbn [RealSize_loop].
    set (iv := match mask with Some (m :: _) => m | _ => (0, d) end).
    assert (Hiv : 0 <= fst iv /\ snd iv <= d).
    { unfold iv. destruct mask as [[|m ms]|]; simpl; try lia.
      specialize (Hm _ eq_refl). inversion Hm; subst. assumption. }
    assert (Hk : forall x c, kept mask (d :: s) (x :: c) <->
      fst iv <= x < snd iv /\ kept (option_map (@tail _) mask) s c).
    { intros x c. rewrite kept_cons. unfold iv in *. destruct mask as [[|m ms]|]; simpl in *; intuition lia. }
    destruct iv as [lo hi]. simpl in Hiv, Hk.
    assert (Hinv : forall c, kept mask (d :: s) c -> exists x c', c = x :: c').
    { intros c [Hc _]. apply in_bounds_cons in Hc as (x & c' & -> & _). eauto. }
    destruct (Z.leb_spec hi lo) as [Hle|Hlt].
    { intros c Hc. destruct (Hinv c Hc) as (x & c' & ->). apply Hk in Hc. lia. }
    destruct (max_on_interval lo hi y Hlt) as [Hmax (x0 & Hx0 & Eb)].
    set (b := if (hi - 1) * y <? lo * y then lo * y else (hi - 1) * y) in *.
    specialize (IH st (option_map (@tail _) mask) (acc + b) ltac:(simpl in Hl; lia)).
    assert (Hm' : forall m, option_map (@tail _) mask = Some m -> mask_in s m).
    { intros m E. destruct mask as [ms|]; [|discriminate E]. injection E as <-.
      specialize (Hm _ eq_refl). inversion Hm; subst. assumption. }
    specialize (IH Hm'). destruct (RealSize_loop s st _ (acc + b)) as [M|].
    + destruct IH as [Hub (c0 & Hc0 & E0)]. split.
      * intros c Hc. destruct (Hinv c Hc) as (x & c' & ->). apply Hk in Hc as [Hx Hc].
        specialize (Hub c' Hc). specialize (Hmax x Hx). simpl. lia.
      * exists (x0 :: c0). split; [apply Hk; auto|]. simpl. lia.
    + intros c Hc. destruct (Hinv c Hc) as (x & c' & ->). apply Hk in Hc as [_ Hc]. apply (IH c' Hc).
Qed.

Lemma addr_kept v c o : canonical v -> in_bounds (v_shape v) c ->
  addr v c = Some o <-> kept (v_mask v) (v_shape v) c /\ o = v_offset v + dot c (v_strides v).
Proof.
  intros Hv Hc. rewrite addr_spec by eauto with nd. unfold affine, kept.
  destruct (mask_opt_ok (v_mask v) c); intuition congruence.
Qed.

(** [RealSize] is one more than the largest offset the bottom view reads. *)
Lemma RealSize_spec n t v above : wf n t -> t_views t = v :: above ->
  (forall c o, in_bounds (v_shape v) c -> addr v c = Some o -> o < RealSize t) /\
  (0 < RealSize t -> exists c, in_bounds (v_shape v) c /\ addr v c = Some (RealSize t - 1)).
Proof.
  intros Hw E. assert (Hv : canonical v).
  { unfold wf in Hw. rewrite E in Hw. simpl in Hw. clear E.
    revert Hw. generalize (rev above). intros l. induction l as [|w l IH]; intros H.
    - inversion H; auto.
    - apply IH. destruct l; simpl in *; inversion H; auto. }
  unfold RealSize. rewrite E. destruct (HasZero (v_shape v)) eqn:Hz.
  { apply HasZero_true in Hz. split; [|lia]. intros c o Hc. apply ravel_bounds in Hc. lia. }
  pose proof (RealSize_loop_spec (v_shape v) (v_strides v) (v_mask v) (v_offset v) (can_length v Hv)
    (fun m => can_mask_in v m Hv)) as K.
  destruct (RealSize_loop _ _ _ _) as [M|].
  - destruct K as [Hub (c0 & Hc0 & E0)]. split.
    + intros c o Hc Ho. apply addr_kept in Ho as [Hk ->]; auto. specialize (Hub c Hk). lia.
    + intros HM. exists c0. split; [apply Hc0|]. apply addr_kept; auto; [apply Hc0|].
      split; [exact Hc0|lia].
  - split; [|lia]. intros c o Hc Ho. apply addr_kept in Ho as [Hk _]; auto. destruct (K c Hk).
Qed.

(** *** Nil shapes, rank 0 and contiguous trackers *)

Lemma no_tracker_nil_ok : nil_ok no_tracker.
Proof. intros H. discriminate H. Qed.

Lemma Of_nil_ok s t : Of s = Ok t -> nil_ok t.
Proof.
  unfold Of, nil_ok, t_dims. intros H. apply res_bind_ok in H as (v & Hv & [= <-]). simpl.
  destruct s; [discriminate|]. intros _. exact (create_shape _ _ _ _ _ Hv).
Qed.

Lemma move_nil_ok t m t' : nil_ok t -> apply_move t m = Ok t' -> nil_ok t'.
Proof.
  unfold nil_ok. intros Hn.
  assert (Hmap : forall fn b, (forall v, t_nil t = true -> fn (t_last t) = Ok v -> b = true -> v_shape v = v_shape (t_last t)) ->
    mapView t fn b = Ok t' -> (b = true -> t_nil t = true) -> t_nil t' = true -> t_dims t' = []).
  { intros fn b Hfn H Hb. unfold mapView in H. apply res_bind_ok in H as ([] & _ & H).
    apply res_bind_ok in H as (v & Hv & [= <-]). simpl. intros Eb. unfold t_dims. rewrite replace_last.
    rewrite (Hfn v (Hb Eb) Hv Eb). apply Hn, Hb, Eb. }
  destruct m; cbn [apply_move]; intros H.
  - unfold t_Reshape in H. apply res_bind_ok in H as ([] & _ & H).
    apply res_bind_ok in H as (s & _ & H). destruct (reshape (t_last t) s) as [| |v] eqn:Er; [discriminate H| |].
    + apply res_bind_ok in H as (v & _ & [= <-]). discriminate.
    + injection H as <-. simpl. intros K. apply andb_true_iff in K as [K1 K2].
      apply bool_decide_eq_true in K2. unfold t_dims. rewrite replace_last, (reshape_shape _ _ _ Er), <- K2. auto.
  - unfold t_Permute in H. apply res_bind_ok in H as ([] & _ & H). apply res_bind_ok in H as (x & _ & H).
    apply res_bind_ok in H as (v & _ & [= <-]). discriminate.
  - eapply Hmap; [|exact H|]; discriminate.
  - eapply Hmap; [|exact H|auto]. intros v Ht Hv _. specialize (Hn Ht). unfold t_dims in Hn.
    rewrite (pad_shape _ _ _ Hv), Hn. unfold padded. destruct arg; reflexivity.
  - eapply Hmap; [|exact H|]; discriminate.
  - unfold t_Flip in H. apply res_bind_ok in H as ([] & _ & H). destruct axes; [injection H as <-; exact Hn|].
    apply res_bind_ok in H as (x & _ & H). apply res_bind_ok in H as (v & Hv & [= <-]). simpl. intros Ht.
    unfold t_dims. rewrite replace_last, (flip_shape _ _ _ Hv). auto.
  - unfold t_Splat in H. apply res_bind_ok in H as ([] & _ & H). destruct (negb _); [discriminate H|].
    apply res_bind_ok in H as ([off ok] & _ & H). destruct (negb ok); [discriminate H|].
    apply res_bind_ok in H as (v & _ & [= <-]). discriminate.
Qed.

(** The coordinates do not matter to a rank-0 tracker. *)
Lemma locate_rank0 t c c' : t_dims t = [] -> t_locate t c = t_locate t c'.
Proof.
  unfold t_dims, t_locate. destruct (decide (t_views t = [])) as [->|Hne]; [reflexivity|].
  intros Hd. rewrite rev_views by exact Hne. cbn [locate].
  assert (E : forall c, addr (t_last t) c = Some (v_offset (t_last t))).
  { intros k. unfold addr, index. rewrite Hd. reflexivity. }
  rewrite !E. reflexivity.
Qed.

Lemma Contiguous_locate t c : Contiguous t = true -> in_bounds (t_dims t) c ->
  t_locate t c = Some (ravel (t_dims t) c).
Proof.
  unfold Contiguous, t_locate, t_dims, t_last. destruct (t_views t) as [|v [|w vs]]; try discriminate.
  simpl. intros Hc Hb. rewrite (contiguous_addr v c Hc Hb). reflexivity.
Qed.
