(* ===== verification/Float.v ===== *)
(** * float32 registers (src/x/ndarray/cpu.go)

    The CPU tape keeps every value in a 32-bit word and computes on Go's
    float32 and int32.  This file gives the words their float32 reading, on
    the IEEE 754 operations of the Standard Library's [SpecFloat], and the
    arithmetic the operations of cpu.go need.  Go leaves some things to the
    implementation: the payload of a NaN result, [int32(x)] of a float that
    does not fit, and the accuracy of [math.Exp2], [math.Log2] and
    [math.Sin].  They are the fields of the class [FloatEnv], so every
    theorem holds for each choice of them. *)
From Stdlib Require Import ZArith Lia.
From Stdlib Require Import Floats.SpecFloat.
From stdpp Require Import base numbers option list.
From S2P Require Import Prelude.

Local Open Scope Z_scope.

(** ** Words *)

Definition two31 : Z := 2147483648.
Definition two32 : Z := 4294967296.

Definition word_ok (w : Z) : Prop := 0 <= w < two32.

(** [uint32(v)] and [int32(w)] *)
Definition u32 (v : Z) : Z := v mod two32.
Definition i32 (w : Z) : Z := if w <? two31 then w else w - two32.

Lemma u32_ok v : word_ok (u32 v).
Proof. unfold word_ok, u32, two32. apply Z.mod_pos_bound. lia. Qed.

Lemma u32_small w : word_ok w -> u32 w = w.
Proof. unfold word_ok, u32. apply Z.mod_small. Qed.

Lemma u32_i32 w : word_ok w -> u32 (i32 w) = w.
Proof.
  unfold word_ok, u32, i32, two32, two31. intros H.
  destruct (Z.ltb_spec w 2147483648); [apply Z.mod_small; lia|].
  symmetry. apply (Z.mod_unique _ _ (-1)); lia.
Qed.

Lemma i32_range w : word_ok w -> - two31 <= i32 w < two31.
Proof. unfold word_ok, i32, two32, two31. intros H. destruct (Z.ltb_spec w 2147483648); lia. Qed.

(** [i32] is congruent to the word it reads. *)
Lemma i32_mod w : word_ok w -> exists k, i32 w = w + k * two32.
Proof.
  unfold i32. intros H. destruct (w <? two31); [exists 0|exists (-1)]; lia.
Qed.

Lemma u32_cong x y k : x = y + k * two32 -> u32 x = u32 y.
Proof. intros ->. unfold u32, two32. apply Z.mod_add. lia. Qed.

(** [int32(uint32(v)) = v] on the range of int32. *)
Lemma i32_u32 v : - two31 <= v < two31 -> i32 (u32 v) = v.
Proof.
  unfold i32, u32, two31, two32. intros H. destruct (Z.le_gt_cases 0 v).
  - rewrite Z.mod_small by lia. destruct (Z.ltb_spec v 2147483648); lia.
  - replace (v mod 4294967296) with (v + 4294967296) by (apply (Z.mod_unique _ _ (-1)); lia).
    destruct (Z.ltb_spec (v + 4294967296) 2147483648); lia.
Qed.

(** ** The float32 reading of a word *)

Definition f32_prec : Z := 24.
Definition f32_emax : Z := 128.

Definition sign_bit (s : bool) : Z := if s then two31 else 0.

(** [math.Float32frombits] *)
Definition unpack (w : Z) : spec_float :=
  let s := two31 <=? w in
  let e := (w / 8388608) mod 256 in
  let m := w mod 8388608 in
  if e =? 255 then (if m =? 0 then S754_infinity s else S754_nan)
  else if e =? 0 then
    match m with
    | Zpos p => S754_finite s p (-149)
    | _ => S754_zero s
    end
  else S754_finite s (Z.to_pos (m + 8388608)) (e - 150).

(** [math.Float32bits], with the word of a NaN given. *)
Definition pack (nan : Z) (f : spec_float) : Z :=
  match f with
  | S754_zero s => sign_bit s
  | S754_infinity s => sign_bit s + 255 * 8388608
  | S754_nan => nan
  | S754_finite s m e =>
      sign_bit s + (if Zpos m <? 8388608 then Zpos m else (e + 150) * 8388608 + (Zpos m - 8388608))
  end.

Definition is_nan (w : Z) : bool :=
  match unpack w with S754_nan => true | _ => false end.

(** What the implementation chooses. *)
Class FloatEnv : Type := {
  nan_word : list Z -> Z;
  nan_word_ok : forall l, word_ok (nan_word l) /\ is_nan (nan_word l) = true;
  int_of_unrepresentable : spec_float -> Z;
  int_of_unrepresentable_ok : forall f, word_ok (int_of_unrepresentable f);
  math_Exp2 : spec_float -> spec_float;
  math_Log2 : spec_float -> spec_float;
  math_Sin : spec_float -> spec_float
}.

(** [float64(x)] and [float32(y)] *)
Definition widen (f : spec_float) : spec_float :=
  match f with
  | S754_finite s m e => binary_round 53 1024 s m e
  | _ => f
  end.

Definition narrow (f : spec_float) : spec_float :=
  match f with
  | S754_finite s m e => binary_round f32_prec f32_emax s m e
  | _ => f
  end.

(** [float32(i)] of an int32 *)
Definition float_of_int (i : Z) : spec_float := binary_normalize f32_prec f32_emax i 0 false.

Definition f32_one : spec_float := S754_finite false 8388608 (-23).

(** [max] on float32 *)
Definition float_max (a b : spec_float) : spec_float :=
  match a, b with
  | S754_nan, _ | _, S754_nan => S754_nan
  | _, _ =>
      if SFltb a b then b else if SFltb b a then a
      else match a with S754_zero true => b | _ => a end
  end.

(** The integer part of a float, towards zero. *)
Definition float_trunc (f : spec_float) : option Z :=
  match f with
  | S754_zero _ => Some 0
  | S754_finite s m e =>
      let v := if 0 <=? e then Zpos m * 2 ^ e else Zpos m / 2 ^ (- e) in
      Some (if s then - v else v)
  | _ => None
  end.

Section env.
Context {E : FloatEnv}.

(** [int32(x)], as a word *)
Definition int_of_float (f : spec_float) : Z :=
  match float_trunc f with
  | Some v => if (- two31 <=? v) && (v <? two31) then u32 v else int_of_unrepresentable f
  | None => int_of_unrepresentable f
  end.

(** [math.Float32bits], a uint32, of the result of an operation on the
    words [args] *)
Definition packFloat (args : list Z) (f : spec_float) : Z := u32 (pack (nan_word args) f).

Lemma packFloat_ok args f : word_ok (packFloat args f).
Proof. apply u32_ok. Qed.

Lemma int_of_float_ok f : word_ok (int_of_float f).
Proof.
  unfold int_of_float. destruct (float_trunc f) as [v|]; [|apply int_of_unrepresentable_ok].
  destruct (_ && _); [apply u32_ok|apply int_of_unrepresentable_ok].
Qed.
End env.

(** ** Round trip *)

Definition valid32 (f : spec_float) : bool := valid_binary f32_prec f32_emax f.

Lemma split_word w : word_ok w ->
  w = sign_bit (two31 <=? w) + ((w / 8388608) mod 256) * 8388608 + w mod 8388608 /\
  0 <= (w / 8388608) mod 256 < 256 /\ 0 <= w mod 8388608 < 8388608.
Proof.
  unfold word_ok, two32, sign_bit, two31. intros H.
  pose proof (Z.div_mod w 8388608 ltac:(lia)). pose proof (Z.mod_pos_bound w 8388608 ltac:(lia)).
  pose proof (Z.div_mod (w / 8388608) 256 ltac:(lia)).
  pose proof (Z.mod_pos_bound (w / 8388608) 256 ltac:(lia)).
  destruct (Z.leb_spec 2147483648 w); lia.
Qed.

Lemma pack_unpack w nan : word_ok w -> is_nan w = false -> pack nan (unpack w) = w.
Proof.
  intros H. destruct (split_word w H) as (E & He & Hm). unfold is_nan, unpack.
  set (s := two31 <=? w) in *. set (e := (w / 8388608) mod 256) in *. set (m := w mod 8388608) in *.
  destruct (Z.eqb_spec e 255) as [E1|N1].
  - destruct (Z.eqb_spec m 0); [|discriminate]. intros _. unfold pack. lia.
  - intros _. destruct (Z.eqb_spec e 0) as [E2|N2].
    + destruct m as [|p|p] eqn:Em; cbn [pack]; [lia| |lia].
      destruct (Z.ltb_spec (Z.pos p) 8388608); lia.
    + cbn [pack]. rewrite Z2Pos.id by lia.
      destruct (Z.ltb_spec (m + 8388608) 8388608); lia.
Qed.

Lemma digits2_bounds p : 2 ^ (Zpos (digits2_pos p) - 1) <= Zpos p < 2 ^ Zpos (digits2_pos p).
Proof.
  induction p as [p IH|p IH|]; cbn [digits2_pos]; [| |cbn; lia].
  all: rewrite Pos2Z.inj_succ; replace (Z.succ (Zpos (digits2_pos p)) - 1) with (Zpos (digits2_pos p)) by lia.
  all: rewrite Z.pow_succ_r by lia;
    assert (Hp : 2 ^ Zpos (digits2_pos p) = 2 * 2 ^ (Zpos (digits2_pos p) - 1))
      by (rewrite <- Z.pow_succ_r by lia; f_equal; lia); lia.
Qed.

Lemma digits2_unique p d : 0 < d -> 2 ^ (d - 1) <= Zpos p < 2 ^ d -> Zpos (digits2_pos p) = d.
Proof.
  intros Hd H. pose proof (digits2_bounds p) as K.
  assert (d - 1 < Zpos (digits2_pos p)) by (apply (Z.pow_lt_mono_r_iff 2); lia).
  assert (Zpos (digits2_pos p) - 1 < d) by (apply (Z.pow_lt_mono_r_iff 2); lia).
  lia.
Qed.

Lemma digits2_le p d : 0 <= d -> Zpos p < 2 ^ d -> Zpos (digits2_pos p) <= d.
Proof.
  intros Hd H. pose proof (digits2_bounds p).
  assert (Zpos (digits2_pos p) - 1 < d) by (apply (Z.pow_lt_mono_r_iff 2); lia). lia.
Qed.

(** Every word reads as a number in the format. *)
Lemma unpack_valid w : word_ok w -> valid32 (unpack w) = true.
Proof.
  intros H. destruct (split_word w H) as (_ & He & Hm). unfold unpack.
  set (s := two31 <=? w) in *. set (e := (w / 8388608) mod 256) in *. set (m := w mod 8388608) in *.
  destruct (Z.eqb_spec e 255); [destruct (m =? 0); reflexivity|].
  unfold valid32, valid_binary, bounded, canonical_mantissa, fexp, emin, f32_prec, f32_emax.
  destruct (Z.eqb_spec e 0).
  - destruct m as [|p|p] eqn:Em; try reflexivity.
    pose proof (digits2_le p 23 ltac:(lia) ltac:(lia)). lia.
  - rewrite (digits2_unique (Z.to_pos (m + 8388608)) 24 ltac:(lia)); [lia|].
    rewrite Z2Pos.id by lia. lia.
Qed.

Lemma pack_ok nan f : word_ok nan -> valid32 f = true -> word_ok (pack nan f).
Proof.
  unfold word_ok, valid32, valid_binary, bounded, canonical_mantissa, fexp, emin, f32_prec, f32_emax, two32.
  intros Hn Hv. destruct f as [s|s| |s m e]; cbn [pack]; unfold sign_bit, two31; try exact Hn; try (destruct s; lia).
  pose proof (digits2_bounds m) as Hd.
  assert (Hd24 : Zpos (digits2_pos m) <= 24) by lia.
  assert (Zpos m < 16777216).
  { apply Z.lt_le_trans with (2 ^ Zpos (digits2_pos m)); [lia|].
    change 16777216 with (2 ^ 24). apply Z.pow_le_mono_r; lia. }
  destruct (Z.ltb_spec (Zpos m) 8388608); destruct s; lia.
Qed.

(** Packing a number of the format loses nothing. *)
Lemma unpack_pack nan f : valid32 f = true -> f <> S754_nan -> unpack (pack nan f) = f.
Proof.
  unfold valid32, valid_binary, bounded, canonical_mantissa, fexp, emin, f32_prec, f32_emax.
  intros Hv Hn. destruct f as [s|s| |s m e]; [destruct s; reflexivity|destruct s; reflexivity|congruence|].
  pose proof (digits2_bounds m) as Hd.
  assert (Hd24 : Zpos (digits2_pos m) <= 24) by lia.
  assert (Hm : Zpos m < 16777216).
  { apply Z.lt_le_trans with (2 ^ Zpos (digits2_pos m)); [lia|].
    change 16777216 with (2 ^ 24). apply Z.pow_le_mono_r; lia. }
  cbn [pack]. unfold unpack.
  set (w := sign_bit s + _).
  assert (Hparts : exists x y, w = sign_bit s + x * 8388608 + y /\ 0 <= x < 255 /\ 0 <= y < 8388608 /\
    (x = 0 /\ y = Zpos m /\ e = -149 \/ 0 < x /\ Zpos m = y + 8388608 /\ e = x - 150)).
  { unfold w. destruct (Z.ltb_spec (Zpos m) 8388608) as [Hlt|Hge].
    - exists 0, (Zpos m). pose proof (digits2_le m 23 ltac:(lia) ltac:(lia)). repeat split; lia.
    - exists (e + 150), (Zpos m - 8388608).
      rewrite (digits2_unique m 24) in Hv by lia. repeat split; lia. }
  destruct Hparts as (x & y & Ew & Hx & Hy & Hcase). clearbody w.
  assert (Es : (two31 <=? w) = s).
  { unfold sign_bit, two31 in *. destruct s; [apply Z.leb_le|apply Z.leb_gt]; lia. }
  assert (Em : w mod 8388608 = y).
  { symmetry. apply (Z.mod_unique _ _ (sign_bit s / 8388608 + x)); [lia|]. rewrite Ew.
    destruct s; unfold sign_bit, two31; change (2147483648 / 8388608) with 256; change (0 / 8388608) with 0; lia. }
  assert (Ee : (w / 8388608) mod 256 = x).
  { replace (w / 8388608) with (sign_bit s / 8388608 + x).
    - destruct s; unfold sign_bit, two31; change (2147483648 / 8388608) with 256; change (0 / 8388608) with 0.
      + symmetry. apply (Z.mod_unique _ _ 1); lia.
      + apply Z.mod_small; lia.
    - apply (Z.div_unique _ _ _ y); [lia|]. rewrite Ew.
      destruct s; unfold sign_bit, two31; change (2147483648 / 8388608) with 256; change (0 / 8388608) with 0; lia. }
  rewrite Es, Em, Ee. destruct (Z.eqb_spec x 255); [lia|].
  destruct Hcase as [(-> & -> & ->)|(Hx0 & Hmy & ->)]; [reflexivity|].
  destruct (Z.eqb_spec x 0); [lia|]. rewrite <- Hmy. reflexivity.
Qed.

Section pack.
Context {E : FloatEnv}.

(** A number of the format goes through a register unchanged. *)
Lemma unpack_packFloat args f : valid32 f = true -> unpack (packFloat args f) = f.
Proof.
  intros Hv. unfold packFloat. destruct (nan_word_ok args) as [Hw Hn].
  rewrite u32_small by (apply pack_ok; assumption).
  destruct f as [s|s| |s m e]; try (apply unpack_pack; [exact Hv|discriminate]).
  cbn [pack]. unfold is_nan in Hn. destruct (unpack (nan_word args)); congruence.
Qed.

Lemma packFloat_nan args : is_nan (packFloat args S754_nan) = true.
Proof.
  unfold packFloat. destruct (nan_word_ok args) as [Hw Hn]. cbn [pack]. rewrite u32_small; assumption.
Qed.

Lemma packFloat_unpack args w : word_ok w -> is_nan w = false -> packFloat args (unpack w) = w.
Proof. intros Hw Hn. unfold packFloat. rewrite pack_unpack by assumption. apply u32_small, Hw. Qed.

(** The word depends on the arguments only through a NaN. *)
Lemma packFloat_args args args' f : f <> S754_nan -> packFloat args f = packFloat args' f.
Proof. intros H. unfold packFloat. destruct f; [reflexivity|reflexivity|congruence|reflexivity]. Qed.
End pack.

(** ** Algebra of float32 that the optimizer relies on *)

Lemma digits2_mul_one m : digits2_pos (m * 8388608) = (digits2_pos m + 23)%positive.
Proof. rewrite Pos.mul_comm. change (8388608 * m)%positive with (m~0~0~0~0~0~0~0~0~0~0~0~0~0~0~0~0~0~0~0~0~0~0~0)%positive. cbn [digits2_pos]. lia. Qed.

Lemma shr_mul_one m : SpecFloat.iter_pos shr_1 23 (Build_shr_record (Zpos (m * 8388608)) false false)
  = Build_shr_record (Zpos m) false false.
Proof. rewrite Pos.mul_comm. reflexivity. Qed.

(** [x * 1] is [x]. *)
Lemma SFmul_one_r f : valid32 f = true -> SFmul f32_prec f32_emax f f32_one = f.
Proof.
  intros Hv. destruct f as [s|s| |s m e]; cbn [SFmul f32_one]; rewrite ?xorb_false_r; try reflexivity.
  unfold valid32, valid_binary, bounded in Hv. apply andb_true_iff in Hv as [Hc He].
  unfold canonical_mantissa in Hc. apply Z.eqb_eq in Hc.
  unfold binary_round_aux, shr_fexp. cbn [Zdigits2]. rewrite digits2_mul_one.
  replace (Z.pos (digits2_pos m + 23) + (e + -23)) with (Z.pos (digits2_pos m) + e) by lia.
  rewrite Hc. replace (e - (e + -23)) with 23 by lia. cbn [shr shr_record_of_loc].
  rewrite shr_mul_one. cbn [loc_of_shr_record shr_m round_nearest_even Zdigits2].
  replace (e + -23 + 23) with e by lia. rewrite Hc, Z.sub_diag. cbn [shr shr_record_of_loc shr_m].
  rewrite He. reflexivity.
Qed.

Lemma SFmul_comm f g : SFmul f32_prec f32_emax f g = SFmul f32_prec f32_emax g f.
Proof.
  destruct f as [s|s| |s m e], g as [s'|s'| |s' m' e']; cbn [SFmul]; rewrite ?(xorb_comm s s'); try reflexivity.
  rewrite (Pos.mul_comm m m'), (Z.add_comm e e'). reflexivity.
Qed.

Lemma float_max_same f : float_max f f = f.
Proof.
  assert (H : SFltb f f = false).
  { unfold SFltb, SFcompare. destruct f as [s|s| |s m e]; try reflexivity; [destruct s; reflexivity|].
    rewrite Z.compare_refl, Pos.compare_cont_spec, Pos.compare_refl. destruct s; reflexivity. }
  unfold float_max. rewrite H. destruct f as [[]|s| |s m e]; reflexivity.
Qed.

Lemma SFopp_involutive f : SFopp (SFopp f) = f.
Proof. destruct f; cbn; rewrite ?negb_involutive; reflexivity. Qed.

Lemma SFopp_valid f : valid32 f = true -> valid32 (SFopp f) = true.
Proof. destruct f; exact id. Qed.

(** ** Rounding gives a float32 *)

Lemma shr_1_half r : 0 <= shr_m r -> shr_m (shr_1 r) = shr_m r / 2.
Proof.
  destruct r as [[|[p|p|]|p] b s]; intros H; simpl shr_m in *; try reflexivity; try lia.
  - apply (Z.div_unique _ _ _ 1); lia.
  - apply (Z.div_unique _ _ _ 0); lia.
Qed.

Lemma iter_pos_shr p : forall r, 0 <= shr_m r ->
  shr_m (SpecFloat.iter_pos shr_1 p r) = shr_m r / 2 ^ Zpos p.
Proof.
  assert (Hd : forall a k, 0 <= a -> 0 <= k -> 0 <= a / 2 ^ k) by (intros; apply Z.div_pos; lia).
  induction p as [p IH|p IH|]; intros r Hr; cbn [SpecFloat.iter_pos].
  - assert (H1 : 0 <= shr_m (shr_1 r)) by (rewrite shr_1_half by exact Hr; apply (Hd _ 1); lia).
    rewrite IH, IH, shr_1_half by (rewrite ?IH; auto with lia). rewrite !Z.div_div by lia. f_equal.
    change 2 with (2 ^ 1) at 1. rewrite <- !Z.pow_add_r by lia. f_equal. lia.
  - rewrite IH, IH by (rewrite ?IH; auto with lia). rewrite Z.div_div by lia. f_equal.
    rewrite <- Z.pow_add_r by lia. f_equal. lia.
  - rewrite shr_1_half by exact Hr. reflexivity.
Qed.

(** [shr_fexp] shifts down to the exponent of the format. *)
Definition exponent32 (e : Z) : Z := Z.max (e - 24) (-149).

Lemma shr_fexp_spec m e l : 0 <= m ->
  let n := exponent32 (Zdigits2 m + e) - e in
  let '(r, e') := shr_fexp f32_prec f32_emax m e l in
  (0 < n -> shr_m r = m / 2 ^ n /\ e' = e + n) /\ (n <= 0 -> shr_m r = m /\ e' = e).
Proof.
  intros Hm n. unfold shr_fexp, shr. change (fexp f32_prec f32_emax (Zdigits2 m + e)) with (exponent32 (Zdigits2 m + e)).
  fold n. assert (Hr : shr_m (shr_record_of_loc m l) = m) by (destruct l as [|[]]; reflexivity).
  destruct n as [|p|p]; split; intros Hn; try lia; auto.
  rewrite iter_pos_shr by (rewrite Hr; exact Hm). rewrite Hr. auto.
Qed.

Lemma Zdigits2_bounds m : 0 < m -> 0 < Zdigits2 m /\ 2 ^ (Zdigits2 m - 1) <= m < 2 ^ Zdigits2 m.
Proof. destruct m as [|p|p]; try lia. intros _. split; [simpl; lia|apply digits2_bounds]. Qed.

Lemma Zdigits2_le m d : 0 < m -> 0 <= d -> m < 2 ^ d -> Zdigits2 m <= d.
Proof. destruct m as [|p|p]; try lia. intros _. apply digits2_le. Qed.

Lemma Zdigits2_ge m d : 0 < m -> 2 ^ d <= m -> d < Zdigits2 m.
Proof.
  intros Hm H. destruct (Zdigits2_bounds m Hm) as [Hp Hb].
  destruct (Z.lt_ge_cases d 0); [lia|]. apply (Z.pow_lt_mono_r_iff 2); lia.
Qed.

(** The mantissa after the first shift and its rounding: at most 24 digits,
    all 24 unless the exponent is the least, or one above. *)
Lemma rounded_mantissa m e m' : 0 < m -> e <= exponent32 (Zdigits2 m + e) ->
  let e1 := exponent32 (Zdigits2 m + e) in
  m / 2 ^ (e1 - e) <= m' <= m / 2 ^ (e1 - e) + 1 ->
  0 <= m' <= 2 ^ 24 /\ (-149 < e1 -> 2 ^ 23 <= m').
Proof.
  intros Hm He e1 Hm'. destruct (Zdigits2_bounds m Hm) as [Hd Hb]. set (d := Zdigits2 m) in *.
  assert (Hn : 0 < 2 ^ (e1 - e)) by (apply Z.pow_pos_nonneg; unfold e1; lia).
  assert (Hup : m / 2 ^ (e1 - e) < 2 ^ 24).
  { apply Z.div_lt_upper_bound; [lia|]. apply (Z.lt_le_trans _ (2 ^ d)); [lia|].
    rewrite <- Z.pow_add_r by (unfold e1; lia). apply Z.pow_le_mono_r; unfold e1, exponent32; lia. }
  pose proof (Z.div_pos m (2 ^ (e1 - e)) ltac:(lia) ltac:(lia)). split; [lia|]. intros Hlow.
  apply (Z.le_trans _ (m / 2 ^ (e1 - e))); [|lia]. apply Z.div_le_lower_bound; [lia|].
  apply (Z.le_trans _ (2 ^ (d - 1))); [|lia]. rewrite <- Z.pow_add_r by (unfold e1; lia).
  apply Z.pow_le_mono_r; unfold e1, exponent32 in *; lia.
Qed.

Lemma round_aux_valid s m e : 0 < m -> e <= exponent32 (Zdigits2 m + e) ->
  valid32 (binary_round_aux f32_prec f32_emax s m e loc_Exact) = true.
Proof.
  intros Hm He. unfold binary_round_aux.
  pose proof (shr_fexp_spec m e loc_Exact ltac:(lia)) as K1. destruct (shr_fexp _ _ m e _) as [r1 e1'].
  set (e1 := exponent32 (Zdigits2 m + e)) in *. cbv zeta in K1.
  assert (E1 : e1' = e1 /\ shr_m r1 = m / 2 ^ (e1 - e)).
  { destruct (Z.eq_dec e1 e) as [Ee|Ee].
    - destruct K1 as [_ K1]. destruct K1 as [-> ->]; [lia|]. rewrite Ee, Z.sub_diag, Z.div_1_r. auto.
    - destruct K1 as [K1 _]. destruct K1 as [-> ->]; [lia|]. split; [lia|reflexivity]. }
  destruct E1 as [-> Er].
  assert (Hmm : shr_m r1 <= round_nearest_even (shr_m r1) (loc_of_shr_record r1) <= shr_m r1 + 1).
  { unfold round_nearest_even. destruct (loc_of_shr_record r1) as [|[]]; try (destruct (Z.even _)); lia. }
  set (m' := round_nearest_even _ _) in *. rewrite Er in Hmm.
  destruct (rounded_mantissa m e m' Hm He Hmm) as [Hb Hlow]. fold e1 in Hlow.
  assert (Hmin : -149 <= e1) by (unfold e1, exponent32; lia).
  pose proof (shr_fexp_spec m' e1 loc_Exact ltac:(lia)) as K2. destruct (shr_fexp _ _ m' e1 _) as [r2 e2].
  cbv zeta in K2.
  assert (Hfin : forall p, shr_m r2 = Zpos p -> exponent32 (Zpos (digits2_pos p) + e2) = e2).
  { intros p Ep. destruct (Z.eq_dec m' (2 ^ 24)) as [Et|Et].
    - assert (Hd : Zdigits2 m' = 25) by (rewrite Et; reflexivity). rewrite Hd in K2.
      destruct K2 as [K2 _]. destruct K2 as [K2 ->]; [unfold exponent32; lia|].
      replace (exponent32 (25 + e1) - e1) with 1 in * by (unfold exponent32; lia).
      rewrite Et in K2. change (2 ^ 24 / 2 ^ 1) with 8388608 in K2. rewrite Ep in K2. injection K2 as ->.
      change (Zpos (digits2_pos 8388608)) with 24. unfold exponent32. lia.
    - destruct (Z.eq_dec m' 0) as [E0|E0].
      { exfalso. rewrite E0 in K2. cbn [Zdigits2] in K2. destruct K2 as [_ K2]. destruct K2 as [K2 _]; [unfold exponent32; lia|]. congruence. }
      pose proof (Zdigits2_le m' 24 ltac:(lia) ltac:(lia) ltac:(lia)) as Hd.
      destruct K2 as [_ K2]. destruct K2 as [K2 ->]; [unfold exponent32; lia|].
      assert (Em : Zpos (digits2_pos p) = Zdigits2 m') by (rewrite <- K2, Ep; reflexivity). rewrite Em.
      destruct (Z.eq_dec e1 (-149)) as [Ee|Ee]; [unfold exponent32; lia|].
      pose proof (Zdigits2_ge m' 23 ltac:(lia) ltac:(lia)). unfold exponent32. lia. }
  destruct (shr_m r2) as [|p|p] eqn:Ep; [reflexivity| |reflexivity].
  destruct (Z.leb_spec e2 (f32_emax - f32_prec)) as [Hle|]; [|reflexivity].
  cbn [valid32 valid_binary]. unfold valid32, valid_binary, bounded, canonical_mantissa. apply andb_true_iff. split.
  - apply Z.eqb_eq. apply (Hfin p eq_refl).
  - apply Z.leb_le. exact Hle.
Qed.

Lemma valid32_exponent s m e : valid32 (S754_finite s m e) = true -> exponent32 (Zpos (digits2_pos m) + e) = e.
Proof. intros H. apply andb_true_iff in H as [H _]. apply Z.eqb_eq in H. exact H. Qed.

Lemma SFmul_valid f g : valid32 f = true -> valid32 g = true -> valid32 (SFmul f32_prec f32_emax f g) = true.
Proof.
  intros Hf Hg. destruct f as [s|s| |s m e], g as [s'|s'| |s' m' e']; try reflexivity.
  apply valid32_exponent in Hf, Hg. apply round_aux_valid; [lia|].
  pose proof (digits2_bounds m) as Hm. pose proof (digits2_bounds m') as Hm'.
  set (d := Zpos (digits2_pos m)) in *. set (d' := Zpos (digits2_pos m')) in *.
  assert (0 < d /\ 0 < d') by (unfold d, d'; lia).
  assert (Hdd : d + d' - 2 < Zdigits2 (Zpos (m * m'))).
  { apply Zdigits2_ge; [lia|]. replace (d + d' - 2) with ((d - 1) + (d' - 1)) by lia. rewrite Z.pow_add_r by lia. nia. }
  unfold exponent32 in *. lia.
Qed.
