(* ===== verification/Alu.v ===== *)
(** * ALU operations (src/x/ndarray/op.go, cpu.go, expr.go)

    The 21 operations on 32-bit words, with the type discipline that
    expr.go imposes when an operation is built.  The file proves that every
    operation maps words to words, that it respects the equivalence "equal,
    or both a float NaN" ([weq]), and the algebraic laws the optimizer
    rewrites with. *)
From Stdlib Require Import ZArith Lia.
From Stdlib Require Import Floats.SpecFloat.
From stdpp Require Import base numbers option list.
From S2P Require Import Prelude Float.

Local Open Scope Z_scope.

(** ** Types and operations *)

(** [DNone] is the zero value. *)
Inductive DType : Type := DNone | F32 | I32 | U8.

#[export] Instance DType_eq_dec : EqDecision DType.
Proof. solve_decision. Defined.

(** [ONone] is the zero value. *)
Inductive Op : Type :=
| ONone | EXP2 | LOG2 | CAST | SIN | SQRT | RECIP | NEG
| ADD | MUL | IDIV | MAX | MOD | CMPLT | CMPNE | XOR | SHL | SHR | OR | AND
| WHERE | MultiplyAccumulate.

#[export] Instance Op_eq_dec : EqDecision Op.
Proof. solve_decision. Defined.

Definition dtype_size (d : DType) : Z :=
  match d with
  | U8 => 1
  | F32 | I32 => 4
  | DNone => 0
  end.

Definition arity (op : Op) : Z :=
  match op with
  | EXP2 | LOG2 | CAST | SIN | SQRT | RECIP | NEG => 1
  | ADD | MUL | IDIV | MAX | MOD | CMPLT | CMPNE | XOR | SHL | SHR | OR | AND => 2
  | WHERE | MultiplyAccumulate => 3
  | ONone => -1
  end.

Definition unaryType (op : Op) (a : DType) : res DType :=
  match op with
  | EXP2 | LOG2 | SIN | SQRT | RECIP =>
      if negb (bool_decide (a = F32)) then Err ErrType else Ok F32
  | NEG | CAST =>
      if negb (bool_decide (a = F32)) && negb (bool_decide (a = I32)) && negb (bool_decide (a = U8))
      then Err ErrType else Ok a
  | _ => Err ErrOp
  end.

Definition binaryType (op : Op) (a b : DType) : res DType :=
  if negb (bool_decide (a = b)) then Err ErrType else
  match op with
  | ADD | MUL | MAX =>
      if negb (bool_decide (a = F32)) && negb (bool_decide (a = I32)) then Err ErrType else Ok a
  | IDIV | MOD | XOR | SHL | SHR | OR | AND =>
      if negb (bool_decide (a = I32)) then Err ErrType else Ok I32
  | CMPLT | CMPNE =>
      if negb (bool_decide (a = F32)) && negb (bool_decide (a = I32)) then Err ErrType else Ok I32
  | _ => Err ErrOp
  end.

(** ** Evaluation *)

(** [packU8] saturates. *)
Definition packU8 (v : Z) : Z := if v <? 0 then 0 else if 255 <? v then 255 else v.

(** Go's shifts of an int32 by a uint32 count. *)
Definition shl32 (ia : Z) (count : Z) : Z := if 32 <=? count then 0 else u32 (Z.shiftl ia count).
Definition shr32 (ia : Z) (count : Z) : Z := u32 (Z.shiftr ia (Z.min count 32)).

Definition bool_word (b : bool) : Z := if b then 1 else 0.

Section alu.
Context {E : FloatEnv}.

(** The body of [evalALU] on the words it reads; an operand the arity does
    not reach is 0. *)
Definition alu (op : Op) (dtype inType : DType) (a b c : Z) : Z :=
  let b := if 1 <? arity op then b else 0 in
  let c := if 2 <? arity op then c else 0 in
  let fa := unpack a in
  let fb := unpack b in
  let fc := unpack c in
  let ia := i32 a in
  let ib := i32 b in
  let ic := i32 c in
  let asFloat := bool_decide (inType = F32) in
  let packFloat := packFloat [a; b; c] in
  match op with
  | EXP2 => packFloat (narrow (math_Exp2 (widen fa)))
  | LOG2 => packFloat (narrow (math_Log2 (widen fa)))
  | SIN => packFloat (narrow (math_Sin (widen fa)))
  | SQRT => packFloat (narrow (SFsqrt 53 1024 (widen fa)))
  | RECIP => packFloat (SFdiv f32_prec f32_emax f32_one fa)
  | NEG => if asFloat then packFloat (SFopp fa) else u32 (- ia)
  | CAST =>
      match dtype with
      | U8 =>
          if asFloat then packU8 (i32 (int_of_float fa))
          else if bool_decide (inType = U8) then a else packU8 ia
      | I32 =>
          if asFloat then int_of_float fa
          else if bool_decide (inType = U8) then a mod 256 else a
      | _ =>
          if asFloat then a
          else if bool_decide (inType = U8) then packFloat (float_of_int (a mod 256))
          else packFloat (float_of_int ia)
      end
  | ADD => if asFloat then packFloat (SFadd f32_prec f32_emax fa fb) else u32 (ia + ib)
  | MUL => if asFloat then packFloat (SFmul f32_prec f32_emax fa fb) else u32 (ia * ib)
  | IDIV => if ib =? 0 then 0 else u32 (Z.quot ia ib)
  | MAX => if asFloat then packFloat (float_max fa fb) else u32 (Z.max ia ib)
  | MOD => if ib =? 0 then 0 else u32 (Z.rem ia ib)
  | CMPLT => bool_word (if asFloat then SFltb fa fb else ia <? ib)
  | CMPNE => bool_word (if asFloat then negb (SFeqb fa fb) else negb (ia =? ib))
  | XOR => u32 (Z.lxor ia ib)
  | SHL => shl32 ia b
  | SHR => shr32 ia b
  | OR => u32 (Z.lor ia ib)
  | AND => u32 (Z.land ia ib)
  | WHERE => if negb (ia =? 0) then b else c
  | MultiplyAccumulate =>
      if asFloat then packFloat (SFadd f32_prec f32_emax (SFmul f32_prec f32_emax fa fb) fc)
      else u32 (ia * ib + ic)
  | ONone => 0
  end.
End alu.

(** The result type of an operation on operands of type [t], when expr.go
    builds it.  A cast is built with its own target. *)
Definition op_type (op : Op) (t d : DType) : Prop :=
  match op with
  | EXP2 | LOG2 | SIN | SQRT | RECIP => t = F32 /\ d = F32
  | NEG => (t = F32 \/ t = I32 \/ t = U8) /\ d = t
  | CAST => (t = F32 \/ t = I32 \/ t = U8) /\ (d = F32 \/ d = I32 \/ d = U8)
  | ADD | MUL | MAX => (t = F32 \/ t = I32) /\ d = t
  | IDIV | MOD | XOR | SHL | SHR | OR | AND => t = I32 /\ d = I32
  | CMPLT | CMPNE => (t = F32 \/ t = I32) /\ d = I32
  | MultiplyAccumulate => d = t
  | WHERE | ONone => False
  end.

(** ** Words in, words out *)

Lemma packU8_ok v : word_ok (packU8 v).
Proof. unfold packU8, word_ok, two32. destruct (Z.ltb_spec v 0), (Z.ltb_spec 255 v); lia. Qed.

Lemma bool_word_ok b : word_ok (bool_word b).
Proof. unfold word_ok, two32. destruct b; simpl; lia. Qed.

Lemma zero_ok : word_ok 0.
Proof. unfold word_ok, two32. lia. Qed.

Lemma byte_ok a : word_ok (a mod 256).
Proof. unfold word_ok, two32. pose proof (Z.mod_pos_bound a 256 ltac:(lia)). lia. Qed.

#[export] Hint Resolve u32_ok packFloat_ok int_of_float_ok packU8_ok bool_word_ok zero_ok byte_ok : nd.

Lemma alu_ok `{E : FloatEnv} op dtype inType a b c :
  word_ok a -> word_ok b -> word_ok c -> word_ok (alu op dtype inType a b c).
Proof.
  intros Ha Hb Hc. unfold alu, shl32, shr32.
  destruct op; cbn [arity Z.ltb Z.compare Pos.compare Pos.compare_cont]; eauto with nd.
  all: repeat match goal with |- word_ok (if ?x then _ else _) => destruct x
                            | |- word_ok (match ?x with _ => _ end) => destruct x end; eauto with nd.
Qed.

(** ** Equality up to the payload of a NaN *)

(** [weq d a b]: registers [a] and [b] of type [d] hold the same value. *)
Definition weq (d : DType) (a b : Z) : Prop :=
  a = b \/ (d = F32 /\ is_nan a = true /\ is_nan b = true).

#[export] Instance weq_equivalence d : Equivalence (weq d).
Proof.
  split.
  - intros a. left. reflexivity.
  - intros a b [->|(? & ? & ?)]; [left|right]; auto.
  - intros a b c [->|(? & ? & ?)] [->|(? & ? & ?)]; unfold weq; auto.
Qed.

Lemma weq_unpack d a b : weq d a b -> unpack a = unpack b.
Proof.
  intros [->|(_ & Ha & Hb)]; [reflexivity|]. unfold is_nan in *.
  destruct (unpack a), (unpack b); congruence.
Qed.

Lemma weq_int d a b : d <> F32 -> weq d a b -> a = b.
Proof. intros H [?|(? & _)]; [assumption|contradiction]. Qed.

Section laws.
Context {E : FloatEnv}.

Lemma packFloat_weq args args' f : weq F32 (packFloat args f) (packFloat args' f).
Proof.
  destruct f as [s|s| |s m e]; try (left; apply packFloat_args; discriminate).
  right. rewrite !packFloat_nan. auto.
Qed.

(** Every operation respects the equivalence. *)
Lemma alu_weq op t d a b c a' b' c' :
  op_type op t d -> weq t a a' -> weq t b b' -> weq t c c' ->
  weq d (alu op d t a b c) (alu op d t a' b' c').
Proof.
  intros Ht Ha Hb Hc. destruct (decide (t = F32)) as [->|Hne].
  2: { apply weq_int in Ha, Hb, Hc; [|assumption..]. subst. reflexivity. }
  pose proof (weq_unpack _ _ _ Ha) as Ea. pose proof (weq_unpack _ _ _ Hb) as Eb.
  pose proof (weq_unpack _ _ _ Hc) as Ec.
  destruct op; cbn [op_type] in Ht; try contradiction;
    unfold alu; cbn [arity Z.ltb Z.compare Pos.compare Pos.compare_cont];
    rewrite ?(bool_decide_true (F32 = F32)) by reflexivity; rewrite ?Ea, ?Eb, ?Ec.
  all: try (assert (d = F32) as -> by (intuition congruence); apply packFloat_weq).
  all: try (destruct Ht as [[Ht|Ht] _]; discriminate Ht).
  all: try (destruct Ht as [Ht _]; discriminate Ht).
  all: try (left; reflexivity).
  destruct Ht as [_ [->|[->| ->]]]; [exact Ha|left; reflexivity|left; reflexivity].
Qed.

(** [WHERE] takes a condition and two operands of the result type. *)
Lemma alu_where_weq d p a b a' b' :
  weq d a a' -> weq d b b' -> weq d (alu WHERE d I32 p a b) (alu WHERE d I32 p a' b').
Proof. intros Ha Hb. unfold alu. cbn. destruct (i32 p =? 0); assumption. Qed.

(** *** The laws behind the rewrite rules *)

Ltac words := unfold alu; cbn [arity Z.ltb Z.compare Pos.compare Pos.compare_cont];
  rewrite ?bool_decide_false by discriminate; rewrite ?bool_decide_true by reflexivity.

Lemma alu_add_comm a b : alu ADD I32 I32 a b 0 = alu ADD I32 I32 b a 0.
Proof using. words. f_equal. lia. Qed.

Lemma alu_mul_comm a b : alu MUL I32 I32 a b 0 = alu MUL I32 I32 b a 0.
Proof using. words. f_equal. lia. Qed.

Lemma i32_u32_mod v : exists k, i32 (u32 v) = v + k * two32.
Proof using.
  destruct (i32_mod (u32 v) (u32_ok v)) as [k Hk]. exists (k - v / two32). rewrite Hk.
  unfold u32. pose proof (Z.div_mod v two32 ltac:(unfold two32; lia)). lia.
Qed.

Lemma alu_add_assoc x c1 c2 :
  alu ADD I32 I32 (alu ADD I32 I32 x c1 0) c2 0 = alu ADD I32 I32 x (alu ADD I32 I32 c1 c2 0) 0.
Proof using.
  words. destruct (i32_u32_mod (i32 x + i32 c1)) as [k ->]. destruct (i32_u32_mod (i32 c1 + i32 c2)) as [j ->].
  apply (u32_cong _ _ (k - j)). lia.
Qed.

Lemma alu_mul_assoc x c1 c2 :
  alu MUL I32 I32 (alu MUL I32 I32 x c1 0) c2 0 = alu MUL I32 I32 x (alu MUL I32 I32 c1 c2 0) 0.
Proof using.
  words. destruct (i32_u32_mod (i32 x * i32 c1)) as [k ->]. destruct (i32_u32_mod (i32 c1 * i32 c2)) as [j ->].
  apply (u32_cong _ _ (k * i32 c2 - i32 x * j)). ring.
Qed.

Lemma alu_add_zero x : word_ok x -> alu ADD I32 I32 x 0 0 = x.
Proof using. intros H. words. change (i32 0) with 0. rewrite Z.add_0_r. apply u32_i32, H. Qed.

Lemma alu_mul_one x : word_ok x -> alu MUL I32 I32 x 1 0 = x.
Proof using. intros H. words. change (i32 1) with 1. rewrite Z.mul_1_r. apply u32_i32, H. Qed.

Definition float_one : Z := 1065353216.

Lemma alu_fmul_one x : word_ok x -> weq F32 (alu MUL F32 F32 x float_one 0) x.
Proof using.
  intros H. words. change (unpack float_one) with f32_one.
  rewrite SFmul_one_r by (apply unpack_valid, H).
  destruct (is_nan x) eqn:En.
  - right. split; [reflexivity|]. split; [|exact En]. unfold is_nan in En.
    destruct (unpack x); try discriminate En. apply packFloat_nan.
  - left. apply packFloat_unpack; assumption.
Qed.

Lemma alu_fmul_comm a b : weq F32 (alu MUL F32 F32 a b 0) (alu MUL F32 F32 b a 0).
Proof using. words. rewrite SFmul_comm. apply packFloat_weq. Qed.

Lemma alu_max_same t x : t = F32 \/ t = I32 -> word_ok x -> weq t (alu MAX t t x x 0) x.
Proof using.
  intros [-> | ->] H; words.
  - rewrite float_max_same. destruct (is_nan x) eqn:En.
    + right. split; [reflexivity|]. split; [|exact En]. unfold is_nan in En.
      destruct (unpack x); try discriminate En. apply packFloat_nan.
    + left. apply packFloat_unpack; assumption.
  - left. rewrite Z.max_id. apply u32_i32, H.
Qed.

Lemma alu_neg_neg t x : t = F32 \/ t = I32 -> word_ok x ->
  weq t (alu NEG t t (alu NEG t t x 0 0) 0 0) x.
Proof using.
  intros [-> | ->] H; words.
  - rewrite unpack_packFloat by (apply SFopp_valid, unpack_valid, H). rewrite SFopp_involutive.
    destruct (is_nan x) eqn:En.
    + right. split; [reflexivity|]. split; [|exact En]. unfold is_nan in En.
      destruct (unpack x); try discriminate En. apply packFloat_nan.
    + left. apply packFloat_unpack; assumption.
  - left. destruct (i32_u32_mod (- i32 x)) as [k ->].
    rewrite <- (u32_i32 x H) at 2. apply (u32_cong _ _ (- k)). lia.
Qed.

Lemma alu_where_zero d a b : alu WHERE d I32 0 a b = b.
Proof using. reflexivity. Qed.

Lemma alu_where_one d a b : alu WHERE d I32 1 a b = a.
Proof using. reflexivity. Qed.

Lemma alu_where_same d p a : alu WHERE d I32 p a a = a.
Proof using. unfold alu. cbn. destruct (i32 p =? 0); reflexivity. Qed.

Lemma alu_shl_zero x : word_ok x -> alu SHL I32 I32 x 0 0 = x.
Proof using. intros H. words. unfold shl32. cbn [Z.leb Z.compare]. rewrite Z.shiftl_0_r. apply u32_i32, H. Qed.

Lemma alu_shr_zero x : word_ok x -> alu SHR I32 I32 x 0 0 = x.
Proof using. intros H. words. unfold shr32. cbn [Z.min Z.compare]. rewrite Z.shiftr_0_r. apply u32_i32, H. Qed.

Lemma alu_idiv_one x : word_ok x -> alu IDIV I32 I32 x 1 0 = x.
Proof using. intros H. words. change (i32 1) with 1. cbn [Z.eqb]. rewrite Z.quot_1_r. apply u32_i32, H. Qed.

Lemma alu_or_zero x : word_ok x -> alu OR I32 I32 x 0 0 = x.
Proof using. intros H. words. change (i32 0) with 0. rewrite Z.lor_0_r. apply u32_i32, H. Qed.

Lemma alu_xor_zero x : word_ok x -> alu XOR I32 I32 x 0 0 = x.
Proof using. intros H. words. change (i32 0) with 0. rewrite Z.lxor_0_r. apply u32_i32, H. Qed.

Lemma alu_and_ones x : word_ok x -> alu AND I32 I32 x 4294967295 0 = x.
Proof using. intros H. words. change (i32 4294967295) with (-1). rewrite Z.land_m1_r. apply u32_i32, H. Qed.

Lemma alu_bit_comm op a b : op = OR \/ op = XOR \/ op = AND -> alu op I32 I32 a b 0 = alu op I32 I32 b a 0.
Proof using.
  intros [->|[->| ->]]; words; f_equal; [apply Z.lor_comm|apply Z.lxor_comm|apply Z.land_comm].
Qed.

(** Operands the arity does not reach are not read. *)
Lemma alu_unread op d t a b c c' : arity op <= 2 -> alu op d t a b c = alu op d t a b c'.
Proof using.
  intros H. unfold alu. replace (2 <? arity op) with false by lia. reflexivity.
Qed.
End laws.
