(* ===== verification/Expr.v ===== *)
(** * Expression graphs (src/x/ndarray/expr.go)

    A tensor is a node of a graph of constants, buffer views, coordinates and
    ALU operations.  Nodes are shared and compared by pointer, so the model
    keeps them in an arena: a pointer is an index, a new node is appended,
    and the sources of a node are older than the node.  The file models the
    constructors of expr.go with their checks, gives a graph its meaning (a
    function from coordinates to words for every node) and proves what the
    constructors build. *)
From Stdlib Require Import ZArith Lia.
From stdpp Require Import base numbers option list.
From S2P Require Import Prelude Float Alu Shape View Tracker.

Local Open Scope Z_scope.

(** ** Data *)

Inductive kind : Type := kindConst | kindInput | kindCoord | kindOp.

#[export] Instance kind_eq_dec : EqDecision kind.
Proof. solve_decision. Defined.

(** One tracker on the path from the kernel output to a load.  [None] is a
    nil origin. *)
Record stStep : Type := mkStep { st_tr : Tracker; st_origin : option Shape }.

#[export] Instance stStep_eq_dec : EqDecision stStep.
Proof. solve_decision. Defined.

Record buffer : Type := mkBuffer { raw : list Z; buf_dtype : DType }.

Record node : Type := mkNode {
  n_kind : kind;
  n_op : Op;
  n_dtype : DType;
  n_sources : list nat;
  n_tracker : Tracker;
  n_origin : option Shape;
  n_chain : list stStep;
  n_buf : option nat;
  n_slot : Z;
  n_bits : Z;
  n_err : option err
}.

(** [&node{}] *)
Definition zero_node : node :=
  mkNode kindConst ONone DNone [] no_tracker None [] None 0 0 None.

Definition set_tracker (n : node) (t : Tracker) (origin : option Shape) : node :=
  mkNode (n_kind n) (n_op n) (n_dtype n) (n_sources n) t origin (n_chain n) (n_buf n)
    (n_slot n) (n_bits n) (n_err n).
Definition set_chain (n : node) (chain : list stStep) : node :=
  mkNode (n_kind n) (n_op n) (n_dtype n) (n_sources n) (n_tracker n) (n_origin n) chain (n_buf n)
    (n_slot n) (n_bits n) (n_err n).
Definition set_sources (n : node) (sources : list nat) : node :=
  mkNode (n_kind n) (n_op n) (n_dtype n) sources (n_tracker n) (n_origin n) (n_chain n) (n_buf n)
    (n_slot n) (n_bits n) (n_err n).
Definition set_dtype (n : node) (dtype : DType) : node :=
  mkNode (n_kind n) (n_op n) dtype (n_sources n) (n_tracker n) (n_origin n) (n_chain n) (n_buf n)
    (n_slot n) (n_bits n) (n_err n).

(** The store: nodes, buffers and the table of interned splats. *)
Record heap : Type := mkHeap {
  h_nodes : list node;
  h_bufs : list buffer;
  h_splats : list ((Z * DType) * nat)
}.

(** *** Buffers *)

Definition cells (b : buffer) : Z :=
  let n := dtype_size (buf_dtype b) in
  if n =? 0 then 0 else Z.quot (Z.of_nat (length (raw b))) n.

Definition byte_at (l : list Z) (i : Z) : Z := nth (Z.to_nat i) l 0.

(** The little-endian word of a cell; 0 outside the buffer. *)
Definition word (b : buffer) (i : Z) : Z :=
  if i <? 0 then 0 else
  match buf_dtype b with
  | U8 => if Z.of_nat (length (raw b)) <=? i then 0 else byte_at (raw b) i
  | _ =>
      let off := i * 4 in
      if Z.of_nat (length (raw b)) <? off + 4 then 0
      else Z.lor (byte_at (raw b) off)
             (Z.lor (Z.shiftl (byte_at (raw b) (off + 1)) 8)
                (Z.lor (Z.shiftl (byte_at (raw b) (off + 2)) 16)
                   (Z.shiftl (byte_at (raw b) (off + 3)) 24)))
  end.

(** A loaded word; a nil buffer reads 0. *)
Definition buf_word (bufs : list buffer) (b : option nat) (i : Z) : Z :=
  match b ≫= (fun l => bufs !! l) with
  | None => 0
  | Some b => word b i
  end.

(** *** Tables over the arena

    A recursive function of a node and its sources is a table built from the
    oldest node on: [f] gets the entries of older nodes. *)
Definition tabulate {A} (d : A) (f : (nat -> A) -> node -> A) (ns : list node) : list A :=
  fold_left (fun acc n => acc ++ [f (fun l => nth l acc d) n]) ns [].

Definition entry {A} (d : A) (f : (nat -> A) -> node -> A) (ns : list node) (l : nat) : A :=
  nth l (tabulate d f ns) d.

(** *** Reading nodes *)

Definition get (ns : list node) (l : nat) : node := nth l ns zero_node.

Definition viewed (n : node) : bool :=
  match t_views (n_tracker n) with
  | [] => false
  | _ =>
      match n_origin n with
      | None => negb (Contiguous (n_tracker n))
      | Some o => negb (Contiguous (n_tracker n)) || negb (bool_decide (t_dims (n_tracker n) = o))
      end
  end.

(** [Shape] of a node, given that of its sources. *)
Fixpoint first_shape (ss : list (option Shape)) : option Shape :=
  match ss with
  | [] => None
  | None :: ss' => first_shape ss'
  | Some s :: _ => Some s
  end.

Definition node_shape (shape : nat -> option Shape) (n : node) : option Shape :=
  match n_err n with
  | Some _ => None
  | None =>
      match n_kind n with
      | kindConst => match t_views (n_tracker n) with [] => None | _ => t_Shape (n_tracker n) end
      | kindInput =>
          match t_Shape (n_tracker n) with
          | Some [] | None => None
          | Some s => Some s
          end
      | kindCoord => t_Shape (n_tracker n)
      | kindOp =>
          match t_views (n_tracker n) with
          | [] => first_shape (map shape (n_sources n))
          | _ => t_Shape (n_tracker n)
          end
      end
  end.

Definition nShape (ns : list node) (l : nat) : option Shape := entry None node_shape ns l.

(** ** Constructors

    They allocate, so they are state transformers of the heap; a pointer
    argument may be nil. *)
Definition M (A : Type) : Type := heap -> A * heap.

Definition alloc (n : node) : M nat :=
  fun h => (length (h_nodes h), mkHeap (h_nodes h ++ [n]) (h_bufs h) (h_splats h)).

Definition failed (e : err) : M nat :=
  alloc (mkNode kindConst ONone DNone [] no_tracker None [] None 0 0 (Some e)).

(** A Go number: the word of a float32, an int32, a uint8. *)
Inductive Number : Type := NumF32 (bits : Z) | NumI32 (v : Z) | NumU8 (v : Z).

Definition dtypeOf (v : Number) : DType :=
  match v with NumF32 _ => F32 | NumI32 _ => I32 | NumU8 _ => U8 end.

Definition bitsOf (v : Number) : Z :=
  match v with NumF32 bits => bits | NumI32 v => u32 v | NumU8 v => u32 v end.

Definition is_number_type (d : DType) : bool :=
  bool_decide (d = F32) || bool_decide (d = I32) || bool_decide (d = U8).

Definition input (buf : option nat) (tracker : Tracker) (dtype : DType) : M nat :=
  match buf, t_views tracker with
  | Some _, _ :: _ =>
      if negb (is_number_type dtype) then failed ErrOp
      else alloc (mkNode kindInput ONone dtype [] tracker None [] buf 0 0 None)
  | _, _ => failed ErrOp
  end.

Fixpoint splat_lookup (key : Z * DType) (table : list ((Z * DType) * nat)) : option nat :=
  match table with
  | [] => None
  | (k, l) :: table' => if bool_decide (k = key) then Some l else splat_lookup key table'
  end.

Definition internConst (dtype : DType) (bits : Z) : M nat :=
  fun h =>
    match splat_lookup (bits, dtype) (h_splats h) with
    | Some l => (l, h)
    | None =>
        let '(l, h) := alloc (mkNode kindConst ONone dtype [] no_tracker None [] None 0 bits None) h in
        (l, mkHeap (h_nodes h) (h_bufs h) (((bits, dtype), l) :: h_splats h))
    end.

Definition splat (v : Number) : M nat := internConst (dtypeOf v) (bitsOf v).

Definition filled (v : Number) (tracker : Tracker) : M nat :=
  match t_check tracker with
  | Err e => failed e
  | Ok _ => alloc (mkNode kindConst ONone (dtypeOf v) [] tracker None [] None 0 (bitsOf v) None)
  end.

Definition coord (axis : Z) (shape : option Shape) : M nat :=
  match Of shape with
  | Err e => failed e
  | Ok tracker =>
      if (axis <? 0) || (Rank (opt_list shape) <=? axis) then failed ErrAxis
      else alloc (mkNode kindCoord ONone I32 [] tracker shape [] None axis 0 None)
  end.

Fixpoint first_err (ns : list node) (inputs : list nat) : option nat :=
  match inputs with
  | [] => None
  | l :: rest => match n_err (get ns l) with Some _ => Some l | None => first_err ns rest end
  end.

Fixpoint non_nil (inputs : list (option nat)) : option (list nat) :=
  match inputs with
  | [] => Some []
  | None :: _ => None
  | Some l :: rest => match non_nil rest with Some ls => Some (l :: ls) | None => None end
  end.

(** [ready] followed by the rest of the constructor: the first nil or failed
    input is returned as it is. *)
Definition ready (inputs : list (option nat)) (k : list nat -> M nat) : M nat :=
  fun h =>
    match non_nil inputs with
    | None => failed ErrOp h
    | Some ls =>
        match first_err (h_nodes h) ls with
        | Some bad => (bad, h)
        | None => k ls h
        end
    end.

Fixpoint sameShape_loop (ss : list (option Shape)) (shape : option Shape) : res unit :=
  match ss with
  | [] => Ok tt
  | None :: ss' => sameShape_loop ss' shape
  | Some s :: ss' =>
      match shape with
      | None => sameShape_loop ss' (Some s)
      | Some s0 => if Equal s0 s then sameShape_loop ss' shape else Err ErrShape
      end
  end.

Definition sameShape (ns : list node) (ls : list nat) : res unit :=
  sameShape_loop (map (nShape ns) ls) None.

Definition opNode (op : Op) (dtype : DType) (srcs : list nat) : M nat :=
  alloc (mkNode kindOp op dtype srcs no_tracker None [] None 0 0 None).

(** [return failed(err)] on an error, the rest otherwise *)
Definition or_fail {A} (r : res A) (k : A -> M nat) : M nat :=
  match r with Err e => failed e | Ok a => k a end.

Definition type_of (h : heap) (ls : list nat) (i : nat) : DType :=
  n_dtype (get (h_nodes h) (nth i ls 0%nat)).

Definition unary (op : Op) (a : option nat) : M nat :=
  ready [a] (fun ls h =>
    or_fail (unaryType op (type_of h ls 0)) (fun dtype => opNode op dtype ls) h).

Definition binaryOp (op : Op) (a b : option nat) : M nat :=
  ready [a; b] (fun ls h =>
    or_fail (binaryType op (type_of h ls 0) (type_of h ls 1)) (fun dtype =>
    or_fail (sameShape (h_nodes h) ls) (fun _ => opNode op dtype ls)) h).

Definition castNode (a : option nat) (dtype : DType) : M nat :=
  fun h =>
    let '(n, h) := unary CAST a h in
    match n_err (get (h_nodes h) n) with
    | Some _ => (n, h)
    | None =>
        if negb (is_number_type dtype) then failed ErrType h
        else (n, mkHeap (<[n := set_dtype (get (h_nodes h) n) dtype]> (h_nodes h)) (h_bufs h) (h_splats h))
    end.

Definition whereNode (p a b : option nat) : M nat :=
  ready [p; a; b] (fun ls h =>
    if negb (bool_decide (type_of h ls 0 = I32)) || negb (bool_decide (type_of h ls 1 = type_of h ls 2))
    then failed ErrType h
    else or_fail (sameShape (h_nodes h) ls) (fun _ => opNode WHERE (type_of h ls 1) ls) h).

Definition multiplyAccumulateNode (a b c : option nat) : M nat :=
  ready [a; b; c] (fun ls h =>
    if negb (bool_decide (type_of h ls 0 = type_of h ls 1)) || negb (bool_decide (type_of h ls 0 = type_of h ls 2))
    then failed ErrType h
    else or_fail (sameShape (h_nodes h) ls) (fun _ => opNode MultiplyAccumulate (type_of h ls 0) ls) h).

(** The methods that combine constructors. *)
Definition m_bind {A B} (m : M A) (k : A -> M B) : M B := fun h => let '(a, h) := m h in k a h.

Definition nAdd := binaryOp ADD.
Definition nMul := binaryOp MUL.
Definition nIDiv := binaryOp IDIV.
Definition nMax := binaryOp MAX.
Definition nMod := binaryOp MOD.
Definition nCmpLt := binaryOp CMPLT.
Definition nCmpNe := binaryOp CMPNE.
Definition nXor := binaryOp XOR.
Definition nShl := binaryOp SHL.
Definition nShr := binaryOp SHR.
Definition nOr := binaryOp OR.
Definition nAnd := binaryOp AND.
Definition nExp2 := unary EXP2.
Definition nLog2 := unary LOG2.
Definition nSin := unary SIN.
Definition nSqrt := unary SQRT.
Definition nRecip := unary RECIP.
Definition nNeg := unary NEG.

Definition nDiv (n b : option nat) : M nat := m_bind (nRecip b) (fun r => nMul n (Some r)).

Definition nEqual (n b : option nat) : M nat :=
  m_bind (nCmpNe n b) (fun c => m_bind (splat (NumI32 1)) (fun one => nCmpNe (Some c) (Some one))).

Definition nGreaterEqual (n b : option nat) : M nat :=
  m_bind (nCmpLt n b) (fun c => m_bind (splat (NumI32 1)) (fun one => nCmpNe (Some c) (Some one))).

(** ** Tables *)

Definition acyclic (ns : list node) : Prop :=
  forall l n, ns !! l = Some n -> Forall (fun s => s < l)%nat (n_sources n).

(** [f] reads only the entries of the sources, up to [R]. *)
Definition local {A} (R : A -> A -> Prop) (f : (nat -> A) -> node -> A) : Prop :=
  forall g g' n, (forall s, s ∈ n_sources n -> R (g s) (g' s)) -> R (f g n) (f g' n).

Section tables.
Context {A : Type} (d : A) (f : (nat -> A) -> node -> A).

Lemma tabulate_snoc ns n :
  tabulate d f (ns ++ [n]) = tabulate d f ns ++ [f (entry d f ns) n].
Proof. unfold tabulate at 1. rewrite fold_left_app. reflexivity. Qed.

Lemma length_tabulate ns : length (tabulate d f ns) = length ns.
Proof.
  induction ns as [|n ns IH] using rev_ind; [reflexivity|].
  rewrite tabulate_snoc, !length_app. simpl. lia.
Qed.

Lemma entry_app ns ns' l : (l < length ns)%nat -> entry d f (ns ++ ns') l = entry d f ns l.
Proof.
  intros Hl. induction ns' as [|n ns' IH] using rev_ind; [rewrite app_nil_r; reflexivity|].
  unfold entry in *. rewrite app_assoc, tabulate_snoc, app_nth1; [exact IH|].
  rewrite length_tabulate, length_app. lia.
Qed.

Lemma entry_unfold (R : A -> A -> Prop) `{!Reflexive R} ns l n :
  acyclic ns -> local R f -> ns !! l = Some n -> R (entry d f ns l) (f (entry d f ns) n).
Proof.
  intros Ha Hf Hl. pose proof (lookup_lt_Some _ _ _ Hl) as Hlt.
  rewrite <- (take_drop_middle _ _ _ Hl).
  replace (take l ns ++ n :: drop (S l) ns) with ((take l ns ++ [n]) ++ drop (S l) ns)
    by (rewrite <- app_assoc; reflexivity).
  assert (Hlen : length (take l ns) = l) by (rewrite length_take; lia).
  rewrite entry_app by (rewrite length_app; simpl; lia).
  unfold entry at 1. rewrite tabulate_snoc.
  replace l with (length (tabulate d f (take l ns))) at 1 by (rewrite length_tabulate; exact Hlen).
  rewrite nth_middle. apply Hf. intros s Hs.
  assert (s < l)%nat. { specialize (Ha l n Hl). rewrite Forall_forall in Ha. auto. }
  rewrite <- app_assoc, entry_app by lia. reflexivity.
Qed.
End tables.

(** Two arenas that agree up to [l] give [l] the same entry. *)
Lemma entry_agree {A} (d : A) f f' (R : A -> A -> Prop) `{!Equivalence R} ns ns' :
  acyclic ns -> acyclic ns' -> local R f -> local R f' ->
  (forall l n, ns !! l = Some n -> ns' !! l = Some n) ->
  (forall g l n, ns !! l = Some n -> R (f g n) (f' g n)) ->
  forall l, (l < length ns)%nat -> R (entry d f ns l) (entry d f' ns' l).
Proof.
  intros Ha Ha' Hf Hf' Hsub Hff l. induction l as [l IH] using lt_wf_ind. intros Hl.
  destruct (lookup_lt_is_Some_2 ns l Hl) as [n Hn].
  rewrite (entry_unfold d f R ns l n) by auto.
  rewrite (entry_unfold d f' R ns' l n) by auto.
  rewrite (Hff _ l n Hn). apply Hf'. intros s Hs.
  specialize (Ha l n Hn). rewrite Forall_forall in Ha. specialize (Ha s Hs). apply IH; lia.
Qed.

Lemma local_eq_shape : local eq node_shape.
Proof.
  intros g g' n H. unfold node_shape. destruct (n_err n); [reflexivity|].
  destruct (n_kind n); try reflexivity. destruct (t_views (n_tracker n)); [|reflexivity].
  f_equal. apply map_ext_in. intros s Hs. apply H, list_elem_of_In, Hs.
Qed.

Lemma nShape_unfold ns l n : acyclic ns -> ns !! l = Some n -> nShape ns l = node_shape (nShape ns) n.
Proof. intros Ha Hl. apply (entry_unfold None node_shape eq); auto using local_eq_shape. Qed.

Lemma nShape_app ns ns' l : (l < length ns)%nat -> nShape (ns ++ ns') l = nShape ns l.
Proof. apply entry_app. Qed.

Lemma get_app ns ns' l : (l < length ns)%nat -> get (ns ++ ns') l = get ns l.
Proof. intros H. unfold get. apply app_nth1, H. Qed.

Lemma get_lookup ns l n : ns !! l = Some n -> get ns l = n.
Proof. intros H. unfold get. rewrite nth_lookup, H. reflexivity. Qed.

(** ** Meaning of a graph

    Every node denotes a function from coordinates to words: a view of a
    buffer reads the located cell, an operation computes cell by cell, and a
    view of an operation reads the cell its tracker locates in the
    operation's own shape.  Padding is 0. *)
Section denotation.
Context {E : FloatEnv}.

Definition in_type (ns : list node) (n : node) : DType :=
  match n_sources n with [] => DNone | s :: _ => n_dtype (get ns s) end.

Definition arg (g : nat -> list Z -> Z) (n : node) (i : nat) (c : list Z) : Z :=
  match n_sources n !! i with None => 0 | Some s => g s c end.

(** The operation itself, before its view. *)
Definition op_value (ns : list node) (g : nat -> list Z -> Z) (n : node) (c : list Z) : Z :=
  alu (n_op n) (n_dtype n) (in_type ns n) (arg g n 0 c) (arg g n 1 c) (arg g n 2 c).

Definition node_den (ns : list node) (bufs : list buffer) (g : nat -> list Z -> Z) (n : node)
    (c : list Z) : Z :=
  match n_kind n with
  | kindConst =>
      match t_views (n_tracker n) with
      | [] => n_bits n
      | _ => match t_locate (n_tracker n) c with None => 0 | Some _ => n_bits n end
      end
  | kindInput =>
      match t_locate (n_tracker n) c with None => 0 | Some off => buf_word bufs (n_buf n) off end
  | kindCoord =>
      match t_locate (n_tracker n) c with
      | None => 0
      | Some off => u32 (nth (Z.to_nat (n_slot n)) (unravel (opt_list (n_origin n)) off) 0)
      end
  | kindOp =>
      match t_views (n_tracker n) with
      | [] => op_value ns g n c
      | _ =>
          match t_locate (n_tracker n) c with
          | None => 0
          | Some off => op_value ns g n (unravel (opt_list (n_origin n)) off)
          end
      end
  end.

Definition den (h : heap) (l : nat) : list Z -> Z :=
  entry (fun _ => 0) (node_den (h_nodes h) (h_bufs h)) (h_nodes h) l.

Lemma arg_local g g' n i c : (forall s, s ∈ n_sources n -> forall c, g s c = g' s c) ->
  arg g n i c = arg g' n i c.
Proof using. intros H. unfold arg. destruct (n_sources n !! i) eqn:Ei; [|reflexivity]. eapply H, list_elem_of_lookup_2, Ei. Qed.

Lemma op_value_local ns g g' n c : (forall s, s ∈ n_sources n -> forall c, g s c = g' s c) ->
  op_value ns g n c = op_value ns g' n c.
Proof using. intros H. unfold op_value. rewrite !(arg_local g g') by exact H. reflexivity. Qed.

Lemma local_den ns bufs : local (pointwise_relation _ eq) (node_den ns bufs).
Proof using.
  intros g g' n H c. unfold node_den. destruct (n_kind n); try reflexivity.
  assert (Hop : forall c, op_value ns g n c = op_value ns g' n c) by (intros; apply op_value_local, H).
  destruct (t_views (n_tracker n)); [apply Hop|]. destruct (t_locate _ c); [apply Hop|reflexivity].
Qed.

Lemma den_unfold h l n c : acyclic (h_nodes h) -> h_nodes h !! l = Some n ->
  den h l c = node_den (h_nodes h) (h_bufs h) (den h) n c.
Proof using.
  intros Ha Hl. apply (entry_unfold (fun _ => 0) (node_den (h_nodes h) (h_bufs h)) (pointwise_relation _ eq));
    auto using local_den. 
Qed.
End denotation.

(** ** Well-formed heaps *)

Definition ext (h h' : heap) : Prop :=
  (exists more, h_nodes h' = h_nodes h ++ more) /\ h_bufs h' = h_bufs h.

#[export] Instance ext_preorder : PreOrder ext.
Proof.
  split.
  - intros h. split; [exists []; rewrite app_nil_r|]; reflexivity.
  - intros h1 h2 h3 [[m1 E1] B1] [[m2 E2] B2]. split; [|congruence].
    exists (m1 ++ m2). rewrite E2, E1, app_assoc. reflexivity.
Qed.

Definition buffer_ok (b : buffer) : Prop := Forall (fun x => 0 <= x < 256) (raw b).

(** The type discipline of an operation node. *)
Definition types_ok (ns : list node) (n : node) : Prop :=
  match n_op n with
  | WHERE =>
      map (fun s => n_dtype (get ns s)) (n_sources n) = [I32; n_dtype n; n_dtype n]
  | op =>
      op_type op (in_type ns n) (n_dtype n) /\
      Forall (fun s => n_dtype (get ns s) = in_type ns n) (n_sources n)
  end.

Definition base_shape (ns : list node) (n : node) : option Shape :=
  first_shape (map (nShape ns) (n_sources n)).

Definition op_ok (ns : list node) (l : nat) (n : node) : Prop :=
  Z.of_nat (length (n_sources n)) = arity (n_op n) /\
  Forall (fun s => (s < l)%nat /\ n_err (get ns s) = None) (n_sources n) /\
  types_ok ns n /\
  Forall (fun s => nShape ns s = None \/ nShape ns s = base_shape ns n) (n_sources n) /\
  (t_views (n_tracker n) = [] \/
   (wf (Size (opt_list (n_origin n))) (n_tracker n) /\ n_origin n = base_shape ns n /\
    (n_origin n <> None -> t_nil (n_tracker n) = false))).

Definition node_ok (ns : list node) (l : nat) (n : node) : Prop :=
  match n_err n with
  | Some _ => n_kind n <> kindOp /\ n_sources n = []
  | None =>
      is_number_type (n_dtype n) = true /\ n_chain n = [] /\ nil_ok (n_tracker n) /\
      match n_kind n with
      | kindConst =>
          n_sources n = [] /\ word_ok (n_bits n) /\
          (t_views (n_tracker n) = [] \/ exists m, wf m (n_tracker n))
      | kindInput => n_sources n = [] /\ n_buf n <> None /\ exists m, wf m (n_tracker n)
      | kindCoord =>
          n_sources n = [] /\
          wf (Size (opt_list (n_origin n))) (n_tracker n) /\ 0 <= n_slot n < Rank (opt_list (n_origin n))
      | kindOp => op_ok ns l n
      end
  end.

Record heap_ok (h : heap) : Prop := {
  heap_nodes : forall l n, h_nodes h !! l = Some n -> node_ok (h_nodes h) l n;
  heap_bufs : Forall buffer_ok (h_bufs h);
  heap_splats : forall b d l, splat_lookup (b, d) (h_splats h) = Some l ->
    h_nodes h !! l = Some (mkNode kindConst ONone d [] no_tracker None [] None 0 b None)
}.

(** *** Growing a heap *)

Lemma heap_acyclic h : heap_ok h -> acyclic (h_nodes h).
Proof.
  intros H l n Hl. pose proof (heap_nodes h H l n Hl) as K. unfold node_ok in K.
  destruct (n_err n); [destruct K as [_ ->]; constructor|]. destruct K as (_ & _ & _ & K).
  destruct (n_kind n).
  - destruct K as [-> _]; constructor.
  - destruct K as [-> _]; constructor.
  - destruct K as [-> _]; constructor.
  - destruct K as (_ & K & _). eapply Forall_impl; [exact K|]. simpl. tauto.
Qed.

Lemma acyclic_snoc ns n : acyclic ns -> Forall (fun s => s < length ns)%nat (n_sources n) -> acyclic (ns ++ [n]).
Proof.
  intros Ha Hs l m Hl. apply lookup_app_Some in Hl as [Hl|[Hle Hl]]; [eapply Ha, Hl|].
  apply list_lookup_singleton_Some in Hl as [E ->]. eapply Forall_impl; [exact Hs|]. simpl. intros; lia.
Qed.

Lemma node_ok_app ns ns' l n : (l <= length ns)%nat -> node_ok ns l n -> node_ok (ns ++ ns') l n.
Proof.
  intros Hl. unfold node_ok. destruct (n_err n); [auto|]. intros (Hd & Hc & Hn0 & H). split; [exact Hd|].
  split; [exact Hc|]. split; [exact Hn0|]. destruct (n_kind n); try exact H.
  destruct H as (Har & Hs & Ht & Hsh & Htr).
  assert (Hlt : Forall (fun s => s < length ns)%nat (n_sources n)).
  { eapply Forall_impl; [exact Hs|]. simpl. intros; lia. }
  assert (Hg : forall s, s ∈ n_sources n -> get (ns ++ ns') s = get ns s).
  { intros s Hin. rewrite Forall_forall in Hlt. apply get_app; auto. }
  assert (Hn : forall s, s ∈ n_sources n -> nShape (ns ++ ns') s = nShape ns s).
  { intros s Hin. rewrite Forall_forall in Hlt. apply nShape_app; auto. }
  assert (Hb : base_shape (ns ++ ns') n = base_shape ns n).
  { unfold base_shape. f_equal. apply map_ext_in. intros s Hin. apply Hn, list_elem_of_In, Hin. }
  assert (Hi : in_type (ns ++ ns') n = in_type ns n).
  { unfold in_type in *. destruct (n_sources n) as [|s r]; [reflexivity|]. rewrite Hg by left. reflexivity. }
  repeat split; auto.
  - rewrite Forall_forall in Hs |- *. intros s Hin. rewrite Hg by exact Hin. auto.
  - unfold types_ok in *. rewrite Hi.
    assert (Hm : map (fun s => n_dtype (get (ns ++ ns') s)) (n_sources n) = map (fun s => n_dtype (get ns s)) (n_sources n)).
    { apply map_ext_in. intros s Hin. rewrite Hg by (apply list_elem_of_In, Hin). reflexivity. }
    rewrite Hm. destruct (n_op n); try exact Ht; (destruct Ht as [Ht1 Ht2]; split; [exact Ht1|];
      rewrite Forall_forall in Ht2 |- *; intros s Hin; rewrite Hg by exact Hin; auto).
  - rewrite Forall_forall in Hsh |- *. intros s Hin. rewrite Hn, Hb by exact Hin. auto.
  - rewrite Hb. exact Htr.
Qed.

Lemma alloc_ext n h : ext h (snd (alloc n h)).
Proof. split; [exists [n]|]; reflexivity. Qed.

Lemma alloc_lookup n h : h_nodes (snd (alloc n h)) !! fst (alloc n h) = Some n.
Proof. simpl. apply list_lookup_middle. reflexivity. Qed.

Lemma alloc_ok n h : heap_ok h -> node_ok (h_nodes h) (length (h_nodes h)) n -> heap_ok (snd (alloc n h)).
Proof.
  intros H Hn. split; simpl.
  - intros l m Hl. apply lookup_app_Some in Hl as [Hl|[Hle Hl]].
    + apply node_ok_app; [apply lookup_lt_Some in Hl; lia|]. apply (heap_nodes h H), Hl.
    + apply list_lookup_singleton_Some in Hl as [E <-]. replace l with (length (h_nodes h)) by lia.
      apply node_ok_app; [lia|exact Hn].
  - apply H.
  - intros b d l Hl. apply lookup_app_l_Some, (heap_splats h H), Hl.
Qed.

Lemma failed_ok e h : heap_ok h -> heap_ok (snd (failed e h)).
Proof. intros H. apply alloc_ok; [exact H|]. split; [discriminate|reflexivity]. Qed.

(** What a constructor returned: a failed node with error [e]. *)
Definition fails_with (e : err) (r : nat * heap) (h : heap) : Prop :=
  ext h (snd r) /\ heap_ok (snd r) /\ n_err (get (h_nodes (snd r)) (fst r)) = Some e.

Lemma failed_spec e h : heap_ok h -> fails_with e (failed e h) h.
Proof.
  intros H. split; [apply alloc_ext|]. split; [apply failed_ok, H|].
  unfold failed. erewrite get_lookup by apply alloc_lookup. reflexivity.
Qed.

Section growth.
Context {E : FloatEnv}.

(** The meaning of a node does not change when the heap grows. *)
Lemma den_ext h h' l c : heap_ok h -> acyclic (h_nodes h') -> ext h h' -> (l < length (h_nodes h))%nat ->
  den h' l c = den h l c.
Proof using.
  intros H Ha' [[more Em] Eb] Hl. symmetry. unfold den.
  apply (entry_agree _ _ _ (pointwise_relation _ eq)); auto using heap_acyclic, local_den.
  - intros k n Hk. rewrite Em. apply lookup_app_l_Some, Hk.
  - intros g k n Hk c'. rewrite Eb. unfold node_den. destruct (n_kind n) eqn:Ek; try reflexivity.
    assert (Ei : in_type (h_nodes h') n = in_type (h_nodes h) n).
    { unfold in_type. pose proof (heap_acyclic h H k n Hk) as Hs. destruct (n_sources n) as [|s r]; [reflexivity|].
      inversion Hs; subst. rewrite Em, get_app; [reflexivity|]. apply lookup_lt_Some in Hk. lia. }
    unfold op_value. rewrite Ei. reflexivity.
Qed.
End growth.

(** *** What the constructors build *)

Definition op_node (op : Op) (d : DType) (srcs : list nat) : node :=
  mkNode kindOp op d srcs no_tracker None [] None 0 0 None.

(** Pointers into the heap without an error. *)
Definition usable (h : heap) (ls : list nat) : Prop :=
  Forall (fun l => (l < length (h_nodes h))%nat /\ n_err (get (h_nodes h) l) = None) ls.

Lemma sameShape_loop_spec ss : forall s0,
  sameShape_loop ss s0 =
  if forallb (fun s => match s with
                       | None => true
                       | Some d => bool_decide (first_shape (s0 :: ss) = Some d)
                       end) ss
  then Ok tt else Err ErrShape.
Proof.
  induction ss as [|[d|] ss IH]; intros s0; [reflexivity| |].
  - cbn [sameShape_loop forallb]. destruct s0 as [e|]; cbn [first_shape].
    + unfold Equal. rewrite IH. cbn [first_shape].
      destruct (decide (e = d)) as [->|Hne].
      * rewrite !bool_decide_true by reflexivity. reflexivity.
      * rewrite !bool_decide_false by congruence. reflexivity.
    + rewrite IH. cbn [first_shape]. rewrite bool_decide_true by reflexivity. reflexivity.
  - cbn [sameShape_loop forallb]. rewrite IH. destruct s0; reflexivity.
Qed.

Definition same_shapes (ns : list node) (ls : list nat) : Prop :=
  Forall (fun l => nShape ns l = None \/ nShape ns l = first_shape (map (nShape ns) ls)) ls.

Lemma sameShape_spec ns ls :
  sameShape ns ls = Ok tt /\ same_shapes ns ls \/ sameShape ns ls = Err ErrShape /\ ~ same_shapes ns ls.
Proof.
  unfold sameShape, same_shapes. rewrite sameShape_loop_spec. cbn [first_shape].
  set (S := first_shape (map (nShape ns) ls)).
  assert (H : forallb (fun s => match s with None => true | Some d => bool_decide (S = Some d) end)
      (map (nShape ns) ls) = true <-> Forall (fun l => nShape ns l = None \/ nShape ns l = S) ls).
  { generalize S as S0. intros S0. clear S. induction ls as [|l ls IH]; simpl; [split; auto|].
    rewrite andb_true_iff, Forall_cons, IH. destruct (nShape ns l) as [d|].
    - rewrite bool_decide_eq_true. intuition congruence.
    - intuition. }
  destruct (forallb _ _); [left|right]; (split; [reflexivity|]); [apply H; reflexivity|].
  intros K. apply H in K. discriminate.
Qed.

Section constructors.
Context {E : FloatEnv}.

(** [r] is a new operation node over [ls]: its type, its shape and, cell by
    cell, its value. *)
Definition builds (op : Op) (d : DType) (ls : list nat) (r : nat * heap) (h : heap) : Prop :=
  ext h (snd r) /\ heap_ok (snd r) /\
  h_nodes (snd r) !! fst r = Some (op_node op d ls) /\
  nShape (h_nodes (snd r)) (fst r) = first_shape (map (nShape (h_nodes h)) ls) /\
  forall c, den (snd r) (fst r) c
    = alu op d (type_of h ls 0) (arg (den h) (op_node op d ls) 0 c)
        (arg (den h) (op_node op d ls) 1 c) (arg (den h) (op_node op d ls) 2 c).

Lemma new_node_shape h n : acyclic (h_nodes h ++ [n]) ->
  Forall (fun s => s < length (h_nodes h))%nat (n_sources n) ->
  nShape (h_nodes h ++ [n]) (length (h_nodes h)) = node_shape (nShape (h_nodes h)) n.
Proof using.
  intros Ha Hs. rewrite (nShape_unfold _ _ n Ha) by (apply list_lookup_middle; reflexivity).
  apply local_eq_shape. intros s Hin. apply nShape_app. rewrite Forall_forall in Hs. auto.
Qed.

(** A node of the shape of [opNode] appended to a heap. *)
Lemma snoc_builds op d ls h splats : 
  heap_ok h -> usable h ls -> Z.of_nat (length ls) = arity op ->
  types_ok (h_nodes h) (op_node op d ls) -> is_number_type d = true -> same_shapes (h_nodes h) ls ->
  h_splats h = splats ->
  builds op d ls (length (h_nodes h), mkHeap (h_nodes h ++ [op_node op d ls]) (h_bufs h) splats) h.
Proof using.
  intros H Hu Har Ht Hd Hsh <-.
  assert (Hlt : Forall (fun s => s < length (h_nodes h))%nat ls).
  { eapply Forall_impl; [exact Hu|]. simpl. tauto. }
  assert (Hok : heap_ok (snd (alloc (op_node op d ls) h))).
  { apply alloc_ok; [exact H|]. unfold node_ok. simpl. split; [exact Hd|]. split; [reflexivity|].
    unfold op_ok. simpl. repeat split; auto. }
  assert (Ha : acyclic (h_nodes h ++ [op_node op d ls])) by (apply acyclic_snoc; auto using heap_acyclic).
  split; [exact (alloc_ext (op_node op d ls) h)|]. split; [exact Hok|].
  split; [apply list_lookup_middle; reflexivity|]. split.
  - simpl. rewrite new_node_shape by auto. reflexivity.
  - intros c. simpl fst. simpl snd.
    set (h' := mkHeap _ _ _). change h' with (snd (alloc (op_node op d ls) h)) in *.
    rewrite (den_unfold h' _ (op_node op d ls)) by (auto; apply list_lookup_middle; reflexivity).
    unfold node_den. cbn [n_kind op_node n_tracker no_tracker t_views]. unfold op_value. cbn [n_op n_dtype op_node].
    assert (Hin : in_type (h_nodes h') (op_node op d ls) = type_of h ls 0).
    { unfold in_type, type_of. simpl. destruct ls as [|s r]; simpl in *.
      - destruct op; simpl in Har; discriminate Har.
      - inversion Hlt; subst. rewrite get_app by assumption. reflexivity. }
    rewrite Hin. f_equal; apply arg_local; intros s Hs c'; simpl in Hs;
      apply den_ext; auto; try (apply (alloc_ext (op_node op d ls) h)); rewrite Forall_forall in Hlt; auto.
Qed.

Lemma usable_first_err h ls : usable h ls -> first_err (h_nodes h) ls = None.
Proof using. induction 1 as [|l ls [_ He] H IH]; simpl; [reflexivity|]. rewrite He. exact IH. Qed.

Lemma ready_usable h ls k : usable h ls -> ready (map Some ls) k h = k ls h.
Proof using.
  intros H. unfold ready. assert (non_nil (map Some ls) = Some ls) as ->.
  { clear. induction ls as [|l ls IH]; simpl; [reflexivity|]. rewrite IH. reflexivity. }
  rewrite (usable_first_err h ls H). reflexivity.
Qed.

(** A nil input gives ErrOp, whatever the others are. *)
Lemma ready_nil h inputs k : heap_ok h -> None ∈ inputs -> fails_with ErrOp (ready inputs k h) h.
Proof using.
  intros H Hn. unfold ready. assert (non_nil inputs = None) as ->; [|apply failed_spec, H].
  induction inputs as [|[l|] inputs IH]; [inversion Hn| |reflexivity].
  simpl. rewrite IH; [reflexivity|]. inversion Hn; subst; assumption.
Qed.

(** Otherwise the first failed input is returned as it is. *)
Lemma ready_failed h ls k l : first_err (h_nodes h) ls = Some l -> ready (map Some ls) k h = (l, h).
Proof using.
  intros H. unfold ready. assert (non_nil (map Some ls) = Some ls) as ->.
  { clear. induction ls as [|x ls IH]; simpl; [reflexivity|]. rewrite IH. reflexivity. }
  rewrite H. reflexivity.
Qed.

Lemma usable_number h ls i l : heap_ok h -> usable h ls -> ls !! i = Some l ->
  is_number_type (n_dtype (get (h_nodes h) l)) = true.
Proof using.
  intros H Hu Hi. eapply Forall_lookup_1 in Hu as [Hl He]; [|exact Hi].
  destruct (lookup_lt_is_Some_2 _ _ Hl) as [n Hn]. rewrite (get_lookup _ _ _ Hn) in *.
  pose proof (heap_nodes h H l n Hn) as K. unfold node_ok in K. rewrite He in K. apply K.
Qed.

Lemma unaryType_ok op t d : unaryType op t = Ok d ->
  (op_type op t d \/ (op = CAST /\ d = t)) /\ arity op = 1 /\ is_number_type d = true.
Proof using.
  destruct op; simpl; try discriminate; destruct t; simpl; try discriminate; intros [= <-];
    cbn; intuition congruence.
Qed.

Lemma binaryType_ok op t t' d : binaryType op t t' = Ok d ->
  t = t' /\ op_type op t d /\ arity op = 2 /\ is_number_type d = true /\ op <> WHERE /\ op <> CAST.
Proof using.
  unfold binaryType. case_bool_decide as Et; simpl; [|discriminate]. subst t'.
  destruct op; simpl; try discriminate; destruct t; simpl; try discriminate; intros [= <-];
    cbn; intuition congruence.
Qed.

Lemma types_ok_plain ns op d ls t : op <> WHERE -> op_type op t d ->
  match ls with [] => False | s :: _ => n_dtype (get ns s) = t end ->
  Forall (fun s => n_dtype (get ns s) = t) ls -> types_ok ns (op_node op d ls).
Proof using.
  intros Hw Ht Hh Hf. destruct ls as [|s r]; [contradiction|].
  assert (Hi : in_type ns (op_node op d (s :: r)) = t) by exact Hh.
  unfold types_ok. cbn [n_op op_node n_dtype n_sources]. rewrite Hi.
  destruct op; try contradiction; auto.
Qed.

Lemma same_shapes_one ns l : same_shapes ns [l].
Proof using. unfold same_shapes. constructor; [|constructor]. simpl. destruct (nShape ns l); auto. Qed.

Lemma unary_spec op a h : heap_ok h -> usable h [a] -> op <> CAST ->
  match unaryType op (type_of h [a] 0) with
  | Err e => fails_with e (unary op (Some a) h) h
  | Ok d => builds op d [a] (unary op (Some a) h) h
  end.
Proof using.
  intros H Hu Hc. unfold unary. change [Some a] with (map Some [a]).
  rewrite ready_usable by exact Hu.
  destruct (unaryType op (type_of h [a] 0)) as [d|e] eqn:Et; [|apply failed_spec, H].
  apply unaryType_ok in Et as ([Ht|[? _]] & Har & Hd); [|contradiction].
  apply snoc_builds; auto using same_shapes_one.
  apply (types_ok_plain _ _ _ _ (type_of h [a] 0)); auto.
  intros ->; exact Ht.
Qed.

Lemma binaryOp_spec op a b h : heap_ok h -> usable h [a; b] ->
  match binaryType op (type_of h [a; b] 0) (type_of h [a; b] 1), sameShape (h_nodes h) [a; b] with
  | Err e, _ | _, Err e => fails_with e (binaryOp op (Some a) (Some b) h) h
  | Ok d, Ok _ => builds op d [a; b] (binaryOp op (Some a) (Some b) h) h
  end.
Proof using.
  intros H Hu. unfold binaryOp. change [Some a; Some b] with (map Some [a; b]).
  rewrite ready_usable by exact Hu.
  destruct (binaryType op _ _) as [d|e] eqn:Et; [|apply failed_spec, H].
  cbn [or_fail]. destruct (sameShape_spec (h_nodes h) [a; b]) as [[-> Hs]|[-> _]]; [|apply failed_spec, H].
  apply binaryType_ok in Et as (Eab & Ht & Har & Hd & Hw & _).
  apply snoc_builds; auto.
  apply (types_ok_plain _ _ _ _ (type_of h [a; b] 0)); auto.
Qed.

Lemma whereNode_spec p a b h : heap_ok h -> usable h [p; a; b] ->
  if bool_decide (type_of h [p; a; b] 0 = I32) && bool_decide (type_of h [p; a; b] 1 = type_of h [p; a; b] 2)
  then match sameShape (h_nodes h) [p; a; b] with
       | Err e => fails_with e (whereNode (Some p) (Some a) (Some b) h) h
       | Ok _ => builds WHERE (type_of h [p; a; b] 1) [p; a; b] (whereNode (Some p) (Some a) (Some b) h) h
       end
  else fails_with ErrType (whereNode (Some p) (Some a) (Some b) h) h.
Proof using.
  intros H Hu. unfold whereNode. change [Some p; Some a; Some b] with (map Some [p; a; b]).
  rewrite ready_usable by exact Hu.
  case_bool_decide as E1; simpl; [|apply failed_spec, H].
  case_bool_decide as E2; simpl; [|apply failed_spec, H].
  destruct (sameShape_spec (h_nodes h) [p; a; b]) as [[-> Hs]|[-> _]]; [|apply failed_spec, H].
  cbn [or_fail]. apply snoc_builds; auto.
  - unfold types_ok. cbn [n_op op_node n_sources map n_dtype]. unfold type_of in *. simpl in *.
    rewrite E1, <- E2. reflexivity.
  - apply (usable_number h [p; a; b] 1 a); auto.
Qed.

Lemma multiplyAccumulateNode_spec a b c h : heap_ok h -> usable h [a; b; c] ->
  if bool_decide (type_of h [a; b; c] 0 = type_of h [a; b; c] 1)
     && bool_decide (type_of h [a; b; c] 0 = type_of h [a; b; c] 2)
  then match sameShape (h_nodes h) [a; b; c] with
       | Err e => fails_with e (multiplyAccumulateNode (Some a) (Some b) (Some c) h) h
       | Ok _ => builds MultiplyAccumulate (type_of h [a; b; c] 0) [a; b; c]
                   (multiplyAccumulateNode (Some a) (Some b) (Some c) h) h
       end
  else fails_with ErrType (multiplyAccumulateNode (Some a) (Some b) (Some c) h) h.
Proof using.
  intros H Hu. unfold multiplyAccumulateNode. change [Some a; Some b; Some c] with (map Some [a; b; c]).
  rewrite ready_usable by exact Hu.
  case_bool_decide as E1; simpl; [|apply failed_spec, H].
  case_bool_decide as E2; simpl; [|apply failed_spec, H].
  destruct (sameShape_spec (h_nodes h) [a; b; c]) as [[-> Hs]|[-> _]]; [|apply failed_spec, H].
  cbn [or_fail]. apply snoc_builds; auto.
  - apply (types_ok_plain _ _ _ _ (type_of h [a; b; c] 0)); [discriminate|reflexivity|reflexivity|].
    unfold type_of in *. simpl in *. repeat constructor; auto.
  - apply (usable_number h [a; b; c] 0 a); auto.
Qed.

(** A cast is built with the operand's type and then given its target. *)
Lemma castNode_spec a dtype h : heap_ok h -> usable h [a] ->
  if is_number_type dtype then builds CAST dtype [a] (castNode (Some a) dtype h) h
  else fails_with ErrType (castNode (Some a) dtype h) h.
Proof using.
  intros H Hu. unfold castNode, unary. change [Some a] with (map Some [a]).
  rewrite ready_usable by exact Hu.
  assert (Hn : is_number_type (type_of h [a] 0) = true) by (apply (usable_number h [a] 0 a); auto).
  assert (Eu : unaryType CAST (type_of h [a] 0) = Ok (type_of h [a] 0)).
  { revert Hn. generalize (type_of h [a] 0) as t. intros [] K; try reflexivity. discriminate K. }
  rewrite Eu. cbn [or_fail]. unfold opNode, alloc.
  set (n := mkNode _ _ _ _ _ _ _ _ _ _ _). cbn [h_nodes h_bufs h_splats].
  assert (Hg : get (h_nodes h ++ [n]) (length (h_nodes h)) = n).
  { apply get_lookup, list_lookup_middle. reflexivity. }
  rewrite Hg. cbn [n_err n].
  destruct (is_number_type dtype) eqn:Ed; simpl.
  - rewrite insert_snoc. apply snoc_builds; auto using same_shapes_one.
    apply (types_ok_plain _ _ _ _ (type_of h [a] 0)); [discriminate| |reflexivity|repeat constructor].
    revert Hn Ed. unfold is_number_type. rewrite !orb_true_iff, !bool_decide_eq_true. cbn. intuition.
  - destruct (failed_spec ErrType (snd (alloc n h))) as (X1 & X2 & X3).
    { apply alloc_ok; [exact H|]. unfold node_ok. cbn. split; [exact Hn|]. split; [reflexivity|].
      split; [apply no_tracker_nil_ok|]. unfold op_ok. cbn. split; [reflexivity|]. split.
      - constructor; [|constructor]. inversion Hu; subst. tauto.
      - split; [split; [revert Hn; unfold is_number_type; rewrite !orb_true_iff, !bool_decide_eq_true; cbn; unfold in_type, type_of; cbn; intuition|repeat constructor]|].
        split; [apply same_shapes_one|left; reflexivity]. }
    split; [|split; [exact X2|exact X3]]. etransitivity; [apply (alloc_ext n)|exact X1].
Qed.
End constructors.

(** *** Leaves *)

Definition const_node (d : DType) (bits : Z) : node :=
  mkNode kindConst ONone d [] no_tracker None [] None 0 bits None.

(** A node without sources denotes what its own fields say. *)
Definition leaf_spec `{FloatEnv} (n : node) (r : nat * heap) (h : heap) : Prop :=
  ext h (snd r) /\ heap_ok (snd r) /\ h_nodes (snd r) !! fst r = Some n /\
  nShape (h_nodes (snd r)) (fst r) = node_shape (fun _ => None) n /\
  forall c, den (snd r) (fst r) c = node_den (h_nodes h) (h_bufs h) (fun _ _ => 0) n c.

Section leaves.
Context {E : FloatEnv}.

Lemma leaf_den h l n c : heap_ok h -> h_nodes h !! l = Some n -> n_sources n = [] -> n_kind n <> kindOp ->
  nShape (h_nodes h) l = node_shape (fun _ => None) n /\
  den h l c = node_den (h_nodes h) (h_bufs h) (fun _ _ => 0) n c.
Proof using.
  intros H Hl Hs Hk. split.
  - rewrite (nShape_unfold _ _ n) by auto using heap_acyclic. apply local_eq_shape.
    rewrite Hs. intros s Hin. inversion Hin.
  - rewrite (den_unfold h l n) by auto using heap_acyclic. apply local_den.
    rewrite Hs. intros s Hin. inversion Hin.
Qed.

Lemma alloc_leaf n h : heap_ok h -> n_sources n = [] -> n_kind n <> kindOp ->
  node_ok (h_nodes h) (length (h_nodes h)) n -> leaf_spec n (alloc n h) h.
Proof using.
  intros H Hs Hk Hn. pose proof (alloc_ok n h H Hn) as H'. pose proof (alloc_lookup n h) as Hl.
  split; [apply alloc_ext|]. split; [exact H'|]. split; [exact Hl|].
  split; [apply (leaf_den _ _ _ [] H' Hl Hs Hk)|]. intros c.
  destruct (leaf_den _ _ _ c H' Hl Hs Hk) as [_ ->]. unfold node_den. destruct (n_kind n); try reflexivity.
  contradiction.
Qed.

Lemma input_spec b t d m h : heap_ok h -> is_number_type d = true -> wf m t -> nil_ok t ->
  leaf_spec (mkNode kindInput ONone d [] t None [] (Some b) 0 0 None) (input (Some b) t d h) h.
Proof using.
  intros H Hd Ht Hnil. unfold input. rewrite Hd. pose proof (wf_views m t Ht).
  destruct (t_views t) eqn:Ev; [contradiction|]. simpl negb. cbv iota.
  apply alloc_leaf; [exact H|reflexivity|discriminate|]. unfold node_ok. cbn.
  repeat split; eauto.
Qed.

Lemma filled_spec v t m h : heap_ok h -> word_ok (bitsOf v) -> wf m t -> nil_ok t ->
  leaf_spec (mkNode kindConst ONone (dtypeOf v) [] t None [] None 0 (bitsOf v) None) (filled v t h) h.
Proof using.
  intros H Hv Ht Hnil. unfold filled. rewrite (wf_check m t Ht).
  apply alloc_leaf; [exact H|reflexivity|discriminate|]. unfold node_ok. cbn.
  split; [destruct v; reflexivity|]. split; [reflexivity|]. split; [exact Hnil|]. eauto.
Qed.

Lemma coord_spec axis s h : heap_ok h -> nonneg s -> 0 <= axis < Rank s ->
  exists t, Of (Some s) = Ok t /\
    leaf_spec (mkNode kindCoord ONone I32 [] t (Some s) [] None axis 0 None) (coord axis (Some s) h) h.
Proof using.
  intros H Hs Hax. destruct (Of_implements (Some s) Hs) as (t & Ht & Hi & _). exists t.
  split; [exact Ht|]. unfold coord. rewrite Ht. cbn [opt_list].
  destruct (Z.ltb_spec axis 0), (Z.leb_spec (Rank s) axis); try lia. simpl orb. cbv iota.
  apply alloc_leaf; [exact H|reflexivity|discriminate|]. unfold node_ok. cbn.
  split; [reflexivity|]. split; [reflexivity|]. split; [eapply Of_nil_ok, Ht|].
  split; [reflexivity|]. split; [apply Hi|exact Hax].
Qed.

Lemma splat_lookup_ext key table l k : splat_lookup key ((k, l) :: table)
  = if bool_decide (k = key) then Some l else splat_lookup key table.
Proof using. reflexivity. Qed.

(** Equal splats are the same node: their value, and that asking again
    gives the same pointer and allocates nothing. *)
Lemma internConst_spec d bits h : heap_ok h -> is_number_type d = true -> word_ok bits ->
  leaf_spec (const_node d bits) (internConst d bits h) h /\
  internConst d bits (snd (internConst d bits h)) = internConst d bits h.
Proof using.
  intros H Hd Hb. unfold internConst.
  destruct (splat_lookup (bits, d) (h_splats h)) as [l|] eqn:El.
  - pose proof (heap_splats h H _ _ _ El) as Hl. simpl. rewrite El. split; [|reflexivity].
    split; [reflexivity|]. split; [exact H|]. split; [exact Hl|].
    split; [apply (leaf_den _ _ _ [] H Hl); [reflexivity|discriminate]|]. intros c.
    apply (leaf_den _ _ _ c H Hl); [reflexivity|discriminate].
  - destruct (alloc_leaf (const_node d bits) h H eq_refl ltac:(discriminate)) as (X1 & X2 & X3 & X4 & X5).
    { unfold node_ok. cbn. split; [exact Hd|]. split; [reflexivity|]. split; [apply no_tracker_nil_ok|]. auto. }
    cbn [alloc fst snd] in *. split.
    + split; [exact X1|]. split; [|split; [exact X3|split; [exact X4|exact X5]]].
      split; [apply (heap_nodes _ X2)|apply (heap_bufs _ X2)|]. intros b' d' l' Hk. cbn [h_splats snd] in Hk.
      rewrite splat_lookup_ext in Hk. case_bool_decide as Ek.
      * injection Ek as <- <-. injection Hk as <-. exact X3.
      * apply (heap_splats _ X2). exact Hk.
    + cbn [h_splats]. rewrite splat_lookup_ext, bool_decide_true by reflexivity. reflexivity.
Qed.

(** *** Every value is a word *)

Lemma byte_at_range l i : Forall (fun x => 0 <= x < 256) l -> 0 <= byte_at l i < 256.
Proof using.
  intros H. unfold byte_at. rewrite nth_lookup. destruct (l !! Z.to_nat i) as [x|] eqn:Ex; simpl; [|lia].
  eapply Forall_lookup_1 in Ex; [|exact H]. exact Ex.
Qed.

Lemma lor_shiftl_bound a b k : 0 <= a < 2 ^ k -> 0 <= b -> 0 <= k -> Z.lor a (Z.shiftl b k) = a + b * 2 ^ k.
Proof using.
  intros Ha Hb Hk. rewrite Z.shiftl_mul_pow2 by exact Hk. rewrite <- Z.lxor_lor, <- Z.add_nocarry_lxor; [reflexivity| |].
  all: apply Z.bits_inj'; intros i Hi; rewrite Z.land_spec, Z.bits_0; destruct (Z.lt_ge_cases i k);
    [rewrite Z.mul_pow2_bits_low by exact H; apply andb_false_r|].
  all: destruct (Z.eq_dec a 0) as [->|Hne]; [rewrite Z.bits_0; reflexivity|].
  all: rewrite (Z.bits_above_log2 a i); [reflexivity|lia|].
  all: apply Z.lt_le_trans with k; [apply Z.log2_lt_pow2; lia|lia].
Qed.

Lemma word_ok_word b i : buffer_ok b -> word_ok (word b i).
Proof using.
  intros Hb. unfold word. destruct (i <? 0); [apply zero_ok|].
  assert (Hbyte : forall j, 0 <= byte_at (raw b) j < 256) by (intros; apply byte_at_range, Hb).
  assert (Hw : word_ok (let off := i * 4 in
    if Z.of_nat (length (raw b)) <? off + 4 then 0
    else Z.lor (byte_at (raw b) off)
           (Z.lor (Z.shiftl (byte_at (raw b) (off + 1)) 8)
              (Z.lor (Z.shiftl (byte_at (raw b) (off + 2)) 16)
                 (Z.shiftl (byte_at (raw b) (off + 3)) 24))))).
  { cbv zeta. destruct (_ <? _); [apply zero_ok|]. unfold word_ok, two32.
    set (x0 := byte_at (raw b) (i * 4)). set (x1 := byte_at (raw b) (i * 4 + 1)).
    set (x2 := byte_at (raw b) (i * 4 + 2)). set (x3 := byte_at (raw b) (i * 4 + 3)).
    pose proof (Hbyte (i * 4)) as H0. pose proof (Hbyte (i * 4 + 1)) as H1.
    pose proof (Hbyte (i * 4 + 2)) as H2. pose proof (Hbyte (i * 4 + 3)) as H3.
    fold x0 in H0. fold x1 in H1. fold x2 in H2. fold x3 in H3.
    rewrite !Z.lor_assoc. rewrite (lor_shiftl_bound x0 x1 8) by (change (2 ^ 8) with 256; lia).
    change (2 ^ 8) with 256.
    rewrite (lor_shiftl_bound (x0 + x1 * 256) x2 16) by (change (2 ^ 16) with 65536; lia).
    change (2 ^ 16) with 65536.
    rewrite (lor_shiftl_bound (x0 + x1 * 256 + x2 * 65536) x3 24) by (change (2 ^ 24) with 16777216; lia).
    change (2 ^ 24) with 16777216. lia. }
  destruct (buf_dtype b); try exact Hw.
  destruct (_ <=? i); [apply zero_ok|]. specialize (Hbyte i). unfold word_ok, two32. lia.
Qed.

Lemma buf_word_ok bufs b i : Forall buffer_ok bufs -> word_ok (buf_word bufs b i).
Proof using.
  intros H. unfold buf_word. destruct b as [l|]; simpl; [|apply zero_ok].
  destruct (bufs !! l) as [b|] eqn:El; [|apply zero_ok].
  apply word_ok_word. eapply Forall_lookup_1; eauto.
Qed.

Lemma op_value_ok ns g n c : (forall s, s ∈ n_sources n -> forall c, word_ok (g s c)) -> word_ok (op_value ns g n c).
Proof using.
  intros H. assert (Ha : forall i, word_ok (arg g n i c)).
  { intros i. unfold arg. destruct (n_sources n !! i) eqn:Ei; [|apply zero_ok]. eapply H, list_elem_of_lookup_2, Ei. }
  apply alu_ok; apply Ha.
Qed.

Lemma den_ok h l c : heap_ok h -> (l < length (h_nodes h))%nat -> n_err (get (h_nodes h) l) = None ->
  word_ok (den h l c).
Proof using.
  intros H. revert c. induction l as [l IH] using lt_wf_ind. intros c Hl He.
  destruct (lookup_lt_is_Some_2 _ _ Hl) as [n Hn]. rewrite (get_lookup _ _ _ Hn) in He.
  rewrite (den_unfold h l n) by auto using heap_acyclic.
  pose proof (heap_nodes h H l n Hn) as K. unfold node_ok in K. rewrite He in K. destruct K as (_ & _ & _ & K).
  unfold node_den. destruct (n_kind n).
  - destruct (t_views _); [apply K|]. destruct (t_locate _ _); [apply K|apply zero_ok].
  - destruct (t_locate _ _); [apply buf_word_ok, H|apply zero_ok].
  - destruct (t_locate _ _); [apply u32_ok|apply zero_ok].
  - destruct K as (_ & Hs & _). rewrite Forall_forall in Hs.
    assert (Hop : forall c, word_ok (op_value (h_nodes h) (den h) n c)).
    { intros c'. apply op_value_ok. intros s Hin c0. destruct (Hs s Hin). apply IH; auto. lia. }
    destruct (t_views _); [apply Hop|]. destruct (t_locate _ _); [apply Hop|apply zero_ok].
Qed.
End leaves.
