(* ===== verification/Rewrite.v ===== *)
(** * Pushing views to the leaves (src/x/ndarray/kernel.go, cpu.go)

    A kernel has one coordinate system, that of its output.  Before lowering,
    [rewrite] removes the views between operations: each leaf gets the chain
    of trackers on its path from the root, and the operations themselves are
    then evaluated at the output cell.  The file models [needsRewrite],
    [rewrite] with its hashed memo table, and the walk along a chain
    ([indexViews], [applyChain], [chainCoords]); [flat] is the meaning of a
    graph after rewriting.  The theorem is that rewriting preserves the
    meaning of a graph whose inner views have no padding. *)
From Stdlib Require Import ZArith Lia.
From stdpp Require Import base numbers option list.
From S2P Require Import Prelude Float Alu Shape View Tracker Expr.

Local Open Scope Z_scope.

(** ** Walking a chain (cpu.go) *)

Fixpoint indexViews_loop (below : list view) (off : Z) (ok : bool) : Z * bool :=
  match below with
  | [] => (off, ok)
  | v :: below' =>
      let '(off', viewOK) := index v (unravel (v_shape v) off) in
      indexViews_loop below' off' (ok && viewOK)
  end.

Definition indexViews (views : list view) (coords : list Z) : Z * bool :=
  match rev views with
  | [] => (0, false)
  | v :: below => let '(off, ok) := index v coords in indexViews_loop below off ok
  end.

(** [c] and [ok] are the loop's variables. *)
Fixpoint applyChain_loop (chain : list stStep) (c : list Z) (ok : bool) : Z * bool :=
  match chain with
  | [] => (0, false)
  | s :: chain' =>
      let '(off, vok) := indexViews (t_views (st_tr s)) c in
      let ok := ok && vok in
      match chain' with
      | [] => (off, ok)
      | _ =>
          match opt_list (st_origin s) with
          | [] => (off, ok)
          | origin => applyChain_loop chain' (unravel origin off) ok
          end
      end
  end.

Definition applyChain (chain : list stStep) (coords : list Z) : Z * bool :=
  applyChain_loop chain coords true.

Fixpoint chainCoords_loop (chain : list stStep) (c : list Z) (ok : bool) : list Z * bool :=
  match chain with
  | [] => (c, ok)
  | s :: chain' =>
      let '(off, vok) := indexViews (t_views (st_tr s)) c in
      let ok := ok && vok in
      match opt_list (st_origin s) with
      | [] => (c, ok)
      | origin => chainCoords_loop chain' (unravel origin off) ok
      end
  end.

Definition chainCoords (chain : list stStep) (coords : list Z) : list Z * bool :=
  chainCoords_loop chain coords true.

(** ** Which graphs need rewriting *)

(** [seen] is shared by the whole walk; the walk stops at the first viewed
    node. *)
Fixpoint needsRewrite (fuel : nat) (ns : list node) (l : nat) (seen : list nat) : bool * list nat :=
  match fuel with
  | O => (false, seen)
  | S fuel' =>
      if bool_decide (l ∈ seen) then (false, seen) else
      let seen := l :: seen in
      if viewed (get ns l) then (true, seen)
      else
        (fix go (ss : list nat) (seen : list nat) : bool * list nat :=
           match ss with
           | [] => (false, seen)
           | s :: ss' =>
               let '(b, seen) := needsRewrite fuel' ns s seen in
               if b then (true, seen) else go ss' seen
           end) (n_sources (get ns l)) seen
  end.

(** ** Hashes of chains *)

Definition two64 : Z := 18446744073709551616.
Definition u64 (x : Z) : Z := x mod two64.
Definition fnv_prime : Z := 1099511628211.
Definition golden : Z := 11400714819323198485.

Definition hash_mix (h x : Z) : Z := u64 (Z.lxor h (u64 (u64 x + golden)) * fnv_prime).

Definition hashInts (h : Z) (xs : list Z) : Z :=
  let h := fold_left hash_mix xs h in
  u64 (Z.lxor h (Z.of_nat (length xs)) * fnv_prime).

Definition hashView (h : Z) (v : view) : Z :=
  let h := hashInts h (v_shape v) in
  let h := hashInts h (v_strides v) in
  let h := hash_mix h (v_offset v) in
  fold_left (fun h m => hashInts h [fst m; snd m]) (opt_list (v_mask v)) h.

Definition hashTracker (h : Z) (t : Tracker) : Z := fold_left hashView (t_views t) h.

Definition stepsHash (steps : list stStep) : Z :=
  fold_left (fun h s => hashInts (hashTracker h (st_tr s)) (opt_list (st_origin s))) steps
    14695981039346656037.

(** ** Rewriting *)

Definition memo : Type := list ((nat * Z) * nat).

Fixpoint memo_get (m : memo) (key : nat * Z) : option nat :=
  match m with
  | [] => None
  | (k, l) :: m' => if bool_decide (k = key) then Some l else memo_get m' key
  end.

(** The heap and the memo table. *)
Definition rst : Type := heap * memo.

Definition memo_set (key : nat * Z) (l : nat) (st : rst) : nat * rst := (l, (fst st, (key, l) :: snd st)).

(** [&out] of a clone, entered in the memo table *)
Definition clone (key : nat * Z) (n : node) (st : rst) : nat * rst :=
  let '(l, h) := alloc n (fst st) in memo_set key l (h, snd st).

Fixpoint mapM_state {S A B} (f : A -> S -> B * S) (l : list A) (st : S) : list B * S :=
  match l with
  | [] => ([], st)
  | a :: l' =>
      let '(b, st) := f a st in
      let '(bs, st) := mapM_state f l' st in
      (b :: bs, st)
  end.

Definition own_step (n : node) : stStep := mkStep (n_tracker n) (n_origin n).

Fixpoint rewrite (fuel : nat) (l : nat) (steps : list stStep) (st : rst) : nat * rst :=
  match fuel with
  | O => (l, st)
  | S fuel' =>
      let n := get (h_nodes (fst st)) l in
      match n_err n with
      | Some _ => (l, st)
      | None =>
          let key := (l, stepsHash steps) in
          match memo_get (snd st) key with
          | Some m => (m, st)
          | None =>
              match n_kind n with
              | kindInput =>
                  match steps with
                  | [] => memo_set key l st
                  | _ => clone key (set_chain n (steps ++ [mkStep (n_tracker n) None])) st
                  end
              | kindConst =>
                  match t_views (n_tracker n), steps with
                  | [], _ | _, [] => memo_set key l st
                  | _, _ => clone key (set_chain n (steps ++ [mkStep (n_tracker n) None])) st
                  end
              | kindCoord =>
                  if bool_decide (steps = []) && negb (viewed n) then memo_set key l st
                  else clone key (set_chain n (steps ++ [own_step n])) st
              | kindOp =>
                  let next := if viewed n then steps ++ [own_step n] else steps in
                  let '(srcs, st) := mapM_state (fun s => rewrite fuel' s next) (n_sources n) st in
                  if negb (viewed n) && bool_decide (steps = []) && bool_decide (srcs = n_sources n)
                  then memo_set key l st
                  else clone key (set_chain (set_sources n srcs) []) st
              end
          end
      end
  end.

(** ** Meaning of a rewritten graph

    Operations are evaluated at the output cell; only leaves look at their
    chain, or at their own tracker when they have none. *)
Definition coord_word (coords : list Z) (axis : Z) : Z :=
  if (axis <? 0) || (Z.of_nat (length coords) <=? axis) then 0
  else u32 (nth (Z.to_nat axis) coords 0).

Section flat.
Context {E : FloatEnv}.

Definition node_flat (ns : list node) (bufs : list buffer) (g : nat -> list Z -> Z) (n : node)
    (c : list Z) : Z :=
  match n_kind n with
  | kindConst =>
      match n_chain n with
      | [] => if viewed n then (if snd (indexViews (t_views (n_tracker n)) c) then n_bits n else 0)
              else n_bits n
      | chain => if snd (applyChain chain c) then n_bits n else 0
      end
  | kindInput =>
      let '(off, ok) :=
        match n_chain n with
        | [] => indexViews (t_views (n_tracker n)) c
        | chain => applyChain chain c
        end in
      if ok then buf_word bufs (n_buf n) off else 0
  | kindCoord =>
      match n_chain n with
      | [] => coord_word c (n_slot n)
      | chain => let '(coords, ok) := chainCoords chain c in
                 if ok then coord_word coords (n_slot n) else 0
      end
  | kindOp => op_value ns g n c
  end.

Definition flat (h : heap) (l : nat) : list Z -> Z :=
  entry (fun _ => 0) (node_flat (h_nodes h) (h_bufs h)) (h_nodes h) l.

Lemma local_flat ns bufs : local (pointwise_relation _ eq) (node_flat ns bufs).
Proof using.
  intros g g' n H c. unfold node_flat. destruct (n_kind n); try reflexivity. apply op_value_local, H.
Qed.

Lemma flat_unfold h l n c : acyclic (h_nodes h) -> h_nodes h !! l = Some n ->
  flat h l c = node_flat (h_nodes h) (h_bufs h) (flat h) n c.
Proof using.
  intros Ha Hl. apply (entry_unfold (fun _ => 0) (node_flat (h_nodes h) (h_bufs h)) (pointwise_relation _ eq));
    auto using local_flat.
Qed.

Lemma flat_ext h h' l c : acyclic (h_nodes h) -> acyclic (h_nodes h') -> ext h h' ->
  (l < length (h_nodes h))%nat -> flat h' l c = flat h l c.
Proof using.
  intros Ha Ha' [[more Em] Eb] Hl. symmetry. unfold flat.
  apply (entry_agree _ _ _ (pointwise_relation _ eq)); auto using local_flat.
  - intros k n Hk. rewrite Em. apply lookup_app_l_Some, Hk.
  - intros g k n Hk c'. rewrite Eb. unfold node_flat. destruct (n_kind n) eqn:Ek; try reflexivity.
    assert (Ei : in_type (h_nodes h') n = in_type (h_nodes h) n).
    { unfold in_type. pose proof (Ha k n Hk) as Hs. destruct (n_sources n) as [|s r]; [reflexivity|].
      inversion Hs; subst. rewrite Em, get_app; [reflexivity|]. apply lookup_lt_Some in Hk. lia. }
    unfold op_value. rewrite Ei. reflexivity.
Qed.
End flat.

(** *** Chains *)

Lemma indexViews_loop_false below : forall off, snd (indexViews_loop below off false) = false.
Proof.
  induction below as [|v below IH]; intros off; simpl; [reflexivity|]. destruct (index v _). apply IH.
Qed.

Lemma indexViews_loop_spec below : forall v c,
  as_option (let '(off, ok) := index v c in indexViews_loop below off ok) = locate (v :: below) c.
Proof.
  induction below as [|w below IH]; intros v c.
  - cbn [indexViews_loop locate]. rewrite <- addr_index. unfold as_option.
    destruct (index v c) as [o []]; reflexivity.
  - change (locate (v :: w :: below) c)
      with (match addr v c with None => None | Some off => locate (w :: below) (unravel (v_shape w) off) end).
    rewrite <- addr_index. unfold as_option at 2. destruct (index v c) as [o []]; simpl fst; simpl snd; cbv iota.
    + rewrite <- (IH w). reflexivity.
    + cbn [indexViews_loop]. destruct (index w _) as [o' ok'].
      unfold as_option. simpl andb. rewrite indexViews_loop_false. reflexivity.
Qed.

(** The tape's walk of a stack of views is the address map of the tracker. *)
Lemma indexViews_spec t c : as_option (indexViews (t_views t) c) = t_locate t c.
Proof.
  unfold indexViews, t_locate. destruct (rev (t_views t)) as [|v below]; [reflexivity|].
  apply indexViews_loop_spec.
Qed.

Lemma indexViews_some t c o : t_locate t c = Some o -> indexViews (t_views t) c = (o, true).
Proof.
  rewrite <- indexViews_spec. unfold as_option. destruct (indexViews (t_views t) c) as [o' []]; simpl; congruence.
Qed.

Lemma indexViews_none t c : t_locate t c = None -> snd (indexViews (t_views t) c) = false.
Proof.
  rewrite <- indexViews_spec. unfold as_option. destruct (indexViews (t_views t) c) as [o' []]; simpl; congruence.
Qed.

(** The coordinates a list of steps leads to; [None] in padding. *)
Fixpoint walk (steps : list stStep) (c : list Z) : option (list Z) :=
  match steps with
  | [] => Some c
  | s :: steps' =>
      match t_locate (st_tr s) c with
      | None => None
      | Some off => walk steps' (unravel (opt_list (st_origin s)) off)
      end
  end.

Definition ranked (steps : list stStep) : Prop := Forall (fun s => opt_list (st_origin s) <> []) steps.

Lemma walk_app s1 s2 c : walk (s1 ++ s2) c = match walk s1 c with None => None | Some c' => walk s2 c' end.
Proof.
  revert c; induction s1 as [|s s1 IH]; intros c; simpl; [reflexivity|].
  destruct (t_locate (st_tr s) c); [apply IH|reflexivity].
Qed.

(** A chain that ends in a leaf reads what the leaf's tracker locates. *)
Lemma applyChain_spec steps last c c' : ranked steps -> walk steps c = Some c' ->
  as_option (applyChain (steps ++ [last]) c) = t_locate (st_tr last) c'.
Proof.
  intros Hr. unfold applyChain. revert c. induction Hr as [|s steps Ho Hr IH]; intros c Hw.
  - injection Hw as <-. simpl. rewrite <- indexViews_spec. unfold as_option.
    destruct (indexViews _ c) as [o []]; reflexivity.
  - simpl in Hw. destruct (t_locate (st_tr s) c) as [off|] eqn:El; [|discriminate Hw].
    cbn [app applyChain_loop]. rewrite (indexViews_some _ _ _ El). cbn [andb].
    destruct (steps ++ [last]) as [|s' rest] eqn:Er; [destruct steps; discriminate Er|].
    destruct (opt_list (st_origin s)) as [|d o] eqn:Eo; [congruence|].
    apply IH, Hw.
Qed.

Lemma chainCoords_spec steps c c' : ranked steps -> walk steps c = Some c' ->
  chainCoords steps c = (c', true).
Proof.
  intros Hr. unfold chainCoords. revert c. induction Hr as [|s steps Ho Hr IH]; intros c Hw.
  - injection Hw as <-. reflexivity.
  - simpl in Hw. destruct (t_locate (st_tr s) c) as [off|] eqn:El; [|discriminate Hw].
    cbn [chainCoords_loop]. rewrite (indexViews_some _ _ _ El). cbn [andb].
    destruct (opt_list (st_origin s)) as [|d o] eqn:Eo; [congruence|]. apply IH, Hw.
Qed.

Lemma chainCoords_none steps last c c' : ranked steps -> walk steps c = Some c' ->
  t_locate (st_tr last) c' = None -> snd (chainCoords (steps ++ [last]) c) = false.
Proof.
  intros Hr. unfold chainCoords. revert c. induction Hr as [|s steps Ho Hr IH]; intros c Hw Hl.
  - injection Hw as <-. cbn [app chainCoords_loop]. pose proof (indexViews_none _ _ Hl) as Hn.
    destruct (indexViews _ c) as [o ok]. simpl in Hn. subst ok. cbn [andb].
    destruct (opt_list (st_origin last)); reflexivity.
  - simpl in Hw. destruct (t_locate (st_tr s) c) as [off|] eqn:El; [|discriminate Hw].
    cbn [app chainCoords_loop]. rewrite (indexViews_some _ _ _ El). cbn [andb].
    destruct (opt_list (st_origin s)) as [|d o] eqn:Eo; [congruence|]. apply IH; assumption.
Qed.

(** ** Well-formed rewritten heaps *)

(** What a node of a rewritten graph keeps of [node_ok]: its type, and that
    it can be lowered.  Shapes mean nothing any more. *)
Definition fnode_ok (ns : list node) (l : nat) (n : node) : Prop :=
  match n_err n with
  | Some _ => n_kind n <> kindOp /\ n_sources n = []
  | None =>
      is_number_type (n_dtype n) = true /\
      match n_kind n with
      | kindConst => n_sources n = [] /\ word_ok (n_bits n)
      | kindInput => n_sources n = [] /\ n_buf n <> None /\ nil_ok (n_tracker n)
      | kindCoord => n_sources n = [] /\ 0 <= n_slot n /\ t_views (n_tracker n) <> []
      | kindOp =>
          Z.of_nat (length (n_sources n)) = arity (n_op n) /\
          Forall (fun s => (s < l)%nat /\ n_err (get ns s) = None) (n_sources n) /\
          types_ok ns n
      end
  end.

Record fheap_ok (h : heap) : Prop := {
  fheap_nodes : forall l n, h_nodes h !! l = Some n -> fnode_ok (h_nodes h) l n;
  fheap_bufs : Forall buffer_ok (h_bufs h);
  fheap_splats : forall b d l, splat_lookup (b, d) (h_splats h) = Some l ->
    h_nodes h !! l = Some (const_node d b)
}.

(** A pointer to a node without an error. *)
Definition valid_ptr (h : heap) (l : nat) : Prop :=
  (l < length (h_nodes h))%nat /\ n_err (get (h_nodes h) l) = None.

Lemma heap_fheap h : heap_ok h -> fheap_ok h.
Proof.
  intros H. split; [|apply H|apply H]. intros l n Hl. pose proof (heap_nodes h H l n Hl) as K.
  unfold node_ok in K. unfold fnode_ok. destruct (n_err n); [exact K|].
  destruct K as (Hd & _ & Hnil & K). split; [exact Hd|]. destruct (n_kind n).
  - tauto.
  - tauto.
  - destruct K as (K1 & K2 & K3 & _). split; [exact K1|]. split; [exact K3|]. eapply wf_views, K2.
  - destruct K as (K1 & K2 & K3 & _). auto.
Qed.

Lemma fheap_acyclic h : fheap_ok h -> acyclic (h_nodes h).
Proof.
  intros H l n Hl. pose proof (fheap_nodes h H l n Hl) as K. unfold fnode_ok in K.
  destruct (n_err n); [destruct K as [_ ->]; constructor|]. destruct K as (_ & K).
  destruct (n_kind n).
  - destruct K as [-> _]; constructor.
  - destruct K as [-> _]; constructor.
  - destruct K as [-> _]; constructor.
  - destruct K as (_ & K & _). eapply Forall_impl; [exact K|]. simpl. tauto.
Qed.

(** The types of a node depend on those of its sources only. *)
Lemma types_ok_ext ns ns' n :
  (forall s, s ∈ n_sources n -> n_dtype (get ns' s) = n_dtype (get ns s)) ->
  types_ok ns n -> types_ok ns' n.
Proof.
  intros H. assert (Hm : map (fun s => n_dtype (get ns' s)) (n_sources n) = map (fun s => n_dtype (get ns s)) (n_sources n)).
  { apply map_ext_in. intros s Hin. apply H, list_elem_of_In, Hin. }
  assert (Hi : in_type ns' n = in_type ns n).
  { unfold in_type. destruct (n_sources n) as [|s r]; [reflexivity|]. apply H. left. }
  unfold types_ok. rewrite Hm, Hi. destruct (n_op n); try tauto; intros [H1 H2]; (split; [exact H1|]);
    rewrite Forall_forall in H2 |- *; intros s Hs; rewrite H by exact Hs; auto.
Qed.

Lemma fnode_ok_app ns ns' l n : (l <= length ns)%nat -> fnode_ok ns l n -> fnode_ok (ns ++ ns') l n.
Proof.
  intros Hl. unfold fnode_ok. destruct (n_err n); [auto|]. intros (Hd & H). split; [exact Hd|].
  destruct (n_kind n); try exact H. destruct H as (Har & Hs & Ht).
  assert (Hg : forall s, s ∈ n_sources n -> get (ns ++ ns') s = get ns s).
  { intros s Hin. rewrite Forall_forall in Hs. destruct (Hs s Hin). apply get_app; lia. }
  repeat split; auto.
  - rewrite Forall_forall in Hs |- *. intros s Hin. rewrite Hg by exact Hin. auto.
  - eapply types_ok_ext; [|exact Ht]. intros s Hin. rewrite Hg by exact Hin. reflexivity.
Qed.

Lemma alloc_fok n h : fheap_ok h -> fnode_ok (h_nodes h) (length (h_nodes h)) n -> fheap_ok (snd (alloc n h)).
Proof.
  intros H Hn. split; simpl.
  - intros l m Hl. apply lookup_app_Some in Hl as [Hl|[Hle Hl]].
    + apply fnode_ok_app; [apply lookup_lt_Some in Hl; lia|]. apply (fheap_nodes h H), Hl.
    + apply list_lookup_singleton_Some in Hl as [E <-]. replace l with (length (h_nodes h)) by lia.
      apply fnode_ok_app; [lia|exact Hn].
  - apply H.
  - intros b d l Hl. apply lookup_app_l_Some, (fheap_splats h H), Hl.
Qed.

Lemma flat_ok {E : FloatEnv} h l c : fheap_ok h -> (l < length (h_nodes h))%nat -> n_err (get (h_nodes h) l) = None ->
  word_ok (flat h l c).
Proof.
  intros H. revert c. induction l as [l IH] using lt_wf_ind. intros c Hl He.
  destruct (lookup_lt_is_Some_2 _ _ Hl) as [n Hn]. rewrite (get_lookup _ _ _ Hn) in He.
  rewrite (flat_unfold h l n) by auto using fheap_acyclic.
  pose proof (fheap_nodes h H l n Hn) as K. unfold fnode_ok in K. rewrite He in K. destruct K as (_ & K).
  assert (Hcw : forall cs a, word_ok (coord_word cs a)).
  { intros cs a. unfold coord_word. destruct (_ || _); [apply zero_ok|apply u32_ok]. }
  unfold node_flat. destruct (n_kind n).
  - destruct (n_chain n); [destruct (viewed n); [destruct (snd _)|]|destruct (snd _)];
      try apply zero_ok; apply K.
  - destruct (match n_chain n with [] => _ | _ => _ end) as [off ok].
    destruct ok; [apply buf_word_ok, H|apply zero_ok].
  - destruct (n_chain n); [apply Hcw|]. destruct (chainCoords _ _) as [cs []]; [apply Hcw|apply zero_ok].
  - destruct K as (_ & Hs & _). rewrite Forall_forall in Hs.
    apply op_value_ok. intros s Hin c0. destruct (Hs s Hin). apply IH; auto. lia.
Qed.

(** ** Graphs whose inner views have no padding *)

Definition total_view (n : node) : Prop :=
  forall c, in_bounds (t_dims (n_tracker n)) c -> t_locate (n_tracker n) c <> None.

(** A view of an operation keeps every cell and does not view a rank-0
    tensor. *)
Inductive sound (ns : list node) : nat -> Prop :=
| sound_node l n :
    ns !! l = Some n -> n_err n = None ->
    (n_kind n = kindOp -> viewed n = true -> total_view n /\ opt_list (n_origin n) <> []) ->
    (forall s, s ∈ n_sources n -> sound ns s) -> sound ns l.

(** The root may be padded: its padding is cut by the kernel. *)
Definition root_sound (ns : list node) (l : nat) : Prop :=
  exists n, ns !! l = Some n /\ n_err n = None /\
    (n_kind n = kindOp -> viewed n = true -> opt_list (n_origin n) <> []) /\
    forall s, s ∈ n_sources n -> sound ns s.

Lemma sound_root ns l : sound ns l -> root_sound ns l.
Proof.
  intros H. inversion H as [l' n Hn He Hv Hs]; subst. exists n. repeat split; auto.
  intros Hk Hw. apply (Hv Hk Hw).
Qed.

(** Coordinates that a node of shape [s] can be asked for. *)
Definition okc (s : option Shape) (c : list Z) : Prop :=
  match s with None => True | Some s => in_bounds s c end.

Section splats.
Context {E : FloatEnv}.

Lemma op_value_cells ns g g' n c c' : (forall s, s ∈ n_sources n -> g s c = g' s c') ->
  op_value ns g n c = op_value ns g' n c'.
Proof using.
  intros H. assert (Ha : forall i, arg g n i c = arg g' n i c').
  { intros i. unfold arg. destruct (n_sources n !! i) eqn:Ei; [|reflexivity]. eapply H, list_elem_of_lookup_2, Ei. }
  unfold op_value. rewrite !Ha. reflexivity.
Qed.

Lemma first_shape_none ss : first_shape ss = None -> Forall (fun s => s = None) ss.
Proof using. induction ss as [|[s|] ss IH]; simpl; [constructor|discriminate|constructor; auto]. Qed.

Lemma nil_locate t c c' : nil_ok t -> t_views t <> [] -> t_Shape t = None -> t_locate t c = t_locate t c'.
Proof using.
  intros Hn Hv Hs. apply locate_rank0, Hn. unfold t_Shape in Hs. destruct (t_views t); [contradiction|].
  destruct (t_nil t); [reflexivity|discriminate Hs].
Qed.

(** A splat is the same everywhere. *)
Lemma den_splat h l c c' : heap_ok h -> (l < length (h_nodes h))%nat -> n_err (get (h_nodes h) l) = None ->
  nShape (h_nodes h) l = None -> den h l c = den h l c'.
Proof using.
  intros H. revert c c'. induction l as [l IH] using lt_wf_ind. intros c c' Hl He Hsh.
  destruct (lookup_lt_is_Some_2 _ _ Hl) as [n Hn]. rewrite (get_lookup _ _ _ Hn) in He.
  rewrite !(den_unfold h l n) by auto using heap_acyclic.
  rewrite (nShape_unfold _ _ n) in Hsh by auto using heap_acyclic.
  pose proof (heap_nodes h H l n Hn) as K. unfold node_ok in K. rewrite He in K. destruct K as (_ & _ & Hnil & K).
  unfold node_shape in Hsh. rewrite He in Hsh. unfold node_den. destruct (n_kind n).
  - destruct (t_views (n_tracker n)) eqn:Ev; [reflexivity|].
    rewrite (nil_locate _ c c'); auto. congruence.
  - assert (t_locate (n_tracker n) c = t_locate (n_tracker n) c') as ->; [|reflexivity].
    apply locate_rank0. destruct K as (_ & _ & m & Hm). pose proof (wf_views m _ Hm).
    unfold t_Shape in Hsh. destruct (t_views (n_tracker n)); [contradiction|].
    unfold nil_ok in Hnil. destruct (t_nil (n_tracker n)); [auto|]. destruct (t_dims _); [reflexivity|discriminate Hsh].
  - destruct K as (_ & Hw & _). rewrite (nil_locate _ c c'); auto. eapply wf_views, Hw.
  - destruct (t_views (n_tracker n)) eqn:Ev.
    + apply first_shape_none in Hsh. rewrite Forall_fmap in Hsh. destruct K as (_ & Hs & _).
      apply op_value_cells. intros s Hin. rewrite Forall_forall in Hsh, Hs. destruct (Hs s Hin) as [Hlt Hse].
      apply IH; [lia|lia|exact Hse|exact (Hsh s Hin)].
    + rewrite (nil_locate _ c c'); auto. congruence.
Qed.
End splats.

(** *** Coordinates of the sources *)

Lemma okc_dims t c : nil_ok t -> t_views t <> [] -> okc (t_Shape t) c ->
  exists c0, in_bounds (t_dims t) c0 /\ t_locate t c0 = t_locate t c /\ (t_Shape t <> None -> c0 = c).
Proof.
  intros Hn Hv Hc. unfold t_Shape in *. destruct (t_views t) eqn:Ev; [contradiction|].
  destruct (t_nil t) eqn:Et.
  - exists []. rewrite (Hn Et). split; [constructor|]. split; [apply locate_rank0, Hn, Et|congruence].
  - exists c. auto.
Qed.

Lemma locate_okc_range n t c o : wf n t -> nil_ok t -> okc (t_Shape t) c -> t_locate t c = Some o -> 0 <= o < n.
Proof.
  intros Hw Hn Hc Ho. pose proof (wf_views n t Hw) as Hv.
  destruct (okc_dims t c Hn Hv Hc) as (c0 & Hb & El & _).
  eapply locate_range; [reflexivity|apply wf_stack, Hw|exact Hb|].
  rewrite <- rev_views by exact Hv. change (t_locate t c0 = Some o). congruence.
Qed.

Lemma op_shape ns n : n_err n = None -> n_kind n = kindOp ->
  node_shape (nShape ns) n = match t_views (n_tracker n) with [] => base_shape ns n | _ => t_Shape (n_tracker n) end.
Proof. intros He Hk. unfold node_shape. rewrite He, Hk. destruct (t_views _); reflexivity. Qed.

(** The sources of an unviewed operation are asked for the same cell. *)
Lemma source_okc ns l n s c : op_ok ns l n -> s ∈ n_sources n -> okc (base_shape ns n) c -> okc (nShape ns s) c.
Proof.
  intros (_ & _ & _ & Hsh & _) Hs Hc. rewrite Forall_forall in Hsh. destruct (Hsh s Hs) as [->| ->]; [exact I|exact Hc].
Qed.

Lemma tracker_nonneg n t d : wf n t -> t_Shape t = Some d -> nonneg d.
Proof.
  intros Hw Hs. unfold t_Shape in Hs. destruct (t_views t); [discriminate Hs|].
  destruct (t_nil t); [discriminate Hs|]. injection Hs as <-. eapply wf_nonneg, Hw.
Qed.

Lemma first_shape_some ss d : first_shape ss = Some d -> Some d ∈ ss.
Proof. induction ss as [|[s|] ss IH]; simpl; [discriminate|intros [= ->]; left|intros H; right; auto]. Qed.

Lemma nShape_nonneg h l d : heap_ok h -> (l < length (h_nodes h))%nat -> nShape (h_nodes h) l = Some d -> nonneg d.
Proof.
  intros H. revert d. induction l as [l IH] using lt_wf_ind. intros d Hl Hsh.
  destruct (lookup_lt_is_Some_2 _ _ Hl) as [n Hn].
  rewrite (nShape_unfold _ _ n) in Hsh by auto using heap_acyclic.
  pose proof (heap_nodes h H l n Hn) as K. unfold node_ok in K. unfold node_shape in Hsh.
  destruct (n_err n) eqn:He; [discriminate Hsh|]. destruct K as (_ & _ & _ & K). destruct (n_kind n).
  - destruct (t_views (n_tracker n)) eqn:Ev; [discriminate Hsh|].
    destruct K as (_ & _ & [K|[m Hm]]); [congruence|]. eapply tracker_nonneg; eauto.
  - destruct K as (_ & _ & m & Hm). destruct (t_Shape (n_tracker n)) as [[|x s]|] eqn:Es; try discriminate Hsh.
    injection Hsh as <-. eapply tracker_nonneg; eauto.
  - destruct K as (_ & Hm & _). eapply tracker_nonneg; eauto.
  - destruct K as (_ & Hs & _ & _ & Ht). destruct (t_views (n_tracker n)) eqn:Ev.
    + apply first_shape_some, list_elem_of_fmap in Hsh as (s & Es & Hin). rewrite Forall_forall in Hs.
      destruct (Hs s Hin). eapply (IH s); [lia|lia|congruence].
    + destruct Ht as [?|[Hm _]]; [congruence|]. eapply tracker_nonneg; eauto.
Qed.

Lemma base_nonneg h l n o : heap_ok h -> h_nodes h !! l = Some n -> op_ok (h_nodes h) l n ->
  base_shape (h_nodes h) n = Some o -> nonneg o.
Proof.
  intros H Hl (_ & Hs & _) Hb. apply first_shape_some, list_elem_of_fmap in Hb as (s & Es & Hin).
  rewrite Forall_forall in Hs. destruct (Hs s Hin). apply lookup_lt_Some in Hl.
  eapply (nShape_nonneg h s); [exact H|lia|congruence].
Qed.

(** Those of a viewed one for the cell its tracker locates. *)
Lemma source_okc_view h l n s c off : heap_ok h -> h_nodes h !! l = Some n ->
  op_ok (h_nodes h) l n -> nil_ok (n_tracker n) -> t_views (n_tracker n) <> [] ->
  s ∈ n_sources n -> okc (t_Shape (n_tracker n)) c -> t_locate (n_tracker n) c = Some off ->
  okc (nShape (h_nodes h) s) (unravel (opt_list (n_origin n)) off).
Proof.
  intros H Hl Hop Hn Hv Hs Hc Hlc. eapply source_okc; eauto.
  pose proof Hop as (_ & _ & _ & _ & [?|(Hw & Ho & _)]); [contradiction|].
  pose proof (locate_okc_range _ _ _ _ Hw Hn Hc Hlc) as Hr. rewrite Ho in *.
  destruct (base_shape (h_nodes h) n) as [o|] eqn:Eb; simpl in *; [|exact I]. apply unravel_in_bounds; [|lia].
  apply positive_of_nonempty; [|lia]. eapply base_nonneg; eauto.
Qed.

Section values.
Context {E : FloatEnv}.

(** An operation whose tracker is not a view is evaluated where it stands. *)
Lemma den_op_plain h l n c : heap_ok h -> h_nodes h !! l = Some n -> n_err n = None -> n_kind n = kindOp ->
  viewed n = false -> okc (nShape (h_nodes h) l) c ->
  den h l c = op_value (h_nodes h) (den h) n c /\
  forall s, s ∈ n_sources n -> okc (nShape (h_nodes h) s) c.
Proof using.
  intros H Hl He Hk Hvw Hc. pose proof (heap_acyclic h H) as Ha.
  pose proof (heap_nodes h H l n Hl) as K. unfold node_ok in K. rewrite He, Hk in K.
  destruct K as (_ & _ & Hnil & Hop).
  rewrite (nShape_unfold _ _ n) in Hc by auto. rewrite op_shape in Hc by auto.
  rewrite (den_unfold h l n) by auto. unfold node_den. rewrite Hk. unfold viewed in Hvw.
  destruct (t_views (n_tracker n)) eqn:Ev.
  { split; [reflexivity|]. intros s Hs. eapply source_okc; eauto. }
  assert (Hne : t_views (n_tracker n) <> []) by congruence.
  destruct (okc_dims _ c Hnil Hne Hc) as (c0 & Hb & El & Heq).
  pose proof Hop as (_ & Hsrc & _ & Hsh & [?|(Hw & Ho & Hnl)]); [congruence|].
  assert (Hct : Contiguous (n_tracker n) = true).
  { destruct (n_origin n); [apply orb_false_iff in Hvw as [Hvw _]|]; apply negb_false_iff in Hvw; exact Hvw. }
  rewrite <- El, (Contiguous_locate _ _ Hct Hb).
  destruct (n_origin n) as [o|] eqn:Eo; simpl opt_list.
  - apply orb_false_iff in Hvw as [_ Hvw]. apply negb_false_iff, bool_decide_eq_true in Hvw.
    assert (t_Shape (n_tracker n) <> None) as Hns.
    { unfold t_Shape. rewrite Ev, Hnl by discriminate. discriminate. }
    rewrite (Heq Hns) in *. rewrite Hvw in *. rewrite unravel_ravel by exact Hb. split; [reflexivity|].
    intros s Hs. eapply source_okc; eauto. rewrite <- Ho. exact Hb.
  - assert (Hnone : forall s, s ∈ n_sources n -> nShape (h_nodes h) s = None).
    { intros s Hs. rewrite Forall_forall in Hsh. destruct (Hsh s Hs); congruence. }
    split; [|intros s Hs; rewrite Hnone by exact Hs; exact I].
    apply op_value_cells. intros s Hs. rewrite Forall_forall in Hsrc. destruct (Hsrc s Hs).
    apply lookup_lt_Some in Hl. apply den_splat; auto. lia.
Qed.

(** A viewed operation is evaluated at the cell its tracker locates. *)
Lemma den_op_view h l n c off : heap_ok h -> h_nodes h !! l = Some n -> n_err n = None -> n_kind n = kindOp ->
  viewed n = true -> okc (nShape (h_nodes h) l) c -> t_locate (n_tracker n) c = Some off ->
  den h l c = op_value (h_nodes h) (den h) n (unravel (opt_list (n_origin n)) off) /\
  forall s, s ∈ n_sources n -> okc (nShape (h_nodes h) s) (unravel (opt_list (n_origin n)) off).
Proof using.
  intros H Hl He Hk Hvw Hc Hoff. pose proof (heap_acyclic h H) as Ha.
  pose proof (heap_nodes h H l n Hl) as K. unfold node_ok in K. rewrite He, Hk in K.
  destruct K as (_ & _ & Hnil & Hop).
  rewrite (nShape_unfold _ _ n) in Hc by auto. rewrite op_shape in Hc by auto.
  rewrite (den_unfold h l n) by auto. unfold node_den. rewrite Hk, Hoff. unfold viewed in Hvw.
  assert (Hne : t_views (n_tracker n) <> []) by (intros Ev; rewrite Ev in Hvw; discriminate Hvw).
  destruct (t_views (n_tracker n)) eqn:Ev; [contradiction|].
  split; [reflexivity|]. intros s Hs. eapply source_okc_view; eauto. congruence.
Qed.
End values.

(** ** Rewriting preserves the meaning *)

(** The chains met while rewriting [l]: the table is keyed by their 64-bit
    hash, so it is right when no two of them share one. *)
Fixpoint chains (fuel : nat) (ns : list node) (l : nat) (steps : list stStep) : list (list stStep) :=
  match fuel with
  | O => []
  | S fuel' =>
      let n := get ns l in
      let next := if viewed n then steps ++ [own_step n] else steps in
      steps :: flat_map (fun s => chains fuel' ns s next) (n_sources n)
  end.

Definition hash_ok (Ss : list (list stStep)) : Prop :=
  forall s1 s2, s1 ∈ Ss -> s2 ∈ Ss -> stepsHash s1 = stepsHash s2 -> s1 = s2.

Section rewriting.
Context {E : FloatEnv}.
Context (h0 : heap) (Ss : list (list stStep)).
Hypothesis H0 : heap_ok h0.
Hypothesis Hinj : hash_ok Ss.

Let ns0 := h_nodes h0.

(** A node [m] of [h] computes, at an output cell, what [l] denotes at the
    cell the steps lead to. *)
Definition good (h : heap) (l : nat) (steps : list stStep) (m : nat) : Prop :=
  (m < length (h_nodes h))%nat /\ n_err (get (h_nodes h) m) = None /\
  n_dtype (get (h_nodes h) m) = n_dtype (get ns0 l) /\
  forall c c', walk steps c = Some c' -> okc (nShape ns0 l) c' ->
    (n_kind (get ns0 l) = kindOp -> viewed (get ns0 l) = true -> t_locate (n_tracker (get ns0 l)) c' <> None) ->
    flat h m c = den h0 l c'.

Definition good_state (st : rst) : Prop :=
  ext h0 (fst st) /\ fheap_ok (fst st) /\ h_splats (fst st) = h_splats h0 /\
  forall l k m, memo_get (snd st) (l, k) = Some m ->
    exists steps, steps ∈ Ss /\ stepsHash steps = k /\ good (fst st) l steps m.

Lemma good_ext h h' l steps m : fheap_ok h -> fheap_ok h' -> ext h h' -> good h l steps m -> good h' l steps m.
Proof using.
  intros Hf Hf' Hx (Hm & He & Hd & Hv). pose proof Hx as [[more Em] _].
  assert (Hg : get (h_nodes h') m = get (h_nodes h) m) by (rewrite Em; apply get_app, Hm).
  split; [rewrite Em, length_app; lia|]. rewrite Hg. split; [exact He|]. split; [exact Hd|].
  intros c c' Hw Hc Ht. rewrite (flat_ext h h') by auto using fheap_acyclic. apply Hv; auto.
Qed.

Lemma get_ext h l : ext h0 h -> (l < length ns0)%nat -> get (h_nodes h) l = get ns0 l.
Proof using. intros [[more Em] _] Hl. rewrite Em. apply get_app, Hl. Qed.

Lemma memo_get_set key l m k : memo_get ((key, l) :: m) k = if bool_decide (key = k) then Some l else memo_get m k.
Proof using. reflexivity. Qed.

(** Entering a good node in the table. *)
Lemma memo_set_state l steps m st : good_state st -> steps ∈ Ss -> good (fst st) l steps m ->
  let '(r, st') := memo_set (l, stepsHash steps) m st in
  good_state st' /\ ext (fst st) (fst st') /\ good (fst st') l steps r.
Proof using.
  intros (Hx & Hf & Hsp & Hmm) Hin Hg. cbn. split; [|split; [reflexivity|exact Hg]].
  split; [exact Hx|]. split; [exact Hf|]. split; [exact Hsp|]. intros l' k m' Hk. cbn [fst snd] in *.
  rewrite memo_get_set in Hk. case_bool_decide as Ek; [|eauto].
  injection Ek as <- <-. injection Hk as <-. eauto.
Qed.

(** Cloning a node and entering the clone. *)
Lemma clone_state l steps n st : good_state st -> steps ∈ Ss ->
  fnode_ok (h_nodes (fst st)) (length (h_nodes (fst st))) n -> n_err n = None ->
  n_dtype n = n_dtype (get ns0 l) ->
  (fheap_ok (snd (alloc n (fst st))) ->
   forall c c', walk steps c = Some c' -> okc (nShape ns0 l) c' ->
    (n_kind (get ns0 l) = kindOp -> viewed (get ns0 l) = true -> t_locate (n_tracker (get ns0 l)) c' <> None) ->
    node_flat (h_nodes (snd (alloc n (fst st)))) (h_bufs (fst st)) (flat (snd (alloc n (fst st)))) n c = den h0 l c') ->
  let '(r, st') := clone (l, stepsHash steps) n st in
  good_state st' /\ ext (fst st) (fst st') /\ good (fst st') l steps r.
Proof using.
  intros (Hx & Hf & Hsp & Hmm) Hin Hn He Hd Hv. unfold clone.
  pose proof (alloc_fok n (fst st) Hf Hn) as Hf'. pose proof (alloc_ext n (fst st)) as Hxx.
  specialize (Hv Hf'). pose proof (alloc_lookup n (fst st)) as Hl.
  destruct (alloc n (fst st)) as [m h] eqn:Ea. cbn [fst snd] in *.
  assert (Hgood : good h l steps m).
  { split; [eapply lookup_lt_Some, Hl|]. rewrite (get_lookup _ _ _ Hl). split; [exact He|]. split; [exact Hd|].
    intros c c' Hw Hc Ht. rewrite (flat_unfold h m n) by auto using fheap_acyclic.
    destruct Hxx as [_ Eb]. rewrite Eb. auto. }
  pose proof (memo_set_state l steps m (h, snd st)) as K. cbn [fst snd] in K.
  assert (Hst : good_state (h, snd st)).
  { split; [etransitivity; eauto|]. split; [exact Hf'|]. split.
    - unfold alloc in Ea. injection Ea as _ <-. exact Hsp.
    - intros l' k m' Hk. destruct (Hmm _ _ _ Hk) as (s' & Hs' & Ek & Hg). exists s'.
      split; [exact Hs'|]. split; [exact Ek|]. apply (good_ext (fst st) h); assumption. }
  specialize (K Hst Hin Hgood). destruct (memo_set _ _ _) as [r st'] eqn:Em.
  destruct K as (K1 & K2 & K3). split; [exact K1|]. split; [|exact K3]. etransitivity; eauto.
Qed.

(** *** Leaves *)

Lemma node0 l n : ns0 !! l = Some n -> n_err n = None -> acyclic ns0 /\ (l < length ns0)%nat /\ get ns0 l = n.
Proof using H0. intros Hl _. split; [apply heap_acyclic, H0|]. split; [eapply lookup_lt_Some, Hl|apply get_lookup, Hl]. Qed.

Lemma leaf_nf n c (g g' : nat -> list Z -> Z) l ns bufs ns' : ns0 !! l = Some n -> n_err n = None -> n_kind n <> kindOp ->
  n_kind n = kindConst \/ n_kind n = kindInput \/ viewed n = false ->
  okc (nShape ns0 l) c -> node_flat ns bufs g n c = node_den ns' bufs g' n c.
Proof using H0.
  intros Hl He Hk Hvw Hc. rewrite (nShape_unfold _ _ n) in Hc by (auto; apply heap_acyclic, H0).
  pose proof (heap_nodes h0 H0 l n Hl) as K. unfold node_ok in K. rewrite He in K.
  destruct K as (_ & Hch & Hnil & K). unfold node_shape in Hc. rewrite He in Hc.
  unfold node_flat, node_den. rewrite Hch. destruct (n_kind n); [| | |contradiction].
  - destruct K as (_ & _ & Hw). destruct (viewed n) eqn:Ev.
    + unfold viewed in Ev. destruct (t_views (n_tracker n)) eqn:Et; [discriminate Ev|]. rewrite <- Et.
      rewrite <- indexViews_spec. unfold as_option. destruct (snd _); reflexivity.
    + unfold viewed in Ev. destruct (t_views (n_tracker n)) eqn:Et; [reflexivity|].
      assert (Hne : t_views (n_tracker n) <> []) by congruence.
      destruct (okc_dims _ c Hnil Hne Hc) as (c0 & Hb & El & _).
      assert (Hct : Contiguous (n_tracker n) = true).
      { destruct (n_origin n); [apply orb_false_iff in Ev as [Ev _]|]; apply negb_false_iff in Ev; exact Ev. }
      rewrite <- El, (Contiguous_locate _ _ Hct Hb). reflexivity.
  - rewrite <- indexViews_spec. unfold as_option. destruct (indexViews _ c) as [o []]; reflexivity.
  - destruct Hvw as [?|[?|Ev]]; try discriminate. destruct K as (_ & Hw & Hslot).
    pose proof (wf_views _ _ Hw) as Hne. destruct (okc_dims _ c Hnil Hne Hc) as (c0 & Hb & El & Heq).
    unfold viewed in Ev. destruct (t_views (n_tracker n)) eqn:Et; [contradiction|].
    destruct (n_origin n) as [o|]; [|unfold Rank in Hslot; simpl in Hslot; lia].
    apply orb_false_iff in Ev as [Hct Ed]. apply negb_false_iff in Hct. apply negb_false_iff, bool_decide_eq_true in Ed.
    rewrite <- El, (Contiguous_locate _ _ Hct Hb). rewrite Ed in *. simpl opt_list in *. rewrite unravel_ravel by exact Hb.
    assert (Ec : c0 = c).
    { apply Heq. unfold t_Shape. rewrite Et. destruct (t_nil _) eqn:En; [|discriminate].
      rewrite (Hnil En) in Ed. subst o. unfold Rank in Hslot. simpl in Hslot. lia. }
    subst c0. unfold coord_word. apply in_bounds_length in Hb. unfold Rank in Hslot. rewrite Hb.
    destruct (Z.ltb_spec (n_slot n) 0), (Z.leb_spec (Z.of_nat (length o)) (n_slot n)); try lia. reflexivity.
Qed.

(** A node kept as it is. *)
Lemma keep_good l n st : good_state st -> [] ∈ Ss -> ns0 !! l = Some n -> n_err n = None ->
  (forall c, okc (nShape ns0 l) c -> flat (fst st) l c = den h0 l c) ->
  let '(r, st') := memo_set (l, stepsHash []) l st in
  good_state st' /\ ext (fst st) (fst st') /\ good (fst st') l [] r.
Proof using H0.
  intros Hst Hin Hl He Hv. apply memo_set_state; [exact Hst|exact Hin|].
  destruct (node0 l n Hl He) as (_ & Hlt & Hg). destruct Hst as (Hx & _).
  assert (Eg : get (h_nodes (fst st)) l = n) by (rewrite (get_ext _ _ Hx Hlt); exact Hg).
  split; [destruct Hx as [[more ->] _]; rewrite length_app; fold ns0; lia|].
  rewrite Eg, Hg. split; [exact He|]. split; [reflexivity|].
  intros c c' [= <-] Hc _. auto.
Qed.

Lemma leaf_kept st l n c : good_state st -> ns0 !! l = Some n -> n_err n = None -> n_kind n <> kindOp ->
  n_kind n = kindConst \/ n_kind n = kindInput \/ viewed n = false ->
  okc (nShape ns0 l) c -> flat (fst st) l c = den h0 l c.
Proof using H0.
  intros (Hx & Hf & _) Hl He Hk Hvw Hc. pose proof Hx as [[more Em] Eb].
  rewrite (flat_unfold (fst st) l n) by (auto using fheap_acyclic; rewrite Em; apply lookup_app_l_Some, Hl).
  rewrite (den_unfold h0 l n) by (auto; apply heap_acyclic, H0). rewrite Eb. eapply leaf_nf; eauto.
Qed.

(** A leaf cloned with its chain. *)
Lemma leaf_cloned st l n steps org : good_state st -> steps ∈ Ss -> ranked steps ->
  ns0 !! l = Some n -> n_err n = None -> n_kind n <> kindOp ->
  (n_kind n = kindCoord -> org = n_origin n) -> (n_kind n = kindConst -> t_views (n_tracker n) <> []) ->
  let '(r, st') := clone (l, stepsHash steps) (set_chain n (steps ++ [mkStep (n_tracker n) org])) st in
  good_state st' /\ ext (fst st) (fst st') /\ good (fst st') l steps r.
Proof using H0.
  intros Hst Hin Hr Hl He Hk Horg Hconst. destruct (node0 l n Hl He) as (_ & Hlt & Hg).
  pose proof (heap_nodes h0 H0 l n Hl) as K. unfold node_ok in K. rewrite He in K. destruct K as (Hd & _ & Hnil & K).
  apply clone_state; auto.
  - unfold fnode_ok. cbn [n_err set_chain n_dtype n_kind n_sources n_bits n_buf n_slot n_tracker]. rewrite He.
    split; [exact Hd|]. destruct (n_kind n); [tauto|tauto| |contradiction].
    destruct K as (K1 & K2 & K3). split; [exact K1|]. split; [lia|]. eapply wf_views, K2.
  - rewrite Hg. reflexivity.
  - intros _ c c' Hw Hc _. rewrite (den_unfold h0 l n) by (auto; apply heap_acyclic, H0).
    destruct Hst as ([_ Eb] & _). rewrite Eb.
    unfold node_flat, node_den. cbn [n_kind set_chain n_chain n_bits n_buf n_slot].
    set (ch := steps ++ [mkStep (n_tracker n) org]).
    pose proof (applyChain_spec steps (mkStep (n_tracker n) org) c c' Hr Hw) as Ha. fold ch in Ha.
    assert (Hne : exists x xs, ch = x :: xs) by (unfold ch; destruct steps; simpl; eauto).
    cbn [st_tr] in Ha. destruct (n_kind n) eqn:Ek; [| | |contradiction].
    + specialize (Hconst eq_refl). destruct (t_views (n_tracker n)) eqn:Ev; [contradiction|].
      rewrite <- Ha. unfold as_option. destruct Hne as (x & xs & ->). destruct (snd (applyChain _ c)); reflexivity.
    + rewrite <- Ha. unfold as_option. destruct Hne as (x & xs & ->). destruct (applyChain _ c) as [o []]; reflexivity.
    + destruct K as (_ & Hwf & Hslot). specialize (Horg eq_refl).
      assert (Hcc : chainCoords ch c = match t_locate (n_tracker n) c' with
        | Some off => (unravel (opt_list (n_origin n)) off, true)
        | None => (fst (chainCoords ch c), false) end).
      { destruct (t_locate (n_tracker n) c') as [off|] eqn:Eo.
        - apply chainCoords_spec.
          + apply Forall_app. split; [exact Hr|]. constructor; [|constructor]. simpl. rewrite Horg. intros E0.
            rewrite E0 in Hslot. unfold Rank in Hslot. simpl in Hslot. lia.
          + unfold ch. rewrite walk_app, Hw. simpl. rewrite Eo, Horg. reflexivity.
        - rewrite <- (chainCoords_none steps (mkStep (n_tracker n) org) c c' Hr Hw Eo). apply surjective_pairing. }
      destruct Hne as (x & xs & Hne). rewrite Hne in *. rewrite Hcc.
      destruct (t_locate (n_tracker n) c') as [off|]; [|reflexivity].
      unfold coord_word. rewrite length_unravel. unfold Rank in Hslot.
      destruct (Z.ltb_spec (n_slot n) 0), (Z.leb_spec (Z.of_nat (length (opt_list (n_origin n)))) (n_slot n));
        try lia. reflexivity.
Qed.

(** *** Operations *)

Lemma op_value_rel ns ns' (g g' : nat -> list Z -> Z) n n' c c' :
  n_op n' = n_op n -> n_dtype n' = n_dtype n ->
  Forall2 (fun s m => n_dtype (get ns' m) = n_dtype (get ns s) /\ g' m c = g s c') (n_sources n) (n_sources n') ->
  op_value ns' g' n' c = op_value ns g n c'.
Proof using.
  intros Ho Hd Hs. unfold op_value. rewrite Ho, Hd.
  assert (Hi : in_type ns' n' = in_type ns n).
  { unfold in_type. destruct Hs as [|s m ss ms [H _] _]; [reflexivity|exact H]. }
  assert (Ha : forall i, arg g' n' i c = arg g n i c').
  { intros i. unfold arg. destruct (n_sources n !! i) as [s|] eqn:Es.
    - destruct (Forall2_lookup_l _ _ _ _ _ Hs Es) as (m & -> & _ & Hg). exact Hg.
    - apply lookup_ge_None in Es. rewrite (Forall2_length _ _ _ Hs) in Es.
      apply lookup_ge_None in Es. rewrite Es. reflexivity. }
  rewrite Hi, !Ha. reflexivity.
Qed.

Lemma sound_located s c : sound ns0 s -> okc (nShape ns0 s) c -> n_kind (get ns0 s) = kindOp ->
  viewed (get ns0 s) = true -> t_locate (n_tracker (get ns0 s)) c <> None.
Proof using H0.
  intros Hs Hc Hk Hv. destruct Hs as [s n Hl He Hview _]. rewrite (get_lookup _ _ _ Hl) in *.
  destruct (Hview Hk Hv) as [Ht _].
  pose proof (heap_nodes h0 H0 s n Hl) as K. unfold node_ok in K. rewrite He in K. destruct K as (_ & _ & Hnil & _).
  rewrite (nShape_unfold _ _ n) in Hc by (auto; apply heap_acyclic, H0). rewrite op_shape in Hc by auto.
  unfold viewed in Hv. destruct (t_views (n_tracker n)) eqn:Ev; [discriminate Hv|].
  destruct (okc_dims _ c Hnil ltac:(congruence) Hc) as (c0 & Hb & <- & _). apply Ht, Hb.
Qed.

Lemma good_sources h ss ms next c c' : Forall2 (fun s m => good h s next m) ss ms ->
  (forall s, s ∈ ss -> sound ns0 s /\ okc (nShape ns0 s) c') -> walk next c = Some c' ->
  Forall2 (fun s m => n_dtype (get (h_nodes h) m) = n_dtype (get ns0 s) /\ flat h m c = den h0 s c') ss ms.
Proof using H0.
  intros H Hs Hw. induction H as [|s m ss ms Hg H IH]; constructor.
  - destruct Hg as (_ & _ & Hd & Hv). split; [exact Hd|]. destruct (Hs s ltac:(left)) as [Hsd Hc].
    apply Hv; auto. intros Hk Hvw. apply sound_located; auto.
  - apply IH. intros x Hx. apply Hs. right. exact Hx.
Qed.

Lemma types_ok_rel ns ns' n n' : n_op n' = n_op n -> n_dtype n' = n_dtype n ->
  Forall2 (fun s m => n_dtype (get ns' m) = n_dtype (get ns s)) (n_sources n) (n_sources n') ->
  types_ok ns n -> types_ok ns' n'.
Proof using.
  intros Ho Hd Hs. unfold types_ok. rewrite Ho, Hd.
  assert (Hi : in_type ns' n' = in_type ns n).
  { unfold in_type. destruct Hs as [|s m ss ms H _]; [reflexivity|exact H]. }
  assert (Hm : map (fun s => n_dtype (get ns' s)) (n_sources n') = map (fun s => n_dtype (get ns s)) (n_sources n)).
  { clear Ho Hd Hi. induction Hs as [|s m ss ms H Hs IH]; simpl; [reflexivity|]. rewrite H, IH. reflexivity. }
  assert (Hf : forall t, Forall (fun s => n_dtype (get ns s) = t) (n_sources n) ->
    Forall (fun s => n_dtype (get ns' s) = t) (n_sources n')).
  { intros t. clear Ho Hd Hi Hm. induction Hs as [|s m ss ms H Hs IH]; intros K; inversion K; subst; constructor; auto. }
  rewrite Hi, Hm. destruct (n_op n); try tauto; intros [H1 H2]; split; auto.
Qed.

(** An operation is kept when nothing below it changed. *)
Lemma op_kept l n st : good_state st -> [] ∈ Ss -> ns0 !! l = Some n -> n_err n = None -> n_kind n = kindOp ->
  viewed n = false -> (forall s, s ∈ n_sources n -> sound ns0 s) ->
  Forall2 (fun s m => good (fst st) s [] m) (n_sources n) (n_sources n) ->
  let '(r, st') := memo_set (l, stepsHash []) l st in
  good_state st' /\ ext (fst st) (fst st') /\ good (fst st') l [] r.
Proof using H0.
  intros Hst Hin Hl He Hk Hv Hs Hg. apply (keep_good l n); auto. intros c Hc.
  destruct (den_op_plain h0 l n c H0 Hl He Hk Hv Hc) as [-> Hsc].
  destruct Hst as (Hx & Hf & _). pose proof Hx as [[more Em] Eb].
  rewrite (flat_unfold (fst st) l n) by (auto using fheap_acyclic; rewrite Em; apply lookup_app_l_Some, Hl).
  unfold node_flat. rewrite Hk. apply op_value_rel; auto.
  apply (good_sources _ _ _ [] c c Hg); [|reflexivity]. intros s Hin'. auto.
Qed.

(** Otherwise it is cloned over the new sources, without its view. *)
Lemma op_cloned l n steps srcs st : good_state st -> steps ∈ Ss -> ns0 !! l = Some n -> n_err n = None ->
  n_kind n = kindOp -> (forall s, s ∈ n_sources n -> sound ns0 s) ->
  Forall2 (fun s m => good (fst st) s (if viewed n then steps ++ [own_step n] else steps) m) (n_sources n) srcs ->
  let '(r, st') := clone (l, stepsHash steps) (set_chain (set_sources n srcs) []) st in
  good_state st' /\ ext (fst st) (fst st') /\ good (fst st') l steps r.
Proof using H0.
  intros Hst Hin Hl He Hk Hs Hg. destruct (node0 l n Hl He) as (_ & Hlt & Egn).
  pose proof (heap_nodes h0 H0 l n Hl) as K. unfold node_ok in K. rewrite He, Hk in K.
  destruct K as (Hd & _ & Hnil & Har & Hsrc & Hty & _).
  apply clone_state; auto.
  - unfold fnode_ok. cbn [n_err set_chain set_sources n_dtype n_kind n_sources n_op]. rewrite He, Hk.
    split; [exact Hd|]. rewrite <- (Forall2_length _ _ _ Hg). split; [exact Har|]. split.
    + clear Har Hsrc Hty Hs. induction Hg as [|s m ss ms (G1 & G2 & _) Hg IH]; constructor; auto.
    + eapply (types_ok_rel ns0 _ n); [reflexivity|reflexivity| |exact Hty]. cbn [n_sources set_chain set_sources].
      eapply Forall2_impl; [exact Hg|]. intros s m (_ & _ & G & _). exact G.
  - rewrite Egn. reflexivity.
  - rewrite Egn. intros Hf' c c' Hw Hc Hloc. set (n' := set_chain (set_sources n srcs) []) in *.
    assert (Hval : forall next c2, Forall2 (fun s m => good (fst st) s next m) (n_sources n) srcs ->
      walk next c = Some c2 -> (forall s, s ∈ n_sources n -> okc (nShape ns0 s) c2) ->
      op_value (h_nodes (snd (alloc n' (fst st)))) (flat (snd (alloc n' (fst st)))) n' c
      = op_value ns0 (den h0) n c2).
    { intros next c2 Hg2 Hw2 Hc2. apply op_value_rel; [reflexivity|reflexivity|]. cbn [n_sources n' set_chain set_sources].
      apply (good_sources _ _ _ next c c2); [|auto|exact Hw2].
      destruct Hst as (_ & Hf & _). eapply Forall2_impl; [exact Hg2|]. intros s m Hgm.
      apply (good_ext (fst st)); auto. apply alloc_ext. }
    unfold node_flat. cbn [n_kind n' set_chain set_sources]. rewrite Hk.
    destruct (viewed n) eqn:Ev.
    + destruct (t_locate (n_tracker n) c') as [off|] eqn:Eo; [|exfalso; apply (Hloc Hk eq_refl); reflexivity].
      destruct (den_op_view h0 l n c' off H0 Hl He Hk Ev Hc Eo) as [-> Hsc].
      apply (Hval _ _ Hg); [|exact Hsc]. rewrite walk_app, Hw. simpl. rewrite Eo. reflexivity.
    + destruct (den_op_plain h0 l n c' H0 Hl He Hk Ev Hc) as [-> Hsc]. apply (Hval _ _ Hg Hw Hsc).
Qed.

(** *** The recursion *)

Lemma rewrite_good fuel : forall l steps st,
  (l < fuel)%nat -> root_sound ns0 l -> ranked steps ->
  (forall x, x ∈ chains fuel ns0 l steps -> x ∈ Ss) -> good_state st ->
  let '(m, st') := rewrite fuel l steps st in
  good_state st' /\ ext (fst st) (fst st') /\ good (fst st') l steps m.
Proof using H0 Hinj.
  induction fuel as [|fuel IH]; intros l steps st Hl Hrs Hr HS Hst; [lia|].
  destruct Hrs as (n & Hn & He & Hor & Hss). cbn [rewrite].
  destruct (node0 l n Hn He) as (_ & Hlt & Eg0).
  assert (Eg : get (h_nodes (fst st)) l = n) by (destruct Hst as (Hx & _); rewrite (get_ext _ _ Hx Hlt); exact Eg0).
  rewrite Eg, He.
  assert (HinS : steps ∈ Ss) by (apply HS; cbn [chains]; left).
  destruct (memo_get (snd st) (l, stepsHash steps)) as [m|] eqn:Em.
  { destruct Hst as (Hx & Hf & Hsp & Hmm). destruct (Hmm _ _ _ Em) as (steps' & Hin' & Ek & Hgm).
    rewrite (Hinj _ _ Hin' HinS Ek) in Hgm. split; [split; auto|]. split; [reflexivity|exact Hgm]. }
  destruct (n_kind n) eqn:Ek.
  - destruct (t_views (n_tracker n)) eqn:Ev.
    + destruct steps as [|s0 steps].
      * apply (keep_good l n); auto. intros c Hc. eapply leaf_kept; eauto; congruence.
      * apply memo_set_state; auto. destruct Hst as (Hx & Hf & _). pose proof Hx as [[more Emm] Eb].
        split; [rewrite Emm, length_app; fold ns0; lia|]. rewrite Eg, Eg0. split; [exact He|]. split; [reflexivity|].
        intros c c' _ _ _.
        rewrite (flat_unfold (fst st) l n) by (auto using fheap_acyclic; rewrite Emm; apply lookup_app_l_Some, Hn).
        rewrite (den_unfold h0 l n) by (auto; apply heap_acyclic, H0). unfold node_flat, node_den. rewrite Ek, Ev.
        pose proof (heap_nodes h0 H0 l n Hn) as K. unfold node_ok in K. rewrite He in K.
        destruct K as (_ & -> & _). unfold viewed. rewrite Ev. reflexivity.
    + destruct steps as [|s0 steps].
      * apply (keep_good l n); auto. intros c Hc. eapply leaf_kept; eauto; congruence.
      * apply leaf_cloned; auto; congruence.
  - destruct steps as [|s0 steps].
    + apply (keep_good l n); auto. intros c Hc. eapply leaf_kept; eauto; congruence.
    + apply leaf_cloned; auto; congruence.
  - destruct (bool_decide (steps = []) && negb (viewed n)) eqn:Ec.
    + apply andb_true_iff in Ec as [Ec1 Ec2]. apply bool_decide_eq_true in Ec1 as ->.
      apply negb_true_iff in Ec2.
      apply (keep_good l n); auto. intros c Hc. eapply leaf_kept; eauto; congruence.
    + apply leaf_cloned; auto; congruence.
  - set (next := if viewed n then steps ++ [own_step n] else steps).
    assert (Hrn : ranked next).
    { unfold next. destruct (viewed n) eqn:Ev; [|exact Hr]. apply Forall_app. split; [exact Hr|].
      constructor; [|constructor]. simpl. auto. }
    assert (Hsub : forall ss st, (forall s, s ∈ ss -> s ∈ n_sources n) -> good_state st ->
      let '(ms, st') := mapM_state (fun s => rewrite fuel s next) ss st in
      good_state st' /\ ext (fst st) (fst st') /\ Forall2 (fun s m => good (fst st') s next m) ss ms).
    { clear st Hst Eg Em. induction ss as [|s ss IHs]; intros st Hin Hst.
      - cbn. split; [exact Hst|]. split; [reflexivity|constructor].
      - cbn [mapM_state]. assert (Hs : s ∈ n_sources n) by (apply Hin; left).
        assert (Hlts : (s < l)%nat).
        { pose proof (heap_acyclic h0 H0 l n Hn) as Ha. rewrite Forall_forall in Ha. auto. }
        pose proof (IH s next st ltac:(lia) (sound_root _ _ (Hss s Hs)) Hrn) as K.
        specialize (K ltac:(intros x Hx; apply HS; cbn [chains]; rewrite Eg0; right;
          apply list_elem_of_In, in_flat_map; exists s; split; apply list_elem_of_In; assumption) Hst).
        destruct (rewrite fuel s next st) as [m st1]. destruct K as (K1 & K2 & K3).
        specialize (IHs st1 ltac:(intros x Hx; apply Hin; right; exact Hx) K1).
        destruct (mapM_state _ ss st1) as [ms st2]. destruct IHs as (J1 & J2 & J3).
        split; [exact J1|]. split; [etransitivity; eauto|]. constructor; [|exact J3].
        apply (good_ext (fst st1)); auto; [apply K1|apply J1]. }
    specialize (Hsub (n_sources n) st ltac:(auto) Hst).
    destruct (mapM_state _ (n_sources n) st) as [srcs st1]. destruct Hsub as (J1 & J2 & J3).
    destruct (negb (viewed n) && bool_decide (steps = []) && bool_decide (srcs = n_sources n)) eqn:Ec.
    + apply andb_true_iff in Ec as [Ec Ec3]. apply andb_true_iff in Ec as [Ec1 Ec2].
      apply bool_decide_eq_true in Ec2, Ec3. apply negb_true_iff in Ec1. subst srcs steps.
      unfold next in J3. rewrite Ec1 in J3.
      pose proof (op_kept l n st1 J1 HinS Hn He Ek Ec1 Hss J3) as K.
      destruct (memo_set _ _ _) as [r st2]. destruct K as (K1 & K2 & K3).
      split; [exact K1|]. split; [etransitivity; eauto|exact K3].
    + pose proof (op_cloned l n steps srcs st1 J1 HinS Hn He Ek Hss J3) as K.
      destruct (clone _ _ _) as [r st2]. destruct K as (K1 & K2 & K3).
      split; [exact K1|]. split; [etransitivity; eauto|exact K3].
Qed.
End rewriting.

(** ** Graphs that need no rewriting *)

(** The nodes below a node, itself included. *)
Inductive reach (ns : list node) (l : nat) : nat -> Prop :=
| reach_refl : reach ns l l
| reach_step x s : reach ns l x -> s ∈ n_sources (get ns x) -> reach ns l s.

Lemma reach_trans ns a b c : reach ns a b -> reach ns b c -> reach ns a c.
Proof. intros H1 H2. induction H2; [exact H1|]. eapply reach_step; eauto. Qed.

Lemma reach_source ns l s x : s ∈ n_sources (get ns l) -> reach ns s x -> reach ns l x.
Proof. intros Hs. apply reach_trans. eapply reach_step; [apply reach_refl|exact Hs]. Qed.

(** The walk over the sources inside [needsRewrite]. *)
Definition needs_sources (fuel : nat) (ns : list node) :=
  fix go (ss : list nat) (seen : list nat) : bool * list nat :=
    match ss with
    | [] => (false, seen)
    | s :: ss' =>
        let '(b, seen) := needsRewrite fuel ns s seen in
        if b then (true, seen) else go ss' seen
    end.

Lemma needsRewrite_unfold fuel ns l seen :
  needsRewrite (S fuel) ns l seen =
  if bool_decide (l ∈ seen) then (false, seen) else
  if viewed (get ns l) then (true, l :: seen)
  else needs_sources fuel ns (n_sources (get ns l)) (l :: seen).
Proof. reflexivity. Qed.

(** Everything added to [seen] is unviewed and has its sources there. *)
Definition explored (ns : list node) (seen seen' : list nat) : Prop :=
  (forall x, x ∈ seen -> x ∈ seen') /\
  forall x, x ∈ seen' -> x ∈ seen \/
    (viewed (get ns x) = false /\ forall s, s ∈ n_sources (get ns x) -> s ∈ seen').

Lemma explored_refl ns seen : explored ns seen seen.
Proof. split; auto. Qed.

Lemma explored_trans ns a b c : explored ns a b -> explored ns b c -> explored ns a c.
Proof.
  intros [H1 H2] [K1 K2]. split; [auto|]. intros x Hx. destruct (K2 x Hx) as [Hb|[Hv Hs]]; [|auto].
  destruct (H2 x Hb) as [Ha|[Hv Hs]]; [auto|]. right. split; [exact Hv|]. auto.
Qed.

Lemma needsRewrite_spec ns : acyclic ns -> forall fuel l seen,
  (l < fuel)%nat -> (l < length ns)%nat ->
  let '(b, seen') := needsRewrite fuel ns l seen in
  if b then exists x, reach ns l x /\ viewed (get ns x) = true
  else explored ns seen seen' /\ l ∈ seen'.
Proof.
  intros Ha. induction fuel as [|fuel IH]; intros l seen Hl Hlen; [lia|].
  rewrite needsRewrite_unfold. case_bool_decide as Hin.
  { split; [apply explored_refl|exact Hin]. }
  destruct (viewed (get ns l)) eqn:Ev; [exists l; split; [constructor|exact Ev]|].
  destruct (lookup_lt_is_Some_2 _ _ Hlen) as [n Hn]. pose proof (get_lookup _ _ _ Hn) as Eg.
  pose proof (Ha l n Hn) as Hsrc. rewrite <- Eg in Hsrc.
  assert (Hgo : forall ss seen, (forall s, s ∈ ss -> s ∈ n_sources (get ns l)) ->
    let '(b, seen') := needs_sources fuel ns ss seen in
    if b then exists x, reach ns l x /\ viewed (get ns x) = true
    else explored ns seen seen' /\ forall s, s ∈ ss -> s ∈ seen').
  { clear seen Hin. induction ss as [|s ss IHs]; intros seen Hss.
    - cbn. split; [apply explored_refl|]. intros s Hs. inversion Hs.
    - cbn [needs_sources]. rewrite Forall_forall in Hsrc. assert (Hs : s ∈ n_sources (get ns l)) by (apply Hss; left).
      specialize (Hsrc s Hs). pose proof (IH s seen ltac:(lia) ltac:(lia)) as K.
      destruct (needsRewrite fuel ns s seen) as [[] seen1].
      + destruct K as (x & Hx & Hv). exists x. split; [eapply reach_source; eauto|exact Hv].
      + destruct K as [K1 K2]. specialize (IHs seen1 ltac:(intros y Hy; apply Hss; right; exact Hy)).
        destruct (needs_sources fuel ns ss seen1) as [[] seen2]; [exact IHs|].
        destruct IHs as [J1 J2]. split; [eapply explored_trans; eauto|].
        intros y Hy. apply elem_of_cons in Hy as [->|Hy]; [apply J1, K2|auto]. }
  specialize (Hgo (n_sources (get ns l)) (l :: seen) ltac:(auto)).
  destruct (needs_sources fuel ns (n_sources (get ns l)) (l :: seen)) as [[] seen']; [exact Hgo|].
  destruct Hgo as [[G1 G2] G3]. split; [|apply G1; left]. split; [intros x Hx; apply G1; right; exact Hx|].
  intros x Hx. destruct (G2 x Hx) as [Hc|Hr]; [|auto]. apply elem_of_cons in Hc as [->|Hc]; auto.
Qed.

(** [needsRewrite] finds a view exactly when there is one. *)
Lemma needsRewrite_exact ns l : acyclic ns -> (l < length ns)%nat ->
  fst (needsRewrite (S l) ns l []) = true <-> exists x, reach ns l x /\ viewed (get ns x) = true.
Proof.
  intros Ha Hl. pose proof (needsRewrite_spec ns Ha (S l) l [] ltac:(lia) Hl) as K.
  destruct (needsRewrite (S l) ns l []) as [[] seen']; simpl; [split; auto|].
  split; [discriminate|]. intros (x & Hx & Hv). exfalso. destruct K as [[_ K2] K3].
  assert (Hin : forall y, reach ns l y -> y ∈ seen').
  { induction 1 as [|y s Hy IHy Hs]; [exact K3|]. destruct (K2 y IHy) as [Hn|[_ Hss]]; [inversion Hn|auto]. }
  destruct (K2 x (Hin x Hx)) as [Hn|[Hv' _]]; [inversion Hn|congruence].
Qed.

Section unviewed.
Context {E : FloatEnv}.

(** Such a graph already means what it says. *)
Lemma flat_unviewed h l c : heap_ok h -> (l < length (h_nodes h))%nat ->
  n_err (get (h_nodes h) l) = None ->
  (forall x, reach (h_nodes h) l x -> viewed (get (h_nodes h) x) = false) ->
  okc (nShape (h_nodes h) l) c -> flat h l c = den h l c.
Proof using.
  intros H. induction l as [l IH] using lt_wf_ind. intros Hl He Hv Hc.
  destruct (lookup_lt_is_Some_2 _ _ Hl) as [n Hn]. pose proof (get_lookup _ _ _ Hn) as Eg. rewrite Eg in He.
  pose proof (heap_acyclic h H) as Ha. rewrite (flat_unfold h l n) by auto.
  pose proof (Hv l ltac:(constructor)) as Hvl. rewrite Eg in Hvl.
  destruct (decide (n_kind n = kindOp)) as [Hk|Hk].
  - destruct (den_op_plain h l n c H Hn He Hk Hvl Hc) as [-> Hsc].
    unfold node_flat. rewrite Hk. apply op_value_cells. intros s Hs.
    pose proof (heap_nodes h H l n Hn) as K. unfold node_ok in K. rewrite He, Hk in K.
    destruct K as (_ & _ & _ & _ & Hsrc & _). rewrite Forall_forall in Hsrc. destruct (Hsrc s Hs).
    apply IH; auto; [lia|]. intros x Hx. apply Hv. eapply reach_source; [|exact Hx]. rewrite Eg. exact Hs.
  - rewrite (den_unfold h l n) by auto. apply (leaf_nf h H n c _ _ l); auto.
Qed.
End unviewed.
