(* ===== verification/Optimize.v ===== *)
(** * The graph optimizer (src/x/ndarray/optimize.go, kernel.go)

    [optimize] rewrites a graph bottom-up with seven rules, shares equal
    operations through a table keyed by operation, type and source pointers,
    and stops rewriting after 4096 steps.  The file models the rules and the
    rewriter and proves that the optimized graph computes the same value at
    every cell, up to the payload of a float NaN, that the rewriter
    terminates, and that the values keep their type. *)
From Stdlib Require Import ZArith Lia.
From Stdlib Require Import Floats.SpecFloat.
From stdpp Require Import base numbers option list.
From S2P Require Import Prelude Float Alu Shape View Tracker Expr Rewrite.

Local Open Scope Z_scope.

(** ** Rules *)

Definition optRewriteLimit : nat := 4096.

(** A rule gives the next node or nil; it may allocate. *)
Definition optRule {E : FloatEnv} : Type := nat -> heap -> option nat * heap.

Definition no_views (n : node) : bool :=
  match t_views (n_tracker n) with [] => true | _ => false end.

Definition no_chain (n : node) : bool :=
  match n_chain n with [] => true | _ => false end.

Definition is_kind (k : kind) (n : node) : bool := bool_decide (n_kind n = k).

Definition splatConst (n : node) : bool := is_kind kindConst n && no_views n && no_chain n.

Definition plainOp (n : node) : bool := is_kind kindOp n && negb (viewed n) && no_chain n.

Definition intArith (n : node) : bool :=
  plainOp n && bool_decide (n_dtype n = I32) && (bool_decide (n_op n = ADD) || bool_decide (n_op n = MUL)).

Definition isZeroConst (n : node) : bool := splatConst n && (n_bits n =? 0).

Definition isOneConst (n : node) : bool :=
  splatConst n &&
  match n_dtype n with
  | F32 => n_bits n =? float_one
  | _ => n_bits n =? 1
  end.

(** [n.sources[i]], as a pointer and as a node *)
Definition src (n : node) (i : nat) : nat := nth i (n_sources n) 0%nat.
Definition src_node (h : heap) (n : node) (i : nat) : node := get (h_nodes h) (src n i).

Section rules.
Context {E : FloatEnv}.

Definition foldConstOp : optRule := fun l h =>
  let n := get (h_nodes h) l in
  if negb (is_kind kindOp n) || viewed n || negb (no_chain n) then (None, h) else
  if negb (forallb (fun s => splatConst (get (h_nodes h) s)) (n_sources n)) then (None, h) else
  let bits i := match n_sources n !! i with None => 0 | Some s => n_bits (get (h_nodes h) s) end in
  let inType := match n_sources n with [] => n_dtype n | s :: _ => n_dtype (get (h_nodes h) s) end in
  let '(m, h) := internConst (n_dtype n) (alu (n_op n) (n_dtype n) inType (bits 0%nat) (bits 1%nat) (bits 2%nat)) h in
  (Some m, h).

Definition identityOp (h : heap) (l : nat) : nat :=
  let n := get (h_nodes h) l in
  if negb (is_kind kindOp n) || viewed n then l else
  match n_op n with
  | ADD =>
      if bool_decide (n_dtype n = F32) then l
      else if isZeroConst (src_node h n 1) then src n 0
      else if isZeroConst (src_node h n 0) then src n 1
      else l
  | MUL =>
      if isOneConst (src_node h n 1) then src n 0
      else if isOneConst (src_node h n 0) then src n 1
      else l
  | MAX => if bool_decide (src n 0 = src n 1) then src n 0 else l
  | WHERE =>
      if isZeroConst (src_node h n 0) then src n 2
      else if isOneConst (src_node h n 0) then src n 1
      else l
  | _ => l
  end.

Definition matchIdentity : optRule := fun l h =>
  let out := identityOp h l in
  if bool_decide (out = l) then (None, h) else (Some out, h).

Definition alloc_op (op : Op) (d : DType) (srcs : list nat) (h : heap) : option nat * heap :=
  let '(m, h) := opNode op d srcs h in (Some m, h).

Definition commuteIntConst : optRule := fun l h =>
  let n := get (h_nodes h) l in
  if negb (intArith n) || negb (bool_decide (length (n_sources n) = 2%nat)) then (None, h) else
  if negb (splatConst (src_node h n 0)) || splatConst (src_node h n 1) then (None, h) else
  alloc_op (n_op n) (n_dtype n) [src n 1; src n 0] h.

Definition assocIntConst : optRule := fun l h =>
  let n := get (h_nodes h) l in
  if negb (intArith n) || negb (bool_decide (length (n_sources n) = 2%nat))
     || negb (splatConst (src_node h n 1)) then (None, h) else
  let left := src_node h n 0 in
  if negb (intArith left) || negb (bool_decide (n_op left = n_op n))
     || negb (bool_decide (length (n_sources left) = 2%nat))
     || negb (splatConst (src_node h left 1)) then (None, h) else
  let bits := alu (n_op n) I32 I32 (n_bits (src_node h left 1)) (n_bits (src_node h n 1)) 0 in
  let '(c, h') := internConst I32 bits h in
  alloc_op (n_op n) I32 [src left 0; c] h'.

Definition matchNegNeg : optRule := fun l h =>
  let n := get (h_nodes h) l in
  if negb (plainOp n) || negb (bool_decide (n_op n = NEG))
     || (negb (bool_decide (n_dtype n = I32)) && negb (bool_decide (n_dtype n = F32))) then (None, h) else
  let inner := src_node h n 0 in
  if negb (plainOp inner) || negb (bool_decide (n_op inner = NEG))
     || negb (bool_decide (n_dtype inner = n_dtype n)) then (None, h)
  else (Some (src inner 0), h).

Definition matchWhereSame : optRule := fun l h =>
  let n := get (h_nodes h) l in
  if negb (plainOp n) || negb (bool_decide (n_op n = WHERE))
     || negb (bool_decide (length (n_sources n) = 3%nat)) then (None, h) else
  if negb (bool_decide (src n 1 = src n 2)) then (None, h) else (Some (src n 1), h).

Definition matchIntSrc : optRule := fun l h =>
  let n := get (h_nodes h) l in
  if negb (plainOp n) || negb (bool_decide (n_dtype n = I32))
     || negb (bool_decide (length (n_sources n) = 2%nat)) then (None, h) else
  let left := src_node h n 0 in
  let right := src_node h n 1 in
  match n_op n with
  | SHL | SHR | IDIV =>
      if (bool_decide (n_op n = IDIV) && isOneConst right)
         || (negb (bool_decide (n_op n = IDIV)) && isZeroConst right)
      then (Some (src n 0), h) else (None, h)
  | OR | XOR =>
      if isZeroConst right then (Some (src n 0), h)
      else if isZeroConst left then (Some (src n 1), h)
      else (None, h)
  | AND =>
      if splatConst right && (n_bits right =? 4294967295) then (Some (src n 0), h)
      else if splatConst left && (n_bits left =? 4294967295) then (Some (src n 1), h)
      else (None, h)
  | _ => (None, h)
  end.

Definition optRules : list optRule :=
  [foldConstOp; matchIdentity; commuteIntConst; assocIntConst; matchNegNeg; matchWhereSame; matchIntSrc].

(** The first rule whose result is another node. *)
Fixpoint applyOpt_loop (rules : list optRule) (l : nat) (h : heap) : option nat * heap :=
  match rules with
  | [] => (None, h)
  | rule :: rules' =>
      let '(next, h') := rule l h in
      match next with
      | Some m => if bool_decide (m = l) then applyOpt_loop rules' l h' else (Some m, h')
      | None => applyOpt_loop rules' l h'
      end
  end.

Definition applyOpt : optRule := applyOpt_loop optRules.

(** ** The rewriter *)

(** [fmt.Sprintf("%d/%d/%p...")] of an operation *)
Definition cse_key : Type := (Op * DType) * list nat.
Definition cseKey (n : node) : cse_key := ((n_op n, n_dtype n), n_sources n).

Fixpoint assoc_get {K A} `{EqDecision K} (table : list (K * A)) (key : K) : option A :=
  match table with
  | [] => None
  | (k, l) :: table' => if bool_decide (k = key) then Some l else assoc_get table' key
  end.

Record rewriter : Type := mkRewriter {
  r_heap : heap;
  r_memo : list (nat * nat);
  r_cse : list (cse_key * nat);
  r_left : nat
}.

Definition with_heap (r : rewriter) (h : heap) : rewriter := mkRewriter h (r_memo r) (r_cse r) (r_left r).

(** [r.memo[n] = out; return out] *)
Definition r_return (l out : nat) (r : rewriter) : nat * rewriter :=
  (out, mkRewriter (r_heap r) ((l, out) :: r_memo r) (r_cse r) (r_left r)).

Definition r_kind (r : rewriter) (l : nat) : kind := n_kind (get (h_nodes (r_heap r)) l).

(** The end of [node], after the rules. *)
Definition r_share (l out : nat) (r : rewriter) : nat * rewriter :=
  if negb (bool_decide (r_kind r out = kindOp)) then r_return l out r else
  let key := cseKey (get (h_nodes (r_heap r)) out) in
  match assoc_get (r_cse r) key with
  | Some hit => r_return l hit r
  | None =>
      r_return l out (mkRewriter (r_heap r) (r_memo r) ((key, out) :: r_cse r) (r_left r))
  end.

(** [node] of the sources, in order; [None] when the fuel runs out. *)
Fixpoint r_sources (f : nat -> rewriter -> option (nat * rewriter)) (ss : list nat) (r : rewriter)
    : option (list nat * rewriter) :=
  match ss with
  | [] => Some ([], r)
  | s :: ss' =>
      match f s r with
      | None => None
      | Some (m, r) =>
          match r_sources f ss' r with
          | None => None
          | Some (ms, r) => Some (m :: ms, r)
          end
      end
  end.

(** The loop over the rules; [k] is at least [r.left], which each round
    decreases. *)
Fixpoint r_rules (f : nat -> rewriter -> option (nat * rewriter)) (k : nat) (l out : nat) (r : rewriter)
    : option (nat * rewriter) :=
  match k, r_left r with
  | S k', S left' =>
      let '(next, h) := applyOpt out (r_heap r) in
      match next with
      | None => Some (r_share l out (with_heap r h))
      | Some next =>
          match f next (mkRewriter h (r_memo r) (r_cse r) left') with
          | None => None
          | Some (out, r) =>
              if negb (bool_decide (r_kind r out = kindOp)) then Some (r_return l out r)
              else r_rules f k' l out r
          end
      end
  | _, _ => Some (r_share l out r)
  end.

Fixpoint r_node (fuel : nat) (l : nat) (r : rewriter) : option (nat * rewriter) :=
  match fuel with
  | O => None
  | S fuel' =>
      match assoc_get (r_memo r) l with
      | Some m => Some (m, r)
      | None =>
          let n := get (h_nodes (r_heap r)) l in
          if negb (bool_decide (n_kind n = kindOp)) then Some (r_return l l r) else
          match r_sources (r_node fuel') (n_sources n) r with
          | None => None
          | Some (srcs, r) =>
              let '(out, h) :=
                if bool_decide (srcs = n_sources n) then (l, r_heap r)
                else alloc (set_sources n srcs) (r_heap r) in
              r_rules (r_node fuel') (r_left r) l out (with_heap r h)
          end
      end
  end.

Definition optimize (fuel : nat) (l : nat) (h : heap) : option (nat * heap) :=
  match r_node fuel l (mkRewriter h [] [] optRewriteLimit) with
  | None => None
  | Some (m, r) => Some (m, r_heap r)
  end.
End rules.

(** ** Plain nodes

    The kernel cuts the padding of its root, by the root's own tracker.  That
    cuts nothing else than the root does when the root is an operation or a
    coordinate without a view, or a constant or an input without a chain. *)
Definition plain_node (n : node) : Prop :=
  n_err n = None ->
  match n_kind n with
  | kindOp | kindCoord => viewed n = false
  | _ => n_chain n = []
  end.

Definition all_plain (h : heap) : Prop := Forall plain_node (h_nodes h).

(** ** The rules preserve values *)

Definition typ (h : heap) (l : nat) : DType := n_dtype (get (h_nodes h) l).

Section correctness.
Context {E : FloatEnv}.

(** [m] computes what [l] does. *)
Definition eqv (h : heap) (l m : nat) : Prop :=
  valid_ptr h m /\ typ h m = typ h l /\ forall c, weq (typ h l) (flat h m c) (flat h l c).

Lemma eqv_refl h l : valid_ptr h l -> eqv h l l.
Proof using. intros H. split; [exact H|]. split; [reflexivity|]. intros c. reflexivity. Qed.

Lemma eqv_trans h a b c : eqv h a b -> eqv h b c -> eqv h a c.
Proof using.
  intros (V1 & T1 & W1) (V2 & T2 & W2). split; [exact V2|]. split; [congruence|].
  intros x. rewrite <- T1. transitivity (flat h b x); [apply W2|]. rewrite T1. apply W1.
Qed.

Lemma valid_ext h h' l : ext h h' -> valid_ptr h l ->
  valid_ptr h' l /\ get (h_nodes h') l = get (h_nodes h) l.
Proof using.
  intros [[more Em] _] [Hl He]. assert (Eg : get (h_nodes h') l = get (h_nodes h) l) by (rewrite Em; apply get_app, Hl).
  split; [|exact Eg]. split; [rewrite Em, length_app; lia|congruence].
Qed.

Lemma eqv_ext h h' l m : fheap_ok h -> fheap_ok h' -> ext h h' -> valid_ptr h l -> eqv h l m -> eqv h' l m.
Proof using.
  intros Hf Hf' Hx Hl (Hm & Ht & Hw). destruct (valid_ext h h' l Hx Hl) as [_ El].
  destruct (valid_ext h h' m Hx Hm) as [Hm' Em]. unfold typ in *.
  split; [exact Hm'|]. unfold typ. rewrite El, Em. split; [exact Ht|]. intros c.
  destruct Hm, Hl. rewrite !(flat_ext h h') by auto using fheap_acyclic. apply Hw.
Qed.

(** *** An operation and its sources *)

Record op_facts (h : heap) (l : nat) (n : node) : Prop := {
  of_get : get (h_nodes h) l = n;
  of_lookup : h_nodes h !! l = Some n;
  of_num : is_number_type (n_dtype n) = true;
  of_arity : Z.of_nat (length (n_sources n)) = arity (n_op n);
  of_srcs : Forall (fun s => (s < l)%nat /\ valid_ptr h s) (n_sources n);
  of_types : types_ok (h_nodes h) n;
  of_flat : forall c, flat h l c = op_value (h_nodes h) (flat h) n c
}.

Lemma op_facts_intro h l : fheap_ok h -> valid_ptr h l -> n_kind (get (h_nodes h) l) = kindOp ->
  op_facts h l (get (h_nodes h) l).
Proof using.
  intros Hf [Hl He] Hk. destruct (lookup_lt_is_Some_2 _ _ Hl) as [n Hn].
  pose proof (get_lookup _ _ _ Hn) as Eg. rewrite Eg in *.
  pose proof (fheap_nodes h Hf l n Hn) as K. unfold fnode_ok in K. rewrite He, Hk in K.
  destruct K as (Hd & Har & Hs & Ht). split; auto.
  - eapply Forall_impl; [exact Hs|]. simpl. intros s [Hs1 Hs2]. split; [exact Hs1|]. split; [lia|exact Hs2].
  - intros c. rewrite (flat_unfold h l n) by auto using fheap_acyclic. unfold node_flat. rewrite Hk. reflexivity.
Qed.

(** *** Constant leaves *)

Lemma splatConst_flat h s c : fheap_ok h -> valid_ptr h s -> splatConst (get (h_nodes h) s) = true ->
  flat h s c = n_bits (get (h_nodes h) s) /\ word_ok (n_bits (get (h_nodes h) s)).
Proof using.
  intros Hf [Hl He] Hs. destruct (lookup_lt_is_Some_2 _ _ Hl) as [n Hn].
  pose proof (get_lookup _ _ _ Hn) as Eg. rewrite Eg in *.
  unfold splatConst, is_kind, no_views, no_chain in Hs.
  apply andb_true_iff in Hs as [Hs Hc]. apply andb_true_iff in Hs as [Hk Hv].
  apply bool_decide_eq_true in Hk. rewrite (flat_unfold h s n) by auto using fheap_acyclic.
  unfold node_flat. rewrite Hk. destruct (n_chain n); [|discriminate Hc].
  assert (viewed n = false) as ->.
  { unfold viewed. destruct (t_views (n_tracker n)); [reflexivity|discriminate Hv]. }
  split; [reflexivity|]. pose proof (fheap_nodes h Hf s n Hn) as K. unfold fnode_ok in K. rewrite He, Hk in K. apply K.
Qed.

Lemma isZeroConst_flat h s c : fheap_ok h -> valid_ptr h s -> isZeroConst (get (h_nodes h) s) = true -> flat h s c = 0.
Proof using.
  intros Hf Hs Hz. unfold isZeroConst in Hz. apply andb_true_iff in Hz as [Hc Hb].
  destruct (splatConst_flat h s c Hf Hs Hc) as [-> _]. lia.
Qed.

Lemma isOneConst_flat h s c : fheap_ok h -> valid_ptr h s -> isOneConst (get (h_nodes h) s) = true ->
  flat h s c = if bool_decide (typ h s = F32) then float_one else 1.
Proof using.
  intros Hf Hs Hz. unfold isOneConst in Hz. apply andb_true_iff in Hz as [Hc Hb].
  destruct (splatConst_flat h s c Hf Hs Hc) as [-> _]. unfold typ.
  destruct (n_dtype (get (h_nodes h) s)); simpl; lia.
Qed.

(** *** Operations by arity *)

Lemma op_one h l n a : op_facts h l n -> n_sources n = [a] ->
  valid_ptr h a /\ forall c, flat h l c = alu (n_op n) (n_dtype n) (typ h a) (flat h a c) 0 0.
Proof using.
  intros Ho Es. pose proof (of_srcs _ _ _ Ho) as Hs. rewrite Es in Hs. inversion Hs as [|? ? [_ Ha] _]; subst.
  split; [exact Ha|]. intros c. rewrite (of_flat _ _ _ Ho). unfold op_value, in_type, arg. rewrite Es. reflexivity.
Qed.

Lemma op_two h l n : op_facts h l n -> arity (n_op n) = 2 ->
  n_sources n = [src n 0; src n 1] /\ valid_ptr h (src n 0) /\ valid_ptr h (src n 1) /\
  (forall c, flat h l c = alu (n_op n) (n_dtype n) (typ h (src n 0)) (flat h (src n 0) c) (flat h (src n 1) c) 0) /\
  op_type (n_op n) (typ h (src n 0)) (n_dtype n) /\ typ h (src n 1) = typ h (src n 0).
Proof using.
  intros Ho Har. pose proof (of_arity _ _ _ Ho) as Hl. rewrite Har in Hl.
  pose proof (of_srcs _ _ _ Ho) as Hs. pose proof (of_flat _ _ _ Ho) as Hf. pose proof (of_types _ _ _ Ho) as Ht.
  unfold src. destruct (n_sources n) as [|a [|b [|? ?]]] eqn:Es; simpl in Hl; try lia.
  inversion Hs as [|? ? [_ Ha] Hs']; subst. inversion Hs' as [|? ? [_ Hb] _]; subst. simpl nth.
  split; [reflexivity|]. split; [exact Ha|]. split; [exact Hb|].
  split; [intros c; rewrite Hf; unfold op_value, in_type, arg; rewrite Es; reflexivity|].
  unfold types_ok, in_type in Ht. rewrite Es in Ht. unfold typ.
  destruct (n_op n); simpl in Har; try discriminate Har;
    (destruct Ht as [Ht1 Ht2]; split; [exact Ht1|]; inversion Ht2 as [|? ? _ Ht3]; inversion Ht3; subst; assumption).
Qed.

Lemma op_where h l n : op_facts h l n -> n_op n = WHERE ->
  valid_ptr h (src n 0) /\ valid_ptr h (src n 1) /\ valid_ptr h (src n 2) /\
  (forall c, flat h l c = alu WHERE (n_dtype n) I32 (flat h (src n 0) c) (flat h (src n 1) c) (flat h (src n 2) c)) /\
  typ h (src n 0) = I32 /\ typ h (src n 1) = n_dtype n /\ typ h (src n 2) = n_dtype n.
Proof using.
  intros Ho Hop. pose proof (of_arity _ _ _ Ho) as Hl. rewrite Hop in Hl. simpl in Hl.
  pose proof (of_srcs _ _ _ Ho) as Hs. pose proof (of_flat _ _ _ Ho) as Hf. pose proof (of_types _ _ _ Ho) as Ht.
  unfold types_ok in Ht. rewrite Hop in Ht.
  unfold src. destruct (n_sources n) as [|p [|a [|b [|? ?]]]] eqn:Es; simpl in Hl; try lia.
  inversion Hs as [|? ? [_ Hp] Hs']; subst. inversion Hs' as [|? ? [_ Ha] Hs'']; subst.
  inversion Hs'' as [|? ? [_ Hb] _]; subst. simpl in Ht. injection Ht as T0 T1 T2. simpl nth.
  split; [exact Hp|]. split; [exact Ha|]. split; [exact Hb|].
  split; [|unfold typ; auto]. intros c. rewrite Hf. unfold op_value.
  assert (in_type (h_nodes h) n = I32) as -> by (unfold in_type; rewrite Es; exact T0).
  unfold arg. rewrite Es, Hop. reflexivity.
Qed.

Lemma facts_typ h l n : op_facts h l n -> typ h l = n_dtype n.
Proof using. intros Ho. unfold typ. rewrite (of_get _ _ _ Ho). reflexivity. Qed.

(** *** Allocation *)

Definition grows (h h' : heap) : Prop :=
  fheap_ok h' /\ ext h h' /\ (all_plain h -> all_plain h').

Lemma grows_refl h : fheap_ok h -> grows h h.
Proof using. intros H. split; [exact H|]. split; [reflexivity|auto]. Qed.

Lemma grows_trans h1 h2 h3 : grows h1 h2 -> grows h2 h3 -> grows h1 h3.
Proof using. intros (_ & X1 & U1) (F & X2 & U2). split; [exact F|]. split; [etransitivity; eauto|auto]. Qed.

(** A node appended to the heap. *)
Lemma alloc_grows h n : fheap_ok h -> fnode_ok (h_nodes h) (length (h_nodes h)) n -> n_err n = None -> (all_plain h -> plain_node n) ->
  grows h (snd (alloc n h)) /\ valid_ptr (snd (alloc n h)) (fst (alloc n h)) /\
  get (h_nodes (snd (alloc n h))) (fst (alloc n h)) = n.
Proof using.
  intros Hf Hn He Hu. assert (Eg : get (h_nodes (snd (alloc n h))) (fst (alloc n h)) = n).
  { apply get_lookup, alloc_lookup. }
  split; [split; [apply alloc_fok; assumption|split; [apply alloc_ext|]]|split; [|exact Eg]].
  { intros H. apply Forall_app. split; [exact H|]. constructor; [auto|constructor]. }
  split; [|rewrite Eg; exact He]. simpl. rewrite length_app. simpl. lia.
Qed.

Lemma internConst_grows h d bits : fheap_ok h -> is_number_type d = true -> word_ok bits ->
  let '(m, h') := internConst d bits h in
  grows h h' /\ valid_ptr h' m /\ get (h_nodes h') m = const_node d bits.
Proof using.
  intros Hf Hd Hb. unfold internConst. destruct (splat_lookup (bits, d) (h_splats h)) as [l|] eqn:El.
  - pose proof (fheap_splats h Hf _ _ _ El) as Hl. pose proof (get_lookup _ _ _ Hl) as Eg.
    split; [apply grows_refl, Hf|]. split; [|exact Eg]. split; [apply lookup_lt_Some in Hl; exact Hl|rewrite Eg; reflexivity].
  - destruct (alloc_grows h (const_node d bits) Hf) as ((G1 & G2) & V & Eg).
    { split; [exact Hd|]. split; [reflexivity|exact Hb]. } { reflexivity. } { intros _ _; reflexivity. }
    split; [split; [|exact G2]|split; [exact V|exact Eg]].
    split; [apply (fheap_nodes _ G1)|apply (fheap_bufs _ G1)|]. intros b' d' l' Hk. cbn [h_splats] in Hk.
    rewrite splat_lookup_ext in Hk. case_bool_decide as Ek.
    + injection Ek as <- <-. injection Hk as <-. apply list_lookup_middle. reflexivity.
    + apply (fheap_splats _ G1), Hk.
Qed.

(** An interned constant in place of a node that computes it. *)
Lemma intern_eqv h l bits : fheap_ok h -> valid_ptr h l -> is_number_type (typ h l) = true -> word_ok bits ->
  (forall c, weq (typ h l) bits (flat h l c)) ->
  let '(m, h') := internConst (typ h l) bits h in grows h h' /\ eqv h' l m.
Proof using.
  intros Hf Hl Hd Hb Hw. pose proof (internConst_grows h (typ h l) bits Hf Hd Hb) as K.
  destruct (internConst _ _ _) as [m h']. destruct K as (Hgr & Hm & Eg). split; [exact Hgr|]. destruct Hgr as (Hf' & Hx & _).
  destruct (valid_ext h h' l Hx Hl) as [_ El]. split; [exact Hm|]. unfold typ in *. rewrite El, Eg. split; [reflexivity|].
  intros c. destruct (splatConst_flat h' m c Hf' Hm) as [-> _]; [rewrite Eg; reflexivity|].
  rewrite Eg. cbn [n_bits const_node]. destruct Hl. rewrite (flat_ext h h') by auto using fheap_acyclic. apply Hw.
Qed.

(** A binary operation allocated over valid operands. *)
Lemma alloc_two h op d a b : fheap_ok h -> valid_ptr h a -> valid_ptr h b -> arity op = 2 ->
  is_number_type d = true -> op_type op (typ h a) d -> typ h b = typ h a ->
  let '(m, h') := opNode op d [a; b] h in
  grows h h' /\ valid_ptr h' m /\ typ h' m = d /\
  forall c, flat h' m c = alu op d (typ h a) (flat h a c) (flat h b c) 0.
Proof using.
  intros Hf Ha Hb Har Hd Ht Htb. change (opNode op d [a; b] h) with (alloc (op_node op d [a; b]) h).
  destruct (alloc_grows h (op_node op d [a; b]) Hf) as (Hgr & Hm & Eg).
  { split; [exact Hd|]. simpl. split; [rewrite Har; reflexivity|]. destruct Ha, Hb.
    split; [repeat constructor; auto|].
    apply (types_ok_plain _ _ _ _ (typ h a)); [intros ->; discriminate Har|exact Ht|reflexivity|repeat constructor; auto]. }
  { reflexivity. } { intros _ _; reflexivity. }
  set (r := alloc (op_node op d [a; b]) h) in *. destruct r as [m h'] eqn:Er. cbn [fst snd] in *.
  split; [exact Hgr|]. destruct Hgr as (Hf' & Hx & _).
  split; [exact Hm|]. split; [unfold typ; rewrite Eg; reflexivity|]. intros c.
  assert (Hk : n_kind (get (h_nodes h') m) = kindOp) by (rewrite Eg; reflexivity).
  pose proof (op_facts_intro h' m Hf' Hm Hk) as Ho.
  destruct (op_two h' m _ Ho) as (_ & _ & _ & Hfl & _); [rewrite Eg; exact Har|].
  rewrite Hfl, Eg. unfold src. cbn [n_op op_node n_dtype n_sources nth]. unfold typ.
  destruct (valid_ext h h' a Hx Ha) as [_ ->]. destruct Ha, Hb.
  rewrite !(flat_ext h h') by auto using fheap_acyclic. reflexivity.
Qed.

(** *** The rules *)

Definition rule_sound (rule : optRule) : Prop := forall l h, fheap_ok h -> valid_ptr h l ->
  let '(o, h') := rule l h in grows h h' /\ match o with Some m => eqv h' l m | None => True end.

(** A rule that answers with an existing node. *)
Lemma answer_sound h l m : fheap_ok h -> eqv h l m -> grows h h /\ eqv h l m.
Proof using. intros Hf He. split; [apply grows_refl, Hf|exact He]. Qed.

Lemma nothing_sound h : fheap_ok h -> grows h h /\ True.
Proof using. intros Hf. split; [apply grows_refl, Hf|exact I]. Qed.

Lemma flat_word h l c : fheap_ok h -> valid_ptr h l -> word_ok (flat h l c).
Proof using. intros Hf [Hl He]. apply flat_ok; assumption. Qed.

(** An operation of two operands that equals the first, or the second. *)
Lemma eqv_first h l n : fheap_ok h -> op_facts h l n -> arity (n_op n) = 2 -> n_dtype n = typ h (src n 0) ->
  (forall x c, word_ok x -> weq (n_dtype n) x (alu (n_op n) (n_dtype n) (n_dtype n) x (flat h (src n 1) c) 0)) ->
  eqv h l (src n 0).
Proof using.
  intros Hf Ho Har Hd Hw. destruct (op_two h l n Ho Har) as (_ & Ha & _ & Hfl & _).
  split; [exact Ha|]. rewrite (facts_typ h l n Ho). split; [congruence|].
  intros c. rewrite Hfl, <- Hd. apply Hw, flat_word; assumption.
Qed.

Lemma eqv_second h l n : fheap_ok h -> op_facts h l n -> arity (n_op n) = 2 -> n_dtype n = typ h (src n 0) ->
  (forall x c, word_ok x -> weq (n_dtype n) x (alu (n_op n) (n_dtype n) (n_dtype n) (flat h (src n 0) c) x 0)) ->
  eqv h l (src n 1).
Proof using.
  intros Hf Ho Har Hd Hw. destruct (op_two h l n Ho Har) as (_ & _ & Hb & Hfl & _ & Hbt).
  split; [exact Hb|]. rewrite (facts_typ h l n Ho). split; [congruence|].
  intros c. rewrite Hfl, <- Hd. apply Hw, flat_word; assumption.
Qed.

Lemma eq_weq d x y : x = y -> weq d x y.
Proof using. left. assumption. Qed.

Lemma arith_type h l n : op_facts h l n -> n_op n = ADD \/ n_op n = MUL \/ n_op n = MAX ->
  arity (n_op n) = 2 /\ n_dtype n = typ h (src n 0) /\ (n_dtype n = F32 \/ n_dtype n = I32).
Proof using.
  intros Ho Hop. assert (Har : arity (n_op n) = 2) by (destruct Hop as [-> | [-> | ->]]; reflexivity).
  destruct (op_two h l n Ho Har) as (_ & _ & _ & _ & Ht & _). split; [exact Har|].
  destruct Hop as [Hop|[Hop|Hop]]; rewrite Hop in Ht; simpl in Ht; destruct Ht as [Ht1 Ht2]; split; congruence || (rewrite Ht2; exact Ht1).
Qed.

Lemma matchIdentity_sound : rule_sound matchIdentity.
Proof using.
  intros l h Hf Hl. unfold matchIdentity. case_bool_decide as Hne; [apply nothing_sound, Hf|].
  apply answer_sound; [exact Hf|]. revert Hne. unfold identityOp. set (n := get (h_nodes h) l).
  destruct (negb (is_kind kindOp n) || viewed n) eqn:Hg; [contradiction|].
  apply orb_false_iff in Hg as [Hg _]. apply negb_false_iff, bool_decide_eq_true in Hg.
  pose proof (op_facts_intro h l Hf Hl Hg) as Ho. fold n in Ho.
  destruct (n_op n) eqn:Eop; try contradiction.
  - destruct (arith_type h l n Ho) as (Har & Hd & Ht); [auto|]. destruct (op_two h l n Ho Har) as (_ & Ha & Hb & _).
    case_bool_decide as EF; [contradiction|]. destruct Ht as [?|Ht]; [contradiction|].
    destruct (isZeroConst (src_node h n 1)) eqn:E1; [intros _|destruct (isZeroConst (src_node h n 0)) eqn:E0; [intros _|contradiction]].
    + apply eqv_first; auto. intros x c Hx. rewrite (isZeroConst_flat h _ c Hf Hb E1), Ht, Eop, alu_add_zero by exact Hx. reflexivity.
    + apply eqv_second; auto. intros x c Hx.
      rewrite (isZeroConst_flat h _ c Hf Ha E0), Ht, Eop, alu_add_comm, alu_add_zero by exact Hx. reflexivity.
  - destruct (arith_type h l n Ho) as (Har & Hd & Ht); [auto|]. destruct (op_two h l n Ho Har) as (_ & Ha & Hb & _ & _ & Hbt).
    destruct (isOneConst (src_node h n 1)) eqn:E1; [intros _|destruct (isOneConst (src_node h n 0)) eqn:E0; [intros _|contradiction]].
    + apply eqv_first; auto. intros x c Hx. rewrite (isOneConst_flat h _ c Hf Hb E1), Hbt, <- Hd, Eop.
      destruct Ht as [-> | ->]; symmetry; [apply alu_fmul_one, Hx|apply eq_weq, alu_mul_one, Hx].
    + apply eqv_second; auto. intros x c Hx. rewrite (isOneConst_flat h _ c Hf Ha E0), <- Hd, Eop.
      destruct Ht as [-> | ->]; symmetry.
      * etransitivity; [apply alu_fmul_comm|apply alu_fmul_one, Hx].
      * apply eq_weq. rewrite bool_decide_false by discriminate. rewrite alu_mul_comm. apply alu_mul_one, Hx.
  - destruct (arith_type h l n Ho) as (Har & Hd & Ht); [auto|]. case_bool_decide as Es; [intros _|contradiction].
    destruct (op_two h l n Ho Har) as (_ & Ha & _ & Hfl & _). split; [exact Ha|].
    rewrite (facts_typ h l n Ho). split; [congruence|]. intros c. rewrite Hfl, <- Es, <- Hd, Eop.
    symmetry. apply alu_max_same; [exact Ht|]. apply flat_word; assumption.
  - destruct (op_where h l n Ho Eop) as (Hp & Ha & Hb & Hfl & Tp & Ta & Tb).
    destruct (isZeroConst (src_node h n 0)) eqn:E0; [intros _|destruct (isOneConst (src_node h n 0)) eqn:E1; [intros _|contradiction]].
    + split; [exact Hb|]. rewrite (facts_typ h l n Ho). split; [exact Tb|]. intros c.
      rewrite Hfl, (isZeroConst_flat h _ c Hf Hp E0). reflexivity.
    + split; [exact Ha|]. rewrite (facts_typ h l n Ho). split; [exact Ta|]. intros c.
      rewrite Hfl, (isOneConst_flat h _ c Hf Hp E1), Tp. reflexivity.
Qed.

Lemma plainOp_facts h l : fheap_ok h -> valid_ptr h l -> plainOp (get (h_nodes h) l) = true ->
  op_facts h l (get (h_nodes h) l).
Proof using.
  intros Hf Hl Hp. apply op_facts_intro; auto. unfold plainOp in Hp.
  apply andb_true_iff in Hp as [Hp _]. apply andb_true_iff in Hp as [Hp _]. apply bool_decide_eq_true in Hp. exact Hp.
Qed.

Lemma intArith_facts h l : fheap_ok h -> valid_ptr h l -> intArith (get (h_nodes h) l) = true ->
  op_facts h l (get (h_nodes h) l) /\ n_dtype (get (h_nodes h) l) = I32 /\
  (n_op (get (h_nodes h) l) = ADD \/ n_op (get (h_nodes h) l) = MUL).
Proof using.
  intros Hf Hl Hi. unfold intArith in Hi. apply andb_true_iff in Hi as [Hi Ho]. apply andb_true_iff in Hi as [Hp Hd].
  apply bool_decide_eq_true in Hd. split; [apply plainOp_facts; assumption|]. split; [exact Hd|].
  apply orb_true_iff in Ho as [Ho|Ho]; apply bool_decide_eq_true in Ho; auto.
Qed.

(** A source of a fold reads its constant. *)
Lemma const_arg h l n i c : fheap_ok h -> op_facts h l n ->
  forallb (fun s => splatConst (get (h_nodes h) s)) (n_sources n) = true ->
  let bits := match n_sources n !! i with None => 0 | Some s => n_bits (get (h_nodes h) s) end in
  arg (flat h) n i c = bits /\ word_ok bits.
Proof using.
  intros Hf Ho Hall. simpl. unfold arg. destruct (n_sources n !! i) as [s|] eqn:Es; [|split; [reflexivity|apply zero_ok]].
  apply list_elem_of_lookup_2 in Es. rewrite forallb_forall in Hall.
  pose proof (of_srcs _ _ _ Ho) as Hs. rewrite Forall_forall in Hs. destruct (Hs s Es) as [_ Hv].
  apply splatConst_flat; auto. apply Hall, list_elem_of_In, Es.
Qed.

Lemma foldConstOp_sound : rule_sound foldConstOp.
Proof using.
  intros l h Hf Hl. unfold foldConstOp. set (n := get (h_nodes h) l).
  destruct (negb (is_kind kindOp n) || viewed n || negb (no_chain n)) eqn:Hg; [apply nothing_sound, Hf|].
  apply orb_false_iff in Hg as [Hg _]. apply orb_false_iff in Hg as [Hg _].
  apply negb_false_iff, bool_decide_eq_true in Hg.
  pose proof (op_facts_intro h l Hf Hl Hg) as Ho. fold n in Ho.
  destruct (forallb _ _) eqn:Hall; [|apply nothing_sound, Hf]. simpl negb. cbv iota.
  pose proof (fun i c => const_arg h l n i c Hf Ho Hall) as Hc. simpl in Hc.
  set (bits := alu _ _ _ _ _ _).
  assert (Hb : word_ok bits) by (apply alu_ok; apply (Hc _ [])).
  pose proof (intern_eqv h l bits Hf Hl) as K. rewrite (facts_typ h l n Ho) in K. specialize (K (of_num _ _ _ Ho) Hb).
  destruct (internConst _ _ _) as [m h']. apply K. intros c. apply eq_weq.
  rewrite (of_flat _ _ _ Ho). unfold op_value. rewrite !(proj1 (Hc _ c)). unfold bits. f_equal.
  unfold in_type. pose proof (of_arity _ _ _ Ho) as Ha. destruct (n_sources n); [|reflexivity].
  destruct (n_op n); discriminate Ha.
Qed.

Lemma commuteIntConst_sound : rule_sound commuteIntConst.
Proof using.
  intros l h Hf Hl. unfold commuteIntConst. set (n := get (h_nodes h) l).
  destruct (negb (intArith n) || _) eqn:Hg; [apply nothing_sound, Hf|].
  apply orb_false_iff in Hg as [Hg _]. apply negb_false_iff in Hg.
  destruct (_ || _); [apply nothing_sound, Hf|].
  destruct (intArith_facts h l Hf Hl Hg) as (Ho & Hd & Hop). fold n in Ho, Hd, Hop.
  destruct (arith_type h l n Ho) as (Har & Hd0 & _); [tauto|].
  destruct (op_two h l n Ho Har) as (_ & Ha & Hb & Hfl & Ht & Hbt).
  unfold alloc_op. pose proof (alloc_two h (n_op n) (n_dtype n) (src n 1) (src n 0) Hf Hb Ha Har (of_num _ _ _ Ho)) as K.
  rewrite Hbt in K. specialize (K Ht eq_refl). destruct (opNode _ _ _ _) as [m h']. destruct K as (Hgr & Hm & Tm & Hfm).
  split; [exact Hgr|]. destruct Hgr as (Hf' & Hx & _). destruct (valid_ext h h' l Hx Hl) as [_ El].
  split; [exact Hm|]. unfold typ in *. rewrite El. fold n. split; [exact Tm|]. intros c.
  destruct Hl. rewrite (flat_ext h h' l) by auto using fheap_acyclic. rewrite Hfm, Hfl, <- Hd0, Hd. apply eq_weq.
  destruct Hop as [-> | ->]; [apply alu_add_comm|apply alu_mul_comm].
Qed.

Lemma alu_assoc op x a b : op = ADD \/ op = MUL ->
  alu op I32 I32 (alu op I32 I32 x a 0) b 0 = alu op I32 I32 x (alu op I32 I32 a b 0) 0.
Proof using. intros [-> | ->]; [apply alu_add_assoc|apply alu_mul_assoc]. Qed.

Lemma assocIntConst_sound : rule_sound assocIntConst.
Proof using.
  intros l h Hf Hl. unfold assocIntConst. set (n := get (h_nodes h) l).
  destruct (negb (intArith n) || _ || _) eqn:Hg; [apply nothing_sound, Hf|].
  apply orb_false_iff in Hg as [Hg Hc]. apply orb_false_iff in Hg as [Hg _]. apply negb_false_iff in Hg, Hc.
  destruct (intArith_facts h l Hf Hl Hg) as (Ho & Hd & Hop). fold n in Ho, Hd, Hop.
  destruct (arith_type h l n Ho) as (Har & Hd0 & _); [tauto|].
  destruct (op_two h l n Ho Har) as (_ & Ha & Hb & Hfl & _ & _).
  unfold src_node in *. set (left := get (h_nodes h) (src n 0)) in *.
  destruct (negb (intArith left) || _ || _ || _) eqn:Hg'; [apply nothing_sound, Hf|].
  apply orb_false_iff in Hg' as [Hg' Hc']. apply orb_false_iff in Hg' as [Hg' _]. apply orb_false_iff in Hg' as [Hg' Hop'].
  apply negb_false_iff in Hg', Hc', Hop'. apply bool_decide_eq_true in Hop'.
  destruct (intArith_facts h (src n 0) Hf Ha Hg') as (Ho' & Hd' & _). fold left in Ho', Hd'.
  destruct (arith_type h _ left Ho') as (Har' & Hd0' & _); [rewrite Hop'; tauto|].
  destruct (op_two h _ left Ho' Har') as (_ & Ha' & Hb' & Hfl' & _ & _).
  set (bits := alu _ _ _ _ _ _).
  destruct (splatConst_flat h (src n 1) [] Hf Hb Hc) as [_ W1].
  destruct (splatConst_flat h (src left 1) [] Hf Hb' Hc') as [_ W2].
  assert (Hbits : word_ok bits) by (apply alu_ok; auto using zero_ok).
  pose proof (internConst_grows h I32 bits Hf eq_refl Hbits) as K.
  destruct (internConst I32 bits h) as [k h1]. destruct K as (Hg1 & Hk & Ek). pose proof Hg1 as (Hf1 & Hx1 & _).
  destruct (valid_ext h h1 _ Hx1 Ha') as [Ha1 Ea1]. unfold alloc_op.
  assert (T0 : typ h1 (src left 0) = I32) by (unfold typ; rewrite Ea1; fold (typ h (src left 0)); congruence).
  pose proof (alloc_two h1 (n_op n) I32 (src left 0) k Hf1 Ha1 Hk Har eq_refl) as K. rewrite T0 in K.
  assert (Tk : typ h1 k = I32) by (unfold typ; rewrite Ek; reflexivity).
  specialize (K ltac:(destruct Hop as [-> | ->]; simpl; auto) Tk).
  destruct (opNode _ _ _ _) as [m h']. destruct K as (Hg2 & Hm & Tm & Hfm).
  split; [eapply grows_trans; eassumption|].
  destruct Hg2 as (Hf2 & Hx2 & _). assert (Hx : ext h h') by (etransitivity; eauto).
  destruct (valid_ext h h' l Hx Hl) as [_ El]. split; [exact Hm|]. unfold typ at 2 3. rewrite El. fold n.
  split; [congruence|]. intros c. apply eq_weq.
  rewrite Hfm. destruct (splatConst_flat h1 k c Hf1 Hk) as [-> _]; [rewrite Ek; reflexivity|]. rewrite Ek. cbn [n_bits const_node].
  destruct Hl, Ha'. rewrite (flat_ext h h' l), (flat_ext h h1 (src left 0)) by auto using fheap_acyclic.
  rewrite Hfl, Hfl', <- Hd0, <- Hd0', Hd, Hd', Hop'. unfold bits, src_node.
  destruct (splatConst_flat h (src n 1) c Hf Hb Hc) as [-> _].
  destruct (splatConst_flat h (src left 1) c Hf Hb' Hc') as [-> _].
  symmetry. apply alu_assoc, Hop.
Qed.

Lemma neg_operand h l : fheap_ok h -> op_facts h l (get (h_nodes h) l) -> n_op (get (h_nodes h) l) = NEG ->
  let n := get (h_nodes h) l in
  valid_ptr h (src n 0) /\ typ h (src n 0) = n_dtype n /\
  forall c, flat h l c = alu NEG (n_dtype n) (n_dtype n) (flat h (src n 0) c) 0 0.
Proof using.
  intros Hf Ho Hop n. fold n in Ho, Hop. pose proof (of_arity _ _ _ Ho) as Har. rewrite Hop in Har.
  pose proof (of_types _ _ _ Ho) as Ht. unfold types_ok in Ht. rewrite Hop in Ht. destruct Ht as [[_ Ht] _].
  unfold src. destruct (n_sources n) as [|a [|? ?]] eqn:Es; simpl in Har; try lia.
  destruct (op_one h l n a Ho Es) as [Ha Hfl]. unfold in_type in Ht. rewrite Es in Ht. simpl nth.
  split; [exact Ha|]. split; [symmetry; exact Ht|]. intros c. rewrite Hfl, Hop. unfold typ. rewrite <- Ht. reflexivity.
Qed.

Lemma matchNegNeg_sound : rule_sound matchNegNeg.
Proof using.
  intros l h Hf Hl. unfold matchNegNeg. set (n := get (h_nodes h) l).
  destruct (negb (plainOp n) || _ || _) eqn:Hg; [apply nothing_sound, Hf|].
  apply orb_false_iff in Hg as [Hg Hd]. apply orb_false_iff in Hg as [Hg Hop]. apply negb_false_iff in Hg, Hop.
  apply bool_decide_eq_true in Hop. assert (Ht : n_dtype n = F32 \/ n_dtype n = I32).
  { apply andb_false_iff in Hd as [Hd|Hd]; apply negb_false_iff, bool_decide_eq_true in Hd; auto. }
  pose proof (plainOp_facts h l Hf Hl Hg) as Ho. fold n in Ho.
  destruct (neg_operand h l Hf Ho Hop) as (Ha & Ta & Hfl). fold n in Ha, Ta, Hfl.
  unfold src_node. set (inner := get (h_nodes h) (src n 0)).
  destruct (negb (plainOp inner) || _ || _) eqn:Hg'; [apply nothing_sound, Hf|].
  apply orb_false_iff in Hg' as [Hg' Hd']. apply orb_false_iff in Hg' as [Hg' Hop']. apply negb_false_iff in Hg', Hop', Hd'.
  apply bool_decide_eq_true in Hop', Hd'. pose proof (plainOp_facts h _ Hf Ha Hg') as Ho'.
  destruct (neg_operand h _ Hf Ho' Hop') as (Hb & Tb & Hfl'). fold inner in Hb, Tb, Hfl'.
  apply answer_sound; [exact Hf|]. split; [exact Hb|]. rewrite (facts_typ h l n Ho). split; [congruence|].
  intros c. rewrite Hfl, Hfl', Hd'. symmetry. apply alu_neg_neg; [exact Ht|]. apply flat_word; assumption.
Qed.

Lemma matchWhereSame_sound : rule_sound matchWhereSame.
Proof using.
  intros l h Hf Hl. unfold matchWhereSame. set (n := get (h_nodes h) l).
  destruct (negb (plainOp n) || _ || _) eqn:Hg; [apply nothing_sound, Hf|].
  apply orb_false_iff in Hg as [Hg _]. apply orb_false_iff in Hg as [Hg Hop]. apply negb_false_iff in Hg, Hop.
  apply bool_decide_eq_true in Hop. case_bool_decide as Es; [|apply nothing_sound, Hf]. simpl negb. cbv iota.
  pose proof (plainOp_facts h l Hf Hl Hg) as Ho. fold n in Ho.
  destruct (op_where h l n Ho Hop) as (_ & Ha & _ & Hfl & _ & Ta & _).
  apply answer_sound; [exact Hf|]. split; [exact Ha|]. rewrite (facts_typ h l n Ho). split; [exact Ta|].
  intros c. rewrite Hfl, <- Es, alu_where_same. reflexivity.
Qed.

Lemma int_laws op x : op = SHL \/ op = SHR \/ op = OR \/ op = XOR -> word_ok x -> alu op I32 I32 x 0 0 = x.
Proof using.
  intros [-> | [-> | [-> | ->]]]; [apply alu_shl_zero|apply alu_shr_zero|apply alu_or_zero|apply alu_xor_zero].
Qed.

(** An int operation over [i32] whose right, or left, operand is a splat
    that leaves the other one unchanged. *)
Lemma int_first h l n w : fheap_ok h -> op_facts h l n -> arity (n_op n) = 2 -> n_dtype n = I32 ->
  typ h (src n 0) = I32 -> (forall c, flat h (src n 1) c = w) ->
  (forall x, word_ok x -> alu (n_op n) I32 I32 x w 0 = x) -> eqv h l (src n 0).
Proof using.
  intros Hf Ho Har Hd Ht Hc Hw. apply eqv_first; auto; [congruence|]. intros x c Hx.
  rewrite Hd, Hc, Hw by exact Hx. reflexivity.
Qed.

Lemma int_second h l n w : fheap_ok h -> op_facts h l n -> n_op n = OR \/ n_op n = XOR \/ n_op n = AND ->
  n_dtype n = I32 -> typ h (src n 0) = I32 -> (forall c, flat h (src n 0) c = w) ->
  (forall x, word_ok x -> alu (n_op n) I32 I32 x w 0 = x) -> eqv h l (src n 1).
Proof using.
  intros Hf Ho Hop Hd Ht Hc Hw. apply eqv_second; auto; [destruct Hop as [-> | [-> | ->]]; reflexivity|congruence|].
  intros x c Hx. rewrite Hd, Hc, alu_bit_comm, Hw by assumption. reflexivity.
Qed.

Lemma splat_ones h s c : fheap_ok h -> valid_ptr h s ->
  splatConst (get (h_nodes h) s) && (n_bits (get (h_nodes h) s) =? 4294967295) = true -> flat h s c = 4294967295.
Proof using.
  intros Hf Hs H. apply andb_true_iff in H as [H1 H2]. destruct (splatConst_flat h s c Hf Hs H1) as [-> _]. lia.
Qed.

Lemma matchIntSrc_sound : rule_sound matchIntSrc.
Proof using.
  intros l h Hf Hl. unfold matchIntSrc. set (n := get (h_nodes h) l).
  destruct (negb (plainOp n) || _ || _) eqn:Hg; [apply nothing_sound, Hf|].
  apply orb_false_iff in Hg as [Hg _]. apply orb_false_iff in Hg as [Hg Hd]. apply negb_false_iff in Hg, Hd.
  apply bool_decide_eq_true in Hd. pose proof (plainOp_facts h l Hf Hl Hg) as Ho. fold n in Ho. unfold src_node.
  destruct (n_op n) eqn:Eop; try apply (nothing_sound h Hf).
  all: assert (Har : arity (n_op n) = 2) by (rewrite Eop; reflexivity);
    destruct (op_two h l n Ho Har) as (_ & Ha & Hb & _ & Ht & _); rewrite Eop in Ht; destruct Ht as [Ht _].
  - rewrite bool_decide_true by reflexivity. simpl. rewrite orb_false_r.
    destruct (isOneConst _) eqn:E1; [|apply nothing_sound, Hf]. apply answer_sound; [exact Hf|].
    apply (int_first h l n 1); auto; rewrite ?Eop; auto using alu_idiv_one.
    intros c. rewrite (isOneConst_flat h _ c Hf Hb E1).
    destruct (op_two h l n Ho Har) as (_ & _ & _ & _ & _ & Tb). rewrite Tb, Ht. reflexivity.
  - destruct (isZeroConst (get _ (src n 1))) eqn:E1; [apply answer_sound; [exact Hf|]; apply (int_first h l n 0)
      |destruct (isZeroConst (get _ (src n 0))) eqn:E0; [apply answer_sound; [exact Hf|]; apply (int_second h l n 0)|apply nothing_sound, Hf]];
      auto; rewrite ?Eop; auto using isZeroConst_flat, alu_xor_zero.
  - rewrite bool_decide_false by discriminate. simpl.
    destruct (isZeroConst _) eqn:E1; [|apply nothing_sound, Hf]. apply answer_sound; [exact Hf|].
    apply (int_first h l n 0); auto; rewrite ?Eop; auto using isZeroConst_flat, alu_shl_zero.
  - rewrite bool_decide_false by discriminate. simpl.
    destruct (isZeroConst _) eqn:E1; [|apply nothing_sound, Hf]. apply answer_sound; [exact Hf|].
    apply (int_first h l n 0); auto; rewrite ?Eop; auto using isZeroConst_flat, alu_shr_zero.
  - destruct (isZeroConst (get _ (src n 1))) eqn:E1; [apply answer_sound; [exact Hf|]; apply (int_first h l n 0)
      |destruct (isZeroConst (get _ (src n 0))) eqn:E0; [apply answer_sound; [exact Hf|]; apply (int_second h l n 0)|apply nothing_sound, Hf]];
      auto; rewrite ?Eop; auto using isZeroConst_flat, alu_or_zero.
  - destruct (splatConst (get _ (src n 1)) && _) eqn:E1; [apply answer_sound; [exact Hf|]; apply (int_first h l n 4294967295)
      |destruct (splatConst (get _ (src n 0)) && _) eqn:E0; [apply answer_sound; [exact Hf|]; apply (int_second h l n 4294967295)|apply nothing_sound, Hf]];
      auto; rewrite ?Eop; auto using splat_ones, alu_and_ones.
Qed.

Lemma applyOpt_loop_sound rules : Forall rule_sound rules -> rule_sound (applyOpt_loop rules).
Proof using.
  induction 1 as [|rule rules Hr Hrs IH]; intros l h Hf Hl; [apply nothing_sound, Hf|].
  cbn [applyOpt_loop]. pose proof (Hr l h Hf Hl) as K. destruct (rule l h) as [o h1]. destruct K as [K1 K2].
  assert (Hrest : let '(o, h') := applyOpt_loop rules l h1 in grows h h' /\ match o with Some m => eqv h' l m | None => True end).
  { pose proof K1 as (Hf1 & Hx1 & _). destruct (valid_ext h h1 l Hx1 Hl) as [Hl1 _]. specialize (IH l h1 Hf1 Hl1).
    destruct (applyOpt_loop rules l h1) as [o' h2]. destruct IH as [J1 J2]. split; [|exact J2].
    eapply grows_trans; eassumption. }
  destruct o as [m|]; [|exact Hrest]. case_bool_decide; [exact Hrest|]. split; assumption.
Qed.

(** Every rewrite keeps the value at every cell. *)
Lemma applyOpt_sound : rule_sound applyOpt.
Proof using.
  apply applyOpt_loop_sound. repeat constructor.
  - apply foldConstOp_sound.
  - apply matchIdentity_sound.
  - apply commuteIntConst_sound.
  - apply assocIntConst_sound.
  - apply matchNegNeg_sound.
  - apply matchWhereSame_sound.
  - apply matchIntSrc_sound.
Qed.

(** ** The rewriter preserves values and stops *)

Record state_ok (r : rewriter) : Prop := {
  so_heap : fheap_ok (r_heap r);
  so_memo : forall l m, assoc_get (r_memo r) l = Some m -> valid_ptr (r_heap r) l /\ eqv (r_heap r) l m;
  so_cse : forall key m, assoc_get (r_cse r) key = Some m ->
    valid_ptr (r_heap r) m /\ n_kind (get (h_nodes (r_heap r)) m) = kindOp /\ cseKey (get (h_nodes (r_heap r)) m) = key
}.

(** [m] stands for [l], and the state only grew. *)
Definition stands (r : rewriter) (l : nat) (res : nat * rewriter) : Prop :=
  state_ok (snd res) /\ grows (r_heap r) (r_heap (snd res)) /\ (r_left (snd res) <= r_left r)%nat /\
  eqv (r_heap (snd res)) l (fst res).

Lemma with_heap_ok r h left : state_ok r -> grows (r_heap r) h ->
  state_ok (mkRewriter h (r_memo r) (r_cse r) left).
Proof using.
  intros [H1 H2 H3] (Hf & Hx & _). split; cbn [r_heap r_memo r_cse]; [exact Hf| |].
  - intros l m Hm. destruct (H2 l m Hm) as [Hl He]. destruct (valid_ext _ h l Hx Hl) as [Hl' _].
    split; [exact Hl'|]. apply (eqv_ext (r_heap r)); assumption.
  - intros key m Hm. destruct (H3 key m Hm) as (Hv & Hk & Ek). destruct (valid_ext _ h m Hx Hv) as [Hv' ->]. auto.
Qed.

Lemma stands_trans r r1 l m res : grows (r_heap r) (r_heap r1) -> (r_left r1 <= r_left r)%nat ->
  valid_ptr (r_heap r) l -> eqv (r_heap r1) l m -> stands r1 m res -> stands r l res.
Proof using.
  intros Hg Hle Hl He (H1 & H2 & H3 & H4).
  destruct (valid_ext _ (r_heap r1) l (proj1 (proj2 Hg)) Hl) as [Hl' _].
  split; [exact H1|]. split; [eapply grows_trans; eauto|]. split; [lia|].
  eapply eqv_trans; [|exact H4]. destruct Hg as (Hf & _). destruct H2 as (Hf' & Hx & _).
  apply (eqv_ext (r_heap r1)); assumption.
Qed.

Lemma r_return_stands r l out : state_ok r -> valid_ptr (r_heap r) l -> eqv (r_heap r) l out ->
  stands r l (r_return l out r).
Proof using.
  intros Hr Hl He. unfold r_return. split; [|split; [apply grows_refl, Hr|split; [reflexivity|exact He]]].
  split; cbn [r_heap r_memo r_cse snd]; [apply Hr| |apply Hr]. intros l' m'. cbn [assoc_get].
  case_bool_decide as E'; [|apply Hr]. subst l'. intros [= <-]. auto.
Qed.

(** Operations with the same key have the same value. *)
Lemma same_key h a b : fheap_ok h -> valid_ptr h a -> valid_ptr h b ->
  n_kind (get (h_nodes h) a) = kindOp -> n_kind (get (h_nodes h) b) = kindOp ->
  cseKey (get (h_nodes h) a) = cseKey (get (h_nodes h) b) -> eqv h a b.
Proof using.
  intros Hf Ha Hb Ka Kb Hk. injection Hk as Eo Ed Es. split; [exact Hb|]. unfold typ. split; [congruence|].
  intros c. apply eq_weq. rewrite (of_flat _ _ _ (op_facts_intro h a Hf Ha Ka)), (of_flat _ _ _ (op_facts_intro h b Hf Hb Kb)).
  unfold op_value, in_type, arg. rewrite Eo, Ed, Es. reflexivity.
Qed.

Lemma r_share_stands r l out : state_ok r -> valid_ptr (r_heap r) l -> eqv (r_heap r) l out ->
  stands r l (r_share l out r).
Proof using.
  intros Hr Hl He. unfold r_share, r_kind. case_bool_decide as Hk; simpl negb; cbv iota; [|apply r_return_stands; auto].
  destruct (assoc_get (r_cse r) _) as [hit|] eqn:Eh.
  - apply r_return_stands; auto. destruct (so_cse r Hr _ _ Eh) as (Hv & Kh & Ek).
    eapply eqv_trans; [exact He|]. apply same_key; auto; [apply Hr|apply He].
  - set (r1 := mkRewriter _ _ _ _).
    apply (stands_trans r r1 l l); [apply grows_refl, Hr|reflexivity|exact Hl|apply eqv_refl, Hl|].
    apply r_return_stands; auto. subst r1. split; cbn [r_heap r_memo r_cse]; [apply Hr|apply Hr|].
    intros key m. cbn [assoc_get]. case_bool_decide as E'; [|apply Hr]. intros [= <-]. subst key.
    split; [apply He|]. auto.
Qed.

(** *** A clone over equivalent sources *)

Lemma op_value_weq h n n' c : n_op n' = n_op n -> n_dtype n' = n_dtype n -> types_ok (h_nodes h) n ->
  Forall2 (eqv h) (n_sources n) (n_sources n') ->
  weq (n_dtype n) (op_value (h_nodes h) (flat h) n' c) (op_value (h_nodes h) (flat h) n c).
Proof using.
  intros Eo Ed Ht Hs. unfold op_value. rewrite Eo, Ed.
  assert (Ei : in_type (h_nodes h) n' = in_type (h_nodes h) n).
  { unfold in_type. destruct Hs as [|s m ss ms (_ & Hm & _) _]; [reflexivity|exact Hm]. }
  rewrite Ei. assert (Harg : forall i t, (forall s, n_sources n !! i = Some s -> typ h s = t) ->
    weq t (arg (flat h) n' i c) (arg (flat h) n i c)).
  { intros i t Hi. unfold arg. destruct (n_sources n !! i) as [s|] eqn:Es.
    - destruct (Forall2_lookup_l _ _ _ _ _ Hs Es) as (m & -> & _ & _ & Hw). rewrite <- (Hi s eq_refl). apply Hw.
    - destruct (n_sources n' !! i) as [m|] eqn:Em; [|reflexivity].
      destruct (Forall2_lookup_r _ _ _ _ _ Hs Em) as (s & Hs' & _). congruence. }
  unfold types_ok in Ht. destruct (decide (n_op n = WHERE)) as [Hw|Hw].
  - rewrite Hw in Ht |- *. destruct (n_sources n) as [|p [|a [|b [|? ?]]]] eqn:Es; try discriminate Ht.
    injection Ht as T0 T1 T2.
    assert (in_type (h_nodes h) n = I32) as -> by (unfold in_type; rewrite Es; exact T0).
    rewrite (weq_int I32 _ _ ltac:(discriminate) (Harg 0%nat I32 ltac:(intros s [= <-]; exact T0))).
    apply alu_where_weq; apply Harg; intros s [= <-]; assumption.
  - assert (Ht' : op_type (n_op n) (in_type (h_nodes h) n) (n_dtype n) /\
        Forall (fun s => n_dtype (get (h_nodes h) s) = in_type (h_nodes h) n) (n_sources n))
      by (destruct (n_op n); try exact Ht; contradiction).
    destruct Ht' as [Hop Hf].
    apply alu_weq; [exact Hop| | |]; apply Harg; intros s Hs'; eapply Forall_lookup_1 in Hf; eauto.
Qed.

Lemma clone_stands h l srcs : fheap_ok h -> valid_ptr h l -> n_kind (get (h_nodes h) l) = kindOp ->
  Forall2 (eqv h) (n_sources (get (h_nodes h) l)) srcs ->
  let '(m, h') := alloc (set_sources (get (h_nodes h) l) srcs) h in grows h h' /\ eqv h' l m.
Proof using.
  intros Hf Hl Hk Hs. set (n := get (h_nodes h) l) in *. set (n' := set_sources n srcs).
  pose proof (op_facts_intro h l Hf Hl Hk) as Ho. fold n in Ho.
  assert (Hty : types_ok (h_nodes h) n').
  { eapply (types_ok_rel (h_nodes h) (h_nodes h) n n'); [reflexivity|reflexivity| |apply (of_types _ _ _ Ho)].
    eapply Forall2_impl; [exact Hs|]. intros s m (_ & Ht & _). exact Ht. }
  assert (Hlen : length srcs = length (n_sources n)) by (symmetry; eapply Forall2_length, Hs).
  destruct (alloc_grows h n' Hf) as (Hgr & Hm & Eg).
  - unfold fnode_ok. cbn [n' n_err n_dtype n_kind n_sources n_op set_sources]. rewrite (proj2 Hl : n_err n = None), Hk.
    split; [apply (of_num _ _ _ Ho)|]. rewrite Hlen. split; [apply (of_arity _ _ _ Ho)|]. split; [|exact Hty].
    clear -Hs. induction Hs as [|s m ss ms (Hv & _) _ IH]; constructor; auto.
  - exact (proj2 Hl).
  - intros Hu. unfold all_plain in Hu. rewrite Forall_forall in Hu.
    assert (Hin : n ∈ h_nodes h) by (eapply list_elem_of_lookup_2, (of_lookup _ _ _ Ho)).
    intros He. specialize (Hu n Hin He). cbn [n' n_kind set_sources]. rewrite Hk in Hu |- *. exact Hu.
  - set (r := alloc n' h) in *. destruct r as [m h'] eqn:Er. cbn [fst snd] in *. split; [exact Hgr|].
    destruct Hgr as (Hf' & Hx & _). destruct (valid_ext h h' l Hx Hl) as [Hl' El]. split; [exact Hm|]. unfold typ. rewrite El, Eg.
    split; [reflexivity|]. intros c. fold n.
    assert (Hkm : n_kind (get (h_nodes h') m) = kindOp) by (rewrite Eg; exact Hk).
    pose proof (op_facts_intro h' m Hf' Hm Hkm) as Hom. rewrite (of_flat _ _ _ Hom), Eg.
    assert (Hkl : n_kind (get (h_nodes h') l) = kindOp) by (rewrite El; exact Hk).
    pose proof (op_facts_intro h' l Hf' Hl' Hkl) as Hol. rewrite El in Hol. rewrite (of_flat _ _ _ Hol). fold n.
    apply op_value_weq; [reflexivity|reflexivity|fold n in Hol; apply (of_types _ _ _ Hol)|].
    assert (Hv : Forall (valid_ptr h) (n_sources n)).
    { eapply Forall_impl; [apply (of_srcs _ _ _ Ho)|]. simpl. tauto. }
    clear -Hs Hf Hf' Hx Hv. cbn [n' n_sources set_sources]. induction Hs as [|s k ss ms He Hs IH]; constructor; inversion Hv; subst; auto.
    apply (eqv_ext h); assumption.
Qed.

(** *** Enough fuel *)

(** [node] answers for every pointer below [b], or with fewer than [L]
    rewrites left. *)
Definition answers (L b : nat) : Prop := forall l r, (l < b)%nat -> (r_left r <= L)%nat -> state_ok r ->
  valid_ptr (r_heap r) l -> exists res, gives (fun fuel => r_node fuel l r) res /\ stands r l res.

Lemma r_sources_total L b : answers L b -> forall ss r, (r_left r <= L)%nat -> state_ok r ->
  Forall (fun s => (s < b)%nat /\ valid_ptr (r_heap r) s) ss ->
  exists ms r', gives (fun fuel => r_sources (r_node fuel) ss r) (ms, r') /\
    state_ok r' /\ grows (r_heap r) (r_heap r') /\ (r_left r' <= r_left r)%nat /\
    Forall2 (eqv (r_heap r')) ss ms.
Proof using.
  intros HA. induction ss as [|s ss IH]; intros r Hle Hr Hs.
  { exists [], r. split; [exists 0%nat; reflexivity|]. split; [exact Hr|]. split; [apply grows_refl, Hr|].
    split; [reflexivity|constructor]. }
  inversion Hs as [|? ? [Hb Hv] Hs']; subst. destruct (HA s r Hb Hle Hr Hv) as ([m r1] & [F1 G1] & S1 & S2 & S3 & S4).
  cbn [fst snd] in *. destruct (IH r1) as (ms & r2 & [F2 G2] & J1 & J2 & J3 & J4); [lia|exact S1| |].
  { eapply Forall_impl; [exact Hs'|]. simpl. intros x [Hx Hvx]. split; [exact Hx|].
    apply (valid_ext (r_heap r)); [apply S2|exact Hvx]. }
  exists (m :: ms), r2. split.
  { exists (F1 `max` F2)%nat. intros fuel Hfuel. simpl. rewrite G1 by lia. rewrite G2 by lia. reflexivity. }
  split; [exact J1|]. split; [eapply grows_trans; eauto|]. split; [lia|]. constructor; [|exact J4].
  destruct J2 as (Jf & Jx & _). apply (eqv_ext (r_heap r1)); [apply S1|exact Jf|exact Jx| |exact S4].
  apply (valid_ext (r_heap r)); [apply S2|exact Hv].
Qed.

(** The answer of a rule is answered for with one rewrite less. *)
Lemma r_rules_total L : (forall L' b, (L' < L)%nat -> answers L' b) -> forall k l out r, (r_left r <= L)%nat ->
  state_ok r -> valid_ptr (r_heap r) l -> eqv (r_heap r) l out ->
  exists res, gives (fun fuel => r_rules (r_node fuel) k l out r) res /\ stands r l res.
Proof using.
  intros HL. assert (Hshare : forall l out r, state_ok r -> valid_ptr (r_heap r) l -> eqv (r_heap r) l out ->
    exists res, gives (fun _ => Some (r_share l out r)) res /\ stands r l res).
  { intros l out r Hr Hl He. exists (r_share l out r). split; [exists 0%nat; reflexivity|]. apply r_share_stands; auto. }
  induction k as [|k IH]; intros l out r Hle Hr Hl He; cbn [r_rules]; [apply Hshare; auto|].
  destruct (r_left r) as [|left'] eqn:El; [apply Hshare; auto|].
  pose proof (applyOpt_sound out (r_heap r) (so_heap r Hr) (proj1 He)) as K.
  destruct (applyOpt out (r_heap r)) as [next h]. destruct K as [Hg Hn].
  destruct (valid_ext _ h l (proj1 (proj2 Hg)) Hl) as [Hl' _].
  assert (He' : eqv h l out).
  { apply (eqv_ext (r_heap r)); [apply Hr|apply Hg|apply Hg|exact Hl|exact He]. }
  destruct next as [next|].
  2: { destruct (Hshare l out (with_heap r h)) as (res & G & St); [apply with_heap_ok; auto|exact Hl'|exact He'|].
       exists res. split; [exact G|].
       apply (stands_trans r (with_heap r h) l l); [exact Hg|reflexivity|exact Hl|apply eqv_refl, Hl'|exact St]. }
  set (r1 := mkRewriter h (r_memo r) (r_cse r) left').
  assert (Hr1 : state_ok r1) by (apply with_heap_ok; auto).
  assert (Hn' : eqv h l next) by (eapply eqv_trans; eauto).
  destruct (HL left' (S next) ltac:(lia) next r1 ltac:(lia) ltac:(reflexivity) Hr1 (proj1 Hn')) as ([m r2] & [F1 G1] & S1 & S2 & S3 & S4).
  cbn [fst snd] in *. assert (Hm : eqv (r_heap r2) l m).
  { eapply eqv_trans; [|exact S4]. apply (eqv_ext h); [apply Hg|apply S2|apply S2|exact Hl'|exact Hn']. }
  assert (Hl2 : valid_ptr (r_heap r2) l) by (apply (valid_ext h); [apply S2|exact Hl']).
  assert (Hstep : forall res, stands r2 l res -> stands r l res).
  { intros res. apply stands_trans; [eapply grows_trans; [exact Hg|exact S2]| |exact Hl|apply eqv_refl, Hl2].
    cbn [r1 r_left] in S3. lia. }
  destruct (negb (bool_decide (r_kind r2 m = kindOp))) eqn:Ek.
  - exists (r_return l m r2). split; [|apply Hstep, r_return_stands; auto].
    exists F1. intros fuel Hfuel. rewrite (G1 fuel Hfuel), Ek. reflexivity.
  - destruct (IH l m r2) as (res & [F2 G2] & St); [cbn [r1 r_left] in S3; lia|auto..|].
    exists res. split; [|apply Hstep, St]. exists (F1 `max` F2)%nat. intros fuel Hfuel.
    rewrite (G1 fuel) by lia. rewrite Ek. apply G2. lia.
Qed.

Lemma r_node_total L : forall b, answers L b.
Proof using.
  induction L as [L IHL] using lt_wf_ind.
  assert (HL : forall L' b, (L' < L)%nat -> answers L' b) by (intros; apply IHL; assumption). clear IHL.
  induction b as [|b IHb]; intros l r Hlb Hle Hr Hl; [lia|].
  destruct (assoc_get (r_memo r) l) as [m|] eqn:Em.
  { exists (m, r). split; [exists 1%nat; intros [|fuel] Hf; [lia|]; simpl; rewrite Em; reflexivity|].
    split; [exact Hr|]. split; [apply grows_refl, Hr|]. split; [reflexivity|]. apply (so_memo r Hr l m Em). }
  set (n := get (h_nodes (r_heap r)) l) in *. destruct (negb (bool_decide (n_kind n = kindOp))) eqn:Ek.
  { exists (r_return l l r). split; [|apply r_return_stands; auto using eqv_refl].
    exists 1%nat. intros [|fuel] Hf; [lia|]. simpl. rewrite Em. fold n. rewrite Ek. reflexivity. }
  pose proof Ek as Hk. apply negb_false_iff, bool_decide_eq_true in Hk.
  pose proof (op_facts_intro _ l (so_heap r Hr) Hl Hk) as Ho. fold n in Ho.
  destruct (r_sources_total L b IHb (n_sources n) r Hle Hr) as (ms & r1 & [F1 G1] & J1 & J2 & J3 & J4).
  { eapply Forall_impl; [apply (of_srcs _ _ _ Ho)|]. simpl. intros s [Hs1 Hs2]. split; [lia|exact Hs2]. }
  destruct (valid_ext _ _ l (proj1 (proj2 J2)) Hl) as [Hl1 El1].
  destruct (if bool_decide (ms = n_sources n) then (l, r_heap r1) else alloc (set_sources n ms) (r_heap r1)) as [out h] eqn:Eout.
  assert (Hout : grows (r_heap r1) h /\ eqv h l out).
  { case_bool_decide as Es; [injection Eout as <- <-; split; [apply grows_refl, J1|apply eqv_refl, Hl1]|].
    pose proof (clone_stands (r_heap r1) l ms (so_heap r1 J1) Hl1) as K. rewrite El1 in K. fold n in K.
    rewrite Eout in K. apply K; assumption. }
  destruct Hout as [Hg He]. destruct (valid_ext _ h l (proj1 (proj2 Hg)) Hl1) as [Hlh _].
  destruct (r_rules_total L HL (r_left r1) l out (with_heap r1 h)) as (res & [F2 G2] & St);
    [cbn [with_heap r_left]; lia|apply with_heap_ok; auto|exact Hlh|exact He|].
  exists res. split.
  - exists (S (F1 `max` F2)). intros [|fuel] Hf; [lia|]. simpl. rewrite Em. fold n. rewrite Ek, G1 by lia.
    rewrite Eout. apply G2. lia.
  - apply (stands_trans r (with_heap r1 h) l l); [eapply grows_trans; eauto|cbn [with_heap r_left]; lia|exact Hl|apply eqv_refl, Hlh|exact St].
Qed.

(** The optimizer stops and what it returns has the type and the values of
    what it was given. *)
Lemma optimize_total h l : fheap_ok h -> valid_ptr h l ->
  exists m h', gives (fun fuel => optimize fuel l h) (m, h') /\ grows h h' /\ eqv h' l m.
Proof using.
  intros Hf Hl. destruct (r_node_total optRewriteLimit (S l) l (mkRewriter h [] [] optRewriteLimit)) as ([m r] & [F G] & S1 & S2 & S3 & S4).
  - lia.
  - reflexivity.
  - split; cbn; [exact Hf|discriminate|discriminate].
  - exact Hl.
  - exists m, (r_heap r). split; [|split; [exact S2|exact S4]].
    exists F. intros fuel Hfuel. unfold optimize. rewrite (G fuel Hfuel). reflexivity.
Qed.
End correctness.
