(* ===== verification/Flatten.v ===== *)
(** * Flattening a graph (src/x/ndarray/kernel.go, flatten)

    [flatten] lists the nodes of a graph, sources first, with the buffers of
    its inputs.  The list is what the backends lower.  The file proves that
    flattening a well-formed graph succeeds, that every node is listed once
    and after its sources, and that every input finds its buffer. *)
From Stdlib Require Import ZArith Lia.
From stdpp Require Import base numbers option list.
From S2P Require Import Prelude Float Alu Shape View Tracker Expr Rewrite.

Local Open Scope Z_scope.

(** ** The walk *)

(** [seen], [order] and [bufs]; the map [idx] is the membership of [bufs]. *)
Record flat_state : Type := mkFlat {
  fl_seen : list nat;
  fl_order : list nat;
  fl_bufs : list nat
}.

Definition see (l : nat) (st : flat_state) : flat_state := mkFlat (l :: fl_seen st) (fl_order st) (fl_bufs st).
Definition list_node (l : nat) (st : flat_state) : flat_state := mkFlat (fl_seen st) (fl_order st ++ [l]) (fl_bufs st).
Definition add_buf (b : nat) (st : flat_state) : flat_state :=
  if bool_decide (b ∈ fl_bufs st) then st else mkFlat (fl_seen st) (fl_order st) (fl_bufs st ++ [b]).

(** [fuel] bounds the depth; the depth of the graph of [l] is at most [l]. *)
Fixpoint flatten_walk (fuel : nat) (ns : list node) (l : nat) (st : flat_state) : res flat_state :=
  match fuel with
  | O => Err ErrOp
  | S fuel' =>
      let n := get ns l in
      match n_err n with
      | Some e => Err e
      | None =>
          if bool_decide (l ∈ fl_seen st) then Ok st else
          let st := see l st in
          let? st :=
            match n_kind n with
            | kindConst => Ok st
            | kindCoord =>
                if (n_slot n <? 0) || is_err (t_check (n_tracker n)) then Err ErrOp else Ok st
            | kindInput => match n_buf n with None => Err ErrOp | Some b => Ok (add_buf b st) end
            | kindOp =>
                if negb (arity (n_op n) =? Z.of_nat (length (n_sources n))) then Err ErrOp else
                (fix go (ss : list nat) (st : flat_state) : res flat_state :=
                   match ss with
                   | [] => Ok st
                   | s :: ss' => let? st := flatten_walk fuel' ns s st in go ss' st
                   end) (n_sources n) st
            end in
          Ok (list_node l st)
      end
  end.

Definition flatten (ns : list node) (root : nat) : res (list nat * list nat) :=
  let? st := flatten_walk (S root) ns root (mkFlat [] [] []) in
  Ok (fl_order st, fl_bufs st).

(** The walk over the sources. *)
Definition flatten_sources (fuel : nat) (ns : list node) :=
  fix go (ss : list nat) (st : flat_state) : res flat_state :=
    match ss with
    | [] => Ok st
    | s :: ss' => let? st := flatten_walk fuel ns s st in go ss' st
    end.

(** ** What a listing is *)

(** Every listed node comes after its sources. *)
Definition ordered (ns : list node) (order : list nat) : Prop :=
  forall j l s, order !! j = Some l -> s ∈ n_sources (get ns l) -> s ∈ take j order.

(** What the walk keeps: the listed nodes are seen, listed once, in order,
    reachable from a root, and their buffers are known. *)
Record listing (ns : list node) (root : nat) (st : flat_state) : Prop := {
  ls_seen : forall l, l ∈ fl_order st -> l ∈ fl_seen st;
  ls_nodup : NoDup (fl_order st);
  ls_ordered : ordered ns (fl_order st);
  ls_ok : forall l, l ∈ fl_order st -> (l < length ns)%nat /\ n_err (get ns l) = None;
  ls_reach : forall l, l ∈ fl_order st -> reach ns root l;
  ls_bufs : forall l b, l ∈ fl_order st -> n_kind (get ns l) = kindInput -> n_buf (get ns l) = Some b -> b ∈ fl_bufs st;
  ls_bufs_nodup : NoDup (fl_bufs st)
}.

(** From [st] to [st']: the listing grew at its end, and what is newly seen
    is listed. *)
Record lists (st st' : flat_state) : Prop := {
  li_order : exists more, fl_order st' = fl_order st ++ more;
  li_bufs : forall b, b ∈ fl_bufs st -> b ∈ fl_bufs st';
  li_seen : forall x, x ∈ fl_seen st -> x ∈ fl_seen st';
  li_new : forall x, x ∈ fl_seen st' -> x ∈ fl_seen st \/ x ∈ fl_order st'
}.

Lemma lists_refl st : lists st st.
Proof. split; auto. exists []. rewrite app_nil_r. reflexivity. Qed.

Lemma lists_order st st' x : lists st st' -> x ∈ fl_order st -> x ∈ fl_order st'.
Proof. intros [[m ->] _ _ _] H. apply elem_of_app. auto. Qed.

Lemma lists_trans a b c : lists a b -> lists b c -> lists a c.
Proof.
  intros Hab Hbc. pose proof (li_order _ _ Hab) as [m1 E1]. pose proof (li_order _ _ Hbc) as [m2 E2].
  split; [exists (m1 ++ m2); rewrite E2, E1, app_assoc; reflexivity| | |].
  - intros x Hx. apply (li_bufs _ _ Hbc), (li_bufs _ _ Hab), Hx.
  - intros x Hx. apply (li_seen _ _ Hbc), (li_seen _ _ Hab), Hx.
  - intros x Hx. destruct (li_new _ _ Hbc x Hx) as [H|H]; [|auto].
    destruct (li_new _ _ Hab x H) as [H'|H']; [auto|right; eapply lists_order; eauto].
Qed.

Lemma listing_see ns root l st : listing ns root st -> listing ns root (see l st).
Proof. intros [H1 H2 H3 H4 H5 H6 H7]. split; auto. intros x Hx. right. auto. Qed.

Lemma listing_add_buf ns root b st : listing ns root st -> listing ns root (add_buf b st) /\ b ∈ fl_bufs (add_buf b st) /\
  fl_seen (add_buf b st) = fl_seen st /\ fl_order (add_buf b st) = fl_order st /\
  forall x, x ∈ fl_bufs st -> x ∈ fl_bufs (add_buf b st).
Proof.
  intros [H1 H2 H3 H4 H5 H6 H7]. unfold add_buf. case_bool_decide as Hb; [split; [split; assumption|auto]|]. cbn.
  split; [|split; [apply elem_of_app; right; left|split; [reflexivity|split; [reflexivity|intros; apply elem_of_app; auto]]]].
  split; cbn; auto.
  - intros l b' Hl Hk Hn. apply elem_of_app. left. eauto.
  - apply NoDup_app. split; [exact H7|]. split; [|apply NoDup_singleton].
    intros x Hx Hx'. apply list_elem_of_singleton in Hx' as ->. contradiction.
Qed.

Lemma ordered_snoc ns order l : ordered ns order -> (forall s, s ∈ n_sources (get ns l) -> s ∈ order) ->
  ordered ns (order ++ [l]).
Proof.
  intros Ho Hs j k s Hj Hin. apply lookup_app_Some in Hj as [Hj|[Hle Hj]].
  - rewrite take_app_le by (apply lookup_lt_Some in Hj; lia). eapply Ho; eauto.
  - apply list_lookup_singleton_Some in Hj as [Ej <-]. rewrite take_app_le by lia. rewrite take_ge by lia. auto.
Qed.

Lemma listing_list ns root l st : listing ns root st -> l ∈ fl_seen st -> l ∉ fl_order st ->
  (l < length ns)%nat -> n_err (get ns l) = None -> reach ns root l ->
  (forall s, s ∈ n_sources (get ns l) -> s ∈ fl_order st) ->
  (forall b, n_kind (get ns l) = kindInput -> n_buf (get ns l) = Some b -> b ∈ fl_bufs st) ->
  listing ns root (list_node l st).
Proof.
  intros [H1 H2 H3 H4 H5 H6 H7] Hseen Hno Hl He Hr Hs Hb.
  assert (Hin : forall x, x ∈ fl_order (list_node l st) -> x ∈ fl_order st \/ x = l).
  { intros x Hx. cbn in Hx. apply elem_of_app in Hx as [Hx|Hx]; [auto|]. apply list_elem_of_singleton in Hx. auto. }
  split; cbn [fl_seen fl_bufs list_node].
  - intros x Hx. destruct (Hin x Hx) as [H| ->]; auto.
  - cbn. apply NoDup_app. split; [exact H2|]. split; [|apply NoDup_singleton].
    intros x Hx Hx'. apply list_elem_of_singleton in Hx' as ->. contradiction.
  - apply ordered_snoc; assumption.
  - intros x Hx. destruct (Hin x Hx) as [H| ->]; auto.
  - intros x Hx. destruct (Hin x Hx) as [H| ->]; auto.
  - intros x b Hx Hk Hbx. destruct (Hin x Hx) as [H| ->]; eauto.
  - exact H7.
Qed.

(** *** The walk succeeds *)

Section walk.
Context (h : heap) (root : nat).
Hypothesis Hf : fheap_ok h.

Let ns := h_nodes h.

(** Nodes seen and not listed are ancestors of the walked node: they are at
    least [b]. *)
Definition above (b : nat) (st : flat_state) : Prop := forall x, x ∈ fl_seen st -> x ∈ fl_order st \/ (b <= x)%nat.

(** From [st] to [st'], the newly listed nodes being below [b]. *)
Definition lists_below (b : nat) (st st' : flat_state) : Prop :=
  lists st st' /\ forall x, x ∈ fl_order st' -> x ∈ fl_order st \/ (x < b)%nat.

(** The result of a walk from [l]. *)
Definition walked (l : nat) (st : flat_state) (r : res flat_state) : Prop :=
  exists st', r = Ok st' /\ listing ns root st' /\ lists_below (S l) st st' /\ l ∈ fl_order st' /\
    (l ∉ fl_seen st -> last (fl_order st') = Some l).

Lemma above_le b b' st : (b' <= b)%nat -> above b st -> above b' st.
Proof using. intros Hle H x Hx. destruct (H x Hx); [auto|right; lia]. Qed.

Lemma above_lists b st st' : above b st -> lists st st' -> above b st'.
Proof using.
  intros H Hl x Hx. destruct (li_new _ _ Hl x Hx) as [Hs|Hs]; [|auto].
  destruct (H x Hs) as [Ho|Ho]; [left; eapply lists_order; eauto|auto].
Qed.

Lemma flatten_sources_ok fuel b ss : forall st,
  (forall s st, s ∈ ss -> listing ns root st -> above b st -> walked s st (flatten_walk fuel ns s st)) ->
  Forall (fun s => s < b)%nat ss -> listing ns root st -> above b st ->
  exists st', flatten_sources fuel ns ss st = Ok st' /\ listing ns root st' /\ lists_below b st st' /\
    forall s, s ∈ ss -> s ∈ fl_order st'.
Proof using.
  induction ss as [|s ss IH]; intros st Hw Hlt Hli Ha; cbn [flatten_sources].
  { exists st. split; [reflexivity|]. split; [exact Hli|]. split; [split; [apply lists_refl|auto]|].
    intros s Hs. inversion Hs. }
  inversion Hlt as [|? ? Hsb Hlt']; subst.
  destruct (Hw s st ltac:(left) Hli Ha) as (st1 & -> & L1 & [G1 B1] & I1 & _). cbn [res_bind].
  destruct (IH st1) as (st2 & -> & L2 & [G2 B2] & I2);
    [intros; apply Hw; [right|..]; assumption|exact Hlt'|exact L1|eapply above_lists; eauto|].
  exists st2. split; [reflexivity|]. split; [exact L2|]. split; [split; [eapply lists_trans; eauto|]|].
  - intros x Hx. destruct (B2 x Hx) as [Hx'|?]; [|auto]. destruct (B1 x Hx') as [?|?]; [auto|right; lia].
  - intros x Hx. apply elem_of_cons in Hx as [->|Hx]; [eapply lists_order; eauto|auto].
Qed.

(** A node entered in [seen] is listed once its sources are. *)
Lemma walked_list l st st1 : l ∉ fl_seen st -> valid_ptr h l -> reach ns root l -> listing ns root st ->
  listing ns root st1 -> lists_below l (see l st) st1 ->
  (forall s, s ∈ n_sources (get ns l) -> s ∈ fl_order st1) ->
  (forall b, n_kind (get ns l) = kindInput -> n_buf (get ns l) = Some b -> b ∈ fl_bufs st1) ->
  walked l st (Ok (list_node l st1)).
Proof using.
  intros Hno [Hl He] Hr Hli Hli1 [Hg Hb] Hs Hbuf. pose proof (li_order _ _ Hg) as [m Em].
  assert (Hno1 : l ∉ fl_order st1).
  { intros Hin. destruct (Hb l Hin) as [Hin'|?]; [|lia]. apply Hno, (ls_seen _ _ _ Hli), Hin'. }
  exists (list_node l st1). split; [reflexivity|]. split; [|split; [split|]].
  - apply listing_list; auto. apply (li_seen _ _ Hg). left.
  - split; cbn.
    + exists (m ++ [l]). rewrite Em, app_assoc. reflexivity.
    + apply (li_bufs _ _ Hg).
    + intros x Hx. apply (li_seen _ _ Hg). right. exact Hx.
    + intros x Hx. rewrite elem_of_app. destruct (li_new _ _ Hg x Hx) as [Hx'|]; [|auto].
      apply elem_of_cons in Hx' as [->|?]; [right; right; left|auto].
  - intros x Hx. cbn in Hx. apply elem_of_app in Hx as [Hx|Hx].
    + destruct (Hb x Hx); [auto|right; lia].
    + apply list_elem_of_singleton in Hx. right. lia.
  - cbn. split; [apply elem_of_app; right; left|intros _; apply last_snoc].
Qed.

Lemma views_check t : t_views t <> [] -> t_check t = Ok tt.
Proof using. unfold t_check. destruct (t_views t); [contradiction|reflexivity]. Qed.

Lemma flatten_walk_ok fuel : forall l st, (l < fuel)%nat -> valid_ptr h l -> reach ns root l ->
  listing ns root st -> (exists b, (l < b)%nat /\ above b st) -> walked l st (flatten_walk fuel ns l st).
Proof using Hf.
  induction fuel as [|fuel IH]; intros l st Hlf Hv Hr Hli (b & Hb & Ha); [lia|].
  cbn [flatten_walk]. pose proof Hv as [Hl He]. fold ns in He. rewrite He. case_bool_decide as Hseen.
  { exists st. split; [reflexivity|]. split; [exact Hli|]. split; [split; [apply lists_refl|auto]|].
    destruct (Ha l Hseen) as [?|?]; [|lia]. split; [assumption|contradiction]. }
  destruct (lookup_lt_is_Some_2 _ _ Hl) as [n Hn]. pose proof (get_lookup _ _ _ Hn) as Eg.
  pose proof (fheap_nodes h Hf l n Hn) as K. unfold fnode_ok in K. fold ns in Eg. rewrite <- Eg, He in K.
  destruct K as (_ & K).
  assert (Hlsee : listing ns root (see l st)) by (apply listing_see, Hli).
  assert (Hplain : lists_below l (see l st) (see l st)) by (split; [apply lists_refl|auto]).
  destruct (n_kind (get ns l)) eqn:Ek; cbn [res_bind].
  - apply walked_list; auto; [rewrite (proj1 K); intros s Hs; inversion Hs|congruence].
  - destruct K as (Ks & Kb & _). destruct (n_buf (get ns l)) as [bf|] eqn:Eb; [|contradiction]. cbn [res_bind].
    destruct (listing_add_buf ns root bf _ Hlsee) as (L1 & L2 & L3 & L4 & L5).
    apply walked_list; auto.
    + split; [split|]; rewrite ?L3, ?L4; auto. exists []. rewrite app_nil_r. reflexivity.
    + rewrite Ks. intros s Hs. inversion Hs.
    + intros bf' _ Hbf'. rewrite Eb in Hbf'. injection Hbf' as <-. exact L2.
  - destruct K as (Ks & Kslot & Kv). rewrite (views_check _ Kv).
    destruct (Z.ltb_spec (n_slot (get ns l)) 0); [lia|]. cbn [orb is_err res_bind].
    apply walked_list; auto; [rewrite Ks; intros s Hs; inversion Hs|congruence].
  - destruct K as (Kar & Ks & _). rewrite <- Kar, Z.eqb_refl. cbn [negb].
    change (walked l st (let? st := flatten_sources fuel ns (n_sources (get ns l)) (see l st) in Ok (list_node l st))).
    rewrite Forall_forall in Ks.
    destruct (flatten_sources_ok fuel l (n_sources (get ns l)) (see l st)) as (st1 & -> & L1 & L2 & L3).
    + intros s st' Hs Hli' Ha'. destruct (Ks s Hs) as [Hsl Hse]. apply IH; [lia|split; [lia|exact Hse]| |exact Hli'|exists l; auto].
      eapply reach_step; eauto.
    + rewrite Forall_forall. intros s Hs. apply Ks, Hs.
    + exact Hlsee.
    + intros x Hx. cbn in Hx. apply elem_of_cons in Hx as [->|Hx]; [right; lia|].
      destruct (Ha x Hx); [auto|right; lia].
    + cbn [res_bind]. apply walked_list; auto. congruence.
Qed.

Lemma listing_nil : listing ns root (mkFlat [] [] []).
Proof using.
  split; cbn.
  - intros l Hl. inversion Hl.
  - constructor.
  - intros j l s Hj. discriminate Hj.
  - intros l Hl. inversion Hl.
  - intros l Hl. inversion Hl.
  - intros l b Hl. inversion Hl.
  - constructor.
Qed.
End walk.

(** *** A flattened graph *)

(** What a backend may rely on. *)
Record flattened (h : heap) (root : nat) (order bufs : list nat) : Prop := {
  fo_nodup : NoDup order;
  fo_ordered : ordered (h_nodes h) order;
  fo_valid : forall l, l ∈ order -> valid_ptr h l;
  fo_reach : forall l, l ∈ order <-> reach (h_nodes h) root l;
  fo_last : last order = Some root;
  fo_bufs : forall l b, l ∈ order -> n_kind (get (h_nodes h) l) = kindInput ->
    n_buf (get (h_nodes h) l) = Some b -> b ∈ bufs;
  fo_bufs_nodup : NoDup bufs
}.

Lemma reach_listed ns order root : ordered ns order -> root ∈ order -> forall l, reach ns root l -> l ∈ order.
Proof.
  intros Ho Hr l. induction 1 as [|l s _ IH Hs]; [exact Hr|].
  apply list_elem_of_lookup_1 in IH as [j Hj]. pose proof (Ho j l s Hj Hs) as Hin.
  apply list_elem_of_lookup_1 in Hin as [i Hi]. apply lookup_take_Some in Hi as [Hi _]. eapply list_elem_of_lookup_2, Hi.
Qed.

Lemma flatten_ok h root : fheap_ok h -> valid_ptr h root ->
  exists order bufs, flatten (h_nodes h) root = Ok (order, bufs) /\ flattened h root order bufs.
Proof.
  intros Hf Hv. destruct (flatten_walk_ok h root Hf (S root) root (mkFlat [] [] [])) as (st & E & L & _ & Hin & Hlast).
  - lia.
  - exact Hv.
  - constructor.
  - apply listing_nil.
  - exists (S root). split; [lia|]. intros x Hx. inversion Hx.
  - unfold flatten. rewrite E. cbn [res_bind]. exists (fl_order st), (fl_bufs st). split; [reflexivity|].
    split; try apply L.
    + intros l. split; [apply L|]. apply reach_listed; [apply L|exact Hin].
    + apply Hlast. intros Hx. inversion Hx.
Qed.
