(* ===== verification/Cpu.v ===== *)
(** * The CPU tape (src/x/ndarray/cpu.go)

    [lowerCPU] turns a flattened graph into one instruction per node; a job
    runs the tape for a range of output cells with a scratch of registers
    that is reused from earlier runs.  The file models lowering, the tape,
    the output bytes and the parallel evaluation, and proves that the root's
    register holds the value of the graph at the cell, whatever the scratch
    held, and that workers in any interleaving write what one worker writes. *)
From Stdlib Require Import ZArith Lia.
From stdpp Require Import base numbers option list relations.
From S2P Require Import Prelude Float Alu Shape View Tracker Expr Rewrite Optimize Flatten.

Local Open Scope Z_scope.

(** ** Lowering *)

Inductive cpu_kind : Type := cpuConst | cpuCoord | cpuLoad | cpuALU.

Record instruction : Type := mkInstr {
  i_kind : cpu_kind;
  i_alu : Op;
  i_dest : nat; i_a : nat; i_b : nat; i_c : nat;
  i_dtype : DType; i_inType : DType;
  i_bits : Z;
  i_source : nat;
  i_axis : Z;
  i_dense : bool;
  i_scalar : bool;
  i_splatOff : Z;
  i_views : list view;
  i_chain : list stStep
}.

Record cpuProgram : Type := mkProgram { p_code : list instruction; p_registers : nat; p_root : nat }.

Definition map_get (m : list (nat * nat)) (k : nat) : nat := default 0%nat (assoc_get m k).

(** [for i, b := range bufs { bufIndex[b] = i }] *)
Fixpoint bufIndex_from (bufs : list nat) (i : nat) (m : list (nat * nat)) : list (nat * nat) :=
  match bufs with
  | [] => m
  | b :: bufs' => bufIndex_from bufs' (S i) ((b, i) :: m)
  end.
Definition bufIndex (bufs : list nat) : list (nat * nat) := bufIndex_from bufs 0 [].

(** The body of the loop of [lowerCPU]; [reg] holds the registers of the
    nodes so far. *)
Definition lower_node (ns : list node) (bufs : list nat) (shape : Shape) (reg : list (nat * nat)) (dest : nat)
    (n : node) : res instruction :=
  match n_kind n with
  | kindConst =>
      let views := match n_chain n with [] => if viewed n then t_views (n_tracker n) else [] | _ => [] end in
      Ok (mkInstr cpuConst ONone dest 0 0 0 (n_dtype n) DNone (n_bits n) 0 0 false false 0 views (n_chain n))
  | kindCoord =>
      if (n_slot n <? 0) || (Rank shape <=? n_slot n) then Err ErrAxis
      else Ok (mkInstr cpuCoord ONone dest 0 0 0 (n_dtype n) DNone 0 0 (n_slot n) false false 0 [] (n_chain n))
  | kindInput =>
      let source := map_get (bufIndex bufs) (default 0%nat (n_buf n)) in
      let load dense scalar off views chain :=
        mkInstr cpuLoad ONone dest 0 0 0 (n_dtype n) DNone 0 source 0 dense scalar off views chain in
      match n_chain n with
      | [] =>
          let own := opt_list (t_Shape (n_tracker n)) in
          if Rank own =? 0 then
            match At (n_tracker n) 0 with
            | Ok (off, true) => Ok (load false true off [] [])
            | _ => Err ErrIndex
            end
          else if Contiguous (n_tracker n) && Equal own shape then Ok (load true false 0 [] [])
          else Ok (load false false 0 (t_views (n_tracker n)) [])
      | chain => Ok (load false false 0 [] chain)
      end
  | kindOp =>
      let reg_of i := match n_sources n !! i with None => 0%nat | Some s => map_get reg s end in
      Ok (mkInstr cpuALU (n_op n) dest (reg_of 0%nat) (reg_of 1%nat) (reg_of 2%nat) (n_dtype n) (in_type ns n)
            0 0 0 false false 0 [] [])
  end.

Fixpoint lower_loop (ns : list node) (bufs : list nat) (shape : Shape) (order : list nat)
    (reg : list (nat * nat)) (code : list instruction) : res (list instruction * list (nat * nat)) :=
  match order with
  | [] => Ok (code, reg)
  | l :: order' =>
      let dest := length code in
      let reg := (l, dest) :: reg in
      let? instr := lower_node ns bufs shape reg dest (get ns l) in
      lower_loop ns bufs shape order' reg (code ++ [instr])
  end.

Definition lowerCPU (ns : list node) (order bufs : list nat) (shape : Shape) : res cpuProgram :=
  let? (code, reg) := lower_loop ns bufs shape order [] [] in
  Ok (mkProgram code (length code) (map_get reg (default 0%nat (last order)))).

(** ** Running the tape *)

(** [unravelInto] overwrites a slice of the rank of the shape. *)
Fixpoint unravelInto_acc (shape : Shape) (i : Z) (coords : list Z) : list Z * Z :=
  match shape, coords with
  | s :: shape', _ :: coords' =>
      let '(coords', acc) := unravelInto_acc shape' i coords' in
      if s =? 0 then (0 :: coords', acc) else (Z.rem (Z.quot i acc) s :: coords', acc * s)
  | _, _ => (coords, 1)
  end.
Definition unravelInto (shape : Shape) (i : Z) (coords : list Z) : list Z := fst (unravelInto_acc shape i coords).

Section tape.
Context {E : FloatEnv}.

Definition evalALU (instr : instruction) (regs : list Z) : Z :=
  let a := nth (i_a instr) regs 0 in
  let b := if 1 <? arity (i_alu instr) then nth (i_b instr) regs 0 else 0 in
  let c := if 2 <? arity (i_alu instr) then nth (i_c instr) regs 0 else 0 in
  alu (i_alu instr) (i_dtype instr) (i_inType instr) a b c.

Definition load (hb : list buffer) (bufs : list nat) (instr : instruction) (i : Z) (coords : list Z) : Z :=
  let '(off, ok) :=
    match i_chain instr with
    | _ :: _ => applyChain (i_chain instr) coords
    | [] =>
        if i_scalar instr then (i_splatOff instr, true)
        else if i_dense instr then (i, true)
        else indexViews (i_views instr) coords
    end in
  if ok then buf_word hb (bufs !! i_source instr) off else 0.

(** The value an instruction writes to its register. *)
Definition step_value (hb : list buffer) (bufs : list nat) (i : Z) (coords regs : list Z) (instr : instruction) : Z :=
  match i_kind instr with
  | cpuConst =>
      let ok :=
        match i_chain instr with
        | _ :: _ => snd (applyChain (i_chain instr) coords)
        | [] => match i_views instr with [] => true | views => snd (indexViews views coords) end
        end in
      if ok then i_bits instr else 0
  | cpuCoord =>
      let '(c, ok) := match i_chain instr with [] => (coords, true) | chain => chainCoords chain coords end in
      if negb ok then 0
      else if (i_axis instr <? 0) || (Z.of_nat (length c) <=? i_axis instr) then 0
      else u32 (nth (Z.to_nat (i_axis instr)) c 0)
  | cpuLoad => load hb bufs instr i coords
  | cpuALU => evalALU instr regs
  end.

Definition exec (hb : list buffer) (bufs : list nat) (i : Z) (coords regs : list Z) (instr : instruction) : list Z :=
  <[i_dest instr := step_value hb bufs i coords regs instr]> regs.

(** *** Output bytes *)

Definition put_byte (out : list Z) (i : Z) (b : Z) : option (list Z) :=
  if (i <? 0) || (Z.of_nat (length out) <=? i) then None else Some (<[Z.to_nat i := b]> out).

(** [binary.LittleEndian.PutUint32(out[off:], w)]; [None] is a panic. *)
Definition put_uint32 (out : list Z) (off : Z) (w : Z) : option (list Z) :=
  if (off <? 0) || (Z.of_nat (length out) <? off + 4) then None else
  Some (<[Z.to_nat off := w mod 256]>
          (<[Z.to_nat (off + 1) := Z.shiftr w 8 mod 256]>
             (<[Z.to_nat (off + 2) := Z.shiftr w 16 mod 256]>
                (<[Z.to_nat (off + 3) := Z.shiftr w 24 mod 256]> out)))).

Definition put_cell (outType : DType) (out : list Z) (i : Z) (root : Z) : option (list Z) :=
  match outType with
  | U8 => put_byte out i (root mod 256)
  | _ => put_uint32 out (i * 4) root
  end.

(** *** Jobs *)

Record cpuJob : Type := mkJob {
  j_program : cpuProgram;
  j_root : Tracker;
  j_shape : Shape;
  j_outType : DType;
  j_bufs : list nat;
  j_lo : Z; j_hi : Z;
  j_maskRoot : bool
}.

(** The backing arrays of a scratch, to their capacity. *)
Record cpuScratch : Type := mkScratch { s_registers : list Z; s_coords : list Z }.

(** [takeScratch]: a pooled slice is cut to its length, or a new one made. *)
Definition take_slice (s : list Z) (n : nat) : list Z := if (length s <? n)%nat then repeat 0 n else take n s.
Definition takeScratch (s : cpuScratch) (registers rank : nat) : cpuScratch :=
  mkScratch (take_slice (s_registers s) registers) (take_slice (s_coords s) rank).

(** One iteration of [loop]: the word stored at cell [i], and the scratch. *)
Definition cell (hb : list buffer) (j : cpuJob) (i : Z) (s : cpuScratch) : Z * cpuScratch :=
  let coords := unravelInto (j_shape j) i (s_coords s) in
  let regs := fold_left (exec hb (j_bufs j) i coords) (p_code (j_program j)) (s_registers s) in
  let root := nth (p_root (j_program j)) regs 0 in
  let root :=
    if j_maskRoot j then (if snd (indexViews (t_views (j_root j)) coords) then root else 0) else root in
  (root, mkScratch regs coords).

(** [for i := lo; i < lo+n; i++]; [None] is a panic. *)
Fixpoint job_loop (n : nat) (hb : list buffer) (j : cpuJob) (i : Z) (s : cpuScratch) (out : list Z)
    : option (list Z) :=
  match n with
  | O => Some out
  | S n' =>
      let '(root, s) := cell hb j i s in
      match put_cell (j_outType j) out i root with
      | None => None
      | Some out => job_loop n' hb j (i + 1) s out
      end
  end.

Definition run (hb : list buffer) (j : cpuJob) (pool : cpuScratch) (out : list Z) : option (list Z) :=
  let s := takeScratch pool (p_registers (j_program j)) (length (j_shape j)) in
  job_loop (Z.to_nat (j_hi j - j_lo j)) hb j (j_lo j) s out.
End tape.

(** ** The tape computes the graph *)

Lemma unravelInto_acc_unravel shape i : forall coords, length coords = length shape ->
  unravelInto_acc shape i coords = unravel_acc shape i.
Proof.
  induction shape as [|s shape IH]; intros [|c coords] Hl; try discriminate Hl; [reflexivity|].
  simpl. rewrite IH by (simpl in Hl; lia). reflexivity.
Qed.

(** What the slice held does not matter. *)
Lemma unravelInto_unravel shape i coords : length coords = length shape -> unravelInto shape i coords = unravel shape i.
Proof. intros Hl. unfold unravelInto, unravel. rewrite unravelInto_acc_unravel by exact Hl. reflexivity. Qed.

Lemma take_slice_length s n : length (take_slice s n) = n.
Proof. unfold take_slice. destruct (Nat.ltb_spec (length s) n); [apply repeat_length|rewrite length_take; lia]. Qed.

Lemma bufIndex_from_spec bufs b : forall i m,
  (b ∈ bufs -> exists k, assoc_get (bufIndex_from bufs i m) b = Some (i + k)%nat /\ bufs !! k = Some b) /\
  (b ∉ bufs -> assoc_get (bufIndex_from bufs i m) b = assoc_get m b).
Proof.
  induction bufs as [|x bufs IH]; intros i m; cbn [bufIndex_from].
  { split; [intros H; inversion H|reflexivity]. }
  destruct (IH (S i) ((x, i) :: m)) as [H1 H2]. split.
  - intros Hin. destruct (decide (b ∈ bufs)) as [Hb|Hb].
    + destruct (H1 Hb) as (k & Hk & Hl). exists (S k). split; [rewrite Hk; f_equal; lia|exact Hl].
    + apply elem_of_cons in Hin as [->|?]; [|contradiction]. exists 0%nat. split; [|reflexivity].
      rewrite (H2 Hb). cbn [assoc_get]. rewrite bool_decide_true by reflexivity. f_equal. lia.
  - intros Hno. apply not_elem_of_cons in Hno as [Hne Hno]. rewrite (H2 Hno). cbn [assoc_get].
    rewrite bool_decide_false by congruence. reflexivity.
Qed.

(** An input finds its buffer. *)
Lemma bufIndex_lookup bufs b : b ∈ bufs -> bufs !! map_get (bufIndex bufs) b = Some b.
Proof.
  intros Hb. destruct (bufIndex_from_spec bufs b 0 []) as [H _]. destruct (H Hb) as (k & Hk & Hl).
  unfold map_get, bufIndex. rewrite Hk. exact Hl.
Qed.

Lemma Index_loop_views below : forall off o, Index_loop below off true = (o, true) ->
  indexViews_loop below off true = (o, true).
Proof.
  assert (Hfalse : forall below off, snd (Index_loop below off false) = false).
  { clear. induction below as [|v below IH]; intros off; simpl; [reflexivity|].
    destruct (v_size v =? 0); [reflexivity|]. destruct (index v _). apply IH. }
  induction below as [|v below IH]; intros off o; simpl; [auto|].
  destruct (v_size v =? 0); [discriminate|]. destruct (index v _) as [off' []]; simpl; [apply IH|].
  intros H. specialize (Hfalse below off'). rewrite H in Hfalse. discriminate Hfalse.
Qed.

(** The scalar read of a rank-0 tracker. *)
Lemma At_scalar t off c : nil_ok t -> Rank (opt_list (t_Shape t)) = 0 -> At t 0 = Ok (off, true) ->
  indexViews (t_views t) c = (off, true).
Proof.
  intros Hn Hr Ha. apply indexViews_some. unfold At in Ha. apply res_bind_ok in Ha as (u & Hc & Ha).
  assert (Hv : t_views t <> []) by (unfold t_check in Hc; destruct (t_views t); [discriminate Hc|discriminate]).
  assert (Hd : t_dims t = []).
  { unfold t_Shape in Hr. destruct (t_views t); [contradiction|]. destruct (t_nil t) eqn:Et; [apply Hn, Et|].
    cbn [opt_list] in Hr. destruct (t_dims t); [reflexivity|]. unfold Rank in Hr. simpl in Hr. lia. }
  assert (Ei : index (t_last t) [] = (v_offset (t_last t), true)).
  { unfold index. unfold t_dims in Hd. rewrite Hd. reflexivity. }
  destruct ((0 <? 0) || _ || _); [discriminate Ha|]. unfold Index in Ha. rewrite Hd in Ha.
  apply res_bind_ok in Ha as (u' & _ & Ha). change (unravel [] 0) with (@nil Z) in Ha.
  rewrite bool_decide_true in Ha by reflexivity. cbn [negb coords_in] in Ha.
  rewrite (locate_rank0 t c [] Hd), <- indexViews_spec. unfold indexViews. rewrite rev_views by exact Hv.
  rewrite Ei in Ha |- *. injection Ha as Ha. rewrite (Index_loop_views _ _ _ Ha). reflexivity.
Qed.

Section correctness.
Context {E : FloatEnv}.
Context (h : heap) (root : nat) (order bufs : list nat) (shape : Shape).
Hypothesis Hf : fheap_ok h.
Hypothesis Hfl : flattened h root order bufs.
Hypothesis Hshape : nonneg shape.
Context (i : Z).
Hypothesis Hi : 0 <= i < Size shape.

Let c := unravel shape i.
Let ns := h_nodes h.

Lemma cell_bounds : in_bounds shape c /\ ravel shape c = i.
Proof using Hshape Hi.
  assert (Hp : positive_dims shape) by (apply positive_of_nonempty; [exact Hshape|lia]).
  split; [apply unravel_in_bounds; [exact Hp|lia]|apply ravel_unravel; assumption].
Qed.

Lemma load_value n b reg dest ins regs : nil_ok (n_tracker n) -> n_kind n = kindInput -> n_buf n = Some b -> b ∈ bufs ->
  lower_node ns bufs shape reg dest n = Ok ins ->
  step_value (h_bufs h) bufs i c regs ins = node_flat ns (h_bufs h) (flat h) n c.
Proof using Hshape Hi.
  intros Hnil Hk Hb Hin Hl. unfold lower_node in Hl. rewrite Hk, Hb in Hl. cbn [default] in Hl.
  pose proof (bufIndex_lookup bufs b Hin) as Hsrc. unfold node_flat. rewrite Hk, Hb.
  destruct (n_chain n) as [|s0 ch] eqn:Ech.
  2: { injection Hl as <-. unfold step_value, load. cbn [i_kind i_chain i_source]. rewrite Hsrc. reflexivity. }
  destruct (Z.eqb_spec (Rank (opt_list (t_Shape (n_tracker n)))) 0) as [Hr|Hr].
  - destruct (At (n_tracker n) 0) as [[off []]|] eqn:Ea; try discriminate Hl. injection Hl as <-.
    rewrite (At_scalar _ off c Hnil Hr Ea).
    unfold step_value, load. cbn [i_kind i_chain i_source i_scalar i_splatOff]. rewrite Hsrc. reflexivity.
  - destruct (Contiguous (n_tracker n) && Equal _ shape) eqn:Ec; injection Hl as <-;
      unfold step_value, load; cbn [i_kind i_chain i_source i_scalar i_dense i_views]; rewrite Hsrc; [|reflexivity].
    apply andb_true_iff in Ec as [Ec Es]. apply bool_decide_eq_true in Es. destruct cell_bounds as [Hcb Hcr].
    assert (Hd : t_dims (n_tracker n) = shape).
    { revert Hr Es. unfold t_Shape. destruct (t_views _); [intros Hr; contradiction Hr; reflexivity|].
      destruct (t_nil _); [intros Hr; contradiction Hr; reflexivity|auto]. }
    rewrite (indexViews_some _ c i); [reflexivity|]. rewrite Contiguous_locate by (rewrite ?Hd; assumption).
    rewrite Hd, Hcr. reflexivity.
Qed.

(** A register holds the value of the node it was given to. *)
Lemma step_flat l reg dest ins regs : l ∈ order -> lower_node ns bufs shape reg dest (get ns l) = Ok ins ->
  (forall s, s ∈ n_sources (get ns l) -> nth (map_get reg s) regs 0 = flat h s c) ->
  step_value (h_bufs h) bufs i c regs ins = flat h l c.
Proof using Hf Hfl Hshape Hi.
  intros Hin Hl Hsrc. destruct (fo_valid _ _ _ _ Hfl l Hin) as [Hlt He].
  destruct (lookup_lt_is_Some_2 _ _ Hlt) as [n Hn]. pose proof (get_lookup _ _ _ Hn) as Eg.
  rewrite (flat_unfold h l n) by auto using fheap_acyclic. fold ns in Eg. rewrite Eg in Hl, Hsrc.
  pose proof (fheap_nodes h Hf l n Hn) as K. unfold fnode_ok in K. fold ns in He. rewrite Eg in He. rewrite He in K.
  destruct K as (_ & K). destruct (n_kind n) eqn:Ek.
  - unfold lower_node in Hl. rewrite Ek in Hl. injection Hl as <-. unfold step_value, node_flat. rewrite Ek.
    cbn [i_kind i_chain i_views i_bits]. destruct (n_chain n); [|reflexivity].
    destruct (viewed n) eqn:Ev; [|reflexivity]. unfold viewed in Ev. destruct (t_views _); [discriminate Ev|reflexivity].
  - destruct K as (_ & Kb & Kn). destruct (n_buf n) as [b|] eqn:Eb; [|contradiction].
    eapply load_value; eauto. eapply (fo_bufs _ _ _ _ Hfl l b Hin); fold ns; rewrite Eg; assumption.
  - unfold lower_node in Hl. rewrite Ek in Hl. destruct (_ || _); [discriminate Hl|]. injection Hl as <-.
    unfold step_value, node_flat. rewrite Ek. cbn [i_kind i_chain i_axis]. unfold coord_word.
    destruct (n_chain n); [reflexivity|]. destruct (chainCoords _ c) as [cs []]; reflexivity.
  - unfold lower_node in Hl. rewrite Ek in Hl. injection Hl as <-. destruct K as (Kar & Ks & Kt).
    unfold step_value, node_flat. rewrite Ek. cbn [i_kind]. unfold evalALU. cbn [i_a i_b i_c i_alu i_dtype i_inType].
    assert (Harg : forall k, (Z.of_nat k <? arity (n_op n)) = true ->
      nth (match n_sources n !! k with None => 0%nat | Some s => map_get reg s end) regs 0 = arg (flat h) n k c).
    { intros k Hk. unfold arg. destruct (n_sources n !! k) as [s|] eqn:Es.
      - apply Hsrc. eapply list_elem_of_lookup_2, Es.
      - apply lookup_ge_None in Es. lia. }
    assert (Hunread : forall k, (Z.of_nat k <? arity (n_op n)) = false -> arg (flat h) n k c = 0).
    { intros k Hk. unfold arg. rewrite lookup_ge_None_2 by lia. reflexivity. }
    unfold op_value. rewrite (Harg 0%nat) by (destruct (n_op n); first [reflexivity|simpl in Kar; lia]).
    f_equal.
    + destruct (1 <? arity (n_op n)) eqn:E1; [apply Harg, E1|symmetry; apply Hunread, E1].
    + destruct (2 <? arity (n_op n)) eqn:E2; [apply Harg, E2|symmetry; apply Hunread, E2].
Qed.

(** The registers of the nodes listed so far. *)
Definition reg_ok (done : list nat) (reg : list (nat * nat)) : Prop :=
  forall j l, done !! j = Some l -> map_get reg l = j.
Definition holds (done : list nat) (regs : list Z) : Prop :=
  forall j l, done !! j = Some l -> nth j regs 0 = flat h l c.

Lemma reg_ok_snoc done reg l : l ∉ done -> reg_ok done reg -> reg_ok (done ++ [l]) ((l, length done) :: reg).
Proof using.
  intros Hno H j k Hj. unfold map_get. cbn [assoc_get].
  apply lookup_app_Some in Hj as [Hj|[Hle Hj]].
  - rewrite bool_decide_false; [apply H, Hj|]. intros ->. apply Hno. eapply list_elem_of_lookup_2, Hj.
  - apply list_lookup_singleton_Some in Hj as [Ej ->]. rewrite bool_decide_true by reflexivity. simpl. lia.
Qed.

Lemma holds_snoc done regs l v : holds done regs -> (length done < length regs)%nat -> v = flat h l c ->
  holds (done ++ [l]) (<[length done := v]> regs).
Proof using.
  intros H Hlen -> j k Hj. rewrite nth_lookup. apply lookup_app_Some in Hj as [Hj|[Hle Hj]].
  - rewrite list_lookup_insert_ne by (apply lookup_lt_Some in Hj; lia). rewrite <- nth_lookup. apply H, Hj.
  - apply list_lookup_singleton_Some in Hj as [Ej ->]. replace j with (length done) by lia.
    rewrite list_lookup_insert_eq by exact Hlen. reflexivity.
Qed.

Lemma lower_loop_run rest : forall done reg code code' reg', done ++ rest = order -> length code = length done ->
  reg_ok done reg -> lower_loop ns bufs shape rest reg code = Ok (code', reg') ->
  exists more, code' = code ++ more /\ length code' = length order /\ reg_ok order reg' /\
    forall regs, (length order <= length regs)%nat -> holds done regs ->
      holds order (fold_left (exec (h_bufs h) bufs i c) more regs).
Proof using Hf Hfl Hshape Hi.
  induction rest as [|l rest IH]; intros done reg code code' reg' Ho Hlen Hreg Hrun; cbn [lower_loop] in Hrun.
  { injection Hrun as <- <-. rewrite app_nil_r in Ho. subst done. exists []. rewrite app_nil_r. auto. }
  rewrite Hlen in Hrun. apply res_bind_ok in Hrun as (ins & Hins & Hrun).
  pose proof (fo_nodup _ _ _ _ Hfl) as Hnd. rewrite <- Ho in Hnd. apply NoDup_app in Hnd as (_ & Hdis & _).
  assert (Hno : l ∉ done) by (intros Hd; apply (Hdis l Hd); left).
  assert (Hreg1 : reg_ok (done ++ [l]) ((l, length done) :: reg)) by (apply reg_ok_snoc; assumption).
  destruct (IH (done ++ [l]) ((l, length done) :: reg) (code ++ [ins]) code' reg') as (more & E1 & E2 & E3 & E4).
  - rewrite <- app_assoc. exact Ho.
  - rewrite !length_app, Hlen. reflexivity.
  - exact Hreg1.
  - exact Hrun.
  - exists (ins :: more). split; [rewrite E1, <- app_assoc; reflexivity|]. split; [exact E2|]. split; [exact E3|].
    intros regs Hregs Hh. cbn [fold_left]. apply E4; [unfold exec; rewrite length_insert; exact Hregs|].
    assert (Hd : i_dest ins = length done).
    { revert Hins. unfold lower_node. destruct (n_kind _).
      - intros [= <-]; reflexivity.
      - destruct (n_chain _); [|intros [= <-]; reflexivity]. destruct (_ =? 0).
        + destruct (At _ 0) as [[? []]|]; try discriminate; intros [= <-]; reflexivity.
        + destruct (_ && _); intros [= <-]; reflexivity.
      - destruct (_ || _); [discriminate|intros [= <-]; reflexivity].
      - intros [= <-]; reflexivity. }
    assert (Hlen' : (length done < length regs)%nat) by (rewrite <- Ho, length_app in Hregs; simpl in Hregs; lia).
    unfold exec. rewrite Hd. apply holds_snoc; [exact Hh|exact Hlen'|].
    assert (Hl : order !! length done = Some l) by (rewrite <- Ho; apply list_lookup_middle; reflexivity).
    eapply step_flat; [eapply list_elem_of_lookup_2, Hl|exact Hins|]. intros s Hs.
    pose proof (fo_ordered _ _ _ _ Hfl _ _ _ Hl Hs) as Hsd. rewrite <- Ho, take_app_length in Hsd.
    apply list_elem_of_lookup_1 in Hsd as [k Hk].
    rewrite (Hreg1 k s) by (apply lookup_app_l_Some, Hk). apply Hh, Hk.
Qed.

(** The tape leaves the value of the graph in the root's register, whatever
    the registers held. *)
Lemma tape_flat prog regs : lowerCPU ns order bufs shape = Ok prog -> length regs = p_registers prog ->
  nth (p_root prog) (fold_left (exec (h_bufs h) bufs i c) (p_code prog) regs) 0 = flat h root c.
Proof using Hf Hfl Hshape Hi.
  intros Hl Hr. unfold lowerCPU in Hl. apply res_bind_ok in Hl as ([code reg] & Hl & E'). injection E' as <-.
  destruct (lower_loop_run order [] [] [] code reg) as (more & E1 & E2 & E3 & E4); auto.
  { intros j l Hj. discriminate Hj. }
  cbn [p_code p_root p_registers] in *. simpl in E1. subst more.
  pose proof (fo_last _ _ _ _ Hfl) as Hlast. rewrite Hlast. change (default 0%nat (Some root)) with root.
  rewrite last_lookup in Hlast. rewrite (E3 _ _ Hlast). apply E4; [lia| |exact Hlast].
  intros j l Hj. discriminate Hj.
Qed.
End correctness.

(** ** When lowering succeeds *)

(** What [lowerCPU] asks of a node. *)
Definition lowerable (shape : Shape) (n : node) : Prop :=
  match n_kind n with
  | kindCoord => 0 <= n_slot n < Rank shape
  | kindInput => n_chain n = [] -> Rank (opt_list (t_Shape (n_tracker n))) = 0 -> exists off, At (n_tracker n) 0 = Ok (off, true)
  | _ => True
  end.

Lemma lower_node_ok ns bufs shape reg dest n : lowerable shape n -> exists ins, lower_node ns bufs shape reg dest n = Ok ins.
Proof.
  unfold lowerable, lower_node. intros H. destruct (n_kind n); [eauto| | |eauto].
  - destruct (n_chain n); [|eauto]. destruct (Z.eqb_spec (Rank (opt_list (t_Shape (n_tracker n)))) 0) as [Hr|Hr].
    + destruct (H eq_refl Hr) as [off ->]. eauto.
    + destruct (_ && _); eauto.
  - destruct (Z.ltb_spec (n_slot n) 0), (Z.leb_spec (Rank shape) (n_slot n)); try lia. eauto.
Qed.

Lemma lower_node_err ns bufs shape reg dest n ins : lower_node ns bufs shape reg dest n = Ok ins -> lowerable shape n.
Proof.
  unfold lowerable, lower_node. destruct (n_kind n); auto.
  - destruct (n_chain n); [|discriminate]. destruct (Z.eqb_spec (Rank (opt_list (t_Shape (n_tracker n)))) 0) as [Hr|Hr]; [|contradiction].
    destruct (At _ 0) as [[off []]|]; try discriminate. eauto.
  - destruct (Z.ltb_spec (n_slot n) 0), (Z.leb_spec (Rank shape) (n_slot n)); try discriminate. lia.
Qed.

(** Lowering succeeds exactly when every listed node can be lowered. *)
Lemma lowerCPU_ok ns order bufs shape :
  (exists prog, lowerCPU ns order bufs shape = Ok prog) <-> Forall (fun l => lowerable shape (get ns l)) order.
Proof.
  assert (H : forall order reg code,
    (exists r, lower_loop ns bufs shape order reg code = Ok r) <-> Forall (fun l => lowerable shape (get ns l)) order).
  { clear. induction order as [|l order IH]; intros reg code; cbn [lower_loop]; [split; [constructor|eauto]|].
    rewrite Forall_cons. split.
    - intros (r & Hr). apply res_bind_ok in Hr as (ins & Hi & Hr). split; [eapply lower_node_err, Hi|].
      eapply IH. eauto.
    - intros (Hn & Hr). destruct (lower_node_ok ns bufs shape ((l, length code) :: reg) (length code) _ Hn) as [ins Hi].
      rewrite Hi. cbn [res_bind]. apply IH, Hr. }
  rewrite <- (H order [] []). unfold lowerCPU. split.
  - intros (prog & Hp). apply res_bind_ok in Hp as (r & Hr & _). eauto.
  - intros ([code reg] & Hr). rewrite Hr. cbn [res_bind]. eauto.
Qed.

(** ** Output *)

Definition out_size (d : DType) : Z := match d with U8 => 1 | _ => 4 end.

(** Byte [r] of a stored word. *)
Definition byte_of (w : Z) (r : Z) : Z := Z.shiftr w (8 * r) mod 256.

(** The bytes of cell [i]. *)
Definition in_cell (d : DType) (i : Z) (p : nat) : bool :=
  (i * out_size d <=? Z.of_nat p) && (Z.of_nat p <? (i + 1) * out_size d).

Lemma put_cell_spec d out i w : 0 <= i -> (i + 1) * out_size d <= Z.of_nat (length out) ->
  exists out', put_cell d out i w = Some out' /\ length out' = length out /\
    forall p, out' !! p = if in_cell d i p then Some (byte_of w (Z.of_nat p - i * out_size d)) else out !! p.
Proof.
  intros Hi Hlen. unfold in_cell. assert (Hd : d = U8 \/ out_size d = 4 /\ forall o, put_cell d o i w = put_uint32 o (i * 4) w)
    by (destruct d; auto).
  destruct Hd as [->|[Es Ep]].
  - cbn [out_size] in *. unfold put_cell, put_byte. destruct (Z.ltb_spec i 0), (Z.leb_spec (Z.of_nat (length out)) i); try lia.
    simpl orb. cbv iota. eexists. split; [reflexivity|]. split; [apply length_insert|]. intros p.
    destruct (Z.leb_spec (i * 1) (Z.of_nat p)), (Z.ltb_spec (Z.of_nat p) ((i + 1) * 1)); simpl;
      try (rewrite list_lookup_insert_ne by lia; reflexivity).
    replace p with (Z.to_nat i) by lia. rewrite list_lookup_insert_eq by lia. f_equal. unfold byte_of. f_equal.
    rewrite Z2Nat.id by lia. rewrite Z.mul_1_r, Z.sub_diag. reflexivity.
  - rewrite Es, Ep in *. unfold put_uint32. destruct (Z.ltb_spec (i * 4) 0), (Z.ltb_spec (Z.of_nat (length out)) (i * 4 + 4)); try lia.
    simpl orb. cbv iota. eexists. split; [reflexivity|]. split; [rewrite !length_insert; reflexivity|]. intros p.
    destruct (Z.leb_spec (i * 4) (Z.of_nat p)), (Z.ltb_spec (Z.of_nat p) ((i + 1) * 4)); simpl;
      try (rewrite !list_lookup_insert_ne by lia; reflexivity).
    unfold byte_of. assert (Hr : exists r, (r < 4)%nat /\ p = Z.to_nat (i * 4 + Z.of_nat r)) by (exists (Z.to_nat (Z.of_nat p - i * 4)); lia).
    destruct Hr as (r & Hr & ->). replace (Z.of_nat (Z.to_nat (i * 4 + Z.of_nat r)) - i * 4) with (Z.of_nat r) by lia.
    destruct r as [|[|[|[|r]]]]; [| | | |lia]; cbn [Z.of_nat Pos.of_succ_nat Pos.succ Z.mul Pos.mul].
    + rewrite Z.add_0_r, list_lookup_insert_eq by (rewrite !length_insert; lia). reflexivity.
    + rewrite list_lookup_insert_ne by lia. rewrite list_lookup_insert_eq by (rewrite !length_insert; lia). reflexivity.
    + rewrite !list_lookup_insert_ne by lia. rewrite list_lookup_insert_eq by (rewrite !length_insert; lia). reflexivity.
    + rewrite !list_lookup_insert_ne by lia. rewrite list_lookup_insert_eq by lia. reflexivity.
Qed.

(** What a reader of the output sees of a stored word. *)
Definition stored (d : DType) (w : Z) : Z := match d with U8 => w mod 256 | _ => w end.

Lemma byte_at_lookup l i b : 0 <= i -> l !! Z.to_nat i = Some b -> byte_at l i = b.
Proof. intros Hi H. unfold byte_at. rewrite nth_lookup, H. reflexivity. Qed.

Lemma bytes_word w : word_ok w ->
  Z.lor (byte_of w 0) (Z.lor (Z.shiftl (byte_of w 1) 8) (Z.lor (Z.shiftl (byte_of w 2) 16) (Z.shiftl (byte_of w 3) 24))) = w.
Proof.
  unfold word_ok, two32. intros Hw.
  assert (Hb : forall k, 0 <= k -> byte_of w k = w / 2 ^ (8 * k) mod 256).
  { intros k Hk. unfold byte_of. rewrite Z.shiftr_div_pow2 by lia. reflexivity. }
  assert (Hr : forall k, 0 <= byte_of w k < 256) by (intros k; apply Z.mod_pos_bound; lia).
  pose proof (Hr 0) as R0. pose proof (Hr 1) as R1. pose proof (Hr 2) as R2. pose proof (Hr 3) as R3.
  pose proof (Hb 0 ltac:(lia)) as B0. pose proof (Hb 1 ltac:(lia)) as B1.
  pose proof (Hb 2 ltac:(lia)) as B2. pose proof (Hb 3 ltac:(lia)) as B3.
  change (2 ^ (8 * 0)) with 1 in B0. change (2 ^ (8 * 1)) with 256 in B1.
  change (2 ^ (8 * 2)) with 65536 in B2. change (2 ^ (8 * 3)) with 16777216 in B3.
  revert R0 R1 R2 R3 B0 B1 B2 B3. generalize (byte_of w 0) (byte_of w 1) (byte_of w 2) (byte_of w 3).
  intros b0 b1 b2 b3 R0 R1 R2 R3 B0 B1 B2 B3. rewrite !Z.lor_assoc.
  rewrite (lor_shiftl_bound b0 b1 8) by (change (2 ^ 8) with 256; lia). change (2 ^ 8) with 256.
  rewrite (lor_shiftl_bound _ b2 16) by (change (2 ^ 16) with 65536; lia). change (2 ^ 16) with 65536.
  rewrite (lor_shiftl_bound _ b3 24) by (change (2 ^ 24) with 16777216; lia). change (2 ^ 24) with 16777216.
  Z.to_euclidean_division_equations. lia.
Qed.

(** The bytes of a cell read back as the stored word. *)
Lemma word_stored d out i w : 0 <= i -> (i + 1) * out_size d <= Z.of_nat (length out) -> word_ok w ->
  (forall p, in_cell d i p = true -> out !! p = Some (byte_of w (Z.of_nat p - i * out_size d))) ->
  word (mkBuffer out d) i = stored d w.
Proof.
  intros Hi Hlen Hw Hb.
  assert (Hr : forall r, 0 <= r < out_size d -> byte_at out (i * out_size d + r) = byte_of w r).
  { intros r Hr. assert (Hp : 0 <= i * out_size d) by (destruct d; simpl; lia).
    apply byte_at_lookup; [lia|]. rewrite Hb.
    - do 2 f_equal. rewrite Z2Nat.id by lia. lia.
    - unfold in_cell. rewrite Z2Nat.id by lia. apply andb_true_iff. split; [apply Z.leb_le|apply Z.ltb_lt]; lia. }
  unfold word. cbn [buf_dtype raw]. destruct (Z.ltb_spec i 0); [lia|].
  assert (Hd : d = U8 \/ d <> U8) by (destruct d; auto; right; discriminate). destruct Hd as [->|Hd].
  - cbn [out_size stored] in *. destruct (Z.leb_spec (Z.of_nat (length out)) i); [lia|].
    specialize (Hr 0 ltac:(lia)). replace (i * 1 + 0) with i in Hr by lia. rewrite Hr. unfold byte_of. rewrite Z.shiftr_0_r. reflexivity.
  - assert (Hs : out_size d = 4) by (destruct d; try reflexivity; contradiction). rewrite Hs in *.
    assert (Hw4 : (let off := i * 4 in
      if Z.of_nat (length out) <? off + 4 then 0
      else Z.lor (byte_at out off)
             (Z.lor (Z.shiftl (byte_at out (off + 1)) 8)
                (Z.lor (Z.shiftl (byte_at out (off + 2)) 16)
                   (Z.shiftl (byte_at out (off + 3)) 24)))) = w).
    { cbv zeta. destruct (Z.ltb_spec (Z.of_nat (length out)) (i * 4 + 4)); [lia|].
      pose proof (Hr 0 ltac:(lia)) as B0. rewrite Z.add_0_r in B0. rewrite B0, !Hr by lia. apply bytes_word, Hw. }
    destruct d; try exact Hw4. contradiction.
Qed.

(** ** A range of cells *)

Section jobs.
Context {E : FloatEnv}.
Context (h : heap) (root : nat) (order bufs : list nat) (prog : cpuProgram) (j : cpuJob).
Hypothesis Hf : fheap_ok h.
Hypothesis Hfl : flattened h root order bufs.
Hypothesis Hprog : lowerCPU (h_nodes h) order bufs (j_shape j) = Ok prog.
Hypothesis Hjp : j_program j = prog.
Hypothesis Hjb : j_bufs j = bufs.
Hypothesis Hshape : nonneg (j_shape j).

Let d := j_outType j.
Let hb := h_bufs h.

(** The word of a cell. *)
Definition cell_word (i : Z) : Z :=
  let c := unravel (j_shape j) i in
  if j_maskRoot j then (if snd (indexViews (t_views (j_root j)) c) then flat h root c else 0) else flat h root c.

Definition scratch_ok (s : cpuScratch) : Prop :=
  length (s_registers s) = p_registers prog /\ length (s_coords s) = length (j_shape j).

Lemma takeScratch_ok s : scratch_ok (takeScratch s (p_registers prog) (length (j_shape j))).
Proof using. split; apply take_slice_length. Qed.

Lemma fold_exec_length i c code : forall regs, length (fold_left (exec hb bufs i c) code regs) = length regs.
Proof using. induction code as [|ins code IH]; intros regs; simpl; [reflexivity|]. rewrite IH. apply length_insert. Qed.

(** A cell's word does not depend on the scratch, which keeps its size. *)
Lemma cell_ok i s : 0 <= i < Size (j_shape j) -> scratch_ok s ->
  fst (cell hb j i s) = cell_word i /\ scratch_ok (snd (cell hb j i s)).
Proof using Hf Hfl Hprog Hjp Hjb Hshape.
  intros Hi [Hr Hc]. unfold cell. rewrite unravelInto_unravel by exact Hc. cbn [fst snd].
  rewrite Hjp, Hjb. unfold cell_word. unfold hb.
  rewrite (tape_flat h root order bufs (j_shape j) Hf Hfl Hshape i Hi prog (s_registers s) Hprog Hr).
  split; [reflexivity|]. split; cbn [s_registers s_coords]; [|apply length_unravel].
  rewrite <- Hr. apply fold_exec_length.
Qed.

(** [out'] is [out] with the cells of [P] written. *)
Definition wrote (P : Z -> bool) (out out' : list Z) : Prop :=
  length out' = length out /\
  forall p, out' !! p =
    let i := Z.of_nat p / out_size d in
    if P i then Some (byte_of (cell_word i) (Z.of_nat p - i * out_size d)) else out !! p.

Lemma out_size_pos : 0 < out_size d.
Proof using. destruct d; simpl; lia. Qed.

Lemma in_cell_div i p : in_cell d i p = (Z.of_nat p / out_size d =? i).
Proof using.
  unfold in_cell. pose proof out_size_pos. pose proof (Z.div_mod (Z.of_nat p) (out_size d) ltac:(lia)) as Hd.
  pose proof (Z.mod_pos_bound (Z.of_nat p) (out_size d) ltac:(lia)).
  destruct (Z.eqb_spec (Z.of_nat p / out_size d) i) as [<-|Hne].
  - apply andb_true_iff. split; [apply Z.leb_le|apply Z.ltb_lt]; lia.
  - apply andb_false_iff. destruct (Z.lt_ge_cases (Z.of_nat p / out_size d) i); [left; apply Z.leb_gt|right; apply Z.ltb_ge]; nia.
Qed.

(** Storing one more cell. *)
Lemma wrote_put P out out1 i : 0 <= i -> (i + 1) * out_size d <= Z.of_nat (length out) -> wrote P out out1 ->
  exists out2, put_cell d out1 i (cell_word i) = Some out2 /\ wrote (fun k => P k || (k =? i)) out out2.
Proof using.
  intros Hi Hlen [Hl1 Hw]. destruct (put_cell_spec d out1 i (cell_word i)) as (out2 & Hp & Hl2 & Hq); [exact Hi|lia|].
  exists out2. split; [exact Hp|]. split; [congruence|]. intros p. rewrite Hq, in_cell_div. cbv zeta.
  destruct (Z.eqb_spec (Z.of_nat p / out_size d) i) as [<-|Hne].
  - rewrite orb_true_r. reflexivity.
  - rewrite orb_false_r. apply Hw.
Qed.

Lemma wrote_ext P P' out out' : (forall i, 0 <= i -> P i = P' i) -> wrote P out out' -> wrote P' out out'.
Proof using.
  intros HP [Hl Hw]. split; [exact Hl|]. intros p. rewrite Hw. cbv zeta.
  rewrite HP; [reflexivity|]. pose proof out_size_pos. apply Z.div_pos; lia.
Qed.

Lemma wrote_none out : wrote (fun _ => false) out out.
Proof using. split; reflexivity. Qed.

(** The written output is unique. *)
Lemma wrote_unique P out o1 o2 : wrote P out o1 -> wrote P out o2 -> o1 = o2.
Proof using. intros [_ H1] [_ H2]. apply list_eq. intros p. rewrite H1, H2. reflexivity. Qed.

Lemma job_loop_ok n : forall lo i s out out1, lo <= i -> 0 <= lo ->
  i + Z.of_nat n <= Size (j_shape j) -> (i + Z.of_nat n) * out_size d <= Z.of_nat (length out) ->
  scratch_ok s -> wrote (fun k => (lo <=? k) && (k <? i)) out out1 ->
  exists out2, job_loop n hb j i s out1 = Some out2 /\
    wrote (fun k => (lo <=? k) && (k <? i + Z.of_nat n)) out out2.
Proof using Hf Hfl Hprog Hjp Hjb Hshape.
  induction n as [|n IH]; intros lo i s out out1 Hlo H0 Hn Hlen Hs Hw.
  { exists out1. split; [reflexivity|]. eapply wrote_ext; [|exact Hw]. intros k _. rewrite Z.add_0_r. reflexivity. }
  cbn [job_loop]. destruct (cell_ok i s ltac:(lia) Hs) as [Ec Hs'].
  destruct (cell hb j i s) as [w s']. cbn [fst snd] in *. subst w. pose proof out_size_pos.
  destruct (wrote_put _ out out1 i ltac:(lia) ltac:(nia) Hw) as (out2 & Hp & Hw2). fold d. rewrite Hp.
  destruct (IH lo (i + 1) s' out out2) as (out3 & E3 & W3); try lia; [exact Hs'| |].
  - eapply wrote_ext; [|exact Hw2]. intros k _. destruct (Z.leb_spec lo k), (Z.ltb_spec k i), (Z.eqb_spec k i), (Z.ltb_spec k (i + 1)); simpl; lia.
  - exists out3. split; [exact E3|]. eapply wrote_ext; [|exact W3]. intros k _. cbv beta.
    replace (i + 1 + Z.of_nat n) with (i + Z.of_nat (S n)) by lia. reflexivity.
Qed.

(** A job writes its range and nothing else. *)
Lemma run_ok pool out : 0 <= j_lo j <= j_hi j -> j_hi j <= Size (j_shape j) ->
  j_hi j * out_size d <= Z.of_nat (length out) ->
  exists out', run hb j pool out = Some out' /\ wrote (fun k => (j_lo j <=? k) && (k <? j_hi j)) out out'.
Proof using Hf Hfl Hprog Hjp Hjb Hshape.
  intros Hlo Hhi Hlen. unfold run. rewrite Hjp.
  destruct (job_loop_ok (Z.to_nat (j_hi j - j_lo j)) (j_lo j) (j_lo j)
    (takeScratch pool (p_registers prog) (length (j_shape j))) out out) as (out' & Er & Ew); try lia.
  - rewrite Z2Nat.id by lia. replace (j_lo j + (j_hi j - j_lo j)) with (j_hi j) by lia. exact Hlen.
  - apply takeScratch_ok.
  - eapply wrote_ext; [|apply wrote_none]. intros k _. cbv beta. destruct (Z.leb_spec (j_lo j) k), (Z.ltb_spec k (j_lo j)); simpl; lia.
  - exists out'. split; [exact Er|]. eapply wrote_ext; [|exact Ew]. intros k _. cbv beta.
    replace (j_lo j + Z.of_nat (Z.to_nat (j_hi j - j_lo j))) with (j_hi j) by lia. reflexivity.
Qed.
End jobs.

(** ** Workers

    [evalParallel] cuts the cells into chunks and sends one to each worker.
    Workers run at the same time, each with its own scratch; a step of the
    system is one iteration of one worker's loop. *)

Definition cpuMinParallel : Z := 1024.

Fixpoint chunks_from (n : nat) (w chunk size : Z) : list (Z * Z) :=
  match n with
  | O => []
  | S n' =>
      let lo := w * chunk in
      let hi := Z.min (lo + chunk) size in
      if hi <=? lo then [] else (lo, hi) :: chunks_from n' (w + 1) chunk size
  end.

Definition chunks (size workers : Z) : list (Z * Z) :=
  chunks_from (Z.to_nat workers) 0 (Z.quot (size + workers - 1) workers) size.

(** How many workers [runCPU] uses; [None] runs in the calling goroutine.
    [ready] is the number of started workers. *)
Definition workersFor (gomaxprocs ready size : Z) : option Z :=
  let workers := Z.min gomaxprocs size in
  if (workers <? 2) || (size <? cpuMinParallel) then None else Some (Z.min workers ready).

Record worker : Type := mkWorker { w_lo : Z; w_hi : Z; w_scratch : cpuScratch }.

Section machine.
Context {E : FloatEnv}.

Inductive par_step (hb : list buffer) (j : cpuJob) : list worker * list Z -> list worker * list Z -> Prop :=
| worker_step k w ws out out' :
    ws !! k = Some w -> w_lo w < w_hi w ->
    put_cell (j_outType j) out (w_lo w) (fst (cell hb j (w_lo w) (w_scratch w))) = Some out' ->
    par_step hb j (ws, out)
      (<[k := mkWorker (w_lo w + 1) (w_hi w) (snd (cell hb j (w_lo w) (w_scratch w)))]> ws, out').

(** The workers of [evalParallel], with whatever scratch each has. *)
Definition startWorkers (j : cpuJob) (pool : nat -> cpuScratch) (workers : Z) : list worker :=
  imap (fun k '(lo, hi) =>
          mkWorker lo hi (takeScratch (pool k) (p_registers (j_program j)) (length (j_shape j))))
    (chunks (j_hi j) workers).

Definition finished (ws : list worker) : Prop := Forall (fun w => w_hi w <= w_lo w) ws.

(** [runCPU] leaves [out']. *)
Definition runCPU (hb : list buffer) (j : cpuJob) (gomaxprocs ready : Z) (pool : cpuScratch)
    (pools : nat -> cpuScratch) (out out' : list Z) : Prop :=
  match workersFor gomaxprocs ready (j_hi j) with
  | None => run hb j pool out = Some out'
  | Some workers =>
      exists ws, rtc (par_step hb j) (startWorkers j pools workers, out) (ws, out') /\ finished ws
  end.
End machine.

(** *** The chunks *)

Lemma chunks_from_lookup n chunk size : forall w i lo hi, chunks_from n w chunk size !! i = Some (lo, hi) ->
  lo = (w + Z.of_nat i) * chunk /\ hi = Z.min (lo + chunk) size /\ lo < hi.
Proof.
  induction n as [|n IH]; intros w i lo hi Hl; cbn [chunks_from] in Hl; [discriminate Hl|].
  destruct (Z.leb_spec (Z.min (w * chunk + chunk) size) (w * chunk)); [discriminate Hl|].
  destruct i as [|i]; simpl in Hl.
  - injection Hl as <- <-. rewrite Z.add_0_r. lia.
  - apply IH in Hl as (E1 & E2 & E3). split; [rewrite E1; f_equal; lia|auto].
Qed.

Lemma chunks_from_cover chunk size k : 0 < chunk -> forall n w, 0 <= w ->
  (exists c, c ∈ chunks_from n w chunk size /\ fst c <= k < snd c) <->
  w * chunk <= k < Z.min size ((w + Z.of_nat n) * chunk).
Proof.
  intros Hc. induction n as [|n IH]; intros w Hw; cbn [chunks_from].
  { split; [intros (c & Hin & _); inversion Hin|]. rewrite Z.add_0_r. lia. }
  destruct (Z.leb_spec (Z.min (w * chunk + chunk) size) (w * chunk)).
  { split; [intros (c & Hin & _); inversion Hin|]. nia. }
  specialize (IH (w + 1) ltac:(lia)). split.
  - intros (c & Hin & Hk). apply elem_of_cons in Hin as [->|Hin]; [simpl in Hk; nia|].
    destruct IH as [IH _]. specialize (IH ltac:(eauto)). nia.
  - intros Hk. destruct (Z.lt_ge_cases k (w * chunk + chunk)).
    + eexists. split; [left|]. simpl. lia.
    + destruct IH as [_ IH]. destruct IH as (c & Hin & Hkc); [nia|]. exists c. split; [right; exact Hin|exact Hkc].
Qed.

(** Every cell is in a chunk, and in one chunk only. *)
Lemma chunks_cover size workers k : 0 <= size -> 0 < workers ->
  (exists c, c ∈ chunks size workers /\ fst c <= k < snd c) <-> 0 <= k < size.
Proof.
  intros Hs Hw. unfold chunks. rewrite Z.quot_div_nonneg by lia.
  set (chunk := (size + workers - 1) / workers).
  assert (Hc : size <= workers * chunk /\ 0 <= chunk).
  { unfold chunk. split; [|apply Z.div_pos; lia]. pose proof (Z.div_mod (size + workers - 1) workers ltac:(lia)).
    pose proof (Z.mod_pos_bound (size + workers - 1) workers Hw). lia. }
  destruct (Z.eq_dec size 0) as [->|Hne].
  - split; [|lia]. intros (c & Hin & Hk). exfalso. apply list_elem_of_lookup_1 in Hin as [i Hi]. destruct c as [lo hi].
    apply chunks_from_lookup in Hi. simpl in Hk. nia.
  - rewrite chunks_from_cover by nia. rewrite Z2Nat.id by lia. nia.
Qed.

Lemma chunks_disjoint size workers a b ca cb k : chunks size workers !! a = Some ca -> chunks size workers !! b = Some cb ->
  fst ca <= k < snd ca -> fst cb <= k < snd cb -> a = b.
Proof.
  destruct ca as [la ha], cb as [lb hb]. simpl. unfold chunks. set (chunk := Z.quot _ _). intros Ha Hb Ka Kb.
  apply chunks_from_lookup in Ha as (Ea & Ea' & _), Hb as (Eb & Eb' & _). nia.
Qed.

Definition chunk_cells (cs : list (Z * Z)) : Z := foldr (fun c n => snd c - fst c + n) 0 cs.

Lemma chunks_from_total chunk size : 0 < chunk -> forall n w, 0 <= w -> w * chunk <= size ->
  chunk_cells (chunks_from n w chunk size) = Z.min size ((w + Z.of_nat n) * chunk) - w * chunk.
Proof.
  intros Hc. induction n as [|n IH]; intros w Hw Hs; cbn [chunks_from]; [simpl; lia|].
  destruct (Z.leb_spec (Z.min (w * chunk + chunk) size) (w * chunk)); [simpl; nia|].
  cbn [chunk_cells foldr]. fold (chunk_cells (chunks_from n (w + 1) chunk size)). simpl fst. simpl snd.
  destruct (Z.le_gt_cases ((w + 1) * chunk) size).
  - rewrite IH by lia. replace (w + 1 + Z.of_nat n) with (w + Z.of_nat (S n)) by lia. lia.
  - assert (chunks_from n (w + 1) chunk size = []) as ->.
    { destruct n as [|n]; [reflexivity|]. cbn [chunks_from].
      destruct (Z.leb_spec (Z.min ((w + 1) * chunk + chunk) size) ((w + 1) * chunk)); [reflexivity|lia]. }
    simpl. nia.
Qed.

Lemma chunks_total size workers : 0 <= size -> 0 < workers -> chunk_cells (chunks size workers) = size.
Proof.
  intros Hs Hw. unfold chunks. rewrite Z.quot_div_nonneg by lia.
  set (chunk := (size + workers - 1) / workers).
  pose proof (Z.div_mod (size + workers - 1) workers ltac:(lia)) as Hd. fold chunk in Hd.
  pose proof (Z.mod_pos_bound (size + workers - 1) workers Hw).
  destruct (Z.eq_dec size 0) as [->|Hne].
  - assert (chunk = 0) as -> by nia. destruct (Z.to_nat workers); reflexivity.
  - rewrite chunks_from_total by nia. rewrite Z2Nat.id by lia. nia.
Qed.

(** The cells the workers have left. *)
Definition remaining (ws : list worker) : Z := foldr (fun w n => w_hi w - w_lo w + n) 0 ws.

Lemma remaining_insert ws k w w' : ws !! k = Some w -> w_hi w' = w_hi w -> w_lo w' = w_lo w + 1 ->
  remaining (<[k := w']> ws) = remaining ws - 1.
Proof.
  revert k; induction ws as [|x ws IH]; intros [|k] Hk Hh Hl; try discriminate Hk; simpl in *.
  - injection Hk as ->. lia.
  - rewrite (IH k) by assumption. lia.
Qed.

Section parallel.
Context {E : FloatEnv}.
Context (h : heap) (root : nat) (order bufs : list nat) (prog : cpuProgram) (j : cpuJob).
Hypothesis Hf : fheap_ok h.
Hypothesis Hfl : flattened h root order bufs.
Hypothesis Hprog : lowerCPU (h_nodes h) order bufs (j_shape j) = Ok prog.
Hypothesis Hjp : j_program j = prog.
Hypothesis Hjb : j_bufs j = bufs.
Hypothesis Hshape : nonneg (j_shape j).
Context (pools : nat -> cpuScratch) (workers : Z) (out : list Z).
Hypothesis Hworkers : 0 < workers.
Hypothesis Hhi : 0 <= j_hi j <= Size (j_shape j).
Hypothesis Hlen : j_hi j * out_size (j_outType j) <= Z.of_nat (length out).

Let cs := chunks (j_hi j) workers.
Let start := startWorkers j pools workers.

Definition worker_ok (c : Z * Z) (w : worker) : Prop :=
  w_hi w = snd c /\ fst c <= w_lo w <= w_hi w /\ scratch_ok prog j (w_scratch w).

(** Cell [k] is behind the worker that has it. *)
Definition done (ws : list worker) (k : Z) : bool :=
  existsb (fun '(c, w) => (fst c <=? k) && (k <? w_lo w)) (zip cs ws).

Definition par_inv (st : list worker * list Z) : Prop :=
  Forall2 worker_ok cs (fst st) /\ wrote h root j (done (fst st)) out (snd st).

Lemma done_spec ws k : Forall2 worker_ok cs ws -> done ws k = true <->
  exists i c w, cs !! i = Some c /\ ws !! i = Some w /\ fst c <= k < w_lo w.
Proof using.
  intros Hw. unfold done. clear -Hw. induction Hw as [|c w cs ws Hcw Hw IH]; simpl.
  - split; [discriminate|]. intros (i & c & w & Hc & _). discriminate Hc.
  - rewrite orb_true_iff, IH, andb_true_iff, Z.leb_le, Z.ltb_lt. split.
    + intros [H|(i & c' & w' & Hc & Hw' & H)]; [exists 0%nat, c, w|exists (S i), c', w']; repeat split; auto; apply H.
    + intros ([|i] & c' & w' & Hc & Hw' & H); simpl in *; [injection Hc as ->; injection Hw' as ->; auto|right; exists i, c', w'; auto].
Qed.

Lemma chunk_bounds c : c ∈ cs -> 0 <= fst c /\ snd c <= j_hi j.
Proof using Hworkers Hhi.
  clear Hlen. intros Hin. destruct (decide (fst c < snd c)) as [Hlt|Hge].
  - assert (K : forall k, fst c <= k < snd c -> 0 <= k < j_hi j).
    { intros k Hk. apply (chunks_cover (j_hi j) workers k); [lia|exact Hworkers|]. exists c. auto. }
    pose proof (K (fst c) ltac:(lia)). pose proof (K (snd c - 1) ltac:(lia)). lia.
  - exfalso. apply list_elem_of_lookup_1 in Hin as [i Hi]. destruct c as [lo hi].
    apply chunks_from_lookup in Hi. simpl in Hge. lia.
Qed.

Lemma start_inv : par_inv (start, out).
Proof using Hjp Hworkers Hhi.
  assert (Hs : Forall2 worker_ok cs start).
  { unfold start, startWorkers. fold cs. apply Forall2_lookup. intros i. rewrite list_lookup_imap.
    destruct (cs !! i) as [[lo hi]|] eqn:Ei; simpl; constructor. split; [reflexivity|]. cbn [w_lo w_hi w_scratch fst snd].
    rewrite Hjp. split; [|apply takeScratch_ok]. apply chunks_from_lookup in Ei. lia. }
  split; [exact Hs|]. cbn [fst snd]. eapply wrote_ext; [|apply wrote_none]. intros k _. symmetry.
  apply not_true_iff_false. intros Hd. apply (done_spec start k Hs) in Hd as (i & c & w & Hc & Hw & Hk).
  unfold start, startWorkers in Hw. fold cs in Hw. rewrite list_lookup_imap, Hc in Hw. destruct c as [lo hi].
  simpl in Hw. injection Hw as <-. simpl in Hk. lia.
Qed.

Lemma done_insert ws i c w w' k : Forall2 worker_ok cs ws -> Forall2 worker_ok cs (<[i := w']> ws) ->
  cs !! i = Some c -> ws !! i = Some w -> fst c <= w_lo w -> w_lo w' = w_lo w + 1 ->
  done ws k || (k =? w_lo w) = done (<[i := w']> ws) k.
Proof using.
  clear Hlen. intros H1 H2 Hc Hw Hle Hlo. apply eq_true_iff_eq. rewrite orb_true_iff, Z.eqb_eq, !done_spec by assumption.
  assert (Hi : (i < length ws)%nat) by (eapply lookup_lt_Some, Hw). split.
  - intros [(i' & c' & w'' & Hc' & Hw'' & Hk)| ->].
    + destruct (decide (i = i')) as [<-|Hne].
      * exists i, c', w'. rewrite list_lookup_insert_eq by exact Hi. split; [exact Hc'|]. split; [reflexivity|].
        assert (w'' = w) as -> by congruence. lia.
      * exists i', c', w''. rewrite list_lookup_insert_ne by exact Hne. auto.
    + exists i, c, w'. rewrite list_lookup_insert_eq by exact Hi. split; [exact Hc|]. split; [reflexivity|]. lia.
  - intros (i' & c' & w'' & Hc' & Hw'' & Hk). destruct (decide (i = i')) as [<-|Hne].
    + rewrite list_lookup_insert_eq in Hw'' by exact Hi. injection Hw'' as <-. assert (c' = c) as -> by congruence.
      destruct (decide (k = w_lo w)); [auto|left]. exists i, c, w. split; [exact Hc|]. split; [exact Hw|]. lia.
    + rewrite list_lookup_insert_ne in Hw'' by exact Hne. left. exists i', c', w''. auto.
Qed.

(** A worker with cells left can take its step, and the step keeps the
    invariant. *)
Lemma worker_progress ws o i w : par_inv (ws, o) -> ws !! i = Some w -> w_lo w < w_hi w ->
  let r := cell (h_bufs h) j (w_lo w) (w_scratch w) in
  exists o', put_cell (j_outType j) o (w_lo w) (fst r) = Some o' /\
    par_inv (<[i := mkWorker (w_lo w + 1) (w_hi w) (snd r)]> ws, o').
Proof using Hf Hfl Hprog Hjp Hjb Hshape Hworkers Hhi Hlen.
  intros [Hws Hw] Hi Hlt r. cbn [fst snd] in *.
  destruct (Forall2_lookup_r _ _ _ _ _ Hws Hi) as (c & Hc & Hh & Hb & Hs).
  destruct (chunk_bounds c (list_elem_of_lookup_2 _ _ _ Hc)) as [B1 B2].
  destruct (cell_ok h root order bufs prog j Hf Hfl Hprog Hjp Hjb Hshape (w_lo w) (w_scratch w)) as [Ec Es]; [lia|exact Hs|].
  fold r in Ec, Es. rewrite Ec. pose proof (out_size_pos j).
  destruct (wrote_put h root j (done ws) out o (w_lo w)) as (o' & Hp & Hw'); [lia|nia|exact Hw|].
  exists o'. split; [exact Hp|]. set (w' := mkWorker _ _ _).
  assert (Hws' : Forall2 worker_ok cs (<[i := w']> ws)).
  { replace cs with (<[i := c]> cs) by (apply list_insert_id, Hc). apply Forall2_insert; [exact Hws|].
    split; [exact Hh|]. cbn [w_lo w_hi w_scratch w']. split; [lia|exact Es]. }
  split; [exact Hws'|]. cbn [fst snd]. eapply wrote_ext; [|exact Hw']. intros k _.
  apply (done_insert ws i c w w' k Hws Hws' Hc Hi); [lia|reflexivity].
Qed.

Lemma par_step_inv st st' : par_inv st -> par_step (h_bufs h) j st st' ->
  par_inv st' /\ remaining (fst st') = remaining (fst st) - 1.
Proof using Hf Hfl Hprog Hjp Hjb Hshape Hworkers Hhi Hlen.
  intros Hinv Hstep. destruct Hstep as [i w ws o o' Hi Hlt Hp].
  destruct (worker_progress ws o i w Hinv Hi Hlt) as (o'' & Hp' & Hinv'). cbn zeta in *.
  rewrite Hp in Hp'. injection Hp' as <-. split; [exact Hinv'|]. cbn [fst]. eapply remaining_insert; [exact Hi|reflexivity|reflexivity].
Qed.

Lemma par_run_inv n st : nsteps (par_step (h_bufs h) j) n (start, out) st ->
  par_inv st /\ remaining (fst st) + Z.of_nat n = j_hi j.
Proof using Hf Hfl Hprog Hjp Hjb Hshape Hworkers Hhi Hlen.
  assert (H0 : remaining start = j_hi j).
  { rewrite <- (chunks_total (j_hi j) workers) by lia. unfold start, startWorkers. fold cs. generalize (0%nat).
    assert (G : forall l f, (forall k (c : Z * Z), w_lo (f k c) = fst c /\ w_hi (f k c) = snd c) ->
      remaining (imap f l) = chunk_cells l).
    { induction l as [|c l IH]; intros f Hfk; simpl; [reflexivity|]. destruct (Hfk 0%nat c) as [-> ->].
      f_equal. apply IH. intros k c'. apply Hfk. }
    intros _. apply G. intros k [lo hi]. split; reflexivity. }
  revert st. induction n as [|n IH]; intros st Hn.
  - inversion Hn; subst. split; [apply start_inv|]. cbn [fst]. lia.
  - apply nsteps_inv_r in Hn as (st1 & Hn & Hs). destruct (IH st1 Hn) as [Hi Hr].
    destruct (par_step_inv _ _ Hi Hs) as [Hi' Hr']. split; [exact Hi'|]. lia.
Qed.

(** When the workers are finished, every cell is written. *)
Lemma finished_wrote ws o : par_inv (ws, o) -> finished ws ->
  wrote h root j (fun k => (0 <=? k) && (k <? j_hi j)) out o.
Proof using Hworkers Hhi.
  intros [Hws Hw] Hfin. cbn [fst snd] in *. eapply wrote_ext; [|exact Hw]. intros k _. symmetry. apply eq_true_iff_eq.
  rewrite done_spec by exact Hws. rewrite andb_true_iff, Z.leb_le, Z.ltb_lt, <- (chunks_cover (j_hi j) workers k) by lia. fold cs.
  split.
  - intros ([lo hi] & Hin & Hk). apply list_elem_of_lookup_1 in Hin as [i Hi].
    destruct (Forall2_lookup_l _ _ _ _ _ Hws Hi) as (w & Hwi & Hh & Hb & _). exists i, (lo, hi), w.
    split; [exact Hi|]. split; [exact Hwi|]. unfold finished in Hfin. rewrite Forall_lookup in Hfin. specialize (Hfin i w Hwi).
    simpl in *. lia.
  - intros (i & c & w & Hc & Hwi & Hk). destruct (Forall2_lookup_r _ _ _ _ _ Hws Hwi) as (c' & Hc' & Hh & Hb & _).
    assert (c' = c) as -> by congruence. exists c. split; [eapply list_elem_of_lookup_2, Hc|]. lia.
Qed.

Lemma remaining_nonneg ws : Forall2 worker_ok cs ws -> 0 <= remaining ws.
Proof using.
  intros H. unfold cs in H. clear -H. induction H as [|c w cs' ws (_ & Hb & _) _ IH]; [reflexivity|].
  cbn [remaining foldr]. fold (remaining ws). lia.
Qed.

Lemma finished_dec ws : finished ws \/ exists i w, ws !! i = Some w /\ w_lo w < w_hi w.
Proof using.
  clear. induction ws as [|w ws [IH|(i & w' & Hi & Hlt)]]; [left; constructor| |right; exists (S i), w'; auto].
  destruct (Z.lt_ge_cases (w_lo w) (w_hi w)); [right; exists 0%nat, w; auto|left; constructor; [lia|exact IH]].
Qed.

(** From every state the workers reach, they can finish. *)
Lemma par_finishes st : par_inv st -> exists ws o, rtc (par_step (h_bufs h) j) st (ws, o) /\ finished ws.
Proof using Hf Hfl Hprog Hjp Hjb Hshape Hworkers Hhi Hlen.
  intros Hinv. remember (Z.to_nat (remaining (fst st))) as n eqn:En. revert st Hinv En.
  induction n as [n IH] using lt_wf_ind. intros [ws o] Hinv En.
  destruct (finished_dec ws) as [Hfin|(i & w & Hi & Hlt)]; [exists ws, o; split; [constructor|exact Hfin]|].
  destruct (worker_progress ws o i w Hinv Hi Hlt) as (o' & Hp & Hinv'). cbn zeta in *.
  assert (Hs : par_step (h_bufs h) j (ws, o) (<[i := mkWorker (w_lo w + 1) (w_hi w)
      (snd (cell (h_bufs h) j (w_lo w) (w_scratch w)))]> ws, o')) by (econstructor; eassumption).
  destruct (par_step_inv _ _ Hinv Hs) as [_ Hr]. cbn [fst] in *.
  pose proof (remaining_nonneg _ (proj1 Hinv')) as Hnn. cbn [fst] in Hnn.
  edestruct IH as (ws' & o2 & Hrun & Hfin); [|exact Hinv'|reflexivity|].
  - cbn [fst]. lia.
  - exists ws', o2. split; [econstructor; eassumption|exact Hfin].
Qed.
End parallel.

(** *** runCPU *)

Section runcpu.
Context {E : FloatEnv}.
Context (h : heap) (root : nat) (order bufs : list nat) (prog : cpuProgram) (j : cpuJob).
Hypothesis Hf : fheap_ok h.
Hypothesis Hfl : flattened h root order bufs.
Hypothesis Hprog : lowerCPU (h_nodes h) order bufs (j_shape j) = Ok prog.
Hypothesis Hjp : j_program j = prog.
Hypothesis Hjb : j_bufs j = bufs.
Hypothesis Hshape : nonneg (j_shape j).
Hypothesis Hlo : j_lo j = 0.
Hypothesis Hhi : 0 <= j_hi j <= Size (j_shape j).
Context (gomaxprocs ready : Z) (pool : cpuScratch) (pools : nat -> cpuScratch) (out : list Z).
Hypothesis Hready : 0 < ready.
Hypothesis Hlen : j_hi j * out_size (j_outType j) <= Z.of_nat (length out).

Lemma workersFor_pos w : workersFor gomaxprocs ready (j_hi j) = Some w -> 0 < w.
Proof using Hready.
  clear Hlen. unfold workersFor. destruct (Z.ltb_spec (Z.min gomaxprocs (j_hi j)) 2); simpl; [discriminate|].
  destruct (_ <? cpuMinParallel); [discriminate|]. intros [= <-]. lia.
Qed.

(** Sequential or parallel, in any interleaving, [runCPU] writes the word
    of every cell and nothing else. *)
Lemma runCPU_writes out' : runCPU (h_bufs h) j gomaxprocs ready pool pools out out' ->
  wrote h root j (fun k => (0 <=? k) && (k <? j_hi j)) out out'.
Proof using Hf Hfl Hprog Hjp Hjb Hshape Hlo Hhi Hready Hlen.
  unfold runCPU. destruct (workersFor _ _ _) as [w|] eqn:Ew.
  - intros (ws & Hrun & Hfin). apply rtc_nsteps in Hrun as [n Hrun].
    pose proof (workersFor_pos w Ew) as Hw.
    destruct (par_run_inv h root order bufs prog j Hf Hfl Hprog Hjp Hjb Hshape pools w out Hw Hhi Hlen n _ Hrun) as [Hinv _].
    eapply finished_wrote; eauto.
  - intros Hrun. destruct (run_ok h root order bufs prog j Hf Hfl Hprog Hjp Hjb Hshape pool out) as (o & Er & Ew'); try lia.
    rewrite Er in Hrun. injection Hrun as <-. rewrite Hlo in Ew'. exact Ew'.
Qed.

Lemma runCPU_returns : exists out', runCPU (h_bufs h) j gomaxprocs ready pool pools out out'.
Proof using Hf Hfl Hprog Hjp Hjb Hshape Hlo Hhi Hready Hlen.
  unfold runCPU. destruct (workersFor _ _ _) as [w|] eqn:Ew.
  - pose proof (workersFor_pos w Ew) as Hw.
    destruct (par_finishes h root order bufs prog j Hf Hfl Hprog Hjp Hjb Hshape w out Hw Hhi Hlen (startWorkers j pools w, out)) as (ws & o & Hrun & Hfin).
    { eapply start_inv; eauto. }
    exists o, ws. auto.
  - destruct (run_ok h root order bufs prog j Hf Hfl Hprog Hjp Hjb Hshape pool out) as (o & Er & _); try lia.
    exists o. exact Er.
Qed.
End runcpu.
