(* ===== verification/Kernel.v ===== *)
(** * Kernels (src/x/ndarray/kernel.go)

    [compile] rewrites, optimizes and flattens a graph into a [Kernel], which
    a backend lowers and runs.  The file models the kernel and its methods
    and proves that evaluating a compiled graph on the CPU writes, for every
    cell, the value the graph denotes. *)
From Stdlib Require Import ZArith Lia.
From stdpp Require Import base numbers option list relations.
From S2P Require Import Prelude Float Alu Shape View Tracker Expr Rewrite Optimize Flatten Cpu.

Local Open Scope Z_scope.

(** ** The kernel *)

Definition localSize : Z := 128.
Definition PushBytes : Z := 20.

Record Kernel : Type := mkKernel {
  k_root : nat;
  k_order : list nat;
  k_bufs : list nat;
  k_built : Shape;
  k_shape : Shape;
  k_outType : DType;
  k_size : Z
}.

Section compile.
Context {E : FloatEnv}.

(** [needsRewrite] and [rewrite]: the depth of the graph of [l] is at most
    [l], so [S l] is enough fuel for both. *)
Definition prepare (l : nat) (h : heap) : nat * heap :=
  if fst (needsRewrite (S l) (h_nodes h) l []) then
    let '(m, st) := rewrite (S l) l [] (h, []) in (m, fst st)
  else (l, h).

(** [None] when the fuel of the optimizer runs out. *)
Definition compile (fuel : nat) (expr : option nat) (h : heap) : option (res Kernel * heap) :=
  match expr with
  | None => Some (Err ErrOp, h)
  | Some l =>
      match n_err (get (h_nodes h) l) with
      | Some e => Some (Err e, h)
      | None =>
          match nShape (h_nodes h) l with
          | None => Some (Err ErrShape, h)
          | Some shape =>
              if Size shape <? 0 then Some (Err ErrShape, h) else
              let '(l, h) := prepare l h in
              match optimize fuel l h with
              | None => None
              | Some (root, h) =>
                  match flatten (h_nodes h) root with
                  | Err e => Some (Err e, h)
                  | Ok (order, bufs) =>
                      Some (Ok (mkKernel root order bufs shape shape (n_dtype (get (h_nodes h) root)) (Size shape)), h)
                  end
              end
          end
      end
  end.
End compile.

(** *** Methods; a kernel may be nil *)

Definition Resize (k : option Kernel) (shape : Shape) : res Kernel :=
  match k with
  | None => Err ErrShape
  | Some k =>
      if negb (Rank shape =? Rank (k_shape k)) then Err ErrShape
      else if Equal (k_shape k) shape then Ok k
      else
        let? _ := check shape in
        Ok (mkKernel (k_root k) (k_order k) (k_bufs k) (k_built k) shape (k_outType k) (Size shape))
  end.

Definition kernel_Shape (k : option Kernel) : option Shape := option_map k_shape k.

Definition kernel_Size (k : option Kernel) : Z := match k with None => 0 | Some k => k_size k end.

Definition kernel_DType (k : option Kernel) : DType := match k with None => DNone | Some k => k_outType k end.

Definition Bindings (k : option Kernel) : Z :=
  match k with None => 0 | Some k => 1 + Z.of_nat (length (k_bufs k)) end.

Definition InputCount (k : option Kernel) : Z :=
  match k with None => 0 | Some k => Z.of_nat (length (k_bufs k)) end.

(** [Input]: leaf [i]'s storage, or nil. *)
Definition Input (hb : list buffer) (k : option Kernel) (i : Z) : option (list Z) :=
  match k with
  | None => None
  | Some k =>
      if (i <? 0) || (Z.of_nat (length (k_bufs k)) <=? i) then None
      else option_map raw (k_bufs k !! Z.to_nat i ≫= (fun b => hb !! b))
  end.

Definition InputDType (hb : list buffer) (k : option Kernel) (i : Z) : DType :=
  match k with
  | None => DNone
  | Some k =>
      if (i <? 0) || (Z.of_nat (length (k_bufs k)) <=? i) then DNone
      else match k_bufs k !! Z.to_nat i ≫= (fun b => hb !! b) with None => DNone | Some b => buf_dtype b end
  end.

Definition OutputBytes (k : option Kernel) : Z :=
  match k with None => 0 | Some k => k_size k * dtype_size (k_outType k) end.

Definition Groups (k : option Kernel) : Z :=
  match k with
  | None => 0
  | Some k => if k_size k =? 0 then 0 else u32 (Z.quot (k_size k + localSize - 1) localSize)
  end.

(** The bytes of [binary.LittleEndian.PutUint32]. *)
Definition le_bytes (w : Z) : list Z := [byte_of w 0; byte_of w 1; byte_of w 2; byte_of w 3].

Definition push_words (k : Kernel) : list Z :=
  u32 (k_size k) :: map u32 (take 4 (k_shape k)).

(** [FillPush] clears the slice's first [PushBytes] bytes and writes n and the
    first four dimensions; a shorter slice is left alone. *)
Definition FillPush (k : option Kernel) (push : list Z) : list Z :=
  if Z.of_nat (length push) <? PushBytes then push else
  let rest := drop (Z.to_nat PushBytes) push in
  match k with
  | None => repeat 0 (Z.to_nat PushBytes) ++ rest
  | Some k =>
      let bytes := concat (map le_bytes (push_words k)) in
      bytes ++ repeat 0 (Z.to_nat PushBytes - length bytes) ++ rest
  end.

Definition Push (k : option Kernel) : list Z := FillPush k (repeat 0 (Z.to_nat PushBytes)).

(** *** The job of a kernel *)

(** [cpuJob{...}] of [runCPU] and [evalParallel]. *)
Definition job_of (ns : list node) (prog : cpuProgram) (k : Kernel) : cpuJob :=
  mkJob prog (n_tracker (get ns (k_root k))) (k_shape k) (k_outType k) (k_bufs k) 0 (k_size k)
    (viewed (get ns (k_root k))).

(** ** Preparing a graph *)

(** The cell is not cut off by the view of an operation. *)
Definition keeps (h : heap) (l : nat) (c : list Z) : Prop :=
  let n := get (h_nodes h) l in n_kind n = kindOp -> viewed n = true -> t_locate (n_tracker n) c <> None.

(** What rewriting asks of a graph: inner views keep every cell, and the
    hashes of the chains that occur do not collide. *)
Definition rewritable (h : heap) (l : nat) : Prop :=
  fst (needsRewrite (S l) (h_nodes h) l []) = true ->
  root_sound (h_nodes h) l /\ exists Ss, hash_ok Ss /\ forall x, x ∈ chains (S l) (h_nodes h) l [] -> x ∈ Ss.

(** Only inputs and constants are viewed. *)
Definition leaf_views (h : heap) : Prop :=
  forall l n, h_nodes h !! l = Some n -> n_kind n = kindOp \/ n_kind n = kindCoord -> viewed n = false.

Lemma leaf_views_sound h l : heap_ok h -> leaf_views h -> valid_ptr h l -> sound (h_nodes h) l.
Proof.
  intros H Hu. induction l as [l IH] using lt_wf_ind. intros [Hl He].
  destruct (lookup_lt_is_Some_2 _ _ Hl) as [n Hn]. pose proof (get_lookup _ _ _ Hn) as Eg. rewrite Eg in He.
  apply (sound_node _ l n Hn He).
  - intros Hk Hv. rewrite (Hu l n Hn (or_introl Hk)) in Hv. discriminate Hv.
  - intros s Hs. pose proof (heap_nodes h H l n Hn) as K. unfold node_ok in K. rewrite He in K.
    destruct K as (_ & _ & _ & K). destruct (n_kind n); try (rewrite (proj1 K) in Hs; inversion Hs).
    destruct K as (_ & Ks & _). rewrite Forall_forall in Ks. destruct (Ks s Hs) as [Hsl Hse].
    apply IH; [exact Hsl|split; [lia|exact Hse]].
Qed.

Lemma leaf_views_chains h : heap_ok h -> leaf_views h -> forall fuel l x,
  x ∈ chains fuel (h_nodes h) l [] -> x = [].
Proof.
  intros H Hu. induction fuel as [|fuel IH]; intros l x Hx; [inversion Hx|]. cbn [chains] in Hx.
  apply elem_of_cons in Hx as [->|Hx]; [reflexivity|].
  apply list_elem_of_In, in_flat_map in Hx as (s & Hs & Hx). apply list_elem_of_In in Hx.
  assert (Hv : viewed (get (h_nodes h) l) = false); [|rewrite Hv in Hx; eauto].
  destruct (h_nodes h !! l) as [n|] eqn:Hn.
  2: { unfold get in Hs. rewrite nth_lookup, Hn in Hs. contradiction Hs. }
  rewrite (get_lookup _ _ _ Hn) in *. pose proof (heap_nodes h H l n Hn) as K. unfold node_ok in K.
  destruct (n_err n); [rewrite (proj2 K) in Hs; contradiction Hs|]. destruct K as (_ & _ & _ & K).
  destruct (n_kind n) eqn:Ek; try (rewrite (proj1 K) in Hs; contradiction Hs). apply (Hu l n Hn (or_introl Ek)).
Qed.

Lemma leaf_views_rewritable h l : heap_ok h -> leaf_views h -> valid_ptr h l -> rewritable h l.
Proof.
  intros H Hu Hl _. split; [apply sound_root, leaf_views_sound; assumption|]. exists [[]].
  split.
  - intros s1 s2 H1 H2 _. apply list_elem_of_singleton in H1, H2. congruence.
  - intros x Hx. apply leaf_views_chains in Hx; [subst x; left|exact H|exact Hu].
Qed.

Section prepare.
Context {E : FloatEnv}.

Lemma prepare_spec h l : heap_ok h -> valid_ptr h l -> rewritable h l ->
  let '(m, h1) := prepare l h in
  fheap_ok h1 /\ ext h h1 /\ valid_ptr h1 m /\ typ h1 m = typ h l /\
  forall c, okc (nShape (h_nodes h) l) c -> keeps h l c -> flat h1 m c = den h l c.
Proof using.
  intros H Hl Hr. unfold prepare. unfold rewritable in Hr.
  destruct (fst (needsRewrite (S l) (h_nodes h) l [])) eqn:En.
  - destruct (Hr eq_refl) as (Hrs & Ss & Hinj & HS).
    pose proof (rewrite_good h Ss H Hinj (S l) l [] (h, []) ltac:(lia) Hrs ltac:(constructor) HS) as K.
    destruct (rewrite (S l) l [] (h, [])) as [m st]. destruct K as (K1 & K2 & K3).
    { split; [reflexivity|]. split; [apply heap_fheap, H|]. split; [reflexivity|]. intros l' k m'. discriminate. }
    destruct K1 as (_ & Kf & _). destruct K3 as (G1 & G2 & G3 & G4). split; [exact Kf|]. split; [exact K2|].
    split; [split; assumption|]. split; [exact G3|]. intros c Hc Hk. apply (G4 c c); [reflexivity|exact Hc|exact Hk].
  - split; [apply heap_fheap, H|]. split; [reflexivity|]. split; [exact Hl|]. split; [reflexivity|].
    intros c Hc _. destruct Hl as [Hl He]. apply flat_unviewed; auto. intros x Hx. apply not_true_iff_false. intros Hv.
    assert (fst (needsRewrite (S l) (h_nodes h) l []) = true); [|congruence].
    apply needsRewrite_exact; [apply heap_acyclic, H|exact Hl|eauto].
Qed.

(** *** Plain graphs stay plain *)

Lemma plain_get h l : all_plain h -> plain_node (get (h_nodes h) l).
Proof using.
  intros Hp. destruct (h_nodes h !! l) as [n|] eqn:Hn.
  - rewrite (get_lookup _ _ _ Hn). unfold all_plain in Hp. rewrite Forall_forall in Hp.
    eapply Hp, list_elem_of_lookup_2, Hn.
  - unfold get. rewrite nth_lookup, Hn. intros _. reflexivity.
Qed.

Lemma clone_plain key n st : all_plain (fst st) -> plain_node n -> all_plain (fst (snd (clone key n st))).
Proof using. intros Hp Hn. apply Forall_app. split; [exact Hp|]. constructor; [exact Hn|constructor]. Qed.

Lemma rewrite_plain fuel : forall l st, all_plain (fst st) -> all_plain (fst (snd (rewrite fuel l [] st))).
Proof using.
  induction fuel as [|fuel IH]; intros l st Hp; [exact Hp|]. cbn [rewrite].
  set (n := get (h_nodes (fst st)) l). pose proof (plain_get (fst st) l Hp) as Hn. fold n in Hn.
  destruct (n_err n) eqn:He; [exact Hp|]. destruct (memo_get _ _); [exact Hp|]. destruct (n_kind n) eqn:Ek.
  - destruct (t_views _); exact Hp.
  - exact Hp.
  - assert (Hv : viewed n = false) by (unfold plain_node in Hn; rewrite Ek in Hn; exact (Hn He)). rewrite Hv.
    exact Hp.
  - assert (Hv : viewed n = false) by (unfold plain_node in Hn; rewrite Ek in Hn; exact (Hn He)). rewrite Hv.
    assert (Hgo : forall ss st, all_plain (fst st) -> all_plain (fst (snd (mapM_state (fun s => rewrite fuel s []) ss st)))).
    { clear -IH. induction ss as [|s ss IHs]; intros st Hp; [exact Hp|]. cbn [mapM_state].
      pose proof (IH s st Hp) as K. destruct (rewrite fuel s [] st) as [m st1]. cbn [snd] in K.
      specialize (IHs st1 K). destruct (mapM_state _ ss st1) as [ms st2]. exact IHs. }
    specialize (Hgo (n_sources n) st Hp). destruct (mapM_state (fun s => rewrite fuel s []) (n_sources n) st) as [srcs st1]. cbn [snd] in Hgo.
    destruct (_ && _); [exact Hgo|]. apply clone_plain; [exact Hgo|]. intros _. cbn [n_kind set_chain set_sources]. rewrite Ek. exact Hv.
Qed.

Lemma prepare_plain h l : all_plain h -> all_plain (snd (prepare l h)).
Proof using.
  intros Hp. unfold prepare. destruct (fst _); [|exact Hp].
  pose proof (rewrite_plain (S l) l (h, []) Hp) as K. destruct (rewrite _ _ _ _). exact K.
Qed.

Lemma leaf_views_plain h : heap_ok h -> leaf_views h -> all_plain h.
Proof using.
  intros H Hu. unfold all_plain. rewrite Forall_forall. intros n Hn He. apply list_elem_of_lookup_1 in Hn as [l Hn].
  pose proof (heap_nodes h H l n Hn) as K. unfold node_ok in K. rewrite He in K. destruct K as (_ & Hc & _).
  destruct (n_kind n) eqn:Ek; auto; apply (Hu l n Hn); rewrite Ek; auto.
Qed.

(** The mask of a plain root cuts nothing that the root does not. *)
Lemma plain_mask h l c : fheap_ok h -> valid_ptr h l -> plain_node (get (h_nodes h) l) ->
  viewed (get (h_nodes h) l) = true ->
  snd (indexViews (t_views (n_tracker (get (h_nodes h) l))) c) = false -> flat h l c = 0.
Proof using.
  intros Hf [Hl He] Hp Hv Hm. destruct (lookup_lt_is_Some_2 _ _ Hl) as [n Hn]. pose proof (get_lookup _ _ _ Hn) as Eg.
  rewrite Eg in *. rewrite (flat_unfold h l n) by auto using fheap_acyclic. specialize (Hp He). unfold node_flat.
  destruct (n_kind n) eqn:Ek.
  - rewrite Hp, Hv, Hm. reflexivity.
  - rewrite Hp. destruct (indexViews _ c) as [o ok]. simpl in Hm. subst ok. reflexivity.
  - congruence.
  - congruence.
Qed.
End prepare.

(** ** Compiling *)

(** What [compile] gives for a node [l] of shape [shape]. *)
Record compiled {E : FloatEnv} (h : heap) (l : nat) (shape : Shape) (k : Kernel) (h' : heap) : Prop := {
  co_heap : fheap_ok h';
  co_ext : ext h h';
  co_flat : flattened h' (k_root k) (k_order k) (k_bufs k);
  co_root : valid_ptr h' (k_root k);
  co_built : k_built k = shape;
  co_shape : k_shape k = shape;
  co_size : k_size k = Size shape;
  co_type : k_outType k = n_dtype (get (h_nodes h) l);
  co_typ : n_dtype (get (h_nodes h') (k_root k)) = n_dtype (get (h_nodes h) l);
  co_value : forall c, in_bounds shape c -> keeps h l c ->
    weq (n_dtype (get (h_nodes h) l)) (flat h' (k_root k) c) (den h l c);
  co_plain : all_plain h -> all_plain h'
}.

Section compiling.
Context {E : FloatEnv}.

Lemma compile_ok h l shape : heap_ok h -> valid_ptr h l -> nShape (h_nodes h) l = Some shape -> rewritable h l ->
  exists k h', gives (fun fuel => compile fuel (Some l) h) (Ok k, h') /\ compiled h l shape k h'.
Proof using.
  intros H Hl Hsh Hr. pose proof (nShape_nonneg h l shape H (proj1 Hl) Hsh) as Hnn.
  pose proof (Size_nonneg shape Hnn) as Hsz. pose proof (prepare_spec h l H Hl Hr) as K.
  pose proof (prepare_plain h l) as Kp. destruct (prepare l h) as [m h1] eqn:Ep. cbn [snd] in Kp.
  destruct K as (Hf1 & Hx1 & Hm & Tm & Hval).
  destruct (optimize_total h1 m Hf1 Hm) as (root & h2 & [F G] & (Hf2 & Hx2 & Pl2) & He).
  destruct (flatten_ok h2 root Hf2 (proj1 He)) as (order & bufs & Ef & Hfl).
  exists (mkKernel root order bufs shape shape (n_dtype (get (h_nodes h2) root)) (Size shape)), h2. split.
  - exists F. intros fuel Hfuel. unfold compile. rewrite (proj2 Hl), Hsh. destruct (Z.ltb_spec (Size shape) 0); [lia|].
    rewrite Ep, (G fuel Hfuel), Ef. reflexivity.
  - destruct (valid_ext h1 h2 m Hx2 Hm) as [Hm2 Em2]. destruct He as (Hroot & Troot & Hw).
    assert (Ety : n_dtype (get (h_nodes h2) root) = n_dtype (get (h_nodes h) l)).
    { unfold typ in *. rewrite Troot, Em2. exact Tm. }
    split; cbn [k_root k_order k_bufs k_built k_shape k_outType k_size]; auto.
    + etransitivity; eauto.
    + intros c Hc Hk. assert (Tmm : typ h2 m = n_dtype (get (h_nodes h) l)) by (unfold typ in *; rewrite Em2; exact Tm).
      rewrite <- Tmm. etransitivity; [apply Hw|]. destruct Hm as [Hmlt Hme].
      rewrite (flat_ext h1 h2) by auto using fheap_acyclic.
      rewrite Hval; [reflexivity| |exact Hk]. rewrite Hsh. exact Hc.
Qed.

(** ** Running a compiled kernel *)

(** What the kernel keeps of its root. *)
Definition root_mask (h' : heap) (k : Kernel) (c : list Z) : bool :=
  let root := get (h_nodes h') (k_root k) in
  if viewed root then snd (indexViews (t_views (n_tracker root)) c) else true.

(** The mask of the compiled root agrees with the view of [l]. *)
Definition mask_agrees (h : heap) (l : nat) (shape : Shape) (k : Kernel) (h' : heap) : Prop :=
  forall c, in_bounds shape c -> if root_mask h' k c then keeps h l c else den h l c = 0.

(** The cells cut off by the view of an operation are 0. *)
Lemma den_cut h l c : heap_ok h -> valid_ptr h l -> ~ keeps h l c -> den h l c = 0.
Proof using.
  intros H [Hl He] Hk. destruct (lookup_lt_is_Some_2 _ _ Hl) as [n Hn].
  rewrite (den_unfold h l n) by auto using heap_acyclic. unfold keeps in Hk. rewrite (get_lookup _ _ _ Hn) in Hk.
  unfold node_den. destruct (decide (n_kind n = kindOp)) as [Ek|Ek]; [|exfalso; apply Hk; contradiction]. rewrite Ek.
  destruct (viewed n) eqn:Ev; [|exfalso; apply Hk; congruence].
  destruct (t_locate (n_tracker n) c) eqn:El; [exfalso; apply Hk; congruence|].
  unfold viewed in Ev. destruct (t_views (n_tracker n)); [discriminate Ev|reflexivity].
Qed.

(** It does for a graph whose operations are unviewed. *)
Lemma leaf_views_mask h l shape k h' : heap_ok h -> leaf_views h -> valid_ptr h l -> nShape (h_nodes h) l = Some shape ->
  compiled h l shape k h' -> mask_agrees h l shape k h'.
Proof using.
  intros H Hu Hl Hsh Hc c Hb. assert (Hk : keeps h l c).
  { unfold keeps. intros Hk Hvl. destruct (lookup_lt_is_Some_2 _ _ (proj1 Hl)) as [n Hn].
    rewrite (get_lookup _ _ _ Hn) in *. rewrite (Hu l n Hn (or_introl Hk)) in Hvl. discriminate Hvl. }
  unfold root_mask. destruct (viewed (get (h_nodes h') (k_root k))) eqn:Hv; [|exact Hk].
  destruct (snd (indexViews _ c)) eqn:Em; [exact Hk|].
  pose proof (co_plain _ _ _ _ _ Hc (leaf_views_plain h H Hu)) as Hp.
  pose proof (plain_mask h' (k_root k) c (co_heap _ _ _ _ _ Hc) (co_root _ _ _ _ _ Hc) (plain_get h' _ Hp) Hv Em) as Hz.
  pose proof (co_value _ _ _ _ _ Hc c Hb Hk) as Hw. rewrite Hz in Hw. destruct Hw as [Hw|(_ & Hn & _)]; [auto|].
  discriminate Hn.
Qed.

(** So does a root that keeps the tracker of [l]. *)
Lemma same_tracker_mask h l shape k h' : heap_ok h -> valid_ptr h l -> n_kind (get (h_nodes h) l) = kindOp ->
  viewed (get (h_nodes h) l) = true -> n_tracker (get (h_nodes h') (k_root k)) = n_tracker (get (h_nodes h) l) ->
  viewed (get (h_nodes h') (k_root k)) = true -> mask_agrees h l shape k h'.
Proof using.
  intros H Hl Hk Hv Ht Hv' c _. unfold root_mask. rewrite Hv', Ht. destruct (snd (indexViews _ c)) eqn:Em.
  - intros _ _ Hn. apply indexViews_none in Hn. congruence.
  - apply (den_cut h l c H Hl). intros Hkp. apply (Hkp Hk Hv). rewrite <- indexViews_spec.
    destruct (indexViews _ c) as [o ok]. simpl in Em. subst ok. reflexivity.
Qed.

(** Each cell of the output is the value of the graph at the cell. *)
Lemma cell_word_den h l shape k h' prog i : heap_ok h -> valid_ptr h l -> nShape (h_nodes h) l = Some shape ->
  compiled h l shape k h' -> mask_agrees h l shape k h' ->
  0 <= i < Size shape ->
  weq (k_outType k) (cell_word h' (k_root k) (job_of (h_nodes h') prog k) i) (den h l (unravel shape i)).
Proof using.
  intros H Hl Hsh Hc Hmask Hi. pose proof (nShape_nonneg h l shape H (proj1 Hl) Hsh) as Hnn.
  assert (Hb : in_bounds shape (unravel shape i)).
  { apply unravel_in_bounds; [apply positive_of_nonempty; [exact Hnn|lia]|lia]. }
  rewrite (co_type _ _ _ _ _ Hc). unfold cell_word, job_of. cbn [j_shape j_maskRoot j_root].
  rewrite (co_shape _ _ _ _ _ Hc). specialize (Hmask _ Hb). unfold root_mask in Hmask.
  destruct (viewed (get (h_nodes h') (k_root k))); [destruct (snd (indexViews _ _))|];
    try (apply (co_value _ _ _ _ _ Hc); assumption).
  rewrite Hmask. reflexivity.
Qed.
End compiling.

Lemma stored_weq d a b : weq d a b -> weq d (stored d a) (stored d b).
Proof. intros [->|(-> & Ha & Hb)]; [reflexivity|right; auto]. Qed.

Section running.
Context {E : FloatEnv}.

Lemma cell_word_ok h root j i : fheap_ok h -> valid_ptr h root -> word_ok (cell_word h root j i).
Proof using.
  intros Hf Hr. unfold cell_word. destruct (j_maskRoot j); [destruct (snd _)|]; auto using zero_ok, flat_word.
Qed.

(** A kernel at its own shape, lowered and run, fills the output with the
    words of its cells and touches nothing after them. *)
Lemma run_cells h k prog gomaxprocs ready pool pools out :
  fheap_ok h -> flattened h (k_root k) (k_order k) (k_bufs k) -> k_built k = k_shape k -> nonneg (k_shape k) ->
  k_size k = Size (k_shape k) -> lowerCPU (h_nodes h) (k_order k) (k_bufs k) (k_built k) = Ok prog ->
  0 < ready -> k_size k * out_size (k_outType k) <= Z.of_nat (length out) ->
  let job := job_of (h_nodes h) prog k in
  (exists out', runCPU (h_bufs h) job gomaxprocs ready pool pools out out') /\
  forall out', runCPU (h_bufs h) job gomaxprocs ready pool pools out out' ->
    length out' = length out /\
    (forall i, 0 <= i < k_size k ->
      word (mkBuffer out' (k_outType k)) i = stored (k_outType k) (cell_word h (k_root k) job i)) /\
    (forall p, k_size k * out_size (k_outType k) <= Z.of_nat p -> out' !! p = out !! p).
Proof using.
  intros Hf Hfl Hb Hnn Hs Hprog Hready Hlen job. pose proof (Size_nonneg _ Hnn) as Hsz. rewrite Hb in Hprog.
  assert (Hhi : 0 <= j_hi job <= Size (j_shape job)) by (change (0 <= k_size k <= Size (k_shape k)); lia).
  split.
  - eapply (runCPU_returns h _ _ _ prog job Hf Hfl Hprog eq_refl eq_refl Hnn eq_refl Hhi gomaxprocs ready pool pools out Hready Hlen).
  - intros out' Hrun.
    pose proof (runCPU_writes h _ _ _ prog job Hf Hfl Hprog eq_refl eq_refl Hnn eq_refl Hhi gomaxprocs ready pool pools out Hready Hlen out' Hrun) as [Hl' Hw].
    change (j_outType job) with (k_outType k) in Hw. change (j_hi job) with (k_size k) in Hw.
    assert (Hpos : 0 < out_size (k_outType k)) by (destruct (k_outType k); simpl; lia).
    split; [exact Hl'|]. split.
    + intros i Hi. apply word_stored; [lia|rewrite Hl'; nia|apply cell_word_ok; [exact Hf|]|].
      * apply (fo_valid _ _ _ _ Hfl), last_Some_elem_of, (fo_last _ _ _ _ Hfl).
      * intros p Hp. assert (Ep : Z.of_nat p / out_size (k_outType k) = i) by (rewrite (in_cell_div job) in Hp; cbn in Hp; lia).
        rewrite Hw. cbv zeta. rewrite Ep. destruct (Z.leb_spec 0 i), (Z.ltb_spec i (k_size k)); try lia. reflexivity.
    + intros p Hp. rewrite Hw. cbv zeta.
      assert (k_size k <= Z.of_nat p / out_size (k_outType k)) by (apply Z.div_le_lower_bound; lia).
      destruct (Z.ltb_spec (Z.of_nat p / out_size (k_outType k)) (k_size k)); [lia|]. rewrite andb_false_r. reflexivity.
Qed.

(** A kernel compiled from a graph fills the output with the values of the
    graph. *)
Lemma run_compiled h l shape k h' prog gomaxprocs ready pool pools out :
  heap_ok h -> valid_ptr h l -> nShape (h_nodes h) l = Some shape ->
  compiled h l shape k h' -> mask_agrees h l shape k h' ->
  lowerCPU (h_nodes h') (k_order k) (k_bufs k) (k_built k) = Ok prog ->
  0 < ready -> Size shape * out_size (k_outType k) <= Z.of_nat (length out) ->
  let job := job_of (h_nodes h') prog k in
  (exists out', runCPU (h_bufs h') job gomaxprocs ready pool pools out out') /\
  forall out', runCPU (h_bufs h') job gomaxprocs ready pool pools out out' ->
    length out' = length out /\
    (forall i, 0 <= i < Size shape ->
      weq (k_outType k) (word (mkBuffer out' (k_outType k)) i) (stored (k_outType k) (den h l (unravel shape i)))) /\
    (forall p, Size shape * out_size (k_outType k) <= Z.of_nat p -> out' !! p = out !! p).
Proof using.
  intros H Hl Hsh Hc Hmask Hprog Hready Hlen job. pose proof (nShape_nonneg h l shape H (proj1 Hl) Hsh) as Hnn.
  pose proof (co_shape _ _ _ _ _ Hc) as Es. pose proof (co_size _ _ _ _ _ Hc) as Ez.
  rewrite <- Ez in Hlen |- *. rewrite <- Es in Hnn.
  destruct (run_cells h' k prog gomaxprocs ready pool pools out (co_heap _ _ _ _ _ Hc) (co_flat _ _ _ _ _ Hc)
    (eq_trans (co_built _ _ _ _ _ Hc) (eq_sym Es)) Hnn ltac:(rewrite Es; exact Ez) Hprog Hready Hlen) as [K1 K2].
  split; [exact K1|]. intros out' Hrun. destruct (K2 out' Hrun) as (L & W & R). split; [exact L|]. split; [|exact R].
  intros i Hi. rewrite W by exact Hi. apply stored_weq. eapply cell_word_den; eauto. lia.
Qed.
End running.

(** ** The methods *)

Lemma Resize_spec k shape :
  match Resize (Some k) shape with
  | Ok k' =>
      length shape = length (k_shape k) /\ k_shape k' = shape /\
      (k_shape k = shape \/ nonneg shape /\ k_size k' = Size shape) /\
      k_root k' = k_root k /\ k_order k' = k_order k /\ k_bufs k' = k_bufs k /\ k_built k' = k_built k
  | Err e => e = ErrShape /\ (length shape <> length (k_shape k) \/ ~ nonneg shape)
  end.
Proof.
  cbn [Resize]. unfold Rank. destruct (Z.eqb_spec (Z.of_nat (length shape)) (Z.of_nat (length (k_shape k)))) as [Hr|Hr]; cbn [negb].
  2: { split; [reflexivity|left; lia]. }
  unfold Equal. case_bool_decide as Es; [repeat split; auto; lia|].
  destruct (check shape) as [[]|e] eqn:Ec; cbn [res_bind].
  - apply check_ok in Ec. cbn. repeat split; auto; lia.
  - unfold check in Ec. destruct (existsb _ shape) eqn:Ex; [|discriminate Ec]. injection Ec as <-.
    split; [reflexivity|right]. intros Hn. apply check_ok in Hn. unfold check in Hn. rewrite Ex in Hn. discriminate Hn.
Qed.

(** The workgroups cover the cells, with less than a group to spare. *)
Lemma Groups_cover k : 0 <= k_size k -> k_size k < two32 ->
  k_size k <= Groups (Some k) * localSize < k_size k + localSize.
Proof.
  unfold Groups, localSize, two32. intros H0 H1. destruct (Z.eqb_spec (k_size k) 0) as [->|Hne]; [lia|].
  rewrite Z.quot_div_nonneg by lia. unfold u32, two32. rewrite Z.mod_small.
  - pose proof (Z.div_mod (k_size k + 128 - 1) 128 ltac:(lia)). pose proof (Z.mod_pos_bound (k_size k + 128 - 1) 128 ltac:(lia)). lia.
  - split; [apply Z.div_pos; lia|]. apply Z.div_lt_upper_bound; lia.
Qed.

Lemma le_bytes_concat ws : length (concat (map le_bytes ws)) = (4 * length ws)%nat.
Proof. induction ws as [|w ws IH]; [reflexivity|]. simpl in *. rewrite IH. lia. Qed.

Lemma push_words_length k : (1 <= length (push_words k) <= 5)%nat.
Proof. unfold push_words. simpl. rewrite length_map, length_take. lia. Qed.

(** Word [i] of little-endian words. *)
Lemma word_le_bytes ws rest i w : Forall word_ok ws -> ws !! i = Some w ->
  word (mkBuffer (concat (map le_bytes ws) ++ rest) I32) (Z.of_nat i) = w.
Proof.
  intros Hw Hi. assert (Hwi : word_ok w) by (eapply Forall_lookup_1 in Hi; eauto).
  assert (Hlt : (i < length ws)%nat) by (eapply lookup_lt_Some, Hi).
  assert (Hb : forall r, (r < 4)%nat -> (concat (map le_bytes ws) ++ rest) !! (i * 4 + r)%nat = Some (byte_of w (Z.of_nat r))).
  { intros r Hr. rewrite lookup_app_l by (rewrite le_bytes_concat; lia). clear Hw Hwi Hlt.
    revert i Hi. induction ws as [|x ws IH]; intros i Hi; [discriminate Hi|]. destruct i as [|i]; simpl in Hi.
    - injection Hi as ->. destruct r as [|[|[|[|r]]]]; [reflexivity..|lia].
    - change (concat (map le_bytes (x :: ws))) with (le_bytes x ++ concat (map le_bytes ws)).
      rewrite lookup_app_r by (simpl; lia). rewrite <- (IH i Hi). f_equal. simpl. lia. }
  change w with (stored I32 w). apply (word_stored I32); [lia| |exact Hwi|].
  - rewrite length_app, le_bytes_concat. simpl. lia.
  - intros p Hp. unfold in_cell in Hp. simpl out_size in *. apply andb_true_iff in Hp as [Hp1 Hp2].
    apply Z.leb_le in Hp1. apply Z.ltb_lt in Hp2.
    replace p with (i * 4 + (p - i * 4))%nat by lia. rewrite Hb by lia. do 2 f_equal. lia.
Qed.

(** The push block: its size, n, the first four dimensions, and what follows
    it in a longer slice. *)
Lemma FillPush_spec k push : PushBytes <= Z.of_nat (length push) ->
  length (FillPush (Some k) push) = length push /\
  word (mkBuffer (FillPush (Some k) push) I32) 0 = u32 (k_size k) /\
  (forall i s, (i < 4)%nat -> k_shape k !! i = Some s ->
    word (mkBuffer (FillPush (Some k) push) I32) (Z.of_nat (S i)) = u32 s) /\
  drop 20 (FillPush (Some k) push) = drop 20 push.
Proof.
  unfold PushBytes. intros Hlen. unfold FillPush. destruct (Z.ltb_spec (Z.of_nat (length push)) PushBytes); [unfold PushBytes in *; lia|].
  change (Z.to_nat PushBytes) with 20%nat. cbv zeta.
  pose proof (push_words_length k) as Hp. pose proof (le_bytes_concat (push_words k)) as Hb.
  assert (Hok : Forall word_ok (push_words k)).
  { unfold push_words. constructor; [apply u32_ok|]. apply Forall_map, Forall_true. intros s. apply u32_ok. }
  split; [|split; [|split]].
  - rewrite !length_app, repeat_length, length_drop, Hb. lia.
  - apply (word_le_bytes _ _ 0); [exact Hok|reflexivity].
  - intros i s Hi Hs. apply (word_le_bytes _ _ (S i)); [exact Hok|]. unfold push_words.
    change ((u32 <$> take 4 (k_shape k)) !! i = Some (u32 s)).
    rewrite list_lookup_fmap, lookup_take_lt by exact Hi. rewrite Hs. reflexivity.
  - rewrite app_assoc, drop_app_ge by (rewrite length_app, repeat_length, Hb; lia).
    rewrite length_app, repeat_length, Hb. replace (20 - _)%nat with 0%nat by lia. reflexivity.
Qed.
