(* ===== verification/Code.v ===== *)
(** * Schedules for the GPU backends (src/x/ndarray/code.go)

    [Code] turns a kernel into a list of statements over named scalars, which
    a GPU backend prints as one shader.  The file models the statement and
    expression language and the writer that emits it, name by name: a thread
    unravels its cell number with the dimensions of the push block, every leaf
    computes an offset and a validity flag, and the root is stored.  What the
    statements mean is in Shader.v. *)
From Stdlib Require Import ZArith Lia DecimalString DecimalZ.
From stdpp Require Import base numbers option list strings.
From S2P Require Import Prelude Float Alu Shape View Tracker Expr Rewrite Optimize Flatten Cpu Kernel.

Local Open Scope Z_scope.

(** ** The schedule *)

Inductive Rel : Type := RelLT | RelLE | RelGT | RelGE | RelEQ | RelNE.
Inductive Fn : Type := FnExp2 | FnLog2 | FnSin | FnSqrt | FnMax | FnClamp.

#[export] Instance Rel_eq_dec : EqDecision Rel.
Proof. solve_decision. Defined.
#[export] Instance Fn_eq_dec : EqDecision Fn.
Proof. solve_decision. Defined.

(** One constructor per [ExprOp], with the fields that the operation uses. *)
Inductive Expr : Type :=
| ExprRef (Name : string)
| ExprInt (Int : Z)
| ExprUint (Int : Z)
| ExprTrue
| ExprConst (dtype : DType) (Bits : Z)
| ExprLoad (Name : string) (idx : Expr)
| ExprNeg (a : Expr)
| ExprAdd (a b : Expr)
| ExprMul (a b : Expr)
| ExprDiv (a b : Expr)
| ExprMod (a b : Expr)
| ExprBitAnd (a b : Expr)
| ExprBitOr (a b : Expr)
| ExprBitXor (a b : Expr)
| ExprShl (a b : Expr)
| ExprShr (a b : Expr)
| ExprRel (r : Rel) (a b : Expr)
| ExprAnd (a b : Expr)
| ExprSel (c a b : Expr)
| ExprCast (dtype : DType) (a : Expr)
| ExprFn (f : Fn) (Args : list Expr).

(** One constructor per [StmtOp]; a declaration is of a predicate when [Bool]. *)
Inductive Stmt : Type :=
| StmtDecl (dtype : DType) (Bool : bool) (Name : string) (RHS : Expr)
| StmtSet (Name : string) (RHS : Expr)
| StmtIfSet (Cond : Expr) (Name : string) (RHS : Expr)
| StmtAdd (Name : string) (RHS : Expr)
| StmtStore (RHS : Expr)
| StmtReturn (Cond : Expr).

Record Code : Type := mkCode { c_Threads : Z; c_Out : DType; c_In : list DType; c_Stmts : list Stmt }.

(** ** Small constructors *)

(** [strconv.Itoa], and [strconv.Atoi] on the decimal text of an int64. *)
Definition Itoa (z : Z) : string := NilZero.string_of_int (Z.to_int z).
Definition Atoi (s : string) : option Z :=
  match option_map Z.of_int (NilZero.int_of_string s) with
  | Some z => if (-9223372036854775808 <=? z) && (z <=? 9223372036854775807) then Some z else None
  | None => None
  end.

Definition ref (name : string) : Expr := ExprRef name.
Definition iconst (v : Z) : Expr := ExprInt v.
Definition uintc (v : Z) : Expr := ExprUint v.
Definition decl (d : DType) (name : string) (rhs : Expr) : Stmt := StmtDecl d false name rhs.
Definition declBool (name : string) (rhs : Expr) : Stmt := StmtDecl DNone true name rhs.

(** [s[0] == '-' || (s[0] >= '0' && s[0] <= '9')] *)
Definition numeral_start (a : Ascii.ascii) : bool :=
  let n := Ascii.nat_of_ascii a in (n =? 45)%nat || ((48 <=? n)%nat && (n <=? 57)%nat).

Definition refOrInt (s : string) : Expr :=
  match s with
  | EmptyString => iconst 0
  | String a _ =>
      if numeral_start a then match Atoi s with Some n => iconst n | None => ref s end else ref s
  end.

Definition asBool (s : string) : Expr := if bool_decide (s = "true"%string) then ExprTrue else ref s.

Definition fconst (bits : Z) : Expr := ExprConst F32 bits.
Definition neg (a : Expr) : Expr := ExprNeg a.
Definition add (a b : Expr) : Expr := ExprAdd a b.
Definition mul (a b : Expr) : Expr := ExprMul a b.
Definition div (a b : Expr) : Expr := ExprDiv a b.
Definition mod_ (a b : Expr) : Expr := ExprMod a b.
Definition band (a b : Expr) : Expr := ExprBitAnd a b.
Definition bor (a b : Expr) : Expr := ExprBitOr a b.
Definition bxor (a b : Expr) : Expr := ExprBitXor a b.
Definition shl (a b : Expr) : Expr := ExprShl a b.
Definition shr (a b : Expr) : Expr := ExprShr a b.
Definition rel (r : Rel) (a b : Expr) : Expr := ExprRel r a b.
Definition land (a b : Expr) : Expr := ExprAnd a b.
Definition sel (c a b : Expr) : Expr := ExprSel c a b.
Definition cast (d : DType) (a : Expr) : Expr := ExprCast d a.
Definition callFn (f : Fn) (args : list Expr) : Expr := ExprFn f args.
Definition load_at (name : string) (index : Expr) : Expr := ExprLoad name index.
Definition zeroExpr (d : DType) : Expr := ExprConst d 0.
Definition constExpr (n : node) : Expr := ExprConst (n_dtype n) (n_bits n).

Definition arithGuard (a b : Expr) (op : Expr -> Expr -> Expr) : Expr :=
  let bz := rel RelEQ b (iconst 0) in
  sel bz (iconst 0) (op a (sel bz (iconst 1) b)).
Definition divGuard (a b : Expr) : Expr := arithGuard a b div.
Definition modGuard (a b : Expr) : Expr := arithGuard a b mod_.

Definition shiftGuard (a b : Expr) (arith : bool) : Expr :=
  let ge := rel RelGE (cast U8 b) (uintc 32) in
  let shamt := cast I32 (band (cast U8 b) (uintc 31)) in
  let op := if arith then shr a shamt else shl a shamt in
  if arith then sel ge (sel (rel RelLT a (iconst 0)) (iconst (-1)) (iconst 0)) op
  else sel ge (iconst 0) op.

(** 1.0 and 255.0 *)
Definition bits_255 : Z := 1132396544.

Definition exprALU (ns : list node) (n : node) (args : list string) : Expr :=
  let a i := ref (nth i args ""%string) in
  match n_op n with
  | EXP2 => callFn FnExp2 [a 0%nat]
  | LOG2 => callFn FnLog2 [a 0%nat]
  | SIN => callFn FnSin [a 0%nat]
  | SQRT => callFn FnSqrt [a 0%nat]
  | RECIP => div (fconst float_one) (a 0%nat)
  | NEG => neg (a 0%nat)
  | CAST =>
      let from := match n_sources n with [] => F32 | s :: _ => n_dtype (get ns s) end in
      match n_dtype n with
      | U8 =>
          if bool_decide (from = F32) then cast U8 (callFn FnClamp [a 0%nat; fconst 0; fconst bits_255])
          else cast U8 (callFn FnClamp [a 0%nat; iconst 0; iconst 255])
      | d => cast d (a 0%nat)
      end
  | ADD => add (a 0%nat) (a 1%nat)
  | MUL => mul (a 0%nat) (a 1%nat)
  | IDIV => divGuard (a 0%nat) (a 1%nat)
  | MAX => callFn FnMax [a 0%nat; a 1%nat]
  | MOD => modGuard (a 0%nat) (a 1%nat)
  | CMPLT => cast I32 (rel RelLT (a 0%nat) (a 1%nat))
  | CMPNE => cast I32 (rel RelNE (a 0%nat) (a 1%nat))
  | XOR => bxor (a 0%nat) (a 1%nat)
  | SHL => shiftGuard (a 0%nat) (a 1%nat) false
  | SHR => shiftGuard (a 0%nat) (a 1%nat) true
  | OR => bor (a 0%nat) (a 1%nat)
  | AND => band (a 0%nat) (a 1%nat)
  | WHERE => sel (rel RelNE (a 0%nat) (iconst 0)) (a 1%nat) (a 2%nat)
  | MultiplyAccumulate => add (mul (a 0%nat) (a 1%nat)) (a 2%nat)
  | ONone => iconst 0
  end.

(** ** The writer *)

Record codeWriter : Type := mkWriter {
  w_next : Z;
  w_coords : list string;
  w_outShape : Shape;
  w_bufBind : list (nat * nat);
  w_names : list (nat * string);
  w_root : nat;
  w_order : list nat;
  w_bufs : list nat;
  w_body : list Stmt
}.

Definition set_next (k : Z) (w : codeWriter) : codeWriter :=
  mkWriter k (w_coords w) (w_outShape w) (w_bufBind w) (w_names w) (w_root w) (w_order w) (w_bufs w) (w_body w).
Definition set_coords (cs : list string) (w : codeWriter) : codeWriter :=
  mkWriter (w_next w) cs (w_outShape w) (w_bufBind w) (w_names w) (w_root w) (w_order w) (w_bufs w) (w_body w).
Definition set_bufBind (m : list (nat * nat)) (w : codeWriter) : codeWriter :=
  mkWriter (w_next w) (w_coords w) (w_outShape w) m (w_names w) (w_root w) (w_order w) (w_bufs w) (w_body w).
Definition set_names (m : list (nat * string)) (w : codeWriter) : codeWriter :=
  mkWriter (w_next w) (w_coords w) (w_outShape w) (w_bufBind w) m (w_root w) (w_order w) (w_bufs w) (w_body w).
Definition set_body (b : list Stmt) (w : codeWriter) : codeWriter :=
  mkWriter (w_next w) (w_coords w) (w_outShape w) (w_bufBind w) (w_names w) (w_root w) (w_order w) (w_bufs w) b.

(** A method of the writer: a result or an error, and the writer after it. *)
Definition CW (A : Type) : Type := codeWriter -> res A * codeWriter.
Definition cw_ret {A} (a : A) : CW A := fun w => (Ok a, w).
Definition cw_fail {A} (e : err) : CW A := fun w => (Err e, w).
Definition cw_bind {A B} (m : CW A) (k : A -> CW B) : CW B := fun w =>
  match m w with
  | (Ok a, w') => k a w'
  | (Err e, w') => (Err e, w')
  end.
Definition cw_get {A} (f : codeWriter -> A) : CW A := fun w => (Ok (f w), w).
Definition cw_set (f : codeWriter -> codeWriter) : CW unit := fun w => (Ok tt, f w).

Notation "'let*' x ':=' m 'in' k" := (cw_bind m (fun x => k))
  (at level 10, x pattern, m at level 100, k at level 200, format "'let*'  x  ':='  m  'in' '//' k") : lewkit_scope.

Definition emit (s : Stmt) : CW unit := cw_set (fun w => set_body (w_body w ++ [s]) w).

Definition name (prefix : string) : CW string :=
  let* _ := cw_set (fun w => set_next (w_next w + 1) w) in
  let* k := cw_get w_next in
  cw_ret (prefix +:+ Itoa k).

(** *** Coordinates of a cell number *)

(** [d] counts the axes that are left, from the last. *)
Fixpoint unravelPush_loop (d : nat) (rem : string) (coords : list string) : CW (list string) :=
  match d with
  | O => cw_ret coords
  | S d' =>
      let dim := ref ("d" +:+ Itoa (Z.of_nat d')) in
      let* c := name "c" in
      let cond := rel RelLE dim (uintc 1) in
      let* _ := emit (decl I32 c (sel cond (iconst 0) (mod_ (ref rem) (cast I32 dim)))) in
      match d' with
      | O => cw_ret (c :: coords)
      | _ =>
          let* nxt := name "u" in
          let* _ := emit (decl I32 nxt (sel cond (ref rem) (div (ref rem) (cast I32 dim)))) in
          unravelPush_loop d' nxt (c :: coords)
      end
  end.
Definition unravelPush (rank : nat) : CW (list string) := unravelPush_loop rank "i" [].

(** [rshape] is the shape from the last axis to the first. *)
Fixpoint unravel_loop (rshape : list Z) (rem : string) (coords : list string) : CW (list string) :=
  match rshape with
  | [] => cw_ret coords
  | s :: rshape' =>
      if s <=? 1 then unravel_loop rshape' rem ("0"%string :: coords) else
      let* c := name "c" in
      let* _ := emit (decl I32 c (mod_ (ref rem) (iconst s))) in
      match rshape' with
      | [] => cw_ret (c :: coords)
      | _ =>
          let* nxt := name "u" in
          let* _ := emit (decl I32 nxt (div (ref rem) (iconst s))) in
          unravel_loop rshape' nxt (c :: coords)
      end
  end.
Definition unravel_code (shape : Shape) (idx : string) : CW (list string) := unravel_loop (rev shape) idx [].

(** *** Offsets *)

Fixpoint view_offset (off : string) (coords : list string) (strides : list Z) : CW unit :=
  match coords, strides with
  | c :: coords', st :: strides' =>
      let* _ := if st =? 0 then cw_ret tt else emit (StmtAdd off (mul (refOrInt c) (iconst st))) in
      view_offset off coords' strides'
  | _, _ => cw_ret tt
  end.

Fixpoint view_mask (valid : string) (coords : list string) (mask : list (Z * Z)) : CW unit :=
  match coords, mask with
  | c :: coords', (lo, hi) :: mask' =>
      let rhs := land (ref valid) (rel RelGE (refOrInt c) (iconst lo)) in
      let rhs := land rhs (rel RelLT (refOrInt c) (iconst hi)) in
      let* _ := emit (StmtSet valid rhs) in
      view_mask valid coords' mask'
  | _, _ => cw_ret tt
  end.

Definition view_code (v : view) (coords : list string) : CW (string * string) :=
  let* off := name "p" in
  let* _ := emit (decl I32 off (iconst (v_offset v))) in
  match v_shape v with
  | [] => cw_ret (off, "true"%string)
  | _ =>
      let* _ := view_offset off coords (v_strides v) in
      match v_mask v with
      | None => cw_ret (off, "true"%string)
      | Some mask =>
          let* valid := name "m" in
          let* _ := emit (declBool valid ExprTrue) in
          let* _ := view_mask valid coords mask in
          cw_ret (off, valid)
      end
  end.

Definition both_code (valid v : string) : CW string :=
  let* both := name "ok" in
  let* _ := emit (declBool both (land (asBool valid) (asBool v))) in
  cw_ret both.

(** The views under the top one, from the top down. *)
Fixpoint views_code (below : list view) (off valid : string) : CW (string * string) :=
  match below with
  | [] => cw_ret (off, valid)
  | v :: below' =>
      let* mid := unravel_code (v_shape v) off in
      let* (off2, val2) := view_code v mid in
      let* both := both_code valid val2 in
      views_code below' off2 both
  end.

Definition indexAt (tracker : Tracker) (coords : list string) : CW (string * string) :=
  match rev (t_views tracker) with
  | [] => cw_ret ("0"%string, "true"%string)
  | top :: below =>
      let* own := cw_get w_coords in
      let* out := cw_get w_outShape in
      if Contiguous tracker && Equal (opt_list (t_Shape tracker)) out && bool_decide (coords = own)
      then cw_ret ("i"%string, "true"%string) else
      let* (off, valid) := view_code top coords in
      views_code below off valid
  end.

Definition index_code (tracker : Tracker) : CW (string * string) :=
  let* own := cw_get w_coords in indexAt tracker own.

Fixpoint indexChain_loop (chain : list stStep) (coords : list string) (valid : string) : CW (string * string) :=
  match chain with
  | [] => cw_ret ("0"%string, valid)
  | s :: chain' =>
      let* (o, v) := indexAt (st_tr s) coords in
      let* both := both_code valid v in
      match chain', opt_list (st_origin s) with
      | [], _ | _, [] => cw_ret (o, both)
      | _, origin => let* coords := unravel_code origin o in indexChain_loop chain' coords both
      end
  end.
Definition indexChain (chain : list stStep) : CW (string * string) :=
  let* own := cw_get w_coords in indexChain_loop chain own "true".

Fixpoint chainCoords_code_loop (chain : list stStep) (coords : list string) (valid : string)
    : CW (list string * string) :=
  match chain with
  | [] => cw_ret (coords, valid)
  | s :: chain' =>
      let* (o, v) := indexAt (st_tr s) coords in
      let* both := both_code valid v in
      match opt_list (st_origin s) with
      | [] => cw_ret (coords, both)
      | origin => let* coords := unravel_code origin o in chainCoords_code_loop chain' coords both
      end
  end.
Definition chainCoords_code (chain : list stStep) : CW (list string * string) :=
  let* own := cw_get w_coords in chainCoords_code_loop chain own "true".

(** *** Nodes *)

Section schedule.
Context (ns : list node) (hb : list buffer).

Definition names_get (m : list (nat * string)) (l : nat) : string := default ""%string (assoc_get m l).

(** [n.buf.cells()], 0 for a nil buffer *)
Definition node_cells (n : node) : Z :=
  match n_buf n ≫= (fun b => hb !! b) with None => 0 | Some b => cells b end.

Definition const_code (id : string) (n : node) : CW string :=
  let* valid :=
    match n_chain n with
    | _ :: _ => let* (_, valid) := indexChain (n_chain n) in cw_ret valid
    | [] => if viewed n then let* (_, valid) := index_code (n_tracker n) in cw_ret valid
            else cw_ret "true"%string
    end in
  if negb (bool_decide (valid = "true"%string)) then
    let* _ := emit (decl (n_dtype n) id (zeroExpr (n_dtype n))) in
    let* _ := emit (StmtIfSet (ref valid) id (constExpr n)) in
    cw_ret id
  else
    let* _ := emit (decl (n_dtype n) id (constExpr n)) in
    cw_ret id.

Definition coord_code (id : string) (n : node) : CW string :=
  let* own := cw_get w_coords in
  let* (coords, valid) :=
    match n_chain n with [] => cw_ret (own, "true"%string) | chain => chainCoords_code chain end in
  if (n_slot n <? 0) || (Z.of_nat (length coords) <=? n_slot n) then cw_fail ErrAxis else
  let c := refOrInt (nth (Z.to_nat (n_slot n)) coords ""%string) in
  if bool_decide (valid = "true"%string) then
    let* _ := emit (decl I32 id c) in
    cw_ret id
  else
    let* _ := emit (decl I32 id (iconst 0)) in
    let* _ := emit (StmtIfSet (ref valid) id c) in
    cw_ret id.

Definition input_code (id : string) (n : node) : CW string :=
  let* (off, valid) :=
    match n_chain n with
    | _ :: _ => indexChain (n_chain n)
    | [] =>
        if Rank (opt_list (t_Shape (n_tracker n))) =? 0 then
          match At (n_tracker n) 0 with
          | Ok (at_, true) => cw_ret (Itoa at_, "true"%string)
          | _ => cw_fail ErrIndex
          end
        else index_code (n_tracker n)
    end in
  let* _ := emit (decl (n_dtype n) id (zeroExpr (n_dtype n))) in
  let cond := land (asBool valid) (land (rel RelGE (refOrInt off) (iconst 0))
                                        (rel RelLT (refOrInt off) (iconst (node_cells n)))) in
  let* bind := cw_get w_bufBind in
  let k := match n_buf n with None => 0%nat | Some b => map_get bind b end in
  let* _ := emit (StmtIfSet cond id (load_at ("x" +:+ Itoa (Z.of_nat k)) (refOrInt off))) in
  cw_ret id.

Definition op_code (id : string) (n : node) : CW string :=
  let* names := cw_get w_names in
  let args := map (names_get names) (n_sources n) in
  let* _ := emit (decl (n_dtype n) id (exprALU ns n args)) in
  cw_ret id.

Definition node_code (n : node) : CW string :=
  let* id := name "t" in
  match n_kind n with
  | kindConst => const_code id n
  | kindCoord => coord_code id n
  | kindInput => input_code id n
  | kindOp => op_code id n
  end.

Fixpoint nodes_code (order : list nat) : CW unit :=
  match order with
  | [] => cw_ret tt
  | l :: order' =>
      let* id := node_code (get ns l) in
      let* _ := cw_set (fun w => set_names ((l, id) :: w_names w) w) in
      nodes_code order'
  end.

(** [for i, b := range w.bufs { w.bufBind[b] = i + 1 }] *)
Definition bind_bufs : CW unit := cw_set (fun w => set_bufBind (bufIndex_from (w_bufs w) 1 []) w).

Definition store_code : CW unit :=
  let* root := cw_get w_root in
  let* names := cw_get w_names in
  let out := names_get names root in
  let n := get ns root in
  if viewed n then
    let* own := cw_get w_coords in
    let* (_, valid) := indexAt (n_tracker n) own in
    emit (StmtStore (sel (asBool valid) (ref out) (zeroExpr (n_dtype n))))
  else emit (StmtStore (ref out)).

Definition schedule : CW unit :=
  let* _ := bind_bufs in
  let* _ := emit (StmtReturn (rel RelGE (ref "gi") (ref "n"))) in
  let* _ := emit (decl I32 "i" (cast I32 (ref "gi"))) in
  let* out := cw_get w_outShape in
  let* coords := unravelPush (length out) in
  let* _ := cw_set (set_coords coords) in
  let* order := cw_get w_order in
  let* _ := nodes_code order in
  store_code.

Definition maxPushRank : Z := 4.

Definition buf_type (b : nat) : DType := match hb !! b with None => F32 | Some b => buf_dtype b end.

(** [Kernel.Code] *)
Definition kernel_Code (k : option Kernel) : res Code :=
  match k with
  | None => Err ErrOp
  | Some k =>
      if maxPushRank <? Rank (k_built k) then Err ErrShape else
      match schedule (mkWriter 0 [] (k_built k) [] [] (k_root k) (k_order k) (k_bufs k) []) with
      | (Err e, _) => Err e
      | (Ok _, w) => Ok (mkCode localSize (n_dtype (get ns (k_root k))) (map buf_type (k_bufs k)) (w_body w))
      end
  end.
End schedule.

(** ** When scheduling succeeds *)

(** The fields that only [schedule] itself changes. *)
Definition rest (w : codeWriter) :=
  (w_coords w, w_outShape w, w_bufBind w, w_names w, w_root w, w_order w, w_bufs w).

(** [m] succeeds, appends to the body and changes nothing else but the
    counter. *)
Definition succeeds {A} (w : codeWriter) (m : CW A) (Q : A -> Prop) : Prop :=
  exists a w', m w = (Ok a, w') /\ (exists ss, w_body w' = w_body w ++ ss) /\ rest w' = rest w /\ Q a.

Section succeeding.

Lemma succeeds_ret {A} w (a : A) (Q : A -> Prop) : Q a -> succeeds w (cw_ret a) Q.
Proof. intros H. exists a, w. split; [reflexivity|]. split; [exists []; rewrite app_nil_r; reflexivity|auto]. Qed.

Lemma succeeds_emit w s (Q : unit -> Prop) : Q tt -> succeeds w (emit s) Q.
Proof. intros H. exists tt, (set_body (w_body w ++ [s]) w). split; [reflexivity|]. split; [exists [s]; reflexivity|auto]. Qed.

Lemma succeeds_name w p (Q : string -> Prop) : (forall n, Q n) -> succeeds w (name p) Q.
Proof.
  intros H. eexists _, (set_next (w_next w + 1) w). split; [reflexivity|]. split; [exists []; rewrite app_nil_r; reflexivity|].
  split; [reflexivity|apply H].
Qed.

Lemma succeeds_bind {A B} w (m : CW A) (f : A -> CW B) P Q : succeeds w m P ->
  (forall a w1, rest w1 = rest w -> P a -> succeeds w1 (f a) Q) -> succeeds w (cw_bind m f) Q.
Proof.
  intros (a & w1 & E1 & (s1 & B1) & R1 & HP) Hf. destruct (Hf a w1 R1 HP) as (b & w2 & E2 & (s2 & B2) & R2 & HQ).
  exists b, w2. unfold cw_bind. rewrite E1. split; [exact E2|]. split; [|split; [congruence|exact HQ]].
  exists (s1 ++ s2). rewrite B2, B1, app_assoc. reflexivity.
Qed.

Lemma succeeds_get {A B} w (g : codeWriter -> A) (f : A -> CW B) Q : succeeds w (f (g w)) Q -> succeeds w (cw_bind (cw_get g) f) Q.
Proof. exact (fun H => H). Qed.

Lemma succeeds_weaken {A} w (m : CW A) (P Q : A -> Prop) : (forall a, P a -> Q a) -> succeeds w m P -> succeeds w m Q.
Proof. intros H (a & w' & E & B & R & HP). exists a, w'. auto. Qed.

(** One statement that assigns to a new name. *)
Lemma succeeds_declare {A} w p s (f : string -> CW A) Q : (forall n w1, rest w1 = rest w -> succeeds w1 (f n) Q) ->
  succeeds w (let* n := name p in let* _ := emit (s n) in f n) Q.
Proof.
  intros H. eapply succeeds_bind; [apply (succeeds_name w p (fun _ => True)); auto|]. intros n w1 R1 _.
  eapply succeeds_bind; [apply (succeeds_emit w1 _ (fun _ => True)); auto|]. intros [] w2 R2 _. apply H. congruence.
Qed.

Lemma unravel_loop_succeeds rshape : forall rem coords w,
  succeeds w (unravel_loop rshape rem coords) (fun cs => length cs = (length rshape + length coords)%nat).
Proof.
  induction rshape as [|s rshape IH]; intros rem coords w; cbn [unravel_loop]; [apply succeeds_ret; reflexivity|].
  assert (Hnext : forall r c w1, succeeds w1 (unravel_loop rshape r (c :: coords)) (fun cs => length cs = (length (s :: rshape) + length coords)%nat)).
  { intros r c w1. eapply succeeds_weaken; [|apply IH]. simpl. intros cs ->. lia. }
  destruct (s <=? 1); [apply Hnext|]. apply succeeds_declare. intros c w1 _.
  destruct rshape; [apply succeeds_ret; reflexivity|]. apply succeeds_declare. intros u w2 _. apply Hnext.
Qed.

Lemma unravel_code_succeeds shape idx w : succeeds w (unravel_code shape idx) (fun cs => length cs = length shape).
Proof. eapply succeeds_weaken; [|apply unravel_loop_succeeds]. simpl. intros cs ->. rewrite length_rev. lia. Qed.

Lemma unravelPush_succeeds d : forall rem coords w,
  succeeds w (unravelPush_loop d rem coords) (fun cs => length cs = (d + length coords)%nat).
Proof.
  induction d as [|d IH]; intros rem coords w; cbn [unravelPush_loop]; [apply succeeds_ret; reflexivity|].
  apply succeeds_declare. intros c w1 _. destruct d as [|d]; [apply succeeds_ret; reflexivity|].
  apply succeeds_declare. intros u w2 _. eapply succeeds_weaken; [|apply IH]. simpl. intros cs ->. lia.
Qed.

Lemma view_offset_succeeds off coords : forall strides w, succeeds w (view_offset off coords strides) (fun _ => True).
Proof.
  induction coords as [|c coords IH]; intros strides w; cbn [view_offset]; [apply succeeds_ret, I|].
  destruct strides as [|st strides]; [apply succeeds_ret, I|].
  apply (succeeds_bind w _ _ (fun _ => True)); [|intros [] w1 _ _; apply IH]. destruct (st =? 0); [apply succeeds_ret|apply succeeds_emit]; exact I.
Qed.

Lemma view_mask_succeeds valid coords : forall mask w, succeeds w (view_mask valid coords mask) (fun _ => True).
Proof.
  induction coords as [|c coords IH]; intros mask w; cbn [view_mask]; [apply succeeds_ret, I|].
  destruct mask as [|[lo hi] mask]; [apply succeeds_ret, I|].
  apply (succeeds_bind w _ _ (fun _ => True)); [apply succeeds_emit|intros [] w1 _ _; apply IH]. exact I.
Qed.

Lemma view_code_succeeds v coords w : succeeds w (view_code v coords) (fun _ => True).
Proof.
  unfold view_code. apply succeeds_declare. intros off w1 _. destruct (v_shape v); [apply succeeds_ret, I|].
  eapply succeeds_bind; [apply view_offset_succeeds|]. intros [] w2 _ _. destruct (v_mask v); [|apply succeeds_ret, I].
  apply succeeds_declare. intros m w3 _. eapply succeeds_bind; [apply view_mask_succeeds|]. intros [] w4 _ _. apply succeeds_ret, I.
Qed.

Lemma both_code_succeeds a b w : succeeds w (both_code a b) (fun _ => True).
Proof. unfold both_code. apply succeeds_declare. intros n w1 _. apply succeeds_ret, I. Qed.

Lemma views_code_succeeds below : forall off valid w, succeeds w (views_code below off valid) (fun _ => True).
Proof.
  induction below as [|v below IH]; intros off valid w; cbn [views_code]; [apply succeeds_ret, I|].
  eapply succeeds_bind; [apply unravel_code_succeeds|]. intros mid w1 _ _.
  eapply succeeds_bind; [apply view_code_succeeds|]. intros [off2 val2] w2 _ _.
  eapply succeeds_bind; [apply both_code_succeeds|]. intros both w3 _ _. apply IH.
Qed.

Lemma indexAt_succeeds t coords w : succeeds w (indexAt t coords) (fun _ => True).
Proof.
  unfold indexAt. destruct (rev (t_views t)) as [|v below]; [apply succeeds_ret, I|]. apply succeeds_get, succeeds_get.
  destruct (_ && _ && _); [apply succeeds_ret, I|]. eapply succeeds_bind; [apply view_code_succeeds|].
  intros [off valid] w1 _ _. apply views_code_succeeds.
Qed.

Lemma indexChain_succeeds chain : forall coords valid w, succeeds w (indexChain_loop chain coords valid) (fun _ => True).
Proof.
  induction chain as [|s chain IH]; intros coords valid w; cbn [indexChain_loop]; [apply succeeds_ret, I|].
  eapply succeeds_bind; [apply indexAt_succeeds|]. intros [o v] w1 _ _.
  eapply succeeds_bind; [apply both_code_succeeds|]. intros both w2 _ _.
  destruct chain; [apply succeeds_ret, I|]. destruct (opt_list (st_origin s)); [apply succeeds_ret, I|].
  eapply succeeds_bind; [apply unravel_code_succeeds|]. intros cs w3 _ _. apply IH.
Qed.

(** The number of coordinates that a chain leaves. *)
Fixpoint chain_rank (chain : list stStep) (rank : nat) : nat :=
  match chain with
  | [] => rank
  | s :: chain' => match opt_list (st_origin s) with [] => rank | origin => chain_rank chain' (length origin) end
  end.

Lemma chainCoords_succeeds chain : forall coords valid w, succeeds w (chainCoords_code_loop chain coords valid)
  (fun r => length (fst r) = chain_rank chain (length coords)).
Proof.
  induction chain as [|s chain IH]; intros coords valid w; cbn [chainCoords_code_loop chain_rank]; [apply succeeds_ret; reflexivity|].
  eapply succeeds_bind; [apply indexAt_succeeds|]. intros [o v] w1 _ _.
  eapply succeeds_bind; [apply both_code_succeeds|]. intros both w2 _ _.
  destruct (opt_list (st_origin s)) as [|d origin]; [apply succeeds_ret; reflexivity|].
  eapply succeeds_bind; [apply unravel_code_succeeds|]. intros cs w3 _ Hcs. eapply succeeds_weaken; [|apply IH].
  intros r ->. rewrite Hcs. reflexivity.
Qed.

(** Two statements and a result. *)
Lemma succeeds_two w s1 s2 (id : string) : succeeds w (let* _ := emit s1 in let* _ := emit s2 in cw_ret id) (fun _ => True).
Proof.
  eapply succeeds_bind; [apply (succeeds_emit w _ (fun _ => True)); exact I|]. intros [] w1 _ _.
  eapply succeeds_bind; [apply (succeeds_emit w1 _ (fun _ => True)); exact I|]. intros [] w2 _ _. apply succeeds_ret, I.
Qed.
Lemma succeeds_one w s (id : string) : succeeds w (let* _ := emit s in cw_ret id) (fun _ => True).
Proof. eapply succeeds_bind; [apply (succeeds_emit w _ (fun _ => True)); exact I|]. intros [] w1 _ _. apply succeeds_ret, I. Qed.
End succeeding.

(** What [Code] asks of a node of a graph of the rank [rank]. *)
Definition codable (rank : nat) (n : node) : bool :=
  match n_kind n with
  | kindCoord => (0 <=? n_slot n) && (n_slot n <? Z.of_nat (chain_rank (n_chain n) rank))
  | kindInput =>
      match n_chain n with
      | [] =>
          negb (Rank (opt_list (t_Shape (n_tracker n))) =? 0) ||
          match At (n_tracker n) 0 with Ok (_, ok) => ok | Err _ => false end
      | _ => true
      end
  | _ => true
  end.
Definition code_error (n : node) : err := match n_kind n with kindCoord => ErrAxis | _ => ErrIndex end.

Section coding.
Context (ns : list node) (hb : list buffer).

Lemma const_succeeds id n w : succeeds w (const_code id n) (fun _ => True).
Proof.
  unfold const_code. apply (succeeds_bind w _ _ (fun _ => True)).
  - destruct (n_chain n) as [|s ch]; [destruct (viewed n); [|apply succeeds_ret, I]|].
    + unfold index_code. apply (succeeds_bind w _ _ (fun _ => True)); [apply succeeds_get, indexAt_succeeds|].
      intros [o v] w1 _ _. apply succeeds_ret, I.
    + unfold indexChain. apply (succeeds_bind w _ _ (fun _ => True)); [apply succeeds_get, indexChain_succeeds|].
      intros [o v] w1 _ _. apply succeeds_ret, I.
  - intros valid w1 _ _. destruct (negb _); [apply succeeds_two|apply succeeds_one].
Qed.

(** A method that fails exactly when [ok] is false, with the error [e]. *)
Definition decides {A} (w : codeWriter) (m : CW A) (ok : bool) (e : err) : Prop :=
  if ok then succeeds w m (fun _ => True) else fst (m w) = Err e.

Lemma coord_decides id n w : n_kind n = kindCoord -> decides w (coord_code id n) (codable (length (w_coords w)) n) ErrAxis.
Proof.
  intros Ek. unfold decides, codable. rewrite Ek.
  set (m := match n_chain n with [] => cw_ret (w_coords w, "true"%string) | chain => chainCoords_code chain end).
  assert (Hm : succeeds w m (fun r => length (fst r) = chain_rank (n_chain n) (length (w_coords w)))).
  { unfold m. destruct (n_chain n) as [|s ch]; [apply succeeds_ret; reflexivity|]. apply succeeds_get, chainCoords_succeeds. }
  set (r := chain_rank _ _) in *. destruct ((0 <=? n_slot n) && (n_slot n <? Z.of_nat r)) eqn:Eok.
  - unfold coord_code. apply succeeds_get. fold m. eapply succeeds_bind; [exact Hm|]. intros [cs valid] w1 _ Hl. cbn [fst] in Hl.
    rewrite Hl. destruct ((n_slot n <? 0) || _) eqn:Es; [lia|]. destruct (bool_decide _); [apply succeeds_one|apply succeeds_two].
  - destruct Hm as ([cs valid] & w1 & Em & _ & _ & Hl). unfold coord_code, cw_bind at 1, cw_get. fold m. unfold cw_bind at 1. rewrite Em.
    cbn [fst] in Hl. rewrite Hl. destruct ((n_slot n <? 0) || _) eqn:Es; [reflexivity|lia].
Qed.

Lemma input_decides id n w : n_kind n = kindInput -> decides w (input_code hb id n) (codable (length (w_coords w)) n) ErrIndex.
Proof.
  intros Ek. unfold decides, codable. rewrite Ek. unfold input_code.
  assert (Hrest : forall m : CW (string * string), succeeds w m (fun _ => True) -> forall d z cond x,
    succeeds w (let* (off, valid) := m in let* _ := emit (decl d id z) in
      let* bind := cw_get w_bufBind in let* _ := emit (StmtIfSet (cond off valid) id (x off bind)) in cw_ret id) (fun _ => True)).
  { intros m Hm d z cond x. eapply succeeds_bind; [exact Hm|]. intros [off valid] w1 _ _.
    apply (succeeds_bind w1 _ _ (fun _ => True)); [apply succeeds_emit, I|]. intros [] w2 _ _. apply succeeds_get, succeeds_one. }
  destruct (n_chain n) as [|s ch]; [|apply Hrest, succeeds_get, indexChain_succeeds].
  destruct (Rank _ =? 0); cbn [negb orb].
  - destruct (At (n_tracker n) 0) as [[off []]|err]; [apply Hrest, succeeds_ret, I|reflexivity|reflexivity].
  - apply Hrest, succeeds_get, indexAt_succeeds.
Qed.

Lemma node_decides n w : decides w (node_code ns hb n) (codable (length (w_coords w)) n) (code_error n).
Proof.
  assert (Hname : exists id w1, name "t" w = (Ok id, w1) /\ w_coords w1 = w_coords w /\ forall m : string -> CW string,
    succeeds w1 (m id) (fun _ => True) -> succeeds w (let* id := name "t" in m id) (fun _ => True)).
  { exists ("t" +:+ Itoa (w_next w + 1)), (set_next (w_next w + 1) w). split; [reflexivity|]. split; [reflexivity|].
    intros m (a & w' & E & B & R & _). exists a, w'. unfold cw_bind. split; [exact E|]. auto. }
  destruct Hname as (id & w1 & En & Ec & Hm).
  assert (Hdec : forall (m : string -> CW string) ok e, decides w1 (m id) ok e -> decides w (let* id := name "t" in m id) ok e).
  { intros m ok e. unfold decides. destruct ok; [apply Hm|]. unfold cw_bind. rewrite En. exact (fun H => H). }
  rewrite <- Ec. unfold node_code, code_error. pose proof (coord_decides id n w1) as K1. pose proof (input_decides id n w1) as K2.
  destruct (n_kind n) eqn:Ek.
  - unfold codable. rewrite Ek. apply Hdec, const_succeeds.
  - apply Hdec, K2. reflexivity.
  - apply Hdec, K1. reflexivity.
  - unfold codable. rewrite Ek. apply Hdec. unfold decides, op_code. apply succeeds_get, succeeds_one.
Qed.

(** The nodes before the first that is not codable succeed. *)
Lemma nodes_decide order : forall w,
  match nodes_code ns hb order w with
  | (Ok _, w') => Forall (fun l => codable (length (w_coords w)) (get ns l) = true) order /\
      (exists ss, w_body w' = w_body w ++ ss) /\ w_coords w' = w_coords w
  | (Err e, _) => exists pre l post, order = pre ++ l :: post /\
      Forall (fun l => codable (length (w_coords w)) (get ns l) = true) pre /\
      codable (length (w_coords w)) (get ns l) = false /\ e = code_error (get ns l)
  end.
Proof.
  induction order as [|l order IH]; intros w; cbn [nodes_code].
  { cbn. split; [constructor|]. split; [exists []; rewrite app_nil_r; reflexivity|reflexivity]. }
  pose proof (node_decides (get ns l) w) as D. unfold decides in D. unfold cw_bind at 1.
  destruct (codable (length (w_coords w)) (get ns l)) eqn:Ec.
  - destruct D as (id & w1 & E & (s1 & B1) & R & _). rewrite E. unfold cw_bind, cw_set. cbv beta iota.
    set (w2 := set_names _ w1). assert (Ew : w_coords w2 = w_coords w) by (injection R as R _ _ _ _ _ _; exact R).
    specialize (IH w2). rewrite Ew in IH. destruct (nodes_code ns hb order w2) as [[[]|e] w3].
    + destruct IH as (H1 & (s2 & B2) & H3). split; [constructor; assumption|]. split; [|exact H3].
      exists (s1 ++ s2). rewrite B2, app_assoc. cbn [w_body w2 set_names]. rewrite B1. reflexivity.
    + destruct IH as (pre & x & post & -> & H1 & H2 & H3). exists (l :: pre), x, post. split; [reflexivity|]. split; [constructor; assumption|auto].
  - destruct (node_code ns hb (get ns l) w) as [r w1]. cbn [fst] in D. subst r. exists [], l, order. auto.
Qed.

Lemma store_succeeds w : succeeds w (store_code ns) (fun _ => True).
Proof.
  unfold store_code. apply succeeds_get, succeeds_get. destruct (viewed _); [|apply succeeds_emit, I].
  apply succeeds_get. eapply succeeds_bind; [apply indexAt_succeeds|]. intros [o v] w1 _ _. apply succeeds_emit, I.
Qed.

(** [Code] of a kernel: the rank, then the first node that cannot be coded. *)
Lemma kernel_Code_decides k :
  match kernel_Code ns hb (Some k) with
  | Ok c =>
      Rank (k_built k) <= maxPushRank /\
      Forall (fun l => codable (length (k_built k)) (get ns l) = true) (k_order k) /\
      c_Threads c = localSize /\ c_Out c = n_dtype (get ns (k_root k)) /\ c_In c = map (buf_type hb) (k_bufs k) /\
      exists ss, c_Stmts c = StmtReturn (rel RelGE (ref "gi") (ref "n")) :: ss
  | Err e =>
      maxPushRank < Rank (k_built k) /\ e = ErrShape \/
      Rank (k_built k) <= maxPushRank /\ exists pre l post, k_order k = pre ++ l :: post /\
        Forall (fun l => codable (length (k_built k)) (get ns l) = true) pre /\
        codable (length (k_built k)) (get ns l) = false /\ e = code_error (get ns l)
  end.
Proof.
  cbn [kernel_Code]. destruct (Z.ltb_spec maxPushRank (Rank (k_built k))) as [Hr|Hr]; [left; auto|].
  set (w0 := mkWriter _ _ _ _ _ _ _ _ _). unfold schedule, bind_bufs, emit.
  unfold cw_bind at 1, cw_set. unfold cw_bind at 1, cw_set. unfold cw_bind at 1, cw_set.
  unfold cw_bind at 1, cw_get at 1. unfold cw_bind at 1. cbn [w_outShape w0 set_body set_bufBind].
  set (w1 := set_body _ (set_body _ _)). assert (B1 : w_body w1 = [StmtReturn (rel RelGE (ref "gi") (ref "n")); decl I32 "i" (cast I32 (ref "gi"))]) by reflexivity.
  destruct (unravelPush_succeeds (length (k_built k)) "i" [] w1) as (cs & w2 & E2 & (s2 & B2) & R2 & Hcs).
  rewrite Nat.add_0_r in Hcs. unfold unravelPush. rewrite E2. unfold cw_bind at 1, cw_set. unfold cw_bind at 1, cw_get at 1.
  assert (Eo : w_order (set_coords cs w2) = k_order k) by (injection R2 as _ _ _ _ _ R2 _; exact R2). rewrite Eo.
  unfold cw_bind. pose proof (nodes_decide (k_order k) (set_coords cs w2)) as D. cbn [w_coords set_coords w_body] in D. rewrite Hcs in D.
  destruct (nodes_code ns hb (k_order k) (set_coords cs w2)) as [[[]|e] w3].
  - destruct D as (D1 & (s3 & B3) & D3). destruct (store_succeeds w3) as ([] & w4 & E4 & (s4 & B4) & _). rewrite E4.
    cbn [c_Threads c_Out c_In c_Stmts]. split; [exact Hr|]. split; [exact D1|]. repeat split.
    rewrite B4, B3, B2, B1. eexists. reflexivity.
  - right. split; [exact Hr|exact D].
Qed.
End coding.
