(* ===== verification/Shader.v ===== *)
(** * What a schedule computes (src/x/ndarray/code.go)

    A reference semantics of the statements of a [Code], as the comments of
    code.go describe them: scalars are 32-bit words with a type, arithmetic
    wraps, a declaration binds a new name, and the thread of cell [gi] stores
    at most one element.  The semantics is partial where a shading language
    leaves the result open: a load outside its buffer, a division by zero, a
    shift by more than 31, a conversion that does not fit, operands of
    different types, a name that is not bound or bound twice.  The file proves
    that the schedule of a kernel never does any of these and stores the word
    that the CPU tape stores. *)
From Stdlib Require Import ZArith Lia DecimalString DecimalZ Floats.SpecFloat.
From stdpp Require Import base numbers option list strings gmap.
From S2P Require Import Prelude Float Alu Shape View Tracker Expr Rewrite Optimize Flatten Cpu Kernel Code.

Local Open Scope Z_scope.

(** ** Values *)

(** float, int and uint hold a word; uint holds an element of uint8 too. *)
Inductive val : Type := VF (w : Z) | VI (w : Z) | VU (w : Z) | VB (b : bool).

#[export] Instance val_eq_dec : EqDecision val.
Proof. solve_decision. Defined.

Definition as_val (d : DType) (w : Z) : val :=
  match d with I32 => VI w | U8 => VU w | _ => VF w end.

(** The word of a value of the type [d]. *)
Definition of_val (d : DType) (v : val) : option Z :=
  match d, v with
  | F32, VF w | DNone, VF w | I32, VI w | U8, VU w => Some w
  | _, _ => None
  end.

Abbreviation env := (gmap string val).

Section semantics.
Context {E : FloatEnv}.

(** The input bindings, by name. *)
Context (mem : gmap string buffer).

Definition load_val (b : buffer) (i : Z) : option val :=
  if (0 <=? i) && (i <? cells b) then Some (as_val (buf_dtype b) (word b i)) else None.

Definition vneg (a : val) : option val :=
  match a with
  | VF a => Some (VF (packFloat [a] (SFopp (unpack a))))
  | VI a => Some (VI (u32 (- i32 a)))
  | VU a => Some (VU (u32 (- a)))
  | VB _ => None
  end.

Definition varith (f : spec_float -> spec_float -> spec_float) (i : Z -> Z -> Z) (a b : val) : option val :=
  match a, b with
  | VF a, VF b => Some (VF (packFloat [a; b] (f (unpack a) (unpack b))))
  | VI a, VI b => Some (VI (u32 (i (i32 a) (i32 b))))
  | VU a, VU b => Some (VU (u32 (i a b)))
  | _, _ => None
  end.

Definition vdiv (a b : val) : option val :=
  match a, b with
  | VF a, VF b => Some (VF (packFloat [a; b] (SFdiv f32_prec f32_emax (unpack a) (unpack b))))
  | VI a, VI b => if i32 b =? 0 then None else Some (VI (u32 (Z.quot (i32 a) (i32 b))))
  | _, _ => None
  end.

Definition vmod (a b : val) : option val :=
  match a, b with
  | VI a, VI b => if i32 b =? 0 then None else Some (VI (u32 (Z.rem (i32 a) (i32 b))))
  | _, _ => None
  end.

Definition vbits (f : Z -> Z -> Z) (a b : val) : option val :=
  match a, b with
  | VI a, VI b => Some (VI (u32 (f (i32 a) (i32 b))))
  | VU a, VU b => Some (VU (u32 (f a b)))
  | _, _ => None
  end.

Definition vshift (f : Z -> Z -> Z) (a b : val) : option val :=
  match a, b with
  | VI a, VI b => if (0 <=? i32 b) && (i32 b <? 32) then Some (VI (u32 (f (i32 a) (i32 b)))) else None
  | _, _ => None
  end.

Definition float_rel (r : Rel) (a b : spec_float) : bool :=
  match r with
  | RelLT => SFltb a b | RelLE => SFleb a b | RelGT => SFltb b a | RelGE => SFleb b a
  | RelEQ => SFeqb a b | RelNE => negb (SFeqb a b)
  end.
Definition int_rel (r : Rel) (a b : Z) : bool :=
  match r with
  | RelLT => a <? b | RelLE => a <=? b | RelGT => b <? a | RelGE => b <=? a
  | RelEQ => a =? b | RelNE => negb (a =? b)
  end.
Definition vrel (r : Rel) (a b : val) : option val :=
  match a, b with
  | VF a, VF b => Some (VB (float_rel r (unpack a) (unpack b)))
  | VI a, VI b => Some (VB (int_rel r (i32 a) (i32 b)))
  | VU a, VU b => Some (VB (int_rel r a b))
  | _, _ => None
  end.

(** The conversions; a float that does not fit is left open. *)
Definition vcast (d : DType) (a : val) : option val :=
  match d, a with
  | I32, VI w | I32, VU w => Some (VI w)
  | I32, VB b => Some (VI (bool_word b))
  | I32, VF w =>
      match float_trunc (unpack w) with
      | Some z => if (- two31 <=? z) && (z <? two31) then Some (VI (u32 z)) else None
      | None => None
      end
  | U8, VI w | U8, VU w => Some (VU w)
  | U8, VF w =>
      match float_trunc (unpack w) with
      | Some z => if (0 <=? z) && (z <? two32) then Some (VU z) else None
      | None => None
      end
  | F32, VF w => Some (VF w)
  | F32, VI w => Some (VF (packFloat [w] (float_of_int (i32 w))))
  | F32, VU w => Some (VF (packFloat [w] (float_of_int w)))
  | _, _ => None
  end.

Definition clamp {A} (lt : A -> A -> bool) (x lo hi : A) : A :=
  if lt x lo then lo else if lt hi x then hi else x.

(** An int argument of a uint call is converted. *)
Definition vfn (f : Fn) (args : list val) : option val :=
  let float1 (g : spec_float -> spec_float) :=
    match args with [VF a] => Some (VF (packFloat [a] (narrow (g (widen (unpack a)))))) | _ => None end in
  match f with
  | FnExp2 => float1 math_Exp2
  | FnLog2 => float1 math_Log2
  | FnSin => float1 math_Sin
  | FnSqrt => float1 (SFsqrt 53 1024)
  | FnMax =>
      match args with
      | [VF a; VF b] => Some (VF (packFloat [a; b] (float_max (unpack a) (unpack b))))
      | [VI a; VI b] => Some (VI (u32 (Z.max (i32 a) (i32 b))))
      | _ => None
      end
  | FnClamp =>
      match args with
      | [VF a; VF lo; VF hi] => Some (VF (packFloat [a] (clamp SFltb (unpack a) (unpack lo) (unpack hi))))
      | [VI a; VI lo; VI hi] => Some (VI (u32 (clamp Z.ltb (i32 a) (i32 lo) (i32 hi))))
      | [VU a; VI lo; VI hi] => Some (VU (clamp Z.ltb a lo hi))
      | _ => None
      end
  end.

Definition int_literal (z : Z) : option val :=
  if (- two31 <=? z) && (z <? two31) then Some (VI (u32 z)) else None.

Fixpoint eval (e : env) (x : Expr) : option val :=
  let eval2 (f : val -> val -> option val) a b :=
    match eval e a, eval e b with Some a, Some b => f a b | _, _ => None end in
  match x with
  | ExprRef n => e !! n
  | ExprInt z => int_literal z
  | ExprUint z => if (0 <=? z) && (z <? two32) then Some (VU z) else None
  | ExprTrue => Some (VB true)
  | ExprConst d bits => Some (as_val d (match d with U8 => bits mod 256 | _ => bits end))
  | ExprLoad n i =>
      match mem !! n, eval e i with
      | Some b, Some (VI w) => load_val b (i32 w)
      | _, _ => None
      end
  | ExprNeg a => match eval e a with Some a => vneg a | None => None end
  | ExprAdd a b => eval2 (varith (SFadd f32_prec f32_emax) Z.add) a b
  | ExprMul a b => eval2 (varith (SFmul f32_prec f32_emax) Z.mul) a b
  | ExprDiv a b => eval2 vdiv a b
  | ExprMod a b => eval2 vmod a b
  | ExprBitAnd a b => eval2 (vbits Z.land) a b
  | ExprBitOr a b => eval2 (vbits Z.lor) a b
  | ExprBitXor a b => eval2 (vbits Z.lxor) a b
  | ExprShl a b => eval2 (vshift Z.shiftl) a b
  | ExprShr a b => eval2 (vshift Z.shiftr) a b
  | ExprRel r a b => eval2 (vrel r) a b
  | ExprAnd a b =>
      match eval e a with
      | Some (VB true) => match eval e b with Some (VB b) => Some (VB b) | _ => None end
      | Some (VB false) => Some (VB false)
      | _ => None
      end
  | ExprSel c a b =>
      match eval e c with
      | Some (VB true) => eval e a
      | Some (VB false) => eval e b
      | _ => None
      end
  | ExprCast d a => match eval e a with Some a => vcast d a | None => None end
  | ExprFn f args =>
      match (fix evals (args : list Expr) : option (list val) :=
               match args with
               | [] => Some []
               | a :: args' => match eval e a, evals args' with Some v, Some vs => Some (v :: vs) | _, _ => None end
               end) args with
      | Some vs => vfn f vs
      | None => None
      end
  end.

(** ** Statements *)

Definition same_type (a b : val) : bool :=
  match a, b with VF _, VF _ | VI _, VI _ | VU _, VU _ | VB _, VB _ => true | _, _ => false end.

(** A bound name keeps its type. *)
Definition assign (e : env) (n : string) (v : val) : option env :=
  match e !! n with
  | Some old => if same_type old v then Some (<[n := v]> e) else None
  | None => None
  end.

Definition declared (d : DType) (Bool : bool) (v : val) : bool :=
  match v with VB _ => Bool | _ => negb Bool && (match of_val d v with Some _ => true | None => false end) end.

(** A statement that neither stores nor ends the thread. *)
Definition step (e : env) (s : Stmt) : option env :=
  match s with
  | StmtDecl d Bool n rhs =>
      match e !! n, eval e rhs with
      | None, Some v => if declared d Bool v then Some (<[n := v]> e) else None
      | _, _ => None
      end
  | StmtSet n rhs => match eval e rhs with Some v => assign e n v | None => None end
  | StmtIfSet c n rhs =>
      match eval e c with
      | Some (VB true) => match eval e rhs with Some v => assign e n v | None => None end
      | Some (VB false) => Some e
      | _ => None
      end
  | StmtAdd n rhs =>
      match e !! n, eval e rhs with
      | Some a, Some b => match varith (SFadd f32_prec f32_emax) Z.add a b with Some v => assign e n v | None => None end
      | _, _ => None
      end
  | StmtStore _ | StmtReturn _ => None
  end.

Fixpoint steps (e : env) (ss : list Stmt) : option env :=
  match ss with
  | [] => Some e
  | s :: ss' => match step e s with Some e' => steps e' ss' | None => None end
  end.

(** The elements a thread stores, in order. *)
Fixpoint run_stmts (out : DType) (e : env) (ss : list Stmt) : option (list (Z * Z)) :=
  match ss with
  | [] => Some []
  | StmtReturn c :: ss' =>
      match eval e c with
      | Some (VB true) => Some []
      | Some (VB false) => run_stmts out e ss'
      | _ => None
      end
  | StmtStore rhs :: ss' =>
      match e !! "i"%string, eval e rhs with
      | Some (VI i), Some v =>
          match of_val out v, run_stmts out e ss' with
          | Some w, Some more => Some ((i32 i, w) :: more)
          | _, _ => None
          end
      | _, _ => None
      end
  | s :: ss' => match step e s with Some e' => run_stmts out e' ss' | None => None end
  end.
End semantics.

(** ** Threads *)

(** The names [p0], [p1], ... from number [k] on. *)
Fixpoint numbered {A} (p : string) (k : Z) (l : list (option A)) : gmap string A :=
  match l with
  | [] => ∅
  | Some a :: l' => <[p +:+ Itoa k := a]> (numbered p (k + 1) l')
  | None :: l' => numbered p (k + 1) l'
  end.

(** [gi], [n] and [d0..d3], the words of the push block. *)
Definition thread_env (gi n : Z) (dims : list Z) : env :=
  <["gi"%string := VU gi]> (<["n"%string := VU n]> (numbered "d" 0 (map (fun d => Some (VU d)) dims))).

(** [x1], [x2], ... *)
Definition bindings (hb : list buffer) (bufs : list nat) : gmap string buffer :=
  numbered "x" 1 (map (fun b => hb !! b) bufs).

(** The thread of cell [gi] of a dispatch with the given push words. *)
Definition thread {E : FloatEnv} (hb : list buffer) (bufs : list nat) (c : Code) (gi n : Z) (dims : list Z)
    : option (list (Z * Z)) :=
  run_stmts (bindings hb bufs) (c_Out c) (thread_env gi n dims) (c_Stmts c).

(** ** Operations *)

(** A value of the type [d] stands for the word [w] of the tape. *)
Definition rep (d : DType) (v : val) (w : Z) : Prop := exists w', v = as_val d w' /\ weq d w' w /\ word_ok w'.

Lemma rep_int d v w : d <> F32 -> rep d v w -> v = as_val d w /\ word_ok w.
Proof. intros Hd (w' & -> & Hw & Hok). apply weq_int in Hw as ->; auto. Qed.

Lemma rep_float v w : rep F32 v w -> exists w', v = VF w' /\ unpack w' = unpack w /\ word_ok w'.
Proof. intros (w' & -> & Hw & Hok). exists w'. split; [reflexivity|]. split; [eapply weq_unpack, Hw|exact Hok]. Qed.

Lemma rep_pack `{E : FloatEnv} args args' f : rep F32 (VF (packFloat args f)) (packFloat args' f).
Proof. exists (packFloat args f). split; [reflexivity|]. split; [apply packFloat_weq|apply packFloat_ok]. Qed.

(** *** Clamping a float to [0, 255] *)

Definition magnitude (m : positive) (e : Z) : Z := if 0 <=? e then Zpos m * 2 ^ e else Zpos m / 2 ^ (- e).

Lemma magnitude_high m e : exponent32 (Zpos (digits2_pos m) + e) = e -> -16 < e -> 255 < magnitude m e.
Proof.
  intros Hv He. pose proof (digits2_bounds m) as Hb. set (d := Zpos (digits2_pos m)) in *. unfold exponent32 in Hv.
  assert (Hm : 2 ^ 23 <= Zpos m) by (apply (Z.le_trans _ (2 ^ (d - 1))); [apply Z.pow_le_mono_r; lia|lia]).
  unfold magnitude. destruct (Z.leb_spec 0 e).
  - assert (0 < 2 ^ e) by (apply Z.pow_pos_nonneg; lia). nia.
  - apply (Z.lt_le_trans _ 256); [lia|]. apply Z.div_le_lower_bound; [apply Z.pow_pos_nonneg; lia|].
    apply (Z.le_trans _ (2 ^ 15 * 256)); [|lia]. apply Z.mul_le_mono_nonneg_r; [lia|]. apply Z.pow_le_mono_r; lia.
Qed.

Lemma magnitude_low m e : exponent32 (Zpos (digits2_pos m) + e) = e -> e < -16 -> 0 <= magnitude m e < 128.
Proof.
  intros Hv He. pose proof (digits2_bounds m) as Hb. set (d := Zpos (digits2_pos m)) in *. unfold exponent32 in Hv.
  assert (Hm : Zpos m < 2 ^ 24) by (apply (Z.lt_le_trans _ (2 ^ d)); [lia|apply Z.pow_le_mono_r; lia]).
  unfold magnitude. destruct (Z.leb_spec 0 e); [lia|].
  assert (0 < 2 ^ (- e)) by (apply Z.pow_pos_nonneg; lia). split; [apply Z.div_pos; lia|].
  apply Z.div_lt_upper_bound; [lia|]. apply (Z.lt_le_trans _ (2 ^ 17 * 128)); [lia|].
  apply Z.mul_le_mono_nonneg_r; [lia|]. apply Z.pow_le_mono_r; lia.
Qed.

Lemma packU8_high t : 255 <= t -> packU8 t = 255.
Proof. unfold packU8. intros H. destruct (Z.ltb_spec t 0), (Z.ltb_spec 255 t); lia. Qed.
Lemma packU8_mid t : 0 <= t <= 255 -> packU8 t = t.
Proof. unfold packU8. intros H. destruct (Z.ltb_spec t 0), (Z.ltb_spec 255 t); lia. Qed.
Lemma packU8_low t : t <= 0 -> packU8 t = 0.
Proof. unfold packU8. intros H. destruct (Z.ltb_spec t 0), (Z.ltb_spec 255 t); lia. Qed.

(** Clamping a float and then truncating it is truncating and saturating. *)
Lemma clamp_trunc f t : valid32 f = true -> float_trunc f = Some t ->
  float_trunc (clamp SFltb f (unpack 0) (unpack bits_255)) = Some (packU8 t).
Proof.
  change (unpack 0) with (S754_zero false). change (unpack bits_255) with (S754_finite false 16711680 (-16)).
  intros Hv Ht. destruct f as [s|s| |s m e]; try discriminate Ht.
  { injection Ht as <-. destruct s; reflexivity. }
  cbn [float_trunc] in Ht. fold (magnitude m e) in Ht. injection Ht as Ht. apply valid32_exponent in Hv.
  assert (H0 : 0 <= magnitude m e) by (unfold magnitude; destruct (Z.leb_spec 0 e); [lia|apply Z.div_pos; lia]).
  unfold clamp. destruct s.
  { cbn [SFltb SFcompare]. rewrite packU8_low by lia. reflexivity. }
  cbn [SFltb SFcompare]. change (Pos.compare_cont Eq 16711680 m) with (Pos.compare 16711680 m).
  assert (Hself : float_trunc (S754_finite false m e) = Some t) by (cbn [float_trunc]; fold (magnitude m e); congruence).
  assert (H255 : float_trunc (S754_finite false 16711680 (-16)) = Some 255) by reflexivity.
  destruct (Z.compare_spec (-16) e) as [<-|Hlt|Hgt].
  - change (magnitude m (-16)) with (Zpos m / 65536) in *. destruct (Pos.compare_spec 16711680 m) as [<-|Hc|Hc].
    + subst t. reflexivity.
    + assert (Hc' : 16711680 < Zpos m) by exact Hc. clear Hc. assert (255 <= t) by (subst t; apply Z.div_le_lower_bound; lia). rewrite packU8_high by lia. exact H255.
    + assert (Hc' : Zpos m < 16711680) by exact Hc. clear Hc. assert (t < 256) by (subst t; apply Z.div_lt_upper_bound; lia). rewrite packU8_mid by lia. exact Hself.
  - pose proof (magnitude_high m e Hv Hlt). rewrite packU8_high by lia. exact H255.
  - pose proof (magnitude_low m e Hv Hgt). rewrite packU8_mid by lia. exact Hself.
Qed.

(** *** Every operation of the tape *)

Definition int32 (z : Z) : bool := (- two31 <=? z) && (z <? two31).

(** A cast that the tape and a shader agree on: an element of uint8 is below
    256, and a float has an int32 part. *)
Definition castable (t d : DType) (w : Z) : bool :=
  match t, d with
  | F32, F32 => true
  | F32, _ => match float_trunc (unpack w) with Some z => int32 z | None => false end
  | U8, _ => w <? 256
  | _, _ => true
  end.

Section operations.
Context {E : FloatEnv} (mem : gmap string buffer) (e : env).

Lemma rep_rel r t a b v1 v2 : t = F32 \/ t = I32 -> rep t v1 a -> rep t v2 b ->
  vrel r v1 v2 = Some (VB (if bool_decide (t = F32) then float_rel r (unpack a) (unpack b) else int_rel r (i32 a) (i32 b))).
Proof using.
  intros [->| ->] H1 H2.
  - apply rep_float in H1 as (a' & -> & Ha & _), H2 as (b' & -> & Hb & _). cbn [vrel]. rewrite Ha, Hb. reflexivity.
  - apply rep_int in H1 as [-> _], H2 as [-> _]; try discriminate. reflexivity.
Qed.

Lemma rep_words d w : d <> DNone -> word_ok w -> rep d (as_val d w) w.
Proof using. intros _ H. exists w. split; [reflexivity|]. split; [reflexivity|exact H]. Qed.

Lemma eval_guard op f x y a b : eval mem e x = Some (VI a) -> eval mem e y = Some (VI b) ->
  (forall p q, eval mem e (op p q) = match eval mem e p, eval mem e q with Some u, Some v => f u v | _, _ => None end) ->
  eval mem e (arithGuard x y op) = if i32 b =? 0 then Some (VI 0) else f (VI a) (VI b).
Proof using.
  intros Hx Hy Hop. unfold arithGuard, sel, rel, iconst. cbn [eval]. rewrite Hop, Hx. cbn [eval]. rewrite Hy.
  change (int_literal 0) with (Some (VI 0)). cbn [vrel int_rel]. change (i32 0) with 0.
  destruct (i32 b =? 0); reflexivity.
Qed.

Lemma land_31 b : 0 <= b < 32 -> Z.land b 31 = b.
Proof using. intros H. change 31 with (Z.ones 5). rewrite Z.land_ones by lia. apply Z.mod_small. lia. Qed.

Lemma shiftr_32 a : - two31 <= a < two31 -> Z.shiftr a 32 = if a <? 0 then -1 else 0.
Proof using.
  intros H. unfold two31 in H. rewrite Z.shiftr_div_pow2 by lia. change (2 ^ 32) with two32. unfold two32.
  destruct (Z.ltb_spec a 0); [|apply Z.div_small; lia]. symmetry. apply (Z.div_unique_pos _ _ (-1) (a + 4294967296)); lia.
Qed.

Lemma eval_shift x y a b (arith : bool) : word_ok a -> word_ok b -> eval mem e x = Some (VI a) -> eval mem e y = Some (VI b) ->
  eval mem e (shiftGuard x y arith) = Some (VI (if arith then shr32 (i32 a) b else shl32 (i32 a) b)).
Proof using.
  intros Ha Hb Hx Hy. unfold shiftGuard, sel, rel, cast, band, uintc, iconst, shr, shl.
  pose proof (i32_range a Ha) as Hr. unfold word_ok in Hb.
  destruct arith; cbn [eval]; rewrite Hx; cbn [eval]; rewrite Hy; cbn [vcast vrel int_rel vbits].
  all: change ((0 <=? 32) && (32 <? two32)) with true; change ((0 <=? 31) && (31 <? two32)) with true; cbv iota;
    change (int_literal 0) with (Some (VI 0)); change (int_literal (-1)) with (Some (VI (u32 (-1)))); cbn [vrel int_rel vbits].
  all: change (i32 0) with 0; unfold shr32, shl32; destruct (Z.leb_spec 32 b) as [Hge|Hlt].
  - rewrite Z.min_r by lia. rewrite shiftr_32 by exact Hr. destruct (i32 a <? 0); reflexivity.
  - rewrite land_31 by lia. rewrite (u32_small b) by exact Hb. cbn [vcast vshift].
    assert (E1 : i32 b = b) by (unfold i32, two31; destruct (Z.ltb_spec b 2147483648); lia). rewrite E1.
    destruct (Z.leb_spec 0 b), (Z.ltb_spec b 32); try lia. rewrite Z.min_l by lia. reflexivity.
  - reflexivity.
  - rewrite land_31 by lia. rewrite (u32_small b) by exact Hb. cbn [vcast vshift].
    assert (E1 : i32 b = b) by (unfold i32, two31; destruct (Z.ltb_spec b 2147483648); lia). rewrite E1.
    destruct (Z.leb_spec 0 b), (Z.ltb_spec b 32); try lia. reflexivity.
Qed.

(** The cast of an operand that both read alike. *)
Lemma eval_cast x v t d w : t <> DNone -> d <> DNone -> rep t v w -> eval mem e x = Some v -> castable t d w = true ->
  exists v', eval mem e
    (match d with
     | U8 => if bool_decide (t = F32) then cast U8 (callFn FnClamp [x; fconst 0; fconst bits_255])
             else cast U8 (callFn FnClamp [x; iconst 0; iconst 255])
     | d' => cast d' x
     end) = Some v' /\ rep d v' (alu CAST d t w 0 0).
Proof using.
  intros Ht Hd Hv Hx Hc. unfold alu, cast, callFn, fconst, iconst. cbn [arity Z.ltb Z.compare Pos.compare Pos.compare_cont].
  destruct t; [contradiction| | |].
  - pose proof Hv as Hv'. apply rep_float in Hv as (w' & -> & Hw & Hok). destruct d; [contradiction| | |].
    + exists (VF w'). cbn [eval]. rewrite Hx, bool_decide_true by reflexivity. split; [reflexivity|exact Hv'].
    + cbn [eval]. rewrite Hx. cbn [vcast castable] in *. rewrite Hw. rewrite bool_decide_true by reflexivity.
      unfold int_of_float. destruct (float_trunc (unpack w)) as [z|]; [|discriminate Hc]. unfold int32 in Hc. rewrite Hc.
      eexists. split; [reflexivity|]. apply (rep_words I32); [discriminate|apply u32_ok].
    + rewrite !bool_decide_true by reflexivity. cbn [eval]. rewrite Hx. cbn [eval as_val vfn]. cbn [castable] in Hc.
      destruct (float_trunc (unpack w)) as [z|] eqn:Ez; [|discriminate Hc].
      assert (Hvw : valid32 (unpack w') = true) by (apply unpack_valid, Hok).
      assert (Hcl : valid32 (clamp SFltb (unpack w') (unpack 0) (unpack bits_255)) = true).
      { unfold clamp. destruct (SFltb _ _); [reflexivity|]. destruct (SFltb _ _); [reflexivity|exact Hvw]. }
      cbn [vcast]. rewrite unpack_packFloat by exact Hcl. rewrite (clamp_trunc _ z) by first [assumption|rewrite Hw; assumption].
      unfold int32 in Hc. unfold int_of_float. rewrite Ez, Hc. rewrite i32_u32 by lia.
      pose proof (packU8_ok z) as Hp. unfold word_ok in Hp. destruct (Z.leb_spec 0 (packU8 z)), (Z.ltb_spec (packU8 z) two32); try lia.
      eexists. split; [reflexivity|]. apply (rep_words U8); [discriminate|exact Hp].
  - apply rep_int in Hv as [-> Hok]; [|discriminate]. destruct d; [contradiction| | |]; rewrite !bool_decide_false by discriminate; cbn [eval].
    + rewrite Hx. cbn [vcast as_val]. eexists. split; [reflexivity|]. apply rep_pack.
    + rewrite Hx. cbn [vcast as_val]. eexists. split; [reflexivity|]. apply (rep_words I32); [discriminate|exact Hok].
    + rewrite Hx. cbn [as_val]. change (int_literal 0) with (Some (VI 0)). change (int_literal 255) with (Some (VI 255)).
      cbn [vfn vcast]. change (i32 0) with 0. change (i32 255) with 255.
      assert (Ec : clamp Z.ltb (i32 w) 0 255 = packU8 (i32 w)) by reflexivity. rewrite Ec.
      rewrite u32_small by apply packU8_ok. eexists. split; [reflexivity|]. apply (rep_words U8); [discriminate|apply packU8_ok].
  - apply rep_int in Hv as [-> Hok]; [|discriminate]. cbn [castable] in Hc. assert (Hlt : 0 <= w < 256) by (unfold word_ok in Hok; destruct d; lia).
    destruct d; [contradiction| | |]; rewrite ?(bool_decide_false (U8 = F32)) by discriminate; rewrite ?(bool_decide_true (U8 = U8)) by reflexivity; cbn [eval].
    + rewrite Hx. cbn [vcast as_val]. rewrite Z.mod_small by lia. eexists. split; [reflexivity|]. apply rep_pack.
    + rewrite Hx. cbn [vcast as_val]. rewrite Z.mod_small by lia. eexists. split; [reflexivity|]. apply (rep_words I32); [discriminate|exact Hok].
    + rewrite Hx. cbn [as_val]. change (int_literal 0) with (Some (VI 0)). change (int_literal 255) with (Some (VI 255)).
      cbn [vfn vcast]. change (i32 0) with 0. change (i32 255) with 255.
      assert (Ec : clamp Z.ltb w 0 255 = w) by (unfold clamp; destruct (Z.ltb_spec w 0), (Z.ltb_spec 255 w); lia). rewrite Ec.
      eexists. split; [reflexivity|]. apply (rep_words U8); [discriminate|exact Hok].
Qed.

(** *** Arithmetic on operands of one type *)

Lemma vneg_rep d v w : d <> DNone -> rep d v w -> exists v', vneg v = Some v' /\ rep d v' (alu NEG d d w 0 0).
Proof using.
  intros Hd Hv. unfold alu. cbn [arity Z.ltb Z.compare Pos.compare Pos.compare_cont]. destruct d; [contradiction| | |].
  - apply rep_float in Hv as (w' & -> & Hw & _). rewrite bool_decide_true by reflexivity. cbn [vneg]. rewrite Hw.
    eexists. split; [reflexivity|]. apply rep_pack.
  - apply rep_int in Hv as [-> Hok]; [|discriminate]. rewrite bool_decide_false by discriminate.
    eexists. split; [reflexivity|]. apply (rep_words I32); [discriminate|apply u32_ok].
  - apply rep_int in Hv as [-> Hok]; [|discriminate]. rewrite bool_decide_false by discriminate.
    eexists. split; [reflexivity|]. exists (u32 (- w)). split; [reflexivity|]. split; [|apply u32_ok].
    left. destruct (i32_mod w Hok) as [k Hk]. apply (u32_cong _ _ k). lia.
Qed.

(** Wrapping addition and multiplication read the words of uint8 alike. *)
Definition ring_op (op : Op) : Prop := op = ADD \/ op = MUL.
Definition int_of_op (op : Op) : Z -> Z -> Z := match op with MUL => Z.mul | _ => Z.add end.
Definition float_of_op (op : Op) : spec_float -> spec_float -> spec_float :=
  match op with MUL => SFmul f32_prec f32_emax | _ => SFadd f32_prec f32_emax end.

Lemma u32_ring op a b : ring_op op -> word_ok a -> word_ok b ->
  u32 (int_of_op op a b) = u32 (int_of_op op (i32 a) (i32 b)).
Proof using.
  intros Hop Ha Hb. destruct (i32_mod a Ha) as [k Hk], (i32_mod b Hb) as [j Hj]. rewrite Hk, Hj.
  destruct Hop as [-> | ->]; cbn [int_of_op].
  - apply (u32_cong _ _ (- (k + j))). lia.
  - apply (u32_cong _ _ (- (a * j + k * b + k * j * two32))). lia.
Qed.

Lemma varith_rep op d v1 v2 a b : ring_op op -> d <> DNone -> rep d v1 a -> rep d v2 b ->
  exists v, varith (float_of_op op) (int_of_op op) v1 v2 = Some v /\ rep d v (alu op d d a b 0).
Proof using.
  intros Hop Hd H1 H2. destruct d; [contradiction| | |].
  - apply rep_float in H1 as (a' & -> & Ha & _), H2 as (b' & -> & Hb & _). cbn [varith]. rewrite Ha, Hb.
    eexists. split; [reflexivity|]. destruct Hop as [-> | ->]; apply rep_pack.
  - apply rep_int in H1 as [-> Ha], H2 as [-> Hb]; try discriminate. cbn [varith as_val].
    eexists. split; [reflexivity|]. destruct Hop as [-> | ->]; apply (rep_words I32); discriminate || apply u32_ok.
  - apply rep_int in H1 as [-> Ha], H2 as [-> Hb]; try discriminate. cbn [varith as_val].
    eexists. split; [reflexivity|]. rewrite u32_ring by assumption.
    destruct Hop as [-> | ->]; apply (rep_words U8); discriminate || apply u32_ok.
Qed.

(** The product is rounded before it is added. *)
Lemma alu_mac d a b c : word_ok a -> word_ok b -> word_ok c ->
  weq d (alu ADD d d (alu MUL d d a b 0) c 0) (alu MultiplyAccumulate d d a b c).
Proof using.
  intros Ha Hb Hc. unfold alu. cbn [arity Z.ltb Z.compare Pos.compare Pos.compare_cont].
  destruct (decide (d = F32)) as [->|Hd].
  - rewrite !bool_decide_true by reflexivity. rewrite unpack_packFloat by (apply SFmul_valid; apply unpack_valid; assumption).
    apply packFloat_weq.
  - rewrite !bool_decide_false by exact Hd. left.
    assert (Hm : word_ok (u32 (i32 a * i32 b))) by apply u32_ok.
    destruct (i32_mod _ Hm) as [k Hk]. rewrite Hk. unfold u32 at 2. set (p := i32 a * i32 b).
    apply (u32_cong _ _ (k - p / two32)). pose proof (Z.div_mod p two32 ltac:(discriminate)). lia.
Qed.

Lemma weq_trans_rep d v a b : rep d v a -> weq d a b -> rep d v b.
Proof using. intros (w & Hv & Hw & Hok) H. exists w. split; [exact Hv|]. split; [etransitivity; eassumption|exact Hok]. Qed.
End operations.

(** The operands of a node, by name. *)
Definition args_rep (ns : list node) (e : env) (n : node) (args : list string) (W : nat -> Z) : Prop :=
  forall k s, n_sources n !! k = Some s ->
    exists v, e !! nth k args ""%string = Some v /\ rep (n_dtype (get ns s)) v (W k).

Section alu_code.
Context {E : FloatEnv} (mem : gmap string buffer) (e : env).

(** [x] evaluates to what the word [w] of type [d] stands for. *)
Definition gives_word (x : Expr) (d : DType) (w : Z) : Prop := exists v, eval mem e x = Some v /\ rep d v w.

Lemma eval_bool_cast x b : eval mem e x = Some (VB b) -> eval mem e (cast I32 x) = Some (VI (bool_word b)).
Proof using. intros Hx. unfold cast. cbn [eval]. rewrite Hx. reflexivity. Qed.

Lemma gives_int x w : word_ok w -> eval mem e x = Some (VI w) -> gives_word x I32 w.
Proof using. intros Hw Hx. exists (VI w). split; [exact Hx|]. apply (rep_words I32); [discriminate|exact Hw]. Qed.

Lemma unary_code op t d x v w b c ns n args :
  n_op n = op -> arity op = 1 -> n_dtype n = d -> in_type ns n = t -> n_sources n <> [] -> is_number_type d = true ->
  op_type op t d -> x = ref (nth 0 args ""%string) -> eval mem e x = Some v -> rep t v w ->
  (op = CAST -> castable t d w = true) ->
  gives_word (exprALU ns n args) d (alu op d t w b c).
Proof using.
  intros Eop Har Ed Et Hs Hnum Hot -> Hx Hv Hc. unfold exprALU. rewrite Eop, Ed.
  assert (Hfloat : t = F32 -> exists w', v = VF w' /\ unpack w' = unpack w).
  { intros ->. apply rep_float in Hv as (w' & -> & Hw & _). exists w'. auto. }
  destruct op; try discriminate Har; cbn [op_type] in Hot.
  3: { destruct (n_sources n) as [|s0 ss] eqn:Es; [contradiction|].
    assert (Hfrom : n_dtype (get ns s0) = t) by (rewrite <- Et; unfold in_type; rewrite Es; reflexivity).
    rewrite Hfrom. assert (Hd : d <> DNone) by (intros ->; discriminate Hnum).
    destruct (eval_cast mem e (ref (nth 0 args ""%string)) v t d w) as (v' & K & Rv'); auto; [intros ->; intuition discriminate|].
    exists v'. split; [destruct d; exact K|exact Rv']. }
  6: { destruct Hot as [Ht ->]. destruct (vneg_rep t v w) as (v' & Hv' & Rv'); [intros ->; intuition discriminate|exact Hv|].
    exists v'. unfold neg. cbn [eval]. rewrite Hx. split; [exact Hv'|exact Rv']. }
  all: destruct Hot as [Ht ->]; destruct (Hfloat Ht) as (w' & -> & Hw); unfold callFn, div, fconst; eexists;
    cbn [eval]; rewrite Hx; cbn [vfn vdiv as_val]; rewrite Hw; split; [reflexivity|].
  all: apply (rep_pack _ [w; 0; 0]).
Qed.

Lemma binary_code op t d x y v1 v2 a b c ns n args :
  n_op n = op -> arity op = 2 -> op_type op t d -> word_ok a -> word_ok b ->
  x = ref (nth 0 args ""%string) -> y = ref (nth 1 args ""%string) ->
  eval mem e x = Some v1 -> eval mem e y = Some v2 -> rep t v1 a -> rep t v2 b ->
  gives_word (exprALU ns n args) d (alu op d t a b c).
Proof using.
  intros Eop Har Hot Ha Hb -> -> Hx Hy H1 H2. unfold exprALU. rewrite Eop.
  assert (Hint : t = I32 -> v1 = VI a /\ v2 = VI b).
  { intros ->. apply rep_int in H1 as [-> _], H2 as [-> _]; try discriminate. auto. }
  assert (Hrel : forall r, t = F32 \/ t = I32 -> eval mem e (rel r (ref (nth 0 args ""%string)) (ref (nth 1 args ""%string))) =
    Some (VB (if bool_decide (t = F32) then float_rel r (unpack a) (unpack b) else int_rel r (i32 a) (i32 b)))).
  { intros r Ht. unfold rel. cbn [eval]. rewrite Hx, Hy. apply (rep_rel r t a b); assumption. }
  assert (Hring : ring_op op -> d = t -> t <> DNone -> exists v, varith (float_of_op op) (int_of_op op) v1 v2 = Some v /\ rep d v (alu op d t a b 0)).
  { intros Hop -> Ht. apply varith_rep; assumption. }
  assert (Hword : word_ok (alu op I32 t a b 0)) by (apply alu_ok; auto; apply zero_ok).
  destruct op; try discriminate Har; cbn [op_type] in Hot; destruct Hot as [Ht ->].
  1-2: destruct Hring as (v & Hv & Rv); [unfold ring_op; auto|reflexivity|intros ->; intuition discriminate|];
    exists v; unfold add, mul; cbn [eval]; rewrite Hx, Hy; split; [exact Hv|exact Rv].
  2: { destruct Ht as [->| ->].
    - apply rep_float in H1 as (a' & -> & Ea & _), H2 as (b' & -> & Eb & _). unfold callFn.
      eexists. cbn [eval]. rewrite Hx, Hy. cbn [vfn]. rewrite Ea, Eb. split; [reflexivity|]. apply rep_pack.
    - destruct (Hint eq_refl) as [-> ->]. apply gives_int; [exact Hword|].
      unfold callFn. cbn [eval]. rewrite Hx, Hy. reflexivity. }
  3-4: apply gives_int; [exact Hword|]; rewrite (eval_bool_cast _ _ (Hrel _ Ht)); reflexivity.
  all: destruct (Hint Ht) as [-> ->]; apply gives_int; [exact Hword|].
  4: apply (eval_shift mem e _ _ a b false); assumption.
  4: apply (eval_shift mem e _ _ a b true); assumption.
  1: unfold divGuard; rewrite (eval_guard mem e div vdiv _ _ a b Hx Hy) by reflexivity; cbn [vdiv]; unfold alu; cbn; destruct (i32 b =? 0); reflexivity.
  1: unfold modGuard; rewrite (eval_guard mem e mod_ vmod _ _ a b Hx Hy) by reflexivity; cbn [vmod]; unfold alu; cbn; destruct (i32 b =? 0); reflexivity.
  all: unfold bxor, bor, band; cbn [eval]; rewrite Hx, Hy; reflexivity.
Qed.

Lemma ternary_code op d ns n args W :
  n_op n = op -> arity op = 3 -> is_number_type d = true -> n_dtype n = d -> Z.of_nat (length (n_sources n)) = 3 ->
  types_ok ns n -> (forall k, word_ok (W k)) -> args_rep ns e n args W ->
  gives_word (exprALU ns n args) d (alu op d (in_type ns n) (W 0%nat) (W 1%nat) (W 2%nat)).
Proof using.
  intros Eop Har Hnum Ed Hlen Hty HW Hargs. unfold exprALU. rewrite Eop.
  destruct (n_sources n) as [|s0 [|s1 [|s2 ss]]] eqn:Es; try discriminate Hlen.
  assert (ss = []) as -> by (destruct ss; [reflexivity|simpl in Hlen; lia]).
  unfold args_rep in Hargs. rewrite Es in Hargs.
  destruct (Hargs 0%nat s0 eq_refl) as (v0 & H0 & R0), (Hargs 1%nat s1 eq_refl) as (v1 & H1 & R1), (Hargs 2%nat s2 eq_refl) as (v2 & H2 & R2).
  assert (Hd : d <> DNone) by (intros ->; discriminate Hnum).
  unfold types_ok in Hty. rewrite Eop, Es, Ed in Hty. destruct op; try discriminate Har.
  - injection Hty as E0 E1 E2. rewrite E0 in R0. rewrite E1 in R1. rewrite E2 in R2.
    apply rep_int in R0 as [-> _]; [|discriminate]. cbn [as_val] in H0.
    assert (Ew : alu WHERE d (in_type ns n) (W 0%nat) (W 1%nat) (W 2%nat) = if negb (i32 (W 0%nat) =? 0) then W 1%nat else W 2%nat) by reflexivity.
    rewrite Ew. unfold gives_word, sel, rel, iconst, ref. cbn [eval]. rewrite H0. change (int_literal 0) with (Some (VI 0)).
    cbn [vrel int_rel]. change (i32 0) with 0. destruct (i32 (W 0%nat) =? 0); cbn [negb]; [exists v2|exists v1]; auto.
  - destruct Hty as [Et Hall]. set (t := in_type ns n) in *. cbn [op_type] in Et.
    inversion Hall as [|? ? E0 Hall1]; subst. inversion Hall1 as [|? ? E1 Hall2]; subst. inversion Hall2 as [|? ? E2 _]; subst.
    rewrite E0 in R0. rewrite E1 in R1. rewrite E2 in R2. fold t in Hd, R0, R1, R2. rewrite Et in *.
    destruct (varith_rep MUL t v0 v1 _ _ ltac:(right; reflexivity) Hd R0 R1) as (p & Hp & Rp).
    destruct (varith_rep ADD t p v2 _ _ ltac:(left; reflexivity) Hd Rp R2) as (s & Hs & Rs).
    exists s. unfold add, mul, ref. cbn [eval]. rewrite H0, H1, H2. cbn [float_of_op int_of_op] in Hp, Hs. rewrite Hp.
    split; [exact Hs|]. eapply weq_trans_rep; [exact Rs|]. apply alu_mac; apply HW.
Qed.

(** The expression of a node has the type and the value that the tape
    computes from the same operands. *)
Lemma exprALU_correct ns n args W :
  is_number_type (n_dtype n) = true -> Z.of_nat (length (n_sources n)) = arity (n_op n) -> types_ok ns n ->
  (forall k, word_ok (W k)) -> args_rep ns e n args W ->
  (n_op n = CAST -> castable (in_type ns n) (n_dtype n) (W 0%nat) = true) ->
  gives_word (exprALU ns n args) (n_dtype n) (alu (n_op n) (n_dtype n) (in_type ns n) (W 0%nat) (W 1%nat) (W 2%nat)).
Proof using.
  intros Hnum Har Hty HW Hargs Hcast. pose proof Hargs as Hall. unfold args_rep in Hargs.
  destruct (decide (arity (n_op n) = 3)) as [H3|H3]; [apply ternary_code; auto; lia|].
  assert (Hplain : op_type (n_op n) (in_type ns n) (n_dtype n) /\
    Forall (fun s => n_dtype (get ns s) = in_type ns n) (n_sources n)).
  { unfold types_ok in Hty. destruct (n_op n); exact Hty || (exfalso; apply H3; reflexivity). }
  destruct Hplain as [Hot Hts]. rewrite Forall_forall in Hts.
  assert (Harg : forall k s, n_sources n !! k = Some s ->
    exists v, eval mem e (ref (nth k args ""%string)) = Some v /\ rep (in_type ns n) v (W k)).
  { intros k s Hk. destruct (Hargs k s Hk) as (v & Hv & Rv). exists v. split; [exact Hv|].
    rewrite (Hts s) in Rv by (eapply list_elem_of_lookup_2, Hk). exact Rv. }
  destruct (n_sources n) as [|s0 [|s1 ss]] eqn:Es.
  - destruct (n_op n); first [discriminate Har|contradiction].
  - destruct (Harg 0%nat s0 eq_refl) as (v & Hv & Rv).
    eapply unary_code; eauto; try (rewrite Es; discriminate).
  - destruct (Harg 0%nat s0 eq_refl) as (v0 & H0 & R0), (Harg 1%nat s1 eq_refl) as (v1 & H1 & R1).
    eapply binary_code; eauto. destruct (n_op n); simpl in *; first [reflexivity|lia].
Qed.
End alu_code.
