(* ===== verification/Emits.v ===== *)
(** * What the writer emits (src/x/ndarray/code.go)

    A judgement on the methods of the writer: the names they make are fresh,
    and the statements they emit, run by one thread, end in an environment
    with a given property.  The file proves it of the code that computes
    offsets and validity flags, for views, trackers and chains, against the
    walk that the CPU tape does at the same cell. *)
From Stdlib Require Import ZArith Lia DecimalString DecimalZ.
From stdpp Require Import base numbers option list strings gmap.
From S2P Require Import Prelude Float Alu Shape View Tracker Expr Rewrite Optimize Flatten Cpu Kernel Code Shader.

Local Open Scope Z_scope.

(** ** Names *)

Lemma Itoa_back z : option_map Z.of_int (NilZero.int_of_string (Itoa z)) = Some z.
Proof.
  unfold Itoa. assert (Hn : Z.to_int z <> Decimal.Pos Decimal.Nil /\ Z.to_int z <> Decimal.Neg Decimal.Nil).
  { split; intros E; pose proof (DecimalZ.of_to z) as K; rewrite E in K; vm_compute in K; subst z; discriminate E. }
  rewrite NilZero.isi by apply Hn. cbn [option_map]. rewrite DecimalZ.of_to. reflexivity.
Qed.

#[export] Instance Itoa_inj : Inj (=) (=) Itoa.
Proof. intros x y E. pose proof (Itoa_back x) as Hx. rewrite E, Itoa_back in Hx. congruence. Qed.

Lemma Atoi_Itoa z : -9223372036854775808 <= z <= 9223372036854775807 -> Atoi (Itoa z) = Some z.
Proof.
  intros H. unfold Atoi. rewrite Itoa_back.
  destruct (Z.leb_spec (-9223372036854775808) z), (Z.leb_spec z 9223372036854775807); try lia. reflexivity.
Qed.

Lemma Itoa_start z : exists a s, Itoa z = String a s /\ numeral_start a = true.
Proof.
  unfold Itoa, NilZero.string_of_int. destruct (Z.to_int z) as [d|d].
  - destruct d; cbn; eexists _, _; split; reflexivity.
  - eexists _, _. split; reflexivity.
Qed.

Lemma refOrInt_Itoa z : -9223372036854775808 <= z <= 9223372036854775807 -> refOrInt (Itoa z) = iconst z.
Proof.
  intros H. pose proof (Atoi_Itoa z H) as K. destruct (Itoa_start z) as (a & s & E & Ha). rewrite E in *.
  unfold refOrInt. rewrite Ha, K. reflexivity.
Qed.

(** The prefixes of the names a writer makes. *)
Definition prefixes : list string := ["t"; "ok"; "p"; "m"; "c"; "u"]%string.

(** A made name with its number. *)
Definition made (n : string) (j : Z) : Prop := exists p, p ∈ prefixes /\ n = p +:+ Itoa j.

Lemma made_inj n j j' : made n j -> made n j' -> j = j'.
Proof.
  intros (p & Hp & ->) (p' & Hp' & E). apply (inj Itoa).
  repeat (apply elem_of_cons in Hp as [->|Hp]; [|]); [..|inversion Hp];
    (repeat (apply elem_of_cons in Hp' as [->|Hp']; [|]); [..|inversion Hp']); (discriminate E || (injection E as E; exact E)).
Qed.

Lemma made_ref n j : made n j -> refOrInt n = ref n.
Proof.
  intros (p & Hp & ->). repeat (apply elem_of_cons in Hp as [->|Hp]; [reflexivity|]). inversion Hp.
Qed.

Lemma made_not_true n j : made n j -> n <> "true"%string.
Proof.
  intros (p & Hp & ->) E. destruct (Itoa_start j) as (a & s & Ej & Ha). rewrite Ej in E.
  repeat (apply elem_of_cons in Hp as [->|Hp];
    [solve [discriminate E|injection E as Ea _; rewrite Ea in Ha; discriminate Ha]|]). inversion Hp.
Qed.

(** ** What a method emits *)

(** The names bound since number [k]. *)
Record extends (k : Z) (w : codeWriter) (e : env) (w' : codeWriter) (e' : env) : Prop := {
  g_rest : rest w' = rest w;
  g_next : w_next w <= w_next w';
  g_sub : e ⊆ e';
  g_new : forall n, is_Some (e' !! n) -> is_Some (e !! n) \/ exists j, made n j /\ k < j <= w_next w'
}.

(** The names that are still to be made are not bound. *)
Definition fresh (w : codeWriter) (e : env) : Prop := forall n j, made n j -> w_next w < j -> e !! n = None.

Lemma extends_refl k w e : extends k w e w e.
Proof. split; auto with lia. Qed.

Lemma extends_trans k w e w1 e1 w2 e2 : extends k w e w1 e1 -> extends k w1 e1 w2 e2 -> extends k w e w2 e2.
Proof.
  intros [R1 N1 S1 A1] [R2 N2 S2 A2]. split; [congruence|lia|etransitivity; eassumption|].
  intros n Hn. destruct (A2 n Hn) as [H|H]; [|auto]. destruct (A1 n H) as [H1|(j & Hj & Hb)]; [auto|].
  right. exists j. split; [exact Hj|lia].
Qed.

Lemma extends_weaken k k' w e w' e' : k <= k' -> extends k' w e w' e' -> extends k w e w' e'.
Proof.
  intros Hk [R N S A]. split; auto. intros n Hn. destruct (A n Hn) as [H|(j & Hj & Hb)]; [auto|].
  right. exists j. split; [exact Hj|lia].
Qed.

Lemma extends_fresh k w e w' e' : fresh w e -> extends k w e w' e' -> fresh w' e'.
Proof.
  intros Hf [_ N _ A] n j Hj Hlt. destruct (e' !! n) as [v|] eqn:En; [|reflexivity].
  destruct (A n) as [[v' H]|(j' & Hj' & Hb)]; [rewrite En; eauto| |].
  - rewrite (Hf n j Hj) in H by lia. discriminate H.
  - pose proof (made_inj n j j' Hj Hj'). lia.
Qed.

(** A name made before [k] stays unbound. *)
Lemma extends_unbound k w e w' e' n j : extends k w e w' e' -> made n j -> j <= k -> e !! n = None -> e' !! n = None.
Proof.
  intros [_ _ _ A] Hj Hk Hn. destruct (e' !! n) as [v|] eqn:En; [|reflexivity].
  destruct (A n) as [[v' H]|(j' & Hj' & Hb)]; [rewrite En; eauto|congruence|].
  pose proof (made_inj n j j' Hj Hj'). lia.
Qed.

Lemma extends_bind k w e n j v : made n j -> k < j <= w_next w -> e !! n = None ->
  extends k w e w (<[n := v]> e).
Proof.
  intros Hj Hb Hn. split; [reflexivity|lia|apply insert_subseteq, Hn|]. intros n' [v' Hv'].
  destruct (decide (n' = n)) as [->|Hne]; [right; eauto|]. rewrite lookup_insert_ne in Hv' by congruence. left. eauto.
Qed.

Lemma set_body_extends k w e w' e' b : extends k w e w' e' -> extends k w e (set_body b w') e'.
Proof. intros [R N S A]. split; [exact R|exact N|exact S|exact A]. Qed.

Section emission.
Context {E : FloatEnv} (mem : gmap string buffer).

(** Run in [e], what [m] emits ends in an environment with [Q]. *)
Definition emits {A} (k : Z) (w : codeWriter) (e : env) (m : CW A) (Q : A -> codeWriter -> env -> Prop) : Prop :=
  match m w with
  | (Err _, _) => True
  | (Ok a, w') => exists ss e', w_body w' = w_body w ++ ss /\ steps mem e ss = Some e' /\
      extends k w e w' e' /\ Q a w' e'
  end.

Lemma steps_app e s1 s2 : steps mem e (s1 ++ s2) = match steps mem e s1 with Some e' => steps mem e' s2 | None => None end.
Proof using. revert e; induction s1 as [|s s1 IH]; intros e; simpl; [reflexivity|]. destruct (step mem e s); [apply IH|reflexivity]. Qed.

Lemma emits_ret {A} k w e (a : A) (Q : A -> codeWriter -> env -> Prop) : Q a w e -> emits k w e (cw_ret a) Q.
Proof using. intros H. exists [], e. rewrite app_nil_r. split; [reflexivity|]. split; [reflexivity|]. split; [apply extends_refl|exact H]. Qed.

Lemma emits_fail {A} k w e err (Q : A -> codeWriter -> env -> Prop) : emits k w e (cw_fail err) Q.
Proof using. exact I. Qed.

Lemma emits_bind {A B} k w e (m : CW A) (f : A -> CW B) P Q : emits k w e m P ->
  (forall a w1 e1, extends k w e w1 e1 -> P a w1 e1 -> emits k w1 e1 (f a) Q) -> emits k w e (cw_bind m f) Q.
Proof using.
  unfold emits, cw_bind. intros Hm Hf. destruct (m w) as [[a|err] w1]; [|exact I].
  destruct Hm as (s1 & e1 & B1 & R1 & G1 & HP). specialize (Hf a w1 e1 G1 HP).
  destruct (f a w1) as [[b|err] w2]; [|exact I]. destruct Hf as (s2 & e2 & B2 & R2 & G2 & HQ).
  exists (s1 ++ s2), e2. split; [rewrite B2, B1, app_assoc; reflexivity|]. split; [rewrite steps_app, R1; exact R2|].
  split; [eapply extends_trans; eassumption|exact HQ].
Qed.

Lemma emits_get {A B} k w e (f : codeWriter -> A) (g : A -> CW B) Q :
  emits k w e (g (f w)) Q -> emits k w e (cw_bind (cw_get f) g) Q.
Proof using. exact (fun H => H). Qed.

Lemma emits_weaken {A} k k' w e (m : CW A) (P Q : A -> codeWriter -> env -> Prop) : k <= k' -> emits k' w e m P ->
  (forall a w' e', extends k' w e w' e' -> P a w' e' -> Q a w' e') -> emits k w e m Q.
Proof using.
  unfold emits. intros Hk Hm H. destruct (m w) as [[a|err] w']; [|exact I].
  destruct Hm as (ss & e' & B & R & G & HP). exists ss, e'. split; [exact B|]. split; [exact R|].
  split; [eapply extends_weaken; eassumption|eauto].
Qed.

(** A new name that is not bound yet. *)
Lemma emits_name k w e p (Q : string -> codeWriter -> env -> Prop) : fresh w e -> p ∈ prefixes ->
  (forall n w', made n (w_next w') -> w_next w' = w_next w + 1 -> rest w' = rest w -> e !! n = None -> fresh w' e -> Q n w' e) ->
  emits k w e (name p) Q.
Proof using.
  intros Hf Hp H. unfold emits, name, cw_bind, cw_set, cw_get, cw_ret. cbv iota beta.
  exists [], e. cbn [w_body set_next]. rewrite app_nil_r. split; [reflexivity|]. split; [reflexivity|].
  assert (Hm : made (p +:+ Itoa (w_next w + 1)) (w_next w + 1)) by (exists p; auto).
  split; [split; [reflexivity|cbn; lia|reflexivity|auto]|]. apply H; [exact Hm|reflexivity|reflexivity| |].
  - eapply Hf; [exact Hm|lia].
  - intros n j Hj Hlt. apply (Hf n j Hj). cbn in Hlt. lia.
Qed.

(** A statement that assigns. *)
Lemma emits_step k w e s e' (Q : unit -> codeWriter -> env -> Prop) : step mem e s = Some e' ->
  extends k w e w e' -> (forall w', rest w' = rest w -> w_next w' = w_next w -> Q tt w' e') -> emits k w e (emit s) Q.
Proof using.
  intros Hs Hg H. exists [s], e'. split; [reflexivity|]. split; [cbn [steps]; rewrite Hs; reflexivity|].
  split; [apply set_body_extends, Hg|]. apply H; reflexivity.
Qed.

Lemma step_decl e d B n rhs v : e !! n = None -> eval mem e rhs = Some v -> declared d B v = true ->
  step mem e (StmtDecl d B n rhs) = Some (<[n := v]> e).
Proof using. intros Hn Hv Hd. cbn [step]. rewrite Hn, Hv, Hd. reflexivity. Qed.

(** A new name bound at once. *)
Lemma emits_declare {A} k w e p d B (rhs : Expr) v (f : string -> CW A) Q : fresh w e -> k <= w_next w -> p ∈ prefixes ->
  eval mem e rhs = Some v -> declared d B v = true ->
  (forall n w1, made n (w_next w1) -> w_next w1 = w_next w + 1 -> rest w1 = rest w -> e !! n = None ->
     extends k w e w1 (<[n := v]> e) -> fresh w1 (<[n := v]> e) -> emits k w1 (<[n := v]> e) (f n) Q) ->
  emits k w e (cw_bind (name p) (fun n => cw_bind (emit (StmtDecl d B n rhs)) (fun _ => f n))) Q.
Proof using.
  intros Hf Hk Hp Hv Hd H. eapply emits_bind.
  { apply (emits_name k w e p (fun n w' e' => e' = e /\ made n (w_next w') /\ w_next w' = w_next w + 1 /\ rest w' = rest w /\ e !! n = None));
      auto 10. }
  intros n w1 e1 G1 (-> & Hm & Hn & Hr & Hu). eapply emits_bind.
  { apply (emits_step k w1 e _ (<[n := v]> e) (fun _ w' e' => e' = <[n := v]> e /\ rest w' = rest w1 /\ w_next w' = w_next w1)).
    - apply step_decl; assumption.
    - apply (extends_bind k w1 e n (w_next w1)); [exact Hm|lia|exact Hu].
    - auto. }
  intros [] w2 e2 G2 (-> & Hr2 & Hn2). apply H.
  - rewrite Hn2. exact Hm.
  - congruence.
  - congruence.
  - exact Hu.
  - eapply extends_trans; eassumption.
  - eapply extends_fresh; [|exact G2]. eapply extends_fresh; [exact Hf|exact G1].
Qed.
End emission.

(** ** Coordinates *)

Section coordinates.
Context {E : FloatEnv} (mem : gmap string buffer).

(** [n] names the int [w], as an operand; as a variable; a predicate. *)
Definition word_of (e : env) (n : string) (w : Z) : Prop := eval mem e (refOrInt n) = Some (VI w) /\ word_ok w.
Definition scalar (e : env) (n : string) (w : Z) : Prop := e !! n = Some (VI w) /\ refOrInt n = ref n /\ word_ok w.
Definition flag (e : env) (n : string) (b : bool) : Prop := eval mem e (asBool n) = Some (VB b).

Lemma lookup_sub (e e' : env) (n : string) v : e ⊆ e' -> e !! n = Some v -> e' !! n = Some v.
Proof using. intros H Hn. eapply lookup_weaken; eassumption. Qed.

Lemma word_of_sub (e e' : env) n w : e ⊆ e' -> word_of e n w -> word_of e' n w.
Proof using.
  intros He [H Hw]. split; [|exact Hw]. revert H. unfold refOrInt. destruct n as [|a s]; [exact (fun H => H)|].
  destruct (numeral_start a); [destruct (Atoi _); [exact (fun H => H)|]|]; apply lookup_sub, He.
Qed.

Lemma words_sub (e e' : env) cs ws : e ⊆ e' -> Forall2 (word_of e) cs ws -> Forall2 (word_of e') cs ws.
Proof using. intros He H. eapply Forall2_impl; [exact H|]. intros n w. apply word_of_sub, He. Qed.

Lemma scalar_sub (e e' : env) n w : e ⊆ e' -> scalar e n w -> scalar e' n w.
Proof using. intros He (H & Hr & Hw). split; [eapply lookup_sub; eassumption|auto]. Qed.

Lemma flag_sub (e e' : env) n b : e ⊆ e' -> flag e n b -> flag e' n b.
Proof using. intros He. unfold flag, asBool. case_bool_decide; [exact (fun H => H)|apply lookup_sub, He]. Qed.

Lemma scalar_word e n w : scalar e n w -> word_of e n w.
Proof using. intros (H & Hr & Hw). split; [rewrite Hr; exact H|exact Hw]. Qed.

Lemma made_scalar e n j w : made n j -> word_ok w -> scalar (<[n := VI w]> e) n w.
Proof using. intros Hj Hw. split; [apply lookup_insert_eq|]. split; [eapply made_ref, Hj|exact Hw]. Qed.

Lemma word_of_zero e : word_of e "0" 0.
Proof using. split; [reflexivity|apply zero_ok]. Qed.

(** *** A cell number in int32 *)

Definition small (z : Z) : Prop := 0 <= z < two31.

Lemma i32_small z : small z -> i32 (u32 z) = z.
Proof using. intros H. apply i32_u32. unfold small, two31 in *. lia. Qed.

Lemma small_int32 z : small z -> int_literal z = Some (VI (u32 z)).
Proof using.
  unfold small, int_literal, two31. intros H. rewrite (proj2 (Z.leb_le _ z)), (proj2 (Z.ltb_lt z _)) by lia. reflexivity.
Qed.

Definition radix (s : Shape) (n : Z) : Z := snd (unravel_acc s n).

Lemma unravel_step_eq d s n : unravel (d :: s) n = (if d =? 0 then 0 else Z.rem (Z.quot n (radix s n)) d) :: unravel s n /\
  radix (d :: s) n = if d =? 0 then radix s n else radix s n * d.
Proof using.
  unfold unravel, radix. cbn [unravel_acc]. destruct (unravel_acc s n) as [cs acc]. cbn [fst snd]. destruct (d =? 0); auto.
Qed.

Lemma radix_pos s n : nonneg s -> 0 < radix s n.
Proof using.
  induction 1 as [|d s Hd Hs IH]; [reflexivity|]. rewrite (proj2 (unravel_step_eq d s n)).
  destruct (Z.eqb_spec d 0); [exact IH|nia].
Qed.

Lemma small_quot n a : small n -> 0 < a -> small (Z.quot n a).
Proof using.
  unfold small. intros Hn Ha. rewrite Z.quot_div_nonneg by lia.
  split; [apply Z.div_pos; lia|]. apply Z.div_lt_upper_bound; nia.
Qed.

Lemma small_rem n d : small n -> 0 < d -> small (Z.rem n d).
Proof using.
  unfold small. intros Hn Hd. rewrite Z.rem_mod_nonneg by lia. pose proof (Z.mod_pos_bound n d Hd).
  pose proof (Z.mod_le n d). lia.
Qed.

(** [rem % s] and [rem / s] *)
Lemma eval_divmod e rem r s : scalar e rem r -> small s -> s <> 0 ->
  eval mem e (mod_ (ref rem) (iconst s)) = Some (VI (u32 (Z.rem (i32 r) s))) /\
  eval mem e (div (ref rem) (iconst s)) = Some (VI (u32 (Z.quot (i32 r) s))).
Proof using.
  intros (Hr & _ & _) Hs Hz. unfold mod_, div, ref, iconst. cbn [eval]. rewrite Hr, (small_int32 s Hs).
  cbn [vmod vdiv]. rewrite (i32_small s Hs). destruct (Z.eqb_spec s 0); [contradiction|auto].
Qed.

(** What the coordinates of the suffix [sfx] hold while [rem] holds the rest
    of the cell number. *)
Definition unravelled (sfx : Shape) (r : Z) (ws : list Z) (n : Z) : Prop :=
  r = u32 (Z.quot n (radix sfx n)) /\ ws = map u32 (unravel sfx n).

Lemma unravelled_step d sfx r ws n : small n -> nonneg sfx -> 0 <= d -> unravelled sfx r ws n ->
  unravelled (d :: sfx) (if d <=? 1 then r else u32 (Z.quot (i32 r) d))
    ((if d <=? 1 then 0 else u32 (Z.rem (i32 r) d)) :: ws) n.
Proof using.
  intros Hn Hs Hd [-> ->]. destruct (unravel_step_eq d sfx n) as [E1 E2]. pose proof (radix_pos sfx n Hs) as Hp.
  rewrite i32_small by (apply small_quot; assumption). unfold unravelled. rewrite E1, E2.
  destruct (Z.leb_spec d 1), (Z.eqb_spec d 0); try lia.
  - split; [reflexivity|]. reflexivity.
  - assert (d = 1) as -> by lia. rewrite Z.mul_1_r, Z.rem_1_r. split; reflexivity.
  - rewrite Z.quot_quot by lia. split; reflexivity.
Qed.

Lemma unravel_loop_emits rshape : forall sfx rem r cs ws k w e, fresh w e -> k <= w_next w ->
  Forall small rshape -> nonneg sfx -> scalar e rem r -> Forall2 (word_of e) cs ws ->
  emits mem k w e (unravel_loop rshape rem cs) (fun cs' w' e' => exists ws', Forall2 (word_of e') cs' ws' /\
    forall n, small n -> unravelled sfx r ws n -> ws' = map u32 (unravel (rev rshape ++ sfx) n)).
Proof using.
  induction rshape as [|s rshape IH]; intros sfx rem r cs ws k w e Hf Hk Hsm Hnn Hrem Hcs; cbn [unravel_loop].
  { apply emits_ret. exists ws. split; [exact Hcs|]. intros n Hn [_ Hw]. exact Hw. }
  inversion Hsm as [|? ? Hs Hsm']; subst. assert (Hnn' : nonneg (s :: sfx)) by (constructor; [apply Hs|exact Hnn]).
  assert (Erev : rev (s :: rshape) ++ sfx = rev rshape ++ s :: sfx) by (simpl; rewrite <- app_assoc; reflexivity).
  rewrite Erev. destruct (Z.leb_spec s 1) as [Hle|Hgt].
  - eapply emits_weaken; [reflexivity|apply (IH (s :: sfx) rem r ("0"%string :: cs) (0 :: ws)); auto|].
    { constructor; [apply word_of_zero|exact Hcs]. }
    intros cs' w' e' _ (ws' & Hc' & Hw'). exists ws'. split; [exact Hc'|]. intros n Hn Hu. apply (Hw' n Hn).
    pose proof (unravelled_step s sfx r ws n Hn Hnn (proj1 Hs) Hu) as K. destruct (Z.leb_spec s 1); [exact K|lia].
  - assert (Hz : s <> 0) by lia. destruct (eval_divmod e rem r s Hrem Hs Hz) as [Em _].
    eapply emits_declare; [exact Hf|exact Hk|repeat constructor|exact Em|reflexivity|].
    intros c w1 Hc Hn1 Hr1 Hu1 G1 Hf1. set (e1 := <[c := _]> e) in *.
    assert (Hcs1 : Forall2 (word_of e1) (c :: cs) (u32 (Z.rem (i32 r) s) :: ws)).
    { constructor; [apply scalar_word; eapply made_scalar; [exact Hc|apply u32_ok]|]. eapply words_sub; [apply G1|exact Hcs]. }
    assert (Hstep : forall n, small n -> unravelled sfx r ws n ->
      unravelled (s :: sfx) (u32 (Z.quot (i32 r) s)) (u32 (Z.rem (i32 r) s) :: ws) n).
    { intros n Hn Hu. pose proof (unravelled_step s sfx r ws n Hn Hnn (proj1 Hs) Hu) as K.
      destruct (Z.leb_spec s 1); [lia|exact K]. }
    destruct rshape as [|s' rshape].
    + apply emits_ret. eexists. split; [exact Hcs1|]. intros n Hn Hu. apply (Hstep n Hn Hu).
    + assert (Hrem1 : scalar e1 rem r) by (eapply scalar_sub; [apply G1|exact Hrem]).
      destruct (eval_divmod e1 rem r s Hrem1 Hs Hz) as [_ Ed].
      eapply emits_declare; [exact Hf1|lia|repeat constructor|exact Ed|reflexivity|].
      intros u w2 Hu2 Hn2 Hr2 Huu G2 Hf2.
      eapply emits_weaken; [reflexivity|apply (IH (s :: sfx) u (u32 (Z.quot (i32 r) s)) (c :: cs) (u32 (Z.rem (i32 r) s) :: ws)); auto; [lia| |]|].
      * eapply made_scalar; [exact Hu2|apply u32_ok].
      * eapply words_sub; [apply G2|exact Hcs1].
      * intros cs' w' e' _ (ws' & Hc' & Hw'). exists ws'. split; [exact Hc'|]. intros n Hn Hu. apply (Hw' n Hn), Hstep; assumption.
Qed.

(** [unravel] of a shape; [rem] holds a cell number, or anything. *)
Lemma unravel_emits shape rem r k w e : fresh w e -> k <= w_next w -> Forall small shape -> scalar e rem r ->
  emits mem k w e (unravel_code shape rem) (fun cs w' e' => exists ws, Forall2 (word_of e') cs ws /\
    forall n, small n -> r = u32 n -> ws = map u32 (unravel shape n)).
Proof using.
  intros Hf Hk Hs Hr. unfold unravel_code. eapply emits_weaken; [reflexivity|apply (unravel_loop_emits (rev shape) [] rem r [] []); auto|].
  - apply Forall_rev, Hs.
  - constructor.
  - intros cs w' e' _ (ws & Hc & Hw). exists ws. split; [exact Hc|]. intros n Hn Er. rewrite rev_involutive, app_nil_r in Hw.
    apply (Hw n Hn). split; [|reflexivity]. cbn. rewrite Z.quot_1_r. exact Er.
Qed.
End coordinates.

(** ** Views *)

(** The writer's arithmetic fits in int32 at the coordinates [c], from the top
    view down: the constants, the coordinates and every offset that is read
    or unravelled. *)
Definition view_fits (v : view) : bool :=
  int32 (v_offset v) && forallb int32 (v_strides v) &&
  forallb (fun m => int32 (fst m) && int32 (snd m)) (opt_list (v_mask v)) &&
  forallb (fun s => (0 <=? s) && (s <? two31)) (v_shape v).

Fixpoint views_fit (vs : list view) (c : list Z) : bool :=
  match vs with
  | [] => true
  | v :: below =>
      forallb int32 c &&
      match addr v c with
      | None => true
      | Some off =>
          match below with
          | [] => int32 off
          | u :: _ => (0 <=? off) && (off <? two31) && views_fit below (unravel (v_shape u) off)
          end
      end
  end.

(** The views under an offset. *)
Definition below_fit (below : list view) (off : Z) : bool :=
  match below with
  | [] => int32 off
  | u :: _ => (0 <=? off) && (off <? two31) && views_fit below (unravel (v_shape u) off)
  end.

(** A tracker that has views, with constants that fit; a tracker of nil
    shape has rank 0. *)
Definition tracker_fits (t : Tracker) : bool :=
  negb (bool_decide (t_views t = [])) && forallb view_fits (t_views t) &&
  (negb (t_nil t) || bool_decide (t_dims t = [])).

Definition cell_fits (t : Tracker) (c : list Z) : bool := views_fit (rev (t_views t)) c.

Section views.
Context {E : FloatEnv} (mem : gmap string buffer).

(** A name that is bound and then updated by a run of statements. *)
Lemma emits_accumulate {A} k w e p d B (rhs : Expr) v (mid : string -> CW unit) (ss : string -> list Stmt) v' (f : string -> CW A) Q :
  fresh w e -> k <= w_next w -> p ∈ prefixes -> eval mem e rhs = Some v -> declared d B v = true ->
  (forall n w, mid n w = (Ok tt, set_body (w_body w ++ ss n) w)) ->
  (forall n j, made n j -> e !! n = None -> steps mem (<[n := v]> e) (ss n) = Some (<[n := v']> e)) ->
  (forall n w1, made n (w_next w1) -> w_next w1 = w_next w + 1 -> rest w1 = rest w -> e !! n = None ->
     extends k w e w1 (<[n := v']> e) -> fresh w1 (<[n := v']> e) -> emits mem k w1 (<[n := v']> e) (f n) Q) ->
  emits mem k w e (cw_bind (name p) (fun n => cw_bind (emit (StmtDecl d B n rhs)) (fun _ => cw_bind (mid n) (fun _ => f n)))) Q.
Proof using.
  intros Hf Hk Hp Hv Hd Hmid Hss H. set (n := p +:+ Itoa (w_next w + 1)).
  assert (Hm : made n (w_next w + 1)) by (exists p; auto).
  assert (Hu : e !! n = None) by (eapply Hf; [exact Hm|lia]).
  set (w1 := set_body ((w_body w ++ [StmtDecl d B n rhs]) ++ ss n) (set_next (w_next w + 1) w)).
  assert (Hg : extends k w e w1 (<[n := v']> e)).
  { apply set_body_extends. destruct (extends_bind k (set_next (w_next w + 1) w) e n (w_next w + 1) v' Hm ltac:(cbn; lia) Hu) as [_ _ G1 G2].
    split; [reflexivity|cbn; lia|exact G1|exact G2]. }
  specialize (H n w1 Hm eq_refl eq_refl Hu Hg (extends_fresh _ _ _ _ _ Hf Hg)).
  assert (Erun : cw_bind (name p) (fun n => cw_bind (emit (StmtDecl d B n rhs)) (fun _ => cw_bind (mid n) (fun _ => f n))) w = f n w1).
  { unfold cw_bind at 1, name, cw_set, cw_get, cw_ret, emit. cbn. fold n. unfold cw_bind. cbn. rewrite Hmid. reflexivity. }
  unfold emits in *. rewrite Erun.
  destruct (f n w1) as [[a|err] w2]; [|exact I]. destruct H as (s2 & e2 & B2 & R2 & G2 & HQ).
  exists (StmtDecl d B n rhs :: ss n ++ s2), e2. split; [rewrite B2; cbn [w_body w1 set_body]; rewrite <- !app_assoc; reflexivity|].
  split; [|split; [eapply extends_trans; eassumption|exact HQ]].
  cbn [steps]. rewrite (step_decl mem e d B n rhs v Hu Hv Hd), steps_app, (Hss n _ Hm Hu). exact R2.
Qed.

Fixpoint offset_stmts (off : string) (coords : list string) (strides : list Z) : list Stmt :=
  match coords, strides with
  | c :: coords', st :: strides' =>
      (if st =? 0 then [] else [StmtAdd off (mul (refOrInt c) (iconst st))]) ++ offset_stmts off coords' strides'
  | _, _ => []
  end.

Lemma view_offset_eq off coords : forall strides w,
  view_offset off coords strides w = (Ok tt, set_body (w_body w ++ offset_stmts off coords strides) w).
Proof using.
  assert (Hnil : forall w, set_body (w_body w ++ []) w = w) by (intros []; unfold set_body; cbn; rewrite app_nil_r; reflexivity).
  induction coords as [|c coords IH]; intros strides w; cbn [view_offset offset_stmts]; [unfold cw_ret; rewrite Hnil; reflexivity|].
  destruct strides as [|st strides]; [unfold cw_ret; rewrite Hnil; reflexivity|].
  unfold cw_bind. destruct (st =? 0); cbn [cw_ret emit cw_set]; unfold cw_ret, emit, cw_set; rewrite IH; [reflexivity|].
  cbn. rewrite <- app_assoc. reflexivity.
Qed.

Fixpoint mask_stmts (valid : string) (coords : list string) (mask : list (Z * Z)) : list Stmt :=
  match coords, mask with
  | c :: coords', (lo, hi) :: mask' =>
      StmtSet valid (land (land (ref valid) (rel RelGE (refOrInt c) (iconst lo))) (rel RelLT (refOrInt c) (iconst hi)))
      :: mask_stmts valid coords' mask'
  | _, _ => []
  end.

Lemma view_mask_eq valid coords : forall mask w,
  view_mask valid coords mask w = (Ok tt, set_body (w_body w ++ mask_stmts valid coords mask) w).
Proof using.
  assert (Hnil : forall w, set_body (w_body w ++ []) w = w) by (intros []; unfold set_body; cbn; rewrite app_nil_r; reflexivity).
  induction coords as [|c coords IH]; intros mask w; cbn [view_mask mask_stmts]; [unfold cw_ret; rewrite Hnil; reflexivity|].
  destruct mask as [|[lo hi] mask]; [unfold cw_ret; rewrite Hnil; reflexivity|].
  unfold cw_bind, emit, cw_set. rewrite IH. cbn. rewrite <- app_assoc. reflexivity.
Qed.

(** The word of an offset, and the flag of a mask, after the statements. *)
Fixpoint offset_word (o : Z) (ws strides : list Z) : Z :=
  match ws, strides with
  | w :: ws', st :: strides' =>
      offset_word (if st =? 0 then o else u32 (i32 o + i32 (u32 (i32 w * i32 (u32 st))))) ws' strides'
  | _, _ => o
  end.
Fixpoint mask_flag (b : bool) (ws : list Z) (mask : list (Z * Z)) : bool :=
  match ws, mask with
  | w :: ws', (lo, hi) :: mask' => mask_flag (b && (lo <=? i32 w) && (i32 w <? hi)) ws' mask'
  | _, _ => b
  end.

Lemma int32_literal z : int32 z = true -> int_literal z = Some (VI (u32 z)) /\ i32 (u32 z) = z.
Proof using. unfold int32, int_literal. intros H. rewrite H. split; [reflexivity|]. apply i32_u32. unfold two31 in *. lia. Qed.

Lemma offset_word_ok ws : forall strides o, word_ok o -> word_ok (offset_word o ws strides).
Proof using.
  induction ws as [|w ws IH]; intros strides o Ho; [exact Ho|]. destruct strides as [|st strides]; [exact Ho|].
  cbn [offset_word]. apply IH. destruct (st =? 0); [exact Ho|apply u32_ok].
Qed.

Lemma i32_u32_cong z : exists k, i32 (u32 z) = z + k * two32.
Proof using.
  destruct (i32_mod (u32 z) (u32_ok z)) as [k Hk]. rewrite Hk. exists (k - z / two32). unfold u32.
  pose proof (Z.div_mod z two32 ltac:(discriminate)). lia.
Qed.

Lemma offset_word_dot c : forall strides z, offset_word (u32 z) (map u32 c) strides = u32 (z + dot c strides).
Proof using.
  induction c as [|x c IH]; intros strides z; cbn [map offset_word dot]; [f_equal; lia|].
  destruct strides as [|st strides]; [f_equal; lia|]. destruct (Z.eqb_spec st 0) as [->|Hst].
  - rewrite IH. f_equal. lia.
  - assert (Es : u32 (i32 (u32 z) + i32 (u32 (i32 (u32 x) * i32 (u32 st)))) = u32 (z + x * st)).
    { destruct (i32_u32_cong (i32 (u32 x) * i32 (u32 st))) as [k ->], (i32_u32_cong z) as [k1 ->],
        (i32_u32_cong x) as [k2 ->], (i32_u32_cong st) as [k3 ->].
      apply (u32_cong _ _ (k + k1 + x * k3 + k2 * st + k2 * k3 * two32)). ring. }
    rewrite Es, IH. f_equal. lia.
Qed.

Lemma mask_flag_ok c : forall mask b, forallb int32 c = true ->
  mask_flag b (map u32 c) mask = b && mask_ok mask c.
Proof using.
  induction c as [|x c IH]; intros mask b Hc; cbn [map mask_flag].
  { destruct mask as [|[lo hi] mask]; rewrite andb_true_r; reflexivity. }
  apply andb_true_iff in Hc as [Hx Hc]. destruct mask as [|[lo hi] mask]; [rewrite andb_true_r; reflexivity|].
  cbn [mask_ok]. rewrite IH by exact Hc. rewrite (proj2 (int32_literal x Hx)), !andb_assoc. reflexivity.
Qed.

Lemma offset_steps e off coords ws : e !! off = None -> Forall2 (word_of mem e) coords ws ->
  forall strides o, forallb int32 strides = true ->
  steps mem (<[off := VI o]> e) (offset_stmts off coords strides) = Some (<[off := VI (offset_word o ws strides)]> e).
Proof using.
  intros Hu H. induction H as [|c w coords ws [Hc Hw] H IH]; intros strides o Hst; [destruct strides; reflexivity|].
  destruct strides as [|st strides]; [reflexivity|]. cbn [offset_stmts offset_word]. cbn [forallb] in Hst.
  apply andb_true_iff in Hst as [Hs Hst]. destruct (st =? 0); [apply IH, Hst|].
  assert (Hc' : eval mem (<[off := VI o]> e) (refOrInt c) = Some (VI w)).
  { apply (word_of_sub mem e); [apply insert_subseteq, Hu|split; assumption]. }
  cbn [app steps step]. rewrite lookup_insert_eq. unfold mul, iconst. cbn [eval]. rewrite Hc', (proj1 (int32_literal st Hs)).
  cbn [varith]. unfold assign. rewrite lookup_insert_eq. cbn [same_type]. rewrite insert_insert_eq. apply IH, Hst.
Qed.

Lemma mask_steps e valid coords ws : e !! valid = None -> Forall2 (word_of mem e) coords ws ->
  forall mask b, forallb (fun m => int32 (fst m) && int32 (snd m)) mask = true ->
  steps mem (<[valid := VB b]> e) (mask_stmts valid coords mask) = Some (<[valid := VB (mask_flag b ws mask)]> e).
Proof using.
  intros Hu H. induction H as [|c w coords ws [Hc Hw] H IH]; intros mask b Hm; [reflexivity|].
  destruct mask as [|[lo hi] mask]; [reflexivity|]. cbn [mask_stmts mask_flag]. cbn [forallb fst snd] in Hm.
  apply andb_true_iff in Hm as [Hlh Hm]. apply andb_true_iff in Hlh as [Hlo Hhi].
  assert (Hc' : eval mem (<[valid := VB b]> e) (refOrInt c) = Some (VI w)).
  { apply (word_of_sub mem e); [apply insert_subseteq, Hu|split; assumption]. }
  destruct (int32_literal lo Hlo) as [Llo Elo], (int32_literal hi Hhi) as [Lhi Ehi].
  cbn [steps step]. unfold land, rel, ref, iconst. cbn [eval]. rewrite lookup_insert_eq, Hc', Llo, Lhi.
  cbn [vrel int_rel]. rewrite Elo, Ehi.
  assert (Hb : exists b', b' = b && (lo <=? i32 w) && (i32 w <? hi)) by eauto. destruct Hb as [b' Hb]. rewrite <- Hb.
  destruct b; [destruct (lo <=? i32 w); [destruct (i32 w <? hi)|]|]; cbn [andb] in Hb; subst b';
    unfold assign; rewrite lookup_insert_eq; cbn [same_type]; rewrite insert_insert_eq; apply IH, Hm.
Qed.
End views.

Section indexing.
Context {E : FloatEnv} (mem : gmap string buffer).

Lemma flag_true e : flag mem e "true" true.
Proof using. reflexivity. Qed.

Lemma made_flag (e : env) n j b : made n j -> e !! n = Some (VB b) -> flag mem e n b.
Proof using.
  intros Hj Hn. unfold flag, asBool. rewrite bool_decide_false by (eapply made_not_true, Hj). exact Hn.
Qed.

(** What an offset and a flag say of an index computation at the cells whose
    words are [ws]. *)
Definition indexed (ws : list Z) (fits : list Z -> bool) (index : list Z -> Z * bool)
    (r : string * string) (e : env) : Prop :=
  exists o b, scalar e (fst r) o /\ flag mem e (snd r) b /\
    forall c, ws = map u32 c -> fits c = true -> b = snd (index c) /\ (b = true -> o = u32 (fst (index c))).

Lemma indexed_weaken ws fits fits' index r e : (forall c, fits' c = true -> fits c = true) ->
  indexed ws fits index r e -> indexed ws fits' index r e.
Proof using. intros H (o & b & Ho & Hb & K). exists o, b. split; [exact Ho|]. split; [exact Hb|]. intros c Hc Hf. apply K; auto. Qed.

Lemma view_emits v coords ws k w e : fresh w e -> k <= w_next w -> view_fits v = true -> Forall2 (word_of mem e) coords ws ->
  emits mem k w e (view_code v coords) (fun r w' e' => indexed ws (forallb int32) (index v) r e').
Proof using.
  intros Hf Hk Hv Hcs. unfold view_fits in Hv. rewrite !andb_true_iff in Hv. destruct Hv as [[[Hoff Hst] Hmask] _].
  destruct (int32_literal _ Hoff) as [Lo Eo]. unfold view_code. destruct (v_shape v) as [|d s] eqn:Es.
  { eapply emits_declare; [exact Hf|exact Hk|repeat constructor|exact Lo|reflexivity|].
    intros off w1 Hm _ _ _ G1 _. apply emits_ret. exists (u32 (v_offset v)), true. cbn [fst snd].
    split; [eapply made_scalar; [exact Hm|apply u32_ok]|]. split; [reflexivity|]. intros c _ _. unfold index.
    rewrite Es. split; reflexivity. }
  assert (Hidx : forall c, index v c = (v_offset v + dot c (v_strides v), mask_opt_ok (v_mask v) c)).
  { intros c. unfold index. rewrite Es. cbn [length]. rewrite bool_decide_false by discriminate. apply index_loop_spec. }
  apply (emits_accumulate mem k w e "p" I32 false (iconst (v_offset v)) (VI (u32 (v_offset v))) (fun off => view_offset off coords (v_strides v))
    (fun off => offset_stmts off coords (v_strides v)) (VI (offset_word (u32 (v_offset v)) ws (v_strides v))));
    [exact Hf|exact Hk|repeat constructor|exact Lo|reflexivity|intros; apply view_offset_eq|intros n j _ Hn; apply (offset_steps mem e n coords ws Hn Hcs), Hst|].
  intros off w1 Hm Hn1 _ Hu G1 Hf1. set (e1 := <[off := _]> e) in *.
  assert (Ho1 : scalar e1 off (offset_word (u32 (v_offset v)) ws (v_strides v))).
  { eapply made_scalar; [exact Hm|]. apply offset_word_ok, u32_ok. }
  assert (Hcs1 : Forall2 (word_of mem e1) coords ws) by (eapply words_sub; [apply G1|exact Hcs]).
  destruct (v_mask v) as [mask|] eqn:Em.
  - apply (emits_accumulate mem k w1 e1 "m" DNone true ExprTrue (VB true) (fun valid => view_mask valid coords mask)
      (fun valid => mask_stmts valid coords mask) (VB (mask_flag true ws mask)));
      [exact Hf1|lia|repeat constructor|reflexivity|reflexivity|intros; apply view_mask_eq|intros n j _ Hn; apply (mask_steps mem e1 n coords ws Hn Hcs1), Hmask|].
    intros valid w2 Hm2 _ _ Hu2 G2 _. apply emits_ret. eexists _, _. cbn [fst snd].
    split; [eapply scalar_sub; [apply G2|exact Ho1]|]. split; [eapply made_flag; [exact Hm2|apply lookup_insert_eq]|].
    intros c -> Hc. rewrite Hidx, mask_flag_ok, offset_word_dot by exact Hc. split; reflexivity.
  - apply emits_ret. eexists _, true. split; [exact Ho1|]. split; [reflexivity|].
    intros c -> Hc. rewrite Hidx, offset_word_dot. split; reflexivity.
Qed.

(** The conjunction of two flags. *)
Lemma both_emits valid v a b k w e (Q : string -> codeWriter -> env -> Prop) : fresh w e -> k <= w_next w -> flag mem e valid a -> flag mem e v b ->
  (forall n w1 e1, extends k w e w1 e1 -> flag mem e1 n (a && b) -> n <> "true"%string -> Q n w1 e1) ->
  emits mem k w e (both_code valid v) Q.
Proof using.
  intros Hf Hk Ha Hb H. unfold both_code. eapply (emits_declare mem k w e "ok" DNone true _ (VB (a && b))); [exact Hf|exact Hk|repeat constructor| |reflexivity|].
  - unfold land. cbn [eval]. unfold flag in Ha, Hb. rewrite Ha, Hb. destruct a, b; reflexivity.
  - intros n w1 Hm _ _ _ G _. apply emits_ret. apply H; [exact G|eapply made_flag; [exact Hm|apply lookup_insert_eq]|eapply made_not_true, Hm].
Qed.

Lemma small_bool z : (0 <=? z) && (z <? two31) = true -> small z.
Proof using. unfold small. lia. Qed.

Lemma view_fits_dims v : view_fits v = true -> Forall small (v_shape v).
Proof using.
  unfold view_fits. rewrite !andb_true_iff. intros [_ H]. rewrite forallb_forall in H. apply Forall_forall.
  intros s Hs. apply small_bool, H, list_elem_of_In, Hs.
Qed.

(** The views below an offset that is known to be [z] when the flag holds. *)
Lemma views_emits below : forall off valid o b k w e, fresh w e -> k <= w_next w -> forallb view_fits below = true ->
  scalar e off o -> flag mem e valid b ->
  emits mem k w e (views_code below off valid) (fun r w' e' => exists o' b', scalar e' (fst r) o' /\ flag mem e' (snd r) b' /\
    forall z, (b = true -> o = u32 z /\ below_fit below z = true) ->
      b' = snd (indexViews_loop below z b) /\ (b' = true -> o' = u32 (fst (indexViews_loop below z b)))).
Proof using.
  induction below as [|v below IH]; intros off valid o b k w e Hf Hk Hfit Ho Hb; cbn [views_code].
  { apply emits_ret. exists o, b. split; [exact Ho|]. split; [exact Hb|]. intros z Hz. cbn. split; [reflexivity|]. intros Eb. apply Hz, Eb. }
  cbn [forallb] in Hfit. apply andb_true_iff in Hfit as [Hv Hfit].
  eapply emits_bind. { apply (unravel_emits mem (v_shape v) off o k w e Hf Hk (view_fits_dims v Hv) Ho). }
  intros mid w1 e1 G1 (ws & Hmid & Hws). pose proof (extends_fresh _ _ _ _ _ Hf G1) as Hf1.
  eapply emits_bind. { apply (view_emits v mid ws k w1 e1 Hf1); [destruct G1; lia|exact Hv|exact Hmid]. }
  intros [off2 val2] w2 e2 G2 (o2 & b2 & Ho2 & Hb2 & K2). cbn [fst snd] in Ho2, Hb2. pose proof (extends_fresh _ _ _ _ _ Hf1 G2) as Hf2.
  assert (Hb' : flag mem e2 valid b) by (eapply flag_sub; [apply G2|]; eapply flag_sub; [apply G1|exact Hb]).
  eapply emits_bind.
  { apply (both_emits valid val2 b b2 k w2 e2 (fun n _ e' => flag mem e' n (b && b2)) Hf2); [destruct G1, G2; lia|exact Hb'|exact Hb2|auto]. }
  intros both w3 e3 G3 Hboth. eapply emits_weaken; [reflexivity|apply (IH off2 both o2 (b && b2))|].
  - exact (extends_fresh _ _ _ _ _ Hf2 G3).
  - destruct G1, G2, G3; lia.
  - exact Hfit.
  - eapply scalar_sub; [apply G3|exact Ho2].
  - exact Hboth.
  - intros [off' valid'] w' e' _ (o' & b' & Ho' & Hb'' & K). exists o', b'. split; [exact Ho'|]. split; [exact Hb''|].
    intros z Hz. cbn [indexViews_loop]. destruct (index v (unravel (v_shape v) z)) as [z2 ok2] eqn:Ei.
    destruct b; [|cbn [andb] in K |- *; rewrite indexViews_loop_false; destruct (K z2) as [-> _]; [discriminate|];
      rewrite indexViews_loop_false; split; [reflexivity|discriminate]].
    destruct Hz as [-> Hz]; [reflexivity|]. cbn [below_fit views_fit] in Hz. rewrite !andb_true_iff in Hz.
    destruct Hz as [[Hz1 Hz2] [Hc Hrest]]. assert (Hs : small z) by (apply small_bool; rewrite Hz1, Hz2; reflexivity).
    destruct (K2 (unravel (v_shape v) z) (Hws z Hs eq_refl) Hc) as [-> K2']. rewrite Ei in *. cbn [fst snd andb] in *.
    apply K. intros ->. split; [apply K2'; reflexivity|]. unfold addr in Hrest. rewrite Ei in Hrest. exact Hrest.
Qed.
End indexing.

(** ** Trackers and chains at a cell *)

Section cell.
Context {E : FloatEnv} (mem : gmap string buffer).
Context (out : Shape) (gi : Z).
Hypothesis Hout : nonneg out.
Hypothesis Hgi : 0 <= gi < Size out.
Hypothesis Hsize : Size out < two31.

Let own := unravel out gi.

(** The thread has unravelled its cell. *)
Record at_cell (w : codeWriter) (e : env) : Prop := {
  ac_shape : w_outShape w = out;
  ac_i : scalar e "i" (u32 gi);
  ac_coords : Forall2 (word_of mem e) (w_coords w) (map u32 own)
}.

Lemma at_cell_extends k w e w' e' : at_cell w e -> extends k w e w' e' -> at_cell w' e'.
Proof using.
  intros [H1 H2 H3] [R _ S _]. injection R as R1 R2 _ _ _ _ _. split; [congruence|eapply scalar_sub; eassumption|].
  rewrite R1. eapply words_sub; eassumption.
Qed.

Lemma word_of_unique e n a b : word_of mem e n a -> word_of mem e n b -> a = b.
Proof using. intros [Ha _] [Hb _]. congruence. Qed.

Lemma words_unique e cs a b : Forall2 (word_of mem e) cs a -> Forall2 (word_of mem e) cs b -> a = b.
Proof using.
  intros Ha. revert b; induction Ha as [|c x cs a Hc Ha IH]; intros b Hb; inversion Hb; subst; [reflexivity|].
  f_equal; [eapply word_of_unique; eassumption|auto].
Qed.

Lemma words_int32 a b : forallb int32 a = true -> forallb int32 b = true -> map u32 a = map u32 b -> a = b.
Proof using.
  revert b; induction a as [|x a IH]; intros [|y b] Ha Hb Em; try discriminate Em; [reflexivity|].
  cbn [forallb map] in *. apply andb_true_iff in Ha as [Hx Ha], Hb as [Hy Hb]. injection Em as E1 E2.
  f_equal; [|auto]. rewrite <- (proj2 (int32_literal x Hx)), <- (proj2 (int32_literal y Hy)), E1. reflexivity.
Qed.

Lemma own_bounds : in_bounds out own /\ ravel out own = gi.
Proof using Hout Hgi.
  assert (Hp : positive_dims out) by (apply positive_of_nonempty; [exact Hout|lia]).
  split; [apply unravel_in_bounds; [exact Hp|lia]|apply ravel_unravel; assumption].
Qed.

Lemma in_bounds_small s c : in_bounds s c -> Size s < two31 -> forallb int32 c = true.
Proof using.
  clear Hout Hgi Hsize. intros H. induction H as [|d x s c Hx H IH]; intros Hs; [reflexivity|]. rewrite Size_cons in Hs.
  pose proof (Size_pos s (in_bounds_pos _ _ H)) as Hp. cbn [forallb]. rewrite IH by nia. rewrite andb_true_r.
  unfold int32, two31 in *. assert (x < 2147483648) by nia. lia.
Qed.

Lemma own_int32 : forallb int32 own = true.
Proof using Hout Hgi Hsize. eapply in_bounds_small; [apply own_bounds|exact Hsize]. Qed.

Lemma nil_dims t : t_views t <> [] -> negb (t_nil t) || bool_decide (t_dims t = []) = true -> opt_list (t_Shape t) = t_dims t.
Proof using.
  unfold t_Shape. intros Hv Hn. destruct (t_views t); [contradiction|]. destruct (t_nil t); [|reflexivity].
  cbn [negb orb] in Hn. apply bool_decide_eq_true in Hn. rewrite Hn. reflexivity.
Qed.

Lemma tracker_fits_views t : tracker_fits t = true -> t_views t <> [] /\ forallb view_fits (rev (t_views t)) = true /\
  opt_list (t_Shape t) = t_dims t.
Proof using.
  unfold tracker_fits. rewrite !andb_true_iff, negb_true_iff, bool_decide_eq_false. intros [[H1 H2] H3].
  split; [exact H1|]. split; [|apply nil_dims; assumption]. rewrite forallb_forall in H2 |- *. intros v Hv. apply H2, in_rev, Hv.
Qed.

Lemma indexAt_emits t coords ws k w e : fresh w e -> k <= w_next w -> tracker_fits t = true -> at_cell w e ->
  Forall2 (word_of mem e) coords ws ->
  emits mem k w e (indexAt t coords) (fun r _ e' => indexed mem ws (cell_fits t) (indexViews (t_views t)) r e').
Proof using Hout Hgi Hsize.
  intros Hf Hk Ht Hac Hcs. destruct (tracker_fits_views t Ht) as (Hv & Hfit & Hshape).
  unfold indexAt, cell_fits. destruct (rev (t_views t)) as [|v below] eqn:Er.
  { apply (f_equal (@rev view)) in Er. rewrite rev_involutive in Er. contradiction. }
  apply emits_get, emits_get. destruct (Contiguous t && _ && _) eqn:Ec.
  - rewrite !andb_true_iff in Ec. destruct Ec as [[Hcont Heq] Hown]. apply bool_decide_eq_true in Heq, Hown.
    rewrite (ac_shape _ _ Hac), Hshape in Heq. apply emits_ret. exists (u32 gi), true. cbn [fst snd].
    split; [apply Hac|]. split; [apply flag_true|]. intros c Hc Hfits. cbn [views_fit] in Hfits.
    apply andb_true_iff in Hfits as [Hc32 _]. rewrite Hown in Hcs.
    pose proof (words_unique e _ _ _ Hcs (ac_coords _ _ Hac)) as Ews. rewrite Hc in Ews.
    apply (words_int32 c own Hc32 own_int32) in Ews. subst c. destruct own_bounds as [Hb Hr].
    rewrite (indexViews_some t own gi); [split; reflexivity|]. rewrite Contiguous_locate by (rewrite ?Heq; assumption).
    rewrite Heq, Hr. reflexivity.
  - cbn [forallb] in Hfit. apply andb_true_iff in Hfit as [Hvf Hbf]. eapply emits_bind.
    { apply (view_emits mem v coords ws k w e Hf Hk Hvf Hcs). }
    intros [off valid] w1 e1 G1 (o & b & Ho & Hb & K). cbn [fst snd] in Ho, Hb. eapply emits_weaken; [reflexivity| |].
    { apply (views_emits mem below off valid o b k w1 e1); [exact (extends_fresh _ _ _ _ _ Hf G1)|destruct G1; lia|exact Hbf|exact Ho|exact Hb]. }
    intros r w' e' _ (o' & b' & Ho' & Hb' & K'). exists o', b'. split; [exact Ho'|]. split; [exact Hb'|].
    intros c Hc Hfits. cbn [views_fit] in Hfits. apply andb_true_iff in Hfits as [Hc32 Hrest].
    destruct (K c Hc Hc32) as [Eb Eo]. unfold indexViews. rewrite Er. unfold addr in Hrest.
    destruct (index v c) as [z ok]. cbn [fst snd] in *. subst b. apply K'. intros ->.
    split; [apply Eo; reflexivity|exact Hrest].
Qed.

(** *** Chains *)

(** The constants of a chain. *)
Definition chain_const (chain : list stStep) : bool :=
  forallb (fun s => tracker_fits (st_tr s) && forallb (fun d => (0 <=? d) && (d <? two31)) (opt_list (st_origin s))) chain.

(** The offsets of a chain at the coordinates [c]; [last] tells whether the
    offset of the last step is unravelled too. *)
Fixpoint chain_fits (last : bool) (chain : list stStep) (c : list Z) : bool :=
  match chain with
  | [] => true
  | s :: chain' =>
      cell_fits (st_tr s) c &&
      match t_locate (st_tr s) c with
      | None => true
      | Some off =>
          match opt_list (st_origin s) with
          | [] => true
          | origin =>
              (negb last && bool_decide (chain' = [])) ||
              ((0 <=? off) && (off <? two31) && chain_fits last chain' (unravel origin off))
          end
      end
  end.

Lemma locate_index t c : t_locate t c = if snd (indexViews (t_views t) c) then Some (fst (indexViews (t_views t) c)) else None.
Proof using. rewrite <- indexViews_spec. reflexivity. Qed.

Lemma small_dims s : forallb (fun d => (0 <=? d) && (d <? two31)) s = true -> Forall small s.
Proof using. rewrite forallb_forall, Forall_forall. intros H d Hd. apply small_bool, H, list_elem_of_In, Hd. Qed.

(** One step: the offset and the flag of the step after the flag before. *)
Lemma step_emits s coords ws valid b k w e : fresh w e -> k <= w_next w -> tracker_fits (st_tr s) = true -> at_cell w e ->
  Forall2 (word_of mem e) coords ws -> flag mem e valid b ->
  emits mem k w e (let* (o, v) := indexAt (st_tr s) coords in let* both := both_code valid v in cw_ret (o, both))
    (fun r w' e' => snd r <> "true"%string /\ exists o b', scalar e' (fst r) o /\ flag mem e' (snd r) b' /\
      forall c, (b = true -> ws = map u32 c /\ cell_fits (st_tr s) c = true) ->
        b' = b && snd (indexViews (t_views (st_tr s)) c) /\ (b' = true -> o = u32 (fst (indexViews (t_views (st_tr s)) c)))).
Proof using Hout Hgi Hsize.
  intros Hf Hk Ht Hac Hcs Hb. eapply emits_bind; [apply (indexAt_emits _ _ ws); assumption|].
  intros [o v] w1 e1 G1 (z & b1 & Hz & Hb1 & K). cbn [fst snd] in *. eapply emits_bind.
  { apply (both_emits mem valid v b b1 k w1 e1 (fun n w' e' => extends k w1 e1 w' e' /\ flag mem e' n (b && b1) /\ n <> "true"%string));
      [exact (extends_fresh _ _ _ _ _ Hf G1)|destruct G1; lia|eapply flag_sub; [apply G1|exact Hb]|exact Hb1|auto]. }
  intros both w2 e2 _ (G2 & Hboth & Hne). apply emits_ret. split; [exact Hne|]. exists z, (b && b1).
  split; [eapply scalar_sub; [apply G2|exact Hz]|]. split; [exact Hboth|]. intros c Hc.
  destruct b; [|split; [reflexivity|discriminate]]. destruct Hc as [Hc Hfits]; [reflexivity|].
  destruct (K c Hc Hfits) as [-> Ez]. split; [reflexivity|exact Ez].
Qed.

(** A method that runs one step and goes on. *)
Lemma step_then {A} s coords valid (f : string -> string -> CW A) k w e Q :
  emits mem k w e (cw_bind (let* (o, v) := indexAt (st_tr s) coords in let* both := both_code valid v in cw_ret (o, both))
    (fun r => f (fst r) (snd r))) Q ->
  emits mem k w e (let* (o, v) := indexAt (st_tr s) coords in let* both := both_code valid v in f o both) Q.
Proof using.
  unfold emits, cw_bind, cw_ret. destruct (indexAt (st_tr s) coords w) as [[[o v]|err] w1]; [|exact (fun H => H)].
  destruct (both_code valid v w1) as [[both|err] w2]; exact (fun H => H).
Qed.

Lemma applyChain_false chain : forall c, snd (applyChain_loop chain c false) = false.
Proof using.
  induction chain as [|s chain IH]; intros c; cbn [applyChain_loop]; [reflexivity|].
  destruct (indexViews _ c) as [off vok]. cbn [andb]. destruct chain; [reflexivity|].
  destruct (opt_list (st_origin s)); [reflexivity|apply IH].
Qed.

Lemma chainCoords_false chain : forall c, snd (chainCoords_loop chain c false) = false.
Proof using.
  induction chain as [|s chain IH]; intros c; cbn [chainCoords_loop]; [reflexivity|].
  destruct (indexViews _ c) as [off vok]. cbn [andb]. destruct (opt_list (st_origin s)); [reflexivity|apply IH].
Qed.

Lemma indexChain_emits chain : forall coords ws valid b k w e, fresh w e -> k <= w_next w -> chain <> [] ->
  chain_const chain = true -> at_cell w e -> Forall2 (word_of mem e) coords ws -> flag mem e valid b ->
  emits mem k w e (indexChain_loop chain coords valid) (fun r w' e' => snd r <> "true"%string /\
    exists o b', scalar e' (fst r) o /\ flag mem e' (snd r) b' /\
      forall c, (b = true -> ws = map u32 c /\ chain_fits false chain c = true) ->
        b' = snd (applyChain_loop chain c b) /\ (b' = true -> o = u32 (fst (applyChain_loop chain c b)))).
Proof using Hout Hgi Hsize.
  induction chain as [|s chain IH]; intros coords ws valid b k w e Hf Hk Hne Hconst Hac Hcs Hb; [contradiction|].
  cbn [chain_const forallb] in Hconst. rewrite !andb_true_iff in Hconst. destruct Hconst as [[Ht Hdims] Hconst].
  cbn [indexChain_loop]. apply step_then. eapply emits_bind; [apply (step_emits s coords ws valid b); assumption|].
  intros [o both] w1 e1 G1 (Hnt & z & b1 & Hz & Hb1 & K). cbn [fst snd] in *.
  assert (Hlast : chain = [] \/ opt_list (st_origin s) = [] -> emits mem k w1 e1 (cw_ret (o, both)) (fun r w' e' => snd r <> "true"%string /\
    exists o b', scalar e' (fst r) o /\ flag mem e' (snd r) b' /\
      forall c, (b = true -> ws = map u32 c /\ chain_fits false (s :: chain) c = true) ->
        b' = snd (applyChain_loop (s :: chain) c b) /\ (b' = true -> o = u32 (fst (applyChain_loop (s :: chain) c b))))).
  { intros Hend. apply emits_ret. split; [exact Hnt|]. exists z, b1. split; [exact Hz|]. split; [exact Hb1|]. intros c Hc.
    assert (Hc' : b = true -> ws = map u32 c /\ cell_fits (st_tr s) c = true).
    { intros Eb. destruct (Hc Eb) as [Ew Hfit]. cbn [chain_fits] in Hfit. apply andb_true_iff in Hfit as [Hfit _]. auto. }
    destruct (K c Hc') as [K1 K2]. cbn [applyChain_loop]. destruct (indexViews _ c) as [off vok]. cbn [fst snd] in *.
    destruct chain; [auto|]. destruct Hend as [Hend| ->]; [discriminate Hend|auto]. }
  destruct chain as [|s' chain]; [apply Hlast; auto|].
  destruct (opt_list (st_origin s)) as [|d origin] eqn:Eo; [apply Hlast; auto|]. clear Hlast.
  pose proof (extends_fresh _ _ _ _ _ Hf G1) as Hf1. eapply emits_bind.
  { apply (unravel_emits mem (d :: origin) o z k w1 e1 Hf1); [destruct G1; lia|apply small_dims, Hdims|exact Hz]. }
  intros coords2 w2 e2 G2 (ws2 & Hcs2 & Hws2). eapply emits_weaken; [reflexivity|apply (IH coords2 ws2 both b1)|].
  - exact (extends_fresh _ _ _ _ _ Hf1 G2).
  - destruct G1, G2; lia.
  - discriminate.
  - exact Hconst.
  - eapply at_cell_extends; [eapply at_cell_extends; [exact Hac|exact G1]|exact G2].
  - exact Hcs2.
  - eapply flag_sub; [apply G2|exact Hb1].
  - intros r w' e' _ (Hr & o' & b' & Ho' & Hb' & K'). split; [exact Hr|]. exists o', b'. split; [exact Ho'|]. split; [exact Hb'|].
    intros c Hc. assert (Hc' : b = true -> ws = map u32 c /\ cell_fits (st_tr s) c = true).
    { intros Eb. destruct (Hc Eb) as [Ew Hfit]. cbn [chain_fits] in Hfit. apply andb_true_iff in Hfit as [Hfit _]. auto. }
    destruct (K c Hc') as [K1 K2]. cbn [applyChain_loop]. rewrite Eo.
    destruct (indexViews _ c) as [off vok] eqn:Ei. cbn [fst snd] in *. subst b1. apply K'. intros Hbb.
    destruct b; [|discriminate Hbb]. cbn [andb] in Hbb. destruct (Hc eq_refl) as [_ Hfit]. cbn [chain_fits] in Hfit.
    apply andb_true_iff in Hfit as [_ Hfit]. rewrite locate_index, Ei in Hfit. cbn [fst snd] in Hfit. rewrite Hbb, Eo in Hfit.
    rewrite bool_decide_false in Hfit by discriminate. cbn [negb andb orb] in Hfit. apply andb_true_iff in Hfit as [Hsm Hfit].
    split; [|exact Hfit]. apply Hws2; [apply small_bool, Hsm|]. apply K2. cbn [andb]. exact Hbb.
Qed.

Lemma chainCoords_emits chain : forall coords ws valid b k w e, fresh w e -> k <= w_next w ->
  chain_const chain = true -> at_cell w e -> Forall2 (word_of mem e) coords ws -> flag mem e valid b ->
  emits mem k w e (chainCoords_code_loop chain coords valid) (fun r w' e' => (valid <> "true"%string \/ chain <> [] -> snd r <> "true"%string) /\
    exists ws' b', Forall2 (word_of mem e') (fst r) ws' /\ flag mem e' (snd r) b' /\
      forall c, (b = true -> ws = map u32 c /\ chain_fits true chain c = true) ->
        b' = snd (chainCoords_loop chain c b) /\ (b' = true -> ws' = map u32 (fst (chainCoords_loop chain c b)))).
Proof using Hout Hgi Hsize.
  induction chain as [|s chain IH]; intros coords ws valid b k w e Hf Hk Hconst Hac Hcs Hb; cbn [chainCoords_code_loop].
  { apply emits_ret. split; [intros [H|H]; [exact H|contradiction]|]. exists ws, b. split; [exact Hcs|]. split; [exact Hb|].
    intros c Hc. split; [reflexivity|]. intros Eb. apply Hc, Eb. }
  cbn [chain_const forallb] in Hconst. rewrite !andb_true_iff in Hconst. destruct Hconst as [[Ht Hdims] Hconst].
  apply step_then. eapply emits_bind; [apply (step_emits s coords ws valid b); assumption|].
  intros [o both] w1 e1 G1 (Hnt & z & b1 & Hz & Hb1 & K). cbn [fst snd] in *.
  assert (Hc' : forall c, (b = true -> ws = map u32 c /\ chain_fits true (s :: chain) c = true) ->
    b = true -> ws = map u32 c /\ cell_fits (st_tr s) c = true).
  { intros c Hc Eb. destruct (Hc Eb) as [Ew Hfit]. cbn [chain_fits] in Hfit. apply andb_true_iff in Hfit as [Hfit _]. auto. }
  destruct (opt_list (st_origin s)) as [|d origin] eqn:Eo.
  { apply emits_ret. split; [intros _; exact Hnt|]. exists ws, b1. split; [eapply words_sub; [apply G1|exact Hcs]|].
    split; [exact Hb1|]. intros c Hc. destruct (K c (Hc' c Hc)) as [K1 _]. cbn [chainCoords_loop]. rewrite Eo.
    destruct (indexViews _ c) as [off vok]. cbn [fst snd] in *. split; [exact K1|]. intros Hbb. subst b1.
    apply andb_true_iff in Hbb as [Eb _]. apply (Hc Eb). }
  pose proof (extends_fresh _ _ _ _ _ Hf G1) as Hf1. eapply emits_bind.
  { apply (unravel_emits mem (d :: origin) o z k w1 e1 Hf1); [destruct G1; lia|apply small_dims, Hdims|exact Hz]. }
  intros coords2 w2 e2 G2 (ws2 & Hcs2 & Hws2). eapply emits_weaken; [reflexivity|apply (IH coords2 ws2 both b1)|].
  - exact (extends_fresh _ _ _ _ _ Hf1 G2).
  - destruct G1, G2; lia.
  - exact Hconst.
  - eapply at_cell_extends; [eapply at_cell_extends; [exact Hac|exact G1]|exact G2].
  - exact Hcs2.
  - eapply flag_sub; [apply G2|exact Hb1].
  - intros r w' e' G3 (Hr & ws' & b' & Hws' & Hb' & K'). split.
    { intros _. apply Hr. left. exact Hnt. }
    exists ws', b'. split; [exact Hws'|]. split; [exact Hb'|].
    intros c Hc. destruct (K c (Hc' c Hc)) as [K1 K2]. cbn [chainCoords_loop]. rewrite Eo.
    destruct (indexViews _ c) as [off vok] eqn:Ei. cbn [fst snd] in *. subst b1. apply K'. intros Hbb.
    destruct b; [|discriminate Hbb]. cbn [andb] in Hbb. destruct (Hc eq_refl) as [_ Hfit]. cbn [chain_fits] in Hfit.
    apply andb_true_iff in Hfit as [_ Hfit]. rewrite locate_index, Ei in Hfit. cbn [fst snd] in Hfit. rewrite Hbb, Eo in Hfit.
    cbn [negb andb orb] in Hfit. apply andb_true_iff in Hfit as [Hsm Hfit].
    split; [|exact Hfit]. apply Hws2; [apply small_bool, Hsm|]. apply K2. cbn [andb]. exact Hbb.
Qed.
End cell.
