(* ===== verification/Spell.v ===== *)
(** * Printing a schedule (src/x/driver/ndeval/spell, and the headers of the
      four backends)

    The statements of a schedule as the text of a shader: a printer with
    precedences, which writes parentheses only where they are needed, over a
    dialect that spells the values which the shading languages write
    differently.  The decimal text of a float32 is [strconv.FormatFloat], a
    field of a class. *)
From Stdlib Require Import ZArith Lia Ascii DecimalString DecimalZ.
From stdpp Require Import base numbers option list strings.
From S2P Require Import Prelude Float Alu Shape View Tracker Expr Rewrite Optimize Flatten Cpu Kernel Code.

Local Open Scope Z_scope.

(** ** Text of numbers *)

(** [n] is finite and not negative. *)
Definition finite_word (w : Z) : bool := (0 <=? w) && (w <? 2139095040).

Definition is_digit (c : Ascii.ascii) : bool :=
  let n := Ascii.nat_of_ascii c in (48 <=? n)%nat && (n <=? 57)%nat.

(** [strings.ContainsAny(s, ".eE")] *)
Fixpoint has_point (s : string) : bool :=
  match s with
  | EmptyString => false
  | String c s' => bool_decide (c ∈ ["."%char; "e"%char; "E"%char]) || has_point s'
  end.

(** Digits, points, and an exponent with its sign. *)
Fixpoint number_tail (after_e : bool) (s : string) : bool :=
  match s with
  | EmptyString => negb after_e
  | String c s' =>
      if bool_decide (c = "e"%char) then number_tail true s'
      else if is_digit c || bool_decide (c = "."%char) then number_tail false s'
      else after_e && bool_decide (c ∈ ["+"%char; "-"%char]) && number_tail false s'
  end.
Definition number_text (s : string) : bool :=
  match s with EmptyString => false | String c s' => is_digit c && number_tail false s' end.

(** [FormatFloat w] is [strconv.FormatFloat(float64(f), 'g', -1, 32)] of the
    float32 with the bits [w], and [ParseFloat] the bits that a decimal text
    stands for.  A negative number is written with a sign, the rest starts with
    a digit, and the shortest text that is chosen reads back as the number. *)
Class FloatText : Type := {
  FormatFloat : Z -> string;
  ParseFloat : string -> option Z;
  format_negative : forall w, finite_word w = true -> FormatFloat (w + two31) = "-" +:+ FormatFloat w;
  format_number : forall w, finite_word w = true -> number_text (FormatFloat w) = true;
  format_parse : forall w, finite_word w = true -> ParseFloat (FormatFloat w) = Some w;
  parse_point : forall s, number_text s = true -> has_point s = false -> ParseFloat (s +:+ ".0") = ParseFloat s
}.

(** [formatFloat] *)
Definition formatFloat `{FloatText} (bits : Z) : string :=
  let s := FormatFloat bits in if has_point s then s else s +:+ ".0".

(** ** The printer *)

Record Dialect : Type := mkDialect { NonFinite : string; MinInt32 : string; IntRelSelect : bool }.

(** [fmt.Fprintf(b, pattern, bits)] with one [%d]. *)
Fixpoint Fprintf_d (pattern : string) (bits : Z) : string :=
  match pattern with
  | String "%" (String "d" rest) => Itoa bits +:+ rest
  | String c rest => String c (Fprintf_d rest bits)
  | EmptyString => EmptyString
  end.

Definition Scalar (d : DType) : string := match d with I32 => "int" | U8 => "uint" | _ => "float" end.

Definition prec (e : Expr) : Z :=
  match e with
  | ExprSel _ _ _ => 1
  | ExprAnd _ _ => 2
  | ExprBitOr _ _ => 3
  | ExprBitXor _ _ => 4
  | ExprBitAnd _ _ => 5
  | ExprRel _ _ _ => 6
  | ExprShl _ _ | ExprShr _ _ => 7
  | ExprAdd _ _ => 8
  | ExprMul _ _ | ExprDiv _ _ | ExprMod _ _ => 9
  | _ => 11
  end.

Definition relTok (r : Rel) : string :=
  match r with
  | RelLT => "<" | RelLE => "<=" | RelGT => ">" | RelGE => ">=" | RelEQ => "==" | RelNE => "!="
  end.

Definition fnName (f : Fn) : string :=
  match f with
  | FnExp2 => "exp2" | FnLog2 => "log2" | FnSin => "sin" | FnSqrt => "sqrt" | FnMax => "max" | FnClamp => "clamp"
  end.

Section printer.
Context {T : FloatText} (d : Dialect).

Definition is_finite_bits (bits : Z) : bool := negb ((bits / 8388608) mod 256 =? 255).

Definition constant (dtype : DType) (bits : Z) : string :=
  match dtype with
  | I32 => if i32 bits =? - two31 then MinInt32 d else Itoa (i32 bits)
  | U8 => Itoa (bits mod 256) +:+ "u"
  | _ => if is_finite_bits bits then formatFloat bits else Fprintf_d (NonFinite d) bits
  end.

(** [strconv.FormatUint(uint64(e.Int), 10)] *)
Definition FormatUint (v : Z) : string := Itoa (v mod 18446744073709551616).

Fixpoint printer_expr (e : Expr) (limit : Z) {struct e} : string :=
  let infix (a b : Expr) (op : string) := printer_expr a (prec e) +:+ op +:+ printer_expr b (prec e + 1) in
  let body :=
    match e with
    | ExprRef n => n
    | ExprInt v => Itoa v
    | ExprUint v => FormatUint v +:+ "u"
    | ExprTrue => "true"
    | ExprConst t bits => constant t bits
    | ExprLoad n i => n +:+ "[" +:+ printer_expr i 0 +:+ "]"
    | ExprNeg a => "(-" +:+ printer_expr a 0 +:+ ")"
    | ExprAdd a b => infix a b "+"
    | ExprMul a b => infix a b "*"
    | ExprDiv a b => infix a b "/"
    | ExprMod a b => infix a b "%"
    | ExprBitAnd a b => infix a b "&"
    | ExprBitOr a b => infix a b "|"
    | ExprBitXor a b => infix a b "^"
    | ExprShl a b => infix a b "<<"
    | ExprShr a b => infix a b ">>"
    | ExprRel r a b => printer_expr a (prec e + 1) +:+ relTok r +:+ printer_expr b (prec e + 1)
    | ExprAnd a b => printer_expr a (prec e) +:+ " && " +:+ printer_expr b (prec e + 1)
    | ExprSel c a b => printer_expr c (prec e + 1) +:+ "?" +:+ printer_expr a (prec e + 1) +:+ ":" +:+ printer_expr b (prec e)
    | ExprCast t a =>
        let plain := Scalar t +:+ "(" +:+ printer_expr a 0 +:+ ")" in
        match a with
        | ExprRel r x y =>
            if IntRelSelect d && bool_decide (t = I32)
            then "((" +:+ printer_expr x 0 +:+ relTok r +:+ printer_expr y 0 +:+ ")?1:0)"
            else plain
        | _ => plain
        end
    | ExprFn f args =>
        fnName f +:+ "(" +:+
        (fix go (first : bool) (args : list Expr) : string :=
           match args with
           | [] => ""
           | a :: args' => (if first then "" else ", ") +:+ printer_expr a 0 +:+ go false args'
           end) true args +:+ ")"
    end in
  if prec e <? limit then "(" +:+ body +:+ ")" else body.

Definition spellExpr (e : Expr) : string := printer_expr e 0.

Definition newline : string := String (Ascii.ascii_of_nat 10) "".

Definition spell_stmt (s : Stmt) : string :=
  "    " +:+
  match s with
  | StmtReturn c => "if (" +:+ spellExpr c +:+ ") return;" +:+ newline
  | StmtDecl t Bool n rhs => (if Bool then "bool" else Scalar t) +:+ " " +:+ n +:+ " = " +:+ spellExpr rhs +:+ ";" +:+ newline
  | StmtSet n rhs => n +:+ " = " +:+ spellExpr rhs +:+ ";" +:+ newline
  | StmtIfSet c n rhs => "if (" +:+ spellExpr c +:+ ") " +:+ n +:+ " = " +:+ spellExpr rhs +:+ ";" +:+ newline
  | StmtAdd n rhs => n +:+ " += " +:+ spellExpr rhs +:+ ";" +:+ newline
  | StmtStore rhs => "o[i] = " +:+ spellExpr rhs +:+ ";" +:+ newline
  end.

Fixpoint WriteBody (ss : list Stmt) : string :=
  match ss with [] => "" | s :: ss' => spell_stmt s +:+ WriteBody ss' end.
End printer.

(** ** The backends *)

Section backends.
Context {T : FloatText}.

Definition glslBody : Dialect := mkDialect "uintBitsToFloat(%du)" "int(0x80000000u)" false.
Definition metalBody : Dialect := mkDialect "as_type<float>(%du)" "int(0x80000000u)" false.
Definition hlslBody : Dialect := mkDialect "asfloat(%du)" "asint(0x80000000u)" true.

Definition lines (ls : list string) : string := String.concat newline ls +:+ newline.

(** One line per input, numbered from 1. *)
Fixpoint inputs_text (f : Z -> DType -> string) (i : Z) (ins : list DType) : string :=
  match ins with [] => "" | dt :: ins' => f i dt +:+ newline +:+ inputs_text f (i + 1) ins' end.

(** opengl/glsl.go *)
Definition opengl_glslOf (c : Code) (gles : bool) : string :=
  (if gles then lines ["#version 310 es"; "precision highp float;"; "precision highp int;"] else lines ["#version 430"]) +:+
  "layout(local_size_x = " +:+ Itoa (c_Threads c) +:+ lines [") in;"] +:+
  lines ["uniform uint n;"; "uniform uint d0;"; "uniform uint d1;"; "uniform uint d2;"; "uniform uint d3;"] +:+
  "layout(std430, binding = 0) buffer Out { " +:+ Scalar (c_Out c) +:+ lines [" o[]; };"] +:+
  inputs_text (fun i dt => "layout(std430, binding = " +:+ Itoa i +:+ ") buffer In" +:+ Itoa i +:+ " { " +:+ Scalar dt +:+ " x" +:+ Itoa i +:+ "[]; };") 1 (c_In c) +:+
  lines ["void main() {";
    "    uint span = gl_NumWorkGroups.x * gl_WorkGroupSize.x;";
    "    uint gi = gl_GlobalInvocationID.x + gl_GlobalInvocationID.y * span + gl_GlobalInvocationID.z * span * gl_NumWorkGroups.y;"] +:+
  WriteBody glslBody (c_Stmts c) +:+ lines ["}"].

(** vulkan/glsl.go *)
Definition vulkan_glslOf (c : Code) : string :=
  lines ["#version 450"] +:+ "layout(local_size_x = " +:+ Itoa (c_Threads c) +:+ lines [") in;"] +:+
  lines ["layout(push_constant) uniform Push { uint n; uint d0; uint d1; uint d2; uint d3; };"] +:+
  "layout(set = 0, binding = 0) buffer Out { " +:+ Scalar (c_Out c) +:+ lines [" o[]; };"] +:+
  inputs_text (fun i dt => "layout(set = 0, binding = " +:+ Itoa i +:+ ") buffer In" +:+ Itoa i +:+ " { " +:+ Scalar dt +:+ " x" +:+ Itoa i +:+ "[]; };") 1 (c_In c) +:+
  lines ["void main() {"; "    uint gi = gl_GlobalInvocationID.x;"] +:+
  WriteBody glslBody (c_Stmts c) +:+ lines ["}"].

(** metal/msl.go *)
Definition mslOf (c : Code) : string :=
  lines ["#include <metal_stdlib>"; "using namespace metal;"; "";
    "struct Push {"; "    uint n;"; "    uint d0;"; "    uint d1;"; "    uint d2;"; "    uint d3;"; "};"; "";
    "kernel void ndeval("] +:+
  "    device " +:+ Scalar (c_Out c) +:+ lines ["* o [[buffer(0)]],"] +:+
  inputs_text (fun i dt => "    device " +:+ Scalar dt +:+ "* x" +:+ Itoa i +:+ " [[buffer(" +:+ Itoa i +:+ ")]],") 1 (c_In c) +:+
  "    constant Push& push [[buffer(" +:+ Itoa (1 + Z.of_nat (length (c_In c))) +:+ lines [")]],"] +:+
  lines ["    uint gid [[thread_position_in_grid]])"; "{"; "    uint n = push.n;"; "    uint d0 = push.d0;"; "    uint d1 = push.d1;";
    "    uint d2 = push.d2;"; "    uint d3 = push.d3;"; "    uint gi = gid;"] +:+
  WriteBody metalBody (c_Stmts c) +:+ lines ["}"].

(** d3d12/hlsl.go *)
Definition hlslOf (c : Code) : string :=
  "RWStructuredBuffer<" +:+ Scalar (c_Out c) +:+ lines ["> o : register(u0);"] +:+
  inputs_text (fun i dt => "StructuredBuffer<" +:+ Scalar dt +:+ "> x" +:+ Itoa i +:+ " : register(t" +:+ Itoa (i - 1) +:+ ");") 1 (c_In c) +:+
  lines ["cbuffer Push : register(b0) {"; "    uint n;"; "    uint d0;"; "    uint d1;"; "    uint d2;"; "    uint d3;"; "    uint span;"; "};"] +:+
  "[numthreads(" +:+ Itoa (c_Threads c) +:+ lines [", 1, 1)]"] +:+
  lines ["void ndeval(uint3 tid : SV_DispatchThreadID) {"; "    uint gid = tid.y * span + tid.x;"; "    uint gi = gid;"] +:+
  WriteBody hlslBody (c_Stmts c) +:+ lines ["}"].

(** The text of a kernel, or the error of [Code]; Metal and Direct3D want the
    number of threads too. *)
Definition opengl_glslSource (ns : list node) (hb : list buffer) (k : option Kernel) (gles : bool) : res string :=
  res_map (fun c => opengl_glslOf c gles) (kernel_Code ns hb k).
Definition vulkan_glslSource (ns : list node) (hb : list buffer) (k : option Kernel) : res string :=
  res_map vulkan_glslOf (kernel_Code ns hb k).
Definition mslSource (ns : list node) (hb : list buffer) (k : option Kernel) : res (string * Z) :=
  res_map (fun c => (mslOf c, c_Threads c)) (kernel_Code ns hb k).
Definition hlslSource (ns : list node) (hb : list buffer) (k : option Kernel) : res (string * Z) :=
  res_map (fun c => (hlslOf c, c_Threads c)) (kernel_Code ns hb k).
End backends.
