(* ===== verification/Reading.v ===== *)
(** * Reading the text of a schedule

    What a compiler makes of the printed statements: a lexer with the longest
    match of C and a parser with the precedences of C, which the shading
    languages share.  This is the specification of the printer of Spell.v. *)
From Stdlib Require Import ZArith Lia Ascii DecimalString DecimalZ.
From stdpp Require Import base numbers option list strings gmap.
From S2P Require Import Prelude Float Alu Shape View Tracker Expr Rewrite Optimize Flatten Cpu Kernel Code Shader Spell.

Local Open Scope Z_scope.

(** ** Tokens *)

Inductive token : Type := TId (s : string) | TNum (s : string) | TSym (s : string).

#[export] Instance token_eq_dec : EqDecision token.
Proof. solve_decision. Defined.

Definition is_letter (c : ascii) : bool :=
  let n := nat_of_ascii c in
  ((65 <=? n)%nat && (n <=? 90)%nat) || ((97 <=? n)%nat && (n <=? 122)%nat) || (n =? 95)%nat.
Definition is_alnum (c : ascii) : bool := is_letter c || is_digit c.
Definition is_space (c : ascii) : bool := let n := nat_of_ascii c in (n =? 32)%nat || (n =? 10)%nat.
Definition symbols : list ascii :=
  ["("; ")"; "["; "]"; "{"; "}"; "+"; "-"; "*"; "/"; "%"; "&"; "|"; "^"; "<"; ">"; "="; "!"; "?"; ":"; ","; ";"]%char.
Definition is_symbol (c : ascii) : bool := bool_decide (c ∈ symbols).

(** The symbols of more than one character; all their prefixes are symbols. *)
Definition long_symbols : list string :=
  ["<<"; ">>"; "<="; ">="; "=="; "!="; "&&"; "||"; "++"; "--"; "->"; "+="; "-="; "*="; "/="; "%="; "&="; "|="; "^="; "<<="; ">>="; "//"; "/*"].
Definition joins (s : string) (c : ascii) : bool := bool_decide (s +:+ String c "" ∈ long_symbols).

Fixpoint ends_e (s : string) : bool :=
  match s with
  | EmptyString => false
  | String c EmptyString => bool_decide (c = "e"%char)
  | String _ s' => ends_e s'
  end.

(** The token that a character continues, if it does. *)
Definition extend (t : token) (c : ascii) : option token :=
  match t with
  | TId s => if is_alnum c then Some (TId (s +:+ String c "")) else None
  | TNum s =>
      if is_alnum c || bool_decide (c = "."%char) || (ends_e s && bool_decide (c ∈ ["+"; "-"]%char))
      then Some (TNum (s +:+ String c "")) else None
  | TSym s => if joins s c then Some (TSym (s +:+ String c "")) else None
  end.

(** What a character begins: a token, or nothing after a space. *)
Definition begin (c : ascii) : option (option token) :=
  if is_letter c then Some (Some (TId (String c "")))
  else if is_digit c then Some (Some (TNum (String c "")))
  else if is_space c then Some None
  else if is_symbol c then Some (Some (TSym (String c "")))
  else None.

(** [p] is the token that has been read so far. *)
Fixpoint lex (p : option token) (s : string) : option (list token) :=
  match s with
  | EmptyString => Some (option_list p)
  | String c s' =>
      match p ≫= (fun t => extend t c) with
      | Some t => lex (Some t) s'
      | None => p' ← begin c; app (option_list p) <$> lex p' s'
      end
  end.

(** ** Expressions *)

(** Literals: 0x80000000u, a number with u, digits, or a float. *)
Definition decimal (s : string) : option Z := Z.of_int <$> NilZero.int_of_string s.
Fixpoint split_u (s : string) : option string :=
  match s with
  | EmptyString => None
  | String "u" EmptyString => Some EmptyString
  | String c s' => String c <$> split_u s'
  end.
Definition read_num `{FloatText} (s : string) : option Expr :=
  if bool_decide (s = "0x80000000u") then Some (ExprUint 2147483648) else
  match split_u s with
  | Some s' => ExprUint <$> decimal s'
  | None => if has_point s then ExprConst F32 <$> ParseFloat s else ExprInt <$> decimal s
  end.

(** The operators, with their precedence. *)
Definition binop (s : string) : option (Z * (Expr -> Expr -> Expr)) :=
  let eqs x := bool_decide (s = x) in
  if eqs "&&" then Some (2, ExprAnd) else if eqs "|" then Some (3, ExprBitOr) else if eqs "^" then Some (4, ExprBitXor)
  else if eqs "&" then Some (5, ExprBitAnd) else if eqs "==" then Some (6, ExprRel RelEQ) else if eqs "!=" then Some (6, ExprRel RelNE)
  else if eqs "<" then Some (7, ExprRel RelLT) else if eqs "<=" then Some (7, ExprRel RelLE)
  else if eqs ">" then Some (7, ExprRel RelGT) else if eqs ">=" then Some (7, ExprRel RelGE)
  else if eqs "<<" then Some (8, ExprShl) else if eqs ">>" then Some (8, ExprShr) else if eqs "+" then Some (9, ExprAdd)
  else if eqs "*" then Some (10, ExprMul) else if eqs "/" then Some (10, ExprDiv) else if eqs "%" then Some (10, ExprMod)
  else None.

(** Casts, reinterpretations and functions. *)
Definition read_call (f : string) (args : list Expr) : option Expr :=
  let eqs x := bool_decide (f = x) in
  if eqs "float" then match args with [a] => Some (ExprCast F32 a) | _ => None end
  else if eqs "int" || eqs "asint" then match args with [a] => Some (ExprCast I32 a) | _ => None end
  else if eqs "uint" then match args with [a] => Some (ExprCast U8 a) | _ => None end
  else if eqs "uintBitsToFloat" || eqs "asfloat" || eqs "as_type" then
    match args with [ExprUint b] => Some (ExprConst F32 b) | _ => None end
  else if eqs "exp2" then Some (ExprFn FnExp2 args) else if eqs "log2" then Some (ExprFn FnLog2 args)
  else if eqs "sin" then Some (ExprFn FnSin args) else if eqs "sqrt" then Some (ExprFn FnSqrt args)
  else if eqs "max" then Some (ExprFn FnMax args) else if eqs "clamp" then Some (ExprFn FnClamp args) else None.

Definition take_sym (s : string) (ts : list token) : option (list token) :=
  match ts with TSym x :: ts' => if bool_decide (x = s) then Some ts' else None | _ => None end.

(** The type argument of [as_type]. *)
Definition skip_template (f : string) (ts : list token) : list token :=
  match ts with
  | TSym a :: TId b :: TSym c :: ts' =>
      if bool_decide (f = "as_type" /\ a = "<" /\ b = "float" /\ c = ">") then ts' else ts
  | _ => ts
  end.

Section parser.
Context {T : FloatText}.

(** [fuel] bounds the depth of calls. *)
Fixpoint parse_expr (fuel : nat) (min : Z) (ts : list token) : option (Expr * list token) :=
  match fuel with
  | O => None
  | S f => '(l, ts) ← parse_unary f ts; climb f min l ts
  end
with parse_unary (fuel : nat) (ts : list token) : option (Expr * list token) :=
  match fuel with
  | O => None
  | S f =>
      match ts with
      | TSym s :: ts =>
          if bool_decide (s = "-") then '(a, ts) ← parse_unary f ts; Some (ExprNeg a, ts)
          else if bool_decide (s = "(") then '(a, ts) ← parse_expr f 0 ts; ts ← take_sym ")" ts; Some (a, ts)
          else None
      | TNum s :: ts => a ← read_num s; Some (a, ts)
      | TId n :: ts =>
          match take_sym "(" (skip_template n ts) with
          | Some ts => '(args, ts) ← parse_args f ts; a ← read_call n args; Some (a, ts)
          | None =>
              match take_sym "[" ts with
              | Some ts => '(i, ts) ← parse_expr f 0 ts; ts ← take_sym "]" ts; Some (ExprLoad n i, ts)
              | None => Some (if bool_decide (n = "true") then ExprTrue else ExprRef n, ts)
              end
          end
      | [] => None
      end
  end
with parse_args (fuel : nat) (ts : list token) : option (list Expr * list token) :=
  match fuel with
  | O => None
  | S f =>
      match take_sym ")" ts with
      | Some ts => Some ([], ts)
      | None =>
          '(a, ts) ← parse_expr f 0 ts;
          match take_sym "," ts with
          | Some ts => '(more, ts) ← parse_args f ts; Some (a :: more, ts)
          | None => ts ← take_sym ")" ts; Some ([a], ts)
          end
      end
  end
with climb (fuel : nat) (min : Z) (l : Expr) (ts : list token) : option (Expr * list token) :=
  match fuel with
  | O => None
  | S f =>
      match ts with
      | TSym s :: ts' =>
          if bool_decide (s = "?") then
            if min <=? 1 then
              '(a, ts) ← parse_expr f 0 ts'; ts ← take_sym ":" ts; '(b, ts) ← parse_expr f 1 ts; Some (ExprSel l a b, ts)
            else Some (l, ts)
          else
            match binop s with
            | Some (lv, mk) =>
                if min <=? lv then '(r, ts) ← parse_expr f (lv + 1) ts'; climb f min (mk l r) ts
                else Some (l, ts)
            | None => Some (l, ts)
            end
      | _ => Some (l, ts)
      end
  end.

(** ** Statements *)

Definition take_id (s : string) (ts : list token) : option (list token) :=
  match ts with TId x :: ts' => if bool_decide (x = s) then Some ts' else None | _ => None end.

(** [x = e;] and [x += e;] *)
Definition parse_assign (fuel : nat) (ts : list token) : option (Stmt * list token) :=
  match ts with
  | TId n :: TSym s :: ts =>
      '(e, ts) ← parse_expr fuel 0 ts; ts ← take_sym ";" ts;
      if bool_decide (s = "=") then Some (StmtSet n e, ts)
      else if bool_decide (s = "+=") then Some (StmtAdd n e, ts) else None
  | _ => None
  end.

Definition type_name (s : string) : option (DType * bool) :=
  let eqs x := bool_decide (s = x) in
  if eqs "bool" then Some (DNone, true) else if eqs "float" then Some (F32, false)
  else if eqs "int" then Some (I32, false) else if eqs "uint" then Some (U8, false) else None.

Definition parse_stmt (fuel : nat) (ts : list token) : option (Stmt * list token) :=
  match ts with
  | TId n :: ts1 =>
      if bool_decide (n = "if") then
        ts ← take_sym "(" ts1; '(c, ts) ← parse_expr fuel 0 ts; ts ← take_sym ")" ts;
        match take_id "return" ts with
        | Some ts => ts ← take_sym ";" ts; Some (StmtReturn c, ts)
        | None =>
            '(s, ts) ← parse_assign fuel ts;
            match s with StmtSet n e => Some (StmtIfSet c n e, ts) | _ => None end
        end
      else
        match type_name n, ts1 with
        | Some (t, b), TId _ :: _ =>
            '(s, ts) ← parse_assign fuel ts1;
            match s with StmtSet n e => Some (StmtDecl t b n e, ts) | _ => None end
        | _, _ =>
            match take_sym "[" ts1 with
            | Some ts2 =>
                ts ← take_id "i" ts2; ts ← take_sym "]" ts; ts ← take_sym "=" ts;
                '(e, ts) ← parse_expr fuel 0 ts; ts ← take_sym ";" ts;
                if bool_decide (n = "o") then Some (StmtStore e, ts) else None
            | None => parse_assign fuel ts
            end
        end
  | _ => None
  end.

(** The statements up to the end. *)
Fixpoint parse_body (fuel : nat) (ts : list token) : option (list Stmt) :=
  match ts, fuel with
  | [], _ => Some []
  | _, O => None
  | _, S f => '(s, ts) ← parse_stmt f ts; cons s <$> parse_body f ts
  end.

(** The statements that a text stands for. *)
Definition read_body (fuel : nat) (s : string) : option (list Stmt) := lex None s ≫= parse_body fuel.
End parser.
