(* ===== verification/Lexing.v ===== *)
(** * The tokens of a printed schedule

    The printer of Spell.v again, as a list of tokens and spaces.  The file
    proves that their texts make the printed text, and that the lexer finds
    them again: no token is longer than the printer meant, in particular no
    minus follows another. *)
From Stdlib Require Import ZArith Lia Ascii DecimalString DecimalZ.
From stdpp Require Import base numbers option list strings gmap.
From S2P Require Import Prelude Float Alu Shape View Tracker Expr Rewrite Optimize Flatten Cpu Kernel Code Shader Emits Spell Reading.

Local Open Scope Z_scope.

(** ** Pieces of text *)

Inductive piece : Type := Tok (t : token) | Gap (c : ascii).
Definition token_text (t : token) : string := match t with TId s | TNum s | TSym s => s end.
Definition sym (s : string) : piece := Tok (TSym s).
Definition word_tok (s : string) : piece := Tok (TId s).

Fixpoint glue (l : list piece) : string :=
  match l with
  | [] => ""
  | Tok t :: l' => token_text t +:+ glue l'
  | Gap c :: l' => String c (glue l')
  end.
Fixpoint toks (l : list piece) : list token :=
  match l with [] => [] | Tok t :: l' => t :: toks l' | Gap _ :: l' => toks l' end.

(** The token that is still open after the pieces. *)
Fixpoint pending (p : option token) (l : list piece) : option token :=
  match l with [] => p | Tok t :: l' => pending (Some t) l' | Gap _ :: l' => pending None l' end.

#[export] Instance append_assoc : Assoc (=) String.append.
Proof. intros a b c. induction a as [|x a IH]; [reflexivity|]. exact (f_equal (String x) IH). Qed.
#[export] Instance append_nil_r : RightId (=) "" String.append.
Proof. intros a. induction a as [|x a IH]; [reflexivity|]. exact (f_equal (String x) IH). Qed.

Lemma append_cons c s r : String c s +:+ r = String c (s +:+ r).
Proof. reflexivity. Qed.
Lemma append_nil_l r : "" +:+ r = r.
Proof. reflexivity. Qed.

Lemma glue_app a b : glue (a ++ b) = glue a +:+ glue b.
Proof.
  induction a as [|[t|c] a IH]; [reflexivity| |].
  - cbn [app glue]. rewrite IH, (assoc String.append). reflexivity.
  - cbn [app glue]. rewrite IH. reflexivity.
Qed.

Lemma toks_app a b : toks (a ++ b) = toks a ++ toks b.
Proof. induction a as [|[t|c] a IH]; cbn [app toks]; [reflexivity|f_equal; exact IH|exact IH]. Qed.

Lemma pending_app p a b : pending p (a ++ b) = pending (pending p a) b.
Proof. revert p; induction a as [|[t|c] a IH]; intros p; cbn [app pending]; auto. Qed.

(** ** One token *)

Fixpoint all_alnum (s : string) : bool := match s with EmptyString => true | String c s' => is_alnum c && all_alnum s' end.
Definition ident (s : string) : bool := match s with EmptyString => false | String c s' => is_letter c && all_alnum s' end.

(** The rest of a number; it may not end in e. *)
Fixpoint num_chars (after_e : bool) (s : string) : bool :=
  match s with
  | EmptyString => negb after_e
  | String c s' =>
      (is_alnum c || bool_decide (c = "."%char) || (after_e && bool_decide (c ∈ ["+"; "-"]%char))) &&
      num_chars (bool_decide (c = "e"%char)) s'
  end.
Definition numeral (s : string) : bool := match s with EmptyString => false | String c s' => is_digit c && num_chars false s' end.

Definition used_symbols : list string :=
  ["("; ")"; "["; "]"; "+"; "-"; "*"; "/"; "%"; "&"; "|"; "^"; "<"; ">"; "<="; ">="; "=="; "!="; "<<"; ">>"; "&&"; "?"; ":"; ","; ";"; "="; "+="].

Definition valid (t : token) : Prop :=
  match t with TId s => ident s = true | TNum s => numeral s = true | TSym s => s ∈ used_symbols end.

(** The text does not continue the open token. *)
Definition ends_before (p : option token) (s : string) : Prop :=
  match p, s with Some t, String c _ => extend t c = None | _, _ => True end.

Lemma append_snoc (a s : string) c : (a +:+ String c "") +:+ s = a +:+ String c s.
Proof. rewrite <- (assoc String.append). reflexivity. Qed.

Lemma ends_e_snoc a c : ends_e (a +:+ String c "") = bool_decide (c = "e"%char).
Proof.
  induction a as [|x a IH]; [reflexivity|]. change (ends_e (String x (a +:+ String c "")) = bool_decide (c = "e"%char)).
  destruct a as [|y a]; exact IH.
Qed.

Lemma lex_id_more s : forall a rest, all_alnum s = true -> lex (Some (TId a)) (s +:+ rest) = lex (Some (TId (a +:+ s))) rest.
Proof.
  induction s as [|c s IH]; intros a rest Hs; [rewrite (right_id "" String.append); reflexivity|].
  cbn [all_alnum] in Hs. apply andb_true_iff in Hs as [Hc Hs].
  change (lex (Some (TId a)) (String c (s +:+ rest)) = lex (Some (TId (a +:+ String c s))) rest).
  cbn [lex mbind option_bind extend]. rewrite Hc, IH, append_snoc by exact Hs. reflexivity.
Qed.

Lemma lex_num_more s : forall a rest, num_chars (ends_e a) s = true ->
  lex (Some (TNum a)) (s +:+ rest) = lex (Some (TNum (a +:+ s))) rest /\ ends_e (a +:+ s) = false.
Proof.
  induction s as [|c s IH]; intros a rest Hs; cbn [num_chars] in Hs.
  { rewrite (right_id "" String.append). split; [reflexivity|]. apply negb_true_iff. exact Hs. }
  apply andb_true_iff in Hs as [Hc Hs]. rewrite <- (ends_e_snoc a c) in Hs. destruct (IH (a +:+ String c "") rest Hs) as [K1 K2].
  rewrite append_snoc in K1, K2. split; [|exact K2].
  change (lex (Some (TNum a)) (String c (s +:+ rest)) = lex (Some (TNum (a +:+ String c s))) rest).
  cbn [lex mbind option_bind extend]. rewrite Hc. exact K1.
Qed.

Lemma letter_not_digit c : is_letter c = true -> is_digit c = false.
Proof. unfold is_letter, is_digit. intros H. repeat (apply orb_true_iff in H as [H|H]); rewrite ?andb_true_iff, ?Nat.leb_le, ?Nat.eqb_eq in H; apply andb_false_iff; rewrite !Nat.leb_gt; lia. Qed.
Lemma digit_not_letter c : is_digit c = true -> is_letter c = false.
Proof. intros H. destruct (is_letter c) eqn:E; [|reflexivity]. apply letter_not_digit in E. congruence. Qed.

(** The lexer reads a whole token. *)
Lemma lex_token p t rest : valid t -> ends_before p (token_text t) ->
  lex p (token_text t +:+ rest) = app (option_list p) <$> lex (Some t) rest.
Proof.
  intros Hv He. assert (Hnew : forall c s, ends_before p (String c s) -> p ≫= (fun t => extend t c) = None).
  { intros c s Hs. destruct p; [exact Hs|reflexivity]. }
  destruct t as [s|s|s]; cbn [token_text valid] in *.
  - destruct s as [|c s]; [discriminate Hv|]. cbn [ident] in Hv. apply andb_true_iff in Hv as [Hc Hs].
    change (lex p (String c (s +:+ rest)) = app (option_list p) <$> lex (Some (TId (String c s))) rest). cbn [lex].
    rewrite (Hnew c s He). unfold begin. rewrite Hc. cbn [mbind option_bind]. rewrite lex_id_more by exact Hs. reflexivity.
  - destruct s as [|c s]; [discriminate Hv|]. cbn [numeral] in Hv. apply andb_true_iff in Hv as [Hc Hs].
    change (lex p (String c (s +:+ rest)) = app (option_list p) <$> lex (Some (TNum (String c s))) rest). cbn [lex].
    rewrite (Hnew c s He). unfold begin. rewrite (digit_not_letter c Hc), Hc. cbn [mbind option_bind].
    assert (Hce : ends_e (String c "") = false).
    { cbn. apply bool_decide_eq_false. intros ->. discriminate Hc. }
    destruct (lex_num_more s (String c "") rest) as [-> _]; [rewrite Hce; exact Hs|]. reflexivity.
  - repeat (apply elem_of_cons in Hv as [->|Hv]; [rewrite !append_cons; cbn [lex]; rewrite (Hnew _ _ He); reflexivity|]). inversion Hv.
Qed.

(** ** Lists of pieces *)

(** No token runs into the next. *)
Fixpoint apart (p : option token) (l : list piece) : Prop :=
  match l with
  | [] => True
  | Tok t :: l' => valid t /\ ends_before p (token_text t) /\ apart (Some t) l'
  | Gap c :: l' => is_space c = true /\ apart None l'
  end.

Lemma apart_app p a b : apart p (a ++ b) <-> apart p a /\ apart (pending p a) b.
Proof. revert p; induction a as [|[t|c] a IH]; intros p; cbn [app apart pending]; rewrite ?IH; tauto. Qed.

Lemma space_char c : is_space c = true -> c = " "%char \/ c = ascii_of_nat 10.
Proof.
  unfold is_space. intros H. apply orb_true_iff in H as [H|H]; apply Nat.eqb_eq in H; [left|right];
    rewrite <- (ascii_nat_embedding c), H; reflexivity.
Qed.

Lemma joins_last s c : joins s c = true -> c ∈ ["<"; ">"; "="; "&"; "|"; "+"; "-"; "/"; "*"]%char.
Proof.
  unfold joins. rewrite bool_decide_eq_true. intros H.
  assert (Hl : forall x y, s +:+ String c "" = x +:+ String y "" -> c = y).
  { clear H. intros x. revert s. induction x as [|b x IH]; intros [|a s] y E; rewrite ?append_cons, ?append_nil_l in E.
    - congruence.
    - exfalso. injection E as _ E. destruct s; discriminate E.
    - exfalso. injection E as _ E. destruct x; discriminate E.
    - injection E as _ E. exact (IH s y E). }
  repeat (apply elem_of_cons in H as [H|H]; [|]).
  all: try solve [inversion H].
  all: first [rewrite (Hl "<" _ H)|rewrite (Hl ">" _ H)|rewrite (Hl "=" _ H)|rewrite (Hl "!" _ H)|rewrite (Hl "&" _ H)|rewrite (Hl "|" _ H)
             |rewrite (Hl "+" _ H)|rewrite (Hl "-" _ H)|rewrite (Hl "*" _ H)|rewrite (Hl "/" _ H)|rewrite (Hl "%" _ H)|rewrite (Hl "^" _ H)
             |rewrite (Hl "<<" _ H)|rewrite (Hl ">>" _ H)]; apply list_elem_of_In; cbn; tauto.
Qed.

Lemma extend_space t c : is_space c = true -> extend t c = None.
Proof.
  intros H. destruct (extend t c) eqn:E; [|reflexivity]. exfalso.
  assert (Ha : is_alnum c = false /\ c <> "."%char /\ ~ (c ∈ ["+"; "-"]%char) /\ ~ (c ∈ ["<"; ">"; "="; "&"; "|"; "+"; "-"; "/"; "*"]%char)).
  { apply space_char in H as [-> | ->]; (split; [reflexivity|]); (split; [discriminate|]); split; intros Hin;
      repeat (apply elem_of_cons in Hin as [Hin|Hin]; [discriminate Hin|]); inversion Hin. }
  destruct Ha as (A1 & A2 & A3 & A4). destruct t as [s|s|s]; cbn [extend] in E.
  - rewrite A1 in E. discriminate E.
  - rewrite A1, (bool_decide_false _ A2), (bool_decide_false _ A3), andb_false_r in E. discriminate E.
  - destruct (joins s c) eqn:Ej; [|discriminate E]. apply A4, (joins_last s c Ej).
Qed.

Lemma lex_glue l : forall p, apart p l -> lex p (glue l) = Some (option_list p ++ toks l).
Proof.
  induction l as [|[t|c] l IH]; intros p Ha; cbn [glue toks apart] in *.
  - rewrite app_nil_r. reflexivity.
  - destruct Ha as (Hv & He & Ha). rewrite lex_token, IH by assumption. reflexivity.
  - destruct Ha as [Hc Ha]. cbn [lex]. assert (Hn : p ≫= (fun t => extend t c) = None) by (destruct p; [apply extend_space, Hc|reflexivity]).
    rewrite Hn. assert (Hb : begin c = Some None) by (apply space_char in Hc as [-> | ->]; reflexivity). rewrite Hb. cbn [mbind option_bind].
    rewrite IH by exact Ha. reflexivity.
Qed.

(** ** The printer, piece by piece *)

Inductive backend : Type := Glsl | Metal | Hlsl.
Definition dialect (b : backend) : Dialect := match b with Glsl => glslBody | Metal => metalBody | Hlsl => hlslBody end.

Definition num_tok (s : string) : piece := Tok (TNum s).
Definition int_pieces (z : Z) : list piece := if z <? 0 then [sym "-"; num_tok (Itoa (- z))] else [num_tok (Itoa z)].

(** Fields that keep the code of names. *)
Fixpoint commas (first : bool) (args : list (list piece)) : list piece :=
  match args with
  | [] => []
  | a :: args' => (if first then [] else [sym ","; Gap " "]) ++ a ++ commas false args'
  end.

Section pieces.
Context {T : FloatText} (b : backend).

Definition float_pieces (bits : Z) : list piece :=
  if two31 <=? bits then [sym "-"; num_tok (formatFloat (bits - two31))] else [num_tok (formatFloat bits)].

Definition nonfinite_pieces (bits : Z) : list piece :=
  match b with
  | Glsl => [word_tok "uintBitsToFloat"]
  | Metal => [word_tok "as_type"; sym "<"; word_tok "float"; sym ">"]
  | Hlsl => [word_tok "asfloat"]
  end ++ [sym "("; num_tok (Itoa bits +:+ "u"); sym ")"].

Definition const_pieces (t : DType) (bits : Z) : list piece :=
  match t with
  | I32 =>
      if i32 bits =? - two31
      then [word_tok (match b with Hlsl => "asint" | _ => "int" end); sym "("; num_tok "0x80000000u"; sym ")"]
      else int_pieces (i32 bits)
  | U8 => [num_tok (Itoa (bits mod 256) +:+ "u")]
  | _ => if is_finite_bits bits then float_pieces bits else nonfinite_pieces bits
  end.

Definition selects (t : DType) : bool := IntRelSelect (dialect b) && bool_decide (t = I32).

Fixpoint pieces (e : Expr) (limit : Z) {struct e} : list piece :=
  let infix (a b : Expr) (op : string) := pieces a (prec e) ++ [sym op] ++ pieces b (prec e + 1) in
  let body :=
    match e with
    | ExprRef n => [word_tok n]
    | ExprInt v => int_pieces v
    | ExprUint v => [num_tok (FormatUint v +:+ "u")]
    | ExprTrue => [word_tok "true"]
    | ExprConst t bits => const_pieces t bits
    | ExprLoad n i => [word_tok n; sym "["] ++ pieces i 0 ++ [sym "]"]
    | ExprNeg a => [sym "("; sym "-"] ++ pieces a 0 ++ [sym ")"]
    | ExprAdd a b => infix a b "+"
    | ExprMul a b => infix a b "*"
    | ExprDiv a b => infix a b "/"
    | ExprMod a b => infix a b "%"
    | ExprBitAnd a b => infix a b "&"
    | ExprBitOr a b => infix a b "|"
    | ExprBitXor a b => infix a b "^"
    | ExprShl a b => infix a b "<<"
    | ExprShr a b => infix a b ">>"
    | ExprRel r a b => pieces a (prec e + 1) ++ [sym (relTok r)] ++ pieces b (prec e + 1)
    | ExprAnd a b => pieces a (prec e) ++ [Gap " "; sym "&&"; Gap " "] ++ pieces b (prec e + 1)
    | ExprSel c a b => pieces c (prec e + 1) ++ [sym "?"] ++ pieces a (prec e + 1) ++ [sym ":"] ++ pieces b (prec e)
    | ExprCast t a =>
        let plain := [word_tok (Scalar t); sym "("] ++ pieces a 0 ++ [sym ")"] in
        match a with
        | ExprRel r x y =>
            if selects t
            then [sym "("; sym "("] ++ pieces x 0 ++ [sym (relTok r)] ++ pieces y 0 ++
                 [sym ")"; sym "?"; num_tok "1"; sym ":"; num_tok "0"; sym ")"]
            else plain
        | _ => plain
        end
    | ExprFn f args => [word_tok (fnName f); sym "("] ++ commas true (map (fun a => pieces a 0) args) ++ [sym ")"]
    end in
  if prec e <? limit then [sym "("] ++ body ++ [sym ")"] else body.

(** *** The text of the pieces *)

(** Literals that a kernel holds: a constant is a 32-bit word. *)
Fixpoint words_ok (e : Expr) : bool :=
  match e with
  | ExprConst _ bits => (0 <=? bits) && (bits <? two32)
  | ExprLoad _ a | ExprNeg a | ExprCast _ a => words_ok a
  | ExprAdd a b | ExprMul a b | ExprDiv a b | ExprMod a b | ExprBitAnd a b | ExprBitOr a b | ExprBitXor a b
  | ExprShl a b | ExprShr a b | ExprRel _ a b | ExprAnd a b => words_ok a && words_ok b
  | ExprSel c a b => words_ok c && words_ok a && words_ok b
  | ExprFn _ args => forallb words_ok args
  | _ => true
  end.

Lemma int_pieces_text z : glue (int_pieces z) = Itoa z.
Proof using.
  unfold int_pieces. destruct z as [|p|p]; cbn [Z.ltb Z.compare]; cbn [glue num_tok sym token_text]; rewrite append_nil_r; [reflexivity..|].
  reflexivity.
Qed.

Lemma finite_low bits : word_ok bits -> is_finite_bits bits = true ->
  finite_word (if two31 <=? bits then bits - two31 else bits) = true.
Proof using.
  unfold word_ok, is_finite_bits, finite_word, two31, two32. intros Hw Hf. apply negb_true_iff, Z.eqb_neq in Hf.
  assert (Hlow : forall w, 0 <= w < 2147483648 -> (w / 8388608) mod 256 <> 255 -> w < 2139095040).
  { intros w H1 H2. destruct (Z.lt_ge_cases w 2139095040) as [|Hge]; [assumption|]. exfalso. apply H2.
    assert (E0 : w / 8388608 = 255) by (symmetry; apply (Z.div_unique _ _ _ (w - 255 * 8388608)); lia). rewrite E0. reflexivity. }
  apply andb_true_iff. destruct (Z.leb_spec 2147483648 bits).
  - split; [apply Z.leb_le; lia|]. apply Z.ltb_lt, Hlow; [lia|]. intros E0. apply Hf.
    replace bits with ((bits - 2147483648) + 256 * 8388608) by lia. rewrite Z.div_add by lia.
    rewrite <- Z.add_mod_idemp_r by lia. change (256 mod 256) with 0. rewrite Z.add_0_r. exact E0.
  - split; [apply Z.leb_le; lia|]. apply Z.ltb_lt, Hlow; [lia|exact Hf].
Qed.

Lemma has_point_minus s : has_point ("-" +:+ s) = has_point s.
Proof using. reflexivity. Qed.

Lemma float_pieces_text bits : word_ok bits -> is_finite_bits bits = true -> glue (float_pieces bits) = formatFloat bits.
Proof using.
  intros Hw Hf. pose proof (finite_low bits Hw Hf) as Hl. unfold float_pieces. destruct (Z.leb_spec two31 bits).
  - cbn [glue num_tok sym token_text]. rewrite append_nil_r. unfold formatFloat. pose proof (format_negative _ Hl) as K.
    replace (bits - two31 + two31) with bits in K by lia. rewrite K, has_point_minus. destruct (has_point _); [reflexivity|].
    rewrite (assoc String.append). reflexivity.
  - cbn [glue num_tok token_text]. apply append_nil_r.
Qed.

Lemma const_pieces_text t bits : word_ok bits -> glue (const_pieces t bits) = constant (dialect b) t bits.
Proof using.
  intros Hw. assert (Hfloat : glue (if is_finite_bits bits then float_pieces bits else nonfinite_pieces bits) =
    if is_finite_bits bits then formatFloat bits else Fprintf_d (NonFinite (dialect b)) bits).
  { destruct (is_finite_bits bits) eqn:Ef; [apply float_pieces_text; assumption|]. unfold nonfinite_pieces.
    destruct b; cbn [app glue token_text sym num_tok word_tok]; rewrite <- !(assoc String.append); reflexivity. }
  destruct t; cbn [const_pieces constant]; [exact Hfloat|exact Hfloat| |cbn [glue num_tok token_text]; apply append_nil_r].
  destruct (i32 bits =? - two31); [|apply int_pieces_text]. destruct b; reflexivity.
Qed.

Lemma wrap_text (c : bool) l s : glue l = s ->
  glue (if c then [sym "("] ++ l ++ [sym ")"] else l) = if c then "(" +:+ s +:+ ")" else s.
Proof using.
  intros <-. destruct c; [|reflexivity]. rewrite !glue_app. cbn [glue sym token_text]. rewrite !append_nil_r. reflexivity.
Qed.

Lemma infix_text (A B : list piece) op x y : glue A = x -> glue B = y -> glue (A ++ [sym op] ++ B) = x +:+ op +:+ y.
Proof using. intros <- <-. rewrite !glue_app. cbn [glue sym token_text]. rewrite append_nil_r. reflexivity. Qed.

Lemma call_text f (A : list piece) o c x : glue A = x -> glue ([word_tok f; sym o] ++ A ++ [sym c]) = f +:+ o +:+ x +:+ c.
Proof using. intros <-. rewrite !glue_app. cbn [glue word_tok sym token_text]. rewrite !append_nil_r, <- (assoc String.append). reflexivity. Qed.

Fixpoint pieces_text e {struct e} : forall limit, words_ok e = true -> glue (pieces e limit) = printer_expr (dialect b) e limit.
Proof using.
  intros limit Hw. destruct e as [n|v|v| |t bits|n i|a|x y|x y|x y|x y|x y|x y|x y|x y|x y|r x y|x y|c x y|t a|f args];
    cbn [words_ok] in Hw; rewrite ?andb_true_iff in Hw; cbn [pieces printer_expr]; apply wrap_text;
    try (apply infix_text; apply pieces_text; tauto).
  - apply append_nil_r.
  - apply int_pieces_text.
  - apply append_nil_r.
  - reflexivity.
  - apply const_pieces_text. unfold word_ok. lia.
  - apply call_text, pieces_text, Hw.
  - rewrite !glue_app. cbn [glue sym token_text]. rewrite (pieces_text a) by exact Hw. rewrite append_nil_r. reflexivity.
  - rewrite !glue_app. cbn [glue sym token_text]. rewrite (pieces_text x), (pieces_text y) by tauto. reflexivity.
  - destruct Hw as [[H1 H2] H3]. rewrite !glue_app. cbn [glue sym token_text].
    rewrite (pieces_text c), (pieces_text x), (pieces_text y) by assumption. rewrite !append_nil_r. reflexivity.
  - assert (Hplain : glue ([word_tok (Scalar t); sym "("] ++ pieces a 0 ++ [sym ")"]) = Scalar t +:+ "(" +:+ printer_expr (dialect b) a 0 +:+ ")").
    { apply call_text, pieces_text, Hw. }
    destruct a; try exact Hplain. unfold selects. destruct (IntRelSelect (dialect b) && bool_decide (t = I32)); [|exact Hplain].
    cbn [words_ok] in Hw. rewrite andb_true_iff in Hw. rewrite !glue_app. cbn [glue sym token_text num_tok].
    rewrite (pieces_text a1), (pieces_text a2) by tauto. rewrite !append_nil_r, <- !(assoc String.append). reflexivity.
  - set (go := fix go (first : bool) (args : list Expr) : string :=
      match args with [] => "" | a :: args' => (if first then "" else ", ") +:+ printer_expr (dialect b) a 0 +:+ go false args' end).
    change (glue ([word_tok (fnName f); sym "("] ++ commas true (map (fun a => pieces a 0) args) ++ [sym ")"]) = fnName f +:+ "(" +:+ go true args +:+ ")").
    apply call_text. generalize true as first. revert Hw. induction args as [|a args IH]; intros Hw first; [reflexivity|].
    cbn [forallb] in Hw. apply andb_true_iff in Hw as [Ha Hw]. cbn [map commas].
    change (go first (a :: args)) with ((if first then "" else ", ") +:+ printer_expr (dialect b) a 0 +:+ go false args).
    rewrite !glue_app, (pieces_text a 0 Ha), (IH Hw false). destruct first; reflexivity.
Qed.
End pieces.

(** ** The pieces are apart *)

(** *** Numerals *)

Fixpoint all_digits (s : string) : bool := match s with EmptyString => true | String c s' => is_digit c && all_digits s' end.

Lemma uint_digits d : all_digits (NilEmpty.string_of_uint d) = true.
Proof. induction d; cbn [NilEmpty.string_of_uint all_digits]; auto. Qed.

Lemma Itoa_digits z : 0 <= z -> exists c s, Itoa z = String c s /\ is_digit c = true /\ all_digits s = true.
Proof.
  intros Hz. unfold Itoa, NilZero.string_of_int. destruct z as [|p|p]; [|cbn [Z.to_int]|lia].
  - exists "0"%char, "". auto.
  - unfold NilZero.string_of_uint. pose proof (uint_digits (Pos.to_uint p)) as K.
    destruct (Pos.to_uint p); cbn [NilEmpty.string_of_uint all_digits] in *; eexists _, _; (split; [reflexivity|]); auto.
Qed.

Lemma digit_not_e c : is_digit c = true -> bool_decide (c = "e"%char) = false.
Proof. intros H. apply bool_decide_eq_false. intros ->. discriminate H. Qed.

Lemma digits_num s t : all_digits s = true -> num_chars false t = true -> num_chars false (s +:+ t) = true.
Proof.
  intros Hs Ht. induction s as [|c s IH]; [exact Ht|]. cbn [all_digits] in Hs. apply andb_true_iff in Hs as [Hc Hs].
  rewrite append_cons. cbn [num_chars]. unfold is_alnum. rewrite Hc, (digit_not_e c Hc), orb_true_r. exact (IH Hs).
Qed.

Lemma Itoa_numeral z t : 0 <= z -> num_chars false t = true -> numeral (Itoa z +:+ t) = true.
Proof.
  intros Hz Ht. destruct (Itoa_digits z Hz) as (c & s & -> & Hc & Hs). rewrite append_cons. cbn [numeral].
  rewrite Hc. apply digits_num; assumption.
Qed.

Lemma number_chars s : forall b t, number_tail b s = true -> num_chars false t = true -> num_chars b (s +:+ t) = true.
Proof.
  induction s as [|c s IH]; intros b t Hs Ht; cbn [number_tail] in Hs.
  { destruct b; [discriminate Hs|exact Ht]. }
  rewrite append_cons. cbn [num_chars]. destruct (bool_decide (c = "e"%char)) eqn:Ee.
  - apply bool_decide_eq_true in Ee as ->. exact (IH true t Hs Ht).
  - unfold is_alnum. destruct (is_digit c || bool_decide (c = "."%char)) eqn:Ed.
    + assert (K : (is_letter c || is_digit c) || bool_decide (c = "."%char) = true) by (rewrite <- orb_assoc, Ed; apply orb_true_r).
      rewrite K. exact (IH false t Hs Ht).
    + destruct b; [|discriminate Hs]. cbn [andb] in *. apply andb_true_iff in Hs as [Hc Hs]. rewrite Hc, !orb_true_r. exact (IH false t Hs Ht).
Qed.

Lemma number_numeral s t : number_text s = true -> num_chars false t = true -> numeral (s +:+ t) = true.
Proof.
  destruct s as [|c s]; [discriminate|]. cbn [number_text]. intros H Ht. apply andb_true_iff in H as [Hc Hs].
  rewrite append_cons. cbn [numeral]. rewrite Hc. apply number_chars; assumption.
Qed.

Lemma num_chars_end s : forall b, num_chars b s = true -> match s with EmptyString => True | _ => ends_e s = false end.
Proof.
  induction s as [|c s IH]; intros b Hs; [exact I|]. cbn [num_chars] in Hs. apply andb_true_iff in Hs as [_ Hs].
  specialize (IH _ Hs). destruct s as [|x s]; [|exact IH]. cbn [num_chars] in Hs. apply negb_true_iff in Hs. exact Hs.
Qed.
Lemma numeral_end s : numeral s = true -> ends_e s = false.
Proof.
  destruct s as [|c s]; [discriminate|]. cbn [numeral]. intros H. apply andb_true_iff in H as [Hc Hs].
  pose proof (num_chars_end s _ Hs) as K. destruct s as [|x s]; [exact (digit_not_e c Hc)|exact K].
Qed.

(** *** Open and closed tokens *)

Definition minus_first (l : list piece) : bool :=
  match l with Tok (TSym s) :: _ => bool_decide (s = "-") | _ => false end.

(** The token before an expression. *)
Definition opens (p : option token) (l : list piece) : Prop :=
  match p with
  | None => True
  | Some (TSym s) => s = "-" -> minus_first l = false
  | _ => False
  end.
(** The token at the end of an expression. *)
Definition closed (p : option token) : Prop :=
  match p with
  | Some (TId _) => True
  | Some (TNum s) => ends_e s = false
  | Some (TSym s) => s ∈ [")"; "]"]
  | None => False
  end.
Definition fits (p : option token) (l : list piece) : Prop := apart p l /\ closed (pending p l).

Lemma joins_minus s : joins s "-" = true -> s = "-".
Proof.
  unfold joins. rewrite bool_decide_eq_true. intros H.
  repeat (apply elem_of_cons in H as [H|H]; [destruct s as [|a [|b [|x [|y s]]]]; try discriminate H; injection H as ->; reflexivity|]).
  inversion H.
Qed.

Lemma joins_other s c : (c ∉ ["<"; ">"; "="; "&"; "|"; "+"; "-"; "/"; "*"]%char) -> joins s c = false.
Proof. intros H. destruct (joins s c) eqn:E; [|reflexivity]. contradiction (H (joins_last s c E)). Qed.

Lemma letter_plain c : is_alnum c = true -> (c ∉ ["<"; ">"; "="; "&"; "|"; "+"; "-"; "/"; "*"]%char).
Proof. intros H Hin. repeat (apply elem_of_cons in Hin as [->|Hin]; [discriminate H|]). inversion Hin. Qed.

(** The first token of an expression. *)
Definition starts (t : token) : Prop := valid t /\ match t with TSym s => s = "(" \/ s = "-" | _ => True end.

Lemma starts_apart p t l : starts t -> opens p (Tok t :: l) -> ends_before p (token_text t).
Proof.
  intros [Hv Hs] Ho. destruct p as [[s|s|s]|]; [contradiction|contradiction| |exact I]. cbn [ends_before].
  assert (Hplain : forall c, is_alnum c = true -> extend (TSym s) c = None).
  { intros c Hc. cbn [extend]. rewrite joins_other by (apply letter_plain, Hc). reflexivity. }
  destruct t as [x|x|x]; cbn [valid token_text] in *.
  - destruct x as [|c x]; [exact I|]. cbn [ident] in Hv. apply andb_true_iff in Hv as [Hc _]. apply Hplain. unfold is_alnum. rewrite Hc. reflexivity.
  - destruct x as [|c x]; [exact I|]. cbn [numeral] in Hv. apply andb_true_iff in Hv as [Hc _]. apply Hplain. unfold is_alnum. rewrite Hc. apply orb_true_r.
  - destruct Hs as [-> | ->]; cbn [extend].
    + rewrite joins_other; [reflexivity|]. intros Hin. repeat (apply elem_of_cons in Hin as [Hin|Hin]; [discriminate Hin|]). inversion Hin.
    + destruct (joins s "-") eqn:E; [|reflexivity]. discriminate (Ho (joins_minus s E)).
Qed.

Lemma closed_symbol p s : closed p -> s ∈ used_symbols -> ends_before p s.
Proof.
  intros Hp Hs. destruct p as [[x|x|x]|]; [| | |contradiction]; cbn [closed ends_before] in *.
  - repeat (apply elem_of_cons in Hs as [->|Hs]; [reflexivity|]). inversion Hs.
  - repeat (apply elem_of_cons in Hs as [->|Hs]; [cbn [extend]; rewrite Hp; reflexivity|]). inversion Hs.
  - repeat (apply elem_of_cons in Hp as [->|Hp]; [repeat (apply elem_of_cons in Hs as [->|Hs]; [reflexivity|]); inversion Hs|]). inversion Hp.
Qed.

Lemma opens_app p a b : opens p (a ++ b) -> opens p a.
Proof. destruct p as [[s|s|s]|]; auto. cbn [opens]. intros H E. specialize (H E). destruct a as [|[[]|] a]; [reflexivity|exact H..]. Qed.

Lemma fits_symbol p a s b : fits p a -> s ∈ used_symbols -> fits (Some (TSym s)) b -> fits p (a ++ [sym s] ++ b).
Proof.
  intros [H1 H2] Hs [H3 H4]. split.
  - apply apart_app. split; [exact H1|]. cbn [app apart sym valid]. split; [exact Hs|]. split; [apply closed_symbol; assumption|exact H3].
  - rewrite pending_app. exact H4.
Qed.

Lemma fits_close p a s : fits p a -> s ∈ [")"; "]"] -> fits p (a ++ [sym s]).
Proof.
  intros [H1 H2] Hs. assert (Hu : s ∈ used_symbols) by (apply list_elem_of_In; apply list_elem_of_In in Hs as [<- |[<- |[]]]; cbn; tauto).
  split.
  - apply apart_app. split; [exact H1|]. cbn [app apart sym valid]. split; [exact Hu|]. split; [apply closed_symbol; assumption|exact I].
  - rewrite pending_app. exact Hs.
Qed.

(** A whole token at the start. *)
Lemma fits_token p t l : starts t -> opens p (Tok t :: l) -> closed (Some t) -> fits p [Tok t].
Proof. intros Ht Ho Hc. split; [|exact Hc]. split; [apply Ht|]. split; [eapply starts_apart; eassumption|exact I]. Qed.

Lemma fits_start p t l : starts t -> opens p (Tok t :: l) -> fits (Some t) l -> fits p (Tok t :: l).
Proof. intros Ht Ho [H1 H2]. split; [|exact H2]. split; [apply Ht|]. split; [eapply starts_apart; eassumption|exact H1]. Qed.

Lemma starts_paren : starts (TSym "(").
Proof. split; [apply list_elem_of_In; cbn; tauto|auto]. Qed.

(** *** Expressions *)

(** Names that are not words of the language. *)
Definition reserved : list string := ["true"; "float"; "int"; "uint"; "bool"; "if"; "return"; "as_type"].
Definition good_name (n : string) : bool := ident n && bool_decide (n ∉ reserved).

Section apartness.
Context {T : FloatText} (b : backend).

(** What the printer is right for: names are identifiers, literals fit, a
    negation is of a name or a literal without a sign, and the comparison of a
    select in HLSL has operands that bind tighter. *)
Fixpoint text_ok (e : Expr) : bool :=
  match e with
  | ExprRef n => good_name n
  | ExprInt v => (- two31 <? v) && (v <? two31)
  | ExprUint v => (0 <=? v) && (v <? two32)
  | ExprTrue => true
  | ExprConst _ bits => (0 <=? bits) && (bits <? two32)
  | ExprLoad n i => good_name n && text_ok i
  | ExprNeg a => text_ok a && (prec a =? 11) && negb (minus_first (pieces b a 0))
  | ExprAdd x y | ExprMul x y | ExprDiv x y | ExprMod x y | ExprBitAnd x y | ExprBitOr x y | ExprBitXor x y
  | ExprShl x y | ExprShr x y | ExprRel _ x y | ExprAnd x y => text_ok x && text_ok y
  | ExprSel c x y => text_ok c && text_ok x && text_ok y
  | ExprCast t a =>
      text_ok a && is_number_type t &&
      match a with ExprRel _ x y => negb (selects b t) || (7 <=? prec x) && (7 <=? prec y) | _ => true end
  | ExprFn _ args => negb (bool_decide (length args = 0%nat)) && forallb text_ok args
  end.

Lemma text_words e : text_ok e = true -> words_ok e = true.
Proof using.
  revert e. fix IH 1. intros e. destruct e as [n|v|v| |t bits|n i|a|x y|x y|x y|x y|x y|x y|x y|x y|x y|r x y|x y|c x y|t a|f args];
    cbn [text_ok words_ok]; rewrite ?andb_true_iff; intros He; auto.
  all: try (split; apply IH; tauto); try (apply IH; tauto).
  - destruct He as [[H1 H2] H3]. repeat split; apply IH; assumption.
  - destruct He as [_ He]. induction args as [|a args IHa]; [reflexivity|]. cbn [forallb] in *. apply andb_true_iff in He as [Ha He].
    rewrite (IH a Ha). exact (IHa He).
Qed.

Lemma starts_word n : ident n = true -> starts (TId n).
Proof using. intros H. split; [exact H|exact I]. Qed.
Lemma fits_word p n l : ident n = true -> opens p (word_tok n :: l) -> fits p [word_tok n].
Proof using. intros H Ho. apply (fits_token p (TId n) l); [apply starts_word, H|exact Ho|exact I]. Qed.
Lemma fits_number p s l : numeral s = true -> opens p (num_tok s :: l) -> fits p [num_tok s].
Proof using. intros H Ho. apply (fits_token p (TNum s) l); [split; [exact H|exact I]|exact Ho|apply numeral_end, H]. Qed.

(** A number with or without its sign. *)
Lemma fits_signed p (neg : bool) s s' : numeral s = true -> numeral s' = true ->
  opens p (if neg then [sym "-"; num_tok s] else [num_tok s']) -> fits p (if neg then [sym "-"; num_tok s] else [num_tok s']).
Proof using.
  intros Hs Hs' Ho. destruct neg; [|eapply fits_number; eassumption].
  apply (fits_start p (TSym "-") [num_tok s]); [split; [apply list_elem_of_In; cbn; tauto|auto]|exact Ho|].
  apply (fits_number _ s []); [exact Hs|]. intros _. reflexivity.
Qed.

Lemma fits_int p v : opens p (int_pieces v) -> fits p (int_pieces v).
Proof using.
  unfold int_pieces. destruct (Z.ltb_spec v 0) as [Hv|Hv]; intros Ho.
  - apply (fits_signed p true (Itoa (- v)) "0"); [|reflexivity|exact Ho].
    rewrite <- (append_nil_r (Itoa (- v))). apply Itoa_numeral; [lia|reflexivity].
  - apply (fits_signed p false "0" (Itoa v)); [reflexivity| |exact Ho].
    rewrite <- (append_nil_r (Itoa v)). apply Itoa_numeral; [lia|reflexivity].
Qed.

Lemma float_numeral w : finite_word w = true -> numeral (formatFloat w) = true.
Proof using.
  intros H. unfold formatFloat. pose proof (format_number w H) as K. destruct (has_point (FormatFloat w)).
  - rewrite <- (append_nil_r (FormatFloat w)). apply number_numeral; [exact K|reflexivity].
  - apply number_numeral; [exact K|reflexivity].
Qed.

Lemma uint_numeral v : 0 <= v -> numeral (Itoa v +:+ "u") = true.
Proof using. intros H. apply Itoa_numeral; [exact H|reflexivity]. Qed.

(** A call: a word, and its arguments in parentheses. *)
Lemma fits_call p f l : ident f = true -> opens p [word_tok f] -> fits (Some (TSym "(")) l ->
  fits p ([word_tok f; sym "("] ++ l ++ [sym ")"]).
Proof using.
  intros Hf Ho Hl. change ([word_tok f; sym "("] ++ l ++ [sym ")"]) with ([word_tok f] ++ [sym "("] ++ (l ++ [sym ")"])).
  apply fits_symbol; [apply (fits_word p f []); assumption|apply list_elem_of_In; cbn; tauto|].
  apply fits_close; [exact Hl|constructor].
Qed.

Lemma opens_after s l : s <> "-" -> opens (Some (TSym s)) l.
Proof using. intros H E. contradiction. Qed.

Lemma fits_nonfinite p bits : word_ok bits -> opens p (nonfinite_pieces b bits) -> fits p (nonfinite_pieces b bits).
Proof using.
  intros Hw Ho. assert (Hn : fits (Some (TSym "(")) [num_tok (Itoa bits +:+ "u")]).
  { apply (fits_number _ _ []); [apply uint_numeral; unfold word_ok in Hw; lia|apply opens_after; discriminate]. }
  unfold nonfinite_pieces in *. destruct b; cbn [app] in *.
  - apply (fits_call p "uintBitsToFloat" [num_tok (Itoa bits +:+ "u")]); [reflexivity|exact (opens_app p [_] _ Ho)|exact Hn].
  - change (fits p ([word_tok "as_type"] ++ [sym "<"] ++ ([word_tok "float"; sym ">"; sym "("; num_tok (Itoa bits +:+ "u"); sym ")"]))).
    apply fits_symbol; [apply (fits_word p "as_type" []); [reflexivity|exact (opens_app p [_] _ Ho)]|apply list_elem_of_In; cbn; tauto|].
    apply (fits_symbol _ [word_tok "float"] ">"); [apply (fits_word _ _ []); [reflexivity|apply opens_after; discriminate]|apply list_elem_of_In; cbn; tauto|].
    apply (fits_start _ (TSym "(") (_ :: _)); [apply starts_paren|apply opens_after; discriminate|].
    apply (fits_close _ [_] ")"); [exact Hn|constructor].
  - apply (fits_call p "asfloat" [num_tok (Itoa bits +:+ "u")]); [reflexivity|exact (opens_app p [_] _ Ho)|exact Hn].
Qed.

Lemma fits_const p t bits : word_ok bits -> opens p (const_pieces b t bits) -> fits p (const_pieces b t bits).
Proof using.
  intros Hw. assert (Hfloat : opens p (if is_finite_bits bits then float_pieces bits else nonfinite_pieces b bits) ->
    fits p (if is_finite_bits bits then float_pieces bits else nonfinite_pieces b bits)).
  { destruct (is_finite_bits bits) eqn:Ef; [|apply fits_nonfinite, Hw]. pose proof (finite_low bits Hw Ef) as Hl.
    unfold float_pieces. destruct (two31 <=? bits); intros Ho.
    - apply (fits_signed p true _ "0"); [apply float_numeral, Hl|reflexivity|exact Ho].
    - apply (fits_signed p false "0"); [reflexivity|apply float_numeral, Hl|exact Ho]. }
  destruct t; cbn [const_pieces]; [exact Hfloat|exact Hfloat| |].
  - destruct (i32 bits =? - two31); [|apply fits_int]. intros Ho.
    apply (fits_call p _ [num_tok "0x80000000u"]); [destruct b; reflexivity|exact (opens_app p [_] _ Ho)|].
    apply (fits_number _ _ []); [reflexivity|apply opens_after; discriminate].
  - apply fits_number, uint_numeral, Z.mod_pos_bound. reflexivity.
Qed.

Lemma fits_wrap p (c : bool) l : (forall p, opens p l -> fits p l) ->
  opens p (if c then [sym "("] ++ l ++ [sym ")"] else l) -> fits p (if c then [sym "("] ++ l ++ [sym ")"] else l).
Proof using.
  intros H Ho. destruct c; [|apply H, Ho]. apply (fits_start p (TSym "(") (l ++ [sym ")"])); [apply starts_paren|exact Ho|].
  apply fits_close; [apply H, opens_after; discriminate|constructor].
Qed.

Lemma rel_symbol r : relTok r ∈ used_symbols /\ relTok r <> "-".
Proof using. split; [apply list_elem_of_In|]; destruct r; cbn; (tauto || discriminate). Qed.

(** Two operands and an operator. *)
Lemma fits_infix p x op y : (forall p, opens p x -> fits p x) -> (forall p, opens p y -> fits p y) -> op ∈ used_symbols -> op <> "-" ->
  opens p (x ++ [sym op] ++ y) -> fits p (x ++ [sym op] ++ y).
Proof using.
  intros Hx Hy Hop Hm Ho. apply fits_symbol; [apply Hx, (opens_app _ _ _ Ho)|exact Hop|apply Hy, opens_after, Hm].
Qed.

Lemma fits_gap p l : fits None l -> fits p (Gap " " :: l).
Proof using. intros [H1 H2]. split; [split; [reflexivity|exact H1]|exact H2]. Qed.

Lemma fits_commas args : Forall (fun a => forall p, opens p a -> fits p a) args ->
  forall a p, (forall p, opens p a -> fits p a) -> opens p a -> fits p (commas true (a :: args)).
Proof using.
  intros H. induction H as [|x args Hx H IH]; intros a p Ha Ho; cbn [commas app].
  - rewrite app_nil_r. apply Ha, Ho.
  - apply (fits_symbol p a "," (Gap " " :: x ++ commas false args)); [apply Ha, Ho|apply list_elem_of_In; cbn; tauto|].
    apply fits_gap, (IH x None Hx I).
Qed.

Lemma fn_ident f : ident (fnName f) = true.
Proof using. destruct f; reflexivity. Qed.
Lemma scalar_ident t : ident (Scalar t) = true.
Proof using. destruct t; reflexivity. Qed.
Lemma good_ident n : good_name n = true -> ident n = true.
Proof using. intros H. apply andb_true_iff in H. tauto. Qed.

Lemma fits_load p n l : ident n = true -> opens p [word_tok n] -> fits (Some (TSym "[")) l ->
  fits p ([word_tok n; sym "["] ++ l ++ [sym "]"]).
Proof using.
  intros Hf Ho Hl. change ([word_tok n; sym "["] ++ l ++ [sym "]"]) with ([word_tok n] ++ [sym "["] ++ (l ++ [sym "]"])).
  apply fits_symbol; [apply (fits_word p n []); assumption|apply list_elem_of_In; cbn; tauto|].
  apply fits_close; [exact Hl|apply list_elem_of_In; cbn; tauto].
Qed.

(** The select that HLSL has for a cast of a comparison. *)
Lemma fits_select p r x y : (forall p, opens p x -> fits p x) -> (forall p, opens p y -> fits p y) ->
  let l := [sym "("; sym "("] ++ x ++ [sym (relTok r)] ++ y ++ [sym ")"; sym "?"; num_tok "1"; sym ":"; num_tok "0"; sym ")"] in
  opens p l -> fits p l.
Proof using.
  intros Hx Hy l Ho. destruct (rel_symbol r) as [R1 R2]. apply (fits_start p (TSym "(")); [apply starts_paren|exact Ho|].
  apply (fits_start _ (TSym "(")); [apply starts_paren|apply opens_after; discriminate|].
  apply fits_symbol; [apply Hx, opens_after; discriminate|exact R1|].
  change (y ++ [sym ")"; sym "?"; num_tok "1"; sym ":"; num_tok "0"; sym ")"])
    with (y ++ [sym ")"] ++ [sym "?"; num_tok "1"; sym ":"; num_tok "0"; sym ")"]). rewrite app_assoc.
  assert (Hn : forall q s, numeral s = true -> q <> "-" -> fits (Some (TSym q)) [num_tok s]).
  { intros q s Hs Hq. apply (fits_number _ s []); [exact Hs|apply opens_after, Hq]. }
  apply (fits_symbol _ (y ++ [sym ")"]) "?" [num_tok "1"; sym ":"; num_tok "0"; sym ")"]).
  - apply fits_close; [apply Hy, opens_after, R2|constructor].
  - apply list_elem_of_In; cbn; tauto.
  - apply (fits_symbol _ [num_tok "1"] ":" [num_tok "0"; sym ")"]); [apply Hn; [reflexivity|discriminate]|apply list_elem_of_In; cbn; tauto|].
    apply (fits_close _ [num_tok "0"] ")"); [apply Hn; [reflexivity|discriminate]|constructor].
Qed.

(** A printed expression is apart from the token before it. *)
Lemma pieces_fit e : forall limit p, text_ok e = true -> opens p (pieces b e limit) -> fits p (pieces b e limit).
Proof using.
  revert e. fix IH 1. intros e limit p He.
  destruct e as [n|v|v| |t bits|n i|a|x y|x y|x y|x y|x y|x y|x y|x y|x y|r x y|x y|c x y|t a|f args]; cbn [text_ok] in He;
    rewrite ?andb_true_iff in He; apply fits_wrap; clear p limit; intros p Ho; cbn [prec] in *;
    try (revert Ho; apply fits_infix; [intros q; apply IH; tauto|intros q; apply IH; tauto|apply list_elem_of_In; cbn; tauto|discriminate]).
  - apply (fits_word p n []); [apply good_ident, He|exact Ho].
  - apply fits_int, Ho.
  - unfold FormatUint in *. apply (fits_number p _ []); [apply uint_numeral, Z.mod_pos_bound; reflexivity|exact Ho].
  - apply (fits_word p "true" []); [reflexivity|exact Ho].
  - apply fits_const; [unfold word_ok; lia|exact Ho].
  - apply fits_load; [apply good_ident, He|exact (opens_app p [_] _ Ho)|apply IH; [apply He|apply opens_after; discriminate]].
  - destruct He as [[Ha _] Hm]. apply (fits_start p (TSym "(")); [apply starts_paren|exact Ho|].
    apply (fits_start _ (TSym "-")); [split; [apply list_elem_of_In; cbn; tauto|auto]|apply opens_after; discriminate|].
    apply fits_close; [|constructor]. apply IH; [exact Ha|]. intros _. apply negb_true_iff, Hm.
  - revert Ho. apply fits_infix; [intros q; apply IH; tauto|intros q; apply IH; tauto|apply rel_symbol|apply rel_symbol].
  - destruct (IH x 2 p (proj1 He) (opens_app _ _ _ Ho)) as [H1 H2]. split.
    + apply apart_app. split; [exact H1|].
      cbn [app apart sym]. destruct (IH y 3 None (proj2 He) I) as [H3 H4].
      split; [reflexivity|]. split; [apply list_elem_of_In; cbn; tauto|]. split; [exact I|]. split; [reflexivity|exact H3].
    + rewrite pending_app. apply (IH y 3 None (proj2 He) I).
  - destruct He as [[Hc Hx] Hy]. apply fits_symbol; [apply IH; [exact Hc|apply (opens_app _ _ _ Ho)]|apply list_elem_of_In; cbn; tauto|].
    apply fits_symbol; [apply IH; [exact Hx|apply opens_after; discriminate]|apply list_elem_of_In; cbn; tauto|].
    apply IH; [exact Hy|apply opens_after; discriminate].
  - destruct He as [[Ha Ht] Hsel].
    assert (Hplain : opens p ([word_tok (Scalar t); sym "("] ++ pieces b a 0 ++ [sym ")"]) -> fits p ([word_tok (Scalar t); sym "("] ++ pieces b a 0 ++ [sym ")"])).
    { intros Hp. apply fits_call; [apply scalar_ident|exact (opens_app p [_] _ Hp)|apply IH; [exact Ha|apply opens_after; discriminate]]. }
    destruct a as [| | | | | | | | | | | | | | | |r x y| | | |]; try exact (Hplain Ho). destruct (selects b t); [|exact (Hplain Ho)].
    cbn [text_ok] in Ha. rewrite andb_true_iff in Ha.
    apply fits_select; [intros q; apply IH; tauto|intros q; apply IH; tauto|exact Ho].
  - destruct He as [Hne He]. apply fits_call; [apply fn_ident|exact (opens_app p [_] _ Ho)|]. destruct args as [|a args]; [discriminate Hne|].
    clear Hne Ho. cbn [forallb] in He. apply andb_true_iff in He as [Ha He]. cbn [map].
    apply fits_commas; [|intros q; apply (IH a 0 q Ha)|apply opens_after; discriminate].
    clear Ha. induction args as [|x args IHa]; [constructor|]. cbn [forallb] in He. apply andb_true_iff in He as [Hx He].
    cbn [map]. constructor; [intros q; apply (IH x 0 q Hx)|exact (IHa He)].
Qed.
End apartness.

(** ** Statements *)

(** Texts associated to the right. *)
Ltac text_norm := repeat (rewrite append_cons || rewrite append_nil_l || rewrite <- (assoc String.append)).

Section bodies.
Context {T : FloatText} (b : backend).

Definition newline_gap : piece := Gap (ascii_of_nat 10).
Definition assign_pieces (n op : string) (rhs : Expr) : list piece :=
  [word_tok n; Gap " "; sym op; Gap " "] ++ pieces b rhs 0 ++ [sym ";"; newline_gap].

Definition stmt_pieces (s : Stmt) : list piece :=
  [Gap " "; Gap " "; Gap " "; Gap " "] ++
  match s with
  | StmtReturn c => [word_tok "if"; Gap " "; sym "("] ++ pieces b c 0 ++ [sym ")"; Gap " "; word_tok "return"; sym ";"; newline_gap]
  | StmtDecl t Bool n rhs => [word_tok (if Bool then "bool" else Scalar t); Gap " "] ++ assign_pieces n "=" rhs
  | StmtSet n rhs => assign_pieces n "=" rhs
  | StmtIfSet c n rhs => [word_tok "if"; Gap " "; sym "("] ++ pieces b c 0 ++ [sym ")"; Gap " "] ++ assign_pieces n "=" rhs
  | StmtAdd n rhs => assign_pieces n "+=" rhs
  | StmtStore rhs => [word_tok "o"; sym "["; word_tok "i"; sym "]"; Gap " "; sym "="; Gap " "] ++ pieces b rhs 0 ++ [sym ";"; newline_gap]
  end.

Fixpoint body_pieces (ss : list Stmt) : list piece :=
  match ss with [] => [] | s :: ss' => stmt_pieces s ++ body_pieces ss' end.

Definition stmt_ok (s : Stmt) : bool :=
  match s with
  | StmtReturn c => text_ok b c
  | StmtDecl _ _ n rhs | StmtSet n rhs | StmtAdd n rhs => good_name n && text_ok b rhs
  | StmtIfSet c n rhs => text_ok b c && good_name n && text_ok b rhs
  | StmtStore rhs => text_ok b rhs
  end.

Lemma expr_text e : text_ok b e = true -> glue (pieces b e 0) = spellExpr (dialect b) e.
Proof using. intros H. apply pieces_text. exact (text_words b e H). Qed.

Lemma assign_text n op rhs : text_ok b rhs = true ->
  glue (assign_pieces n op rhs) = n +:+ (" " +:+ op +:+ " ") +:+ spellExpr (dialect b) rhs +:+ ";" +:+ newline.
Proof using.
  intros H. unfold assign_pieces. rewrite !glue_app, (expr_text rhs H). cbn [glue word_tok sym token_text newline_gap].
  text_norm. reflexivity.
Qed.

Lemma stmt_text s : stmt_ok s = true -> glue (stmt_pieces s) = spell_stmt (dialect b) s.
Proof using.
  unfold stmt_pieces, spell_stmt, stmt_ok. intros H. rewrite glue_app.
  change (glue [Gap " "; Gap " "; Gap " "; Gap " "]) with "    ". f_equal.
  destruct s as [t B n rhs|n rhs|c n rhs|n rhs|rhs|c]; rewrite ?andb_true_iff in H.
  - rewrite glue_app, assign_text by tauto. cbn [glue word_tok token_text]. text_norm. reflexivity.
  - rewrite assign_text by tauto. cbn [glue word_tok sym token_text]. text_norm. reflexivity.
  - rewrite !glue_app, assign_text, (expr_text c) by tauto. cbn [glue word_tok sym token_text]. text_norm. reflexivity.
  - rewrite assign_text by tauto. cbn [glue word_tok sym token_text]. text_norm. reflexivity.
  - rewrite !glue_app, (expr_text rhs) by tauto. cbn [glue word_tok sym token_text]. text_norm. reflexivity.
  - rewrite !glue_app, (expr_text c) by tauto. cbn [glue word_tok sym token_text]. text_norm. reflexivity.
Qed.

Lemma body_text ss : forallb stmt_ok ss = true -> glue (body_pieces ss) = WriteBody (dialect b) ss.
Proof using.
  induction ss as [|s ss IH]; [reflexivity|]. cbn [forallb body_pieces WriteBody]. intros H. apply andb_true_iff in H as [Hs H].
  rewrite glue_app, stmt_text, IH by assumption. reflexivity.
Qed.

(** Pieces after a blank that end in a blank. *)
Definition blank (l : list piece) : Prop := apart None l /\ pending None l = None.

Lemma blank_app l l' : blank l -> blank l' -> blank (l ++ l').
Proof using. intros [H1 H2] [H3 H4]. split; [apply apart_app; rewrite H2; auto|rewrite pending_app, H2; exact H4]. Qed.

(** A closed expression, a symbol and a blank. *)
Lemma fits_blank e p s c l : text_ok b e = true -> opens p [] -> p <> Some (TSym "-") -> s ∈ used_symbols -> is_space c = true -> blank l ->
  apart p (pieces b e 0 ++ [sym s; Gap c] ++ l) /\ pending p (pieces b e 0 ++ [sym s; Gap c] ++ l) = None.
Proof using.
  intros He Hp Hm Hs Hc [H1 H2]. destruct (pieces_fit b e 0 p He) as [K1 K2].
  { destruct p as [[x|x|x]|]; auto. intros ->. contradiction. }
  split; [|rewrite pending_app; exact H2]. apply apart_app. split; [exact K1|].
  split; [exact Hs|]. split; [apply closed_symbol; assumption|]. split; [exact Hc|exact H1].
Qed.

Lemma blank_nil : blank [].
Proof using. split; [exact I|reflexivity]. Qed.
Lemma blank_gap c l : is_space c = true -> blank l -> blank (Gap c :: l).
Proof using. intros Hc [H1 H2]. split; [split; assumption|exact H2]. Qed.
Lemma blank_word n c l : ident n = true -> is_space c = true -> blank l -> blank (word_tok n :: Gap c :: l).
Proof using. intros Hn Hc [H1 H2]. split; [|exact H2]. split; [exact Hn|]. split; [exact I|]. split; assumption. Qed.
Lemma blank_symbol s c l : s ∈ used_symbols -> is_space c = true -> blank l -> blank (sym s :: Gap c :: l).
Proof using. intros Hn Hc [H1 H2]. split; [|exact H2]. split; [exact Hn|]. split; [exact I|]. split; assumption. Qed.

Lemma assign_blank n op rhs : good_name n = true -> text_ok b rhs = true -> op ∈ ["="; "+="] -> blank (assign_pieces n op rhs).
Proof using.
  intros Hn He Hop. apply blank_word; [apply good_ident, Hn|reflexivity|].
  apply blank_symbol; [apply list_elem_of_In; apply list_elem_of_In in Hop as [<- |[<- |[]]]; cbn; tauto|reflexivity|].
  apply (fits_blank rhs None ";" (ascii_of_nat 10) []); [exact He|exact I|discriminate|apply list_elem_of_In; cbn; tauto|reflexivity|apply blank_nil].
Qed.

(** if (c), and what follows *)
Lemma if_blank c l : text_ok b c = true -> blank l -> blank ([word_tok "if"; Gap " "; sym "("] ++ pieces b c 0 ++ [sym ")"; Gap " "] ++ l).
Proof using.
  intros Hc Hl. apply blank_word; [reflexivity..|].
  destruct (fits_blank c (Some (TSym "(")) ")" " " l Hc) as [K1 K2]; [discriminate|discriminate|apply list_elem_of_In; cbn; tauto|reflexivity|exact Hl|].
  split; [|exact K2]. split; [apply list_elem_of_In; cbn; tauto|]. split; [exact I|exact K1].
Qed.

Lemma stmt_blank s : stmt_ok s = true -> blank (stmt_pieces s).
Proof using.
  unfold stmt_pieces, stmt_ok. intros H. do 4 (apply blank_gap; [reflexivity|]).
  assert (Hset : forall n rhs op, good_name n = true /\ text_ok b rhs = true -> op ∈ ["="; "+="] -> blank (assign_pieces n op rhs)).
  { intros n rhs op [H1 H2]. apply assign_blank; assumption. }
  destruct s as [t B n rhs|n rhs|c n rhs|n rhs|rhs|c]; rewrite ?andb_true_iff in H.
  - apply (blank_word _ " "); [destruct B; [reflexivity|apply scalar_ident]|reflexivity|]. apply Hset; [exact H|constructor].
  - apply Hset; [exact H|constructor].
  - apply if_blank; [apply H|]. apply Hset; [tauto|constructor].
  - apply Hset; [exact H|constructor; constructor].
  - assert (K : blank ([sym "="; Gap " "] ++ pieces b rhs 0 ++ [sym ";"; newline_gap])).
    { apply blank_symbol; [apply list_elem_of_In; cbn; tauto|reflexivity|].
      apply (fits_blank rhs None ";" (ascii_of_nat 10) []); [exact H|exact I|discriminate|apply list_elem_of_In; cbn; tauto|reflexivity|apply blank_nil]. }
    destruct K as [K1 K2]. split; [|exact K2]. cbn [app apart]. repeat (split; [first [reflexivity|exact I|apply list_elem_of_In; cbn; tauto]|]). cbn [app apart] in K1. apply K1.
  - apply (if_blank c [word_tok "return"; sym ";"; newline_gap] H). split; [|reflexivity].
    cbn [apart]. repeat (split; [first [reflexivity|exact I|apply list_elem_of_In; cbn; tauto]|]). exact I.
Qed.

Lemma body_blank ss : forallb stmt_ok ss = true -> blank (body_pieces ss).
Proof using.
  induction ss as [|s ss IH]; cbn [forallb body_pieces]; intros H; [apply blank_nil|]. apply andb_true_iff in H as [Hs H].
  apply blank_app; [apply stmt_blank, Hs|apply IH, H].
Qed.

(** The lexer finds the tokens that the printer meant. *)
Lemma lex_body ss : forallb stmt_ok ss = true -> lex None (WriteBody (dialect b) ss) = Some (toks (body_pieces ss)).
Proof using. intros H. rewrite <- body_text by exact H. apply (lex_glue (body_pieces ss) None), body_blank, H. Qed.
End bodies.
