(* ===== verification/Parsing.v ===== *)
(** * The parser finds the printed expressions

    The precedences of the printer against those of C: the tokens of a printed
    expression parse as the expression, with literals and casts spelled out
    ([reading]), and the statements of a schedule parse as its statements.
    A reading means what the expression means, so the text of a schedule,
    read back, runs as the schedule does. *)
From Stdlib Require Import ZArith Lia Ascii.
From stdpp Require Import base numbers option list strings gmap.
From S2P Require Import Prelude Float Alu Shape View Tracker Expr Rewrite Optimize Flatten Cpu Kernel Code Shader Emits Spell Reading Lexing.

Local Open Scope Z_scope.

(** ** What the text says *)

Definition read_int (v : Z) : Expr := if v <? 0 then ExprNeg (ExprInt (- v)) else ExprInt v.
Definition read_float (bits : Z) : Expr :=
  if is_finite_bits bits && (two31 <=? bits) then ExprNeg (ExprConst F32 (bits - two31)) else ExprConst F32 bits.
Definition read_const (t : DType) (bits : Z) : Expr :=
  match t with
  | I32 => if i32 bits =? - two31 then ExprCast I32 (ExprUint 2147483648) else read_int (i32 bits)
  | U8 => ExprUint (bits mod 256)
  | _ => read_float bits
  end.

(** The level of an operator in C; the printer's precedences have no level for
    [<] above [==]. *)
Definition level (e : Expr) : Z :=
  match e with
  | ExprRel RelEQ _ _ | ExprRel RelNE _ _ => 6
  | ExprRel _ _ _ => 7
  | _ => if prec e <=? 6 then prec e else if prec e <=? 10 then prec e + 1 else 11
  end.

(** An operator of this level or above would belong to the expression. *)
Definition stop_level (e : Expr) : Z := match e with ExprSel _ _ _ => 1 | _ => level e + 1 end.

Definition stops (k : Z) (ts : list token) : bool :=
  match ts with
  | TSym s :: _ =>
      if bool_decide (s = "?") then 1 <? k
      else match binop s with Some (lv, _) => lv <? k | None => bool_decide (s ∉ ["("; "["]) end
  | _ => true
  end.

Lemma binop_level s lv mk : binop s = Some (lv, mk) -> 2 <= lv <= 10 /\ s <> "?" /\ s <> "(" /\ s <> "[".
Proof.
  unfold binop. repeat case_bool_decide; intros [= <- _]; subst; (split; [lia|]); repeat split; discriminate.
Qed.

Lemma stops_mono k k' ts : k <= k' -> stops k ts = true -> stops k' ts = true.
Proof.
  intros Hk. destruct ts as [|[|s'|s] ts]; cbn [stops]; auto. case_bool_decide; [lia|].
  destruct (binop s) as [[lv mk]|]; [lia|auto].
Qed.

Lemma stops_heads k ts : stops k ts = true -> take_sym "(" ts = None /\ take_sym "[" ts = None.
Proof.
  destruct ts as [|[|s'|s] ts]; cbn [stops take_sym]; auto. case_bool_decide as Hq; [subst; auto|].
  destruct (binop s) as [[lv mk]|] eqn:Eb.
  - intros _. apply binop_level in Eb. rewrite !bool_decide_false by tauto. auto.
  - intros H. apply bool_decide_eq_true in H. rewrite !not_elem_of_cons in H. rewrite !bool_decide_false by tauto. auto.
Qed.

(** ** The rules of the parser *)

Section rules.
Context {T : FloatText}.

Abbreviation p_expr min ts := (gives (fun f => parse_expr f min ts)).
Abbreviation p_unary ts := (gives (fun f => parse_unary f ts)).
Abbreviation p_args ts := (gives (fun f => parse_args f ts)).
Abbreviation p_climb min l ts := (gives (fun f => climb f min l ts)).

Lemma rule_expr min ts l ts' res : p_unary ts (l, ts') -> p_climb min l ts' res -> p_expr min ts res.
Proof using.
  intros H1 H2. eapply gives_step; [reflexivity|]. apply (gives_bind _ _ (l, ts')); [exact H1|exact H2].
Qed.

Lemma rule_stop min l ts : stops min ts = true -> p_climb min l ts (l, ts).
Proof using.
  intros H. apply (gives_step _ (fun _ => Some (l, ts))); [|apply gives_ret]. intros n. destruct ts as [|[|s'|s] ts]; try reflexivity.
  cbn [climb]. cbn [stops] in H. case_bool_decide as Hq.
  - destruct (Z.leb_spec min 1); [lia|reflexivity].
  - destruct (binop s) as [[lv mk]|]; [|reflexivity]. destruct (Z.leb_spec min lv); [lia|reflexivity].
Qed.

(** Nothing follows that an expression could take. *)
Lemma rule_end min l ts : stops 1 ts = true -> p_climb min l ts (l, ts).
Proof using.
  intros H. apply (gives_step _ (fun _ => Some (l, ts))); [|apply gives_ret]. intros n. destruct ts as [|[|s'|s] ts]; try reflexivity.
  cbn [climb]. cbn [stops] in H. case_bool_decide as Hq; [discriminate H|].
  destruct (binop s) as [[lv mk]|] eqn:Eb; [|reflexivity]. apply binop_level in Eb. lia.
Qed.

Lemma rule_op min l s ts lv mk r ts' res : binop s = Some (lv, mk) -> min <= lv ->
  p_expr (lv + 1) ts (r, ts') -> p_climb min (mk l r) ts' res -> p_climb min l (TSym s :: ts) res.
Proof using.
  intros Hb Hlv H1 H2. eapply gives_step.
  - intros n. cbn [climb]. pose proof (binop_level s lv mk Hb) as (_ & Hq & _). rewrite (bool_decide_false _ Hq), Hb.
    destruct (Z.leb_spec min lv); [reflexivity|lia].
  - apply (gives_bind _ _ (r, ts')); [exact H1|exact H2].
Qed.

Lemma rule_select min l ts a ts1 c ts2 : min <= 1 -> p_expr 0 ts (a, TSym ":" :: ts1) -> p_expr 1 ts1 (c, ts2) ->
  p_climb min l (TSym "?" :: ts) (ExprSel l a c, ts2).
Proof using.
  intros Hm H1 H2. eapply gives_step.
  - intros n. cbn [climb]. rewrite bool_decide_true by reflexivity. destruct (Z.leb_spec min 1); [reflexivity|lia].
  - apply (gives_bind _ _ (a, TSym ":" :: ts1)); [exact H1|]. cbn [take_sym]. rewrite bool_decide_true by reflexivity.
    apply (gives_bind _ _ (c, ts2)); [exact H2|]. apply gives_ret.
Qed.

Lemma rule_neg ts a ts' : p_unary ts (a, ts') -> p_unary (TSym "-" :: ts) (ExprNeg a, ts').
Proof using.
  intros H. eapply gives_step; [intros n; cbn [parse_unary]; rewrite bool_decide_true by reflexivity; reflexivity|].
  apply (gives_bind _ _ (a, ts')); [exact H|apply gives_ret].
Qed.

Lemma rule_paren ts a ts' : p_expr 0 ts (a, TSym ")" :: ts') -> p_unary (TSym "(" :: ts) (a, ts').
Proof using.
  intros H. eapply gives_step; [intros n; cbn [parse_unary]; reflexivity|].
  apply (gives_bind _ _ (a, TSym ")" :: ts')); [exact H|apply gives_ret].
Qed.

Lemma rule_number s a ts : read_num s = Some a -> p_unary (TNum s :: ts) (a, ts).
Proof using. intros H. apply (gives_step _ (fun _ => Some (a, ts))); [|apply gives_ret]. intros n. cbn [parse_unary]. rewrite H. reflexivity. Qed.

Lemma skip_paren f ts : skip_template f (TSym "(" :: ts) = TSym "(" :: ts.
Proof using.
  destruct ts as [|[b|b|b] [|[c|c|c] ts]]; try reflexivity. cbn [skip_template]. rewrite bool_decide_false; [reflexivity|]. intros (_ & K & _). discriminate K.
Qed.
Lemma skip_other f ts : f <> "as_type" -> skip_template f ts = ts.
Proof using.
  intros H. destruct ts as [|[a|a|a] [|[b|b|b] [|[c|c|c] ts]]]; try reflexivity. cbn [skip_template].
  rewrite bool_decide_false; [reflexivity|]. intros (K & _). contradiction.
Qed.

Lemma rule_call f ts ts0 args ts' a : take_sym "(" (skip_template f ts) = Some ts0 -> p_args ts0 (args, ts') -> read_call f args = Some a ->
  p_unary (TId f :: ts) (a, ts').
Proof using.
  intros Hs H Hr. eapply gives_step; [intros n; cbn [parse_unary]; rewrite Hs; reflexivity|].
  apply (gives_bind _ _ (args, ts')); [exact H|]. cbn. rewrite Hr. apply gives_ret.
Qed.

Lemma rule_index n ts i ts' : n <> "as_type" -> p_expr 0 ts (i, TSym "]" :: ts') -> p_unary (TId n :: TSym "[" :: ts) (ExprLoad n i, ts').
Proof using.
  intros Hn H. eapply gives_step; [intros f; cbn [parse_unary]; rewrite skip_other by exact Hn; reflexivity|].
  apply (gives_bind _ _ (i, TSym "]" :: ts')); [exact H|apply gives_ret].
Qed.

Lemma rule_name n ts : n <> "as_type" -> stops 12 ts = true ->
  p_unary (TId n :: ts) (if bool_decide (n = "true") then ExprTrue else ExprRef n, ts).
Proof using.
  intros Hn Hs. apply (gives_step _ (fun _ => Some (if bool_decide (n = "true") then ExprTrue else ExprRef n, ts))); [|apply gives_ret].
  intros f. cbn [parse_unary]. destruct (stops_heads 12 ts Hs) as [H1 H2]. rewrite skip_other, H1, H2 by exact Hn. reflexivity.
Qed.

Lemma rule_last ts a ts' : take_sym ")" ts = None -> p_expr 0 ts (a, TSym ")" :: ts') -> p_args ts ([a], ts').
Proof using.
  intros Hs H. eapply gives_step; [intros n; cbn [parse_args]; rewrite Hs; reflexivity|].
  apply (gives_bind _ _ (a, TSym ")" :: ts')); [exact H|apply gives_ret].
Qed.

Lemma rule_more ts a ts1 more ts' : take_sym ")" ts = None -> p_expr 0 ts (a, TSym "," :: ts1) -> p_args ts1 (more, ts') ->
  p_args ts (a :: more, ts').
Proof using.
  intros Hs H1 H2. eapply gives_step; [intros n; cbn [parse_args]; rewrite Hs; reflexivity|].
  apply (gives_bind _ _ (a, TSym "," :: ts1)); [exact H1|]. cbn. apply (gives_bind _ _ (more, ts')); [exact H2|apply gives_ret].
Qed.
End rules.

(** ** Numbers *)

Section numbers.
Context {T : FloatText}.

Lemma number_tail_app s t : forall b, number_tail b s = true -> number_tail false t = true -> number_tail b (s +:+ t) = true.
Proof using.
  induction s as [|c s IH]; intros b Hs Ht; [destruct b; [discriminate Hs|exact Ht]|]. rewrite append_cons. cbn [number_tail] in *.
  repeat case_match; [apply IH; assumption..|]. rewrite ?andb_true_iff in *. split; [apply Hs|]. apply IH; [apply Hs|exact Ht].
Qed.

Lemma digits_tail s : all_digits s = true -> number_tail false s = true /\ has_point s = false.
Proof using.
  induction s as [|c s IH]; [auto|]. cbn [all_digits number_tail has_point]. intros H. apply andb_true_iff in H as [Hc Hs].
  rewrite (digit_not_e c Hc), Hc. destruct (IH Hs) as [K1 K2]. split; [exact K1|]. rewrite K2, orb_false_r.
  apply bool_decide_eq_false. intros Hin. repeat (apply elem_of_cons in Hin as [->|Hin]; [discriminate Hc|]). inversion Hin.
Qed.

Lemma Itoa_text v : 0 <= v -> all_digits (Itoa v) = true /\ number_text (Itoa v) = true.
Proof using.
  intros Hv. destruct (Itoa_digits v Hv) as (c & s & -> & Hc & Hs). cbn [all_digits number_text]. rewrite Hc.
  split; [exact Hs|apply digits_tail, Hs].
Qed.

Lemma number_split s : forall b, number_tail b s = true -> split_u s = None.
Proof using.
  induction s as [|c s IH]; intros b Hs; [reflexivity|]. cbn [number_tail] in Hs.
  assert (Hc : c <> "u"%char) by (intros ->; cbn in Hs; rewrite andb_false_r in Hs; discriminate Hs).
  assert (Ht : exists b', number_tail b' s = true).
  { repeat case_match; [eexists; exact Hs..|]. rewrite !andb_true_iff in Hs. exists false. apply Hs. }
  destruct Ht as [b' Ht]. assert (E : split_u (String c s) = String c <$> split_u s).
  { cbn [split_u]. destruct c as [[] [] [] [] [] [] [] []]; try reflexivity. destruct s; [contradiction|reflexivity]. }
  rewrite E, (IH b' Ht). reflexivity.
Qed.

Lemma digits_split s : all_digits s = true -> split_u (s +:+ "u") = Some s.
Proof using.
  induction s as [|c s IH]; [reflexivity|]. cbn [all_digits]. intros H. apply andb_true_iff in H as [Hc Hs]. rewrite append_cons.
  assert (E : split_u (String c (s +:+ "u")) = String c <$> split_u (s +:+ "u")).
  { cbn [split_u]. destruct c as [[] [] [] [] [] [] [] []]; try reflexivity. discriminate Hc. }
  rewrite E, (IH Hs). reflexivity.
Qed.

Lemma decimal_Itoa v : decimal (Itoa v) = Some v.
Proof using. exact (Itoa_back v). Qed.

Lemma number_text_tail s : number_text s = true -> number_tail false s = true.
Proof using.
  destruct s as [|c s]; [discriminate|]. cbn [number_text number_tail]. intros H. apply andb_true_iff in H as [Hc Hs].
  rewrite (digit_not_e c Hc), Hc. exact Hs.
Qed.

(** A number is not the text of the least int32. *)
Lemma read_num_split s : s <> "0x80000000u" -> read_num s =
  match split_u s with
  | Some s' => ExprUint <$> decimal s'
  | None => if has_point s then ExprConst F32 <$> ParseFloat s else ExprInt <$> decimal s
  end.
Proof using. intros H. unfold read_num. rewrite (bool_decide_false _ H). reflexivity. Qed.

Lemma read_Itoa v : 0 <= v -> read_num (Itoa v) = Some (ExprInt v).
Proof using.
  intros Hv. destruct (Itoa_text v Hv) as [H1 H2]. pose proof (number_split _ _ (number_text_tail _ H2)) as K.
  rewrite read_num_split, K, (proj2 (digits_tail _ H1)), decimal_Itoa; [reflexivity|]. intros E. rewrite E in K. discriminate K.
Qed.

Lemma read_uint v : 0 <= v -> read_num (Itoa v +:+ "u") = Some (ExprUint v).
Proof using.
  intros Hv. destruct (Itoa_text v Hv) as [H1 _]. pose proof (digits_split _ H1) as K.
  rewrite read_num_split, K, decimal_Itoa; [reflexivity|]. intros E. rewrite E in K. injection K as K. rewrite <- K in H1. discriminate H1.
Qed.

Lemma read_format w : finite_word w = true -> read_num (formatFloat w) = Some (ExprConst F32 w).
Proof using.
  intros Hw. assert (Hall : number_tail false (formatFloat w) = true /\ has_point (formatFloat w) = true /\ ParseFloat (formatFloat w) = Some w).
  { pose proof (format_number w Hw) as H1. pose proof (format_parse w Hw) as H2. unfold formatFloat.
    destruct (has_point (FormatFloat w)) eqn:Ep; [split; [apply number_text_tail, H1|auto]|].
    split; [apply number_tail_app; [apply number_text_tail, H1|reflexivity]|].
    split; [clear; induction (FormatFloat w) as [|c s IH]; [reflexivity|rewrite append_cons; cbn [has_point]; rewrite IH; apply orb_true_r]|].
    rewrite parse_point by assumption. exact H2. }
  destruct Hall as (H1 & H2 & H3). pose proof (number_split _ _ H1) as K.
  rewrite read_num_split, K, H2, H3; [reflexivity|]. intros E. rewrite E in K. discriminate K.
Qed.
End numbers.

(** ** Expressions *)

Section expressions.
Context {T : FloatText} (b : backend).

Fixpoint reading (e : Expr) : Expr :=
  match e with
  | ExprInt v => read_int v
  | ExprConst t bits => read_const t bits
  | ExprLoad n i => ExprLoad n (reading i)
  | ExprNeg a => ExprNeg (reading a)
  | ExprAdd x y => ExprAdd (reading x) (reading y)
  | ExprMul x y => ExprMul (reading x) (reading y)
  | ExprDiv x y => ExprDiv (reading x) (reading y)
  | ExprMod x y => ExprMod (reading x) (reading y)
  | ExprBitAnd x y => ExprBitAnd (reading x) (reading y)
  | ExprBitOr x y => ExprBitOr (reading x) (reading y)
  | ExprBitXor x y => ExprBitXor (reading x) (reading y)
  | ExprShl x y => ExprShl (reading x) (reading y)
  | ExprShr x y => ExprShr (reading x) (reading y)
  | ExprRel r x y => ExprRel r (reading x) (reading y)
  | ExprAnd x y => ExprAnd (reading x) (reading y)
  | ExprSel c x y => ExprSel (reading c) (reading x) (reading y)
  | ExprCast t a =>
      match a with
      | ExprRel _ _ _ => if selects b t then ExprSel (reading a) (ExprInt 1) (ExprInt 0) else ExprCast t (reading a)
      | _ => ExprCast t (reading a)
      end
  | ExprFn f args => ExprFn f (map reading args)
  | _ => e
  end.

Abbreviation p_expr min ts := (gives (fun f => parse_expr f min ts)).
Abbreviation p_unary ts := (gives (fun f => parse_unary f ts)).
Abbreviation p_args ts := (gives (fun f => parse_args f ts)).
Abbreviation p_climb min l ts := (gives (fun f => climb f min l ts)).

(** The printed expression parses, and the parser goes on. *)
Definition reads (e : Expr) : Prop := forall min rest res, min <= level e -> stops (stop_level e) rest = true ->
  p_climb min (reading e) rest res -> p_expr min (toks (pieces b e 0) ++ rest) res.
(** It parses as an operand. *)
Definition atom (e : Expr) : Prop := forall rest, stops 12 rest = true -> p_unary (toks (pieces b e 0) ++ rest) (reading e, rest).

Lemma pieces_limit e limit : pieces b e limit = if prec e <? limit then [sym "("] ++ pieces b e 0 ++ [sym ")"] else pieces b e 0.
Proof using. destruct e; reflexivity. Qed.

Lemma prec_range e : 1 <= prec e <= 11.
Proof using. destruct e; cbn; lia. Qed.
Lemma level_range e : 1 <= level e <= 11 /\ stop_level e <= 12 /\ (2 <= prec e -> stop_level e = level e + 1).
Proof using. destruct e as [| | | | | | | | | | | | | | | |[]| | | |]; cbn; lia. Qed.
(** The lowest level of the expressions of precedence [p] and above. *)
Lemma level_prec e p : p <= prec e -> (if p <=? 6 then p else if p <=? 10 then p + 1 else 11) <= level e.
Proof using. intros H. destruct e as [| | | | | | | | | | | | | | | |[]| | | |]; cbn [level prec] in *; repeat case_match; lia. Qed.

Lemma atom_reads e : prec e = 11 -> atom e -> reads e.
Proof using.
  intros Hp Ha min rest res _ Hs Hres. eapply rule_expr; [|exact Hres]. apply Ha. revert Hs. apply stops_mono, level_range.
Qed.

(** A whole expression, up to what cannot belong to it. *)
Lemma reads_whole e min rest : reads e -> min <= level e -> stops (stop_level e) rest = true -> stops min rest = true ->
  p_expr min (toks (pieces b e 0) ++ rest) (reading e, rest).
Proof using. intros He Hm H1 H2. apply He; [exact Hm|exact H1|apply rule_stop, H2]. Qed.

Lemma stops_close s rest : s ∈ [")"; "]"; ","; ":"; ";"] -> forall k, stops k (TSym s :: rest) = true.
Proof using. intros Hs k. repeat (apply elem_of_cons in Hs as [->|Hs]; [reflexivity|]). inversion Hs. Qed.

Lemma reads_closed e s rest min : reads e -> min <= 1 -> s ∈ [")"; "]"; ","; ":"; ";"] ->
  p_expr min (toks (pieces b e 0) ++ TSym s :: rest) (reading e, TSym s :: rest).
Proof using.
  intros He Hm Hs. apply reads_whole; [exact He| |apply stops_close, Hs|apply stops_close, Hs]. pose proof (level_range e). lia.
Qed.

Lemma reads_paren e rest : reads e -> p_unary (TSym "(" :: toks (pieces b e 0) ++ TSym ")" :: rest) (reading e, rest).
Proof using. intros He. apply rule_paren, reads_closed; [exact He|lia|constructor]. Qed.

(** An operand at the precedence [limit]. *)
Lemma reads_operand e limit min rest res : reads e -> (limit <= prec e -> min <= level e /\ stops (stop_level e) rest = true) ->
  p_climb min (reading e) rest res -> p_expr min (toks (pieces b e limit) ++ rest) res.
Proof using.
  intros He Ho Hres. rewrite pieces_limit. destruct (Z.ltb_spec (prec e) limit) as [Hp|Hp].
  - eapply rule_expr; [|exact Hres]. rewrite !toks_app, <- !app_assoc. cbn [toks sym app]. apply reads_paren, He.
  - apply He; [apply Ho, Hp|apply Ho, Hp|exact Hres].
Qed.

(** A binary operator: its level and the precedences of its operands. *)
Lemma reads_infix e x y s lv mk px py : binop s = Some (lv, mk) ->
  toks (pieces b e 0) = toks (pieces b x px) ++ TSym s :: toks (pieces b y py) -> reading e = mk (reading x) (reading y) ->
  level e = lv -> stop_level e = lv + 1 -> 2 <= px -> 2 <= py -> (px <= prec x -> lv <= level x) -> (py <= prec y -> lv + 1 <= level y) ->
  reads x -> reads y -> reads e.
Proof using.
  intros Hb Ht Er Hl Hsl Hx2 Hy2 Hx Hy Rx Ry min rest res Hm Hs Hres. rewrite Ht, <- app_assoc. rewrite Er in Hres. rewrite Hl in Hm. rewrite Hsl in Hs.
  pose proof (binop_level s lv mk Hb) as (Hr & Hq & Hp & Hk). cbn [app].
  assert (Hstop : forall k, lv < k -> forall ts, stops k (TSym s :: ts) = true).
  { intros k Hlk ts. cbn [stops]. rewrite (bool_decide_false _ Hq), Hb. apply Z.ltb_lt, Hlk. }
  apply reads_operand; [exact Rx| |].
  - intros Hpx. pose proof (Hx Hpx). destruct (level_range x) as (_ & _ & ->); [|lia]. split; [lia|apply Hstop; lia].
  - apply (rule_op min _ s _ lv mk (reading y) rest); [exact Hb|exact Hm| |exact Hres].
    apply reads_operand; [exact Ry| |apply rule_stop, Hs].
    intros Hpy. pose proof (Hy Hpy). destruct (level_range y) as (_ & _ & ->); [|lia]. split; [lia|]. revert Hs. apply stops_mono. lia.
Qed.

Lemma reads_select e c x y : toks (pieces b e 0) = toks (pieces b c 2) ++ TSym "?" :: toks (pieces b x 2) ++ TSym ":" :: toks (pieces b y 1) ->
  reading e = ExprSel (reading c) (reading x) (reading y) -> level e = 1 -> stop_level e = 1 ->
  reads c -> reads x -> reads y -> reads e.
Proof using.
  intros Ht Er Hl Hsl Rc Rx Ry min rest res Hm Hs Hres. rewrite Ht, <- app_assoc. cbn [app]. rewrite <- app_assoc. cbn [app].
  rewrite Hsl in Hs. rewrite Hl in Hm. rewrite (gives_unique _ _ _ Hres (rule_end min (reading e) rest Hs)), Er.
  apply reads_operand; [exact Rc| |].
  - intros Hpc. pose proof (level_prec c 2 Hpc) as Hlc. cbn in Hlc. destruct (level_range c) as (_ & _ & ->); [|lia]. split; [lia|]. apply Z.ltb_lt. lia.
  - apply (rule_select min (reading c) _ (reading x) (toks (pieces b y 1) ++ rest)); [exact Hm| |].
    + apply reads_operand; [exact Rx| |apply rule_stop; reflexivity]. intros _. pose proof (level_range x). split; [lia|reflexivity].
    + apply reads_operand; [exact Ry| |apply rule_stop, Hs]. intros _. pose proof (level_range y). split; [lia|].
      assert (H1 : 1 <= stop_level y) by (destruct (decide (2 <= prec y)) as [H2|H2]; [destruct (level_range y) as (_ & _ & ->); lia|destruct y; cbn in *; lia]).
      revert Hs. apply stops_mono, H1.
Qed.

(** *** Operands *)

Lemma int_atom v rest : p_unary (toks (int_pieces v) ++ rest) (read_int v, rest).
Proof using.
  unfold int_pieces, read_int. destruct (Z.ltb_spec v 0); [apply rule_neg|]; apply rule_number, read_Itoa; lia.
Qed.

Lemma float_atom bits rest : word_ok bits -> is_finite_bits bits = true -> p_unary (toks (float_pieces bits) ++ rest) (read_float bits, rest).
Proof using.
  intros Hw Hf. pose proof (finite_low bits Hw Hf) as Hl. unfold float_pieces, read_float. rewrite Hf. cbn [andb].
  destruct (two31 <=? bits); [apply rule_neg|]; apply rule_number, read_format, Hl.
Qed.

(** A literal in parentheses after a word. *)
Lemma number_args s a rest : read_num s = Some a -> p_args (TNum s :: TSym ")" :: rest) ([a], rest).
Proof using.
  intros H. apply rule_last; [reflexivity|]. eapply rule_expr; [apply rule_number, H|apply rule_stop; reflexivity].
Qed.

Lemma nonfinite_atom bits rest : word_ok bits -> p_unary (toks (nonfinite_pieces b bits) ++ rest) (ExprConst F32 bits, rest).
Proof using.
  intros Hw. pose proof (number_args (Itoa bits +:+ "u") (ExprUint bits) rest (read_uint bits (proj1 Hw))) as K.
  unfold nonfinite_pieces. destruct b; (eapply rule_call; [reflexivity|exact K|reflexivity]).
Qed.

Lemma const_atom t bits rest : word_ok bits -> p_unary (toks (const_pieces b t bits) ++ rest) (read_const t bits, rest).
Proof using.
  intros Hw. assert (Hfloat : p_unary (toks (if is_finite_bits bits then float_pieces bits else nonfinite_pieces b bits) ++ rest) (read_float bits, rest)).
  { destruct (is_finite_bits bits) eqn:Ef; [apply float_atom; assumption|]. unfold read_float. rewrite Ef. apply nonfinite_atom, Hw. }
  destruct t; cbn [const_pieces read_const]; [exact Hfloat|exact Hfloat| |].
  - destruct (i32 bits =? - two31); [|apply int_atom].
    destruct b; (eapply rule_call; [reflexivity|apply number_args; reflexivity|reflexivity]).
  - apply rule_number, read_uint, Z.mod_pos_bound. reflexivity.
Qed.

(** An expression does not begin with a closing parenthesis. *)
Lemma pieces_head e : forall limit rest, take_sym ")" (toks (pieces b e limit) ++ rest) = None.
Proof using.
  assert (Hint : forall v rest, take_sym ")" (toks (int_pieces v) ++ rest) = None) by (intros v rest; unfold int_pieces; destruct (v <? 0); reflexivity).
  induction e; intros limit rest; rewrite pieces_limit; (destruct (prec _ <? limit); [reflexivity|]); try reflexivity; try apply Hint.
  all: try (cbn [pieces Z.ltb Z.compare prec]; rewrite toks_app, <- app_assoc; auto).
  - cbn [pieces Z.ltb Z.compare prec]. destruct dtype; cbn [const_pieces]; unfold float_pieces, nonfinite_pieces; repeat case_match; try reflexivity; apply Hint.
  - destruct e; try reflexivity. cbn [pieces Z.ltb Z.compare prec]. destruct (selects b dtype); reflexivity.
Qed.

(** *** Every expression *)

Lemma relation_binop r : binop (relTok r) = Some (match r with RelEQ | RelNE => 6 | _ => 7 end, ExprRel r).
Proof using. destruct r; reflexivity. Qed.

(** The arguments of a call. *)
Lemma args_read a args rest : reads a -> Forall reads args ->
  p_args (toks (commas true (map (fun x => pieces b x 0) (a :: args))) ++ TSym ")" :: rest) (map reading (a :: args), rest).
Proof using.
  intros Ha Hargs. revert a Ha. induction Hargs as [|x args Hx Hargs IH]; intros a Ha; cbn [map commas app].
  - rewrite app_nil_r. apply rule_last; [apply pieces_head|]. apply reads_closed; [exact Ha|lia|constructor].
  - rewrite toks_app, <- app_assoc. cbn [toks sym app].
    eapply rule_more; [apply pieces_head|apply reads_closed; [exact Ha|lia|apply list_elem_of_In; cbn; tauto]|exact (IH x Hx)].
Qed.

Lemma call_atom f args rest a : p_args (toks args ++ TSym ")" :: rest) a -> forall e, read_call f (fst a) = Some e ->
  p_unary (toks ([word_tok f; sym "("] ++ args ++ [sym ")"]) ++ rest) (e, snd a).
Proof using.
  intros Ha e He. rewrite !toks_app, <- !app_assoc. cbn [toks word_tok sym app]. destruct a as [a ts]. cbn [fst snd] in *.
  eapply rule_call; [rewrite skip_paren; reflexivity|exact Ha|exact He].
Qed.

Lemma good_facts n : good_name n = true -> n <> "as_type" /\ n <> "true".
Proof using.
  intros H. apply andb_true_iff in H as [_ H]. apply bool_decide_eq_true in H. unfold reserved in H. rewrite !not_elem_of_cons in H. tauto.
Qed.

Lemma load_atom n i rest : n <> "as_type" -> reads i -> p_unary (toks (pieces b (ExprLoad n i) 0) ++ rest) (ExprLoad n (reading i), rest).
Proof using.
  intros Hn Hi. cbn [pieces Z.ltb Z.compare prec]. rewrite !toks_app, <- !app_assoc. cbn [toks word_tok sym app].
  apply rule_index; [exact Hn|]. apply reads_closed; [exact Hi|lia|apply list_elem_of_In; cbn; tauto].
Qed.

Lemma neg_atom a rest : atom a -> p_unary (toks (pieces b (ExprNeg a) 0) ++ rest) (ExprNeg (reading a), rest).
Proof using.
  intros Ha. cbn [pieces Z.ltb Z.compare prec]. rewrite !toks_app, <- !app_assoc. cbn [toks word_tok sym app].
  apply rule_paren. eapply rule_expr; [|apply rule_stop; reflexivity]. apply rule_neg, Ha. reflexivity.
Qed.

Lemma cast_atom t a rest : is_number_type t = true -> reads a ->
  p_unary (toks ([word_tok (Scalar t); sym "("] ++ pieces b a 0 ++ [sym ")"]) ++ rest) (ExprCast t (reading a), rest).
Proof using.
  intros Ht Ha. apply (call_atom (Scalar t) (pieces b a 0) rest ([reading a], rest)).
  - apply rule_last; [apply pieces_head|]. apply reads_closed; [exact Ha|lia|constructor].
  - destruct t; [discriminate Ht|reflexivity..].
Qed.

(** The select for a cast of a comparison whose operands bind tighter. *)
Lemma select_atom r x y rest : 7 <= prec x -> 7 <= prec y -> reads (ExprRel r x y) ->
  p_unary (toks ([sym "("; sym "("] ++ pieces b x 0 ++ [sym (relTok r)] ++ pieces b y 0 ++
      [sym ")"; sym "?"; num_tok "1"; sym ":"; num_tok "0"; sym ")"]) ++ rest)
    (ExprSel (reading (ExprRel r x y)) (ExprInt 1) (ExprInt 0), rest).
Proof using.
  intros Hx Hy Hr. assert (Hloose : forall e, 7 <= prec e -> pieces b e 0 = pieces b e 7).
  { intros e He. rewrite (pieces_limit e 7). destruct (Z.ltb_spec (prec e) 7); [lia|reflexivity]. }
  rewrite (Hloose x Hx), (Hloose y Hy), !toks_app, <- !app_assoc. cbn [toks sym num_tok app].
  apply rule_paren. eapply rule_expr.
  - pose proof (reads_paren (ExprRel r x y) (TSym "?" :: TNum "1" :: TSym ":" :: TNum "0" :: TSym ")" :: rest) Hr) as K.
    cbn [pieces Z.ltb Z.compare prec] in K. rewrite !toks_app, <- !app_assoc in K. exact K.
  - apply (rule_select 0 _ _ (ExprInt 1) (TNum "0" :: TSym ")" :: rest)); [lia| |];
      (eapply rule_expr; [apply rule_number; reflexivity|apply rule_stop; reflexivity]).
Qed.

Lemma fn_call f args : read_call (fnName f) args = Some (ExprFn f args).
Proof using. destruct f; reflexivity. Qed.

(** An infix expression, printed as [s], of the level [lv], whose left operand
    is at the precedence [px]. *)
Ltac infix_case IH He s lv px :=
  split; [|discriminate];
  match goal with
  | |- reads ?e =>
      match e with
      | _ ?x ?y =>
          let py := eval vm_compute in (prec e + 1) in
          eapply (reads_infix e x y s lv _ px py);
            [reflexivity|cbn [pieces Z.ltb Z.compare prec]; rewrite !toks_app; reflexivity|reflexivity|reflexivity|reflexivity|lia|lia
            |let H := fresh in intros H; apply level_prec in H; cbn in H; lia
            |let H := fresh in intros H; apply level_prec in H; cbn in H; lia|apply IH; tauto|apply IH; tauto]
      end
  end.

(** The parser finds every expression that the printer is right for. *)
Lemma text_reads e : text_ok b e = true -> reads e /\ (prec e = 11 -> atom e).
Proof using.
  revert e. fix IH 1. intros e He.
  assert (Hatom : prec e = 11 -> atom e -> reads e /\ (prec e = 11 -> atom e)) by (intros Hp Ha; split; [apply atom_reads; assumption|auto]).
  destruct e as [n|v|v| |t bits|n i|a|x y|x y|x y|x y|x y|x y|x y|x y|x y|r x y|x y|c x y|t a|f args]; cbn [text_ok] in He;
    rewrite ?andb_true_iff in He.
  - apply Hatom; [reflexivity|]. intros rest Hs. destruct (good_facts n He) as [H1 H2].
    pose proof (rule_name n rest H1 Hs) as K. rewrite (bool_decide_false _ H2) in K. exact K.
  - apply Hatom; [reflexivity|]. intros rest _. apply int_atom.
  - apply Hatom; [reflexivity|]. intros rest _. cbn [pieces Z.ltb Z.compare prec toks num_tok app reading]. unfold FormatUint.
    rewrite Z.mod_small by (unfold two32 in He; lia). apply rule_number, read_uint. lia.
  - apply Hatom; [reflexivity|]. intros rest Hs. apply (rule_name "true" rest); [discriminate|exact Hs].
  - apply Hatom; [reflexivity|]. intros rest _. apply (const_atom t bits rest). unfold word_ok. lia.
  - apply Hatom; [reflexivity|]. intros rest _. apply load_atom; [apply good_facts, He|apply IH, He].
  - apply Hatom; [reflexivity|]. intros rest _. apply neg_atom. destruct He as [[Ha Hp] _]. apply (IH a Ha), Z.eqb_eq, Hp.
  - infix_case IH He "+" 9 8.
  - infix_case IH He "*" 10 9.
  - infix_case IH He "/" 10 9.
  - infix_case IH He "%" 10 9.
  - infix_case IH He "&" 5 5.
  - infix_case IH He "|" 3 3.
  - infix_case IH He "^" 4 4.
  - infix_case IH He "<<" 8 7.
  - infix_case IH He ">>" 8 7.
  - destruct r; [infix_case IH He "<" 7 7|infix_case IH He "<=" 7 7|infix_case IH He ">" 7 7|infix_case IH He ">=" 7 7
      |infix_case IH He "==" 6 7|infix_case IH He "!=" 6 7].
  - infix_case IH He "&&" 2 2.
  - destruct He as [[Hc Hx] Hy]. split; [|discriminate]. apply (reads_select _ c x y); try reflexivity; [|apply IH; assumption..].
    cbn [pieces Z.ltb Z.compare prec]. rewrite !toks_app. reflexivity.
  - destruct He as [[Ha Ht] Hsel]. apply Hatom; [reflexivity|]. intros rest _. pose proof (proj1 (IH a Ha)) as Ra.
    destruct a as [| | | | | | | | | | | | | | | |r x y| | | |]; try (apply (cast_atom t _ rest Ht Ra)).
    cbn [pieces reading Z.ltb Z.compare prec]. destruct (selects b t); [|apply (cast_atom t _ rest Ht Ra)].
    cbn [negb orb] in Hsel. apply andb_true_iff in Hsel as [H1 H2]. apply (select_atom r x y); [lia|lia|exact Ra].
  - apply Hatom; [reflexivity|]. intros rest _. destruct He as [Hne He]. destruct args as [|a args]; [discriminate Hne|].
    apply (call_atom (fnName f) _ rest (map reading (a :: args), rest)); [|apply fn_call].
    cbn [forallb] in He. apply andb_true_iff in He as [Ha He]. apply args_read; [apply IH, Ha|].
    clear Hne Ha Hatom. induction args as [|x args IHa]; [constructor|]. cbn [forallb] in He. apply andb_true_iff in He as [Hx He].
    constructor; [apply IH, Hx|apply IHa, He].
Qed.
End expressions.

(** ** Statements *)

Section statements.
Context {T : FloatText} (b : backend).

Definition read_type (t : DType) (Bool : bool) : DType := if Bool then DNone else match t with I32 => I32 | U8 => U8 | _ => F32 end.
Definition reading_stmt (s : Stmt) : Stmt :=
  match s with
  | StmtReturn c => StmtReturn (reading b c)
  | StmtDecl t Bool n rhs => StmtDecl (read_type t Bool) Bool n (reading b rhs)
  | StmtSet n rhs => StmtSet n (reading b rhs)
  | StmtIfSet c n rhs => StmtIfSet (reading b c) n (reading b rhs)
  | StmtAdd n rhs => StmtAdd n (reading b rhs)
  | StmtStore rhs => StmtStore (reading b rhs)
  end.

Abbreviation p_stmt ts := (gives (fun f => parse_stmt f ts)).
Abbreviation p_assign ts := (gives (fun f => parse_assign f ts)).

Lemma closed_expr e s rest : text_ok b e = true -> s ∈ [")"; "]"; ","; ":"; ";"] ->
  gives (fun f => parse_expr f 0 (toks (pieces b e 0) ++ TSym s :: rest)) (reading b e, TSym s :: rest).
Proof using. intros He Hs. apply reads_closed; [apply text_reads, He|lia|exact Hs]. Qed.

Lemma assign_reads n op rhs rest : text_ok b rhs = true -> op ∈ ["="; "+="] ->
  p_assign (toks (assign_pieces b n op rhs) ++ rest) (if bool_decide (op = "=") then StmtSet n (reading b rhs) else StmtAdd n (reading b rhs), rest).
Proof using.
  intros He Hop. unfold assign_pieces. rewrite !toks_app, <- !app_assoc. cbn [toks word_tok sym newline_gap app]. unfold parse_assign.
  apply (gives_bind _ _ (reading b rhs, TSym ";" :: rest)); [apply closed_expr; [exact He|apply list_elem_of_In; cbn; tauto]|].
  apply list_elem_of_In in Hop as [<- |[<- |[]]]; apply gives_ret.
Qed.

(** The name that begins an assignment. *)
Lemma assign_head n op rhs rest : exists ts, toks (assign_pieces b n op rhs) ++ rest = TId n :: TSym op :: ts.
Proof using. eexists. reflexivity. Qed.

Lemma good_words n : good_name n = true -> n <> "if" /\ n <> "return" /\ type_name n = None.
Proof using.
  intros H. apply andb_true_iff in H as [_ H]. apply bool_decide_eq_true in H. unfold reserved in H. rewrite !not_elem_of_cons in H.
  split; [tauto|]. split; [tauto|]. unfold type_name. rewrite !bool_decide_false by tauto. reflexivity.
Qed.

Lemma plain_assign n op rhs rest : good_name n = true -> text_ok b rhs = true -> op ∈ ["="; "+="] ->
  p_stmt (toks (assign_pieces b n op rhs) ++ rest) (if bool_decide (op = "=") then StmtSet n (reading b rhs) else StmtAdd n (reading b rhs), rest).
Proof using.
  intros Hn He Hop. pose proof (assign_reads n op rhs rest He Hop) as K. destruct (assign_head n op rhs rest) as [ts E]. rewrite E in *.
  destruct (good_words n Hn) as (H1 & _ & H2). unfold parse_stmt. rewrite (bool_decide_false _ H1), H2.
  assert (Hb : take_sym "[" (TSym op :: ts) = None) by (apply list_elem_of_In in Hop as [<- |[<- |[]]]; reflexivity). rewrite Hb. exact K.
Qed.

Lemma stmt_reads s rest : stmt_ok b s = true -> p_stmt (toks (stmt_pieces b s) ++ rest) (reading_stmt s, rest).
Proof using.
  unfold stmt_ok. intros H. change (toks (stmt_pieces b s)) with (toks (match s with
    | StmtReturn c => [word_tok "if"; Gap " "; sym "("] ++ pieces b c 0 ++ [sym ")"; Gap " "; word_tok "return"; sym ";"; newline_gap]
    | StmtDecl t Bool n rhs => [word_tok (if Bool then "bool" else Scalar t); Gap " "] ++ assign_pieces b n "=" rhs
    | StmtSet n rhs => assign_pieces b n "=" rhs
    | StmtIfSet c n rhs => [word_tok "if"; Gap " "; sym "("] ++ pieces b c 0 ++ [sym ")"; Gap " "] ++ assign_pieces b n "=" rhs
    | StmtAdd n rhs => assign_pieces b n "+=" rhs
    | StmtStore rhs => [word_tok "o"; sym "["; word_tok "i"; sym "]"; Gap " "; sym "="; Gap " "] ++ pieces b rhs 0 ++ [sym ";"; newline_gap]
    end)).
  destruct s as [t B n rhs|n rhs|c n rhs|n rhs|rhs|c]; rewrite ?andb_true_iff in H; cbn [reading_stmt].
  - rewrite toks_app, <- app_assoc. cbn [toks word_tok app]. pose proof (assign_reads n "=" rhs rest (proj2 H) ltac:(constructor)) as K.
    destruct (assign_head n "=" rhs rest) as [ts E]. rewrite E in *. unfold parse_stmt.
    set (w := if B then "bool" else Scalar t). assert (Hw : w <> "if" /\ type_name w = Some (read_type t B, B)) by (destruct B, t; (split; [discriminate|reflexivity])).
    destruct Hw as [H1 H2]. rewrite (bool_decide_false _ H1), H2. apply (gives_bind _ _ (StmtSet n (reading b rhs), rest)); [exact K|apply gives_ret].
  - exact (plain_assign n "=" rhs rest (proj1 H) (proj2 H) ltac:(constructor)).
  - destruct H as [[Hc Hn] He]. rewrite !toks_app, <- !app_assoc. cbn [toks word_tok sym app]. unfold parse_stmt. rewrite bool_decide_true by reflexivity.
    cbn [take_sym mbind option_bind]. rewrite bool_decide_true by reflexivity. cbn [mbind option_bind].
    eapply gives_bind; [apply (closed_expr c ")"); [exact Hc|constructor]|]. cbn [take_sym mbind option_bind].
    rewrite bool_decide_true by reflexivity. cbn [mbind option_bind]. pose proof (assign_reads n "=" rhs rest He ltac:(constructor)) as K.
    destruct (assign_head n "=" rhs rest) as [ts E]. rewrite E in *. destruct (good_words n Hn) as (_ & H1 & _). cbn [take_id]. rewrite (bool_decide_false _ H1).
    apply (gives_bind _ _ (StmtSet n (reading b rhs), rest)); [exact K|apply gives_ret].
  - exact (plain_assign n "+=" rhs rest (proj1 H) (proj2 H) ltac:(constructor; constructor)).
  - rewrite !toks_app, <- !app_assoc. cbn [toks word_tok sym newline_gap app]. unfold parse_stmt.
    apply (gives_bind _ _ (reading b rhs, TSym ";" :: rest)); [apply closed_expr; [exact H|apply list_elem_of_In; cbn; tauto]|apply gives_ret].
  - rewrite !toks_app, <- !app_assoc. cbn [toks word_tok sym newline_gap app]. unfold parse_stmt.
    rewrite bool_decide_true by reflexivity. cbn [take_sym mbind option_bind]. rewrite bool_decide_true by reflexivity. cbn [mbind option_bind].
    eapply gives_bind; [apply (closed_expr c ")"); [exact H|constructor]|apply gives_ret].
Qed.

Lemma body_reads ss : forallb (stmt_ok b) ss = true -> gives (fun f => parse_body f (toks (body_pieces b ss))) (map reading_stmt ss).
Proof using.
  induction ss as [|s ss IH]; cbn [forallb body_pieces map]; intros H.
  - exists 0%nat. intros [|f] _; reflexivity.
  - apply andb_true_iff in H as [Hs H]. rewrite toks_app. pose proof (stmt_reads s (toks (body_pieces b ss)) Hs) as K.
    assert (Hne : exists t ts, toks (stmt_pieces b s) ++ toks (body_pieces b ss) = t :: ts).
    { destruct s; eexists _, _; reflexivity. }
    destruct Hne as (t & ts & E). rewrite E in *. 
    apply (gives_step _ (fun f => '(s, ts) ← parse_stmt f (t :: ts); cons s <$> parse_body f ts)); [reflexivity|].
    apply (gives_bind _ _ (reading_stmt s, toks (body_pieces b ss))); [exact K|]. cbn beta iota.
    destruct (IH H) as [F Hf]. exists F. intros f Hle. specialize (Hf f Hle). cbn beta iota in Hf |- *. rewrite Hf. reflexivity.
Qed.

(** A printed body reads back as its statements. *)
Lemma read_written ss : forallb (stmt_ok b) ss = true ->
  gives (fun f => read_body f (WriteBody (dialect b) ss)) (map reading_stmt ss).
Proof using. intros H. unfold read_body. rewrite lex_body by exact H. exact (body_reads ss H). Qed.
End statements.
