(* ===== verification/Written.v ===== *)
(** * The text of a schedule means the schedule

    What the text says, read as C, has the value of the expression it was
    printed from, so the statements read back run like the statements that
    were printed; and the statements that [Kernel.Code] emits are of the kind
    that the printer is right for, whatever the kernel, but for integer
    literals that do not fit in int32. *)
From Stdlib Require Import ZArith Lia Floats.SpecFloat.
From stdpp Require Import base numbers option list strings gmap.
From S2P Require Import Prelude Float Alu Shape View Tracker Expr Rewrite Optimize Flatten Cpu Kernel Code Shader Emits Spell Reading Lexing Parsing.

Local Open Scope Z_scope.

(** ** Values *)

Lemma unpack_negative w : 0 <= w < two31 -> is_finite_bits (w + two31) = true -> SFopp (unpack w) = unpack (w + two31) /\ is_nan (w + two31) = false.
Proof.
  unfold is_finite_bits, is_nan, unpack. intros Hw Hf. apply negb_true_iff in Hf.
  assert (E1 : (w + two31) / 8388608 = w / 8388608 + 256) by (change two31 with (256 * 8388608); rewrite Z.div_add by discriminate; reflexivity).
  assert (E2 : ((w + two31) / 8388608) mod 256 = (w / 8388608) mod 256).
  { rewrite E1, <- (Z.mul_1_l 256) at 1. rewrite Z.mod_add by discriminate. reflexivity. }
  assert (E3 : (w + two31) mod 8388608 = w mod 8388608) by (change two31 with (256 * 8388608); apply Z.mod_add; discriminate).
  rewrite E2 in Hf. rewrite E2, E3, Hf. destruct (Z.leb_spec two31 w); [lia|]. destruct (Z.leb_spec two31 (w + two31)); [|lia].
  destruct ((w / 8388608) mod 256 =? 0); [destruct (w mod 8388608)|]; auto.
Qed.

Section meaning.
Context {E : FloatEnv} {T : FloatText} (b : backend) (mem : gmap string buffer).

Lemma eval_read_int e v : - two31 < v < two31 -> eval mem e (read_int v) = int_literal v.
Proof using.
  intros Hv. unfold read_int. destruct (Z.ltb_spec v 0); [|reflexivity]. cbn [eval].
  destruct (int32_literal (- v)) as [E1 E2]; [unfold int32; lia|]. rewrite E1. cbn [vneg]. rewrite E2, Z.opp_involutive.
  destruct (int32_literal v) as [-> _]; [unfold int32; lia|]. reflexivity.
Qed.

Lemma eval_read_const e t bits : word_ok bits -> eval mem e (read_const t bits) = eval mem e (ExprConst t bits).
Proof using.
  intros Hw. assert (Hf : eval mem e (read_float bits) = Some (VF bits)).
  { unfold read_float. destruct (is_finite_bits bits) eqn:Ef; [|reflexivity]. destruct (Z.leb_spec two31 bits) as [Hb|Hb]; [|reflexivity].
    cbn [andb eval as_val vneg]. assert (Hlow : 0 <= bits - two31 < two31) by (unfold word_ok, two31, two32 in *; lia).
    replace bits with (bits - two31 + two31) in Ef by lia. destruct (unpack_negative _ Hlow Ef) as [-> Hn].
    replace (bits - two31 + two31) with bits in * by lia. rewrite packFloat_unpack by assumption. reflexivity. }
  destruct t; cbn [read_const]; [exact Hf|exact Hf| |].
  - cbn [eval as_val]. destruct (Z.eqb_spec (i32 bits) (- two31)) as [Em|Em].
    + rewrite <- (u32_i32 bits Hw), Em. reflexivity.
    + pose proof (i32_range bits Hw). rewrite eval_read_int by lia. destruct (int32_literal (i32 bits)) as [-> _]; [unfold int32; lia|].
      rewrite u32_i32 by exact Hw. reflexivity.
  - cbn [eval as_val]. pose proof (Z.mod_pos_bound bits 256 eq_refl).
    destruct (Z.leb_spec 0 (bits mod 256)); [|lia]. destruct (Z.ltb_spec (bits mod 256) two32); [reflexivity|unfold two32 in *; lia].
Qed.

(** A reading has the value of the expression. *)
Lemma eval_reading e x : text_ok b x = true -> eval mem e (reading b x) = eval mem e x.
Proof using.
  revert x. fix IH 1. intros x Hx.
  destruct x as [n|v|v| |t bits|n i|a|x y|x y|x y|x y|x y|x y|x y|x y|x y|r x y|x y|c x y|t a|f args]; cbn [text_ok] in Hx;
    rewrite ?andb_true_iff in Hx; try reflexivity; try (cbn [reading eval]; rewrite !IH by tauto; reflexivity).
  - apply eval_read_int. lia.
  - apply eval_read_const. unfold word_ok. lia.
  - destruct Hx as [[Ha Ht] _]. assert (Hplain : eval mem e (ExprCast t (reading b a)) = eval mem e (ExprCast t a)) by (cbn [eval]; rewrite IH by exact Ha; reflexivity).
    destruct a as [| | | | | | | | | | | | | | | |r x y| | | |]; try exact Hplain. cbn [reading] in *. destruct (selects b t) eqn:Es; [|exact Hplain].
    assert (Et : t = I32) by (unfold selects in Es; apply andb_true_iff in Es as [_ Es]; apply bool_decide_eq_true in Es; exact Es). subst t.
    rewrite <- Hplain. cbn [eval]. assert (Hbool : forall v w u, vrel r v w = Some u -> exists q, u = VB q).
    { intros [] [] u; cbn; intros [= <-]; eexists; reflexivity. }
    destruct (eval mem e (reading b x)) as [v|]; [|reflexivity]. destruct (eval mem e (reading b y)) as [w|]; [|reflexivity].
    destruct (vrel r v w) as [u|] eqn:Er; [|reflexivity]. destruct (Hbool v w u Er) as [[] ->]; reflexivity.
  - destruct Hx as [_ Hx]. cbn [reading eval].
    match goal with |- match ?F (map (reading b) args) with _ => _ end = _ => set (evals := F) end.
    assert (K : evals (map (reading b) args) = evals args); [|rewrite K; reflexivity].
    induction args as [|a args IHa]; [reflexivity|]. cbn [forallb] in Hx. apply andb_true_iff in Hx as [Ha Hx]. cbn [map].
    change (match eval mem e (reading b a), evals (map (reading b) args) with Some v, Some vs => Some (v :: vs) | _, _ => None end =
      match eval mem e a, evals args with Some v, Some vs => Some (v :: vs) | _, _ => None end).
    rewrite (IH a Ha), (IHa Hx). reflexivity.
Qed.

(** *** Statements *)

Lemma step_reading e s : stmt_ok b s = true -> step mem e (reading_stmt b s) = step mem e s.
Proof using.
  destruct s as [t B n rhs|n rhs|c n rhs|n rhs|rhs|c]; cbn [stmt_ok reading_stmt step]; rewrite ?andb_true_iff; intros H; rewrite ?eval_reading by tauto; try reflexivity.
  assert (Ed : forall v, declared (read_type t B) B v = declared t B v) by (intros v; destruct B, v, t; reflexivity).
  destruct (e !! n); [reflexivity|]. destruct (eval mem e rhs); [|reflexivity]. rewrite Ed. reflexivity.
Qed.

(** The statements read back store what the statements store. *)
Lemma run_reading out ss : forall e, forallb (stmt_ok b) ss = true ->
  run_stmts mem out e (map (reading_stmt b) ss) = run_stmts mem out e ss.
Proof using.
  induction ss as [|s ss IH]; intros e H; [reflexivity|]. cbn [forallb] in H. apply andb_true_iff in H as [Hs H]. cbn [map].
  pose proof (step_reading e s Hs) as Ks. destruct s as [t B n rhs|n rhs|c n rhs|n rhs|rhs|c]; cbn [reading_stmt] in *; cbn [run_stmts].
  1-4: rewrite Ks; clear Ks; destruct (step mem e _); [apply IH, H|reflexivity].
  - rewrite eval_reading by exact Hs. destruct (e !! "i"%string) as [[]|]; try reflexivity. destruct (eval mem e rhs); [|reflexivity].
    rewrite IH by exact H. reflexivity.
  - rewrite eval_reading by exact Hs. rewrite IH by exact H. reflexivity.
Qed.
End meaning.

(** ** What is emitted *)

(** The integer literals are int32, and a name is not a number: an offset
    that does not fit in int64 stays one. *)
Definition not_number (n : string) : bool := match n with EmptyString => true | String a _ => negb (numeral_start a) end.
Fixpoint literals_ok (e : Expr) : bool :=
  match e with
  | ExprInt v => (- two31 <? v) && (v <? two31)
  | ExprRef n => not_number n
  | ExprLoad _ a | ExprNeg a | ExprCast _ a => literals_ok a
  | ExprAdd a b | ExprMul a b | ExprDiv a b | ExprMod a b | ExprBitAnd a b | ExprBitOr a b | ExprBitXor a b
  | ExprShl a b | ExprShr a b | ExprRel _ a b | ExprAnd a b => literals_ok a && literals_ok b
  | ExprSel c a b => literals_ok c && literals_ok a && literals_ok b
  | ExprFn _ args => forallb literals_ok args
  | _ => true
  end.
Definition stmt_literals (s : Stmt) : bool :=
  match s with
  | StmtDecl _ _ _ e | StmtSet _ e | StmtAdd _ e | StmtStore e | StmtReturn e => literals_ok e
  | StmtIfSet c _ e => literals_ok c && literals_ok e
  end.

Section written.
Context {T : FloatText} (b : backend).

(** The printer is right for it, if its literals fit. *)
Definition written (e : Expr) : Prop := literals_ok e = true -> text_ok b e = true.
Definition writable (s : Stmt) : Prop := stmt_literals s = true -> stmt_ok b s = true.

Lemma written_ref n : good_name n = true -> written (ref n).
Proof using. intros H _. exact H. Qed.
Lemma written_int v : written (iconst v).
Proof using. intros H. exact H. Qed.
Lemma written_const t bits : word_ok bits -> written (ExprConst t bits).
Proof using. intros H _. cbn [text_ok]. unfold word_ok in H. lia. Qed.
Lemma written_load n e : good_name n = true -> written e -> written (load_at n e).
Proof using. intros H1 H2 H. cbn [literals_ok load_at text_ok] in *. rewrite H1. apply H2, H. Qed.

(** Two operands, three operands. *)
Lemma written_two mk x y : (forall x y, literals_ok (mk x y) = literals_ok x && literals_ok y) ->
  (forall x y, text_ok b (mk x y) = text_ok b x && text_ok b y) -> written x -> written y -> written (mk x y).
Proof using. intros H1 H2 Hx Hy H. rewrite H1, andb_true_iff in H. rewrite H2, andb_true_iff. split; [apply Hx|apply Hy]; tauto. Qed.
Lemma written_add x y : written x -> written y -> written (add x y).
Proof using. apply (written_two ExprAdd); reflexivity. Qed.
Lemma written_mul x y : written x -> written y -> written (mul x y).
Proof using. apply (written_two ExprMul); reflexivity. Qed.
Lemma written_div x y : written x -> written y -> written (div x y).
Proof using. apply (written_two ExprDiv); reflexivity. Qed.
Lemma written_mod x y : written x -> written y -> written (mod_ x y).
Proof using. apply (written_two ExprMod); reflexivity. Qed.
Lemma written_band x y : written x -> written y -> written (band x y).
Proof using. apply (written_two ExprBitAnd); reflexivity. Qed.
Lemma written_bor x y : written x -> written y -> written (bor x y).
Proof using. apply (written_two ExprBitOr); reflexivity. Qed.
Lemma written_bxor x y : written x -> written y -> written (bxor x y).
Proof using. apply (written_two ExprBitXor); reflexivity. Qed.
Lemma written_shl x y : written x -> written y -> written (shl x y).
Proof using. apply (written_two ExprShl); reflexivity. Qed.
Lemma written_shr x y : written x -> written y -> written (shr x y).
Proof using. apply (written_two ExprShr); reflexivity. Qed.
Lemma written_rel r x y : written x -> written y -> written (rel r x y).
Proof using. apply (written_two (ExprRel r)); reflexivity. Qed.
Lemma written_land x y : written x -> written y -> written (land x y).
Proof using. apply (written_two ExprAnd); reflexivity. Qed.
Lemma written_sel c x y : written c -> written x -> written y -> written (sel c x y).
Proof using.
  intros Hc Hx Hy H. cbn [sel literals_ok text_ok] in *. rewrite !andb_true_iff in *. destruct H as [[H1 H2] H3]. auto.
Qed.
Lemma written_neg n : written (ref n) -> written (ExprNeg (ref n)).
Proof using. intros Hn H. cbn [literals_ok text_ok] in *. rewrite (Hn H). reflexivity. Qed.
(** A cast of a comparison is of names. *)
Lemma written_cast t x : is_number_type t = true -> (match x with ExprRel _ x y => 7 <= prec x /\ 7 <= prec y | _ => True end) ->
  written x -> written (cast t x).
Proof using.
  intros Ht Hr Hx H. cbn [cast literals_ok text_ok] in *. rewrite (Hx H), Ht. destruct x; try reflexivity.
  cbn [andb]. apply orb_true_iff. right. apply andb_true_iff. split; apply Z.leb_le; tauto.
Qed.
Lemma written_call f args : args <> [] -> Forall written args -> written (callFn f args).
Proof using.
  intros Hne Hargs H. cbn [callFn literals_ok text_ok] in *. destruct args as [|a args]; [contradiction|]. cbn [length]. rewrite bool_decide_false by discriminate.
  cbn [negb andb]. clear Hne. induction Hargs as [|x xs Hx Hxs IH]; [reflexivity|]. cbn [forallb] in *. apply andb_true_iff in H as [H1 H2].
  rewrite (Hx H1), (IH H2). reflexivity.
Qed.

(** *** Names *)

Lemma all_alnum_app s t : all_alnum (s +:+ t) = all_alnum s && all_alnum t.
Proof using. induction s as [|c s IH]; [reflexivity|]. rewrite append_cons. cbn [all_alnum]. rewrite IH. apply andb_assoc. Qed.
Lemma digits_alnum s : all_digits s = true -> all_alnum s = true.
Proof using.
  induction s as [|c s IH]; [reflexivity|]. cbn [all_digits all_alnum]. intros H. apply andb_true_iff in H as [Hc Hs].
  unfold is_alnum. rewrite Hc, orb_true_r. apply IH, Hs.
Qed.

(** A prefix with a number is not a word of the language. *)
Lemma numbered_name p j : p ∈ ["t"; "ok"; "p"; "m"; "c"; "u"; "d"; "x"] -> 0 <= j -> good_name (p +:+ Itoa j) = true.
Proof using.
  intros Hp Hj. destruct (Itoa_digits j Hj) as (c & s & E & Hc & Hs). rewrite E.
  assert (Ha : all_alnum (String c s) = true) by (cbn [all_alnum]; unfold is_alnum; rewrite Hc, orb_true_r; apply digits_alnum, Hs).
  apply andb_true_iff. split.
  - repeat (apply elem_of_cons in Hp as [->|Hp]; [rewrite ?append_cons, append_nil_l; cbn [ident all_alnum andb] in *; exact Ha|]). inversion Hp.
  - apply bool_decide_eq_true. intros Hr. 
    repeat (apply elem_of_cons in Hp as [->|Hp]; [rewrite ?append_cons, append_nil_l in Hr;
      repeat (apply elem_of_cons in Hr as [Hr|Hr]; [solve [discriminate Hr|injection Hr; intros; subst; discriminate Hc]|]); inversion Hr|]). inversion Hp.
Qed.

(** A coordinate or an offset; a flag. *)
Definition offset_name (s : string) : Prop := written (refOrInt s) /\ written (ref s).
Definition flag_name (s : string) : Prop := s = "true" \/ good_name s = true.

Lemma good_start n : good_name n = true -> refOrInt n = ref n.
Proof using.
  intros H. apply good_ident in H. destruct n as [|c n]; [discriminate H|]. cbn [ident] in H. apply andb_true_iff in H as [H _].
  unfold refOrInt. assert (K : numeral_start c = false); [|rewrite K; reflexivity].
  destruct (numeral_start c) eqn:E; [|reflexivity]. unfold numeral_start, is_letter in *. exfalso.
  repeat (apply orb_true_iff in H as [H|H]); rewrite ?andb_true_iff, ?Nat.leb_le, ?Nat.eqb_eq in H;
    (apply orb_true_iff in E as [E|E]); rewrite ?andb_true_iff, ?Nat.leb_le, ?Nat.eqb_eq in E; lia.
Qed.
Lemma good_offset n : good_name n = true -> offset_name n.
Proof using. intros H. unfold offset_name. rewrite good_start by exact H. split; apply written_ref, H. Qed.
Lemma Itoa_offset z : offset_name (Itoa z).
Proof using.
  unfold offset_name. destruct (Itoa_start z) as (a & s & E & Ha). rewrite E. unfold refOrInt. rewrite Ha.
  assert (K : written (ref (String a s))) by (intros H; cbn [ref literals_ok not_number] in H; rewrite Ha in H; discriminate H).
  split; [|exact K]. destruct (Atoi (String a s)); [apply written_int|exact K].
Qed.
Lemma flag_written n : flag_name n -> written (asBool n).
Proof using.
  intros [->|H]; [intros _; reflexivity|]. unfold asBool. destruct (good_facts n H) as [_ Hn]. rewrite bool_decide_false by exact Hn. apply written_ref, H.
Qed.

(** *** The expression of a node *)

Lemma exprALU_written ns n args : is_number_type (n_dtype n) = true -> Z.of_nat (length args) = arity (n_op n) ->
  Forall (fun s => good_name s = true) args -> written (exprALU ns n args).
Proof using.
  intros Hd Hlen Hargs. assert (Ha : forall i, Z.of_nat i < arity (n_op n) -> written (ref (nth i args ""%string))).
  { intros i Hi. rewrite Forall_forall in Hargs. apply written_ref, Hargs, list_elem_of_In, nth_In. lia. }
  assert (Hz : word_ok 0) by (split; [lia|reflexivity]). unfold exprALU, shiftGuard, divGuard, modGuard, arithGuard, neg.
  assert (Hu : forall v, 0 <= v < two32 -> written (uintc v)) by (intros v Hv _; cbn [uintc text_ok]; lia).
  destruct (n_op n) eqn:Eop; cbn [arity] in Ha; cbv beta zeta; try (exfalso; lia);
    try (destruct (n_dtype n) eqn:Ed; try discriminate Hd; try destruct (bool_decide _));
    repeat first [apply written_add|apply written_mul|apply written_div|apply written_mod|apply written_band|apply written_bor|apply written_bxor
      |apply written_shl|apply written_shr|apply written_rel|apply written_sel|apply written_int|apply written_call; [discriminate|]
      |apply Forall_cons; split|apply Forall_nil; exact I|apply Ha; reflexivity|apply written_const; solve [split; [discriminate|reflexivity]]
      |apply written_cast; [reflexivity|solve [exact I|split; discriminate]|]|apply Hu; solve [split; [discriminate|reflexivity]]
      |apply written_neg, Ha; reflexivity].
Qed.

(** *** The methods of the writer *)

(** A method that succeeds appends statements that the printer is right for,
    and changes nothing else but the counter. *)
Definition writes {A} (w : codeWriter) (m : CW A) (Q : A -> Prop) : Prop := 0 <= w_next w ->
  match m w with
  | (Ok a, w') => 0 <= w_next w' /\ (exists ss, w_body w' = w_body w ++ ss /\ Forall writable ss) /\ rest w' = rest w /\ Q a
  | (Err _, _) => True
  end.

Lemma writes_ret {A} w (a : A) (Q : A -> Prop) : Q a -> writes w (cw_ret a) Q.
Proof using. intros H Hn. split; [exact Hn|]. split; [exists []; rewrite app_nil_r; auto|auto]. Qed.

Lemma writes_fail {A} w e (Q : A -> Prop) : writes w (cw_fail e) Q.
Proof using. intros _. exact I. Qed.

Lemma writes_emit w s (Q : unit -> Prop) : writable s -> Q tt -> writes w (emit s) Q.
Proof using. intros Hs H Hn. split; [exact Hn|]. split; [exists [s]; auto|auto]. Qed.

Lemma writes_bind {A B} w (m : CW A) (f : A -> CW B) P Q : writes w m P ->
  (forall a w1, rest w1 = rest w -> P a -> writes w1 (f a) Q) -> writes w (cw_bind m f) Q.
Proof using.
  intros Hm Hf Hn. specialize (Hm Hn). unfold cw_bind. destruct (m w) as [[a|e] w1]; [|exact I].
  destruct Hm as (Hn1 & (s1 & B1 & F1) & R1 & HP). specialize (Hf a w1 R1 HP Hn1). destruct (f a w1) as [[c|e] w2]; [|exact I].
  destruct Hf as (Hn2 & (s2 & B2 & F2) & R2 & HQ). split; [exact Hn2|]. split; [|split; [congruence|exact HQ]].
  exists (s1 ++ s2). rewrite B2, B1, app_assoc. split; [reflexivity|]. apply Forall_app. auto.
Qed.

Lemma writes_get {A B} w (g : codeWriter -> A) (f : A -> CW B) Q : writes w (f (g w)) Q -> writes w (cw_bind (cw_get g) f) Q.
Proof using. exact (fun H => H). Qed.

Lemma writes_weaken {A} w (m : CW A) (P Q : A -> Prop) : (forall a, P a -> Q a) -> writes w m P -> writes w m Q.
Proof using. intros H Hm Hn. specialize (Hm Hn). destruct (m w) as [[a|e] w1]; [|exact I]. intuition. Qed.

Lemma writes_name w p : p ∈ prefixes -> writes w (name p) (fun n => good_name n = true).
Proof using.
  intros Hp Hn. cbn. split; [lia|]. split; [exists []; rewrite app_nil_r; auto|]. split; [reflexivity|].
  apply numbered_name; [|cbn; lia]. apply list_elem_of_In. apply list_elem_of_In in Hp. cbn in *. tauto.
Qed.

(** One statement, and what follows. *)
Lemma writes_then {A} w s (f : unit -> CW A) Q : writable s -> (forall w1, rest w1 = rest w -> writes w1 (f tt) Q) ->
  writes w (cw_bind (emit s) f) Q.
Proof using. intros Hs H. apply (writes_bind w _ _ (fun _ => True)); [apply writes_emit; auto|]. intros [] w1 R _. apply H, R. Qed.

(** A declaration of a new name. *)
Lemma writes_declare {A} w p t B (e : Expr) (f : string -> CW A) Q : p ∈ prefixes -> written e ->
  (forall n w1, good_name n = true -> rest w1 = rest w -> writes w1 (f n) Q) ->
  writes w (let* n := name p in let* _ := emit (StmtDecl t B n e) in f n) Q.
Proof using.
  intros Hp He H. eapply writes_bind; [apply writes_name, Hp|]. intros n w1 R1 Hn. apply writes_then.
  - intros Hl. cbn [stmt_ok]. rewrite Hn. apply He, Hl.
  - intros w2 R2. apply H; [exact Hn|congruence].
Qed.

Lemma writable_set n e : good_name n = true -> written e -> writable (StmtSet n e).
Proof using. intros Hn He H. cbn [stmt_ok]. rewrite Hn. apply He, H. Qed.
Lemma writable_add n e : good_name n = true -> written e -> writable (StmtAdd n e).
Proof using. intros Hn He H. cbn [stmt_ok]. rewrite Hn. apply He, H. Qed.
Lemma writable_decl t B n e : good_name n = true -> written e -> writable (StmtDecl t B n e).
Proof using. intros Hn He H. cbn [stmt_ok]. rewrite Hn. apply He, H. Qed.
Lemma writable_if c n e : written c -> good_name n = true -> written e -> writable (StmtIfSet c n e).
Proof using. intros Hc Hn He H. cbn [stmt_ok stmt_literals] in *. apply andb_true_iff in H as [H1 H2]. rewrite Hn, (Hc H1), (He H2). reflexivity. Qed.

Lemma unravel_loop_writes rshape : forall rem coords w, written (ref rem) -> Forall offset_name coords ->
  writes w (unravel_loop rshape rem coords) (Forall offset_name).
Proof using.
  induction rshape as [|s rshape IH]; intros rem coords w Hr Hc; cbn [unravel_loop]; [apply writes_ret, Hc|].
  destruct (s <=? 1); [apply IH; [exact Hr|constructor; [apply (Itoa_offset 0)|exact Hc]]|].
  apply writes_declare; [apply list_elem_of_In; cbn; tauto|apply written_mod; [exact Hr|apply written_int]|].
  intros c w1 Hn _. assert (Hcs : Forall offset_name (c :: coords)) by (constructor; [apply good_offset, Hn|exact Hc]).
  destruct rshape; [apply writes_ret, Hcs|].
  apply writes_declare; [apply list_elem_of_In; cbn; tauto|apply written_div; [exact Hr|apply written_int]|].
  intros u w2 Hu _. apply IH; [apply written_ref, Hu|exact Hcs].
Qed.

Lemma push_writes d : forall rem coords w, written (ref rem) -> Forall offset_name coords ->
  writes w (unravelPush_loop d rem coords) (Forall offset_name).
Proof using.
  induction d as [|d IH]; intros rem coords w Hr Hc; cbn [unravelPush_loop]; [apply writes_ret, Hc|].
  assert (Hd : written (ref ("d" +:+ Itoa (Z.of_nat d)))) by (apply written_ref, numbered_name; [apply list_elem_of_In; cbn; tauto|lia]).
  assert (Hcast : written (cast I32 (ref ("d" +:+ Itoa (Z.of_nat d))))) by (apply written_cast; [reflexivity|exact I|exact Hd]).
  assert (Hrel : written (rel RelLE (ref ("d" +:+ Itoa (Z.of_nat d))) (uintc 1))) by (apply written_rel; [exact Hd|intros _; reflexivity]).
  apply writes_declare; [apply list_elem_of_In; cbn; tauto| |].
  { apply written_sel; [exact Hrel|apply written_int|apply written_mod; [exact Hr|exact Hcast]]. }
  intros c w1 Hn _. assert (Hcs : Forall offset_name (c :: coords)) by (constructor; [apply good_offset, Hn|exact Hc]).
  destruct d as [|d]; [apply writes_ret, Hcs|].
  apply writes_declare; [apply list_elem_of_In; cbn; tauto| |].
  { apply written_sel; [exact Hrel|exact Hr|apply written_div; [exact Hr|exact Hcast]]. }
  intros u w2 Hu _. apply IH; [apply written_ref, Hu|exact Hcs].
Qed.

Lemma view_offset_writes off coords : good_name off = true -> Forall offset_name coords ->
  forall strides w, writes w (view_offset off coords strides) (fun _ => True).
Proof using.
  intros Ho Hc. induction Hc as [|c coords Hc Hcs IH]; intros strides w; cbn [view_offset]; [apply writes_ret, I|].
  destruct strides as [|st strides]; [apply writes_ret, I|]. destruct (st =? 0).
  - eapply writes_bind; [apply (writes_ret w tt (fun _ => True)), I|]. intros [] w1 _ _. apply IH.
  - apply writes_then; [|intros w1 _; apply IH]. apply writable_add; [exact Ho|]. apply written_mul; [apply Hc|apply written_int].
Qed.

Lemma view_mask_writes valid coords : good_name valid = true -> Forall offset_name coords ->
  forall mask w, writes w (view_mask valid coords mask) (fun _ => True).
Proof using.
  intros Hv Hc. induction Hc as [|c coords Hc Hcs IH]; intros mask w; cbn [view_mask]; [apply writes_ret, I|].
  destruct mask as [|[lo hi] mask]; [apply writes_ret, I|]. apply writes_then; [|intros w1 _; apply IH].
  apply writable_set; [exact Hv|].
  apply written_land; [apply written_land; [apply written_ref, Hv|]|]; apply written_rel; first [apply Hc|apply written_int].
Qed.

Definition index_names (r : string * string) : Prop := offset_name (fst r) /\ flag_name (snd r).

Lemma view_code_writes v coords w : Forall offset_name coords ->
  writes w (view_code v coords) (fun r => good_name (fst r) = true /\ flag_name (snd r)).
Proof using.
  intros Hc. unfold view_code. apply writes_declare; [apply list_elem_of_In; cbn; tauto|apply written_int|]. intros off w1 Ho _.
  destruct (v_shape v); [apply writes_ret; split; [exact Ho|left; reflexivity]|].
  eapply writes_bind; [apply view_offset_writes; assumption|]. intros [] w2 _ _.
  destruct (v_mask v) as [mask|]; [|apply writes_ret; split; [exact Ho|left; reflexivity]].
  apply writes_declare; [apply list_elem_of_In; cbn; tauto|intros _; reflexivity|]. intros m w3 Hm _.
  eapply writes_bind; [apply view_mask_writes; assumption|]. intros [] w4 _ _. apply writes_ret. split; [exact Ho|right; exact Hm].
Qed.

Lemma both_writes x y w : flag_name x -> flag_name y -> writes w (both_code x y) flag_name.
Proof using.
  intros Hx Hy. unfold both_code. apply writes_declare; [apply list_elem_of_In; cbn; tauto|apply written_land; apply flag_written; assumption|].
  intros n w1 Hn _. apply writes_ret. right. exact Hn.
Qed.

Lemma views_writes below : forall off valid w, good_name off = true -> flag_name valid ->
  writes w (views_code below off valid) index_names.
Proof using.
  induction below as [|v below IH]; intros off valid w Ho Hv; cbn [views_code]; [apply writes_ret; split; [apply good_offset, Ho|exact Hv]|].
  eapply writes_bind; [apply unravel_loop_writes; [apply written_ref, Ho|constructor]|]. intros mid w1 _ Hm.
  eapply writes_bind; [apply view_code_writes, Hm|]. intros [off2 val2] w2 _ [H1 H2]. cbn [fst snd] in *.
  eapply writes_bind; [apply both_writes; assumption|]. intros both w3 _ Hb. apply IH; assumption.
Qed.

Lemma indexAt_writes t coords w : Forall offset_name coords -> writes w (indexAt t coords) index_names.
Proof using.
  intros Hc. unfold indexAt. destruct (rev (t_views t)) as [|v below]; [apply writes_ret; split; [apply (Itoa_offset 0)|left; reflexivity]|].
  apply writes_get, writes_get. destruct (_ && _ && _).
  - apply writes_ret. split; [apply good_offset; reflexivity|left; reflexivity].
  - eapply writes_bind; [apply view_code_writes, Hc|]. intros [off valid] w1 _ [H1 H2]. apply views_writes; assumption.
Qed.

Lemma indexChain_writes chain : forall coords valid w, Forall offset_name coords -> flag_name valid ->
  writes w (indexChain_loop chain coords valid) index_names.
Proof using.
  induction chain as [|s chain IH]; intros coords valid w Hc Hv; cbn [indexChain_loop]; [apply writes_ret; split; [apply (Itoa_offset 0)|exact Hv]|].
  eapply writes_bind; [apply indexAt_writes, Hc|]. intros [o v] w1 _ [H1 H2]. cbn [fst snd] in *.
  eapply writes_bind; [apply both_writes; assumption|]. intros both w2 _ Hb.
  destruct chain; [apply writes_ret; split; assumption|]. destruct (opt_list (st_origin s)) as [|d0 origin]; [apply writes_ret; split; assumption|].
  eapply writes_bind; [apply unravel_loop_writes; [apply H1|constructor]|]. intros cs w3 _ Hcs. apply IH; assumption.
Qed.

Lemma chainCoords_writes chain : forall coords valid w, Forall offset_name coords -> flag_name valid ->
  writes w (chainCoords_code_loop chain coords valid) (fun r => Forall offset_name (fst r) /\ flag_name (snd r)).
Proof using.
  induction chain as [|s chain IH]; intros coords valid w Hc Hv; cbn [chainCoords_code_loop]; [apply writes_ret; split; assumption|].
  eapply writes_bind; [apply indexAt_writes, Hc|]. intros [o v] w1 _ [H1 H2]. cbn [fst snd] in *.
  eapply writes_bind; [apply both_writes; assumption|]. intros both w2 _ Hb.
  destruct (opt_list (st_origin s)) as [|d0 origin]; [apply writes_ret; split; assumption|].
  eapply writes_bind; [apply unravel_loop_writes; [apply H1|constructor]|]. intros cs w3 _ Hcs. apply IH; assumption.
Qed.

(** *** Nodes *)

Lemma index_writes t w : Forall offset_name (w_coords w) -> writes w (index_code t) index_names.
Proof using. intros Hc. apply writes_get, indexAt_writes, Hc. Qed.
Lemma chain_writes chain w : Forall offset_name (w_coords w) -> writes w (indexChain chain) index_names.
Proof using. intros Hc. apply writes_get, indexChain_writes; [exact Hc|left; reflexivity]. Qed.

(** A value, and another one when a flag holds. *)
Lemma writes_guarded w t id x c y : good_name id = true -> written x -> written c -> written y ->
  writes w (let* _ := emit (decl t id x) in let* _ := emit (StmtIfSet c id y) in cw_ret id) (fun id' => good_name id' = true).
Proof using.
  intros Hid Hx Hc Hy. apply writes_then; [apply writable_decl; assumption|]. intros w1 _.
  apply writes_then; [apply writable_if; assumption|]. intros w2 _. apply writes_ret, Hid.
Qed.
Lemma writes_single w t id x : good_name id = true -> written x ->
  writes w (let* _ := emit (decl t id x) in cw_ret id) (fun id' => good_name id' = true).
Proof using. intros Hid Hx. apply writes_then; [apply writable_decl; assumption|]. intros w1 _. apply writes_ret, Hid. Qed.

Lemma flag_ref_written n : flag_name n -> n <> "true" -> written (ref n).
Proof using. intros [->|H] Hn; [contradiction|]. apply written_ref, H. Qed.

Lemma const_writes id n w : good_name id = true -> Forall offset_name (w_coords w) -> word_ok (n_bits n) ->
  writes w (const_code id n) (fun id' => good_name id' = true).
Proof using.
  intros Hid Hc Hb. assert (H0 : word_ok 0) by (split; [discriminate|reflexivity]).
  assert (Hlast : forall m : CW (string * string), writes w m index_names -> writes w (let* (_, valid) := m in cw_ret valid) flag_name).
  { intros m Hm. eapply writes_bind; [exact Hm|]. intros [o v] w1 _ [_ Hv]. apply writes_ret, Hv. }
  unfold const_code. apply (writes_bind w _ _ flag_name).
  - destruct (n_chain n); [destruct (viewed n)|].
    + apply Hlast, index_writes, Hc.
    + apply writes_ret. left. reflexivity.
    + apply Hlast, chain_writes, Hc.
  - intros valid w1 _ Hv. case_bool_decide as Et; cbn [negb].
    + apply writes_single; [exact Hid|apply written_const, Hb].
    + apply writes_guarded; [exact Hid|apply written_const, H0|apply flag_ref_written; assumption|apply written_const, Hb].
Qed.

Lemma coord_writes id n w : good_name id = true -> Forall offset_name (w_coords w) ->
  writes w (coord_code id n) (fun id' => good_name id' = true).
Proof using.
  intros Hid Hc. unfold coord_code. apply writes_get.
  apply (writes_bind w _ _ (fun r => Forall offset_name (fst r) /\ flag_name (snd r))).
  - destruct (n_chain n); [apply writes_ret; split; [exact Hc|left; reflexivity]|].
    apply writes_get, chainCoords_writes; [exact Hc|left; reflexivity].
  - intros [cs valid] w1 _ [Hcs Hv]. cbn [fst snd] in *. destruct (_ || _) eqn:Es; [apply writes_fail|].
    assert (Hx : written (refOrInt (nth (Z.to_nat (n_slot n)) cs ""%string))).
    { rewrite Forall_forall in Hcs. apply Hcs, list_elem_of_In, nth_In. lia. }
    cbv zeta. case_bool_decide as Et.
    + apply writes_single; assumption.
    + apply writes_guarded; [exact Hid|apply written_int|apply flag_ref_written; assumption|exact Hx].
Qed.

Lemma input_writes hb id n w : good_name id = true -> Forall offset_name (w_coords w) ->
  writes w (input_code hb id n) (fun id' => good_name id' = true).
Proof using.
  intros Hid Hc. unfold input_code. apply (writes_bind w _ _ index_names).
  - destruct (n_chain n); [|apply chain_writes, Hc]. destruct (Rank _ =? 0); [|apply index_writes, Hc].
    destruct (At (n_tracker n) 0) as [[off []]|]; [|apply writes_fail..]. apply writes_ret. split; [apply Itoa_offset|left; reflexivity].
  - intros [off valid] w1 _ [Ho Hv]. cbn [fst snd] in *.
    assert (Hz : written (zeroExpr (n_dtype n))) by (apply written_const; split; [discriminate|reflexivity]).
    apply writes_then; [apply writable_decl; assumption|]. intros w2 R2. apply writes_get.
    apply writes_then; [|intros w3 _; apply writes_ret, Hid]. apply writable_if; [|exact Hid|].
    + apply written_land; [apply flag_written, Hv|apply written_land; apply written_rel; first [apply Ho|apply written_int]].
    + apply written_load; [apply numbered_name; [apply list_elem_of_In; cbn; tauto|lia]|apply Ho].
Qed.

(** A name in the table of names. *)
Definition has_name (w : codeWriter) (l : nat) : Prop := good_name (names_get (w_names w) l) = true.

Lemma op_writes ns id n w : good_name id = true -> is_number_type (n_dtype n) = true ->
  Z.of_nat (length (n_sources n)) = arity (n_op n) -> Forall (has_name w) (n_sources n) ->
  writes w (op_code ns id n) (fun id' => good_name id' = true).
Proof using.
  intros Hid Hd Hlen Hs. unfold op_code. apply writes_get. apply writes_single; [exact Hid|].
  apply exprALU_written; [exact Hd|rewrite length_map; exact Hlen|]. apply Forall_map. exact Hs.
Qed.

Definition coded (ns : list node) (l : nat) (n : node) : Prop := n_err n = None /\ fnode_ok ns l n.

Lemma node_writes ns hb l n w : coded ns l n -> Forall offset_name (w_coords w) -> Forall (has_name w) (n_sources n) ->
  writes w (node_code ns hb n) (fun id => good_name id = true).
Proof using.
  intros [He Hn] Hc Hs. unfold fnode_ok in Hn. rewrite He in Hn. destruct Hn as [Hd Hn].
  eapply writes_bind; [apply writes_name, list_elem_of_In; cbn; tauto|]. intros id w1 R1 Hid.
  assert (E1 : w_coords w1 = w_coords w /\ w_names w1 = w_names w) by (injection R1; auto). destruct E1 as [E1 E2].
  rewrite <- E1 in Hc. destruct (n_kind n).
  - apply const_writes; tauto.
  - apply input_writes; assumption.
  - apply coord_writes; assumption.
  - apply op_writes; [exact Hid|exact Hd|apply Hn|]. unfold has_name in *. rewrite E2. exact Hs.
Qed.

(** *** Kernels *)

Lemma names_later w l id x : good_name id = true -> has_name w x \/ x = l -> has_name (set_names ((l, id) :: w_names w) w) x.
Proof using.
  intros Hid Hx. unfold has_name, names_get. cbn [set_names w_names assoc_get]. case_bool_decide as E; [exact Hid|].
  destruct Hx as [Hx| ->]; [exact Hx|contradiction].
Qed.

Lemma nodes_write ns hb order (Hcoded : forall l, l ∈ order -> coded ns l (get ns l)) (Hord : ordered ns order) todo :
  forall done w, done ++ todo = order -> Forall (has_name w) done -> 0 <= w_next w -> Forall offset_name (w_coords w) ->
  match nodes_code ns hb todo w with
  | (Ok _, w') => 0 <= w_next w' /\ (exists ss, w_body w' = w_body w ++ ss /\ Forall writable ss) /\
      w_coords w' = w_coords w /\ w_root w' = w_root w /\ Forall (has_name w') order
  | (Err _, _) => True
  end.
Proof using.
  induction todo as [|l todo IH]; intros done w Ho Hd Hn Hc; cbn [nodes_code].
  { rewrite app_nil_r in Ho. subst done. cbn. split; [exact Hn|]. split; [exists []; rewrite app_nil_r; auto|auto]. }
  assert (Hl : order !! length done = Some l) by (rewrite <- Ho; apply list_lookup_middle; reflexivity).
  assert (Hsrc : Forall (has_name w) (n_sources (get ns l))).
  { rewrite Forall_forall in Hd |- *. intros s Hs. apply Hd. pose proof (Hord (length done) l s Hl Hs) as K.
    rewrite <- Ho, take_app_length in K. exact K. }
  pose proof (node_writes ns hb l (get ns l) w (Hcoded l ltac:(eapply list_elem_of_lookup_2, Hl)) Hc Hsrc Hn) as K.
  unfold cw_bind at 1. destruct (node_code ns hb (get ns l) w) as [[id|e] w1]; [|exact I].
  destruct K as (Hn1 & (s1 & B1 & F1) & R1 & Hid). injection R1 as R1 _ _ R4 R5 _ _.
  unfold cw_bind, cw_set. cbv beta iota. set (w2 := set_names _ w1).
  specialize (IH (done ++ [l]) w2). rewrite <- app_assoc in IH. specialize (IH Ho).
  assert (Hd2 : Forall (has_name w2) (done ++ [l])).
  { apply Forall_app. split; [|constructor; [apply names_later; auto|constructor]]. eapply Forall_impl; [exact Hd|].
    intros x Hx. apply names_later; [exact Hid|]. left. unfold has_name in *. rewrite R4. exact Hx. }
  specialize (IH Hd2 Hn1). cbn [w_coords w2 set_names w_body w_root] in IH. rewrite R1 in IH. specialize (IH Hc).
  destruct (nodes_code ns hb todo w2) as [[[]|e] w3]; [|exact I]. destruct IH as (K1 & (s2 & B2 & F2) & K3 & K4 & K5).
  split; [exact K1|]. split; [|split; [exact K3|split; [congruence|exact K5]]].
  exists (s1 ++ s2). rewrite B2, B1, app_assoc. split; [reflexivity|]. apply Forall_app. auto.
Qed.

Lemma store_writes ns w : Forall offset_name (w_coords w) -> has_name w (w_root w) -> writes w (store_code ns) (fun _ => True).
Proof using.
  intros Hc Hr. unfold store_code. apply writes_get, writes_get. destruct (viewed _).
  - apply writes_get. eapply writes_bind; [apply indexAt_writes, Hc|]. intros [o v] w1 _ [_ Hv]. apply writes_emit; [|exact I].
    intros H. revert H. change (written (sel (asBool v) (ref (names_get (w_names w) (w_root w))) (zeroExpr (n_dtype (get ns (w_root w)))))).
    apply written_sel; [apply flag_written, Hv|apply written_ref, Hr|apply written_const; split; [discriminate|reflexivity]].
  - apply writes_emit; [|exact I]. intros _. exact Hr.
Qed.

(** The printer is right for the schedule of a flattened kernel, if the
    literals fit. *)
Lemma kernel_writable h k c : fheap_ok h -> flattened h (k_root k) (k_order k) (k_bufs k) ->
  kernel_Code (h_nodes h) (h_bufs h) (Some k) = Ok c -> Forall writable (c_Stmts c).
Proof using.
  intros Hh Hf Hcode. cbn [kernel_Code] in Hcode. destruct (maxPushRank <? Rank (k_built k)); [discriminate Hcode|].
  set (w0 := mkWriter _ _ _ _ _ _ _ _ _) in Hcode. unfold schedule, bind_bufs, emit in Hcode.
  unfold cw_bind at 1, cw_set in Hcode. unfold cw_bind at 1, cw_set in Hcode. unfold cw_bind at 1, cw_set in Hcode.
  unfold cw_bind at 1, cw_get at 1 in Hcode. unfold cw_bind at 1 in Hcode. cbn [w_outShape w0 set_body set_bufBind] in Hcode.
  set (w1 := set_body _ (set_body _ _)) in Hcode.
  assert (Hi : good_name "i" = true) by reflexivity.
  pose proof (push_writes (length (k_built k)) "i" [] w1 (written_ref "i" Hi) ltac:(constructor) ltac:(cbn; lia)) as K1.
  change (unravelPush (length (k_built k)) w1) with (unravelPush_loop (length (k_built k)) "i" [] w1) in Hcode.
  destruct (unravelPush_loop (length (k_built k)) "i" [] w1) as [[cs|e] w2]; [|discriminate Hcode].
  destruct K1 as (N2 & (s2 & B2 & F2) & R2 & Hcs). injection R2 as _ _ _ _ R5 R6 _.
  unfold cw_bind at 1, cw_set in Hcode. unfold cw_bind at 1, cw_get at 1 in Hcode. unfold cw_bind in Hcode.
  cbn [w_order set_coords] in Hcode. rewrite R6 in Hcode. cbn [w_order w1 set_body set_bufBind w0] in Hcode.
  assert (Hcoded : forall l, l ∈ k_order k -> coded (h_nodes h) l (get (h_nodes h) l)).
  { intros l Hl. destruct (fo_valid _ _ _ _ Hf l Hl) as [Hlt He]. destruct (lookup_lt_is_Some_2 _ _ Hlt) as [n Hn].
    rewrite (get_lookup _ _ _ Hn) in *. split; [exact He|apply (fheap_nodes h Hh), Hn]. }
  pose proof (nodes_write (h_nodes h) (h_bufs h) (k_order k) Hcoded (fo_ordered _ _ _ _ Hf) (k_order k) [] (set_coords cs w2) eq_refl
    ltac:(constructor) N2 Hcs) as K2.
  destruct (nodes_code (h_nodes h) (h_bufs h) (k_order k) (set_coords cs w2)) as [[[]|e] w3]; [|discriminate Hcode].
  destruct K2 as (N3 & (s3 & B3 & F3) & C3 & R3 & Hnamed). cbn [set_coords w_coords w_root w_body] in C3, R3, B3. rewrite R5 in R3.
  assert (Hroot : has_name w3 (w_root w3)).
  { rewrite R3. rewrite Forall_forall in Hnamed. apply Hnamed. pose proof (fo_last _ _ _ _ Hf) as Hlast.
    apply last_Some in Hlast as [pre Ep]. cbn [w_root w1 set_body set_bufBind w0]. rewrite Ep. apply elem_of_app. right. constructor. }
  pose proof (store_writes (h_nodes h) w3 ltac:(rewrite C3; exact Hcs) Hroot N3) as K3.
  destruct (store_code (h_nodes h) w3) as [[[]|e] w4]; [|discriminate Hcode]. destruct K3 as (_ & (s4 & B4 & F4) & _).
  injection Hcode as <-. cbn [c_Stmts]. rewrite B4, B3, B2. cbn [w1 w_body set_body set_bufBind w0 app].
  apply Forall_cons; split; [intros _; reflexivity|]. apply Forall_cons; split; [intros _; destruct b; reflexivity|].
  apply Forall_app; split; [apply Forall_app; split|]; assumption.
Qed.

Lemma kernel_text_ok h k c : fheap_ok h -> flattened h (k_root k) (k_order k) (k_bufs k) ->
  kernel_Code (h_nodes h) (h_bufs h) (Some k) = Ok c -> forallb stmt_literals (c_Stmts c) = true ->
  forallb (stmt_ok b) (c_Stmts c) = true.
Proof using.
  intros Hh Hf Hc Hl. pose proof (kernel_writable h k c Hh Hf Hc) as K. revert Hl. induction K as [|s ss Hs K IH]; [reflexivity|].
  cbn [forallb]. intros Hl. apply andb_true_iff in Hl as [H1 H2]. rewrite (Hs H1), (IH H2). reflexivity.
Qed.
End written.
