(* ===== verification/Schedule.v ===== *)
(** * The schedule computes the graph (src/x/ndarray/code.go)

    The code of each node binds a name to the value of the node; run by the
    thread of a cell, the schedule of a kernel stores the word that the CPU
    evaluation stores there, once, and nothing past the last cell.  The file
    ends with the invocations of a dispatch in any order. *)
From Stdlib Require Import ZArith Lia DecimalString DecimalZ.
From stdpp Require Import base numbers option list strings gmap.
From S2P Require Import Prelude Float Alu Shape View Tracker Expr Rewrite Optimize Flatten Cpu Kernel Code Shader Emits.

Local Open Scope Z_scope.

(** ** Nodes *)

Lemma numbered_lookup {A} p (l : list (option A)) : forall k j, (j < length l)%nat ->
  numbered p k l !! (p +:+ Itoa (k + Z.of_nat j)) = mjoin (l !! j).
Proof.
  assert (Hlow : forall (l : list (option A)) k j, j < k -> numbered p k l !! (p +:+ Itoa j) = None).
  { clear. induction l as [|[a|] l IH]; intros k j Hj; cbn [numbered]; [apply lookup_empty| |apply IH; lia].
    rewrite lookup_insert_ne; [apply IH; lia|]. intros Ej. apply (inj (String.append p)), (inj Itoa) in Ej. lia. }
  induction l as [|o l IH]; intros k j Hj; [simpl in Hj; lia|]. destruct j as [|j].
  - rewrite Z.add_0_r. destruct o as [a|]; cbn [numbered]; [apply lookup_insert_eq|apply Hlow; lia].
  - assert (Ek : k + Z.of_nat (S j) = (k + 1) + Z.of_nat j) by lia. rewrite Ek. cbn [lookup list_lookup].
    simpl in Hj. specialize (IH (k + 1) j ltac:(lia)). destruct o as [a|]; cbn [numbered]; [|exact IH].
    rewrite lookup_insert_ne; [exact IH|]. intros Ej. apply (inj (String.append p)), (inj Itoa) in Ej. lia.
Qed.

Lemma numbered_inv {A} p (l : list (option A)) n a : forall k, numbered p k l !! n = Some a ->
  exists j, n = p +:+ Itoa (k + Z.of_nat j) /\ l !! j = Some (Some a).
Proof.
  induction l as [|o l IH]; intros k Hn; [discriminate Hn|].
  assert (Hstep : numbered p (k + 1) l !! n = Some a -> exists j, n = p +:+ Itoa (k + Z.of_nat j) /\ (o :: l) !! j = Some (Some a)).
  { intros H. destruct (IH _ H) as (j & -> & Hj). exists (S j). split; [f_equal; f_equal; lia|exact Hj]. }
  destruct o as [b|]; cbn [numbered] in Hn; [|exact (Hstep Hn)].
  destruct (decide (p +:+ Itoa k = n)) as [<-|Hne]; [|rewrite lookup_insert_ne in Hn by exact Hne; exact (Hstep Hn)].
  rewrite lookup_insert_eq in Hn. injection Hn as <-. exists 0%nat. rewrite Z.add_0_r. auto.
Qed.

Lemma numbered_other {A} p (l : list (option A)) n : (forall j, n <> p +:+ Itoa j) -> forall k, numbered p k l !! n = None.
Proof.
  intros Hn. induction l as [|[a|] l IH]; intros k; cbn [numbered]; [apply lookup_empty| |apply IH].
  rewrite lookup_insert_ne; [apply IH|]. intros Ej. exact (Hn k (eq_sym Ej)).
Qed.

(** A node that both backends read alike at the cell [c], whose source 0
    has the word [a]: its offsets fit in int32, its buffer has its type, an
    element of uint8 is below 256 and a cast is of a number that fits. *)
Definition leaf_fits (n : node) (c : list Z) : bool :=
  match n_chain n with
  | _ :: _ => chain_const (n_chain n) && chain_fits false (n_chain n) c
  | [] => tracker_fits (n_tracker n) && cell_fits (n_tracker n) c
  end.

Definition node_fits (ns : list node) (hb : list buffer) (n : node) (c : list Z) (a : Z) : bool :=
  match n_kind n with
  | kindConst =>
      (match n_chain n with [] => negb (viewed n) | _ => false end || leaf_fits n c) &&
      (negb (bool_decide (n_dtype n = U8)) || (n_bits n <? 256))
  | kindCoord => bool_decide (n_dtype n = I32) && chain_const (n_chain n) && chain_fits true (n_chain n) c
  | kindInput =>
      match n_buf n ≫= (fun b => hb !! b) with
      | None => false
      | Some b => bool_decide (buf_dtype b = n_dtype n) && int32 (cells b)
      end &&
      match n_chain n with
      | [] =>
          if Rank (opt_list (t_Shape (n_tracker n))) =? 0 then
            match At (n_tracker n) 0 with Ok (off, true) => int32 off | _ => true end
          else leaf_fits n c
      | _ => leaf_fits n c
      end
  | kindOp => negb (bool_decide (n_op n = CAST)) || castable (in_type ns n) (n_dtype n) a
  end.

Section nodes.
Context {E : FloatEnv} (h : heap) (root : nat) (order bufs : list nat) (out : Shape) (gi : Z).
Hypothesis Hheap : fheap_ok h.
Hypothesis Hfl : flattened h root order bufs.
Hypothesis Hout : nonneg out.
Hypothesis Hgi : 0 <= gi < Size out.
Hypothesis Hsize : Size out < two31.

Let ns := h_nodes h.
Let hb := h_bufs h.
Let mem := bindings hb bufs.
Let c := unravel out gi.

Let arg0 (n : node) : Z := match n_sources n with [] => 0 | s :: _ => flat h s c end.

Hypothesis Hfits : forall l, l ∈ order -> node_fits ns hb (get ns l) c (arg0 (get ns l)) = true.

Lemma rep_as_val d w : is_number_type d = true -> word_ok w -> rep d (as_val d w) w /\ declared d false (as_val d w) = true.
Proof using. intros Hd Hw. split; [apply rep_words; [intros ->; discriminate Hd|exact Hw]|destruct d; reflexivity]. Qed.

Lemma rep_declared d v w : is_number_type d = true -> rep d v w -> declared d false v = true.
Proof using. intros Hd (w' & -> & _). destruct d; reflexivity. Qed.

(** The value of a node, under its name. *)
Definition named (e : env) (l : nat) (id : string) : Prop :=
  exists v, e !! id = Some v /\ rep (n_dtype (get ns l)) v (flat h l c).

(** Between the nodes: the thread has its cell, and the nodes of [done] have
    their names. *)
Record at_node (done : list nat) (w : codeWriter) (e : env) : Prop := {
  an_cell : at_cell mem out gi w e;
  an_bind : w_bufBind w = bufIndex_from bufs 1 [];
  an_named : forall l, l ∈ done -> named e l (names_get (w_names w) l)
}.

Lemma at_node_extends done k w e w' e' : at_node done w e -> extends k w e w' e' -> at_node done w' e'.
Proof using.
  intros [H1 H2 H3] G. split; [eapply at_cell_extends; eassumption| |]; destruct G as [R _ S _]; injection R as R1 R2 R3 R4 R5 R6 R7.
  - congruence.
  - intros l Hl. rewrite R4. destruct (H3 l Hl) as (v & Hv & Rv). exists v. split; [eapply lookup_sub; eassumption|exact Rv].
Qed.

(** The last statements of a node: bind its name, and replace the value when
    a condition holds. *)
Lemma bind_emits k w e id j d v w0 (rhs : Expr) (Q : string -> codeWriter -> env -> Prop) :
  made id j -> k < j <= w_next w -> e !! id = None -> is_number_type d = true -> eval mem e rhs = Some v -> rep d v w0 ->
  (forall w' e', extends k w e w' e' -> e' !! id = Some v -> Q id w' e') ->
  emits mem k w e (let* _ := emit (decl d id rhs) in cw_ret id) Q.
Proof using.
  intros Hm Hj Hu Hd Hv Hr H. eapply emits_bind.
  { apply (emits_step mem k w e _ (<[id := v]> e) (fun _ w' e' => e' = <[id := v]> e)); [|apply (extends_bind k w e id j); assumption|auto].
    apply step_decl; [exact Hu|exact Hv|eapply rep_declared; eassumption]. }
  intros [] w1 e1 G ->. apply emits_ret. apply H; [exact G|apply lookup_insert_eq].
Qed.

Lemma guard_emits k w e id j d (zero rhs cond : Expr) b w0 (Q : string -> codeWriter -> env -> Prop) :
  made id j -> k < j <= w_next w -> e !! id = None -> is_number_type d = true -> eval mem e zero = Some (as_val d 0) ->
  eval mem (<[id := as_val d 0]> e) cond = Some (VB b) ->
  (b = true -> exists v, eval mem (<[id := as_val d 0]> e) rhs = Some v /\ rep d v w0) -> (b = false -> w0 = 0) ->
  (forall w' e' v, extends k w e w' e' -> e' !! id = Some v -> rep d v w0 -> Q id w' e') ->
  emits mem k w e (let* _ := emit (decl d id zero) in let* _ := emit (StmtIfSet cond id rhs) in cw_ret id) Q.
Proof using.
  intros Hm Hj Hu Hd Hz Hc Ht Hf H. set (e0 := <[id := as_val d 0]> e) in *.
  assert (Hres : exists v, step mem e0 (StmtIfSet cond id rhs) = Some (<[id := v]> e) /\ rep d v w0).
  { cbn [step]. rewrite Hc. destruct b.
    - destruct (Ht eq_refl) as (v & Hv & Rv). exists v. rewrite Hv. unfold assign, e0. rewrite lookup_insert_eq, insert_insert_eq.
      destruct Rv as (w' & -> & Hw). split; [destruct d; try discriminate Hd; reflexivity|]. exists w'. auto.
    - exists (as_val d 0). split; [reflexivity|]. rewrite (Hf eq_refl). apply rep_as_val; [exact Hd|apply zero_ok]. }
  destruct Hres as (v & Hs & Rv). set (w2 := set_body ((w_body w ++ [decl d id zero]) ++ [StmtIfSet cond id rhs]) w).
  exists [decl d id zero; StmtIfSet cond id rhs], (<[id := v]> e). split; [cbn; rewrite <- app_assoc; reflexivity|].
  assert (G : extends k w e w2 (<[id := v]> e)) by (apply set_body_extends, (extends_bind k w e id j); assumption).
  split; [|split; [exact G|apply (H w2 _ v); [exact G|apply lookup_insert_eq|exact Rv]]].
  cbn [steps]. unfold decl. rewrite (step_decl mem e d false id _ (as_val d 0) Hu Hz); [fold e0; cbv iota; rewrite Hs; reflexivity|].
  destruct d; try discriminate Hd; reflexivity.
Qed.

(** What a leaf's offset and flag say of its cell. *)
Definition leaf_read (index : list Z -> Z * bool) (r : string * string) (e : env) : Prop :=
  exists o b, word_of mem e (fst r) o /\ flag mem e (snd r) b /\ b = snd (index c) /\
    (b = true -> o = u32 (fst (index c))).

Lemma chain_emits chain k w e : fresh w e -> k <= w_next w -> at_cell mem out gi w e -> chain <> [] ->
  chain_const chain = true -> chain_fits false chain c = true ->
  emits mem k w e (indexChain chain) (fun r _ e' => leaf_read (applyChain chain) r e').
Proof using Hout Hgi Hsize.
  intros Hf Hk Hac Hne Hconst Hfit. unfold indexChain. apply emits_get. eapply emits_weaken; [reflexivity| |].
  { apply (indexChain_emits mem out gi Hout Hgi Hsize chain (w_coords w) (map u32 c) "true" true); auto; [apply Hac|reflexivity]. }
  intros [o v] w' e' _ (_ & z & b & Hz & Hb & K). cbn [fst snd] in *. destruct (K c) as [K1 K2]; [auto|].
  exists z, b. split; [apply scalar_word, Hz|]. split; [exact Hb|]. split; [exact K1|exact K2].
Qed.

Lemma view_leaf_emits t k w e : fresh w e -> k <= w_next w -> at_cell mem out gi w e ->
  tracker_fits t = true -> cell_fits t c = true ->
  emits mem k w e (index_code t) (fun r _ e' => leaf_read (indexViews (t_views t)) r e').
Proof using Hout Hgi Hsize.
  intros Hf Hk Hac Ht Hfit. unfold index_code. apply emits_get. eapply emits_weaken; [reflexivity| |].
  { apply (indexAt_emits mem out gi Hout Hgi Hsize t (w_coords w) (map u32 c)); auto. apply Hac. }
  intros [o v] w' e' _ (z & b & Hz & Hb & K). cbn [fst snd] in *. destruct (K c eq_refl Hfit) as [K1 K2].
  exists z, b. split; [apply scalar_word, Hz|]. split; [exact Hb|]. split; [exact K1|exact K2].
Qed.

(** A node by pointer. *)
Lemma node_facts l : l ∈ order -> exists n, get ns l = n /\ h_nodes h !! l = Some n /\ n_err n = None /\
  fnode_ok ns l n /\ flat h l c = node_flat ns hb (flat h) n c /\ word_ok (flat h l c).
Proof using Hheap Hfl.
  intros Hin. destruct (fo_valid _ _ _ _ Hfl l Hin) as [Hlt He]. destruct (lookup_lt_is_Some_2 _ _ Hlt) as [n Hn].
  exists n. pose proof (get_lookup _ _ _ Hn) as Eg. split; [exact Eg|]. split; [exact Hn|]. rewrite Eg in He. split; [exact He|].
  split; [exact (fheap_nodes h Hheap l n Hn)|]. split; [apply flat_unfold; auto using fheap_acyclic|].
  apply flat_ok; [exact Hheap|exact Hlt|rewrite Eg; exact He].
Qed.

(** Run a leaf's index code after the node's name was made. *)
Lemma after_name {A} k w e id (m : CW A) (f : A -> CW string) P Q : k < w_next w -> made id (w_next w) -> e !! id = None ->
  emits mem (w_next w) w e m P ->
  (forall a w1 e1, extends k w e w1 e1 -> e1 !! id = None -> w_next w <= w_next w1 -> P a w1 e1 -> emits mem k w1 e1 (f a) Q) ->
  emits mem k w e (cw_bind m f) Q.
Proof using.
  intros Hk Hm Hu H1 H2. eapply emits_bind.
  { apply (emits_weaken mem k (w_next w) w e m P (fun a w1 e1 => extends (w_next w) w e w1 e1 /\ P a w1 e1)); [lia|exact H1|auto]. }
  intros a w1 e1 G (G1 & HP). apply H2; [exact G| |apply G1|exact HP].
  eapply extends_unbound; [exact G1|exact Hm|lia|exact Hu].
Qed.

Lemma flag_value (e : env) n b : flag mem e n b -> n = "true"%string -> b = true.
Proof using. intros H ->. injection H as <-. reflexivity. Qed.

Lemma flag_ref (e : env) n b : n <> "true"%string -> flag mem e n b -> eval mem e (ref n) = Some (VB b).
Proof using. unfold flag, asBool. intros Hn. rewrite bool_decide_false by exact Hn. exact (fun H => H). Qed.

(** *** The four kinds of node *)

(** A method that binds the name [id] to the value of the node [n]. *)
Definition binds (m : string -> node -> CW string) (n : node) : Prop := forall id k w e,
  k < w_next w -> made id (w_next w) -> e !! id = None -> fresh w e -> at_node (n_sources n) w e ->
  emits mem k w e (m id n) (fun id' _ e' => id' = id /\
    exists v, e' !! id = Some v /\ rep (n_dtype n) v (node_flat ns hb (flat h) n c)).

(** The index code of a leaf with a chain, or with a view. *)
Lemma leaf_emits n k w e : fresh w e -> k <= w_next w -> at_cell mem out gi w e -> leaf_fits n c = true ->
  emits mem k w e (match n_chain n with [] => index_code (n_tracker n) | _ :: _ => indexChain (n_chain n) end)
    (fun r _ e' => leaf_read (match n_chain n with [] => indexViews (t_views (n_tracker n)) | _ :: _ => applyChain (n_chain n) end) r e').
Proof using Hout Hgi Hsize.
  unfold leaf_fits. intros Hf Hk Hac Hfit. destruct (n_chain n) as [|s ch] eqn:Ech; apply andb_true_iff in Hfit as [H1 H2].
  - apply view_leaf_emits; assumption.
  - apply chain_emits; auto.
Qed.

Lemma const_value n e : n_dtype n <> DNone -> word_ok (n_bits n) ->
  negb (bool_decide (n_dtype n = U8)) || (n_bits n <? 256) = true ->
  eval mem e (constExpr n) = Some (as_val (n_dtype n) (n_bits n)).
Proof using.
  unfold constExpr. cbn [eval]. intros Hd Hw H. destruct (n_dtype n); try reflexivity.
  rewrite bool_decide_true in H by reflexivity. cbn [negb orb] in H. apply Z.ltb_lt in H.
  rewrite Z.mod_small by (unfold word_ok in Hw; lia). reflexivity.
Qed.

Lemma const_binds n : n_kind n = kindConst -> is_number_type (n_dtype n) = true -> word_ok (n_bits n) ->
  node_fits ns hb n c 0 = true -> binds const_code n.
Proof using Hout Hgi Hsize.
  intros Ek Hnum Hw Hfit id k w e Hk Hm Hu Hf [Hac _ _]. unfold node_fits in Hfit. rewrite Ek in Hfit.
  apply andb_true_iff in Hfit as [Hleaf Hbits]. assert (Hd : n_dtype n <> DNone) by (intros Ed; rewrite Ed in Hnum; discriminate Hnum).
  unfold const_code. apply (after_name k w e id _ _ (fun valid _ e' => exists b, flag mem e' valid b /\
    node_flat ns hb (flat h) n c = if b then n_bits n else 0)); [exact Hk|exact Hm|exact Hu| |].
  - pose proof (leaf_emits n (w_next w) w e Hf ltac:(lia) Hac) as L. unfold node_flat. rewrite Ek.
    destruct (n_chain n) as [|s ch] eqn:Ech; [destruct (viewed n) eqn:Ev|]; cbn [negb orb] in Hleaf.
    + eapply emits_bind; [exact (L Hleaf)|]. intros [o valid] w1 e1 _ (o' & b & _ & Hb & -> & _).
      apply emits_ret. eauto.
    + apply emits_ret. exists true. split; reflexivity.
    + eapply emits_bind; [exact (L Hleaf)|]. intros [o valid] w1 e1 _ (o' & b & _ & Hb & -> & _).
      apply emits_ret. eauto.
  - intros valid w1 e1 G Hu1 Hn1 (b & Hb & Ev). rewrite Ev. destruct (rep_as_val (n_dtype n) (n_bits n) Hnum Hw) as [Rc _].
    destruct (decide (valid = "true"%string)) as [Et|Et]; [rewrite (bool_decide_true _ Et)|rewrite (bool_decide_false _ Et)]; cbn [negb].
    + rewrite (flag_value e1 valid b Hb Et). apply (bind_emits k w1 e1 id (w_next w) (n_dtype n) (as_val (n_dtype n) (n_bits n)) (n_bits n));
        [exact Hm|lia|exact Hu1|exact Hnum|apply const_value; assumption|exact Rc|eauto].
    + apply (guard_emits k w1 e1 id (w_next w) (n_dtype n) _ _ _ b (if b then n_bits n else 0));
        [exact Hm|lia|exact Hu1|exact Hnum|cbn [eval zeroExpr]; destruct (n_dtype n); reflexivity| | | |eauto].
      * apply flag_ref; [exact Et|]. eapply flag_sub; [apply insert_subseteq, Hu1|exact Hb].
      * intros ->. eexists. split; [apply const_value; assumption|exact Rc].
      * intros ->. reflexivity.
Qed.

(** *** Coordinates *)

Lemma coord_word_at cs slot x : 0 <= slot -> map u32 cs !! Z.to_nat slot = Some x -> coord_word cs slot = x.
Proof using.
  intros Hs Hx. unfold coord_word.
  change (map u32 cs) with (u32 <$> cs) in Hx. rewrite list_lookup_fmap in Hx.
  destruct (cs !! Z.to_nat slot) as [y|] eqn:Ey; [|discriminate Hx]. injection Hx as <-.
  pose proof (lookup_lt_Some _ _ _ Ey). destruct (Z.ltb_spec slot 0), (Z.leb_spec (Z.of_nat (length cs)) slot); try lia.
  cbn [orb]. rewrite nth_lookup, Ey. reflexivity.
Qed.

Lemma coord_binds n : n_kind n = kindCoord -> 0 <= n_slot n -> node_fits ns hb n c 0 = true -> binds coord_code n.
Proof using Hout Hgi Hsize.
  intros Ek Hslot Hfit id k w e Hk Hm Hu Hf [Hac _ _]. unfold node_fits in Hfit. rewrite Ek in Hfit.
  rewrite !andb_true_iff in Hfit. destruct Hfit as [[Hd Hconst] Hfit]. apply bool_decide_eq_true in Hd.
  unfold coord_code. apply emits_get.
  apply (after_name k w e id _ _ (fun r _ e' => exists ws b, Forall2 (word_of mem e') (fst r) ws /\ flag mem e' (snd r) b /\
    let cb := match n_chain n with [] => (c, true) | chain => chainCoords chain c end in
    b = snd cb /\ (b = true -> ws = map u32 (fst cb)))); [exact Hk|exact Hm|exact Hu| |].
  - destruct (n_chain n) as [|s ch] eqn:Ech.
    + apply emits_ret. exists (map u32 c), true. split; [apply Hac|]. split; [reflexivity|]. split; reflexivity.
    + unfold chainCoords_code. apply emits_get. eapply emits_weaken; [reflexivity| |].
      { apply (chainCoords_emits mem out gi Hout Hgi Hsize (s :: ch) (w_coords w) (map u32 c) "true" true); auto; [lia|apply Hac|reflexivity]. }
      intros r w' e' _ (_ & ws & b & Hws & Hb & K). exists ws, b. split; [exact Hws|]. split; [exact Hb|].
      destruct (K c) as [K1 K2]; [auto|]. unfold chainCoords. auto.
  - intros [coords valid] w1 e1 G Hu1 Hn1 (ws & b & Hws & Hb & Eb & Ews). cbn [fst snd] in *.
    destruct ((n_slot n <? 0) || _) eqn:Es; [apply emits_fail|]. apply orb_false_iff in Es as [_ Es]. apply Z.leb_gt in Es.
    set (i := Z.to_nat (n_slot n)). assert (Hi : (i < length coords)%nat) by lia.
    destruct (lookup_lt_is_Some_2 coords i Hi) as [cx Hcx].
    destruct (Forall2_lookup_l _ _ _ i cx Hws Hcx) as (x & Hx & Hword & Hxok).
    assert (Ec : nth i coords ""%string = cx) by (rewrite nth_lookup, Hcx; reflexivity). rewrite Ec.
    assert (Ev : node_flat ns hb (flat h) n c = if b then x else 0).
    { unfold node_flat. rewrite Ek. destruct (n_chain n) as [|s ch] eqn:Ech; cbn [fst snd] in *; subst b.
      - apply coord_word_at; [exact Hslot|]. rewrite <- (Ews eq_refl). exact Hx.
      - destruct (chainCoords (s :: ch) c) as [cs []]; cbn [fst snd] in *; [|reflexivity].
        apply coord_word_at; [exact Hslot|]. rewrite <- (Ews eq_refl). exact Hx. }
    rewrite Ev, Hd. pose proof (rep_words I32 x ltac:(discriminate) Hxok) as Rx. case_bool_decide as Et.
    + rewrite (flag_value e1 valid b Hb Et). apply (bind_emits k w1 e1 id (w_next w) I32 (VI x) x);
        [exact Hm|lia|exact Hu1|reflexivity|exact Hword|exact Rx|eauto].
    + apply (guard_emits k w1 e1 id (w_next w) I32 _ _ _ b (if b then x else 0));
        [exact Hm|lia|exact Hu1|reflexivity|reflexivity| | | |eauto].
      * apply flag_ref; [exact Et|]. eapply flag_sub; [apply insert_subseteq, Hu1|exact Hb].
      * intros ->. eexists. split; [|exact Rx]. apply (word_of_sub mem e1); [apply insert_subseteq, Hu1|split; assumption].
      * intros ->. reflexivity.
Qed.

(** *** Inputs *)

Lemma views_fit_int32 vs : forall cs off, views_fit vs cs = true -> locate vs cs = Some off -> int32 off = true.
Proof using.
  clear. induction vs as [|v vs IH]; intros cs off Hfit Hl; [discriminate Hl|]. cbn [views_fit locate] in *.
  apply andb_true_iff in Hfit as [_ Hfit]. destruct (addr v cs) as [o|]; [|discriminate Hl].
  destruct vs as [|u vs]; [congruence|]. rewrite !andb_true_iff in Hfit. apply (IH _ _ (proj2 Hfit) Hl).
Qed.

Lemma chain_fits_int32 chain : forall cs off, chain_fits false chain cs = true ->
  applyChain_loop chain cs true = (off, true) -> int32 off = true.
Proof using.
  clear. induction chain as [|s chain IH]; intros cs off Hfit Ha; [discriminate Ha|]. cbn [chain_fits applyChain_loop] in *.
  apply andb_true_iff in Hfit as [Hc Hfit]. rewrite locate_index in Hfit. pose proof (locate_index (st_tr s) cs) as L.
  destruct (indexViews _ cs) as [o vok]. cbn [fst snd andb] in *. destruct vok.
  2: { exfalso. destruct chain; [congruence|]. destruct (opt_list (st_origin s)); [congruence|].
       apply (f_equal snd) in Ha. rewrite applyChain_false in Ha. discriminate Ha. }
  destruct chain as [|s' chain]; [injection Ha as <-; exact (views_fit_int32 _ _ _ Hc L)|].
  destruct (opt_list (st_origin s)) as [|d origin]; [injection Ha as <-; exact (views_fit_int32 _ _ _ Hc L)|].
  rewrite bool_decide_false in Hfit by discriminate. cbn [negb andb orb] in Hfit. rewrite !andb_true_iff in Hfit.
  exact (IH _ _ (proj2 Hfit) Ha).
Qed.

Lemma word_outside b i : is_number_type (buf_dtype b) = true -> (0 <=? i) && (i <? cells b) = false -> word b i = 0.
Proof using.
  clear. unfold cells, word. intros Hd H. destruct (Z.ltb_spec i 0) as [|Hi]; [reflexivity|].
  rewrite (proj2 (Z.leb_le 0 i) Hi) in H. cbn [andb] in H. apply Z.ltb_ge in H.
  destruct (buf_dtype b); try discriminate Hd; cbn [dtype_size Z.eqb Pos.eqb] in H.
  3: { rewrite Z.quot_1_r in H. destruct (Z.leb_spec (Z.of_nat (length (raw b))) i); [reflexivity|lia]. }
  all: rewrite Z.quot_div_nonneg in H by lia; pose proof (Z.div_mod (Z.of_nat (length (raw b))) 4 ltac:(lia)) as D;
    pose proof (Z.mod_pos_bound (Z.of_nat (length (raw b))) 4 ltac:(lia));
    destruct (Z.ltb_spec (Z.of_nat (length (raw b))) (i * 4 + 4)); [reflexivity|lia].
Qed.

(** Where an input reads, with a flag. *)
Definition input_index (n : node) : Z * bool :=
  match n_chain n with [] => indexViews (t_views (n_tracker n)) c | chain => applyChain chain c end.

Lemma leaf_int32 n off : leaf_fits n c = true -> input_index n = (off, true) -> int32 off = true.
Proof using.
  unfold leaf_fits, input_index. intros Hfit Hi. destruct (n_chain n) as [|s ch]; apply andb_true_iff in Hfit as [_ Hfit].
  - apply (views_fit_int32 _ c off Hfit). fold (t_locate (n_tracker n) c). rewrite locate_index, Hi. reflexivity.
  - exact (chain_fits_int32 (s :: ch) c off Hfit Hi).
Qed.

Lemma binding_lookup b : b ∈ bufs -> mem !! ("x" +:+ Itoa (Z.of_nat (map_get (bufIndex_from bufs 1 []) b))) = hb !! b.
Proof using.
  intros Hb. destruct (proj1 (bufIndex_from_spec bufs b 1 []) Hb) as (j & Hj & Hl). unfold map_get. rewrite Hj. cbn [default].
  pose proof (lookup_lt_Some _ _ _ Hl) as Hlt. unfold mem, bindings.
  unfold id. rewrite Nat2Z.inj_add, (numbered_lookup "x" _ (Z.of_nat 1)) by (rewrite length_map; exact Hlt).
  change (map (fun b => hb !! b) bufs) with ((fun b => hb !! b) <$> bufs). rewrite list_lookup_fmap, Hl. reflexivity.
Qed.

(** The guard of a load, and the load. *)
Lemma load_guard (e : env) off valid o b0 :
  word_of mem e off o -> flag mem e valid b0 -> forall n, int32 n = true ->
  eval mem e (land (asBool valid) (land (rel RelGE (refOrInt off) (iconst 0)) (rel RelLT (refOrInt off) (iconst n)))) =
    Some (VB (b0 && ((0 <=? i32 o) && (i32 o <? n)))).
Proof using.
  intros [Ho _] Hv n Hn. destruct (int32_literal n Hn) as [Ln En]. unfold land, rel, iconst. cbn [eval]. unfold flag in Hv. rewrite Hv, Ho, Ln.
  change (int_literal 0) with (Some (VI 0)). cbn [vrel int_rel]. change (i32 0) with 0. rewrite En.
  destruct b0; [|reflexivity]. destruct (0 <=? i32 o); reflexivity.
Qed.

Lemma input_binds n b buf : n_kind n = kindInput -> n_buf n = Some b -> b ∈ bufs -> hb !! b = Some buf ->
  is_number_type (n_dtype n) = true -> nil_ok (n_tracker n) -> node_fits ns hb n c 0 = true -> binds (input_code hb) n.
Proof using Hheap Hout Hgi Hsize.
  intros Ek Eb Hin Hbuf Hnum Hnil Hfit id k w e Hk Hm Hu Hf [Hac Hbind _]. unfold node_fits in Hfit. rewrite Ek, Eb in Hfit.
  cbn [mbind option_bind] in Hfit. rewrite Hbuf in Hfit. rewrite !andb_true_iff in Hfit. destruct Hfit as [[Hty Hcells] Hleaf].
  apply bool_decide_eq_true in Hty. unfold input_code.
  apply (after_name k w e id _ _ (fun r w' e' => w_bufBind w' = w_bufBind w /\ exists o b0, word_of mem e' (fst r) o /\ flag mem e' (snd r) b0 /\
    node_flat ns hb (flat h) n c = if b0 then word buf (i32 o) else 0)); [exact Hk|exact Hm|exact Hu| |].
  - assert (Ev : node_flat ns hb (flat h) n c = if snd (input_index n) then word buf (fst (input_index n)) else 0).
    { unfold node_flat, input_index. rewrite Ek, Eb. unfold buf_word. cbn [mbind option_bind]. rewrite Hbuf.
      destruct (n_chain n); [destruct (indexViews _ c) as [off []]|destruct (applyChain _ c) as [off []]]; reflexivity. }
    assert (Hread : forall r w' e', leaf_fits n c = true -> extends (w_next w) w e w' e' -> leaf_read (fun _ => input_index n) r e' ->
      w_bufBind w' = w_bufBind w /\ exists o b0, word_of mem e' (fst r) o /\ flag mem e' (snd r) b0 /\
      node_flat ns hb (flat h) n c = if b0 then word buf (i32 o) else 0).
    { intros r w' e' Hl [R _ _ _] (o & b0 & Ho & Hb0 & E1 & E2). injection R as R1 R2 R3 R4 R5 R6 R7. split; [exact R3|].
      exists o, b0. split; [exact Ho|]. split; [exact Hb0|]. rewrite Ev. rewrite <- E1. destruct b0; [|reflexivity].
      pose proof (leaf_int32 n (fst (input_index n)) Hl) as Hi. rewrite E2 by reflexivity.
      rewrite (proj2 (int32_literal _ (Hi ltac:(rewrite (surjective_pairing (input_index n)) at 1; cbn; rewrite <- E1; reflexivity)))). reflexivity. }
    pose proof (leaf_emits n (w_next w) w e Hf ltac:(lia) Hac) as L. unfold input_index in Hread.
    destruct (n_chain n) as [|s ch] eqn:Ech; [destruct (Rank _ =? 0) eqn:Er|].
    + destruct (At (n_tracker n) 0) as [[off []]|err] eqn:Ea; try apply emits_fail. apply Z.eqb_eq in Er.
      apply emits_ret. split; [reflexivity|]. exists (u32 off), true. cbn [fst snd]. destruct (int32_literal off Hleaf) as [Lo Eo].
      split; [split; [|apply u32_ok]|split; [reflexivity|]].
      * rewrite refOrInt_Itoa by (unfold int32, two31 in Hleaf; lia). exact Lo.
      * rewrite Ev. unfold input_index. rewrite Ech, (At_scalar _ off c Hnil Er Ea). cbn [fst snd]. rewrite Eo. reflexivity.
    + eapply emits_weaken; [reflexivity|exact (L Hleaf)|]. intros r w' e' G Hr. apply (Hread r w' e' Hleaf G). exact Hr.
    + eapply emits_weaken; [reflexivity|exact (L Hleaf)|]. intros r w' e' G Hr. apply (Hread r w' e' Hleaf G). exact Hr.
  - intros [off valid] w1 e1 G Hu1 Hn1 (Hb1 & o & b0 & Ho & Hb0 & Ev). cbn [fst snd] in *. rewrite Ev.
    assert (Ecells : node_cells hb n = cells buf) by (unfold node_cells; rewrite Eb; cbn [mbind option_bind]; rewrite Hbuf; reflexivity).
    set (e2 := <[id := as_val (n_dtype n) 0]> e1). assert (Hsub : e1 ⊆ e2) by apply insert_subseteq, Hu1.
    assert (Hguard := load_guard e2 off valid o b0 (word_of_sub mem e1 e2 off o Hsub Ho) (flag_sub mem e1 e2 valid b0 Hsub Hb0) (cells buf) Hcells).
    apply (word_of_sub mem e1 e2 off o Hsub) in Ho.
    pose proof (guard_emits k w1 e1 id (w_next w) (n_dtype n) (zeroExpr (n_dtype n)) (load_at ("x" +:+ Itoa (Z.of_nat (map_get (w_bufBind w1) b))) (refOrInt off))
      _ _ (if b0 then word buf (i32 o) else 0) (fun id' _ e' => id' = id /\ exists v, e' !! id = Some v /\ rep (n_dtype n) v (if b0 then word buf (i32 o) else 0))
      Hm ltac:(lia) Hu1 Hnum ltac:(cbn [eval zeroExpr]; destruct (n_dtype n); reflexivity) Hguard) as Gd.
    unfold emits, cw_bind, cw_get, emit, cw_set, cw_ret in Gd |- *. cbn in Gd |- *. rewrite Eb, Ecells. apply Gd.
    + intros Ht. rewrite andb_true_iff in Ht. destruct Ht as [-> Hin0]. rewrite Hb1, Hbind, (binding_lookup b Hin), Hbuf.
      fold e2. rewrite (proj1 Ho). unfold load_val. rewrite Hin0, Hty. eexists. split; [reflexivity|]. apply rep_as_val; [exact Hnum|].
      pose proof (buf_word_ok hb (Some b) (i32 o) (fheap_bufs h Hheap)) as Hw. unfold buf_word in Hw. cbn [mbind option_bind] in Hw.
      rewrite Hbuf in Hw. exact Hw.
    + intros Ht. destruct b0; [|reflexivity]. cbn [andb] in Ht. apply word_outside; [rewrite Hty; exact Hnum|exact Ht].
    + eauto.
Qed.

(** *** Operations *)

Lemma op_binds n : n_kind n = kindOp -> is_number_type (n_dtype n) = true ->
  Z.of_nat (length (n_sources n)) = arity (n_op n) -> types_ok ns n ->
  (forall s, s ∈ n_sources n -> word_ok (flat h s c)) ->
  node_fits ns hb n c (arg0 n) = true -> binds (op_code ns) n.
Proof using.
  intros Ek Hnum Har Hty Hsrc Hfit id k w e Hk Hm Hu Hf [_ _ Hnames]. unfold node_fits in Hfit. rewrite Ek in Hfit.
  unfold op_code. apply emits_get. set (args := map (names_get (w_names w)) (n_sources n)).
  set (W := fun j => arg (flat h) n j c).
  destruct (exprALU_correct mem e ns n args W Hnum Har Hty) as (v & Hv & Rv).
  - intros j. unfold W, arg. destruct (n_sources n !! j) as [s|] eqn:Es; [|apply zero_ok].
    apply Hsrc. eapply list_elem_of_lookup_2, Es.
  - intros j s Hj. destruct (Hnames s) as (v & Hv & Rv); [eapply list_elem_of_lookup_2, Hj|].
    exists v. unfold W, arg. rewrite Hj. split; [|exact Rv]. rewrite nth_lookup. unfold args.
    change (map (names_get (w_names w)) (n_sources n)) with (names_get (w_names w) <$> n_sources n). rewrite list_lookup_fmap, Hj. exact Hv.
  - intros Hc. rewrite Hc, bool_decide_true in Hfit by reflexivity. unfold W, arg. unfold arg0 in Hfit.
    destruct (n_sources n); exact Hfit.
  - apply (bind_emits k w e id (w_next w) (n_dtype n) v (op_value ns (flat h) n c)); [exact Hm|lia|exact Hu|exact Hnum|exact Hv|exact Rv|].
    intros w' e' _ Hid. split; [reflexivity|]. exists v. split; [exact Hid|]. unfold node_flat. rewrite Ek. exact Rv.
Qed.

(** *** One node, and all of them *)

Lemma node_emits l k w e : l ∈ order -> fresh w e -> k <= w_next w -> at_node (n_sources (get ns l)) w e ->
  emits mem k w e (node_code ns hb (get ns l)) (fun id w' e' => made id (w_next w + 1) /\ named e' l id).
Proof using Hheap Hfl Hout Hgi Hsize Hfits.
  intros Hin Hf Hk Hat. destruct (node_facts l Hin) as (n & Eg & Hn & He & Hok & Ev & Hw).
  pose proof (Hfits l Hin) as Hfit. rewrite Eg in Hfit, Hat |- *. unfold fnode_ok in Hok. rewrite He in Hok. destruct Hok as [Hnum Hok].
  assert (Hfit0 : n_kind n <> kindOp -> node_fits ns hb n c 0 = true).
  { intros Hk0. unfold node_fits in *. destruct (n_kind n); [exact Hfit..|contradiction]. }
  assert (Hbind : forall m, binds m n -> emits mem k w e (let* id := name "t" in m id n)
      (fun id w' e' => made id (w_next w + 1) /\ named e' l id)).
  { intros m Hb. eapply emits_bind.
    { apply (emits_name mem k w e "t" (fun id w' e' => e' = e /\ made id (w_next w') /\ w_next w' = w_next w + 1 /\ e !! id = None /\ fresh w' e));
        [exact Hf|repeat constructor|auto 10]. }
    intros id w1 e1 G (-> & Hm & Hn1 & Hu & Hf1). eapply emits_weaken; [reflexivity|apply Hb|].
    - lia.
    - exact Hm.
    - exact Hu.
    - exact Hf1.
    - eapply at_node_extends; eassumption.
    - intros id' w2 e2 _ (-> & v & Hv & Rv). split; [rewrite <- Hn1; exact Hm|]. exists v. split; [exact Hv|].
      rewrite Eg, Ev. exact Rv. }
  unfold node_code. destruct (n_kind n) eqn:Ek; apply Hbind.
  - apply const_binds; auto; solve [apply Hok|apply Hfit0; discriminate].
  - destruct Hok as (_ & Hb & Hnil). destruct (n_buf n) as [b|] eqn:Eb; [|contradiction].
    assert (Hf0 : node_fits ns hb n c 0 = true) by (apply Hfit0; discriminate).
    assert (Hbuf : exists buf, hb !! b = Some buf).
    { unfold node_fits in Hf0. rewrite Ek, Eb in Hf0. cbn [mbind option_bind] in Hf0.
      destruct (hb !! b) as [buf|]; [eauto|discriminate Hf0]. }
    destruct Hbuf as [buf Hbuf]. eapply input_binds; eauto.
    eapply (fo_bufs _ _ _ _ Hfl l b Hin); fold ns; rewrite Eg; assumption.
  - apply coord_binds; auto; solve [apply Hok|apply Hfit0; discriminate].
  - destruct Hok as (Har & Hs & Hty). apply op_binds; auto. intros s Hsin. rewrite Forall_forall in Hs.
    destruct (Hs s Hsin) as [Hlt Hse]. apply flat_word; [exact Hheap|split; [|exact Hse]].
    pose proof (lookup_lt_Some _ _ _ Hn). lia.
Qed.

(** A run of the writer whose tables may change. *)
Definition codes {A} (w : codeWriter) (e : env) (m : CW A) (Q : A -> codeWriter -> env -> Prop) : Prop :=
  match m w with
  | (Err _, _) => True
  | (Ok a, w') => exists ss e', w_body w' = w_body w ++ ss /\ steps mem e ss = Some e' /\ fresh w' e' /\ Q a w' e'
  end.

Lemma codes_emits {A} w e (m : CW A) (P Q : A -> codeWriter -> env -> Prop) : fresh w e -> emits mem (w_next w) w e m P ->
  (forall a w' e', extends (w_next w) w e w' e' -> P a w' e' -> Q a w' e') -> codes w e m Q.
Proof using.
  unfold emits, codes. intros Hf Hm H. destruct (m w) as [[a|err] w']; [|exact I].
  destruct Hm as (ss & e' & B & R & G & HP). exists ss, e'. split; [exact B|]. split; [exact R|].
  split; [eapply extends_fresh; eassumption|eauto].
Qed.

Lemma codes_bind {A B} w e (m : CW A) (f : A -> CW B) P Q : codes w e m P ->
  (forall a w1 e1, fresh w1 e1 -> P a w1 e1 -> codes w1 e1 (f a) Q) -> codes w e (cw_bind m f) Q.
Proof using.
  unfold codes, cw_bind. intros Hm Hf. destruct (m w) as [[a|err] w1]; [|exact I].
  destruct Hm as (s1 & e1 & B1 & R1 & F1 & HP). specialize (Hf a w1 e1 F1 HP).
  destruct (f a w1) as [[b|err] w2]; [|exact I]. destruct Hf as (s2 & e2 & B2 & R2 & F2 & HQ).
  exists (s1 ++ s2), e2. split; [rewrite B2, B1, app_assoc; reflexivity|]. split; [rewrite steps_app, R1; exact R2|auto].
Qed.

Lemma codes_set w e f (Q : unit -> codeWriter -> env -> Prop) : fresh w e -> w_next (f w) = w_next w -> w_body (f w) = w_body w ->
  Q tt (f w) e -> codes w e (cw_set f) Q.
Proof using.
  intros Hf Hn Hb HQ. exists [], e. rewrite app_nil_r. split; [exact Hb|]. split; [reflexivity|]. split; [|exact HQ].
  intros n j Hj Hlt. apply (Hf n j Hj). lia.
Qed.

Lemma names_get_cons l id names l' :
  names_get ((l, id) :: names) l' = if bool_decide (l = l') then id else names_get names l'.
Proof using. unfold names_get. cbn [assoc_get]. case_bool_decide; reflexivity. Qed.

Lemma nodes_run todo : forall done w e, done ++ todo = order -> fresh w e -> at_node done w e ->
  codes w e (nodes_code ns hb todo) (fun _ w' e' => at_node order w' e' /\ w_root w' = w_root w).
Proof using Hheap Hfl Hout Hgi Hsize Hfits.
  induction todo as [|l todo IH]; intros done w e Hord Hf Hat; cbn [nodes_code].
  { rewrite app_nil_r in Hord. subst done. exists [], e. rewrite app_nil_r. auto. }
  assert (Hl : order !! length done = Some l) by (rewrite <- Hord; apply list_lookup_middle; reflexivity).
  assert (Hin : l ∈ order) by (eapply list_elem_of_lookup_2, Hl).
  assert (Hsrc : forall s, s ∈ n_sources (get ns l) -> s ∈ done).
  { intros s Hs. pose proof (fo_ordered _ _ _ _ Hfl (length done) l s Hl Hs) as K.
    rewrite <- Hord, take_app_length in K. exact K. }
  assert (Hnew : l ∉ done).
  { intros Hd. pose proof (fo_nodup _ _ _ _ Hfl) as K. rewrite <- Hord in K. apply NoDup_app in K as (_ & K & _).
    apply (K l Hd). left. }
  eapply codes_bind.
  { eapply codes_emits; [exact Hf|apply (node_emits l (w_next w) w e Hin Hf); [lia|]|].
    - destruct Hat as [H1 H2 H3]. split; [exact H1|exact H2|]. intros s Hs. apply H3, Hsrc, Hs.
    - intros id w1 e1 G HP. exact (conj (at_node_extends _ _ _ _ _ _ Hat G) (conj (g_rest _ _ _ _ _ G) HP)). }
  intros id w1 e1 Hf1 (Hat1 & Hr1 & _ & Hid). eapply codes_bind.
  { apply (codes_set w1 e1 _ (fun _ w2 e2 => at_node (done ++ [l]) w2 e2 /\ w_root w2 = w_root w)); [exact Hf1|reflexivity|reflexivity|].
    injection Hr1 as R1 R2 R3 R4 R5 R6 R7. split; [|exact R5]. destruct Hat1 as [[A1 A2 A3] H2 H3].
    split; [split; [exact A1|exact A2|exact A3]|exact H2|]. intros x Hx. cbn [w_names set_names]. rewrite names_get_cons.
    case_bool_decide as Ex; [subst x; exact Hid|]. apply H3. apply elem_of_app in Hx as [Hx|Hx]; [exact Hx|].
    apply list_elem_of_singleton in Hx. congruence. }
  intros [] w2 e2 Hf2 (Hat2 & Hr2). specialize (IH (done ++ [l]) w2 e2 ltac:(rewrite <- app_assoc; exact Hord) Hf2 Hat2).
  rewrite Hr2 in IH. exact IH.
Qed.

(** *** The thread's own cell *)

(** [d0], [d1], ... hold the dimensions. *)
Definition dims_bound (e : env) : Prop := forall d s, out !! d = Some s -> e !! ("d" +:+ Itoa (Z.of_nat d)) = Some (VU (u32 s)).

Lemma out_small : Forall small out.
Proof using Hgi Hout Hsize.
  clear Hheap Hfl Hfits. revert Hgi Hsize. clear c arg0. revert gi. induction Hout as [|s sfx Hs Hn IH]; intros gi Hgi Hsize; [constructor|].
  rewrite Size_cons in Hgi, Hsize. pose proof (Size_nonneg sfx Hn) as Hp.
  assert (0 < s /\ 0 < Size sfx) as [H1 H2] by nia. constructor; [unfold small; nia|]. apply (IH Hn 0); nia.
Qed.

(** The two expressions of one axis. *)
Lemma eval_axis e rem r d s : out !! d = Some s -> dims_bound e -> scalar e rem r -> small s ->
  let dim := ref ("d" +:+ Itoa (Z.of_nat d)) in
  let cond := rel RelLE dim (uintc 1) in
  eval mem e (sel cond (iconst 0) (mod_ (ref rem) (cast I32 dim))) = Some (VI (if s <=? 1 then 0 else u32 (Z.rem (i32 r) s))) /\
  eval mem e (sel cond (ref rem) (div (ref rem) (cast I32 dim))) = Some (VI (if s <=? 1 then r else u32 (Z.quot (i32 r) s))).
Proof using.
  intros Hd Hdims (Hr & _ & _) Hs dim cond. unfold cond, dim, sel, rel, uintc, iconst, mod_, div, cast, ref. cbn [eval].
  rewrite (Hdims d s Hd), Hr. change ((0 <=? 1) && (1 <? two32)) with true. cbn [vrel int_rel vcast vmod vdiv].
  rewrite (u32_small s) by (unfold small, word_ok, two31, two32 in *; lia). change (int_literal 0) with (Some (VI 0)).
  assert (Ei : i32 s = s) by (unfold small, two31 in *; unfold i32, two31; destruct (Z.ltb_spec s 2147483648); lia || reflexivity).
  destruct (Z.leb_spec s 1); [split; reflexivity|]. rewrite Ei. destruct (Z.eqb_spec s 0); [lia|]. split; reflexivity.
Qed.

Lemma push_loop_emits d : forall rem r cs ws k w e, (d <= length out)%nat -> fresh w e -> k <= w_next w ->
  dims_bound e -> scalar e rem r -> Forall2 (word_of mem e) cs ws -> unravelled (drop d out) r ws gi ->
  emits mem k w e (unravelPush_loop d rem cs) (fun cs' _ e' => Forall2 (word_of mem e') cs' (map u32 c)).
Proof using Hgi Hout Hsize.
  assert (Hgs : small gi) by (unfold small; lia).
  induction d as [|d IH]; intros rem r cs ws k w e Hd Hf Hk Hdims Hrem Hcs Hu; cbn [unravelPush_loop].
  { apply emits_ret. destruct Hu as [_ ->]. rewrite drop_0 in Hcs. exact Hcs. }
  destruct (lookup_lt_is_Some_2 out d ltac:(lia)) as [s Hs].
  assert (Hsm : small s) by (eapply Forall_lookup_1; [apply out_small|exact Hs]).
  pose proof (unravelled_step s (drop (S d) out) r ws gi Hgs ltac:(apply Forall_drop, Hout) (proj1 Hsm) Hu) as Hu'.
  rewrite <- (drop_S _ _ _ Hs) in Hu'. destruct (eval_axis e rem r d s Hs Hdims Hrem Hsm) as [Em _].
  assert (Hxok : word_ok (if s <=? 1 then 0 else u32 (Z.rem (i32 r) s))) by (destruct (s <=? 1); [apply zero_ok|apply u32_ok]).
  assert (Hrok : word_ok (if s <=? 1 then r else u32 (Z.quot (i32 r) s))) by (destruct (s <=? 1); [apply Hrem|apply u32_ok]).
  set (x := if s <=? 1 then 0 else _) in *. set (r' := if s <=? 1 then r else _) in *.
  eapply emits_declare; [exact Hf|exact Hk|repeat constructor|exact Em|reflexivity|].
  intros cn w1 Hc Hn1 _ _ G1 Hf1. set (e1 := <[cn := VI x]> e) in *.
  assert (Hcs1 : Forall2 (word_of mem e1) (cn :: cs) (x :: ws)).
  { constructor; [apply scalar_word; eapply made_scalar; eassumption|]. eapply words_sub; [apply G1|exact Hcs]. }
  destruct d as [|d].
  { apply emits_ret. destruct Hu' as [_ Ew]. rewrite drop_0 in Ew. fold c in Ew. rewrite <- Ew. exact Hcs1. }
  assert (Hd1 : dims_bound e1) by (intros j y Hj; eapply lookup_sub; [apply G1|apply Hdims, Hj]).
  assert (Hr1 : scalar e1 rem r) by (eapply scalar_sub; [apply G1|exact Hrem]).
  destruct (eval_axis e1 rem r (S d) s Hs Hd1 Hr1 Hsm) as [_ Ed].
  eapply emits_declare; [exact Hf1|lia|repeat constructor|exact Ed|reflexivity|].
  intros un w2 Hu2 Hn2 _ _ G2 Hf2. eapply (IH un r' (cn :: cs) (x :: ws)).
  - lia.
  - exact Hf2.
  - lia.
  - intros j y Hj. eapply lookup_sub; [apply G2|apply Hd1, Hj].
  - eapply made_scalar; eassumption.
  - eapply words_sub; [apply G2|exact Hcs1].
  - exact Hu'.
Qed.

(** *** The stored element *)

(** The view of the root, when the store reads it. *)
Definition root_fits : bool :=
  let n := get ns root in negb (viewed n) || (tracker_fits (n_tracker n) && cell_fits (n_tracker n) c).

(** The word of the cell. *)
Definition root_word : Z :=
  let n := get ns root in
  if viewed n then (if snd (indexViews (t_views (n_tracker n)) c) then flat h root c else 0) else flat h root c.

Lemma run_stmts_steps d ss : forall e e' tl, steps mem e ss = Some e' -> run_stmts mem d e (ss ++ tl) = run_stmts mem d e' tl.
Proof using.
  induction ss as [|s ss IH]; intros e e' tl Hs; cbn [steps app] in *; [congruence|].
  destruct (step mem e s) as [e1|] eqn:E1; [|discriminate Hs]. rewrite <- (IH e1 e' tl Hs). cbn [run_stmts].
  destruct s; try (rewrite E1; reflexivity); discriminate E1.
Qed.

Lemma run_store e rhs v d w : scalar e "i" (u32 gi) -> eval mem e rhs = Some v -> rep d v w -> is_number_type d = true ->
  exists w', run_stmts mem d e [StmtStore rhs] = Some [(gi, w')] /\ weq d w' w.
Proof using Hgi Hsize.
  intros (Hi & _) Hv (w' & -> & Hw & _) Hd. exists w'. split; [|exact Hw]. cbn [run_stmts]. rewrite Hi, Hv.
  assert (Ho : of_val d (as_val d w') = Some w') by (destruct d; try discriminate Hd; reflexivity).
  rewrite Ho, i32_small by (unfold small; lia). reflexivity.
Qed.

Lemma store_run w e : fresh w e -> at_node order w e -> w_root w = root -> root_fits = true ->
  match store_code ns w with
  | (Err _, _) => True
  | (Ok _, w') => exists ss w2, w_body w' = w_body w ++ ss /\
      run_stmts mem (n_dtype (get ns root)) e ss = Some [(gi, w2)] /\ weq (n_dtype (get ns root)) w2 root_word
  end.
Proof using Hheap Hfl Hout Hgi Hsize.
  intros Hf Hat Hroot Hfit. assert (Hin : root ∈ order) by (apply last_Some_elem_of, (fo_last _ _ _ _ Hfl)).
  destruct (node_facts root Hin) as (n & Eg & Hn & He & Hok & _). unfold fnode_ok in Hok. rewrite He in Hok. destruct Hok as [Hnum _].
  destruct (an_named _ _ _ Hat root Hin) as (v & Hv & Rv). unfold store_code, root_fits, root_word in *. rewrite Eg in *.
  unfold cw_bind at 1, cw_get at 1. unfold cw_bind at 1, cw_get at 1. rewrite Hroot, Eg.
  pose proof (an_cell _ _ _ Hat) as Hac. destruct (viewed n) eqn:Ev; cbn [negb orb] in Hfit.
  2: { destruct (run_store e (ref (names_get (w_names w) root)) v (n_dtype n) (flat h root c) (ac_i _ _ _ _ _ Hac) Hv Rv Hnum) as (w2 & R & Hw).
    exists [StmtStore (ref (names_get (w_names w) root))], w2. auto. }
  apply andb_true_iff in Hfit as [Ht Hc].
  pose proof (indexAt_emits mem out gi Hout Hgi Hsize (n_tracker n) (w_coords w) (map u32 c) (w_next w) w e Hf ltac:(lia) Ht Hac (ac_coords _ _ _ _ _ Hac)) as K.
  unfold emits in K. unfold cw_bind at 1, cw_get at 1. unfold cw_bind at 1.
  destruct (indexAt (n_tracker n) (w_coords w) w) as [[[o valid]|err] w1]; [|exact I].
  destruct K as (ss & e1 & B & R & G & o1 & b & _ & Hb & K). destruct (K c eq_refl Hc) as [Eb _]. cbn [fst snd] in *.
  set (rhs := sel (asBool valid) (ref (names_get (w_names w) root)) (zeroExpr (n_dtype n))).
  assert (Hrhs : exists v', eval mem e1 rhs = Some v' /\ rep (n_dtype n) v' (if b then flat h root c else 0)).
  { unfold rhs, sel. cbn [eval]. unfold flag in Hb. rewrite Hb. destruct b.
    - exists v. split; [eapply lookup_sub; [apply G|exact Hv]|exact Rv].
    - exists (as_val (n_dtype n) 0). split; [destruct (n_dtype n); reflexivity|]. apply rep_as_val; [exact Hnum|apply zero_ok]. }
  destruct Hrhs as (v' & Hv' & Rv'). rewrite <- Eb.
  assert (Hi1 : scalar e1 "i" (u32 gi)) by (eapply scalar_sub; [apply G|apply Hac]).
  destruct (run_store e1 rhs v' (n_dtype n) _ Hi1 Hv' Rv' Hnum) as (w2 & R2 & Hw).
  exists (ss ++ [StmtStore rhs]), w2. split; [cbn [emit cw_set snd w_body set_body]; unfold emit, cw_set; cbn; rewrite B, app_assoc; reflexivity|].
  split; [|exact Hw]. rewrite (run_stmts_steps _ _ _ _ _ R). exact R2.
Qed.

(** *** The whole schedule *)

(** The environment of the thread, before its first statement. *)
Definition thread_ok (e : env) (n : Z) : Prop :=
  e !! "gi"%string = Some (VU gi) /\ e !! "n"%string = Some (VU n) /\ gi < n /\ e !! "i"%string = None /\
  dims_bound e /\ forall m j, made m j -> e !! m = None.

(** The coordinates and the nodes. *)
Definition cells_and_nodes : CW unit :=
  let* coords := unravelPush (length out) in
  let* _ := cw_set (set_coords coords) in
  let* order := cw_get w_order in
  nodes_code ns hb order.

Lemma cells_and_nodes_run w e : fresh w e -> dims_bound e -> scalar e "i" (u32 gi) ->
  w_outShape w = out -> w_bufBind w = bufIndex_from bufs 1 [] -> w_root w = root -> w_order w = order ->
  codes w e cells_and_nodes (fun _ w' e' => at_node order w' e' /\ w_root w' = root).
Proof using Hheap Hfl Hout Hgi Hsize Hfits.
  intros Hf Hd Hi Eout Ebind Eroot Eorder. eapply codes_bind.
  { eapply codes_emits; [exact Hf| |].
    - apply (push_loop_emits (length out) "i" (u32 gi) [] [] (w_next w) w e); auto; [lia|].
      rewrite drop_all. split; [cbn; rewrite Z.quot_1_r|]; reflexivity.
    - intros cs w' e' G HP. exact (conj (g_rest _ _ _ _ _ G) (conj (scalar_sub _ _ _ _ (g_sub _ _ _ _ _ G) Hi) HP)). }
  intros cs w2 e2 Hf2 (Hr2 & Hi2 & Hcs). injection Hr2 as R1 R2 R3 R4 R5 R6 R7. eapply codes_bind.
  { apply (codes_set w2 e2 (set_coords cs) (fun _ w' e' => at_node [] w' e' /\ w_order w' = order /\ w_root w' = root));
      [exact Hf2|reflexivity|reflexivity|]. split; [|cbn; split; congruence].
    split; [split; [cbn; congruence|exact Hi2|exact Hcs]|cbn; congruence|]. intros l Hl. inversion Hl. }
  intros [] w3 e3 Hf3 (Hat3 & Ho3 & Hr3). unfold codes, cw_bind, cw_get. rewrite Ho3. rewrite <- Hr3.
  apply (nodes_run order [] w3 e3 eq_refl Hf3 Hat3).
Qed.

(** The writer after its first two statements. *)
Lemma schedule_start : let w := mkWriter 0 [] out [] [] root order bufs [] in
  schedule ns hb w = (let* _ := cells_and_nodes in store_code ns)
    (set_body [StmtReturn (rel RelGE (ref "gi") (ref "n")); decl I32 "i" (cast I32 (ref "gi"))]
      (set_bufBind (bufIndex_from bufs 1 []) w)).
Proof using.
  cbv zeta. unfold schedule, cells_and_nodes. generalize (store_code ns) as store. intros store.
  unfold bind_bufs, emit, cw_bind, cw_set, cw_get. cbv beta iota zeta. set (w1 := set_body [_; _] (set_bufBind _ _)).
  match goal with |- context [unravelPush ?d ?w] => change w with w1; change d with (length out) end.
  change (length (w_outShape w1)) with (length out). destruct (unravelPush (length out) w1) as [[cs|] w2]; [|reflexivity]. destruct (nodes_code _ _ _ _) as [[[]|] w3]; reflexivity.
Qed.

Lemma schedule_run e n : thread_ok e n -> root_fits = true ->
  match schedule ns hb (mkWriter 0 [] out [] [] root order bufs []) with
  | (Err _, _) => True
  | (Ok _, w') => exists w2, run_stmts mem (n_dtype (get ns root)) e (w_body w') = Some [(gi, w2)] /\
      weq (n_dtype (get ns root)) w2 root_word
  end.
Proof using Hheap Hfl Hout Hgi Hsize Hfits.
  intros (Hegi & Hen & Hlt & Hei & Hdims & Hmade) Hfit. rewrite schedule_start. cbn [w_body w_bufs app].
  set (s0 := StmtReturn _). set (s1 := decl I32 "i" _). set (w1 := set_body _ _). set (e1 := <["i"%string := VI gi]> e : env).
  assert (Estart : forall d tl, run_stmts mem d e (s0 :: s1 :: tl) = run_stmts mem d e1 tl).
  { intros d tl. unfold s0, s1, decl. cbn [run_stmts]. unfold rel, ref. cbn [eval]. rewrite Hegi, Hen. cbn [vrel int_rel].
    destruct (Z.leb_spec n gi); [lia|]. cbn [run_stmts step]. rewrite Hei. unfold cast. cbn [eval]. rewrite Hegi. reflexivity. }
  assert (Ei : u32 gi = gi) by (apply u32_small; unfold word_ok, two31, two32 in *; lia).
  assert (Hi1 : scalar e1 "i" (u32 gi)).
  { split; [|split; [reflexivity|apply u32_ok]]. unfold e1. rewrite Ei. apply lookup_insert_eq. }
  assert (Hf1 : fresh w1 e1).
  { intros m j Hm _. unfold e1. rewrite lookup_insert_ne; [eapply Hmade, Hm|]. intros <-. destruct Hm as (p & Hp & Em).
    repeat (apply elem_of_cons in Hp as [->|Hp]; [discriminate Em|]). inversion Hp. }
  assert (Hd1 : dims_bound e1) by (intros d s Hd; unfold e1; rewrite lookup_insert_ne by discriminate; apply Hdims, Hd).
  pose proof (cells_and_nodes_run w1 e1 Hf1 Hd1 Hi1 eq_refl eq_refl eq_refl eq_refl) as R.
  unfold cw_bind, codes in *. destruct (cells_and_nodes w1) as [[[]|err] w2]; [|exact I].
  destruct R as (ss & e2 & B2 & R2 & Hf2 & Hat2 & Hr2). pose proof (store_run w2 e2 Hf2 Hat2 Hr2 Hfit) as K.
  destruct (store_code ns w2) as [[[]|err] w3]; [|exact I]. destruct K as (s2 & x & B3 & R3 & Hx).
  exists x. split; [|exact Hx]. rewrite B3, B2. cbn [w_body w1 set_body app].
  rewrite Estart, (run_stmts_steps _ _ _ _ _ R2). exact R3.
Qed.
End nodes.

(** ** A dispatch *)

Section dispatch.
Context {E : FloatEnv} (h : heap) (k : Kernel).

Let ns := h_nodes h.

(** The cell [gi] is one that both backends read alike. *)
Definition thread_fits (gi : Z) : bool :=
  forallb (fun l => node_fits ns (h_bufs h) (get ns l) (unravel (k_built k) gi)
      (match n_sources (get ns l) with [] => 0 | s :: _ => flat h s (unravel (k_built k) gi) end)) (k_order k) &&
  root_fits h (k_root k) (k_built k) gi.

(** The push block of the kernel: n and d0..d3. *)
Definition push_word (i : Z) : Z := word (mkBuffer (Push (Some k)) I32) i.

(** The elements that the invocation [gi] stores. *)
Definition invocation (c : Code) (gi : Z) : option (list (Z * Z)) :=
  thread (h_bufs h) (k_bufs k) c gi (push_word 0) (map push_word [1; 2; 3; 4]).

(** The invocations [gis] in order. *)
Fixpoint dispatch (c : Code) (gis : list Z) : option (list (Z * Z)) :=
  match gis with
  | [] => Some []
  | gi :: gis' =>
      match invocation c gi, dispatch c gis' with
      | Some a, Some b => Some (a ++ b)
      | _, _ => None
      end
  end.

(** Elements are stored one by one. *)
Fixpoint apply_stores (stores : list (Z * Z)) (out : list Z) : list Z :=
  match stores with
  | [] => out
  | (i, w) :: stores' => apply_stores stores' (<[Z.to_nat i := w]> out)
  end.

Lemma apply_stores_app a b out : apply_stores (a ++ b) out = apply_stores b (apply_stores a out).
Proof using. revert out; induction a as [|[i w] a IH]; intros out; simpl; [reflexivity|apply IH]. Qed.

(** The kernel is one that was compiled, at its own shape. *)
Record dispatchable : Prop := {
  di_heap : fheap_ok h;
  di_flat : flattened h (k_root k) (k_order k) (k_bufs k);
  di_built : k_built k = k_shape k;
  di_shape : nonneg (k_shape k);
  di_size : k_size k = Size (k_shape k);
  di_small : k_size k < two31
}.

Hypothesis Hd : dispatchable.

Lemma push_words_read : push_word 0 = u32 (k_size k) /\
  forall i s, (i < 4)%nat -> k_shape k !! i = Some s -> map push_word [1; 2; 3; 4] !! i = Some (u32 s).
Proof using.
  destruct (FillPush_spec k (repeat 0 (Z.to_nat PushBytes)) ltac:(vm_compute; discriminate)) as (_ & H0 & H1 & _).
  split; [exact H0|]. intros i s Hi Hs. pose proof (H1 i s Hi Hs) as K.
  destruct i as [|[|[|[|i]]]]; [..|lia]; cbn [map lookup list_lookup]; f_equal; exact K.
Qed.

(** The names of a thread's environment. *)
Lemma thread_env_ok gi : 0 <= gi < k_size k -> Rank (k_built k) <= maxPushRank ->
  thread_ok (k_built k) gi (thread_env gi (push_word 0) (map push_word [1; 2; 3; 4])) (k_size k).
Proof using Hd.
  intros Hgi Hr. pose proof (di_small Hd) as Hs. destruct push_words_read as [E0 Ed].
  rewrite E0. rewrite u32_small by (unfold word_ok, two31, two32 in *; lia).
  unfold thread_ok, thread_env. rewrite lookup_insert_eq. split; [reflexivity|].
  rewrite lookup_insert_ne, lookup_insert_eq by discriminate. split; [reflexivity|]. split; [lia|].
  assert (Hnone : forall (m : string) (l : list (option val)), (forall j, m <> "d" +:+ Itoa j) -> m <> "gi"%string -> m <> "n"%string ->
    (<["gi"%string := VU gi]> (<["n"%string := VU (k_size k)]> (numbered "d" 0 l)) : env) !! m = None).
  { intros m l H1 H2 H3. rewrite !lookup_insert_ne by congruence. apply numbered_other, H1. }
  split; [apply Hnone; [intros j; discriminate|discriminate|discriminate]|]. split.
  - intros d s Hds. rewrite (di_built Hd) in Hds, Hr. unfold Rank, maxPushRank in Hr. pose proof (lookup_lt_Some _ _ _ Hds) as Hlt.
    rewrite !lookup_insert_ne by discriminate. pose proof (Ed d s ltac:(lia) Hds) as K.
    rewrite <- (Z.add_0_l (Z.of_nat d)), numbered_lookup by (rewrite length_map; simpl; lia).
    change (map (fun d => Some (VU d)) (map push_word [1; 2; 3; 4])) with ((fun d => Some (VU d)) <$> map push_word [1; 2; 3; 4]).
    rewrite list_lookup_fmap, K. reflexivity.
  - intros m j (p & Hp & ->). apply Hnone.
    + intros j' Ej. repeat (apply elem_of_cons in Hp as [->|Hp]; [discriminate Ej|]). inversion Hp.
    + intros Ej. repeat (apply elem_of_cons in Hp as [->|Hp]; [discriminate Ej|]). inversion Hp.
    + intros Ej. repeat (apply elem_of_cons in Hp as [->|Hp]; [discriminate Ej|]). inversion Hp.
Qed.

(** The word of the cell [gi]. *)
Definition stored_word (gi : Z) : Z := root_word h (k_root k) (k_built k) gi.

Lemma stored_word_cell prog gi : stored_word gi = cell_word h (k_root k) (job_of ns prog k) gi.
Proof using Hd.
  unfold stored_word, root_word, cell_word, job_of. cbn [j_shape j_maskRoot j_root]. rewrite (di_built Hd). reflexivity.
Qed.

(** One invocation stores the word of its cell, or nothing past the last. *)
Lemma invocation_stores c gi : kernel_Code ns (h_bufs h) (Some k) = Ok c -> 0 <= gi < two32 ->
  (gi < k_size k -> thread_fits gi = true) ->
  if gi <? k_size k then exists w, invocation c gi = Some [(gi, w)] /\ weq (c_Out c) w (stored_word gi)
  else invocation c gi = Some [].
Proof using Hd.
  intros Hc Hgi Hfit. pose proof (kernel_Code_decides ns (h_bufs h) k) as D. rewrite Hc in D.
  destruct D as (Hr & _ & _ & Eout & _ & ss & Ess). destruct push_words_read as [E0 _].
  pose proof (di_size Hd) as Hsz. pose proof (di_small Hd) as Hs. pose proof (Size_nonneg _ (di_shape Hd)) as Hnn.
  destruct (Z.ltb_spec gi (k_size k)) as [Hlt|Hge].
  - specialize (Hfit Hlt). unfold thread_fits in Hfit. apply andb_true_iff in Hfit as [Hnodes Hroot].
    rewrite forallb_forall in Hnodes.
    pose proof (schedule_run h (k_root k) (k_order k) (k_bufs k) (k_built k) gi (di_heap Hd) (di_flat Hd)) as K.
    rewrite (di_built Hd), <- Hsz in K. specialize (K (di_shape Hd) ltac:(lia) Hs).
    rewrite (di_built Hd) in Hnodes, Hroot.
    specialize (K (fun l Hl => Hnodes l (proj1 (list_elem_of_In _ _) Hl))). pose proof (thread_env_ok gi ltac:(lia) Hr) as He.
    rewrite (di_built Hd) in He. specialize (K _ _ He Hroot).
    cbn [kernel_Code] in Hc. destruct (maxPushRank <? Rank (k_built k)); [discriminate Hc|].
    rewrite (di_built Hd) in Hc. fold ns in K. destruct (schedule ns (h_bufs h) _) as [[[]|e] w'] eqn:Es; [|discriminate Hc].
    injection Hc as <-. destruct K as (w & R & Hw). exists w. unfold invocation, thread. cbn [c_Out c_Stmts]. split; [exact R|].
    unfold stored_word. rewrite (di_built Hd). exact Hw.
  - unfold invocation, thread. rewrite Ess. cbn [run_stmts]. unfold rel, ref. cbn [eval].
    unfold thread_env. rewrite lookup_insert_eq, lookup_insert_ne, lookup_insert_eq by discriminate. cbn [vrel int_rel].
    rewrite E0, u32_small by (unfold word_ok, two31, two32 in *; lia). rewrite (proj2 (Z.leb_le _ _) Hge). reflexivity.
Qed.

(** Invocations of different cells, in any order, leave in each cell that was
    run its word, and the other elements alone. *)
Lemma dispatch_run c gis : kernel_Code ns (h_bufs h) (Some k) = Ok c -> NoDup gis ->
  (forall gi, gi ∈ gis -> 0 <= gi < two32 /\ (gi < k_size k -> thread_fits gi = true)) ->
  exists stores, dispatch c gis = Some stores /\ forall out, k_size k <= Z.of_nat (length out) ->
    length (apply_stores stores out) = length out /\
    forall p, if bool_decide (Z.of_nat p ∈ gis) && (Z.of_nat p <? k_size k)
      then exists w, apply_stores stores out !! p = Some w /\ weq (c_Out c) w (stored_word (Z.of_nat p))
      else apply_stores stores out !! p = out !! p.
Proof using Hd.
  intros Hc. induction gis as [|gi gis IH]; intros Hnd Hall.
  { exists []. split; [reflexivity|]. intros out Hlen. split; [reflexivity|]. intros p. reflexivity. }
  apply NoDup_cons in Hnd as [Hni Hnd]. destruct IH as (stores & E1 & K); [exact Hnd|intros g Hg; apply Hall; right; exact Hg|].
  destruct (Hall gi ltac:(left)) as [Hgi Hfit]. pose proof (invocation_stores c gi Hc Hgi Hfit) as S. cbn [dispatch]. rewrite E1.
  destruct (Z.ltb_spec gi (k_size k)) as [Hlt|Hge].
  - destruct S as (w & -> & Hw). eexists. split; [reflexivity|]. intros out Hlen. cbn [app apply_stores].
    destruct (K (<[Z.to_nat gi := w]> out) ltac:(rewrite length_insert; exact Hlen)) as [K1 K2]. rewrite length_insert in K1.
    split; [exact K1|]. intros p. specialize (K2 p). destruct (decide (Z.of_nat p = gi)) as [Ep|Hne].
    + rewrite (bool_decide_false (Z.of_nat p ∈ gis)) in K2 by (rewrite Ep; exact Hni). cbn [andb] in K2.
      rewrite bool_decide_true by (rewrite Ep; left). rewrite (proj2 (Z.ltb_lt _ _)) by lia. cbn [andb].
      exists w. rewrite K2, Ep. split; [|exact Hw]. replace (Z.to_nat gi) with p by lia.
      apply list_lookup_insert_eq. lia.
    + rewrite list_lookup_insert_ne in K2 by lia.
      rewrite (bool_decide_ext (Z.of_nat p ∈ gi :: gis) (Z.of_nat p ∈ gis)) by (rewrite elem_of_cons; intuition congruence).
      exact K2.
  - rewrite S. eexists. split; [reflexivity|]. cbn [app]. intros out Hlen. destruct (K out Hlen) as [K1 K2]. split; [exact K1|].
    intros p. specialize (K2 p). destruct (decide (Z.of_nat p = gi)) as [Ep|Hne].
    + rewrite (proj2 (Z.ltb_ge _ _)) in K2 |- * by lia. rewrite andb_false_r in *. exact K2.
    + rewrite (bool_decide_ext (Z.of_nat p ∈ gi :: gis) (Z.of_nat p ∈ gis)) by (rewrite elem_of_cons; intuition congruence).
      exact K2.
Qed.

(** The invocations of all workgroups, in any order. *)
Lemma dispatch_all c gis : kernel_Code ns (h_bufs h) (Some k) = Ok c -> Permutation gis (seqZ 0 (Groups (Some k) * localSize)) ->
  (forall gi, 0 <= gi < k_size k -> thread_fits gi = true) ->
  exists stores, dispatch c gis = Some stores /\ forall out, k_size k <= Z.of_nat (length out) ->
    length (apply_stores stores out) = length out /\
    (forall i, 0 <= i < k_size k ->
      exists w, apply_stores stores out !! Z.to_nat i = Some w /\ weq (c_Out c) w (stored_word i)) /\
    (forall p, k_size k <= Z.of_nat p -> apply_stores stores out !! p = out !! p).
Proof using Hd.
  intros Hc Hp Hfit. pose proof (di_size Hd) as Hsz. pose proof (di_small Hd) as Hs. pose proof (Size_nonneg _ (di_shape Hd)) as Hnn.
  pose proof (Groups_cover k ltac:(lia) ltac:(unfold two31, two32 in *; lia)) as Hg. unfold localSize in *.
  assert (Hin : forall gi, gi ∈ gis <-> 0 <= gi < Groups (Some k) * 128).
  { intros gi. rewrite Hp, elem_of_seqZ. lia. }
  destruct (dispatch_run c gis Hc) as (stores & E1 & K).
  - rewrite Hp. apply NoDup_seqZ.
  - intros gi Hgi. apply Hin in Hgi. split; [unfold two31, two32 in *; lia|]. intros Hlt. apply Hfit. lia.
  - exists stores. split; [exact E1|]. intros out Hlen. destruct (K out Hlen) as [K1 K2]. split; [exact K1|]. split.
    + intros i Hi. specialize (K2 (Z.to_nat i)). rewrite Z2Nat.id in K2 by lia.
      rewrite bool_decide_true in K2 by (apply Hin; lia). rewrite (proj2 (Z.ltb_lt _ _)) in K2 by lia. exact K2.
    + intros p Hle. specialize (K2 p). rewrite (proj2 (Z.ltb_ge _ _)), andb_false_r in K2 by lia. exact K2.
Qed.
End dispatch.

(** A compiled kernel is dispatchable while its cells can be numbered in
    int32. *)
Lemma compiled_dispatchable {E : FloatEnv} h l shape k h' : heap_ok h -> valid_ptr h l -> nShape (h_nodes h) l = Some shape ->
  compiled h l shape k h' -> Size shape < two31 -> dispatchable h' k.
Proof.
  intros H Hl Hs Hc Hsz. pose proof (nShape_nonneg h l shape H (proj1 Hl) Hs) as Hnn.
  split; [apply Hc|apply Hc|rewrite (co_built _ _ _ _ _ Hc), (co_shape _ _ _ _ _ Hc); reflexivity| | |];
    rewrite ?(co_size _ _ _ _ _ Hc), ?(co_shape _ _ _ _ _ Hc); auto.
Qed.
