(* ===== verification/Device.v ===== *)
(** * The device of a GPU session (src/x/driver/ndeval/internal/slots/slots.go)

    The interface [slots.Buffer] and the device behind it as a class: buffers
    are allocated, stored, read and closed, and a program runs over
    workgroups.  The laws of the class say what a call does when it succeeds;
    a program does what the statements of its [Code] say on the words that the
    device holds.  The file proves that a schedule that has a meaning on host
    buffers has the same meaning on device buffers that hold their cells, and
    gives a device that computes, as an instance. *)
From Stdlib Require Import ZArith Lia.
From stdpp Require Import base numbers option list strings gmap.
From S2P Require Import Prelude Float Alu Shape View Tracker Expr Rewrite Optimize Flatten Cpu Kernel Code Shader Emits Schedule.

Local Open Scope Z_scope.

(** ** What a program reads *)

(** The words of a device buffer. *)
Definition buf_words (bytes : list Z) : list Z :=
  map (word (mkBuffer bytes I32)) (seqZ 0 (Z.of_nat (length bytes) / 4)).

(** A binding of the declared type: an element of uint8 is a whole word. *)
Definition device_buffer (d : DType) (bytes : list Z) : buffer :=
  match d with U8 => mkBuffer (buf_words bytes) U8 | _ => mkBuffer bytes d end.
Definition device_memory (c : Code) (inputs : list (list Z)) : gmap string buffer :=
  numbered "x" 1 (zip_with (fun d bs => Some (device_buffer d bs)) (c_In c) inputs).

(** One invocation, and the elements that the invocations [gis] store, in
    order. *)
Definition device_thread {E : FloatEnv} (c : Code) (inputs : list (list Z)) (push : list Z) (gi : Z) : option (list (Z * Z)) :=
  let p i := word (mkBuffer push I32) i in
  run_stmts (device_memory c inputs) (c_Out c) (thread_env gi (p 0) (map p [1; 2; 3; 4])) (c_Stmts c).
Fixpoint grid {E : FloatEnv} (c : Code) (inputs : list (list Z)) (push : list Z) (gis : list Z) : option (list (Z * Z)) :=
  match gis with
  | [] => Some []
  | gi :: gis' =>
      match device_thread c inputs push gi, grid c inputs push gis' with
      | Some a, Some b => Some (a ++ b)
      | _, _ => None
      end
  end.

(** *** Larger memories *)

(** [b'] has the type of [b] and its cells, and perhaps more. *)
Record wider (b b' : buffer) : Prop := {
  wi_type : buf_dtype b' = buf_dtype b;
  wi_cells : cells b <= cells b';
  wi_word : forall i, 0 <= i < cells b -> word b' i = word b i
}.
Definition mem_le (mem mem' : gmap string buffer) : Prop :=
  forall n b, mem !! n = Some b -> exists b', mem' !! n = Some b' /\ wider b b'.

Section monotone.
Context {E : FloatEnv} (mem mem' : gmap string buffer) (Hm : mem_le mem mem').

Lemma load_mono b b' i v : wider b b' -> load_val b i = Some v -> load_val b' i = Some v.
Proof using.
  intros [Ht Hc Hw]. unfold load_val. destruct (Z.leb_spec 0 i), (Z.ltb_spec i (cells b)); try discriminate. cbn [andb].
  intros <-. rewrite (proj2 (Z.ltb_lt _ _)), Ht, Hw by lia. reflexivity.
Qed.

Lemma eval2_mono {A B C} (f : A -> B -> option C) (a a' : option A) (b b' : option B) v :
  (forall x, a = Some x -> a' = Some x) -> (forall x, b = Some x -> b' = Some x) ->
  match a, b with Some x, Some y => f x y | _, _ => None end = Some v ->
  match a', b' with Some x, Some y => f x y | _, _ => None end = Some v.
Proof using.
  intros Ha Hb. destruct a as [x|]; [|discriminate]. destruct b as [y|]; [|discriminate].
  rewrite (Ha x eq_refl), (Hb y eq_refl). auto.
Qed.

Fixpoint eval_mono e x {struct x} : forall v, eval mem e x = Some v -> eval mem' e x = Some v.
Proof using Hm.
  destruct x; cbn [eval]; intros v; try exact id; try (apply eval2_mono; apply eval_mono).
  - destruct (mem !! Name) as [b|] eqn:Eb; [|discriminate]. destruct (Hm _ _ Eb) as (b' & -> & Hw).
    destruct (eval mem e x) as [w|] eqn:Ew; [|discriminate]. rewrite (eval_mono e x _ Ew).
    destruct w; try discriminate. apply load_mono, Hw.
  - destruct (eval mem e x) as [w|] eqn:Ew; [|discriminate]. rewrite (eval_mono e x _ Ew). exact id.
  - destruct (eval mem e x1) as [w|] eqn:Ew; [|discriminate]. rewrite (eval_mono e x1 _ Ew).
    destruct w as [| | |[]]; try discriminate; [|exact id].
    destruct (eval mem e x2) as [w|] eqn:Ew2; [|discriminate]. rewrite (eval_mono e x2 _ Ew2). exact id.
  - destruct (eval mem e x1) as [w|] eqn:Ew; [|discriminate]. rewrite (eval_mono e x1 _ Ew).
    destruct w as [| | |[]]; try discriminate; apply eval_mono.
  - destruct (eval mem e x) as [w|] eqn:Ew; [|discriminate]. rewrite (eval_mono e x _ Ew). exact id.
  - set (evals := fun m : gmap string buffer => fix evals (args : list Expr) : option (list val) :=
      match args with
      | [] => Some []
      | a :: args' => match eval m e a, evals args' with Some v, Some vs => Some (v :: vs) | _, _ => None end
      end).
    change (match evals mem Args with Some vs => vfn f vs | None => None end = Some v ->
            match evals mem' Args with Some vs => vfn f vs | None => None end = Some v).
    enough (Ha : forall vs, evals mem Args = Some vs -> evals mem' Args = Some vs).
    { destruct (evals mem Args) as [vs|]; [|discriminate]. rewrite (Ha vs eq_refl). exact id. }
    clear v. induction Args as [|a args IH]; intros vs; [exact id|].
    change (match eval mem e a, evals mem args with Some v, Some vs => Some (v :: vs) | _, _ => None end = Some vs ->
            match eval mem' e a, evals mem' args with Some v, Some vs => Some (v :: vs) | _, _ => None end = Some vs).
    apply (eval2_mono (fun v vs => Some (v :: vs))); [apply eval_mono|exact IH].
Qed.

Lemma step_mono e s e' : step mem e s = Some e' -> step mem' e s = Some e'.
Proof using Hm.
  destruct s as [d B n x|n x|c n x|n x|x|c]; cbn [step]; try exact id.
  - destruct (e !! n); [discriminate|]. destruct (eval mem e x) as [v|] eqn:Ev; [|discriminate]. rewrite (eval_mono _ _ _ Ev). exact id.
  - destruct (eval mem e x) as [v|] eqn:Ev; [|discriminate]. rewrite (eval_mono _ _ _ Ev). exact id.
  - destruct (eval mem e c) as [v|] eqn:Ec; [|discriminate]. rewrite (eval_mono _ _ _ Ec).
    destruct v as [| | |[]]; try exact id. destruct (eval mem e x) as [y|] eqn:Ev; [|discriminate]. rewrite (eval_mono _ _ _ Ev). exact id.
  - destruct (e !! n) as [u|]; [|discriminate]. destruct (eval mem e x) as [v|] eqn:Ev; [|discriminate]. rewrite (eval_mono _ _ _ Ev). exact id.
Qed.

Lemma run_mono out ss : forall e r, run_stmts mem out e ss = Some r -> run_stmts mem' out e ss = Some r.
Proof using Hm.
  induction ss as [|s ss IH]; intros e r; [exact id|].
  assert (Hplain : match step mem e s with Some e' => run_stmts mem out e' ss | None => None end = Some r ->
                   match step mem' e s with Some e' => run_stmts mem' out e' ss | None => None end = Some r).
  { destruct (step mem e s) as [e1|] eqn:E1; [|discriminate]. rewrite (step_mono _ _ _ E1). apply IH. }
  destruct s as [d B n x|n x|c n x|n x|x|c]; cbn [run_stmts]; try exact Hplain.
  - destruct (e !! "i"%string) as [[]|]; try discriminate. destruct (eval mem e x) as [v|] eqn:Ev; [|discriminate].
    rewrite (eval_mono _ _ _ Ev). destruct (of_val out v); [|discriminate].
    destruct (run_stmts mem out e ss) as [more|] eqn:Er; [|discriminate]. rewrite (IH _ _ Er). exact id.
  - destruct (eval mem e c) as [v|] eqn:Ec; [|discriminate]. rewrite (eval_mono _ _ _ Ec).
    destruct v as [| | |[]]; try discriminate; [exact id|]. apply IH.
Qed.
End monotone.

Lemma numbered_mono p k l l' :
  Forall2 (fun a a' => forall b, a = Some b -> exists b', a' = Some b' /\ wider b b') l l' -> mem_le (numbered p k l) (numbered p k l').
Proof.
  intros Hl n b Hb. apply numbered_inv in Hb as (j & -> & Hj).
  destruct (Forall2_lookup_l _ _ _ _ _ Hl Hj) as (a' & Ha & K). destruct (K b eq_refl) as (b' & -> & Hw).
  exists b'. split; [|exact Hw]. rewrite numbered_lookup by (eapply lookup_lt_Some, Ha). rewrite Ha. reflexivity.
Qed.

(** *** From host buffers to device buffers *)

(** A device buffer holds the cells of a host buffer, one word each. *)
Definition holds_cells (bytes : list Z) (b : buffer) : Prop :=
  cells b <= Z.of_nat (length bytes) / 4 /\ forall i, 0 <= i < cells b -> word (mkBuffer bytes I32) i = word b i.

Lemma buf_words_length bytes : Z.of_nat (length (buf_words bytes)) = Z.of_nat (length bytes) / 4.
Proof. unfold buf_words. rewrite length_map, length_seqZ. apply Z2Nat.id, Z.div_pos; lia. Qed.

Lemma buf_words_lookup bytes i : 0 <= i < Z.of_nat (length bytes) / 4 ->
  buf_words bytes !! Z.to_nat i = Some (word (mkBuffer bytes I32) i).
Proof.
  intros Hi. unfold buf_words. change (map ?f ?l) with (f <$> l). rewrite list_lookup_fmap, lookup_seqZ_lt by lia.
  cbn [fmap option_fmap option_map]. f_equal. f_equal. lia.
Qed.

Lemma device_buffer_wider bytes b : holds_cells bytes b -> wider b (device_buffer (buf_dtype b) bytes).
Proof.
  intros [Hc Hw]. destruct b as [rw d]. cbn [buf_dtype] in *. split.
  - destruct d; reflexivity.
  - destruct d; [reflexivity|..]; (etransitivity; [exact Hc|]); unfold cells; cbn [device_buffer buf_dtype dtype_size raw Z.eqb];
      rewrite Z.quot_div_nonneg, ?buf_words_length, ?Z.div_1_r by lia; reflexivity.
  - intros i Hi. rewrite <- Hw by exact Hi. destruct d; try reflexivity. cbn [device_buffer].
    unfold word at 1. cbn [buf_dtype raw]. destruct (Z.ltb_spec i 0); [lia|]. rewrite buf_words_length.
    destruct (Z.leb_spec (Z.of_nat (length bytes) / 4) i); [lia|]. unfold byte_at.
    rewrite nth_lookup, buf_words_lookup by lia. reflexivity.
Qed.

(** The inputs hold the buffers of the kernel. *)
Definition inputs_hold (hb : list buffer) (bufs : list nat) (inputs : list (list Z)) : Prop :=
  Forall2 (fun l bytes => forall b, hb !! l = Some b -> holds_cells bytes b) bufs inputs.

Lemma bindings_device hb bufs c inputs : c_In c = map (buf_type hb) bufs -> inputs_hold hb bufs inputs ->
  mem_le (bindings hb bufs) (device_memory c inputs).
Proof.
  intros Hc Hi. unfold bindings, device_memory. rewrite Hc. apply numbered_mono. clear Hc.
  induction Hi as [|l bytes bufs inputs Hh _ IH]; [constructor|]. cbn [map zip_with]. constructor; [|exact IH].
  intros b Hb. eexists. split; [reflexivity|]. unfold buf_type. rewrite Hb. apply device_buffer_wider, Hh, Hb.
Qed.

(** The invocations store on the device what they store on the host's
    buffers. *)
Lemma grid_dispatch {E : FloatEnv} h k c inputs gis stores :
  c_In c = map (buf_type (h_bufs h)) (k_bufs k) -> inputs_hold (h_bufs h) (k_bufs k) inputs ->
  dispatch h k c gis = Some stores -> grid c inputs (Push (Some k)) gis = Some stores.
Proof.
  intros Hc Hi. revert stores. induction gis as [|gi gis IH]; intros stores; [exact id|]. cbn [dispatch grid].
  destruct (invocation h k c gi) as [a|] eqn:Ea; [|discriminate]. destruct (dispatch h k c gis) as [b|] eqn:Eb; [|discriminate].
  rewrite (IH b eq_refl).
  change (device_thread c inputs (Push (Some k)) gi) with
    (run_stmts (device_memory c inputs) (c_Out c) (thread_env gi (push_word k 0) (map (push_word k) [1; 2; 3; 4])) (c_Stmts c)).
  unfold invocation, thread in Ea.
  rewrite (run_mono _ _ (bindings_device _ _ _ _ Hc Hi) _ _ _ _ Ea). exact id.
Qed.

(** The push slice of a session is the kernel's push block. *)
Lemma FillPush_Push k push : Z.of_nat (length push) = PushBytes -> FillPush (Some k) push = Push (Some k).
Proof.
  intros Hl. unfold Push, FillPush. rewrite repeat_length, Hl. change (Z.of_nat (Z.to_nat PushBytes) <? PushBytes) with false.
  rewrite Z.ltb_irrefl. rewrite !drop_ge; [reflexivity|rewrite repeat_length; lia|unfold PushBytes in *; lia].
Qed.

(** *** Stored words *)

(** A device element has 32 bits. *)
Definition low_words (stores : list (Z * Z)) : list (Z * Z) := map (fun '(i, w) => (i, u32 w)) stores.

Lemma low_words_lookup stores p : forall o1 o2, length o1 = length o2 ->
  (o1 !! p = u32 <$> o2 !! p \/ o1 !! p = o2 !! p) ->
  length (apply_stores (low_words stores) o1) = length (apply_stores stores o2) /\
  (apply_stores (low_words stores) o1 !! p = u32 <$> apply_stores stores o2 !! p \/
   apply_stores (low_words stores) o1 !! p = apply_stores stores o2 !! p).
Proof.
  induction stores as [|[i w] stores IH]; intros o1 o2 Hl Hp; [split; assumption|]. cbn [low_words map apply_stores].
  apply IH; [rewrite !length_insert; exact Hl|]. destruct (decide (p = Z.to_nat i)) as [->|Hne].
  - left. destruct (Nat.lt_ge_cases (Z.to_nat i) (length o2)) as [Hlt|Hge].
    + rewrite !list_lookup_insert_eq by lia. reflexivity.
    + rewrite !list_insert_ge by lia. rewrite !lookup_ge_None_2 by lia. reflexivity.
  - rewrite !list_lookup_insert_ne by congruence. exact Hp.
Qed.

Lemma weq_u32 d w x : word_ok x -> weq d w x -> weq d (u32 w) x.
Proof.
  intros Hx [->|(-> & Hw & Hn)]; [left; apply u32_small, Hx|]. right. split; [reflexivity|]. split; [|exact Hn].
  unfold is_nan, unpack in *. unfold u32.
  assert (E1 : (w mod two32) mod 8388608 = w mod 8388608).
  { apply Z.mod_mod_divide. exists 512. reflexivity. }
  assert (E2 : (w mod two32) / 8388608 mod 256 = w / 8388608 mod 256).
  { change two32 with (8388608 * 512). rewrite Z.rem_mul_r by lia. rewrite (Z.mul_comm 8388608 (_ mod 512)), Z.div_add by lia.
    rewrite (Z.div_small (w mod 8388608)) by (apply Z.mod_pos_bound; lia). rewrite Z.add_0_l.
    apply Z.mod_mod_divide. exists 2. reflexivity. }
  rewrite E1, E2. destruct (w / 8388608 mod 256 =? 255); [destruct (w mod 8388608 =? 0); [discriminate Hw|reflexivity]|].
  destruct (w / 8388608 mod 256 =? 0); [destruct (w mod 8388608)|]; discriminate Hw.
Qed.

(** ** The device *)

(** [g_bytes] is the content of a live buffer, [g_len] the length that a
    buffer reports.  A call that fails tells nothing of the state after it. *)
Class Device {E : FloatEnv} : Type := {
  gpu : Type;
  gbuf : Type;
  g_bytes : gpu -> gbuf -> option (list Z);
  g_len : gbuf -> Z;
  g_alloc : Z -> gpu -> option gbuf * gpu;
  g_store : gbuf -> list Z -> gpu -> bool * gpu;
  g_read : gbuf -> list Z -> gpu -> bool * list Z;
  g_close : gbuf -> gpu -> bool * gpu;
  g_run : Code -> Z -> list gbuf -> list Z -> gpu -> bool * gpu;
  g_len_bytes : forall d b bs, g_bytes d b = Some bs -> Z.of_nat (length bs) = g_len b;
  g_alloc_ok : forall n d b d', 0 < n -> g_alloc n d = (Some b, d') ->
    g_bytes d b = None /\ (exists bs, g_bytes d' b = Some bs) /\ g_len b = n /\
    forall b', b' <> b -> g_bytes d' b' = g_bytes d b';
  g_store_ok : forall b data d d' old, g_bytes d b = Some old -> (length data <= length old)%nat ->
    g_store b data d = (true, d') ->
    g_bytes d' b = Some (data ++ drop (length data) old) /\ forall b', b' <> b -> g_bytes d' b' = g_bytes d b';
  g_read_ok : forall b dst d bs dst', g_bytes d b = Some bs -> (length dst <= length bs)%nat ->
    g_read b dst d = (true, dst') -> dst' = take (length dst) bs;
  g_close_ok : forall b d d' bs, g_bytes d b = Some bs -> g_close b d = (true, d') ->
    g_bytes d' b = None /\ forall b', b' <> b -> g_bytes d' b' = g_bytes d b';
  g_run_ok : forall c groups out inputs push d d' obs bss, g_run c groups (out :: inputs) push d = (true, d') ->
    out ∉ inputs -> g_bytes d out = Some obs -> Forall2 (fun b bs => g_bytes d b = Some bs) inputs bss ->
    (forall b, b <> out -> g_bytes d' b = g_bytes d b) /\
    exists gis obs', Permutation gis (seqZ 0 (groups * c_Threads c)) /\ g_bytes d' out = Some obs' /\
      forall stores, grid c bss push gis = Some stores -> buf_words obs' = apply_stores (low_words stores) (buf_words obs)
}.

(** A device whose calls succeed on what they are meant for. *)
Class Reliable {E : FloatEnv} (D : Device) : Prop := {
  r_alloc : forall n d, 0 < n -> exists b d', g_alloc n d = (Some b, d');
  r_store : forall b data d old, g_bytes d b = Some old -> (length data <= length old)%nat -> fst (g_store b data d) = true;
  r_read : forall b dst d bs, g_bytes d b = Some bs -> (length dst <= length bs)%nat -> fst (g_read b dst d) = true;
  r_close : forall b d bs, g_bytes d b = Some bs -> fst (g_close b d) = true;
  r_run : forall c groups bound push d, 0 < groups -> Forall (fun b => is_Some (g_bytes d b)) bound ->
    fst (g_run c groups bound push d) = true
}.

(** ** A device that computes *)

(** The host itself: the content of each buffer, and a handle that is a number
    and a length. *)
Section reference.
Context {E : FloatEnv}.

Definition ref_bytes (d : list (option (list Z))) (b : nat * Z) : option (list Z) :=
  match d !! fst b with
  | Some (Some bs) => if Z.of_nat (length bs) =? snd b then Some bs else None
  | _ => None
  end.
Definition ref_alloc (n : Z) (d : list (option (list Z))) : option (nat * Z) * list (option (list Z)) :=
  if 0 <? n then (Some (length d, n), d ++ [Some (repeat 0 (Z.to_nat n))]) else (None, d).
Definition ref_store (b : nat * Z) (data : list Z) (d : list (option (list Z))) : bool * list (option (list Z)) :=
  match ref_bytes d b with
  | Some old => if (length data <=? length old)%nat then (true, <[fst b := Some (data ++ drop (length data) old)]> d) else (false, d)
  | None => (false, d)
  end.
Definition ref_read (b : nat * Z) (dst : list Z) (d : list (option (list Z))) : bool * list Z :=
  match ref_bytes d b with
  | Some bs => if (length dst <=? length bs)%nat then (true, take (length dst) bs) else (false, dst)
  | None => (false, dst)
  end.
Definition ref_close (b : nat * Z) (d : list (option (list Z))) : bool * list (option (list Z)) :=
  match ref_bytes d b with Some _ => (true, <[fst b := None]> d) | None => (false, d) end.

(** The bytes after the stores; one out of range changes nothing. *)
Fixpoint put_words (stores : list (Z * Z)) (bytes : list Z) : list Z :=
  match stores with
  | [] => bytes
  | (i, w) :: stores' => put_words stores' (default bytes (put_cell I32 bytes (Z.of_nat (Z.to_nat i)) w))
  end.
Definition ref_run (c : Code) (groups : Z) (bound : list (nat * Z)) (push : list Z) (d : list (option (list Z)))
    : bool * list (option (list Z)) :=
  match bound with
  | [] => (true, d)
  | out :: ins =>
      match ref_bytes d out, mapM (ref_bytes d) ins with
      | Some obs, Some bss =>
          (true, <[fst out := Some (match grid c bss push (seqZ 0 (groups * c_Threads c)) with
                                    | Some stores => put_words (low_words stores) obs
                                    | None => obs
                                    end)]> d)
      | _, _ => (false, d)
      end
  end.

Lemma ref_bytes_insert d (b : nat * Z) o x : is_Some (d !! fst b) ->
  ref_bytes (<[fst b := o]> d) x = if decide (fst x = fst b) then ref_bytes [o] (0%nat, snd x) else ref_bytes d x.
Proof using.
  intros Hs. apply lookup_lt_is_Some_1 in Hs. unfold ref_bytes. destruct (decide (fst x = fst b)) as [->|Hne].
  - rewrite list_lookup_insert_eq by exact Hs. reflexivity.
  - rewrite list_lookup_insert_ne by congruence. reflexivity.
Qed.

Lemma ref_bytes_some d b bs : ref_bytes d b = Some bs -> d !! fst b = Some (Some bs) /\ Z.of_nat (length bs) = snd b.
Proof using.
  unfold ref_bytes. destruct (d !! fst b) as [[bs'|]|]; try discriminate. destruct (Z.eqb_spec (Z.of_nat (length bs')) (snd b)); [|discriminate].
  intros [= <-]. auto.
Qed.

(** Replacing the content of a live buffer by one of its length, or closing
    it, changes no other. *)
Lemma ref_insert d b bs o : ref_bytes d b = Some bs -> (forall bs', o = Some bs' -> length bs' = length bs) ->
  ref_bytes (<[fst b := o]> d) b = o /\ forall x, x <> b -> ref_bytes (<[fst b := o]> d) x = ref_bytes d x.
Proof using.
  intros Hb Ho. apply ref_bytes_some in Hb as [Hl Hn]. split.
  - rewrite ref_bytes_insert, decide_True by eauto. cbn. destruct o as [bs'|]; [|reflexivity].
    rewrite (Ho bs' eq_refl), Hn, Z.eqb_refl. reflexivity.
  - intros x Hx. rewrite ref_bytes_insert by eauto. destruct (decide (fst x = fst b)) as [Ex|]; [|reflexivity].
    assert (Hs : snd x <> snd b) by (intros Es; apply Hx; destruct x, b; cbn in *; congruence).
    unfold ref_bytes. rewrite Ex, Hl. cbn. rewrite (proj2 (Z.eqb_neq (Z.of_nat (length bs)) (snd x))) by congruence.
    destruct o as [bs'|]; [|reflexivity]. rewrite (Ho bs' eq_refl), (proj2 (Z.eqb_neq _ _)) by congruence. reflexivity.
Qed.

Lemma word_untouched bytes bytes' p : length bytes' = length bytes -> 0 <= p ->
  (forall j, in_cell I32 p j = true -> bytes' !! j = bytes !! j) -> word (mkBuffer bytes' I32) p = word (mkBuffer bytes I32) p.
Proof using.
  intros Hl Hp Hs. unfold word. cbn [buf_dtype raw]. rewrite Hl. destruct (Z.ltb_spec p 0); [lia|].
  destruct (Z.ltb_spec (Z.of_nat (length bytes)) (p * 4 + 4)); [reflexivity|].
  assert (Hb : forall r, 0 <= r < 4 -> byte_at bytes' (p * 4 + r) = byte_at bytes (p * 4 + r)).
  { intros r Hr. unfold byte_at. rewrite !nth_lookup, Hs; [reflexivity|]. unfold in_cell. cbn [out_size].
    apply andb_true_iff. split; [apply Z.leb_le|apply Z.ltb_lt]; lia. }
  rewrite <- (Z.add_0_r (p * 4)) at 1. rewrite !Hb, Z.add_0_r by lia. reflexivity.
Qed.

Lemma buf_words_put bytes i w : word_ok w ->
  let bytes' := default bytes (put_cell I32 bytes (Z.of_nat i) w) in
  length bytes' = length bytes /\ buf_words bytes' = <[i := w]> (buf_words bytes).
Proof using.
  intros Hw. cbv zeta. destruct (Z.le_gt_cases ((Z.of_nat i + 1) * 4) (Z.of_nat (length bytes))) as [Hle|Hgt].
  - destruct (put_cell_spec I32 bytes (Z.of_nat i) w ltac:(lia) Hle) as (out & -> & Hl & Hb).
    change (default bytes (Some out)) with out. split; [exact Hl|].
    assert (Hlen : length (buf_words out) = length (buf_words bytes)).
    { apply Nat2Z.inj. rewrite !buf_words_length, Hl. reflexivity. }
    apply list_eq_same_length with (n := length (buf_words bytes)); [rewrite length_insert; reflexivity|exact Hlen|].
    intros p x y Hp Hx Hy. assert (Hpl : 0 <= Z.of_nat p < Z.of_nat (length out) / 4).
    { rewrite <- buf_words_length, Hlen. lia. }
    pose proof (buf_words_lookup out (Z.of_nat p) Hpl) as L. rewrite Nat2Z.id, Hx in L. injection L as ->.
    destruct (decide (p = i)) as [->|Hne].
    + rewrite list_lookup_insert_eq in Hy by exact Hp. injection Hy as <-. apply (word_stored I32); [lia| |exact Hw|].
      * cbn [out_size]. lia.
      * intros j Hj. rewrite Hb, Hj. reflexivity.
    + rewrite list_lookup_insert_ne in Hy by congruence. rewrite Hl in Hpl.
      pose proof (buf_words_lookup bytes (Z.of_nat p) Hpl) as L. rewrite Nat2Z.id, Hy in L. injection L as ->.
      apply word_untouched; [exact Hl|lia|]. intros j Hj. rewrite Hb. destruct (in_cell I32 (Z.of_nat i) j) eqn:Ej; [|reflexivity].
      unfold in_cell in *. apply andb_true_iff in Hj as [J1 J2], Ej as [J3 J4]. cbn [out_size] in *.
      apply Z.leb_le in J1, J3. apply Z.ltb_lt in J2, J4. lia.
  - assert (En : put_cell I32 bytes (Z.of_nat i) w = None).
    { unfold put_cell, put_uint32. rewrite (proj2 (Z.ltb_lt (Z.of_nat (length bytes)) _)) by lia. rewrite orb_true_r. reflexivity. }
    rewrite En. change (default bytes None) with bytes. split; [reflexivity|]. rewrite list_insert_ge; [reflexivity|].
    apply Nat2Z.inj_le. rewrite buf_words_length. apply Z.lt_succ_r, Z.div_lt_upper_bound; lia.
Qed.

Lemma put_words_spec stores : forall bytes, length (put_words (low_words stores) bytes) = length bytes /\
  buf_words (put_words (low_words stores) bytes) = apply_stores (low_words stores) (buf_words bytes).
Proof using.
  induction stores as [|[i w] stores IH]; intros bytes; [split; reflexivity|]. cbn [low_words map put_words apply_stores].
  destruct (buf_words_put bytes (Z.to_nat i) (u32 w) (u32_ok w)) as [L W]. cbv zeta in L, W. rewrite <- W, <- L. apply IH.
Qed.

Program Definition reference_device : Device := {|
  gpu := list (option (list Z));
  gbuf := nat * Z;
  g_bytes := ref_bytes;
  g_len := snd;
  g_alloc := ref_alloc;
  g_store := ref_store;
  g_read := ref_read;
  g_close := ref_close;
  g_run := ref_run
|}.
Next Obligation. intros d b bs H. apply ref_bytes_some in H as [_ H]. exact H. Qed.
Next Obligation.
  intros n d b d' Hn. unfold ref_alloc. rewrite (proj2 (Z.ltb_lt _ _) Hn). intros [= <- <-]. unfold ref_bytes. cbn [fst snd].
  rewrite (lookup_ge_None_2 d (length d)), lookup_app_r, Nat.sub_diag by lia. cbn. rewrite repeat_length, Z2Nat.id, Z.eqb_refl by lia.
  split; [reflexivity|]. split; [eauto|]. split; [reflexivity|]. intros [j m] Hne. cbn [fst snd].
  destruct (Nat.lt_total j (length d)) as [Hlt|[->|Hgt]].
  - rewrite lookup_app_l by exact Hlt. reflexivity.
  - rewrite lookup_app_r, Nat.sub_diag, (lookup_ge_None_2 d (length d)) by lia. cbn. rewrite repeat_length, Z2Nat.id by lia.
    destruct (Z.eqb_spec n m) as [->|]; [contradiction|reflexivity].
  - rewrite (lookup_ge_None_2 d), (lookup_ge_None_2 (d ++ _)); [reflexivity|rewrite length_app; cbn; lia|lia].
Qed.
Next Obligation.
  intros b data d d' old Hb Hl. unfold ref_store. rewrite Hb, (proj2 (Nat.leb_le _ _) Hl). intros [= <-].
  apply (ref_insert d b old); [exact Hb|]. intros bs' [= <-]. rewrite length_app, length_drop. lia.
Qed.
Next Obligation.
  intros b dst d bs dst' Hb Hl. unfold ref_read. rewrite Hb, (proj2 (Nat.leb_le _ _) Hl). intros [= <-]. reflexivity.
Qed.
Next Obligation.
  intros b d d' bs Hb. unfold ref_close. rewrite Hb. intros [= <-]. apply (ref_insert d b bs); [exact Hb|discriminate].
Qed.
Next Obligation.
  intros c groups out ins push d d' obs bss Hr Hni Hout Fb. unfold ref_run in Hr. rewrite Hout in Hr.
  rewrite (proj2 (mapM_Some (ref_bytes d) ins bss) Fb) in Hr. injection Hr as <-.
  set (gis := seqZ 0 (groups * c_Threads c)). set (obs' := match grid c bss push gis with Some _ => _ | None => _ end).
  assert (Hl : length obs' = length obs) by (unfold obs'; destruct (grid c bss push gis); [apply put_words_spec|reflexivity]).
  destruct (ref_insert d out obs (Some obs') Hout) as [K1 K2]; [intros bs' [= <-]; exact Hl|].
  split; [exact K2|]. exists gis, obs'. split; [reflexivity|]. split; [exact K1|]. intros stores Hs. unfold obs'. rewrite Hs.
  apply put_words_spec.
Qed.

Lemma reference_reliable : Reliable reference_device.
Proof using.
  split; cbn.
  - intros n d Hn. unfold ref_alloc. rewrite (proj2 (Z.ltb_lt _ _) Hn). eauto.
  - intros b data d old Hb Hl. unfold ref_store. rewrite Hb, (proj2 (Nat.leb_le _ _) Hl). reflexivity.
  - intros b dst d bs Hb Hl. unfold ref_read. rewrite Hb, (proj2 (Nat.leb_le _ _) Hl). reflexivity.
  - intros b d bs Hb. unfold ref_close. rewrite Hb. reflexivity.
  - intros c groups bound push d _ Hall. destruct bound as [|out ins]; [reflexivity|]. cbn [ref_run].
    inversion Hall as [|? ? [obs Hobs] Hins]; subst. rewrite Hobs.
    destruct (proj2 (mapM_is_Some (ref_bytes d) ins) Hins) as [bss ->]. reflexivity.
Qed.
End reference.
