(* ===== verification/Slots.v ===== *)
(** * GPU sessions (src/x/driver/ndeval: internal/pack, internal/slots,
      internal/run, opengl/session.go)

    A session evaluates one kernel on a device: it grows the output and input
    buffers, stores the inputs (bytes widened to words), fills the push block,
    runs the program over the workgroups and reads the output back.  The file
    models the sequence, with its error returns, over the state of the session
    and of the device, and proves that each step keeps the buffers of the
    session live and distinct, and what the buffers hold after it. *)
From Stdlib Require Import ZArith Lia.
From stdpp Require Import base numbers option list gmap.
From S2P Require Import Prelude Float Alu Shape View Tracker Expr Rewrite Optimize Flatten Cpu Kernel Code Shader Emits Schedule Device.

Local Open Scope Z_scope.

(** The errors of a context and of a device call are not sentinels of the
    package. *)
Inductive failure : Type := Sentinel (e : err) | ContextError | DeviceError.
Inductive gres (A : Type) : Type := GOk (a : A) | GFail (f : failure) | GPanic.
Arguments GOk {A} a.
Arguments GFail {A} f.
Arguments GPanic {A}.

(** ** Packing *)

Definition pack_Bytes (dtype : DType) (n : Z) : Z := match dtype with U8 => n * 4 | _ => n end.

(** [staging[j*4] = v] into a cleared slice. *)
Definition widened (raw : list Z) : list Z := concat (map (fun v => [v; 0; 0; 0]) raw).

(** The slice to store, and the staging array to its capacity. *)
Definition Widen (dtype : DType) (raw staging : list Z) : list Z * list Z :=
  match dtype with
  | U8 =>
      let need := (4 * length raw)%nat in
      let data := widened raw in
      (data, if (length staging <? need)%nat then data else data ++ drop need staging)
  | _ => (raw, staging)
  end.

(** ** The buffers of a session *)

Section session.
Context {E : FloatEnv} {D : Device}.

(** [Staging] and [Push] are arrays to their capacity; a nil buffer is
    [None]. *)
Record Set_ : Type := mkSet {
  Output : option gbuf;
  Inputs : list (option gbuf);
  Bound : list (option gbuf);
  Staging : list Z;
  s_Push : list Z
}.

(** A method of the session: it may fail, and changes the set and the
    device. *)
Definition GM (A : Type) : Type := Set_ * gpu -> gres A * (Set_ * gpu).
Definition g_ret {A} (a : A) : GM A := fun s => (GOk a, s).
Definition g_fail {A} (f : failure) : GM A := fun s => (GFail f, s).
Definition g_bind {A B} (m : GM A) (k : A -> GM B) : GM B := fun s =>
  match m s with
  | (GOk a, s') => k a s'
  | (GFail f, s') => (GFail f, s')
  | (GPanic, s') => (GPanic, s')
  end.
End session.

Notation "'let@' x ':=' m 'in' k" := (g_bind m (fun x => k))
  (at level 10, x pattern, m at level 100, k at level 200, format "'let@'  x  ':='  m  'in' '//' k") : lewkit_scope.

Section slots.
Context {E : FloatEnv} {D : Device}.
Context (hb : list buffer).

Definition with_output (b : option gbuf) (s : Set_) : Set_ := mkSet b (Inputs s) (Bound s) (Staging s) (s_Push s).
Definition with_input (i : nat) (b : option gbuf) (s : Set_) : Set_ :=
  mkSet (Output s) (<[i := b]> (Inputs s)) (Bound s) (Staging s) (s_Push s).
Definition with_staging (st : list Z) (s : Set_) : Set_ := mkSet (Output s) (Inputs s) (Bound s) st (s_Push s).

(** [grow] of a slot that holds [cur]: the buffer that the slot keeps, with
    the number and bytes of new allocations. *)
Definition grow (cur : option gbuf) (bytes : Z) : gpu -> gres (option gbuf * (Z * Z)) * gpu := fun d =>
  if match cur with Some b => bytes <=? g_len b | None => false end then (GOk (cur, (0, 0)), d) else
  match g_alloc bytes d with
  | (None, d) => (GFail DeviceError, d)
  | (Some b, d) =>
      match cur with
      | None => (GOk (Some b, (1, bytes)), d)
      | Some old =>
          match g_close old d with
          | (true, d) => (GOk (Some b, (1, bytes)), d)
          | (false, d) => let '(_, d) := g_close b d in (GFail DeviceError, d)
          end
      end
  end.

Definition grow_output (bytes : Z) : GM (Z * Z) := fun '(s, d) =>
  match grow (Output s) bytes d with
  | (GOk (b, n), d) => (GOk n, (with_output b s, d))
  | (GFail f, d) => (GFail f, (s, d))
  | (GPanic, d) => (GPanic, (s, d))
  end.

(** [&set.Inputs[i]] panics out of range. *)
Definition grow_input (i : nat) (bytes : Z) : GM (Z * Z) := fun '(s, d) =>
  match Inputs s !! i with
  | None => (GPanic, (s, d))
  | Some cur =>
      match grow cur bytes d with
      | (GOk (b, n), d) => (GOk n, (with_input i b s, d))
      | (GFail f, d) => (GFail f, (s, d))
      | (GPanic, d) => (GPanic, (s, d))
      end
  end.

Definition input_bytes (k : Kernel) (i : nat) : list Z := opt_list (Input hb (Some k) (Z.of_nat i)).

Fixpoint fit_inputs (k : Kernel) (is_ : list nat) (grew total : Z) : GM (Z * Z) :=
  match is_ with
  | [] => g_ret (grew, total)
  | i :: is' =>
      let n := Z.max (pack_Bytes (InputDType hb (Some k) (Z.of_nat i)) (Z.of_nat (length (input_bytes k i)))) 1 in
      let@ (g, t) := grow_input i n in
      fit_inputs k is' (grew + g) (total + t)
  end.

Definition Fit (k : Kernel) : GM (Z * Z) :=
  let@ (g, t) := grow_output (Z.max (kernel_Size (Some k)) 1 * 4) in
  fit_inputs k (seq 0 (Z.to_nat (InputCount (Some k)))) g t.

(** [Inputs[i].Store(set.inputBytes(kernel, i))] *)
Definition store_input (k : Kernel) (i : nat) : GM unit := fun '(s, d) =>
  match Inputs s !! i with
  | Some (Some b) =>
      let '(data, staging) := Widen (InputDType hb (Some k) (Z.of_nat i)) (input_bytes k i) (Staging s) in
      let '(ok, d) := g_store b data d in
      (if ok then GOk tt else GFail DeviceError, (with_staging staging s, d))
  | _ => (GPanic, (s, d))
  end.

Fixpoint store_inputs (k : Kernel) (is_ : list nat) : GM unit :=
  match is_ with
  | [] => g_ret tt
  | i :: is' => let@ _ := store_input k i in store_inputs k is'
  end.

(** [copy(dst, src)] *)
Definition copy_slice {A} (dst src : list A) : list A := take (length dst) src ++ drop (length src) dst.

Definition bind_buffers (k : Kernel) : GM unit := fun '(s, d) =>
  let need := Z.to_nat (Bindings (Some k)) in
  let bound := if (length (Bound s) <? need)%nat then repeat None need else take need (Bound s) in
  let bound := match bound with [] => [] | _ :: rest => Output s :: copy_slice rest (Inputs s) end in
  (GOk tt, (mkSet (Output s) (Inputs s) bound (Staging s) (s_Push s), d)).

Definition Load (k : Kernel) : GM unit :=
  let@ _ := store_inputs k (seq 0 (Z.to_nat (InputCount (Some k)))) in
  bind_buffers k.

(** The slice that [FillPush] returns; the array keeps its capacity. *)
Definition set_FillPush (k : Kernel) : GM (list Z) := fun '(s, d) =>
  let n := Z.to_nat PushBytes in
  let push := FillPush (Some k) (if (length (s_Push s) <? n)%nat then repeat 0 n else take n (s_Push s)) in
  let array := push ++ drop n (s_Push s) in
  (GOk push, (mkSet (Output s) (Inputs s) (Bound s) (Staging s) array, d)).

(** [output[i] = uint8(word i of staging)] *)
Fixpoint narrow_words (n : nat) (i : nat) (staging output : list Z) : list Z :=
  match n with
  | O => output
  | S n' =>
      narrow_words n' (S i) staging (<[i := word (mkBuffer staging I32) (Z.of_nat i) mod 256]> output)
  end.

(** A nil output panics. *)
Definition ReadHost (k : Kernel) (output : list Z) : GM (list Z) := fun '(s, d) =>
  match Output s with
  | None => (GPanic, (s, d))
  | Some out =>
      match kernel_DType (Some k) with
      | U8 =>
          let size := Z.to_nat (kernel_Size (Some k)) in
          let need := (4 * size)%nat in
          let array := if (length (Staging s) <? need)%nat then repeat 0 need else Staging s in
          let '(ok, staging) := g_read out (take need array) d in
          let s := with_staging (staging ++ drop need array) s in
          (if ok then GOk (narrow_words (Nat.min size (length output)) 0 staging output) else GFail DeviceError, (s, d))
      | _ =>
          let n := Z.to_nat (OutputBytes (Some k)) in
          let '(ok, bytes) := g_read out (take n output) d in
          (if ok then GOk (bytes ++ drop n output) else GFail DeviceError, (s, d))
      end
  end.

(** ** The evaluation *)

(** [newSession]: the program is the schedule, which the device may refuse to
    compile. *)
Definition newSession (ctxErr : bool) (ns : list node) (kernel : option Kernel) (deviceOK : bool) (compiles : Code -> bool)
    : gres (Code * Set_) :=
  if ctxErr then GFail ContextError else
  match kernel with
  | None => GFail (Sentinel ErrOp)
  | Some k =>
      if negb deviceOK then GFail (Sentinel ErrOp) else
      match kernel_Code ns hb (Some k) with
      | Err e => GFail (Sentinel e)
      | Ok c =>
          if compiles c then GOk (c, mkSet None (repeat None (Z.to_nat (InputCount (Some k)))) [] [] [])
          else GFail DeviceError
      end
  end.

Definition CheckOutput (k : Kernel) (output : list Z) : res unit :=
  if Z.of_nat (length output) <? OutputBytes (Some k) then Err ErrSize else Ok tt.

(** [run.Prepare] *)
Definition Prepare (k : Kernel) : GM unit :=
  let@ _ := Fit k in Load k.

(** The buffers a device call takes; a nil one panics. *)
Definition non_nil_bufs (bs : list (option gbuf)) : option (list gbuf) := mapM id bs.

Definition run_program (prog : Code) (groups : Z) (push : list Z) : GM unit := fun '(s, d) =>
  match non_nil_bufs (Bound s) with
  | None => (GPanic, (s, d))
  | Some bound =>
      let '(ok, d) := g_run prog groups bound push d in
      (if ok then GOk tt else GFail DeviceError, (s, d))
  end.

(** [run.Groups], with the OpenGL session's run. *)
Definition run_Groups (k : Kernel) (prog : Code) : GM unit :=
  let@ _ := Prepare k in
  let@ push := set_FillPush k in
  let groups := Groups (Some k) in
  if groups <? 1 then g_ret tt else run_program prog groups push.

(** [run.Eval]; the locks are held by one call at a time. *)
Definition run_Eval (ctxErr : bool) (kernel : option Kernel) (deviceOK : bool) (prog : option Code) (output : list Z) : GM (list Z) :=
  if ctxErr then g_fail ContextError else
  match kernel with
  | None => g_fail (Sentinel ErrOp)
  | Some k =>
      if negb deviceOK then g_fail (Sentinel ErrOp) else
      match prog with
      | None => g_fail (Sentinel ErrOp)
      | Some prog =>
          match CheckOutput k output with
          | Err e => g_fail (Sentinel e)
          | Ok _ =>
              if kernel_Size (Some k) =? 0 then g_ret output else
              let@ _ := run_Groups k prog in ReadHost k output
          end
      end
  end.

(** [Set.Close]: every buffer is closed, whatever the others return. *)
Definition close_slot (b : option gbuf) (d : gpu) : bool * gpu :=
  match b with None => (true, d) | Some b => g_close b d end.
Fixpoint close_slots (bs : list (option gbuf)) (d : gpu) : bool * gpu :=
  match bs with
  | [] => (true, d)
  | b :: bs' =>
      let '(ok, d) := close_slot b d in
      let '(ok', d) := close_slots bs' d in (ok && ok', d)
  end.
Definition set_Close : GM unit := fun '(s, d) =>
  let '(ok, d) := close_slots (Output s :: Inputs s) d in
  (if ok then GOk tt else GFail DeviceError,
   (mkSet None (map (fun _ => None) (Inputs s)) (Bound s) (Staging s) (s_Push s), d)).

(** [run.Release]: the table [t] forgets the session and the program is closed,
    once each, and the errors of the closes are joined. *)
Definition Release {T P} (closeProg : P -> gpu -> bool * gpu) (st : T * option (T -> T) * option P * Set_ * gpu)
    : bool * (T * option (T -> T) * option P * Set_ * gpu) :=
  let '(t, forget, prog, s, d) := st in
  let t := match forget with Some f => f t | None => t end in
  let '(ok, d) := match prog with Some p => closeProg p d | None => (true, d) end in
  match set_Close (s, d) with
  | (GOk _, (s, d)) => (ok, (t, None, None, s, d))
  | (_, (s, d)) => (false, (t, None, None, s, d))
  end.
End slots.

(** ** Packing *)

Lemma widened_length raw : length (widened raw) = (4 * length raw)%nat.
Proof. unfold widened. induction raw as [|v raw IH]; [reflexivity|]. cbn [map concat app length]. rewrite IH. lia. Qed.

Lemma widened_nth raw rest : forall i r, (i < length raw)%nat -> (r < 4)%nat ->
  nth (4 * i + r) (widened raw ++ rest) 0 = if (r =? 0)%nat then nth i raw 0 else 0.
Proof.
  unfold widened. induction raw as [|v raw IH]; intros i r Hi Hr; [cbn in Hi; lia|]. destruct i as [|i].
  - destruct r as [|[|[|[|r]]]]; [reflexivity..|lia].
  - replace (4 * S i + r)%nat with (S (S (S (S (4 * i + r))))) by lia. cbn [map concat app nth]. cbn [length] in Hi.
    apply IH; lia.
Qed.

(** The slice to store has the announced length, and a buffer that starts with
    it holds the cells. *)
Lemma Widen_holds b staging : let '(data, _) := Widen (buf_dtype b) (raw b) staging in
  Z.of_nat (length data) = pack_Bytes (buf_dtype b) (Z.of_nat (length (raw b))) /\
  forall rest, holds_cells (data ++ rest) b.
Proof.
  destruct b as [rw d]. cbn [buf_dtype raw]. assert (Hd : d = U8 \/ d <> U8) by (destruct d; auto; right; discriminate).
  destruct Hd as [->|Hd].
  - cbn [Widen pack_Bytes]. split; [rewrite widened_length; lia|]. intros rest.
    assert (Hc : cells (mkBuffer rw U8) = Z.of_nat (length rw)) by (unfold cells; cbn; apply Z.quot_1_r).
    assert (Hl : Z.of_nat (length rw) <= Z.of_nat (length (widened rw ++ rest)) / 4).
    { apply Z.div_le_lower_bound; [lia|]. rewrite length_app, widened_length. lia. }
    split; [rewrite Hc; exact Hl|]. rewrite Hc. intros i Hi. unfold word. cbn [buf_dtype raw].
    destruct (Z.ltb_spec i 0); [lia|]. rewrite length_app, widened_length.
    destruct (Z.ltb_spec (Z.of_nat (4 * length rw + length rest)) (i * 4 + 4)); [lia|].
    destruct (Z.leb_spec (Z.of_nat (length rw)) i); [lia|]. unfold byte_at.
    assert (Hn : forall r, (r < 4)%nat -> nth (Z.to_nat (i * 4 + Z.of_nat r)) (widened rw ++ rest) 0 = if (r =? 0)%nat then nth (Z.to_nat i) rw 0 else 0).
    { intros r Hr. rewrite <- (widened_nth rw rest) by lia. f_equal. lia. }
    pose proof (Hn 0%nat ltac:(lia)) as N0. pose proof (Hn 1%nat ltac:(lia)) as N1.
    pose proof (Hn 2%nat ltac:(lia)) as N2. pose proof (Hn 3%nat ltac:(lia)) as N3.
    change (Z.of_nat 0) with 0 in N0. change (Z.of_nat 1) with 1 in N1. change (Z.of_nat 2) with 2 in N2. change (Z.of_nat 3) with 3 in N3.
    rewrite Z.add_0_r in N0. rewrite N0, N1, N2, N3. apply Z.lor_0_r.
  - assert (Ew : Widen d rw staging = (rw, staging)) by (destruct d; try reflexivity; contradiction). rewrite Ew.
    split; [destruct d; try reflexivity; contradiction|]. intros rest.
    assert (Hc : cells (mkBuffer rw d) <= Z.of_nat (length rw) / 4).
    { unfold cells. cbn [buf_dtype raw]. destruct d; try contradiction; cbn; [apply Z.div_pos; lia|rewrite Z.quot_div_nonneg by lia; lia..]. }
    split; [etransitivity; [exact Hc|]; apply Z.div_le_mono; [lia|]; rewrite length_app; lia|].
    intros i Hi. pose proof (Z.mul_div_le (Z.of_nat (length rw)) 4 ltac:(lia)) as Hm.
    assert (Hword : forall bs, word (mkBuffer bs d) i = word (mkBuffer bs I32) i) by (intros bs; destruct d; try reflexivity; contradiction).
    rewrite Hword. unfold word. cbn [buf_dtype raw]. destruct (Z.ltb_spec i 0); [lia|]. rewrite length_app.
    destruct (Z.ltb_spec (Z.of_nat (length rw + length rest)) (i * 4 + 4)); [lia|].
    destruct (Z.ltb_spec (Z.of_nat (length rw)) (i * 4 + 4)); [lia|]. unfold byte_at. rewrite !app_nth1 by lia. reflexivity.
Qed.

(** ** What the steps of a session keep *)

Section keeps.
Context {E : FloatEnv} {D : Device}.

(** The buffers [F] of other sessions on the device, with their content. *)
Context (F : gbuf -> list Z -> Prop).

(** The buffers of the slots are live and distinct, and those of other
    sessions are as they were. *)
Record live (l : list (option gbuf)) (d : gpu) : Prop := {
  lv_bytes : forall j b, l !! j = Some (Some b) -> is_Some (g_bytes d b);
  lv_distinct : forall i j b, l !! i = Some (Some b) -> l !! j = Some (Some b) -> i = j;
  lv_frame : forall b v, F b v -> g_bytes d b = Some v /\ forall j, l !! j <> Some (Some b)
}.

(** A device call that changes the buffer of the slot [j] alone. *)
Lemma live_change l d d' j x : live l d -> l !! j = Some (Some x) -> is_Some (g_bytes d' x) ->
  (forall b, b <> x -> g_bytes d' b = g_bytes d b) -> live l d'.
Proof using.
  intros [H1 H2 H3] Hj Hx Hs. split; [|exact H2|].
  - intros i b Hi. destruct (decide (i = j)) as [->|Hne]; [congruence|]. rewrite Hs; [eauto|]. intros ->. apply Hne. eauto.
  - intros b v Hb. destruct (H3 b v Hb) as [K1 K2]. split; [|exact K2]. rewrite Hs; [exact K1|]. intros ->. exact (K2 j Hj).
Qed.

(** A buffer that is in no slot takes the slot [j]. *)
Lemma live_insert l d d' j b : live l d -> g_bytes d b = None -> is_Some (g_bytes d' b) ->
  (forall i x, l !! i = Some (Some x) -> i <> j -> g_bytes d' x = g_bytes d x) ->
  (forall x v, F x v -> g_bytes d' x = g_bytes d x) -> live (<[j := Some b]> l) d'.
Proof using.
  intros [H1 H2 H3] Hnew Hb Hs Hf.
  assert (Hne : forall i, l !! i <> Some (Some b)) by (intros i Hi; destruct (H1 i b Hi); congruence). split.
  - intros i x Hi. apply list_lookup_insert_Some in Hi as [(-> & [= <-] & _)|[Ni Hi]]; [exact Hb|].
    rewrite (Hs i x Hi ltac:(congruence)). eauto.
  - intros i i' x Hi Hi'. apply list_lookup_insert_Some in Hi as [(-> & [= <-] & _)|[Ni Hi]];
      apply list_lookup_insert_Some in Hi' as [(-> & E' & _)|[Ni' Hi']]; try reflexivity.
    + contradiction (Hne i').
    + injection E' as <-. contradiction (Hne i).
    + eauto.
  - intros x v Hx. destruct (H3 x v Hx) as [K1 K2]. split; [rewrite (Hf x v Hx); exact K1|].
    intros i Hi. apply list_lookup_insert_Some in Hi as [(-> & [= <-] & _)|[_ Hi]]; [congruence|exact (K2 i Hi)].
Qed.

(** A method that starts where [P] holds ends where [Q] does, or with a device
    error, which a reliable device never gives. *)
Definition ensures {A} (P : Set_ -> gpu -> Prop) (m : GM A) (Q : A -> Set_ -> gpu -> Prop) : Prop :=
  forall s d, P s d ->
  match m (s, d) with
  | (GOk a, (s', d')) => Q a s' d'
  | (GFail f, _) => f = DeviceError /\ ~ Reliable D
  | (GPanic, _) => False
  end.

Lemma ensures_ret {A} (a : A) P (Q : A -> Set_ -> gpu -> Prop) : (forall s d, P s d -> Q a s d) -> ensures P (g_ret a) Q.
Proof using. intros H s d. apply H. Qed.

Lemma ensures_bind {A B} (m : GM A) (k : A -> GM B) P Q R :
  ensures P m Q -> (forall a, ensures (Q a) (k a) R) -> ensures P (g_bind m k) R.
Proof using.
  intros Hm Hk s d Hp. unfold g_bind. specialize (Hm s d Hp). destruct (m (s, d)) as [[a|f|] [s' d']]; try exact Hm.
  exact (Hk a s' d' Hm).
Qed.

Lemma ensures_weaken {A} (m : GM A) P P' (Q Q' : A -> Set_ -> gpu -> Prop) : ensures P m Q ->
  (forall s d, P' s d -> P s d) -> (forall a s d, Q a s d -> Q' a s d) -> ensures P' m Q'.
Proof using.
  intros H HP HQ s d Hp. specialize (H s d (HP _ _ Hp)). destruct (m (s, d)) as [[a|f|] [s' d']]; auto.
Qed.

(** *** Growing *)

(** After [grow] the slot has a buffer of the length at least. *)
Lemma grow_live l d j cur bytes : live l d -> l !! j = Some cur -> 0 < bytes ->
  match grow cur bytes d with
  | (GOk (b', _), d') => live (<[j := b']> l) d' /\ exists b, b' = Some b /\ bytes <= g_len b
  | (GFail f, _) => f = DeviceError /\ ~ Reliable D
  | (GPanic, _) => False
  end.
Proof using.
  intros Hl Hj Hb. unfold grow. destruct (match cur with Some b => bytes <=? g_len b | None => false end) eqn:Eg.
  { destruct cur as [b|]; [|discriminate Eg]. apply Z.leb_le in Eg. rewrite list_insert_id by exact Hj.
    split; [exact Hl|]. eauto. }
  clear Eg. destruct (g_alloc bytes d) as [[b|] d1] eqn:Ea.
  2: { split; [reflexivity|]. intros R. destruct (r_alloc bytes d Hb) as (b & d' & E'). congruence. }
  destruct (g_alloc_ok bytes d b d1 Hb Ea) as (Hnew & [bs Hbs] & Hlen & Hsame).
  assert (Hne : forall i x, l !! i = Some (Some x) -> x <> b).
  { intros i x Hi ->. destruct (lv_bytes _ _ Hl i b Hi) as [bs' E']. congruence. }
  assert (Hne' : forall x v, F x v -> x <> b).
  { intros x v Hx ->. destruct (lv_frame _ _ Hl b v Hx) as [E' _]. congruence. }
  assert (Hfit : bytes <= g_len b) by lia.
  destruct cur as [old|].
  2: { split; [|eauto]. eapply live_insert; eauto. }
  assert (Hobs : is_Some (g_bytes d1 old)) by (rewrite Hsame by (eapply Hne, Hj); eapply lv_bytes; eauto). destruct Hobs as [obs Hobs].
  destruct (g_close old d1) as [[|] d2] eqn:Ec.
  2: { destruct (g_close b d2) as [okb d3]. split; [reflexivity|]. intros R. pose proof (r_close old d1 obs Hobs) as K. rewrite Ec in K. discriminate K. }
  destruct (g_close_ok old d1 d2 obs Hobs Ec) as [_ Hcl]. split; [|eauto]. eapply live_insert; [exact Hl|exact Hnew| | |].
  - rewrite Hcl; [eauto|]. intros ->. exact (Hne j old Hj eq_refl).
  - intros i x Hi Ni. rewrite Hcl, Hsame; eauto. intros ->. apply Ni. eapply lv_distinct; eauto.
  - intros x v Hx. rewrite Hcl, Hsame; eauto. intros ->. destruct (lv_frame _ _ Hl old v Hx) as [_ K]. exact (K j Hj).
Qed.
End keeps.

(** *** The steps of an evaluation *)

Section evaluation.
Context {E : FloatEnv} {D : Device} (F : gbuf -> list Z -> Prop) (hb : list buffer) (k : Kernel).

Definition set_slots (s : Set_) : list (option gbuf) := Output s :: Inputs s.

(** The bytes that each slot needs. *)
Definition need (j : nat) : Z :=
  match j with
  | O => Z.max (kernel_Size (Some k)) 1 * 4
  | S i => Z.max (pack_Bytes (InputDType hb (Some k) (Z.of_nat i)) (Z.of_nat (length (input_bytes hb k i)))) 1
  end.

Record session_ok (s : Set_) (d : gpu) : Prop := {
  se_inputs : length (Inputs s) = length (k_bufs k);
  se_live : live F (set_slots s) d
}.
Definition sized (n : nat) (s : Set_) : Prop :=
  forall j, (j < n)%nat -> exists b, set_slots s !! j = Some (Some b) /\ need j <= g_len b.

Lemma sized_insert n s s' b : sized n s -> set_slots s' = <[n := Some b]> (set_slots s) -> (n < length (set_slots s))%nat ->
  need n <= g_len b -> sized (S n) s'.
Proof using.
  intros Hs E0 Hn Hb j Hj. rewrite E0. destruct (decide (j = n)) as [->|Hne].
  - rewrite list_lookup_insert_eq by exact Hn. eauto.
  - rewrite list_lookup_insert_ne by congruence. apply Hs. lia.
Qed.

Lemma grow_output_keeps : ensures session_ok (grow_output (need 0)) (fun _ s d => session_ok s d /\ sized 1 s).
Proof using.
  intros s d [Hlen Hl]. unfold grow_output.
  pose proof (grow_live F (set_slots s) d 0 (Output s) (need 0) Hl eq_refl ltac:(unfold need; lia)) as G.
  destruct (grow (Output s) (need 0) d) as [[[b' n]|f|] d']; try exact G. destruct G as (G1 & b & -> & G2).
  split; [split; [exact Hlen|exact G1]|].
  apply (sized_insert 0 s _ b); [intros j Hj; lia|reflexivity|cbn; lia|exact G2].
Qed.

Lemma grow_input_keeps i : (i < length (k_bufs k))%nat ->
  ensures (fun s d => session_ok s d /\ sized (S i) s) (grow_input i (need (S i)))
    (fun _ s d => session_ok s d /\ sized (S (S i)) s).
Proof using.
  intros Hi s d [[Hlen Hl] Hs]. unfold grow_input.
  destruct (lookup_lt_is_Some_2 (Inputs s) i ltac:(lia)) as [cur Hc]. rewrite Hc.
  pose proof (grow_live F (set_slots s) d (S i) cur (need (S i)) Hl Hc ltac:(unfold need; lia)) as G.
  destruct (grow cur (need (S i)) d) as [[[b' n]|f|] d']; try exact G. destruct G as (G1 & b & -> & G2).
  split; [split; [cbn; rewrite length_insert; exact Hlen|exact G1]|].
  apply (sized_insert (S i) s _ b); [exact Hs|reflexivity|cbn; lia|exact G2].
Qed.

Lemma fit_inputs_keeps n : forall i g t, (i + n <= length (k_bufs k))%nat ->
  ensures (fun s d => session_ok s d /\ sized (S i) s) (fit_inputs hb k (seq i n) g t)
    (fun _ s d => session_ok s d /\ sized (S (i + n)) s).
Proof using.
  induction n as [|n IH]; intros i g t Hn; cbn [seq fit_inputs].
  { rewrite Nat.add_0_r. apply ensures_ret. auto. }
  eapply ensures_bind; [apply grow_input_keeps; lia|]. intros [g' t']. rewrite <- Nat.add_succ_comm. apply IH. lia.
Qed.

(** All buffers are there and large enough. *)
Definition fitted (s : Set_) (d : gpu) : Prop := session_ok s d /\ sized (S (length (k_bufs k))) s.

Lemma Fit_keeps : ensures session_ok (Fit hb k) (fun _ => fitted).
Proof using.
  eapply ensures_bind; [apply grow_output_keeps|]. intros [g t]. cbn [InputCount]. rewrite Nat2Z.id.
  apply (fit_inputs_keeps (length (k_bufs k)) 0 g t). lia.
Qed.

(** The first [n] inputs hold the buffers of the kernel. *)
Definition inputs_filled (n : nat) (s : Set_) (d : gpu) : Prop :=
  forall i, (i < n)%nat -> exists b bs, Inputs s !! i = Some (Some b) /\ g_bytes d b = Some bs /\
    forall l hbuf, k_bufs k !! i = Some l -> hb !! l = Some hbuf -> holds_cells bs hbuf.

Lemma input_buffer i l : k_bufs k !! i = Some l -> match hb !! l with
  | Some b => input_bytes hb k i = raw b /\ InputDType hb (Some k) (Z.of_nat i) = buf_dtype b
  | None => input_bytes hb k i = [] /\ InputDType hb (Some k) (Z.of_nat i) = DNone
  end.
Proof using.
  intros Hl. unfold input_bytes, Input, InputDType. pose proof (lookup_lt_Some _ _ _ Hl) as Hlt.
  destruct (Z.ltb_spec (Z.of_nat i) 0); [lia|]. destruct (Z.leb_spec (Z.of_nat (length (k_bufs k))) (Z.of_nat i)); [lia|].
  cbn [orb]. rewrite Nat2Z.id, Hl. cbn [mbind option_bind]. destruct (hb !! l); auto.
Qed.

Lemma store_input_keeps i : (i < length (k_bufs k))%nat ->
  ensures (fun s d => fitted s d /\ inputs_filled i s d) (store_input hb k i) (fun _ s d => fitted s d /\ inputs_filled (S i) s d).
Proof using.
  intros Hi s d [[[Hlen Hl] Hs] Hf]. unfold store_input. destruct (Hs (S i) ltac:(lia)) as (b & Hb & Hn).
  change (Inputs s !! i = Some (Some b)) in Hb. rewrite Hb.
  destruct (lv_bytes _ _ _ Hl (S i) b Hb) as [old Hold]. pose proof (g_len_bytes _ _ _ Hold) as Hol.
  destruct (lookup_lt_is_Some_2 (k_bufs k) i Hi) as [l El]. pose proof (input_buffer i l El) as Hin.
  assert (Hw : let '(data, _) := Widen (InputDType hb (Some k) (Z.of_nat i)) (input_bytes hb k i) (Staging s) in
    Z.of_nat (length data) <= need (S i) /\ forall hbuf, hb !! l = Some hbuf -> forall rest, holds_cells (data ++ rest) hbuf).
  { unfold need. destruct (hb !! l) as [hbuf|]; destruct Hin as [-> ->].
    - pose proof (Widen_holds hbuf (Staging s)) as W. destruct (Widen _ _ _) as [data st]. destruct W as [W1 W2].
      split; [lia|]. intros ? [= <-]. exact W2.
    - cbn. split; [lia|discriminate]. }
  destruct (Widen _ _ _) as [data st]. destruct Hw as [Hd Hh].
  assert (Hfit : (length data <= length old)%nat) by lia.
  destruct (g_store b data d) as [[|] d'] eqn:Est.
  2: { split; [reflexivity|]. intros R. pose proof (r_store b data d old Hold Hfit) as K. rewrite Est in K. discriminate K. }
  destruct (g_store_ok b data d d' old Hold Hfit Est) as [Hnew Hsame].
  assert (Hl' : live F (set_slots s) d') by (eapply (live_change F _ d d' (S i) b); eauto).
  split; [split; [split; [exact Hlen|exact Hl']|exact Hs]|]. intros j Hj. cbn [Inputs with_staging].
  destruct (decide (j = i)) as [->|Hne].
  - exists b, (data ++ drop (length data) old). split; [exact Hb|]. split; [exact Hnew|].
    intros l' hbuf Hl1 Hb1. rewrite El in Hl1. injection Hl1 as <-. apply Hh, Hb1.
  - destruct (Hf j ltac:(lia)) as (x & bs & Hx & Hbs & Hholds). exists x, bs. split; [exact Hx|]. split; [|exact Hholds].
    rewrite Hsame; [exact Hbs|]. intros ->. apply Hne. assert (S j = S i) by (eapply (lv_distinct _ _ _ Hl); eauto). lia.
Qed.

Lemma store_inputs_keeps n : forall i, (i + n <= length (k_bufs k))%nat ->
  ensures (fun s d => fitted s d /\ inputs_filled i s d) (store_inputs hb k (seq i n)) (fun _ s d => fitted s d /\ inputs_filled (i + n) s d).
Proof using.
  induction n as [|n IH]; intros i Hn; cbn [seq store_inputs].
  { rewrite Nat.add_0_r. apply ensures_ret. auto. }
  eapply ensures_bind; [apply store_input_keeps; lia|]. intros []. rewrite <- Nat.add_succ_comm. apply IH. lia.
Qed.

(** Ready to run: the inputs are stored, and the output and inputs bound. *)
Definition loaded (s : Set_) (d : gpu) : Prop := fitted s d /\ inputs_filled (length (k_bufs k)) s d /\ Bound s = set_slots s.

Lemma bind_buffers_keeps :
  ensures (fun s d => fitted s d /\ inputs_filled (length (k_bufs k)) s d) (bind_buffers k) (fun _ => loaded).
Proof using.
  intros s d [[[Hlen Hl] Hs] Hf]. unfold bind_buffers. split; [split; [split|]; assumption|]. split; [exact Hf|].
  cbn [Bound set_slots Output Inputs Bindings]. unfold set_slots.
  set (need := Z.to_nat _). assert (Hn : need = S (length (Inputs s))) by (unfold need; lia).
  set (bound := if (length (Bound s) <? need)%nat then repeat None need else take need (Bound s)). assert (Hb : length bound = need).
  { unfold bound. destruct (Nat.ltb_spec (length (Bound s)) need); [apply repeat_length|rewrite length_take; lia]. }
  destruct bound as [|b rest]; [cbn in Hb; lia|]. cbn [length] in Hb. f_equal.
  unfold copy_slice. rewrite take_ge, drop_ge, app_nil_r by lia. reflexivity.
Qed.

Lemma Prepare_keeps : ensures session_ok (Prepare hb k) (fun _ => loaded).
Proof using.
  unfold Prepare, Load. eapply ensures_bind; [apply Fit_keeps|]. intros grown.
  apply (ensures_bind _ _ _ (fun _ s d => fitted s d /\ inputs_filled (length (k_bufs k)) s d)); [|intros a; apply bind_buffers_keeps].
  cbn [InputCount]. rewrite Nat2Z.id. eapply ensures_weaken; [apply (store_inputs_keeps (length (k_bufs k)) 0); lia| |].
  - intros s d H. split; [exact H|]. intros i Hi. lia.
  - intros [] s d H. exact H.
Qed.

Lemma set_FillPush_keeps : ensures loaded (set_FillPush k) (fun push s d => push = Push (Some k) /\ loaded s d).
Proof using.
  intros s d [[[Hl Hv] Hs] [Hf Hb]]. unfold set_FillPush. split; [|split; [split; [split|]; assumption|split; assumption]].
  apply FillPush_Push.
  destruct (Nat.ltb_spec (length (s_Push s)) (Z.to_nat PushBytes)); [rewrite repeat_length|rewrite length_take]; unfold PushBytes in *; lia.
Qed.
End evaluation.

(** *** Reading the result *)

Lemma narrow_words_spec staging n : forall i out, (i + n <= length out)%nat ->
  length (narrow_words n i staging out) = length out /\
  (forall j, (i <= j < i + n)%nat -> narrow_words n i staging out !! j = Some ((word (mkBuffer staging I32) (Z.of_nat j)) mod 256)) /\
  (forall j, (j < i \/ i + n <= j)%nat -> narrow_words n i staging out !! j = out !! j).
Proof.
  induction n as [|n IH]; intros i out Hn; cbn [narrow_words]; [split; [reflexivity|split; [intros j Hj; lia|reflexivity]]|].
  set (w := word _ _ mod 256). destruct (IH (S i) (<[i := w]> out)) as (H1 & H2 & H3); [rewrite length_insert; lia|].
  rewrite length_insert in H1. split; [exact H1|]. split; intros j Hj.
  - destruct (decide (j = i)) as [->|Hne]; [|apply H2; lia]. rewrite H3 by lia. apply list_lookup_insert_eq. lia.
  - rewrite H3 by lia. apply list_lookup_insert_ne. lia.
Qed.

(** A word inside a prefix. *)
Lemma word_take bytes n i : 0 <= i -> i * 4 + 4 <= Z.of_nat n -> word (mkBuffer (take n bytes) I32) i = word (mkBuffer bytes I32) i.
Proof.
  intros Hi Hn. unfold word. cbn [buf_dtype raw]. destruct (Z.ltb_spec i 0); [lia|]. rewrite length_take.
  assert (Hb : forall j, 0 <= j < Z.of_nat n -> byte_at (take n bytes) j = byte_at bytes j).
  { intros j Hj. unfold byte_at. rewrite !nth_lookup, lookup_take_lt by lia. reflexivity. }
  rewrite !Hb by lia. destruct (Z.ltb_spec (Z.of_nat (Nat.min n (length bytes))) (i * 4 + 4)),
    (Z.ltb_spec (Z.of_nat (length bytes)) (i * 4 + 4)); try reflexivity; lia.
Qed.

Section eval.
Context {E : FloatEnv} {D : Device} (F : gbuf -> list Z -> Prop) (h : heap) (k : Kernel) (c : Code).
Hypothesis Hd : dispatchable h k.
Hypothesis Hcode : kernel_Code (h_nodes h) (h_bufs h) (Some k) = Ok c.
Hypothesis Hfits : forall gi, 0 <= gi < k_size k -> thread_fits h k gi = true.
Hypothesis Htype : k_outType k = n_dtype (get (h_nodes h) (k_root k)).
Hypothesis Hnumber : is_number_type (k_outType k) = true.
Hypothesis Hsize : 0 < k_size k.

Let hb := h_bufs h.

(** The device holds the words of the cells in the output buffer. *)
Definition computed (s : Set_) (d : gpu) : Prop := session_ok F k s d /\
  exists b obs, Output s = Some b /\ g_bytes d b = Some obs /\ k_size k * 4 <= Z.of_nat (length obs) /\
    forall i, 0 <= i < k_size k -> weq (k_outType k) (word (mkBuffer obs I32) i) (stored_word h k i).

Lemma loaded_bound s d : loaded F hb k s d -> exists out ins bss,
  non_nil_bufs (Bound s) = Some (out :: ins) /\ Output s = Some out /\ (out ∉ ins) /\
  Forall2 (fun b bs => g_bytes d b = Some bs) ins bss /\ inputs_hold hb (k_bufs k) bss /\
  k_size k * 4 <= g_len out /\ Forall (fun b => is_Some (g_bytes d b)) (out :: ins).
Proof using Hsize.
  intros ([[Hlen Hl] Hs] & Hf & Eb). rewrite Eb.
  assert (Hall : is_Some (mapM id (set_slots s))).
  { apply mapM_is_Some, Forall_lookup. intros j o Hj. destruct (Hs j) as (b & Hb & _).
    - apply lookup_lt_Some in Hj. cbn in Hj. lia.
    - rewrite Hb in Hj. injection Hj as <-. eexists. reflexivity. }
  destruct Hall as [bound Hbound]. pose proof (proj1 (mapM_Some _ _ _) Hbound) as Fm. unfold set_slots in Fm.
  inversion Fm as [|o out os ins Ho Fins]; subst. cbn in Ho.
  assert (Hin : forall i b, ins !! i = Some b -> Inputs s !! i = Some (Some b)).
  { intros i b Hi. destruct (Forall2_lookup_r _ _ _ _ _ Fins Hi) as (o' & Ho' & E'). cbn in E'. rewrite Ho', E'. reflexivity. }
  assert (Hlive : forall i b, ins !! i = Some b -> is_Some (g_bytes d b)) by (intros i b Hi; apply (lv_bytes _ _ _ Hl (S i)), Hin, Hi).
  assert (Hbytes : is_Some (mapM (g_bytes d) ins)).
  { apply mapM_is_Some, Forall_lookup. exact Hlive. }
  destruct Hbytes as [bss Hbss]. pose proof (proj1 (mapM_Some _ _ _) Hbss) as Fb. pose proof (Forall2_length _ _ _ Fb) as Lb.
  pose proof (Forall2_length _ _ _ Fins) as Li. exists out, ins, bss.
  split; [exact Hbound|]. split; [exact Ho|]. split; [|split; [exact Fb|split; [|split]]].
  - intros Hout. apply list_elem_of_lookup_1 in Hout as [i Hi]. apply Hin in Hi.
    assert (0%nat = S i) as [=] by (eapply (lv_distinct _ _ _ Hl 0 (S i)); [cbn; rewrite Ho; reflexivity|exact Hi]).
  - apply Forall2_same_length_lookup_2; [lia|]. intros i l bs Hi Hbs hbuf Hbuf.
    destruct (Hf i) as (b & bs' & Hb & Hbs' & Hh); [eapply lookup_lt_Some, Hi|].
    destruct (Forall2_lookup_r _ _ _ _ _ Fb Hbs) as (b' & Hb' & Eb'). apply Hin in Hb'. rewrite Hb in Hb'. injection Hb' as <-.
    rewrite Hbs' in Eb'. injection Eb' as <-. eapply Hh; eassumption.
  - destruct (Hs 0%nat ltac:(lia)) as (b & Hb & Hn). cbn in Hb. rewrite Ho in Hb. injection Hb as <-. unfold need in Hn. cbn in Hn. lia.
  - constructor; [apply (lv_bytes _ _ _ Hl 0); cbn; rewrite Ho; reflexivity|]. apply Forall_lookup. exact Hlive.
Qed.

Lemma run_program_computes : ensures (loaded F hb k) (run_program c (Groups (Some k)) (Push (Some k))) (fun _ => computed).
Proof using Hd Hcode Hfits Htype Hsize.
  intros s d Hload. pose proof Hload as [[[Hlen Hl] _] _]. destruct (loaded_bound s d Hload) as (out & ins & bss & Eb & Eo & Hni & Fb & Hi & Hlo & Hlive).
  unfold run_program. rewrite Eb. pose proof (di_small _ _ Hd) as Hsm.
  pose proof (Groups_cover k ltac:(lia) ltac:(unfold two31, two32 in *; lia)) as Hg.
  destruct (g_run c (Groups (Some k)) (out :: ins) (Push (Some k)) d) as [[|] d'] eqn:Er.
  2: { split; [reflexivity|]. intros R. pose proof (r_run c (Groups (Some k)) (out :: ins) (Push (Some k)) d ltac:(unfold localSize in *; lia) Hlive) as K. rewrite Er in K. discriminate K. }
  inversion Hlive as [|? ? [obs Hobs] _]; subst.
  destruct (g_run_ok _ _ _ _ _ _ _ obs bss Er Hni Hobs Fb) as (Hsame & gis & obs' & Hp & Hobs' & Hstores).
  pose proof (kernel_Code_decides (h_nodes h) (h_bufs h) k) as Dc. rewrite Hcode in Dc. destruct Dc as (_ & _ & Et & Eout & Ein & _).
  rewrite Et in Hp. destruct (dispatch_all h k Hd c gis Hcode Hp Hfits) as (stores & Es & Happ).
  specialize (Hstores stores (grid_dispatch h k c bss gis stores Ein Hi Es)).
  pose proof (g_len_bytes _ _ _ Hobs) as Lo. pose proof (g_len_bytes _ _ _ Hobs') as Lo'.
  assert (Hle : k_size k <= Z.of_nat (length (buf_words obs))) by (rewrite buf_words_length; apply Z.div_le_lower_bound; lia).
  destruct (Happ (buf_words obs) Hle) as (_ & Hw & _). split.
  - split; [exact Hlen|]. eapply (live_change F _ d d' 0 out); [exact Hl|cbn; rewrite Eo; reflexivity|eauto|exact Hsame].
  - exists out, obs'. split; [exact Eo|]. split; [exact Hobs'|]. split; [lia|]. intros i Hi'. destruct (Hw i Hi') as (w & Hlw & Ew).
    rewrite Eout, <- Htype in Ew. pose proof (Z.div_le_lower_bound (Z.of_nat (length obs')) 4 (k_size k) ltac:(lia) ltac:(lia)) as Hdiv.
    pose proof (buf_words_lookup obs' i ltac:(lia)) as L. rewrite Hstores in L.
    destruct (proj2 (low_words_lookup stores (Z.to_nat i) (buf_words obs) (buf_words obs) eq_refl (or_intror eq_refl))) as [K|K];
      rewrite K, Hlw in L; injection L as <-; [|exact Ew].
    apply weq_u32; [|exact Ew]. rewrite (stored_word_cell h k Hd (mkProgram [] 0 0)). apply cell_word_ok; [apply (di_heap _ _ Hd)|].
    apply (fo_valid _ _ _ _ (di_flat _ _ Hd)), last_Some_elem_of, (fo_last _ _ _ _ (di_flat _ _ Hd)).
Qed.

Lemma run_Groups_computes : ensures (session_ok F k) (run_Groups hb k c) (fun _ => computed).
Proof using Hd Hcode Hfits Htype Hsize.
  unfold run_Groups. eapply ensures_bind; [apply Prepare_keeps|]. intros a. eapply ensures_bind; [apply set_FillPush_keeps|].
  intros push s d [-> Hload]. pose proof (di_small _ _ Hd) as Hsm.
  pose proof (Groups_cover k ltac:(lia) ltac:(unfold two31, two32 in *; lia)) as Hg.
  destruct (Z.ltb_spec (Groups (Some k)) 1); [unfold localSize in *; lia|]. apply run_program_computes, Hload.
Qed.

(** What the caller finds in its slice. *)
Definition delivered (output output' : list Z) : Prop :=
  length output' = length output /\
  (forall i, 0 <= i < k_size k ->
    weq (k_outType k) (word (mkBuffer output' (k_outType k)) i) (stored (k_outType k) (stored_word h k i))) /\
  (forall p, OutputBytes (Some k) <= Z.of_nat p -> output' !! p = output !! p).

Lemma ReadHost_delivers output : OutputBytes (Some k) <= Z.of_nat (length output) ->
  ensures computed (ReadHost k output) (fun output' s d => session_ok F k s d /\ delivered output output').
Proof using Htype Hnumber Hsize.
  intros Hlen s d [[Hin Hl] (b & obs & Eo & Hobs & Hlo & Hw)]. unfold ReadHost. rewrite Eo. cbn [kernel_DType kernel_Size].
  assert (Hread : forall dst, Z.of_nat (length dst) <= k_size k * 4 ->
    match g_read b dst d with (true, dst') => dst' = take (length dst) obs | (false, _) => ~ Reliable D end).
  { intros dst Hdst. destruct (g_read b dst d) as [[|] dst'] eqn:Er.
    - eapply g_read_ok; [exact Hobs| |exact Er]. lia.
    - intros R. pose proof (r_read b dst d obs Hobs ltac:(lia)) as K. rewrite Er in K. discriminate K. }
  assert (Hdt : k_outType k = U8 \/ (k_outType k = F32 \/ k_outType k = I32)) by (destruct (k_outType k); auto; discriminate Hnumber).
  unfold delivered, OutputBytes in *. destruct Hdt as [Ed|Ed].
  - rewrite Ed in *. cbn [dtype_size] in *. rewrite Z.mul_1_r in *.
    set (nd := (4 * Z.to_nat (k_size k))%nat). set (arr := if (length (Staging s) <? nd)%nat then repeat 0 nd else Staging s).
    assert (Harr : (nd <= length arr)%nat) by (unfold arr; destruct (Nat.ltb_spec (length (Staging s)) nd); [rewrite repeat_length|]; lia).
    assert (Htk : length (take nd arr) = nd) by (rewrite length_take; lia).
    specialize (Hread (take nd arr)). rewrite Htk in Hread. specialize (Hread ltac:(lia)).
    destruct (g_read b (take nd arr) d) as [[|] staging]; [subst staging|auto].
    split; [split; [exact Hin|exact Hl]|]. replace (Nat.min (Z.to_nat (k_size k)) (length output)) with (Z.to_nat (k_size k)) by lia.
    destruct (narrow_words_spec (take nd obs) (Z.to_nat (k_size k)) 0 output ltac:(lia)) as (N1 & N2 & N3).
    split; [exact N1|]. split; [|intros p Hp; apply N3; lia].
    intros i Hi. specialize (N2 (Z.to_nat i) ltac:(lia)). rewrite Z2Nat.id in N2 by lia. rewrite word_take in N2 by lia.
    left. unfold word at 1. cbn [buf_dtype raw]. destruct (Z.ltb_spec i 0); [lia|].
    rewrite N1. destruct (Z.leb_spec (Z.of_nat (length output)) i); [lia|]. rewrite (byte_at_lookup _ i _ (proj1 Hi) N2).
    cbn [stored]. f_equal. apply (weq_int U8); [discriminate|]. apply Hw, Hi.
  - assert (Hn : dtype_size (k_outType k) = 4) by (destruct Ed as [-> | ->]; reflexivity). rewrite Hn in *.
    assert (Hm : forall A (x y : A), match k_outType k with U8 => x | _ => y end = y) by (intros A x y; destruct Ed as [-> | ->]; reflexivity).
    rewrite Hm. set (n := Z.to_nat (k_size k * 4)).
    assert (Htk : length (take n output) = n) by (rewrite length_take; lia).
    specialize (Hread (take n output)). rewrite Htk in Hread. specialize (Hread ltac:(lia)).
    destruct (g_read b (take n output) d) as [[|] bytes]; [subst bytes|auto].
    assert (Hto : length (take n obs) = n) by (rewrite length_take; lia).
    split; [split; [exact Hin|exact Hl]|]. split; [rewrite length_app, Hto, length_drop; lia|]. split.
    + intros i Hi. assert (Hst : stored (k_outType k) (stored_word h k i) = stored_word h k i) by (destruct Ed as [-> | ->]; reflexivity).
      rewrite Hst. assert (Hwd : forall bs, word (mkBuffer bs (k_outType k)) i = word (mkBuffer bs I32) i) by (intros bs; destruct Ed as [-> | ->]; reflexivity).
      rewrite Hwd, <- (word_take _ n) by lia. rewrite take_app_le, take_take, Nat.min_id, word_take by lia. apply Hw, Hi.
    + intros p Hp. rewrite lookup_app_r by lia. rewrite Hto, lookup_drop. f_equal. lia.
Qed.
(** The whole evaluation of a bound kernel. *)
Lemma run_Eval_delivers output s d : session_ok F k s d ->
  match run_Eval hb false (Some k) true (Some c) output (s, d) with
  | (GOk output', (s', d')) =>
      OutputBytes (Some k) <= Z.of_nat (length output) /\ session_ok F k s' d' /\ delivered output output'
  | (GFail f, sd) =>
      f = Sentinel ErrSize /\ Z.of_nat (length output) < OutputBytes (Some k) /\ sd = (s, d) \/
      f = DeviceError /\ ~ Reliable D
  | (GPanic, _) => False
  end.
Proof using Hd Hcode Hfits Htype Hnumber Hsize.
  intros Hs. unfold run_Eval, CheckOutput. cbn [negb kernel_Size].
  destruct (Z.ltb_spec (Z.of_nat (length output)) (OutputBytes (Some k))) as [Hlt|Hge]; [left; auto|].
  destruct (Z.eqb_spec (k_size k) 0); [lia|].
  pose proof (ensures_bind (run_Groups hb k c) (fun _ => ReadHost k output) _ _ _ run_Groups_computes
    (fun _ => ReadHost_delivers output Hge) s d Hs) as K.
  cbv beta in K. destruct (g_bind _ _ (s, d)) as [[out'|f|] [s' d']]; [|auto|exact K].
  split; [exact Hge|exact K].
Qed.
End eval.

Lemma run_Eval_empty {E : FloatEnv} {D : Device} hb k c output sd : k_size k = 0 ->
  run_Eval hb false (Some k) true (Some c) output sd = (GOk output, sd).
Proof.
  intros E0. unfold run_Eval, CheckOutput, OutputBytes. cbn [negb kernel_Size]. rewrite E0, Z.mul_0_l, Z.eqb_refl.
  destruct (Z.ltb_spec (Z.of_nat (length output)) 0); [lia|reflexivity].
Qed.

(** *** Opening and closing *)

Section lifetime.
Context {E : FloatEnv} {D : Device} (F : gbuf -> list Z -> Prop).

Lemma newSession_ok ns hb k compiles c s d : newSession hb false ns (Some k) true compiles = GOk (c, s) ->
  (forall b v, F b v -> g_bytes d b = Some v) ->
  kernel_Code ns hb (Some k) = Ok c /\ session_ok F k s d.
Proof using.
  unfold newSession. cbn [negb]. destruct (kernel_Code ns hb (Some k)) as [c'|e]; [|discriminate]. destruct (compiles c'); [|discriminate].
  intros [= <- <-] HF. split; [reflexivity|]. split; [cbn; rewrite repeat_length, Nat2Z.id; reflexivity|].
  assert (Hn : forall j b, (None :: repeat None (Z.to_nat (Z.of_nat (length (k_bufs k)))) : list (option gbuf)) !! j <> Some (Some b)).
  { intros j b Hj. apply list_elem_of_lookup_2, list_elem_of_In in Hj as [Hj|Hj]; [discriminate Hj|]. apply repeat_spec in Hj. discriminate Hj. }
  split.
  - intros j b Hj. contradiction (Hn j b Hj).
  - intros i j b Hi. contradiction (Hn i b Hi).
  - intros b v Hb. split; [apply HF, Hb|]. intros j. apply Hn.
Qed.

(** Closing the slots closes their buffers and no other, unless a close
    fails. *)
Lemma close_slots_spec l : forall d, live F l d ->
  let '(ok, d') := close_slots l d in
  (Reliable D -> ok = true) /\
  (ok = true -> (forall j b, l !! j = Some (Some b) -> g_bytes d' b = None) /\
    (forall b, (forall j, l !! j <> Some (Some b)) -> g_bytes d' b = g_bytes d b)).
Proof using.
  induction l as [|o l IH]; intros d Hl; cbn [close_slots]; [split; [auto|intros _; split; [intros j b Hj; discriminate Hj|auto]]|].
  assert (Htail : forall d', live F (o :: l) d' -> live F l d').
  { intros d' [H1 H2 H3]. split.
    - intros j b Hj. exact (H1 (S j) b Hj).
    - intros i j b Hi Hj. assert (S i = S j) by (eapply H2; eassumption). lia.
    - intros b v Hb. destruct (H3 b v Hb) as [K1 K2]. split; [exact K1|]. intros j. exact (K2 (S j)). }
  destruct o as [b|]; cbn [close_slot].
  2: { specialize (IH d (Htail d Hl)). destruct (close_slots l d) as [ok d']. destruct IH as [IH1 IH2]. cbn [andb]. split; [exact IH1|].
    intros Hok. destruct (IH2 Hok) as [K1 K2]. split; [intros [|j] b Hj; [discriminate Hj|eauto]|].
    intros b Hb. apply K2. intros j. exact (Hb (S j)). }
  destruct (lv_bytes _ _ _ Hl 0 b eq_refl) as [bs Hbs]. pose proof (fun R : Reliable D => r_close b d bs Hbs) as Hr.
  destruct (g_close b d) as [[|] d1] eqn:Ec.
  2: { destruct (close_slots l d1) as [ok d']. split; [intros R; discriminate (Hr R)|discriminate]. }
  destruct (g_close_ok b d d1 bs Hbs Ec) as [Hgone Hsame].
  assert (Hni : forall j, l !! j <> Some (Some b)).
  { intros j Hj. assert (0%nat = S j) as [=] by (eapply (lv_distinct _ _ _ Hl 0 (S j)); [reflexivity|exact Hj]). }
  assert (Hl1 : live F l d1).
  { destruct (Htail d Hl) as [H1 H2 H3]. split; [|exact H2|].
    - intros j x Hj. rewrite Hsame; [eauto|]. intros ->. exact (Hni j Hj).
    - intros x v Hx. destruct (H3 x v Hx) as [K1 K2]. split; [|exact K2]. rewrite Hsame; [exact K1|].
      intros ->. destruct (lv_frame _ _ _ Hl b v Hx) as [_ K]. exact (K 0%nat eq_refl). }
  specialize (IH d1 Hl1). destruct (close_slots l d1) as [ok d']. destruct IH as [IH1 IH2]. cbn [andb]. split; [exact IH1|].
  intros Hok. destruct (IH2 Hok) as [K1 K2]. split.
  - intros [|j] x Hj; [|eauto]. injection Hj as <-. rewrite K2 by exact Hni. exact Hgone.
  - intros x Hx. rewrite K2 by (intros j; exact (Hx (S j))). apply Hsame. intros ->. exact (Hx 0%nat eq_refl).
Qed.

Lemma set_Close_spec k s d : session_ok F k s d ->
  let '(r, (s', d')) := set_Close (s, d) in
  (forall j b, set_slots s' !! j <> Some (Some b)) /\
  match r with
  | GOk _ =>
      (forall j b, set_slots s !! j = Some (Some b) -> g_bytes d' b = None) /\
      (forall b, (forall j, set_slots s !! j <> Some (Some b)) -> g_bytes d' b = g_bytes d b) /\ session_ok F k s' d'
  | GFail f => f = DeviceError /\ ~ Reliable D
  | GPanic => False
  end.
Proof using.
  intros [Hlen Hl]. unfold set_Close. pose proof (close_slots_spec (set_slots s) d Hl) as K.
  change (Output s :: Inputs s) with (set_slots s). destruct (close_slots (set_slots s) d) as [ok d']. destruct K as [K1 K2].
  assert (Hn : forall j b, (None :: map (fun _ => None) (Inputs s) : list (option gbuf)) !! j <> Some (Some b)).
  { intros j b Hj. apply list_elem_of_lookup_2, list_elem_of_In in Hj as [Hj|Hj]; [discriminate Hj|].
    apply in_map_iff in Hj as (x & Hx & _). discriminate Hx. }
  split; [exact Hn|]. destruct ok.
  - destruct (K2 eq_refl) as [K3 K4]. split; [exact K3|]. split; [exact K4|]. split; [cbn; rewrite length_map; exact Hlen|]. split.
    + intros j b Hj. contradiction (Hn j b Hj).
    + intros i j b Hi. contradiction (Hn i b Hi).
    + intros b v Hb. destruct (lv_frame _ _ _ Hl b v Hb) as [F1 F2]. split; [|intros j; apply Hn]. rewrite K4 by exact F2. exact F1.
  - split; [reflexivity|]. intros R. discriminate (K1 R).
Qed.

(** A set with no buffer is closed already. *)
Lemma set_Close_again s d : (forall j b, set_slots s !! j <> Some (Some b)) -> set_Close (s, d) = (GOk tt, (s, d)).
Proof using.
  intros Hn. unfold set_Close.
  assert (Hc : forall l d, (forall j b, l !! j <> Some (Some b)) -> close_slots l d = (true, d)).
  { clear. induction l as [|[b|] l IH]; intros d Hl; cbn [close_slots close_slot]; [reflexivity| |].
    - contradiction (Hl 0%nat b eq_refl).
    - rewrite IH; [reflexivity|]. intros j. exact (Hl (S j)). }
  rewrite Hc by exact Hn. f_equal. f_equal. destruct s as [o ins bd st pu]. cbn [Inputs Output Bound Staging s_Push] in *.
  destruct o as [b|]; [contradiction (Hn 0%nat b eq_refl)|]. f_equal.
  assert (Hi : forall j b, ins !! j <> Some (Some b)) by (intros j; exact (Hn (S j))). clear - Hi.
  induction ins as [|[b|] ins IH]; [reflexivity|contradiction (Hi 0%nat b eq_refl)|]. cbn [map]. f_equal. apply IH. intros j. exact (Hi (S j)).
Qed.
End lifetime.
