(* ===== verification/Eval.v ===== *)
(** * The CPU evaluator (src/x/ndarray/eval.go)

    The evaluator keeps one tape per kernel pointer, so that a kernel is
    lowered once however often it is resized and run.  The file models the
    table and a bound program's [Eval], and proves that a tape taken from the
    table is the one lowering would give, and what [Eval] returns. *)
From Stdlib Require Import ZArith Lia.
From stdpp Require Import base numbers option list relations.
From S2P Require Import Prelude Float Alu Shape View Tracker Expr Rewrite Optimize Flatten Cpu Kernel.

Local Open Scope Z_scope.

(** ** State *)

(** A program bound to a kernel; programs are compared by pointer, here
    [e_id]. *)
Record cpuExec : Type := mkExec { e_id : nat; e_kernel : nat; e_tape : cpuProgram }.

(** Kernels are shared by pointer and mutated by [Resize]; [w_bound] is the
    evaluator's table, [w_next] the next program pointer. *)
Record world : Type := mkWorld {
  w_heap : heap;
  w_kernels : list Kernel;
  w_bound : list (nat * cpuExec);
  w_next : nat
}.

(** What the runtime brings: processors, started workers, scratch memory. *)
Record runtime : Type := mkRuntime {
  gomaxprocs : Z;
  ready : Z;
  pool : cpuScratch;
  pools : nat -> cpuScratch
}.

(** ** Operations *)

(** [Program]: a nil kernel is ErrOp. *)
Definition Program (kernel : option nat) (w : world) : res cpuExec * world :=
  match kernel with
  | None => (Err ErrOp, w)
  | Some kp =>
      match w_kernels w !! kp with
      | None => (Err ErrOp, w)
      | Some k =>
          match assoc_get (w_bound w) kp with
          | Some e => (Ok e, w)
          | None =>
              match lowerCPU (h_nodes (w_heap w)) (k_order k) (k_bufs k) (k_built k) with
              | Err err => (Err err, w)
              | Ok tape =>
                  let e := mkExec (w_next w) kp tape in
                  (Ok e, mkWorld (w_heap w) (w_kernels w) ((kp, e) :: w_bound w) (S (w_next w)))
              end
          end
      end
  end.

(** [Close] of a program drops the table's entry if it is this program, and
    [Close] of the evaluator drops them all. *)
Definition bound_is (w : world) (e : cpuExec) : bool :=
  match assoc_get (w_bound w) (e_kernel e) with Some e' => (e_id e' =? e_id e)%nat | None => false end.

Definition exec_Close (e : cpuExec) (w : world) : world :=
  if bound_is w e then
    mkWorld (w_heap w) (w_kernels w) (filter (fun '(kp, _) => kp <> e_kernel e) (w_bound w)) (w_next w)
  else w.

Definition evaluator_Close (w : world) : world := mkWorld (w_heap w) (w_kernels w) [] (w_next w).

Section eval.
Context {E : FloatEnv}.

(** [Eval] of a program, as a relation: workers may interleave. *)
Definition exec_Eval (rt : runtime) (w : world) (e : cpuExec) (output : list Z) (r : res (list Z)) : Prop :=
  match w_kernels w !! e_kernel e with
  | None => r = Err ErrOp
  | Some k =>
      if Z.of_nat (length output) <? k_size k * dtype_size (k_outType k) then r = Err ErrSize
      else if k_size k =? 0 then r = Ok output
      else exists output',
        runCPU (h_bufs (w_heap w)) (job_of (h_nodes (w_heap w)) (e_tape e) k) (gomaxprocs rt) (ready rt)
          (pool rt) (pools rt) output output' /\ r = Ok output'
  end.
End eval.

(** ** The table is a cache *)

(** Every bound tape is the one its kernel lowers to. *)
Definition bound_ok (w : world) : Prop := forall kp e, assoc_get (w_bound w) kp = Some e ->
  e_kernel e = kp /\ (e_id e < w_next w)%nat /\
  exists k, w_kernels w !! kp = Some k /\
    lowerCPU (h_nodes (w_heap w)) (k_order k) (k_bufs k) (k_built k) = Ok (e_tape e).

(** Whether the kernel is bound already makes no difference to the tape. *)
Lemma Program_spec w kp k : bound_ok w -> w_kernels w !! kp = Some k ->
  let '(r, w') := Program (Some kp) w in
  match lowerCPU (h_nodes (w_heap w)) (k_order k) (k_bufs k) (k_built k) with
  | Err err => r = Err err /\ w' = w
  | Ok tape => exists e, r = Ok e /\ e_kernel e = kp /\ e_tape e = tape /\ assoc_get (w_bound w') kp = Some e
  end /\
  bound_ok w' /\ w_heap w' = w_heap w /\ w_kernels w' = w_kernels w.
Proof.
  intros Hb Hk. unfold Program. rewrite Hk. destruct (assoc_get (w_bound w) kp) as [e|] eqn:Ea.
  - destruct (Hb kp e Ea) as (Ek & _ & k' & Hk' & Ht). assert (k' = k) as -> by congruence. rewrite Ht.
    split; [exists e; auto|auto].
  - destruct (lowerCPU _ _ _ _) as [tape|err] eqn:El; [|auto].
    split; [eexists; split; [reflexivity|]; cbn; rewrite bool_decide_true by reflexivity; auto|]. split; [|auto].
    intros kp' e'. cbn [w_bound assoc_get w_next w_kernels w_heap]. case_bool_decide as Ek.
    + subst kp'. intros [= <-]. split; [reflexivity|]. split; [cbn; lia|eauto].
    + intros He'. destruct (Hb kp' e' He') as (H1 & H2 & H3). split; [exact H1|]. split; [lia|exact H3].
Qed.

Lemma assoc_get_filter_none {A} (l : list (nat * A)) key :
  assoc_get (filter (fun '(k, _) => k <> key) l) key = None.
Proof.
  induction l as [|[k a] l IH]; [reflexivity|]. rewrite filter_cons. case_decide as Hk; [|exact IH].
  cbn [assoc_get]. rewrite bool_decide_false by exact Hk. exact IH.
Qed.

Lemma assoc_get_filter_other {A} (l : list (nat * A)) key key' : key' <> key ->
  assoc_get (filter (fun '(k, _) => k <> key) l) key' = assoc_get l key'.
Proof.
  intros Hne. induction l as [|[k a] l IH]; [reflexivity|]. rewrite filter_cons. cbn [assoc_get].
  case_decide as Hk.
  - cbn [assoc_get]. rewrite IH. reflexivity.
  - assert (k = key) as -> by (destruct (decide (k = key)); [assumption|contradiction]).
    rewrite bool_decide_false by congruence. exact IH.
Qed.

(** Closing a program drops its own entry and no other. *)
Lemma exec_Close_spec e w : bound_ok w ->
  bound_ok (exec_Close e w) /\
  (bound_is w e = true -> assoc_get (w_bound (exec_Close e w)) (e_kernel e) = None) /\
  (bound_is w e = false -> exec_Close e w = w) /\
  forall kp, kp <> e_kernel e -> assoc_get (w_bound (exec_Close e w)) kp = assoc_get (w_bound w) kp.
Proof.
  intros Hb. unfold exec_Close. destruct (bound_is w e) eqn:Ei; [|split; [exact Hb|split; [discriminate|auto]]].
  cbn [w_bound]. split; [|split; [intros _; apply assoc_get_filter_none|split; [discriminate|intros; apply assoc_get_filter_other; assumption]]].
  intros kp e' Ha. cbn [w_bound w_kernels w_heap w_next] in *. apply Hb.
  destruct (decide (kp = e_kernel e)) as [->|Hne]; [rewrite assoc_get_filter_none in Ha; discriminate Ha|].
  rewrite assoc_get_filter_other in Ha by exact Hne. exact Ha.
Qed.
