(* ===== verification/Tensor.v ===== *)
(** * Tensors (src/x/ndarray/tensor.go)

    A [Tensor] is a pointer to a graph node with, once compiled, a kernel.
    The file models construction, the movement operations, the arithmetic
    wrappers, and evaluation with its copying fast path.  It proves that a
    movement of a tensor reads the old tensor at the moved coordinates, that
    construction and movement keep the heap well formed, and that evaluating
    a tensor writes the values it denotes. *)
From Stdlib Require Import ZArith Lia.
From stdpp Require Import base numbers option list relations.
From S2P Require Import Prelude Float Alu Shape View Reshape Tracker Expr Rewrite Optimize Flatten Cpu Kernel Eval.

Local Open Scope Z_scope.

(** ** Data *)

(** The element type is a parameter of the operations that use it. *)
Record tensor : Type := mkTensor { tn_node : option nat; tn_kernel : option nat }.

Definition wrap (r : nat * heap) : tensor * heap := (mkTensor (Some (fst r)) None, snd r).

Definition tensor_err (ns : list node) (t : option tensor) : option err :=
  match t with
  | None => Some ErrOp
  | Some t => match tn_node t with None => Some ErrOp | Some l => n_err (get ns l) end
  end.

(** The bytes of a slice of numbers, given by their words. *)
Definition elem_bytes (d : DType) (w : Z) : list Z :=
  match d with U8 => [w mod 256] | _ => le_bytes w end.
Definition asBytes (d : DType) (data : list Z) : list Z := concat (map (elem_bytes d) data).

Definition fromBytes (d : DType) (bytes : list Z) : list Z :=
  map (word (mkBuffer bytes d)) (seqZ 0 (cells (mkBuffer bytes d))).

(** ** Construction *)

Definition alloc_buf (b : buffer) (h : heap) : nat * heap :=
  (length (h_bufs h), mkHeap (h_nodes h) (h_bufs h ++ [b]) (h_splats h)).

Definition Const (v : Number) (h : heap) : tensor * heap := wrap (splat v h).

Definition Coord (axis : Z) (shape : option Shape) (h : heap) : tensor * heap := wrap (coord axis shape h).

Definition New (d : DType) (data : list Z) (shape : option Shape) (h : heap) : res tensor * heap :=
  match Of shape with
  | Err e => (Err e, h)
  | Ok tracker =>
      if negb (Z.of_nat (length data) =? t_Size tracker) then (Err ErrSize, h) else
      let '(b, h) := alloc_buf (mkBuffer (asBytes d data) d) h in
      let '(t, h) := wrap (input (Some b) tracker d h) in
      (Ok t, h)
  end.

Definition Full (v : Number) (shape : option Shape) (h : heap) : res tensor * heap :=
  match Of shape with
  | Err e => (Err e, h)
  | Ok tracker => let '(t, h) := wrap (filled v tracker h) in (Ok t, h)
  end.

Definition number_of (d : DType) (v : Z) : Number :=
  match d with F32 => NumF32 v | U8 => NumU8 v | _ => NumI32 v end.

Definition Zeros (d : DType) : option Shape -> heap -> res tensor * heap := Full (number_of d 0).

Definition Ones (d : DType) : option Shape -> heap -> res tensor * heap :=
  Full (match d with F32 => NumF32 float_one | _ => number_of d 1 end).

(** -inf, min int32, or 0 *)
Definition Lowest (d : DType) : Number :=
  match d with
  | F32 => NumF32 4286578688
  | I32 => NumI32 (- two31)
  | _ => number_of d 0
  end.

(** ** Reading a tensor *)

(** [kernels] is the store of kernels, for a compiled tensor. *)
Definition kernel_of (kernels : list Kernel) (t : tensor) : option Kernel :=
  tn_kernel t ≫= (fun kp => kernels !! kp).

Definition tensor_Shape (ns : list node) (kernels : list Kernel) (t : option tensor) : option Shape :=
  match t with
  | None => None
  | Some t =>
      match tn_kernel t with
      | Some _ => option_map k_shape (kernel_of kernels t)
      | None => match tn_node t with None => None | Some l => nShape ns l end
      end
  end.

Definition tensor_Size (ns : list node) (kernels : list Kernel) (t : option tensor) : Z :=
  match t with
  | None => 0
  | Some t' =>
      match tn_kernel t' with
      | Some _ => match kernel_of kernels t' with Some k => k_size k | None => 0 end
      | None => match tensor_Shape ns kernels t with None => 0 | Some s => Size s end
      end
  end.

(** [Data] and [Buffer]: the words of a leaf's storage. *)
Definition leaf_buffer (h : heap) (n : node) : option buffer := n_buf n ≫= (fun b => h_bufs h !! b).

Definition Data (d : DType) (h : heap) (t : option tensor) : res (list Z) :=
  match t ≫= tn_node with
  | None => Err ErrOp
  | Some l =>
      let n := get (h_nodes h) l in
      match leaf_buffer h n with
      | Some b =>
          if negb (is_kind kindInput n) || negb (Contiguous (n_tracker n)) then Err ErrOp
          else if negb (bool_decide (n_dtype n = d)) then Err ErrType
          else Ok (fromBytes d (raw b))
      | None => Err ErrOp
      end
  end.

Definition Buffer (d : DType) (h : heap) (t : option tensor) : list Z :=
  match t ≫= tn_node with
  | None => []
  | Some l =>
      let n := get (h_nodes h) l in
      match leaf_buffer h n with
      | Some b => if negb (bool_decide (n_dtype n = d)) then [] else fromBytes d (raw b)
      | None => []
      end
  end.

(** [EnsureCells] grows the storage in place, with zeros. *)
Definition EnsureCells (d : DType) (n : Z) (h : heap) (t : option tensor) : res unit * heap :=
  match t ≫= tn_node with
  | None => (Err ErrOp, h)
  | Some l =>
      let nd := get (h_nodes h) l in
      match n_buf nd with
      | Some bp =>
          match h_bufs h !! bp with
          | Some b =>
              if negb (is_kind kindInput nd) then (Err ErrOp, h)
              else if negb (bool_decide (n_dtype nd = d)) then (Err ErrType, h)
              else if n <? 0 then (Err ErrSize, h)
              else
                let need := n * dtype_size (n_dtype nd) in
                if need <=? Z.of_nat (length (raw b)) then (Ok tt, h)
                else
                  let grown := raw b ++ repeat 0 (Z.to_nat need - length (raw b)) in
                  (Ok tt, mkHeap (h_nodes h) (<[bp := mkBuffer grown (buf_dtype b)]> (h_bufs h)) (h_splats h))
          | None => (Err ErrOp, h)
          end
      | None => (Err ErrOp, h)
      end
  end.

(** ** Movement *)

Definition withTracker (l : nat) (tr : Tracker) (h : heap) : tensor * heap :=
  wrap (alloc (set_tracker (get (h_nodes h) l) tr (n_origin (get (h_nodes h) l))) h).

(** An operation without a tracker gets that of its shape. *)
Definition ensureTracker (kernels : list Kernel) (t : option tensor) (h : heap) : res tensor * heap :=
  match tensor_err (h_nodes h) t with
  | Some e => (Err e, h)
  | None =>
      match t with
      | None => (Err ErrOp, h)
      | Some t' =>
          match tn_node t' with
          | None => (Err ErrOp, h)
          | Some l =>
              let n := get (h_nodes h) l in
              if negb (is_kind kindOp n) || negb (is_err (t_check (n_tracker n))) then (Ok t', h) else
              let shape := tensor_Shape (h_nodes h) kernels t in
              match Of shape with
              | Err e => (Err e, h)
              | Ok base => let '(t', h) := wrap (alloc (set_tracker n base shape) h) in (Ok t', h)
              end
          end
      end
  end.

(** [view] of a tensor whose [err] is nil. *)
Definition view_with (l : nat) (r : res Tracker) (h : heap) : res tensor * heap :=
  match n_err (get (h_nodes h) l), r with
  | Some e, _ | None, Err e => (Err e, h)
  | None, Ok tr => let '(t, h) := withTracker l tr h in (Ok t, h)
  end.

Definition viewTrack (kernels : list Kernel) (op : Tracker -> res Tracker) (t : option tensor) (h : heap)
    : res tensor * heap :=
  let '(r, h) := ensureTracker kernels t h in
  match r with
  | Err e => (Err e, h)
  | Ok t =>
      match tn_node t with
      | None => (Err ErrOp, h)
      | Some l => view_with l (op (n_tracker (get (h_nodes h) l))) h
      end
  end.

(** [Reshape], [Permute], [Expand], [Pad], [Shrink], [Flip] and [Splat]. *)
Definition tensor_move (kernels : list Kernel) (m : move) (t : option tensor) (h : heap) : res tensor * heap :=
  match t, m with
  | None, _ => (Err ErrOp, h)
  | Some t', MReshape shape =>
      if Equal (opt_list (tensor_Shape (h_nodes h) kernels t)) shape then (Ok t', h)
      else viewTrack kernels (fun tr => apply_move tr m) t h
  | Some t', MSplat =>
      match tn_node t' with
      | None => (Err ErrOp, h)
      | Some l => view_with l (apply_move (n_tracker (get (h_nodes h) l)) m) h
      end
  | Some _, _ => viewTrack kernels (fun tr => apply_move tr m) t h
  end.

(** ** Arithmetic *)

Definition tensor_unary (op : option nat -> M nat) (t : option tensor) (h : heap) : tensor * heap :=
  match t with None => wrap (failed ErrOp h) | Some t => wrap (op (tn_node t) h) end.

(** [bin] and [cmp] *)
Definition tensor_bin (op : option nat -> option nat -> M nat) (t o : option tensor) (h : heap) : tensor * heap :=
  match t, o with
  | Some t, Some o => wrap (op (tn_node t) (tn_node o) h)
  | _, _ => wrap (failed ErrOp h)
  end.

Definition tensor_Where (t a b : option tensor) (h : heap) : tensor * heap :=
  match t, a, b with
  | Some t, Some a, Some b => wrap (whereNode (tn_node t) (tn_node a) (tn_node b) h)
  | _, _, _ => wrap (failed ErrOp h)
  end.

Definition tensor_MultiplyAccumulate (t b c : option tensor) (h : heap) : tensor * heap :=
  match t, b, c with
  | Some t, Some b, Some c => wrap (multiplyAccumulateNode (tn_node t) (tn_node b) (tn_node c) h)
  | _, _, _ => wrap (failed ErrOp h)
  end.

Definition tensor_Cast (t : option tensor) (dtype : DType) (h : heap) : tensor * heap :=
  tensor_unary (fun a => castNode a dtype) t h.

Definition tensor_Add := tensor_bin nAdd.
Definition tensor_Mul := tensor_bin nMul.
Definition tensor_IDiv := tensor_bin nIDiv.
Definition tensor_Max := tensor_bin nMax.
Definition tensor_Mod := tensor_bin nMod.
Definition tensor_CmpLt := tensor_bin nCmpLt.
Definition tensor_CmpNe := tensor_bin nCmpNe.
Definition tensor_Xor := tensor_bin nXor.
Definition tensor_Shl := tensor_bin nShl.
Definition tensor_Shr := tensor_bin nShr.
Definition tensor_Or := tensor_bin nOr.
Definition tensor_And := tensor_bin nAnd.
Definition tensor_Div := tensor_bin nDiv.

Definition DivNumber (d : DType) : option tensor -> option tensor -> heap -> tensor * heap :=
  match d with F32 => tensor_Div | _ => tensor_IDiv end.

Definition tensor_Equal := tensor_bin nEqual.
Definition tensor_GreaterEqual := tensor_bin nGreaterEqual.
Definition tensor_Exp2 := tensor_unary nExp2.
Definition tensor_Log2 := tensor_unary nLog2.
Definition tensor_Sin := tensor_unary nSin.
Definition tensor_Sqrt := tensor_unary nSqrt.
Definition tensor_Reciprocal := tensor_unary nRecip.
Definition tensor_Neg := tensor_unary nNeg.

(** [Rand]: [r] is the reader, nil or the bytes that [io.ReadFull] gives for a
    length ([None] when it fails; that error is returned as it is). *)
Definition rand_scale : Z := 805306368. (* float32(1.0 / (1 << 31)) *)

Definition Rand (d : DType) (r : option (Z -> option (list Z))) (shape : option Shape) (h : heap)
    : option (res tensor) * heap :=
  match Of shape with
  | Err e => (Some (Err e), h)
  | Ok tracker =>
      match r with
      | None => (Some (Err ErrOp), h)
      | Some read =>
          let n := t_Size tracker in
          match d with
          | U8 =>
              match read n with
              | None => (None, h)
              | Some data => let '(t, h) := New U8 data shape h in (Some t, h)
              end
          | _ =>
              match read (n * 4) with
              | None => (None, h)
              | Some raw =>
                  let '(src, h) := New I32 (fromBytes I32 raw) shape h in
                  match src with
                  | Err e => (Some (Err e), h)
                  | Ok src =>
                      let '(one, h) := Const (NumI32 1) h in
                      let '(shifted, h) := tensor_Shr (Some src) (Some one) h in
                      match d with
                      | I32 => (Some (Ok shifted), h)
                      | F32 =>
                          let '(f, h) := tensor_Cast (Some shifted) F32 h in
                          let '(scale, h) := Const (NumF32 rand_scale) h in
                          let '(out, h) := tensor_Mul (Some f) (Some scale) h in
                          (Some (Ok out), h)
                      | _ => (Some (Err ErrType), h)
                      end
                  end
              end
          end
      end
  end.

(** [PadRank] (shape.go) prefixes axes of length 1. *)
Definition PadRank (kernels : list Kernel) (t : option tensor) (rank : Z) (h : heap) : res (option tensor) * heap :=
  let shape := opt_list (tensor_Shape (h_nodes h) kernels t) in
  if Rank shape =? rank then (Ok t, h)
  else if rank <? Rank shape then (Err ErrShape, h)
  else
    let '(r, h) := tensor_move kernels (MReshape (repeat 1 (Z.to_nat (rank - Rank shape)) ++ shape)) t h in
    (res_map Some r, h).

(** ** Evaluation *)

Section evaluation.
Context {E : FloatEnv}.

(** [ensure] compiles once; the outcome is that of enough fuel. *)
Definition ensure (t : tensor) (w : world) (r : res tensor * world) : Prop :=
  match tn_kernel t with
  | Some _ => r = (Ok t, w)
  | None =>
      exists k h', gives (fun fuel => compile fuel (tn_node t) (w_heap w)) (k, h') /\
        let w' := mkWorld h' (w_kernels w) (w_bound w) (w_next w) in
        match k with
        | Err e => r = (Err e, w')
        | Ok k => r = (Ok (mkTensor (tn_node t) (Some (length (w_kernels w)))),
                       mkWorld h' (w_kernels w ++ [k]) (w_bound w) (w_next w))
        end
  end.

(** [Resize] of a tensor; the kernel stays with the tensor when only its
    own [Resize] fails. *)
Definition tensor_Resize (t : option tensor) (shape : Shape) (w : world)
    (r : res unit * (option tensor * world)) : Prop :=
  match tensor_err (h_nodes (w_heap w)) t, t with
  | Some e, _ => r = (Err e, (t, w))
  | None, None => r = (Err ErrOp, (t, w))
  | None, Some t0 =>
      exists rt w', ensure t0 w (rt, w') /\
        match rt with
        | Err e => r = (Err e, (t, w'))
        | Ok t' =>
            match tn_kernel t' ≫= (fun kp => option_map (pair kp) (w_kernels w' !! kp)) with
            | None => r = (Err ErrShape, (Some t', w'))
            | Some (kp, k) =>
                match Resize (Some k) shape with
                | Err e => r = (Err e, (Some t', w'))
                | Ok k' => r = (Ok tt, (Some t', mkWorld (w_heap w') (<[kp := k']> (w_kernels w')) (w_bound w') (w_next w')))
                end
            end
        end
  end.

Definition tensor_Close (t : tensor) : tensor := mkTensor (tn_node t) None.

(** The bytes that the fast path of [realize] copies; [None] when it does
    not apply. *)
Definition fast_source (d : DType) (h : heap) (l : nat) : option (list Z) :=
  let n := get (h_nodes h) l in
  if is_kind kindInput n && Contiguous (n_tracker n) && bool_decide (n_dtype n = d)
  then option_map raw (leaf_buffer h n) else None.

(** [realize] after the fast path: compile, bind, run on the first [need]
    bytes of the destination. *)
Definition realize_slow (rt : runtime) (t : tensor) (w : world) (dest : list Z) (r : res (list Z) * (tensor * world)) : Prop :=
  exists rk w1, ensure t w (rk, w1) /\
    match rk with
    | Err e => r = (Err e, (t, w1))
    | Ok t' =>
        match kernel_of (w_kernels w1) t' with
        | None => r = (Err ErrOp, (t', w1))
        | Some k =>
            let need := k_size k * dtype_size (k_outType k) in
            if Z.of_nat (length dest) <? need then r = (Err ErrSize, (t', w1)) else
            let '(rp, w2) := Program (tn_kernel t') w1 in
            match rp with
            | Err e => r = (Err e, (t', w2))
            | Ok e =>
                exists ro, exec_Eval rt w2 e (take (Z.to_nat need) dest) ro /\
                  r = (res_map (fun out => out ++ drop (Z.to_nat need) dest) ro, (t', w2))
            end
        end
    end.

Definition realize (rt : runtime) (d : DType) (t : option tensor) (w : world) (dest : list Z)
    (r : res (list Z) * (option tensor * world)) : Prop :=
  match tensor_err (h_nodes (w_heap w)) t, t with
  | Some e, _ => r = (Err e, (t, w))
  | None, None => r = (Err ErrOp, (t, w))
  | None, Some t' =>
      let slow := exists r', realize_slow rt t' w dest r' /\ r = (fst r', (Some (fst (snd r')), snd (snd r'))) in
      match tn_node t' ≫= fast_source d (w_heap w) with
      | None => slow
      | Some bytes =>
          let need := tensor_Size (h_nodes (w_heap w)) (w_kernels w) t
                      * dtype_size (n_dtype (get (h_nodes (w_heap w)) (default 0%nat (tn_node t')))) in
          if Z.of_nat (length dest) <? need then r = (Err ErrSize, (t, w))
          else if negb (v_offset (t_last (n_tracker (get (h_nodes (w_heap w)) (default 0%nat (tn_node t'))))) =? 0)
                  || (Z.of_nat (length bytes) <? need)
          then slow
          else r = (Ok (take (Z.to_nat need) bytes ++ drop (Z.to_nat need) dest), (t, w))
      end
  end.
End evaluation.

(** ** What a movement means

    [move_map dims m]: the new shape, and where each new cell is read; [None]
    is padding. *)
Definition move_map (dims : Shape) (m : move) : res (Shape * (list Z -> option (list Z))) :=
  let rank := length dims in
  match m with
  | MReshape shape =>
      let? s := Infer shape (Size dims) in
      Ok (s, fun c => Some (unravel dims (ravel s c)))
  | MPermute axes =>
      let norm := map (wrap_axis rank) axes in
      if negb (bool_decide (Permutation norm (seqZ 0 (Z.of_nat rank)))) then Err ErrAxis else
      Ok (permute_coords norm dims, fun c => Some (unpermute_coords norm c))
  | MExpand s =>
      if negb (bool_decide (Forall2 (fun d e => d = e \/ d = 1) dims s)) then Err ErrExpand else
      if negb (bool_decide (nonneg s)) then Err ErrShape else
      Ok (s, fun c => Some (expand_coords dims c))
  | MPad arg =>
      if negb (bool_decide (length arg = rank)) then Err ErrPad else
      if negb (bool_decide (pad_valid arg)) then Err ErrPad else
      Ok (padded arg dims, fun c => if mask_ok (pad_mask arg dims) c then Some (pad_coords arg c) else None)
  | MShrink arg =>
      if negb (bool_decide (Forall2 (fun p d => 0 <= fst p <= snd p /\ snd p <= d) arg dims)) then Err ErrShrink else
      Ok (extents arg, fun c => Some (shift_coords arg c))
  | MFlip axes =>
      let norm := map (wrap_axis rank) axes in
      if negb (axes_in_range rank norm) then Err ErrAxis else
      Ok (dims, fun c => Some (flip_coords (flipped rank norm) dims c))
  | MSplat =>
      if negb (Size dims =? 1) then Err ErrShape else Ok ([], fun _ => Some (unravel dims 0))
  end.

Lemma spec_move_map a m : m <> MSplat ->
  spec_move a m = let? (s, f) := move_map (a_dims a) m in Ok (remap a s f).
Proof.
  intros Hm. destruct m; try contradiction; cbn [spec_move move_map].
  - destruct (Infer _ _); reflexivity.
  - destruct (negb _); reflexivity.
  - destruct (negb _); [reflexivity|]. destruct (negb _); reflexivity.
  - destruct (negb _); [reflexivity|]. destruct (negb _); reflexivity.
  - destruct (negb _); reflexivity.
  - destruct (negb _); reflexivity.
Qed.

(** A movement reads cells of the old shape. *)
Lemma move_map_in_bounds dims m s f c c0 : nonneg dims -> move_map dims m = Ok (s, f) -> in_bounds s c ->
  f c = Some c0 -> in_bounds dims c0.
Proof.
  intros Hn Hm Hc Hf. destruct m; cbn [move_map] in Hm.
  - apply res_bind_ok in Hm as (s' & Hi & Hm). injection Hm as <- <-. injection Hf as <-.
    apply Infer_ok in Hi as (_ & _ & Hs); [|apply Size_nonneg, Hn]. pose proof (ravel_bounds _ _ Hc).
    apply unravel_in_bounds; [|lia]. apply positive_of_nonempty; [exact Hn|lia].
  - destruct (negb _) eqn:Eb; [discriminate Hm|]. apply negb_false_iff, bool_decide_eq_true in Eb.
    injection Hm as <- <-. injection Hf as <-. eapply permute_unpermute; eauto.
  - destruct (negb _) eqn:Eb; [discriminate Hm|]. apply negb_false_iff, bool_decide_eq_true in Eb.
    destruct (negb _); [discriminate Hm|]. injection Hm as <- <-. injection Hf as <-. eapply expand_coords_in_bounds; eauto.
  - destruct (negb _) eqn:Eb; [discriminate Hm|]. apply negb_false_iff, bool_decide_eq_true in Eb.
    destruct (negb _); [discriminate Hm|]. injection Hm as <- <-. destruct (mask_ok _ c) eqn:Em; [|discriminate Hf].
    injection Hf as <-. apply pad_coords_in_bounds; [exact Eb| |exact Em].
    rewrite (in_bounds_length _ _ Hc). unfold padded. rewrite length_zip_with. lia.
  - destruct (negb _) eqn:Eb; [discriminate Hm|]. apply negb_false_iff, bool_decide_eq_true in Eb.
    injection Hm as <- <-. injection Hf as <-. apply shrink_coords_in_bounds; assumption.
  - destruct (negb _); [discriminate Hm|]. injection Hm as <- <-. injection Hf as <-. apply flip_coords_in_bounds, Hc.
  - destruct (Z.eqb_spec (Size dims) 1); [|discriminate Hm]. injection Hm as <- <-. injection Hf as <-.
    apply unravel_in_bounds; [|lia]. apply positive_of_nonempty; [exact Hn|lia].
Qed.

(** A tracker after a movement: where each cell is, and when it fails. *)
Lemma apply_move_locate n t m : wf n t -> nil_ok t ->
  match apply_move t m with
  | Ok t' =>
      wf n t' /\ nil_ok t' /\ exists s f, move_map (t_dims t) m = Ok (s, f) /\ t_dims t' = s /\
        forall c, in_bounds s c -> t_locate t' c = match f c with Some c0 => t_locate t c0 | None => None end
  | Err e => move_map (t_dims t) m = Err e \/
      (m = MSplat /\ e = ErrIndex /\ Size (t_dims t) = 1 /\ t_locate t (unravel (t_dims t) 0) = None)
  end.
Proof.
  intros Hw Hn. set (a := mkAmap (t_dims t) (t_locate t)).
  assert (Ha : implements n t a) by (split; [exact Hw|split; reflexivity]).
  pose proof (move_agrees n t a m Ha) as K. pose proof (move_nil_ok t m) as Kn.
  assert (Hm : m = MSplat \/ m <> MSplat) by (destruct m; auto; right; discriminate). destruct Hm as [->|Hm].
  - cbn [spec_move a a_dims a_cell] in K. cbn [move_map]. destruct (Z.eqb_spec (Size (t_dims t)) 1) as [E1|E1]; cbn [negb] in *.
    + destruct (t_locate t (unravel (t_dims t) 0)) as [off|] eqn:El.
      * destruct (apply_move t MSplat) as [t'|e] eqn:Et; [|contradiction K]. destruct K as (K1 & K2 & K3). cbn in K2, K3.
        split; [exact K1|]. split; [apply (Kn t' Hn eq_refl)|]. do 2 eexists. split; [reflexivity|]. split; [exact K2|].
        intros c Hc. rewrite El. apply K3, Hc.
      * destruct (apply_move t MSplat) as [t'|e] eqn:Et; [contradiction K|]. cbn in K. subst e. right. auto.
    + destruct (apply_move t MSplat) as [t'|e] eqn:Et; [contradiction K|]. cbn in K. subst e. left. reflexivity.
  - rewrite spec_move_map in K by exact Hm. cbn [a a_dims] in K.
    destruct (move_map (t_dims t) m) as [[s f]|e'] eqn:Em; cbn [res_bind] in K.
    + destruct (apply_move t m) as [t'|e] eqn:Et; [|contradiction K]. destruct K as (K1 & K2 & K3).
      split; [exact K1|]. split; [apply (Kn t' Hn eq_refl)|]. exists s, f. split; [reflexivity|]. split; [exact K2|].
      exact K3.
    + destruct (apply_move t m) as [t'|e] eqn:Et; [contradiction K|]. cbn in K. subst e. left. reflexivity.
Qed.

(** Only a nil shape makes a nil shape. *)
Lemma apply_move_nil t m t' : t_nil t = false -> apply_move t m = Ok t' -> t_nil t' = false.
Proof.
  intros Hn H. assert (Hmap : forall fn, mapView t fn false = Ok t' -> t_nil t' = false).
  { intros fn K. unfold mapView in K. apply res_bind_ok in K as ([] & _ & K).
    apply res_bind_ok in K as (v & _ & [= <-]). reflexivity. }
  destruct m; cbn [apply_move] in H; try (apply (Hmap _ H)).
  - unfold t_Reshape in H. apply res_bind_ok in H as ([] & _ & H). apply res_bind_ok in H as (s & _ & H).
    destruct (reshape (t_last t) s); [discriminate H| |].
    + apply res_bind_ok in H as (v & _ & [= <-]). reflexivity.
    + injection H as <-. cbn. rewrite Hn. reflexivity.
  - unfold t_Permute in H. apply res_bind_ok in H as ([] & _ & H). apply res_bind_ok in H as (x & _ & H).
    apply res_bind_ok in H as (v & _ & [= <-]). reflexivity.
  - unfold t_Pad in H. rewrite Hn in H. apply (Hmap _ H).
  - unfold t_Flip in H. apply res_bind_ok in H as ([] & _ & H). destruct axes; [injection H as <-; exact Hn|].
    apply res_bind_ok in H as (x & _ & H). apply res_bind_ok in H as (v & _ & [= <-]). exact Hn.
  - unfold t_Splat in H. apply res_bind_ok in H as ([] & _ & H). destruct (negb _); [discriminate H|].
    apply res_bind_ok in H as ([off ok] & _ & H). destruct (negb ok); [discriminate H|].
    apply res_bind_ok in H as (v & _ & [= <-]). reflexivity.
Qed.

Lemma ext_lookup h h' l n : ext h h' -> h_nodes h !! l = Some n -> h_nodes h' !! l = Some n.
Proof. intros [[more ->] _] H. apply lookup_app_l_Some, H. Qed.

Section movement.
Context {E : FloatEnv}.

(** *** A node with another tracker *)

Lemma node_den_located ns bufs g n tr c : t_views (n_tracker n) <> [] -> t_views tr <> [] ->
  forall c0, t_locate tr c = t_locate (n_tracker n) c0 ->
  node_den ns bufs g (set_tracker n tr (n_origin n)) c = node_den ns bufs g n c0.
Proof using.
  intros Hn Ht c0 Hl. unfold node_den. cbn [n_kind set_tracker n_tracker n_bits n_buf n_slot n_origin]. rewrite Hl.
  destruct (t_views (n_tracker n)); [contradiction|]. destruct (t_views tr); [contradiction|].
  destruct (n_kind n); reflexivity.
Qed.

Lemma node_den_padding ns bufs g n c : t_views (n_tracker n) <> [] -> t_locate (n_tracker n) c = None ->
  node_den ns bufs g n c = 0.
Proof using.
  intros Hn Hl. unfold node_den. rewrite Hl. destruct (t_views (n_tracker n)); [contradiction|].
  destruct (n_kind n); reflexivity.
Qed.

Lemma node_shape_dims g n : n_err n = None -> nil_ok (n_tracker n) -> t_views (n_tracker n) <> [] ->
  opt_list (node_shape g n) = t_dims (n_tracker n).
Proof using.
  intros He Hn Hv. assert (Hs : opt_list (t_Shape (n_tracker n)) = t_dims (n_tracker n)).
  { unfold t_Shape. destruct (t_views (n_tracker n)); [contradiction|]. destruct (t_nil (n_tracker n)) eqn:Et; [|reflexivity].
    symmetry. apply Hn, Et. }
  unfold node_shape. rewrite He. destruct (n_kind n); [destruct (t_views _); [contradiction|exact Hs]| |exact Hs|
    destruct (t_views _); [contradiction|exact Hs]].
  rewrite <- Hs. destruct (t_Shape (n_tracker n)) as [[|]|]; reflexivity.
Qed.

(** The buffer size a node's tracker is well formed for. *)
Definition tracker_ok (n : node) (tr : Tracker) : Prop :=
  nil_ok tr /\
  match n_kind n with
  | kindConst | kindInput => exists m, wf m tr
  | kindCoord => wf (Size (opt_list (n_origin n))) tr
  | kindOp => wf (Size (opt_list (n_origin n))) tr /\ (n_origin n <> None -> t_nil tr = false)
  end.

(** Nodes that a movement may change: those with a tracker. *)
Lemma tracked h l n : heap_ok h -> h_nodes h !! l = Some n -> n_err n = None -> t_views (n_tracker n) <> [] ->
  tracker_ok n (n_tracker n).
Proof using.
  intros H Hn He Hv. pose proof (heap_nodes h H l n Hn) as K. unfold node_ok in K. rewrite He in K.
  destruct K as (_ & _ & Hnil & K). split; [exact Hnil|]. destruct (n_kind n).
  - destruct K as (_ & _ & [?|?]); [contradiction|assumption].
  - apply K.
  - apply K.
  - destruct K as (_ & _ & _ & _ & [?|(Hw & _ & Hni)]); [contradiction|]. split; assumption.
Qed.

Lemma tracker_wf n tr : tracker_ok n tr -> exists m, wf m tr.
Proof using. intros [_ K]. destruct (n_kind n); eauto. destruct K; eauto. Qed.

Lemma set_tracker_ok h l n tr : heap_ok h -> h_nodes h !! l = Some n -> n_err n = None ->
  t_views (n_tracker n) <> [] -> tracker_ok n tr ->
  node_ok (h_nodes h) (length (h_nodes h)) (set_tracker n tr (n_origin n)).
Proof using.
  intros H Hn He Hv [Hnil Htr]. pose proof (heap_nodes h H l n Hn) as K. unfold node_ok in K |- *.
  cbn [n_err set_tracker n_dtype n_chain n_tracker n_kind n_sources n_bits n_buf n_origin n_slot].
  rewrite He in K |- *. destruct K as (Hd & Hc & _ & K). split; [exact Hd|]. split; [exact Hc|]. split; [exact Hnil|].
  destruct (n_kind n) eqn:Ek.
  - destruct K as (K1 & K2 & _). auto.
  - destruct K as (K1 & K2 & _). auto.
  - destruct K as (K1 & _ & K3). auto.
  - destruct K as (K1 & K2 & K3 & K4 & K5). destruct Htr as [Hw Hni]. unfold op_ok.
    cbn [set_tracker n_sources n_op n_tracker n_origin]. apply lookup_lt_Some in Hn.
    split; [exact K1|]. split; [eapply Forall_impl; [exact K2|]; simpl; intros s [? ?]; split; [lia|assumption]|].
    split; [exact K3|]. split; [exact K4|]. right. destruct K5 as [?|(_ & Ho & _)]; [contradiction|]. auto.
Qed.

(** What a new view of node [l] denotes. *)
Definition moved (h : heap) (l : nat) (s : Shape) (f : list Z -> option (list Z)) (t' : tensor) (h' : heap) : Prop :=
  heap_ok h' /\ ext h h' /\ tn_kernel t' = None /\ exists l', tn_node t' = Some l' /\ valid_ptr h' l' /\
    n_dtype (get (h_nodes h') l') = n_dtype (get (h_nodes h) l) /\
    opt_list (nShape (h_nodes h') l') = s /\
    forall c, in_bounds s c -> den h' l' c = match f c with Some c0 => den h l c0 | None => 0 end.

Lemma set_tracker_moved h l n tr s f : heap_ok h -> h_nodes h !! l = Some n -> n_err n = None ->
  t_views (n_tracker n) <> [] -> tracker_ok n tr -> t_dims tr = s ->
  (forall c, in_bounds s c -> t_locate tr c = match f c with Some c0 => t_locate (n_tracker n) c0 | None => None end) ->
  let '(t', h') := withTracker l tr h in moved h l s f t' h'.
Proof using.
  intros H Hn He Hv Htr Hd Hl. unfold withTracker. rewrite (get_lookup _ _ _ Hn).
  set (n' := set_tracker n tr (n_origin n)).
  assert (Hok : heap_ok (snd (alloc n' h))) by (apply alloc_ok; [exact H|eapply set_tracker_ok; eauto]).
  pose proof (alloc_lookup n' h) as Hn'. pose proof (alloc_ext n' h) as Hx.
  assert (Hvt : t_views tr <> []) by (destruct (tracker_wf n tr Htr) as [m Hm]; eapply wf_views, Hm).
  split; [exact Hok|]. split; [exact Hx|]. split; [reflexivity|]. exists (fst (alloc n' h)). split; [reflexivity|].
  assert (Eg : get (h_nodes (snd (alloc n' h))) (fst (alloc n' h)) = n') by (apply get_lookup, Hn').
  split; [split; [apply lookup_lt_Some in Hn'; exact Hn'|rewrite Eg; exact He]|].
  split; [rewrite Eg; cbn [n' set_tracker n_dtype]; rewrite (get_lookup _ _ _ Hn); reflexivity|]. split.
  - cbn [wrap snd fst]. rewrite (nShape_unfold _ _ n' (heap_acyclic _ Hok) Hn'). rewrite node_shape_dims; [exact Hd|exact He|apply Htr|exact Hvt].
  - intros c Hc. cbn [wrap snd fst]. rewrite (den_unfold _ _ n' c (heap_acyclic _ Hok) Hn'). specialize (Hl c Hc).
    destruct (f c) as [c0|]; [|apply node_den_padding; [exact Hvt|exact Hl]].
    rewrite (node_den_located _ _ _ n tr c Hv Hvt c0 Hl).
    pose proof (ext_lookup h _ l n Hx Hn) as Hn2. rewrite <- (den_unfold _ l n c0 (heap_acyclic _ Hok) Hn2).
    apply den_ext; [exact H|apply heap_acyclic, Hok|exact Hx|apply lookup_lt_Some in Hn; exact Hn].
Qed.

(** *** The tracker of an operation *)

(** What [ensureTracker] hands on: the same tensor, with a tracker unless it
    is a splat constant. *)
Definition ensured (h : heap) (l : nat) (l1 : nat) (h1 : heap) : Prop :=
  heap_ok h1 /\ ext h h1 /\ valid_ptr h1 l1 /\
  let n1 := get (h_nodes h1) l1 in
  n_dtype n1 = n_dtype (get (h_nodes h) l) /\
  (t_views (n_tracker n1) = [] -> l1 = l /\ h1 = h /\ n_kind n1 = kindConst) /\
  (t_views (n_tracker n1) <> [] -> t_dims (n_tracker n1) = opt_list (nShape (h_nodes h) l)) /\
  forall c, in_bounds (opt_list (nShape (h_nodes h) l)) c -> den h1 l1 c = den h l c.

Lemma tracked_kind h l n : heap_ok h -> h_nodes h !! l = Some n -> n_err n = None -> t_views (n_tracker n) = [] ->
  n_kind n = kindConst \/ n_kind n = kindOp.
Proof using.
  intros H Hn He Hv. pose proof (heap_nodes h H l n Hn) as K. unfold node_ok in K. rewrite He in K.
  destruct K as (_ & _ & _ & K). destruct (n_kind n); auto.
  - destruct K as (_ & _ & m & Hm). apply wf_views in Hm. contradiction.
  - destruct K as (_ & Hm & _). apply wf_views in Hm. contradiction.
Qed.

Lemma ensured_self h l n : heap_ok h -> h_nodes h !! l = Some n -> n_err n = None ->
  t_views (n_tracker n) <> [] \/ n_kind n = kindConst -> ensured h l l h.
Proof using.
  intros H Hn He Hk. pose proof (get_lookup _ _ _ Hn) as Eg. split; [exact H|]. split; [reflexivity|].
  split; [split; [apply lookup_lt_Some in Hn; exact Hn|congruence]|]. cbn zeta. rewrite Eg.
  split; [reflexivity|]. split; [intros Hv; destruct Hk; [contradiction|auto]|]. split; [|reflexivity].
  intros Hv. rewrite (nShape_unfold _ _ n (heap_acyclic _ H) Hn). symmetry. apply node_shape_dims; [exact He| |exact Hv].
  apply (tracked h l n H Hn He Hv).
Qed.

(** A fresh tracker over the operation's own shape. *)
Lemma ensured_fresh h l n base : heap_ok h -> h_nodes h !! l = Some n -> n_err n = None -> n_kind n = kindOp ->
  t_views (n_tracker n) = [] -> Of (nShape (h_nodes h) l) = Ok base ->
  implements (Size (opt_list (nShape (h_nodes h) l))) base (row_major (opt_list (nShape (h_nodes h) l))) ->
  t_Shape base = nShape (h_nodes h) l ->
  let n1 := set_tracker n base (nShape (h_nodes h) l) in
  ensured h l (length (h_nodes h)) (snd (alloc n1 h)).
Proof using.
  intros H Hn He Hk Hv Hof (Hw & Hd & Hl) Hts n1. set (shape := nShape (h_nodes h) l) in *.
  pose proof (lookup_lt_Some _ _ _ Hn) as Hlt. pose proof (wf_views _ _ Hw) as Hvb.
  assert (Hbase : shape = base_shape (h_nodes h) n).
  { unfold shape. rewrite (nShape_unfold _ _ n (heap_acyclic _ H) Hn). rewrite op_shape by assumption. rewrite Hv. reflexivity. }
  pose proof (heap_nodes h H l n Hn) as K. unfold node_ok in K. rewrite He, Hk in K. destruct K as (Kd & Kc & _ & K1 & K2 & K3 & K4 & _).
  assert (Hok : heap_ok (snd (alloc n1 h))).
  { apply alloc_ok; [exact H|]. unfold node_ok.
    cbn [n1 n_err set_tracker n_dtype n_chain n_tracker n_kind n_sources n_op n_origin]. rewrite He, Hk.
    split; [exact Kd|]. split; [exact Kc|]. split; [eapply Of_nil_ok, Hof|]. unfold op_ok.
    cbn [n1 set_tracker n_sources n_op n_tracker n_origin].
    split; [exact K1|]. split; [eapply Forall_impl; [exact K2|]; simpl; intros s [? ?]; split; [lia|assumption]|].
    split; [exact K3|]. split; [exact K4|]. right. split; [exact Hw|]. split; [exact Hbase|].
    intros Hs. unfold t_Shape in Hts. destruct (t_views base); [contradiction|]. destruct (t_nil base); [congruence|reflexivity]. }
  pose proof (alloc_lookup n1 h) as Hn1. cbn [alloc fst] in Hn1. pose proof (get_lookup _ _ _ Hn1) as Eg.
  pose proof (alloc_ext n1 h) as Hx. split; [exact Hok|]. split; [exact Hx|].
  split; [split; [apply lookup_lt_Some in Hn1; exact Hn1|rewrite Eg; exact He]|]. cbn zeta. rewrite Eg.
  split; [rewrite (get_lookup _ _ _ Hn); reflexivity|]. split; [intros Hvb'; contradiction|].
  split; [intros _; exact Hd|]. intros c Hc. rewrite (den_unfold _ _ n1 c (heap_acyclic _ Hok) Hn1).
  rewrite <- (den_ext h (snd (alloc n1 h)) l c H (heap_acyclic _ Hok) Hx Hlt).
  rewrite (den_unfold _ l n c (heap_acyclic _ Hok) (ext_lookup h _ l n Hx Hn)).
  unfold node_den. cbn [n1 n_kind set_tracker n_tracker n_origin]. rewrite Hk, Hv, (Hl c Hc). cbn [row_major a_cell].
  destruct (t_views base); [contradiction|]. rewrite unravel_ravel by exact Hc. reflexivity.
Qed.

Lemma ensureTracker_spec ks h l : heap_ok h -> valid_ptr h l -> exists l1 h1,
  ensureTracker ks (Some (mkTensor (Some l) None)) h = (Ok (mkTensor (Some l1) None), h1) /\ ensured h l l1 h1.
Proof using.
  intros H [Hl He]. destruct (lookup_lt_is_Some_2 _ _ Hl) as [n Hn]. pose proof (get_lookup _ _ _ Hn) as Eg.
  unfold ensureTracker. cbn [tensor_err tn_node]. rewrite He. rewrite Eg in He |- *. unfold is_kind.
  destruct (decide (t_views (n_tracker n) = [])) as [Hv|Hv].
  - assert (Hck : is_err (t_check (n_tracker n)) = true) by (unfold t_check; rewrite Hv; reflexivity). rewrite Hck.
    destruct (tracked_kind h l n H Hn He Hv) as [Hk|Hk].
    + rewrite bool_decide_false by (rewrite Hk; discriminate). cbn [negb orb]. exists l, h. split; [reflexivity|].
      eapply ensured_self; eauto.
    + rewrite bool_decide_true by exact Hk. cbn [negb orb tensor_Shape tn_kernel tn_node].
      assert (Hnn : nonneg (opt_list (nShape (h_nodes h) l))).
      { destruct (nShape (h_nodes h) l) as [s|] eqn:Es; [eapply nShape_nonneg; eauto|constructor]. }
      destruct (Of_implements _ Hnn) as (base & Hof & Hi & Hts & _). rewrite Hof.
      do 2 eexists. split; [reflexivity|]. apply (ensured_fresh h l n base); assumption.
  - assert (Hck : is_err (t_check (n_tracker n)) = false) by (unfold t_check; destruct (t_views _); [contradiction|reflexivity]).
    rewrite Hck. cbn [negb]. rewrite orb_true_r. exists l, h. split; [reflexivity|]. eapply ensured_self; eauto.
Qed.

(** *** Movements of tensors *)

(** The outcome of movement [m] on node [l]. *)
Definition move_outcome (h : heap) (l : nat) (m : move) (r : res tensor * heap) : Prop :=
  let dims := opt_list (nShape (h_nodes h) l) in
  match fst r with
  | Ok t' => exists s f, move_map dims m = Ok (s, f) /\ moved h l s f t' (snd r)
  | Err e =>
      heap_ok (snd r) /\ ext h (snd r) /\
      (move_map dims m = Err e \/
       (t_views (n_tracker (get (h_nodes h) l)) = [] /\ e = ErrShape /\
        (n_kind (get (h_nodes h) l) = kindConst \/ m = MSplat)) \/
       (m = MSplat /\ e = ErrIndex /\ Size dims = 1 /\ den h l (unravel dims 0) = 0))
  end.

Lemma moved_ensured h l l1 h1 s f t' h' : ensured h l l1 h1 -> nonneg (opt_list (nShape (h_nodes h) l)) -> forall m,
  move_map (opt_list (nShape (h_nodes h) l)) m = Ok (s, f) -> moved h1 l1 s f t' h' -> moved h l s f t' h'.
Proof using.
  intros (E1 & E2 & E3 & E4 & _ & _ & E5) Hnn m Hm (M1 & M2 & M3 & l' & M4 & M5 & M6 & M7 & M8).
  split; [exact M1|]. split; [etransitivity; eauto|]. split; [exact M3|]. exists l'.
  split; [exact M4|]. split; [exact M5|]. split; [congruence|]. split; [exact M7|]. intros c Hc. rewrite (M8 c Hc).
  destruct (f c) as [c0|] eqn:Ef; [|reflexivity]. apply E5. eapply move_map_in_bounds; eauto.
Qed.

(** A movement of a node with a tracker. *)
Lemma view_outcome h l m : heap_ok h -> valid_ptr h l -> t_views (n_tracker (get (h_nodes h) l)) <> [] ->
  move_outcome h l m (view_with l (apply_move (n_tracker (get (h_nodes h) l)) m) h).
Proof using.
  intros H [Hl He] Hv. destruct (lookup_lt_is_Some_2 _ _ Hl) as [n Hn]. pose proof (get_lookup _ _ _ Hn) as Eg.
  rewrite Eg in *. pose proof (tracked h l n H Hn He Hv) as Ht. destruct (tracker_wf n _ Ht) as [b Hb].
  assert (Hdims : opt_list (nShape (h_nodes h) l) = t_dims (n_tracker n)).
  { rewrite (nShape_unfold _ _ n (heap_acyclic _ H) Hn). apply node_shape_dims; [exact He|apply Ht|exact Hv]. }
  assert (Hw : forall b tr, wf b (n_tracker n) -> apply_move (n_tracker n) m = Ok tr -> wf b tr).
  { intros b' tr Hb' Hm. pose proof (apply_move_locate b' _ m Hb' (proj1 Ht)) as K. rewrite Hm in K. apply K. }
  pose proof (apply_move_locate b (n_tracker n) m Hb (proj1 Ht)) as K. unfold view_with. rewrite Eg, He.
  unfold move_outcome. rewrite Hdims. destruct (apply_move (n_tracker n) m) as [tr|e] eqn:Em.
  - destruct K as (_ & Kn & s & f & Kf & Kd & Kl).
    assert (Htr : tracker_ok n tr).
    { split; [exact Kn|]. destruct Ht as [_ Ht]. destruct (n_kind n); [destruct Ht as [m' ?]; exists m'; auto..| |]; [auto|].
      destruct Ht as [Ht Hni]. split; [auto|]. intros Ho. eapply apply_move_nil; [apply Hni, Ho|exact Em]. }
    pose proof (set_tracker_moved h l n tr s f H Hn He Hv Htr Kd Kl) as Hmv.
    destruct (withTracker l tr h) as [t' h']. cbn [fst snd]. exists s, f. split; [exact Kf|exact Hmv].
  - cbn [fst snd]. split; [exact H|]. split; [reflexivity|]. destruct K as [K|(-> & -> & K1 & K2)]; [auto|].
    right. right. split; [reflexivity|]. split; [reflexivity|]. split; [exact K1|].
    rewrite (den_unfold h l n _ (heap_acyclic _ H) Hn). apply node_den_padding; assumption.
Qed.

(** Moving a tensor: the new tensor reads the old one at the moved
    coordinates, and 0 in padding. *)
Lemma tensor_move_outcome ks h l m : heap_ok h -> valid_ptr h l ->
  move_outcome h l m (tensor_move ks m (Some (mkTensor (Some l) None)) h).
Proof using.
  intros H Hl. pose proof Hl as [Hlt He].
  assert (Hnn : nonneg (opt_list (nShape (h_nodes h) l))).
  { destruct (nShape (h_nodes h) l) as [s|] eqn:Es; [eapply nShape_nonneg; eauto|constructor]. }
  assert (Htrack : move_outcome h l m (viewTrack ks (fun tr => apply_move tr m) (Some (mkTensor (Some l) None)) h)).
  { unfold viewTrack. destruct (ensureTracker_spec ks h l H Hl) as (l1 & h1 & -> & Hens). cbn [tn_node].
    pose proof Hens as (E1 & E2 & E3 & E4 & E5 & E6 & E7).
    destruct (decide (t_views (n_tracker (get (h_nodes h1) l1)) = [])) as [Hv|Hv].
    - destruct (E5 Hv) as (-> & -> & Hk). unfold view_with. rewrite He.
      assert (apply_move (n_tracker (get (h_nodes h) l)) m = Err ErrShape) as ->.
      { assert (Hck : t_check (n_tracker (get (h_nodes h) l)) = Err ErrShape) by (unfold t_check; rewrite Hv; reflexivity).
        destruct m; cbn [apply_move]; unfold t_Reshape, t_Permute, t_Expand, t_Pad, t_Shrink, t_Flip, t_Splat, mapView;
          rewrite Hck; reflexivity. }
      unfold move_outcome. cbn [fst snd]. split; [exact H|]. split; [reflexivity|]. right. left. auto.
    - pose proof (view_outcome h1 l1 m E1 E3 Hv) as K. unfold move_outcome in K |- *. rewrite <- (E6 Hv).
      assert (Hdims : opt_list (nShape (h_nodes h1) l1) = t_dims (n_tracker (get (h_nodes h1) l1))).
      { destruct E3 as [E3 E3']. destruct (lookup_lt_is_Some_2 _ _ E3) as [n1 Hn1].
        rewrite (nShape_unfold _ _ n1 (heap_acyclic _ E1) Hn1). rewrite (get_lookup _ _ _ Hn1) in *.
        apply node_shape_dims; [exact E3'| |exact Hv]. apply (tracked h1 l1 n1 E1 Hn1 E3' Hv). }
      rewrite Hdims in K. destruct (view_with _ _ _) as [[t'|e] h']; cbn [fst snd] in *.
      + destruct K as (s & f & Kf & Km). exists s, f. split; [exact Kf|]. rewrite (E6 Hv) in Kf. eapply moved_ensured; eauto.
      + destruct K as (K1 & K2 & K3). split; [exact K1|]. split; [etransitivity; eauto|].
        destruct K3 as [K3|[(K3 & _)|(-> & -> & K3 & K4)]]; [auto|contradiction|]. right. right.
        split; [reflexivity|]. split; [reflexivity|]. split; [exact K3|]. rewrite E7 in K4; [exact K4|].
        rewrite (E6 Hv) in *. apply unravel_in_bounds; [apply positive_of_nonempty; [exact Hnn|lia]|lia]. }
  unfold tensor_move. destruct m; try exact Htrack.
  - unfold Equal, tensor_Shape. cbn [tn_kernel tn_node]. case_bool_decide as Es; [|exact Htrack].
    unfold move_outcome. cbn [fst snd]. subst shape. set (dims := opt_list _) in *. cbn [move_map].
    rewrite Infer_nonneg by exact Hnn. rewrite Z.eqb_refl. cbn [res_bind]. do 2 eexists. split; [reflexivity|].
    split; [exact H|]. split; [reflexivity|]. split; [reflexivity|]. exists l. split; [reflexivity|].
    split; [exact Hl|]. split; [reflexivity|]. split; [reflexivity|]. intros c Hc. rewrite unravel_ravel by exact Hc. reflexivity.
  - cbn [tn_node]. destruct (decide (t_views (n_tracker (get (h_nodes h) l)) = [])) as [Hv|Hv]; [|apply view_outcome; assumption].
    unfold view_with. rewrite He. assert (apply_move (n_tracker (get (h_nodes h) l)) MSplat = Err ErrShape) as ->.
    { cbn [apply_move]. unfold t_Splat, t_check. rewrite Hv. reflexivity. }
    unfold move_outcome. cbn [fst snd]. split; [exact H|]. split; [reflexivity|]. right. left. auto.
Qed.
End movement.

(** ** Storage *)

(** Every input has a buffer of its type, of whole cells. *)
Definition bufs_ok (h : heap) : Prop := forall l n, h_nodes h !! l = Some n -> n_kind n = kindInput ->
  exists b bf, n_buf n = Some b /\ h_bufs h !! b = Some bf /\ buf_dtype bf = n_dtype n /\
    Z.of_nat (length (raw bf)) mod out_size (n_dtype n) = 0.

(** The words of a slice of [d]. *)
Definition data_ok (d : DType) (data : list Z) : Prop :=
  Forall (fun w => word_ok w /\ (d = U8 -> w < 256)) data.

Lemma asBytes_length d data : Z.of_nat (length (asBytes d data)) = out_size d * Z.of_nat (length data).
Proof.
  unfold asBytes. induction data as [|w data IH]; [destruct d; reflexivity|]. cbn [map concat]. rewrite length_app, Nat2Z.inj_add, IH.
  destruct d; simpl length; simpl out_size; lia.
Qed.

Lemma asBytes_bytes d data : Forall (fun x => 0 <= x < 256) (asBytes d data).
Proof.
  unfold asBytes. induction data as [|w data IH]; [constructor|]. cbn [map concat]. apply Forall_app. split; [|exact IH].
  assert (Hb : forall r, 0 <= byte_of w r < 256) by (intros; apply Z.mod_pos_bound; lia).
  destruct d; repeat constructor; try apply Hb; pose proof (Z.mod_pos_bound w 256 ltac:(lia)); lia.
Qed.

(** Cell [i] of the bytes of a slice is its number [i]. *)
Lemma word_asBytes d data i : data_ok d data -> (i < length data)%nat ->
  word (mkBuffer (asBytes d data) d) (Z.of_nat i) = nth i data 0.
Proof.
  intros Hd Hi. destruct (lookup_lt_is_Some_2 _ _ Hi) as [w Hw]. rewrite nth_lookup, Hw. cbn [default from_option id].
  pose proof (proj1 (Forall_lookup _ _) Hd i w Hw) as [Hok Hu8].
  assert (Hd4 : d = U8 \/ d <> U8) by (destruct d; auto; right; discriminate). destruct Hd4 as [->|Hd4].
  - assert (Hb : asBytes U8 data = map (fun w => w mod 256) data).
    { clear. unfold asBytes. induction data as [|w data IH]; [reflexivity|]. cbn [map concat elem_bytes app]. rewrite IH. reflexivity. }
    rewrite Hb. unfold word. cbn [buf_dtype raw]. destruct (Z.ltb_spec (Z.of_nat i) 0); [lia|].
    rewrite length_map. destruct (Z.leb_spec (Z.of_nat (length data)) (Z.of_nat i)); [lia|].
    rewrite (byte_at_lookup _ _ (w mod 256)); [|lia|].
    + apply Z.mod_small. unfold word_ok in Hok. specialize (Hu8 eq_refl). lia.
    + rewrite Nat2Z.id. change (map (fun w => w mod 256) data) with ((fun w => w mod 256) <$> data).
      rewrite list_lookup_fmap, Hw. reflexivity.
  - assert (Hb : asBytes d data = concat (map le_bytes data)) by (destruct d; try reflexivity; contradiction).
    assert (Hwords : Forall word_ok data) by (eapply Forall_impl; [exact Hd|]; simpl; tauto).
    pose proof (word_le_bytes data [] i w Hwords Hw) as K. rewrite app_nil_r, <- Hb in K.
    destruct d; try exact K. contradiction.
Qed.

Lemma nth_map_seqZ {A} (f : Z -> A) n i (d : A) : (i < n)%nat -> nth i (map f (seqZ 0 (Z.of_nat n))) d = f (Z.of_nat i).
Proof.
  intros Hi. rewrite nth_lookup. change (map f (seqZ 0 (Z.of_nat n))) with (f <$> seqZ 0 (Z.of_nat n)).
  rewrite list_lookup_fmap. assert (seqZ 0 (Z.of_nat n) !! i = Some (Z.of_nat i)) as ->; [|reflexivity].
  apply lookup_seqZ. lia.
Qed.

(** Storing a slice and reading it back. *)
Lemma fromBytes_asBytes d data : is_number_type d = true -> data_ok d data -> fromBytes d (asBytes d data) = data.
Proof.
  intros Hn Hd. assert (Hs : dtype_size d = out_size d /\ 0 < out_size d) by (destruct d; try discriminate Hn; simpl; lia).
  destruct Hs as [Hs Hp]. unfold fromBytes, cells. cbn [buf_dtype raw]. rewrite Hs, asBytes_length.
  destruct (Z.eqb_spec (out_size d) 0); [lia|]. rewrite Z.quot_div_nonneg by lia.
  rewrite (Z.mul_comm (out_size d)), Z.div_mul by lia.
  apply (nth_ext _ _ 0 0); [rewrite length_map, length_seqZ; lia|]. intros i Hi.
  rewrite length_map, length_seqZ, Nat2Z.id in Hi. rewrite nth_map_seqZ by exact Hi. apply word_asBytes; assumption.
Qed.

Lemma out_size_number d : is_number_type d = true -> dtype_size d = out_size d /\ 0 < out_size d.
Proof. destruct d; try discriminate; simpl; lia. Qed.

Lemma word_app a b d i : 0 <= i -> (i + 1) * out_size d <= Z.of_nat (length a) ->
  word (mkBuffer (a ++ b) d) i = word (mkBuffer a d) i.
Proof.
  intros Hi Hlen. assert (Hb : forall p, 0 <= p < Z.of_nat (length a) -> byte_at (a ++ b) p = byte_at a p).
  { intros p Hp. unfold byte_at. rewrite app_nth1 by lia. reflexivity. }
  unfold word. cbn [raw buf_dtype]. rewrite length_app, Nat2Z.inj_add. destruct (Z.ltb_spec i 0); [lia|].
  destruct d; simpl out_size in Hlen;
    repeat match goal with
      | |- context [Z.ltb ?x ?y] => destruct (Z.ltb_spec x y); try lia
      | |- context [Z.leb ?x ?y] => destruct (Z.leb_spec x y); try lia
      end; rewrite ?Hb by lia; reflexivity.
Qed.

(** Zeros after whole cells do not change what is read. *)
Lemma word_zeros a k d i : Z.of_nat (length a) mod out_size d = 0 ->
  word (mkBuffer (a ++ repeat 0 k) d) i = word (mkBuffer a d) i.
Proof.
  intros Hm. destruct (Z.ltb_spec i 0) as [Hi|Hi].
  { unfold word. cbn [raw buf_dtype]. destruct (Z.ltb_spec i 0); [reflexivity|lia]. }
  destruct (Z.le_gt_cases ((i + 1) * out_size d) (Z.of_nat (length a))) as [Hle|Hgt]; [apply word_app; assumption|].
  assert (Hz : forall p, Z.of_nat (length a) <= p -> byte_at (a ++ repeat 0 k) p = 0).
  { intros p Hp. unfold byte_at. rewrite app_nth2 by lia. apply nth_repeat. }
  assert (Hlo : Z.of_nat (length a) <= i * out_size d).
  { pose proof (Z.div_mod (Z.of_nat (length a)) (out_size d) ltac:(destruct d; simpl; lia)). destruct d; simpl out_size in *; nia. }
  unfold word. cbn [raw buf_dtype]. rewrite length_app, repeat_length, Nat2Z.inj_add. destruct (Z.ltb_spec i 0); [lia|].
  destruct d; simpl out_size in Hlo, Hgt;
    repeat match goal with
      | |- context [Z.ltb ?x ?y] => destruct (Z.ltb_spec x y); try lia
      | |- context [Z.leb ?x ?y] => destruct (Z.leb_spec x y); try lia
      end; rewrite ?Hz by lia; reflexivity.
Qed.

Lemma cells_ge b n : 0 < dtype_size (buf_dtype b) -> n * dtype_size (buf_dtype b) <= Z.of_nat (length (raw b)) -> n <= cells b.
Proof.
  intros Hp Hn. unfold cells. cbv zeta. destruct (Z.eqb_spec (dtype_size (buf_dtype b)) 0); [lia|].
  rewrite Z.quot_div_nonneg by lia. apply Z.div_le_lower_bound; lia.
Qed.

Section storage.
Context {E : FloatEnv}.

(** The meaning of the graph does not change with the storage of nodes it
    does not read, or with storage that reads the same. *)
Lemma den_bufs h h' l c : acyclic (h_nodes h) -> h_nodes h' = h_nodes h -> (l < length (h_nodes h))%nat ->
  (forall k n i, h_nodes h !! k = Some n -> n_kind n = kindInput ->
    buf_word (h_bufs h') (n_buf n) i = buf_word (h_bufs h) (n_buf n) i) ->
  den h' l c = den h l c.
Proof using.
  intros Ha Hn Hl Hb. symmetry. unfold den. rewrite Hn.
  apply (entry_agree _ _ _ (pointwise_relation _ eq)); auto using local_den.
  intros g k n Hk c'. unfold node_den. destruct (n_kind n) eqn:Ek; try reflexivity.
  destruct (t_locate _ c'); [|reflexivity]. symmetry. eapply Hb; eauto.
Qed.

Lemma alloc_buf_ok b h : heap_ok h -> buffer_ok b -> heap_ok (snd (alloc_buf b h)).
Proof using. intros H Hb. split; [apply H| |apply H]. apply Forall_app. split; [apply H|constructor; [exact Hb|constructor]]. Qed.

Lemma alloc_buf_den b h l c : heap_ok h -> bufs_ok h -> (l < length (h_nodes h))%nat ->
  den (snd (alloc_buf b h)) l c = den h l c.
Proof using.
  intros H Hb Hl. apply den_bufs; [apply heap_acyclic, H|reflexivity|exact Hl|].
  intros k n i Hk Hi. destruct (Hb k n Hk Hi) as (bp & bf & -> & Hbf & _). unfold buf_word. cbn.
  rewrite (lookup_app_l_Some _ _ _ _ Hbf), Hbf. reflexivity.
Qed.

Lemma bufs_ok_snoc h n h' : bufs_ok h -> h_nodes h' = h_nodes h ++ [n] -> h_bufs h' = h_bufs h ->
  (n_kind n = kindInput -> exists b bf, n_buf n = Some b /\ h_bufs h !! b = Some bf /\ buf_dtype bf = n_dtype n /\
    Z.of_nat (length (raw bf)) mod out_size (n_dtype n) = 0) -> bufs_ok h'.
Proof using.
  intros Hb Hn Hbs Hk l m Hl Hi. rewrite Hn in Hl. rewrite Hbs. apply lookup_app_Some in Hl as [Hl|[_ Hl]]; [eauto|].
  apply list_lookup_singleton_Some in Hl as [_ <-]. auto.
Qed.

(** A new tensor: its shape, its numbers row by row, and what it leaves
    alone; or the error. *)
Lemma New_spec d data shape h : heap_ok h -> bufs_ok h -> is_number_type d = true -> data_ok d data ->
  let '(r, h') := New d data shape h in
  let s := opt_list shape in
  match r with
  | Ok t =>
      nonneg s /\ Z.of_nat (length data) = Size s /\ heap_ok h' /\ bufs_ok h' /\
      exists l, t = mkTensor (Some l) None /\ valid_ptr h' l /\ n_dtype (get (h_nodes h') l) = d /\
        opt_list (nShape (h_nodes h') l) = s /\ Data d h' (Some t) = Ok data /\
        (forall c, in_bounds s c -> den h' l c = nth (Z.to_nat (ravel s c)) data 0) /\
        (forall l' c, (l' < length (h_nodes h))%nat -> den h' l' c = den h l' c)
  | Err e =>
      h' = h /\ (e = ErrShape /\ ~ nonneg s \/ e = ErrSize /\ nonneg s /\ Z.of_nat (length data) <> Size s)
  end.
Proof using.
  intros H Hb Hd Hdata. unfold New. destruct (decide (nonneg (opt_list shape))) as [Hnn|Hnn].
  2: { rewrite Of_negative by exact Hnn. cbn. auto. }
  destruct (Of_implements shape Hnn) as (t & Ht & (Hw & Hdims & Hl) & Hts & Hcg). rewrite Ht.
  change (t_dims t = opt_list shape) in Hdims. rewrite (wf_size _ _ Hw), Hdims.
  destruct (Z.eqb_spec (Z.of_nat (length data)) (Size (opt_list shape))) as [Hlen|Hlen]; cbn [negb]; [|cbn; auto].
  set (b := mkBuffer (asBytes d data) d). set (h1 := snd (alloc_buf b h)).
  assert (H1 : heap_ok h1) by (apply alloc_buf_ok; [exact H|apply asBytes_bytes]).
  cbn [alloc_buf]. change (mkHeap (h_nodes h) (h_bufs h ++ [b]) (h_splats h)) with h1.
  pose proof (input_spec (length (h_bufs h)) t d _ h1 H1 Hd Hw (Of_nil_ok _ _ Ht)) as (X1 & X2 & X3 & X4 & X5).
  set (n := mkNode kindInput ONone d [] t None [] (Some (length (h_bufs h))) 0 0 None) in *.
  assert (Enodes : h_nodes (snd (input (Some (length (h_bufs h))) t d h1)) = h_nodes h ++ [n] /\
    h_bufs (snd (input (Some (length (h_bufs h))) t d h1)) = h_bufs h ++ [b]).
  { unfold input. pose proof (wf_views _ _ Hw). destruct (t_views t) eqn:Ev; [contradiction|]. rewrite Hd. cbn [negb].
    unfold alloc. split; [|reflexivity]. cbn. unfold n. reflexivity. }
  destruct (input (Some (length (h_bufs h))) t d h1) as [l h'] eqn:Ein. cbn [fst snd wrap] in *. destruct Enodes as [En Eb].
  assert (Hbf : h_bufs h' !! length (h_bufs h) = Some b) by (rewrite Eb; apply list_lookup_middle; reflexivity).
  assert (Hbuf : exists bp bf, n_buf n = Some bp /\ h_bufs h' !! bp = Some bf /\ buf_dtype bf = n_dtype n /\
      Z.of_nat (length (raw bf)) mod out_size (n_dtype n) = 0).
  { exists (length (h_bufs h)), b. split; [reflexivity|]. split; [exact Hbf|]. split; [reflexivity|].
    cbn [raw b n_dtype n]. rewrite asBytes_length, Z.mul_comm. apply Z.mod_mul. destruct d; simpl; lia. }
  split; [exact Hnn|]. split; [exact Hlen|]. split; [exact X2|]. split.
  { intros k m Hk Hi. rewrite En in Hk. apply lookup_app_Some in Hk as [Hk|[_ Hk]].
    - destruct (Hb k m Hk Hi) as (bp & bf & B1 & B2 & B3 & B4). exists bp, bf. rewrite Eb.
      split; [exact B1|]. split; [apply lookup_app_l_Some, B2|]. auto.
    - apply list_lookup_singleton_Some in Hk as [_ <-]. exact Hbuf. }
  exists l. split; [reflexivity|]. pose proof (get_lookup _ _ _ X3) as Eg.
  split; [split; [apply lookup_lt_Some in X3; exact X3|rewrite Eg; reflexivity]|]. split; [rewrite Eg; reflexivity|]. split.
  { rewrite X4. rewrite <- Hdims. apply (node_shape_dims _ n); [reflexivity|exact (Of_nil_ok _ _ Ht)|exact (wf_views _ _ Hw)]. }
  split; [|split].
  - unfold Data. cbn [mbind option_bind tn_node]. rewrite Eg. unfold leaf_buffer. cbn [n_buf n mbind option_bind]. rewrite Hbf.
    unfold is_kind. cbn [n_kind n_tracker n_dtype n]. rewrite Hcg, !bool_decide_true by reflexivity. cbn [negb orb b raw].
    rewrite fromBytes_asBytes by assumption. reflexivity.
  - intros c Hc. rewrite X5. unfold node_den. cbn [n_kind n n_tracker n_buf]. rewrite (Hl c Hc). cbn [row_major a_cell].
    unfold buf_word. cbn [mbind option_bind h1 snd alloc_buf h_bufs].
    rewrite (list_lookup_middle (h_bufs h) [] b) by reflexivity. pose proof (ravel_bounds _ _ Hc) as Hr.
    rewrite <- (Z2Nat.id (ravel (opt_list shape) c)) at 1 by lia. apply word_asBytes; [exact Hdata|lia].
  - intros l' c Hl'. rewrite <- (alloc_buf_den b h l' c H Hb Hl'). apply den_ext; [exact H1|apply heap_acyclic, X2|exact X1|exact Hl'].
Qed.

(** Growing the storage of a leaf changes the value of no tensor. *)
Lemma EnsureCells_spec d n h t : heap_ok h -> bufs_ok h -> is_number_type d = true ->
  let '(r, h') := EnsureCells d n h t in
  heap_ok h' /\ bufs_ok h' /\ h_nodes h' = h_nodes h /\
  (forall l c, (l < length (h_nodes h))%nat -> den h' l c = den h l c) /\
  match r with
  | Ok _ => exists l b, t ≫= tn_node = Some l /\ leaf_buffer h' (get (h_nodes h) l) = Some b /\ 0 <= n <= cells b
  | Err e => h' = h
  end.
Proof using.
  intros H Hb Hnum. unfold EnsureCells.
  assert (Hno : forall e, let '(r, h') := (@Err unit e, h) in heap_ok h' /\ bufs_ok h' /\ h_nodes h' = h_nodes h /\
    (forall l c, (l < length (h_nodes h))%nat -> den h' l c = den h l c) /\
    match r with
    | Ok _ => exists l b, t ≫= tn_node = Some l /\ leaf_buffer h' (get (h_nodes h) l) = Some b /\ 0 <= n <= cells b
    | Err e => h' = h
    end) by (cbn; auto 10).
  destruct (t ≫= tn_node) as [l|] eqn:Et; [|apply (Hno ErrOp)]. destruct (n_buf (get (h_nodes h) l)) as [bp|] eqn:Ebp; [|apply (Hno ErrOp)].
  destruct (h_bufs h !! bp) as [b|] eqn:Ebf; [|apply (Hno ErrOp)].
  destruct (is_kind kindInput _) eqn:Ek; cbn [negb]; [|apply (Hno ErrOp)]. apply bool_decide_eq_true in Ek.
  case_bool_decide as Ed; cbn [negb]; [|apply (Hno ErrType)].
  destruct (Z.ltb_spec n 0); [apply (Hno ErrSize)|]. clear Hno.
  destruct (h_nodes h !! l) as [nd|] eqn:Hn; [|unfold get in Ebp; rewrite nth_lookup, Hn in Ebp; discriminate Ebp].
  rewrite (get_lookup _ _ _ Hn) in *. destruct (Hb l nd Hn Ek) as (bp' & b' & E1 & E2 & Ebd & Em).
  assert (bp' = bp) as -> by congruence. assert (b' = b) as -> by congruence.
  destruct (out_size_number d Hnum) as [Es Ps]. rewrite <- Ed in Es, Ps.
  set (need := n * dtype_size (n_dtype nd)).
  destruct (Z.leb_spec need (Z.of_nat (length (raw b)))) as [Hle|Hgt].
  - split; [exact H|]. split; [exact Hb|]. split; [reflexivity|]. split; [reflexivity|]. exists l, b. split; [reflexivity|].
    unfold leaf_buffer. rewrite (get_lookup _ _ _ Hn), Ebp. cbn [mbind option_bind]. split; [exact Ebf|]. split; [lia|].
    apply cells_ge; rewrite Ebd; [lia|exact Hle].
  - set (grown := raw b ++ repeat 0 (Z.to_nat need - length (raw b))).
    assert (Hg : Z.of_nat (length grown) = need) by (unfold grown; rewrite length_app, repeat_length; lia).
    assert (Hbok : buffer_ok (mkBuffer grown (buf_dtype b))).
    { apply Forall_app. split; [exact (proj1 (Forall_lookup _ _) (heap_bufs h H) bp b Ebf)|].
      apply Forall_forall. intros x Hx. apply list_elem_of_In, repeat_spec in Hx. lia. }
    split; [split; [apply H|apply Forall_insert; [apply H|exact Hbok]|apply H]|].
    assert (Hlt : (bp < length (h_bufs h))%nat) by (eapply lookup_lt_Some, Ebf).
    split; [|split; [reflexivity|split]].
    + intros k m Hk Hi. cbn [h_nodes h_bufs] in *. destruct (Hb k m Hk Hi) as (bq & bg & B1 & B2 & B3 & B4).
      exists bq. destruct (decide (bp = bq)) as [<-|Hne].
      * assert (bg = b) as -> by congruence. eexists. split; [exact B1|]. rewrite list_lookup_insert_eq by exact Hlt.
        split; [reflexivity|]. cbn [raw buf_dtype]. split; [exact B3|]. rewrite <- B3, Hg, Ebd. unfold need.
        rewrite Es. apply Z.mod_mul. lia.
      * exists bg. rewrite list_lookup_insert_ne by exact Hne. auto.
    + intros k c Hk. apply den_bufs; [apply heap_acyclic, H|reflexivity|exact Hk|].
      intros k' m i Hk' Hi. destruct (Hb k' m Hk' Hi) as (bq & bg & -> & B2 & B3 & B4). unfold buf_word. cbn.
      destruct (decide (bp = bq)) as [<-|Hne]; [|rewrite list_lookup_insert_ne by exact Hne; reflexivity].
      assert (bg = b) as -> by congruence. rewrite list_lookup_insert_eq, Ebf by exact Hlt. unfold grown.
      destruct b as [rb bd]. cbn [raw buf_dtype] in *. apply word_zeros. rewrite B3. exact B4.
    + exists l. eexists. split; [reflexivity|]. unfold leaf_buffer. rewrite (get_lookup _ _ _ Hn), Ebp. cbn [mbind option_bind h_bufs].
      split; [apply list_lookup_insert_eq, Hlt|]. split; [lia|]. apply cells_ge; cbn [raw buf_dtype]; rewrite Ebd; lia.
Qed.
End storage.
