(* ===== verification/Realize.v ===== *)
(** * Evaluating a tensor (src/x/ndarray/tensor.go, eval.go)

    [Eval] of a tensor copies a contiguous leaf, or compiles the graph once,
    binds it in the evaluator's table and runs the tape.  The file proves that
    either way the destination receives the values that the graph denotes,
    that the only errors are a short destination and a graph that cannot be
    lowered, and that the tensor and the evaluator are left ready for the next
    evaluation. *)
From Stdlib Require Import ZArith Lia.
From stdpp Require Import base numbers option list relations.
From S2P Require Import Prelude Float Alu Shape View Tracker Expr Rewrite Optimize Flatten Cpu Kernel Eval Tensor.

Local Open Scope Z_scope.

(** ** The table under a growing graph *)

Lemma lower_loop_app ns more bufs shape order : forall reg code,
  acyclic ns -> Forall (fun l => (l < length ns)%nat) order ->
  lower_loop (ns ++ more) bufs shape order reg code = lower_loop ns bufs shape order reg code.
Proof.
  intros reg code Ha Ho. revert reg code. induction Ho as [|l order Hl Ho IH]; intros reg code; [reflexivity|].
  cbn [lower_loop]. rewrite get_app by exact Hl.
  assert (lower_node (ns ++ more) bufs shape ((l, length code) :: reg) (length code) (get ns l) =
    lower_node ns bufs shape ((l, length code) :: reg) (length code) (get ns l)) as ->.
  { unfold lower_node. destruct (n_kind (get ns l)); try reflexivity. do 2 f_equal. unfold in_type.
    destruct (lookup_lt_is_Some_2 _ _ Hl) as [n Hn]. rewrite (get_lookup _ _ _ Hn).
    pose proof (Ha l n Hn) as Hs. destruct (n_sources n) as [|s ss]; [reflexivity|].
    rewrite get_app; [reflexivity|]. rewrite Forall_cons in Hs. lia. }
  destruct (lower_node _ _ _ _ _ _); cbn [res_bind]; [apply IH|reflexivity].
Qed.

Definition listed (w : world) (k : Kernel) : Prop :=
  Forall (fun l => (l < length (h_nodes (w_heap w)))%nat) (k_order k).

(** Every bound kernel lists nodes of the graph. *)
Definition table_ok (w : world) : Prop := bound_ok w /\ acyclic (h_nodes (w_heap w)) /\
  forall kp e k, assoc_get (w_bound w) kp = Some e -> w_kernels w !! kp = Some k -> listed w k.

(** A larger graph and more kernels keep the table. *)
Lemma table_grow w h' more : table_ok w -> acyclic (h_nodes h') -> ext (w_heap w) h' ->
  table_ok (mkWorld h' (w_kernels w ++ more) (w_bound w) (w_next w)).
Proof.
  intros (Hb & Ha & Hl) Ha' [[ns En] _].
  assert (Hk : forall kp e k, assoc_get (w_bound w) kp = Some e -> (w_kernels w ++ more) !! kp = Some k -> w_kernels w !! kp = Some k).
  { intros kp e k He Hk. destruct (Hb kp e He) as (_ & _ & k' & Hk' & _).
    rewrite (lookup_app_l_Some _ _ _ _ Hk') in Hk. congruence. }
  split; [|split; [exact Ha'|]].
  - intros kp e He. cbn [w_bound w_kernels w_next w_heap] in *. destruct (Hb kp e He) as (H1 & H2 & k & Hk' & Ht).
    split; [exact H1|]. split; [exact H2|]. exists k. split; [apply lookup_app_l_Some, Hk'|].
    unfold lowerCPU in *. rewrite En, lower_loop_app; [exact Ht|exact Ha|exact (Hl kp e k He Hk')].
  - intros kp e k He Hkp. unfold listed. cbn [w_bound w_kernels w_heap] in *. specialize (Hl kp e k He (Hk kp e k He Hkp)).
    eapply Forall_impl; [exact Hl|]. intros l Hlt. cbn in *. rewrite En, length_app. lia.
Qed.

(** Binding a kernel whose nodes are in the graph keeps the table. *)
Lemma table_bind w kp k : table_ok w -> w_kernels w !! kp = Some k -> listed w k -> table_ok (snd (Program (Some kp) w)).
Proof.
  intros (Hb & Ha & Hl) Hk Hlk. pose proof (Program_spec w kp k Hb Hk) as K. destruct (Program (Some kp) w) as [r w'] eqn:Ep.
  destruct K as (_ & Hb' & Eh & Ek). cbn [snd]. split; [exact Hb'|]. unfold listed in *. rewrite Eh, Ek. split; [exact Ha|].
  intros kp' e k' He Hk'. destruct (assoc_get (w_bound w) kp') as [e'|] eqn:Ea; [eauto|].
  assert (kp' = kp) as ->; [|assert (k' = k) as -> by congruence; exact Hlk].
  unfold Program in Ep. rewrite Hk in Ep. destruct (assoc_get (w_bound w) kp); [injection Ep as _ <-; congruence|].
  destruct (lowerCPU _ _ _ _); injection Ep as _ <-; [|congruence].
  cbn [w_bound assoc_get] in He. case_bool_decide; congruence.
Qed.

(** ** Graphs that can be evaluated *)

(** The graph of [l] denotes an array of shape [shape], and compiling it keeps
    its meaning. *)
Record evaluable {E : FloatEnv} (h : heap) (l : nat) (shape : Shape) : Prop := {
  ev_heap : heap_ok h;
  ev_node : valid_ptr h l;
  ev_shape : nShape (h_nodes h) l = Some shape;
  ev_rewrite : rewritable h l;
  ev_mask : forall k h', compiled h l shape k h' -> mask_agrees h l shape k h'
}.

Lemma leaf_views_evaluable {E : FloatEnv} h l shape : heap_ok h -> leaf_views h -> valid_ptr h l ->
  nShape (h_nodes h) l = Some shape -> evaluable h l shape.
Proof.
  intros H Hv Hl Hs. split; auto using leaf_views_rewritable. intros k h' Hc. eapply leaf_views_mask; eauto.
Qed.

(** A tensor of the graph [l], as built over the heap [h]: not yet compiled,
    or with the kernel that compiling gave. *)
Record ready_tensor {E : FloatEnv} (h : heap) (l : nat) (shape : Shape) (t : tensor) (w : world) : Prop := {
  rd_ev : evaluable h l shape;
  rd_table : table_ok w;
  rd_node : tn_node t = Some l;
  rd_state :
    (tn_kernel t = None /\ w_heap w = h) \/
    exists kp k, tn_kernel t = Some kp /\ w_kernels w !! kp = Some k /\ compiled h l shape k (w_heap w)
}.

Lemma compiled_listed {E : FloatEnv} h l shape k h' : compiled h l shape k h' ->
  Forall (fun x => (x < length (h_nodes h'))%nat) (k_order k).
Proof. intros Hc. apply Forall_forall. intros x Hx. apply (fo_valid _ _ _ _ (co_flat _ _ _ _ _ Hc) x Hx). Qed.

Section realizing.
Context {E : FloatEnv}.

(** The destination holds the values of the graph, and the rest of it is
    as before. *)
Definition filled_with (h : heap) (l : nat) (shape : Shape) (dest dest' : list Z) : Prop :=
  let d := n_dtype (get (h_nodes h) l) in
  length dest' = length dest /\
  (forall i, 0 <= i < Size shape ->
    weq d (word (mkBuffer dest' d) i) (stored d (den h l (unravel shape i)))) /\
  drop (Z.to_nat (Size shape * out_size d)) dest' = drop (Z.to_nat (Size shape * out_size d)) dest.

(** [ensure] leaves a compiled tensor. *)
Lemma ensure_ready h l shape t w : ready_tensor h l shape t w ->
  (exists r, ensure t w r) /\
  forall r, ensure t w r -> exists t' w' kp k, r = (Ok t', w') /\ ready_tensor h l shape t' w' /\
    tn_kernel t' = Some kp /\ w_kernels w' !! kp = Some k /\ compiled h l shape k (w_heap w').
Proof using.
  intros [Hev Ht Hn [[Hk Hh]|(kp & k & Hk & Hkp & Hc)]]; unfold ensure; rewrite Hk.
  2: { split; [eauto|]. intros r ->. exists t, w, kp, k. split; [reflexivity|].
    split; [split; eauto 10|auto]. }
  destruct (compile_ok h l shape) as (k & h' & Hg & Hc); [apply Hev..|].
  rewrite Hn, Hh. split.
  { eexists. exists (Ok k), h'. split; [exact Hg|reflexivity]. }
  intros r (rk & h2 & Hg2 & Hr). pose proof (gives_unique _ _ _ Hg Hg2) as [= <- <-]. subst r.
  eexists _, _, (length (w_kernels w)), k. split; [reflexivity|].
  assert (Hkk : (w_kernels w ++ [k]) !! length (w_kernels w) = Some k) by (apply list_lookup_middle; reflexivity).
  split; [|cbn; auto]. split; [exact Hev| |reflexivity|right; cbn; eauto 10].
  apply table_grow; [exact Ht|apply fheap_acyclic, (co_heap _ _ _ _ _ Hc)|rewrite Hh; apply (co_ext _ _ _ _ _ Hc)].
Qed.

(** The bound program on the first bytes of the destination. *)
Lemma exec_filled h l shape k w e rt dest : evaluable h l shape -> compiled h l shape k (w_heap w) ->
  is_number_type (n_dtype (get (h_nodes h) l)) = true -> 0 < ready rt ->
  lowerCPU (h_nodes (w_heap w)) (k_order k) (k_bufs k) (k_built k) = Ok (e_tape e) ->
  w_kernels w !! e_kernel e = Some k ->
  let need := k_size k * dtype_size (k_outType k) in
  need <= Z.of_nat (length dest) ->
  (exists r, exec_Eval rt w e (take (Z.to_nat need) dest) r) /\
  forall r, exec_Eval rt w e (take (Z.to_nat need) dest) r ->
    exists out, r = Ok out /\ filled_with h l shape dest (out ++ drop (Z.to_nat need) dest).
Proof using.
  intros [H Hl Hs _ Hm] Hc Hd Hr Hlow Hk need Hneed. set (out0 := take (Z.to_nat need) dest).
  pose proof (Size_nonneg shape (nShape_nonneg h l shape H (proj1 Hl) Hs)) as Hsz.
  destruct (out_size_number _ Hd) as [Ed Pd]. pose proof (co_type _ _ _ _ _ Hc) as Et. pose proof (co_size _ _ _ _ _ Hc) as Es.
  assert (En : need = Size shape * out_size (n_dtype (get (h_nodes h) l))) by (unfold need; rewrite Es, Et, Ed; reflexivity).
  assert (Hlen : Z.of_nat (length out0) = need) by (unfold out0; rewrite length_take; nia).
  unfold exec_Eval. rewrite Hk. fold need. destruct (Z.ltb_spec (Z.of_nat (length out0)) need); [lia|].
  destruct (Z.eqb_spec (k_size k) 0) as [E0|E0].
  { split; [eauto|]. intros r ->. exists out0. split; [reflexivity|]. unfold filled_with, out0. rewrite take_drop.
    split; [reflexivity|]. split; [lia|reflexivity]. }
  assert (Hcap : Size shape * out_size (k_outType k) <= Z.of_nat (length out0)) by (rewrite Et; lia).
  destruct (run_compiled h l shape k (w_heap w) (e_tape e) (gomaxprocs rt) (ready rt) (pool rt) (pools rt) out0
    H Hl Hs Hc (Hm _ _ Hc) Hlow Hr Hcap) as [[out' Hex] Hall].
  split; [exists (Ok out'), out'; auto|]. intros r (out & Hrun & ->). exists out. split; [reflexivity|].
  destruct (Hall out Hrun) as (L & Hw & _). rewrite Et in Hw. split; [|split].
  - rewrite length_app, L, length_drop. lia.
  - intros i Hi. rewrite word_app; [exact (Hw i Hi)|lia|]. rewrite L. nia.
  - rewrite <- En. rewrite drop_app_length' by lia. reflexivity.
Qed.

(** Why evaluation may fail: a short destination, or a graph that cannot be
    lowered. *)
Definition eval_error (d : DType) (shape : Shape) (dest : list Z) (t : tensor) (w : world) (e : err) : Prop :=
  e = ErrSize /\ Z.of_nat (length dest) < Size shape * out_size d \/
  exists kp k, tn_kernel t = Some kp /\ w_kernels w !! kp = Some k /\
    lowerCPU (h_nodes (w_heap w)) (k_order k) (k_bufs k) (k_built k) = Err e.

Definition realized (h : heap) (l : nat) (shape : Shape) (dest : list Z) (r : res (list Z)) (t : tensor) (w : world) : Prop :=
  ready_tensor h l shape t w /\
  match r with
  | Ok dest' => filled_with h l shape dest dest'
  | Err e => eval_error (n_dtype (get (h_nodes h) l)) shape dest t w e
  end.

(** Binding a compiled kernel gives the tape that it lowers to. *)
Lemma bind_compiled h l shape t w kp k : ready_tensor h l shape t w ->
  tn_kernel t = Some kp -> w_kernels w !! kp = Some k -> compiled h l shape k (w_heap w) ->
  let '(rp, w2) := Program (Some kp) w in
  ready_tensor h l shape t w2 /\ w_heap w2 = w_heap w /\ w_kernels w2 = w_kernels w /\
  match lowerCPU (h_nodes (w_heap w)) (k_order k) (k_bufs k) (k_built k) with
  | Err err => rp = Err err
  | Ok tape => exists e, rp = Ok e /\ e_kernel e = kp /\ e_tape e = tape
  end.
Proof using.
  intros Hrd Hkp Hk Hc.
  pose proof (table_bind w kp k (rd_table _ _ _ _ _ Hrd) Hk (compiled_listed _ _ _ _ _ Hc)) as Ht2.
  pose proof (Program_spec w kp k (proj1 (rd_table _ _ _ _ _ Hrd)) Hk) as K.
  destruct (Program (Some kp) w) as [rp w2]. cbn [snd] in Ht2. destruct K as (Kr & _ & Eh & Ek).
  split; [|split; [exact Eh|split; [exact Ek|]]].
  - split; [apply Hrd|exact Ht2|apply Hrd|]. right. exists kp, k. rewrite Eh, Ek. auto.
  - destruct (lowerCPU _ _ _ _); [destruct Kr as (e & ? & ? & ? & _); eauto|tauto].
Qed.

(** What [realize] does once the tensor is compiled. *)
Definition run_bound (rt : runtime) (t : tensor) (w : world) (k : Kernel) (dest : list Z)
    (r : res (list Z) * (tensor * world)) : Prop :=
  let need := k_size k * dtype_size (k_outType k) in
  if Z.of_nat (length dest) <? need then r = (Err ErrSize, (t, w)) else
  let '(rp, w2) := Program (tn_kernel t) w in
  match rp with
  | Err e => r = (Err e, (t, w2))
  | Ok e =>
      exists ro, exec_Eval rt w2 e (take (Z.to_nat need) dest) ro /\
        r = (res_map (fun out => out ++ drop (Z.to_nat need) dest) ro, (t, w2))
  end.

Lemma run_bound_spec h l shape t w kp k rt dest : ready_tensor h l shape t w ->
  tn_kernel t = Some kp -> w_kernels w !! kp = Some k -> compiled h l shape k (w_heap w) ->
  is_number_type (n_dtype (get (h_nodes h) l)) = true -> 0 < ready rt ->
  (exists r, run_bound rt t w k dest r) /\
  forall r, run_bound rt t w k dest r -> realized h l shape dest (fst r) (fst (snd r)) (snd (snd r)).
Proof using.
  intros Hrd Hkp Hk Hc Hd Hr. destruct (out_size_number _ Hd) as [Ed Pd].
  assert (Hneed : k_size k * dtype_size (k_outType k) = Size shape * out_size (n_dtype (get (h_nodes h) l))).
  { rewrite (co_size _ _ _ _ _ Hc), (co_type _ _ _ _ _ Hc), Ed. reflexivity. }
  unfold run_bound. rewrite Hkp. cbv zeta.
  destruct (Z.ltb_spec (Z.of_nat (length dest)) (k_size k * dtype_size (k_outType k))) as [Hlt|Hge].
  { split; [eauto|]. intros r ->. split; [exact Hrd|]. left. rewrite <- Hneed. auto. }
  pose proof (bind_compiled h l shape t w kp k Hrd Hkp Hk Hc) as K.
  destruct (Program (Some kp) w) as [rp w2]. destruct K as (Hrd2 & Eh & Ek & Krp).
  destruct (lowerCPU _ _ _ _) as [tape|err] eqn:El.
  - destruct Krp as (e & -> & Hek & Het). subst tape kp. rewrite <- Eh in Hc, El. rewrite <- Ek in Hk.
    destruct (exec_filled h l shape k w2 e rt dest (rd_ev _ _ _ _ _ Hrd) Hc Hd Hr El Hk Hge) as [[ro Hro] Hf].
    split; [eauto|]. intros r (ro' & Hro' & ->). destruct (Hf ro' Hro') as (out & -> & Hfill).
    split; [exact Hrd2|exact Hfill].
  - subst rp. split; [eauto|]. intros r ->. split; [exact Hrd2|]. right. exists kp, k. cbn [fst snd]. rewrite Eh, Ek. auto.
Qed.

Lemma realize_slow_spec h l shape t w rt dest : ready_tensor h l shape t w ->
  is_number_type (n_dtype (get (h_nodes h) l)) = true -> 0 < ready rt ->
  (exists r, realize_slow rt t w dest r) /\
  forall r, realize_slow rt t w dest r -> realized h l shape dest (fst r) (fst (snd r)) (snd (snd r)).
Proof using.
  intros Hrd Hd Hr. destruct (ensure_ready h l shape t w Hrd) as [[r0 Hr0] Hall].
  assert (Hstep : forall r, ensure t w r -> exists t' w1 k, r = (Ok t', w1) /\
    kernel_of (w_kernels w1) t' = Some k /\ (exists r, run_bound rt t' w1 k dest r) /\
    forall r, run_bound rt t' w1 k dest r -> realized h l shape dest (fst r) (fst (snd r)) (snd (snd r))).
  { intros r Hre. destruct (Hall r Hre) as (t' & w1 & kp & k & -> & Hrd1 & Hkp & Hk & Hc).
    exists t', w1, k. split; [reflexivity|]. split; [unfold kernel_of; rewrite Hkp; exact Hk|].
    eapply run_bound_spec; eauto. }
  unfold realize_slow. split.
  - destruct (Hstep r0 Hr0) as (t' & w1 & k & -> & Hk & [r Hrun] & _). exists r, (Ok t'), w1.
    split; [exact Hr0|]. rewrite Hk. exact Hrun.
  - intros r (rk & w1 & Hre & Hcase). destruct (Hstep _ Hre) as (t' & w1' & k & [= -> <-] & Hk & _ & Hspec).
    rewrite Hk in Hcase. apply Hspec, Hcase.
Qed.

(** ** The fast path *)

Lemma ready_world h l shape t w : ready_tensor h l shape t w ->
  ext h (w_heap w) /\ get (h_nodes (w_heap w)) l = get (h_nodes h) l /\
  tensor_Size (h_nodes (w_heap w)) (w_kernels w) (Some t) = Size shape.
Proof using.
  intros [Hev _ Hn Hst]. assert (Hx : ext h (w_heap w)).
  { destruct Hst as [[_ ->]|(kp & k & _ & _ & Hc)]; [reflexivity|apply (co_ext _ _ _ _ _ Hc)]. }
  split; [exact Hx|]. destruct Hx as [[ns En] _]. pose proof (proj1 (ev_node _ _ _ Hev)) as Hl.
  split; [rewrite En; apply get_app, Hl|]. unfold tensor_Size, tensor_Shape.
  destruct Hst as [[-> _]|(kp & k & Hkp & Hk & Hc)].
  - rewrite Hn, En, nShape_app by exact Hl. rewrite (ev_shape _ _ _ Hev). reflexivity.
  - unfold kernel_of. rewrite Hkp. cbn [mbind option_bind]. rewrite Hk. apply (co_size _ _ _ _ _ Hc).
Qed.

Lemma word_range d bytes i : Forall (fun x => 0 <= x < 256) bytes -> d = U8 -> 0 <= word (mkBuffer bytes d) i < 256.
Proof using.
  intros Hb ->. unfold word. cbn [buf_dtype raw]. destruct (_ <? 0); [lia|]. destruct (_ <=? i); [lia|].
  unfold byte_at. rewrite nth_lookup. destruct (bytes !! Z.to_nat i) eqn:Ei; [|simpl; lia].
  exact (proj1 (Forall_lookup _ _) Hb _ _ Ei).
Qed.

(** Copying the bytes of a contiguous leaf. *)
Lemma copy_filled h l shape bytes dest : heap_ok h -> bufs_ok h -> valid_ptr h l -> nShape (h_nodes h) l = Some shape ->
  let d := n_dtype (get (h_nodes h) l) in
  is_number_type d = true -> fast_source d h l = Some bytes ->
  let need := Size shape * dtype_size d in
  need <= Z.of_nat (length dest) -> need <= Z.of_nat (length bytes) ->
  filled_with h l shape dest (take (Z.to_nat need) bytes ++ drop (Z.to_nat need) dest).
Proof using.
  intros H Hb [Hl He] Hs d Hd Hfast need Hdest Hbytes. destruct (lookup_lt_is_Some_2 _ _ Hl) as [n Hn].
  pose proof (get_lookup _ _ _ Hn) as Eg. subst d. unfold filled_with. rewrite Eg in *. cbv zeta.
  destruct (out_size_number _ Hd) as [Ed Pd]. assert (En : need = Size shape * out_size (n_dtype n)) by (unfold need; rewrite ?Eg, Ed; reflexivity).
  pose proof (Size_nonneg shape (nShape_nonneg h l shape H Hl Hs)) as Hsz. assert (0 <= need) by nia.
  unfold fast_source in Hfast. rewrite Eg in Hfast. destruct (_ && _ && _) eqn:Ec; [|discriminate Hfast].
  apply andb_true_iff in Ec as [Ec _]. apply andb_true_iff in Ec as [Ek Ect]. apply bool_decide_eq_true in Ek.
  destruct (Hb l n Hn Ek) as (bp & bf & Hbp & Hbf & Hbd & _). unfold leaf_buffer in Hfast. rewrite Hbp in Hfast.
  cbn [mbind option_bind] in Hfast. rewrite Hbf in Hfast. injection Hfast as <-.
  pose proof (heap_nodes h H l n Hn) as K. unfold node_ok in K. rewrite He, Ek in K. destruct K as (_ & _ & Hnil & _ & _ & m & Hwf).
  assert (Hdims : t_dims (n_tracker n) = shape).
  { rewrite (nShape_unfold _ _ n) in Hs by auto using heap_acyclic. symmetry. rewrite <- (node_shape_dims (nShape (h_nodes h)) n) by
      (auto; apply (wf_views _ _ Hwf)). rewrite Hs. reflexivity. }
  assert (Hlt : length (take (Z.to_nat need) (raw bf)) = Z.to_nat need) by (rewrite length_take; lia).
  split; [rewrite length_app, Hlt, length_drop; lia|]. split.
  - intros i Hi. left. assert (Hin : in_bounds shape (unravel shape i)).
    { apply unravel_in_bounds; [|lia]. apply positive_of_nonempty; [exact (nShape_nonneg h l shape H Hl Hs)|lia]. }
    rewrite (den_unfold h l n) by auto using heap_acyclic. unfold node_den. rewrite Ek.
    rewrite (Contiguous_locate _ _ Ect) by (rewrite Hdims; exact Hin). rewrite Hdims, ravel_unravel.
    2: apply positive_of_nonempty; [exact (nShape_nonneg h l shape H Hl Hs)|lia]. 2: lia.
    unfold buf_word. rewrite Hbp. cbn [mbind option_bind]. rewrite Hbf.
    rewrite word_app by (try rewrite Hlt; nia). rewrite <- (word_app _ (drop (Z.to_nat need) (raw bf))) by (try rewrite Hlt; nia).
    rewrite take_drop. destruct bf as [bytes bd]. cbn [raw buf_dtype] in *. subst bd.
    unfold stored. destruct (n_dtype n) eqn:Edn; try reflexivity. symmetry. apply Z.mod_small, word_range; [|reflexivity].
    pose proof (proj1 (Forall_lookup _ _) (heap_bufs h H) bp _ Hbf). assumption.
  - rewrite <- En. rewrite drop_app_length' by lia. reflexivity.
Qed.

(** Evaluating a tensor: it always returns; the destination is filled with
    the values of the graph, or the error says why not; and the tensor and
    the evaluator are ready again. *)
Lemma realize_ok h l shape t w rt dest : bufs_ok h -> ready_tensor h l shape t w ->
  let d := n_dtype (get (h_nodes h) l) in
  is_number_type d = true -> 0 < ready rt ->
  (exists r, realize rt d (Some t) w dest r) /\
  forall r, realize rt d (Some t) w dest r ->
    exists t', fst (snd r) = Some t' /\ realized h l shape dest (fst r) t' (snd (snd r)).
Proof using.
  intros Hb Hrd d Hd Hr. destruct (ready_world _ _ _ _ _ Hrd) as ([[ns En] Eb] & Eg & Esz).
  pose proof (rd_ev _ _ _ _ _ Hrd) as [H Hl Hs _ _]. pose proof (rd_node _ _ _ _ _ Hrd) as Hn.
  assert (Hslow : (exists r', exists r, realize_slow rt t w dest r /\ r' = (fst r, (Some (fst (snd r)), snd (snd r)))) /\
    forall r', (exists r, realize_slow rt t w dest r /\ r' = (fst r, (Some (fst (snd r)), snd (snd r)))) ->
      exists t', fst (snd r') = Some t' /\ realized h l shape dest (fst r') t' (snd (snd r'))).
  { destruct (realize_slow_spec h l shape t w rt dest Hrd Hd Hr) as [[r Hex] Hall].
    split; [eauto|]. intros r' (r1 & Hr1 & ->). eexists. split; [reflexivity|]. apply Hall, Hr1. }
  unfold realize. cbn [tensor_err]. rewrite Hn, Eg, (proj2 Hl). cbn [mbind option_bind default from_option id]. rewrite Eg, Esz.
  destruct (fast_source d (w_heap w) l) as [bytes|] eqn:Ef; [|exact Hslow]. cbv zeta.
  destruct (out_size_number _ Hd) as [Ed Pd].
  destruct (Z.ltb_spec (Z.of_nat (length dest)) (Size shape * dtype_size (n_dtype (get (h_nodes h) l)))) as [Hlt|Hge].
  { split; [eauto|]. intros r ->. exists t. split; [reflexivity|]. split; [exact Hrd|]. left.
    split; [reflexivity|]. fold d in Hlt |- *. fold d in Ed. rewrite <- Ed. exact Hlt. }
  destruct (negb _ || _) eqn:Ecase; [exact Hslow|]. apply orb_false_iff in Ecase as [_ Ecase]. apply Z.ltb_ge in Ecase.
  split; [eauto|]. intros r ->. exists t. split; [reflexivity|]. split; [exact Hrd|].
  apply copy_filled; auto. unfold fast_source in *. rewrite Eg in Ef. unfold leaf_buffer in *. rewrite Eb in Ef. exact Ef.
Qed.
End realizing.
