(* ===== verification/Nn.v ===== *)
(** * Layers (src/x/ndarray/nn)

    Matrix products, convolution and pooling as graphs of tensor operations.
    Each layer is translated statement by statement, over a monad of the heap
    and the errors; a loop over a window is a fold that stops at the first
    error. *)
From Stdlib Require Import ZArith Lia.
From stdpp Require Import base numbers option list relations.
From S2P Require Import Prelude Float Alu Shape View Reshape Tracker Expr Rewrite Optimize Flatten Cpu Kernel Eval Tensor.

Local Open Scope Z_scope.

(** ** The monad of the layers *)

Definition TM (A : Type) : Type := heap -> res A * heap.

Definition tm_ret {A} (a : A) : TM A := fun h => (Ok a, h).
Definition tm_fail {A} (e : err) : TM A := fun h => (Err e, h).
Definition tm_res {A} (r : res A) : TM A := fun h => (r, h).
Definition tm_bind {A B} (m : TM A) (k : A -> TM B) : TM B :=
  fun h => let '(r, h) := m h in match r with Ok a => k a h | Err e => (Err e, h) end.

(** A call that cannot fail. *)
Definition tm_call {A} (f : heap -> A * heap) : TM A := fun h => let '(a, h) := f h in (Ok a, h).

Notation "'let!' x ':=' m 'in' k" := (tm_bind m (fun x => k))
  (at level 10, x pattern, m at level 100, k at level 200,
   format "'let!'  x  ':='  m  'in' '//' k") : lewkit_scope.

(** [for i := range n] *)
Fixpoint range_from {A} (n : nat) (i : Z) (body : Z -> A -> TM A) (a : A) : TM A :=
  match n with
  | O => tm_ret a
  | S n => let! a := body i a in range_from n (i + 1) body a
  end.
Definition for_range {A} (n : Z) (body : Z -> A -> TM A) (a : A) : TM A := range_from (Z.to_nat n) 0 body a.

(** ** nchw.go *)

(** Coordinates of a shape by position; the source indexes slices. *)
Definition dim (s : Shape) (i : nat) : Z := nth i s 0.

Definition scalarType (d : DType) : res unit :=
  match d with F32 | I32 => Ok tt | _ => Err ErrType end.

Definition AxisShrink (shape : Shape) (axis : nat) (start stop : Z) : list (Z * Z) :=
  <[axis := (start, stop)]> (map (fun dim => (0, dim)) shape).

(** [left[j]] for the [j] that stands under axis [i] of [rank], or 1. *)
Definition prefix_dim (s : Shape) (rank i : nat) : Z :=
  if (i <? rank - length s)%nat then 1 else dim s (i - (rank - length s)).

Fixpoint broadcast_axes (left right : Shape) (rank : nat) (axes : list nat) : res Shape :=
  match axes with
  | [] => Ok []
  | i :: axes' =>
      let dimLeft := prefix_dim left rank i in
      let dimRight := prefix_dim right rank i in
      let? d :=
        (if dimLeft =? dimRight then Ok dimLeft
         else if dimLeft =? 1 then Ok dimRight
         else if dimRight =? 1 then Ok dimLeft
         else Err ErrShape) in
      let? out := broadcast_axes left right rank axes' in
      Ok (d :: out)
  end.

Definition broadcastPrefix (left right : Shape) : res Shape :=
  let rank := Nat.max (length left) (length right) in
  broadcast_axes left right rank (seq 0 rank).

Section layers.
(** The kernels of tensors that are already compiled. *)
Variable ks : list Kernel.
(** The element type [T]. *)
Variable d : DType.

Definition shape_of (t : tensor) (h : heap) : Shape := opt_list (tensor_Shape (h_nodes h) ks (Some t)).
Definition tm_shape (t : tensor) : TM Shape := fun h => (Ok (shape_of t h), h).
Definition mv (m : move) (t : tensor) : TM tensor := tensor_move ks m (Some t).

Definition no_pads (pads : list Z) : bool :=
  (dim pads 0 =? 0) && (dim pads 1 =? 0) && (dim pads 2 =? 0) && (dim pads 3 =? 0).

Definition padNCHW (t : tensor) (pads : list Z) : TM tensor :=
  if no_pads pads then tm_ret t
  else mv (MPad [(0, 0); (0, 0); (dim pads 0, dim pads 2); (dim pads 1, dim pads 3)]) t.

Definition is_zero (v : Number) : bool :=
  match v with NumF32 bits => bits =? 0 | NumI32 v | NumU8 v => v =? 0 end.

Definition padNCHWMax (t : tensor) (pads : list Z) : TM tensor :=
  if no_pads pads then tm_ret t else
  let! padded := padNCHW t pads in
  let fill := Lowest d in
  if is_zero fill then tm_ret padded else
  let! s := tm_shape t in
  let! ones := Ones d (Some s) in
  let! mask := padNCHW ones pads in
  let! zero := tm_call (Const (number_of d 0)) in
  let! ne := tm_call (tensor_CmpNe (Some mask) (Some zero)) in
  let! low := tm_call (Const fill) in
  tm_call (tensor_Where (Some ne) (Some padded) (Some low)).

Definition stridedNCHW (t : tensor) (startHeight startWidth heightOut widthOut strideHeight strideWidth : Z) : TM tensor :=
  let! shape := tm_shape t in
  if negb (length shape =? 4)%nat then tm_fail ErrShape else
  let batch := dim shape 0 in
  let channels := dim shape 1 in
  let windowHeight := heightOut * strideHeight in
  let windowWidth := widthOut * strideWidth in
  let! cropped := mv (MShrink [(0, batch); (0, channels); (startHeight, startHeight + windowHeight);
    (startWidth, startWidth + windowWidth)]) t in
  let! shaped := mv (MReshape [batch; channels; heightOut; strideHeight; widthOut; strideWidth]) cropped in
  let! cell := mv (MShrink [(0, batch); (0, channels); (0, heightOut); (0, 1); (0, widthOut); (0, 1)]) shaped in
  mv (MReshape [batch; channels; heightOut; widthOut]) cell.

(** [acc == nil] takes the term, and otherwise [op] it in. *)
Definition accumulate (op : option tensor -> option tensor -> heap -> tensor * heap) (acc : option tensor) (term : tensor)
    : TM (option tensor) :=
  match acc with
  | None => tm_ret (Some term)
  | Some a => tm_call (fun h => let '(t, h) := op (Some a) (Some term) h in (Some t, h))
  end.

(** ** linear.go *)

Definition linear_step (w x : tensor) (out : Z) (j : Z) (acc : option tensor) : TM (option tensor) :=
  let! col := mv (MShrink [(0, out); (j, j + 1)]) w in
  let! col := mv (MReshape [out]) col in
  let! xj := mv (MShrink [(j, j + 1)]) x in
  let! xj := mv (MExpand [out]) xj in
  let! term := tm_call (tensor_Mul (Some col) (Some xj)) in
  accumulate tensor_Add acc term.

Definition Linear (w x b : option tensor) : TM tensor :=
  let! _ := tm_res (scalarType d) in
  match w, x, b with
  | Some w, Some x, Some b =>
      let! ws := tm_shape w in
      let! xs := tm_shape x in
      let! bs := tm_shape b in
      if negb (length ws =? 2)%nat || negb (length xs =? 1)%nat || negb (length bs =? 1)%nat then tm_fail ErrShape else
      let out := dim ws 0 in
      let inn := dim ws 1 in
      if negb (dim xs 0 =? inn) || negb (dim bs 0 =? out) then tm_fail ErrShape else
      if inn =? 0 then tm_ret b else
      let! acc := for_range inn (linear_step w x out) None in
      tm_call (tensor_Add acc (Some b))
  | _, _, _ => tm_fail ErrOp
  end.

(** ** matmul.go *)

Definition matmul_step (a b : tensor) (aMat bMat outShape : Shape) (i : Z) (acc : option tensor) : TM (option tensor) :=
  let! row := mv (MShrink (AxisShrink aMat (length aMat - 1) i (i + 1))) a in
  let! row := mv (MExpand outShape) row in
  let! column := mv (MShrink (AxisShrink bMat (length bMat - 2) i (i + 1))) b in
  let! column := mv (MExpand outShape) column in
  let! term := tm_call (tensor_Mul (Some row) (Some column)) in
  accumulate tensor_Add acc term.

(** A vector becomes a row (left operand) or a column (right operand). *)
Definition promote (row : bool) (t : tensor) : TM (tensor * bool) :=
  let! s := tm_shape t in
  if (length s =? 1)%nat then
    let! t := mv (MReshape (if row then [1; dim s 0] else [dim s 0; 1])) t in
    tm_ret (t, true)
  else tm_ret (t, false).

Definition matmul_shape (batch : Shape) (rows columns : Z) (squeezeRows squeezeColumns : bool) : Shape :=
  match squeezeRows, squeezeColumns with
  | true, true => []
  | true, false => With batch [columns]
  | false, true => With batch [rows]
  | false, false => With batch [rows; columns]
  end.

(** The last reshape; its error is dropped. *)
Definition squeeze (accumulated : tensor) (want : Shape) : TM tensor := fun h =>
  if Equal (shape_of accumulated h) want then (Ok accumulated, h) else
  let '(r, h) := mv (MReshape want) accumulated h in
  match r with Ok out => (Ok out, h) | Err _ => (Ok accumulated, h) end.

Definition tm_PadRank (t : tensor) (rank : Z) : TM tensor := fun h =>
  let '(r, h) := PadRank ks (Some t) rank h in
  match r with
  | Ok (Some t) => (Ok t, h)
  | Ok None => (Err ErrOp, h)
  | Err e => (Err e, h)
  end.

Definition MatrixMultiply (a b : option tensor) : TM tensor :=
  let! _ := tm_res (scalarType d) in
  match a, b with
  | Some a, Some b =>
      let! aShape := tm_shape a in
      let! bShape := tm_shape b in
      if (length aShape =? 0)%nat || (length bShape =? 0)%nat then tm_fail ErrShape else
      let! (a, squeezeRows) := promote true a in
      let! (b, squeezeColumns) := promote false b in
      let! aShape := tm_shape a in
      let! bShape := tm_shape b in
      let aBatch := take (length aShape - 2) aShape in
      let bBatch := take (length bShape - 2) bShape in
      let rows := dim aShape (length aShape - 2) in
      let inner := dim aShape (length aShape - 1) in
      let innerB := dim bShape (length bShape - 2) in
      let columns := dim bShape (length bShape - 1) in
      if negb (inner =? innerB) then tm_fail ErrShape else
      let! batch := tm_res (broadcastPrefix aBatch bBatch) in
      let outRank := Rank batch + 2 in
      let! a := tm_PadRank a outRank in
      let! b := tm_PadRank b outRank in
      let aMat := With batch [rows; inner] in
      let bMat := With batch [inner; columns] in
      let! a := mv (MExpand aMat) a in
      let! b := mv (MExpand bMat) b in
      let outShape := With batch [rows; columns] in
      if inner =? 0 then Zeros d (Some outShape) else
      let! acc := for_range inner (matmul_step a b aMat bMat outShape) None in
      match acc with
      | None => tm_fail ErrOp
      | Some acc => squeeze acc (matmul_shape batch rows columns squeezeRows squeezeColumns)
      end
  | _, _ => tm_fail ErrOp
  end.

(** ** conv.go *)

Definition conv_step (channel weight : tensor) (outShape : Shape)
    (batch channelsOut heightOut widthOut strideHeight strideWidth inputChannel kernelY kernelX : Z)
    (acc : option tensor) : TM (option tensor) :=
  let! patch := stridedNCHW channel kernelY kernelX heightOut widthOut strideHeight strideWidth in
  let! patch := mv (MReshape [batch; 1; heightOut; widthOut]) patch in
  let! patch := mv (MExpand outShape) patch in
  let! coeff := mv (MShrink [(0, channelsOut); (inputChannel, inputChannel + 1); (kernelY, kernelY + 1);
    (kernelX, kernelX + 1)]) weight in
  let! coeff := mv (MReshape [1; channelsOut; 1; 1]) coeff in
  let! coeff := mv (MExpand outShape) coeff in
  let! term := tm_call (tensor_Mul (Some patch) (Some coeff)) in
  accumulate tensor_Add acc term.

Definition Convolution2D (input weight : option tensor) (pads : list Z) (strideHeight strideWidth : Z) : TM tensor :=
  let! _ := tm_res (scalarType d) in
  match input, weight with
  | Some input, Some weight =>
      let strideHeight := if strideHeight <=? 0 then 1 else strideHeight in
      let strideWidth := if strideWidth <=? 0 then 1 else strideWidth in
      let! inputShape := tm_shape input in
      let! weightShape := tm_shape weight in
      if negb (length inputShape =? 4)%nat || negb (length weightShape =? 4)%nat then tm_fail ErrShape else
      if negb (length pads =? 4)%nat then tm_fail ErrPad else
      let batch := dim inputShape 0 in
      let channelsIn := dim inputShape 1 in
      let height := dim inputShape 2 in
      let width := dim inputShape 3 in
      let channelsOut := dim weightShape 0 in
      let weightIn := dim weightShape 1 in
      let kernelHeight := dim weightShape 2 in
      let kernelWidth := dim weightShape 3 in
      if negb (channelsIn =? weightIn) then tm_fail ErrShape else
      let heightOut := WindowLength height (dim pads 0) (dim pads 2) kernelHeight strideHeight in
      let widthOut := WindowLength width (dim pads 1) (dim pads 3) kernelWidth strideWidth in
      if (heightOut <=? 0) || (widthOut <=? 0) then tm_fail ErrShape else
      let '(heightBefore, heightAfter) := CoverPad height kernelHeight strideHeight heightOut (dim pads 0) (dim pads 2) in
      let '(widthBefore, widthAfter) := CoverPad width kernelWidth strideWidth widthOut (dim pads 1) (dim pads 3) in
      let! padded := padNCHW input [heightBefore; widthBefore; heightAfter; widthAfter] in
      let! paddedShape := tm_shape padded in
      let outShape := [batch; channelsOut; heightOut; widthOut] in
      let! acc :=
        for_range channelsIn (fun inputChannel acc =>
          let! channel := mv (MShrink [(0, batch); (inputChannel, inputChannel + 1); (0, dim paddedShape 2);
            (0, dim paddedShape 3)]) padded in
          for_range kernelHeight (fun kernelY acc =>
            for_range kernelWidth (fun kernelX acc =>
              conv_step channel weight outShape batch channelsOut heightOut widthOut strideHeight strideWidth
                inputChannel kernelY kernelX acc) acc) acc) None in
      match acc with
      | None => Zeros d (Some outShape)
      | Some acc => tm_ret acc
      end
  | _, _ => tm_fail ErrOp
  end.

(** ** pool.go *)

Record poolKernel : Type := mkPoolKernel {
  kernelHeight : Z;
  kernelWidth : Z;
  strideHeight : Z;
  strideWidth : Z
}.

Record poolWindow : Type := mkPoolWindow {
  pw_strideHeight : Z;
  pw_strideWidth : Z;
  heightOut : Z;
  widthOut : Z;
  heightBefore : Z;
  widthBefore : Z;
  heightAfter : Z;
  widthAfter : Z
}.

Definition poolWindowOf (inputShape : Shape) (kernel : poolKernel) (pads : list Z) : res poolWindow :=
  if (kernelHeight kernel <=? 0) || (kernelWidth kernel <=? 0) then Err ErrOp else
  let sh := if strideHeight kernel <=? 0 then 1 else strideHeight kernel in
  let sw := if strideWidth kernel <=? 0 then 1 else strideWidth kernel in
  let pads := match pads with [] => [0; 0; 0; 0] | _ => pads end in
  if negb (length pads =? 4)%nat then Err ErrPad else
  if negb (length inputShape =? 4)%nat then Err ErrShape else
  let height := dim inputShape 2 in
  let width := dim inputShape 3 in
  let ho := WindowLength height (dim pads 0) (dim pads 2) (kernelHeight kernel) sh in
  let wo := WindowLength width (dim pads 1) (dim pads 3) (kernelWidth kernel) sw in
  if (ho <=? 0) || (wo <=? 0) then Err ErrShape else
  let '(hb, ha) := CoverPad height (kernelHeight kernel) sh ho (dim pads 0) (dim pads 2) in
  let '(wb, wa) := CoverPad width (kernelWidth kernel) sw wo (dim pads 1) (dim pads 3) in
  Ok (mkPoolWindow sh sw ho wo hb wb ha wa).

(** The loops over the window of a padded tensor. *)
Definition pool_window (op : option tensor -> option tensor -> heap -> tensor * heap) (padded : tensor)
    (kernel : poolKernel) (w : poolWindow) : TM (option tensor) :=
  for_range (kernelHeight kernel) (fun kernelY acc =>
    for_range (kernelWidth kernel) (fun kernelX acc =>
      let! cell := stridedNCHW padded kernelY kernelX (heightOut w) (widthOut w) (pw_strideHeight w) (pw_strideWidth w) in
      accumulate op acc cell) acc) None.

Definition cover_pads (w : poolWindow) : list Z := [heightBefore w; widthBefore w; heightAfter w; widthAfter w].

Definition MaximumPool2D (input : option tensor) (kernel : poolKernel) (pads : list Z) : TM (option tensor) :=
  let! _ := tm_res (scalarType d) in
  match input with
  | None => tm_fail ErrOp
  | Some input =>
      let! inputShape := tm_shape input in
      let! w := tm_res (poolWindowOf inputShape kernel pads) in
      let! padded := padNCHWMax input (cover_pads w) in
      pool_window tensor_Max padded kernel w
  end.

(** [T(v)] for an [int]. *)
Definition number_of_int (v : Z) : Number :=
  match d with F32 => NumF32 (pack 0 (float_of_int v)) | _ => number_of d v end.

Definition AveragePool2D (input : option tensor) (kernel : poolKernel) (pads : list Z) (countIncludePad : bool) : TM tensor :=
  let! _ := tm_res (scalarType d) in
  match input with
  | None => tm_fail ErrOp
  | Some input =>
      let! inputShape := tm_shape input in
      let! w := tm_res (poolWindowOf inputShape kernel pads) in
      let! padded := padNCHW input (cover_pads w) in
      let! sum := pool_window tensor_Add padded kernel w in
      let callerZero := (length pads =? 0)%nat || no_pads pads in
      if countIncludePad || callerZero then
        let! count := tm_call (Const (number_of_int (kernelHeight kernel * kernelWidth kernel))) in
        tm_call (DivNumber d sum (Some count))
      else
        let! s := tm_shape input in
        let! ones := Ones d (Some s) in
        let! onesPad := padNCHW ones (cover_pads w) in
        let! count := pool_window tensor_Add onesPad kernel w in
        tm_call (DivNumber d sum count)
  end.
End layers.
