(* ===== verification/Layers.v ===== *)
(** * What the layers compute (src/x/ndarray/nn)

    A tensor [holds] a function from coordinates to numbers.  The file gives
    each step of a layer as a rule on what tensors hold, and composes the
    rules: a strided window reads the strided cells, and a linear layer and a
    convolution compute their sums in the order of their loops. *)
From Stdlib Require Import ZArith Lia.
From stdpp Require Import base numbers option list relations.
From S2P Require Import Prelude Float Alu Shape View Reshape Tracker Expr Rewrite Optimize Flatten Cpu Kernel Eval Tensor Nn.

Local Open Scope Z_scope.

(** Coordinates of a shape given as a list. *)
Ltac coords :=
  unfold in_bounds in *;
  repeat match goal with
  | H : Forall2 _ (_ :: _) _ |- _ => inversion H; clear H; subst
  | H : Forall2 _ [] _ |- _ => inversion H; clear H; subst
  end.

(** Pointwise conditions on lists given element by element. *)
Ltac pointwise := repeat (constructor; [cbn; lia|]); constructor.

(** Equality of lists given element by element. *)
Ltac listwise :=
  unfold extents, shift_coords, expand_coords, dim; cbn [map zip_with fst snd nth];
  repeat match goal with |- context [?a =? ?b] => destruct (Z.eqb_spec a b) end;
  repeat match goal with |- _ :: _ = _ :: _ => apply f_equal2; [lia|] end; try reflexivity.

Section rules.
Context {E : FloatEnv}.
Variable ks : list Kernel.

(** The tensor is not compiled and denotes [f] on the cells of shape [s]. *)
Definition holds (h : heap) (t : tensor) (d : DType) (s : Shape) (f : list Z -> Z) : Prop :=
  tn_kernel t = None /\ exists l, tn_node t = Some l /\ valid_ptr h l /\ n_dtype (get (h_nodes h) l) = d /\
    nShape (h_nodes h) l = Some s /\ forall c, in_bounds s c -> den h l c = f c.

(** The computation succeeds and keeps the heap; the result satisfies [Q]. *)
Definition runs {A} (h : heap) (m : TM A) (Q : heap -> A -> Prop) : Prop :=
  let '(r, h') := m h in exists a, r = Ok a /\ heap_ok h' /\ ext h h' /\ Q h' a.

(** It gives a tensor that holds [f]. *)
Definition yields (h : heap) (m : TM tensor) (d : DType) (s : Shape) (f : list Z -> Z) : Prop :=
  runs h m (fun h' t => holds h' t d s f).

Lemma holds_ext h h' t d s f : heap_ok h -> heap_ok h' -> ext h h' -> holds h t d s f -> holds h' t d s f.
Proof using.
  intros H H' Hx (Hk & l & Hn & Hl & Hd & Hs & Hf). split; [exact Hk|]. exists l. split; [exact Hn|].
  pose proof Hx as [[ns En] _]. pose proof (proj1 Hl) as Hlt.
  rewrite En. rewrite get_app, nShape_app by exact Hlt. split; [|split; [exact Hd|split; [exact Hs|]]].
  - split; [rewrite En, length_app; lia|]. rewrite En, get_app by exact Hlt. apply Hl.
  - intros c Hc. rewrite <- (Hf c Hc). apply den_ext; [exact H|apply heap_acyclic, H'|exact Hx|exact Hlt].
Qed.

Lemma holds_weaken h t d s f g : holds h t d s f -> (forall c, in_bounds s c -> f c = g c) -> holds h t d s g.
Proof using.
  intros (Hk & l & Hn & Hl & Hd & Hs & Hf) Hg. split; [exact Hk|]. exists l. repeat (split; [assumption|]).
  intros c Hc. rewrite (Hf c Hc). apply Hg, Hc.
Qed.

Lemma holds_nonneg h t d s f : heap_ok h -> holds h t d s f -> nonneg s.
Proof using. intros H (_ & l & _ & Hl & _ & Hs & _). exact (nShape_nonneg h l s H (proj1 Hl) Hs). Qed.

Lemma holds_shape h t d s f : holds h t d s f -> shape_of ks t h = s.
Proof using.
  intros (Hk & l & Hn & _ & _ & Hs & _). unfold shape_of, tensor_Shape. rewrite Hk, Hn, Hs. reflexivity.
Qed.

Lemma runs_bind {A B} h (m : TM A) (k : A -> TM B) P Q : runs h m P ->
  (forall a h', heap_ok h' -> ext h h' -> P h' a -> runs h' (k a) Q) -> runs h (tm_bind m k) Q.
Proof using.
  unfold runs, tm_bind. intros Hm Hk. destruct (m h) as [r h1]. destruct Hm as (t & -> & H1 & X1 & T1).
  specialize (Hk t h1 H1 X1 T1). destruct (k t h1) as [r h2]. destruct Hk as (t2 & -> & H2 & X2 & T2).
  exists t2. split; [reflexivity|]. split; [exact H2|]. split; [etransitivity; eauto|exact T2].
Qed.

Lemma runs_ret {A} h (a : A) (Q : heap -> A -> Prop) : heap_ok h -> Q h a -> runs h (tm_ret a) Q.
Proof using. intros H Hq. exists a. split; [reflexivity|]. split; [exact H|]. split; [reflexivity|exact Hq]. Qed.

Lemma runs_res {A} h (r : res A) a (Q : heap -> A -> Prop) : heap_ok h -> r = Ok a -> Q h a -> runs h (tm_res r) Q.
Proof using. intros H -> Hq. exists a. split; [reflexivity|]. split; [exact H|]. split; [reflexivity|exact Hq]. Qed.

Lemma runs_weaken {A} h (m : TM A) (P Q : heap -> A -> Prop) : runs h m P ->
  (forall a h', heap_ok h' -> ext h h' -> P h' a -> Q h' a) -> runs h m Q.
Proof using.
  unfold runs. intros Hm Hq. destruct (m h) as [r h1]. destruct Hm as (t & -> & H1 & X1 & T1). exists t. auto.
Qed.

Lemma runs_inv {A} h (m : TM A) (Q : heap -> A -> Prop) : runs h m Q ->
  exists a h', m h = (Ok a, h') /\ heap_ok h' /\ ext h h' /\ Q h' a.
Proof using. unfold runs. destruct (m h) as [r h']. intros (a & -> & H). exists a, h'. split; [reflexivity|exact H]. Qed.

Lemma yields_inv h m d s f : yields h m d s f ->
  exists t h', m h = (Ok t, h') /\ heap_ok h' /\ ext h h' /\ holds h' t d s f.
Proof using. exact (runs_inv h m _). Qed.

(** A loop keeps its invariant. *)
Lemma runs_range {A} (I : Z -> heap -> A -> Prop) n : forall i body (a : A) h,
  heap_ok h -> I i h a ->
  (forall j a h', i <= j < i + Z.of_nat n -> heap_ok h' -> ext h h' -> I j h' a -> runs h' (body j a) (I (j + 1))) ->
  runs h (range_from n i body a) (I (i + Z.of_nat n)).
Proof using.
  induction n as [|n IH]; intros i body a h H Hi Hbody; cbn [range_from].
  - rewrite Z.add_0_r. apply runs_ret; assumption.
  - eapply runs_bind; [apply (Hbody i a h); [lia|exact H|reflexivity|exact Hi]|]. intros a' h' H' X' Hi'.
    replace (i + Z.of_nat (S n)) with (i + 1 + Z.of_nat n) by lia. apply IH; [exact H'|exact Hi'|].
    intros j a2 h2 Hj H2 X2 I2. apply Hbody; [lia|exact H2|etransitivity; eauto|exact I2].
Qed.

Lemma runs_for {A} (I : Z -> heap -> A -> Prop) n body (a : A) h : 0 <= n -> heap_ok h -> I 0 h a ->
  (forall j a h', 0 <= j < n -> heap_ok h' -> ext h h' -> I j h' a -> runs h' (body j a) (I (j + 1))) ->
  runs h (for_range n body a) (I n).
Proof using.
  intros Hn H Hi Hb. pose proof (runs_range I (Z.to_nat n) 0 body a h H Hi) as K.
  rewrite Z2Nat.id, Z.add_0_l in K by exact Hn. apply K, Hb.
Qed.

(** ** Movements *)

Lemma mv_yields h t d s f m s' g f' : heap_ok h -> holds h t d s f -> move_map s m = Ok (s', g) -> s' <> [] ->
  (forall c, in_bounds s' c -> match g c with Some c0 => f c0 | None => 0 end = f' c) ->
  yields h (mv ks m t) d s' f'.
Proof using.
  intros H Hh Hm Hne Hf'. pose proof (holds_nonneg _ _ _ _ _ H Hh) as Hnn. destruct Hh as (Hk & l & Hn & Hl & Hd & Hs & Hf).
  unfold yields, runs, mv. destruct t as [tn tk]. cbn [tn_node tn_kernel] in *. subst tn tk.
  pose proof (tensor_move_outcome ks h l m H Hl) as K. unfold move_outcome in K. rewrite Hs in K. cbn [opt_list] in K.
  assert (Hms : m <> MSplat).
  { intros ->. cbn in Hm. destruct (negb _); [discriminate Hm|]. injection Hm as <- _. contradiction. }
  destruct (tensor_move ks m _ h) as [[t'|e] h'].
  - destruct K as (s2 & g2 & Hm2 & (H' & Hx & Hk' & l' & Hn' & Hl' & Hd' & Hs' & Hv)). cbn [fst snd] in *.
    assert (s2 = s' /\ g2 = g) as [-> ->] by (rewrite Hm in Hm2; split; congruence).
    exists t'. split; [reflexivity|]. split; [exact H'|]. split; [exact Hx|]. split; [exact Hk'|]. exists l'.
    split; [exact Hn'|]. split; [exact Hl'|]. split; [congruence|]. split.
    + destruct (nShape (h_nodes h') l'); simpl in Hs'; congruence.
    + intros c Hc. rewrite (Hv c Hc), <- (Hf' c Hc). destruct (g c) as [c0|] eqn:Eg; [|reflexivity]. apply Hf.
      eapply move_map_in_bounds; eauto.
  - exfalso. destruct K as (_ & _ & [K|[(Hv & _ & [Kc|K])|(K & _)]]); try congruence.
    cbn [fst snd] in *. destruct (lookup_lt_is_Some_2 _ _ (proj1 Hl)) as [n Hln]. rewrite (get_lookup _ _ _ Hln) in *.
    pose proof (proj2 Hl) as He. rewrite (get_lookup _ _ _ Hln) in He.
    rewrite (nShape_unfold _ _ n (heap_acyclic _ H) Hln) in Hs. unfold node_shape in Hs. rewrite He, Kc, Hv in Hs. discriminate Hs.
Qed.

Lemma mv_shrink h t d s f arg s' f' : heap_ok h -> holds h t d s f ->
  Forall2 (fun p n => 0 <= fst p <= snd p /\ snd p <= n) arg s -> extents arg = s' -> s' <> [] ->
  (forall c, in_bounds s' c -> f (shift_coords arg c) = f' c) ->
  yields h (mv ks (MShrink arg) t) d s' f'.
Proof using.
  intros H Hh Ha <- Hne Hf. apply (mv_yields h t d s f _ _ (fun c => Some (shift_coords arg c))); auto.
  cbn [move_map]. rewrite bool_decide_true by exact Ha. reflexivity.
Qed.

Lemma mv_expand h t d s f s' f' : heap_ok h -> holds h t d s f -> Forall2 (fun a b => a = b \/ a = 1) s s' ->
  nonneg s' -> s' <> [] -> (forall c, in_bounds s' c -> f (expand_coords s c) = f' c) ->
  yields h (mv ks (MExpand s') t) d s' f'.
Proof using.
  intros H Hh Ha Hn Hne Hf. apply (mv_yields h t d s f _ _ (fun c => Some (expand_coords s c))); auto.
  cbn [move_map]. rewrite !bool_decide_true by assumption. reflexivity.
Qed.

(** A reshape reads the cell of the same number. *)
Lemma mv_reshape h t d s f s' f' : heap_ok h -> holds h t d s f -> nonneg s' -> Size s' = Size s -> s' <> [] ->
  (forall c, in_bounds s' c -> exists c0, in_bounds s c0 /\ ravel s c0 = ravel s' c /\ f c0 = f' c) ->
  yields h (mv ks (MReshape s') t) d s' f'.
Proof using.
  intros H Hh Hn Hsz Hne Hf. apply (mv_yields h t d s f _ _ (fun c => Some (unravel s (ravel s' c)))); auto.
  - cbn [move_map]. rewrite Infer_nonneg, Hsz, Z.eqb_refl by exact Hn. reflexivity.
  - intros c Hc. destruct (Hf c Hc) as (c0 & H0 & E0 & <-). rewrite <- E0, unravel_ravel by exact H0. reflexivity.
Qed.

Lemma mv_reshape_same h t d s f : heap_ok h -> holds h t d s f -> s <> [] -> yields h (mv ks (MReshape s) t) d s f.
Proof using.
  intros H Hh Hne. apply (mv_reshape h t d s f s f H Hh); [exact (holds_nonneg _ _ _ _ _ H Hh)|reflexivity|exact Hne|].
  intros c Hc. exists c. auto.
Qed.

Lemma mv_pad h t d s f arg s' f' : heap_ok h -> holds h t d s f -> length arg = length s -> pad_valid arg ->
  padded arg s = s' -> s' <> [] ->
  (forall c, in_bounds s' c -> (if mask_ok (pad_mask arg s) c then f (pad_coords arg c) else 0) = f' c) ->
  yields h (mv ks (MPad arg) t) d s' f'.
Proof using.
  intros H Hh Hl Hv <- Hne Hf.
  apply (mv_yields h t d s f _ _ (fun c => if mask_ok (pad_mask arg s) c then Some (pad_coords arg c) else None)); auto.
  - cbn [move_map]. rewrite !bool_decide_true by assumption. reflexivity.
  - intros c Hc. rewrite <- (Hf c Hc). destruct (mask_ok _ c); reflexivity.
Qed.

(** ** Arithmetic *)

Lemma bin_yields h op t1 t2 d d' s f1 f2 : heap_ok h -> holds h t1 d s f1 -> holds h t2 d s f2 ->
  binaryType op d d = Ok d' ->
  yields h (tm_call (tensor_bin (binaryOp op) (Some t1) (Some t2))) d' s (fun c => alu op d' d (f1 c) (f2 c) 0).
Proof using.
  intros H (K1 & l1 & N1 & V1 & D1 & S1 & F1) (K2 & l2 & N2 & V2 & D2 & S2 & F2) Ht. unfold yields, runs, tm_call, tensor_bin.
  rewrite N1, N2. assert (Hu : usable h [l1; l2]) by (repeat constructor; (apply V1 || apply V2)).
  pose proof (binaryOp_spec op l1 l2 h H Hu) as K. cbn [type_of nth_error nth] in K.
  assert (Et : binaryType op (type_of h [l1; l2] 0) (type_of h [l1; l2] 1) = Ok d').
  { unfold type_of. cbn. rewrite D1, D2. exact Ht. }
  rewrite Et in K. destruct (sameShape_spec (h_nodes h) [l1; l2]) as [[Es _]|[_ Hn]].
  2: { exfalso. apply Hn. constructor; [|constructor; [|constructor]]; right; cbn; rewrite ?S1, ?S2; reflexivity. }
  rewrite Es in K. destruct (binaryOp op (Some l1) (Some l2) h) as [l h'] eqn:Eb. cbn [wrap fst snd].
  destruct K as (X & H' & Hn & Hs & Hden). cbn [fst snd] in *.
  eexists. split; [reflexivity|]. split; [exact H'|]. split; [exact X|]. split; [reflexivity|]. exists l.
  pose proof (get_lookup _ _ _ Hn) as Eg. split; [reflexivity|]. split.
  { split; [apply lookup_lt_Some in Hn; exact Hn|rewrite Eg; reflexivity]. }
  split; [rewrite Eg; reflexivity|]. split; [rewrite Hs; cbn; rewrite S1; reflexivity|].
  intros c Hc. rewrite Hden. unfold type_of, arg. cbn. rewrite D1, (F1 c Hc), (F2 c Hc). reflexivity.
Qed.

(** ** Accumulation *)

(** The terms combined in order; the first one alone starts. *)
Definition combine (op : Op) (d : DType) (vals : list Z) : Z :=
  match vals with [] => 0 | v :: vs => fold_left (fun a x => alu op d d a x 0) vs v end.

(** What the accumulator holds after some terms. *)
Definition acc_holds (op : Op) (d : DType) (s : Shape) (terms : list (list Z -> Z)) (h : heap) (acc : option tensor) : Prop :=
  match acc with
  | None => terms = []
  | Some t => terms <> [] /\ holds h t d s (fun c => combine op d (map (fun g => g c) terms))
  end.

Lemma combine_snoc op d vals v : vals <> [] -> combine op d (vals ++ [v]) = alu op d d (combine op d vals) v 0.
Proof using. destruct vals as [|x vals]; [contradiction|]. intros _. cbn. rewrite fold_left_app. reflexivity. Qed.

Lemma acc_ext op d s terms h h' acc : heap_ok h -> heap_ok h' -> ext h h' ->
  acc_holds op d s terms h acc -> acc_holds op d s terms h' acc.
Proof using. destruct acc; [|cbn; auto]. intros H H' X [Hne Ht]. split; [exact Hne|]. apply (holds_ext h h'); assumption. Qed.

Lemma acc_weaken op d s terms terms' h acc : acc_holds op d s terms h acc -> length terms = length terms' ->
  (forall c, in_bounds s c -> map (fun g => g c) terms = map (fun g => g c) terms') -> acc_holds op d s terms' h acc.
Proof using.
  destruct acc as [t|]; cbn; intros Ha Hl Hc.
  - destruct Ha as [Hne Ht]. split; [destruct terms, terms'; try discriminate Hl; congruence|].
    eapply holds_weaken; [exact Ht|]. intros c Hb. cbn. rewrite (Hc c Hb). reflexivity.
  - subst terms. destruct terms'; [reflexivity|discriminate Hl].
Qed.

Lemma accumulate_runs op d s terms h acc t g : heap_ok h -> binaryType op d d = Ok d ->
  acc_holds op d s terms h acc -> holds h t d s g ->
  runs h (accumulate (tensor_bin (binaryOp op)) acc t) (acc_holds op d s (terms ++ [g])).
Proof using.
  intros H Ht Ha Hg. unfold accumulate. destruct acc as [a|].
  - destruct Ha as [Hne Ha]. pose proof (bin_yields h op a t d d s _ _ H Ha Hg Ht) as K.
    unfold yields, runs, tm_call in *. destruct (tensor_bin _ _ _ _) as [t' h']. destruct K as (t2 & [= <-] & H' & X & K).
    exists (Some t'). split; [reflexivity|]. split; [exact H'|]. split; [exact X|]. split; [destruct terms; discriminate|].
    eapply holds_weaken; [exact K|]. intros c _. cbn beta. rewrite map_app. cbn [map].
    rewrite combine_snoc by (destruct terms; [contradiction|discriminate]). reflexivity.
  - cbn in Ha. subst terms. apply runs_ret; [exact H|]. split; [discriminate|]. exact Hg.
Qed.

(** ** Steps of the layers *)

Definition scalar (d : DType) : Prop := scalarType d = Ok tt.

Lemma scalar_type d op : scalar d -> op = ADD \/ op = MUL \/ op = MAX -> binaryType op d d = Ok d.
Proof using. destruct d; try discriminate; intros _ [->|[->| ->]]; reflexivity. Qed.

Definition times (d : DType) (a b : Z) : Z := alu MUL d d a b 0.

(** The product of column [j] of the matrix and element [j] of the vector. *)
Definition linear_term (d : DType) (fw fx : list Z -> Z) (j : Z) (c : list Z) : Z := times d (fw [dim c 0; j]) (fx [j]).

Lemma linear_step_runs h d w x out inn fw fx j terms acc : scalar d -> heap_ok h ->
  holds h w d [out; inn] fw -> holds h x d [inn] fx -> 0 <= j < inn -> acc_holds ADD d [out] terms h acc ->
  runs h (linear_step ks w x out j acc) (acc_holds ADD d [out] (terms ++ [linear_term d fw fx j])).
Proof using.
  intros Hd H Hw Hx Hj Ha. pose proof (holds_nonneg _ _ _ _ _ H Hw) as Hn. assert (0 <= out) by (inversion Hn; assumption).
  unfold linear_step. eapply (runs_bind h).
  { apply (mv_shrink h w d [out; inn] fw [(0, out); (j, j + 1)] [out; 1] (fun c => fw [dim c 0; j]) H Hw);
      [pointwise|listwise|discriminate|].
    intros c Hc. coords. cbn beta. f_equal; listwise. }
  intros col h1 H1 X1 T1. apply (holds_ext h h1) in Hx; auto. apply (acc_ext _ _ _ _ h h1) in Ha; auto.
  eapply (runs_bind h1).
  { apply (mv_reshape h1 col d [out; 1] (fun c => fw [dim c 0; j]) [out] (fun c => fw [dim c 0; j]) H1 T1);
      [pointwise|rewrite !Size_cons, Size_nil; lia|discriminate|].
    intros c Hc. coords. match goal with |- context [ravel [out] [?y]] => exists [y; 0] end. split; [pointwise|]. split; [|reflexivity]. cbn. rewrite ?Size_cons, ?Size_nil. lia. }
  intros col' h2 H2 X2 T2. apply (holds_ext h1 h2) in Hx; auto. apply (acc_ext _ _ _ _ h1 h2) in Ha; auto.
  eapply (runs_bind h2).
  { apply (mv_shrink h2 x d [inn] fx [(j, j + 1)] [1] (fun c => fx [j]) H2 Hx);
      [pointwise|listwise|discriminate|].
    intros c Hc. coords. cbn beta. f_equal; listwise. }
  intros xj h3 H3 X3 T3. apply (holds_ext h2 h3) in T2; auto. apply (acc_ext _ _ _ _ h2 h3) in Ha; auto.
  eapply (runs_bind h3).
  { apply (mv_expand h3 xj d [1] (fun c => fx [j]) [out] (fun c => fx [j]) H3 T3);
      [pointwise|pointwise|discriminate|reflexivity]. }
  intros xj' h4 H4 X4 T4. apply (holds_ext h3 h4) in T2; auto. apply (acc_ext _ _ _ _ h3 h4) in Ha; auto.
  eapply runs_bind; [apply (bin_yields h4 MUL col' xj' d d [out] _ _ H4 T2 T4), scalar_type; auto|].
  intros term h5 H5 X5 T5. apply accumulate_runs; auto using scalar_type. apply (acc_ext _ _ _ _ h4 h5); auto.
Qed.

Lemma runs_shape h t d s f : heap_ok h -> holds h t d s f -> runs h (tm_shape ks t) (fun _ a => a = s).
Proof using.
  intros H Ht. exists s. split; [rewrite (holds_shape _ _ _ _ _ Ht); reflexivity|]. split; [exact H|]. split; reflexivity.
Qed.

Lemma seqZ_snoc n : 0 <= n -> seqZ 0 (n + 1) = seqZ 0 n ++ [n].
Proof using. intros Hn. replace n with (0 + n) at 3 by lia. rewrite seqZ_app by lia. reflexivity. Qed.

(** What a linear layer computes at a row. *)
Definition linear_value (d : DType) (inn : Z) (fw fx fb : list Z -> Z) (c : list Z) : Z :=
  if inn =? 0 then fb c
  else alu ADD d d (combine ADD d (map (fun j => linear_term d fw fx j c) (seqZ 0 inn))) (fb c) 0.

Lemma Linear_yields h d w x b out inn fw fx fb : scalar d -> heap_ok h ->
  holds h w d [out; inn] fw -> holds h x d [inn] fx -> holds h b d [out] fb ->
  yields h (Linear ks d (Some w) (Some x) (Some b)) d [out] (linear_value d inn fw fx fb).
Proof using.
  intros Hd H Hw Hx Hb. pose proof (holds_nonneg _ _ _ _ _ H Hx) as Hn. assert (Hi : 0 <= inn) by (inversion Hn; assumption).
  unfold Linear. eapply (runs_bind h); [apply (runs_res h _ tt (fun h' _ => h' = h)); auto|]. intros _ h' _ _ ->.
  eapply (runs_bind h); [apply (runs_shape h w d _ fw H Hw)|]. intros ws h1 H1 X1 ->.
  apply (holds_ext h h1) in Hw, Hx, Hb; auto. eapply (runs_bind h1); [apply (runs_shape h1 x d _ fx H1 Hx)|]. intros xs h2 H2 X2 ->.
  apply (holds_ext h1 h2) in Hw, Hx, Hb; auto. eapply (runs_bind h2); [apply (runs_shape h2 b d _ fb H2 Hb)|]. intros bs h3 H3 X3 ->.
  apply (holds_ext h2 h3) in Hw, Hx, Hb; auto. cbn [length Nat.eqb negb orb dim nth]. rewrite !Z.eqb_refl. cbn [negb orb].
  unfold linear_value. destruct (Z.eqb_spec inn 0) as [->|Hne]; [apply runs_ret; assumption|].
  eapply (runs_bind h3).
  - apply (runs_for (fun j h acc => acc_holds ADD d [out] (map (linear_term d fw fx) (seqZ 0 j)) h acc)); [exact Hi|exact H3|reflexivity|].
    intros j acc h4 Hj H4 X4 Ha. rewrite seqZ_snoc, map_app by lia.
    apply (linear_step_runs h4 d w x out inn); auto; apply (holds_ext h3 h4); assumption.
  - intros acc h4 H4 X4 Ha. apply (holds_ext h3 h4) in Hb; auto. destruct acc as [t|].
    + destruct Ha as [_ Ht]. eapply runs_weaken; [apply (bin_yields h4 ADD t b d d [out] _ _ H4 Ht Hb), scalar_type; auto|].
      intros r h5 _ _ Hr. eapply holds_weaken; [exact Hr|]. intros c _. cbn beta. rewrite map_map. reflexivity.
    + exfalso. apply (f_equal length) in Ha. rewrite length_map, length_seqZ in Ha. simpl in Ha. lia.
Qed.

(** ** Strided windows *)

Definition strided (f : list Z -> Z) (y0 x0 sh sw : Z) (c : list Z) : Z :=
  f [dim c 0; dim c 1; y0 + dim c 2 * sh; x0 + dim c 3 * sw].

Lemma strided_yields h d t n k H W f y0 x0 ho wo sh sw : heap_ok h -> holds h t d [n; k; H; W] f ->
  0 <= ho -> 0 <= wo -> 0 < sh -> 0 < sw -> 0 <= y0 -> 0 <= x0 -> y0 + ho * sh <= H -> x0 + wo * sw <= W ->
  yields h (stridedNCHW ks t y0 x0 ho wo sh sw) d [n; k; ho; wo] (strided f y0 x0 sh sw).
Proof using.
  intros Hh Ht Hho Hwo Hsh Hsw Hy0 Hx0 HH HW. pose proof (holds_nonneg _ _ _ _ _ Hh Ht) as Hn.
  assert (0 <= n /\ 0 <= k) as [Hn0 Hk0] by (split; repeat match goal with X : nonneg _ |- _ => unfold nonneg in X | X : Forall _ (_ :: _) |- _ => inversion X; clear X; subst end; assumption).
  clear Hn. assert (Hhs : 0 <= ho * sh) by nia. assert (Hws : 0 <= wo * sw) by nia. unfold stridedNCHW.
  eapply (runs_bind h); [apply (runs_shape h t d _ f Hh Ht)|]. intros s h1 H1 X1 ->. apply (holds_ext h h1) in Ht; auto.
  cbn [length Nat.eqb negb dim nth]. eapply (runs_bind h1).
  { apply (mv_shrink h1 t d [n; k; H; W] f _ [n; k; ho * sh; wo * sw] (fun c => f [dim c 0; dim c 1; y0 + dim c 2; x0 + dim c 3]) H1 Ht);
      [pointwise|listwise|discriminate|].
    intros c Hc. coords. cbn beta. f_equal; listwise. }
  intros t2 h2 H2 X2 T2. eapply (runs_bind h2).
  { apply (mv_reshape h2 t2 d [n; k; ho * sh; wo * sw] _ [n; k; ho; sh; wo; sw]
      (fun c => f [dim c 0; dim c 1; y0 + (dim c 2 * sh + dim c 3); x0 + (dim c 4 * sw + dim c 5)]) H2 T2);
      [pointwise|rewrite !Size_cons, Size_nil; lia|discriminate|].
    intros c Hc. coords. match goal with |- context [ravel _ [?a; ?b; ?y; ?y'; ?x; ?x']] => exists [a; b; y * sh + y'; x * sw + x'] end.
    split; [repeat (constructor; [nia|]); constructor|]. split; [cbn [ravel]; rewrite !Size_cons, Size_nil; lia|reflexivity]. }
  intros t3 h3 H3 X3 T3. eapply (runs_bind h3).
  { apply (mv_shrink h3 t3 d [n; k; ho; sh; wo; sw] _ _ [n; k; ho; 1; wo; 1]
      (fun c => f [dim c 0; dim c 1; y0 + dim c 2 * sh; x0 + dim c 4 * sw]) H3 T3);
      [pointwise|listwise|discriminate|].
    intros c Hc. coords. cbn beta. f_equal; listwise. }
  intros t4 h4 H4 X4 T4.
  apply (mv_reshape h4 t4 d [n; k; ho; 1; wo; 1] _ [n; k; ho; wo] (strided f y0 x0 sh sw) H4 T4);
    [pointwise|rewrite !Size_cons, Size_nil; lia|discriminate|].
  intros c Hc. coords. match goal with |- context [ravel _ [?a; ?b; ?y; ?x]] => exists [a; b; y; 0; x; 0] end.
  split; [pointwise|]. split; [cbn [ravel]; rewrite !Size_cons, Size_nil; lia|reflexivity].
Qed.

(** ** Constants and padding *)

Lemma Full_yields h v s : heap_ok h -> nonneg s -> word_ok (bitsOf v) ->
  yields h (Full v (Some s)) (dtypeOf v) s (fun _ => bitsOf v).
Proof using.
  intros H Hs Hv. unfold yields, runs, Full. destruct (Of_implements (Some s) Hs) as (t & Ht & (Hw & Hd & Hl) & Hts & _).
  rewrite Ht. pose proof (filled_spec v t _ h H Hv Hw (Of_nil_ok _ _ Ht)) as K.
  destruct (filled v t h) as [l h']. destruct K as (X & H' & Hn & Hsh & Hden). cbn [wrap fst snd] in *.
  pose proof (get_lookup _ _ _ Hn) as Eg. eexists. split; [reflexivity|]. split; [exact H'|]. split; [exact X|].
  split; [reflexivity|]. exists l. split; [reflexivity|]. pose proof (wf_views _ _ Hw) as Hvs.
  split; [split; [apply lookup_lt_Some in Hn; exact Hn|rewrite Eg; reflexivity]|]. split; [rewrite Eg; reflexivity|]. split.
  - rewrite Hsh. unfold node_shape. cbn [n_err n_kind n_tracker]. destruct (t_views t) eqn:Ev; [contradiction|exact Hts].
  - intros c Hc. rewrite Hden. unfold node_den. cbn [n_kind n_tracker n_bits]. rewrite (Hl c Hc). cbn [row_major a_cell].
    destruct (t_views t); reflexivity.
Qed.

(** The source cell of a padded cell, or 0. *)
Definition padded_value (H W : Z) (f : list Z -> Z) (hb wb : Z) (c : list Z) : Z :=
  if (hb <=? dim c 2) && (dim c 2 <? hb + H) && (wb <=? dim c 3) && (dim c 3 <? wb + W)
  then f [dim c 0; dim c 1; dim c 2 - hb; dim c 3 - wb] else 0.

Lemma padNCHW_yields h d t n k H W f hb wb ha wa : heap_ok h -> holds h t d [n; k; H; W] f ->
  0 <= hb -> 0 <= wb -> 0 <= ha -> 0 <= wa ->
  yields h (padNCHW ks t [hb; wb; ha; wa]) d [n; k; H + hb + ha; W + wb + wa] (padded_value H W f hb wb).
Proof using.
  intros Hh Ht H0 H1 H2 H3. unfold padNCHW. destruct (no_pads [hb; wb; ha; wa]) eqn:En.
  - unfold no_pads, dim in En. cbn [nth] in En. rewrite !andb_true_iff, !Z.eqb_eq in En. destruct En as [[[-> ->] ->] ->].
    rewrite !Z.add_0_r. apply runs_ret; [exact Hh|]. eapply holds_weaken; [exact Ht|]. intros c Hc. coords.
    unfold padded_value, dim. cbn [nth].
    repeat match goal with |- context [?a <=? ?b] => destruct (Z.leb_spec a b); try lia | |- context [?a <? ?b] => destruct (Z.ltb_spec a b); try lia end.
    cbn [andb]. rewrite !Z.sub_0_r. reflexivity.
  - apply (mv_pad h t d [n; k; H; W] f _ [n; k; H + hb + ha; W + wb + wa] (padded_value H W f hb wb) Hh Ht);
      [reflexivity|pointwise|unfold padded; cbn [dim nth zip_with fst snd]; listwise|discriminate|].
    intros c Hc. coords. unfold padded_value, pad_mask, pad_coords, dim. cbn [nth zip_with mask_ok fst snd].
    repeat match goal with |- context [?a <=? ?b] => destruct (Z.leb_spec a b); try lia | |- context [?a <? ?b] => destruct (Z.ltb_spec a b); try lia end;
    cbn [andb]; try reflexivity. all: f_equal; listwise.
Qed.

(** ** Loops that accumulate *)

Lemma acc_loop op d s n body terms (F : Z -> list (list Z -> Z)) h acc : 0 <= n -> heap_ok h ->
  acc_holds op d s terms h acc ->
  (forall j acc h' terms', 0 <= j < n -> heap_ok h' -> ext h h' -> acc_holds op d s terms' h' acc ->
    runs h' (body j acc) (acc_holds op d s (terms' ++ F j))) ->
  runs h (for_range n body acc) (acc_holds op d s (terms ++ flat_map F (seqZ 0 n))).
Proof using.
  intros Hn H Ha Hb.
  apply (runs_for (fun j h acc => acc_holds op d s (terms ++ flat_map F (seqZ 0 j)) h acc)); [exact Hn|exact H| |].
  - rewrite app_nil_r. exact Ha.
  - intros j a h' Hj H' X' Hacc. rewrite seqZ_snoc, flat_map_app by lia. cbn [flat_map]. rewrite app_nil_r, app_assoc.
    apply Hb; assumption.
Qed.

(** ** Convolution *)

Definition conv_term (d : DType) (sh sw : Z) (fx fw : list Z -> Z) (ic ky kx : Z) (c : list Z) : Z :=
  times d (fx [dim c 0; ic; ky + dim c 2 * sh; kx + dim c 3 * sw]) (fw [dim c 1; ic; ky; kx]).

(** One product of a window cell and a weight, into the accumulator. *)
Lemma conv_step_runs h d ch w n oc ni kh kw PH PW fx fw ho wo sh sw ic ky kx terms acc : scalar d -> heap_ok h ->
  holds h ch d [n; 1; PH; PW] (fun c => fx [dim c 0; ic; dim c 2; dim c 3]) -> holds h w d [oc; ni; kh; kw] fw ->
  0 < ho -> 0 < wo -> 0 < sh -> 0 < sw -> 0 <= ic < ni -> 0 <= ky < kh -> 0 <= kx < kw ->
  kh - 1 + ho * sh <= PH -> kw - 1 + wo * sw <= PW ->
  acc_holds ADD d [n; oc; ho; wo] terms h acc ->
  runs h (conv_step ks ch w [n; oc; ho; wo] n oc ho wo sh sw ic ky kx acc)
    (acc_holds ADD d [n; oc; ho; wo] (terms ++ [conv_term d sh sw fx fw ic ky kx])).
Proof using.
  intros Hd H Hc Hw Hho Hwo Hsh Hsw Hic Hky Hkx HH HW Ha. pose proof (holds_nonneg _ _ _ _ _ H Hc) as Hn.
  pose proof (holds_nonneg _ _ _ _ _ H Hw) as Hm. assert (0 <= n) as Hn0 by (inversion Hn; assumption).
  assert (0 <= oc) as Ho0 by (inversion Hm; assumption). clear Hn Hm. unfold conv_step.
  eapply (runs_bind h); [apply (strided_yields h d ch n 1 PH PW _ ky kx ho wo sh sw H Hc); lia|].
  intros t1 h1 H1 X1 T1. apply (holds_ext h h1) in Hw; auto. apply (acc_ext _ _ _ _ h h1) in Ha; auto.
  eapply (runs_bind h1).
  { apply (mv_reshape_same h1 t1 d [n; 1; ho; wo] _ H1 T1); discriminate. }
  intros t2 h2 H2 X2 T2. apply (holds_ext h1 h2) in Hw; auto. apply (acc_ext _ _ _ _ h1 h2) in Ha; auto.
  eapply (runs_bind h2).
  { apply (mv_expand h2 t2 d [n; 1; ho; wo] _ [n; oc; ho; wo]
      (fun c => fx [dim c 0; ic; ky + dim c 2 * sh; kx + dim c 3 * sw]) H2 T2); [pointwise|pointwise|discriminate|].
    intros c Hb. coords. unfold strided. f_equal. listwise. }
  intros t3 h3 H3 X3 T3. apply (holds_ext h2 h3) in Hw; auto. apply (acc_ext _ _ _ _ h2 h3) in Ha; auto.
  eapply (runs_bind h3).
  { apply (mv_shrink h3 w d [oc; ni; kh; kw] fw _ [oc; 1; 1; 1] (fun c => fw [dim c 0; ic; ky; kx]) H3 Hw);
      [pointwise|listwise|discriminate|].
    intros c Hb. coords. f_equal. listwise. }
  intros t4 h4 H4 X4 T4. apply (holds_ext h3 h4) in T3; auto. apply (acc_ext _ _ _ _ h3 h4) in Ha; auto.
  eapply (runs_bind h4).
  { apply (mv_reshape h4 t4 d [oc; 1; 1; 1] _ [1; oc; 1; 1] (fun c => fw [dim c 1; ic; ky; kx]) H4 T4);
      [pointwise|rewrite !Size_cons, Size_nil; lia|discriminate|].
    intros c Hb. coords. match goal with |- context [ravel _ [?a; ?b; ?y; ?x]] => exists [b; a; y; x] end.
    split; [pointwise|]. split; [cbn [ravel]; rewrite !Size_cons, Size_nil; lia|reflexivity]. }
  intros t5 h5 H5 X5 T5. apply (holds_ext h4 h5) in T3; auto. apply (acc_ext _ _ _ _ h4 h5) in Ha; auto.
  eapply (runs_bind h5).
  { apply (mv_expand h5 t5 d [1; oc; 1; 1] _ [n; oc; ho; wo] (fun c => fw [dim c 1; ic; ky; kx]) H5 T5);
      [pointwise|pointwise|discriminate|].
    intros c Hb. coords. f_equal. listwise. }
  intros t6 h6 H6 X6 T6. apply (holds_ext h5 h6) in T3; auto. apply (acc_ext _ _ _ _ h5 h6) in Ha; auto.
  eapply runs_bind; [apply (bin_yields h6 MUL t3 t6 d d _ _ _ H6 T3 T6), scalar_type; auto|].
  intros term h7 H7 X7 T7. apply accumulate_runs; auto using scalar_type. apply (acc_ext _ _ _ _ h6 h7); auto.
Qed.

(** The terms in the order of the loops. *)
Definition conv_terms (d : DType) (sh sw : Z) (fx fw : list Z -> Z) (ni kh kw : Z) : list (list Z -> Z) :=
  flat_map (fun ic => flat_map (fun ky => flat_map (fun kx => [conv_term d sh sw fx fw ic ky kx]) (seqZ 0 kw)) (seqZ 0 kh)) (seqZ 0 ni).

Lemma conv_loops h d pd w n oc ni kh kw PH PW fx fw ho wo sh sw : scalar d -> heap_ok h ->
  holds h pd d [n; ni; PH; PW] fx -> holds h w d [oc; ni; kh; kw] fw ->
  0 < ho -> 0 < wo -> 0 < sh -> 0 < sw -> kh - 1 + ho * sh <= PH -> kw - 1 + wo * sw <= PW ->
  runs h (for_range ni (fun ic acc =>
      let! channel := mv ks (MShrink [(0, n); (ic, ic + 1); (0, PH); (0, PW)]) pd in
      for_range kh (fun ky acc => for_range kw (fun kx acc =>
        conv_step ks channel w [n; oc; ho; wo] n oc ho wo sh sw ic ky kx acc) acc) acc) None)
    (acc_holds ADD d [n; oc; ho; wo] (conv_terms d sh sw fx fw ni kh kw)).
Proof using.
  intros Hd H Hp Hw Hho Hwo Hsh Hsw HH HW. pose proof (holds_nonneg _ _ _ _ _ H Hp) as Hn.
  pose proof (holds_nonneg _ _ _ _ _ H Hw) as Hm. unfold nonneg in Hn, Hm. rewrite !Forall_cons in Hn, Hm.
  destruct Hn as (Hn0 & Hni & HPH & HPW & _). destruct Hm as (_ & _ & Hkh & Hkw & _).
  change (conv_terms d sh sw fx fw ni kh kw) with ([] ++ conv_terms d sh sw fx fw ni kh kw). unfold conv_terms.
  apply acc_loop; [exact Hni|exact H|reflexivity|]. intros ic acc h1 terms Hic H1 X1 Ha.
  apply (holds_ext h h1) in Hp, Hw; auto. eapply (runs_bind h1).
  { apply (mv_shrink h1 pd d [n; ni; PH; PW] fx _ [n; 1; PH; PW] (fun c => fx [dim c 0; ic; dim c 2; dim c 3]) H1 Hp);
      [pointwise|listwise|discriminate|].
    intros c Hb. coords. f_equal. listwise. }
  intros ch h2 H2 X2 T2. apply (holds_ext h1 h2) in Hw; auto. apply (acc_ext _ _ _ _ h1 h2) in Ha; auto.
  apply acc_loop; [exact Hkh|exact H2|exact Ha|]. intros ky acc3 h3 terms3 Hky H3 X3 Ha3.
  apply (holds_ext h2 h3) in Hw, T2; auto. apply acc_loop; [exact Hkw|exact H3|exact Ha3|].
  intros kx acc4 h4 terms4 Hkx H4 X4 Ha4. apply (holds_ext h3 h4) in Hw, T2; auto.
  eapply (conv_step_runs h4 d ch w n oc ni kh kw PH PW); eauto.
Qed.

(** The value of a convolution at an output cell: the products over input
    channels and window cells, in that order, 0 outside the input. *)
Definition conv_value (d : DType) (ni H W kh kw : Z) (hb wb sh sw : Z) (fx fw : list Z -> Z) (c : list Z) : Z :=
  combine ADD d (map (fun g => g c) (conv_terms d sh sw (padded_value H W fx hb wb) fw ni kh kw)).

Definition stride_of (s : Z) : Z := if s <=? 0 then 1 else s.

Lemma stride_pos s : 0 < stride_of s.
Proof using. unfold stride_of. destruct (Z.leb_spec s 0); lia. Qed.

Lemma Convolution2D_yields h d x w n ni H W oc kh kw fx fw hb wb ha wa sH sW : scalar d -> heap_ok h ->
  holds h x d [n; ni; H; W] fx -> holds h w d [oc; ni; kh; kw] fw ->
  0 <= hb -> 0 <= wb -> 0 <= ha -> 0 <= wa ->
  let sh := stride_of sH in let sw := stride_of sW in
  let ho := WindowLength H hb ha kh sh in let wo := WindowLength W wb wa kw sw in
  0 < ho -> 0 < wo ->
  yields h (Convolution2D ks d (Some x) (Some w) [hb; wb; ha; wa] sH sW) d [n; oc; ho; wo]
    (conv_value d ni H W kh kw hb wb sh sw fx fw).
Proof using.
  intros Hd Hh Hx Hw Hhb Hwb Hha Hwa sh sw ho wo Hho Hwo. unfold Convolution2D.
  eapply (runs_bind h); [apply (runs_res h _ tt (fun h' _ => h' = h)); auto|]. intros _ h' _ _ ->.
  fold (stride_of sH) (stride_of sW). fold sh sw.
  eapply (runs_bind h); [apply (runs_shape h x d _ fx Hh Hx)|]. intros xs h1 H1 X1 ->. apply (holds_ext h h1) in Hx, Hw; auto.
  eapply (runs_bind h1); [apply (runs_shape h1 w d _ fw H1 Hw)|]. intros ws h2 H2 X2 ->. apply (holds_ext h1 h2) in Hx, Hw; auto.
  cbn [length Nat.eqb negb orb dim nth]. rewrite Z.eqb_refl. cbn [negb]. fold ho wo.
  destruct (Z.leb_spec ho 0) as [?|_]; [lia|]. destruct (Z.leb_spec wo 0) as [?|_]; [lia|]. cbn [orb].
  pose proof (CoverPad_spec H kh sh ho hb ha) as K1. pose proof (CoverPad_spec W kw sw wo wb wa) as K2.
  destruct (CoverPad H kh sh ho hb ha) as [hb' ha']. destruct (CoverPad W kw sw wo wb wa) as [wb' wa'].
  assert (Hsh : 0 < sh) by apply stride_pos. assert (Hsw : 0 < sw) by apply stride_pos.
  destruct (Z.leb_spec sh 0) as [?|_]; [lia|]. destruct (Z.leb_spec sw 0) as [?|_]; [lia|].
  destruct K1 as (-> & Ka & Kb & _). destruct K2 as (-> & Kc & Kd & _).
  eapply (runs_bind h2); [apply (padNCHW_yields h2 d x n ni H W fx hb wb ha' wa' H2 Hx); lia|].
  intros pd h3 H3 X3 T3. apply (holds_ext h2 h3) in Hw; auto.
  eapply (runs_bind h3); [apply (runs_shape h3 pd d _ _ H3 T3)|]. intros ps h4 H4 X4 ->. apply (holds_ext h3 h4) in Hw, T3; auto.
  cbn [dim nth]. eapply (runs_bind h4).
  { apply (conv_loops h4 d pd w n oc ni kh kw _ _ _ fw ho wo sh sw Hd H4 T3 Hw); lia. }
  intros acc h5 H5 X5 Ha. pose proof (holds_nonneg _ _ _ _ _ H2 Hx) as Hn. pose proof (holds_nonneg _ _ _ _ _ H4 Hw) as Hm.
  destruct acc as [t|]; [apply runs_ret; [exact H5|exact (proj2 Ha)]|].
  assert (Hz : bitsOf (number_of d 0) = 0 /\ dtypeOf (number_of d 0) = d) by (destruct d; try discriminate Hd; auto).
  unfold Zeros. eapply runs_weaken.
  { apply (Full_yields h5 (number_of d 0) [n; oc; ho; wo] H5); [|rewrite (proj1 Hz); unfold word_ok, two32; lia].
    apply Forall_inv in Hn, Hm. clearbody ho wo. pointwise. }
  intros r h6 _ _ Hr. destruct Hz as [Ez Hz]. rewrite Hz in Hr. eapply holds_weaken; [exact Hr|].
  intros c _. cbn beta. rewrite Ez. unfold conv_value. cbn in Ha. rewrite Ha. reflexivity.
Qed.

(** ** Operands of any shape *)

(** The tensor broadcasts: it denotes [f] on the cells of [s], and its shape
    is [s] or it has none. *)
Definition feeds (h : heap) (t : tensor) (d : DType) (s : Shape) (f : list Z -> Z) : Prop :=
  exists l, tn_node t = Some l /\ valid_ptr h l /\ n_dtype (get (h_nodes h) l) = d /\
    (nShape (h_nodes h) l = None \/ nShape (h_nodes h) l = Some s) /\ forall c, in_bounds s c -> den h l c = f c.

Lemma holds_feeds h t d s f : holds h t d s f -> feeds h t d s f.
Proof using. intros (_ & l & Hn & Hl & Hd & Hs & Hf). exists l. auto 10. Qed.

Lemma feeds_ext h h' t d s f : heap_ok h -> heap_ok h' -> ext h h' -> feeds h t d s f -> feeds h' t d s f.
Proof using.
  intros H H' Hx (l & Hn & Hl & Hd & Hs & Hf). exists l. split; [exact Hn|].
  pose proof Hx as [[ns En] _]. pose proof (proj1 Hl) as Hlt.
  rewrite En. rewrite get_app, nShape_app by exact Hlt. split; [|split; [exact Hd|split; [exact Hs|]]].
  - split; [rewrite En, length_app; lia|]. rewrite En, get_app by exact Hlt. apply Hl.
  - intros c Hc. rewrite <- (Hf c Hc). apply den_ext; [exact H|apply heap_acyclic, H'|exact Hx|exact Hlt].
Qed.

Lemma Const_feeds h v s : heap_ok h -> is_number_type (dtypeOf v) = true -> word_ok (bitsOf v) ->
  runs h (tm_call (Const v)) (fun h' t => feeds h' t (dtypeOf v) s (fun _ => bitsOf v)).
Proof using.
  intros H Hd Hv. unfold runs, tm_call, Const, splat.
  destruct (internConst_spec (dtypeOf v) (bitsOf v) h H Hd Hv) as [(X & H' & Hn & Hs & Hden) _].
  destruct (internConst _ _ h) as [l h']. cbn [wrap fst snd] in *. eexists. split; [reflexivity|]. split; [exact H'|].
  split; [exact X|]. pose proof (get_lookup _ _ _ Hn) as Eg. exists l. split; [reflexivity|].
  split; [split; [apply lookup_lt_Some in Hn; exact Hn|rewrite Eg; reflexivity]|]. split; [rewrite Eg; reflexivity|].
  split; [left; rewrite Hs; reflexivity|]. intros c _. rewrite Hden. reflexivity.
Qed.

(** A new operation node over operands that broadcast. *)
Lemma builds_yields h op d s ls r : Forall (fun l => nShape (h_nodes h) l = None \/ nShape (h_nodes h) l = Some s) ls ->
  (exists l, l ∈ ls /\ nShape (h_nodes h) l = Some s) -> builds op d ls r h ->
  heap_ok (snd r) /\ ext h (snd r) /\
  holds (snd r) (mkTensor (Some (fst r)) None) d s (fun c =>
    alu op d (type_of h ls 0) (arg (den h) (op_node op d ls) 0 c) (arg (den h) (op_node op d ls) 1 c)
      (arg (den h) (op_node op d ls) 2 c)).
Proof using.
  intros Hs He (X & H' & Hn & Hsh & Hden). split; [exact H'|]. split; [exact X|]. split; [reflexivity|]. exists (fst r).
  pose proof (get_lookup _ _ _ Hn) as Eg. split; [reflexivity|].
  split; [split; [apply lookup_lt_Some in Hn; exact Hn|rewrite Eg; reflexivity]|]. split; [rewrite Eg; reflexivity|].
  split; [|intros c _; apply Hden]. rewrite Hsh. destruct He as (l & Hl & El). clear - Hs Hl El.
  induction Hs as [|x ls Hx Hs IH]; [inversion Hl|]. cbn [map first_shape]. destruct Hx as [Hx|Hx]; rewrite Hx; [|reflexivity].
  apply elem_of_cons in Hl as [->|Hl]; [congruence|exact (IH Hl)].
Qed.

(** A binary operation on a shaped tensor and an operand that broadcasts. *)
Lemma bin_feeds h op t1 t2 d d' s f1 f2 : heap_ok h -> holds h t1 d s f1 -> feeds h t2 d s f2 ->
  binaryType op d d = Ok d' ->
  yields h (tm_call (tensor_bin (binaryOp op) (Some t1) (Some t2))) d' s (fun c => alu op d' d (f1 c) (f2 c) 0).
Proof using.
  intros H (K1 & l1 & N1 & V1 & D1 & S1 & F1) (l2 & N2 & V2 & D2 & S2 & F2) Ht. unfold yields, runs, tm_call, tensor_bin.
  rewrite N1, N2. assert (Hu : usable h [l1; l2]) by (repeat constructor; (apply V1 || apply V2)).
  pose proof (binaryOp_spec op l1 l2 h H Hu) as K.
  assert (Et : binaryType op (type_of h [l1; l2] 0) (type_of h [l1; l2] 1) = Ok d').
  { unfold type_of. cbn. rewrite D1, D2. exact Ht. }
  rewrite Et in K. destruct (sameShape_spec (h_nodes h) [l1; l2]) as [[Es _]|[_ Hn]].
  2: { exfalso. apply Hn. constructor; [|constructor; [|constructor]]; cbn; rewrite S1; destruct S2 as [S2|S2]; rewrite ?S2; auto. }
  rewrite Es in K. apply (builds_yields h op d' s [l1; l2]) in K;
    [|constructor; [auto|constructor; [auto|constructor]]|exists l1; split; [left|exact S1]].
  destruct (binaryOp op (Some l1) (Some l2) h) as [l h']. cbn [wrap fst snd] in *. destruct K as (H' & X & K).
  eexists. split; [reflexivity|]. split; [exact H'|]. split; [exact X|]. eapply holds_weaken; [exact K|].
  intros c Hc. unfold type_of, arg. cbn. rewrite D1, (F1 c Hc), (F2 c Hc). reflexivity.
Qed.

Lemma where_feeds h p a b d s fp fa fb : heap_ok h -> holds h p I32 s fp -> holds h a d s fa -> feeds h b d s fb ->
  yields h (tm_call (tensor_Where (Some p) (Some a) (Some b))) d s (fun c => alu WHERE d I32 (fp c) (fa c) (fb c)).
Proof using.
  intros H (_ & l1 & N1 & V1 & D1 & S1 & F1) (_ & l2 & N2 & V2 & D2 & S2 & F2) (l3 & N3 & V3 & D3 & S3 & F3).
  unfold yields, runs, tm_call, tensor_Where. rewrite N1, N2, N3.
  assert (Hu : usable h [l1; l2; l3]) by (repeat constructor; (apply V1 || apply V2 || apply V3)).
  pose proof (whereNode_spec l1 l2 l3 h H Hu) as K. unfold type_of in K. cbn [nth] in K. rewrite D1, D2, D3 in K.
  rewrite !bool_decide_true in K by reflexivity. cbn [andb] in K.
  destruct (sameShape_spec (h_nodes h) [l1; l2; l3]) as [[Es _]|[_ Hn]].
  2: { exfalso. apply Hn. constructor; [|constructor; [|constructor; [|constructor]]]; cbn; rewrite S1, ?S2; destruct S3 as [S3|S3]; rewrite ?S3; auto. }
  rewrite Es in K. apply (builds_yields h WHERE d s [l1; l2; l3]) in K;
    [|constructor; [auto|constructor; [auto|constructor; [auto|constructor]]]|exists l1; split; [left|exact S1]].
  destruct (whereNode (Some l1) (Some l2) (Some l3) h) as [l h']. cbn [wrap fst snd] in *. destruct K as (H' & X & K).
  eexists. split; [reflexivity|]. split; [exact H'|]. split; [exact X|]. eapply holds_weaken; [exact K|].
  intros c Hc. unfold type_of, arg. cbn. rewrite ?D1, (F1 c Hc), (F2 c Hc), (F3 c Hc). reflexivity.
Qed.

(** ** Pooling *)

(** The source cell of a padded cell, or [fill]. *)
Definition padded_fill (H W : Z) (f : list Z -> Z) (hb wb fill : Z) (c : list Z) : Z :=
  if (hb <=? dim c 2) && (dim c 2 <? hb + H) && (wb <=? dim c 3) && (dim c 3 <? wb + W)
  then f [dim c 0; dim c 1; dim c 2 - hb; dim c 3 - wb] else fill.

Definition one_of (d : DType) : Number := match d with F32 => NumF32 float_one | _ => number_of d 1 end.

(** The mask of ones is 0 exactly outside the input. *)
Lemma mask_select d (inside : bool) v low : scalar d ->
  alu WHERE d I32 (alu CMPNE I32 d (if inside then bitsOf (one_of d) else 0) (bitsOf (number_of d 0)) 0)
    (if inside then v else 0) low = if inside then v else low.
Proof using. destruct d; try discriminate; intros _; destruct inside; reflexivity. Qed.

Lemma padNCHWMax_yields h d t n k H W f hb wb ha wa : scalar d -> heap_ok h -> holds h t d [n; k; H; W] f ->
  0 <= hb -> 0 <= wb -> 0 <= ha -> 0 <= wa ->
  yields h (padNCHWMax ks d t [hb; wb; ha; wa]) d [n; k; H + hb + ha; W + wb + wa]
    (padded_fill H W f hb wb (bitsOf (Lowest d))).
Proof using.
  intros Hd Hh Ht H0 H1 H2 H3. unfold padNCHWMax. destruct (no_pads [hb; wb; ha; wa]) eqn:En.
  { unfold no_pads, dim in En. cbn [nth] in En. rewrite !andb_true_iff, !Z.eqb_eq in En. destruct En as [[[-> ->] ->] ->].
    rewrite !Z.add_0_r. apply runs_ret; [exact Hh|]. eapply holds_weaken; [exact Ht|]. intros c Hc. coords.
    unfold padded_fill, dim. cbn [nth].
    repeat match goal with |- context [?a <=? ?b] => destruct (Z.leb_spec a b); try lia | |- context [?a <? ?b] => destruct (Z.ltb_spec a b); try lia end.
    cbn [andb]. rewrite !Z.sub_0_r. reflexivity. }
  pose proof (holds_nonneg _ _ _ _ _ Hh Ht) as Hn.
  assert (Hb : word_ok (bitsOf (one_of d)) /\ word_ok (bitsOf (number_of d 0)) /\ word_ok (bitsOf (Lowest d)) /\
    dtypeOf (one_of d) = d /\ dtypeOf (number_of d 0) = d /\ dtypeOf (Lowest d) = d /\ is_number_type d = true /\
    binaryType CMPNE d d = Ok I32).
  { destruct d; try discriminate Hd; repeat split; try reflexivity; vm_compute; try discriminate; reflexivity. }
  destruct Hb as (B1 & B2 & B3 & D1 & D2 & D3 & Dn & Dc).
  set (s' := [n; k; H + hb + ha; W + wb + wa]).
  eapply (runs_bind h); [apply (padNCHW_yields h d t n k H W f hb wb ha wa Hh Ht); assumption|].
  intros pd h1 O1 X1 T1. apply (holds_ext h h1) in Ht; auto.
  assert (is_zero (Lowest d) = false) as -> by (destruct d; try discriminate Hd; reflexivity). cbv iota zeta.
  eapply (runs_bind h1); [apply (runs_shape h1 t d _ f O1 Ht)|]. intros s h2 O2 X2 ->. apply (holds_ext h1 h2) in T1; auto.
  eapply (runs_bind h2); [apply (Full_yields h2 (one_of d) [n; k; H; W] O2 Hn B1)|].
  intros ones h3 O3 X3 T3. rewrite D1 in T3. apply (holds_ext h2 h3) in T1; auto.
  eapply (runs_bind h3); [apply (padNCHW_yields h3 d ones n k H W _ hb wb ha wa O3 T3); assumption|].
  intros mask h4 O4 X4 T4. apply (holds_ext h3 h4) in T1; auto.
  eapply (runs_bind h4); [apply (Const_feeds h4 (number_of d 0) s' O4); [rewrite D2; exact Dn|exact B2]|].
  intros zero h5 O5 X5 T5. rewrite D2 in T5. apply (holds_ext h4 h5) in T1, T4; auto.
  eapply (runs_bind h5); [apply (bin_feeds h5 CMPNE mask zero d I32 s' _ _ O5 T4 T5 Dc)|].
  intros ne h6 O6 X6 T6. apply (holds_ext h5 h6) in T1; auto.
  eapply (runs_bind h6); [apply (Const_feeds h6 (Lowest d) s' O6); [rewrite D3; exact Dn|exact B3]|].
  intros low h7 O7 X7 T7. rewrite D3 in T7. apply (holds_ext h6 h7) in T1, T6; auto.
  eapply runs_weaken; [apply (where_feeds h7 ne pd low d s' _ _ _ O7 T6 T1 T7)|].
  intros r h8 _ _ Hr. eapply holds_weaken; [exact Hr|]. intros c _. cbn beta.
  unfold padded_value, padded_fill. apply (mask_select d _ _ _ Hd).
Qed.

Definition pool_terms (kh kw sh sw : Z) (f : list Z -> Z) : list (list Z -> Z) :=
  flat_map (fun ky => flat_map (fun kx => [strided f ky kx sh sw]) (seqZ 0 kw)) (seqZ 0 kh).

Lemma pool_window_runs h op d pd n k PH PW f kn w : heap_ok h -> holds h pd d [n; k; PH; PW] f ->
  binaryType op d d = Ok d -> 0 <= kernelHeight kn -> 0 <= kernelWidth kn ->
  0 < heightOut w -> 0 < widthOut w -> 0 < pw_strideHeight w -> 0 < pw_strideWidth w ->
  kernelHeight kn - 1 + heightOut w * pw_strideHeight w <= PH -> kernelWidth kn - 1 + widthOut w * pw_strideWidth w <= PW ->
  runs h (pool_window ks (tensor_bin (binaryOp op)) pd kn w)
    (acc_holds op d [n; k; heightOut w; widthOut w] (pool_terms (kernelHeight kn) (kernelWidth kn) (pw_strideHeight w) (pw_strideWidth w) f)).
Proof using.
  intros H Hp Ht Hkh Hkw Hho Hwo Hsh Hsw HH HW. unfold pool_window, pool_terms.
  apply (acc_loop op d _ _ _ []); [exact Hkh|exact H|reflexivity|]. intros ky acc h1 terms Hky H1 X1 Ha.
  apply (holds_ext h h1) in Hp; auto. apply acc_loop; [exact Hkw|exact H1|exact Ha|].
  intros kx acc2 h2 terms2 Hkx H2 X2 Ha2. apply (holds_ext h1 h2) in Hp; auto.
  eapply (runs_bind h2); [apply (strided_yields h2 d pd n k PH PW f ky kx _ _ _ _ H2 Hp); lia|].
  intros cell h3 H3 X3 T3. apply accumulate_runs; auto. apply (acc_ext _ _ _ _ h2 h3); auto.
Qed.

(** What [poolWindowOf] promises: the cover holds every window. *)
Record window_ok (H W : Z) (kn : poolKernel) (hb wb ha wa : Z) (w : poolWindow) : Prop := {
  wo_kernel : 0 < kernelHeight kn /\ 0 < kernelWidth kn;
  wo_stride : pw_strideHeight w = stride_of (strideHeight kn) /\ pw_strideWidth w = stride_of (strideWidth kn);
  wo_out : heightOut w = WindowLength H hb ha (kernelHeight kn) (pw_strideHeight w) /\
    widthOut w = WindowLength W wb wa (kernelWidth kn) (pw_strideWidth w);
  wo_pos : 0 < heightOut w /\ 0 < widthOut w;
  wo_before : heightBefore w = hb /\ widthBefore w = wb;
  wo_after : ha <= heightAfter w /\ wa <= widthAfter w;
  wo_cover : kernelHeight kn - 1 + heightOut w * pw_strideHeight w <= H + heightBefore w + heightAfter w /\
    kernelWidth kn - 1 + widthOut w * pw_strideWidth w <= W + widthBefore w + widthAfter w
}.

(** [poolWindowOf] succeeds exactly for a positive kernel that fits. *)
Lemma poolWindowOf_spec n k H W kn hb wb ha wa :
  match poolWindowOf [n; k; H; W] kn [hb; wb; ha; wa] with
  | Ok w => window_ok H W kn hb wb ha wa w
  | Err e =>
      e = ErrOp /\ (kernelHeight kn <= 0 \/ kernelWidth kn <= 0) \/
      e = ErrShape /\ (WindowLength H hb ha (kernelHeight kn) (stride_of (strideHeight kn)) <= 0 \/
                       WindowLength W wb wa (kernelWidth kn) (stride_of (strideWidth kn)) <= 0)
  end.
Proof using.
  unfold poolWindowOf. destruct (Z.leb_spec (kernelHeight kn) 0); [left; split; auto|].
  destruct (Z.leb_spec (kernelWidth kn) 0); [left; split; auto|]. cbn [orb length Nat.eqb negb dim nth].
  fold (stride_of (strideHeight kn)) (stride_of (strideWidth kn)). cbv zeta.
  pose proof (stride_pos (strideHeight kn)). pose proof (stride_pos (strideWidth kn)).
  set (sh := stride_of (strideHeight kn)) in *. set (sw := stride_of (strideWidth kn)) in *.
  pose proof (CoverPad_spec H (kernelHeight kn) sh (WindowLength H hb ha (kernelHeight kn) sh) hb ha) as K1.
  pose proof (CoverPad_spec W (kernelWidth kn) sw (WindowLength W wb wa (kernelWidth kn) sw) wb wa) as K2.
  destruct (Z.leb_spec (WindowLength H hb ha (kernelHeight kn) sh) 0); [right; split; auto|].
  destruct (Z.leb_spec (WindowLength W wb wa (kernelWidth kn) sw) 0); [right; split; auto|]. cbn [orb].
  destruct (CoverPad H _ _ _ _ _) as [hb' ha']. destruct (CoverPad W _ _ _ _ _) as [wb' wa'].
  cbv zeta in K1, K2. destruct (Z.leb_spec sh 0); [lia|]. destruct (Z.leb_spec sw 0); [lia|].
  destruct K1 as (-> & Ka & Kb & _). destruct K2 as (-> & Kc & Kd & _).
  split; cbn [pw_strideHeight pw_strideWidth heightOut widthOut heightBefore widthBefore heightAfter widthAfter]; auto.
Qed.

(** The value of a max pool at an output cell. *)
Definition max_pool_value (d : DType) (H W : Z) (kn : poolKernel) (hb wb : Z) (f : list Z -> Z) (c : list Z) : Z :=
  combine MAX d (map (fun g => g c) (pool_terms (kernelHeight kn) (kernelWidth kn) (stride_of (strideHeight kn)) (stride_of (strideWidth kn))
    (padded_fill H W f hb wb (bitsOf (Lowest d))))).

Lemma MaximumPool2D_runs h d t n k H W f kn hb wb ha wa : scalar d -> heap_ok h -> holds h t d [n; k; H; W] f ->
  0 <= hb -> 0 <= wb -> 0 <= ha -> 0 <= wa ->
  let sh := stride_of (strideHeight kn) in let sw := stride_of (strideWidth kn) in
  let ho := WindowLength H hb ha (kernelHeight kn) sh in let wo := WindowLength W wb wa (kernelWidth kn) sw in
  0 < kernelHeight kn -> 0 < kernelWidth kn -> 0 < ho -> 0 < wo ->
  runs h (MaximumPool2D ks d (Some t) kn [hb; wb; ha; wa])
    (fun h' r => exists t', r = Some t' /\ holds h' t' d [n; k; ho; wo] (max_pool_value d H W kn hb wb f)).
Proof using.
  intros Hd Hh Ht H0 H1 H2 H3 sh sw ho wo Hkh Hkw Hho Hwo. unfold MaximumPool2D.
  eapply (runs_bind h); [apply (runs_res h _ tt (fun h' _ => h' = h)); auto|]. intros _ h' _ _ ->.
  eapply (runs_bind h); [apply (runs_shape h t d _ f Hh Ht)|]. intros s h1 O1 X1 ->. apply (holds_ext h h1) in Ht; auto.
  pose proof (poolWindowOf_spec n k H W kn hb wb ha wa) as K.
  destruct (poolWindowOf _ _ _) as [w|e]; [|exfalso; fold sh sw ho wo in K; destruct K as [[_ K]|[_ K]]; lia].
  destruct K as [_ [Es1 Es2] [Eo1 Eo2] [Ep1 Ep2] [Eb1 Eb2] [Ea1 Ea2] [Ec1 Ec2]].
  eapply (runs_bind h1); [apply (runs_res h1 _ w (fun h' a => h' = h1 /\ a = w)); auto|]. intros w' h1' _ _ [-> ->].
  unfold cover_pads. eapply (runs_bind h1); [apply (padNCHWMax_yields h1 d t n k H W f _ _ _ _ Hd O1 Ht); lia|].
  intros pd h2 O2 X2 T2. eapply runs_weaken.
  { apply (pool_window_runs h2 MAX d pd n k _ _ _ kn w O2 T2); try lia; [apply scalar_type; auto| |];
      rewrite ?Es1, ?Es2; apply stride_pos. }
  intros acc h3 _ _ Ha. fold sh in Es1. fold sw in Es2. rewrite Es1 in Eo1. rewrite Es2 in Eo2. fold ho in Eo1. fold wo in Eo2.
  destruct acc as [t'|].
  - exists t'. split; [reflexivity|]. destruct Ha as [_ Ha]. rewrite Eo1, Eo2, Es1, Es2, Eb1, Eb2 in Ha. exact Ha.
  - exfalso. unfold acc_holds, pool_terms in Ha. apply (f_equal length) in Ha.
    rewrite (seqZ_cons 0 (kernelHeight kn)), (seqZ_cons 0 (kernelWidth kn)) in Ha by lia. simpl in Ha. lia.
Qed.

(** ** Integer layers *)

Lemma u32_i32_add x y : u32 (i32 (u32 x) + y) = u32 (x + y).
Proof using. destruct (i32_u32_mod x) as [k ->]. apply (u32_cong _ _ k). lia. Qed.

(** On int32 the terms add up, modulo 2^32. *)
Lemma combine_i32 vals : Forall word_ok vals -> combine ADD I32 vals = u32 (sumZ (map i32 vals)).
Proof using.
  intros Hv. destruct Hv as [|v vals Hv Hvs]; [reflexivity|]. cbn [combine map sumZ]. clear Hvs.
  rewrite <- (u32_i32 v Hv) at 1. generalize (i32 v) as a. intros a. clear v Hv. revert a.
  induction vals as [|x vals IH]; intros a; cbn [fold_left map sumZ]; [f_equal; lia|].
  change (alu ADD I32 I32 (u32 a) x 0) with (u32 (i32 (u32 a) + i32 x)). rewrite u32_i32_add, IH. f_equal. lia.
Qed.

Lemma sum_i32_u32 {A} (f : A -> Z) l : u32 (sumZ (map (fun x => i32 (u32 (f x))) l)) = u32 (sumZ (map f l)).
Proof using.
  induction l as [|x l IH]; [reflexivity|]. cbn [map sumZ]. rewrite u32_i32_add.
  rewrite (Z.add_comm (f x)), (Z.add_comm (f x)). rewrite <- (u32_i32_add (sumZ _) (f x)), IH, u32_i32_add. reflexivity.
Qed.

(** A linear layer on int32 is the matrix-vector product plus the bias,
    modulo 2^32. *)
Lemma linear_value_i32 inn fw fx fb c : 0 <= inn -> word_ok (fb c) ->
  linear_value I32 inn fw fx fb c
  = u32 (sumZ (map (fun j => i32 (fw [dim c 0; j]) * i32 (fx [j])) (seqZ 0 inn)) + i32 (fb c)).
Proof using.
  intros Hi Hb. unfold linear_value. destruct (Z.eqb_spec inn 0) as [->|Hne]; [symmetry; exact (u32_i32 _ Hb)|].
  rewrite combine_i32 by (apply Forall_map, Forall_true; intros j; apply u32_ok). rewrite map_map.
  change (alu ADD I32 I32 ?a ?b 0) with (u32 (i32 a + i32 b)). rewrite u32_i32_add.
  rewrite <- (u32_i32_add (sumZ (map _ (seqZ 0 inn)))), <- (u32_i32_add (sumZ (map (fun j => _ * _) _))). do 2 f_equal.
  f_equal. apply sum_i32_u32.
Qed.
End rules.
