(* ===== verification/Table.v ===== *)
(** * One program per kernel (src/x/driver/ndeval/internal/table/table.go)

    A GPU evaluator keeps a map from kernels to programs.  [Open] looks a
    kernel up, creates a program outside the lock, and installs it in a second
    critical section, where another caller may have won the race.  The file
    models each critical section as a function of the map, the goroutines as
    calls that take them in any order, and proves that the map only holds live
    programs of their kernels, that no program leaks, that concurrent callers
    agree on one program, and that every call ends. *)
From Stdlib Require Import ZArith Lia.
From stdpp Require Import base numbers option list gmap relations.
From S2P Require Import Prelude.

(** ** The critical sections *)

Section table.
Context {P : Type} `{EqDecision P}.

(** [table.items]; [None] is a nil map, which reads as empty. *)
Definition items : Type := option (gmap nat P).
Definition at_kernel (t : items) (kernel : nat) : option P := t ≫= (fun m => m !! kernel).

Definition lookup_program (kernel : nat) (same : P -> bool) (t : items) : option P * items :=
  let t := match t with None => Some ∅ | Some m => Some m end in
  match at_kernel t kernel with
  | Some program => if same program then (Some program, t) else (None, t)
  | None => (None, t)
  end.

(** What the locked part of [install] leaves to do: close the fresh program,
    or close the one it replaced. *)
Inductive installed : Type := ILost (existing : P) | IStored (old : option P).

(** [None] is the panic of an assignment to a nil map. *)
Definition install (kernel : nat) (fresh : P) (same : P -> bool) (t : items) : option (installed * items) :=
  let existing := at_kernel t kernel in
  if match existing with Some p => same p | None => false end
  then match existing with Some p => Some (ILost p, t) | None => None end
  else match t with
       | None => None
       | Some m => Some (IStored existing, Some (<[kernel := fresh]> m))
       end.

(** The function that [Forget] returns. *)
Definition forget (kernel : nat) (program : P) (t : items) : items :=
  match t with
  | None => None
  | Some m => if bool_decide (m !! kernel = Some program) then Some (delete kernel m) else t
  end.

Definition take_all (t : items) : list P * items :=
  (match t with None => [] | Some m => map snd (map_to_list m) end, None).

(** [Open] by a caller that is alone: [create] and [close] tell what those
    calls return.  The result is the kept program with its freshness, or an
    error. *)
Definition Open (kernel : nat) (same : P -> bool) (create : option P) (close : P -> bool) (t : items)
    : option (option (P * bool) * items) :=
  match lookup_program kernel same t with
  | (Some found, t) => Some (Some (found, false), t)
  | (None, t) =>
      match create with
      | None => Some (None, t)
      | Some created =>
          match install kernel created same t with
          | None => None
          | Some (ILost existing, t) => Some (if close created then Some (existing, bool_decide (existing = created)) else None, t)
          | Some (IStored old, t) =>
              Some (if match old with None => true | Some p => close p end then Some (created, true) else None, t)
          end
      end
  end.

Lemma lookup_spec kernel same t :
  match lookup_program kernel same t with
  | (Some p, t') => at_kernel t kernel = Some p /\ same p = true /\ t' = t
  | (None, t') => (forall p, at_kernel t kernel = Some p -> same p = false) /\ t' = Some (default ∅ t)
  end.
Proof.
  unfold lookup_program, at_kernel. destruct t as [m|]; cbn [mbind option_bind default].
  - destruct (m !! kernel) as [p|] eqn:Ep; [destruct (same p) eqn:Es; auto|]; split; auto; intros q Hq; congruence.
  - rewrite lookup_empty. split; [discriminate|reflexivity].
Qed.

(** Alone, [Open] never panics; it returns the stored program, or stores and
    returns the created one in place of a stale one. *)
Lemma Open_spec kernel same create close t :
  exists r t', Open kernel same create close t = Some (r, t') /\
    match at_kernel t kernel with
    | Some p => if same p then r = Some (p, false) /\ t' = t else
        match create with
        | None => r = None /\ t' = t
        | Some q => at_kernel t' kernel = Some q /\ r = if close p then Some (q, true) else None
        end
    | None =>
        match create with
        | None => r = None /\ at_kernel t' kernel = None
        | Some q => at_kernel t' kernel = Some q /\ r = Some (q, true)
        end
    end /\
    forall k, k <> kernel -> at_kernel t' k = at_kernel t k.
Proof.
  assert (Hbind : forall (m : gmap nat P) k, at_kernel (Some m) k = m !! k) by reflexivity.
  unfold Open, lookup_program, install. destruct t as [m|].
  - rewrite !Hbind. destruct (m !! kernel) as [p|] eqn:Ep; [destruct (same p) eqn:Es|].
    + eexists _, _. split; [reflexivity|]. auto.
    + destruct create as [q|]; [|eexists _, _; split; [reflexivity|auto]]. rewrite Hbind, Ep, Es.
      eexists _, _. split; [reflexivity|]. rewrite Hbind, lookup_insert_eq. split; [auto|].
      intros k Hk. rewrite !Hbind, lookup_insert_ne by congruence. reflexivity.
    + destruct create as [q|]; [|eexists _, _; split; [reflexivity|rewrite Hbind; auto]]. rewrite Hbind, Ep.
      eexists _, _. split; [reflexivity|]. rewrite Hbind, lookup_insert_eq. split; [auto|].
      intros k Hk. rewrite !Hbind, lookup_insert_ne by congruence. reflexivity.
  - rewrite Hbind, lookup_empty. destruct create as [q|]; rewrite ?Hbind, ?lookup_empty; eexists _, _; (split; [reflexivity|]);
      rewrite ?Hbind, ?lookup_insert_eq, ?lookup_empty; (split; [cbn; auto|]); intros k Hk;
      rewrite Hbind, ?lookup_insert_ne, lookup_empty by congruence; reflexivity.
Qed.

Lemma forget_spec kernel program t k :
  at_kernel (forget kernel program t) k =
    if bool_decide (k = kernel /\ at_kernel t kernel = Some program) then None else at_kernel t k.
Proof.
  destruct t as [m|]; cbn [forget at_kernel mbind option_bind]; [|case_bool_decide; reflexivity].
  case_bool_decide as Em; cbn [at_kernel mbind option_bind].
  - destruct (decide (k = kernel)) as [->|Hk].
    + rewrite lookup_delete_eq, bool_decide_true by auto. reflexivity.
    + rewrite lookup_delete_ne, bool_decide_false by (congruence || tauto). reflexivity.
  - rewrite bool_decide_false by tauto. reflexivity.
Qed.
End table.
Arguments items : clear implicits.

(** ** Goroutines *)

(** A program is a pointer: it is known by the call of [Open] that creates it,
    and it has a kernel. *)
Record program : Type := mkProgram { p_call : nat; p_kernel : nat }.
#[export] Instance program_eq_dec : EqDecision program.
Proof. solve_decision. Defined.

Definition sameKernel (kernel : nat) (s : program) : bool := Nat.eqb (p_kernel s) kernel.

(** How a call returns: [Open] keeps a program or fails, [Close] is done. *)
Inductive call_result : Type :=
| OKept (p : program) (fresh : bool)
| OFailed
| OPanic (p : program)
| OClosed.

(** Where a call is: [Open] before its first section, before [create], before
    [install]; a [Close] of the evaluator; a caller that will close a program
    it was given; the programs that are left to close, with whether the first
    has been forgotten; and the end. *)
Inductive call : Type :=
| CLookup (kernel : nat)
| CCreate (kernel : nat)
| CInstall (kernel : nat) (p : program)
| CTake
| CIdle
| CClose (todo : list program) (forgot : bool) (after : call_result)
| CDone (o : call_result).

Record evaluator : Type := mkEvaluator {
  e_items : items program;
  e_calls : list call;
  e_closed : list program;
  e_made : list program
}.

(** A close error is returned instead of the program; closing an evaluator
    goes on and joins the errors. *)
Definition close_failed (o : call_result) : call_result := match o with OKept _ _ => OFailed | o => o end.

(** The next section of the call [i]: the call after it, the map, what it
    closed and what it made; [ok] is the success of [create] or [Close]. *)
Definition act (i : nat) (ok : bool) (c : call) (t : items program)
    : option (call * items program * list program * list program) :=
  match c with
  | CLookup k =>
      let '(found, t) := lookup_program k (sameKernel k) t in
      Some (match found with Some p => CDone (OKept p false) | None => CCreate k end, t, [], [])
  | CCreate k =>
      Some (if ok then (CInstall k (mkProgram i k), t, [], [mkProgram i k]) else (CDone OFailed, t, [], []))
  | CInstall k p =>
      Some match install k p (sameKernel k) t with
           | None => (CDone (OPanic p), t, [], [])
           | Some (ILost w, t) => (CClose [p] false (OKept w (bool_decide (w = p))), t, [], [])
           | Some (IStored old, t) => (CClose (option_list old) false (OKept p true), t, [], [])
           end
  | CTake => let '(ps, t) := take_all t in Some (CClose ps false OClosed, t, [], [])
  | CClose [] _ o => Some (CDone o, t, [], [])
  | CClose (p :: ps) false o => Some (CClose (p :: ps) true o, forget (p_kernel p) p t, [], [])
  | CClose (p :: ps) true o => Some (CClose ps false (if ok then o else close_failed o), t, [p], [])
  | CIdle | CDone _ => None
  end.

(** One section of one call, in any order. *)
Inductive table_step : evaluator -> evaluator -> Prop :=
| step_act s i ok c c' t' closed made :
    e_calls s !! i = Some c -> act i ok c (e_items s) = Some (c', t', closed, made) ->
    table_step s (mkEvaluator t' (<[i := c']> (e_calls s)) (closed ++ e_closed s) (made ++ e_made s))
| step_pick s i j p fresh :
    e_calls s !! i = Some CIdle -> e_calls s !! j = Some (CDone (OKept p fresh)) ->
    table_step s (mkEvaluator (e_items s) (<[i := CClose [p] false OClosed]> (e_calls s)) (e_closed s) (e_made s)).

(** The evaluator with nothing open, and calls that have not begun. *)
Definition idle (c : call) : bool := match c with CLookup _ | CTake | CIdle => true | _ => false end.
Definition start (calls : list call) : evaluator := mkEvaluator None calls [] [].

(** *** The invariant *)

(** [create] of the call is still to come. *)
Definition before (c : call) : bool := match c with CLookup _ | CCreate _ => true | _ => false end.

(** The programs a call has in hand, its own fresh one apart. *)
Definition kept_by (o : call_result) : list program := match o with OKept p _ | OPanic p => [p] | _ => [] end.
Definition in_hand (c : call) : list program :=
  match c with CClose todo _ o => todo ++ kept_by o | CDone o => kept_by o | _ => [] end.
Definition to_close (c : call) : list program := match c with CClose todo _ _ => todo | _ => [] end.
Definition dropping (c : call) : option program := match c with CClose (p :: _) true _ => Some p | _ => None end.

(** [p] was created and has been offered to the table. *)
Definition known (s : evaluator) (p : program) : Prop :=
  p ∈ e_made s /\ e_calls s !! p_call p <> Some (CInstall (p_kernel p) p).

(** [p] is closed, or being closed after it was forgotten. *)
Definition gone (s : evaluator) (p : program) : Prop :=
  p ∈ e_closed s \/ exists i c, e_calls s !! i = Some c /\ dropping c = Some p.

Record table_inv (s : evaluator) : Prop := {
  ti_made : forall p, p ∈ e_made s -> exists c, e_calls s !! p_call p = Some c /\ before c = false;
  ti_install : forall i k p, e_calls s !! i = Some (CInstall k p) -> p = mkProgram i k /\ p ∈ e_made s;
  ti_hand : forall i c p, e_calls s !! i = Some c -> p ∈ in_hand c -> known s p;
  ti_closed : forall p, p ∈ e_closed s -> known s p;
  ti_table : forall k p, at_kernel (e_items s) k = Some p -> p_kernel p = k /\ known s p /\ ~ gone s p;
  ti_accounted : forall p, p ∈ e_made s ->
    e_calls s !! p_call p = Some (CInstall (p_kernel p) p) \/
    at_kernel (e_items s) (p_kernel p) = Some p \/
    (exists i c, e_calls s !! i = Some c /\ p ∈ to_close c) \/
    p ∈ e_closed s \/
    exists i, e_calls s !! i = Some (CDone (OPanic p))
}.

Lemma calls_insert (l : list call) i j c d : <[i := c]> l !! j = Some d ->
  (j = i /\ d = c) \/ (j <> i /\ l !! j = Some d).
Proof.
  intros H. apply list_lookup_insert_Some in H as [(-> & -> & _)|(Hne & H)]; [left|right]; auto.
Qed.

Lemma dropping_in_hand c p : dropping c = Some p -> p ∈ in_hand c.
Proof. destruct c as [| | | | |todo f o|]; try discriminate. destruct todo as [|q todo], f; try discriminate. intros [= ->]. left. Qed.

Lemma to_close_in_hand c p : p ∈ to_close c -> p ∈ in_hand c.
Proof. destruct c as [| | | | |todo f o|]; cbn; intros H; try solve [inversion H]. apply elem_of_app. left. exact H. Qed.

(** What one section does to the invariant's parts. *)
Lemma act_before i ok c t c' t' cl mk : act i ok c t = Some (c', t', cl, mk) -> before c = false -> before c' = false.
Proof.
  destruct c as [k|k|k p| | |todo f o|o]; try discriminate.
  - cbn [act]. intros [= Ha]. destruct (install _ _ _ _) as [[[w|old] t1]|]; injection Ha as <- _ _ _; reflexivity.
  - cbn [act]. destruct (take_all t). intros [= <- _ _ _]. reflexivity.
  - cbn [act]. destruct todo as [|p ps]; [intros [= <- _ _ _]; reflexivity|]. destruct f; intros [= <- _ _ _]; reflexivity.
Qed.

Lemma act_closed i ok c t c' t' cl mk p : act i ok c t = Some (c', t', cl, mk) ->
  (p ∈ cl -> dropping c = Some p) /\ (dropping c = Some p -> p ∈ cl).
Proof.
  destruct c as [k|k|k q| | |todo f o|o]; cbn [act dropping]; try discriminate.
  - destruct (lookup_program _ _ _) as [fd t1]. intros [= _ _ <- _]. split; [intros H; inversion H|discriminate].
  - intros [= Ha]. destruct ok; injection Ha as _ _ <- _; (split; [intros H; inversion H|discriminate]).
  - intros [= Ha]. destruct (install _ _ _ _) as [[[w|old] t1]|]; injection Ha as _ _ <- _; (split; [intros H; inversion H|discriminate]).
  - destruct (take_all t). intros [= _ _ <- _]. split; [intros H; inversion H|discriminate].
  - destruct todo as [|q ps]; [intros [= _ _ <- _]; split; [intros H; inversion H|discriminate]|].
    destruct f; intros [= _ _ <- _]; [|split; [intros H; inversion H|discriminate]].
    split; [intros H; apply list_elem_of_singleton in H; congruence|intros [= ->]; left].
Qed.

Lemma act_made i ok c t c' t' cl mk p : act i ok c t = Some (c', t', cl, mk) -> p ∈ mk ->
  exists k, c = CCreate k /\ p = mkProgram i k /\ c' = CInstall k p.
Proof.
  destruct c as [k|k|k q| | |todo f o|o]; cbn [act]; try discriminate.
  - destruct (lookup_program _ _ _) as [fd t1]. intros [= _ _ _ <-] H. inversion H.
  - intros [= Ha]. destruct ok; injection Ha as <- _ _ <-; intros H; [|inversion H]. apply list_elem_of_singleton in H. subst p. eauto.
  - intros [= Ha]. destruct (install _ _ _ _) as [[[w|old] t1]|]; injection Ha as _ _ _ <-; intros H; inversion H.
  - destruct (take_all t). intros [= _ _ _ <-] H. inversion H.
  - destruct todo as [|q ps]; [|destruct f]; intros [= _ _ _ <-] H; inversion H.
Qed.

Lemma act_install i ok c t c' t' cl mk k p : act i ok c t = Some (c', t', cl, mk) -> c' = CInstall k p ->
  c = CCreate k /\ p = mkProgram i k /\ mk = [p].
Proof.
  intros Ha ->. destruct c as [k0|k0|k0 q| | |todo f o|o]; cbn [act] in Ha; try discriminate Ha.
  - destruct (lookup_program _ _ _) as [[p0|] t1]; discriminate Ha.
  - destruct ok; [|discriminate Ha]. injection Ha as -> <- _ _ <-. auto.
  - destruct (install _ _ _ _) as [[[w|old] t1]|]; discriminate Ha.
  - destruct todo as [|q ps]; [|destruct f]; discriminate Ha.
Qed.

Lemma sameKernel_at s k p : table_inv s -> at_kernel (e_items s) k = Some p -> sameKernel k p = true.
Proof. intros H Hp. apply Nat.eqb_eq. apply (ti_table _ H k p Hp). Qed.

(** [install] under the invariant: another program of the kernel wins, or the
    fresh one is stored in an empty place. *)
Lemma install_inv s k fresh : table_inv s ->
  install k fresh (sameKernel k) (e_items s) =
    match at_kernel (e_items s) k with
    | Some w => Some (ILost w, e_items s)
    | None => match e_items s with None => None | Some m => Some (IStored None, Some (<[k := fresh]> m)) end
    end.
Proof.
  intros H. unfold install. destruct (at_kernel (e_items s) k) as [w|] eqn:Ew; [|reflexivity].
  rewrite (sameKernel_at s k w H Ew). reflexivity.
Qed.

(** What a section leaves in the map. *)
Lemma act_table s i ok c c' t' cl mk k p : table_inv s -> act i ok c (e_items s) = Some (c', t', cl, mk) ->
  at_kernel t' k = Some p ->
  (at_kernel (e_items s) k = Some p /\ dropping c' <> Some p \/ at_kernel (e_items s) k = Some p /\ dropping c = Some p) \/
  c = CInstall k p /\ c' = CClose [] false (OKept p true).
Proof.
  intros H Ha Hp. destruct c as [k0|k0|k0 q| | |todo f o|o]; cbn [act] in Ha; try discriminate Ha.
  - pose proof (lookup_spec k0 (sameKernel k0) (e_items s)) as L. destruct (lookup_program _ _ _) as [[p0|] t1]; injection Ha as <- <- _ _.
    + destruct L as (_ & _ & ->). left. left. split; [exact Hp|discriminate].
    + destruct L as (_ & ->). left. left. split; [|discriminate]. destruct (e_items s); [exact Hp|]. cbn in Hp. rewrite lookup_empty in Hp. discriminate Hp.
  - left. left. destruct ok; injection Ha as <- <- _ _; (split; [exact Hp|discriminate]).
  - injection Ha as Ha. rewrite install_inv in Ha by exact H. destruct (at_kernel (e_items s) k0) as [w|] eqn:Ew.
    + injection Ha as <- <- _ _. left. left. split; [exact Hp|discriminate].
    + destruct (e_items s) as [m|] eqn:Em; injection Ha as <- <- _ _; [|discriminate Hp].
      cbn in Hp. destruct (decide (k = k0)) as [->|Hne].
      * rewrite lookup_insert_eq in Hp. injection Hp as ->. right. auto.
      * rewrite lookup_insert_ne in Hp by congruence. left. left. split; [exact Hp|discriminate].
  - unfold take_all in Ha. injection Ha as _ <- _ _. discriminate Hp.
  - destruct todo as [|q ps]; [|destruct f]; injection Ha as <- <- _ _.
    + left. left. split; [exact Hp|discriminate].
    + destruct (decide (q = p)) as [->|Hne]; [left; right; auto|]. left. left. split; [exact Hp|]. destruct ps; discriminate.
    + rewrite forget_spec in Hp. case_bool_decide as Hk; [discriminate Hp|]. left. left. split; [exact Hp|].
      intros [= ->]. apply Hk. destruct (ti_table _ H k p Hp) as (<- & _). auto.
Qed.

Section preservation.
Context (s s' : evaluator) (Hinv : table_inv s).

(** The two kinds of step, as one update of a call. *)
Record advanced (i : nat) (c c' : call) : Prop := {
  mo_calls : e_calls s !! i = Some c /\ e_calls s' = <[i := c']> (e_calls s);
  mo_live : forall o, c <> CDone o;
  mo_before : before c = false -> before c' = false;
  mo_install : forall k p, c' = CInstall k p -> c = CCreate k /\ p = mkProgram i k /\ p ∈ e_made s';
  mo_made : forall p, p ∈ e_made s' <-> p ∈ e_made s \/ exists k, c = CCreate k /\ p = mkProgram i k /\ c' = CInstall k p;
  mo_closed : forall p, p ∈ e_closed s' <-> p ∈ e_closed s \/ dropping c = Some p;
  mo_hand : forall p, p ∈ in_hand c' -> c = CInstall (p_kernel p) p \/ known s p;
  mo_table : forall k p, at_kernel (e_items s') k = Some p ->
    at_kernel (e_items s) k = Some p /\ (dropping c' = Some p -> dropping c = Some p) \/ c = CInstall k p /\ dropping c' = None;
  mo_lost : forall k p, at_kernel (e_items s) k = Some p -> at_kernel (e_items s') k = Some p \/ p ∈ to_close c';
  mo_pending : forall k p, c = CInstall k p -> c' <> CInstall k p ->
    at_kernel (e_items s') k = Some p \/ p ∈ to_close c' \/ c' = CDone (OPanic p);
  mo_todo : forall p, p ∈ to_close c -> p ∈ to_close c' \/ dropping c = Some p
}.

Lemma known_step i c c' p : advanced i c c' -> known s p -> known s' p.
Proof using Hinv.
  intros M [H1 H2]. destruct (mo_calls _ _ _ M) as [Hc Hc']. split; [apply (mo_made _ _ _ M); auto|].
  intros Hp. rewrite Hc' in Hp. apply calls_insert in Hp as [[Ei Ep]|[_ Hp]]; [|exact (H2 Hp)].
  symmetry in Ep. destruct (mo_install _ _ _ M _ _ Ep) as (-> & _). destruct (ti_made _ Hinv p H1) as (c0 & Hc0 & Hb).
  rewrite Ei, Hc in Hc0. injection Hc0 as <-. discriminate Hb.
Qed.

(** The fresh program is known once it was offered. *)
Lemma known_offered i c c' k p : advanced i c c' -> c = CInstall k p -> (forall k p, c' <> CInstall k p) -> known s' p.
Proof using Hinv.
  intros M -> Hne. destruct (mo_calls _ _ _ M) as [Hc Hc']. destruct (ti_install _ Hinv i k p Hc) as [-> Hm].
  split; [apply (mo_made _ _ _ M); auto|]. cbn [p_call p_kernel]. rewrite Hc', list_lookup_insert_eq by (eapply lookup_lt_Some, Hc).
  intros [= E]. exact (Hne _ _ E).
Qed.

(** A call that offers its program does not offer it again. *)
Lemma install_moves i c c' k p : advanced i c c' -> c = CInstall k p -> forall k' p', c' <> CInstall k' p'.
Proof using. intros M -> k' p' E. destruct (mo_install _ _ _ M k' p' E) as (E' & _). discriminate E'. Qed.

Lemma gone_step i c c' p : advanced i c c' -> gone s' p -> gone s p \/ dropping c' = Some p.
Proof using.
  intros M [H|(j & d & Hd & Hp)].
  - apply (mo_closed _ _ _ M) in H as [H|H]; [left; left; exact H|]. left. right. exists i, c. split; [apply M|exact H].
  - rewrite (proj2 (mo_calls _ _ _ M)) in Hd. apply calls_insert in Hd as [[_ ->]|[_ Hd]]; [auto|]. left. right. eauto.
Qed.

Lemma gone_known p : gone s p -> known s p.
Proof using Hinv.
  intros [H|(i & c & Hc & Hp)]; [apply (ti_closed _ Hinv p H)|]. apply (ti_hand _ Hinv i c p Hc), dropping_in_hand, Hp.
Qed.

Lemma moved_table i c c' k p : advanced i c c' -> at_kernel (e_items s') k = Some p -> p_kernel p = k /\ known s' p /\ ~ gone s' p.
Proof using Hinv.
  intros M Hp. destruct (mo_table _ _ _ M k p Hp) as [[H1 H2]|[Ec Hd]].
  - destruct (ti_table _ Hinv k p H1) as (K1 & K2 & K3). split; [exact K1|]. split; [eapply known_step; eassumption|].
    intros Hg. apply (gone_step i c c' p M) in Hg as [Hg|Hg]; [exact (K3 Hg)|]. apply K3. right. exists i, c. split; [apply M|auto].
  - destruct (mo_calls _ _ _ M) as [Hc _]. rewrite Ec in Hc. destruct (ti_install _ Hinv i k p Hc) as [-> Hm].
    split; [reflexivity|]. split; [eapply known_offered; [exact M|exact Ec|eapply install_moves; eassumption]|].
    intros Hg. apply (gone_step i c c' _ M) in Hg as [Hg|Hg]; [|congruence]. apply gone_known in Hg as [_ Hg].
    apply Hg. exact Hc.
Qed.

Lemma moved_accounted i c c' p : advanced i c c' -> p ∈ e_made s' ->
  e_calls s' !! p_call p = Some (CInstall (p_kernel p) p) \/
  at_kernel (e_items s') (p_kernel p) = Some p \/
  (exists i c, e_calls s' !! i = Some c /\ p ∈ to_close c) \/
  p ∈ e_closed s' \/
  exists i, e_calls s' !! i = Some (CDone (OPanic p)).
Proof using Hinv.
  intros M Hp. destruct (mo_calls _ _ _ M) as [Hc Hc'].
  assert (Hi : e_calls s' !! i = Some c') by (rewrite Hc'; apply list_lookup_insert_eq; eapply lookup_lt_Some, Hc).
  assert (Hj : forall j d, e_calls s !! j = Some d -> j <> i -> e_calls s' !! j = Some d).
  { intros j d Hd Hne. rewrite Hc', list_lookup_insert_ne by congruence. exact Hd. }
  apply (mo_made _ _ _ M) in Hp as [Hp|(k & -> & -> & ->)]; [|left; exact Hi].
  destruct (ti_accounted _ Hinv p Hp) as [H|[H|[(j & d & Hd & H)|[H|(j & H)]]]].
  - destruct (decide (p_call p = i)) as [Ei|Hne]; [|left; apply Hj; assumption].
    rewrite Ei, Hc in H. injection H as ->.
    destruct (mo_pending _ _ _ M _ _ eq_refl (install_moves _ _ _ _ _ M eq_refl _ _)) as [K|[K|K]]; [auto|eauto 10|].
    rewrite K in Hi. eauto 10.
  - destruct (mo_lost _ _ _ M _ _ H) as [K|K]; eauto 10.
  - destruct (decide (j = i)) as [->|Hne]; [|right; right; left; eauto].
    rewrite Hc in Hd. injection Hd as <-. destruct (mo_todo _ _ _ M p H) as [K|K]; [eauto 10|].
    right. right. right. left. apply (mo_closed _ _ _ M). auto.
  - right. right. right. left. apply (mo_closed _ _ _ M). auto.
  - destruct (decide (j = i)) as [->|Hne]; [|eauto 10]. rewrite Hc in H. injection H as ->.
    exfalso. exact (mo_live _ _ _ M _ eq_refl).
Qed.

Lemma moved_inv i c c' : advanced i c c' -> table_inv s'.
Proof using Hinv.
  intros M. destruct (mo_calls _ _ _ M) as [Hc Hc']. split.
  - intros p Hp. apply (mo_made _ _ _ M) in Hp as [Hp|(k & -> & -> & ->)].
    + destruct (ti_made _ Hinv p Hp) as (d & Hd & Hb). destruct (decide (p_call p = i)) as [Ei|Hne].
      * exists c'. rewrite Hc', Ei. split; [apply list_lookup_insert_eq; eapply lookup_lt_Some, Hc|].
        rewrite Ei, Hc in Hd. injection Hd as <-. apply (mo_before _ _ _ M Hb).
      * exists d. rewrite Hc', list_lookup_insert_ne by congruence. auto.
    + exists (CInstall k (mkProgram i k)). rewrite Hc'. split; [apply list_lookup_insert_eq; eapply lookup_lt_Some, Hc|reflexivity].
  - intros j k p Hp. rewrite Hc' in Hp. apply calls_insert in Hp as [[-> Ep]|[_ Hp]].
    + destruct (mo_install _ _ _ M k p (eq_sym Ep)) as (_ & E1 & E2). auto.
    + destruct (ti_install _ Hinv j k p Hp) as [E1 E2]. split; [exact E1|]. apply (mo_made _ _ _ M). auto.
  - intros j d p Hd Hp. rewrite Hc' in Hd. apply calls_insert in Hd as [[-> ->]|[_ Hd]].
    + destruct (mo_hand _ _ _ M p Hp) as [Ec|Hk]; [|eapply known_step; eassumption].
      eapply known_offered; [exact M|exact Ec|eapply install_moves; eassumption].
    + eapply known_step; [exact M|]. eapply (ti_hand _ Hinv); eassumption.
  - intros p Hp. eapply known_step; [exact M|]. apply (mo_closed _ _ _ M) in Hp as [Hp|Hp]; [apply (ti_closed _ Hinv p Hp)|].
    apply (ti_hand _ Hinv i c p Hc), dropping_in_hand, Hp.
  - intros k p. apply moved_table with i c c'. exact M.
  - intros p. apply moved_accounted with i c c'. exact M.
Qed.
End preservation.

Lemma act_moved s i ok c c' t' cl mk : table_inv s -> e_calls s !! i = Some c -> act i ok c (e_items s) = Some (c', t', cl, mk) ->
  advanced s (mkEvaluator t' (<[i := c']> (e_calls s)) (cl ++ e_closed s) (mk ++ e_made s)) i c c'.
Proof.
  intros H Hc Ha. split; cbn [e_items e_calls e_closed e_made].
  - auto.
  - intros o ->. discriminate Ha.
  - eapply act_before, Ha.
  - intros k p Ep. destruct (act_install _ _ _ _ _ _ _ _ k p Ha Ep) as (E1 & E2 & ->). split; [exact E1|]. split; [exact E2|left].
  - intros p. rewrite elem_of_app. split; [|intros [Hp|(k & E1 & E2 & E3)]; [auto|]].
    + intros [Hp|Hp]; [right; eapply act_made; eassumption|auto].
    + left. destruct (act_install _ _ _ _ _ _ _ _ k p Ha E3) as (_ & _ & ->). left.
  - intros p. rewrite elem_of_app. destruct (act_closed _ _ _ _ _ _ _ _ p Ha). tauto.
  - intros p Hp. destruct c as [k|k|k q| | |todo f o|o]; cbn [act] in Ha; try discriminate Ha.
    + pose proof (lookup_spec k (sameKernel k) (e_items s)) as L. destruct (lookup_program _ _ _) as [[p0|] t1]; injection Ha as <- _ _ _; [|inversion Hp].
      apply list_elem_of_singleton in Hp. subst p0. right. apply (ti_table _ H k p), L.
    + destruct ok; injection Ha as <- _ _ _; inversion Hp.
    + injection Ha as Ha. rewrite install_inv in Ha by exact H. destruct (ti_install _ H i k q Hc) as [Eq _].
      destruct (at_kernel (e_items s) k) as [w|] eqn:Ew; [|destruct (e_items s)]; injection Ha as <- _ _ _; cbn in Hp.
      * apply elem_of_cons in Hp as [->|Hp]; [left; subst q; reflexivity|]. apply list_elem_of_singleton in Hp. subst w.
        right. apply (ti_table _ H k p Ew).
      * apply list_elem_of_singleton in Hp. subst. left. reflexivity.
      * apply list_elem_of_singleton in Hp. subst. left. reflexivity.
    + unfold take_all in Ha. injection Ha as <- _ _ _. cbn [in_hand] in Hp. apply elem_of_app in Hp as [Hp|Hp]; [|inversion Hp]. right.
      destruct (e_items s) as [m|] eqn:Em; [|inversion Hp]. apply list_elem_of_In, in_map_iff in Hp as ([k p0] & E1 & Hp). cbn in E1. subst p0.
      apply list_elem_of_In, elem_of_map_to_list in Hp. apply (ti_table _ H k p). rewrite Em. exact Hp.
    + right. apply (ti_hand _ H i _ p Hc). destruct todo as [|q ps]; [|destruct f]; injection Ha as <- _ _ _; cbn [in_hand] in *.
      * exact Hp.
      * cbn [app]. right. apply elem_of_app in Hp as [Hp|Hp]; apply elem_of_app; [auto|right]. destruct ok; [exact Hp|].
        destruct o; cbn in *; [inversion Hp|exact Hp..].
      * exact Hp.
  - intros k p Hp. pose proof (act_table s i ok c c' t' cl mk k p H Ha Hp) as [[[K1 K2]|[K1 K2]]|[K1 K2]].
    + left. split; [exact K1|]. intros Hd. contradiction.
    + left. auto.
    + right. subst c'. auto.
  - intros k p Hp. destruct c as [k0|k0|k0 q| | |todo f o|o]; cbn [act] in Ha; try discriminate Ha.
    + pose proof (lookup_spec k0 (sameKernel k0) (e_items s)) as L. destruct (lookup_program _ _ _) as [[p0|] t1]; injection Ha as _ <- _ _.
      * destruct L as (_ & _ & ->). auto.
      * destruct L as (_ & ->). left. destruct (e_items s); [exact Hp|discriminate Hp].
    + left. destruct ok; injection Ha as _ <- _ _; exact Hp.
    + injection Ha as Ha. rewrite install_inv in Ha by exact H. destruct (at_kernel (e_items s) k0) as [w|] eqn:Ew.
      * injection Ha as _ <- _ _. auto.
      * destruct (e_items s) as [m|] eqn:Em; injection Ha as _ <- _ _; [|discriminate Hp]. left. cbn in *.
        rewrite lookup_insert_ne; [exact Hp|]. intros ->. congruence.
    + unfold take_all in Ha. injection Ha as <- _ _ _. right. cbn [to_close]. destruct (e_items s) as [m|] eqn:Em; [|discriminate Hp].
      apply list_elem_of_In, in_map_iff. exists (k, p). split; [reflexivity|]. apply list_elem_of_In, elem_of_map_to_list. exact Hp.
    + destruct todo as [|q ps]; [|destruct f]; injection Ha as <- <- _ _; auto.
      rewrite forget_spec. case_bool_decide as Hk; [|auto]. right. cbn [to_close]. destruct Hk as [-> Hk]. rewrite Hk in Hp. injection Hp as ->. left.
  - intros k p -> Hne. cbn [act] in Ha. injection Ha as Ha. rewrite install_inv in Ha by exact H.
    destruct (at_kernel (e_items s) k) as [w|] eqn:Ew; [|destruct (e_items s) as [m|]]; injection Ha as <- <- _ _.
    + right. left. left.
    + left. apply lookup_insert_eq.
    + auto.
  - intros p Hp. destruct c as [k|k|k q| | |todo f o|o]; cbn [to_close] in Hp; try solve [inversion Hp].
    cbn [act] in Ha. destruct todo as [|q ps]; [inversion Hp|]. destruct f; injection Ha as <- _ _ _; cbn [to_close dropping].
    + apply elem_of_cons in Hp as [->|Hp]; auto.
    + auto.
Qed.

Lemma pick_moved s i j p fresh : table_inv s -> e_calls s !! i = Some CIdle -> e_calls s !! j = Some (CDone (OKept p fresh)) ->
  advanced s (mkEvaluator (e_items s) (<[i := CClose [p] false OClosed]> (e_calls s)) (e_closed s) (e_made s)) i CIdle (CClose [p] false OClosed).
Proof.
  intros H Hi Hj. split; cbn [e_items e_calls e_closed e_made]; try discriminate; auto.
  - intros q. split; [auto|]. intros [Hq|(k & E & _)]; [exact Hq|discriminate E].
  - intros q. split; [auto|]. intros [Hq|E]; [exact Hq|discriminate E].
  - intros q Hq. apply list_elem_of_singleton in Hq. subst q. right. apply (ti_hand _ H j _ p Hj). left.
  - intros q Hq. inversion Hq.
Qed.

Lemma table_step_inv s s' : table_inv s -> table_step s s' -> table_inv s'.
Proof.
  intros H Hs. inversion Hs; subst; eapply moved_inv; eauto using act_moved, pick_moved.
Qed.

Lemma started_inv calls : forallb idle calls = true -> table_inv (start calls).
Proof.
  intros Hc. rewrite forallb_forall in Hc. assert (Hidle : forall i c, calls !! i = Some c -> idle c = true).
  { intros i c Hi. apply Hc, list_elem_of_In. eapply list_elem_of_lookup_2, Hi. }
  split; cbn [start e_items e_calls e_closed e_made].
  - intros p Hp. inversion Hp.
  - intros i k p Hp. apply Hidle in Hp. discriminate Hp.
  - intros i c p Hi Hp. apply Hidle in Hi. destruct c; try discriminate Hi; inversion Hp.
  - intros p Hp. inversion Hp.
  - intros k p Hp. discriminate Hp.
  - intros p Hp. inversion Hp.
Qed.

(** Every state that the calls reach satisfies the invariant. *)
Lemma table_reaches calls s : forallb idle calls = true -> rtc table_step (start calls) s -> table_inv s.
Proof.
  intros Hc Hs. remember (start calls) as s0 eqn:E0. assert (H0 : table_inv s0) by (subst; apply started_inv, Hc).
  clear E0 Hc. induction Hs as [s|s s1 s2 Hs _ IH]; [exact H0|]. apply IH. eapply table_step_inv; eassumption.
Qed.

(** *** Concurrent callers of [Open] *)

Definition outcome_of_call (c : call) : option call_result := match c with CClose _ _ o | CDone o => Some o | _ => None end.

(** The call is an [Open] of the kernel [k]. *)
Definition opens (k : nat) (c : call) : Prop :=
  match c with
  | CLookup k' | CCreate k' | CInstall k' _ => k' = k
  | CTake | CIdle => False
  | CClose _ _ o | CDone o => match o with OKept p _ => p_kernel p = k | OFailed => True | _ => False end
  end.

(** While nothing but [Open] runs, a program that was stored stays. *)
Record agreed (ks : list nat) (s : evaluator) : Prop := {
  ag_inv : table_inv s;
  ag_length : length (e_calls s) = length ks;
  ag_opens : forall i k c, ks !! i = Some k -> e_calls s !! i = Some c -> opens k c;
  ag_map : forall i c, e_calls s !! i = Some c -> (exists k, c = CLookup k) \/ e_items s <> None;
  ag_kept : forall i c p fresh, e_calls s !! i = Some c -> outcome_of_call c = Some (OKept p fresh) ->
    at_kernel (e_items s) (p_kernel p) = Some p /\ fresh = Nat.eqb (p_call p) i;
  ag_losers : forall i c p, e_calls s !! i = Some c -> p ∈ to_close c -> at_kernel (e_items s) (p_kernel p) <> Some p
}.

Lemma agreed_call ks s i c : agreed ks s -> e_calls s !! i = Some c -> exists k, ks !! i = Some k /\ opens k c.
Proof.
  intros H Hc. pose proof (lookup_lt_Some _ _ _ Hc) as Hl. rewrite (ag_length _ _ H) in Hl.
  destruct (lookup_lt_is_Some_2 _ _ Hl) as [k Hk]. exists k. split; [exact Hk|]. eapply ag_opens; eassumption.
Qed.

(** One section of an [Open], when no program was ever removed. *)
Lemma open_act ks s i ok c c' t' cl mk : agreed ks s -> e_calls s !! i = Some c -> act i ok c (e_items s) = Some (c', t', cl, mk) ->
  (forall k, opens k c -> opens k c') /\ t' <> None /\
  (forall k p, at_kernel (e_items s) k = Some p -> at_kernel t' k = Some p) /\
  (forall p, at_kernel t' (p_kernel p) = Some p -> at_kernel (e_items s) (p_kernel p) = Some p \/ c = CInstall (p_kernel p) p) /\
  (forall p fresh, outcome_of_call c' = Some (OKept p fresh) -> at_kernel t' (p_kernel p) = Some p /\ fresh = Nat.eqb (p_call p) i) /\
  (forall p, p ∈ to_close c' -> at_kernel t' (p_kernel p) <> Some p).
Proof.
  intros H Hc Ha. pose proof (ag_inv _ _ H) as Hi. destruct (agreed_call ks s i c H Hc) as (k0 & _ & Ho).
  pose proof (ag_map _ _ H i c Hc) as Hm.
  destruct c as [k|k|k q| | |todo f o|o]; cbn [act] in Ha; try discriminate Ha; try contradiction Ho.
  - pose proof (lookup_spec k (sameKernel k) (e_items s)) as L. destruct (lookup_program _ _ _) as [[p0|] t1]; injection Ha as <- <- _ _.
    + destruct L as (L1 & L2 & ->). apply Nat.eqb_eq in L2. split; [intros k' ->; exact L2|]. split; [intros E; rewrite E in L1; discriminate L1|].
      split; [auto|]. split; [auto|]. split; [|intros p Hp; inversion Hp].
      intros p fresh [= <- <-]. rewrite L2. split; [exact L1|]. symmetry. apply Nat.eqb_neq. intros E.
      destruct (ti_table _ Hi k p0 L1) as (_ & [Hmade _] & _). destruct (ti_made _ Hi p0 Hmade) as (c0 & Hc0 & Hb).
      rewrite E, Hc in Hc0. injection Hc0 as <-. discriminate Hb.
    + destruct L as (_ & ->). assert (Eq : forall j, at_kernel (Some (default ∅ (e_items s))) j = at_kernel (e_items s) j).
      { intros j. destruct (e_items s); [reflexivity|]. apply lookup_empty. }
      split; [auto|]. split; [discriminate|]. split; [intros j p; rewrite Eq; auto|]. split; [intros p; rewrite Eq; auto|].
      split; [discriminate|]. intros p Hp; inversion Hp.
  - destruct Hm as [[k' E]|Hm]; [discriminate E|].
    destruct ok; injection Ha as <- <- _ _; (split; [cbn; auto|]); (split; [exact Hm|]); (split; [auto|]); (split; [auto|]);
      (split; [discriminate|]); intros p Hp; inversion Hp.
  - destruct Hm as [[k' E]|Hm]; [discriminate E|]. destruct (ti_install _ Hi i k q Hc) as [-> Hmade].
    injection Ha as Ha. rewrite install_inv in Ha by exact Hi. destruct (at_kernel (e_items s) k) as [w|] eqn:Ew.
    + injection Ha as <- <- _ _. destruct (ti_table _ Hi k w Ew) as (Ek & [Hwm Hwn] & _).
      assert (Hne : w <> mkProgram i k) by (intros ->; apply Hwn; exact Hc).
      split; [intros k' ->; exact Ek|]. split; [exact Hm|]. split; [auto|]. split; [auto|]. split.
      * intros p fresh [= <- <-]. rewrite Ek, bool_decide_false by exact Hne. split; [exact Ew|]. symmetry. apply Nat.eqb_neq.
        intros E. apply Hne. destruct w as [a b]. cbn in *. congruence.
      * intros p Hp. apply list_elem_of_singleton in Hp. subst p. cbn. congruence.
    + destruct (e_items s) as [m|] eqn:Em; [|contradiction]. injection Ha as <- <- _ _.
      split; [intros k' ->; reflexivity|]. split; [discriminate|]. split; [|split; [|split]].
      * intros j p Hp. cbn in *. rewrite lookup_insert_ne; [exact Hp|]. intros ->. congruence.
      * intros p Hp. cbn in *. destruct (decide (p_kernel p = k)) as [E|Hne]; [|rewrite lookup_insert_ne in Hp by congruence; auto].
        rewrite E, lookup_insert_eq in Hp. injection Hp as <-. right. reflexivity.
      * intros p fresh [= <- <-]. cbn. rewrite lookup_insert_eq, Nat.eqb_refl. auto.
      * intros p Hp. inversion Hp.
  - destruct Hm as [[k' E]|Hm]; [discriminate E|]. pose proof (fun p fresh => ag_kept _ _ H i _ p fresh Hc) as Hk. pose proof (fun p => ag_losers _ _ H i _ p Hc) as Hl.
    cbn [outcome_of_call to_close] in Hk, Hl |- *.
    destruct todo as [|q ps]; [|destruct f]; injection Ha as <- <- _ _.
    + split; [auto|]. split; [exact Hm|]. split; [auto|]. split; [auto|]. split; [exact Hk|]. intros p Hp. inversion Hp.
    + split; [intros k; destruct ok, o; cbn; auto|]. split; [exact Hm|]. split; [auto|]. split; [auto|]. split.
      * intros p fresh. destruct ok; [apply Hk|]. destruct o; discriminate.
      * intros p Hp. apply Hl. right. exact Hp.
    + assert (Eq : forall j, at_kernel (forget (p_kernel q) q (e_items s)) j = at_kernel (e_items s) j).
      { intros j. rewrite forget_spec, bool_decide_false; [reflexivity|]. intros [-> Hq]. exact (Hl q ltac:(left) Hq). }
      split; [auto|]. split; [destruct (e_items s); [|contradiction]; cbn; destruct (bool_decide _); discriminate|].
      split; [intros j p; rewrite Eq; auto|]. split; [intros p; rewrite Eq; auto|].
      split; [intros p fresh; rewrite Eq; apply Hk|]. intros p. rewrite Eq. apply Hl.
Qed.

Lemma agreed_step ks s s' : agreed ks s -> table_step s s' -> agreed ks s'.
Proof.
  intros H Hs. pose proof (table_step_inv s s' (ag_inv _ _ H) Hs) as Hinv. inversion Hs as [s0 i ok c c' t' cl mk Hc Ha|s0 i j p fresh Hc Hj]; subst.
  2: { destruct (agreed_call ks s i _ H Hc) as (k & _ & []). }
  destruct (open_act ks s i ok c c' t' cl mk H Hc Ha) as (A1 & A2 & A3 & A4 & A5 & A6).
  split; cbn [e_items e_calls] in *.
  - exact Hinv.
  - rewrite length_insert. apply (ag_length _ _ H).
  - intros j k d Hk Hd. apply calls_insert in Hd as [[-> ->]|[_ Hd]]; [|eapply ag_opens; eassumption].
    apply A1. eapply ag_opens; eassumption.
  - auto.
  - intros j d p fresh Hd Ho. apply calls_insert in Hd as [[-> ->]|[_ Hd]]; [auto|].
    destruct (ag_kept _ _ H j d p fresh Hd Ho) as [K1 K2]. auto.
  - intros j d p Hd Hp. apply calls_insert in Hd as [[-> ->]|[_ Hd]]; [auto|]. intros Ht.
    destruct (A4 p Ht) as [K|K]; [exact (ag_losers _ _ H j d p Hd Hp K)|]. subst c.
    apply to_close_in_hand in Hp. destruct (ti_hand _ (ag_inv _ _ H) j d p Hd Hp) as [_ Hn]. apply Hn.
    destruct (ti_install _ (ag_inv _ _ H) i _ p Hc) as [E _]. rewrite E at 1. exact Hc.
Qed.

Lemma agreed_reaches ks s : rtc table_step (start (map CLookup ks)) s -> agreed ks s.
Proof.
  intros Hs. remember (start (map CLookup ks)) as s0 eqn:E0. assert (H0 : agreed ks s0).
  { subst s0. assert (Hl : forall i c, map CLookup ks !! i = Some c -> exists k, ks !! i = Some k /\ c = CLookup k).
    { intros i c Hi. change (map CLookup ks) with (CLookup <$> ks) in Hi. rewrite list_lookup_fmap in Hi.
      destruct (ks !! i) as [k|]; [|discriminate Hi]. injection Hi as <-. eauto. }
    split; cbn [start e_items e_calls].
    - apply started_inv. apply forallb_forall. intros c Hc. apply in_map_iff in Hc as (k & <- & _). reflexivity.
    - apply length_map.
    - intros i k c Hk Hi. destruct (Hl i c Hi) as (k' & Hk' & ->). cbn. congruence.
    - intros i c Hi. destruct (Hl i c Hi) as (k & _ & ->). eauto.
    - intros i c p fresh Hi. destruct (Hl i c Hi) as (k & _ & ->). discriminate.
    - intros i c p Hi. destruct (Hl i c Hi) as (k & _ & ->). intros Hp. inversion Hp. }
  clear E0. induction Hs as [s|s s1 s2 Hs _ IH]; [exact H0|]. apply IH. eapply agreed_step; eassumption.
Qed.

(** *** Every call ends *)

Definition weight (c : call) : nat :=
  match c with
  | CLookup _ => 6 | CCreate _ => 5 | CInstall _ _ => 4 | CTake => 2 | CIdle => 4
  | CClose [] _ _ => 1
  | CClose todo forgot _ => 2 * length todo + (if forgot then 0 else 1)
  | CDone _ => 0
  end.
Definition entries (t : items program) : nat := match t with None => 0 | Some m => size m end.
Definition work (s : evaluator) : nat := 2 * entries (e_items s) + sum_list_with weight (e_calls s).

Lemma sum_insert (l : list call) i c c' : l !! i = Some c ->
  (sum_list_with weight (<[i := c']> l) + weight c = sum_list_with weight l + weight c')%nat.
Proof.
  revert i; induction l as [|d l IH]; intros [|i] Hi; try discriminate Hi.
  - injection Hi as ->. cbn [insert list_insert sum_list_with]. lia.
  - specialize (IH i Hi). change (<[S i := c']> (d :: l)) with (d :: <[i := c']> l). cbn [sum_list_with]. lia.
Qed.

Lemma entries_forget k p t : (entries (forget k p t) <= entries t)%nat.
Proof.
  destruct t as [m|]; cbn [forget entries]; [|lia]. case_bool_decide as Hp; cbn [entries]; [|lia].
  rewrite map_size_delete_Some by eauto. lia.
Qed.

Lemma act_work i ok c t c' t' cl mk : act i ok c t = Some (c', t', cl, mk) ->
  (2 * entries t' + weight c' < 2 * entries t + weight c)%nat.
Proof.
  intros Ha. destruct c as [k|k|k q| | |todo f o|o]; cbn [act] in Ha; try discriminate Ha.
  - pose proof (lookup_spec k (sameKernel k) t) as L. destruct (lookup_program _ _ _) as [[p0|] t1]; injection Ha as <- <- _ _.
    + destruct L as (_ & _ & ->). cbn. lia.
    + destruct L as (_ & ->). destruct t; cbn [entries default weight]; rewrite ?map_size_empty; cbn; lia.
  - destruct ok; injection Ha as <- <- _ _; cbn; lia.
  - injection Ha as Ha. unfold install in Ha. destruct (at_kernel t k) as [w|] eqn:Ew.
    + destruct (sameKernel k w); [injection Ha as <- <- _ _; cbn; lia|]. destruct t as [m|]; injection Ha as <- <- _ _; [|cbn; lia].
      cbn [entries weight option_list length]. rewrite map_size_insert_Some by (cbn in Ew; eauto). lia.
    + destruct t as [m|]; injection Ha as <- <- _ _; [|cbn; lia]. cbn [entries weight option_list].
      rewrite map_size_insert_None by exact Ew. lia.
  - unfold take_all in Ha. injection Ha as <- <- _ _. cbn [entries]. destruct t as [m|]; [|cbn; lia].
    assert (El : length (map snd (map_to_list m)) = size m) by (rewrite length_map; apply length_map_to_list).
    cbn [entries]. destruct (map snd (map_to_list m)) as [|p ps]; cbn [weight]; [lia|]. rewrite El. cbn [weight]. lia.
  - destruct todo as [|q ps]; [|destruct f]; injection Ha as <- <- _ _.
    + cbn. lia.
    + cbn [weight length]. destruct ps; cbn [weight length]; lia.
    + pose proof (entries_forget (p_kernel q) q t). cbn [weight]. lia.
Qed.

Lemma table_step_work s s' : table_step s s' -> (work s' < work s)%nat.
Proof.
  intros Hs. inversion Hs as [s0 i ok c c' t' cl mk Hc Ha|s0 i j p fresh Hc Hj]; subst; unfold work; cbn [e_items e_calls].
  - pose proof (sum_insert _ _ _ c' Hc). pose proof (act_work _ _ _ _ _ _ _ _ Ha). lia.
  - pose proof (sum_insert _ _ _ (CClose [p] false OClosed) Hc). cbn [weight length] in *. lia.
Qed.

(** The call can take a step by itself. *)
Definition running (c : call) : bool := match c with CIdle | CDone _ => false | _ => true end.

Lemma running_steps s i c : e_calls s !! i = Some c -> running c = true -> exists s', table_step s s'.
Proof.
  intros Hc Hr. assert (Ha : exists r, act i true c (e_items s) = Some r).
  { destruct c as [k|k|k p| | |todo f o|o]; try discriminate Hr; cbn [act]; eauto.
    - destruct (lookup_program _ _ _). eauto.
    - destruct todo as [|p ps]; [eauto|]. destruct f; eauto. }
  destruct Ha as [[[[c' t'] cl] mk] Ha]. eexists. eapply step_act; eassumption.
Qed.

Lemma nsteps_work n s s' : nsteps table_step n s s' -> (n + work s' <= work s)%nat.
Proof.
  induction 1 as [s|n s s1 s2 Hs _ IH]; [lia|]. pose proof (table_step_work s s1 Hs). lia.
Qed.

(** From every state the calls can be run until each has returned or waits. *)
Lemma table_finishes s : exists s', rtc table_step s s' /\ forall i c, e_calls s' !! i = Some c -> running c = false.
Proof.
  remember (work s) as n eqn:En. revert s En. induction (lt_wf n) as [n _ IH]. intros s ->.
  destruct (decide (Forall (fun c => running c = false) (e_calls s))) as [Hall|Hno].
  - exists s. split; [reflexivity|]. intros i c Hc. eapply Forall_lookup_1 in Hall; eauto.
  - apply not_Forall_Exists in Hno; [|intros c; apply _]. apply Exists_exists in Hno as (c & Hin & Hr).
    apply list_elem_of_lookup_1 in Hin as [i Hi]. destruct (running_steps s i c Hi) as [s1 Hs1]; [cbn in Hr; destruct (running c); [reflexivity|contradiction Hr; reflexivity]|].
    destruct (IH (work s1) (table_step_work _ _ Hs1) s1 eq_refl) as (s2 & H2 & K). exists s2. split; [|exact K].
    eapply rtc_l; eassumption.
Qed.

(** A concrete schedule: which call moves next, and whether its [create] or
    [Close] succeeds. *)
Definition sections (moves : list (nat * bool)) (s : evaluator) : option evaluator :=
  foldl (fun os '(i, ok) =>
    os ≫= fun s => e_calls s !! i ≫= fun c => act i ok c (e_items s) ≫= fun '(c', t', cl, mk) =>
      Some (mkEvaluator t' (<[i := c']> (e_calls s)) (cl ++ e_closed s) (mk ++ e_made s))) (Some s) moves.

Lemma sections_none moves :
  foldl (fun os '(i, ok) =>
    os ≫= fun s => e_calls s !! i ≫= fun c => act i ok c (e_items s) ≫= fun '(c', t', cl, mk) =>
      Some (mkEvaluator t' (<[i := c']> (e_calls s)) (cl ++ e_closed s) (mk ++ e_made s))) None moves = None.
Proof. induction moves as [|[i ok] moves IH]; [reflexivity|exact IH]. Qed.

Lemma sections_steps moves s s' : sections moves s = Some s' -> nsteps table_step (length moves) s s'.
Proof.
  revert s; induction moves as [|[i ok] moves IH]; intros s Hs; [injection Hs as <-; constructor|].
  cbn [sections foldl mbind option_bind] in Hs. destruct (e_calls s !! i) as [c|] eqn:Hc; [|cbn in Hs; rewrite sections_none in Hs; discriminate Hs].
  cbn [mbind option_bind] in Hs. destruct (act i ok c (e_items s)) as [[[[c' t'] cl] mk]|] eqn:Ha; cbn [mbind option_bind] in Hs; [|rewrite sections_none in Hs; discriminate Hs].
  cbn [length]. econstructor; [eapply step_act; eassumption|]. apply IH, Hs.
Qed.

Lemma sections_reach moves s s' : sections moves s = Some s' -> rtc table_step s s'.
Proof. intros Hs. eapply rtc_nsteps_2, sections_steps, Hs. Qed.
