(* ===== verification/Demo.v ===== *)
(** * Concrete graphs

    A float environment and small graphs, on which the theorems of the
    following files are applied. *)
From Stdlib Require Import ZArith Lia Floats.SpecFloat Ascii.
From stdpp Require Import base numbers option list relations strings.
From S2P Require Import Prelude Float Alu Shape View Reshape Tracker Expr Rewrite Optimize Flatten Cpu Kernel Code Shader Emits Spell Reading Lexing Parsing Schedule Eval Tensor Realize Nn Layers.

Local Open Scope Z_scope.

(** NaN is 0x7fc00000, an unrepresentable float converts to the smallest
    int32, and the mathematical functions are the identity. *)
#[export] Instance demo_env : FloatEnv.
Proof.
  refine {| nan_word := fun _ => 2143289344; int_of_unrepresentable := fun _ => 2147483648;
    math_Exp2 := fun f => f; math_Log2 := fun f => f; math_Sin := fun f => f |}.
  - intros _. split; [unfold word_ok, two32; lia|reflexivity].
  - intros _. unfold word_ok, two32. lia.
Defined.

(** A text of floats that satisfies the laws: the decimal number of the bits. *)
Fixpoint before_point (s : string) : string :=
  match s with
  | EmptyString => EmptyString
  | String c s' => if bool_decide (c = "."%char) then EmptyString else String c (before_point s')
  end.

Lemma before_point_app s t : has_point s = false -> before_point (s +:+ String "." t) = s /\ before_point s = s.
Proof.
  induction s as [|c s IH]; [auto|]. rewrite append_cons. cbn [has_point before_point]. intros H. apply orb_false_iff in H as [Hc Hs].
  apply bool_decide_eq_false in Hc. rewrite !not_elem_of_cons in Hc. rewrite bool_decide_false by tauto.
  destruct (IH Hs) as [-> ->]. auto.
Qed.

#[export] Instance demo_text : FloatText.
Proof.
  refine {| FormatFloat := fun w => if two31 <=? w then "-" +:+ Itoa (w - two31) else Itoa w;
    ParseFloat := fun s => decimal (before_point s) |};
    unfold finite_word; intros x Hx; rewrite ?andb_true_iff in Hx.
  - destruct (Z.leb_spec two31 (x + two31)), (Z.leb_spec two31 x); try (unfold two31 in *; lia). rewrite Z.add_simpl_r. reflexivity.
  - destruct (Z.leb_spec two31 x); [unfold two31 in *; lia|]. apply Itoa_text. lia.
  - destruct (Z.leb_spec two31 x); [unfold two31 in *; lia|]. destruct (Itoa_text x ltac:(lia)) as [Hd _].
    destruct (before_point_app (Itoa x) "" (proj2 (digits_tail _ Hd))) as [_ ->]. apply decimal_Itoa.
  - intros Hp. destruct (before_point_app x "0" Hp) as [E1 E2]. rewrite E2. exact (f_equal decimal E1).
Defined.

Definition empty_heap : heap := mkHeap [] [] [].

Lemma empty_ok : heap_ok empty_heap.
Proof. split; [intros [|l] n H; discriminate H|constructor|discriminate]. Qed.

Section building.
Context {E : FloatEnv}.

Lemma New_prefix d data shape h : exists ns, h_nodes (snd (New d data shape h)) = h_nodes h ++ ns.
Proof using.
  unfold New. destruct (Of shape) as [tr|e]; [|exists []; rewrite app_nil_r; reflexivity].
  destruct (negb _); [exists []; rewrite app_nil_r; reflexivity|]. unfold alloc_buf, input.
  destruct (t_views tr); [eexists; reflexivity|]. destruct (negb _); eexists; reflexivity.
Qed.

(** [New] as a step of a graph: older tensors hold what they held. *)
Lemma New_runs h d data s : heap_ok h -> bufs_ok h -> is_number_type d = true -> data_ok d data ->
  nonneg s -> Z.of_nat (length data) = Size s -> s <> [] ->
  let '(r, h') := New d data (Some s) h in exists t, r = Ok t /\ heap_ok h' /\ bufs_ok h' /\
    holds h' t d s (fun c => nth (Z.to_nat (ravel s c)) data 0) /\
    forall t0 d0 s0 f0, holds h t0 d0 s0 f0 -> holds h' t0 d0 s0 f0.
Proof using.
  intros H Hb Hd Hdata Hn Hlen Hne. pose proof (New_spec d data (Some s) h H Hb Hd Hdata) as K.
  destruct (New_prefix d data (Some s) h) as [ns En].
  destruct (New d data (Some s) h) as [[t|e] h']; cbn [opt_list snd] in *.
  - destruct K as (_ & _ & H' & Hb' & l & -> & Hl & Hdt & Hs & _ & Hden & Hold). eexists. split; [reflexivity|].
    split; [exact H'|]. split; [exact Hb'|]. split.
    + split; [reflexivity|]. exists l. split; [reflexivity|]. split; [exact Hl|]. split; [exact Hdt|].
      split; [destruct (nShape (h_nodes h') l) as [s'|]; cbn in Hs; congruence|exact Hden].
    + intros t0 d0 s0 f0 (Hk & l0 & N & V & D & S & F). split; [exact Hk|]. exists l0. pose proof (proj1 V) as Hlt.
      split; [exact N|]. rewrite En, get_app, nShape_app by exact Hlt. split; [|split; [exact D|split; [exact S|]]].
      * split; [rewrite En, length_app; lia|rewrite En, get_app by exact Hlt; apply V].
      * intros c Hc. rewrite Hold by exact Hlt. exact (F c Hc).
  - exfalso. destruct K as [_ [[_ K]|(_ & _ & K)]]; auto.
Qed.
End building.

(** [x = New([1..6], (2,3))] and [x + 10]. *)
Definition demo_data : list Z := [1; 2; 3; 4; 5; 6].
Definition demo_x : res tensor * heap := New I32 demo_data (Some [2; 3]) empty_heap.
Definition demo_heap1 : heap := Eval vm_compute in snd demo_x.
Definition demo_add : tensor * heap :=
  let '(c, h) := Const (NumI32 10) demo_heap1 in tensor_Add (Some (mkTensor (Some 0%nat) None)) (Some c) h.
Definition demo_heap : heap := Eval vm_compute in snd demo_add.

Lemma demo_data_ok : data_ok I32 demo_data.
Proof. repeat constructor; try (cbn; lia); discriminate. Qed.

Lemma bufs_ok_empty : bufs_ok empty_heap.
Proof. intros [|l] n Hl; discriminate Hl. Qed.

Lemma demo1_ok : heap_ok demo_heap1 /\ bufs_ok demo_heap1 /\
  holds demo_heap1 (mkTensor (Some 0%nat) None) I32 [2; 3] (fun c => nth (Z.to_nat (ravel [2; 3] c)) demo_data 0).
Proof.
  pose proof (New_runs empty_heap I32 demo_data [2; 3] empty_ok bufs_ok_empty eq_refl demo_data_ok
    ltac:(repeat constructor; lia) eq_refl ltac:(discriminate)) as K.
  assert (Hx : New I32 demo_data (Some [2; 3]) empty_heap = (Ok (mkTensor (Some 0%nat) None), demo_heap1)) by (vm_compute; reflexivity).
  rewrite Hx in K. destruct K as (t & [= <-] & H & Hb & Ht & _). split; [exact H|]. split; [exact Hb|exact Ht].
Qed.

Definition demo_value (c : list Z) : Z := alu ADD I32 I32 (nth (Z.to_nat (ravel [2; 3] c)) demo_data 0) 10 0.

Lemma demo_ok : heap_ok demo_heap /\ holds demo_heap (mkTensor (Some 2%nat) None) I32 [2; 3] demo_value.
Proof.
  destruct demo1_ok as (H1 & _ & T1).
  pose proof (Const_feeds demo_heap1 (NumI32 10) [2; 3] H1 eq_refl (u32_ok 10)) as Kc.
  unfold runs, tm_call in Kc. destruct (Const (NumI32 10) demo_heap1) as [c h2] eqn:Ec. destruct Kc as (c' & [= <-] & H2 & X2 & T2).
  apply (holds_ext demo_heap1 h2) in T1; auto.
  pose proof (bin_feeds h2 ADD _ _ I32 I32 [2; 3] _ _ H2 T1 T2 eq_refl) as K. unfold yields, runs, tm_call in K.
  assert (Ha : tensor_bin (binaryOp ADD) (Some (mkTensor (Some 0%nat) None)) (Some c) h2 = (mkTensor (Some 2%nat) None, demo_heap)).
  { vm_compute in Ec. injection Ec as <- <-. vm_compute. reflexivity. }
  rewrite Ha in K. destruct K as (t & [= <-] & H3 & _ & T3). split; [exact H3|exact T3].
Qed.

Lemma demo_bufs : bufs_ok demo_heap.
Proof.
  intros l n Hl Hk. destruct l as [|[|[|l]]]; vm_compute in Hl; try discriminate Hl; injection Hl as <-; try discriminate Hk.
  eexists _, _. split; [reflexivity|]. split; [vm_compute; reflexivity|]. split; reflexivity.
Qed.

Lemma demo_leaf_views : leaf_views demo_heap.
Proof.
  intros l n Hl Hk. destruct l as [|[|[|l]]]; vm_compute in Hl; try discriminate Hl; injection Hl as <-; destruct Hk; try discriminate; reflexivity.
Qed.

Lemma demo_valid : valid_ptr demo_heap 2 /\ nShape (h_nodes demo_heap) 2 = Some [2; 3].
Proof. split; [split; [vm_compute; lia|reflexivity]|reflexivity]. Qed.

Lemma demo_evaluable : evaluable demo_heap 2 [2; 3].
Proof. apply leaf_views_evaluable; [apply demo_ok|exact demo_leaf_views|apply demo_valid..]. Qed.

(** A world with nothing compiled, one CPU, empty scratch. *)
Definition demo_world (h : heap) : world := mkWorld h [] [] 0.
Definition demo_runtime : runtime := mkRuntime 4 3 (mkScratch [] []) (fun _ => mkScratch [] []).

Lemma demo_ready : ready_tensor demo_heap 2 [2; 3] (mkTensor (Some 2%nat) None) (demo_world demo_heap).
Proof.
  split; [exact demo_evaluable| |reflexivity|left; auto].
  split; [intros kp e He; discriminate He|]. split; [apply heap_acyclic, demo_ok|intros kp e k He; discriminate He].
Qed.

(** The kernel of [x + 10]. *)
Definition demo_kernel : Kernel := mkKernel 2 [0; 1; 2]%nat [0%nat] [2; 3] [2; 3] I32 6.

Lemma demo_compile : gives (fun fuel => compile fuel (Some 2%nat) demo_heap) (Ok demo_kernel, demo_heap).
Proof. exists 8%nat. intros fuel Hf. do 8 (destruct fuel as [|fuel]; [lia|]). vm_compute. reflexivity. Qed.

Lemma demo_compiled : compiled demo_heap 2 [2; 3] demo_kernel demo_heap.
Proof.
  destruct (compile_ok demo_heap 2 [2; 3]) as (k & h' & Hg & Hc); [apply demo_evaluable..|].
  pose proof (gives_unique _ _ _ demo_compile Hg) as [= <- <-]. exact Hc.
Qed.

(** Its tape. *)
Definition demo_tape : cpuProgram :=
  Eval vm_compute in match lowerCPU (h_nodes demo_heap) [0; 1; 2]%nat [0%nat] [2; 3] with Ok p => p | Err _ => mkProgram [] 0 0 end.

Lemma demo_lower : lowerCPU (h_nodes demo_heap) (k_order demo_kernel) (k_bufs demo_kernel) (k_built demo_kernel) = Ok demo_tape.
Proof. reflexivity. Qed.

Definition demo_job : cpuJob := job_of (h_nodes demo_heap) demo_tape demo_kernel.

(** ** A view inside a graph: [(x + 10).Permute(1, 0) * 2] *)

Definition demo_perm : res tensor * heap := tensor_move [] (MPermute [1; 0]) (Some (mkTensor (Some 2%nat) None)) demo_heap.
Definition perm_heap : heap := Eval vm_compute in snd demo_perm.
Definition demo_mul : tensor * heap :=
  let '(c, h) := Const (NumI32 2) perm_heap in tensor_Mul (Some (mkTensor (Some 4%nat) None)) (Some c) h.
Definition view_heap : heap := Eval vm_compute in snd demo_mul.

Lemma perm_ok : heap_ok perm_heap /\ holds perm_heap (mkTensor (Some 4%nat) None) I32 [3; 2]
  (fun c => demo_value (unpermute_coords [1; 0] c)).
Proof.
  destruct demo_ok as (H & T).
  pose proof (mv_yields [] demo_heap _ I32 [2; 3] _ (MPermute [1; 0]) [3; 2] (fun c => Some (unpermute_coords [1; 0] c))
    (fun c => demo_value (unpermute_coords [1; 0] c)) H T ltac:(vm_compute; reflexivity) ltac:(discriminate) ltac:(reflexivity)) as K.
  unfold yields, runs, mv in K.
  assert (Hx : tensor_move [] (MPermute [1; 0]) (Some (mkTensor (Some 2%nat) None)) demo_heap = (Ok (mkTensor (Some 4%nat) None), perm_heap))
    by (vm_compute; reflexivity).
  rewrite Hx in K. destruct K as (t & [= <-] & H' & _ & T'). split; [exact H'|exact T'].
Qed.

Lemma view_ok : heap_ok view_heap /\ holds view_heap (mkTensor (Some 6%nat) None) I32 [3; 2]
  (fun c => alu MUL I32 I32 (demo_value (unpermute_coords [1; 0] c)) 2 0).
Proof.
  destruct perm_ok as (H1 & T1).
  pose proof (Const_feeds perm_heap (NumI32 2) [3; 2] H1 eq_refl (u32_ok 2)) as Kc.
  unfold runs, tm_call in Kc. destruct (Const (NumI32 2) perm_heap) as [c h2] eqn:Ec. destruct Kc as (c' & [= <-] & H2 & X2 & T2).
  apply (holds_ext perm_heap h2) in T1; auto.
  pose proof (bin_feeds h2 MUL _ _ I32 I32 [3; 2] _ _ H2 T1 T2 eq_refl) as K. unfold yields, runs, tm_call in K.
  assert (Ha : tensor_bin (binaryOp MUL) (Some (mkTensor (Some 4%nat) None)) (Some c) h2 = (mkTensor (Some 6%nat) None, view_heap)).
  { vm_compute in Ec. injection Ec as <- <-. vm_compute. reflexivity. }
  rewrite Ha in K. destruct K as (t & [= <-] & H3 & _ & T3). split; [exact H3|exact T3].
Qed.

(** Nodes without a viewed operation are sound. *)
Lemma sound_leaf ns l n : ns !! l = Some n -> n_err n = None -> n_sources n = [] -> n_kind n <> kindOp -> sound ns l.
Proof.
  intros Hn He Hs Hk. apply (sound_node ns l n Hn He); [intros ?; contradiction|]. rewrite Hs. intros s Hin. inversion Hin.
Qed.

Lemma view_total : total_view (get (h_nodes view_heap) 4).
Proof.
  intros c Hc. assert (Hd : t_dims (n_tracker (get (h_nodes view_heap) 4)) = [3; 2]) by reflexivity. rewrite Hd in Hc. coords.
  vm_compute. discriminate.
Qed.

Lemma view_sound : root_sound (h_nodes view_heap) 6.
Proof.
  assert (Hx : forall s, s = 0%nat \/ s = 1%nat -> sound (h_nodes view_heap) s).
  { intros s [->| ->]; eapply sound_leaf; try reflexivity; discriminate. }
  eexists. split; [vm_compute; reflexivity|]. split; [reflexivity|]. split; [discriminate|].
  intros s Hs. cbn in Hs. apply elem_of_cons in Hs as [->|Hs].
  - eapply sound_node; [vm_compute; reflexivity|reflexivity| |].
    + intros _ _. split; [exact view_total|discriminate].
    + intros s Hs. cbn in Hs. apply elem_of_cons in Hs as [->|Hs]; [apply Hx; auto|].
      apply elem_of_cons in Hs as [->|Hs]; [apply Hx; auto|inversion Hs].
  - apply elem_of_cons in Hs as [->|Hs]; [|inversion Hs]. eapply sound_leaf; try reflexivity; discriminate.
Qed.

Lemma view_hashes : hash_ok (chains 7 (h_nodes view_heap) 6 []).
Proof.
  assert (Hc : chains 7 (h_nodes view_heap) 6 [] = [[]; []; [own_step (get (h_nodes view_heap) 4)]; [own_step (get (h_nodes view_heap) 4)]; []]).
  { vm_compute. reflexivity. }
  rewrite Hc. intros s1 s2 H1 H2 Hh. rewrite !elem_of_cons in H1, H2.
  destruct H1 as [->|[->|[->|[->|[->|H1]]]]]; try inversion H1; destruct H2 as [->|[->|[->|[->|[->|H2]]]]]; try inversion H2;
    try reflexivity; vm_compute in Hh; discriminate Hh.
Qed.

Lemma view_rewritable : rewritable view_heap 6.
Proof. intros _. split; [exact view_sound|]. exists (chains 7 (h_nodes view_heap) 6 []). split; [exact view_hashes|auto]. Qed.

Lemma view_valid : valid_ptr view_heap 6 /\ nShape (h_nodes view_heap) 6 = Some [3; 2].
Proof. split; [split; [vm_compute; lia|reflexivity]|vm_compute; reflexivity]. Qed.

(** The schedule of [x + 10]. *)
Definition demo_code : Code :=
  Eval vm_compute in match kernel_Code (h_nodes demo_heap) (h_bufs demo_heap) (Some demo_kernel) with
                     | Ok c => c | Err _ => mkCode 0 DNone [] [] end.

Lemma demo_fits {E : FloatEnv} gi : 0 <= gi < 6 -> thread_fits demo_heap demo_kernel gi = true.
Proof.
  intros Hgi. assert (Hc : gi = 0 \/ gi = 1 \/ gi = 2 \/ gi = 3 \/ gi = 4 \/ gi = 5) by lia.
  destruct Hc as [->|[->|[->|[->|[->| ->]]]]]; vm_compute; reflexivity.
Qed.
