(* ===== verification/Evaluation.v ===== *)
(** * Theorems: from a graph to its values

    The properties of evaluation as a whole: the rewrite, the optimizer, the
    tape, the parallel run and [Tensor.Eval] itself keep what a graph
    denotes.  Each theorem is followed by its instance on a concrete graph. *)
From Stdlib Require Import ZArith Lia.
From stdpp Require Import base numbers option list relations.
From S2P Require Import Prelude Float Alu Shape View Reshape Tracker Expr Rewrite Optimize Flatten Cpu Kernel Eval Tensor Realize Nn Layers Demo.

Local Open Scope Z_scope.

(** ** Eval *)





(** ** The rewrite and the optimizer *)





(** ** The tape *)

(** Running the tape of a flattened graph at a cell, whatever the
    registers held, leaves in the root register the value of the root at the
    cell's coordinates. *)
Theorem tape_correct {E : FloatEnv} (h : heap) (root : nat) (order bufs : list nat) (shape : Shape) (prog : cpuProgram)
    (i : Z) (regs : list Z) :
  fheap_ok h -> flattened h root order bufs -> nonneg shape -> 0 <= i < Size shape ->
  lowerCPU (h_nodes h) order bufs shape = Ok prog -> length regs = p_registers prog ->
  nth (p_root prog) (fold_left (exec (h_bufs h) bufs i (unravel shape i)) (p_code prog) regs) 0
  = flat h root (unravel shape i).
Proof. intros Hf Hfl Hs Hi Hp Hr. eapply tape_flat; eauto. Qed.

Lemma tape_correct_witness : exists regs,
  nth (p_root demo_tape) (fold_left (exec (h_bufs demo_heap) [0%nat] 4 [1; 1]) (p_code demo_tape) regs) 0 = 15 /\
  flat demo_heap 2%nat [1; 1] = 15.
Proof.
  exists [9; 9; 9].
  pose proof (tape_correct demo_heap 2%nat [0; 1; 2]%nat [0%nat] [2; 3] demo_tape 4 [9; 9; 9] (co_heap _ _ _ _ _ demo_compiled)
    (co_flat _ _ _ _ _ demo_compiled) ltac:(repeat constructor; lia) ltac:(split; [lia|reflexivity]) demo_lower eq_refl) as K.
  change (unravel [2; 3] 4) with [1; 1] in K. rewrite K. split; vm_compute; reflexivity.
Defined.

(** ** Sequential and parallel runs *)

(** C24: [runCPU] writes the same bytes whether it runs in the caller or on
    workers, in every interleaving of their steps: each byte of the first
    [hi] cells is the byte of its cell's word, and no other byte changes. *)
Theorem run_writes {E : FloatEnv} (h : heap) (root : nat) (order bufs : list nat) (prog : cpuProgram) (j : cpuJob)
    (gomaxprocs ready : Z) (pool : cpuScratch) (pools : nat -> cpuScratch) (out : list Z) :
  fheap_ok h -> flattened h root order bufs -> lowerCPU (h_nodes h) order bufs (j_shape j) = Ok prog ->
  j_program j = prog -> j_bufs j = bufs -> nonneg (j_shape j) -> j_lo j = 0 -> 0 <= j_hi j <= Size (j_shape j) ->
  0 < ready -> j_hi j * out_size (j_outType j) <= Z.of_nat (length out) ->
  (exists out', runCPU (h_bufs h) j gomaxprocs ready pool pools out out') /\
  forall out', runCPU (h_bufs h) j gomaxprocs ready pool pools out out' ->
    length out' = length out /\
    forall p, out' !! p =
      let i := Z.of_nat p / out_size (j_outType j) in
      if (0 <=? i) && (i <? j_hi j)
      then Some (byte_of (cell_word h root j i) (Z.of_nat p - i * out_size (j_outType j))) else out !! p.
Proof.
  intros. split; [eapply runCPU_returns; eauto|]. intros out' Hrun.
  pose proof (runCPU_writes h root order bufs prog j) as K. unfold wrote in K. eapply K; eauto.
Qed.

Lemma run_writes_witness : exists out', runCPU (h_bufs demo_heap) demo_job 4 3 (mkScratch [] []) (fun _ => mkScratch [] []) (repeat 0 24) out' /\
  out' !! 4%nat = Some 12 /\ length out' = 24%nat.
Proof.
  destruct (run_writes demo_heap 2%nat [0; 1; 2]%nat [0%nat] demo_tape demo_job 4 3 (mkScratch [] []) (fun _ => mkScratch [] []) (repeat 0 24)
    (co_heap _ _ _ _ _ demo_compiled) (co_flat _ _ _ _ _ demo_compiled) demo_lower eq_refl eq_refl ltac:(repeat constructor; lia) eq_refl
    ltac:(vm_compute; split; discriminate) eq_refl ltac:(vm_compute; discriminate)) as [[out' Hr] Hall].
  exists out'. split; [exact Hr|]. destruct (Hall out' Hr) as [Hl Hp]. split; [rewrite Hp; vm_compute; reflexivity|exact Hl].
Defined.



(** ** Ordering a graph *)

(** C32: [flatten] succeeds on every graph of valid nodes; its order lists
    each node reachable from the root once, the sources of a node before the
    node, the root last, and every buffer that is read once. *)
Theorem flatten_orders (h : heap) (root : nat) : fheap_ok h -> valid_ptr h root ->
  exists order bufs, flatten (h_nodes h) root = Ok (order, bufs) /\ NoDup order /\ last order = Some root /\
    (forall l, l ∈ order <-> reach (h_nodes h) root l) /\
    (forall j l s, order !! j = Some l -> s ∈ n_sources (get (h_nodes h) l) -> s ∈ take j order) /\
    NoDup bufs /\
    forall l b, l ∈ order -> n_kind (get (h_nodes h) l) = kindInput -> n_buf (get (h_nodes h) l) = Some b -> b ∈ bufs.
Proof.
  intros Hf Hv. destruct (flatten_ok h root Hf Hv) as (order & bufs & Ef & [H1 H2 H3 H4 H5 H6 H7]).
  exists order, bufs. split; [exact Ef|]. split; [exact H1|]. split; [exact H5|]. split; [exact H4|]. split; [exact H2|]. auto.
Qed.

Lemma flatten_orders_witness : exists order bufs, flatten (h_nodes demo_heap) 2 = Ok (order, bufs) /\ last order = Some 2%nat /\
  order = [0; 1; 2]%nat.
Proof.
  destruct (flatten_orders demo_heap 2 (co_heap _ _ _ _ _ demo_compiled) (proj1 demo_valid)) as (order & bufs & Ef & _ & Hl & _).
  exists order, bufs. split; [exact Ef|]. split; [exact Hl|]. vm_compute in Ef. injection Ef as <- _. reflexivity.
Defined.
