(* ===== verification/Gpu.v ===== *)
(** * Theorems: the GPU schedule

    The statements that [Kernel.Code] emits, run by the invocations of a
    dispatch, against the meaning of the graph and against the CPU tape. *)
From Stdlib Require Import ZArith Lia.
From stdpp Require Import base numbers option list relations gmap strings.
From S2P Require Import Prelude Float Alu Shape View Tracker Expr Rewrite Optimize Flatten Cpu Kernel Code Shader Emits Spell Reading Lexing Parsing Written Schedule Eval Tensor Realize Nn Layers Demo.

Local Open Scope Z_scope.



(** The invocation of a cell stores one element, the word that the CPU
    tape leaves there whatever its scratch held; an invocation past the last
    cell stores nothing. *)
Theorem schedule_agrees {E : FloatEnv} (h : heap) (k : Kernel) (prog : cpuProgram) (c : Code) (gi : Z) (s : cpuScratch) :
  dispatchable h k -> lowerCPU (h_nodes h) (k_order k) (k_bufs k) (k_built k) = Ok prog ->
  kernel_Code (h_nodes h) (h_bufs h) (Some k) = Ok c ->
  0 <= gi < two32 -> (gi < k_size k -> thread_fits h k gi = true) ->
  scratch_ok prog (job_of (h_nodes h) prog k) s ->
  if gi <? k_size k
  then exists w, invocation h k c gi = Some [(gi, w)] /\
         weq (c_Out c) w (fst (cell (h_bufs h) (job_of (h_nodes h) prog k) gi s))
  else invocation h k c gi = Some [].
Proof.
  intros Hd Hp Hc Hgi Hfit Hs. pose proof (invocation_stores h k Hd c gi Hc Hgi Hfit) as K.
  destruct (Z.ltb_spec gi (k_size k)) as [Hlt|]; [|exact K]. destruct K as (w & Hw & Ew). exists w. split; [exact Hw|].
  rewrite (di_built _ _ Hd) in Hp.
  destruct (cell_ok h (k_root k) (k_order k) (k_bufs k) prog (job_of (h_nodes h) prog k) (di_heap _ _ Hd) (di_flat _ _ Hd) Hp
    eq_refl eq_refl (di_shape _ _ Hd) gi s) as [-> _].
  - cbn [j_shape job_of]. rewrite <- (di_size _ _ Hd). lia.
  - exact Hs.
  - rewrite <- (stored_word_cell h k Hd). exact Ew.
Qed.

Lemma schedule_agrees_witness :
  invocation demo_heap demo_kernel demo_code 5 = Some [(5, 16)] /\
  fst (cell (h_bufs demo_heap) demo_job 5 (mkScratch [0; 0; 0] [0; 0])) = 16 /\
  invocation demo_heap demo_kernel demo_code 6 = Some [].
Proof.
  pose proof (compiled_dispatchable demo_heap 2 [2; 3] demo_kernel demo_heap (proj1 demo_ok) (proj1 demo_valid) (proj2 demo_valid)
    demo_compiled eq_refl) as Hd.
  assert (Hs : scratch_ok demo_tape demo_job (mkScratch [0; 0; 0] [0; 0])) by (split; reflexivity).
  pose proof (schedule_agrees demo_heap demo_kernel demo_tape demo_code 5 _ Hd demo_lower eq_refl ltac:(vm_compute; split; [discriminate|reflexivity])
    (fun _ => demo_fits 5 ltac:(lia)) Hs) as K5.
  pose proof (schedule_agrees demo_heap demo_kernel demo_tape demo_code 6 _ Hd demo_lower eq_refl ltac:(vm_compute; split; [discriminate|reflexivity])
    ltac:(intros Hlt; vm_compute in Hlt; discriminate Hlt) Hs) as K6.
  change (5 <? k_size demo_kernel) with true in K5. change (6 <? k_size demo_kernel) with false in K6. cbv iota in K5, K6.
  destruct K5 as (w & Hw & Ew). change (job_of (h_nodes demo_heap) demo_tape demo_kernel) with demo_job in Ew.
  assert (Ec : fst (cell (h_bufs demo_heap) demo_job 5 (mkScratch [0; 0; 0] [0; 0])) = 16) by (vm_compute; reflexivity).
  rewrite Ec in Ew. destruct Ew as [->|(K & _)]; [|discriminate K]. split; [exact Hw|]. split; [exact Ec|exact K6].
Defined.

(** C20: [Code] fails with ErrOp on a nil kernel and with ErrShape above rank 4;
    otherwise it fails at the first node whose code does not exist, with
    ErrAxis for a coordinate without that axis and ErrIndex for an input of
    rank 0 that reads padding, and succeeds when there is none, with the
    workgroup size, the type of the root and the types of the bindings. *)
Theorem code_succeeds (ns : list node) (hb : list buffer) (k : option Kernel) :
  match k, kernel_Code ns hb k with
  | None, r => r = Err ErrOp
  | Some k, Ok c =>
      Rank (k_built k) <= maxPushRank /\
      Forall (fun l => codable (length (k_built k)) (get ns l) = true) (k_order k) /\
      c_Threads c = localSize /\ c_Out c = n_dtype (get ns (k_root k)) /\ c_In c = map (buf_type hb) (k_bufs k)
  | Some k, Err e =>
      maxPushRank < Rank (k_built k) /\ e = ErrShape \/
      Rank (k_built k) <= maxPushRank /\ exists pre l post, k_order k = pre ++ l :: post /\
        Forall (fun l => codable (length (k_built k)) (get ns l) = true) pre /\
        codable (length (k_built k)) (get ns l) = false /\ e = code_error (get ns l)
  end.
Proof.
  destruct k as [k|]; [|reflexivity]. pose proof (kernel_Code_decides ns hb k) as D.
  destruct (kernel_Code ns hb (Some k)) as [c|e]; [|exact D]. destruct D as (H1 & H2 & H3 & H4 & H5 & _). auto.
Qed.

(** C6: the text that [WriteBody] prints of a kernel's schedule, in any of the
    dialects, reads back, with the tokens and the precedences of C, as
    statements that store in every invocation what the schedule stores, when
    its integer literals are int32. *)
Theorem text_runs {E : FloatEnv} {T : FloatText} (b : backend) (h : heap) (k : Kernel) (c : Code) : fheap_ok h ->
  flattened h (k_root k) (k_order k) (k_bufs k) -> kernel_Code (h_nodes h) (h_bufs h) (Some k) = Ok c ->
  forallb stmt_literals (c_Stmts c) = true ->
  exists ss, gives (fun fuel => read_body fuel (WriteBody (dialect b) (c_Stmts c))) ss /\
    forall gi, invocation h k (mkCode (c_Threads c) (c_Out c) (c_In c) ss) gi = invocation h k c gi.
Proof.
  intros Hh Hf Hc Hl. pose proof (kernel_text_ok b h k c Hh Hf Hc Hl) as Hok. exists (map (reading_stmt b) (c_Stmts c)).
  split; [apply read_written, Hok|]. intros gi. apply run_reading, Hok.
Qed.

(** The HLSL text of [x + 10], read back, stores 16 in the last cell. *)
Lemma text_runs_witness : exists ss,
  gives (fun fuel => read_body fuel (WriteBody hlslBody (c_Stmts demo_code))) ss /\
  invocation demo_heap demo_kernel (mkCode 128 I32 [I32] ss) 5 = Some [(5, 16)].
Proof.
  pose proof (compiled_dispatchable demo_heap 2 [2; 3] demo_kernel demo_heap (proj1 demo_ok) (proj1 demo_valid) (proj2 demo_valid)
    demo_compiled eq_refl) as Hd.
  destruct (text_runs Hlsl demo_heap demo_kernel demo_code (di_heap _ _ Hd) (di_flat _ _ Hd) eq_refl eq_refl) as (ss & Hss & Hrun).
  exists ss. split; [exact Hss|]. etransitivity; [exact (Hrun 5)|]. vm_compute. reflexivity.
Defined.
