(* ===== verification/Sessions.v ===== *)
(** * Theorems: GPU evaluators

    The table of programs that the callers of a GPU evaluator share: what it
    holds and what becomes of each program, in whatever order the sections of
    the calls run.  The sessions that evaluate a kernel on a device: what they
    return, what they leave alone, and what closing them gives back. *)
From Stdlib Require Import ZArith Lia.
From stdpp Require Import base numbers option list gmap relations.
From S2P Require Import Prelude Float Alu Shape View Tracker Expr Rewrite Optimize Flatten Cpu Kernel Code Shader Emits Schedule Device Slots Eval Tensor Realize Nn Layers Table Demo.

(** ** The table of programs *)

(** C18: in every state that calls of [Open] and [Close] reach, the program
    stored for a kernel was created for that kernel and is neither closed nor
    about to be closed; and every program that was created is waiting for its
    [install], stored for its kernel, in the hands of a call that will close
    it, closed, or lost to a panic of its own [install]. *)
Theorem table_safe (calls : list call) (s : evaluator) :
  forallb idle calls = true -> rtc table_step (start calls) s ->
  (forall k p, at_kernel (e_items s) k = Some p -> p_kernel p = k /\ p ∈ e_made s /\ ~ gone s p) /\
  (forall p, p ∈ e_made s ->
    e_calls s !! p_call p = Some (CInstall (p_kernel p) p) \/
    at_kernel (e_items s) (p_kernel p) = Some p \/
    (exists i c, e_calls s !! i = Some c /\ p ∈ to_close c) \/
    p ∈ e_closed s \/
    exists i, e_calls s !! i = Some (CDone (OPanic p))).
Proof.
  intros Hc Hs. pose proof (table_reaches calls s Hc Hs) as H. split; [|apply (ti_accounted _ H)].
  intros k p Hp. destruct (ti_table _ H k p Hp) as (Hk & [Hm _] & Hg). auto.
Qed.

(** Two callers of one kernel create a program each; the second to install
    loses, and an evaluator [Close] then empties the table. *)
Definition race_calls : list call := [CLookup 0; CLookup 0; CTake].
Definition race_moves : list (nat * bool) :=
  [(0, true); (1, true); (0, true); (1, true); (1, true); (0, true); (0, true); (0, true); (1, true); (0, true)]%nat.

Lemma table_safe_witness : exists s, sections race_moves (start race_calls) = Some s /\
  at_kernel (e_items s) 0 = Some (mkProgram 1 0) /\ e_closed s = [mkProgram 0 0] /\
  ~ gone s (mkProgram 1 0).
Proof.
  destruct (sections race_moves (start race_calls)) as [s|] eqn:Es; [|vm_compute in Es; discriminate Es].
  destruct (table_safe race_calls s eq_refl (sections_reach _ _ _ Es)) as [H _].
  assert (Ht : at_kernel (e_items s) 0 = Some (mkProgram 1 0)) by (vm_compute in Es; injection Es as <-; reflexivity).
  exists s. split; [reflexivity|]. split; [exact Ht|].
  split; [vm_compute in Es; injection Es as <-; reflexivity|]. apply (H 0%nat), Ht.
Defined.

(** C19: when only [Open] runs, in any order, no call panics, two calls that
    keep a program of one kernel keep the same one, which is stored and not
    closed, and exactly the call that created it is told it is fresh; once
    every call has returned, each program is stored or closed. *)
Theorem open_agrees (ks : list nat) (s : evaluator) : rtc table_step (start (map CLookup ks)) s ->
  (forall i p, e_calls s !! i <> Some (CDone (OPanic p))) /\
  (forall i p fresh, e_calls s !! i = Some (CDone (OKept p fresh)) ->
    ks !! i = Some (p_kernel p) /\ fresh = Nat.eqb (p_call p) i /\
    at_kernel (e_items s) (p_kernel p) = Some p /\ p ∉ e_closed s) /\
  (forall i j p q f g, e_calls s !! i = Some (CDone (OKept p f)) -> e_calls s !! j = Some (CDone (OKept q g)) ->
    ks !! i = ks !! j -> p = q) /\
  ((forall i c, e_calls s !! i = Some c -> running c = false) ->
    forall p, p ∈ e_made s -> at_kernel (e_items s) (p_kernel p) = Some p \/ p ∈ e_closed s).
Proof.
  intros Hs. pose proof (agreed_reaches ks s Hs) as H. pose proof (ag_inv _ _ H) as Hi.
  assert (Hp : forall i p, e_calls s !! i <> Some (CDone (OPanic p))).
  { intros i p Hc. destruct (agreed_call ks s i _ H Hc) as (k & _ & []). }
  assert (Hk : forall i p fresh, e_calls s !! i = Some (CDone (OKept p fresh)) ->
    ks !! i = Some (p_kernel p) /\ fresh = Nat.eqb (p_call p) i /\ at_kernel (e_items s) (p_kernel p) = Some p /\ p ∉ e_closed s).
  { intros i p fresh Hc. destruct (agreed_call ks s i _ H Hc) as (k & Ek & Ho). cbn in Ho. subst k.
    destruct (ag_kept _ _ H i _ p fresh Hc eq_refl) as [Ht Hf]. split; [exact Ek|]. split; [exact Hf|]. split; [exact Ht|].
    intros Hcl. destruct (ti_table _ Hi _ p Ht) as (_ & _ & Hg). apply Hg. left. exact Hcl. }
  split; [exact Hp|]. split; [exact Hk|]. split.
  - intros i j p q f g Ei Ej E. destruct (Hk _ _ _ Ei) as (Ki & _ & Ti & _), (Hk _ _ _ Ej) as (Kj & _ & Tj & _).
    rewrite Ki, Kj in E. injection E as E. rewrite E in Ti. congruence.
  - intros Hr p Hm. destruct (ti_accounted _ Hi p Hm) as [Hc|[Ht|[(i & c & Hc & Hin)|[Hcl|(i & Hc)]]]]; auto.
    + specialize (Hr _ _ Hc). discriminate Hr.
    + specialize (Hr i c Hc). destruct c; cbn in Hr, Hin; try discriminate Hr; inversion Hin.
    + contradiction (Hp i p Hc).
Qed.

Definition open_moves : list (nat * bool) :=
  [(0, true); (1, true); (0, true); (1, true); (1, true); (0, true); (0, true); (0, true); (1, true); (0, true)]%nat.

Lemma open_agrees_witness : exists s, sections open_moves (start (map CLookup [0; 0]%nat)) = Some s /\
  e_calls s = [CDone (OKept (mkProgram 1 0) false); CDone (OKept (mkProgram 1 0) true)] /\
  (at_kernel (e_items s) 0 = Some (mkProgram 0 0) \/ mkProgram 0 0 ∈ e_closed s).
Proof.
  destruct (sections open_moves (start (map CLookup [0; 0]%nat))) as [s|] eqn:Es; [|vm_compute in Es; discriminate Es].
  destruct (open_agrees [0; 0]%nat s (sections_reach _ _ _ Es)) as (_ & _ & _ & H).
  exists s. split; [reflexivity|]. assert (Hc : e_calls s = [CDone (OKept (mkProgram 1 0) false); CDone (OKept (mkProgram 1 0) true)])
    by (vm_compute in Es; injection Es as <-; reflexivity).
  split; [exact Hc|]. apply (H ltac:(rewrite Hc; intros [|[|i]] c [= <-]; reflexivity) (mkProgram 0 0)).
  vm_compute in Es. injection Es as <-. apply list_elem_of_In. cbn. auto.
Defined.

(** Calls of [Open] and [Close] take at most six sections each; a call
    that has not returned and is not waiting can always take one, so from
    every state the calls can be run to their ends. *)
Theorem calls_end (calls : list call) (n : nat) (s : evaluator) : nsteps table_step n (start calls) s ->
  forallb idle calls = true ->
  (n <= 6 * length calls)%nat /\
  (forall i c, e_calls s !! i = Some c -> running c = true -> exists s', table_step s s') /\
  exists s', rtc table_step s s' /\ forall i c, e_calls s' !! i = Some c -> running c = false.
Proof.
  intros Hn Hc. split; [|split; [exact (fun i c => running_steps s i c)|exact (table_finishes s)]].
  pose proof (nsteps_work _ _ _ Hn) as Hw. enough (work (start calls) <= 6 * length calls)%nat by lia.
  unfold work. cbn [start e_items e_calls entries]. clear - Hc. induction calls as [|c cs IH]; [cbn; lia|].
  cbn [forallb] in Hc. apply andb_prop in Hc as [Hi Hc]. specialize (IH Hc). cbn [sum_list_with length].
  destruct c; try discriminate Hi; cbn [weight]; lia.
Qed.

Lemma calls_end_witness : exists s, sections race_moves (start race_calls) = Some s /\
  (length race_moves <= 18)%nat /\ exists s', rtc table_step s s' /\ forall i c, e_calls s' !! i = Some c -> running c = false.
Proof.
  destruct (sections race_moves (start race_calls)) as [s|] eqn:Es; [|vm_compute in Es; discriminate Es].
  exists s. split; [reflexivity|]. destruct (calls_end race_calls _ s (sections_steps _ _ _ Es) eq_refl) as (H1 & _ & H3).
  split; [exact H1|exact H3].
Defined.

(** ** Sessions *)

Local Open Scope Z_scope.


(** A session of [x + 10] on the host itself, with no other session. *)
#[local] Existing Instance reference_device.









