(* ===== verification/Addresses.v ===== *)
(** * Theorems: shapes, views and trackers

    What the address arithmetic of shape.go, view.go and tracker.go promises:
    a tracker after any sequence of movements addresses what the movements
    mean, and each operation fails when, and as, it should. *)
From Stdlib Require Import ZArith Lia.
From stdpp Require Import base numbers option list relations.
From S2P Require Import Prelude Shape View Reshape ReshapeAddr Tracker.

Local Open Scope Z_scope.

(** ** Trackers *)

(** C23: a sequence of movements of a tracker that implements an array fails
    exactly when the sequence of their meanings does, with the same error;
    otherwise the tracker has the array's dimensions, every cell of it is at
    the buffer offset the array gives, or is padding, and the offset is in
    the buffer. *)
Theorem movements_refine (n : Z) (t : Tracker) (a : amap) (ms : list move) : implements n t a ->
  match run_moves t ms, spec_moves a ms with
  | Ok t', Ok a' =>
      wf n t' /\ t_dims t' = a_dims a' /\
      forall c, in_bounds (a_dims a') c ->
        t_locate t' c = a_cell a' c /\ forall o, t_locate t' c = Some o -> 0 <= o < n
  | Err e, Err e' => e = e'
  | _, _ => False
  end.
Proof.
  intros Ht. pose proof (moves_agree n ms t a Ht) as K. unfold agree in K.
  destruct (run_moves t ms) as [t'|e], (spec_moves a ms) as [a'|e']; try exact K.
  pose proof K as (Hw & Hd & Hl). split; [exact Hw|]. split; [exact Hd|]. intros c Hc. split; [apply Hl, Hc|].
  intros o. eapply implements_range; [exact K|rewrite Hd; exact Hc].
Qed.

(** A transpose, a reshape and a pad of a 2x3 array. *)
Lemma movements_refine_witness : exists t, Of (Some [2; 3]) = Ok t /\
  match run_moves t [MPermute [1; 0]; MReshape [6]; MPad [(1, 0)]] with
  | Ok t' => t_dims t' = [7] /\ t_locate t' [0] = None /\ t_locate t' [2] = Some 3
  | Err _ => False
  end.
Proof.
  destruct (Of_implements (Some [2; 3]) ltac:(repeat constructor; lia)) as (t & Ht & Hi & _). exists t. split; [exact Ht|].
  pose proof (movements_refine 6 t (row_major [2; 3]) [MPermute [1; 0]; MReshape [6]; MPad [(1, 0)]] Hi) as K.
  vm_compute in Ht. injection Ht as <-. destruct (run_moves _ _) as [t'|e] eqn:Er.
  - vm_compute in K. destruct K as (_ & Hd & Hl). vm_compute in Er. injection Er as <-. split; [reflexivity|]. split; reflexivity.
  - vm_compute in Er. discriminate Er.
Defined.

(** [Index] and [At] give ErrIndex exactly outside the shape; inside,
    they tell padding from data and give the offset of the data. *)
Theorem lookup_checked (n : Z) (t : Tracker) (c : list Z) (i : Z) : wf n t ->
  (in_bounds (t_dims t) c -> exists o ok, Index t c = Ok (o, ok) /\ t_locate t c = if ok then Some o else None) /\
  (~ in_bounds (t_dims t) c -> Index t c = Err ErrIndex) /\
  (0 <= i < t_Size t -> exists o ok, At t i = Ok (o, ok) /\ t_locate t (unravel (t_dims t) i) = if ok then Some o else None) /\
  (~ 0 <= i < t_Size t -> At t i = Err ErrIndex).
Proof.
  intros Hw. split; [|split; [|split]].
  - intros Hc. destruct (Index_in n t c Hw Hc) as ([o ok] & Hr & Ha). exists o, ok. split; [exact Hr|]. rewrite <- Ha. destruct ok; reflexivity.
  - apply (Index_out n), Hw.
  - intros Hi. destruct (At_in n t i Hw Hi) as ([o ok] & Hr & Ha). exists o, ok. split; [exact Hr|]. rewrite <- Ha. destruct ok; reflexivity.
  - apply (At_out n), Hw.
Qed.

Lemma lookup_checked_witness : exists t, Of (Some [2; 3]) = Ok t /\ (exists o, Index t [1; 2] = Ok (o, true)) /\
  Index t [2; 0] = Err ErrIndex /\ At t 6 = Err ErrIndex.
Proof.
  destruct (Of_implements (Some [2; 3]) ltac:(repeat constructor; lia)) as (t & Ht & Hi & _). exists t. split; [exact Ht|].
  destruct (lookup_checked 6 t [1; 2] 6 (proj1 Hi)) as (K1 & _ & _ & K4). destruct (lookup_checked 6 t [2; 0] 6 (proj1 Hi)) as (_ & K2 & _).
  assert (Hd : t_dims t = [2; 3]) by apply Hi. assert (Hs : t_Size t = 6) by (vm_compute in Ht; injection Ht as <-; reflexivity).
  split; [|split].
  - destruct K1 as (o & ok & E & L); [rewrite Hd; repeat constructor; lia|]. exists o. rewrite E.
    destruct Hi as (_ & _ & Hl). cbn [row_major a_dims a_cell] in Hl. rewrite Hl in L by (repeat constructor; lia). destruct ok; congruence.
  - apply K2. rewrite Hd. intros Hc. inversion Hc; subst. lia.
  - apply K4. lia.
Defined.

(** ** Views *)

(** C27: [reshape] of a view always ends; when it succeeds, the new view has
    the new shape and reads, at each cell, what the old one reads at the cell
    of the same row-major number, padding included. *)
Theorem reshape_correct (v : view) (s : Shape) : canonical v -> nonneg (v_shape v) -> nonneg s -> Size s = Size (v_shape v) ->
  reshape v s <> Diverges /\
  forall v', reshape v s = Done v' -> v_shape v' = s /\
    forall c, in_bounds s c -> addr v' c = addr v (unravel (v_shape v) (ravel s c)).
Proof.
  intros Hc Hv Hs Hz. split; [apply reshape_ends; assumption|]. intros v' Hr. split; [eapply reshape_shape, Hr|].
  intros c Hin. eapply reshape_addr; eauto.
Qed.

(** A padded row of 2x3 is reshaped to 6 cells with its mask. *)
Lemma reshape_correct_witness : exists v, create [3; 2] (Some [2; 1]) (-2) (Some [(1, 3); (0, 2)]) = Ok v /\
  exists v', reshape v [6] = Done v' /\ addr v' [1] = None /\ addr v' [3] = Some 1.
Proof.
  assert (Hv : exists v, create [3; 2] (Some [2; 1]) (-2) (Some [(1, 3); (0, 2)]) = Ok v /\ v_shape v = [3; 2] /\
    exists v', reshape v [6] = Done v') by (eexists; split; [vm_compute; reflexivity|]; split; [reflexivity|eexists; vm_compute; reflexivity]).
  destruct Hv as (v & Hv & Hs & v' & Hr). exists v. split; [exact Hv|]. exists v'. split; [exact Hr|].
  assert (Hcan : canonical v).
  { eapply create_canonical; [exact Hv|]. intros m [= <-]. repeat constructor; cbn; lia. }
  destruct (reshape_correct v [6] Hcan ltac:(rewrite Hs; repeat constructor; lia) ltac:(repeat constructor; lia) ltac:(rewrite Hs; reflexivity)) as [_ K].
  destruct (K v' Hr) as [_ Ha]. rewrite !Ha by (repeat constructor; lia). vm_compute in Hv. injection Hv as <-. split; reflexivity.
Defined.

(** [create] accepts what fits the shape, gives a view in canonical form,
    and addresses by the given strides, offset and mask. *)
Theorem create_correct (shape : Shape) (st : option (list Z)) (off : Z) (m : option (list (Z * Z))) :
  nonneg shape -> (forall s, st = Some s -> length s = length shape) -> (forall m0, m = Some m0 -> mask_in shape m0) ->
  exists v, create shape st off m = Ok v /\ v_shape v = shape /\ canonical v /\
    forall c, in_bounds shape c -> addr v c = affine (given_strides shape st) off m c.
Proof.
  intros Hn Hst Hm. destruct (create_total shape st off m Hn Hst) as [v Hv].
  { intros m0 E. exact (eq_sym (Forall2_length _ _ _ (Hm m0 E))). }
  exists v. split; [exact Hv|]. split; [eapply create_shape, Hv|]. split; [eapply create_canonical; eauto|].
  intros c Hc. eapply create_addr; eauto.
Qed.

Lemma create_correct_witness : exists v, create [3; 2] (Some [2; 1]) (-2) (Some [(1, 3); (0, 2)]) = Ok v /\
  addr v [0; 1] = None /\ addr v [2; 1] = Some 3.
Proof.
  destruct (create_correct [3; 2] (Some [2; 1]) (-2) (Some [(1, 3); (0, 2)]) ltac:(repeat constructor; lia)
    ltac:(intros s [= <-]; reflexivity) ltac:(intros m [= <-]; repeat constructor; cbn; lia)) as (v & Hv & _ & _ & Ha).
  exists v. split; [exact Hv|]. rewrite !Ha by (repeat constructor; lia). split; reflexivity.
Defined.

(** ** Shapes *)

(** [Infer] rejects with ErrShape the shapes with two holes or another
    negative dimension; what it returns completes the hole and has the size
    asked for; it finds the completion when there is one, which is unique
    unless the size is 0. *)
Theorem infer_correct (s : Shape) (size : Z) : 0 <= size ->
  (~ one_hole s -> Infer s size = Err ErrShape) /\
  (forall s', Infer s size = Ok s' -> one_hole s /\ completes s s' /\ Size s' = size) /\
  (forall s', one_hole s -> completes s s' -> Size s' = size ->
    exists s'', Infer s size = Ok s'' /\ (size <> 0 -> s'' = s')).
Proof.
  intros Hz. split; [apply Infer_bad|]. split; [intros s'; apply Infer_ok, Hz|intros s'; apply Infer_complete].
Qed.

Lemma infer_correct_witness : Infer [-1; 3] 12 = Ok [4; 3] /\ Infer [-1; -1] 12 = Err ErrShape.
Proof.
  destruct (infer_correct [-1; 3] 12 ltac:(lia)) as (_ & _ & K). destruct (infer_correct [-1; -1] 12 ltac:(lia)) as (K2 & _ & _).
  split.
  - destruct (K [4; 3] (a_hole [] [3] ltac:(constructor) ltac:(repeat constructor; lia)) ltac:(repeat constructor; lia) eq_refl) as (s & Hs & E).
    rewrite Hs, E by lia. reflexivity.
  - apply K2. intros H. remember [-1; -1] as s eqn:Es. destruct H as [x Hx|a b Ha Hb].
    + subst x. inversion Hx; lia.
    + destruct a as [|x a]; inversion Es; subst; [inversion Hb; lia|inversion Ha; lia].
Defined.

(** [unravel] numbers the cells of a shape in row-major order, a bijection
    between the numbers below the size and the coordinates in bounds. *)
Theorem unravel_bijective (s : Shape) (i : Z) (c : list Z) : nonneg s ->
  (0 <= i < Size s -> in_bounds s (unravel s i) /\ ravel s (unravel s i) = i) /\
  (in_bounds s c -> 0 <= ravel s c < Size s /\ unravel s (ravel s c) = c).
Proof.
  intros Hn. split.
  - intros Hi. assert (Hp : positive_dims s) by (apply positive_of_nonempty; [exact Hn|lia]).
    split; [apply unravel_in_bounds; [exact Hp|lia]|apply ravel_unravel; assumption].
  - intros Hc. split; [apply ravel_bounds, Hc|apply unravel_ravel, Hc].
Qed.

Lemma unravel_bijective_witness : unravel [2; 3] 5 = [1; 2] /\ ravel [2; 3] (unravel [2; 3] 5) = 5.
Proof. split; [reflexivity|]. apply (unravel_bijective [2; 3] 5 []); [repeat constructor; lia|split; [lia|reflexivity]]. Defined.

