(* ===== verification/Graphs.v ===== *)
(** * Theorems: nodes, words and tensors

    What the constructors of expr.go build, what the words of the tape mean,
    what a movement of a tensor denotes, and how storage behaves. *)
From Stdlib Require Import ZArith Lia.
From stdpp Require Import base numbers option list relations.
From S2P Require Import Prelude Float Alu Shape View Reshape Tracker Expr Rewrite Optimize Flatten Cpu Kernel Eval Tensor Realize Nn Layers Demo.

Local Open Scope Z_scope.

(** ** Nodes *)

(** C40: an operation on usable nodes either fails, with ErrType when the
    operand types do not fit and else with ErrShape when the shapes differ,
    or gives a new node of the right type and of the operands' shape that
    computes the operation cell by cell; nodes that were there keep their
    value. *)
Theorem operations_build {E : FloatEnv} (op : Op) (p a b : nat) (dtype : DType) (h : heap) : heap_ok h -> usable h [p; a; b] ->
  (op <> CAST -> match unaryType op (type_of h [a] 0) with
    | Err e => e = ErrType /\ fails_with e (unary op (Some a) h) h \/ e = ErrOp /\ fails_with e (unary op (Some a) h) h
    | Ok d => builds op d [a] (unary op (Some a) h) h
    end) /\
  (match binaryType op (type_of h [a; b] 0) (type_of h [a; b] 1), sameShape (h_nodes h) [a; b] with
    | Err e, _ | _, Err e => fails_with e (binaryOp op (Some a) (Some b) h) h
    | Ok d, Ok _ => builds op d [a; b] (binaryOp op (Some a) (Some b) h) h
    end) /\
  (if bool_decide (type_of h [p; a; b] 0 = I32) && bool_decide (type_of h [p; a; b] 1 = type_of h [p; a; b] 2)
    then match sameShape (h_nodes h) [p; a; b] with
         | Err e => fails_with e (whereNode (Some p) (Some a) (Some b) h) h
         | Ok _ => builds WHERE (type_of h [p; a; b] 1) [p; a; b] (whereNode (Some p) (Some a) (Some b) h) h
         end
    else fails_with ErrType (whereNode (Some p) (Some a) (Some b) h) h) /\
  (if bool_decide (type_of h [p; a; b] 0 = type_of h [p; a; b] 1) && bool_decide (type_of h [p; a; b] 0 = type_of h [p; a; b] 2)
    then match sameShape (h_nodes h) [p; a; b] with
         | Err e => fails_with e (multiplyAccumulateNode (Some p) (Some a) (Some b) h) h
         | Ok _ => builds MultiplyAccumulate (type_of h [p; a; b] 0) [p; a; b] (multiplyAccumulateNode (Some p) (Some a) (Some b) h) h
         end
    else fails_with ErrType (multiplyAccumulateNode (Some p) (Some a) (Some b) h) h) /\
  (if is_number_type dtype then builds CAST dtype [a] (castNode (Some a) dtype h) h
   else fails_with ErrType (castNode (Some a) dtype h) h).
Proof.
  intros H Hu. assert (Hab : usable h [a; b]) by (inversion Hu; assumption).
  assert (Ha : usable h [a]) by (inversion Hab; subst; constructor; [assumption|constructor]).
  split; [|split; [|split; [|split]]].
  - intros Hc. pose proof (unary_spec op a h H Ha Hc) as K. destruct (unaryType op (type_of h [a] 0)) as [d|e] eqn:Et; [exact K|].
    assert (e = ErrType \/ e = ErrOp) as [->| ->]; auto.
    revert Et. clear. generalize (type_of h [a] 0) as t. intros t. destruct op, t; cbn; intros [= <-]; auto.
  - exact (binaryOp_spec op a b h H Hab).
  - exact (whereNode_spec p a b h H Hu).
  - exact (multiplyAccumulateNode_spec p a b h H Hu).
  - exact (castNode_spec a dtype h H Ha).
Qed.

(** [x + 10] over the nodes of the example. *)
Lemma operations_build_witness : fst (binaryOp ADD (Some 0%nat) (Some 1%nat) demo_heap) = 3%nat /\
  den (snd (binaryOp ADD (Some 0%nat) (Some 1%nat) demo_heap)) 3 [1; 2] = 16.
Proof.
  assert (Hu : usable demo_heap [2; 0; 1]%nat) by (repeat constructor; vm_compute; lia || reflexivity).
  destruct (operations_build ADD 2 0 1 F32 demo_heap (proj1 demo_ok) Hu) as (_ & K & _).
  assert (Et : binaryType ADD (type_of demo_heap [0; 1]%nat 0) (type_of demo_heap [0; 1]%nat 1) = Ok I32) by reflexivity.
  assert (Es : sameShape (h_nodes demo_heap) [0; 1]%nat = Ok tt) by reflexivity. rewrite Et, Es in K.
  destruct K as (_ & _ & _ & _ & Hd). assert (Ef : fst (binaryOp ADD (Some 0%nat) (Some 1%nat) demo_heap) = 3%nat) by reflexivity.
  split; [exact Ef|]. rewrite <- Ef, Hd. vm_compute. reflexivity.
Defined.

(** ** Words *)

(** [math.Float32bits] and [math.Float32frombits] are inverse, NaN apart:
    a word that is not a NaN comes back, and so does a float32. *)
Theorem float_bits_roundtrip (w nan : Z) (f : SpecFloat.spec_float) :
  (word_ok w -> is_nan w = false -> pack nan (unpack w) = w) /\
  (valid32 f = true -> f <> SpecFloat.S754_nan -> unpack (pack nan f) = f) /\
  (word_ok w -> valid32 (unpack w) = true).
Proof. split; [apply pack_unpack|split; [apply unpack_pack|apply unpack_valid]]. Qed.

(** ** Tensors *)

(** C28: a movement of a tensor gives a tensor of the moved shape that reads,
    at each cell, the old tensor at the cell the movement gives, or 0 in
    padding.  It fails with the movement's own error, with ErrShape on a
    constant without a shape (or a splat of an operation), and with ErrIndex
    for a splat of one cell of padding. *)
Theorem movement_denotes {E : FloatEnv} (ks : list Kernel) (h : heap) (l : nat) (m : move) : heap_ok h -> valid_ptr h l ->
  let dims := opt_list (nShape (h_nodes h) l) in
  let '(r, h') := tensor_move ks m (Some (mkTensor (Some l) None)) h in
  heap_ok h' /\ ext h h' /\
  match r with
  | Ok t' => exists s f l', move_map dims m = Ok (s, f) /\ tn_node t' = Some l' /\ valid_ptr h' l' /\
      n_dtype (get (h_nodes h') l') = n_dtype (get (h_nodes h) l) /\ opt_list (nShape (h_nodes h') l') = s /\
      forall c, in_bounds s c -> den h' l' c = match f c with Some c0 => den h l c0 | None => 0 end
  | Err e =>
      move_map dims m = Err e \/
      t_views (n_tracker (get (h_nodes h) l)) = [] /\ e = ErrShape /\ (n_kind (get (h_nodes h) l) = kindConst \/ m = MSplat) \/
      m = MSplat /\ e = ErrIndex /\ Size dims = 1 /\ den h l (unravel dims 0) = 0
  end.
Proof.
  intros H Hl dims. pose proof (tensor_move_outcome ks h l m H Hl) as K. unfold move_outcome in K. fold dims in K.
  destruct (tensor_move ks m _ h) as [[t'|e] h']; cbn [fst snd] in K.
  - destruct K as (s & f & Hm & (H' & X & _ & l' & N & V & D & S & F)). split; [exact H'|]. split; [exact X|].
    exists s, f, l'. auto 10.
  - destruct K as (H' & X & K). auto.
Qed.

(** [(x + 10).Permute(1, 0)] *)
Lemma movement_denotes_witness : let '(r, h') := tensor_move [] (MPermute [1; 0]) (Some (mkTensor (Some 2%nat) None)) demo_heap in
  exists t' l', r = Ok t' /\ tn_node t' = Some l' /\ opt_list (nShape (h_nodes h') l') = [3; 2] /\ den h' l' [2; 0] = 13.
Proof.
  pose proof (movement_denotes [] demo_heap 2 (MPermute [1; 0]) (proj1 demo_ok) (proj1 demo_valid)) as K.
  destruct (tensor_move [] (MPermute [1; 0]) (Some (mkTensor (Some 2%nat) None)) demo_heap) as [[t'|e] h'] eqn:Em.
  - destruct K as (_ & _ & s & f & l' & Hm & N & _ & _ & S & F). exists t', l'. split; [reflexivity|]. split; [exact N|].
    rewrite (proj2 demo_valid) in Hm. vm_compute in Hm. injection Hm as <- <-. split; [exact S|].
    rewrite F by (repeat constructor; lia). vm_compute. reflexivity.
  - vm_compute in Em. discriminate Em.
Defined.

(** [New] fails with ErrShape on a negative dimension and with ErrSize on
    a wrong number of elements; otherwise [Data] gives the elements back, the
    tensor denotes them in row-major order, and every older tensor keeps its
    values. *)
Theorem new_stores {E : FloatEnv} (d : DType) (data : list Z) (shape : option Shape) (h : heap) :
  heap_ok h -> bufs_ok h -> is_number_type d = true -> data_ok d data ->
  let '(r, h') := New d data shape h in
  let s := opt_list shape in
  match r with
  | Ok t =>
      nonneg s /\ Z.of_nat (length data) = Size s /\ heap_ok h' /\ bufs_ok h' /\
      exists l, t = mkTensor (Some l) None /\ valid_ptr h' l /\ n_dtype (get (h_nodes h') l) = d /\
        opt_list (nShape (h_nodes h') l) = s /\ Data d h' (Some t) = Ok data /\
        (forall c, in_bounds s c -> den h' l c = nth (Z.to_nat (ravel s c)) data 0) /\
        (forall l' c, (l' < length (h_nodes h))%nat -> den h' l' c = den h l' c)
  | Err e =>
      h' = h /\ (e = ErrShape /\ ~ nonneg s \/ e = ErrSize /\ nonneg s /\ Z.of_nat (length data) <> Size s)
  end.
Proof. exact (New_spec d data shape h). Qed.

Lemma new_stores_witness : let '(r, h') := New I32 demo_data (Some [2; 3]) empty_heap in
  exists t, r = Ok t /\ Data I32 h' (Some t) = Ok demo_data.
Proof.
  pose proof (new_stores I32 demo_data (Some [2; 3]) empty_heap empty_ok bufs_ok_empty eq_refl demo_data_ok) as K.
  destruct (New I32 demo_data (Some [2; 3]) empty_heap) as [[t|e] h'] eqn:En.
  - destruct K as (_ & _ & _ & _ & l & _ & _ & _ & _ & Hd & _). exists t. split; [reflexivity|exact Hd].
  - vm_compute in En. discriminate En.
Defined.

(** [EnsureCells] makes room for at least [n] elements and changes the
    value of no tensor, whatever shares the buffer; when it fails nothing
    changes. *)
Theorem ensure_cells_keeps {E : FloatEnv} (d : DType) (n : Z) (h : heap) (t : option tensor) :
  heap_ok h -> bufs_ok h -> is_number_type d = true ->
  let '(r, h') := EnsureCells d n h t in
  heap_ok h' /\ bufs_ok h' /\ h_nodes h' = h_nodes h /\
  (forall l c, (l < length (h_nodes h))%nat -> den h' l c = den h l c) /\
  match r with
  | Ok _ => exists l b, t ≫= tn_node = Some l /\ leaf_buffer h' (get (h_nodes h) l) = Some b /\ 0 <= n <= cells b
  | Err e => h' = h
  end.
Proof. exact (EnsureCells_spec d n h t). Qed.

Lemma ensure_cells_keeps_witness : let '(r, h') := EnsureCells I32 9 demo_heap (Some (mkTensor (Some 0%nat) None)) in
  r = Ok tt /\ den h' 2 [1; 1] = 15 /\ exists b, leaf_buffer h' (get (h_nodes demo_heap) 0) = Some b /\ 9 <= cells b.
Proof.
  pose proof (ensure_cells_keeps I32 9 demo_heap (Some (mkTensor (Some 0%nat) None)) (proj1 demo_ok) demo_bufs eq_refl) as K.
  destruct (EnsureCells I32 9 demo_heap (Some (mkTensor (Some 0%nat) None))) as [[[]|e] h'] eqn:Ee.
  - destruct K as (_ & _ & _ & Hd & l & b & Hl & Hb & Hn). split; [reflexivity|]. split.
    + rewrite Hd by (vm_compute; lia). vm_compute. reflexivity.
    + injection Hl as <-. exists b. split; [exact Hb|lia].
  - vm_compute in Ee. discriminate Ee.
Defined.
