(* ===== verification/Networks.v ===== *)
(** * Theorems: layers, kernels and the evaluator's table

    What the layers of nn compute, and what the methods of a kernel and the
    table of bound programs promise a backend. *)
From Stdlib Require Import ZArith Lia.
From stdpp Require Import base numbers option list relations.
From S2P Require Import Prelude Float Alu Shape View Reshape Tracker Expr Rewrite Optimize Flatten Cpu Kernel Eval Tensor Realize Nn Layers Demo.

Local Open Scope Z_scope.

(** ** Layers *)

(** C30: on tensors of fitting shapes [Linear] succeeds and denotes, at each
    row, the products of the row and the vector added in column order, plus
    the bias; on int32 that is the matrix-vector product plus the bias modulo
    2^32. *)
Theorem linear_correct {E : FloatEnv} (ks : list Kernel) (h : heap) (d : DType) (w x b : tensor) (out inn : Z)
    (fw fx fb : list Z -> Z) :
  scalar d -> heap_ok h -> holds h w d [out; inn] fw -> holds h x d [inn] fx -> holds h b d [out] fb ->
  yields h (Linear ks d (Some w) (Some x) (Some b)) d [out] (linear_value d inn fw fx fb) /\
  forall c, d = I32 -> word_ok (fb c) ->
    linear_value d inn fw fx fb c
    = u32 (sumZ (map (fun j => i32 (fw [dim c 0; j]) * i32 (fx [j])) (seqZ 0 inn)) + i32 (fb c)).
Proof.
  intros Hd H Hw Hx Hb. split; [apply Linear_yields; assumption|]. intros c -> Hfb.
  apply linear_value_i32; [|exact Hfb]. pose proof (holds_nonneg _ _ _ _ _ H Hx) as Hn. inversion Hn; assumption.
Qed.

(** The heap with [w = [[1 2 3] [4 5 6]]], [x = [7 8 9]] and [b = [1 2]]. *)
Definition linear_heap : heap := snd (New I32 [1; 2] (Some [2]) (snd (New I32 [7; 8; 9] (Some [3]) (snd (New I32 demo_data (Some [2; 3]) empty_heap))))).
Definition leaf (l : nat) : tensor := mkTensor (Some l) None.
Definition row_of (s : Shape) (data : list Z) (c : list Z) : Z := nth (Z.to_nat (ravel s c)) data 0.

Lemma linear_heap_ok : heap_ok linear_heap /\ holds linear_heap (leaf 0) I32 [2; 3] (row_of [2; 3] demo_data) /\
  holds linear_heap (leaf 1) I32 [3] (row_of [3] [7; 8; 9]) /\ holds linear_heap (leaf 2) I32 [2] (row_of [2] [1; 2]).
Proof.
  pose proof (New_runs empty_heap I32 demo_data [2; 3] empty_ok bufs_ok_empty eq_refl demo_data_ok
    ltac:(repeat constructor; lia) eq_refl ltac:(discriminate)) as K1.
  destruct (New I32 demo_data (Some [2; 3]) empty_heap) as [r1 h1] eqn:E1. destruct K1 as (w & -> & H1 & B1 & W & _).
  assert (D2 : data_ok I32 [7; 8; 9]) by (repeat constructor; discriminate || lia).
  pose proof (New_runs h1 I32 [7; 8; 9] [3] H1 B1 eq_refl D2 ltac:(repeat constructor; lia) eq_refl ltac:(discriminate)) as K2.
  destruct (New I32 [7; 8; 9] (Some [3]) h1) as [r2 h2] eqn:E2. destruct K2 as (x & -> & H2 & B2 & X & O2). apply O2 in W.
  assert (D3 : data_ok I32 [1; 2]) by (repeat constructor; discriminate || lia).
  pose proof (New_runs h2 I32 [1; 2] [2] H2 B2 eq_refl D3 ltac:(repeat constructor; lia) eq_refl ltac:(discriminate)) as K3.
  destruct (New I32 [1; 2] (Some [2]) h2) as [r3 h3] eqn:E3. destruct K3 as (b & -> & H3 & B3 & B & O3). apply O3 in W, X.
  assert (El : linear_heap = h3) by (unfold linear_heap; rewrite E1; cbn [snd]; rewrite E2; cbn [snd]; rewrite E3; reflexivity).
  rewrite El. vm_compute in E1. injection E1 as <- <-. vm_compute in E2. injection E2 as <- <-. vm_compute in E3. injection E3 as <- _.
  split; [exact H3|]. split; [exact W|]. split; [exact X|exact B].
Qed.

Lemma linear_correct_witness : exists t h l, Linear [] I32 (Some (leaf 0)) (Some (leaf 1)) (Some (leaf 2)) linear_heap = (Ok t, h) /\
  tn_node t = Some l /\ den h l [0] = 51 /\ den h l [1] = 124.
Proof.
  destruct linear_heap_ok as (H & W & X & B).
  destruct (linear_correct [] linear_heap I32 _ _ _ 2 3 _ _ _ eq_refl H W X B) as [K _].
  destruct (yields_inv _ _ _ _ _ K) as (t & h & Em & _ & _ & _ & l & N & _ & _ & _ & F).
  exists t, h, l. split; [exact Em|]. split; [exact N|]. rewrite !F by (repeat constructor; lia). split; vm_compute; reflexivity.
Defined.

(** C29: on tensors of fitting shapes, with pads that are not negative and at
    least one window, [Convolution2D] succeeds; the output cell (n, o, y, x)
    is the sum over input channels and kernel cells, in the order of the
    loops, of input(n, i, y*strideH+ky-before, x*strideW+kx-before) times
    weight(o, i, ky, kx), where the input is 0 outside its shape. *)
Theorem convolution_correct {E : FloatEnv} (ks : list Kernel) (h : heap) (d : DType) (x w : tensor) (n ni H W oc kh kw : Z)
    (fx fw : list Z -> Z) (hb wb ha wa sH sW : Z) :
  scalar d -> heap_ok h -> holds h x d [n; ni; H; W] fx -> holds h w d [oc; ni; kh; kw] fw ->
  0 <= hb -> 0 <= wb -> 0 <= ha -> 0 <= wa ->
  let sh := stride_of sH in let sw := stride_of sW in
  let ho := WindowLength H hb ha kh sh in let wo := WindowLength W wb wa kw sw in
  0 < ho -> 0 < wo ->
  yields h (Convolution2D ks d (Some x) (Some w) [hb; wb; ha; wa] sH sW) d [n; oc; ho; wo]
    (fun c => combine ADD d (map (fun g => g c) (conv_terms d sh sw (padded_value H W fx hb wb) fw ni kh kw))).
Proof. intros. apply Convolution2D_yields; assumption. Qed.

(** Two leaves of int32. *)
Definition pair_heap (s1 s2 : Shape) (data1 data2 : list Z) : heap :=
  snd (New I32 data2 (Some s2) (snd (New I32 data1 (Some s1) empty_heap))).

Lemma pair_heap_ok s1 s2 data1 data2 : data_ok I32 data1 -> data_ok I32 data2 -> nonneg s1 -> nonneg s2 ->
  Z.of_nat (length data1) = Size s1 -> Z.of_nat (length data2) = Size s2 -> s1 <> [] -> s2 <> [] ->
  heap_ok (pair_heap s1 s2 data1 data2) /\ exists t1 t2,
    fst (New I32 data1 (Some s1) empty_heap) = Ok t1 /\
    fst (New I32 data2 (Some s2) (snd (New I32 data1 (Some s1) empty_heap))) = Ok t2 /\
    holds (pair_heap s1 s2 data1 data2) t1 I32 s1 (row_of s1 data1) /\
    holds (pair_heap s1 s2 data1 data2) t2 I32 s2 (row_of s2 data2).
Proof.
  intros D1 D2 N1 N2 L1 L2 E1 E2. unfold pair_heap.
  pose proof (New_runs empty_heap I32 data1 s1 empty_ok bufs_ok_empty eq_refl D1 N1 L1 E1) as K1.
  destruct (New I32 data1 (Some s1) empty_heap) as [r1 h1]. destruct K1 as (t1 & -> & H1 & B1 & T1 & _). cbn [fst snd].
  pose proof (New_runs h1 I32 data2 s2 H1 B1 eq_refl D2 N2 L2 E2) as K2.
  destruct (New I32 data2 (Some s2) h1) as [r2 h2]. destruct K2 as (t2 & -> & H2 & B2 & T2 & O2). cbn [fst snd].
  split; [exact H2|]. exists t1, t2. split; [reflexivity|]. split; [reflexivity|]. split; [apply O2, T1|exact T2].
Qed.

(** A 3x3 image with a 2x2 kernel, one row and column of padding before. *)
Definition conv_heap : heap := pair_heap [1; 1; 3; 3] [1; 1; 2; 2] [1; 2; 3; 4; 5; 6; 7; 8; 9] [1; 10; 100; 1000].

Lemma conv_heap_ok : heap_ok conv_heap /\ holds conv_heap (leaf 0) I32 [1; 1; 3; 3] (row_of [1; 1; 3; 3] [1; 2; 3; 4; 5; 6; 7; 8; 9]) /\
  holds conv_heap (leaf 1) I32 [1; 1; 2; 2] (row_of [1; 1; 2; 2] [1; 10; 100; 1000]).
Proof.
  destruct (pair_heap_ok [1; 1; 3; 3] [1; 1; 2; 2] [1; 2; 3; 4; 5; 6; 7; 8; 9] [1; 10; 100; 1000]) as (H & t1 & t2 & E1 & E2 & T1 & T2);
    try discriminate; try reflexivity; try (repeat constructor; discriminate || lia).
  assert (Ok (leaf 0) = Ok t1) as [= ->] by (rewrite <- E1; vm_compute; reflexivity).
  assert (Ok (leaf 1) = Ok t2) as [= ->] by (rewrite <- E2; vm_compute; reflexivity). auto.
Qed.

Lemma convolution_correct_witness : exists t h l,
  Convolution2D [] I32 (Some (leaf 0)) (Some (leaf 1)) [1; 1; 0; 0] 2 0 conv_heap = (Ok t, h) /\
  tn_node t = Some l /\ den h l [0; 0; 0; 0] = 1000 /\ den h l [0; 0; 1; 2] = 9865.
Proof.
  destruct conv_heap_ok as (H & X & W).
  pose proof (convolution_correct [] conv_heap I32 _ _ 1 1 3 3 1 2 2 _ _ 1 1 0 0 2 0 eq_refl H X W
    ltac:(lia) ltac:(lia) ltac:(lia) ltac:(lia) eq_refl eq_refl) as K.
  destruct (yields_inv _ _ _ _ _ K) as (t & h & Em & _ & _ & _ & l & N & _ & _ & _ & F).
  exists t, h, l. split; [exact Em|]. split; [exact N|].
  split; (rewrite F; [vm_compute; reflexivity|vm_compute; repeat constructor; discriminate]).
Defined.

(** C31: [MaximumPool2D] on a fitting tensor succeeds and gives, at each output
    cell, the maximum over the window in the order of the loops, where the
    cells outside the input count as the lowest value of the type. *)
Theorem max_pool_correct {E : FloatEnv} (ks : list Kernel) (h : heap) (d : DType) (t : tensor) (n k H W : Z) (f : list Z -> Z)
    (kn : poolKernel) (hb wb ha wa : Z) :
  scalar d -> heap_ok h -> holds h t d [n; k; H; W] f -> 0 <= hb -> 0 <= wb -> 0 <= ha -> 0 <= wa ->
  let sh := stride_of (strideHeight kn) in let sw := stride_of (strideWidth kn) in
  let ho := WindowLength H hb ha (kernelHeight kn) sh in let wo := WindowLength W wb wa (kernelWidth kn) sw in
  0 < kernelHeight kn -> 0 < kernelWidth kn -> 0 < ho -> 0 < wo ->
  runs h (MaximumPool2D ks d (Some t) kn [hb; wb; ha; wa])
    (fun h' r => exists t', r = Some t' /\ holds h' t' d [n; k; ho; wo] (fun c =>
      combine MAX d (map (fun g => g c)
        (pool_terms (kernelHeight kn) (kernelWidth kn) sh sw (padded_fill H W f hb wb (bitsOf (Lowest d))))))).
Proof. intros. apply MaximumPool2D_runs; assumption. Qed.

Lemma max_pool_correct_witness : exists t h l,
  MaximumPool2D [] I32 (Some (leaf 0)) (mkPoolKernel 2 2 2 2) [1; 1; 0; 0] conv_heap = (Ok (Some t), h) /\
  tn_node t = Some l /\ den h l [0; 0; 0; 1] = 3 /\ den h l [0; 0; 1; 1] = 9.
Proof.
  destruct conv_heap_ok as (H & X & _).
  pose proof (max_pool_correct [] conv_heap I32 _ 1 1 3 3 _ (mkPoolKernel 2 2 2 2) 1 1 0 0 eq_refl H X
    ltac:(lia) ltac:(lia) ltac:(lia) ltac:(lia) eq_refl eq_refl eq_refl eq_refl) as K.
  destruct (runs_inv _ _ _ K) as (r & h & Em & _ & _ & t & -> & _ & l & N & _ & _ & _ & F).
  exists t, h, l. split; [exact Em|]. split; [exact N|].
  split; (rewrite F; [vm_compute; reflexivity|vm_compute; repeat constructor; discriminate]).
Defined.

(** A pool window is accepted exactly when the kernel is positive and a
    window fits, with ErrOp and ErrShape otherwise; then the strides are at
    least 1, the padding before is the caller's, and the cover holds every
    strided crop of the window. *)
Theorem pool_window_covered (n k H W : Z) (kn : poolKernel) (hb wb ha wa : Z) :
  match poolWindowOf [n; k; H; W] kn [hb; wb; ha; wa] with
  | Ok w => window_ok H W kn hb wb ha wa w
  | Err e =>
      e = ErrOp /\ (kernelHeight kn <= 0 \/ kernelWidth kn <= 0) \/
      e = ErrShape /\ (WindowLength H hb ha (kernelHeight kn) (stride_of (strideHeight kn)) <= 0 \/
                       WindowLength W wb wa (kernelWidth kn) (stride_of (strideWidth kn)) <= 0)
  end.
Proof. exact (poolWindowOf_spec n k H W kn hb wb ha wa). Qed.

(** ** The table of bound programs *)

(** Binding a kernel gives the tape that it lowers to, or the lowering
    error, whether or not it was bound before; it keeps every other entry of
    the table right and touches no kernel and no node. *)
Theorem program_cached (w : world) (kp : nat) (k : Kernel) : bound_ok w -> w_kernels w !! kp = Some k ->
  let '(r, w') := Program (Some kp) w in
  match lowerCPU (h_nodes (w_heap w)) (k_order k) (k_bufs k) (k_built k) with
  | Err err => r = Err err /\ w' = w
  | Ok tape => exists e, r = Ok e /\ e_kernel e = kp /\ e_tape e = tape /\ assoc_get (w_bound w') kp = Some e
  end /\
  bound_ok w' /\ w_heap w' = w_heap w /\ w_kernels w' = w_kernels w.
Proof. exact (Program_spec w kp k). Qed.

Definition bound_world : world := mkWorld demo_heap [demo_kernel] [] 0.

Lemma bound_world_ok : bound_ok bound_world.
Proof. intros kp e He. discriminate He. Qed.

Lemma program_cached_witness : let '(r, w') := Program (Some 0%nat) bound_world in
  exists e, r = Ok e /\ e_tape e = demo_tape /\ assoc_get (w_bound w') 0%nat = Some e.
Proof.
  pose proof (program_cached bound_world 0 demo_kernel bound_world_ok eq_refl) as K.
  change (w_heap bound_world) with demo_heap in K. rewrite demo_lower in K.
  destruct (Program (Some 0%nat) bound_world) as [r w']. destruct K as ((e & Hr & _ & Ht & Ha) & _).
  exists e. split; [exact Hr|]. split; [exact Ht|exact Ha].
Defined.

