(* ===== verification/Strings.v ===== *)
(** * Go's strings functions

    The functions of package strings, and [text.Digits], that the conda
    packages call, on strings of ASCII bytes, with their lemmas. *)
From Stdlib Require Import ZArith Lia Ascii.
From stdpp Require Import base numbers option list strings.
From S2P Require Import Prelude.

Local Open Scope Z_scope.

(** ** Characters *)

Definition code_of (c : ascii) : nat := nat_of_ascii c.
Definition digit_char (c : ascii) : bool := (48 <=? code_of c)%nat && (code_of c <=? 57)%nat.
Definition upper_char (c : ascii) : bool := (65 <=? code_of c)%nat && (code_of c <=? 90)%nat.
Definition lower_char (c : ascii) : bool := (97 <=? code_of c)%nat && (code_of c <=? 122)%nat.
(** The ASCII characters of [unicode.IsSpace]. *)
Definition space_char (c : ascii) : bool := ((9 <=? code_of c)%nat && (code_of c <=? 13)%nat) || (code_of c =? 32)%nat.
Definition to_lower (c : ascii) : ascii := if upper_char c then ascii_of_nat (code_of c + 32) else c.

(** ** Functions *)

Fixpoint all_chars (p : ascii -> bool) (s : string) : bool :=
  match s with EmptyString => true | String c s' => p c && all_chars p s' end.
Fixpoint any_char (p : ascii -> bool) (s : string) : bool :=
  match s with EmptyString => false | String c s' => p c || any_char p s' end.
Fixpoint map_chars (f : ascii -> ascii) (s : string) : string :=
  match s with EmptyString => EmptyString | String c s' => String (f c) (map_chars f s') end.

Definition is_empty (s : string) : bool := match s with EmptyString => true | _ => false end.
Definition same_char (a b : ascii) : bool := bool_decide (a = b).

(** [strings.ToLower], [strings.ContainsRune] of an ASCII rune, and
    [strings.ReplaceAll] of one character by another. *)
Definition ToLower : string -> string := map_chars to_lower.
Definition Contains (c : ascii) : string -> bool := any_char (same_char c).
Definition ReplaceAll (from to : ascii) : string -> string := map_chars (fun c => if same_char from c then to else c).

(** [text.Digits] *)
Definition Digits (s : string) : bool := negb (is_empty s) && all_chars digit_char s.

(** [strings.IndexFunc], -1 when there is none. *)
Fixpoint IndexFunc (p : ascii -> bool) (s : string) : Z :=
  match s with
  | EmptyString => -1
  | String c s' => if p c then 0 else let i := IndexFunc p s' in if i <? 0 then -1 else i + 1
  end.

Fixpoint trim_left (p : ascii -> bool) (s : string) : string :=
  match s with EmptyString => EmptyString | String c s' => if p c then trim_left p s' else s end.
Fixpoint trim_right (p : ascii -> bool) (s : string) : string :=
  match s with
  | EmptyString => EmptyString
  | String c s' => let r := trim_right p s' in if is_empty r && p c then EmptyString else String c r
  end.
Definition TrimSpace (s : string) : string := trim_right space_char (trim_left space_char s).

(** [strings.Split] by one character: at least one piece. *)
Fixpoint Split (sep : ascii) (s : string) : list string :=
  match s with
  | EmptyString => [EmptyString]
  | String c s' =>
      if same_char sep c then EmptyString :: Split sep s'
      else match Split sep s' with [] => [String c EmptyString] | p :: ps => String c p :: ps end
  end.

(** [strings.Fields]: the pieces between spaces that are not empty. *)
Fixpoint fields_acc (acc : string) (s : string) : list string :=
  match s with
  | EmptyString => if is_empty acc then [] else [acc]
  | String c s' =>
      if space_char c then (if is_empty acc then [] else [acc]) ++ fields_acc EmptyString s'
      else fields_acc (acc +:+ String c EmptyString) s'
  end.
Definition Fields (s : string) : list string := fields_acc EmptyString s.

(** [strings.HasPrefix] and [strings.CutPrefix] *)
Fixpoint CutPrefix (p s : string) : option string :=
  match p, s with
  | EmptyString, _ => Some s
  | String a p', String c s' => if same_char a c then CutPrefix p' s' else None
  | String _ _, EmptyString => None
  end.
Definition HasPrefix (p s : string) : bool := match CutPrefix p s with Some _ => true | None => false end.

(** [strings.CutSuffix], [strings.HasSuffix] and [strings.TrimSuffix] *)
Fixpoint CutSuffix (p s : string) : option string :=
  if bool_decide (s = p) then Some EmptyString
  else match s with EmptyString => None | String c s' => String c <$> CutSuffix p s' end.
Definition HasSuffix (p s : string) : bool := match CutSuffix p s with Some _ => true | None => false end.
Definition TrimSuffix (p s : string) : string := default s (CutSuffix p s).

(** [strings.Cut]: the first occurrence of the separator. *)
Fixpoint Cut (sep s : string) : option (string * string) :=
  match CutPrefix sep s with
  | Some rest => Some (EmptyString, rest)
  | None =>
      match s with
      | EmptyString => None
      | String c s' => match Cut sep s' with Some (a, b) => Some (String c a, b) | None => None end
      end
  end.

(** [strings.Contains], [strings.ContainsAny], [strings.EqualFold]. *)
Definition ContainsString (sub s : string) : bool := match Cut sub s with Some _ => true | None => false end.
Definition ContainsAny (chars : list ascii) (s : string) : bool := any_char (fun c => bool_decide (c ∈ chars)) s.
Definition EqualFold (s t : string) : bool := bool_decide (ToLower s = ToLower t).

(** [strings.TrimRight] and [strings.Trim] of one character. *)
Definition TrimRight (c : ascii) : string -> string := trim_right (same_char c).
Definition Trim (c : ascii) (s : string) : string := TrimRight c (trim_left (same_char c) s).

(** [s[:i]] and [s[i+1:]] at [i := strings.LastIndex(s, c)]. *)
Fixpoint cut_last (c : ascii) (s : string) : option (string * string) :=
  match s with
  | EmptyString => None
  | String d s' =>
      match cut_last c s' with
      | Some (a, b) => Some (String d a, b)
      | None => if same_char c d then Some (EmptyString, s') else None
      end
  end.

Definition Join (sep : string) (ps : list string) : string := String.concat sep ps.

(** [path.Clean]: the elements without [.], and [..] with the element before
    it, on a stack from the end. *)
Fixpoint clean_elements (rooted : bool) (stack : list string) (elements : list string) : list string :=
  match elements with
  | [] => rev stack
  | e :: elements' =>
      if is_empty e || bool_decide (e = ".") then clean_elements rooted stack elements'
      else if bool_decide (e = "..") then
        match stack with
        | top :: stack' =>
            if bool_decide (top = "..") then clean_elements rooted (".." :: stack) elements'
            else clean_elements rooted stack' elements'
        | [] => if rooted then clean_elements rooted [] elements' else clean_elements rooted [".."] elements'
        end
      else clean_elements rooted (e :: stack) elements'
  end.
Definition path_Clean (p : string) : string :=
  let rooted := HasPrefix "/" p in
  let body := Join "/" (clean_elements rooted [] (Split "/" p)) in
  if rooted then "/" +:+ body else if is_empty body then "." else body.

(** [path.Base] and [path.Dir] *)
Definition path_Base (p : string) : string :=
  if is_empty p then "." else
  let p := TrimRight "/" p in
  let p := match cut_last "/" p with Some (_, after) => after | None => p end in
  if is_empty p then "/" else p.
Definition path_Dir (p : string) : string :=
  path_Clean (match cut_last "/" p with Some (before, _) => before +:+ "/" | None => EmptyString end).

(** The order of strings, by bytes. *)
Fixpoint string_less (a b : string) : bool :=
  match a, b with
  | _, EmptyString => false
  | EmptyString, String _ _ => true
  | String x a', String y b' => if same_char x y then string_less a' b' else (code_of x <? code_of y)%nat
  end.
(** [strings.Compare] *)
Definition strings_Compare (a b : string) : Z := if bool_decide (a = b) then 0 else if string_less a b then -1 else 1.

(** ** Lemmas *)

Lemma same_char_true a b : same_char a b = true <-> a = b.
Proof. unfold same_char. apply bool_decide_eq_true. Qed.
Lemma same_char_refl a : same_char a a = true.
Proof. apply same_char_true. reflexivity. Qed.
Lemma same_char_false a b : same_char a b = false <-> a <> b.
Proof. unfold same_char. apply bool_decide_eq_false. Qed.

Lemma code_of_inj a b : code_of a = code_of b -> a = b.
Proof. unfold code_of. intros H. rewrite <- (ascii_nat_embedding a), H. apply ascii_nat_embedding. Qed.

Lemma string_less_irrefl a : string_less a a = false.
Proof. induction a as [|c a IH]; [reflexivity|]. cbn. rewrite same_char_refl. exact IH. Qed.

Lemma string_less_asym a : forall b, a <> b -> string_less b a = negb (string_less a b).
Proof.
  induction a as [|x a IH]; intros [|y b] H; try reflexivity; [congruence|]. cbn [string_less].
  destruct (same_char x y) eqn:E.
  - apply same_char_true in E as ->. rewrite same_char_refl. apply IH. congruence.
  - apply same_char_false in E. destruct (same_char y x) eqn:E2; [apply same_char_true in E2; congruence|].
    pose proof (code_of_inj x y) as Hi. destruct (Nat.ltb_spec (code_of x) (code_of y)), (Nat.ltb_spec (code_of y) (code_of x)); try reflexivity; try lia.
    exfalso. apply E, Hi. lia.
Qed.

Lemma string_less_trans a : forall b c, string_less a b = true -> string_less b c = true -> string_less a c = true.
Proof.
  induction a as [|x a IH]; intros [|y b] [|z c] H1 H2; try discriminate; try reflexivity. cbn [string_less] in *.
  destruct (same_char x y) eqn:E1.
  - apply same_char_true in E1 as ->. destruct (same_char y z); [eapply IH; eassumption|exact H2].
  - destruct (same_char y z) eqn:E2.
    + apply same_char_true in E2 as <-. rewrite E1. exact H1.
    + apply Nat.ltb_lt in H1, H2. destruct (same_char x z) eqn:E3; [apply same_char_true in E3 as <-; lia|]. apply Nat.ltb_lt. lia.
Qed.

(** *** Concatenation *)

#[export] Instance string_app_assoc : Assoc (=) String.append.
Proof. intros a b c. induction a as [|x a IH]; [reflexivity|]. exact (f_equal (String x) IH). Qed.

#[export] Instance string_app_nil : RightId (=) EmptyString String.append.
Proof. intros a. induction a as [|x a IH]; [reflexivity|]. exact (f_equal (String x) IH). Qed.

Lemma all_chars_impl (p q : ascii -> bool) s : (forall c, p c = true -> q c = true) -> all_chars p s = true -> all_chars q s = true.
Proof. intros H. induction s as [|c s IH]; [auto|]. cbn [all_chars]. rewrite !andb_true_iff. intros [H1 H2]. auto. Qed.

Lemma all_chars_app p s t : all_chars p (s +:+ t) = all_chars p s && all_chars p t.
Proof. induction s as [|c s IH]; [reflexivity|]. change (p c && all_chars p (s +:+ t) = (p c && all_chars p s) && all_chars p t). rewrite IH. apply andb_assoc. Qed.

(** *** Suffixes *)

Lemma append_length (s t : string) : String.length (s +:+ t) = (String.length s + String.length t)%nat.
Proof. induction s as [|c s IH]; [reflexivity|]. exact (f_equal S IH). Qed.

Lemma CutSuffix_app p t : CutSuffix p (t +:+ p) = Some t.
Proof.
  induction t as [|c t IH].
  - change (EmptyString +:+ p) with p. destruct p; cbn [CutSuffix]; rewrite bool_decide_true by reflexivity; reflexivity.
  - change (String c t +:+ p) with (String c (t +:+ p)). cbn [CutSuffix]. rewrite bool_decide_false, IH; [reflexivity|].
    intros E. apply (f_equal String.length) in E. cbn in E. rewrite append_length in E. lia.
Qed.

Lemma TrimSuffix_app p t : TrimSuffix p (t +:+ p) = t.
Proof. unfold TrimSuffix. rewrite CutSuffix_app. reflexivity. Qed.

Lemma HasSuffix_app p t : HasSuffix p (t +:+ p) = true.
Proof. unfold HasSuffix. rewrite CutSuffix_app. reflexivity. Qed.

Lemma CutSuffix_spec p s : forall t, CutSuffix p s = Some t -> s = t +:+ p.
Proof.
  induction s as [|c s IH]; intros t; cbn [CutSuffix]; case_bool_decide as E.
  - intros [= <-]. exact E.
  - discriminate.
  - intros [= <-]. exact E.
  - destruct (CutSuffix p s) as [u|]; [|discriminate]. intros [= <-]. rewrite (IH u eq_refl). reflexivity.
Qed.

(** A character that the text does not have ends no suffix. *)
Lemma HasSuffix_false (p : ascii -> bool) c q s : p c = false -> all_chars p s = true -> HasSuffix (q +:+ String c EmptyString) s = false.
Proof.
  intros Hc Hs. unfold HasSuffix. destruct (CutSuffix _ s) as [t|] eqn:E; [|reflexivity]. apply CutSuffix_spec in E. subst s.
  rewrite !all_chars_app in Hs. cbn [all_chars] in Hs. rewrite Hc, !andb_false_r in Hs. discriminate.
Qed.

Lemma Contains_false (p : ascii -> bool) c s : p c = false -> all_chars p s = true -> Contains c s = false.
Proof.
  intros Hc. unfold Contains. induction s as [|d s IH]; [reflexivity|]. cbn [all_chars any_char]. rewrite andb_true_iff. intros [H1 H2].
  rewrite (IH H2), orb_false_r. apply same_char_false. congruence.
Qed.

Lemma Contains_app c s t : Contains c (s +:+ t) = Contains c s || Contains c t.
Proof. unfold Contains. induction s as [|d s IH]; [reflexivity|]. change (same_char c d || any_char (same_char c) (s +:+ t) = (same_char c d || any_char (same_char c) s) || any_char (same_char c) t). rewrite IH. apply orb_assoc. Qed.

(** *** Atoms *)

Lemma CutPrefix_app p s : CutPrefix p (p +:+ s) = Some s.
Proof. induction p as [|c p IH]; [destruct s; reflexivity|]. change (String c p +:+ s) with (String c (p +:+ s)). cbn [CutPrefix]. rewrite same_char_refl. exact IH. Qed.

Lemma trim_plain (s : string) : all_chars (fun c => negb (space_char c)) s = true -> TrimSpace s = s.
Proof.
  intros H. assert (Hr : forall s, all_chars (fun c => negb (space_char c)) s = true -> trim_right space_char s = s).
  { clear. induction s as [|c s IH]; [reflexivity|]. cbn [all_chars trim_right]. rewrite andb_true_iff. intros [H1 H2]. apply negb_true_iff in H1.
    cbv zeta. rewrite IH by exact H2. rewrite H1, andb_false_r. reflexivity. }
  unfold TrimSpace. destruct s as [|c s]; [reflexivity|]. cbn [trim_left]. pose proof H as H'. cbn [all_chars] in H'. apply andb_true_iff in H' as [H1 _].
  apply negb_true_iff in H1. rewrite H1. apply Hr, H.
Qed.
