(* ===== verification/Versions.v ===== *)
(** * Conda versions (src/x/tool/conda/version.go)

    Parsing a version into components of atoms, and their order: components
    are compared from the left, a missing one counts as zeros, so [1.1] and
    [1.1.0] are equal.  The file proves that the order is a total preorder
    whose equality is equality at every position. *)
From Stdlib Require Import ZArith Lia Ascii.
From stdpp Require Import base numbers option list strings.
From S2P Require Import Prelude Strings.

Local Open Scope Z_scope.

(** ** Atoms *)

(** Go's int, 64 bits. *)
Definition int64 (z : Z) : Z := (z + 9223372036854775808) mod 18446744073709551616 - 9223372036854775808.

(** The kinds of an atom; a string atom has a string, a number a number. *)
Inductive atom : Type := atomString (str : string) | atomNumber (num : Z) | atomPost.

#[export] Instance atom_eq_dec : EqDecision atom.
Proof. solve_decision. Defined.

Definition fillAtom : atom := atomNumber 0.

Definition atom_equal (a b : atom) : bool :=
  match a, b with
  | atomNumber m, atomNumber n => m =? n
  | atomString s, atomString t => bool_decide (s = t)
  | atomPost, atomPost => true
  | _, _ => false
  end.

Definition atom_rank (a : atom) : Z :=
  match a with atomString _ => 0 | atomNumber _ => 1 | atomPost => 2 end.

Definition atom_less (a b : atom) : bool :=
  if atom_equal a b then false
  else if negb (atom_rank a =? atom_rank b) then atom_rank a <? atom_rank b
  else match a, b with
  | atomString s, atomString t => string_less s t
  | atomNumber m, atomNumber n => m <? n
  | _, _ => false
  end.

(** ** Parsing

    [None] is [ErrInvalidVersion], the only error. *)

Record condaVersion : Type := mkVersion { cv_original : string; cv_parts : list (list atom); cv_local : list (list atom) }.

(** [versionCheckRe] *)
Definition version_char (c : ascii) : bool :=
  bool_decide (c ∈ ["*"; "."; "+"; "!"; "_"]%char) || digit_char c || lower_char c.
Definition versionCheck (s : string) : bool := negb (is_empty s) && all_chars version_char s.

(** [versionSplitRe.FindAllString]: the runs of digits, of stars and of other
    characters. *)
Definition char_class (c : ascii) : Z := if digit_char c then 0 else if same_char c "*" then 1 else 2.
Fixpoint version_runs (s : string) : list string :=
  match s with
  | EmptyString => []
  | String c s' =>
      match version_runs s' with
      | String d p :: ps => if char_class c =? char_class d then String c (String d p) :: ps else String c EmptyString :: String d p :: ps
      | ps => String c EmptyString :: ps
      end
  end.

(** The digits of a number, which wraps as an int. *)
Fixpoint number_acc (n : Z) (s : string) : Z :=
  match s with
  | EmptyString => n
  | String c s' => number_acc (int64 (n * 10 + (Z.of_nat (code_of c) - 48))) s'
  end.

Definition parseAtom (piece : string) : atom :=
  if bool_decide (piece = "post") then atomPost
  else if bool_decide (piece = "dev") then atomString "DEV"
  else if Digits piece then atomNumber (number_acc 0 piece)
  else atomString piece.

Definition splitEpoch (version : string) : option (atom * string) :=
  match Split "!" version with
  | [rest] => Some (atomNumber 0, rest)
  | [epoch; rest] =>
      if is_empty epoch || negb (IndexFunc digit_char epoch =? 0) || negb (Digits epoch) then None
      else Some (atomNumber (number_acc 0 epoch), rest)
  | _ => None
  end.

Definition splitLocal (version : string) : option (string * list string) :=
  match Split "+" version with
  | [main] => Some (main, [])
  | [main; local] => if is_empty main then None else Some (main, Split "." (ReplaceAll "_" "." local))
  | _ => None
  end.

Definition first_is_digit (segment : string) : bool := match segment with EmptyString => false | String c _ => digit_char c end.

Fixpoint splitComponents (segments : list string) : option (list (list atom)) :=
  match segments with
  | [] => Some []
  | segment :: segments' =>
      if is_empty segment then None else
      match version_runs segment with
      | [] => None
      | pieces =>
          let atoms := map parseAtom pieces in
          let atoms := if first_is_digit segment then atoms else fillAtom :: atoms in
          cons atoms <$> splitComponents segments'
      end
  end.

(** [segments[len(segments)-1] += "_"] *)
Definition mark_last (segments : list string) : list string :=
  match last segments with
  | None => segments
  | Some s => removelast segments ++ [s +:+ "_"]
  end.

Definition splitVersion (version : string) : option (list (list atom)) :=
  if is_empty version then None
  else if HasSuffix "_" version then
    let segments := Split "." (ReplaceAll "_" "." (TrimSuffix "_" version)) in
    match segments with
    | [] => None
    | first :: _ => if is_empty first then None else splitComponents (mark_last segments)
    end
  else splitComponents (Split "." (ReplaceAll "_" "." version)).

Definition parseCondaVersion (raw : string) : option condaVersion :=
  let version := ToLower (TrimSpace raw) in
  if is_empty version then None else
  let version := if negb (versionCheck version) && Contains "-" version && negb (Contains "_" version)
                 then ReplaceAll "-" "_" version else version in
  if negb (versionCheck version) then None else
  '(epoch, rest) ← splitEpoch version;
  '(main, local) ← splitLocal rest;
  parts ← splitVersion main;
  localParts ← splitComponents local;
  Some (mkVersion version ([epoch] :: parts) localParts).

(** ** Order *)

(** The pairs at the same position; the shorter list goes on with [d]. *)
Fixpoint pad_zip {A} (d : A) (l r : list A) : list (A * A) :=
  match l, r with
  | [], _ => map (fun y => (d, y)) r
  | _, [] => map (fun x => (x, d)) l
  | x :: l', y :: r' => (x, y) :: pad_zip d l' r'
  end.

Definition compare_atom (c1 c2 : atom) : Z := if atom_equal c1 c2 then 0 else if atom_less c1 c2 then -1 else 1.

(** The first difference. *)
Fixpoint first_difference {A} (cmp : A -> A -> Z) (l : list (A * A)) : Z :=
  match l with
  | [] => 0
  | (x, y) :: l' => let c := cmp x y in if c =? 0 then first_difference cmp l' else c
  end.

Definition compare_component (a b : list atom) : Z := first_difference compare_atom (pad_zip fillAtom a b).
Definition compareParts (left right : list (list atom)) : Z := first_difference compare_component (pad_zip [] left right).

Definition version_compare (v other : condaVersion) : Z :=
  let cmp := compareParts (cv_parts v) (cv_parts other) in
  if negb (cmp =? 0) then cmp else compareParts (cv_local v) (cv_local other).
Definition version_equal (v other : condaVersion) : bool := version_compare v other =? 0.

Definition compareVersions (left right : string) : option Z :=
  a ← parseCondaVersion left;
  b ← parseCondaVersion right;
  Some (version_compare a b).

Definition partsEqual (left right : list (list atom)) : bool := compareParts left right =? 0.
Definition prefixParts (parts : list (list atom)) (n : Z) : list (list atom) :=
  if n <=? 0 then [] else if Z.of_nat (length parts) <? n then parts else take (Z.to_nat n) parts.
Definition componentPrefixEqual (left right : list atom) (n : Z) : bool :=
  if n <=? 0 then true else
  let l := if n <? Z.of_nat (length left) then take (Z.to_nat n) left else left in
  let r := if n <? Z.of_nat (length right) then take (Z.to_nat n) right else right in
  compareParts [l] [r] =? 0.

Definition hasPrefix (v other : condaVersion) : bool :=
  let local := negb (bool_decide (cv_local other = [])) in
  if local && negb (partsEqual (cv_parts v) (cv_parts other)) then false else
  let left := if local then cv_local v else cv_parts v in
  let right := if local then cv_local other else cv_parts other in
  match right with
  | [] => false
  | _ =>
      let cut := Z.of_nat (length right) - 1 in
      if negb (partsEqual (prefixParts left cut) (prefixParts right cut)) then false else
      let head := nth (Z.to_nat cut) left [] in
      let tail := nth (Z.to_nat cut) right [] in
      let inner := Z.of_nat (length tail) - 1 in
      if inner <? 0 then false
      else if negb (componentPrefixEqual head tail inner) then false else
      let c1 := nth (Z.to_nat inner) head fillAtom in
      let c2 := nth (Z.to_nat inner) tail fillAtom in
      match c2 with
      | atomString s2 => match c1 with atomString s1 => HasPrefix s2 s1 | _ => false end
      | _ => atom_equal c1 c2
      end
  end.

(** ** Comparison functions *)

(** A three-way comparison that is a total preorder. *)
Class CompareLaws {A} (cmp : A -> A -> Z) : Prop := {
  compare_refl x : cmp x x = 0;
  compare_opp x y : cmp y x = - cmp x y;
  compare_trans x y z : cmp x y <= 0 -> cmp y z <= 0 -> cmp x z <= 0
}.

Section laws.
Context {A : Type} (cmp : A -> A -> Z) {H : CompareLaws cmp}.

Lemma compare_zero_l x y z : cmp x y = 0 -> (cmp x z = 0 <-> cmp y z = 0) /\ (cmp x z < 0 <-> cmp y z < 0).
Proof using H.
  intros E. pose proof (compare_opp x y) as E'. pose proof (compare_trans x y z) as T1. pose proof (compare_trans y x z) as T2.
  pose proof (compare_trans z x y) as T3. pose proof (compare_trans z y x) as T4.
  pose proof (compare_opp x z). pose proof (compare_opp y z). lia.
Qed.

Lemma compare_lt_le x y z : cmp x y < 0 -> cmp y z <= 0 -> cmp x z < 0.
Proof using H.
  intros H1 H2. destruct (Z.lt_ge_cases (cmp x z) 0) as [|Hge]; [assumption|]. pose proof (compare_opp x z) as E.
  pose proof (compare_trans y z x H2 ltac:(lia)) as K. rewrite (compare_opp x y) in K. lia.
Qed.

(** *** Lists that go on with [d] *)

Context (d : A).
Definition lexpad (l r : list A) : Z := first_difference cmp (pad_zip d l r).

Lemma lexpad_step l r : lexpad l r = let c := cmp (hd d l) (hd d r) in if c =? 0 then lexpad (tail l) (tail r) else c.
Proof using H.
  unfold lexpad. destruct l as [|x l], r as [|y r]; cbn [pad_zip map hd tail first_difference]; try reflexivity.
  - rewrite compare_refl. reflexivity.
  - destruct l; reflexivity.
Qed.

(** Induction on lists that are at most [n] long. *)
Lemma lexpad_zero n : forall l r, (length l <= n)%nat -> (length r <= n)%nat ->
  (lexpad l r = 0 <-> forall i, cmp (nth i l d) (nth i r d) = 0).
Proof using H.
  induction n as [|n IH]; intros l r Hl Hr.
  { destruct l, r; simpl in *; try lia. split; [|reflexivity]. intros _ [|i]; apply compare_refl. }
  rewrite lexpad_step. cbv zeta. specialize (IH (tail l) (tail r)).
  assert (Hn : forall (m : list A), hd d m = nth 0 m d /\ forall i, nth i (tail m) d = nth (S i) m d).
  { intros [|x m]; [split; [reflexivity|intros [|i]; reflexivity]|auto]. }
  rewrite (proj1 (Hn l)), (proj1 (Hn r)).
  assert (Ht : lexpad (tail l) (tail r) = 0 <-> forall i, cmp (nth (S i) l d) (nth (S i) r d) = 0).
  { rewrite IH by (destruct l, r; simpl in *; lia). split; intros K i; specialize (K i); rewrite ?(proj2 (Hn l)), ?(proj2 (Hn r)) in *; exact K. }
  destruct (Z.eqb_spec (cmp (nth 0 l d) (nth 0 r d)) 0) as [E0|E0].
  - rewrite Ht. split; [intros K [|i]; auto|intros K i; apply K].
  - split; [lia|intros K; contradiction (E0 (K 0%nat))].
Qed.

Lemma lexpad_negative n : forall l r, (length l <= n)%nat -> (length r <= n)%nat ->
  (lexpad l r < 0 <-> exists i, (forall k, (k < i)%nat -> cmp (nth k l d) (nth k r d) = 0) /\ cmp (nth i l d) (nth i r d) < 0).
Proof using H.
  induction n as [|n IH]; intros l r Hl Hr.
  { destruct l, r; simpl in *; try lia. split; [intros K; cbn in K; lia|]. intros (i & _ & K). destruct i; cbn in K; rewrite compare_refl in K; lia. }
  rewrite lexpad_step. cbv zeta. specialize (IH (tail l) (tail r) ltac:(destruct l; simpl in *; lia) ltac:(destruct r; simpl in *; lia)).
  assert (Hn : forall (m : list A), hd d m = nth 0 m d /\ forall i, nth i (tail m) d = nth (S i) m d).
  { intros [|x m]; [split; [reflexivity|intros [|i]; reflexivity]|auto]. }
  rewrite (proj1 (Hn l)), (proj1 (Hn r)). destruct (Z.eqb_spec (cmp (nth 0 l d) (nth 0 r d)) 0) as [E0|E0].
  - rewrite IH. split.
    + intros (i & K1 & K2). exists (S i). rewrite (proj2 (Hn l)), (proj2 (Hn r)) in K2. split; [|exact K2].
      intros [|k] Hk; [exact E0|]. specialize (K1 k ltac:(lia)). rewrite (proj2 (Hn l)), (proj2 (Hn r)) in K1. exact K1.
    + intros ([|i] & K1 & K2); [lia|]. exists i. rewrite (proj2 (Hn l)), (proj2 (Hn r)). split; [|exact K2].
      intros k Hk. rewrite (proj2 (Hn l)), (proj2 (Hn r)). apply K1. lia.
  - split.
    + intros K. exists 0%nat. split; [lia|exact K].
    + intros ([|i] & K1 & K2); [exact K2|]. contradiction (E0 (K1 0%nat ltac:(lia))).
Qed.

#[export] Instance lexpad_laws : CompareLaws lexpad.
Proof using H.
  assert (Hopp : forall n l r, (length l <= n)%nat -> (length r <= n)%nat -> lexpad r l = - lexpad l r).
  { induction n as [|n IH]; intros l r Hl Hr; [destruct l, r; simpl in *; try lia; reflexivity|].
    rewrite (lexpad_step l), (lexpad_step r). cbv zeta. rewrite (compare_opp (hd d l) (hd d r)).
    destruct (Z.eqb_spec (cmp (hd d l) (hd d r)) 0) as [->|E0]; [apply IH; destruct l, r; simpl in *; lia|].
    destruct (Z.eqb_spec (- cmp (hd d l) (hd d r)) 0); lia. }
  assert (Htrans : forall n l r s, (length l <= n)%nat -> (length r <= n)%nat -> (length s <= n)%nat ->
    lexpad l r <= 0 -> lexpad r s <= 0 -> lexpad l s <= 0).
  { induction n as [|n IH]; intros l r s Hl Hr Hs; [destruct l, r, s; simpl in *; try lia; cbn; lia|].
    specialize (IH (tail l) (tail r) (tail s)). rewrite (lexpad_step l r), (lexpad_step r s), (lexpad_step l s). cbv zeta.
    set (x := hd d l). set (y := hd d r). set (z := hd d s).
    pose proof (compare_trans x y z) as T. pose proof (compare_lt_le x y z) as L1.
    pose proof (compare_lt_le z x y) as L2. pose proof (compare_opp x z) as O1. pose proof (compare_opp y z) as O2.
    assert (L3 : cmp x y <= 0 -> cmp y z < 0 -> cmp x z < 0).
    { intros H1 H2. destruct (Z.lt_ge_cases (cmp x z) 0) as [|Hge]; [assumption|]. assert (K : cmp z x <= 0) by lia. pose proof (compare_trans z x y K H1). lia. }
    destruct (Z.eqb_spec (cmp x y) 0), (Z.eqb_spec (cmp y z) 0), (Z.eqb_spec (cmp x z) 0); try lia.
    apply IH; destruct l, r, s; simpl in *; lia. }
  split.
  - intros l. apply (lexpad_zero (length l)); [lia|lia|]. intros i. apply compare_refl.
  - intros l r. apply (Hopp (length l + length r)%nat); lia.
  - intros l r s. apply (Htrans (length l + length r + length s)%nat); lia.
Qed.
End laws.

(** ** The order of versions *)

Lemma atom_equal_spec a b : atom_equal a b = true <-> a = b.
Proof.
  destruct a as [s|m|], b as [t|n|]; cbn; rewrite ?bool_decide_eq_true, ?Z.eqb_eq; split; congruence.
Qed.

Lemma compare_atom_zero a b : compare_atom a b = 0 <-> a = b.
Proof.
  rewrite <- atom_equal_spec. unfold compare_atom. destruct (atom_equal a b); [tauto|]. destruct (atom_less a b); split; discriminate.
Qed.

Lemma compare_atom_negative a b : compare_atom a b < 0 <-> atom_less a b = true.
Proof.
  unfold compare_atom, atom_less. destruct (atom_equal a b); [split; [lia|discriminate]|].
  destruct (negb _); [destruct (_ <? _)|destruct a, b; try destruct (string_less _ _); try destruct (_ <? _)]; split; lia || discriminate || reflexivity.
Qed.

#[export] Instance compare_atom_laws : CompareLaws compare_atom.
Proof.
  assert (Hstr : forall s t, s <> t -> string_less t s = negb (string_less s t)) by (intros s t; apply string_less_asym).
  split.
  - intros a. apply compare_atom_zero. reflexivity.
  - intros [s|m|] [t|n|]; unfold compare_atom, atom_less; cbn; try reflexivity.
    + destruct (decide (s = t)) as [->|Hne]; [rewrite !bool_decide_true by reflexivity; reflexivity|].
      rewrite !bool_decide_false by congruence. rewrite (Hstr s t Hne). destruct (string_less s t); reflexivity.
    + rewrite (Z.eqb_sym n m). destruct (Z.eqb_spec m n); [reflexivity|].
      destruct (Z.ltb_spec m n), (Z.ltb_spec n m); try reflexivity; lia.
  - intros [s|m|] [t|n|] [u|o|]; unfold compare_atom, atom_less; cbn; try lia.
    + repeat case_bool_decide; subst; try contradiction; try lia; destruct (string_less s t) eqn:E1; try lia;
        destruct (string_less t u) eqn:E2; try lia; try (rewrite (string_less_trans _ _ _ E1 E2); lia); try congruence.
    + destruct (Z.eqb_spec m n), (Z.eqb_spec n o), (Z.eqb_spec m o), (Z.ltb_spec m n), (Z.ltb_spec n o), (Z.ltb_spec m o); lia.
Qed.

#[export] Instance compare_component_laws : CompareLaws compare_component := lexpad_laws compare_atom fillAtom.
#[export] Instance compareParts_laws : CompareLaws compareParts := lexpad_laws compare_component [].

#[export] Instance version_compare_laws : CompareLaws version_compare.
Proof.
  unfold version_compare. split.
  - intros v. rewrite !compare_refl. reflexivity.
  - intros v w. rewrite (compare_opp (cv_parts v) (cv_parts w)), (compare_opp (cv_local v) (cv_local w)).
    destruct (Z.eqb_spec (compareParts (cv_parts v) (cv_parts w)) 0) as [->|]; [reflexivity|].
    destruct (Z.eqb_spec (- compareParts (cv_parts v) (cv_parts w)) 0); cbn [negb]; lia.
  - intros u v w. pose proof (compare_trans (cv_parts u) (cv_parts v) (cv_parts w)) as T1. pose proof (compare_lt_le compareParts (cv_parts u) (cv_parts v) (cv_parts w)) as L1.
    pose proof (compare_trans (cv_local u) (cv_local v) (cv_local w)) as T2.
    pose proof (compare_zero_l compareParts (cv_parts u) (cv_parts v) (cv_parts w)) as Z1.
    destruct (Z.eqb_spec (compareParts (cv_parts u) (cv_parts v)) 0), (Z.eqb_spec (compareParts (cv_parts v) (cv_parts w)) 0),
      (Z.eqb_spec (compareParts (cv_parts u) (cv_parts w)) 0); cbn [negb]; lia.
Qed.

(** *** Positions *)

(** The atom at position [j] of component [i]. *)
Definition atom_at (p : list (list atom)) (i j : nat) : atom := nth j (nth i p []) fillAtom.

Lemma component_zero a b : compare_component a b = 0 <-> forall j, nth j a fillAtom = nth j b fillAtom.
Proof.
  change (lexpad compare_atom fillAtom a b = 0 <-> forall j, nth j a fillAtom = nth j b fillAtom).
  rewrite (lexpad_zero compare_atom fillAtom (length a + length b)) by lia. split; intros K j; apply compare_atom_zero, K.
Qed.

Lemma parts_zero p q : compareParts p q = 0 <-> forall i j, atom_at p i j = atom_at q i j.
Proof.
  change (lexpad compare_component [] p q = 0 <-> forall i j, atom_at p i j = atom_at q i j).
  rewrite (lexpad_zero compare_component [] (length p + length q)) by lia. split; intros K i; apply component_zero, K.
Qed.

(** The first position where they differ, in row-major order. *)
Definition less_first (p q : list (list atom)) : Prop := exists i j,
  (forall i', (i' < i)%nat -> forall j', atom_at p i' j' = atom_at q i' j') /\
  (forall j', (j' < j)%nat -> atom_at p i j' = atom_at q i j') /\
  atom_less (atom_at p i j) (atom_at q i j) = true.

Lemma component_negative a b : compare_component a b < 0 <-> exists j,
  (forall j', (j' < j)%nat -> nth j' a fillAtom = nth j' b fillAtom) /\ atom_less (nth j a fillAtom) (nth j b fillAtom) = true.
Proof.
  change (lexpad compare_atom fillAtom a b < 0 <-> exists j,
    (forall j', (j' < j)%nat -> nth j' a fillAtom = nth j' b fillAtom) /\ atom_less (nth j a fillAtom) (nth j b fillAtom) = true).
  rewrite (lexpad_negative compare_atom fillAtom (length a + length b)) by lia.
  split; intros (j & K1 & K2); exists j; (split; [intros k Hk; apply compare_atom_zero, K1, Hk|apply compare_atom_negative, K2]).
Qed.

Lemma parts_negative p q : compareParts p q < 0 <-> less_first p q.
Proof.
  change (lexpad compare_component [] p q < 0 <-> less_first p q).
  rewrite (lexpad_negative compare_component [] (length p + length q)) by lia. unfold less_first. split.
  - intros (i & K1 & K2). apply component_negative in K2 as (j & K2 & K3). exists i, j.
    split; [intros i' Hi; apply component_zero, K1, Hi|]. split; assumption.
  - intros (i & j & K1 & K2 & K3). exists i. split; [intros i' Hi; apply component_zero, K1, Hi|]. apply component_negative. eauto.
Qed.

Lemma compare_values {A} (cmp : A -> A -> Z) l : (forall x y, cmp x y = -1 \/ cmp x y = 0 \/ cmp x y = 1) ->
  first_difference cmp l = -1 \/ first_difference cmp l = 0 \/ first_difference cmp l = 1.
Proof.
  intros Hc. induction l as [|[x y] l IH]; [auto|]. cbn [first_difference]. cbv zeta. destruct (cmp x y =? 0); auto.
Qed.

Lemma version_values v w : version_compare v w = -1 \/ version_compare v w = 0 \/ version_compare v w = 1.
Proof.
  assert (Ha : forall a b, compare_atom a b = -1 \/ compare_atom a b = 0 \/ compare_atom a b = 1).
  { intros a b. unfold compare_atom. destruct (atom_equal a b); [auto|]. destruct (atom_less a b); auto. }
  assert (Hp : forall p q, compareParts p q = -1 \/ compareParts p q = 0 \/ compareParts p q = 1).
  { intros p q. apply compare_values. intros a b. apply compare_values, Ha. }
  unfold version_compare. destruct (negb _); apply Hp.
Qed.

(** *** Prefixes *)

(** The last atom of the prefix: a string may go on. *)
Definition atom_prefix (c2 c1 : atom) : bool :=
  match c2 with
  | atomString s2 => match c1 with atomString s1 => HasPrefix s2 s1 | _ => false end
  | _ => atom_equal c1 c2
  end.

(** [left] agrees with [right] up to the last atom of [right]. *)
Definition starts_with (left right : list (list atom)) : Prop := exists cut inner,
  length right = S cut /\ length (nth cut right []) = S inner /\
  (forall i, (i < cut)%nat -> forall j, atom_at left i j = atom_at right i j) /\
  (forall j, (j < inner)%nat -> atom_at left cut j = atom_at right cut j) /\
  atom_prefix (atom_at right cut inner) (atom_at left cut inner) = true.

Lemma nth_take {A} (d : A) l : forall n i, nth i (take n l) d = if (i <? n)%nat then nth i l d else d.
Proof.
  induction l as [|x l IH]; intros n i; [rewrite take_nil; destruct i, (_ <? n)%nat; reflexivity|].
  destruct n as [|n]; [destruct i; reflexivity|]. destruct i as [|i]; [reflexivity|]. cbn [take nth]. rewrite IH. reflexivity.
Qed.

Lemma prefix_zero p q n : partsEqual (prefixParts p n) (prefixParts q n) = true <->
  forall i, Z.of_nat i < n -> forall j, atom_at p i j = atom_at q i j.
Proof.
  assert (Ht : forall l : list (list atom), prefixParts l n = take (Z.to_nat n) l).
  { intros l. unfold prefixParts. destruct (Z.leb_spec n 0); [replace (Z.to_nat n) with 0%nat by lia; reflexivity|].
    destruct (Z.ltb_spec (Z.of_nat (length l)) n); [symmetry; apply take_ge; lia|reflexivity]. }
  unfold partsEqual. rewrite !Ht, Z.eqb_eq, parts_zero. unfold atom_at. split; intros K i.
  - intros Hi j. specialize (K i j). rewrite !nth_take in K. destruct (Nat.ltb_spec i (Z.to_nat n)); [exact K|lia].
  - intros j. rewrite !nth_take. destruct (Nat.ltb_spec i (Z.to_nat n)); [apply K; lia|reflexivity].
Qed.

Lemma component_prefix_zero a b n : componentPrefixEqual a b n = true <->
  forall j, Z.of_nat j < n -> nth j a fillAtom = nth j b fillAtom.
Proof.
  unfold componentPrefixEqual. destruct (Z.leb_spec n 0) as [Hn|Hn]; [split; [intros _ j Hj; lia|auto]|].
  assert (Ht : forall l : list atom, (if n <? Z.of_nat (length l) then take (Z.to_nat n) l else l) = take (Z.to_nat n) l).
  { intros l. destruct (Z.ltb_spec n (Z.of_nat (length l))); [reflexivity|symmetry; apply take_ge; lia]. }
  rewrite !Ht, Z.eqb_eq, parts_zero. unfold atom_at. split.
  - intros K j Hj. specialize (K 0%nat j). cbn [nth] in K. rewrite !nth_take in K. destruct (Nat.ltb_spec j (Z.to_nat n)); [exact K|lia].
  - intros K [|i] j; [|destruct i; reflexivity]. cbn [nth]. rewrite !nth_take. destruct (Nat.ltb_spec j (Z.to_nat n)); [apply K; lia|reflexivity].
Qed.

Lemma hasPrefix_spec v other : hasPrefix v other = true <->
  if bool_decide (cv_local other = []) then starts_with (cv_parts v) (cv_parts other)
  else partsEqual (cv_parts v) (cv_parts other) = true /\ starts_with (cv_local v) (cv_local other).
Proof.
  unfold hasPrefix. set (local := bool_decide (cv_local other = [])). cbv zeta.
  assert (Hcore : forall left right, match right with [] => false | _ =>
      if negb (partsEqual (prefixParts left (Z.of_nat (length right) - 1)) (prefixParts right (Z.of_nat (length right) - 1))) then false else
      if Z.of_nat (length (nth (Z.to_nat (Z.of_nat (length right) - 1)) right [])) - 1 <? 0 then false
      else if negb (componentPrefixEqual (nth (Z.to_nat (Z.of_nat (length right) - 1)) left []) (nth (Z.to_nat (Z.of_nat (length right) - 1)) right [])
        (Z.of_nat (length (nth (Z.to_nat (Z.of_nat (length right) - 1)) right [])) - 1)) then false else
      atom_prefix (nth (Z.to_nat (Z.of_nat (length (nth (Z.to_nat (Z.of_nat (length right) - 1)) right [])) - 1)) (nth (Z.to_nat (Z.of_nat (length right) - 1)) right []) fillAtom)
        (nth (Z.to_nat (Z.of_nat (length (nth (Z.to_nat (Z.of_nat (length right) - 1)) right [])) - 1)) (nth (Z.to_nat (Z.of_nat (length right) - 1)) left []) fillAtom)
      end = true <-> starts_with left right).
  { intros left right. unfold starts_with. destruct right as [|r0 right0]; [split; [discriminate|intros (cut & ? & [=] & _)]|].
    set (right := r0 :: right0). set (cut := length right0).
    replace (Z.to_nat (Z.of_nat (length right) - 1)) with cut by (unfold right, cut; cbn [length]; lia).
    replace (Z.of_nat (length right) - 1) with (Z.of_nat cut) by (unfold right, cut; cbn [length]; lia).
    pose proof (prefix_zero left right (Z.of_nat cut)) as P1. destruct (partsEqual _ _); cbn [negb].
    2: { split; [discriminate|]. intros (c & i & Hc & _ & K & _). apply P1. intros k Hk. apply K. unfold right in Hc. cbn [length] in Hc. fold cut in Hc. lia. }
    destruct (Z.ltb_spec (Z.of_nat (length (nth cut right [])) - 1) 0) as [Hl|Hl].
    { split; [discriminate|]. intros (c & i & Hc & Hi & _). injection Hc as Hc. fold cut in Hc. subst c. lia. }
    set (inner := Z.to_nat (Z.of_nat (length (nth cut right [])) - 1)).
    pose proof (component_prefix_zero (nth cut left []) (nth cut right []) (Z.of_nat (length (nth cut right [])) - 1)) as P2.
    destruct (componentPrefixEqual _ _ _); cbn [negb].
    2: { split; [discriminate|]. intros (c & i & Hc & Hi & _ & K & _). injection Hc as Hc. fold cut in Hc. subst c. apply P2. intros j Hj. apply K. lia. }
    split.
    - intros K. exists cut, inner. split; [reflexivity|]. split; [unfold inner; lia|]. split; [intros i Hi; apply P1; [reflexivity|lia]|].
      split; [|exact K]. intros j Hj. unfold atom_at. apply P2; [reflexivity|unfold inner in Hj; lia].
    - intros (c & i & Hc & Hi & _ & _ & K). injection Hc as Hc. fold cut in Hc. subst c. assert (Ei : i = inner) by (unfold inner; lia). subst i. exact K. }
  destruct local; cbn [negb andb]; [apply Hcore|]. destruct (partsEqual (cv_parts v) (cv_parts other)); cbn [negb].
  - rewrite <- Hcore. tauto.
  - split; [discriminate|intros [[=] _]].
Qed.

(** *** Equal versions *)

(** Versions that compare equal are equal at every position. *)
Lemma version_zero v w : version_compare v w = 0 <->
  (forall i j, atom_at (cv_parts v) i j = atom_at (cv_parts w) i j) /\ (forall i j, atom_at (cv_local v) i j = atom_at (cv_local w) i j).
Proof.
  rewrite <- !parts_zero. unfold version_compare. destruct (Z.eqb_spec (compareParts (cv_parts v) (cv_parts w)) 0); cbn [negb]; [tauto|]. split; [contradiction|intros [? _]; contradiction].
Qed.

Lemma starts_with_equal p q right : (forall i j, atom_at p i j = atom_at q i j) -> starts_with p right <-> starts_with q right.
Proof.
  intros E. unfold starts_with. split; intros (c & i & H1 & H2 & H3 & H4 & H5); exists c, i; (split; [exact H1|]); (split; [exact H2|]).
  - split; [intros; rewrite <- E; auto|]. split; [intros; rewrite <- E; auto|]. rewrite <- E. exact H5.
  - split; [intros; rewrite E; auto|]. split; [intros; rewrite E; auto|]. rewrite E. exact H5.
Qed.

Lemma hasPrefix_equal v w other : version_compare v w = 0 -> hasPrefix v other = hasPrefix w other.
Proof.
  intros E. apply version_zero in E as [E1 E2]. apply eq_true_iff_eq. rewrite !hasPrefix_spec.
  destruct (bool_decide _); [apply starts_with_equal, E1|]. rewrite (starts_with_equal _ _ _ E2). unfold partsEqual. rewrite !Z.eqb_eq, !parts_zero.
  split; intros [K1 K2]; (split; [|exact K2]); intros i j; [rewrite <- E1|rewrite E1]; apply K1.
Qed.

(** *** Numbers *)

(** The number that digits spell, after [acc]. *)
Fixpoint digits_value (acc : Z) (s : string) : Z :=
  match s with EmptyString => acc | String c s' => digits_value (acc * 10 + (Z.of_nat (code_of c) - 48)) s' end.

Lemma int64_range z : - 9223372036854775808 <= int64 z < 9223372036854775808.
Proof. unfold int64. pose proof (Z.mod_pos_bound (z + 9223372036854775808) 18446744073709551616 ltac:(lia)). lia. Qed.

Lemma int64_small z : - 9223372036854775808 <= z < 9223372036854775808 -> int64 z = z.
Proof. intros H. unfold int64. rewrite Z.mod_small by lia. lia. Qed.

Lemma int64_step b d : int64 (int64 b * 10 + d) = int64 (b * 10 + d).
Proof.
  unfold int64. f_equal. set (m := 18446744073709551616). pose proof (Z.div_mod (b + 9223372036854775808) m ltac:(unfold m; lia)) as E.
  replace (((b + 9223372036854775808) mod m - 9223372036854775808) * 10 + d + 9223372036854775808)
    with ((b * 10 + d + 9223372036854775808) + (- ((b + 9223372036854775808) / m * 10)) * m) by lia.
  apply Z.mod_add. unfold m. lia.
Qed.

Lemma number_acc_value s : forall b, number_acc (int64 b) s = int64 (digits_value b s).
Proof.
  induction s as [|c s IH]; intros b; [reflexivity|]. cbn [number_acc digits_value]. rewrite int64_step. apply IH.
Qed.

Lemma digits_value_nonneg s : forall b, 0 <= b -> all_chars digit_char s = true -> 0 <= digits_value b s.
Proof.
  induction s as [|c s IH]; intros b Hb; [intros _; exact Hb|]. cbn [all_chars digits_value]. rewrite andb_true_iff. intros [Hc Hs].
  apply IH; [|exact Hs]. unfold digit_char in Hc. apply andb_true_iff in Hc as [H1 _]. apply Nat.leb_le in H1. lia.
Qed.
