(* ===== verification/Formulas.v ===== *)
(** * Formulas of version constraints (src/x/tool/conda/match.go)

    A constraint as a formula of comparisons, and its text.  The file proves
    that the tokenizer and the parser of Specs.v read the text of a formula as
    an expression with the meaning of the formula, that globs match what their
    stars stand for, and that equal versions satisfy the same formulas. *)
From Stdlib Require Import ZArith Lia Ascii.
From stdpp Require Import base numbers option list strings.
From S2P Require Import Prelude Strings Versions Specs.

Local Open Scope Z_scope.

(** ** Formulas of comparisons *)

(** A constraint: a comparison with a version, the version itself, what starts
    with it, what does not, all of, any of. *)
Inductive formula : Type :=
| FBound (op bound : string)
| FExact (bound : string)
| FPrefix (bound : string)
| FNotPrefix (bound : string)
| FAll (f g : formula)
| FAny (f g : formula).

(** What [v] and the version [bound] satisfy. *)
Definition bound_holds (p : condaVersion -> bool) (bound : string) : bool :=
  match parseCondaVersion bound with Some b => p b | None => false end.
Fixpoint holds (f : formula) (v : condaVersion) : bool :=
  match f with
  | FBound op bound => bound_holds (fun b => compare_match op b v) bound
  | FExact bound => bound_holds (version_equal v) bound
  | FPrefix bound => bound_holds (hasPrefix v) bound
  | FNotPrefix bound => bound_holds (fun b => negb (hasPrefix v b)) bound
  | FAll f g => holds f v && holds g v
  | FAny f g => holds f v || holds g v
  end.

(** The tokens of a formula; [level] 0 allows [|], 1 allows [,]. *)
Fixpoint formula_tokens (f : formula) (level : nat) : list string :=
  match f with
  | FBound op bound => [op +:+ bound]
  | FExact bound => [bound]
  | FPrefix bound => [bound +:+ ".*"]
  | FNotPrefix bound => ["!=" +:+ bound +:+ ".*"]
  | FAll f g =>
      let body := formula_tokens f 1 ++ [","] ++ formula_tokens g 1 in
      if (level <=? 1)%nat then body else ["("] ++ body ++ [")"]
  | FAny f g =>
      let body := formula_tokens f 0 ++ ["|"] ++ formula_tokens g 0 in
      if (level <=? 0)%nat then body else ["("] ++ body ++ [")"]
  end.
Fixpoint glue_tokens (l : list string) : string := match l with [] => EmptyString | t :: l' => t +:+ glue_tokens l' end.
Definition formula_text (f : formula) : string := glue_tokens (formula_tokens f 0).

(** A bound is a version without stars; an epoch's mark is not its first
    character. *)
Definition bound_char (c : ascii) : bool :=
  digit_char c || lower_char c || upper_char c || bool_decide (c ∈ ["."; "+"; "!"; "_"; "-"]%char).
Definition bound_ok (bound : string) : bool :=
  all_chars bound_char bound && match bound with EmptyString => false | String c _ => negb (operator_char c) end &&
  match parseCondaVersion bound with Some _ => true | None => false end.
Fixpoint formula_ok (f : formula) : bool :=
  match f with
  | FBound op bound => bool_decide (op ∈ operators) && bound_ok bound
  | FExact bound | FPrefix bound | FNotPrefix bound => bound_ok bound
  | FAll f g | FAny f g => formula_ok f && formula_ok g
  end.

(** *** Tokens *)

Definition token_char (c : ascii) : bool := negb (blank_char c) && negb (spec_symbol c).

Lemma tokenize_plain t : forall b s, all_chars token_char t = true -> tokenize b (t +:+ s) = tokenize (b +:+ t) s.
Proof.
  induction t as [|c t IH]; intros b s Ht; [rewrite (right_id EmptyString String.append); reflexivity|].
  cbn [all_chars] in Ht. apply andb_true_iff in Ht as [Hc Ht]. unfold token_char in Hc. apply andb_true_iff in Hc as [H1 H2].
  apply negb_true_iff in H1, H2. change (String c t +:+ s) with (String c (t +:+ s)). cbn [tokenize]. rewrite H1, H2, IH by exact Ht.
  rewrite <- (assoc String.append). reflexivity.
Qed.

(** The text ends, or a symbol follows. *)
Definition token_stop (s : string) : bool := match s with EmptyString => true | String c _ => spec_symbol c end.

Lemma symbol_not_blank c : spec_symbol c = true -> blank_char c = false.
Proof.
  unfold spec_symbol, blank_char. rewrite bool_decide_eq_true. intros H. apply bool_decide_eq_false.
  repeat (apply elem_of_cons in H as [->|H]; [intros Hin; repeat (apply elem_of_cons in Hin as [Hin|Hin]; [discriminate Hin|]); inversion Hin|]). inversion H.
Qed.

Lemma tokenize_word t s : t <> EmptyString -> all_chars token_char t = true -> token_stop s = true ->
  tokenize EmptyString (t +:+ s) = t :: tokenize EmptyString s.
Proof.
  intros Hne Ht Hs. rewrite tokenize_plain by exact Ht. change (EmptyString +:+ t) with t. destruct t as [|x t]; [contradiction|].
  destruct s as [|c s]; [reflexivity|]. cbn [token_stop] in Hs. cbn [tokenize]. rewrite (symbol_not_blank c Hs), Hs. reflexivity.
Qed.

Lemma tokenize_symbol c s : spec_symbol c = true -> tokenize EmptyString (String c s) = String c EmptyString :: tokenize EmptyString s.
Proof. intros Hc. cbn [tokenize]. rewrite (symbol_not_blank c Hc), Hc. reflexivity. Qed.

Lemma spec_glue_app a b : glue_tokens (a ++ b) = glue_tokens a +:+ glue_tokens b.
Proof. induction a as [|t a IH]; [reflexivity|]. cbn [app glue_tokens]. rewrite IH, (assoc String.append). reflexivity. Qed.

Lemma bound_token c : bound_char c = true -> token_char c = true /\ c <> "*"%char /\ c <> "$"%char /\ c <> "^"%char.
Proof.
  intros H. split; [|repeat split; intros ->; discriminate H].
  revert H. destruct c as [[] [] [] [] [] [] [] []]; vm_compute; auto.
Qed.

Lemma operator_tokens op : op ∈ operators -> all_chars token_char op = true /\ op <> EmptyString.
Proof. intros H. repeat (apply elem_of_cons in H as [->|H]; [split; [reflexivity|discriminate]|]). inversion H. Qed.

(** What a bound gives. *)
Lemma bound_facts bound : bound_ok bound = true ->
  all_chars bound_char bound = true /\ (exists b, parseCondaVersion bound = Some b) /\
  exists c rest, bound = String c rest /\ operator_char c = false.
Proof.
  unfold bound_ok. rewrite !andb_true_iff. intros [[H1 H2] H3]. split; [exact H1|]. split; [destruct (parseCondaVersion bound); [eauto|discriminate]|].
  destruct bound as [|c rest]; [discriminate|]. exists c, rest. split; [reflexivity|]. destruct (operator_char c); [discriminate|reflexivity].
Qed.

Definition word_ok (t : string) : Prop := all_chars token_char t = true /\ t <> EmptyString.

Lemma bound_word bound : bound_ok bound = true -> word_ok bound.
Proof.
  intros H. destruct (bound_facts bound H) as (H1 & _ & c & rest & E & _). split; [|subst; discriminate].
  revert H1. apply all_chars_impl. intros c' Hc. apply (bound_token c' Hc).
Qed.

Lemma spec_word_app s t : all_chars token_char s = true -> word_ok t -> word_ok (s +:+ t).
Proof. intros H [H1 H2]. split; [rewrite all_chars_app, H; exact H1|]. destruct s; [exact H2|discriminate]. Qed.
Lemma app_word s t : word_ok s -> all_chars token_char t = true -> word_ok (s +:+ t).
Proof. intros [H1 H2] H. split; [rewrite all_chars_app, H1; exact H|]. destruct s; [contradiction|discriminate]. Qed.

(** The tokens of the text of a formula. *)
Lemma tokenize_formula f : forall level s, formula_ok f = true -> token_stop s = true ->
  tokenize EmptyString (glue_tokens (formula_tokens f level) +:+ s) = formula_tokens f level ++ tokenize EmptyString s.
Proof.
  assert (Hparen : forall l s, token_stop s = true ->
    (forall s, token_stop s = true -> tokenize EmptyString (glue_tokens l +:+ s) = l ++ tokenize EmptyString s) ->
    tokenize EmptyString (glue_tokens (["("] ++ l ++ [")"]) +:+ s) = (["("] ++ l ++ [")"]) ++ tokenize EmptyString s).
  { intros l s Hs Hl. rewrite !spec_glue_app, <- !(assoc String.append), <- !app_assoc.
    change (glue_tokens ["("] +:+ ?x) with (String "(" x). rewrite tokenize_symbol by reflexivity. cbn [app]. f_equal.
    change (glue_tokens [")"] +:+ s) with (String ")" s). rewrite Hl by reflexivity. rewrite tokenize_symbol by reflexivity. reflexivity. }
  assert (Hinfix : forall (a b : list string) c s, spec_symbol c = true -> token_stop s = true ->
    (forall s, token_stop s = true -> tokenize EmptyString (glue_tokens a +:+ s) = a ++ tokenize EmptyString s) ->
    (forall s, token_stop s = true -> tokenize EmptyString (glue_tokens b +:+ s) = b ++ tokenize EmptyString s) ->
    tokenize EmptyString (glue_tokens (a ++ [String c EmptyString] ++ b) +:+ s) = (a ++ [String c EmptyString] ++ b) ++ tokenize EmptyString s).
  { intros a b c s Hc Hs Ha Hb. rewrite !spec_glue_app, <- !(assoc String.append), <- !app_assoc.
    change (glue_tokens [String c EmptyString] +:+ ?x) with (String c x). rewrite Ha by exact Hc. f_equal.
    rewrite tokenize_symbol by exact Hc. cbn [app]. f_equal. apply Hb, Hs. }
  assert (Hword : forall t s, word_ok t -> token_stop s = true -> tokenize EmptyString (glue_tokens [t] +:+ s) = [t] ++ tokenize EmptyString s).
  { intros t s [H1 H2] Hs. cbn [glue_tokens]. rewrite (right_id EmptyString String.append). apply tokenize_word; assumption. }
  induction f as [op bound|bound|bound|bound|f IHf g IHg|f IHf g IHg]; intros level s Hok Hs; cbn [formula_ok] in Hok; rewrite ?andb_true_iff in Hok; cbn [formula_tokens].
  - destruct Hok as [Hop Hb]. apply bool_decide_eq_true in Hop. apply Hword; [|exact Hs]. apply spec_word_app; [apply operator_tokens, Hop|apply bound_word, Hb].
  - apply Hword; [apply bound_word, Hok|exact Hs].
  - apply Hword; [apply app_word; [apply bound_word, Hok|reflexivity]|exact Hs].
  - apply Hword; [apply spec_word_app; [reflexivity|]; apply app_word; [apply bound_word, Hok|reflexivity]|exact Hs].
  - assert (Hbody : forall s, token_stop s = true -> tokenize EmptyString (glue_tokens (formula_tokens f 1 ++ [","] ++ formula_tokens g 1) +:+ s) =
      (formula_tokens f 1 ++ [","] ++ formula_tokens g 1) ++ tokenize EmptyString s).
    { intros s' Hs'. apply Hinfix; [reflexivity|exact Hs'|intros; apply IHf; tauto|intros; apply IHg; tauto]. }
    cbv zeta. destruct (level <=? 1)%nat; [apply Hbody, Hs|apply Hparen; assumption].
  - assert (Hbody : forall s, token_stop s = true -> tokenize EmptyString (glue_tokens (formula_tokens f 0 ++ ["|"] ++ formula_tokens g 0) +:+ s) =
      (formula_tokens f 0 ++ ["|"] ++ formula_tokens g 0) ++ tokenize EmptyString s).
    { intros s' Hs'. apply Hinfix; [reflexivity|exact Hs'|intros; apply IHf; tauto|intros; apply IHg; tauto]. }
    cbv zeta. destruct (level <=? 0)%nat; [apply Hbody, Hs|apply Hparen; assumption].
Qed.

Lemma tokenize_text f : formula_ok f = true -> tokenizeVersion (formula_text f) = formula_tokens f 0.
Proof.
  intros H. pose proof (tokenize_formula f 0 EmptyString H eq_refl) as K. rewrite (right_id EmptyString String.append) in K.
  unfold tokenizeVersion, formula_text. rewrite K. cbn. apply app_nil_r.
Qed.

(** Comparisons of given characters. *)
Ltac closed_chars :=
  repeat match goal with
  | |- context [same_char ?a ?b] =>
      let r := eval vm_compute in (same_char a b) in
      match r with true => change (same_char a b) with true | false => change (same_char a b) with false end; cbv iota
  | |- context [operator_char ?a] =>
      let r := eval vm_compute in (operator_char a) in
      match r with true => change (operator_char a) with true | false => change (operator_char a) with false end; cbv iota
  end.

(** An operator in front of what is not an operator character is that
    operator. *)
Lemma cut_bound op c rest : op ∈ operators -> operator_char c = false -> cutOperator (op +:+ String c rest) = Some (op, String c rest).
Proof.
  intros Hop Hc. assert (E1 : same_char "=" c = false) by (apply same_char_false; intros <-; discriminate Hc).
  unfold operators in Hop. unfold cutOperator, operators.
  repeat (apply elem_of_cons in Hop as [->|Hop]; [unfold String.append; solve [repeat (cbn [cut_first CutPrefix]; rewrite ?E1, ?Hc; closed_chars); reflexivity]|]).
  inversion Hop.
Qed.

Lemma cut_plain c rest : operator_char c = false -> cutOperator (String c rest) = None.
Proof.
  intros Hc. assert (Hno : forall d, operator_char d = true -> same_char d c = false).
  { intros d Hd. apply same_char_false. congruence. }
  unfold cutOperator, operators. cbn [cut_first CutPrefix]. rewrite !Hno by reflexivity. reflexivity.
Qed.

Section reading.
Context {R : Regexp}.

(** The parser [p] reads the tokens as the formula, in front of nothing or of
    one of [closers]. *)
Definition reads (p : parser) (closers : list string) (tokens : list string) (f : formula) : Prop :=
  forall rest, match rest with [] => True | t :: _ => t ∈ closers end ->
  exists e, p (tokens ++ rest) = Some (e, rest) /\ forall v, expr_match e v = holds f v.

(** A token that is no regular expression and not the star. *)
Definition plain_token (token : string) : Prop :=
  bool_decide (token = "*") = false /\ HasPrefix "^" token || HasSuffix "$" token = false.

Lemma plain_bound pre bound suffix : (pre = EmptyString \/ pre ∈ operators) -> (suffix = EmptyString \/ suffix = ".*") ->
  bound_ok bound = true -> plain_token (pre +:+ bound +:+ suffix).
Proof using.
  intros Hpre Hsuf Hb. destruct (bound_facts bound Hb) as (Hc & _ & c & rest & E & Hop).
  set (p := fun c => negb (same_char "$" c) && negb (same_char "^" c)).
  assert (Hp : all_chars p (pre +:+ bound +:+ suffix) = true).
  { rewrite !all_chars_app, !andb_true_iff. split; [|split].
    - destruct Hpre as [->|H]; [reflexivity|]. unfold operators in H. repeat (apply elem_of_cons in H as [->|H]; [reflexivity|]). inversion H.
    - revert Hc. apply all_chars_impl. intros d Hd. destruct (bound_token d Hd) as (_ & _ & H1 & H2). unfold p.
      apply andb_true_iff. split; apply negb_true_iff, same_char_false; congruence.
    - destruct Hsuf as [->| ->]; reflexivity. }
  split.
  - apply bool_decide_eq_false. intros K. assert (Hl : String.length (pre +:+ bound +:+ suffix) = 1%nat) by (rewrite K; reflexivity).
    rewrite !append_length in Hl. subst bound. cbn [String.length] in Hl. destruct pre; [|cbn in Hl; lia].
    change (EmptyString +:+ ?x) with x in K. injection K as -> _. discriminate Hc.
  - apply orb_false_iff. split.
    + unfold HasPrefix. destruct (pre +:+ bound +:+ suffix) as [|d s]; [reflexivity|]. cbn [all_chars] in Hp. apply andb_true_iff in Hp as [Hd _].
      unfold p in Hd. apply andb_true_iff in Hd as [_ Hd]. apply negb_true_iff in Hd. cbn [CutPrefix]. rewrite Hd. reflexivity.
    + apply (HasSuffix_false p "$"%char EmptyString); [reflexivity|exact Hp].
Qed.

Lemma bound_no_star bound : bound_ok bound = true -> HasSuffix ".*" bound = false /\ Contains "*" bound = false /\ HasSuffix "*" bound = false.
Proof using.
  intros Hb. destruct (bound_facts bound Hb) as (Hc & _). split; [|split].
  - apply (HasSuffix_false bound_char "*"%char "."); [reflexivity|exact Hc].
  - apply (Contains_false bound_char); [reflexivity|exact Hc].
  - apply (HasSuffix_false bound_char "*"%char EmptyString); [reflexivity|exact Hc].
Qed.

Lemma spec_atom_reads f : formula_ok f = true -> match f with FAll _ _ | FAny _ _ => False | _ => True end ->
  exists t e, formula_tokens f 2 = [t] /\ t <> "(" /\ parseVersionAtom t = Some e /\ forall v, expr_match e v = holds f v.
Proof using.
  assert (Happ : forall s : string, s +:+ EmptyString = s) by (intros; apply (right_id EmptyString String.append)).
  assert (Hne : "!=" ∈ operators) by (apply (bool_decide_eq_true_1 _); reflexivity).
  destruct f as [op bound|bound|bound|bound| |]; intros Hok Hleaf; try contradiction; cbn [formula_ok] in Hok; cbn [formula_tokens holds].
  - apply andb_true_iff in Hok as [Hop Hb]. apply bool_decide_eq_true in Hop.
    destruct (bound_no_star bound Hb) as (S1 & _). pose proof (plain_bound op bound EmptyString (or_intror Hop) (or_introl eq_refl) Hb) as [P1 P2].
    rewrite Happ in P1, P2. destruct (bound_facts bound Hb) as (_ & (b & Eb) & c & rest & -> & Hc).
    exists (op +:+ String c rest), (compareExpr op b). split; [reflexivity|]. split; [|split].
    + intros K. unfold operators in Hop. repeat (apply elem_of_cons in Hop as [->|Hop]; [discriminate K|]). inversion Hop.
    + unfold parseVersionAtom. rewrite P1, P2, cut_bound by assumption. unfold normalizeDotStar. rewrite S1. cbn. rewrite Eb. reflexivity.
    + intros v. unfold bound_holds. rewrite Eb. reflexivity.
  - destruct (bound_no_star bound Hok) as (_ & S2 & S3). pose proof (plain_bound EmptyString bound EmptyString (or_introl eq_refl) (or_introl eq_refl) Hok) as [P1 P2].
    rewrite Happ in P1, P2. change (EmptyString +:+ bound) with bound in P1, P2. destruct (bound_facts bound Hok) as (_ & (b & Eb) & c & rest & -> & Hc).
    exists (String c rest), (compareExpr "==" b). split; [reflexivity|]. split; [intros [= -> _]; discriminate P1 || (cbn in Hok; discriminate Hok)|]. split.
    + unfold parseVersionAtom. rewrite P1, P2, cut_plain, S2, S3, Eb by assumption. reflexivity.
    + intros v. unfold bound_holds. rewrite Eb. reflexivity.
  - pose proof (plain_bound EmptyString bound ".*" (or_introl eq_refl) (or_intror eq_refl) Hok) as [P1 P2].
    change (EmptyString +:+ ?x) with x in P1, P2. pose proof (bound_facts bound Hok) as (_ & (b & Eb) & c & rest & E & Hc).
    assert (Es : bound +:+ ".*" = (bound +:+ ".") +:+ "*") by (rewrite <- (assoc String.append); reflexivity).
    exists (bound +:+ ".*"), (compareExpr "=" b). split; [reflexivity|]. split; [intros K; subst bound; injection K as -> K; discriminate Hok|]. split.
    + unfold parseVersionAtom. rewrite P1, P2. replace (cutOperator (bound +:+ ".*")) with (@None (string * string)) by (subst bound; symmetry; apply (cut_plain c), Hc).
      rewrite Contains_app, orb_true_r, Es, HasSuffix_app, !TrimSuffix_app, Eb. reflexivity.
    + intros v. unfold bound_holds. rewrite Eb. reflexivity.
  - pose proof (plain_bound "!=" bound ".*" (or_intror Hne) (or_intror eq_refl) Hok) as [P1 P2].
    pose proof (bound_facts bound Hok) as (_ & (b & Eb) & c & rest & E & Hc).
    exists ("!=" +:+ bound +:+ ".*"), (compareExpr "!=startswith" b). split; [reflexivity|]. split; [discriminate|]. split.
    + unfold parseVersionAtom. rewrite P1, P2. replace (cutOperator ("!=" +:+ bound +:+ ".*")) with (Some ("!=", bound +:+ ".*")).
      * unfold normalizeDotStar. rewrite HasSuffix_app, TrimSuffix_app, bool_decide_true by reflexivity. cbn [negb]. rewrite Eb. reflexivity.
      * subst bound. symmetry. apply (cut_bound "!=" c (rest +:+ ".*")); [exact Hne|exact Hc].
    + intros v. unfold bound_holds. rewrite Eb. reflexivity.
Qed.

(** *** Operands *)

(** The formulas between the separators at the outermost level. *)
Fixpoint all_of (f : formula) : list formula := match f with FAll f g => all_of f ++ all_of g | _ => [f] end.
Fixpoint any_of (f : formula) : list formula := match f with FAny f g => any_of f ++ any_of g | _ => [f] end.

Fixpoint join_tokens (sep : string) (l : list (list string)) : list string :=
  match l with
  | [] => []
  | [x] => x
  | x :: l' => x ++ sep :: join_tokens sep l'
  end.

Lemma join_app sep a b : a <> [] -> b <> [] -> join_tokens sep (a ++ b) = join_tokens sep a ++ sep :: join_tokens sep b.
Proof using.
  intros Ha Hb. induction a as [|x a IH]; [contradiction|]. destruct a as [|y a].
  - cbn [app]. destruct b; [contradiction|reflexivity].
  - transitivity (x ++ sep :: join_tokens sep ((y :: a) ++ b)); [reflexivity|]. rewrite IH by discriminate.
    transitivity ((x ++ sep :: join_tokens sep (y :: a)) ++ sep :: join_tokens sep b); [|reflexivity].
    rewrite <- app_assoc. reflexivity.
Qed.

Lemma all_of_some f : all_of f <> [].
Proof using. induction f; cbn; try discriminate. intros K. apply app_eq_nil in K as [K _]. auto. Qed.
Lemma any_of_some f : any_of f <> [].
Proof using. induction f; cbn; try discriminate. intros K. apply app_eq_nil in K as [K _]. auto. Qed.

Lemma tokens_all f : formula_tokens f 1 = join_tokens "," (map (fun g => formula_tokens g 2) (all_of f)).
Proof using.
  induction f as [| | | |f IHf g IHg|]; try reflexivity. cbn [all_of]. rewrite map_app, join_app by (intros K; apply map_eq_nil in K; revert K; apply all_of_some).
  rewrite <- IHf, <- IHg. reflexivity.
Qed.
Lemma tokens_any f : formula_tokens f 0 = join_tokens "|" (map (fun g => formula_tokens g 1) (any_of f)).
Proof using.
  induction f as [| | | | |f IHf g IHg]; try reflexivity. cbn [any_of]. rewrite map_app, join_app by (intros K; apply map_eq_nil in K; revert K; apply any_of_some).
  rewrite <- IHf, <- IHg. reflexivity.
Qed.

Lemma holds_all f v : holds f v = forallb (fun g => holds g v) (all_of f).
Proof using.
  induction f as [| | | |f IHf g IHg|]; cbn [all_of]; try (cbn; rewrite andb_true_r; reflexivity). rewrite forallb_app, <- IHf, <- IHg. reflexivity.
Qed.
Lemma holds_any f v : holds f v = existsb (fun g => holds g v) (any_of f).
Proof using.
  induction f as [| | | | |f IHf g IHg]; cbn [any_of]; try (cbn; rewrite orb_false_r; reflexivity). rewrite existsb_app, <- IHf, <- IHg. reflexivity.
Qed.

Lemma ok_all f : formula_ok f = true -> Forall (fun g => formula_ok g = true) (all_of f).
Proof using.
  induction f as [| | | |f IHf g IHg|]; intros H; try (cbn [all_of]; apply Forall_singleton; exact H).
  cbn in H. apply andb_true_iff in H as [H1 H2]. cbn [all_of]. apply Forall_app. auto.
Qed.
Lemma ok_any f : formula_ok f = true -> Forall (fun g => formula_ok g = true) (any_of f).
Proof using.
  induction f as [| | | | |f IHf g IHg]; intros H; try (cbn [any_of]; apply Forall_singleton; exact H).
  cbn in H. apply andb_true_iff in H as [H1 H2]. cbn [any_of]. apply Forall_app. auto.
Qed.

Lemma tokens_some f level : (0 < length (formula_tokens f level))%nat.
Proof using.
  destruct f; cbn [formula_tokens]; cbv zeta; try (cbn; lia); destruct (level <=? _)%nat; rewrite ?length_app; cbn [length]; lia.
Qed.

(** An operand is no longer than the list, nor are there more of them. *)
Lemma join_length sep l : Forall (fun x => (0 < length x)%nat) l ->
  (length l <= length (join_tokens sep l))%nat /\ Forall (fun x => (length x <= length (join_tokens sep l))%nat) l.
Proof using.
  induction l as [|x l IH]; intros H; [split; [cbn; lia|constructor]|]. inversion H as [|? ? Hx Hl]; subst. specialize (IH Hl) as [I1 I2].
  destruct l as [|y l]; [cbn [join_tokens length]; split; [lia|repeat constructor; lia]|].
  change (join_tokens sep (x :: y :: l)) with (x ++ sep :: join_tokens sep (y :: l)). rewrite length_app. cbn [length] in *.
  split; [lia|]. constructor; [lia|]. apply (Forall_impl _ _ _ I2). cbn. lia.
Qed.

(** *** The loop over operands *)

Lemma loop_reads sep lower join closers toks gs : sep ∉ closers ->
  Forall2 (fun t g => reads lower (sep :: closers) t g) toks gs ->
  forall n parts rest, (length gs < n)%nat -> match rest with [] => True | t :: _ => t ∈ closers end ->
  exists es, binary_loop n sep lower join parts (concat (map (cons sep) toks) ++ rest) = Some (join (parts ++ es), rest) /\
    Forall2 (fun e g => forall v, expr_match e v = holds g v) es gs.
Proof using.
  intros Hsep H. induction H as [|t g toks gs Hg H IH]; intros [|n] parts rest Hn Hrest; try lia.
  - exists []. rewrite app_nil_r. split; [|constructor]. cbn. destruct rest as [|t rest]; [reflexivity|].
    rewrite bool_decide_false by (intros ->; contradiction). reflexivity.
  - cbn [map concat app binary_loop]. rewrite bool_decide_true by reflexivity. rewrite <- app_assoc.
    destruct (Hg (concat (map (cons sep) toks) ++ rest)) as (e & E & He).
    { destruct toks as [|t' toks]; cbn; [destruct rest; [trivial|apply elem_of_cons; auto]|apply elem_of_cons; auto]. }
    rewrite E. cbn [mbind option_bind]. destruct (IH n (parts ++ [e]) rest) as (es & Ees & Hes); [cbn in Hn; lia|exact Hrest|].
    exists (e :: es). rewrite Ees, <- app_assoc. split; [reflexivity|]. constructor; assumption.
Qed.

Lemma join_concat sep (x : list string) l : join_tokens sep (x :: l) = x ++ concat (map (cons sep) l).
Proof using.
  revert x. induction l as [|y l IH]; intros x; [symmetry; apply app_nil_r|]. change (join_tokens sep (x :: y :: l)) with (x ++ sep :: join_tokens sep (y :: l)).
  rewrite IH. reflexivity.
Qed.

(** One operand is itself, more are joined. *)
Lemma binary_reads sep lower join closers toks gs n f : sep ∉ closers -> gs <> [] -> (length gs <= n)%nat ->
  Forall2 (fun t g => reads lower (sep :: closers) t g) toks gs ->
  (forall es v, Forall2 (fun e g => forall v, expr_match e v = holds g v) es gs -> expr_match (join es) v = holds f v) ->
  (forall g v, gs = [g] -> holds g v = holds f v) ->
  reads (parseBinary n sep lower join) closers (join_tokens sep toks) f.
Proof using.
  intros Hsep Hne Hn H Hjoin Hone rest Hrest. destruct H as [|t g toks gs Hg H]; [contradiction|].
  rewrite join_concat, <- app_assoc. unfold parseBinary. destruct (Hg (concat (map (cons sep) toks) ++ rest)) as (e & E & He).
  { destruct toks as [|t' toks]; cbn; [destruct rest; [trivial|apply elem_of_cons; auto]|apply elem_of_cons; auto]. }
  rewrite E. cbn [mbind option_bind]. destruct H as [|t' g' toks gs Hg' H].
  - cbn [map concat app]. exists e. split; [|intros v; rewrite He; apply Hone; reflexivity]. destruct rest as [|r rest]; [reflexivity|].
    rewrite bool_decide_false by (intros ->; contradiction). reflexivity.
  - destruct (loop_reads sep lower join closers (t' :: toks) (g' :: gs) Hsep ltac:(constructor; assumption) n [e] rest) as (es & Ees & Hes); [cbn in *; lia|exact Hrest|].
    exists (join ([e] ++ es)). split; [|intros v; apply Hjoin; constructor; assumption].
    cbn [map concat app] in *. rewrite bool_decide_true by reflexivity. exact Ees.
Qed.

Lemma forallb_holds es gs v : Forall2 (fun e g => forall v, expr_match e v = holds g v) es gs -> forallb (fun p => expr_match p v) es = forallb (fun g => holds g v) gs.
Proof using. induction 1 as [|e g es gs He H IH]; [reflexivity|]. cbn [forallb]. rewrite He, IH. reflexivity. Qed.
Lemma existsb_holds es gs v : Forall2 (fun e g => forall v, expr_match e v = holds g v) es gs -> existsb (fun p => expr_match p v) es = existsb (fun g => holds g v) gs.
Proof using. induction 1 as [|e g es gs He H IH]; [reflexivity|]. cbn [existsb]. rewrite He, IH. reflexivity. Qed.

Lemma Forall2_map_l {A B} (P : A -> B -> Prop) (h : B -> A) l : Forall (fun b => P (h b) b) l -> Forall2 P (map h l) l.
Proof using. induction 1; constructor; assumption. Qed.

(** What the parser of factors reads at fuel [n]. *)
Definition factors_read (n : nat) : Prop := forall g, formula_ok g = true -> (length (formula_tokens g 2) <= n)%nat ->
  reads (parseFactor n) [","; "|"; ")"] (formula_tokens g 2) g.

Lemma and_reads n f : factors_read n -> formula_ok f = true -> (length (formula_tokens f 1) <= n)%nat ->
  reads (parseAnd n) ["|"; ")"] (formula_tokens f 1) f.
Proof using.
  intros Hfac Hok Hlen. rewrite tokens_all in *.
  destruct (join_length "," (map (fun g => formula_tokens g 2) (all_of f))) as [L1 L2]; [apply Forall_map, Forall_forall; intros; apply tokens_some|].
  rewrite length_map in L1. apply Forall_map in L2.
  apply (binary_reads "," (parseFactor n) andExpr _ _ (all_of f)).
  - apply (bool_decide_eq_true_1 _). reflexivity.
  - apply all_of_some.
  - lia.
  - apply Forall2_map_l. apply Forall_forall. intros g Hg. apply Hfac; [exact (proj1 (Forall_forall _ _) (ok_all f Hok) g Hg)|].
    pose proof (proj1 (Forall_forall _ _) L2 g Hg) as K. cbn in K. lia.
  - intros es v H. rewrite holds_all. apply forallb_holds, H.
  - intros g v E. rewrite (holds_all f), E. cbn. symmetry. apply andb_true_r.
Qed.

Lemma or_reads n f : factors_read n -> formula_ok f = true -> (length (formula_tokens f 0) <= n)%nat ->
  reads (parseOr n) [")"] (formula_tokens f 0) f.
Proof using.
  intros Hfac Hok Hlen. rewrite tokens_any in *.
  destruct (join_length "|" (map (fun g => formula_tokens g 1) (any_of f))) as [L1 L2]; [apply Forall_map, Forall_forall; intros; apply tokens_some|].
  rewrite length_map in L1. apply Forall_map in L2.
  apply (binary_reads "|" (parseAnd n) orExpr _ _ (any_of f)).
  - apply (bool_decide_eq_true_1 _). reflexivity.
  - apply any_of_some.
  - lia.
  - apply Forall2_map_l. apply Forall_forall. intros g Hg. apply and_reads; [exact Hfac|exact (proj1 (Forall_forall _ _) (ok_any f Hok) g Hg)|].
    pose proof (proj1 (Forall_forall _ _) L2 g Hg) as K. cbn in K. lia.
  - intros es v H. rewrite holds_any. apply existsb_holds, H.
  - intros g v E. rewrite (holds_any f), E. cbn. symmetry. apply orb_false_r.
Qed.

Lemma factor_reads n : factors_read n.
Proof using.
  induction n as [|n IH]; intros f Hok Hlen rest Hrest; [pose proof (tokens_some f 2); lia|].
  assert (Hleaf : match f with FAll _ _ | FAny _ _ => False | _ => True end \/ formula_tokens f 2 = ["("] ++ formula_tokens f 0 ++ [")"]).
  { destruct f; auto. }
  destruct Hleaf as [Hleaf|E].
  - destruct (spec_atom_reads f Hok Hleaf) as (t & e & Et & Hp & Ee & He). exists e. split; [|exact He].
    rewrite Et. cbn [app parseFactor]. rewrite bool_decide_false by exact Hp. rewrite Ee. reflexivity.
  - rewrite E, !length_app in *. cbn [length] in Hlen. destruct (or_reads n f IH Hok ltac:(lia) ([")"] ++ rest)) as (e & Ee & He); [apply elem_of_cons; auto|].
    exists e. split; [|exact He]. rewrite <- !app_assoc. cbn [app parseFactor]. rewrite bool_decide_true by reflexivity.
    change (parseBinary n "|" (parseBinary n "," (parseFactor n) andExpr) orExpr) with (parseOr n). cbn [app] in Ee. rewrite Ee. reflexivity.
Qed.

(** The text of a formula parses to an expression with its meaning. *)
Lemma parse_formula f : formula_ok f = true -> exists e, parseVersionExpr (formula_text f) = Some e /\ forall v, expr_match e v = holds f v.
Proof using.
  intros Hok. unfold parseVersionExpr. rewrite tokenize_text by exact Hok.
  destruct (or_reads (S (length (formula_tokens f 0))) f (factor_reads _) Hok ltac:(lia) [] I) as (e & Ee & He).
  rewrite app_nil_r in Ee. rewrite Ee. exists e. split; [reflexivity|exact He].
Qed.

(** The text is not blank, nor the star. *)
Lemma text_plain f level : formula_ok f = true -> all_chars (fun c => negb (space_char c)) (glue_tokens (formula_tokens f level)) = true.
Proof using.
  assert (Hb : forall bound, bound_ok bound = true -> all_chars (fun c => negb (space_char c)) bound = true).
  { intros bound H. destruct (bound_facts bound H) as (Hc & _). revert Hc. apply all_chars_impl. intros c. destruct c as [[] [] [] [] [] [] [] []]; vm_compute; auto. }
  assert (Hop : forall op, op ∈ operators -> all_chars (fun c => negb (space_char c)) op = true).
  { intros op H. unfold operators in H. repeat (apply elem_of_cons in H as [->|H]; [reflexivity|]). inversion H. }
  revert level. induction f as [op bound|bound|bound|bound|f IHf g IHg|f IHf g IHg]; intros level H; cbn [formula_ok] in H; rewrite ?andb_true_iff in H;
    cbn [formula_tokens]; cbv zeta; try (destruct H as [H1 H2]; destruct (level <=? _)%nat);
    rewrite ?spec_glue_app; cbn [glue_tokens]; rewrite ?all_chars_app; cbn [all_chars]; rewrite ?IHf, ?IHg, ?Hb by tauto; try reflexivity.
  destruct H as [H Hok]. apply bool_decide_eq_true in H. rewrite (Hop op H), (Hb bound Hok). reflexivity.
Qed.

Lemma text_not_star f : formula_ok f = true -> formula_text f <> EmptyString /\ formula_text f <> "*".
Proof using R.
  intros Hok. pose proof (tokenize_text f Hok) as Ht. split; intros E; rewrite E in Ht.
  - change (tokenizeVersion EmptyString) with (@nil string) in Ht. pose proof (tokens_some f 0) as Hs. rewrite <- Ht in Hs. cbn in Hs. lia.
  - assert (Es : tokenizeVersion "*" = ["*"]) by reflexivity. rewrite Es in Ht. clear Es.
    assert (Hleaf : match f with FAll _ _ | FAny _ _ => False | _ => True end).
    { destruct f as [| | | |f g|f g]; try exact I; apply (f_equal length) in Ht; cbn [formula_tokens Nat.leb] in Ht; cbv zeta in Ht; rewrite !length_app in Ht; cbn [length] in Ht;
        [pose proof (tokens_some f 1); pose proof (tokens_some g 1)|pose proof (tokens_some f 0); pose proof (tokens_some g 0)]; lia. }
    destruct (spec_atom_reads f Hok Hleaf) as (t & e & Et & _). destruct f as [op bound|bound|bound|bound| |]; try contradiction; cbn [formula_ok formula_tokens] in *.
    + apply andb_true_iff in Hok as [Hop Hb]. apply bool_decide_eq_true in Hop. destruct (plain_bound op bound EmptyString (or_intror Hop) (or_introl eq_refl) Hb) as [P _].
      apply bool_decide_eq_false in P. apply P. rewrite (right_id EmptyString String.append). injection Ht as Ht. symmetry. exact Ht.
    + injection Ht as Ht. subst bound. discriminate Hok.
    + destruct (plain_bound EmptyString bound ".*" (or_introl eq_refl) (or_intror eq_refl) Hok) as [P _]. apply bool_decide_eq_false in P. apply P. injection Ht as Ht. symmetry. exact Ht.
    + injection Ht as Ht. discriminate Ht.
Qed.

(** The text matches what the formula holds for. *)
Lemma match_formula f s : formula_ok f = true -> matchVersion (formula_text f) s = (holds f <$> parseCondaVersion s).
Proof using.
  intros Hok. destruct (text_not_star f Hok) as [H1 H2]. destruct (parse_formula f Hok) as (e & Ee & He). unfold matchVersion.
  unfold formula_text in *. rewrite trim_plain by apply (text_plain f 0 Hok). fold (formula_text f) in *. rewrite bool_decide_false by exact H2.
  destruct (formula_text f) eqn:Et; [contradiction|]. cbn [is_empty orb]. rewrite <- Et in *. rewrite Ee. cbn [mbind option_bind].
  destruct (parseCondaVersion s); [|reflexivity]. cbn. rewrite He. reflexivity.
Qed.

(** *** Globs *)

(** A star stands for any characters of one line. *)
Inductive glob_matches : list glob_item -> string -> Prop :=
| glob_end : glob_matches [] EmptyString
| glob_char c items s : glob_matches items s -> glob_matches (GlobChar c :: items) (String c s)
| glob_star items t s : Contains (ascii_of_nat 10) t = false -> glob_matches items s -> glob_matches (GlobStar :: items) (t +:+ s).

Lemma glob_star_inv items s : glob_matches (GlobStar :: items) s ->
  exists t s', s = t +:+ s' /\ Contains (ascii_of_nat 10) t = false /\ glob_matches items s'.
Proof using. inversion 1; subst. eauto. Qed.

Lemma match_items_spec items : forall s, match_items items s = true <-> glob_matches items s.
Proof using.
  induction items as [|[c|] items IH]; intros s; cbn [match_items].
  - destruct s; split; intros H; [apply glob_end|reflexivity|discriminate|inversion H].
  - destruct s as [|d s]; [split; [discriminate|inversion 1]|]. rewrite andb_true_iff, same_char_true, IH. split.
    + intros [-> H]. constructor. exact H.
    + inversion 1; subst. auto.
  - induction s as [|d s IHs].
    + rewrite orb_false_r, IH. split; [intros H; apply (glob_star items EmptyString); [reflexivity|exact H]|].
      intros H. apply glob_star_inv in H as (t & s' & E & _ & H). destruct t; [|discriminate]. change (EmptyString +:+ s') with s' in E. subst. exact H.
    + rewrite orb_true_iff, andb_true_iff, negb_true_iff, IH, IHs. split.
      * intros [H|[Hd H]]; [apply (glob_star items EmptyString); [reflexivity|exact H]|]. apply glob_star_inv in H as (t & s' & -> & H1 & H2).
        apply (glob_star items (String d t)); [|exact H2]. unfold Contains in *. cbn [any_char]. rewrite H1, orb_false_r.
        apply same_char_false. apply same_char_false in Hd. congruence.
      * intros H. apply glob_star_inv in H as (t & s' & E & H1 & H2).
        destruct t as [|d' t]; [left; change (EmptyString +:+ s') with s' in E; subst; exact H2|].
        right. injection E as -> ->. unfold Contains in H1. cbn [any_char] in H1. apply orb_false_iff in H1 as [H0 H1].
        split; [apply same_char_false; apply same_char_false in H0; congruence|]. apply glob_star; assumption.
Qed.

Lemma glob_items_star pattern c : GlobChar c ∈ glob_items pattern -> c <> "*"%char.
Proof using.
  unfold glob_items. rewrite list_elem_of_fmap. intros (d & E & _) ->. destruct (same_char d "*") eqn:K; [discriminate|]. injection E as <-. discriminate K.
Qed.

Lemma pathMatch_items pattern value : pathMatch pattern value = Some (match_items (glob_items pattern) value).
Proof using.
  unfold pathMatch, globToRegexp. destruct (compile_glob (glob_items pattern) (glob_items_star pattern)) as (re & -> & H). cbn. rewrite H. reflexivity.
Qed.

Lemma matchBuild_spec spec build : matchBuild spec build = true <->
  let spec := TrimSpace spec in
  spec = EmptyString \/ spec = "*" \/ (Contains "*" spec = true /\ glob_matches (glob_items spec) build) \/ (Contains "*" spec = false /\ spec = build).
Proof using.
  unfold matchBuild. cbv zeta. set (s := TrimSpace spec). rewrite pathMatch_items. cbn [default from_option].
  destruct s as [|c s']; [cbn; tauto|]. cbn [is_empty orb]. case_bool_decide as E; [tauto|].
  rewrite <- match_items_spec. destruct (Contains "*" (String c s')).
  - split; [auto 6|]. intros [H|[H|[[_ H]|[H _]]]]; [discriminate H|contradiction|exact H|discriminate H].
  - rewrite bool_decide_eq_true. split; [auto 6|]. intros [H|[H|[[H _]|[_ H]]]]; [discriminate H|contradiction|discriminate H|exact H].
Qed.

(** *** Equal versions *)

Lemma compare_match_equal op ver v w : version_compare v w = 0 -> compare_match op ver v = compare_match op ver w.
Proof using.
  intros E. pose proof (compare_zero_l version_compare v w ver E) as [Z1 Z2].
  assert (Ev : version_compare v ver = version_compare w ver).
  { pose proof (version_values v ver). pose proof (version_values w ver). lia. }
  assert (Hc : compatibleRelease v ver = compatibleRelease w ver).
  { unfold compatibleRelease. destruct (parseCondaVersion _) as [p|]; [|reflexivity]. rewrite Ev, (hasPrefix_equal v w p E). reflexivity. }
  unfold compare_match, version_equal. rewrite Ev, Hc, (hasPrefix_equal v w ver E). reflexivity.
Qed.

Lemma holds_equal f v w : version_compare v w = 0 -> holds f v = holds f w.
Proof using.
  intros E. induction f as [op bound|bound|bound|bound|f IHf g IHg|f IHf g IHg]; cbn [holds]; try (rewrite IHf, IHg; reflexivity);
    unfold bound_holds; destruct (parseCondaVersion bound) as [b|]; try reflexivity.
  - apply compare_match_equal, E.
  - apply (compare_match_equal "==" b v w E).
  - apply hasPrefix_equal, E.
  - rewrite (hasPrefix_equal v w b E). reflexivity.
Qed.
End reading.
