(* ===== verification/Channels.v ===== *)
(** * Conda channels and references (src/x/tool/conda/ref.go, platform.go)

    Reading a package reference, the channel that a name stands for, its URLs,
    and the directory of a platform; the sentinels of the package. *)
From Stdlib Require Import ZArith Lia Ascii.
From stdpp Require Import base numbers option list strings.
From S2P Require Import Prelude Strings.

Local Open Scope Z_scope.

(** ** Errors *)

(** The sentinels of errors.go that the modelled code returns, and the errors
    of the code that it calls. *)
Inductive condaErr : Type :=
| ErrEmptyRef | ErrInvalidRef | ErrInvalidVersion | ErrPackageNotFound | ErrNoBuild | ErrUnsatisfied
| ErrWrapMiss | ErrDecodeRepodata | ErrIndexRecordsFromAPIDecode | ErrOther.

#[export] Instance condaErr_eq_dec : EqDecision condaErr.
Proof. solve_decision. Defined.

(** A result: a value, an error with the sentinels that it wraps, from the
    outside, or a panic. *)
Inductive outcome (A : Type) : Type := Done (a : A) | Failed (e : list condaErr) | Panicked.
Arguments Done {A} a.
Arguments Failed {A} e.
Arguments Panicked {A}.

#[export] Instance outcome_bind : MBind outcome := fun A B k m =>
  match m with Done a => k a | Failed e => Failed e | Panicked => Panicked end.

Definition done_or {A} (e : list condaErr) (o : option A) : outcome A := match o with Some a => Done a | None => Failed e end.

Lemma outcome_bind_done {A B} (m : outcome A) (k : A -> outcome B) b : m ≫= k = Done b <-> exists a, m = Done a /\ k a = Done b.
Proof.
  destruct m as [a|e|]; cbn; split; try discriminate; [eauto| | |]; intros (a' & E & H); try discriminate E. injection E as ->. exact H.
Qed.

(** ** Channels *)

(** A channel; [ch_Base] has no slash at the end. *)
Record channel : Type := mkChannel { ch_Name : string; ch_Base : string; ch_APIOwner : string }.
Record parsedRef : Type := mkRef { ref_Channel : channel; ref_Name : string }.

Definition defaultChannelName : string := "conda-forge".
Definition anacondaOrg : string := "https://conda.anaconda.org/".
Definition anacondaAPI : string := "https://api.anaconda.org/package/".

Definition knownChannels : list (string * channel) :=
  [("conda-forge", mkChannel "conda-forge" "https://conda.anaconda.org/conda-forge" "conda-forge");
   ("bioconda", mkChannel "bioconda" "https://conda.anaconda.org/bioconda" "bioconda");
   ("defaults", mkChannel "defaults" "https://repo.anaconda.com/pkgs/main" "main");
   ("main", mkChannel "main" "https://repo.anaconda.com/pkgs/main" "main");
   ("anaconda", mkChannel "anaconda" "https://repo.anaconda.com/pkgs/main" "anaconda");
   ("pkgs/main", mkChannel "pkgs/main" "https://repo.anaconda.com/pkgs/main" "main")].

Fixpoint find_channel (l : list (string * channel)) (key : string) : option channel :=
  match l with [] => None | (k, ch) :: l' => if bool_decide (k = key) then Some ch else find_channel l' key end.

(** Package net/url: the parts of a URL that the channel code reads, and its
    text with another path. *)
Class Urls : Type := {
  url : Type;
  url_Parse : string -> option url;
  url_Host : url -> string;
  url_Scheme : url -> string;
  url_Path : url -> string;
  url_WithPath : url -> string -> string;
  url_PathEscape : string -> string
}.

Section channels.
Context {U : Urls}.

Definition resolveChannel (name : string) : outcome channel :=
  let name := TrimSpace name in
  let name := if is_empty name then defaultChannelName else name in
  if ContainsString "://" name then
    match url_Parse name with
    | None => Failed [ErrInvalidRef]
    | Some parsed =>
        if is_empty (url_Host parsed) || (negb (bool_decide (url_Scheme parsed = "https")) && negb (bool_decide (url_Scheme parsed = "http")))
        then Failed [ErrInvalidRef]
        else Done (mkChannel name (url_WithPath parsed (TrimRight "/" (url_Path parsed))) EmptyString)
    end
  else
    let key := ToLower (Trim "/" name) in
    match find_channel knownChannels key with
    | Some ch => Done ch
    | None =>
        let owner := if Contains "/" key then EmptyString else key in
        Done (mkChannel key (TrimRight "/" anacondaOrg +:+ "/" +:+ key) owner)
    end.

Definition parseRef (ref : string) : outcome parsedRef :=
  let ref := TrimSpace ref in
  if is_empty ref then Failed [ErrEmptyRef] else
  let '(channelName, name) :=
    match Cut "::" ref with
    | Some (before, after) => (TrimSpace before, TrimSpace after)
    | None =>
        if Contains "/" ref && negb (ContainsString "://" ref) then
          match cut_last "/" ref with
          | Some (before, after) => (TrimSpace before, TrimSpace after)
          | None => (defaultChannelName, ref)
          end
        else (defaultChannelName, ref)
    end in
  if is_empty channelName || is_empty name || Contains "/" name then Failed [ErrInvalidRef] else
  ch ← resolveChannel channelName;
  Done (mkRef ch (ToLower name)).

Definition apiURL (ch : channel) (name : string) : option string :=
  if is_empty (ch_APIOwner ch) || is_empty name then None
  else Some (anacondaAPI +:+ url_PathEscape (ch_APIOwner ch) +:+ "/" +:+ url_PathEscape name).
End channels.

Definition artifactURL (ch : channel) (subdir filename : string) : string :=
  TrimRight "/" (ch_Base ch) +:+ "/" +:+ subdir +:+ "/" +:+ filename.
Definition repodataURL (ch : channel) (subdir : string) (zstd : bool) : string :=
  TrimRight "/" (ch_Base ch) +:+ "/" +:+ subdir +:+ "/" +:+ (if zstd then "repodata.json.zst" else "repodata.json").

(** ** Platforms *)

Definition subdirNoarch : string := "noarch".

(** The texts of a directory: its name, then Go's names of the platform. *)
Definition subdirs : list (string * list string) :=
  [("linux-64", ["linux/amd64"; "linux_amd64"]);
   ("linux-aarch64", ["linux/arm64"; "linux_arm64"]);
   ("linux-32", ["linux/386"; "linux_386"]);
   ("linux-ppc64le", ["linux/ppc64le"; "linux_ppc64le"]);
   ("linux-s390x", ["linux/s390x"; "linux_s390x"]);
   ("linux-riscv64", ["linux/riscv64"; "linux_riscv64"]);
   ("osx-64", ["darwin/amd64"; "darwin_amd64"]);
   ("osx-arm64", ["darwin/arm64"; "darwin_arm64"]);
   ("win-64", ["windows/amd64"; "windows_amd64"]);
   ("win-arm64", ["windows/arm64"; "windows_arm64"]);
   ("win-32", ["windows/386"; "windows_386"]);
   ("noarch", [])].

Fixpoint find_subdir (l : list (string * list string)) (text : string) : option string :=
  match l with
  | [] => None
  | (name, aliases) :: l' => if bool_decide (text ∈ name :: aliases) then Some name else find_subdir l' text
  end.
Definition ParseSubdir (text : string) : option string := find_subdir subdirs (TrimSpace text).

Definition hostSubdir (goos goarch : string) : outcome string :=
  match ParseSubdir (goos +:+ "/" +:+ goarch) with
  | Some sub => if bool_decide (sub = subdirNoarch) then Failed [ErrNoBuild] else Done sub
  | None => Failed [ErrNoBuild]
  end.
