(* ===== verification/Records.v ===== *)
(** * Records of conda packages (src/x/tool/conda/index.go)

    The installable files that a channel lists: from the package index of
    anaconda.org, or from the repodata of two directories.  The decoders of
    the files and the network are parameters. *)
From Stdlib Require Import ZArith Lia Ascii.
From stdpp Require Import base numbers option list strings.
From S2P Require Import Prelude Strings Channels.

Local Open Scope Z_scope.

(** ** Data *)

(** One installable file. *)
Record record : Type := mkRecord {
  r_Name : string; r_Version : string; r_Build : string; r_BuildNumber : Z; r_Depends : list string;
  r_SHA256 : string; r_MD5 : string; r_Size : Z; r_Subdir : string; r_Filename : string; r_URL : string
}.
Definition noRecord : record := mkRecord "" "" "" 0 [] "" "" 0 "" "" "".
(** [rec.URL = url] *)
Definition with_url (r : record) (url : string) : record :=
  mkRecord (r_Name r) (r_Version r) (r_Build r) (r_BuildNumber r) (r_Depends r) (r_SHA256 r) (r_MD5 r) (r_Size r) (r_Subdir r) (r_Filename r) url.

Record apiAttrs : Type := mkAttrs { at_Build : string; at_BuildNumber : Z; at_Depends : option (list string); at_Subdir : string }.
Record apiFile : Type := mkFile {
  f_Basename : string; f_Version : string; f_SHA256 : string; f_MD5 : string; f_Size : Z; f_Labels : list string; f_Attrs : apiAttrs
}.
Record repodataRecord : Type := mkRepo {
  p_Name : string; p_Version : string; p_Build : string; p_BuildNumber : Z; p_Depends : option (list string);
  p_SHA256 : string; p_MD5 : string; p_Size : Z; p_Subdir : string
}.
(** The maps in the order in which [range] visits them. *)
Record repodataFile : Type := mkRepodata { Packages : list (string * repodataRecord); PackagesConda : list (string * repodataRecord) }.

(** ** Conversions *)

Definition preferMainLabel (files : list apiFile) : list apiFile :=
  let main := filter (fun file => f_Labels file = [] \/ "main" ∈ f_Labels file) files in
  if bool_decide (main = []) then files else main.

Definition buildFromFilename (name version filename : string) : string :=
  let stem := TrimSuffix ".tar.bz2" (TrimSuffix ".conda" filename) in
  let prefix := name +:+ "-" +:+ version +:+ "-" in
  default EmptyString (CutPrefix prefix stem).

Definition toRecord (name : string) (file : apiFile) : option record :=
  let filename := path_Base (f_Basename file) in
  if is_empty filename || bool_decide (filename = ".") then None else
  let subdir := if is_empty (at_Subdir (f_Attrs file)) then
                  let dir := path_Dir (f_Basename file) in if bool_decide (dir = ".") then EmptyString else dir
                else at_Subdir (f_Attrs file) in
  if is_empty subdir || is_empty (f_Version file) then None else
  let build := if is_empty (at_Build (f_Attrs file)) then buildFromFilename name (f_Version file) filename else at_Build (f_Attrs file) in
  Some (mkRecord name (f_Version file) build (at_BuildNumber (f_Attrs file)) (opt_list (at_Depends (f_Attrs file)))
          (f_SHA256 file) (f_MD5 file) (f_Size file) subdir filename EmptyString).

(** [collect], for one entry. *)
Definition collect (name subdir : string) (entry : string * repodataRecord) : option record :=
  let '(filename, item) := entry in
  if negb (EqualFold (p_Name item) name) then None else
  let dir := if is_empty (p_Subdir item) then subdir else p_Subdir item in
  Some (mkRecord (ToLower (p_Name item)) (p_Version item) (p_Build item) (p_BuildNumber item) (opt_list (p_Depends item))
          (p_SHA256 item) (p_MD5 item) (p_Size item) dir (path_Base filename) EmptyString).
Definition repodata_records (file : repodataFile) (name subdir : string) : list record :=
  omap (collect name subdir) (PackagesConda file ++ Packages file).

(** ** Lookups *)

(** A fetched file, a 404, or another error. *)
Inductive fetched (B : Type) : Type := Body (b : B) | NotFound | FetchError.
Arguments Body {B} b.
Arguments NotFound {B}.
Arguments FetchError {B}.

(** The network and the decoders ([encoding/json], zstd). *)
Class Fetcher : Type := {
  body : Type;
  fetch : string -> fetched body;
  decodeAPI : body -> option (list apiFile);
  decodeRepodata : body -> option repodataFile
}.

Section lookups.
Context {U : Urls} {F : Fetcher}.

Definition recordsFromAPI (rawURL name : string) : outcome (list record) :=
  match fetch rawURL with
  | NotFound => Failed [ErrPackageNotFound]
  | FetchError => Failed [ErrOther]
  | Body b =>
      match decodeAPI b with
      | None => Failed [ErrIndexRecordsFromAPIDecode; ErrOther]
      | Some files =>
          let recs := omap (toRecord name) (preferMainLabel files) in
          if bool_decide (recs = []) then Failed [ErrPackageNotFound] else Done recs
      end
  end.

Definition fetchRepodata (ch : channel) (subdir : string) : fetched body :=
  match fetch (repodataURL ch subdir true) with
  | NotFound => fetch (repodataURL ch subdir false)
  | r => r
  end.

(** The bodies of the directories; [None] is a directory without an index. *)
Fixpoint fetch_dirs (ch : channel) (dirs : list string) : outcome (list (string * option body)) :=
  match dirs with
  | [] => Done []
  | dir :: dirs' =>
      match fetchRepodata ch dir with
      | FetchError => Failed [ErrOther]
      | NotFound => rest ← fetch_dirs ch dirs'; Done ((dir, None) :: rest)
      | Body b => rest ← fetch_dirs ch dirs'; Done ((dir, Some b) :: rest)
      end
  end.

Fixpoint decode_dirs (name : string) (bodies : list (string * option body)) : outcome (list record) :=
  match bodies with
  | [] => Done []
  | (_, None) :: bodies' => decode_dirs name bodies'
  | (dir, Some b) :: bodies' =>
      match decodeRepodata b with
      | None => Failed [ErrDecodeRepodata; ErrOther]
      | Some parsed => recs ← decode_dirs name bodies'; Done (repodata_records parsed name dir ++ recs)
      end
  end.

(** [host] is the platform of [currentSubdir]. *)
Definition recordsFromRepodata (host : outcome string) (ch : channel) (name subdir : string) : outcome (list record) :=
  subdir ← (if is_empty subdir then host else Done subdir);
  let dirs := if bool_decide (subdir = subdirNoarch) then [subdir] else [subdir; subdirNoarch] in
  bodies ← fetch_dirs ch dirs;
  recs ← decode_dirs name bodies;
  if bool_decide (recs = []) then Failed [ErrPackageNotFound] else Done recs.

Definition index_load (host : outcome string) (ch : channel) (name subdir : string) : outcome (list record) :=
  match apiURL ch name with
  | Some url =>
      match recordsFromAPI url name with
      | Failed e => if bool_decide (ErrPackageNotFound ∈ e) then recordsFromRepodata host ch name subdir else Failed e
      | r => r
      end
  | None => recordsFromRepodata host ch name subdir
  end.
End lookups.
