(* ===== verification/Picks.v ===== *)
(** * Choosing a record (src/x/tool/conda/resolve.go)

    The constraints of a package pick one record of its channel: all
    constraints hold, and then a build of a required variant, the newest
    version, the largest build number, the platform's own directory, a .conda
    file, and the least file name win.  The file proves that this order is a
    total preorder on records whose versions parse, and what the pick is. *)
From Stdlib Require Import ZArith Lia Ascii.
From stdpp Require Import base numbers option list strings gmap.
From S2P Require Import Prelude Strings Versions Specs Formulas Channels Records.

Local Open Scope Z_scope.

(** ** Variants *)

Record constraint : Type := mkConstraint { c_version : string; c_build : string }.

Definition alpha_char (c : ascii) : bool := upper_char c || lower_char c.
Definition alnum_char (c : ascii) : bool := alpha_char c || digit_char c.
Definition hex_char (c : ascii) : bool := digit_char c || ((97 <=? code_of c)%nat && (code_of c <=? 102)%nat).

(** [[A-Za-z][A-Za-z0-9]*[0-9][A-Za-z0-9]*] and the other parts of
    [buildVariant], between the underscores. *)
Definition variant_head (s : string) : bool :=
  match s with EmptyString => false | String c s' => alpha_char c && all_chars alnum_char s' && any_char digit_char s' end.
Definition variant_hash (s : string) : bool :=
  match s with String c s' => same_char c "h" && all_chars hex_char s' && (5 <=? String.length s')%nat | EmptyString => false end.

(** [buildVariant.FindStringSubmatch]: the group of the expression. *)
Definition buildVariant (build : string) : option string :=
  match Split "_" build with
  | [] => None
  | head :: more =>
      match rev more with
      | number :: hash :: digits =>
          if variant_head head && forallb Digits digits && variant_hash hash && Digits number
          then Some (Join "_" (head :: rev digits)) else None
      | _ => None
      end
  end.

Definition containsDigit (value : string) : bool := any_char digit_char value.

Definition variantKey (build : string) : string :=
  let build := TrimSpace build in
  if is_empty build || bool_decide (build = "*") then EmptyString else
  if HasSuffix "*" build then
    let build := TrimRight "_" (TrimSuffix "*" build) in
    if is_empty build || Contains "*" build || negb (containsDigit build) then EmptyString else build
  else default EmptyString (buildVariant build).

Definition addVariant (variants : gset string) (build : string) : gset string :=
  let key := variantKey build in if is_empty key then variants else {[ key ]} ∪ variants.

Definition variantMatch (build : string) (variants : gset string) : bool :=
  if bool_decide (variants = ∅) then false else bool_decide (variantKey build ∈ variants).

(** ** The order of records *)

Definition nativeRank (rec : record) (native : string) : Z := if bool_decide (r_Subdir rec = native) then 1 else 0.

Definition versionRank (l r : string) : Z :=
  match compareVersions l r with Some cmp => cmp | None => strings_Compare l r end.

Definition newerRecord (a b : record) (native : string) : bool :=
  let cmp := versionRank (r_Version a) (r_Version b) in
  if negb (cmp =? 0) then 0 <? cmp
  else if negb (r_BuildNumber a =? r_BuildNumber b) then r_BuildNumber b <? r_BuildNumber a
  else if negb (nativeRank a native =? nativeRank b native) then nativeRank b native <? nativeRank a native
  else
    let aConda := HasSuffix ".conda" (r_Filename a) in
    let bConda := HasSuffix ".conda" (r_Filename b) in
    if negb (eqb aConda bConda) then aConda else string_less (r_Filename a) (r_Filename b).

Definition betterRecord (a b : record) (native : string) (variants : gset string) : bool :=
  let aHit := variantMatch (r_Build a) variants in
  let bHit := variantMatch (r_Build b) variants in
  if negb (eqb aHit bHit) then aHit else newerRecord a b native.

(** ** Picking *)

Section pick.
Context {R : Regexp}.

(** The records that a constraint keeps. *)
Fixpoint keep_matching (item : constraint) (native : string) (matched : list record) : outcome (list record) :=
  match matched with
  | [] => Done []
  | rec :: matched' =>
      if negb (bool_decide (r_Subdir rec = native)) && negb (bool_decide (r_Subdir rec = subdirNoarch))
      then keep_matching item native matched'
      else
        ok ← done_or [ErrInvalidVersion] (matchVersion (c_version item) (r_Version rec));
        next ← keep_matching item native matched';
        Done (if ok && matchBuild (c_build item) (r_Build rec) then rec :: next else next)
  end.

Fixpoint keep_all (constraints : list constraint) (native : string) (matched : list record) : outcome (list record) :=
  match constraints with
  | [] => Done matched
  | item :: constraints' =>
      matched ← keep_matching item native matched;
      if bool_decide (matched = []) then Failed [ErrNoBuild] else keep_all constraints' native matched
  end.

Definition best_record (native : string) (variants : gset string) (best : record) (records : list record) : record :=
  foldl (fun best rec => if betterRecord rec best native variants then rec else best) best records.

Definition pickSatisfying (records : list record) (constraints : list constraint) (native : string) (variants : gset string) : outcome record :=
  matched ← keep_all constraints native records;
  match matched with
  | [] => Panicked
  | best :: rest => Done (best_record native variants best rest)
  end.
End pick.

(** ** Versions of a package, and the request of one *)

(** [sort.Slice]: a permutation, in order when [less] is a strict weak
    order on the elements. *)
Definition strict_weak_on {A} (P : A -> Prop) (less : A -> A -> bool) : Prop :=
  (forall x, P x -> less x x = false) /\
  (forall x y z, P x -> P y -> P z -> less x y = true -> less y z = true -> less x z = true) /\
  (forall x y z, P x -> P y -> P z -> less x y = true -> less x z = true \/ less z y = true).
Class SortSlice : Type := {
  sort_Slice {A : Type} (less : A -> A -> bool) (l : list A) : list A;
  sort_permutes {A} (less : A -> A -> bool) (l : list A) : sort_Slice less l ≡ₚ l;
  sort_orders {A} (less : A -> A -> bool) (l : list A) : strict_weak_on (fun x => x ∈ l) less ->
    forall i j x y, (i < j)%nat -> sort_Slice less l !! i = Some x -> sort_Slice less l !! j = Some y -> less y x = false
}.

(** The versions of the platform, each once. *)
Fixpoint distinct_versions (seen : gset string) (records : list record) (subdir : string) : list string :=
  match records with
  | [] => []
  | rec :: records' =>
      if negb (bool_decide (r_Subdir rec = subdir)) && negb (bool_decide (r_Subdir rec = subdirNoarch)) then distinct_versions seen records' subdir
      else if bool_decide (r_Version rec ∈ seen) then distinct_versions seen records' subdir
      else r_Version rec :: distinct_versions ({[ r_Version rec ]} ∪ seen) records' subdir
  end.
Definition uniqueVersions `{SortSlice} (records : list record) (subdir : string) : list string :=
  sort_Slice (fun l r => 0 <? versionRank l r) (distinct_versions ∅ records subdir).

Definition requestedSpec (version : string) : string * string :=
  let version := TrimSpace version in
  if is_empty version || bool_decide (version = "latest") then (EmptyString, EmptyString) else
  let whole :=
    match version with
    | String c _ => if bool_decide (c ∈ ["<"; ">"; "!"; "="; "~"]%char) then (version, EmptyString) else ("==" +:+ version, EmptyString)
    | EmptyString => (EmptyString, EmptyString)
    end in
  match Cut "=" version with
  | Some (l, r) =>
      if negb (is_empty l) && negb (is_empty r) && negb (ContainsAny ["<"; ">"; "!"; "~"]%char l) then ("==" +:+ l, r) else whole
  | None => whole
  end.

(** ** Comparisons, composed *)

Definition lex_compare {A} (c1 c2 : A -> A -> Z) (x y : A) : Z := if c1 x y =? 0 then c2 x y else c1 x y.
Definition by_key {A B} (key : A -> B) (cmp : B -> B -> Z) (x y : A) : Z := cmp (key x) (key y).
Definition compare_int (x y : Z) : Z := if x =? y then 0 else if x <? y then -1 else 1.

#[export] Instance lex_laws {A} (c1 c2 : A -> A -> Z) : CompareLaws c1 -> CompareLaws c2 -> CompareLaws (lex_compare c1 c2).
Proof.
  intros H1 H2. unfold lex_compare. split.
  - intros x. rewrite (compare_refl x). apply compare_refl.
  - intros x y. rewrite (compare_opp (cmp := c1) x y), (compare_opp (cmp := c2) x y).
    destruct (Z.eqb_spec (c1 x y) 0) as [->|]; [reflexivity|]. destruct (Z.eqb_spec (- c1 x y) 0); lia.
  - intros x y z. pose proof (compare_trans (cmp := c1) x y z) as T1. pose proof (compare_trans (cmp := c2) x y z) as T2.
    pose proof (compare_lt_le c1 x y z) as L. pose proof (compare_zero_l c1 x y z) as Z0.
    destruct (Z.eqb_spec (c1 x y) 0), (Z.eqb_spec (c1 y z) 0), (Z.eqb_spec (c1 x z) 0); lia.
Qed.

#[export] Instance by_key_laws {A B} (key : A -> B) cmp : CompareLaws cmp -> CompareLaws (by_key key cmp).
Proof. intros H. unfold by_key. split; intros; [apply compare_refl|apply compare_opp|eapply compare_trans; eassumption]. Qed.

Lemma flip_laws {A} (cmp : A -> A -> Z) : CompareLaws cmp -> CompareLaws (fun x y => cmp y x).
Proof. intros H. split; intros; [apply compare_refl|apply compare_opp|eapply compare_trans; eassumption]. Qed.

#[export] Instance compare_int_laws : CompareLaws compare_int.
Proof.
  unfold compare_int. split; intros *.
  - rewrite Z.eqb_refl. reflexivity.
  - destruct (Z.eqb_spec x y), (Z.eqb_spec y x), (Z.ltb_spec x y), (Z.ltb_spec y x); lia.
  - destruct (Z.eqb_spec x y), (Z.eqb_spec y z), (Z.eqb_spec x z), (Z.ltb_spec x y), (Z.ltb_spec y z), (Z.ltb_spec x z); lia.
Qed.

#[export] Instance strings_Compare_laws : CompareLaws strings_Compare.
Proof.
  unfold strings_Compare. split; intros *.
  - rewrite bool_decide_true by reflexivity. reflexivity.
  - destruct (decide (x = y)) as [->|Hne]; [rewrite !bool_decide_true by reflexivity; reflexivity|].
    rewrite !bool_decide_false by congruence. rewrite (string_less_asym x y Hne). destruct (string_less x y); reflexivity.
  - repeat case_bool_decide; subst; try contradiction; try lia; destruct (string_less x y) eqn:E1; try lia;
      destruct (string_less y z) eqn:E2; try lia; try (rewrite (string_less_trans _ _ _ E1 E2); lia); try congruence.
Qed.

#[export] Instance strings_Compare_flip_laws : CompareLaws (fun s t => strings_Compare t s) := flip_laws _ _.

Lemma compare_int_positive x y : (0 <? compare_int x y) = (y <? x).
Proof. unfold compare_int. destruct (Z.eqb_spec x y), (Z.ltb_spec x y), (Z.ltb_spec y x); lia || reflexivity. Qed.
Lemma compare_int_zero x y : compare_int x y = 0 <-> x = y.
Proof. unfold compare_int. destruct (Z.eqb_spec x y); [tauto|]. destruct (x <? y); lia. Qed.
Lemma strings_Compare_positive s t : (0 <? strings_Compare t s) = string_less s t.
Proof.
  unfold strings_Compare. case_bool_decide as E; [subst; rewrite string_less_irrefl; reflexivity|].
  rewrite (string_less_asym t s E). destruct (string_less t s); reflexivity.
Qed.
Lemma strings_Compare_zero s t : strings_Compare s t = 0 <-> s = t.
Proof. unfold strings_Compare. case_bool_decide; [tauto|]. destruct (string_less s t); split; congruence || discriminate. Qed.

(** The greatest of a list, the first one of equals. *)
Section greatest.
Context {A : Type} (cmp : A -> A -> Z) `{!CompareLaws cmp}.
Definition greatest (best : A) (l : list A) : A := foldl (fun best x => if 0 <? cmp x best then x else best) best l.

Lemma greatest_spec l : forall best, greatest best l ∈ best :: l /\ forall x, x ∈ best :: l -> cmp x (greatest best l) <= 0.
Proof using CompareLaws0.
  induction l as [|y l IH]; intros best.
  - split; [left|]. intros x Hx. apply list_elem_of_singleton in Hx as ->. cbn. rewrite compare_refl. lia.
  - cbn [greatest foldl]. change (foldl _ ?b l) with (greatest b l). set (b := if 0 <? cmp y best then y else best).
    destruct (IH b) as [I1 I2]. assert (Hb : b ∈ best :: y :: l) by (unfold b; destruct (0 <? cmp y best); [right; left|left]).
    split; [apply elem_of_cons in I1 as [->|]; [exact Hb|right; right; assumption]|].
    assert (Hle : cmp best b <= 0 /\ cmp y b <= 0).
    { pose proof (compare_opp (cmp := cmp) best y) as E. pose proof (compare_refl (cmp := cmp) best). pose proof (compare_refl (cmp := cmp) y).
      unfold b. destruct (Z.ltb_spec 0 (cmp y best)); lia. }
    assert (Hg : cmp b (greatest b l) <= 0) by (apply I2; left).
    intros x Hx. apply elem_of_cons in Hx as [->|Hx]; [apply (compare_trans best b); [apply Hle|exact Hg]|].
    apply elem_of_cons in Hx as [->|Hx]; [apply (compare_trans y b); [apply Hle|exact Hg]|]. apply I2. right. exact Hx.
Qed.

(** Without ties the order of the list does not matter. *)
Lemma greatest_unique best l best' l' : best :: l ≡ₚ best' :: l' ->
  (forall x y, x ∈ best :: l -> y ∈ best :: l -> cmp x y = 0 -> x = y) -> greatest best l = greatest best' l'.
Proof using CompareLaws0.
  intros Hp Hinj. destruct (greatest_spec l best) as [H1 H2], (greatest_spec l' best') as [H3 H4].
  rewrite <- Hp in H3. apply Hinj; [exact H1|exact H3|].
  pose proof (H4 (greatest best l)) as K1. rewrite <- Hp in K1. specialize (K1 H1). pose proof (H2 _ H3) as K2.
  rewrite (compare_opp (cmp := cmp) (greatest best l) (greatest best' l')) in K2. lia.
Qed.
End greatest.

(** ** Records whose versions parse *)

Definition parsed_version (r : record) : condaVersion := default (mkVersion EmptyString [] []) (parseCondaVersion (r_Version r)).
Definition version_known (r : record) : Prop := is_Some (parseCondaVersion (r_Version r)).

(** Positive when the first record is better. *)
Definition record_compare (native : string) (variants : gset string) : record -> record -> Z :=
  lex_compare (by_key (fun r => Z.b2z (variantMatch (r_Build r) variants)) compare_int) (
  lex_compare (by_key parsed_version version_compare) (
  lex_compare (by_key r_BuildNumber compare_int) (
  lex_compare (by_key (fun r => nativeRank r native) compare_int) (
  lex_compare (by_key (fun r => Z.b2z (HasSuffix ".conda" (r_Filename r))) compare_int)
              (by_key r_Filename (fun s t => strings_Compare t s)))))).

#[export] Instance record_compare_laws native variants : CompareLaws (record_compare native variants).
Proof. unfold record_compare. apply _. Qed.

Lemma lex_positive {A} (c1 c2 : A -> A -> Z) x y : (0 <? lex_compare c1 c2 x y) = if negb (c1 x y =? 0) then 0 <? c1 x y else 0 <? c2 x y.
Proof. unfold lex_compare. destruct (c1 x y =? 0); reflexivity. Qed.
Lemma lex_zero {A} (c1 c2 : A -> A -> Z) x y : lex_compare c1 c2 x y = 0 <-> c1 x y = 0 /\ c2 x y = 0.
Proof. unfold lex_compare. destruct (Z.eqb_spec (c1 x y) 0); [tauto|]. tauto. Qed.

Lemma int_differs x y : (compare_int x y =? 0) = (x =? y).
Proof. unfold compare_int. destruct (Z.eqb_spec x y); [reflexivity|]. destruct (x <? y); reflexivity. Qed.
Lemma b2z_differs a b : (Z.b2z a =? Z.b2z b) = eqb a b.
Proof. destruct a, b; reflexivity. Qed.
Lemma b2z_less a b : negb (eqb a b) = true -> (Z.b2z b <? Z.b2z a) = a.
Proof. destruct a, b; reflexivity || discriminate. Qed.

(** [betterRecord] is this order. *)
Lemma better_compare a b native variants : version_known a -> version_known b ->
  betterRecord a b native variants = (0 <? record_compare native variants a b).
Proof.
  intros [v Ev] [w Ew]. unfold record_compare. rewrite !lex_positive. unfold by_key. rewrite !int_differs, !compare_int_positive, !b2z_differs, strings_Compare_positive.
  unfold betterRecord. cbv zeta.
  destruct (eqb (variantMatch _ _) (variantMatch _ _)) eqn:E1; cbn [negb]; [|symmetry; apply b2z_less; rewrite E1; reflexivity].
  unfold newerRecord, versionRank, compareVersions, parsed_version. cbv zeta. rewrite Ev, Ew. cbn [mbind option_bind default from_option id].
  destruct (negb (version_compare v w =? 0)); [reflexivity|]. destruct (negb (r_BuildNumber a =? r_BuildNumber b)); [reflexivity|].
  destruct (negb (nativeRank a native =? nativeRank b native)); [reflexivity|].
  destruct (eqb (HasSuffix _ _) _) eqn:E2; cbn [negb]; [reflexivity|symmetry; apply b2z_less; rewrite E2; reflexivity].
Qed.

(** Equal records of the platform have the same file. *)
Definition of_platform (native : string) (r : record) : Prop := r_Subdir r = native \/ r_Subdir r = subdirNoarch.
#[export] Instance of_platform_dec native r : Decision (of_platform native r).
Proof. unfold of_platform. apply _. Defined.

Lemma compare_same_file a b native variants : record_compare native variants a b = 0 -> of_platform native a -> of_platform native b ->
  r_Filename a = r_Filename b /\ r_Subdir a = r_Subdir b.
Proof.
  unfold record_compare. rewrite !lex_zero. unfold by_key. rewrite !compare_int_zero, strings_Compare_zero. intros (_ & _ & _ & Hn & _ & Hf) Ha Hb.
  split; [congruence|]. unfold nativeRank in Hn. unfold of_platform in *. repeat case_bool_decide; try discriminate; try congruence.
  destruct Ha, Hb; congruence.
Qed.

(** ** What a pick is *)

Section picks.
Context {R : Regexp}.

(** A constraint's answer on a record; [None] is a version or a constraint
    that does not parse. *)
Definition fits (item : constraint) (r : record) : option bool :=
  ok ← matchVersion (c_version item) (r_Version r); Some (ok && matchBuild (c_build item) (r_Build r)).
Definition satisfies (native : string) (constraints : list constraint) (r : record) : Prop :=
  of_platform native r /\ Forall (fun item => fits item r = Some true) constraints.
#[export] Instance satisfies_dec native constraints r : Decision (satisfies native constraints r).
Proof. unfold satisfies. apply _. Defined.
(** All constraints parse, and so do the versions of the platform if need be. *)
Definition answered (native : string) (constraints : list constraint) (records : list record) : Prop :=
  forall item r, item ∈ constraints -> r ∈ records -> of_platform native r -> fits item r <> None.

Lemma foreign_record native r : negb (bool_decide (r_Subdir r = native)) && negb (bool_decide (r_Subdir r = subdirNoarch)) = negb (bool_decide (of_platform native r)).
Proof using. unfold of_platform. repeat case_bool_decide; tauto || reflexivity. Qed.

Lemma keep_matching_spec item native l :
  match keep_matching item native l with
  | Done kept => kept = filter (satisfies native [item]) l /\ (forall r, r ∈ l -> of_platform native r -> fits item r <> None)
  | Failed e => e = [ErrInvalidVersion] /\ exists r, r ∈ l /\ of_platform native r /\ fits item r = None
  | Panicked => False
  end.
Proof using.
  induction l as [|r l IH]; [split; [reflexivity|inversion 1]|]. cbn [keep_matching]. rewrite foreign_record.
  case_bool_decide as Ho; cbn [negb].
  - unfold fits in *. destruct (matchVersion (c_version item) (r_Version r)) as [ok|] eqn:Em; cbn [mbind option_bind outcome_bind done_or].
    2: { split; [reflexivity|]. exists r. rewrite Em. split; [left|]. split; [exact Ho|reflexivity]. }
    destruct (keep_matching item native l) as [kept|e|]; cbn [mbind outcome_bind]; [|split; [apply IH|]; destruct IH as (_ & x & H1 & H2); exists x; split; [right; exact H1|exact H2]|exact IH].
    destruct IH as [-> IH]. split.
    + rewrite filter_cons. assert (Hs : satisfies native [item] r <-> ok && matchBuild (c_build item) (r_Build r) = true).
      { unfold satisfies, fits. rewrite Forall_singleton, Em. cbn. split; [intros [_ [= H]]; exact H|intros ->; auto]. }
      case_decide as Hd; [apply Hs in Hd; rewrite Hd; reflexivity|]. destruct (ok && _); [contradiction Hd; apply Hs; reflexivity|reflexivity].
    + intros x Hx. apply elem_of_cons in Hx as [->|Hx]; [rewrite Em; discriminate|apply IH, Hx].
  - destruct (keep_matching item native l) as [kept|e|]; [|destruct IH as (-> & x & H1 & H2); split; [reflexivity|]; exists x; split; [right; exact H1|exact H2]|exact IH].
    destruct IH as [-> IH]. split.
    + rewrite filter_cons. case_decide as Hd; [destruct Hd; contradiction|reflexivity].
    + intros x Hx. apply elem_of_cons in Hx as [->|Hx]; [contradiction|apply IH, Hx].
Qed.

Lemma filter_satisfies native item cs (l : list record) :
  filter (satisfies native cs) (filter (satisfies native [item]) l) = filter (satisfies native (item :: cs)) l.
Proof using.
  rewrite list_filter_filter. apply list_filter_iff. intros r. unfold satisfies. rewrite !Forall_cons, Forall_nil. tauto.
Qed.

Lemma keep_all_spec native cs : forall l,
  match keep_all cs native l with
  | Done kept => cs = [] /\ kept = l \/ cs <> [] /\ kept <> [] /\ kept = filter (satisfies native cs) l
  | Failed e =>
      e = [ErrNoBuild] /\ (forall r, r ∈ l -> ~ satisfies native cs r) \/
      e = [ErrInvalidVersion] /\ exists item r, item ∈ cs /\ r ∈ l /\ of_platform native r /\ fits item r = None
  | Panicked => False
  end.
Proof using.
  induction cs as [|item cs IH]; intros l; [left; auto|]. cbn [keep_all]. pose proof (keep_matching_spec item native l) as K.
  destruct (keep_matching item native l) as [kept|e|]; cbn [mbind outcome_bind].
  - destruct K as [-> _]. case_bool_decide as Hn.
    + left. split; [reflexivity|]. intros r Hr Hs. destruct Hs as [Ho Hs]. apply Forall_cons in Hs as [Hi _].
      assert (Hin : r ∈ filter (satisfies native [item]) l) by (apply list_elem_of_filter; split; [split; [exact Ho|apply Forall_singleton, Hi]|exact Hr]).
      rewrite Hn in Hin. inversion Hin.
    + specialize (IH (filter (satisfies native [item]) l)). destruct (keep_all cs native _) as [kept|e|].
      * right. split; [discriminate|]. destruct IH as [[-> ->]|(Hc & Hk & ->)]; [split; [exact Hn|reflexivity]|].
        split; [exact Hk|apply filter_satisfies].
      * destruct IH as [[-> IH]|(-> & i & r & Hi & Hr & Ho & Hf)].
        -- left. split; [reflexivity|]. intros r Hr Hs. destruct Hs as [Ho Hs]. apply Forall_cons in Hs as [Hi Hs]. apply (IH r); [|split; assumption].
           apply list_elem_of_filter. split; [split; [exact Ho|apply Forall_singleton, Hi]|exact Hr].
        -- right. split; [reflexivity|]. exists i, r. apply list_elem_of_filter in Hr as [_ Hr]. split; [right; exact Hi|auto].
      * exact IH.
  - right. destruct K as [-> (r & H1 & H2 & H3)]. split; [reflexivity|]. exists item, r. split; [left|auto].
  - exact K.
Qed.

Lemma best_greatest native variants l : forall best, Forall version_known (best :: l) ->
  best_record native variants best l = greatest (record_compare native variants) best l.
Proof using.
  induction l as [|r l IH]; intros best H; [reflexivity|]. apply Forall_cons in H as [Hb H]. apply Forall_cons in H as [Hr H].
  unfold best_record, greatest. cbn [foldl]. rewrite better_compare by assumption. destruct (0 <? _); apply IH; constructor; assumption.
Qed.

Lemma best_in native variants l : forall best, best_record native variants best l ∈ best :: l.
Proof using.
  induction l as [|r l IH]; intros best; [left|]. unfold best_record. cbn [foldl].
  specialize (IH (if betterRecord r best native variants then r else best)). unfold best_record in IH.
  apply elem_of_cons in IH as [->|IH]; [|right; right; exact IH]. destruct (betterRecord _ _ _ _); [right; left|left].
Qed.

(** A constraint that asks for a version needs versions that parse. *)
Definition asks_version (item : constraint) : Prop := (is_empty (TrimSpace (c_version item)) || bool_decide (c_version item = "*")) = false.
Lemma fits_known item r : asks_version item -> fits item r = Some true -> version_known r.
Proof using.
  unfold asks_version, fits, matchVersion, version_known. intros ->. destruct (parseVersionExpr _); [|discriminate]. cbn.
  destruct (parseCondaVersion _); [eauto|discriminate].
Qed.

(** Records that can tie: the channel lists a file of a directory once. *)
Definition files_distinct (records : list record) : Prop :=
  forall a b, a ∈ records -> b ∈ records -> r_Filename a = r_Filename b -> r_Subdir a = r_Subdir b -> a = b.

Lemma keep_matching_perm item native l l' : l ≡ₚ l' ->
  match keep_matching item native l, keep_matching item native l' with
  | Done k, Done k' => k ≡ₚ k'
  | Failed e, Failed e' => e = e'
  | _, _ => False
  end.
Proof using.
  intros Hp. pose proof (keep_matching_spec item native l) as K. pose proof (keep_matching_spec item native l') as K'.
  destruct (keep_matching item native l) as [k|e|], (keep_matching item native l') as [k'|e'|]; try contradiction.
  - destruct K as [-> _], K' as [-> _]. rewrite Hp. reflexivity.
  - destruct K as [_ K], K' as (_ & r & H1 & H2 & H3). rewrite <- Hp in H1. exact (K r H1 H2 H3).
  - destruct K' as [_ K'], K as (_ & r & H1 & H2 & H3). rewrite Hp in H1. exact (K' r H1 H2 H3).
  - destruct K as [-> _], K' as [-> _]. reflexivity.
Qed.

Lemma keep_all_perm native cs : forall l l', l ≡ₚ l' ->
  match keep_all cs native l, keep_all cs native l' with
  | Done k, Done k' => k ≡ₚ k'
  | Failed e, Failed e' => e = e'
  | _, _ => False
  end.
Proof using.
  induction cs as [|item cs IH]; intros l l' Hp; [exact Hp|]. cbn [keep_all]. pose proof (keep_matching_perm item native l l' Hp) as K.
  destruct (keep_matching item native l) as [k|e|], (keep_matching item native l') as [k'|e'|]; cbn [mbind outcome_bind]; try contradiction; try exact K.
  do 2 case_bool_decide; subst; try reflexivity.
  - symmetry in K. apply Permutation_nil_r in K. contradiction.
  - apply Permutation_nil_r in K. contradiction.
  - apply IH, K.
Qed.
End picks.

(** ** Listing versions *)

Lemma distinct_versions_spec records subdir : forall seen v,
  (v ∈ distinct_versions seen records subdir) <-> (v ∉ seen /\ exists r, r ∈ records /\ of_platform subdir r /\ r_Version r = v).
Proof.
  induction records as [|r records IH]; intros seen v; cbn [distinct_versions].
  { split; [inversion 1|]. intros (_ & r & H & _). inversion H. }
  rewrite foreign_record. case_bool_decide as Ho; cbn [negb].
  - case_bool_decide as Hs; rewrite ?elem_of_cons, IH, ?not_elem_of_union, ?not_elem_of_singleton.
    + split; intros (H1 & x & H2 & H3); (split; [exact H1|]); exists x; [rewrite elem_of_cons; tauto|].
      apply elem_of_cons in H2 as [->|H2]; [|auto]. destruct H3 as [_ <-]. contradiction.
    + split.
      * intros [->|([H0 H1] & x & H2 & H3)]; [split; [exact Hs|]; exists r; rewrite elem_of_cons; auto|]. split; [exact H1|]. exists x. rewrite elem_of_cons. auto.
      * intros (H1 & x & H2 & H3). destruct (decide (v = r_Version r)) as [|Hne]; [auto|]. right. split; [auto|]. exists x.
        apply elem_of_cons in H2 as [->|H2]; [destruct H3 as [_ <-]; contradiction|auto].
  - rewrite IH. split; intros (H1 & x & H2 & H3); (split; [exact H1|]); exists x; [rewrite elem_of_cons; tauto|].
    apply elem_of_cons in H2 as [->|H2]; [tauto|auto].
Qed.

Lemma distinct_versions_nodup records subdir : forall seen, NoDup (distinct_versions seen records subdir).
Proof.
  induction records as [|r records IH]; intros seen; cbn [distinct_versions]; [constructor|].
  destruct (negb _ && negb _); [apply IH|]. case_bool_decide; [apply IH|]. constructor; [|apply IH].
  rewrite distinct_versions_spec, not_elem_of_union, not_elem_of_singleton. tauto.
Qed.

(** On versions that parse, the rank is the order of versions. *)
Lemma rank_strict_weak (l : list string) : (forall v, v ∈ l -> is_Some (parseCondaVersion v)) ->
  strict_weak_on (fun v => v ∈ l) (fun a b => 0 <? versionRank a b).
Proof.
  intros Hl. assert (Hr : forall a, a ∈ l -> exists v, parseCondaVersion a = Some v) by (intros a Ha; destruct (Hl a Ha); eauto).
  unfold strict_weak_on, versionRank, compareVersions. split; [|split].
  - intros a Ha. destruct (Hr a Ha) as [v ->]. cbn. rewrite compare_refl. reflexivity.
  - intros a b c Ha Hb Hc. destruct (Hr a Ha) as [u ->], (Hr b Hb) as [v ->], (Hr c Hc) as [w ->]. cbn. rewrite !Z.ltb_lt.
    pose proof (compare_opp (cmp := version_compare) u v). pose proof (compare_opp (cmp := version_compare) v w).
    pose proof (compare_opp (cmp := version_compare) u w). pose proof (compare_lt_le version_compare w v u). lia.
  - intros a b c Ha Hb Hc. destruct (Hr a Ha) as [u ->], (Hr b Hb) as [v ->], (Hr c Hc) as [w ->]. cbn. rewrite !Z.ltb_lt.
    pose proof (compare_opp (cmp := version_compare) u v). pose proof (compare_trans (cmp := version_compare) u w v).
    destruct (Z.lt_ge_cases 0 (version_compare u w)), (Z.lt_ge_cases 0 (version_compare w v)); auto; lia.
Qed.

(** ** Requests *)

Lemma cut_char_none (p : ascii -> bool) c s : p c = false -> all_chars p s = true -> Cut (String c EmptyString) s = None.
Proof.
  intros Hc. induction s as [|d s IH]; [reflexivity|]. cbn [all_chars]. rewrite andb_true_iff. intros [H1 H2].
  cbn [Cut CutPrefix]. assert (E : same_char c d = false) by (apply same_char_false; congruence). rewrite E, IH by exact H2. reflexivity.
Qed.
Lemma cut_char_some (p : ascii -> bool) c s t : p c = false -> all_chars p s = true ->
  Cut (String c EmptyString) (s +:+ String c t) = Some (s, t).
Proof.
  intros Hc. induction s as [|d s IH].
  - intros _. change (EmptyString +:+ String c t) with (String c t). cbn [Cut CutPrefix]. rewrite same_char_refl. destruct t; reflexivity.
  - cbn [all_chars]. rewrite andb_true_iff. intros [H1 H2]. change (String d s +:+ String c t) with (String d (s +:+ String c t)).
    cbn [Cut CutPrefix]. assert (E : same_char c d = false) by (apply same_char_false; congruence). rewrite E, IH by exact H2. reflexivity.
Qed.
Lemma any_char_false (p q : ascii -> bool) s : (forall c, p c = true -> q c = false) -> all_chars p s = true -> any_char q s = false.
Proof. intros H. induction s as [|c s IH]; [reflexivity|]. cbn [all_chars any_char]. rewrite andb_true_iff. intros [H1 H2]. rewrite (H c H1), IH by exact H2. reflexivity. Qed.

Lemma bound_plain c : bound_char c = true -> space_char c = false /\ c <> "="%char /\ bool_decide (c ∈ ["<"; ">"; "~"]%char) = false.
Proof. intros H. split; [|split; [intros ->; discriminate H|]]; revert H; destruct c as [[] [] [] [] [] [] [] []]; vm_compute; auto. Qed.

Lemma operator_free c : operator_char c = false -> bool_decide (c ∈ ["<"; ">"; "!"; "="; "~"]%char) = false.
Proof. destruct c as [[] [] [] [] [] [] [] []]; vm_compute; auto. Qed.

(** A version stands for itself, exactly. *)
Lemma requested_version v : bound_ok v = true -> v <> "latest" -> requestedSpec v = ("==" +:+ v, EmptyString).
Proof.
  intros Hb Hl. destruct (bound_facts v Hb) as (Hc & _ & c & rest & E & Hop). unfold requestedSpec.
  rewrite trim_plain by (revert Hc; apply all_chars_impl; intros d Hd; apply negb_true_iff, (bound_plain d Hd)).
  rewrite (cut_char_none bound_char) by (exact Hc || reflexivity). subst v. cbn [is_empty orb]. rewrite bool_decide_false by exact Hl.
  rewrite operator_free by exact Hop. reflexivity.
Qed.

(** So do a version and a build. *)
Lemma requested_build v b : bound_ok v = true -> all_chars (fun c => negb (same_char "!" c)) v = true -> b <> EmptyString ->
  all_chars (fun c => negb (space_char c)) b = true -> requestedSpec (v +:+ "=" +:+ b) = ("==" +:+ v, b).
Proof.
  intros Hb Hv Hne Hs. destruct (bound_facts v Hb) as (Hc & _ & c & rest & E & Hop). unfold requestedSpec.
  assert (Hv2 : all_chars (fun c => negb (space_char c)) v = true) by (revert Hc; apply all_chars_impl; intros d Hd; apply negb_true_iff, (bound_plain d Hd)).
  rewrite trim_plain by (rewrite !all_chars_app, Hv2, Hs; reflexivity).
  replace (Cut "=" (v +:+ "=" +:+ b)) with (Some (v, b)) by (symmetry; apply (cut_char_some bound_char); [reflexivity|exact Hc]).
  assert (Hany : ContainsAny ["<"; ">"; "!"; "~"]%char v = false).
  { unfold ContainsAny. apply (any_char_false (fun c => bound_char c && negb (same_char "!" c))).
    - intros d Hd. apply andb_true_iff in Hd as [H1 H2]. destruct (bound_plain d H1) as (_ & _ & H3). apply negb_true_iff, same_char_false in H2.
      clear -H2 H3. revert H2 H3. destruct d as [[] [] [] [] [] [] [] []]; vm_compute; congruence.
    - clear -Hc Hv. induction v as [|d v IH]; [reflexivity|]. cbn [all_chars] in *. apply andb_true_iff in Hc as [H1 H2], Hv as [H3 H4]. rewrite H1, H3, IH by assumption. reflexivity. }
  rewrite Hany. subst v. change (String c rest +:+ ?x) with (String c (rest +:+ x)). cbn [is_empty orb].
  assert (Hlat : String c (rest +:+ "=" +:+ b) <> "latest").
  { intros K. assert (Hno : Contains "=" (String c (rest +:+ "=" +:+ b)) = false) by (rewrite K; reflexivity).
    change (String c (rest +:+ "=" +:+ b)) with (String c rest +:+ "=" +:+ b) in Hno. rewrite !Contains_app in Hno. cbn in Hno. rewrite orb_true_r in Hno. discriminate. }
  rewrite bool_decide_false by exact Hlat. destruct b; [contradiction|reflexivity].
Qed.
