(* ===== verification/Closure.v ===== *)
(** * The closure of a package (src/x/tool/conda/resolve.go)

    The order in which the chosen records are installed: [finalRecords] visits
    the dependencies of a record before the record, and leaves a cycle where
    it meets it.  The file proves that the visit ends and lists every record
    that the root reaches once, dependencies first up to cycles. *)
From Stdlib Require Import ZArith Lia Ascii.
From stdpp Require Import base numbers option list strings gmap relations.
From S2P Require Import Prelude Strings Specs Channels Records.

Local Open Scope Z_scope.

(** ** Dependencies *)

Definition constrainedSpec (spec : matchSpec) : bool :=
  let version := TrimSpace (ms_Version spec) in
  let build := TrimSpace (ms_Build spec) in
  if negb (is_empty version) && negb (bool_decide (version = "*")) then true
  else negb (is_empty build) && negb (bool_decide (build = "*")).

(** A package that the system provides, or none. *)
Definition skipped_name (name : string) : bool := is_empty name || HasPrefix "__" name.

Fixpoint splitDeps (deps : list string) : outcome (list string * list string) :=
  match deps with
  | [] => Done ([], [])
  | dep :: deps' =>
      spec ← done_or [ErrInvalidRef] (parseMatchSpec dep);
      '(pinned, loose) ← splitDeps deps';
      Done (if skipped_name (ms_Name spec) then (pinned, loose)
            else if constrainedSpec spec then (dep :: pinned, loose) else (pinned, dep :: loose))
  end.

Fixpoint directDeps (depends : list string) : outcome (list string) :=
  match depends with
  | [] => Done []
  | dep :: depends' =>
      spec ← done_or [ErrInvalidRef] (parseMatchSpec dep);
      deps ← directDeps depends';
      Done (if skipped_name (ms_Name spec) then deps else dep :: deps)
  end.

Definition sameArtifact (l r : record) : bool :=
  bool_decide (r_Subdir l = r_Subdir r) && bool_decide (r_Version l = r_Version r) && bool_decide (r_Build l = r_Build r) &&
  bool_decide (r_Filename l = r_Filename r).

(** The key of a package in the map of choices. *)
Definition package_key (base name : string) : string := base +:+ String (ascii_of_nat 0) name.

(** ** The final order *)

(** What [finalRecords] reads of a choice. *)
Record chosen_record : Type := mkChosen { cr_base : string; cr_rec : record }.

(** The maps of [finalRecords] and its result. *)
Record visit : Type := mkVisit { visited : gset string; visiting : gset string; out : list record }.

Section closure.
Context {U : Urls} (chosen : gmap string chosen_record).

(** The key of a dependency; [None] is a package of the system. *)
Definition dep_key (base dep : string) : outcome (option string) :=
  spec ← done_or [ErrInvalidRef] (parseMatchSpec dep);
  if skipped_name (ms_Name spec) then Done None else
  depBase ← (if is_empty (ms_Channel spec) then Done base else ch ← resolveChannel (ms_Channel spec); Done (ch_Base ch));
  Done (Some (package_key depBase (ms_Name spec))).

(** The loop over the dependencies; [None] is a [walk] out of fuel. *)
Fixpoint final_deps (walk : string -> visit -> option (outcome visit)) (base : string) (deps : list string) (v : visit) : option (outcome visit) :=
  match deps with
  | [] => Some (Done v)
  | dep :: deps' =>
      match dep_key base dep with
      | Done None => final_deps walk base deps' v
      | Done (Some key) =>
          r ← walk key v;
          match r with Done v' => final_deps walk base deps' v' | r => Some r end
      | Failed e => Some (Failed e)
      | Panicked => Some Panicked
      end
  end.

Fixpoint final_walk (fuel : nat) (key : string) (v : visit) : option (outcome visit) :=
  match fuel with
  | O => None
  | S fuel' =>
      if bool_decide (key ∈ visited v) || bool_decide (key ∈ visiting v) then Some (Done v) else
      match chosen !! key with
      | None => Some (Done v)
      | Some slot =>
          r ← final_deps (final_walk fuel') (cr_base slot) (r_Depends (cr_rec slot)) (mkVisit (visited v) ({[ key ]} ∪ visiting v) (out v));
          Some (v' ← r; Done (mkVisit ({[ key ]} ∪ visited v') (visiting v' ∖ {[ key ]}) (out v' ++ [cr_rec slot])))
      end
  end.

Definition finalRecords (fuel : nat) (rootKey : string) : option (outcome (list record)) :=
  r ← final_walk fuel rootKey (mkVisit ∅ ∅ []);
  Some (v ← r; Done (out v)).

(** ** Reaching *)

(** A chosen package depends on another. *)
Definition edge (k d : string) : Prop := exists slot dep,
  chosen !! k = Some slot /\ dep ∈ r_Depends (cr_rec slot) /\ dep_key (cr_base slot) dep = Done (Some d) /\ is_Some (chosen !! d).
Definition reaches : string -> string -> Prop := rtc edge.

(** [l] lists a key before another. *)
Definition listed_before (l : list string) (d k : string) : Prop := exists l1 l2, l = l1 ++ k :: l2 /\ d ∈ l1.

(** The dependencies of a choice can be read. *)
Definition deps_known (k : string) : Prop := forall slot dep, chosen !! k = Some slot -> dep ∈ r_Depends (cr_rec slot) ->
  exists d, dep_key (cr_base slot) dep = Done d.

(** The keys [ks] of the records listed so far. *)
Definition visit_ok (v : visit) (ks : list string) : Prop :=
  NoDup ks /\ (forall k, k ∈ visited v <-> k ∈ ks) /\ visited v ## visiting v /\
  map Some (out v) = map (fun k => cr_rec <$> chosen !! k) ks /\
  (forall k d, k ∈ ks -> edge k d -> (d ∈ ks \/ d ∈ visiting v) /\ (listed_before ks d k \/ reaches d k)) /\
  forall k, k ∈ ks -> deps_known k.

(** ** The visit ends *)

Lemma dep_key_total base dep : dep_key base dep <> Panicked.
Proof using.
  unfold dep_key. destruct (parseMatchSpec dep) as [spec|]; [|discriminate]. cbn. destruct (skipped_name _); [discriminate|].
  destruct (is_empty _); [discriminate|]. cbn. unfold resolveChannel. cbv zeta. destruct (ContainsString _ _).
  - destruct (url_Parse _); [|discriminate]. destruct (_ || _); discriminate.
  - destruct (find_channel _ _); discriminate.
Qed.

Definition keeps_visiting (v : visit) (r : outcome visit) : Prop := match r with Done v' => visiting v' = visiting v | Failed _ => True | Panicked => False end.

Lemma final_deps_total walk base v0 : (forall key v, visiting v = visiting v0 -> exists r, walk key v = Some r /\ keeps_visiting v r) ->
  forall deps v, visiting v = visiting v0 -> exists r, final_deps walk base deps v = Some r /\ keeps_visiting v r.
Proof using.
  intros Hw deps. induction deps as [|dep deps IH]; intros v Hv; [exists (Done v); split; reflexivity|]. cbn [final_deps].
  pose proof (dep_key_total base dep) as Hp. destruct (dep_key base dep) as [[key|]|e|]; [|apply IH, Hv|exists (Failed e); split; [reflexivity|exact I]|contradiction].
  destruct (Hw key v Hv) as (r & -> & Hr). cbn [mbind option_bind]. destruct r as [v'|e|]; [|exists (Failed e); split; [reflexivity|exact I]|contradiction].
  cbn in Hr. destruct (IH v') as (r & -> & Hr'); [congruence|]. exists r. split; [reflexivity|]. destruct r; cbn in *; congruence.
Qed.

Lemma final_walk_total fuel : forall key v, (size (dom chosen ∖ visiting v) < fuel)%nat ->
  exists r, final_walk fuel key v = Some r /\ keeps_visiting v r.
Proof using.
  induction fuel as [|fuel IH]; intros key v Hf; [lia|]. cbn [final_walk].
  case_bool_decide as Hvd; [exists (Done v); split; reflexivity|]. case_bool_decide as Hvg; [exists (Done v); split; reflexivity|]. cbn [orb].
  destruct (chosen !! key) as [slot|] eqn:E; [|exists (Done v); split; reflexivity].
  set (v1 := mkVisit (visited v) ({[key]} ∪ visiting v) (out v)).
  destruct (final_deps_total (final_walk fuel) (cr_base slot) v1) with (deps := r_Depends (cr_rec slot)) (v := v1) as (r & -> & Hr); [|reflexivity|].
  - intros key' v' Hv'. apply IH. rewrite Hv'. cbn [visiting v1]. assert (Hin : key ∈ dom chosen ∖ visiting v).
    { apply elem_of_difference. split; [apply elem_of_dom; eauto|exact Hvg]. }
    enough (size (dom chosen ∖ ({[key]} ∪ visiting v)) < size (dom chosen ∖ visiting v))%nat by lia.
    apply subset_size. split; [set_solver|]. intros Hsub. specialize (Hsub key Hin). set_solver.
  - cbn [mbind option_bind]. eexists. split; [reflexivity|]. destruct r as [v'|e|]; cbn in *; [|exact I|contradiction]. rewrite Hr. set_solver.
Qed.

(** ** What it lists *)

Lemma listed_before_app l l' d k : listed_before l d k -> listed_before (l ++ l') d k.
Proof using. intros (l1 & l2 & -> & Hd). exists l1, (l2 ++ l'). rewrite <- app_assoc. auto. Qed.

(** What a call with result [r] does: more keys are listed. *)
Definition visits (v : visit) (ks : list string) (from : string -> Prop) (v' : visit) : Prop :=
  exists ks2, visit_ok v' (ks ++ ks2) /\ visiting v' = visiting v /\ Forall from ks2.

Lemma visit_ok_visiting v ks key : key ∉ visited v -> visit_ok v ks -> visit_ok (mkVisit (visited v) ({[key]} ∪ visiting v) (out v)) ks.
Proof using.
  intros Hs (H1 & H2 & H3 & H4 & H5 & H6). split; [exact H1|]. split; [exact H2|]. split; [cbn; set_solver|]. split; [exact H4|]. split; [|exact H6].
  intros k d Hk He. destruct (H5 k d Hk He) as [[?|?] ?]; split; auto. right. apply elem_of_union. auto.
Qed.

Lemma final_deps_visits walk k slot v0 :
  chosen !! k = Some slot ->
  (forall d v v' ks, edge k d -> visit_ok v ks -> visiting v = visiting v0 -> walk d v = Some (Done v') ->
     visits v ks (reaches d) v' /\ (d ∈ visited v' \/ d ∈ visiting v0)) ->
  (forall d v, chosen !! d = None -> walk d v = Some (Done v) \/ walk d v = None) ->
  forall deps v v' ks, (forall dep, dep ∈ deps -> dep ∈ r_Depends (cr_rec slot)) ->
  visit_ok v ks -> visiting v = visiting v0 -> final_deps walk (cr_base slot) deps v = Some (Done v') ->
  visits v ks (reaches k) v' /\ (forall dep, dep ∈ deps -> exists d, dep_key (cr_base slot) dep = Done d) /\
  forall dep d, dep ∈ deps -> dep_key (cr_base slot) dep = Done (Some d) -> is_Some (chosen !! d) -> d ∈ visited v' \/ d ∈ visiting v0.
Proof using.
  intros Hk Hw Hnone. induction deps as [|dep deps IH]; intros v v' ks Hdeps Hok Hv; cbn [final_deps].
  { intros [= <-]. split; [exists []; rewrite app_nil_r; auto|]. split; [intros dep Hd|intros dep d Hd]; inversion Hd. }
  assert (Hdeps' : forall x, x ∈ deps -> x ∈ r_Depends (cr_rec slot)) by (intros x Hx; apply Hdeps; right; exact Hx).
  assert (Hknown : forall o, dep_key (cr_base slot) dep = Done o -> (forall x, x ∈ deps -> exists d, dep_key (cr_base slot) x = Done d) ->
    forall x, x ∈ dep :: deps -> exists d, dep_key (cr_base slot) x = Done d) by (intros o Eo Hx x [->|Hin]%elem_of_cons; [exists o; exact Eo|apply Hx, Hin]).
  destruct (dep_key (cr_base slot) dep) as [[d|]|e|] eqn:Ed; try discriminate.
  2: { intros H. destruct (IH v v' ks Hdeps' Hok Hv H) as (H1 & H0 & H2). split; [exact H1|]. split; [apply (Hknown None eq_refl H0)|].
       intros x y Hx. apply elem_of_cons in Hx as [->|Hx]; [rewrite Ed; discriminate|apply H2, Hx]. }
  destruct (walk d v) as [[v1|e|]|] eqn:Ew; cbn [mbind option_bind]; try discriminate. intros H.
  destruct (chosen !! d) as [sd|] eqn:Esd.
  2: { destruct (Hnone d v Esd) as [E|E]; rewrite E in Ew; [injection Ew as ->|discriminate].
       destruct (IH v1 v' ks Hdeps' Hok Hv H) as (H1 & H0 & H2). split; [exact H1|]. split; [apply (Hknown _ eq_refl H0)|].
       intros x y Hx. apply elem_of_cons in Hx as [->|Hx]; [|apply H2, Hx].
       rewrite Ed. intros [= <-]. rewrite Esd. intros [? [=]]. }
  assert (He : edge k d) by (exists slot, dep; repeat split; [exact Hk|apply Hdeps; left|exact Ed|rewrite Esd; eauto]).
  destruct (Hw d v v1 ks He Hok Hv Ew) as [(ks1 & Hok1 & Hv1 & Hf1) Hd1].
  destruct (IH v1 v' (ks ++ ks1) Hdeps' Hok1 ltac:(congruence) H) as [(ks2 & Hok2 & Hv2 & Hf2) [H0 Hd2]].
  split.
  - exists (ks1 ++ ks2). rewrite app_assoc. split; [exact Hok2|]. split; [congruence|]. apply Forall_app. split; [|exact Hf2].
    apply (Forall_impl _ _ _ Hf1). intros x Hx. apply rtc_l with d; assumption.
  - split; [apply (Hknown _ eq_refl H0)|].
    intros x y Hx. apply elem_of_cons in Hx as [->|Hx]; [|apply Hd2, Hx]. rewrite Ed. intros [= <-] _. destruct Hd1 as [Hd1|Hd1]; [left|right; exact Hd1].
    destruct Hok1 as (_ & Hin1 & _), Hok2 as (_ & Hin2 & _). apply Hin2. apply Hin1 in Hd1. apply elem_of_app. auto.
Qed.

(** The keys that a call meets on the stack reach it. *)
Lemma final_walk_visits fuel : forall key v v' ks, visit_ok v ks -> (forall a, a ∈ visiting v -> reaches a key) ->
  final_walk fuel key v = Some (Done v') ->
  visits v ks (reaches key) v' /\ (is_Some (chosen !! key) -> key ∈ visited v' \/ key ∈ visiting v).
Proof using.
  induction fuel as [|fuel IH]; intros key v v' ks Hok Hst; [discriminate|]. cbn [final_walk].
  case_bool_decide as Hvd; [intros [= <-]; split; [exists []; rewrite app_nil_r; auto|auto]|].
  case_bool_decide as Hvg; [intros [= <-]; split; [exists []; rewrite app_nil_r; auto|auto]|]. cbn [orb].
  destruct (chosen !! key) as [slot|] eqn:E; [|intros [= <-]; split; [exists []; rewrite app_nil_r; auto|intros [? [=]]]].
  set (v1 := mkVisit (visited v) ({[key]} ∪ visiting v) (out v)).
  destruct (final_deps _ _ _ v1) as [[v2|e|]|] eqn:Ed; cbn [mbind option_bind outcome_bind]; try discriminate. intros [= <-].
  assert (Hok1 : visit_ok v1 ks) by (apply visit_ok_visiting; assumption).
  assert (Hcalls : forall d w w' ks', edge key d -> visit_ok w ks' -> visiting w = visiting v1 -> final_walk fuel d w = Some (Done w') ->
    visits w ks' (reaches d) w' /\ (d ∈ visited w' \/ d ∈ visiting v1)).
  { intros d w w' ks' He Hok' Hv' Hw'. rewrite <- Hv'. destruct (IH d w w' ks' Hok') as [K1 K2]; [|exact Hw'|].
    - intros a Ha. rewrite Hv' in Ha. cbn [visiting v1] in Ha. apply elem_of_union in Ha as [->%elem_of_singleton|Ha]; [apply rtc_once, He|].
      apply rtc_r with key; [apply Hst, Ha|exact He].
    - split; [exact K1|]. apply K2. destruct He as (? & ? & _ & _ & _ & Hd). exact Hd. }
  assert (Hnone : forall d w, chosen !! d = None -> final_walk fuel d w = Some (Done w) \/ final_walk fuel d w = None).
  { intros d w Hd. destruct fuel; [right; reflexivity|left]. cbn [final_walk]. destruct (_ || _); [reflexivity|]. rewrite Hd. reflexivity. }
  destruct (final_deps_visits (final_walk fuel) key slot v1 E Hcalls Hnone (r_Depends (cr_rec slot)) v1 v2 ks ltac:(auto) Hok1 eq_refl Ed)
    as [(ks2 & (N2 & M2 & D2 & O2 & E2 & K2) & Hv2 & Hf2) [Hkn Hd2]].
  cbn [visiting v1] in Hv2, Hd2.
  assert (Hnew : key ∉ ks ++ ks2) by (intros Hin; apply M2 in Hin; set_solver).
  split; [|intros _; left; cbn; set_solver].
  exists (ks2 ++ [key]). rewrite app_assoc. split; [|split; [cbn; set_solver|]].
  2: { apply Forall_app. split; [exact Hf2|apply Forall_singleton, rtc_refl]. }
  split; [apply NoDup_app; split; [exact N2|]; split; [intros x Hx Hx'; apply list_elem_of_singleton in Hx' as ->; contradiction|apply NoDup_singleton]|].
  split; [intros k; cbn; rewrite elem_of_union, elem_of_singleton, M2, !elem_of_app, list_elem_of_singleton; tauto|].
  split; [cbn; set_solver|]. split; [cbn [out]; rewrite (map_app _ (out v2)), (map_app _ (ks ++ ks2)), O2; cbn [map]; rewrite E; reflexivity|].
  split.
  2: { intros k Hk. apply elem_of_app in Hk as [Hk|Hk]; [apply K2, Hk|]. apply list_elem_of_singleton in Hk as ->.
       intros s' dep Es Hdep. rewrite E in Es. injection Es as <-. apply Hkn, Hdep. }
  intros k d Hk He. cbn [visiting]. apply elem_of_app in Hk as [Hk|Hk].
  - destruct (E2 k d Hk He) as [Hin Hbef]. split; [|destruct Hbef; [left; apply listed_before_app; assumption|right; assumption]].
    rewrite elem_of_app, list_elem_of_singleton. destruct (decide (d = key)); [auto|]. destruct Hin; [auto|]. right. set_solver.
  - apply list_elem_of_singleton in Hk as ->. pose proof He as (s' & dep & Es & Hdep & Ekey & Hsome). rewrite E in Es. injection Es as <-.
    specialize (Hd2 dep d Hdep Ekey Hsome). rewrite elem_of_app, list_elem_of_singleton. destruct Hd2 as [Hd2|Hd2].
    + apply M2 in Hd2. split; [auto|]. left. exists (ks ++ ks2), []. auto.
    + apply elem_of_union in Hd2 as [->%elem_of_singleton|Hd2]; [split; [auto|right; apply rtc_refl]|].
      split; [|right; apply Hst, Hd2]. right. apply elem_of_difference. split; [rewrite Hv2; set_solver|]. intros ->%elem_of_singleton. contradiction.
Qed.

(** A failure is the failure of a dependency that the root reaches. *)
Definition fails_with (key : string) (e : list condaErr) : Prop := exists k slot dep,
  reaches key k /\ chosen !! k = Some slot /\ dep ∈ r_Depends (cr_rec slot) /\ dep_key (cr_base slot) dep = Failed e.

Lemma final_deps_fails walk key slot e : chosen !! key = Some slot ->
  (forall d v, walk d v = Some (Failed e) -> edge key d -> fails_with key e) ->
  (forall d v, walk d v = Some (Failed e) -> is_Some (chosen !! d)) ->
  forall deps v, (forall dep, dep ∈ deps -> dep ∈ r_Depends (cr_rec slot)) ->
  final_deps walk (cr_base slot) deps v = Some (Failed e) -> fails_with key e.
Proof using.
  intros E Hw Hsome deps. induction deps as [|dep deps IH]; intros v Hdeps; cbn [final_deps]; [discriminate|].
  assert (Hdeps' : forall x, x ∈ deps -> x ∈ r_Depends (cr_rec slot)) by (intros x Hx; apply Hdeps; right; exact Hx).
  destruct (dep_key (cr_base slot) dep) as [[d|]|e'|] eqn:Ed; [|apply IH, Hdeps'| |discriminate].
  - destruct (walk d v) as [[v1|e1|]|] eqn:Ew; cbn [mbind option_bind]; try discriminate; [apply IH, Hdeps'|].
    intros [= ->]. apply (Hw d v Ew). exists slot, dep. repeat split; [exact E|apply Hdeps; left|exact Ed|apply (Hsome d v Ew)].
  - intros [= ->]. exists key, slot, dep. repeat split; [apply rtc_refl|exact E|apply Hdeps; left|exact Ed].
Qed.

Lemma final_walk_fails fuel : forall key v e, final_walk fuel key v = Some (Failed e) -> fails_with key e.
Proof using.
  induction fuel as [|fuel IH]; intros key v e; [discriminate|]. cbn [final_walk]. destruct (_ || _); [discriminate|].
  destruct (chosen !! key) as [slot|] eqn:E; [|discriminate]. destruct (final_deps _ _ _ _) as [[v2|e2|]|] eqn:Ed; cbn; try discriminate.
  intros [= ->]. revert Ed. apply (final_deps_fails (final_walk fuel) key slot e E); [| |auto].
  - intros d w Hw He. destruct (IH d w e Hw) as (k & s & dep & Hr & H). exists k, s, dep. split; [apply rtc_l with d; assumption|exact H].
  - intros d w Hw. destruct (IH d w e Hw) as (k & s & dep & Hr & Hk & _). destruct Hr as [d|d y z Hdy _]; [eauto|]. destruct Hdy as (s' & _ & Hd & _). eauto.
Qed.

(** The keys of the result. *)
Lemma final_records_spec rootKey fuel : (size chosen < fuel)%nat ->
  match finalRecords fuel rootKey with
  | Some (Done recs) => exists ks, NoDup ks /\ map Some recs = map (fun k => cr_rec <$> chosen !! k) ks /\
      (is_Some (chosen !! rootKey) -> forall k, k ∈ ks <-> reaches rootKey k) /\
      (forall k d, k ∈ ks -> edge k d -> listed_before ks d k \/ reaches d k) /\ (forall k, k ∈ ks -> deps_known k)
  | Some (Failed e) => fails_with rootKey e
  | _ => False
  end.
Proof using.
  intros Hfuel. set (v0 := mkVisit ∅ ∅ []). destruct (final_walk_total fuel rootKey v0) as (r & Er & Hr).
  { cbn. rewrite difference_empty_L, size_dom. exact Hfuel. }
  unfold finalRecords. fold v0. rewrite Er. cbn [mbind option_bind]. destruct r as [v|e|]; cbn [outcome_bind]; [|apply (final_walk_fails fuel rootKey v0 e Er)|exact Hr].
  assert (Hok0 : visit_ok v0 []) by (split; [constructor|]; split; [intros k; cbn; set_solver|]; split; [cbn; set_solver|]; split; [reflexivity|]; split; [intros k d Hk|intros k Hk]; inversion Hk).
  destruct (final_walk_visits fuel rootKey v0 v [] Hok0 ltac:(cbn; set_solver) Er) as [(ks & (N & M & _ & O & E2 & K2) & Hv & Hf) Hroot].
  cbn [app visiting v0] in *. exists ks. split; [exact N|]. split; [exact O|]. split; [|split; [intros k d Hk He; apply (E2 k d Hk He)|exact K2]].
  intros Hs k. split; [intros Hk; exact (proj1 (Forall_forall _ _) Hf k Hk)|]. intros Hreach.
  assert (Hr0 : rootKey ∈ ks) by (apply M; destruct (Hroot Hs) as [H|H]; [exact H|set_solver]).
  assert (Hclosed : forall x y, edge x y -> x ∈ ks -> y ∈ ks).
  { intros x y Hxy Hx. destruct (E2 x y Hx Hxy) as [[H|H] _]; [exact H|]. rewrite Hv in H. set_solver. }
  clear -Hreach Hr0 Hclosed. induction Hreach as [x|x y z Hxy _ IHr]; eauto.
Qed.
End closure.
