(* ===== verification/Solver.v ===== *)
(** * Solving the dependencies (src/x/tool/conda/resolve.go)

    The concurrent walk over dependencies as a transition system.  The calls
    of [walk], [reconcile] and [activate] and the tasks that they start form a
    tree; a step runs one of its leaves to its next access of the shared
    choices.  An error cancels the session, so it ends the system.

    Solving.v shows what the system computes, and when it ends. *)
From Stdlib Require Import ZArith Lia Ascii.
From stdpp Require Import base numbers option list strings gmap relations.
From S2P Require Import Prelude Strings Specs Channels Records Picks Closure.

Local Open Scope Z_scope.

(** ** State *)

(** [choice]; the channels [ready] and [done] as whether they are closed.  The
    fields [err] and [walkErr] are the error that ends the system. *)
Record choice : Type := mkChoice {
  s_base : string; s_rec : record; s_constraints : list constraint; s_gen : Z; s_ready : bool; s_done : bool
}.
(** [resolveState]: the choices, and the records that were downloaded. *)
Record solve : Type := mkSolve { chosen : gmap string choice; downloaded : list record }.

(** The arguments of [walk]. *)
Record wants : Type := mkWants { w_channel : channel; w_name : string; w_version : string; w_build : string; w_root : bool }.
Definition wanted (w : wants) : constraint := mkConstraint (w_version w) (w_build w).
Definition walk_name (name : string) : string := ToLower (TrimSpace name).
Definition wants_key (w : wants) : string := package_key (ch_Base (w_channel w)) (walk_name (w_name w)).

(** A call.  [frames] is the stack of keys in its context. *)
Inductive proc : Type :=
| Finished
| Fetch (frames : list string) (ch : channel) (dep : string)
| Walk (frames : list string) (w : wants)
| Select (frames : list string) (w : wants)
| Reconcile (frames : list string) (w : wants)
| Reading (first : bool) (frames : list string) (w : wants) (recs : list record) (pending : gset string) (variants : gset string)
| AwaitDone (key : string)
| Download (rec : record)
| Deps (first : bool) (frames : list string) (key : string) (ch : channel) (download : proc) (children : list proc) (loose : list string).

Section solver.
Context {U : Urls} {R : Regexp}.
(** [index.records], the platform, and whether a download succeeds. *)
Variable records : channel -> string -> outcome (list record).
Variable subdir : string.
Variable download : record -> bool.

(** ** Operations *)

Definition wrapMiss (w : wants) (e : list condaErr) : list condaErr := if w_root w then ErrWrapMiss :: e else ErrUnsatisfied :: e.

(** The errors of an operation, wrapped. *)
Definition wrapping {A} (e : list condaErr -> list condaErr) (o : outcome A) : outcome A :=
  match o with Failed l => Failed (e l) | o => o end.

(** What [activeVariants] takes of a choice. *)
Definition slot_variants (variants : gset string) (slot : choice) : gset string :=
  foldl (fun vs item => addVariant vs (c_build item)) (addVariant variants (r_Build (s_rec slot))) (s_constraints slot).

(** [activate] up to its first task: the pinned dependencies start. *)
Definition activate (first : bool) (frames : list string) (key : string) (ch : channel) (rec : record) : outcome proc :=
  deps ← directDeps (r_Depends rec);
  '(pinned, loose) ← splitDeps deps;
  Done (Deps first frames key ch (Download rec) (map (Fetch (frames ++ [key]) ch) pinned) loose).

Definition set_slot (st : solve) (key : string) (slot : choice) : solve := mkSolve (<[key := slot]> (chosen st)) (downloaded st).

(** The first pick of a package, in [walk]. *)
Definition pick_first (st : solve) (frames : list string) (w : wants) (slot : choice) (recs : list record) (variants : gset string) : outcome (solve * proc) :=
  rec ← wrapping (wrapMiss w) (pickSatisfying recs [wanted w] subdir variants);
  let rec := with_url rec (artifactURL (w_channel w) (r_Subdir rec) (r_Filename rec)) in
  p ← activate true frames (wants_key w) (w_channel w) rec;
  Done (set_slot st (wants_key w) (mkChoice (s_base slot) rec [wanted w] (s_gen slot) true (s_done slot)), p).

(** The pick of [reconcile], with the lock of the choice. *)
Definition pick_again (st : solve) (frames : list string) (w : wants) (slot : choice) (recs : list record) (variants : gset string) : outcome (solve * proc) :=
  let constraints := s_constraints slot ++ [wanted w] in
  next ← wrapping (cons ErrUnsatisfied) (pickSatisfying recs constraints subdir (addVariant variants (w_build w)));
  let next := with_url next (artifactURL (w_channel w) (r_Subdir next) (r_Filename next)) in
  if sameArtifact next (s_rec slot) then
    Done (set_slot st (wants_key w) (mkChoice (s_base slot) (s_rec slot) constraints (s_gen slot) (s_ready slot) (s_done slot)),
          if bool_decide (wants_key w ∈ frames) then Finished else AwaitDone (wants_key w))
  else
    p ← activate false frames (wants_key w) (w_channel w) next;
    Done (set_slot st (wants_key w) (mkChoice (s_base slot) next constraints (s_gen slot + 1) (s_ready slot) (s_done slot)), p).

Definition finished (p : proc) : bool := match p with Finished => true | _ => false end.

(** The call of [walk] in [walkDep]. *)
Definition walkDep (ch : channel) (dep : string) : outcome wants :=
  spec ← done_or [ErrInvalidRef] (parseMatchSpec dep);
  ch ← (if is_empty (ms_Channel spec) then Done ch else resolveChannel (ms_Channel spec));
  Done (mkWants ch (ms_Name spec) (ms_Version spec) (ms_Build spec) false).

(** The next step of a call whose tasks are not running, [None] when it waits.
    [k] is the choice that [activeVariants] reads next: a range over a map. *)
Definition local_step (k : string) (st : solve) (p : proc) : option (outcome (solve * proc)) :=
  match p with
  | Finished => None
  | Fetch frames ch dep => Some (w ← walkDep ch dep; Done (st, Walk frames w))
  | Walk frames w =>
      if skipped_name (walk_name (w_name w)) then Some (Done (st, Finished)) else
      match chosen st !! wants_key w with
      | Some _ => Some (Done (st, Reconcile frames w))
      | None => Some (Done (set_slot st (wants_key w) (mkChoice (ch_Base (w_channel w)) noRecord [] 0 false false), Select frames w))
      end
  | Select frames w =>
      Some (recs ← wrapping (wrapMiss w) (records (w_channel w) (walk_name (w_name w)));
            Done (st, Reading true frames w recs (dom (chosen st)) ∅))
  | Reconcile frames w =>
      slot ← chosen st !! wants_key w;
      if s_ready slot then
        Some (recs ← wrapping (cons ErrUnsatisfied) (records (w_channel w) (walk_name (w_name w)));
              Done (st, Reading false frames w recs (dom (chosen st)) ∅))
      else None
  | Reading first frames w recs pending variants =>
      if bool_decide (pending = ∅) then
        slot ← chosen st !! wants_key w;
        Some (if first then pick_first st frames w slot recs variants else pick_again st frames w slot recs variants)
      else if bool_decide (k ∈ pending) then
        slot ← chosen st !! k;
        Some (Done (st, Reading first frames w recs (pending ∖ {[ k ]}) (slot_variants variants slot)))
      else None
  | AwaitDone key =>
      slot ← chosen st !! key;
      if s_done slot then Some (Done (st, Finished)) else None
  | Download rec =>
      Some (if download rec then Done (mkSolve (chosen st) (rec :: downloaded st), Finished) else Failed [ErrOther])
  | Deps first frames key ch dl children loose =>
      if negb (forallb finished children) then None
      else match loose with
      | _ :: _ => Some (Done (st, Deps first frames key ch dl (map (Fetch (frames ++ [key]) ch) loose) []))
      | [] =>
          if negb (finished dl) then None
          else if first then
            slot ← chosen st !! key;
            Some (Done (set_slot st key (mkChoice (s_base slot) (s_rec slot) (s_constraints slot) (s_gen slot) (s_ready slot) true), Finished))
          else Some (Done (st, Finished))
      end
  end.

(** The step of the call at a position of the tree: 0 is the download of a
    record, [S i] its dependency [i]. *)
Fixpoint step_at (path : list nat) (k : string) (st : solve) (p : proc) : option (outcome (solve * proc)) :=
  match path with
  | [] => local_step k st p
  | i :: path' =>
      match p with
      | Deps first frames key ch dl children loose =>
          match i with
          | O => r ← step_at path' k st dl;
                 Some ('(st', dl') ← r; Done (st', Deps first frames key ch dl' children loose))
          | S j => child ← children !! j;
                   r ← step_at path' k st child;
                   Some ('(st', child') ← r; Done (st', Deps first frames key ch dl (<[j := child']> children) loose))
          end
      | _ => None
      end
  end.

Definition step (s : solve * proc) (r : outcome (solve * proc)) : Prop := exists path k, step_at path k s.1 s.2 = Some r.
(** The states without an error. *)
Definition steps : solve * proc -> solve * proc -> Prop := rtc (fun s s' => step s (Done s')).

(** [closure] *)
Definition closure_start (ch : channel) (name versionSpec buildSpec : string) : solve * proc :=
  (mkSolve ∅ [], Walk [] (mkWants ch name versionSpec buildSpec true)).
Definition final_view (st : solve) : gmap string chosen_record := (fun slot => mkChosen (s_base slot) (s_rec slot)) <$> chosen st.
Definition closure_records (st : solve) (ch : channel) (name : string) : option (outcome (list record)) :=
  finalRecords (final_view st) (S (size (final_view st))) (package_key (ch_Base ch) (walk_name name)).

(** A run by the positions and map keys of its steps. *)
Fixpoint run_script (script : list (list nat * string)) (s : solve * proc) : option (solve * proc) :=
  match script with
  | [] => Some s
  | (path, k) :: script' =>
      match step_at path k s.1 s.2 with
      | Some (Done s') => run_script script' s'
      | _ => None
      end
  end.

Lemma run_script_steps script : forall s s', run_script script s = Some s' -> steps s s'.
Proof using.
  induction script as [|[path k] script IH]; intros s s'; cbn [run_script]; [intros [= ->]; apply rtc_refl|].
  destruct (step_at path k s.1 s.2) as [[s1|e|]|] eqn:E; try discriminate. intros H. apply rtc_l with s1; [exists path, k; exact E|apply IH, H].
Qed.
End solver.
