(* ===== verification/Samples.v ===== *)
(** * Sample instances for the conda packages

    A regular expression matcher for the expressions that globs give, a parser
    of URLs, an insertion sort, and small channels, on which the theorems of
    Conda.v are applied. *)
From Stdlib Require Import ZArith Lia Ascii.
From stdpp Require Import base numbers option list strings gmap.
From S2P Require Import Prelude Strings Versions Specs Formulas Channels Records Picks Closure Solver.

Local Open Scope Z_scope.

(** ** Regular expressions *)

(** The items of the text of a glob's expression, up to the [$]. *)
Fixpoint parse_items (s : string) : option (list glob_item) :=
  match s with
  | EmptyString => None
  | String c s' =>
      if same_char c "$" then (if is_empty s' then Some [] else None)
      else if same_char c "\" then
        match s' with String d s'' => cons (GlobChar d) <$> parse_items s'' | EmptyString => None end
      else if same_char c "." then
        match s' with String d s'' => if same_char d "*" then cons GlobStar <$> parse_items s'' else None | EmptyString => None end
      else cons (GlobChar c) <$> parse_items s'
  end.

(** One item in front. *)
Lemma parse_item i s : parse_items (item_text i +:+ s) = cons i <$> parse_items s.
Proof.
  destruct i as [c|]; [|reflexivity]. cbn [item_text]. destruct (special_char c) eqn:E; [reflexivity|].
  change (String c EmptyString +:+ s) with (String c s). cbn [parse_items].
  assert (Hne : forall d, special_char d = true -> same_char c d = false) by (intros d Hd; apply same_char_false; congruence).
  rewrite !Hne by reflexivity. reflexivity.
Qed.

Lemma parse_items_text items : parse_items (items_text items +:+ "$") = Some items.
Proof.
  induction items as [|i items IH]; [reflexivity|]. cbn [items_text]. rewrite <- (assoc String.append), parse_item, IH. reflexivity.
Qed.

Definition sample_compile (t : string) : option (string -> bool) :=
  match t with
  | String c body => if same_char c "^" then match_items <$> parse_items body else None
  | EmptyString => None
  end.
Lemma sample_glob items : sample_compile ("^" +:+ items_text items +:+ "$") = Some (match_items items).
Proof.
  change ("^" +:+ items_text items +:+ "$") with (String "^" (items_text items +:+ "$")). unfold sample_compile.
  rewrite parse_items_text. reflexivity.
Qed.

#[export] Instance sample_regexp : Regexp.
Proof.
  refine {| Compile := sample_compile |}. intros items _. exists (match_items items). split; [apply sample_glob|reflexivity].
Defined.

(** ** URLs *)

(** Scheme, host and path. *)
Record sample_url : Type := mkUrl { u_scheme : string; u_host : string; u_path : string }.
#[export] Instance sample_urls : Urls := {|
  url := sample_url;
  url_Parse s := match Cut "://" s with
                 | Some (scheme, rest) => let '(host, path) := span_not (same_char "/") rest in Some (mkUrl scheme host path)
                 | None => None
                 end;
  url_Host := u_host;
  url_Scheme := u_scheme;
  url_Path := u_path;
  url_WithPath u path := u_scheme u +:+ "://" +:+ u_host u +:+ path;
  url_PathEscape s := s
|}.

(** ** Channels *)

(** A record with its dependencies. *)
Definition sample_record (name version build : string) (number : Z) (depends : list string) : record :=
  mkRecord name version build number depends EmptyString EmptyString 0 "linux-64" (name +:+ "-" +:+ version +:+ "-" +:+ build +:+ ".conda") EmptyString.

Definition forge : channel := mkChannel "conda-forge" "https://conda.anaconda.org/conda-forge" "conda-forge".

(** The records of a package in a list of all, on one repository. *)
Definition sample_index (all : list record) (ch : channel) (name : string) : outcome (list record) :=
  if negb (bool_decide (ch_Base ch = ch_Base forge)) then Failed [ErrOther] else
  let recs := filter (fun r => r_Name r = name) all in
  if bool_decide (recs = []) then Failed [ErrPackageNotFound] else Done recs.

Lemma sample_index_in all ch name recs rec : sample_index all ch name = Done recs -> rec ∈ recs ->
  ch_Base ch = ch_Base forge /\ rec ∈ all /\ r_Name rec = name.
Proof.
  unfold sample_index. case_bool_decide as Hb; [|discriminate]. cbn [negb]. cbv zeta. case_bool_decide; [discriminate|]. intros [= <-] Hin.
  apply list_elem_of_filter in Hin as [H1 H2]. auto.
Qed.

(** A program with a library, whose newest version its tool does not accept. *)
Definition libs : list record :=
  [sample_record "lib" "1.0" "0" 0 []; sample_record "lib" "2.0" "0" 0 ["__glibc"]; sample_record "lib" "3.0" "0" 0 []].
Definition apps : list record :=
  sample_record "app" "1.0" "0" 0 ["lib >=1,<3"; "tool"] :: sample_record "tool" "0.5" "0" 0 ["lib <2"] :: libs.
(** Two packages that need each other, below a third. *)
Definition knot : list record :=
  [sample_record "root" "1.0" "0" 0 ["a >=1"; "b >=1"]; sample_record "a" "1.0" "0" 0 ["b >=1"]; sample_record "b" "1.0" "0" 0 ["a >=1"]].

Definition forge_key (name : string) : string := package_key (ch_Base forge) name.

(** The steps of a run, the choices that are read with their names. *)
Definition named (script : list (list nat * string)) : list (list nat * string) := map (fun '(path, name) => (path, forge_key name)) script.
Definition apps_script : list (list nat * string) := named
  [([], ""); ([], ""); ([], "app"); ([], ""); ([0], ""); ([1], ""); ([1], ""); ([1], ""); ([1], "app"); ([1], "lib"); ([1], "");
   ([1; 0], ""); ([1], ""); ([], ""); ([1], ""); ([1], ""); ([1], ""); ([1], "app"); ([1], "lib"); ([1], "tool"); ([1], "");
   ([1; 0], ""); ([1; 1], ""); ([1; 1], ""); ([1; 1], ""); ([1; 1], "app"); ([1; 1], "lib"); ([1; 1], "tool"); ([1; 1], "");
   ([1; 1; 0], ""); ([1; 1], ""); ([1], ""); ([], "")]%nat.
Definition knot_script : list (list nat * string) := named
  [([], ""); ([], ""); ([], "root"); ([], ""); ([0], "");
   ([1], ""); ([1], ""); ([1], ""); ([1], "root"); ([1], "a"); ([1], "");
   ([2], ""); ([2], ""); ([2], ""); ([2], "root"); ([2], "a"); ([2], "b"); ([2], "");
   ([1; 0], ""); ([1; 1], ""); ([1; 1], ""); ([1; 1], ""); ([1; 1], "root"); ([1; 1], "a"); ([1; 1], "b"); ([1; 1], "");
   ([2; 0], ""); ([2; 1], ""); ([2; 1], ""); ([2; 1], ""); ([2; 1], "root"); ([2; 1], "a"); ([2; 1], "b"); ([2; 1], "")]%nat.

Definition sample_run (all : list record) (name : string) (script : list (list nat * string)) : solve * proc :=
  default (closure_start forge name "" "") (run_script (sample_index all) "linux-64" (fun _ => true) script (closure_start forge name "" "")).

(** The height of a package of [apps]. *)
Definition apps_rank (key : string) : nat :=
  if bool_decide (key = forge_key "app") then 2%nat else if bool_decide (key = forge_key "tool") then 1%nat else 0%nat.
