(* ===== verification/Solving.v ===== *)
(** * What the solver computes (src/x/tool/conda/resolve.go)

    The theory of the transition system of Solver.v.  Nothing is forgotten:
    each package that a chosen record needs is registered with its constraint,
    or a call in the tree still has to register it; the record of a choice
    always satisfies all its constraints.  When dependencies have no cycle the
    system never blocks and every run ends. *)
From Stdlib Require Import ZArith Lia Ascii.
From stdpp Require Import base numbers option list strings gmap relations.
From S2P Require Import Prelude Strings Specs Channels Records Picks Closure Solver.

Local Open Scope Z_scope.

Section solving.
Context {U : Urls} {R : Regexp}.
Variable records : channel -> string -> outcome (list record).
Variable subdir : string.
Variable download : record -> bool.
Local Abbreviation local_step := (local_step records subdir download).
Local Abbreviation step_at := (step_at records subdir download).
Local Abbreviation step := (step records subdir download).

(** ** Steps without an error *)

(** The record of a pick, with its URL. *)
Definition picked (w : wants) (rec : record) : record := with_url rec (artifactURL (w_channel w) (r_Subdir rec) (r_Filename rec)).

(** The tasks of a new record. *)
Definition started (first : bool) (frames : list string) (key : string) (ch : channel) (rec : record) (p : proc) : Prop :=
  exists deps pinned loose, directDeps (r_Depends rec) = Done deps /\ splitDeps deps = Done (pinned, loose) /\
    p = Deps first frames key ch (Download rec) (map (Fetch (frames ++ [key]) ch) pinned) loose.

Definition with_done (slot : choice) : choice := mkChoice (s_base slot) (s_rec slot) (s_constraints slot) (s_gen slot) (s_ready slot) true.
Definition with_constraint (slot : choice) (c : constraint) : choice :=
  mkChoice (s_base slot) (s_rec slot) (s_constraints slot ++ [c]) (s_gen slot) (s_ready slot) (s_done slot).

Inductive lstep (st : solve) : proc -> solve -> proc -> Prop :=
| step_fetch frames ch dep w : walkDep ch dep = Done w -> lstep st (Fetch frames ch dep) st (Walk frames w)
| step_skip frames w : skipped_name (walk_name (w_name w)) = true -> lstep st (Walk frames w) st Finished
| step_join frames w slot : skipped_name (walk_name (w_name w)) = false -> chosen st !! wants_key w = Some slot ->
    lstep st (Walk frames w) st (Reconcile frames w)
| step_create frames w : skipped_name (walk_name (w_name w)) = false -> chosen st !! wants_key w = None ->
    lstep st (Walk frames w) (set_slot st (wants_key w) (mkChoice (ch_Base (w_channel w)) noRecord [] 0 false false)) (Select frames w)
| step_select frames w recs : records (w_channel w) (walk_name (w_name w)) = Done recs ->
    lstep st (Select frames w) st (Reading true frames w recs (dom (chosen st)) ∅)
| step_ready frames w slot recs : chosen st !! wants_key w = Some slot -> s_ready slot = true ->
    records (w_channel w) (walk_name (w_name w)) = Done recs ->
    lstep st (Reconcile frames w) st (Reading false frames w recs (dom (chosen st)) ∅)
| step_read first frames w recs pending variants k slot : k ∈ pending -> chosen st !! k = Some slot ->
    lstep st (Reading first frames w recs pending variants) st (Reading first frames w recs (pending ∖ {[k]}) (slot_variants variants slot))
| step_first frames w recs variants slot rec p : chosen st !! wants_key w = Some slot ->
    pickSatisfying recs [wanted w] subdir variants = Done rec -> started true frames (wants_key w) (w_channel w) (picked w rec) p ->
    lstep st (Reading true frames w recs ∅ variants)
      (set_slot st (wants_key w) (mkChoice (s_base slot) (picked w rec) [wanted w] (s_gen slot) true (s_done slot))) p
| step_same frames w recs variants all slot rec p : chosen st !! wants_key w = Some slot ->
    pickSatisfying recs (s_constraints slot ++ [wanted w]) subdir all = Done rec ->
    sameArtifact (picked w rec) (s_rec slot) = true -> p = Finished \/ p = AwaitDone (wants_key w) ->
    lstep st (Reading false frames w recs ∅ variants) (set_slot st (wants_key w) (with_constraint slot (wanted w))) p
| step_switch frames w recs variants all slot rec p : chosen st !! wants_key w = Some slot ->
    pickSatisfying recs (s_constraints slot ++ [wanted w]) subdir all = Done rec ->
    started false frames (wants_key w) (w_channel w) (picked w rec) p ->
    lstep st (Reading false frames w recs ∅ variants)
      (set_slot st (wants_key w) (mkChoice (s_base slot) (picked w rec) (s_constraints slot ++ [wanted w]) (s_gen slot + 1) (s_ready slot) (s_done slot))) p
| step_awaited key slot : chosen st !! key = Some slot -> s_done slot = true -> lstep st (AwaitDone key) st Finished
| step_download rec : download rec = true -> lstep st (Download rec) (mkSolve (chosen st) (rec :: downloaded st)) Finished
| step_loose first frames key ch dl children loose : forallb finished children = true -> loose <> [] ->
    lstep st (Deps first frames key ch dl children loose) st (Deps first frames key ch dl (map (Fetch (frames ++ [key]) ch) loose) [])
| step_close frames key ch children slot : forallb finished children = true -> chosen st !! key = Some slot ->
    lstep st (Deps true frames key ch Finished children []) (set_slot st key (with_done slot)) Finished
| step_return frames key ch children : forallb finished children = true ->
    lstep st (Deps false frames key ch Finished children []) st Finished.

Lemma activate_started first frames key ch rec p : activate first frames key ch rec = Done p -> started first frames key ch rec p.
Proof using.
  unfold activate, started. intros H. apply outcome_bind_done in H as (deps & Hd & H). apply outcome_bind_done in H as ([pinned loose] & Hs & H).
  injection H as <-. exists deps, pinned, loose. auto.
Qed.

Lemma wrapping_done {A} e (o : outcome A) a : wrapping e o = Done a -> o = Done a.
Proof using. destruct o; [auto|discriminate|discriminate]. Qed.

Lemma local_step_lstep k st p st' p' : local_step k st p = Some (Done (st', p')) -> lstep st p st' p'.
Proof using.
  destruct p as [|frames ch dep|frames w|frames w|frames w|first frames w recs pending variants|key|rec|first frames key ch dl children loose];
    cbn [Solver.local_step]; try discriminate.
  - intros [= H]. apply outcome_bind_done in H as (w & Hw & [= <- <-]). apply step_fetch, Hw.
  - destruct (skipped_name _) eqn:Es; [intros [= <- <-]; apply step_skip, Es|].
    destruct (chosen st !! wants_key w) as [slot|] eqn:E; intros [= <- <-]; [apply (step_join _ _ _ slot); assumption|apply step_create; assumption].
  - intros [= H]. apply outcome_bind_done in H as (recs & Hr & [= <- <-]). apply wrapping_done in Hr. apply step_select, Hr.
  - destruct (chosen st !! wants_key w) as [slot|] eqn:E; [|discriminate]. cbn [mbind option_bind]. destruct (s_ready slot) eqn:Er; [|discriminate].
    intros [= H]. apply outcome_bind_done in H as (recs & Hr & [= <- <-]). apply wrapping_done in Hr. apply (step_ready _ _ _ slot); assumption.
  - case_bool_decide as Hp.
    + subst pending. destruct (chosen st !! wants_key w) as [slot|] eqn:E; [|discriminate]. cbn [mbind option_bind]. intros [= H]. destruct first.
      * unfold pick_first in H. apply outcome_bind_done in H as (rec & Hr & H). apply wrapping_done in Hr. cbv zeta in H.
        apply outcome_bind_done in H as (q & Hq & [= <- <-]). apply step_first; [exact E|exact Hr|apply activate_started, Hq].
      * unfold pick_again in H. cbv zeta in H. apply outcome_bind_done in H as (rec & Hr & H). apply wrapping_done in Hr.
        fold (picked w rec) in H. destruct (sameArtifact (picked w rec) (s_rec slot)) eqn:Es.
        -- injection H as <- <-. eapply step_same; [exact E|exact Hr|exact Es|]. case_bool_decide; auto.
        -- apply outcome_bind_done in H as (q & Hq & [= <- <-]). eapply step_switch; [exact E|exact Hr|apply activate_started, Hq].
    + case_bool_decide as Hk; [|discriminate]. destruct (chosen st !! k) as [slot|] eqn:E; [|discriminate]. cbn [mbind option_bind].
      intros [= <- <-]. apply step_read; assumption.
  - destruct (chosen st !! key) as [slot|] eqn:E; [|discriminate]. cbn [mbind option_bind]. destruct (s_done slot) eqn:Ed; [|discriminate].
    intros [= <- <-]. apply (step_awaited _ key slot); assumption.
  - intros [= H]. destruct (download rec) eqn:Ed; [|discriminate]. injection H as <- <-. apply step_download, Ed.
  - destruct (forallb finished children) eqn:Ef; [|discriminate]. cbn [negb]. destruct loose as [|dep loose].
    + destruct dl; try discriminate. cbn [finished negb]. destruct first; [|intros [= <- <-]; apply step_return, Ef].
      destruct (chosen st !! key) as [slot|] eqn:E; [|discriminate]. cbn [mbind option_bind]. intros [= <- <-]. apply step_close; assumption.
    + intros [= <- <-]. apply step_loose; [exact Ef|discriminate].
Qed.

(** Steps of the tree, by induction on the position. *)
Lemma step_at_ind (Q : solve -> proc -> solve -> proc -> Prop) :
  (forall st p st' p', lstep st p st' p' -> Q st p st' p') ->
  (forall first frames key ch dl dl' children loose st st', Q st dl st' dl' ->
     Q st (Deps first frames key ch dl children loose) st' (Deps first frames key ch dl' children loose)) ->
  (forall first frames key ch dl children j child child' loose st st', children !! j = Some child -> Q st child st' child' ->
     Q st (Deps first frames key ch dl children loose) st' (Deps first frames key ch dl (<[j := child']> children) loose)) ->
  forall path k st p st' p', step_at path k st p = Some (Done (st', p')) -> Q st p st' p'.
Proof using.
  intros Hl Hd Hc path. induction path as [|i path IH]; intros k st p st' p'; [intros H; eapply Hl, local_step_lstep, H|].
  cbn [Solver.step_at]. destruct p as [| | | | | | | |first frames key ch dl children loose]; try discriminate. destruct i as [|j].
  - destruct (Solver.step_at _ _ _ path k st dl) as [r|] eqn:E; [|discriminate]. cbn [mbind option_bind]. intros [= H].
    apply outcome_bind_done in H as ([st1 dl'] & -> & [= <- <-]). apply Hd, (IH k), E.
  - destruct (children !! j) as [child|] eqn:Ej; [|discriminate]. cbn [mbind option_bind].
    destruct (Solver.step_at _ _ _ path k st child) as [r|] eqn:E; [|discriminate]. cbn [mbind option_bind]. intros [= H].
    apply outcome_bind_done in H as ([st1 child'] & -> & [= <- <-]). eapply Hc; [exact Ej|apply (IH k), E].
Qed.

(** ** Picks *)

(** The choice's record comes from the index and satisfies its constraints. *)
Definition slot_sound (key : string) (slot : choice) : Prop :=
  (exists n, key = package_key (s_base slot) n) /\
  (s_ready slot = true -> s_constraints slot <> [] /\ satisfies subdir (s_constraints slot) (s_rec slot) /\
   (exists deps, directDeps (r_Depends (s_rec slot)) = Done deps) /\
   exists w recs rec, key = wants_key w /\ records (w_channel w) (walk_name (w_name w)) = Done recs /\ rec ∈ recs /\ s_rec slot = picked w rec).

Lemma pick_satisfies recs cs variants rec : cs <> [] -> pickSatisfying recs cs subdir variants = Done rec -> rec ∈ recs /\ satisfies subdir cs rec.
Proof using.
  intros Hcs. unfold pickSatisfying. pose proof (keep_all_spec subdir cs recs) as K. destruct (keep_all cs subdir recs) as [kept|e|]; try discriminate.
  cbn [mbind outcome_bind]. destruct kept as [|best rest]; [discriminate|]. intros [= <-]. destruct K as [[? _]|(_ & _ & E)]; [contradiction|].
  pose proof (best_in subdir variants rest best) as Hin. rewrite E in Hin. apply list_elem_of_filter in Hin as [H1 H2]. split; assumption.
Qed.

Lemma satisfies_same cs a b : r_Subdir a = r_Subdir b -> r_Version a = r_Version b -> r_Build a = r_Build b ->
  satisfies subdir cs a -> satisfies subdir cs b.
Proof using. unfold satisfies, of_platform, fits. intros -> -> ->. auto. Qed.

Lemma sameArtifact_fields a b : sameArtifact a b = true -> r_Subdir a = r_Subdir b /\ r_Version a = r_Version b /\ r_Build a = r_Build b.
Proof using. unfold sameArtifact. rewrite !andb_true_iff, !bool_decide_eq_true. intros [[[H1 H2] H3] _]. auto. Qed.

(** ** Duties *)

(** What a call still has to do: publish a choice, register a constraint of a
    package, download a record. *)
Inductive duty : Type := DReady (key : string) | DNeeds (key : string) (c : constraint) | DDownload (rec : record).

Definition duty_met (st : solve) (d : duty) : Prop :=
  match d with
  | DReady key => exists slot, chosen st !! key = Some slot /\ s_ready slot = true
  | DNeeds key c => exists slot, chosen st !! key = Some slot /\ s_ready slot = true /\ c ∈ s_constraints slot
  | DDownload rec => rec ∈ downloaded st
  end.

Definition wants_duties (w : wants) : list duty := if skipped_name (walk_name (w_name w)) then [] else [DNeeds (wants_key w) (wanted w)].
Definition dep_duties (base dep : string) : list duty :=
  match walkDep (mkChannel EmptyString base EmptyString) dep with Done w => wants_duties w | _ => [] end.
Definition rec_duties (base : string) (rec : record) : list duty :=
  DDownload rec :: match directDeps (r_Depends rec) with Done deps => concat (map (dep_duties base) deps) | _ => [] end.

Fixpoint proc_duties (p : proc) : list duty :=
  match p with
  | Finished => []
  | Fetch _ ch dep => dep_duties (ch_Base ch) dep
  | Walk _ w => wants_duties w
  | Select _ w => [DReady (wants_key w); DNeeds (wants_key w) (wanted w)]
  | Reconcile _ w => [DNeeds (wants_key w) (wanted w)]
  | Reading first _ w _ _ _ => (if first then [DReady (wants_key w)] else []) ++ [DNeeds (wants_key w) (wanted w)]
  | AwaitDone _ => []
  | Download rec => [DDownload rec]
  | Deps _ _ _ ch dl children loose => proc_duties dl ++ concat (map proc_duties children) ++ concat (map (dep_duties (ch_Base ch)) loose)
  end.

Lemma walkDep_duties ch dep w : walkDep ch dep = Done w -> dep_duties (ch_Base ch) dep = wants_duties w.
Proof using.
  unfold dep_duties, walkDep. destruct (parseMatchSpec dep) as [spec|]; [|discriminate]. cbn [done_or mbind outcome_bind].
  destruct (is_empty (ms_Channel spec)); cbn [mbind outcome_bind].
  - intros [= <-]. reflexivity.
  - destruct (resolveChannel (ms_Channel spec)) as [ch'|e|]; try discriminate. cbn [mbind outcome_bind]. intros [= <-]. reflexivity.
Qed.

(** The pinned and the loose dependencies are the dependencies. *)
Lemma splitDeps_perm deps : forall direct pinned loose, directDeps deps = Done direct -> splitDeps direct = Done (pinned, loose) -> pinned ++ loose ≡ₚ direct.
Proof using.
  assert (Hd : forall deps direct, directDeps deps = Done direct -> Forall (fun dep => exists spec, parseMatchSpec dep = Some spec /\ skipped_name (ms_Name spec) = false) direct).
  { clear. induction deps as [|dep deps IH]; intros direct; cbn [directDeps]; [intros [= <-]; constructor|]. destruct (parseMatchSpec dep) as [spec|] eqn:Ep; [|discriminate].
    cbn [done_or mbind outcome_bind]. destruct (directDeps deps) as [rest|e|]; try discriminate. cbn [mbind outcome_bind]. intros [= <-].
    specialize (IH rest eq_refl). destruct (skipped_name (ms_Name spec)) eqn:Es; [exact IH|constructor; [eauto|exact IH]]. }
  intros direct pinned loose H. apply Hd in H. clear Hd. revert pinned loose. induction H as [|dep direct (spec & Ep & Es) _ IH]; intros pinned loose; cbn [splitDeps].
  - intros [= <- <-]. reflexivity.
  - rewrite Ep. cbn [done_or mbind outcome_bind]. destruct (splitDeps direct) as [[p l]|e|]; try discriminate. cbn [mbind outcome_bind]. rewrite Es.
    destruct (constrainedSpec spec); intros [= <- <-]; rewrite <- (IH _ _ eq_refl); [reflexivity|symmetry; apply Permutation_middle].
Qed.

Lemma concat_elem {A B} (f : A -> list B) l y : y ∈ concat (map f l) <-> exists x, x ∈ l /\ y ∈ f x.
Proof using.
  induction l as [|a l IH]; cbn [map concat]; [split; [inversion 1|intros (x & H & _); inversion H]|]. rewrite elem_of_app, IH. split.
  - intros [H|(x & H1 & H2)]; [exists a; split; [left|exact H]|exists x; split; [right; exact H1|exact H2]].
  - intros (x & H1 & H2). apply elem_of_cons in H1 as [->|H1]; eauto.
Qed.

Lemma started_duties first frames key ch rec p d : started first frames key ch rec p -> d ∈ rec_duties (ch_Base ch) rec -> d ∈ proc_duties p.
Proof using.
  intros (deps & pinned & loose & Hd & Hs & ->) H. unfold rec_duties in H. rewrite Hd in H. cbn [proc_duties].
  apply elem_of_cons in H as [->|H]; [left|]. apply elem_of_app. right. rewrite map_map, <- concat_app.
  change (fun x => proc_duties (Fetch (frames ++ [key]) ch x)) with (dep_duties (ch_Base ch)). rewrite <- map_app.
  apply concat_elem in H as (dep & H1 & H2). apply concat_elem. exists dep. split; [|exact H2]. rewrite (splitDeps_perm _ _ _ _ Hd Hs). exact H1.
Qed.

(** ** Owners *)

(** The first calls for a key before its choice is ready. *)
Fixpoint first_calls (key : string) (p : proc) : nat :=
  match p with
  | Select _ w | Reading true _ w _ _ _ => if bool_decide (wants_key w = key) then 1%nat else 0%nat
  | Deps _ _ _ _ dl children _ => (first_calls key dl + list_sum (map (first_calls key) children))%nat
  | _ => 0%nat
  end.
Definition unready (st : solve) (key : string) : nat := match chosen st !! key with Some slot => if s_ready slot then 0%nat else 1%nat | None => 0%nat end.
Definition calls_bounded (st : solve) (p : proc) : Prop := forall key, (first_calls key p <= unready st key)%nat.

Lemma list_sum_insert {A} (f : A -> nat) (l : list A) j x y : l !! j = Some x -> (list_sum (map f (<[j := y]> l)) + f x = list_sum (map f l) + f y)%nat.
Proof using.
  intros H. destruct (take_drop_middle l j x H) as []. pose proof (lookup_lt_Some _ _ _ H) as Hl.
  rewrite insert_app_r_alt by (rewrite length_take; lia). rewrite length_take, Nat.min_l, Nat.sub_diag by lia. cbn [insert list_insert].
  rewrite !map_app, !list_sum_app. cbn. lia.
Qed.

(** A property of every call of the tree. *)
Fixpoint all_calls (P : proc -> Prop) (p : proc) : Prop :=
  P p /\
  match p with
  | Deps _ _ _ _ dl children _ =>
      all_calls P dl /\ (fix all l := match l with [] => True | c :: l' => all_calls P c /\ all l' end) children
  | _ => True
  end.

Lemma all_calls_deps P first frames key ch dl children loose :
  all_calls P (Deps first frames key ch dl children loose) <->
  P (Deps first frames key ch dl children loose) /\ all_calls P dl /\ Forall (all_calls P) children.
Proof using.
  cbn [all_calls]. assert (E : (fix all l := match l with [] => True | c :: l' => all_calls P c /\ all l' end) children <-> Forall (all_calls P) children).
  { induction children as [|c l IH]; [split; [constructor|trivial]|]. rewrite Forall_cons, IH. reflexivity. }
  rewrite E. reflexivity.
Qed.

(** The records that a call reads are those of the index; a choice that is
    reconciled is ready. *)
Definition reading_ok (st : solve) (p : proc) : Prop :=
  match p with
  | Reading first _ w recs _ _ => records (w_channel w) (walk_name (w_name w)) = Done recs /\ (first = false -> duty_met st (DReady (wants_key w)))
  | _ => True
  end.

(** *** Accounts of a step *)

Lemma met_set st key slot' d : 
  match chosen st !! key with
  | Some slot => s_ready slot = true -> s_ready slot' = true /\ forall c, c ∈ s_constraints slot -> c ∈ s_constraints slot'
  | None => True
  end -> duty_met st d -> duty_met (set_slot st key slot') d.
Proof using.
  intros H. destruct d as [k|k c|rec]; cbn [duty_met set_slot chosen downloaded]; [| |auto].
  - intros (slot & E & Hr). destruct (decide (k = key)) as [->|Hne].
    + rewrite E in H. exists slot'. rewrite lookup_insert_eq. split; [reflexivity|apply H, Hr].
    + exists slot. rewrite lookup_insert_ne by congruence. auto.
  - intros (slot & E & Hr & Hc). destruct (decide (k = key)) as [->|Hne].
    + rewrite E in H. exists slot'. rewrite lookup_insert_eq. destruct (H Hr) as [H1 H2]. auto.
    + exists slot. rewrite lookup_insert_ne by congruence. auto.
Qed.

Lemma unready_set st key slot' k : unready (set_slot st key slot') k = if bool_decide (key = k) then (if s_ready slot' then 0%nat else 1%nat) else unready st k.
Proof using.
  unfold unready. cbn [set_slot chosen]. case_bool_decide as E; [subst; rewrite lookup_insert_eq; reflexivity|]. rewrite lookup_insert_ne by exact E. reflexivity.
Qed.

Lemma finished_children children : forallb finished children = true -> Forall (eq Finished) children.
Proof using.
  induction children as [|c l IH]; [constructor|]. cbn [forallb]. rewrite andb_true_iff. intros [H1 H2]. constructor; [destruct c; discriminate || reflexivity|apply IH, H2].
Qed.
Lemma finished_account children : forallb finished children = true ->
  concat (map proc_duties children) = [] /\ forall key, list_sum (map (first_calls key) children) = 0%nat.
Proof using.
  intros H. apply finished_children in H. induction H as [|c l <- _ [IH1 IH2]]; [split; reflexivity|]. split; [exact IH1|exact IH2].
Qed.
Lemma fetch_calls key frames ch deps : list_sum (map (first_calls key) (map (Fetch frames ch) deps)) = 0%nat.
Proof using. induction deps as [|dep deps IH]; [reflexivity|]. exact IH. Qed.
Lemma started_calls first frames key ch rec p k : started first frames key ch rec p -> first_calls k p = 0%nat.
Proof using. intros (deps & pinned & loose & _ & _ & ->). cbn [first_calls]. rewrite fetch_calls. reflexivity. Qed.

(** How a choice may change: its record stays, or it is new and not ready, or
    it has a new record whose duties the call has. *)
Definition slot_change (st : solve) (p' : proc) (key : string) (slot' : choice) : Prop :=
  (exists slot, chosen st !! key = Some slot /\ s_base slot' = s_base slot /\ s_rec slot' = s_rec slot /\ s_ready slot' = s_ready slot) \/
  (chosen st !! key = None /\ s_ready slot' = false) \/
  (exists w, key = wants_key w /\ s_ready slot' = true /\ forall d, d ∈ rec_duties (ch_Base (w_channel w)) (s_rec slot') -> d ∈ proc_duties p').

Definition advances (st : solve) (p : proc) (st' : solve) (p' : proc) : Prop :=
  (forall d, duty_met st d -> duty_met st' d) /\
  (forall d, d ∈ proc_duties p -> duty_met st' d \/ d ∈ proc_duties p') /\
  (forall key, (first_calls key p' + unready st key = first_calls key p + unready st' key)%nat) /\
  (forall key slot', chosen st' !! key = Some slot' -> slot_change st p' key slot') /\
  (forall key slot', chosen st' !! key = Some slot' -> slot_sound key slot').

Lemma unchanged st p p' : (forall key slot, chosen st !! key = Some slot -> slot_sound key slot) ->
  (forall d, d ∈ proc_duties p -> duty_met st d \/ d ∈ proc_duties p') -> (forall key, first_calls key p' = first_calls key p) -> advances st p st p'.
Proof using.
  intros Hs Hd Hc. split; [auto|]. split; [exact Hd|]. split; [intros key; rewrite Hc; reflexivity|]. split; [|exact Hs].
  intros key slot E. left. exists slot. auto.
Qed.

(** The changes of a step on one choice. *)
Lemma changed st p p' key slot' : (forall k slot, chosen st !! k = Some slot -> slot_sound k slot) ->
  match chosen st !! key with
  | Some slot => s_ready slot = true -> s_ready slot' = true /\ forall c, c ∈ s_constraints slot -> c ∈ s_constraints slot'
  | None => True
  end ->
  (forall d, d ∈ proc_duties p -> duty_met (set_slot st key slot') d \/ d ∈ proc_duties p') ->
  (forall k, (first_calls k p' + unready st k = first_calls k p + unready (set_slot st key slot') k)%nat) ->
  slot_change st p' key slot' -> slot_sound key slot' -> advances st p (set_slot st key slot') p'.
Proof using.
  intros Hs Hm Hd Hc Hch Hso. split; [intros d; apply met_set, Hm|]. split; [exact Hd|]. split; [exact Hc|].
  split; intros k slot E; cbn [set_slot chosen] in E; (destruct (decide (k = key)) as [->|Hne];
    [rewrite lookup_insert_eq in E; injection E as <-; assumption|rewrite lookup_insert_ne in E by congruence]); [left; exists slot; auto|apply Hs, E].
Qed.

Lemma calls_ready st frames w recs pending variants slot : calls_bounded st (Reading true frames w recs pending variants) ->
  chosen st !! wants_key w = Some slot -> s_ready slot = false.
Proof using.
  intros Hb E. specialize (Hb (wants_key w)). cbn [first_calls] in Hb. rewrite bool_decide_true in Hb by reflexivity. unfold unready in Hb. rewrite E in Hb.
  destruct (s_ready slot); [lia|reflexivity].
Qed.

Lemma reading_ok_mono st st' p : (forall d, duty_met st d -> duty_met st' d) -> all_calls (reading_ok st) p -> all_calls (reading_ok st') p.
Proof using.
  intros Hm. revert p. fix IH 1. intros p. destruct p as [| | | | |first frames w recs pending variants| | |first frames key ch dl children loose]; try exact (fun H => H).
  - cbn [all_calls reading_ok]. intros [[H1 H2] _]. split; [split; [exact H1|auto]|trivial].
  - cbn [all_calls reading_ok]. intros (_ & H1 & H2). split; [trivial|]. split; [apply IH, H1|].
    revert children H2. fix IHl 1. intros [|c l] H2; [trivial|]. destruct H2 as [H2 H3]. split; [apply IH, H2|apply IHl, H3].
Qed.

Lemma started_reading st first frames key ch rec p : started first frames key ch rec p -> all_calls (reading_ok st) p.
Proof using.
  intros (deps & pinned & loose & _ & _ & ->). apply all_calls_deps. split; [exact I|]. split; [split; exact I|].
  apply Forall_map, Forall_true. intros dep. split; exact I.
Qed.

Lemma needs_set st key slot' c : s_ready slot' = true -> c ∈ s_constraints slot' -> duty_met (set_slot st key slot') (DNeeds key c).
Proof using. intros H1 H2. exists slot'. cbn [set_slot chosen]. rewrite lookup_insert_eq. auto. Qed.
Lemma ready_set st key slot' : s_ready slot' = true -> duty_met (set_slot st key slot') (DReady key).
Proof using. intros H1. exists slot'. cbn [set_slot chosen]. rewrite lookup_insert_eq. auto. Qed.

Definition slots_sound (st : solve) : Prop := forall key slot, chosen st !! key = Some slot -> slot_sound key slot.

Lemma lstep_advances st p st' p' : lstep st p st' p' -> calls_bounded st p -> all_calls (reading_ok st) p -> slots_sound st ->
  advances st p st' p' /\ all_calls (reading_ok st') p'.
Proof using.
  intros H Hb Hr Hs. destruct H as
    [frames ch dep w Hw|frames w Hsk|frames w slot Hsk E|frames w Hsk E|frames w recs Hrec|frames w slot recs E Hrd Hrec|first frames w recs pending variants k slot Hk E
    |frames w recs variants slot rec p Eslot Hp Hst|frames w recs variants all slot rec p Eslot Hp Hsame Hq|frames w recs variants all slot rec p Eslot Hp Hst
    |key slot E Hd|rec Hd|first frames key ch dl children loose Hf Hl|frames key ch children slot Hf E|frames key ch children Hf].
  - split; [|split; exact I]. apply unchanged; [exact Hs| |reflexivity]. cbn [proc_duties]. rewrite (walkDep_duties _ _ _ Hw). auto.
  - split; [|split; exact I]. apply unchanged; [exact Hs| |reflexivity]. cbn [proc_duties]. unfold wants_duties. rewrite Hsk. auto.
  - split; [|split; exact I]. apply unchanged; [exact Hs| |reflexivity]. cbn [proc_duties]. unfold wants_duties. rewrite Hsk. auto.
  - split; [|split; exact I]. apply changed; [exact Hs|rewrite E; exact I| | | |].
    + cbn [proc_duties]. unfold wants_duties. rewrite Hsk. intros d Hd. right. right. exact Hd.
    + intros k. rewrite unready_set. cbn [first_calls s_ready]. case_bool_decide as Ek; [|lia]. subst k. unfold unready. rewrite E. lia.
    + right. left. auto.
    + split; [exists (walk_name (w_name w)); reflexivity|intros [=]].
  - split; [|split; [split; [exact Hrec|discriminate]|exact I]]. apply unchanged; [exact Hs|auto|reflexivity].
  - split; [|split; [split; [exact Hrec|]|exact I]].
    + apply unchanged; [exact Hs|auto|reflexivity].
    + intros _. exists slot. auto.
  - split; [|exact Hr]. apply unchanged; [exact Hs|auto|]. destruct first; reflexivity.
  - pose proof (calls_ready st _ _ _ _ _ _ Hb Eslot) as Hnr. destruct Hr as [[Hrec _] _].
    split; [|apply (started_reading _ _ _ _ _ _ _ Hst)]. apply changed; [exact Hs|rewrite Eslot, Hnr; discriminate| | | |].
    + cbn [proc_duties app]. intros d Hd. left. apply elem_of_cons in Hd as [->|Hd]; [apply ready_set; reflexivity|].
      apply list_elem_of_singleton in Hd as ->. apply needs_set; [reflexivity|left].
    + intros k. rewrite (started_calls _ _ _ _ _ _ k Hst), unready_set. cbn [first_calls s_ready]. case_bool_decide as Ek; [|lia]. subst k. unfold unready. rewrite Eslot, Hnr. lia.
    + right. right. exists w. split; [reflexivity|]. split; [reflexivity|]. intros d. apply (started_duties _ _ _ _ _ _ d Hst).
    + destruct (Hs _ _ Eslot) as [Hn _]. split; [exact Hn|]. intros _. apply pick_satisfies in Hp as [Hin Hsat]; [|discriminate].
      split; [discriminate|]. split; [exact (satisfies_same _ _ _ eq_refl eq_refl eq_refl Hsat)|].
      split; [destruct Hst as (deps & ? & ? & Hdeps & _); exists deps; exact Hdeps|]. exists w, recs, rec. auto.
  - destruct Hr as [[Hrec Hready] _]. destruct (Hready eq_refl) as (slot0 & E0 & Hrd). rewrite Eslot in E0. injection E0 as <-.
    split; [|destruct Hq as [-> | ->]; split; exact I]. assert (Hz : forall k, first_calls k p = 0%nat) by (destruct Hq as [-> | ->]; reflexivity).
    apply changed; [exact Hs|rewrite Eslot; intros _; split; [exact Hrd|intros c Hc; apply elem_of_app; auto]| | | |].
    + cbn [proc_duties app]. intros d Hd. left. apply list_elem_of_singleton in Hd as ->. apply needs_set; [exact Hrd|]. apply elem_of_app. right. left.
    + intros k. rewrite Hz, unready_set. cbn [first_calls with_constraint s_ready]. case_bool_decide as Ek; [|lia]. subst k. unfold unready. rewrite Eslot. lia.
    + left. exists slot. auto.
    + destruct (Hs _ _ Eslot) as [Hn Hold]. split; [exact Hn|]. intros _. destruct (Hold Hrd) as (_ & _ & Hdeps & w0 & recs0 & rec0 & K). apply pick_satisfies in Hp as [Hin Hsat]; [|intros K'; destruct (s_constraints slot); discriminate].
      split; [cbn; intros K'; destruct (s_constraints slot); discriminate|]. split; [|split; [exact Hdeps|exists w0, recs0, rec0; exact K]].
      apply sameArtifact_fields in Hsame as (F1 & F2 & F3). apply (satisfies_same _ rec); [exact F1|exact F2|exact F3|exact Hsat].
  - destruct Hr as [[Hrec Hready] _]. destruct (Hready eq_refl) as (slot0 & E0 & Hrd). rewrite Eslot in E0. injection E0 as <-.
    split; [|apply (started_reading _ _ _ _ _ _ _ Hst)].
    apply changed; [exact Hs|rewrite Eslot; intros _; split; [exact Hrd|intros c Hc; apply elem_of_app; auto]| | | |].
    + cbn [proc_duties app]. intros d Hd. left. apply list_elem_of_singleton in Hd as ->. apply needs_set; [exact Hrd|]. apply elem_of_app. right. left.
    + intros k. rewrite (started_calls _ _ _ _ _ _ k Hst), unready_set. cbn [first_calls s_ready]. case_bool_decide as Ek; [|lia]. subst k. unfold unready. rewrite Eslot. lia.
    + right. right. exists w. split; [reflexivity|]. split; [exact Hrd|]. intros d. apply (started_duties _ _ _ _ _ _ d Hst).
    + destruct (Hs _ _ Eslot) as [Hn _]. split; [exact Hn|]. intros _. apply pick_satisfies in Hp as [Hin Hsat]; [|intros K'; destruct (s_constraints slot); discriminate].
      split; [cbn; intros K'; destruct (s_constraints slot); discriminate|]. split; [exact (satisfies_same _ _ _ eq_refl eq_refl eq_refl Hsat)|].
      split; [destruct Hst as (deps & ? & ? & Hdeps & _); exists deps; exact Hdeps|]. exists w, recs, rec. auto.
  - split; [|split; exact I]. apply unchanged; [exact Hs|cbn; auto|reflexivity].
  - split; [|split; exact I]. split; [intros [k|k c|r]; cbn; auto; intros; right; assumption|]. split; [intros d Hd'; left; apply list_elem_of_singleton in Hd' as ->; left|].
    split; [reflexivity|]. split; [intros key slot E; left; exists slot; auto|exact Hs].
  - destruct (finished_account children Hf) as [A1 A2]. apply all_calls_deps in Hr as (_ & H1 & _). split.
    + apply unchanged; [exact Hs| |intros k; cbn [first_calls]; rewrite A2, fetch_calls; reflexivity].
      cbn [proc_duties map concat]. rewrite A1, app_nil_r, map_map. intros d Hd. right. exact Hd.
    + apply all_calls_deps. split; [exact I|]. split; [exact H1|]. apply Forall_map, Forall_true. intros dep. split; exact I.
  - destruct (finished_account children Hf) as [A1 A2]. split; [|split; exact I]. apply changed; [exact Hs|rewrite E; auto| | | |].
    + cbn [proc_duties map concat]. rewrite A1. inversion 1.
    + intros k. cbn [first_calls]. rewrite A2, unready_set. cbn [with_done s_ready]. case_bool_decide as Ek; [|lia]. subst k. unfold unready. rewrite E. lia.
    + left. exists slot. auto.
    + exact (Hs _ _ E).
  - destruct (finished_account children Hf) as [A1 A2]. split; [|split; exact I]. apply unchanged; [exact Hs| |intros k; cbn [first_calls]; rewrite A2; reflexivity].
    cbn [proc_duties map concat]. rewrite A1. inversion 1.
Qed.

(** *** Accounts of the tree *)

Lemma slot_change_sub st p q key slot : (forall d, d ∈ proc_duties p -> d ∈ proc_duties q) -> slot_change st p key slot -> slot_change st q key slot.
Proof using. intros H [K|[K|(w & K1 & K2 & K3)]]; [left; exact K|right; left; exact K|]. right. right. exists w. auto. Qed.

Lemma list_sum_le {A} (f : A -> nat) (l : list A) j x : l !! j = Some x -> (f x <= list_sum (map f l))%nat.
Proof using.
  revert j. induction l as [|a l IH]; intros [|j]; cbn [lookup list_lookup]; try discriminate; change (list_sum (map f (a :: l))) with (f a + list_sum (map f l))%nat.
  - intros [= ->]. lia.
  - intros H. specialize (IH j H). lia.
Qed.

Lemma step_advances path k st p st' p' : step_at path k st p = Some (Done (st', p')) ->
  calls_bounded st p -> all_calls (reading_ok st) p -> slots_sound st -> advances st p st' p' /\ all_calls (reading_ok st') p'.
Proof using.
  revert path k st p st' p'. apply (step_at_ind (fun st p st' p' =>
    calls_bounded st p -> all_calls (reading_ok st) p -> slots_sound st -> advances st p st' p' /\ all_calls (reading_ok st') p')).
  - exact lstep_advances.
  - intros first frames key ch dl dl' children loose st st' IH Hb Hr Hs. apply all_calls_deps in Hr as (_ & Hd & Hc).
    destruct IH as [(A1 & A2 & A3 & A4 & A5) Hr']; [intros k; specialize (Hb k); cbn in Hb; lia|exact Hd|exact Hs|]. split.
    + split; [exact A1|]. split; [|split; [|split; [|exact A5]]].
      * intros d. cbn [proc_duties]. rewrite !elem_of_app. intros [K|K]; [|right; right; exact K]. destruct (A2 d K); auto.
      * intros k. specialize (A3 k). cbn [first_calls]. lia.
      * intros k slot E. apply (slot_change_sub st dl'); [|exact (A4 k slot E)]. intros d Hd'. cbn [proc_duties]. apply elem_of_app. auto.
    + apply all_calls_deps. split; [exact I|]. split; [exact Hr'|]. apply (Forall_impl _ _ _ Hc). intros c. apply reading_ok_mono, A1.
  - intros first frames key ch dl children j child child' loose st st' Ej IH Hb Hr Hs. apply all_calls_deps in Hr as (_ & Hd & Hc).
    assert (Hin : child ∈ children) by (apply list_elem_of_lookup_2 with j; exact Ej).
    assert (Hin' : child' ∈ <[j:=child']> children) by (apply list_elem_of_lookup_2 with j; apply list_lookup_insert_eq, (lookup_lt_Some _ _ _ Ej)).
    destruct IH as [(A1 & A2 & A3 & A4 & A5) Hr']; [|exact (proj1 (Forall_forall _ _) Hc child Hin)|exact Hs|].
    { intros k. specialize (Hb k). cbn [first_calls] in Hb. pose proof (list_sum_le (first_calls k) children j child Ej). lia. }
    split.
    + split; [exact A1|]. split; [|split; [|split; [|exact A5]]].
      * intros d. cbn [proc_duties]. rewrite !elem_of_app, !concat_elem. intros [K|[(c & Hc1 & Hc2)|K]]; [right; left; exact K| |right; right; right; exact K].
        apply list_elem_of_lookup_1 in Hc1 as [i Hi]. destruct (decide (i = j)) as [->|Hne].
        -- rewrite Ej in Hi. injection Hi as <-. destruct (A2 d Hc2) as [|K]; [left; assumption|]. right. right. left. exists child'. auto.
        -- right. right. left. exists c. split; [|exact Hc2]. apply list_elem_of_lookup_2 with i. rewrite list_lookup_insert_ne by congruence. exact Hi.
      * intros k. specialize (A3 k). cbn [first_calls]. pose proof (list_sum_insert (first_calls k) children j child child' Ej). lia.
      * intros k slot E. apply (slot_change_sub st child'); [|exact (A4 k slot E)]. intros d Hd'. cbn [proc_duties]. apply elem_of_app. right. apply elem_of_app. left.
        apply concat_elem. exists child'. auto.
    + apply all_calls_deps. split; [exact I|]. split; [apply (reading_ok_mono st); [exact A1|exact Hd]|]. apply Forall_insert; [|exact Hr'].
      apply (Forall_impl _ _ _ Hc). intros c. apply reading_ok_mono, A1.
Qed.

(** ** The invariant *)

(** The duties of the record of each choice, and those of the root, are met or
    some call still has them. *)
Record solve_inv (root : list duty) (s : solve * proc) : Prop := {
  inv_calls key : first_calls key s.2 = unready s.1 key;
  inv_reading : all_calls (reading_ok s.1) s.2;
  inv_sound : slots_sound s.1;
  inv_duties key slot : chosen s.1 !! key = Some slot -> s_ready slot = true -> exists w, key = wants_key w /\
    forall d, d ∈ rec_duties (ch_Base (w_channel w)) (s_rec slot) -> duty_met s.1 d \/ d ∈ proc_duties s.2;
  inv_root d : d ∈ root -> duty_met s.1 d \/ d ∈ proc_duties s.2
}.

Lemma solve_inv_step root s s' : solve_inv root s -> step s (Done s') -> solve_inv root s'.
Proof using.
  intros [H1 H2 H3 H4 H5] (path & k & E). destruct s as [st p], s' as [st' p']. cbn [fst snd] in *.
  destruct (step_advances path k st p st' p' E) as [(A1 & A2 & A3 & A4 & A5) Hr]; [intros key; rewrite H1; lia|exact H2|exact H3|].
  assert (Hk : forall d, duty_met st d \/ d ∈ proc_duties p -> duty_met st' d \/ d ∈ proc_duties p') by (intros d [K|K]; [left; apply A1, K|apply A2, K]).
  split; cbn [fst snd]; [intros key; specialize (A3 key); specialize (H1 key); lia|exact Hr|exact A5| |auto].
  intros key slot' E' Hready. destruct (A4 key slot' E') as [(slot & Es & _ & Er & Ed)|[(_ & K)|(w & K1 & _ & K2)]]; [|congruence|].
  - rewrite Ed in Hready. destruct (H4 key slot Es Hready) as (w & K1 & K2). exists w. split; [exact K1|]. rewrite Er. auto.
  - exists w. split; [exact K1|]. auto.
Qed.

Lemma solve_inv_start ch name versionSpec buildSpec :
  solve_inv (proc_duties (closure_start ch name versionSpec buildSpec).2) (closure_start ch name versionSpec buildSpec).
Proof using.
  split; cbn [closure_start fst snd].
  - intros key. unfold unready. cbn [chosen]. rewrite lookup_empty. reflexivity.
  - split; exact I.
  - intros key slot E. cbn [chosen] in E. rewrite lookup_empty in E. discriminate.
  - intros key slot E. cbn [chosen] in E. rewrite lookup_empty in E. discriminate.
  - auto.
Qed.

Lemma solve_inv_steps root s s' : solve_inv root s -> rtc (fun s s' => step s (Done s')) s s' -> solve_inv root s'.
Proof using. intros H Hs. induction Hs as [s|s s1 s2 H1 _ IH]; [exact H|]. apply IH, (solve_inv_step root s s1 H H1). Qed.

(** ** A finished run *)

(** Every choice has a record of its channel that satisfies its constraints
    and was downloaded, and what it needs is chosen. *)
Lemma finished_sound root st : solve_inv root (st, Finished) ->
  (forall d, d ∈ root -> duty_met st d) /\
  forall key slot, chosen st !! key = Some slot -> s_ready slot = true /\ satisfies subdir (s_constraints slot) (s_rec slot) /\
    exists w, key = wants_key w /\ forall d, d ∈ rec_duties (ch_Base (w_channel w)) (s_rec slot) -> duty_met st d.
Proof using.
  intros [H1 H2 H3 H4 H5]. cbn [fst snd proc_duties first_calls] in *. split.
  - intros d Hd. destruct (H5 d Hd) as [K|K]; [exact K|inversion K].
  - intros key slot E. assert (Hready : s_ready slot = true).
    { specialize (H1 key). unfold unready in H1. rewrite E in H1. destruct (s_ready slot); [reflexivity|discriminate]. }
    split; [exact Hready|]. split; [apply (proj2 (H3 key slot E) Hready)|]. destruct (H4 key slot E Hready) as (w & K1 & K2).
    exists w. split; [exact K1|]. intros d Hd. destruct (K2 d Hd) as [K|K]; [exact K|inversion K].
Qed.
End solving.

(** * The closure is consistent (src/x/tool/conda/resolve.go)

    A run of the solver without an error, followed by [finalRecords], lists
    records that satisfy the request and each other's dependencies. *)

(** ** Keys *)

Definition nul : ascii := ascii_of_nat 0.
Fixpoint count_char (c : ascii) (s : string) : nat :=
  match s with EmptyString => 0%nat | String d s' => ((if same_char c d then 1 else 0) + count_char c s')%nat end.

Lemma count_app c s t : count_char c (s +:+ t) = (count_char c s + count_char c t)%nat.
Proof. induction s as [|d s IH]; [reflexivity|]. change (String d s +:+ t) with (String d (s +:+ t)). cbn [count_char]. rewrite IH. lia. Qed.

(** A key with one NUL comes from one base and one name. *)
Lemma key_unique b n b' n' : count_char nul (package_key b n) = 1%nat -> package_key b n = package_key b' n' -> b = b' /\ n = n'.
Proof.
  unfold package_key. fold nul. intros Hc E. pose proof Hc as Hc'. rewrite E in Hc'. rewrite count_app in Hc, Hc'. cbn [count_char] in Hc, Hc'.
  rewrite same_char_refl in Hc, Hc'. assert (Hb : count_char nul b = 0%nat) by lia. assert (Hb' : count_char nul b' = 0%nat) by lia. clear Hc Hc'.
  revert b' E Hb'. induction b as [|c b IH]; intros [|c' b'] E Hb'.
  - injection E as E. auto.
  - change (String nul n = String c' (b' +:+ String nul n')) in E. injection E as <- _. cbn in Hb'. discriminate.
  - change (String c (b +:+ String nul n) = String nul n') in E. injection E as -> _. cbn in Hb. discriminate.
  - change (String c (b +:+ String nul n) = String c' (b' +:+ String nul n')) in E. injection E as -> E. cbn [count_char] in Hb, Hb'.
    destruct (IH ltac:(lia) b' E ltac:(lia)) as [-> ->]. auto.
Qed.

(** ** Consistency *)

Section consistent.
Context {U : Urls} {R : Regexp}.
Variable records : channel -> string -> outcome (list record).
Variable subdir : string.
Variable download : record -> bool.

(** Neither bases nor names have a NUL, and the names in dependencies are
    trimmed. *)
Definition plain_keys (st : solve) : Prop := forall key slot, chosen st !! key = Some slot -> count_char nul key = 1%nat.
Definition plain_deps (st : solve) : Prop := forall key slot dep spec, chosen st !! key = Some slot -> dep ∈ r_Depends (s_rec slot) ->
  parseMatchSpec dep = Some spec -> walk_name (ms_Name spec) = ms_Name spec.

(** A dependency on a package that the system does not provide. *)
Definition real_dep (dep : string) (spec : matchSpec) : Prop := parseMatchSpec dep = Some spec /\ skipped_name (ms_Name spec) = false.

Lemma directDeps_in depends deps dep spec : directDeps depends = Done deps -> dep ∈ depends -> real_dep dep spec -> dep ∈ deps.
Proof using.
  intros H Hin [Ep Es]. revert deps H. induction depends as [|x depends IH]; intros deps; [inversion Hin|]. cbn [directDeps].
  destruct (parseMatchSpec x) as [sx|] eqn:Ex; [|discriminate]. cbn [done_or mbind outcome_bind].
  destruct (directDeps depends) as [rest|e|]; try discriminate. cbn [mbind outcome_bind]. intros [= <-].
  apply elem_of_cons in Hin as [->|Hin].
  - rewrite Ep in Ex. injection Ex as <-. rewrite Es. left.
  - specialize (IH Hin rest eq_refl). destruct (skipped_name (ms_Name sx)); [exact IH|right; exact IH].
Qed.

(** [r] is a record of the package that [spec] names, which satisfies it. *)
Definition answers (spec : matchSpec) (r : record) : Prop :=
  fits (mkConstraint (ms_Version spec) (ms_Build spec)) r = Some true /\ of_platform subdir r /\
  exists ch recs r0, records ch (walk_name (ms_Name spec)) = Done recs /\ r0 ∈ recs /\ r = with_url r0 (artifactURL ch (r_Subdir r0) (r_Filename r0)).

(** What a met duty gives. *)
Lemma needs_answered st key c slot spec base : (forall key slot, chosen st !! key = Some slot -> slot_sound records subdir key slot) -> plain_keys st ->
  key = package_key base (walk_name (ms_Name spec)) -> c = mkConstraint (ms_Version spec) (ms_Build spec) ->
  chosen st !! key = Some slot -> s_ready slot = true -> c ∈ s_constraints slot -> answers spec (s_rec slot).
Proof using.
  intros Hs Hp -> -> E Hready Hc. destruct (Hs _ _ E) as [_ H]. destruct (H Hready) as (_ & [Ho Hsat] & _ & w & recs & r0 & Hk & Hr & Hin & Hpick).
  split; [exact (proj1 (Forall_forall _ _) Hsat _ Hc)|]. split; [exact Ho|]. exists (w_channel w), recs, r0.
  apply key_unique in Hk as [_ ->]; [|apply (Hp _ _ E)]. auto.
Qed.

Lemma final_view_lookup st key : final_view st !! key = (fun slot => mkChosen (s_base slot) (s_rec slot)) <$> chosen st !! key.
Proof using. apply lookup_fmap. Qed.

(** The records of the closure: the requested one is there, each is of the
    platform and downloaded, and each dependency is answered. *)
Lemma closure_consistent ch name versionSpec buildSpec st recs :
  steps records subdir download (closure_start ch name versionSpec buildSpec) (st, Finished) ->
  plain_keys st -> plain_deps st -> closure_records st ch name = Some (Done recs) ->
  (skipped_name (walk_name name) = false -> exists r, r ∈ recs /\ answers (mkSpec EmptyString name versionSpec buildSpec) r) /\
  forall r, r ∈ recs -> of_platform subdir r /\ r ∈ downloaded st /\
    forall dep spec, dep ∈ r_Depends r -> real_dep dep spec -> exists r', r' ∈ recs /\ answers spec r'.
Proof using.
  intros Hrun Hkeys Hdeps Hrecs.
  assert (Hinv := solve_inv_steps records subdir download _ _ _ (solve_inv_start records subdir ch name versionSpec buildSpec) Hrun).
  pose proof (inv_sound _ _ _ _ Hinv) as Hsound. cbn [fst] in Hsound. destruct (finished_sound records subdir _ _ Hinv) as [Hroot Hall].
  unfold closure_records in Hrecs. pose proof (final_records_spec (final_view st) (package_key (ch_Base ch) (walk_name name)) (S (size (final_view st))) ltac:(lia)) as Hf.
  rewrite Hrecs in Hf. destruct Hf as (ks & _ & Eks & Hreach & _ & Hknown).
  (* records and keys *)
  assert (Hin : forall k slot, k ∈ ks -> chosen st !! k = Some slot -> s_rec slot ∈ recs).
  { intros k slot Hk E. assert (Hin : Some (s_rec slot) ∈ map Some recs).
    { rewrite Eks. apply list_elem_of_fmap. exists k. split; [|exact Hk]. rewrite final_view_lookup, E. reflexivity. }
    apply list_elem_of_fmap in Hin as (r & [= ->] & Hr). exact Hr. }
  assert (Hout : forall r, r ∈ recs -> exists k slot, k ∈ ks /\ chosen st !! k = Some slot /\ s_rec slot = r).
  { intros r Hr. assert (Hr' : Some r ∈ map Some recs) by (apply list_elem_of_fmap; eauto). rewrite Eks in Hr'.
    apply list_elem_of_fmap in Hr' as (k & Ek & Hk). rewrite final_view_lookup in Ek. destruct (chosen st !! k) as [slot|] eqn:E; [|discriminate].
    cbn in Ek. injection Ek as ->. eauto. }
  assert (Hclosed : forall k d, k ∈ ks -> edge (final_view st) k d -> d ∈ ks).
  { intros k d Hk He. assert (Hsome : is_Some (final_view st !! package_key (ch_Base ch) (walk_name name))).
    { destruct (final_view st !! package_key (ch_Base ch) (walk_name name)) eqn:E; [eauto|]. exfalso.
      unfold finalRecords in Hrecs. cbn [final_walk] in Hrecs. rewrite !bool_decide_false in Hrecs by (cbn; set_solver). cbn [orb] in Hrecs.
      rewrite E in Hrecs. cbn in Hrecs. injection Hrecs as <-. destruct ks; [inversion Hk|discriminate]. }
    apply (Hreach Hsome). apply (Hreach Hsome) in Hk. apply rtc_r with k; assumption. }
  split.
  - intros Hname. cbn [closure_start snd proc_duties] in Hroot. unfold wants_duties in Hroot. cbn [w_name] in Hroot. rewrite Hname in Hroot.
    destruct (Hroot _ (list_elem_of_here _ [])) as (slot & E & Hready & Hc).
    change (wants_key _) with (package_key (ch_Base ch) (walk_name name)) in E. exists (s_rec slot). split.
    + apply (Hin (package_key (ch_Base ch) (walk_name name))); [|exact E]. apply Hreach; [rewrite final_view_lookup, E; cbn; eauto|apply rtc_refl].
    + apply (needs_answered st _ _ slot (mkSpec EmptyString name versionSpec buildSpec) (ch_Base ch) Hsound Hkeys eq_refl eq_refl E Hready Hc).
  - intros r Hr. destruct (Hout r Hr) as (k & slot & Hk & E & <-). destruct (Hall k slot E) as (Hready & [Ho _] & w & Ek & Hd).
    split; [exact Ho|]. split; [apply (Hd (DDownload (s_rec slot))); left|]. intros dep spec Hdep Hreal. pose proof Hreal as [Ep Es].
    destruct (Hsound k slot E) as [[n Hn] Hs]. destruct (Hs Hready) as (_ & _ & (deps & Edeps) & _).
    assert (Hbase : ch_Base (w_channel w) = s_base slot).
    { rewrite Hn in Ek. apply key_unique in Ek as [<- _]; [reflexivity|]. rewrite <- Hn. apply (Hkeys _ _ E). }
    assert (Hin' : dep ∈ deps) by (apply (directDeps_in _ _ _ _ Edeps Hdep Hreal)).
    destruct (Hknown k Hk (mkChosen (s_base slot) (s_rec slot)) dep ltac:(rewrite final_view_lookup, E; reflexivity) Hdep) as (o & Eo). cbn [cr_base] in Eo.
    pose proof (Hdeps k slot dep spec E Hdep Ep) as Hplain. pose proof Eo as Eo'. unfold dep_key in Eo. rewrite Ep in Eo. cbn [done_or mbind outcome_bind] in Eo.
    rewrite Es in Eo. apply outcome_bind_done in Eo as (b & Eb & [= <-]).
    assert (Hduty : dep_duties (s_base slot) dep = [DNeeds (package_key b (ms_Name spec)) (mkConstraint (ms_Version spec) (ms_Build spec))]).
    { unfold dep_duties, walkDep. rewrite Ep. cbn [done_or mbind outcome_bind]. destruct (is_empty (ms_Channel spec)).
      - injection Eb as <-. cbn [mbind outcome_bind]. unfold wants_duties, wants_key, wanted. cbn [w_name w_channel w_version w_build ch_Base]. rewrite Hplain, Es. reflexivity.
      - apply outcome_bind_done in Eb as (ch' & -> & [= <-]). cbn [mbind outcome_bind]. unfold wants_duties, wants_key, wanted.
        cbn [w_name w_channel w_version w_build]. rewrite Hplain, Es. reflexivity. }
    assert (Hmet : duty_met st (DNeeds (package_key b (ms_Name spec)) (mkConstraint (ms_Version spec) (ms_Build spec)))).
    { apply Hd. unfold rec_duties. rewrite Edeps, Hbase. right. apply concat_elem. exists dep. split; [exact Hin'|]. rewrite Hduty. left. }
    destruct Hmet as (slot' & E' & Hready' & Hc'). exists (s_rec slot'). split.
    + apply (Hin (package_key b (ms_Name spec))); [|exact E']. apply (Hclosed k); [exact Hk|]. exists (mkChosen (s_base slot) (s_rec slot)), dep.
      split; [rewrite final_view_lookup, E; reflexivity|]. split; [exact Hdep|]. split; [exact Eo'|]. rewrite final_view_lookup, E'. cbn. eauto.
    + apply (needs_answered st (package_key b (ms_Name spec)) (mkConstraint (ms_Version spec) (ms_Build spec)) slot' spec b Hsound Hkeys); [rewrite Hplain; reflexivity|reflexivity|exact E'|exact Hready'|exact Hc'].
Qed.
End consistent.
