(* ===== verification/Ending.v ===== *)
(** * The solver ends (src/x/tool/conda/resolve.go)

    When the dependencies of a channel have no cycle, a task waits only for
    packages below its own.  So some call can always go on, until the run is
    finished or an error ends it, and no run is infinite. *)
From Stdlib Require Import ZArith Lia Ascii.
From stdpp Require Import base numbers option list strings gmap relations.
From S2P Require Import Prelude Strings Specs Channels Records Picks Closure Solver Solving.

Local Open Scope nat_scope.

Section ending.
Context {U : Urls} {R : Regexp}.
Variable records : channel -> string -> outcome (list record).
Variable subdir : string.
Variable download : record -> bool.
Local Abbreviation step_at := (step_at records subdir download).
Local Abbreviation step := (step records subdir download).

(** Dependencies go down in [rank], and a record has at most [width]. *)
Variable rank : string -> nat.
Variable width : nat.
Definition acyclic : Prop := forall ch n recs rec dep w, records ch n = Done recs -> rec ∈ recs -> dep ∈ r_Depends rec ->
  walkDep ch dep = Done w -> skipped_name (walk_name (w_name w)) = false -> rank (wants_key w) < rank (package_key (ch_Base ch) n).
Definition narrow : Prop := forall ch n recs rec, records ch n = Done recs -> rec ∈ recs -> length (r_Depends rec) <= width.

(** A dependency on a package below [n]. *)
Definition dep_below (n : nat) (ch : channel) (dep : string) : Prop :=
  forall w, walkDep ch dep = Done w -> skipped_name (walk_name (w_name w)) = false -> rank (wants_key w) < n.

(** The packages of the calls are below [n], and below that of their caller. *)
Fixpoint below (n : nat) (p : proc) : Prop :=
  match p with
  | Finished | Download _ => True
  | Fetch _ ch dep => dep_below n ch dep
  | Walk _ w => skipped_name (walk_name (w_name w)) = false -> rank (wants_key w) < n
  | Select _ w | Reconcile _ w => rank (wants_key w) < n
  | Reading _ _ w recs _ _ => rank (wants_key w) < n /\ records (w_channel w) (walk_name (w_name w)) = Done recs
  | AwaitDone key => rank key < n
  | Deps _ _ key ch dl children loose =>
      rank key < n /\ below (rank key) dl /\ (fix all l := match l with [] => True | c :: l' => below (rank key) c /\ all l' end) children /\
      Forall (dep_below (rank key) ch) loose
  end.

Lemma below_deps n first frames key ch dl children loose : below n (Deps first frames key ch dl children loose) <->
  rank key < n /\ below (rank key) dl /\ Forall (below (rank key)) children /\ Forall (dep_below (rank key) ch) loose.
Proof using.
  cbn [below]. assert (E : (fix all l := match l with [] => True | c :: l' => below (rank key) c /\ all l' end) children <-> Forall (below (rank key)) children).
  { induction children as [|c l IH]; [split; [constructor|trivial]|]. rewrite Forall_cons, IH. reflexivity. }
  rewrite E. reflexivity.
Qed.

(** ** Weights *)

(** The steps that the tasks of a package below [n] can take, without the
    reading of variants. *)
Fixpoint budget (n : nat) : nat := match n with O => 0 | S m => 2 + width * (5 + budget m) end.

Fixpoint weight (n : nat) (p : proc) : nat :=
  match p with
  | Finished => 0
  | AwaitDone _ | Download _ => 1
  | Fetch _ _ _ => 5 + budget n
  | Walk _ _ => 4 + budget n
  | Select _ _ | Reconcile _ _ => 3 + budget n
  | Reading _ _ _ _ _ _ => 2 + budget n
  | Deps _ _ key _ dl children loose =>
      1 + weight (rank key) dl + list_sum (map (weight (rank key)) children) +
      (match loose with [] => 0 | _ => 1 end) + length loose * (5 + budget (rank key))
  end.

(** The choices that are still to be read. *)
Fixpoint unread (p : proc) : nat :=
  match p with
  | Reading _ _ _ _ pending _ => size pending
  | Deps _ _ _ _ dl children _ => unread dl + list_sum (map unread children)
  | _ => 0
  end.

Lemma budget_mono m n : m <= n -> budget m <= budget n.
Proof using.
  intros H. assert (Hs : forall m, budget m <= budget (S m)).
  { clear. induction m as [|m IH]; [cbn; lia|]. change (2 + width * (5 + budget m) <= 2 + width * (5 + budget (S m))).
    apply Nat.add_le_mono_l, Nat.mul_le_mono_l. lia. }
  induction H as [|n H IH]; [lia|]. specialize (Hs n). lia.
Qed.

Lemma fetch_weight n frames ch deps : list_sum (map (weight n) (map (Fetch frames ch) deps)) = length deps * (5 + budget n).
Proof using. induction deps as [|dep deps IH]; [reflexivity|]. cbn [map length]. change (list_sum (?a :: ?l)) with (a + list_sum l). rewrite IH. cbn [weight]. lia. Qed.
Lemma fetch_unread frames ch deps : list_sum (map unread (map (Fetch frames ch) deps)) = 0.
Proof using. induction deps as [|dep deps IH]; [reflexivity|exact IH]. Qed.

Definition lighter (n : nat) (p p' : proc) : Prop := weight n p' < weight n p \/ weight n p' = weight n p /\ unread p' < unread p.

(** ** A step keeps the order and loses weight *)

Lemma directDeps_sub depends : forall deps, directDeps depends = Done deps -> length deps <= length depends /\ forall dep, dep ∈ deps -> dep ∈ depends.
Proof using.
  induction depends as [|x depends IH]; intros deps; cbn [directDeps]; [intros [= <-]; split; [reflexivity|auto]|].
  destruct (parseMatchSpec x) as [sx|]; [|discriminate]. cbn [done_or mbind outcome_bind]. destruct (directDeps depends) as [rest|e|]; try discriminate.
  cbn [mbind outcome_bind]. intros [= <-]. destruct (IH rest eq_refl) as [I1 I2]. destruct (skipped_name (ms_Name sx)); cbn [length]; (split; [lia|]).
  - intros dep Hd. right. apply I2, Hd.
  - intros dep Hd. apply elem_of_cons in Hd as [->|Hd]; [left|right; apply I2, Hd].
Qed.

Lemma started_below n first frames w recs rec p : acyclic -> narrow -> records (w_channel w) (walk_name (w_name w)) = Done recs -> rec ∈ recs ->
  rank (wants_key w) < n -> started first frames (wants_key w) (w_channel w) (picked w rec) p ->
  below n p /\ weight n p < 2 + budget n.
Proof using.
  intros Hac Hna Hr Hin Hn (deps & pinned & loose & Hd & Hs & ->). cbn [picked with_url r_Depends] in Hd. pose proof (splitDeps_perm _ _ _ _ Hd Hs) as Hp.
  destruct (directDeps_sub _ _ Hd) as [Hlen Hsub].
  assert (Hdeps : forall dep, dep ∈ pinned ++ loose -> dep_below (rank (wants_key w)) (w_channel w) dep).
  { intros dep Hdep w' Hw' Hsk. rewrite Hp in Hdep. apply (Hac _ _ _ _ _ _ Hr Hin (Hsub dep Hdep) Hw' Hsk). }
  split.
  - apply below_deps. split; [exact Hn|]. split; [exact I|]. split.
    + apply Forall_map, Forall_forall. intros dep Hdep. apply Hdeps, elem_of_app. auto.
    + apply Forall_forall. intros dep Hdep. apply Hdeps, elem_of_app. auto.
  - cbn [weight]. rewrite fetch_weight. apply Permutation_length in Hp. rewrite length_app in Hp. specialize (Hna _ _ _ _ Hr Hin).
    set (m := rank (wants_key w)) in *. pose proof (budget_mono (S m) n Hn) as Hb. cbn [budget] in Hb.
    assert (Hm : (length pinned + length loose) * (5 + budget m) <= width * (5 + budget m)) by (apply Nat.mul_le_mono_r; lia).
    destruct loose as [|dep loose]; cbn [length] in *; lia.
Qed.

Lemma lstep_lighter n st p st' p' : acyclic -> narrow -> lstep records subdir download st p st' p' -> below n p -> below n p' /\ lighter n p p'.
Proof using.
  intros Hac Hna H Hb. unfold lighter. destruct H as
    [frames ch dep w Hw|frames w Hsk|frames w slot Hsk E|frames w Hsk E|frames w recs Hrec|frames w slot recs E Hrd Hrec|first frames w recs pending variants k slot Hk E
    |frames w recs variants slot rec p Eslot Hp Hst|frames w recs variants all slot rec p Eslot Hp Hsame Hq|frames w recs variants all slot rec p Eslot Hp Hst
    |key slot E Hd|rec Hd|first frames key ch dl children loose Hf Hl|frames key ch children slot Hf E|frames key ch children Hf].
  - split; [cbn in *; auto|left; cbn; lia].
  - split; [exact I|left; cbn; lia].
  - split; [cbn in *; auto|left; cbn; lia].
  - split; [cbn in *; auto|left; cbn; lia].
  - split; [cbn in *; auto|left; cbn; lia].
  - split; [cbn in *; auto|left; cbn; lia].
  - split; [exact Hb|right]. split; [reflexivity|]. cbn [unread]. apply subset_size. split; [set_solver|]. intros Hsub. specialize (Hsub k Hk). set_solver.
  - destruct Hb as [Hn Hr]. apply pick_satisfies in Hp as [Hin _]; [|discriminate]. destruct (started_below n true frames w recs rec p Hac Hna Hr Hin Hn Hst) as [H1 H2].
    split; [exact H1|left; exact H2].
  - destruct Hb as [Hn Hr]. destruct Hq as [-> | ->]; (split; [cbn; auto|left; cbn; lia]).
  - destruct Hb as [Hn Hr]. apply pick_satisfies in Hp as [Hin _]; [|intros K; destruct (s_constraints slot); discriminate].
    destruct (started_below n false frames w recs rec p Hac Hna Hr Hin Hn Hst) as [H1 H2]. split; [exact H1|left; exact H2].
  - split; [exact I|left; cbn; lia].
  - split; [exact I|left; cbn; lia].
  - apply below_deps in Hb as (H1 & H2 & H3 & H4). split.
    + apply below_deps. split; [exact H1|]. split; [exact H2|]. split; [|constructor]. apply Forall_map. exact H4.
    + left. apply finished_children in Hf. cbn [weight]. rewrite fetch_weight. destruct loose; [contradiction|]. cbn [length]. lia.
  - split; [exact I|left; cbn [weight]; lia].
  - split; [exact I|left; cbn [weight]; lia].
Qed.

Lemma step_lighter path k st p st' p' : acyclic -> narrow -> step_at path k st p = Some (Done (st', p')) ->
  forall n, below n p -> below n p' /\ lighter n p p'.
Proof using.
  intros Hac Hna. revert path k st p st' p'. apply (step_at_ind records subdir download (fun st p st' p' => forall n, below n p -> below n p' /\ lighter n p p')).
  - intros st p st' p' H n Hb. apply (lstep_lighter n st p st' p' Hac Hna H Hb).
  - intros first frames key ch dl dl' children loose st st' IH n Hb. apply below_deps in Hb as (H1 & H2 & H3 & H4). destruct (IH _ H2) as [K1 K2]. split.
    + apply below_deps. auto.
    + unfold lighter in *. cbn [weight unread]. lia.
  - intros first frames key ch dl children j child child' loose st st' Ej IH n Hb. apply below_deps in Hb as (H1 & H2 & H3 & H4).
    destruct (IH _ (Forall_lookup_1 _ _ _ _ H3 Ej)) as [K1 K2]. split.
    + apply below_deps. split; [exact H1|]. split; [exact H2|]. split; [apply Forall_insert; assumption|exact H4].
    + unfold lighter in *. cbn [weight unread]. pose proof (list_sum_insert (weight (rank key)) children j child child' Ej).
      pose proof (list_sum_insert unread children j child child' Ej). lia.
Qed.

(** No run is infinite. *)
Lemma below_ends n : acyclic -> narrow -> forall st p, below n p -> sn (fun s s' => step s (Done s')) (st, p).
Proof using.
  intros Hac Hna. enough (H : forall a b st p, below n p -> weight n p <= a -> unread p <= b -> sn (fun s s' => step s (Done s')) (st, p)).
  { intros st p Hb. apply (H (weight n p) (unread p)); [exact Hb|lia|lia]. }
  induction a as [a IHa] using (well_founded_induction lt_wf). induction b as [b IHb] using (well_founded_induction lt_wf).
  intros st p Hb Ha Hu. constructor. intros [st' p'] (path & k & E). cbn [fst snd] in E.
  destruct (step_lighter path k st p st' p' Hac Hna E n Hb) as [Hb' [Hlt|[Heq Hlt]]].
  - apply (IHa (weight n p') ltac:(lia) (unread p')); [exact Hb'|lia|lia].
  - apply (IHb (unread p') ltac:(lia)); [exact Hb'|lia|lia].
Qed.

(** ** Some call can go on *)

(** The choices that a call uses exist; a first call closes a choice that is
    ready. *)
Definition call_ok (st : solve) (p : proc) : Prop :=
  match p with
  | Select _ w | Reconcile _ w => is_Some (chosen st !! wants_key w)
  | Reading _ _ w _ pending _ => is_Some (chosen st !! wants_key w) /\ pending ⊆ dom (chosen st)
  | AwaitDone key => is_Some (chosen st !! key)
  | Deps true _ key _ _ _ _ => duty_met st (DReady key)
  | _ => True
  end.

Inductive sub : proc -> proc -> Prop :=
| sub_refl p : sub p p
| sub_dl q first frames key ch dl children loose : sub q dl -> sub q (Deps first frames key ch dl children loose)
| sub_child q first frames key ch dl children c loose : c ∈ children -> sub q c -> sub q (Deps first frames key ch dl children loose).

(** The first call of a choice. *)
Definition owner (key : string) (p : proc) : Prop :=
  match p with
  | Select _ w | Reading true _ w _ _ _ => wants_key w = key
  | Deps true _ key' _ _ _ _ => key' = key
  | _ => False
  end.
Definition owned (key : string) (p : proc) : Prop := exists q, sub q p /\ owner key q.
Definition closed (st : solve) (key : string) : Prop := exists slot, chosen st !! key = Some slot /\ s_done slot = true.
Definition open_key (st : solve) (key : string) : Prop := exists slot, chosen st !! key = Some slot /\ s_done slot = false.
Definition can_step (st : solve) (p : proc) : Prop := exists path k r, step_at path k st p = Some r.

Lemma sub_below q p : sub q p -> forall n, below n p -> exists m, below m q.
Proof using.
  induction 1 as [p|q first frames key ch dl children loose _ IH|q first frames key ch dl children c loose Hc _ IH]; intros n Hb; [eauto| |];
    apply below_deps in Hb as (_ & H2 & H3 & _); [apply (IH _ H2)|exact (IH _ (proj1 (Forall_forall _ _) H3 c Hc))].
Qed.
Lemma sub_calls P q p : sub q p -> all_calls P p -> all_calls P q.
Proof using.
  induction 1 as [p|q first frames key ch dl children loose _ IH|q first frames key ch dl children c loose Hc _ IH]; intros Hb; [exact Hb| |];
    apply all_calls_deps in Hb as (_ & H2 & H3); [apply IH, H2|exact (IH (proj1 (Forall_forall _ _) H3 c Hc))].
Qed.
Lemma sub_step q p st : sub q p -> can_step st q -> can_step st p.
Proof using.
  induction 1 as [p|q first frames key ch dl children loose _ IH|q first frames key ch dl children c loose Hc _ IH]; intros Hs; [exact Hs| |].
  - destruct (IH Hs) as (path & k & r & E). eexists (0 :: path), k, _. cbn [Solver.step_at]. rewrite E. reflexivity.
  - destruct (IH Hs) as (path & k & r & E). apply list_elem_of_lookup_1 in Hc as [j Ej].
    eexists (S j :: path), k, _. cbn [Solver.step_at]. rewrite Ej. cbn [mbind option_bind]. rewrite E. reflexivity.
Qed.

(** What bounds the packages that a call waits for. *)
Definition own_bound (n : nat) (p : proc) : nat := match p with Deps _ _ key _ _ _ _ => rank key | _ => n end.

Lemma unfinished_child children : forallb finished children = false -> exists c, c ∈ children /\ c <> Finished.
Proof using.
  induction children as [|c l IH]; [discriminate|]. cbn [forallb]. destruct (finished c) eqn:E; cbn [andb].
  - intros H. destruct (IH H) as (x & H1 & H2). exists x. split; [right; exact H1|exact H2].
  - intros _. exists c. split; [left|]. intros ->. discriminate.
Qed.

(** A call goes on, or it waits for a package below. *)
Lemma call_progress st : (forall key slot, chosen st !! key = Some slot -> s_done slot = true -> s_ready slot = true) ->
  forall p n, below n p -> all_calls (call_ok st) p -> p <> Finished ->
  can_step st p \/ exists key, rank key < own_bound n p /\ open_key st key.
Proof using.
  intros Hdr. fix IH 1. intros p n. destruct p as [|frames ch dep|frames w|frames w|frames w|first frames w recs pending variants|key|rec|first frames key ch dl children loose];
    intros Hb Hok Hne; cbn [own_bound].
  - contradiction.
  - left. eexists [], EmptyString, _. reflexivity.
  - left. exists [], EmptyString. cbn [Solver.step_at local_step]. destruct (skipped_name _); [eauto|]. destruct (chosen st !! wants_key w); eauto.
  - left. eexists [], EmptyString, _. reflexivity.
  - destruct Hok as [[slot E] _]. destruct (s_ready slot) eqn:Er.
    + left. eexists [], EmptyString, _. cbn [Solver.step_at local_step]. rewrite E. cbn [mbind option_bind]. rewrite Er. reflexivity.
    + right. exists (wants_key w). split; [exact Hb|]. exists slot. split; [exact E|]. destruct (s_done slot) eqn:Ed; [|reflexivity]. rewrite (Hdr _ _ E Ed) in Er. discriminate.
  - destruct Hok as [[[slot E] Hsub] _]. left. destruct (decide (pending = ∅)) as [->|Hp].
    + eexists [], EmptyString, _. cbn [Solver.step_at local_step]. rewrite bool_decide_true by reflexivity. rewrite E. reflexivity.
    + apply set_choose_L in Hp as [k Hk]. pose proof (Hsub k Hk) as Hd. apply elem_of_dom in Hd as [sk Ek].
      eexists [], k, _. cbn [Solver.step_at local_step]. rewrite bool_decide_false by set_solver. rewrite bool_decide_true by exact Hk. rewrite Ek. reflexivity.
  - destruct Hok as [[slot E] _]. destruct (s_done slot) eqn:Ed.
    + left. eexists [], EmptyString, _. cbn [Solver.step_at local_step]. rewrite E. cbn [mbind option_bind]. rewrite Ed. reflexivity.
    + right. exists key. split; [exact Hb|]. exists slot. auto.
  - left. eexists [], EmptyString, _. reflexivity.
  - cbn [below all_calls] in Hb, Hok. destruct Hb as (Hn & Hbd & Hbc & Hbl), Hok as (Hown & Hokd & Hokc).
    assert (Hchildren : Forall finished children \/ exists c, c ∈ children /\ (can_step st c \/ exists k', rank k' < rank key /\ open_key st k')).
    { clear Hn Hbd Hbl Hown Hokd Hne. revert children Hbc Hokc. fix IHl 1. intros [|c l] Hbc Hokc; [left; constructor|].
      destruct Hbc as [Hb1 Hb2], Hokc as [Hk1 Hk2]. pose proof (IH c (rank key) Hb1 Hk1) as Hc. destruct (finished c) eqn:Ef.
      - destruct (IHl l Hb2 Hk2) as [Hall|(x & H1 & H2)]; [left; constructor; [rewrite Ef; exact I|exact Hall]|right]. exists x. split; [right; exact H1|exact H2].
      - right. exists c. split; [left|]. destruct Hc as [Hc|(k' & Hk & Ho)]; [intros ->; discriminate|left; exact Hc|right]. exists k'. split; [|exact Ho].
        destruct c; cbn [own_bound] in Hk; try exact Hk. cbn [below] in Hb1. lia. }
    destruct Hchildren as [Hall|(c & Hc & [Hs|Hw])].
    + assert (Hfin : forallb finished children = true) by (clear -Hall; induction Hall as [|c l Hc _ IHl]; [reflexivity|]; cbn [forallb]; rewrite IHl; destruct (finished c); [reflexivity|destruct Hc]).
      destruct loose as [|dep loose].
      * destruct (finished dl) eqn:Efd.
        -- left. destruct first; [destruct Hown as (slot & E & _)|]; eexists [], EmptyString, _; cbn [Solver.step_at local_step]; rewrite Hfin, Efd; cbn [negb];
             [rewrite E; reflexivity|reflexivity].
        -- destruct (IH dl (rank key) Hbd Hokd) as [Hs|(k' & Hk & Ho)]; [intros ->; discriminate| |].
           ++ left. apply (sub_step dl); [apply sub_dl, sub_refl|exact Hs].
           ++ right. exists k'. split; [|exact Ho]. destruct dl; cbn [own_bound] in Hk; try exact Hk. cbn [below] in Hbd. lia.
      * left. eexists [], EmptyString, _. cbn [Solver.step_at local_step]. rewrite Hfin. reflexivity.
    + left. apply (sub_step c); [apply (sub_child c _ _ _ _ _ _ c); [exact Hc|apply sub_refl]|exact Hs].
    + right. exact Hw.
Qed.

(** An open choice has a first call, which goes on or waits below it. *)
Lemma open_progress st p n : (forall key slot, chosen st !! key = Some slot -> s_done slot = true -> s_ready slot = true) ->
  below n p -> all_calls (call_ok st) p -> (forall key, open_key st key -> owned key p) ->
  forall key, open_key st key -> can_step st p.
Proof using.
  intros Hdr Hb Hok Hown key. remember (rank key) as m eqn:Em. revert key Em.
  induction m as [m IH] using (well_founded_induction lt_wf). intros key -> Ho.
  destruct (Hown key Ho) as (q & Hsub & Hq). destruct (sub_below q p Hsub n Hb) as [m Hm]. pose proof (sub_calls _ q p Hsub Hok) as Hokq.
  destruct (call_progress st Hdr q m Hm Hokq) as [Hs|(k' & Hk & Ho')]; [intros ->; exact Hq|apply (sub_step q); assumption|].
  destruct q as [| | |frames w| |[|] frames w recs pending variants| | |[|] frames key' ch dl children loose]; try contradiction.
  - apply (sub_step (Select frames w)); [exact Hsub|]. eexists [], EmptyString, _. reflexivity.
  - destruct Hokq as [[[slot E] Hpend] _]. apply (sub_step _ _ _ Hsub). destruct (decide (pending = ∅)) as [->|Hp].
    + eexists [], EmptyString, _. cbn [Solver.step_at local_step]. rewrite bool_decide_true by reflexivity. rewrite E. reflexivity.
    + apply set_choose_L in Hp as [k Hkp]. pose proof (Hpend k Hkp) as Hd. apply elem_of_dom in Hd as [sk Ek].
      eexists [], k, _. cbn [Solver.step_at local_step]. rewrite bool_decide_false by set_solver. rewrite bool_decide_true by exact Hkp. rewrite Ek. reflexivity.
  - cbn in Hq. subst key'. cbn [own_bound] in Hk. apply (IH (rank k') Hk k' eq_refl Ho').
Qed.

(** ** Every open choice has its first call *)

Definition done_ready (st : solve) : Prop := forall key slot, chosen st !! key = Some slot -> s_done slot = true -> s_ready slot = true.
(** Choices are not removed, nor opened again. *)
Definition grows (st st' : solve) : Prop := forall key slot, chosen st !! key = Some slot -> exists slot', chosen st' !! key = Some slot' /\
  (s_ready slot = true -> s_ready slot' = true) /\ (s_done slot = true -> s_done slot' = true).

Lemma tree_grows_refl st : grows st st.
Proof using. intros key slot E. exists slot. auto. Qed.
Lemma grows_set st key slot' : match chosen st !! key with
  | Some slot => (s_ready slot = true -> s_ready slot' = true) /\ (s_done slot = true -> s_done slot' = true) | None => True end -> grows st (set_slot st key slot').
Proof using.
  intros H k slot E. cbn [set_slot chosen]. destruct (decide (k = key)) as [->|Hne].
  - rewrite E in H. destruct H as [H0 H1]. exists slot'. rewrite lookup_insert_eq. auto.
  - exists slot. rewrite lookup_insert_ne by congruence. auto.
Qed.
Lemma grows_some st st' key : grows st st' -> is_Some (chosen st !! key) -> is_Some (chosen st' !! key).
Proof using. intros H [slot E]. destruct (H key slot E) as (slot' & E' & _). eauto. Qed.

Lemma call_ok_grows st st' p : grows st st' -> all_calls (call_ok st) p -> all_calls (call_ok st') p.
Proof using.
  intros Hg. assert (Hd : forall s : gset string, s ⊆ dom (chosen st) -> s ⊆ dom (chosen st')).
  { intros s Hs x Hx. apply elem_of_dom, (grows_some st st' x Hg), elem_of_dom, Hs, Hx. }
  revert p. fix IH 1. intros p. destruct p as [|frames ch dep|frames w|frames w|frames w|first frames w recs pending variants|key|rec|first frames key ch dl children loose];
    cbn [all_calls call_ok]; try exact (fun H => H).
  - intros [H _]. split; [apply (grows_some st), H; exact Hg|exact I].
  - intros [H _]. split; [apply (grows_some st), H; exact Hg|exact I].
  - intros [[H1 H2] _]. split; [split; [apply (grows_some st), H1; exact Hg|apply Hd, H2]|exact I].
  - intros [H _]. split; [apply (grows_some st), H; exact Hg|exact I].
  - intros (H1 & H2 & H3). split; [|split; [apply IH, H2|]].
    + destruct first; [|exact I]. destruct H1 as (slot & E & Hr). destruct (Hg key slot E) as (slot' & E' & K1 & _). exists slot'. auto.
    + clear H1 H2. revert children H3. fix IHl 1. intros [|c l] H3; [exact I|]. destruct H3 as [K1 K2]. split; [apply IH, K1|apply IHl, K2].
Qed.

(** What a step does to the calls [p] that become [p']. *)
Definition keeps_owners (st : solve) (p : proc) (st' : solve) (p' : proc) : Prop :=
  all_calls (call_ok st') p' /\ done_ready st' /\ grows st st' /\
  (forall key, owned key p -> owned key p' \/ closed st' key) /\
  (forall key, open_key st' key -> open_key st key \/ owned key p').

Lemma owned_self key p : owner key p -> owned key p.
Proof using. intros H. exists p. split; [apply sub_refl|exact H]. Qed.

(** A call without tasks owns what it is the first call of. *)
Lemma owned_leaf key p : match p with Deps _ _ _ _ _ _ _ => False | _ => True end -> owned key p -> owner key p.
Proof using. intros Hp (q & Hs & Hq). destruct Hs; [exact Hq|contradiction|contradiction]. Qed.

Lemma same_state st p p' : all_calls (call_ok st) p' -> done_ready st -> (forall key, owned key p -> owned key p') -> keeps_owners st p st p'.
Proof using. intros H1 H2 H3. split; [exact H1|]. split; [exact H2|]. split; [apply tree_grows_refl|]. split; auto. Qed.

Lemma new_slot st p p' key slot' : all_calls (call_ok (set_slot st key slot')) p' -> done_ready st -> (s_done slot' = true -> s_ready slot' = true) ->
  match chosen st !! key with
  | Some slot => (s_ready slot = true -> s_ready slot' = true) /\ (s_done slot = true -> s_done slot' = true) /\ (s_done slot' = false -> s_done slot = false)
  | None => owned key p' end ->
  (forall k, owned k p -> owned k p' \/ k = key /\ s_done slot' = true) -> keeps_owners st p (set_slot st key slot') p'.
Proof using.
  intros H1 H2 H3 H4 H5. split; [exact H1|]. split.
  { intros k slot E. cbn [set_slot chosen] in E. destruct (decide (k = key)) as [->|Hne]; [rewrite lookup_insert_eq in E; injection E as <-; exact H3|].
    rewrite lookup_insert_ne in E by congruence. apply (H2 k slot E). }
  split; [apply grows_set; destruct (chosen st !! key); [destruct H4 as (K1 & K2 & _); auto|exact I]|]. split.
  - intros k Hk. destruct (H5 k Hk) as [K|[-> K]]; [left; exact K|right]. exists slot'. cbn [set_slot chosen]. rewrite lookup_insert_eq. auto.
  - intros k (slot & E & Hd). cbn [set_slot chosen] in E. destruct (decide (k = key)) as [->|Hne].
    + rewrite lookup_insert_eq in E. injection E as <-. destruct (chosen st !! key) as [s0|] eqn:E0; [left|right; exact H4]. exists s0. destruct H4 as (_ & _ & K). auto.
    + rewrite lookup_insert_ne in E by congruence. left. exists slot. auto.
Qed.

Lemma started_calls_ok st first frames key ch rec p : started first frames key ch rec p -> (first = true -> duty_met st (DReady key)) -> all_calls (call_ok st) p.
Proof using.
  intros (deps & pinned & loose & _ & _ & ->) Hr. apply all_calls_deps. split; [destruct first; [apply Hr; reflexivity|exact I]|]. split; [split; exact I|].
  apply Forall_map, Forall_true. intros dep. split; exact I.
Qed.

Lemma finished_owned key children : forallb finished children = true -> forall c, c ∈ children -> ~ owned key c.
Proof using.
  intros Hf c Hc Ho. apply finished_children in Hf. rewrite Forall_forall in Hf. rewrite <- (Hf c Hc) in Ho. apply owned_leaf in Ho; [exact Ho|exact I].
Qed.
Lemma owned_deps key first frames k ch dl children loose : owned key (Deps first frames k ch dl children loose) ->
  (first = true /\ k = key) \/ owned key dl \/ exists c, c ∈ children /\ owned key c.
Proof using.
  intros (q & Hs & Hq). inversion Hs; subst.
  - left. destruct first; [auto|contradiction].
  - right. left. exists q. auto.
  - right. right. exists c. split; [assumption|]. exists q. auto.
Qed.

Lemma lstep_owners st p st' p' : lstep records subdir download st p st' p' -> all_calls (call_ok st) p -> done_ready st -> keeps_owners st p st' p'.
Proof using R U download rank records subdir.
  intros H Hok Hdr. destruct H as
    [frames ch dep w Hw|frames w Hsk|frames w slot Hsk E|frames w Hsk E|frames w recs Hrec|frames w slot recs E Hrd Hrec|first frames w recs pending variants k slot Hk E
    |frames w recs variants slot rec p Eslot Hp Hst|frames w recs variants all slot rec p Eslot Hp Hsame Hq|frames w recs variants all slot rec p Eslot Hp Hst
    |key slot E Hd|rec Hd|first frames key ch dl children loose Hf Hl|frames key ch children slot Hf E|frames key ch children Hf].
  - apply same_state; [split; exact I|exact Hdr|]. intros key Ho. apply owned_leaf in Ho; [destruct Ho|exact I].
  - apply same_state; [split; exact I|exact Hdr|]. intros key Ho. apply owned_leaf in Ho; [destruct Ho|exact I].
  - apply same_state; [split; [cbn; eauto|exact I]|exact Hdr|]. intros key Ho. apply owned_leaf in Ho; [destruct Ho|exact I].
  - apply new_slot; [split; [cbn; rewrite lookup_insert_eq; eauto|exact I]|exact Hdr|discriminate|rewrite E; apply owned_self; reflexivity|].
    intros key Ho. apply owned_leaf in Ho; [destruct Ho|exact I].
  - apply same_state; [split; [split; [apply Hok|reflexivity]|exact I]|exact Hdr|]. intros key Ho. apply owned_leaf in Ho; [apply owned_self, Ho|exact I].
  - apply same_state; [split; [split; [apply Hok|reflexivity]|exact I]|exact Hdr|]. intros key Ho. apply owned_leaf in Ho; [destruct Ho|exact I].
  - apply same_state; [|exact Hdr|].
    + destruct Hok as [[H1 H2] _]. split; [split; [exact H1|set_solver]|exact I].
    + intros key Ho. apply owned_leaf in Ho; [|exact I]. destruct first; [apply owned_self, Ho|destruct Ho].
  - apply new_slot; [apply (started_calls_ok _ _ _ _ _ _ _ Hst); intros _; apply ready_set; reflexivity|exact Hdr|reflexivity| |].
    + rewrite Eslot. cbn. auto.
    + intros key Ho. apply owned_leaf in Ho; [|exact I]. cbn in Ho. subst key. left. destruct Hst as (? & ? & ? & _ & _ & ->). apply owned_self. reflexivity.
  - apply new_slot; [| exact Hdr|apply (Hdr _ _ Eslot)| |].
    + destruct Hq as [-> | ->]; [split; exact I|split; [cbn; rewrite lookup_insert_eq; eauto|exact I]].
    + rewrite Eslot. cbn. auto.
    + intros key Ho. apply owned_leaf in Ho; [destruct Ho|exact I].
  - apply new_slot; [apply (started_calls_ok _ _ _ _ _ _ _ Hst); discriminate|exact Hdr|apply (Hdr _ _ Eslot)| |].
    + rewrite Eslot. cbn. auto.
    + intros key Ho. apply owned_leaf in Ho; [destruct Ho|exact I].
  - apply same_state; [split; exact I|exact Hdr|]. intros k Ho. apply owned_leaf in Ho; [destruct Ho|exact I].
  - split; [split; exact I|]. split; [exact Hdr|]. split; [exact (tree_grows_refl st)|]. split; [|auto]. intros k Ho. apply owned_leaf in Ho; [destruct Ho|exact I].
  - apply all_calls_deps in Hok as (H1 & H2 & _). apply same_state; [|exact Hdr|].
    + apply all_calls_deps. split; [exact H1|]. split; [exact H2|]. apply Forall_map, Forall_true. intros dep. split; exact I.
    + intros k Ho. apply owned_deps in Ho as [[-> ->]|[(q & Hs & Hq)|(c & Hc & Ho)]].
      * apply owned_self. reflexivity.
      * exists q. split; [apply sub_dl, Hs|exact Hq].
      * destruct (finished_owned k children Hf c Hc Ho).
  - apply all_calls_deps in Hok as (H1 & _ & _). cbn in H1. destruct H1 as (slot1 & E1 & Hrd). rewrite E in E1. injection E1 as <-.
    apply new_slot; [split; exact I|exact Hdr|intros _; exact Hrd|rewrite E; cbn; split; [auto|split; [reflexivity|discriminate]]|].
    intros k Ho. apply owned_deps in Ho as [[_ ->]|[Ho|(c & Hc & Ho)]]; [right; auto| |destruct (finished_owned k children Hf c Hc Ho)].
    apply owned_leaf in Ho; [destruct Ho|exact I].
  - apply same_state; [split; exact I|exact Hdr|]. intros k Ho. apply owned_deps in Ho as [[[=] _]|[Ho|(c & Hc & Ho)]]; [|destruct (finished_owned k children Hf c Hc Ho)].
    apply owned_leaf in Ho; [destruct Ho|exact I].
Qed.

Lemma step_owners path k st p st' p' : step_at path k st p = Some (Done (st', p')) ->
  all_calls (call_ok st) p -> done_ready st -> keeps_owners st p st' p'.
Proof using R U download rank records subdir.
  revert path k st p st' p'. apply (step_at_ind records subdir download (fun st p st' p' => all_calls (call_ok st) p -> done_ready st -> keeps_owners st p st' p')).
  - exact lstep_owners.
  - intros first frames key ch dl dl' children loose st st' IH Hok Hdr. apply all_calls_deps in Hok as (H1 & H2 & H3).
    destruct (IH H2 Hdr) as (K1 & K2 & K3 & K4 & K5). split; [|split; [exact K2|split; [exact K3|split]]].
    + apply all_calls_deps. split; [|split; [exact K1|apply (Forall_impl _ _ _ H3); intros c; apply call_ok_grows, K3]].
      pose proof (call_ok_grows st st' (Deps first frames key ch Finished [] loose) K3) as G. cbn in G. destruct first; [|exact I]. apply G. cbn in H1. auto.
    + intros k Ho. apply owned_deps in Ho as [[-> ->]|[Ho|(c & Hc & q & Hs & Hq)]]; [left; apply owned_self; reflexivity| |left; exists q; split; [apply (sub_child _ _ _ _ _ _ _ c); assumption|exact Hq]].
      destruct (K4 k Ho) as [(q & Hs & Hq)|Hcl]; [left; exists q; split; [apply sub_dl, Hs|exact Hq]|right; exact Hcl].
    + intros k Ho. destruct (K5 k Ho) as [K|(q & Hs & Hq)]; [left; exact K|right; exists q; split; [apply sub_dl, Hs|exact Hq]].
  - intros first frames key ch dl children j child child' loose st st' Ej IH Hok Hdr. apply all_calls_deps in Hok as (H1 & H2 & H3).
    destruct (IH (Forall_lookup_1 _ _ _ _ H3 Ej) Hdr) as (K1 & K2 & K3 & K4 & K5).
    assert (Hin' : child' ∈ <[j:=child']> children) by (apply list_elem_of_lookup_2 with j; apply list_lookup_insert_eq, (lookup_lt_Some _ _ _ Ej)).
    split; [|split; [exact K2|split; [exact K3|split]]].
    + apply all_calls_deps. split; [|split; [apply (call_ok_grows st), H2; exact K3|apply Forall_insert; [apply (Forall_impl _ _ _ H3); intros c; apply call_ok_grows, K3|exact K1]]].
      pose proof (call_ok_grows st st' (Deps first frames key ch Finished [] loose) K3) as G. cbn in G. destruct first; [|exact I]. apply G. cbn in H1. auto.
    + intros k Ho. apply owned_deps in Ho as [[-> ->]|[(q & Hs & Hq)|(c & Hc & Ho)]]; [left; apply owned_self; reflexivity|left; exists q; split; [apply sub_dl, Hs|exact Hq]|].
      apply list_elem_of_lookup_1 in Hc as [i Hi]. destruct (decide (i = j)) as [->|Hne].
      * rewrite Ej in Hi. injection Hi as <-. destruct (K4 k Ho) as [(q & Hs & Hq)|Hcl]; [left|right; exact Hcl]. exists q. split; [apply (sub_child _ _ _ _ _ _ _ child'); assumption|exact Hq].
      * left. destruct Ho as (q & Hs & Hq). exists q. split; [|exact Hq]. apply (sub_child _ _ _ _ _ _ _ c); [|exact Hs]. apply list_elem_of_lookup_2 with i. rewrite list_lookup_insert_ne by congruence. exact Hi.
    + intros k Ho. destruct (K5 k Ho) as [K|(q & Hs & Hq)]; [left; exact K|right; exists q; split; [apply (sub_child _ _ _ _ _ _ _ child'); assumption|exact Hq]].
Qed.

(** ** Runs *)

Record run_inv (n : nat) (s : solve * proc) : Prop := {
  run_below : below n s.2;
  run_calls : all_calls (call_ok s.1) s.2;
  run_done : done_ready s.1;
  run_owned key : open_key s.1 key -> owned key s.2
}.

Lemma run_inv_step n s s' : acyclic -> narrow -> run_inv n s -> step s (Done s') -> run_inv n s'.
Proof using.
  intros Hac Hna [H1 H2 H3 H4] (path & k & E). destruct s as [st p], s' as [st' p']. cbn [fst snd] in *.
  destruct (step_owners path k st p st' p' E H2 H3) as (K1 & K2 & K3 & K4 & K5).
  split; cbn [fst snd]; [apply (step_lighter path k st p st' p' Hac Hna E n H1)|exact K1|exact K2|].
  intros key Ho. destruct (K5 key Ho) as [K|K]; [|exact K]. destruct (K4 key (H4 key K)) as [K'|(slot & E1 & E2)]; [exact K'|].
  destruct Ho as (slot' & E1' & E2'). congruence.
Qed.

Lemma run_inv_start ch name versionSpec buildSpec :
  run_inv (S (rank (package_key (ch_Base ch) (walk_name name)))) (closure_start ch name versionSpec buildSpec).
Proof using.
  split; cbn [closure_start fst snd].
  - cbn [below]. intros _. unfold wants_key. cbn [w_channel w_name]. lia.
  - split; exact I.
  - intros key slot E. cbn [chosen] in E. rewrite lookup_empty in E. discriminate.
  - intros key (slot & E & _). cbn [chosen] in E. rewrite lookup_empty in E. discriminate.
Qed.

Lemma run_inv_steps n s s' : acyclic -> narrow -> run_inv n s -> steps records subdir download s s' -> run_inv n s'.
Proof using. intros Hac Hna H Hs. induction Hs as [s|s s1 s2 H1 _ IH]; [exact H|]. apply IH, (run_inv_step n s s1 Hac Hna H H1). Qed.

Lemma run_progress n s : run_inv n s -> s.2 = Finished \/ exists r, step s r.
Proof using.
  intros [H1 H2 H3 H4]. destruct s as [st p]. cbn [fst snd] in *. destruct (finished p) eqn:Ef; [left; destruct p; discriminate || reflexivity|right].
  assert (Hne : p <> Finished) by (intros ->; discriminate).
  destruct (call_progress st H3 p n H1 H2 Hne) as [(path & k & r & E)|(key & _ & Ho)]; [exists r, path, k; exact E|].
  destruct (open_progress st p n H3 H1 H2 H4 key Ho) as (path & k & r & E). exists r, path, k. exact E.
Qed.

(** ** Blocked states *)

Fixpoint blocked (st : solve) (p : proc) : bool :=
  match p with
  | Finished => true
  | AwaitDone key => match chosen st !! key with Some slot => negb (s_done slot) | None => true end
  | Deps _ _ _ _ dl children _ => blocked st dl && forallb (blocked st) children && negb (forallb finished children)
  | _ => false
  end.

Lemma blocked_stuck st path : forall p k, blocked st p = true -> step_at path k st p = None.
Proof using.
  induction path as [|i path IH]; intros p k H.
  - destruct p as [| | | | | |key| |first frames key ch dl children loose]; try discriminate; try reflexivity; cbn [Solver.step_at local_step blocked] in *.
    + destruct (chosen st !! key) as [slot|]; [|reflexivity]. cbn [mbind option_bind]. destruct (s_done slot); [discriminate|reflexivity].
    + apply andb_true_iff in H as [_ H]. apply negb_true_iff in H. rewrite H. reflexivity.
  - destruct p as [| | | | | | | |first frames key ch dl children loose]; try reflexivity. cbn [blocked] in H. apply andb_true_iff in H as [H _].
    apply andb_true_iff in H as [H1 H2]. cbn [Solver.step_at]. destruct i as [|j].
    + rewrite (IH dl k H1). reflexivity.
    + destruct (children !! j) as [c|] eqn:Ej; [|reflexivity]. cbn [mbind option_bind]. rewrite (IH c k); [reflexivity|].
      apply (proj1 (forallb_forall _ _) H2). apply list_elem_of_In, list_elem_of_lookup_2 with j. exact Ej.
Qed.
End ending.
