(* ===== verification/Conda.v ===== *)
(** * Conda packages

    The theorems about src/x/tool/conda: versions and their order, constraints
    and their text, the pick of a record, the concurrent solver and the order
    of its result, each applied to a small channel. *)
From Stdlib Require Import ZArith Lia Ascii.
From stdpp Require Import base numbers option list strings gmap relations.
From S2P Require Import Prelude Strings Versions Specs Formulas Channels Records Picks Closure Solver Samples Solving Ending.

Local Open Scope Z_scope.

(** ** The solver *)

(** C16: when the concurrent solver finishes a run without an error, in any
    interleaving, and the closure returns records, the requested package is
    among them with a record that satisfies the request; every returned record
    is of the platform and was downloaded; and each of its dependencies that
    the system does not provide is answered by a returned record of that
    package, which satisfies the version and the build that it asks for. *)
Theorem closure_sound {U : Urls} {R : Regexp} records subdir download ch name versionSpec buildSpec st recs :
  steps records subdir download (closure_start ch name versionSpec buildSpec) (st, Finished) ->
  plain_keys st -> plain_deps st -> closure_records st ch name = Some (Done recs) ->
  (skipped_name (walk_name name) = false -> exists r, r ∈ recs /\ answers records subdir (mkSpec EmptyString name versionSpec buildSpec) r) /\
  forall r, r ∈ recs -> of_platform subdir r /\ r ∈ downloaded st /\
    forall dep spec, dep ∈ r_Depends r -> real_dep dep spec -> exists r', r' ∈ recs /\ answers records subdir spec r'.
Proof.
  intros Hrun Hkeys Hdeps Hrecs. exact (closure_consistent records subdir download ch name versionSpec buildSpec st recs Hrun Hkeys Hdeps Hrecs).
Qed.

Lemma closure_sound_witness :
  steps (sample_index apps) "linux-64" (fun _ => true) (closure_start forge "app" EmptyString EmptyString) ((sample_run apps "app" apps_script).1, Finished) /\
  exists recs, closure_records (sample_run apps "app" apps_script).1 forge "app" = Some (Done recs) /\ map r_Version recs = ["1.0"; "0.5"; "1.0"] /\
  forall r, r ∈ recs -> forall dep spec, dep ∈ r_Depends r -> real_dep dep spec -> exists r', r' ∈ recs /\ answers (sample_index apps) "linux-64" spec r'.
Proof.
  assert (Hrun : steps (sample_index apps) "linux-64" (fun _ => true) (closure_start forge "app" EmptyString EmptyString) ((sample_run apps "app" apps_script).1, Finished)).
  { apply (run_script_steps _ _ _ apps_script). vm_compute. reflexivity. }
  split; [exact Hrun|].
  destruct (closure_records (sample_run apps "app" apps_script).1 forge "app") as [[recs|e|]|] eqn:E; try (vm_compute in E; discriminate E).
  exists recs. split; [reflexivity|]. split; [vm_compute in E; injection E as <-; reflexivity|].
  assert (Hkeys : plain_keys (sample_run apps "app" apps_script).1).
  { apply (bool_decide_eq_true_1 (map_Forall (fun key _ => count_char nul key = 1%nat) (chosen (sample_run apps "app" apps_script).1))). vm_compute. reflexivity. }
  assert (Hdeps : plain_deps (sample_run apps "app" apps_script).1).
  { assert (H : map_Forall (fun _ slot => Forall (fun dep => match parseMatchSpec dep with Some spec => bool_decide (walk_name (ms_Name spec) = ms_Name spec) | None => true end = true)
                  (r_Depends (s_rec slot))) (chosen (sample_run apps "app" apps_script).1)) by (apply (bool_decide_eq_true_1 _); vm_compute; reflexivity).
    intros key slot dep spec Ek Hd Ep. pose proof (proj1 (Forall_forall _ _) (H key slot Ek) dep Hd) as K. cbn beta in K. rewrite Ep in K. apply bool_decide_eq_true in K. exact K. }
  destruct (closure_sound _ _ _ _ _ _ _ _ _ Hrun Hkeys Hdeps E) as [_ H]. intros r Hr. apply (H r Hr).
Defined.

(** C17: in a channel without dependency cycles the solver ends: no run is
    infinite, whatever the interleaving; a state in which no call can go on is
    finished, an error being a step that ends the run; and from a finished
    state the closure returns its records or an error. *)
Theorem solver_ends {U : Urls} {R : Regexp} records subdir download rank width ch name versionSpec buildSpec :
  acyclic records rank -> narrow records width ->
  let start := closure_start ch name versionSpec buildSpec in
  sn (fun s s' => step records subdir download s (Done s')) start /\
  forall s, steps records subdir download start s ->
    (s.2 = Finished /\ exists r, closure_records s.1 ch name = Some r /\ r <> Panicked) \/ exists r, step records subdir download s r.
Proof.
  intros Hac Hna start. split.
  - exact (below_ends records subdir download rank width _ Hac Hna _ _ (run_below records rank _ _ (run_inv_start records rank ch name versionSpec buildSpec))).
  - intros s Hs. pose proof (run_inv_steps records subdir download rank width _ _ _ Hac Hna (run_inv_start records rank ch name versionSpec buildSpec) Hs) as Hi.
    destruct (run_progress records subdir download rank _ s Hi) as [Hf|Hstep]; [left|right; exact Hstep]. split; [exact Hf|].
    unfold closure_records. pose proof (final_records_spec (final_view s.1) (package_key (ch_Base ch) (walk_name name)) (S (size (final_view s.1))) ltac:(lia)) as K.
    destruct (finalRecords _ _ _) as [[recs|e|]|]; try contradiction; eexists; (split; [reflexivity|discriminate]).
Qed.

Lemma solver_ends_witness : acyclic (sample_index apps) apps_rank /\ narrow (sample_index apps) 2 /\
  sn (fun s s' => step (sample_index apps) "linux-64" (fun _ => true) s (Done s')) (closure_start forge "app" EmptyString EmptyString).
Proof.
  assert (Hac : acyclic (sample_index apps) apps_rank).
  { intros ch n recs rec dep w Hr Hin Hdep Hw Hsk. destruct (sample_index_in _ _ _ _ _ Hr Hin) as (Hb & Hall & <-).
    unfold apps, libs in Hall. repeat (apply elem_of_cons in Hall as [->|Hall];
      [cbn [r_Depends sample_record] in Hdep; repeat (apply elem_of_cons in Hdep as [->|Hdep];
         [vm_compute in Hw; injection Hw as <-; first [vm_compute in Hsk; discriminate Hsk|unfold wants_key; cbn [w_channel w_name]; rewrite Hb; vm_compute; lia]|]); inversion Hdep|]).
    inversion Hall. }
  assert (Hna : narrow (sample_index apps) 2).
  { intros ch n recs rec Hr Hin. destruct (sample_index_in _ _ _ _ _ Hr Hin) as (_ & Hall & _).
    unfold apps, libs in Hall. repeat (apply elem_of_cons in Hall as [->|Hall]; [cbn; lia|]). inversion Hall. }
  split; [exact Hac|]. split; [exact Hna|]. apply (solver_ends _ _ _ _ _ _ _ _ _ Hac Hna).
Defined.

(** C37: the records of the closure are installed with dependencies first: each
    package that the root reaches is listed once, nothing else is, and a
    package comes after its dependencies except where those depend on it. *)
Theorem install_order {U : Urls} chosen rootKey :
  match finalRecords chosen (S (size chosen)) rootKey with
  | Some (Done recs) => exists ks, NoDup ks /\ map Some recs = map (fun k => cr_rec <$> chosen !! k) ks /\
      (is_Some (chosen !! rootKey) -> forall k, k ∈ ks <-> reaches chosen rootKey k) /\
      (forall k d, k ∈ ks -> edge chosen k d -> listed_before ks d k \/ reaches chosen d k)
  | Some (Failed e) => fails_with chosen rootKey e
  | _ => False
  end.
Proof.
  pose proof (final_records_spec chosen rootKey (S (size chosen)) ltac:(lia)) as K.
  destruct (finalRecords chosen (S (size chosen)) rootKey) as [[recs|e|]|]; try exact K.
  destruct K as (ks & H1 & H2 & H3 & H4 & _). exists ks. auto.
Qed.

(** ** Picking *)



(** C36: the order in which the index lists the records does not matter, so
    neither does Go's order of maps: when the channel lists a file of a
    directory once and the versions that satisfy the constraints parse, the
    pick or its error is the same for every permutation. *)
Theorem pick_order_free {R : Regexp} records records' constraints native variants : records ≡ₚ records' -> files_distinct records ->
  constraints <> [] -> (forall r, r ∈ records -> satisfies native constraints r -> version_known r) ->
  pickSatisfying records constraints native variants = pickSatisfying records' constraints native variants.
Proof.
  intros Hp Hd Hne Hknown. unfold pickSatisfying. pose proof (keep_all_perm native constraints _ _ Hp) as K. pose proof (keep_all_spec native constraints records) as S1.
  destruct (keep_all constraints native records) as [kept|e|], (keep_all constraints native records') as [kept'|e'|]; try contradiction; cbn [mbind outcome_bind]; [|subst; reflexivity].
  destruct S1 as [[? _]|(_ & Hk & E)]; [contradiction|]. destruct kept as [|best rest]; [contradiction|].
  destruct kept' as [|best' rest']; [apply Permutation_nil_r in K; discriminate|].
  assert (Hin : forall r, r ∈ best :: rest -> satisfies native constraints r /\ r ∈ records) by (intros r Hr; rewrite E in Hr; apply list_elem_of_filter in Hr; exact Hr).
  assert (Hall : Forall version_known (best :: rest)) by (apply Forall_forall; intros x Hx; apply Hin in Hx as [H1 H2]; apply Hknown; assumption).
  assert (Hall' : Forall version_known (best' :: rest')) by (rewrite <- K; exact Hall).
  rewrite !best_greatest by assumption. f_equal. apply greatest_unique; [apply _|exact K|].
  intros x y Hx Hy H0. apply Hin in Hx as [Sx Rx], Hy as [Sy Ry]. apply compare_same_file in H0 as [F1 F2]; [|apply Sx|apply Sy]. apply Hd; assumption.
Qed.

Lemma pick_order_free_witness :
  pickSatisfying libs [mkConstraint ">=1,<3" EmptyString] "linux-64" ∅ = pickSatisfying (rev libs) [mkConstraint ">=1,<3" EmptyString] "linux-64" ∅.
Proof.
  apply pick_order_free.
  - apply Permutation_rev.
  - intros a b Ha Hb E _. unfold libs in Ha, Hb. repeat (apply elem_of_cons in Ha as [->|Ha];
      [repeat (apply elem_of_cons in Hb as [->|Hb]; [reflexivity || (vm_compute in E; discriminate E)|]); inversion Hb|]). inversion Ha.
  - discriminate.
  - intros r Hr _. unfold libs in Hr. repeat (apply elem_of_cons in Hr as [->|Hr]; [vm_compute; eauto|]). inversion Hr.
Defined.

(** ** Versions *)

(** C35: the order of versions is a total preorder: comparing is reflexive,
    antisymmetric in its sign and transitive.  Versions are equal when they
    have the same atom at every position, missing components and atoms being
    zeros, and less when the first difference of their release is less, or
    the releases are equal and that of their local versions is. *)
Theorem version_order u v w :
  version_compare v v = 0 /\ version_compare w v = - version_compare v w /\
  (version_compare u v <= 0 -> version_compare v w <= 0 -> version_compare u w <= 0) /\
  (version_compare v w = 0 <->
     (forall i j, atom_at (cv_parts v) i j = atom_at (cv_parts w) i j) /\ (forall i j, atom_at (cv_local v) i j = atom_at (cv_local w) i j)) /\
  (version_compare v w < 0 <->
     less_first (cv_parts v) (cv_parts w) \/
     (forall i j, atom_at (cv_parts v) i j = atom_at (cv_parts w) i j) /\ less_first (cv_local v) (cv_local w)).
Proof.
  split; [apply compare_refl|]. split; [apply compare_opp|]. split; [apply compare_trans|]. split; [apply version_zero|].
  rewrite <- !parts_negative, <- parts_zero. unfold version_compare.
  destruct (Z.eqb_spec (compareParts (cv_parts v) (cv_parts w)) 0) as [E|E]; cbn [negb]; split.
  - intros H. right. auto.
  - intros [H|[_ H]]; lia.
  - intros H. left. exact H.
  - intros [H|[H _]]; [exact H|contradiction].
Qed.

Lemma version_order_witness : let version s := default (mkVersion EmptyString [] []) (parseCondaVersion s) in
  version_compare (version "1.0rc1") (version "1.0") <= 0 /\ version_compare (version "1.0") (version "1") <= 0 /\
  version_compare (version "1.0rc1") (version "1") <= 0.
Proof.
  intros version. assert (H1 : version_compare (version "1.0rc1") (version "1.0") <= 0) by (vm_compute; discriminate).
  assert (H2 : version_compare (version "1.0") (version "1") <= 0) by (vm_compute; discriminate).
  split; [exact H1|]. split; [exact H2|]. apply (version_order (version "1.0rc1") (version "1.0") (version "1")); assumption.
Defined.

(** A version matches a prefix when it agrees with it at every position
    before the last atom of the prefix and there has the same number, or a
    string that starts with the prefix's; a prefix with a local version asks
    for an equal release and a local version that matches. *)
Theorem prefix_exact v other : hasPrefix v other = true <->
  if bool_decide (cv_local other = []) then starts_with (cv_parts v) (cv_parts other)
  else (forall i j, atom_at (cv_parts v) i j = atom_at (cv_parts other) i j) /\ starts_with (cv_local v) (cv_local other).
Proof.
  rewrite hasPrefix_spec. destruct (bool_decide _); [reflexivity|]. unfold partsEqual. rewrite Z.eqb_eq, parts_zero. reflexivity.
Qed.

(** C38: digits are an atom whose number is what they spell modulo 2^64, as
    an int of 64 bits: it is in the range of an int, and it is what they spell
    exactly when that is below 2^63. *)
Theorem number_bounds s : Digits s = true -> exists n, parseAtom s = atomNumber n /\
  - 9223372036854775808 <= n < 9223372036854775808 /\ (n - digits_value 0 s) mod 18446744073709551616 = 0 /\
  (n = digits_value 0 s <-> digits_value 0 s < 9223372036854775808).
Proof.
  intros Hd. exists (int64 (digits_value 0 s)). split; [|split; [apply int64_range|split]].
  - unfold parseAtom. rewrite !bool_decide_false by (intros ->; discriminate Hd). rewrite Hd, <- (number_acc_value s 0). reflexivity.
  - unfold int64. set (m := 18446744073709551616). pose proof (Z.div_mod (digits_value 0 s + 9223372036854775808) m ltac:(unfold m; lia)) as E.
    replace ((digits_value 0 s + 9223372036854775808) mod m - 9223372036854775808 - digits_value 0 s)
      with (- ((digits_value 0 s + 9223372036854775808) / m) * m) by lia. apply Z.mod_mul. unfold m. lia.
  - unfold Digits in Hd. apply andb_true_iff in Hd as [_ Hd]. pose proof (digits_value_nonneg s 0 ltac:(lia) Hd) as H0.
    pose proof (int64_range (digits_value 0 s)) as Hr. split; [intros E; lia|]. intros Hlt. apply int64_small. lia.
Qed.

Lemma number_bounds_witness : Digits "2024" = true /\ exists n, parseAtom "2024" = atomNumber n /\ (n = digits_value 0 "2024" <-> digits_value 0 "2024" < 9223372036854775808).
Proof.
  assert (H : Digits "2024" = true) by reflexivity. split; [exact H|]. destruct (number_bounds "2024" H) as (n & E & _ & _ & K). exists n. split; [exact E|exact K].
Defined.

(** ** Constraints *)

(** C34: the text of a formula of comparisons, versions and prefixes, joined
    by [,] and [|] with parentheses where the precedence needs them, matches a
    version exactly when the formula holds; a version that does not parse is
    an error; and versions that compare equal match the same formulas. *)
Theorem spec_reads {R : Regexp} f s : formula_ok f = true ->
  matchVersion (formula_text f) s = (holds f <$> parseCondaVersion s) /\
  forall t v w, parseCondaVersion s = Some v -> parseCondaVersion t = Some w -> version_equal v w = true ->
    matchVersion (formula_text f) t = matchVersion (formula_text f) s.
Proof.
  intros Hok. split; [apply match_formula, Hok|]. intros t v w Ev Ew E. rewrite !match_formula, Ev, Ew by exact Hok. cbn.
  f_equal. symmetry. apply holds_equal. unfold version_equal in E. lia.
Qed.

Lemma spec_reads_witness : let f := FAll (FBound ">=" "1.0") (FAny (FBound "<" "2") (FPrefix "3")) in
  formula_ok f = true /\ formula_text f = ">=1.0,(<2|3.*)" /\ matchVersion (formula_text f) "3.1.4" = Some true /\
  matchVersion (formula_text f) "1.0.0" = matchVersion (formula_text f) "1".
Proof.
  intros f. assert (Hok : formula_ok f = true) by (vm_compute; reflexivity). split; [exact Hok|]. split; [reflexivity|]. split.
  - rewrite (proj1 (spec_reads f "3.1.4" Hok)). vm_compute. reflexivity.
  - destruct (parseCondaVersion "1") as [v|] eqn:Ev; [|vm_compute in Ev; discriminate]. destruct (parseCondaVersion "1.0.0") as [w|] eqn:Ew; [|vm_compute in Ew; discriminate].
    apply (proj2 (spec_reads f "1" Hok) "1.0.0" v w Ev Ew). vm_compute in Ev, Ew. injection Ev as <-. injection Ew as <-. vm_compute. reflexivity.
Defined.

(** A build matches a blank constraint and the star; a constraint with
    stars as a glob, each star standing for any characters of a line and the
    others for themselves; and any other constraint when it is equal to it. *)
Theorem builds_match {R : Regexp} spec build : matchBuild spec build = true <->
  let spec := TrimSpace spec in
  spec = EmptyString \/ spec = "*" \/ (Contains "*" spec = true /\ glob_matches (glob_items spec) build) \/ (Contains "*" spec = false /\ spec = build).
Proof. apply matchBuild_spec. Qed.

(** A version that is asked for by itself means exactly that version, up
    to equality of versions, and with [=build] also that build. *)
Theorem request_exact {R : Regexp} v b s : bound_ok v = true -> v <> "latest" ->
  requestedSpec v = (formula_text (FBound "==" v), EmptyString) /\
  (all_chars (fun c => negb (same_char "!" c)) v = true -> b <> EmptyString -> all_chars (fun c => negb (space_char c)) b = true ->
   requestedSpec (v +:+ "=" +:+ b) = (formula_text (FBound "==" v), b)) /\
  matchVersion (fst (requestedSpec v)) s = (x ← parseCondaVersion s; bound ← parseCondaVersion v; Some (version_equal x bound)).
Proof.
  intros Hb Hl. assert (Et : formula_text (FBound "==" v) = "==" +:+ v) by (unfold formula_text; cbn [formula_tokens glue_tokens]; apply (right_id EmptyString String.append)).
  rewrite Et. split; [apply requested_version; assumption|]. split; [intros; apply requested_build; assumption|].
  rewrite requested_version by assumption. cbn [fst]. rewrite <- Et. rewrite match_formula by (cbn [formula_ok]; rewrite Hb; reflexivity).
  destruct (parseCondaVersion s); [|reflexivity]. cbn. unfold bound_holds. destruct (bound_facts v Hb) as (_ & (x & ->) & _). reflexivity.
Qed.

Lemma request_exact_witness : requestedSpec "1.2=py_0" = ("==1.2", "py_0") /\ matchVersion (fst (requestedSpec "1.2")) "1.2.0" = Some true.
Proof.
  destruct (request_exact "1.2" "py_0" "1.2.0" ltac:(vm_compute; reflexivity) ltac:(discriminate)) as (_ & H1 & H2).
  split; [apply H1; [reflexivity|discriminate|reflexivity]|]. rewrite H2. vm_compute. reflexivity.
Defined.

(** ** Where the code falls short *)


(** A number that does not fit in an int wraps: 9223372036854775808 is less
    than 1. *)
Theorem number_wraps : compareVersions "9223372036854775808" "1" = Some (-1).
Proof. vm_compute. reflexivity. Qed.

(** Versions that do not parse are compared as strings, which is not
    transitive with the order of the others: 9 is before 10, 10 before "5 x"
    and "5 x" before 9, so the pick depends on the order of the index. *)
Theorem unparsed_order : let rec v := sample_record "p" v "0" 0 [] in
  pickSatisfying [rec "9"; rec "10"; rec "5 x"] [mkConstraint EmptyString EmptyString] "linux-64" ∅ = Done (rec "5 x") /\
  pickSatisfying [rec "5 x"; rec "9"; rec "10"] [mkConstraint EmptyString EmptyString] "linux-64" ∅ = Done (rec "10").
Proof. vm_compute. auto. Qed.

(** A version with an epoch and a build, as [version=build], is taken as one
    version, which does not parse. *)
Theorem epoch_build_rejected : requestedSpec "1!2.0=py_0" = ("==1!2.0=py_0", EmptyString) /\
  matchVersion (fst (requestedSpec "1!2.0=py_0")) "1!2.0" = None.
Proof. vm_compute. auto. Qed.
