(* ===== verification/Grammars.v ===== *)
(** * Grammars

    x/parse/grammar.go: symbols, alternatives and the operations that declare
    them.  A *Grammar is a record that every operation returns changed; a
    *Symbol, a *Rule and a *Prod are the index they hold. *)
From Stdlib Require Import ZArith Lia Ascii.
From Stdlib Require Import Strings.Byte.
From stdpp Require Import base numbers option list strings gmap pretty.
From S2P Require Import Prelude.

Local Open Scope Z_scope.

(** ** Bytes and runes *)

#[export] Instance byte_eq_dec : EqDecision byte := Byte.byte_eq_dec.

Definition byte_code (b : byte) : Z := Z.of_N (Byte.to_N b).
Definition bytes_of (text : string) : list byte := String.list_byte_of_string text.

Definition RuneError : Z := 65533.

Definition in_range (lo hi c : Z) : bool := (lo <=? c) && (c <=? hi).
Definition tail_byte (c : Z) : bool := in_range 128 191 c.

(** [utf8.DecodeRune]: the rune and its width; 0 for no bytes, 1 for bytes that
    are not UTF-8. *)
Definition DecodeRune (bs : list byte) : Z * nat :=
  match map byte_code (take 4 bs) with
  | [] => (RuneError, 0%nat)
  | b0 :: rest =>
      if b0 <? 128 then (b0, 1%nat)
      else if in_range 194 223 b0 then
        match rest with
        | b1 :: _ => if tail_byte b1 then ((b0 - 192) * 64 + (b1 - 128), 2%nat) else (RuneError, 1%nat)
        | _ => (RuneError, 1%nat)
        end
      else if in_range 224 239 b0 then
        match rest with
        | b1 :: b2 :: _ =>
            if in_range (if b0 =? 224 then 160 else 128) (if b0 =? 237 then 159 else 191) b1 && tail_byte b2
            then ((b0 - 224) * 4096 + (b1 - 128) * 64 + (b2 - 128), 3%nat) else (RuneError, 1%nat)
        | _ => (RuneError, 1%nat)
        end
      else if in_range 240 244 b0 then
        match rest with
        | b1 :: b2 :: b3 :: _ =>
            if in_range (if b0 =? 240 then 144 else 128) (if b0 =? 244 then 143 else 191) b1 && tail_byte b2 && tail_byte b3
            then ((b0 - 240) * 262144 + (b1 - 128) * 4096 + (b2 - 128) * 64 + (b3 - 128), 4%nat) else (RuneError, 1%nat)
        | _ => (RuneError, 1%nat)
        end
      else (RuneError, 1%nat)
  end.

(** ** Data *)

Definition SymEOF : nat := 1.

Inductive Assoc : Type := AssocNone | AssocLeft | AssocRight.

#[export] Instance Assoc_eq_dec : EqDecision Assoc.
Proof. solve_decision. Defined.

(** How many bytes of [src] at an offset belong to a token, or 0. *)
Definition Match : Type := list byte -> nat -> Z.
(** The same, told the previous terminal. *)
Definition MatchPrev : Type := list byte -> nat -> nat -> Z.

(** The memory of a scanner.  [ls_data] is the field Data, [None] when nil. *)
Record LexState (D : Type) : Type := mkLexState {
  ls_Symbol : string -> option nat; ls_At : Z; ls_InsertSemi : bool; ls_SemiAt : Z; ls_Hold : bool; ls_Data : option D }.
Arguments mkLexState {D}.
Arguments ls_Symbol {D}.
Arguments ls_At {D}.
Arguments ls_InsertSemi {D}.
Arguments ls_SemiAt {D}.
Arguments ls_Hold {D}.
Arguments ls_Data {D}.

(** A token of a scanner: its symbol and its bytes. *)
Record scanned : Type := mkScanned { sc_id : nat; sc_start : Z; sc_end : Z }.

(** A scanner, with the type of its private memory.  [None] is not ok. *)
Record ScanFunc : Type := mkScanFunc {
  sf_data : Type;
  sf_scan : list byte -> Z -> (nat -> bool) -> LexState sf_data -> option scanned * LexState sf_data }.

Inductive sym_kind : Type := kindNonterm | kindTerm.

#[export] Instance sym_kind_eq_dec : EqDecision sym_kind.
Proof. solve_decision. Defined.

Record symRec : Type := mkSymRec {
  sr_name : string; sr_kind : sym_kind; sr_match : option Match; sr_matchPrev : option MatchPrev;
  sr_cont : option (Z -> bool); sr_lexPrec : Z; sr_named : bool; sr_hidden : bool; sr_extra : bool;
  sr_immediate : bool; sr_external : bool }.

Record prodRec : Type := mkProdRec {
  pr_lhs : nat; pr_rhs : list nat; pr_prec : Z; pr_hasPrec : bool; pr_assoc : Assoc; pr_dyn : Z; pr_hasDyn : bool }.

Record Grammar : Type := mkGrammar {
  g_name : string; g_syms : list symRec; g_prods : list prodRec; g_byName : gmap string nat;
  g_extras : list nat; g_scan : option ScanFunc; g_start : nat; g_startSet : bool }.

(** The zero symbol. *)
Definition symZero : symRec := mkSymRec EmptyString kindNonterm None None None 0 false false false false false.

Definition sym_at (g : Grammar) (id : nat) : symRec := nth id (g_syms g) symZero.

(** ** Matchers *)

(** Does [text] stand at [at_]? *)
Definition hasPrefix (src : list byte) (at_ : nat) (text : list byte) : bool :=
  if (length src <? at_ + length text)%nat then false
  else bool_decide (take (length text) (drop at_ src) = text).

Definition hasBytes (text : string) : Match := fun src at_ =>
  if hasPrefix src at_ (bytes_of text) then Z.of_nat (length (bytes_of text)) else 0.

(** The matcher of [Keyword]: [text] not followed by a rune of the word. *)
Definition keyword_match (text : string) (cont : Z -> bool) : Match := fun src at_ =>
  let t := bytes_of text in
  if negb (hasPrefix src at_ t) then 0
  else let stop := (at_ + length t)%nat in
  if (stop <? length src)%nat && cont (fst (DecodeRune (drop stop src))) then 0
  else Z.of_nat (length t).

(** The loop of the matcher of [Word]. *)
Fixpoint word_rest (fuel : nat) (cont : Z -> bool) (bs : list byte) : nat :=
  match fuel, bs with
  | S f, _ :: _ =>
      let '(r, n) := DecodeRune bs in
      if ((r =? RuneError) && (n =? 1)%nat) || negb (cont r) then 0%nat else (n + word_rest f cont (drop n bs))%nat
  | _, _ => 0%nat
  end.

Definition word_match (start cont : Z -> bool) : Match := fun src at_ =>
  if (length src <=? at_)%nat then 0
  else let '(r, n) := DecodeRune (drop at_ src) in
  if ((r =? RuneError) && (n =? 1)%nat) || negb (start r) then 0
  else Z.of_nat (n + word_rest (length src) cont (drop (at_ + n) src)).

(** ** Declaring symbols *)

Definition isHidden (name : string) : bool :=
  match name with
  | EmptyString => true
  | String c _ => bool_decide (c = "_"%char) || bool_decide (c = "$"%char)
  end.

Definition New (name : string) : Grammar :=
  mkGrammar name [symZero; mkSymRec "eof" kindTerm None None None 0 false false false false false] [] ∅ [] None 0 false.

Definition with_syms (g : Grammar) (syms : list symRec) : Grammar :=
  mkGrammar (g_name g) syms (g_prods g) (g_byName g) (g_extras g) (g_scan g) (g_start g) (g_startSet g).
Definition with_prods (g : Grammar) (prods : list prodRec) : Grammar :=
  mkGrammar (g_name g) (g_syms g) prods (g_byName g) (g_extras g) (g_scan g) (g_start g) (g_startSet g).
(** Writing a field of one symbol. *)
Definition alter_sym (f : symRec -> symRec) (id : nat) (g : Grammar) : Grammar := with_syms g (alter f id (g_syms g)).

Definition g_add (name : string) (k : sym_kind) (named : bool) (g : Grammar) : nat * Grammar :=
  let id := length (g_syms g) in
  let hidden := isHidden name in
  let rec := mkSymRec name k None None None 0 (named && negb hidden) hidden false false false in
  (id, mkGrammar (g_name g) (g_syms g ++ [rec]) (g_prods g) (<[name := id]> (g_byName g)) (g_extras g) (g_scan g) (g_start g) (g_startSet g)).

Definition g_term (name : string) (named : bool) (g : Grammar) : nat * Grammar :=
  match g_byName g !! name with Some id => (id, g) | None => g_add name kindTerm named g end.

Definition Scanner (fn : ScanFunc) (g : Grammar) : Grammar :=
  mkGrammar (g_name g) (g_syms g) (g_prods g) (g_byName g) (g_extras g) (Some fn) (g_start g) (g_startSet g).

Definition Sym (name : string) (g : Grammar) : nat * Grammar :=
  match g_byName g !! name with Some id => (id, g) | None => g_add name kindNonterm false g end.

Definition Start (name : string) (g : Grammar) : Grammar :=
  let '(id, g) := Sym name g in
  mkGrammar (g_name g) (g_syms g) (g_prods g) (g_byName g) (g_extras g) (g_scan g) id true.

Definition set_extra (s : symRec) : symRec :=
  mkSymRec (sr_name s) kindTerm (sr_match s) (sr_matchPrev s) (sr_cont s) (sr_lexPrec s) (sr_named s) (sr_hidden s) true (sr_immediate s) (sr_external s).

Definition Skip (s : nat) (g : Grammar) : Grammar :=
  let g := alter_sym set_extra s g in
  mkGrammar (g_name g) (g_syms g) (g_prods g) (g_byName g) (g_extras g ++ [s]) (g_scan g) (g_start g) (g_startSet g).

Definition Token (name : string) (g : Grammar) : nat * Grammar := g_term name true g.

Definition set_matcher (m : Match) (lexPrec : Z) (s : symRec) : symRec :=
  mkSymRec (sr_name s) (sr_kind s) (Some m) (sr_matchPrev s) (sr_cont s) lexPrec (sr_named s) (sr_hidden s) (sr_extra s) (sr_immediate s) (sr_external s).

Definition Literal (text : string) (g : Grammar) : nat * Grammar :=
  match g_byName g !! text with
  | Some id => (id, g)
  | None => let '(id, g) := g_term text false g in (id, alter_sym (set_matcher (hasBytes text) 1) id g)
  end.

Definition Keyword (text : string) (word : nat) (g : Grammar) : nat * Grammar :=
  let '(id, g) := Literal text g in
  let cont := default (fun _ => false) (sr_cont (sym_at g word)) in
  (id, alter_sym (set_matcher (keyword_match text cont) 2) id g).

Definition set_rule (name : string) (s : symRec) : symRec :=
  let hidden := isHidden name in
  mkSymRec (sr_name s) kindNonterm (sr_match s) (sr_matchPrev s) (sr_cont s) (sr_lexPrec s) (negb hidden) (if hidden then true else sr_hidden s)
    (sr_extra s) (sr_immediate s) (sr_external s).

Definition Rule (name : string) (g : Grammar) : nat * Grammar :=
  let '(id, g) := Sym name g in
  if bool_decide (sr_kind (sym_at g id) = kindTerm) then (id, g) else (id, alter_sym (set_rule name) id g).

Definition set_word (start cont : Z -> bool) (s : symRec) : symRec :=
  mkSymRec (sr_name s) kindTerm (Some (word_match start cont)) (sr_matchPrev s) (Some cont) (sr_lexPrec s) (sr_named s) (sr_hidden s) (sr_extra s) (sr_immediate s) (sr_external s).
Definition Word (start cont : Z -> bool) (s : nat) (g : Grammar) : Grammar := alter_sym (set_word start cont) s g.

Definition set_match (m : Match) (s : symRec) : symRec :=
  mkSymRec (sr_name s) kindTerm (Some m) (sr_matchPrev s) (sr_cont s) (sr_lexPrec s) (sr_named s) (sr_hidden s) (sr_extra s) (sr_immediate s) (sr_external s).
Definition set_Match (m : Match) (s : nat) (g : Grammar) : Grammar := alter_sym (set_match m) s g.

(** ** Alternatives

    [Seq] returns the number of the alternative. *)
Definition rule_Seq (r : nat) (parts : list nat) (g : Grammar) : nat * Grammar :=
  (length (g_prods g), with_prods g (g_prods g ++ [mkProdRec r parts 0 false AssocNone 0 false])).

Definition set_prec (n : Z) (a : Assoc) (p : prodRec) : prodRec :=
  mkProdRec (pr_lhs p) (pr_rhs p) n true a (pr_dyn p) (pr_hasDyn p).
Definition prod_Left (n : Z) (i : nat) (g : Grammar) : Grammar := with_prods g (alter (set_prec n AssocLeft) i (g_prods g)).
Definition prod_Right (n : Z) (i : nat) (g : Grammar) : Grammar := with_prods g (alter (set_prec n AssocRight) i (g_prods g)).
Definition prod_Prec (n : Z) (i : nat) (g : Grammar) : Grammar := with_prods g (alter (set_prec n AssocNone) i (g_prods g)).
Definition set_dyn (n : Z) (p : prodRec) : prodRec :=
  mkProdRec (pr_lhs p) (pr_rhs p) (pr_prec p) (pr_hasPrec p) (pr_assoc p) n true.
Definition prod_Dynamic (n : Z) (i : nat) (g : Grammar) : Grammar := with_prods g (alter (set_dyn n) i (g_prods g)).

(** ** Hidden rules *)

Definition set_hidden (s : symRec) : symRec :=
  mkSymRec (sr_name s) (sr_kind s) (sr_match s) (sr_matchPrev s) (sr_cont s) (sr_lexPrec s) (sr_named s) true (sr_extra s) (sr_immediate s) (sr_external s).

Definition g_hidden (prefix : string) (g : Grammar) : nat * Grammar :=
  let name := (prefix +:+ "#" +:+ pretty (N.of_nat (length (g_syms g))))%string in
  let '(id, g) := g_add name kindNonterm false g in (id, alter_sym set_hidden id g).

(** The symbol of the rule that a name has. *)
Definition own_symbol (r : nat) (g : Grammar) : nat * Grammar := Sym (sr_name (sym_at g r)) g.

Definition Repeat (s : nat) (g : Grammar) : nat * Grammar :=
  let '(r, g) := g_hidden "$repeat" g in
  let '(_, g) := rule_Seq r [] g in
  let '(again, g) := own_symbol r g in
  let '(_, g) := rule_Seq r [again; s] g in
  own_symbol r g.

Definition Repeat1 (s : nat) (g : Grammar) : nat * Grammar :=
  let '(r, g) := g_hidden "$repeat1" g in
  let '(more, g) := Repeat s g in
  let '(_, g) := rule_Seq r [s; more] g in
  (r, g).

Definition Opt (s : nat) (g : Grammar) : nat * Grammar :=
  let '(r, g) := g_hidden "$opt" g in
  let '(_, g) := rule_Seq r [] g in
  let '(_, g) := rule_Seq r [s] g in
  own_symbol r g.

Definition Sep1 (item sep : nat) (g : Grammar) : nat * Grammar :=
  let '(r, g) := g_hidden "$sep" g in
  let '(sepp, g) := g_hidden "$sepp" g in
  let '(_, g) := rule_Seq sepp [sep; item] g in
  let '(more, g) := Repeat sepp g in
  let '(_, g) := rule_Seq r [item; more] g in
  (r, g).

Definition Sep (item sep : nat) (g : Grammar) : nat * Grammar :=
  let '(s, g) := Sep1 item sep g in Opt s g.
