(* ===== verification/Compile.v ===== *)
(** * Compiling a grammar

    x/parse/compile.go: from a grammar to its LR(1) tables.  An error, always
    [errs.ErrInvalid], is [None]. *)
From Stdlib Require Import ZArith Lia.
From Stdlib Require Import Strings.Byte.
From stdpp Require Import base numbers option list strings gmap sorting.
From S2P Require Import Prelude Grammars.

Local Open Scope nat_scope.

(** ** Data *)

(** The kind and the value of an action: the state that a shift goes to, the
    alternative that is reduced. *)
Record action : Type := mkAction { ac_kind : nat; ac_val : nat }.

Definition actShift : nat := 1.
Definition actReduce : nat := 2.
Definition actAccept : nat := 3.

#[export] Instance action_eq_dec : EqDecision action.
Proof. solve_decision. Defined.

Record symInfo : Type := mkSymInfo {
  si_name : string; si_terminal : bool; si_named : bool; si_hidden : bool; si_extra : bool; si_immediate : bool;
  si_external : bool; si_match : option Match; si_matchPrev : option MatchPrev; si_lexPrec : Z }.

Record prodInfo : Type := mkProdInfo {
  p_lhs : nat; p_rhs : list nat; p_prec : Z; p_hasPrec : bool; p_assoc : Assoc; p_dyn : Z; p_hidden : bool }.

Record Language : Type := mkLanguage {
  l_name : string; l_syms : list symInfo; l_prods : list prodInfo; l_act : gmap N (list action); l_gto : gmap N nat;
  l_start : nat; l_scan : option ScanFunc; l_extras : list nat; l_byName : gmap string nat; l_states : nat; l_forks : nat }.

Definition States (l : option Language) : nat := match l with None => 0 | Some l => l_states l end.
Definition Forks (l : option Language) : nat := match l with None => 0 | Some l => l_forks l end.
Definition l_Symbol (l : Language) (name : string) : option nat := l_byName l !! name.

(** A state and a symbol in the bits of one key. *)
Definition cellKey (state sym : nat) : N := N.lor (N.shiftl (N.of_nat state) 16) (N.of_nat sym).

Record item : Type := mkItem { i_prod : nat; i_dot : nat; i_look : nat }.

#[export] Instance item_eq_dec : EqDecision item.
Proof. solve_decision. Defined.

#[export] Instance item_countable : Countable item.
Proof.
  refine (inj_countable' (fun i => (i_prod i, i_dot i, i_look i)) (fun '(p, d, l) => mkItem p d l) _).
  intros []; reflexivity.
Defined.

Record rawAct : Type := mkRaw { ra_act : action; ra_prec : Z; ra_has : bool; ra_assoc : Assoc }.

(** ** Checking a grammar *)

Record compiler : Type := mkCompiler { c_syms : list symInfo; c_prods : list prodInfo }.

Definition info_of (s : symRec) : symInfo :=
  mkSymInfo (sr_name s) (bool_decide (sr_kind s = kindTerm)) (sr_named s) (sr_hidden s) (sr_extra s) (sr_immediate s)
    (sr_external s) (sr_match s) (sr_matchPrev s) (sr_lexPrec s).
Definition acceptInfo : symInfo := mkSymInfo "$accept" false false true false false false None None 0.

Definition prod_of (syms : list symRec) (p : prodRec) : prodInfo :=
  mkProdInfo (pr_lhs p) (pr_rhs p) (pr_prec p) (pr_hasPrec p) (pr_assoc p) (pr_dyn p) (sr_hidden (nth (pr_lhs p) syms symZero)).

(** The start rule: the first rule that is not hidden when none is set. *)
Definition start_of (g : Grammar) : nat :=
  if g_startSet g then g_start g
  else match list_find (fun p => Is_true (negb (sr_hidden (sym_at g (pr_lhs p))))) (g_prods g) with
       | Some (_, p) => pr_lhs p
       | None => g_start g
       end.

(** The checks of one alternative. *)
Definition prod_ok (g : Grammar) (p : prodRec) : bool :=
  negb (pr_lhs p =? 0) && bool_decide (sr_kind (sym_at g (pr_lhs p)) <> kindTerm)
  && forallb (fun s => negb (s =? 0) && (s <? length (g_syms g)) && negb (sr_extra (sym_at g s))) (pr_rhs p).

Definition terminal (c : compiler) (s : nat) : bool :=
  match c_syms c !! s with Some i => si_terminal i | None => false end.

(** [walk]: the symbols that the alternatives of a rule reach. *)
Fixpoint walk_used (fuel : nat) (c : compiler) (id : nat) (used : gset nat) : gset nat :=
  match fuel with
  | O => used
  | S f =>
      if bool_decide (id ∈ used) then used
      else foldl (fun used p =>
             if p_lhs p =? id
             then foldl (fun used s => if terminal c s then {[ s ]} ∪ used else walk_used f c s used) used (p_rhs p)
             else used) ({[ id ]} ∪ used) (c_prods c)
  end.

Definition has_alternative (g : Grammar) (s : nat) : bool := existsb (fun p => pr_lhs p =? s) (g_prods g).

Definition unmatched (i : symInfo) : bool := negb (bool_decide (is_Some (si_match i))) && negb (bool_decide (is_Some (si_matchPrev i))).

(** The checks of the reachable symbol [id]. *)
Definition sym_ok (g : Grammar) (used : gset nat) (id : nat) (i : symInfo) : bool :=
  ((id =? 0) || si_terminal i || si_extra i || negb (bool_decide (id ∈ used)) || has_alternative g id || (id =? length (g_syms g)))
  && (bool_decide (is_Some (g_scan g)) ||
      (negb (si_terminal i && si_extra i && unmatched i && negb (id =? SymEOF))
       && negb (si_terminal i && negb (si_extra i) && negb (si_external i) && bool_decide (id ∈ used) && unmatched i && negb (id =? SymEOF)))).

Definition prepareCompiler (g : Grammar) : option compiler :=
  let start := start_of g in
  let n := length (g_syms g) in
  if (start =? 0) || (n <=? start) then None else
  if bool_decide (sr_kind (sym_at g start) = kindTerm) then None else
  let c := mkCompiler (map info_of (g_syms g) ++ [acceptInfo])
                      (mkProdInfo n [start] 0 false AssocNone 0 true :: map (prod_of (g_syms g)) (g_prods g)) in
  if (65535 <? Z.of_nat (length (g_prods g)) + 1)%Z then None else
  if negb (forallb (prod_ok g) (g_prods g)) then None else
  if negb (has_alternative g start) then None else
  let used := walk_used (S (length (c_syms c))) c n ∅ in
  if negb (forallb (fun '(id, i) => sym_ok g used id i) (imap pair (c_syms c))) then None else
  Some c.

(** ** Nullable rules and first sets *)

Record firsts : Type := mkFirsts { f_nullable : list bool; f_first : list (list nat) }.

Definition nullable (t : firsts) (s : nat) : bool := nth s (f_nullable t) false.
Definition first_of (t : firsts) (s : nat) : list nat := nth s (f_first t) [].

(** [addSym] and [addSyms] of a list, [addOne] and [addMany]: they differ in
    what they return. *)
Definition addOne {A} `{EqDecision A} (dst : list A) (id : A) : list A := if bool_decide (id ∈ dst) then dst else dst ++ [id].
Definition addMany {A} `{EqDecision A} (dst ids : list A) : list A := foldl addOne dst ids.
Definition addSyms (s : nat) (ids : list nat) (t : firsts) (changed : bool) : firsts * bool :=
  let old := first_of t s in
  let new := addMany old ids in
  (mkFirsts (f_nullable t) (<[s := new]> (f_first t)), changed || negb (length new =? length old)).
Definition set_nullable (s : nat) (t : firsts) (changed : bool) : firsts * bool :=
  if nullable t s then (t, changed) else (mkFirsts (<[s := true]> (f_nullable t)) (f_first t), true).

(** The symbols of one alternative, left to right; the flag says whether all
    are nullable. *)
Fixpoint first_rhs (c : compiler) (l : nat) (rhs : list nat) (t : firsts) (changed : bool) : firsts * bool * bool :=
  match rhs with
  | [] => (t, changed, true)
  | s :: rhs' =>
      if terminal c s then let '(t, changed) := addSyms l [s] t changed in (t, changed, false)
      else let '(t, changed) := addSyms l (first_of t s) t changed in
      if nullable t s then first_rhs c l rhs' t changed else (t, changed, false)
  end.

Definition first_prod (c : compiler) (st : firsts * bool) (p : prodInfo) : firsts * bool :=
  let '(t, changed) := st in
  let '(t, changed, allNull) := first_rhs c (p_lhs p) (p_rhs p) t changed in
  if allNull then set_nullable (p_lhs p) t changed else (t, changed).

Definition first_pass (c : compiler) (t : firsts) : firsts * bool := foldl (first_prod c) (t, false) (c_prods c).

(** [for changed]. *)
Fixpoint first_loop (fuel : nat) (c : compiler) (t : firsts) : firsts :=
  match fuel with
  | O => t
  | S f => let '(t', changed) := first_pass c t in if changed then first_loop f c t' else t'
  end.

Definition no_firsts (n : nat) : firsts := mkFirsts (replicate n false) (replicate n []).

(** Each pass but the last adds a nullable rule or a symbol of a first set. *)
Definition nullableFirst (c : compiler) : firsts :=
  let n := length (c_syms c) in first_loop (S (n + n * n)) c (no_firsts n).

Fixpoint firstSeq_from (c : compiler) (t : firsts) (out : list nat) (syms : list nat) (look : nat) : list nat :=
  match syms with
  | [] => addOne out look
  | s :: syms' =>
      if terminal c s then addOne out s
      else let out := addMany out (first_of t s) in
      if nullable t s then firstSeq_from c t out syms' look else out
  end.
Definition firstSeq (c : compiler) (t : firsts) (syms : list nat) (look : nat) : list nat := firstSeq_from c t [] syms look.

(** ** Item sets *)

Definition byLHS (c : compiler) (s : nat) : list nat :=
  omap (fun '(i, p) => if p_lhs p =? s then Some i else None) (imap pair (c_prods c)).

Definition noProd : prodInfo := mkProdInfo 0 [] 0 false AssocNone 0 false.
Definition c_prod (c : compiler) (i : nat) : prodInfo := nth i (c_prods c) noProd.

(** The symbol after the dot. *)
Definition after_dot (c : compiler) (it : item) : option nat := p_rhs (c_prod c (i_prod it)) !! i_dot it.

(** The items that an item adds to its closure. *)
Definition item_adds (c : compiler) (t : firsts) (it : item) : list item :=
  match after_dot c it with
  | None => []
  | Some b =>
      if terminal c b then []
      else let first := firstSeq c t (drop (S (i_dot it)) (p_rhs (c_prod c (i_prod it)))) (i_look it) in
      prod ← byLHS c b; look ← first; [mkItem prod 0 look]
  end.

(** An item that is not in the set joins it and the queue. *)
Definition enqueue (st : gset item * list item) (it : item) : gset item * list item :=
  let '(inn, q) := st in if bool_decide (it ∈ inn) then (inn, q) else ({[ it ]} ∪ inn, q ++ [it]).

(** [q] is the part of the queue from its head. *)
Fixpoint closure_loop (fuel : nat) (c : compiler) (t : firsts) (inn : gset item) (q : list item) : gset item :=
  match fuel, q with
  | S f, it :: q' => let '(inn, q) := foldl enqueue (inn, q') (item_adds c t it) in closure_loop f c t inn q
  | _, _ => inn
  end.

Definition item_le (a b : item) : bool :=
  if negb (i_prod a =? i_prod b) then i_prod a <? i_prod b
  else if negb (i_dot a =? i_dot b) then i_dot a <? i_dot b
  else i_look a <=? i_look b.

Definition sortItems (items : list item) : list item := merge_sort (fun a b => Is_true (item_le a b)) items.

(** The number of items, which bounds the queue. *)
Definition item_count (c : compiler) : nat := sum_list (map (fun p => S (length (p_rhs p))) (c_prods c)) * length (c_syms c).

Definition closure (c : compiler) (t : firsts) (seed : list item) : list item :=
  let '(inn, q) := foldl enqueue (∅, []) seed in
  sortItems (elements (closure_loop (S (item_count c)) c t inn q)).

(** ** States *)

(** The states, the index of the packed states and the edges of each state. *)
Record automaton : Type := mkAutomaton { a_states : list (list item); a_index : gmap (list Z) nat; a_edge : list (gmap nat nat) }.

(** [binary.LittleEndian.PutUint16] *)
Definition put16 (n : nat) : list Z := [Z.of_nat n mod 256; (Z.of_nat n / 256) mod 256]%Z.
Definition pack (items : list item) : list Z := it ← items; put16 (i_prod it) ++ put16 (i_dot it) ++ put16 (i_look it).

Definition intern (items : list item) (a : automaton) : nat * automaton :=
  match a_index a !! pack items with
  | Some id => (id, a)
  | None => (length (a_states a), mkAutomaton (a_states a ++ [items]) (<[pack items := length (a_states a)]> (a_index a)) (a_edge a ++ [∅]))
  end.

(** The symbols after the dots of a state, each once. *)
Definition next_syms (c : compiler) (items : list item) : list nat := addMany [] (omap (after_dot c) items).

(** The items of a state whose dot moves over [s]. *)
Definition moved (c : compiler) (items : list item) (s : nat) : list item :=
  addMany [] (omap (fun it => if bool_decide (after_dot c it = Some s) then Some (mkItem (i_prod it) (S (i_dot it)) (i_look it)) else None) items).

Definition add_edge (c : compiler) (t : firsts) (si : nat) (items : list item) (a : automaton) (s : nat) : automaton :=
  let '(dest, a) := intern (closure c t (moved c items s)) a in
  mkAutomaton (a_states a) (a_index a) (alter <[s := dest]> si (a_edge a)).

(** The loop over the states, which grow as it runs. *)
Fixpoint state_loop (fuel : nat) (c : compiler) (t : firsts) (si : nat) (a : automaton) : option automaton :=
  match fuel with
  | O => None
  | S f =>
      match a_states a !! si with
      | None => Some a
      | Some items => state_loop f c t (S si) (foldl (add_edge c t si items) a (next_syms c items))
      end
  end.

Definition startItem : item := mkItem 0 0 SymEOF.

Definition build_states (fuel : nat) (c : compiler) (t : firsts) : option automaton :=
  state_loop fuel c t 0 (snd (intern (closure c t [startItem]) (mkAutomaton [] ∅ []))).

(** ** Conflicts *)

(** A side of a shift/reduce conflict with no declared precedence counts as 0
    when the other side declares one. *)
Definition resolvePair (shift red : rawAct) : bool * bool :=
  if negb (ra_has shift) && negb (ra_has red) then (true, true)
  else
    let sp := if ra_has shift then ra_prec shift else 0%Z in
    let rp := if ra_has red then ra_prec red else 0%Z in
    if (rp <? sp)%Z then (true, false)
    else if (sp <? rp)%Z then (false, true)
    else match ra_assoc red with AssocLeft => (false, true) | AssocRight => (true, false) | AssocNone => (true, true) end.

Fixpoint dedup_seen (seen : list nat) (l : list rawAct) : list rawAct :=
  match l with
  | [] => []
  | a :: l' => if bool_decide (ac_val (ra_act a) ∈ seen) then dedup_seen seen l' else a :: dedup_seen (ac_val (ra_act a) :: seen) l'
  end.
Definition dedupReduce (l : list rawAct) : list rawAct := dedup_seen [] l.

(** One shift of the list, and whether two declare different precedences. *)
Definition merge_shift (st : rawAct * bool) (a : rawAct) : rawAct * bool :=
  let '(s, ambiguous) := st in
  let s := mkRaw (mkAction (ac_kind (ra_act s)) (ac_val (ra_act a))) (ra_prec s) (ra_has s) (ra_assoc s) in
  let ambiguous := ambiguous || (ra_has a && ra_has s && negb (ra_prec a =? ra_prec s)%Z) in
  (if ra_has a && negb (ra_has s) then mkRaw (ra_act s) (ra_prec a) true (ra_assoc a) else s, ambiguous).

Definition mergeShifts (l : list rawAct) : option rawAct :=
  match l with
  | [] => None
  | s :: l' =>
      let '(s, ambiguous) := foldl merge_shift (s, false) l' in
      Some (if ambiguous then mkRaw (ra_act s) (ra_prec s) false (ra_assoc s) else s)
  end.

Definition is_kind (k : nat) (a : rawAct) : bool := ac_kind (ra_act a) =? k.

Definition rawAccept : rawAct := mkRaw (mkAction actAccept 0) 0 false AssocNone.

Definition resolve_conflict (shift : rawAct) (reds : list rawAct) : list rawAct :=
  if existsb (fun r => fst (resolvePair shift r) && snd (resolvePair shift r)) reds then shift :: dedupReduce reds
  else
    let keepShift := existsb (fun r => fst (resolvePair shift r)) reds in
    let keepRed := filter (fun r => Is_true (snd (resolvePair shift r))) reds in
    let out := (if keepShift then [shift] else []) ++ dedupReduce keepRed in
    match out with [] => shift :: dedupReduce reds | _ => out end.

Definition resolveCell (l : list rawAct) : list rawAct :=
  let shifts := filter (fun a => Is_true (is_kind actShift a)) l in
  let reds := filter (fun a => Is_true (is_kind actReduce a)) l in
  if existsb (is_kind actAccept) l then [rawAccept]
  else match mergeShifts shifts, reds with
  | None, [] => []
  | None, _ => dedupReduce reds
  | Some shift, [] => [shift]
  | Some shift, _ => resolve_conflict shift reds
  end.

(** ** Tables *)

(** The action that an item asks for, with its symbol. *)
Definition raw_of (c : compiler) (edge : gmap nat nat) (it : item) : option (nat * rawAct) :=
  let p := c_prod c (i_prod it) in
  match after_dot c it with
  | None =>
      if (i_prod it =? 0) && (i_look it =? SymEOF) then Some (SymEOF, rawAccept)
      else Some (i_look it, mkRaw (mkAction actReduce (i_prod it)) (p_prec p) (p_hasPrec p) (p_assoc p))
  | Some sym =>
      if terminal c sym then dest ← edge !! sym; Some (sym, mkRaw (mkAction actShift dest) (p_prec p) (p_hasPrec p) (p_assoc p))
      else None
  end.

Definition add_raw (raw : gmap nat (list rawAct)) (e : nat * rawAct) : gmap nat (list rawAct) :=
  <[fst e := default [] (raw !! fst e) ++ [snd e]]> raw.
Definition raw_cells (c : compiler) (edge : gmap nat nat) (items : list item) : gmap nat (list rawAct) :=
  foldl add_raw ∅ (omap (raw_of c edge) items).

Definition add_cell (si : nat) (st : gmap N (list action) * nat) (e : nat * list rawAct) : gmap N (list action) * nat :=
  let '(act, forks) := st in
  match map ra_act (resolveCell (snd e)) with
  | [] => (act, forks)
  | acts => (<[cellKey si (fst e) := acts]> act, if 1 <? length acts then S forks else forks)
  end.

Definition add_gotos (gto : gmap N nat) (e : nat * gmap nat nat) : gmap N nat :=
  foldl (fun gto '(sym, dest) => <[cellKey (fst e) sym := dest]> gto) gto (map_to_list (snd e)).

Definition add_state (c : compiler) (edges : list (gmap nat nat)) (st : gmap N (list action) * nat) (e : nat * list item) : gmap N (list action) * nat :=
  foldl (add_cell (fst e)) st (map_to_list (raw_cells c (nth (fst e) edges ∅) (snd e))).

(** The names of a language; of two symbols of one name the last. *)
Definition name_index (syms : list symInfo) : gmap string nat :=
  foldl (fun m '(i, s) => if (i =? 0) || bool_decide (si_name s = EmptyString) then m else <[si_name s := i]> m) ∅ (imap pair syms).

Definition language_of (g : Grammar) (c : compiler) (a : automaton) : Language :=
  let '(act, forks) := foldl (add_state c (a_edge a)) (∅, 0) (imap pair (a_states a)) in
  mkLanguage (g_name g) (c_syms c) (c_prods c) act (foldl add_gotos ∅ (imap pair (a_edge a))) 0 (g_scan g) (g_extras g)
    (name_index (c_syms c)) (length (a_states a)) forks.

(** [Compile], with fuel for the loop over the states: [None] when the fuel runs
    out, [Some None] for [errs.ErrInvalid]. *)
Definition Compile (fuel : nat) (g : Grammar) : option (option Language) :=
  match prepareCompiler g with
  | None => Some None
  | Some c => a ← build_states fuel c (nullableFirst c); Some (Some (language_of g c a))
  end.
