(* ===== verification/Lexer.v ===== *)
(** * The default lexer and positions

    x/parse/lex.go, and the line index of tree.go. *)
From Stdlib Require Import ZArith Lia.
From Stdlib Require Import Strings.Byte.
From stdpp Require Import base numbers option list strings gmap.
From S2P Require Import Prelude Grammars Compile.

Local Open Scope nat_scope.

(** ** Lines *)

Definition newline : byte := x0a.

Fixpoint starts_from (i : nat) (src : list byte) : list nat :=
  match src with
  | [] => []
  | c :: src' => if bool_decide (c = newline) then S i :: starts_from (S i) src' else starts_from (S i) src'
  end.
Definition lineStarts (src : list byte) : list nat := 0 :: starts_from 0 src.

(** [sort.Search]: the least index below [n] where [f] holds, [n] when there is
    none, for an [f] that keeps holding. *)
Fixpoint search_loop (fuel i j : nat) (f : nat -> bool) : nat :=
  match fuel with
  | O => i
  | S fuel' =>
      if i <? j then
        let h := (i + j) / 2 in
        if f h then search_loop fuel' i h f else search_loop fuel' (S h) j f
      else i
  end.
Definition Search (n : nat) (f : nat -> bool) : nat := search_loop n 0 n f.

(** The line and the column, from 1, of a byte. *)
Definition lineCol (lines : list nat) (off : nat) : nat * nat :=
  match lines with
  | [] => (1, 1)
  | _ => let i := Search (length lines) (fun i => off <? nth i lines 0) - 1 in (i + 1, off - nth i lines 0 + 1)
  end.

(** ** One token *)

Record tok : Type := mkTok { t_id : nat; t_a : nat; t_b : nat }.

Definition matchLen (s : symInfo) (src : list byte) (at_ prev : nat) : Z :=
  match si_matchPrev s with
  | Some m => m src at_ prev
  | None => match si_match s with Some m => m src at_ | None => 0%Z end
  end.

(** A token, or the byte where there is none. *)
Record lexed : Type := mkLexed { lx_id : nat; lx_start : nat; lx_end : nat; lx_ok : bool }.

Definition noSym : symInfo := mkSymInfo EmptyString false false false false false false None None 0.
Definition l_sym (l : Language) (s : nat) : symInfo := nth s (l_syms l) noSym.

Definition acts_at (l : Language) (state sym : nat) : option (list action) := l_act l !! cellKey state sym.

(** Can [sid] be a token in [state], at [at_]? *)
Definition candidate (l : Language) (state startAt at_ sid : nat) : bool :=
  let s := l_sym l sid in
  si_terminal s && negb (si_extra s) && negb (unmatched s)
  && negb (si_immediate s && negb (at_ =? startAt)) && bool_decide (is_Some (acts_at l state sid)).

(** The best token so far, its length and its lexical precedence. *)
Record best_token : Type := mkBest { bt_id : nat; bt_len : Z; bt_prec : Z }.

Definition better_token (l : Language) (src : list byte) (state startAt at_ prev : nat) (b : best_token) (sid : nat) : best_token :=
  if negb (candidate l state startAt at_ sid) then b else
  let s := l_sym l sid in
  let n := matchLen s src at_ prev in
  if (n <=? 0)%Z then b
  else if (bt_len b <? n)%Z || ((n =? bt_len b)%Z && (bt_prec b <? si_lexPrec s)%Z) then mkBest sid n (si_lexPrec s)
  else b.

Definition longest_token (l : Language) (src : list byte) (state startAt at_ prev : nat) : best_token :=
  foldl (better_token l src state startAt at_ prev) (mkBest 0 0 (-1)) (seq 2 (length (l_syms l) - 2)).

(** The length of the longest extra. *)
Definition longest_extra (l : Language) (src : list byte) (at_ prev : nat) : Z :=
  foldl (fun exN sid =>
    let s := l_sym l sid in
    if unmatched s then exN else let n := matchLen s src at_ prev in if (exN <? n)%Z then n else exN) 0%Z (l_extras l).

Fixpoint lex_loop (fuel : nat) (l : Language) (src : list byte) (startAt at_ state prev : nat) : lexed :=
  match fuel with
  | O => mkLexed 0 at_ at_ false
  | S f =>
      if length src <=? at_ then mkLexed SymEOF at_ at_ true else
      let best := longest_token l src state startAt at_ prev in
      let exN := longest_extra l src at_ prev in
      let token := mkLexed (bt_id best) at_ (at_ + Z.to_nat (bt_len best)) true in
      if (0 <? bt_len best)%Z && (exN <=? bt_len best)%Z then token
      else if (0 <? exN)%Z then lex_loop f l src startAt (at_ + Z.to_nat exN) state prev
      else if (0 <? bt_len best)%Z then token
      else mkLexed 0 at_ at_ false
  end.

(** Each round but the last skips at least one byte. *)
Definition lex (l : Language) (src : list byte) (at_ state prev : nat) : lexed :=
  if length src <? at_ then mkLexed 0 at_ at_ false
  else lex_loop (S (length src - at_)) l src at_ at_ state prev.
