(* ===== verification/Glr.v ===== *)
(** * The parser

    x/parse/parse.go: the loop over the heads of a graph-structured stack, and
    [concreteTree] of tree.go.  An index of -1 is [None]; a loop over a chain of
    predecessors has the number of extras as fuel. *)
From Stdlib Require Import ZArith Lia.
From Stdlib Require Import Strings.Byte.
From stdpp Require Import base numbers option list strings gmap sorting.
From S2P Require Import Prelude Grammars Compile Lexer.

Local Open Scope nat_scope.

(** ** Data *)

Definition maxHeads : Z := 4096.
Definition maxEpsilon : Z := 64.
Definition maxStall : Z := 8192.
Definition maxPaths : Z := 8192.

Definition flagNamed : Z := 1.
Definition flagHidden : Z := 2.

Record node : Type := mkNode {
  n_kind : nat; n_flags : Z; n_start : nat; n_end : nat; n_child : nat; n_nchild : nat; n_dyn : Z; n_prod : nat }.
Definition noNode : node := mkNode 0 0 0 0 0 0 0 0.

Record Tree : Type := mkTree { t_lang : Language; t_Src : list byte; t_nodes : list node; t_kids : list nat; t_lines : list nat; t_root : nat }.

Record Error : Type := mkError { e_Offset : nat; e_Line : nat; e_Col : nat; e_Want : list string; e_Detail : string }.

Record link : Type := mkLink { k_state : nat; k_parent : option nat; k_node : nat; k_dyn : Z; k_more : option nat }.
Definition noLink : link := mkLink 0 None 0 0 None.

Record extra : Type := mkExtra { x_parent : option nat; x_node : nat; x_dyn : Z; x_more : option nat }.

Record head : Type := mkHead {
  h_link : nat; h_pos : nat; h_has : bool; h_sym : nat; h_a : nat; h_b : nat; h_eps : Z; h_stall : Z; h_acc : bool; h_node : nat }.

(** The part of the parser that changes.  [s_bound] is the head that passed
    the bound of stacks first. *)
Record pr : Type := mkPr {
  s_nodes : list node; s_kids : list nat; s_links : list link; s_extras : list extra; s_errState : nat; s_bound : option head }.

(** int32, with its wrap-around. *)
Definition int32 (z : Z) : Z := ((z + 2147483648) mod 4294967296 - 2147483648)%Z.

Definition link_at (p : pr) (lk : nat) : link := nth lk (s_links p) noLink.
Definition node_at (p : pr) (id : nat) : node := nth id (s_nodes p) noNode.
Definition is_hidden (n : node) : bool := negb (Z.land (n_flags n) flagHidden =? 0)%Z.

Definition set_errState (st : nat) (p : pr) : pr := mkPr (s_nodes p) (s_kids p) (s_links p) (s_extras p) st (s_bound p).
Definition add_link (k : link) (p : pr) : nat * pr :=
  (length (s_links p), mkPr (s_nodes p) (s_kids p) (s_links p ++ [k]) (s_extras p) (s_errState p) (s_bound p)).
Definition p_add (n : node) (p : pr) : nat * pr :=
  (length (s_nodes p), mkPr (s_nodes p ++ [n]) (s_kids p) (s_links p) (s_extras p) (s_errState p) (s_bound p)).

(** ** Predecessors *)

(** The alternate predecessors from [more]. *)
Fixpoint chain (fuel : nat) (xs : list extra) (more : option nat) : list extra :=
  match fuel, more with
  | S f, Some i => match xs !! i with Some e => e :: chain f xs (x_more e) | None => [] end
  | _, _ => []
  end.
Definition p_chain (p : pr) (k : link) : list extra := chain (length (s_extras p)) (s_extras p) (k_more k).

(** [eachPred]: the parent, the node and the precedence of each predecessor. *)
Definition eachPred (p : pr) (lk : nat) : list (option nat * nat * Z) :=
  let k := link_at p lk in
  (k_parent k, k_node k, k_dyn k) :: map (fun e => (x_parent e, x_node e, x_dyn e)) (p_chain p k).

(** Does the new predecessor replace one with the same parent? *)
Definition better_pred (dyn : Z) (node : nat) (dyn' : Z) (node' : nat) : bool :=
  (dyn' <? dyn)%Z || ((dyn =? dyn')%Z && (node <? node')).

Definition set_link (lk : nat) (k : link) (p : pr) : pr :=
  mkPr (s_nodes p) (s_kids p) (<[lk := k]> (s_links p)) (s_extras p) (s_errState p) (s_bound p).
Definition set_extras (xs : list extra) (p : pr) : pr :=
  mkPr (s_nodes p) (s_kids p) (s_links p) xs (s_errState p) (s_bound p).

(** The alternate predecessor with this parent. *)
Fixpoint find_extra (fuel : nat) (xs : list extra) (parent : option nat) (more : option nat) : option nat :=
  match fuel, more with
  | S f, Some i =>
      match xs !! i with
      | Some e => if bool_decide (x_parent e = parent) then Some i else find_extra f xs parent (x_more e)
      | None => None
      end
  | _, _ => None
  end.

Definition addPred (lk : nat) (parent : option nat) (node : nat) (dyn : Z) (p : pr) : pr :=
  let k := link_at p lk in
  if bool_decide (k_parent k = parent) then
    if better_pred dyn node (k_dyn k) (k_node k) then set_link lk (mkLink (k_state k) (k_parent k) node dyn (k_more k)) p else p
  else
    match find_extra (length (s_extras p)) (s_extras p) parent (k_more k) with
    | Some i =>
        match s_extras p !! i with
        | Some e => if better_pred dyn node (x_dyn e) (x_node e) then set_extras (<[i := mkExtra (x_parent e) node dyn (x_more e)]> (s_extras p)) p else p
        | None => p
        end
    | None =>
        let p' := set_extras (s_extras p ++ [mkExtra parent node dyn (k_more k)]) p in
        set_link lk (mkLink (k_state k) (k_parent k) (k_node k) (k_dyn k) (Some (length (s_extras p)))) p'
    end.

(** The rest of [eachPred] of [union], which reads the chain as it goes. *)
Fixpoint union_chain (fuel dst : nat) (more : option nat) (p : pr) : pr :=
  match fuel, more with
  | S f, Some i =>
      match s_extras p !! i with
      | Some e =>
          let p := addPred dst (x_parent e) (x_node e) (x_dyn e) p in
          union_chain f dst (s_extras p !! i ≫= x_more) p
      | None => p
      end
  | _, _ => p
  end.

Definition p_union (dst src : nat) (p : pr) : pr :=
  if dst =? src then p else
  let k := link_at p src in
  union_chain (length (s_extras p)) dst (k_more k) (addPred dst (k_parent k) (k_node k) (k_dyn k) p).

Definition linkDyn (p : pr) (lk : nat) : Z :=
  let k := link_at p lk in foldl (fun d e => if (d <? x_dyn e)%Z then x_dyn e else d) (k_dyn k) (p_chain p k).

Definition bestNode (p : pr) (lk : nat) : nat :=
  let k := link_at p lk in
  fst (foldl (fun '(n, d) e => if better_pred (x_dyn e) (x_node e) d n then (x_node e, x_dyn e) else (n, d)) (k_node k, k_dyn k) (p_chain p k)).

Definition nodeOf (p : pr) (h : head) : nat := if h_acc h then h_node h else k_node (link_at p (h_link h)).

Definition better (p : pr) (a b : head) : bool :=
  let da := linkDyn p (h_link a) in
  let db := linkDyn p (h_link b) in
  if negb (da =? db)%Z then (db <? da)%Z else nodeOf p a <? nodeOf p b.

(** The stack link under the predecessor that holds [node]. *)
Definition predParent (p : pr) (lk node : nat) : option nat :=
  let k := link_at p lk in
  if k_node k =? node then k_parent k
  else match list_find (fun e => x_node e = node) (p_chain p k) with Some (_, e) => x_parent e | None => k_parent k end.

(** ** The run of one input *)

Section run.
Context (lang : Language) (src : list byte) (toks : list tok) (tokMode : bool) (lines : list nat) (pathLimit : Z).

Definition onlySpace (start end_ : nat) : bool :=
  if (end_ <=? start) || (length src <? end_) then false
  else forallb (fun b => (byte_code b =? 32)%Z || (byte_code b =? 9)%Z) (take (end_ - start) (drop start src)).

(** The previous terminal; a parent is an older link. *)
Fixpoint prev_loop (fuel : nat) (p : pr) (lk : option nat) : nat :=
  match fuel, lk with
  | S f, Some lk =>
      let nodeID := bestNode p lk in
      if nodeID =? 0 then 0 else
      let n := node_at p nodeID in
      let next := predParent p lk nodeID in
      if negb (si_terminal (l_sym lang (n_kind n))) then prev_loop f p next
      else if negb (onlySpace (n_start n) (n_end n)) then n_kind n
      else prev_loop f p next
  | _, _ => 0
  end.
Definition prevSymbol (p : pr) (lk : nat) : nat := prev_loop (S (length (s_links p))) p (Some lk).

(** *** Errors *)

Definition offset_of (pos : nat) (h : option head) : nat :=
  match h with
  | None => pos
  | Some h =>
      if tokMode then
        match toks !! h_pos h with
        | Some t => t_a t
        | None => if h_has h then h_a h else length src
        end
      else if h_has h then h_a h
      else if h_pos h <=? length src then h_pos h
      else pos
  end.

Definition errAt (pos : nat) (h : option head) (p : pr) : Error * pr :=
  let st := match h with Some h => k_state (link_at p (h_link h)) | None => 0 end in
  let off := Nat.min (offset_of pos h) (length src) in
  let '(line, col) := lineCol lines off in
  (mkError off line col [] EmptyString, set_errState st p).

(** [sort.Strings] *)
Definition sort_Strings (l : list string) : list string := merge_sort (fun a b => Is_true (String.leb a b)) l.

(** The names of at most eight symbols with an action. *)
Definition expected (state : nat) : list string :=
  let wanted := omap (fun '(id, s) =>
    if (id <? 2) || bool_decide (si_name s = EmptyString) || si_extra s || si_hidden s then None
    else if bool_decide (is_Some (acts_at lang state id)) then Some (si_name s) else None) (imap pair (l_syms lang)) in
  take 8 (sort_Strings wanted).

Definition withWant (e : option Error) (state : nat) (p : pr) : Error :=
  let '(e, state) := match e with Some e => (e, state) | None => (fst (errAt 0 None p), 0) end in
  mkError (e_Offset e) (e_Line e) (e_Col e) (expected state) (e_Detail e).

Definition tooManyStacks (e : Error) : Error := mkError (e_Offset e) (e_Line e) (e_Col e) [] "too many stacks".

Definition noteBound (h : head) (p : pr) : pr :=
  match s_bound p with
  | Some _ => p
  | None => mkPr (s_nodes p) (s_kids p) (s_links p) (s_extras p) (s_errState p) (Some h)
  end.

(** *** Reading a token *)

Definition ensure (h : head) (p : pr) : bool * head :=
  if h_has h then (true, h)
  else if tokMode then
    match toks !! h_pos h with
    | Some t => (true, mkHead (h_link h) (h_pos h) true (t_id t) (t_a t) (t_b t) (h_eps h) (h_stall h) (h_acc h) (h_node h))
    | None => (false, h)
    end
  else if length src <? h_pos h then (false, h)
  else
    let t := lex lang src (h_pos h) (k_state (link_at p (h_link h))) (prevSymbol p (h_link h)) in
    if lx_ok t then (true, mkHead (h_link h) (h_pos h) true (lx_id t) (lx_start t) (lx_end t) (h_eps h) (h_stall h) (h_acc h) (h_node h))
    else (false, mkHead (h_link h) (lx_start t) (h_has h) (h_sym h) (lx_start t) (lx_end t) (h_eps h) (h_stall h) (h_acc h) (h_node h)).

(** *** Nodes *)

Definition named_flag (sym : nat) : Z := if si_named (l_sym lang sym) then flagNamed else 0.

(** A node is older than its parent. *)
Fixpoint expand_node (fuel : nat) (p : pr) (id : nat) : list nat :=
  match fuel with
  | O => []
  | S f =>
      if id =? 0 then [] else
      let n := node_at p id in
      if is_hidden n then i ← seq 0 (n_nchild n); expand_node f p (nth (n_child n + i) (s_kids p) 0)
      else [id]
  end.
Definition p_expand (p : pr) (raw : list nat) : list nat := id ← raw; expand_node (S (length (s_nodes p))) p id.

(** The bytes that nodes cover. *)
Definition span_of (p : pr) (direct : list nat) (at_ : nat) : nat * nat :=
  match direct with
  | [] => (at_, at_)
  | id :: rest =>
      foldl (fun '(s, e) id => (Nat.min s (n_start (node_at p id)), Nat.max e (n_end (node_at p id)))) (n_start (node_at p id), n_end (node_at p id)) rest
  end.

(** [parent]: the node of a reduction, 0 for a hidden rule of nothing. *)
Definition p_parent (info : prodInfo) (prod : nat) (raw : list nat) (dyn : Z) (at_ : nat) (p : pr) : nat * pr :=
  let direct := filter (fun id => id <> 0) raw in
  let '(start, end_) := span_of p direct at_ in
  let flags := Z.lor (if p_hidden info then flagHidden else 0) (named_flag (p_lhs info)) in
  match p_hidden info, direct with
  | true, [] => (0, p)
  | true, [d] => (d, p)
  | hidden, _ =>
      let kids := if hidden then direct else p_expand p direct in
      let '(start, end_) :=
        if hidden then (start, end_)
        else match kids with [] => (start, end_) | k :: _ => (n_start (node_at p k), n_end (node_at p (List.last kids 0))) end in
      let base := length (s_kids p) in
      p_add (mkNode (p_lhs info) flags start end_ base (length kids) dyn prod)
            (mkPr (s_nodes p) (s_kids p ++ kids) (s_links p) (s_extras p) (s_errState p) (s_bound p))
  end.

(** *** Actions *)

Definition doShift (h : head) (state : nat) (p : pr) : head * pr :=
  let '(leaf, p) := p_add (mkNode (h_sym h) (named_flag (h_sym h)) (h_a h) (h_b h) 0 0 0 0) p in
  let '(lk, p) := add_link (mkLink state (Some (h_link h)) leaf 0 None) p in
  (mkHead lk (if tokMode then S (h_pos h) else h_b h) false (h_sym h) (h_a h) (h_b h) 0 0 (h_acc h) (h_node h), p).

Inductive red_kind : Type := redOK | redStall | redSyntax | redBound.

Definition with_link (lk : nat) (h : head) : head :=
  mkHead lk (h_pos h) (h_has h) (h_sym h) (h_a h) (h_b h) (h_eps h) (h_stall h) (h_acc h) (h_node h).
Definition with_counts (eps stall : Z) (h : head) : head :=
  mkHead (h_link h) (h_pos h) (h_has h) (h_sym h) (h_a h) (h_b h) eps stall (h_acc h) (h_node h).

Definition finishReduce (h : head) (info : prodInfo) (prod : nat) (ancestor : nat) (raw : list nat) (dyn : Z) (p : pr) : list head * red_kind * pr :=
  let '(id, p) := p_parent info prod raw dyn (h_a h) p in
  match l_gto lang !! cellKey (k_state (link_at p ancestor)) (p_lhs info) with
  | None => ([], redSyntax, p)
  | Some dest =>
      let '(lk, p) := add_link (mkLink dest (Some ancestor) id dyn None) p in
      ([with_link lk h], redOK, p)
  end.

(** [n] pops along single predecessors: the nodes, leftmost first, the link
    below them and the summed precedence. *)
Fixpoint onePath (p : pr) (lk : option nat) (n : nat) (raw : list nat) (dyn : Z) : option (list nat * nat * Z) :=
  match n, lk with
  | _, None => None
  | O, Some lk => Some (raw, lk, dyn)
  | S n', Some lk =>
      let k := link_at p lk in
      match k_more k with
      | Some _ => None
      | None => onePath p (k_parent k) n' (k_node k :: raw) (int32 (dyn + k_dyn k))
      end
  end.

(** The best path found for one ancestor: its nodes, leftmost first, which is
    the list of pathSteps from the cursor. *)
Record pathCursor : Type := mkCursor { pc_path : list nat; pc_link : nat; pc_dyn : Z }.

(** The cursors of one more pop, the index of each ancestor, and whether there
    are too many. *)
Record paths : Type := mkPaths { ps_best : gmap nat nat; ps_next : list pathCursor; ps_overflow : bool }.

Definition add_path (part : pathCursor) (st : paths) (pred : option nat * nat * Z) : paths :=
  let '(parent, node, d) := pred in
  match parent with
  | None => st
  | Some parent =>
      if ps_overflow st then st else
      let dyn := int32 (pc_dyn part + d) in
      match ps_best st !! parent with
      | Some i =>
          match ps_next st !! i with
          | Some old => if (dyn <=? pc_dyn old)%Z then st else mkPaths (ps_best st) (<[i := mkCursor (node :: pc_path part) parent dyn]> (ps_next st)) false
          | None => st
          end
      | None =>
          if (pathLimit <=? Z.of_nat (length (ps_next st)))%Z then mkPaths (ps_best st) (ps_next st) true
          else mkPaths (<[parent := length (ps_next st)]> (ps_best st)) (ps_next st ++ [mkCursor (node :: pc_path part) parent dyn]) false
      end
  end.

Definition pop_paths (p : pr) (cur : list pathCursor) : paths :=
  foldl (fun st part => if ps_overflow st then st else foldl (add_path part) st (eachPred p (pc_link part))) (mkPaths ∅ [] false) cur.

Inductive popped : Type := Popped (cur : list pathCursor) | PopSyntax | PopBound.

Fixpoint pop_loop (n : nat) (p : pr) (cur : list pathCursor) : popped :=
  match n with
  | O => Popped cur
  | S n' =>
      let st := pop_paths p cur in
      if ps_overflow st then PopBound
      else match ps_next st with [] => PopSyntax | next => pop_loop n' p next end
  end.

Definition finish_paths (h : head) (info : prodInfo) (prod : nat) (cur : list pathCursor) (p : pr) : list head * pr :=
  foldl (fun '(out, p) part =>
    let '(got, kind, p) := finishReduce h info prod (pc_link part) (pc_path part) (pc_dyn part) p in
    match kind with redOK => (out ++ got, p) | _ => (out, p) end) ([], p) cur.

Definition doReduce (h : head) (prod : nat) (p : pr) : list head * red_kind * pr :=
  match l_prods lang !! prod with
  | None => ([], redSyntax, p)
  | Some info =>
      let n := length (p_rhs info) in
      let stall := (h_stall h + 1)%Z in
      if (maxStall <? stall)%Z then ([], redStall, p) else
      if n =? 0 then
        let eps := (h_eps h + 1)%Z in
        if (maxEpsilon <? eps)%Z then ([], redSyntax, p)
        else finishReduce (with_counts eps stall h) info prod (h_link h) [] (int32 (p_dyn info)) p
      else
        let h := with_counts 0 stall h in
        match onePath p (Some (h_link h)) n [] (int32 (p_dyn info)) with
        | Some (raw, anc, dyn) => finishReduce h info prod anc raw dyn p
        | None =>
            match pop_loop n p [mkCursor [] (h_link h) (int32 (p_dyn info))] with
            | PopBound => ([], redBound, p)
            | PopSyntax => ([], redSyntax, p)
            | Popped cur =>
                match finish_paths h info prod cur p with
                | ([], p) => ([], redSyntax, p)
                | (out, p) => (out, redOK, p)
                end
            end
        end
  end.

Fixpoint act_loop (h : head) (acts : list action) (out : list head) (p : pr) : list head * option Error * pr :=
  match acts with
  | [] => (out, None, p)
  | a :: acts' =>
      if ac_kind a =? actShift then
        let '(h2, p) := doShift h (ac_val a) p in act_loop h acts' (out ++ [h2]) p
      else if ac_kind a =? actReduce then
        let '(reduced, kind, p) := doReduce h (ac_val a) p in
        match kind with
        | redStall => act_loop h acts' out p
        | redBound => ([], None, noteBound h p)
        | redSyntax => let '(e, p) := errAt (h_pos h) (Some h) p in (out, Some e, p)
        | redOK => act_loop h acts' (out ++ reduced) p
        end
      else if ac_kind a =? actAccept then
        act_loop h acts' (out ++ [mkHead (h_link h) (h_pos h) (h_has h) (h_sym h) (h_a h) (h_b h) (h_eps h) (h_stall h) true (bestNode p (h_link h))]) p
      else act_loop h acts' out p
  end.

(** [act]: the heads that a head becomes, or where it dies. *)
Definition p_act (h : head) (p : pr) : list head * option Error * pr :=
  let '(ok, h) := ensure h p in
  if negb ok then let '(e, p) := errAt (h_pos h) (Some h) p in ([], Some e, p)
  else match acts_at lang (k_state (link_at p (h_link h))) (h_sym h) with
  | None | Some [] => let '(e, p) := errAt (h_pos h) (Some h) p in ([], Some e, p)
  | Some acts => act_loop h acts [] p
  end.

(** *** Merging *)

(** Heads with one key have the same future. *)
Definition head_key (p : pr) (h : head) : nat * nat * nat * bool * bool :=
  (k_state (link_at p (h_link h)), h_pos h, if h_has h then h_sym h else 0, h_has h, h_acc h).

Fixpoint find_key (p : pr) (k : nat * nat * nat * bool * bool) (out : list head) : option nat :=
  match out with
  | [] => None
  | h :: out' => if bool_decide (head_key p h = k) then Some 0 else S <$> find_key p k out'
  end.

Definition set_node (n : nat) (h : head) : head :=
  mkHead (h_link h) (h_pos h) (h_has h) (h_sym h) (h_a h) (h_b h) (h_eps h) (h_stall h) (h_acc h) n.

Definition merge_head (st : list head * pr) (h : head) : list head * pr :=
  let '(out, p) := st in
  match find_key p (head_key p h) out with
  | Some i =>
      match out !! i with
      | Some o => (if h_acc h && better p h o then <[i := set_node (h_node h) o]> out else out, p_union (h_link o) (h_link h) p)
      | None => (out, p)
      end
  | None => (out ++ [h], p)
  end.

(** The heads at the furthest position first, then by precedence, then by node. *)
Definition head_before (p : pr) (a b : head) : bool :=
  if negb (h_pos a =? h_pos b) then h_pos b <? h_pos a
  else
    let di := k_dyn (link_at p (h_link a)) in
    let dj := k_dyn (link_at p (h_link b)) in
    if negb (di =? dj)%Z then (dj <? di)%Z else nodeOf p a <? nodeOf p b.

(** [sort.SliceStable]: a head goes behind those it is not before. *)
Fixpoint insert_head (p : pr) (h : head) (l : list head) : list head :=
  match l with
  | [] => [h]
  | x :: l' => if head_before p h x then h :: l else x :: insert_head p h l'
  end.
Definition sort_heads (p : pr) (l : list head) : list head := foldl (fun acc h => insert_head p h acc) [] l.

Fixpoint same_pos (pos : nat) (l : list head) : list head :=
  match l with [] => [] | h :: l' => if h_pos h =? pos then h :: same_pos pos l' else [] end.

(** [inr] is the error of a frontier wider than the limit. *)
Definition merge (heads : list head) (p : pr) : (list head + Error) * pr :=
  let '(out, p) := foldl merge_head ([], p) heads in
  if (Z.of_nat (length out) <=? maxHeads)%Z then (inl out, p)
  else match sort_heads p out with
  | [] => (inl [], p)
  | (first :: _) as sorted =>
      let kept := same_pos (h_pos first) sorted in
      if (maxHeads <? Z.of_nat (length kept))%Z then
        let '(e, p) := errAt (h_pos first) (Some first) p in (inr (tooManyStacks e), p)
      else (inl kept, p)
  end.

(** *** The loop *)

(** The earliest position of a head that has not accepted. *)
Definition minPos (heads : list head) : option nat :=
  foldl (fun m h => if h_acc h then m else match m with None => Some (h_pos h) | Some k => if h_pos h <? k then Some (h_pos h) else m end) None heads.

(** The furthest error and its state. *)
Definition dead_error (best : option (Error * nat)) (dead : option Error) (state : nat) : option (Error * nat) :=
  match dead with
  | None => best
  | Some e => match best with None => Some (e, state) | Some (b, _) => if e_Offset b <? e_Offset e then Some (e, state) else best end
  end.

Definition act_head (m : nat) (st : list head * option (Error * nat) * pr) (h : head) : list head * option (Error * nat) * pr :=
  let '(next, best, p) := st in
  if h_acc h || negb (h_pos h =? m) then (next ++ [h], best, p)
  else let '(grew, dead, p) := p_act h p in (next ++ grew, dead_error best dead (s_errState p), p).

(** The heads at the end of the loop with the furthest error, or the error that
    ends the parse. *)
Fixpoint parse_loop (limit : nat) (heads : list head) (best : option (Error * nat)) (p : pr) : (list head * option (Error * nat) + Error) * pr :=
  match limit with
  | O => (inl (heads, best), p)
  | S limit' =>
      match minPos heads with
      | None => (inl (heads, best), p)
      | Some m =>
          let '(next, best, p) := foldl (act_head m) ([], best, p) heads in
          let '(merged, p) := merge next p in
          match merged with
          | inr e => (inr (withWant (Some e) (s_errState p) p), p)
          | inl heads =>
              match s_bound p with
              | Some h => (inr (tooManyStacks (fst (errAt (h_pos h) (Some h) p))), p)
              | None => parse_loop limit' heads best p
              end
          end
      end
  end.

Definition winner (p : pr) (heads : list head) : option head :=
  foldl (fun won h => if negb (h_acc h) then won else match won with None => Some h | Some w => if better p h w then Some h else won end) None heads.

Definition start_pr : pr := mkPr [noNode] [] [mkLink (l_start lang) None 0 0 None] [] 0 None.
Definition start_head : head := mkHead 0 0 false 0 0 0 0 0 false 0.

Definition step_limit : nat := Z.to_nat (Z.max 5000 (Z.of_nat (length src) * 80 + 5000)).

(** The accepted node with the parser's arrays. *)
Definition parse_run : (nat * pr) + Error :=
  match parse_loop step_limit [start_head] None start_pr with
  | (inr e, _) => inr e
  | (inl (heads, best), p) =>
      match winner p heads with
      | Some won => inl (h_node won, p)
      | None => inr (match best with Some (e, st) => withWant (Some e) st p | None => withWant (Some (fst (errAt 0 None p))) 0 p end)
      end
  end.
End run.

(** ** The scanner's tokens *)

Definition syntaxAt (src : list byte) (off : nat) (want : list string) : Error :=
  let off := Nat.min off (length src) in
  let '(line, col) := lineCol (lineStarts src) off in mkError off line col want EmptyString.

Definition set_At {D} (at_ : Z) (st : LexState D) : LexState D :=
  mkLexState (ls_Symbol st) at_ (ls_InsertSemi st) (ls_SemiAt st) (ls_Hold st) (ls_Data st).

Fixpoint prelex_loop (limit : nat) (sf : ScanFunc) (src : list byte) (zeros : nat) (toks : list tok) (st : LexState (sf_data sf)) : list tok + Error :=
  match limit with
  | O => inr (syntaxAt src (length src) [])
  | S limit' =>
      let prev := ls_At st in
      let '(r, st) := sf_scan sf src prev (fun _ => true) st in
      let failed := inr (syntaxAt src (if ((ls_At st <? 0) || (Z.of_nat (length src) <? ls_At st))%Z then 0 else Z.to_nat (ls_At st)) []) in
      match r with
      | None => failed
      | Some t =>
          if ((sc_start t <? 0) || (sc_end t <? sc_start t) || (Z.of_nat (length src) <? sc_end t))%Z then failed else
          let st := if (ls_At st =? prev)%Z then set_At (sc_end t) st else st in
          let empty := negb (sc_id t =? SymEOF) && (sc_start t =? sc_end t)%Z in
          let zeros := if empty then S zeros else 0 in
          if empty && (4 <? zeros) then inr (syntaxAt src (Z.to_nat (sc_start t)) []) else
          let toks := toks ++ [mkTok (sc_id t) (Z.to_nat (sc_start t)) (Z.to_nat (sc_end t))] in
          if sc_id t =? SymEOF then inl toks else prelex_loop limit' sf src zeros toks st
      end
  end.

Definition prelex (l : Language) (sf : ScanFunc) (src : list byte) : list tok + Error :=
  prelex_loop (length src + 8) sf src 0 [] (mkLexState (l_Symbol l) 0 false (-1) false None).

(** ** The tree *)

(** The nodes below [id], each once, children first; [seen] are those visited. *)
Fixpoint tree_walk (fuel : nat) (nodes : list node) (kids : list nat) (st : gset nat * list nat) (id : nat) : gset nat * list nat :=
  match fuel with
  | O => st
  | S f =>
      let '(seen, order) := st in
      if (id =? 0) || (length nodes <=? id) || bool_decide (id ∈ seen) then st else
      let n := nth id nodes noNode in
      let '(seen, order) := foldl (tree_walk f nodes kids) ({[ id ]} ∪ seen, order) (take (n_nchild n) (drop (n_child n) kids)) in
      (seen, order ++ [id])
  end.

(** The new number of a node: its place in the order, from 1. *)
Fixpoint place_of (order : list nat) (id : nat) : nat :=
  match order with
  | [] => 0
  | x :: order' => if x =? id then 1 else match place_of order' id with 0 => 0 | S n => S (S n) end
  end.

Definition copy_node (nodes : list node) (kids order : list nat) (st : list node * list nat) (id : nat) : list node * list nat :=
  let '(fresh, freshKids) := st in
  let n := nth id nodes noNode in
  if n_nchild n =? 0 then (fresh ++ [n], freshKids)
  else
    let own := map (fun k => match kids !! (n_child n + k) with Some c => place_of order c | None => 0 end) (seq 0 (n_nchild n)) in
    (fresh ++ [mkNode (n_kind n) (n_flags n) (n_start n) (n_end n) (length freshKids) (n_nchild n) (n_dyn n) (n_prod n)], freshKids ++ own).

Definition concreteTree (l : Language) (src : list byte) (nodes : list node) (kids : list nat) (lines : list nat) (root : nat) : Tree :=
  if (root =? 0) || (length nodes <=? root) then mkTree l src [noNode] [] lines 0 else
  let order := snd (tree_walk (S (length nodes)) nodes kids (∅, []) root) in
  let '(fresh, freshKids) := foldl (copy_node nodes kids order) ([noNode], []) order in
  mkTree l src fresh freshKids lines (place_of order root).

(** [Parse], of a language that is not nil. *)
Definition Parse (pathLimit : Z) (l : Language) (src : list byte) : Tree + Error :=
  let lines := lineStarts src in
  let go toks tokMode :=
    match parse_run l src toks tokMode lines pathLimit with
    | inr e => inr e
    | inl (root, p) => inl (concreteTree l src (s_nodes p) (s_kids p) lines root)
    end in
  match l_scan l with
  | None => go [] false
  | Some sf => match prelex l sf src with inr e => inr e | inl toks => go toks true end
  end.
