(* ===== verification/Derive.v ===== *)
(** * Derivations

    The specification of x/parse: derivation trees of a context-free grammar,
    rewriting of sentential forms, and what a well-formed compiler state is. *)
From Stdlib Require Import ZArith Lia.
From stdpp Require Import base numbers option list strings gmap relations.
From S2P Require Import Prelude Grammars Compile Lexer.

Local Open Scope nat_scope.

(** ** Lists *)

Lemma elem_of_imap_pair {A} (l : list A) i x : (i, x) ∈ imap pair l <-> l !! i = Some x.
Proof.
  rewrite list_elem_of_lookup. split.
  - intros (j & Hj). rewrite list_lookup_imap in Hj. destruct (l !! j) eqn:E; simplify_eq/=. exact E.
  - intros H. exists i. rewrite list_lookup_imap, H. reflexivity.
Qed.

Lemma elem_of_byLHS c s i : i ∈ byLHS c s <-> exists p, c_prods c !! i = Some p /\ p_lhs p = s.
Proof.
  unfold byLHS. rewrite list_elem_of_omap. split.
  - intros ([j p] & Hj & H). apply elem_of_imap_pair in Hj. destruct (Nat.eqb_spec (p_lhs p) s); simplify_eq. eauto.
  - intros (p & Hp & <-). exists (i, p). rewrite elem_of_imap_pair. split; [exact Hp|]. rewrite Nat.eqb_refl. reflexivity.
Qed.

Lemma elem_of_addOne {A} `{EqDecision A} (l : list A) x y : y ∈ addOne l x <-> y ∈ l \/ y = x.
Proof. unfold addOne. case_bool_decide; set_solver. Qed.

Lemma elem_of_addMany {A} `{EqDecision A} (xs l : list A) y : y ∈ addMany l xs <-> y ∈ l \/ y ∈ xs.
Proof.
  unfold addMany. revert l. induction xs as [|x xs IH]; intros l; simpl; [set_solver|].
  rewrite IH, elem_of_addOne. set_solver.
Qed.

Lemma addOne_nodup {A} `{EqDecision A} (l : list A) x : NoDup l -> NoDup (addOne l x).
Proof.
  intros H. unfold addOne. case_bool_decide as E; [exact H|].
  apply NoDup_app. split; [exact H|]. split; [set_solver|apply NoDup_singleton].
Qed.

Lemma addMany_nodup {A} `{EqDecision A} (xs l : list A) : NoDup l -> NoDup (addMany l xs).
Proof. unfold addMany. revert l. induction xs as [|x xs IH]; intros l H; simpl; [exact H|]. apply IH, addOne_nodup, H. Qed.

Lemma addMany_prefix {A} `{EqDecision A} (xs l : list A) : exists more, addMany l xs = l ++ more.
Proof.
  unfold addMany. revert l. induction xs as [|x xs IH]; intros l; simpl.
  - exists []. symmetry. apply app_nil_r.
  - destruct (IH (addOne l x)) as [more ->]. unfold addOne. case_bool_decide; [eauto|].
    exists (x :: more). rewrite <- (assoc_L (++)). reflexivity.
Qed.

Lemma elem_of_moved c items s it : it ∈ moved c items s <-> exists it0, it0 ∈ items /\ after_dot c it0 = Some s /\ it = mkItem (i_prod it0) (S (i_dot it0)) (i_look it0).
Proof.
  unfold moved. rewrite elem_of_addMany, list_elem_of_omap. split.
  - intros [[]%not_elem_of_nil|(x & Hx & H)]. case_bool_decide; simplify_eq. eauto.
  - intros (x & Hx & Hs & ->). right. exists x. rewrite bool_decide_eq_true_2 by exact Hs. auto.
Qed.

(** ** Derivation trees *)

Inductive ptree : Type := PLeaf (t : tok) | PNode (prod : nat) (kids : list ptree).

Fixpoint yield (t : ptree) : list tok :=
  match t with PLeaf t => [t] | PNode _ kids => flat_map yield kids end.

Section ptree_ind.
Context (P : ptree -> Prop) (Hleaf : forall t, P (PLeaf t)) (Hnode : forall i kids, Forall P kids -> P (PNode i kids)).
Fixpoint ptree_nested_ind (t : ptree) : P t :=
  match t with
  | PLeaf t => Hleaf t
  | PNode i kids => Hnode i kids ((fix go l : Forall P l := match l with [] => Forall_nil_2 _ | k :: l' => Forall_cons_2 _ _ _ (ptree_nested_ind k) (go l') end) kids)
  end.
End ptree_ind.

(** [t] is a derivation from the symbol. *)
Inductive derives (c : compiler) : nat -> ptree -> Prop :=
| derives_leaf t : terminal c (t_id t) = true -> derives c (t_id t) (PLeaf t)
| derives_node i p kids : c_prods c !! i = Some p -> Forall2 (derives c) (p_rhs p) kids -> derives c (p_lhs p) (PNode i kids).

(** One rewriting of a nonterminal of a sentential form. *)
Inductive rewrites (c : compiler) : list nat -> list nat -> Prop :=
| rewrites_prod p u v : p ∈ c_prods c -> rewrites c (u ++ p_lhs p :: v) (u ++ p_rhs p ++ v).

Lemma rewrites_context c a b u v : rtc (rewrites c) a b -> rtc (rewrites c) (u ++ a ++ v) (u ++ b ++ v).
Proof.
  apply (rtc_congruence (fun x => u ++ x ++ v)). intros x y [p u' v' Hp].
  replace (u ++ (u' ++ p_lhs p :: v') ++ v) with ((u ++ u') ++ p_lhs p :: (v' ++ v)) by (rewrite <- !(assoc_L (++)); reflexivity).
  replace (u ++ (u' ++ p_rhs p ++ v') ++ v) with ((u ++ u') ++ p_rhs p ++ (v' ++ v)) by (rewrite <- !(assoc_L (++)); reflexivity).
  constructor. exact Hp.
Qed.

Lemma rewrites_app c a b a' b' : rtc (rewrites c) a b -> rtc (rewrites c) a' b' -> rtc (rewrites c) (a ++ a') (b ++ b').
Proof.
  intros H H'. transitivity (b ++ a').
  - exact (rewrites_context c a b [] a' H).
  - pose proof (rewrites_context c a' b' b [] H') as K. rewrite !app_nil_r in K. exact K.
Qed.

(** A derivation rewrites its symbol to its yield. *)
Lemma derives_rewrites c t : forall X, derives c X t -> rtc (rewrites c) [X] (map t_id (yield t)).
Proof.
  induction t as [t|i kids IH] using ptree_nested_ind; intros X H; inversion H as [|i' p kids' Hp Hk]; subst; [reflexivity|].
  eapply rtc_l; [exact (rewrites_prod c p [] [] ltac:(eapply list_elem_of_lookup_2; exact Hp))|].
  rewrite app_nil_r. simpl. clear H Hp. revert IH. induction Hk as [|X t Xs ts Ht Hts IHk]; intros IH; [reflexivity|].
  apply Forall_cons in IH as [IHt IH]. simpl. rewrite map_app.
  exact (rewrites_app c [X] (map t_id (yield t)) Xs _ (IHt _ Ht) (IHk IH)).
Qed.

(** ** Well-formed compilers *)

(** The symbols of the alternatives are symbols, and rules are not tokens. *)
Record compiler_wf (c : compiler) : Prop := {
  wf_lhs p : p ∈ c_prods c -> p_lhs p < length (c_syms c) /\ terminal c (p_lhs p) = false;
  wf_rhs p s : p ∈ c_prods c -> s ∈ p_rhs p -> s < length (c_syms c) }.

Lemma derives_terminal c X t : compiler_wf c -> terminal c X = true -> derives c X t -> exists k, t = PLeaf k /\ t_id k = X.
Proof.
  intros Hc HX H. inversion H as [k|i p kids Hp]; subst; [eauto|].
  apply list_elem_of_lookup_2, (wf_lhs _ Hc) in Hp as [_ Hp]. congruence.
Qed.
