(* ===== verification/Firsts.v ===== *)
(** * Nullable rules and first sets

    [nullableFirst] of x/parse/compile.go is the least fixed point: a rule is
    nullable when it rewrites to nothing, and its first set has the tokens that
    start a form it rewrites to.  [firstSeq] extends this to a sequence. *)
From Stdlib Require Import ZArith Lia.
From stdpp Require Import base numbers option list strings gmap relations sorting.
From S2P Require Import Prelude Grammars Compile Lexer Derive.

Local Open Scope nat_scope.

Section firsts.
Context (c : compiler) (Hc : compiler_wf c).

Local Abbreviation n := (length (c_syms c)).
Local Notation "a ⇒* b" := (rtc (rewrites c) a b) (at level 70).

Lemma terminal_lt s : terminal c s = true -> s < n.
Proof. unfold terminal. destruct (c_syms c !! s) eqn:E; [|discriminate]. intros _. apply lookup_lt_Some in E. exact E. Qed.

(** ** Soundness *)

Record firsts_ok (t : firsts) : Prop := {
  fo_nullable : length (f_nullable t) = n;
  fo_first : length (f_first t) = n;
  fo_null s : nullable t s = true -> [s] ⇒* [];
  fo_starts s a : a ∈ first_of t s -> terminal c a = true /\ exists rest, [s] ⇒* (a :: rest);
  fo_nodup s : NoDup (first_of t s) }.

Lemma first_of_insert t s l s' : length (f_first t) = n -> s < n ->
  first_of (mkFirsts (f_nullable t) (<[s := l]> (f_first t))) s' = if decide (s' = s) then l else first_of t s'.
Proof.
  intros Hl Hs. unfold first_of. simpl. rewrite !nth_lookup.
  case_decide as E; [subst; rewrite list_lookup_insert_eq by lia; reflexivity|].
  rewrite list_lookup_insert_ne by congruence. reflexivity.
Qed.

Lemma nullable_insert t s s' : length (f_nullable t) = n -> s < n ->
  nullable (mkFirsts (<[s := true]> (f_nullable t)) (f_first t)) s' = if decide (s' = s) then true else nullable t s'.
Proof.
  intros Hl Hs. unfold nullable. simpl. rewrite !nth_lookup.
  case_decide as E; [subst; rewrite list_lookup_insert_eq by lia; reflexivity|].
  rewrite list_lookup_insert_ne by congruence. reflexivity.
Qed.

Lemma addSyms_ok s ids t ch : firsts_ok t -> s < n ->
  (forall a, a ∈ ids -> terminal c a = true /\ exists rest, [s] ⇒* (a :: rest)) -> firsts_ok (fst (addSyms s ids t ch)).
Proof.
  intros Ht Hs Hids. unfold addSyms. simpl. split; simpl.
  - apply (fo_nullable _ Ht).
  - rewrite length_insert. apply (fo_first _ Ht).
  - intros s' H. apply (fo_null _ Ht). exact H.
  - intros s' a. rewrite first_of_insert by (auto using fo_first). case_decide; [subst|apply (fo_starts _ Ht)].
    rewrite elem_of_addMany. intros [H|H]; [apply (fo_starts _ Ht _ _ H)|apply Hids, H].
  - intros s'. rewrite first_of_insert by (auto using fo_first). case_decide; [apply addMany_nodup|]; apply (fo_nodup _ Ht).
Qed.

Lemma set_nullable_ok s t ch : firsts_ok t -> s < n -> [s] ⇒* [] -> firsts_ok (fst (set_nullable s t ch)).
Proof.
  intros Ht Hs H. unfold set_nullable. destruct (nullable t s); [exact Ht|]. simpl. split; simpl; try apply Ht.
  - rewrite length_insert. apply (fo_nullable _ Ht).
  - intros s'. rewrite nullable_insert by (auto using fo_nullable). case_decide; [subst; auto|apply (fo_null _ Ht)].
Qed.

Lemma first_rhs_cons l s rhs t changed : first_rhs c l (s :: rhs) t changed =
  if terminal c s then let '(t, changed) := addSyms l [s] t changed in (t, changed, false)
  else let '(t, changed) := addSyms l (first_of t s) t changed in
  if nullable t s then first_rhs c l rhs t changed else (t, changed, false).
Proof. reflexivity. Qed.

Lemma first_rhs_ok l rhs : l < n -> forall t ch, firsts_ok t -> [l] ⇒* rhs ->
  firsts_ok (fst (fst (first_rhs c l rhs t ch))) /\ (snd (first_rhs c l rhs t ch) = true -> [l] ⇒* []).
Proof.
  intros Hl. induction rhs as [|s rhs IH]; intros t ch Ht H; [simpl; auto|]. rewrite first_rhs_cons.
  destruct (terminal c s) eqn:Es.
  - pose proof (addSyms_ok l [s] t ch Ht Hl) as K. destruct (addSyms l [s] t ch) as [t' ch']. simpl in *. split; [|discriminate].
    apply K. intros a ->%list_elem_of_singleton. eauto.
  - pose proof (addSyms_ok l (first_of t s) t ch Ht Hl) as K. destruct (addSyms l (first_of t s) t ch) as [t' ch']. simpl in *.
    assert (Ht' : firsts_ok t').
    { apply K. intros a Ha. destruct (fo_starts _ Ht _ _ Ha) as [? [rest Hr]]. split; [assumption|]. exists (rest ++ rhs).
      etransitivity; [exact H|]. exact (rewrites_context c [s] _ [] rhs Hr). }
    destruct (nullable t' s) eqn:En; [|simpl; split; [exact Ht'|discriminate]].
    apply IH; [exact Ht'|]. etransitivity; [exact H|]. exact (rewrites_context c [s] [] [] rhs (fo_null _ Ht' _ En)).
Qed.

Lemma first_prod_ok t ch p : p ∈ c_prods c -> firsts_ok t -> firsts_ok (fst (first_prod c (t, ch) p)).
Proof.
  intros Hp Ht. unfold first_prod. destruct (wf_lhs _ Hc _ Hp) as [Hl _].
  pose proof (first_rhs_ok (p_lhs p) (p_rhs p) Hl t ch Ht) as K.
  destruct (first_rhs c (p_lhs p) (p_rhs p) t ch) as [[t' ch'] allNull]. simpl in K.
  destruct K as [Ht' Hn]. { apply rtc_once. pose proof (rewrites_prod c p [] [] Hp) as R. rewrite app_nil_r in R. exact R. }
  destruct allNull; [|exact Ht']. apply set_nullable_ok; auto.
Qed.

Lemma first_pass_ok t : firsts_ok t -> firsts_ok (fst (first_pass c t)).
Proof.
  intros Ht. unfold first_pass.
  assert (H : forall ps ch t, (forall p, p ∈ ps -> p ∈ c_prods c) -> firsts_ok t -> firsts_ok (fst (foldl (first_prod c) (t, ch) ps))).
  { intros ps. induction ps as [|p ps IH]; intros ch t' Hps Ht'; cbn [foldl]; [exact Ht'|].
    pose proof (first_prod_ok t' ch p ltac:(apply Hps; left) Ht') as K. destruct (first_prod c (t', ch) p). apply IH; [|exact K].
    intros q Hq. apply Hps. right. exact Hq. }
  apply H; auto.
Qed.

Lemma no_firsts_ok : firsts_ok (no_firsts n).
Proof.
  assert (Hnull : forall s, nullable (no_firsts n) s = false).
  { intros s. unfold nullable, no_firsts. simpl. rewrite nth_lookup. destruct (replicate n false !! s) eqn:E; [|reflexivity].
    apply lookup_replicate_1 in E as [-> _]. reflexivity. }
  assert (Hfirst : forall s, first_of (no_firsts n) s = []).
  { intros s. unfold first_of, no_firsts. simpl. rewrite nth_lookup. destruct (replicate n [] !! s) eqn:E; [|reflexivity].
    apply lookup_replicate_1 in E as [-> _]. reflexivity. }
  split; simpl; try apply length_replicate.
  - intros s. rewrite Hnull. discriminate.
  - intros s a. rewrite Hfirst. intros []%not_elem_of_nil.
  - intros s. rewrite Hfirst. apply NoDup_nil_2.
Qed.

(** ** Progress of a pass *)

Definition weight (t : firsts) : nat := length (filter (fun b => Is_true b) (f_nullable t)) + sum_list (map length (f_first t)).

Lemma sum_lengths_insert (l : list (list nat)) i x y : l !! i = Some x -> sum_list (map length (<[i := y]> l)) + length x = sum_list (map length l) + length y.
Proof. revert i. induction l as [|z l IH]; intros [|i] H; simplify_eq/=; [lia|]. specialize (IH _ H). lia. Qed.

Lemma filter_insert_true (l : list bool) i : l !! i = Some false ->
  length (filter (fun b => Is_true b) (<[i := true]> l)) = S (length (filter (fun b => Is_true b) l)).
Proof.
  revert i. induction l as [|b l IH]; intros [|i] H; simplify_eq/=.
  - reflexivity.
  - rewrite !filter_cons. specialize (IH _ H). case_decide; simpl; lia.
Qed.

(** What a step does to the weight and the flag. *)
Definition advances (st st' : firsts * bool) : Prop :=
  length (f_nullable (fst st')) = length (f_nullable (fst st)) /\ length (f_first (fst st')) = length (f_first (fst st)) /\
  weight (fst st) <= weight (fst st') /\
  (snd st' = true -> snd st = true \/ weight (fst st) < weight (fst st')) /\ (snd st' = false -> snd st = false /\ fst st' = fst st).

Lemma advances_refl st : advances st st.
Proof. unfold advances. auto 6. Qed.

Lemma advances_trans st1 st2 st3 : advances st1 st2 -> advances st2 st3 -> advances st1 st3.
Proof.
  intros (A1 & B1 & C1 & D1 & E1) (A2 & B2 & C2 & D2 & E2). unfold advances. rewrite A2, B2.
  split; [exact A1|]. split; [exact B1|]. split; [lia|]. split.
  - intros H. destruct (D2 H) as [H'|H']; [destruct (D1 H') as [|]; [auto|right; lia]|right; lia].
  - intros H. destruct (E2 H) as [H' ->]. exact (E1 H').
Qed.

Lemma advances_lengths t ch t' ch' : advances (t, ch) (t', ch') -> length (f_first t) = n -> length (f_nullable t) = n ->
  length (f_first t') = n /\ length (f_nullable t') = n.
Proof. intros (H1 & H2 & _). simpl in *. lia. Qed.

Lemma advances_same t ch t' : advances (t, ch) (t', false) -> ch = false /\ t' = t.
Proof. intros (_ & _ & _ & _ & H). exact (H eq_refl). Qed.

Lemma addSyms_advances s ids t ch : length (f_first t) = n -> s < n ->
  advances (t, ch) (addSyms s ids t ch) /\ (snd (addSyms s ids t ch) = false -> forall a, a ∈ ids -> a ∈ first_of t s).
Proof.
  intros Hl Hs. unfold addSyms, advances. simpl. destruct (addMany_prefix ids (first_of t s)) as [more Hmore].
  assert (Hlook : f_first t !! s = Some (first_of t s)).
  { unfold first_of. rewrite nth_lookup. destruct (f_first t !! s) eqn:E; [reflexivity|]. apply lookup_ge_None in E. lia. }
  pose proof (sum_lengths_insert _ _ _ (addMany (first_of t s) ids) Hlook) as Hsum.
  rewrite length_insert. unfold weight. simpl. rewrite Hmore in *. rewrite length_app in *.
  split.
  - split; [reflexivity|]. split; [reflexivity|]. split; [lia|]. split.
    + destruct ch; simpl; [auto|]. intros H. right. destruct (Nat.eqb_spec (length (first_of t s) + length more) (length (first_of t s))); simpl in H; [discriminate|lia].
    + intros H. apply orb_false_iff in H as [-> H]. apply negb_false_iff, Nat.eqb_eq in H. split; [reflexivity|].
      destruct more; [|simpl in H; lia]. rewrite app_nil_r, list_insert_id by exact Hlook. destruct t; reflexivity.
  - intros H a Ha. apply orb_false_iff in H as [_ H]. apply negb_false_iff, Nat.eqb_eq in H.
    destruct more; [|simpl in H; lia]. rewrite app_nil_r in Hmore. rewrite <- Hmore. apply elem_of_addMany. auto.
Qed.

Lemma set_nullable_advances s t ch : length (f_nullable t) = n -> s < n ->
  advances (t, ch) (set_nullable s t ch) /\ (snd (set_nullable s t ch) = false -> nullable t s = true).
Proof.
  intros Hl Hs. unfold set_nullable. destruct (nullable t s) eqn:E; [split; [apply advances_refl|auto]|]. split; [|discriminate].
  assert (Hlook : f_nullable t !! s = Some false).
  { unfold nullable in E. rewrite nth_lookup in E. destruct (f_nullable t !! s) eqn:E'; simpl in E; [congruence|]. apply lookup_ge_None in E'. lia. }
  pose proof (filter_insert_true _ _ Hlook) as Hf. unfold advances, weight. simpl. rewrite length_insert, Hf.
  split; [reflexivity|]. split; [reflexivity|]. split; [lia|]. split; [right; lia|discriminate].
Qed.

(** ** Fixed points *)

(** The tokens that start a form, and the forms of nullable rules. *)
Fixpoint heads_form (t : firsts) (form : list nat) (a : nat) : Prop :=
  match form with
  | [] => False
  | s :: form' => if terminal c s then a = s else a ∈ first_of t s \/ (nullable t s = true /\ heads_form t form' a)
  end.
Definition null_form (t : firsts) (form : list nat) : Prop := Forall (fun s => terminal c s = false /\ nullable t s = true) form.

Lemma first_rhs_advances l rhs : l < n -> forall t ch, length (f_first t) = n -> length (f_nullable t) = n ->
  advances (t, ch) (fst (first_rhs c l rhs t ch)) /\
  (snd (fst (first_rhs c l rhs t ch)) = false -> (forall a, heads_form t rhs a -> a ∈ first_of t l) /\ (null_form t rhs -> snd (first_rhs c l rhs t ch) = true)).
Proof.
  intros Hl. induction rhs as [|s rhs IH]; intros t ch Ht Ht0.
  - split; [apply advances_refl|]. intros _. split; [intros a []|reflexivity].
  - rewrite first_rhs_cons. cbn [heads_form]. destruct (terminal c s) eqn:Es.
    + destruct (addSyms_advances l [s] t ch Ht Hl) as [Ha Hin]. destruct (addSyms l [s] t ch) as [t' ch']. simpl in *.
      split; [exact Ha|]. intros ->. split; [intros a ->; apply Hin; [reflexivity|left]|].
      intros H. apply Forall_cons in H as [[? _] _]. congruence.
    + destruct (addSyms_advances l (first_of t s) t ch Ht Hl) as [Ha Hin]. destruct (addSyms l (first_of t s) t ch) as [t' ch']. simpl in *.
      destruct (advances_lengths _ _ _ _ Ha Ht Ht0) as [Ht' Ht0'].
      destruct (nullable t' s) eqn:En; simpl.
      * destruct (IH t' ch' Ht' Ht0') as [Ha' Hin']. split; [eapply advances_trans; eauto|]. intros E.
        destruct (first_rhs c l rhs t' ch') as [[t2 ch2] b]. simpl in *. subst ch2.
        destruct (advances_same _ _ _ Ha') as [-> _]. destruct (advances_same _ _ _ Ha) as [-> ->].
        destruct (Hin' eq_refl) as [H1 H2]. split; [intros a [H|[_ H]]; [apply Hin; auto|apply H1, H]|].
        intros H. apply Forall_cons in H as [_ H]. apply H2, H.
      * split; [exact Ha|]. intros ->. apply advances_same in Ha as [_ ->].
        split; [intros a [H|[H _]]; [apply Hin; auto|congruence]|]. intros H. apply Forall_cons in H as [[_ H] _]. congruence.
Qed.

Definition prod_closed (t : firsts) (p : prodInfo) : Prop :=
  (forall a, heads_form t (p_rhs p) a -> a ∈ first_of t (p_lhs p)) /\ (null_form t (p_rhs p) -> nullable t (p_lhs p) = true).

Lemma first_prod_advances t ch p : p ∈ c_prods c -> length (f_first t) = n -> length (f_nullable t) = n ->
  advances (t, ch) (first_prod c (t, ch) p) /\ (snd (first_prod c (t, ch) p) = false -> prod_closed t p).
Proof.
  intros Hp Ht Ht'. destruct (wf_lhs _ Hc _ Hp) as [Hl _]. unfold first_prod.
  destruct (first_rhs_advances (p_lhs p) (p_rhs p) Hl t ch Ht Ht') as [Ha Hin].
  destruct (first_rhs c (p_lhs p) (p_rhs p) t ch) as [[t1 ch1] allNull]. simpl in *.
  destruct allNull; simpl.
  - destruct (set_nullable_advances (p_lhs p) t1 ch1) as [Ha' Hn']. { apply (advances_lengths _ _ _ _ Ha Ht Ht'). } { exact Hl. }
    split; [eapply advances_trans; eauto|]. intros E.
    destruct (set_nullable (p_lhs p) t1 ch1) as [t2 ch2]. simpl in *. subst ch2.
    destruct (advances_same _ _ _ Ha') as [-> ->]. destruct (advances_same _ _ _ Ha) as [-> ->].
    split; [apply Hin; reflexivity|]. intros _. apply Hn', eq_refl.
  - split; [exact Ha|]. intros ->. destruct (Hin eq_refl) as [H1 H2]. split; [exact H1|].
    intros H. apply H2 in H. discriminate.
Qed.

Lemma first_pass_advances t : length (f_first t) = n -> length (f_nullable t) = n ->
  advances (t, false) (first_pass c t) /\ (snd (first_pass c t) = false -> forall p, p ∈ c_prods c -> prod_closed t p).
Proof.
  intros Ht Ht'. unfold first_pass.
  assert (H : forall ps ch t, (forall p, p ∈ ps -> p ∈ c_prods c) -> length (f_first t) = n -> length (f_nullable t) = n ->
    advances (t, ch) (foldl (first_prod c) (t, ch) ps) /\ (snd (foldl (first_prod c) (t, ch) ps) = false -> forall p, p ∈ ps -> prod_closed t p)).
  { clear t Ht Ht'. intros ps. induction ps as [|p ps IH]; intros ch t Hps Ht Ht'; cbn [foldl].
    - split; [apply advances_refl|]. intros _ p []%not_elem_of_nil.
    - destruct (first_prod_advances t ch p ltac:(apply Hps; left) Ht Ht') as [Ha Hcl].
      destruct (first_prod c (t, ch) p) as [t1 ch1]. simpl in *.
      destruct (IH ch1 t1) as [Ha' Hcl']. { intros q Hq. apply Hps. right. exact Hq. }
      { apply (advances_lengths _ _ _ _ Ha Ht Ht'). } { apply (advances_lengths _ _ _ _ Ha Ht Ht'). }
      split; [eapply advances_trans; eauto|]. intros E.
      destruct (foldl (first_prod c) (t1, ch1) ps) as [t2 ch2]. simpl in *. subst ch2.
      destruct (advances_same _ _ _ Ha') as [-> ->]. destruct (advances_same _ _ _ Ha) as [-> ->].
      intros q [->|Hq]%elem_of_cons; [apply Hcl; reflexivity|apply Hcl'; [reflexivity|exact Hq]]. }
  apply H; auto.
Qed.

(** ** Termination *)

Lemma sum_bound (l : list (list nat)) k : Forall (fun x => length x <= k) l -> sum_list (map length l) <= length l * k.
Proof. induction 1; simpl; lia. Qed.

Lemma nodup_below (l : list nat) k : NoDup l -> (forall a, a ∈ l -> a < k) -> length l <= k.
Proof.
  intros Hn Hlt. rewrite <- (length_seq k 0). apply submseteq_length, NoDup_submseteq; [exact Hn|].
  intros a Ha. apply elem_of_seq. specialize (Hlt a Ha). lia.
Qed.

Lemma weight_bound t : firsts_ok t -> weight t <= n + n * n.
Proof.
  intros Ht. unfold weight. pose proof (length_filter (fun b => Is_true b) (f_nullable t)) as H1. rewrite (fo_nullable _ Ht) in H1.
  assert (H2 : sum_list (map length (f_first t)) <= n * n).
  { rewrite <- (fo_first _ Ht) at 1. apply sum_bound. apply Forall_lookup. intros s l Hl.
    assert (E : first_of t s = l). { unfold first_of. rewrite nth_lookup, Hl. reflexivity. }
    rewrite <- E. apply nodup_below; [apply (fo_nodup _ Ht)|]. intros a Ha. apply terminal_lt, (fo_starts _ Ht s a Ha). }
  lia.
Qed.

Lemma first_loop_spec fuel t : firsts_ok t -> n + n * n < fuel + weight t ->
  firsts_ok (first_loop fuel c t) /\ forall p, p ∈ c_prods c -> prod_closed (first_loop fuel c t) p.
Proof.
  revert t. induction fuel as [|f IH]; intros t Ht Hf; [pose proof (weight_bound t Ht); lia|]. simpl.
  pose proof (first_pass_ok t Ht) as Hok. destruct (first_pass_advances t (fo_first _ Ht) (fo_nullable _ Ht)) as [Ha Hcl].
  destruct (first_pass c t) as [t' ch]. destruct Ha as (_ & _ & _ & Hup & Hsame). simpl in *. destruct ch.
  - apply IH; [exact Hok|]. destruct Hup as [|]; [reflexivity|discriminate|lia].
  - destruct (Hsame eq_refl) as [_ ->]. auto.
Qed.

Lemma nullableFirst_spec : firsts_ok (nullableFirst c) /\ forall p, p ∈ c_prods c -> prod_closed (nullableFirst c) p.
Proof. apply first_loop_spec; [apply no_firsts_ok|lia]. Qed.

(** ** Exactness *)

Lemma heads_form_app t u v a : heads_form t (u ++ v) a <-> heads_form t u a \/ (null_form t u /\ heads_form t v a).
Proof.
  induction u as [|s u IH]; simpl.
  - split; [intros H; right; split; [constructor|exact H]|intros [[]|[_ H]]; exact H].
  - unfold null_form in *. rewrite Forall_cons. destruct (terminal c s); [|rewrite IH]; intuition congruence.
Qed.

Section fixed.
Context (t : firsts) (Hclosed : forall p, p ∈ c_prods c -> prod_closed t p).

Lemma rewrites_back x y : rewrites c x y -> (forall a, heads_form t y a -> heads_form t x a) /\ (null_form t y -> null_form t x).
Proof using Hclosed Hc.
  intros [p u v Hp]. destruct (wf_lhs _ Hc _ Hp) as [_ Hterm]. destruct (Hclosed _ Hp) as [H1 H2]. split.
  - intros a. rewrite !heads_form_app. simpl. rewrite Hterm.
    intros [H|[Hu [H|[Hr H]]]]; [left; exact H|right; split; [exact Hu|left; apply H1, H]|right; split; [exact Hu|right; split; [apply H2, Hr|exact H]]].
  - unfold null_form in *. rewrite !Forall_app, Forall_cons. intros (Hu & Hr & Hv). auto.
Qed.

Lemma rewrites_back_star x y : x ⇒* y -> (forall a, heads_form t y a -> heads_form t x a) /\ (null_form t y -> null_form t x).
Proof using Hclosed Hc.
  induction 1 as [|x y z Hxy _ [IH1 IH2]]; [auto|]. destruct (rewrites_back _ _ Hxy) as [H1 H2]. auto.
Qed.
End fixed.

(** A rule is nullable exactly when it rewrites to nothing. *)
Lemma nullable_exact s : terminal c s = false -> (nullable (nullableFirst c) s = true <-> [s] ⇒* []).
Proof using Hc.
  intros Hs. destruct nullableFirst_spec as [Hok Hcl]. split; [apply (fo_null _ Hok)|]. intros H.
  pose proof (proj2 (rewrites_back_star _ Hcl _ _ H) (Forall_nil_2 _)) as K. apply Forall_cons in K as [[_ K] _]. exact K.
Qed.

(** A first set has the tokens that start a form the rule rewrites to. *)
Lemma first_exact s a : terminal c s = false ->
  (a ∈ first_of (nullableFirst c) s <-> terminal c a = true /\ exists rest, [s] ⇒* (a :: rest)).
Proof using Hc.
  intros Hs. destruct nullableFirst_spec as [Hok Hcl]. split; [apply (fo_starts _ Hok)|]. intros [Ha [rest H]].
  assert (K : heads_form (nullableFirst c) [s] a). { apply (proj1 (rewrites_back_star _ Hcl _ _ H)). simpl. rewrite Ha. reflexivity. }
  simpl in K. rewrite Hs in K. destruct K as [K|[_ []]]. exact K.
Qed.

(** ** Sequences *)

Lemma elem_of_firstSeq_from t out syms look a :
  a ∈ firstSeq_from c t out syms look <-> a ∈ out \/ heads_form t syms a \/ (null_form t syms /\ a = look).
Proof.
  revert out. induction syms as [|s syms IH]; intros out; simpl.
  - rewrite elem_of_addOne. split; [intros [H| ->]; [auto|right; right; split; [constructor|reflexivity]]|].
    intros [H|[[]|[_ H]]]; auto.
  - unfold null_form in *. rewrite Forall_cons. destruct (terminal c s).
    + rewrite elem_of_addOne. intuition congruence.
    + destruct (nullable t s).
      * rewrite IH, elem_of_addMany. intuition congruence.
      * rewrite elem_of_addMany. intuition congruence.
Qed.

Lemma elem_of_firstSeq t syms look a : a ∈ firstSeq c t syms look <-> heads_form t syms a \/ (null_form t syms /\ a = look).
Proof.
  unfold firstSeq. rewrite elem_of_firstSeq_from. split; [intros [[]%not_elem_of_nil|H]; exact H|auto].
Qed.

(** The lookahead of a sequence: the token that starts a form it rewrites to, or
    [look] when it rewrites to nothing. *)
Lemma firstSeq_exact syms look a : terminal c look = true ->
  (a ∈ firstSeq c (nullableFirst c) syms look <->
   (terminal c a = true /\ exists rest, syms ⇒* (a :: rest)) \/ (syms ⇒* [] /\ a = look)).
Proof using Hc.
  intros Hlook. destruct nullableFirst_spec as [Hok Hcl]. rewrite elem_of_firstSeq.
  assert (Hnull : forall l, null_form (nullableFirst c) l -> l ⇒* []).
  { induction 1 as [|s l [_ Hs] _ IH]; [reflexivity|]. exact (rewrites_app c [s] [] l [] (fo_null _ Hok _ Hs) IH). }
  split.
  - intros [H|[H ->]]; [left|right; split; [apply Hnull, H|reflexivity]]. revert H.
    induction syms as [|s syms IH]; simpl; [intros []|]. destruct (terminal c s) eqn:Es.
    + intros ->. split; [exact Es|]. exists syms. reflexivity.
    + intros [H|[Hs H]].
      * destruct (fo_starts _ Hok _ _ H) as [Ha [rest Hr]]. split; [exact Ha|]. exists (rest ++ syms). exact (rewrites_context c [s] _ [] syms Hr).
      * destruct (IH H) as [Ha [rest Hr]]. split; [exact Ha|]. exists rest.
        exact (rewrites_app c [s] [] syms _ (fo_null _ Hok _ Hs) Hr).
  - intros [[Ha [rest H]]|[H ->]].
    + left. apply (proj1 (rewrites_back_star _ Hcl _ _ H)). simpl. rewrite Ha. reflexivity.
    + right. split; [|reflexivity]. exact (proj2 (rewrites_back_star _ Hcl _ _ H) (Forall_nil_2 _)).
Qed.

(** The first token after the yields of derivations is in the lookahead. *)
Lemma firstSeq_trees syms ts look : Forall2 (derives c) syms ts ->
  default look (t_id <$> head (flat_map yield ts)) ∈ firstSeq c (nullableFirst c) syms look.
Proof using Hc.
  intros H. destruct nullableFirst_spec as [Hok Hcl]. rewrite elem_of_firstSeq.
  assert (R : syms ⇒* map t_id (flat_map yield ts)).
  { induction H as [|X t Xs ts' Ht _ IH]; simpl; [reflexivity|]. rewrite map_app.
    exact (rewrites_app c [X] _ Xs _ (derives_rewrites c t X Ht) IH). }
  assert (T : Forall (fun k => terminal c (t_id k) = true) (flat_map yield ts)).
  { apply Forall_forall. intros k Hk. clear -H Hk. revert k Hk. induction H as [|X t Xs ts' Ht _ IH]; simpl; intros k Hk; [set_solver|].
    apply elem_of_app in Hk as [Hk|Hk]; [|auto]. clear IH. revert X Ht k Hk.
    induction t as [k'|i kids IHk] using ptree_nested_ind; intros X Ht k Hk; inversion Ht as [|i' p kids' Hp Hkids]; subst; simpl in Hk.
    - apply list_elem_of_singleton in Hk as ->. assumption.
    - clear Ht Hp. induction Hkids as [|Y u Ys us Hu _ IHl]; simpl in Hk; [set_solver|].
      apply Forall_cons in IHk as [IHu IHk]. apply elem_of_app in Hk as [Hk|Hk]; [exact (IHu _ Hu _ Hk)|exact (IHl IHk Hk)]. }
  destruct (flat_map yield ts) as [|k rest]; simpl in *.
  - right. split; [|reflexivity]. exact (proj2 (rewrites_back_star _ Hcl _ _ R) (Forall_nil_2 _)).
  - left. apply (proj1 (rewrites_back_star _ Hcl _ _ R)). simpl. apply Forall_cons in T as [-> _]. reflexivity.
Qed.
End firsts.

(** * Item sets

    [closure] of x/parse/compile.go gives the least set of items that has the
    seed and, with an item before a rule, the items that begin the alternatives
    of the rule, sorted and each once; its queue is bounded by the number of
    items. *)

(** ** The order of items *)

#[export] Instance item_le_dec a b : Decision (Is_true (item_le a b)).
Proof. apply _. Defined.

Lemma item_le_spec a b : Is_true (item_le a b) <->
  i_prod a < i_prod b \/ (i_prod a = i_prod b /\ (i_dot a < i_dot b \/ (i_dot a = i_dot b /\ i_look a <= i_look b))).
Proof.
  rewrite Is_true_true. unfold item_le. destruct (Nat.eqb_spec (i_prod a) (i_prod b)); simpl; [|rewrite Nat.ltb_lt; lia].
  destruct (Nat.eqb_spec (i_dot a) (i_dot b)); simpl; [rewrite Nat.leb_le|rewrite Nat.ltb_lt]; lia.
Qed.

#[export] Instance item_le_total : Total (fun a b => Is_true (item_le a b)).
Proof. intros a b. rewrite !item_le_spec. lia. Qed.

#[export] Instance item_le_trans : Transitive (fun a b => Is_true (item_le a b)).
Proof. intros x y z. rewrite !item_le_spec. lia. Qed.

#[export] Instance item_le_antisymm : AntiSymm (=) (fun a b => Is_true (item_le a b)).
Proof. intros [p d l] [p' d' l']. rewrite !item_le_spec. simpl. intros. f_equal; lia. Qed.

Lemma sortItems_perm l : sortItems l ≡ₚ l.
Proof. apply merge_sort_Permutation. Qed.

Lemma sortItems_sorted l : StronglySorted (fun a b => Is_true (item_le a b)) (sortItems l).
Proof. apply StronglySorted_merge_sort; apply _. Qed.

(** Two sorted lists of the same items are equal. *)
Lemma sorted_items_eq l k : StronglySorted (fun a b => Is_true (item_le a b)) l -> StronglySorted (fun a b => Is_true (item_le a b)) k ->
  NoDup l -> NoDup k -> (forall it, it ∈ l <-> it ∈ k) -> l = k.
Proof.
  intros Hl Hk Nl Nk H. eapply StronglySorted_unique; [|exact Hl|exact Hk|apply NoDup_Permutation; assumption]. apply _.
Qed.

Section items.
Context (c : compiler) (Hc : compiler_wf c).

Local Abbreviation n := (length (c_syms c)).
Local Abbreviation t := (nullableFirst c).

(** ** The items of a grammar *)

Definition item_ok (it : item) : Prop :=
  i_prod it < length (c_prods c) /\ i_dot it <= length (p_rhs (c_prod c (i_prod it))) /\ i_look it < n.

Definition all_items : list item :=
  imap pair (c_prods c) ≫= fun ip => seq 0 (S (length (p_rhs (snd ip)))) ≫= fun d => (fun a => mkItem (fst ip) d a) <$> seq 0 n.

Lemma c_prod_lookup i p : c_prods c !! i = Some p -> c_prod c i = p.
Proof. intros H. unfold c_prod. rewrite nth_lookup, H. reflexivity. Qed.

Lemma elem_of_all_items it : item_ok it -> it ∈ all_items.
Proof.
  destruct it as [i d a]. intros (Hi & Hd & Ha). simpl in *. destruct (lookup_lt_is_Some_2 _ _ Hi) as [p Hp].
  rewrite (c_prod_lookup _ _ Hp) in Hd. unfold all_items. apply list_elem_of_bind. exists (i, p).
  split; [|apply elem_of_imap_pair, Hp]. apply list_elem_of_bind. exists d. split; [|apply elem_of_seq; simpl; lia].
  apply list_elem_of_fmap. exists a. split; [reflexivity|]. apply elem_of_seq. lia.
Qed.

Lemma length_bind_const {A B} (f : A -> list B) (g : A -> nat) k l : (forall x, length (f x) = g x * k) ->
  length (l ≫= f) = sum_list (map g l) * k.
Proof. intros H. induction l as [|x l IH]; [reflexivity|]. rewrite bind_cons, length_app, IH, H. simpl. lia. Qed.

Lemma sum_ones {A} (l : list A) : sum_list (map (fun _ => 1) l) = length l.
Proof. induction l as [|x l IH]; simpl; congruence. Qed.

Lemma length_all_items : length all_items = item_count c.
Proof.
  unfold all_items, item_count. rewrite (length_bind_const _ (fun ip => S (length (p_rhs (snd ip)))) n).
  - f_equal. f_equal. rewrite <- (map_map snd (fun p => S (length (p_rhs p)))). f_equal.
    apply list_eq. intros i. rewrite list_lookup_fmap, list_lookup_imap. destruct (c_prods c !! i); reflexivity.
  - intros ip. rewrite (length_bind_const _ (fun _ => 1) n).
    + rewrite sum_ones, length_seq. reflexivity.
    + intros d. rewrite length_fmap, length_seq. lia.
Qed.

Lemma set_bound (s : gset item) : (forall it, it ∈ s -> item_ok it) -> size s <= item_count c.
Proof.
  intros H. rewrite <- length_all_items. unfold size, set_size. simpl. apply submseteq_length, NoDup_submseteq; [apply NoDup_elements|].
  intros it Hit%elem_of_elements. apply elem_of_all_items, H, Hit.
Qed.

Lemma heads_form_terminal syms a : heads_form c t syms a -> terminal c a = true.
Proof using Hc.
  destruct (nullableFirst_spec c Hc) as [Hok _]. induction syms as [|s syms IH]; simpl; [intros []|].
  destruct (terminal c s) eqn:E; [intros ->; exact E|]. intros [H|[_ H]]; [exact (proj1 (fo_starts _ _ Hok _ _ H))|exact (IH H)].
Qed.

Lemma firstSeq_lt syms look a : look < n -> a ∈ firstSeq c t syms look -> a < n.
Proof using Hc. intros Hl [H|[_ ->]]%elem_of_firstSeq; [apply terminal_lt, (heads_form_terminal _ _ H)|exact Hl]. Qed.

Lemma elem_of_item_adds it it' : it' ∈ item_adds c t it <-> exists b i p,
  after_dot c it = Some b /\ terminal c b = false /\ c_prods c !! i = Some p /\ p_lhs p = b /\ i_prod it' = i /\ i_dot it' = 0 /\
  i_look it' ∈ firstSeq c t (drop (S (i_dot it)) (p_rhs (c_prod c (i_prod it)))) (i_look it).
Proof.
  unfold item_adds. destruct (after_dot c it) as [b|]; [|split; [intros []%not_elem_of_nil|intros (? & ? & ? & [=] & _)]].
  destruct (terminal c b) eqn:Eb.
  - split; [intros []%not_elem_of_nil|]. intros (b' & i & p & [= ->] & H & _). congruence.
  - rewrite list_elem_of_bind. split.
    + intros (i & H & (p & Hp & Hl)%elem_of_byLHS). apply list_elem_of_bind in H as (look & H & Hlook).
      apply list_elem_of_singleton in H as ->. exists b, i, p. auto 10.
    + intros (b' & i & p & [= ->] & _ & Hp & Hl & Hi & Hd & Hlook). exists i. split; [|apply elem_of_byLHS; eauto].
      apply list_elem_of_bind. exists (i_look it'). split; [|exact Hlook]. apply list_elem_of_singleton. destruct it'; simpl in *; congruence.
Qed.

Lemma item_adds_ok it it' : item_ok it -> it' ∈ item_adds c t it -> item_ok it'.
Proof using Hc.
  intros (_ & _ & Hl) (b & i & p & _ & _ & Hp & _ & Hi & Hd & Hlook)%elem_of_item_adds.
  split; [apply lookup_lt_Some in Hp; lia|]. split; [lia|]. exact (firstSeq_lt _ _ _ Hl Hlook).
Qed.

(** ** The closure of a seed *)

Inductive in_closure (seed : list item) : item -> Prop :=
| in_seed it : it ∈ seed -> in_closure seed it
| in_adds it it' : in_closure seed it -> it' ∈ item_adds c t it -> in_closure seed it'.

Lemma enqueue_all items : forall inn q, NoDup q -> (forall it, it ∈ q -> it ∈ inn) ->
  let '(inn', q') := foldl enqueue (inn, q) items in
  (forall it, it ∈ inn' <-> it ∈ inn \/ it ∈ items) /\ NoDup q' /\ (forall it, it ∈ q' -> it ∈ inn') /\
  (forall it, it ∈ inn' -> it ∈ inn \/ it ∈ q') /\ (forall it, it ∈ q -> it ∈ q') /\ (forall it, it ∈ q' -> it ∈ q \/ it ∉ inn) /\
  length q' + size inn = length q + size inn'.
Proof.
  induction items as [|x items IH]; intros inn q Hq Hsub; simpl; [set_solver by lia|].
  case_bool_decide as Hx.
  - specialize (IH inn q Hq Hsub). destruct (foldl enqueue (inn, q) items) as [inn' q']. destruct IH as (H1 & H2). split; [|exact H2].
    intros it. rewrite H1. set_solver.
  - assert (Hq' : NoDup (q ++ [x])). { apply NoDup_app. split; [exact Hq|]. split; [set_solver|apply NoDup_singleton]. }
    specialize (IH ({[ x ]} ∪ inn) (q ++ [x]) Hq' ltac:(set_solver)).
    destruct (foldl enqueue ({[x]} ∪ inn, q ++ [x]) items) as [inn' q']. destruct IH as (H1 & H2 & H3 & H4 & H5 & H6 & H7).
    rewrite length_app in H7. rewrite size_union in H7 by set_solver. rewrite size_singleton in H7. simpl in H7.
    split; [intros it; rewrite H1; set_solver|]. split; [exact H2|]. split; [exact H3|].
    split; [intros it Hit; destruct (H4 it Hit); set_solver|]. split; [set_solver|]. split; [|lia].
    intros it Hit. destruct (H6 it Hit) as [|]; set_solver.
Qed.

Record queue_ok (seed : list item) (inn : gset item) (q : list item) : Prop := {
  qo_nodup : NoDup q;
  qo_sub it : it ∈ q -> it ∈ inn;
  qo_sound it : it ∈ inn -> in_closure seed it;
  qo_seed it : it ∈ seed -> it ∈ inn;
  qo_done it it' : it ∈ inn -> it ∉ q -> it' ∈ item_adds c t it -> it' ∈ inn }.

Lemma queue_step seed inn it q : queue_ok seed inn (it :: q) ->
  let '(inn', q') := foldl enqueue (inn, q) (item_adds c t it) in
  queue_ok seed inn' q' /\ length q' + size inn = length q + size inn'.
Proof.
  intros H. pose proof (qo_nodup _ _ _ H) as Hn. apply NoDup_cons in Hn as [Hit Hn].
  pose proof (enqueue_all (item_adds c t it) inn q Hn ltac:(intros x Hx; apply (qo_sub _ _ _ H); set_solver)) as K.
  destruct (foldl enqueue (inn, q) (item_adds c t it)) as [inn' q']. destruct K as (H1 & H2 & H3 & H4 & H5 & H6 & H7).
  split; [|exact H7]. split; [exact H2|exact H3| | |].
  - intros x [Hx|Hx]%H1; [apply (qo_sound _ _ _ H), Hx|]. eapply in_adds; [|exact Hx]. apply (qo_sound _ _ _ H), (qo_sub _ _ _ H). left.
  - intros x Hx. apply H1. left. apply (qo_seed _ _ _ H), Hx.
  - intros x x' Hx Hq Hx'. destruct (H4 x Hx) as [Hin|]; [|contradiction]. apply H1.
    destruct (decide (x = it)) as [->|Hne]; [right; exact Hx'|]. left. apply (qo_done _ _ _ H x x' Hin); [|exact Hx'].
    intros [->|Hxq]%elem_of_cons; [congruence|]. apply Hq, H5, Hxq.
Qed.

Lemma closure_loop_spec seed : (forall it, it ∈ seed -> item_ok it) -> forall fuel inn q, queue_ok seed inn q ->
  length q + item_count c < fuel + size inn ->
  queue_ok seed (closure_loop fuel c t inn q) [].
Proof using Hc.
  intros Hseed. assert (Hok : forall it, in_closure seed it -> item_ok it).
  { induction 1 as [it H|it it' _ IH H]; [apply Hseed, H|exact (item_adds_ok _ _ IH H)]. }
  induction fuel as [|f IH]; intros inn q Hq Hf.
  - pose proof (set_bound inn ltac:(intros it Hit; apply Hok, (qo_sound _ _ _ Hq), Hit)). lia.
  - destruct q as [|it q]; [exact Hq|]. cbn [closure_loop]. pose proof (queue_step _ _ _ _ Hq) as K.
    destruct (foldl enqueue (inn, q) (item_adds c t it)) as [inn' q']. destruct K as [Hq' Hlen]. apply IH; [exact Hq'|]. simpl in Hf. lia.
Qed.

Lemma seed_queue seed : queue_ok seed (fst (foldl enqueue (∅, []) seed)) (snd (foldl enqueue (∅, []) seed)) /\
  length (snd (foldl enqueue (∅, []) seed)) = size (fst (foldl enqueue (∅ : gset item, []) seed)).
Proof.
  pose proof (enqueue_all seed ∅ [] ltac:(constructor) ltac:(set_solver)) as K.
  destruct (foldl enqueue (∅, []) seed) as [inn q]. destruct K as (H1 & H2 & H3 & H4 & H5 & H6 & H7). rewrite size_empty in H7. simpl in *.
  split; [|lia]. split; [exact H2|exact H3| | |].
  - intros it [Hit|Hit]%H1; [set_solver|]. apply in_seed, Hit.
  - intros it Hit. apply H1. auto.
  - intros it it' Hit Hq. destruct (H4 it Hit); set_solver.
Qed.

(** The closure has exactly the items that the seed implies, in order. *)
Lemma closure_spec seed : (forall it, it ∈ seed -> item_ok it) ->
  (forall it, it ∈ closure c t seed <-> in_closure seed it) /\ NoDup (closure c t seed) /\
  StronglySorted (fun a b => Is_true (item_le a b)) (closure c t seed).
Proof using Hc.
  intros Hseed. unfold closure. destruct (seed_queue seed) as [Hq Hlen].
  destruct (foldl enqueue (∅, []) seed) as [inn q]. simpl in *.
  pose proof (closure_loop_spec seed Hseed (S (item_count c)) inn q Hq ltac:(lia)) as K. set (r := closure_loop _ _ _ _ _) in *.
  split; [|split; [|apply sortItems_sorted]].
  - intros it. rewrite sortItems_perm, elem_of_elements. split; [apply (qo_sound _ _ _ K)|].
    induction 1 as [it H|it it' _ IH H]; [apply (qo_seed _ _ _ K), H|]. apply (qo_done _ _ _ K it it' IH); [set_solver|exact H].
  - rewrite sortItems_perm. apply NoDup_elements.
Qed.

Lemma in_closure_ok seed it : (forall it, it ∈ seed -> item_ok it) -> in_closure seed it -> item_ok it.
Proof using Hc. intros Hseed. induction 1 as [it H|it it' _ IH H]; [apply Hseed, H|exact (item_adds_ok _ _ IH H)]. Qed.

(** A closure depends only on the items of its seed. *)
Lemma closure_ext seed seed' : (forall it, it ∈ seed -> item_ok it) -> (forall it, it ∈ seed <-> it ∈ seed') -> closure c t seed = closure c t seed'.
Proof using Hc.
  intros Hok H. assert (Hok' : forall it, it ∈ seed' -> item_ok it). { intros it Hit. apply Hok, H, Hit. }
  destruct (closure_spec seed Hok) as (H1 & H2 & H3). destruct (closure_spec seed' Hok') as (H1' & H2' & H3').
  apply sorted_items_eq; auto. intros it. rewrite H1, H1'. split; induction 1; [apply in_seed; set_solver|eapply in_adds; eauto|apply in_seed; set_solver|eapply in_adds; eauto].
Qed.
End items.
