(* ===== verification/Automaton.v ===== *)
(** * States and edges

    The loop of [finish] of x/parse/compile.go builds each state once, gives
    every state an edge for each symbol after a dot, to the closure of the moved
    items, and ends. *)
From Stdlib Require Import ZArith Lia.
From stdpp Require Import base numbers option list strings gmap relations sorting.
From S2P Require Import Prelude Grammars Compile Lexer Derive Firsts.

Local Open Scope nat_scope.

(** ** Packing *)

(** Symbols, alternatives and dots are 16-bit numbers. *)
Record fits (c : compiler) : Prop := {
  fit_syms : (Z.of_nat (length (c_syms c)) <= 65536)%Z;
  fit_prods : (Z.of_nat (length (c_prods c)) <= 65536)%Z;
  fit_rhs p : p ∈ c_prods c -> (Z.of_nat (length (p_rhs p)) < 65536)%Z }.

Lemma put16_inj a b : (Z.of_nat a < 65536)%Z -> (Z.of_nat b < 65536)%Z -> put16 a = put16 b -> a = b.
Proof.
  unfold put16. intros Ha Hb H. injection H as H1 H2.
  assert (Hsmall : forall k, (Z.of_nat k < 65536 -> (Z.of_nat k / 256) mod 256 = Z.of_nat k / 256)%Z).
  { intros k Hk. apply Z.mod_small. split; [apply Z.div_pos; lia|apply Z.div_lt_upper_bound; lia]. }
  rewrite (Hsmall a Ha), (Hsmall b Hb) in H2.
  pose proof (Z.div_mod (Z.of_nat a) 256 ltac:(lia)). pose proof (Z.div_mod (Z.of_nat b) 256 ltac:(lia)). lia.
Qed.

Lemma length_put16 a : length (put16 a) = 2.
Proof. reflexivity. Qed.

Definition item_fits (it : item) : Prop :=
  (Z.of_nat (i_prod it) < 65536 /\ Z.of_nat (i_dot it) < 65536 /\ Z.of_nat (i_look it) < 65536)%Z.

Lemma pack_cons it l : pack (it :: l) = (put16 (i_prod it) ++ put16 (i_dot it) ++ put16 (i_look it)) ++ pack l.
Proof. reflexivity. Qed.

Lemma pack_inj l : Forall item_fits l -> forall k, Forall item_fits k -> pack l = pack k -> l = k.
Proof.
  induction 1 as [|x l (Hx1 & Hx2 & Hx3) _ IH]; intros k Hk H.
  - destruct Hk; [reflexivity|]. rewrite pack_cons in H. discriminate.
  - destruct Hk as [|y k (Hy1 & Hy2 & Hy3) Hk]; [rewrite pack_cons in H; discriminate|]. rewrite !pack_cons in H.
    apply app_inj_1 in H as [H Hl]; [|reflexivity]. apply app_inj_1 in H as [H1 H]; [|reflexivity]. apply app_inj_1 in H as [H2 H3]; [|reflexivity].
    f_equal; [|exact (IH _ Hk Hl)]. destruct x, y; simpl in *. f_equal; apply put16_inj; assumption.
Qed.

(** ** Sublists *)

Fixpoint sublists {A} (l : list A) : list (list A) :=
  match l with [] => [[]] | x :: l' => sublists l' ++ map (cons x) (sublists l') end.

Lemma filter_sublists {A} (P : A -> Prop) `{forall x, Decision (P x)} l : filter P l ∈ sublists l.
Proof.
  induction l as [|x l IH]; [left|]. rewrite filter_cons. simpl. apply elem_of_app. case_decide; [right|left; exact IH].
  apply list_elem_of_fmap. eauto.
Qed.

Section automaton.
Context (c : compiler) (Hc : compiler_wf c) (Hf : fits c).
Local Abbreviation t := (nullableFirst c).

Definition canonical (items : list item) : Prop := exists seed, (forall it, it ∈ seed -> item_ok c it) /\ items = closure c t seed.

Lemma canonical_ok items it : canonical items -> it ∈ items -> item_ok c it.
Proof using Hc. intros (seed & Hs & ->) H%(closure_spec c Hc seed Hs). exact (in_closure_ok c Hc seed it Hs H). Qed.

Lemma canonical_closed items it it' : canonical items -> it ∈ items -> it' ∈ item_adds c t it -> it' ∈ items.
Proof using Hc.
  intros (seed & Hs & ->) H%(closure_spec c Hc seed Hs) H'. apply (closure_spec c Hc seed Hs). eapply in_adds; eauto.
Qed.

Lemma item_ok_fits it : item_ok c it -> item_fits it.
Proof using Hf.
  intros (H1 & H2 & H3). pose proof (fit_syms _ Hf). pose proof (fit_prods _ Hf). split; [lia|]. split; [|lia].
  destruct (lookup_lt_is_Some_2 _ _ H1) as [p Hp]. rewrite (c_prod_lookup c _ _ Hp) in H2.
  pose proof (fit_rhs _ Hf p (list_elem_of_lookup_2 _ _ _ Hp)). lia.
Qed.

Lemma pack_canonical l k : canonical l -> canonical k -> pack l = pack k -> l = k.
Proof using Hc Hf.
  intros Hl Hk H. apply pack_inj; [| |exact H]; apply Forall_forall; intros it Hit; apply item_ok_fits.
  - exact (canonical_ok _ _ Hl Hit).
  - exact (canonical_ok _ _ Hk Hit).
Qed.

Lemma moved_ok items s it : canonical items -> it ∈ moved c items s -> item_ok c it.
Proof using Hc.
  intros Hi (it0 & H & Hs & ->)%elem_of_moved. destruct (canonical_ok _ _ Hi H) as (H1 & H2 & H3). unfold item_ok. simpl.
  split; [exact H1|]. split; [|exact H3]. unfold after_dot in Hs. apply lookup_lt_Some in Hs. lia.
Qed.

Lemma moved_canonical items s : canonical items -> canonical (closure c t (moved c items s)).
Proof using Hc. intros H. eexists. split; [|reflexivity]. intros it. exact (moved_ok _ _ _ H). Qed.

(** ** States *)

Record states_ok (a : automaton) : Prop := {
  so_edge : length (a_edge a) = length (a_states a);
  so_nodup : NoDup (a_states a);
  so_canonical items : items ∈ a_states a -> canonical items;
  so_index k id : a_index a !! k = Some id -> exists items, a_states a !! id = Some items /\ pack items = k;
  so_indexed id items : a_states a !! id = Some items -> a_index a !! pack items = Some id }.

Lemma intern_spec items a : states_ok a -> canonical items ->
  let '(id, a') := intern items a in
  states_ok a' /\ a_states a' !! id = Some items /\ a_states a `prefix_of` a_states a' /\ a_edge a `prefix_of` a_edge a' /\
  (forall q e, a_edge a' !! q = Some e -> a_edge a !! q = Some e \/ (length (a_edge a) <= q /\ e = ∅)).
Proof using Hc Hf.
  intros Ha Hi. unfold intern. destruct (a_index a !! pack items) as [id|] eqn:E.
  - destruct (so_index _ Ha _ _ E) as (items' & Hid & Hp).
    apply pack_canonical in Hp; [|exact (so_canonical _ Ha _ (list_elem_of_lookup_2 _ _ _ Hid))|exact Hi]. subst items'.
    split; [exact Ha|]. split; [exact Hid|]. split; [reflexivity|]. split; [reflexivity|]. auto.
  - assert (Hnew : items ∉ a_states a). { intros [id Hid]%list_elem_of_lookup. rewrite (so_indexed _ Ha _ _ Hid) in E. discriminate. }
    split; [split; simpl|].
    + rewrite !length_app, (so_edge _ Ha). reflexivity.
    + apply NoDup_app. split; [apply (so_nodup _ Ha)|]. split; [|apply NoDup_singleton]. intros x Hx ->%list_elem_of_singleton. contradiction.
    + intros x [Hx| ->%list_elem_of_singleton]%elem_of_app; [exact (so_canonical _ Ha _ Hx)|exact Hi].
    + intros k id [[<- <-]|[Hne Hk]]%lookup_insert_Some.
      * exists items. split; [|reflexivity]. rewrite lookup_app_r by lia. rewrite Nat.sub_diag. reflexivity.
      * destruct (so_index _ Ha _ _ Hk) as (x & Hx & Hpx). exists x. split; [apply lookup_app_l_Some, Hx|exact Hpx].
    + intros id x [Hx|[Hlen Hx]]%lookup_app_Some.
      * rewrite lookup_insert_ne; [exact (so_indexed _ Ha _ _ Hx)|]. intros Hp.
        apply Hnew. replace items with x; [exact (list_elem_of_lookup_2 _ _ _ Hx)|]. symmetry. apply pack_canonical; [exact Hi| |exact Hp].
        exact (so_canonical _ Ha _ (list_elem_of_lookup_2 _ _ _ Hx)).
      * destruct (id - length (a_states a)) eqn:Ed; simplify_eq/=. rewrite lookup_insert_eq. f_equal. lia.
    + simpl. split; [rewrite lookup_app_r by lia; rewrite Nat.sub_diag; reflexivity|]. split; [eexists; reflexivity|]. split; [eexists; reflexivity|].
      intros q e [H|[Hlen H]]%lookup_app_Some; [auto|]. right. split; [lia|]. destruct (q - length (a_edge a)); simplify_eq/=. reflexivity.
Qed.

(** ** Edges *)

Definition goto (a : automaton) (q s : nat) : option nat := a_edge a !! q ≫= fun e => e !! s.

(** The edges of state [q] over the symbols [done]. *)
Definition edges_ok (a : automaton) (q : nat) (items : list item) (done : list nat) : Prop :=
  forall s, match goto a q s with
            | Some dest => s ∈ done /\ a_states a !! dest = Some (closure c t (moved c items s))
            | None => s ∉ done
            end.

Lemma add_edge_spec a si items s done : states_ok a -> a_states a !! si = Some items -> edges_ok a si items done ->
  let a' := add_edge c t si items a s in
  states_ok a' /\ a_states a `prefix_of` a_states a' /\ edges_ok a' si items (done ++ [s]) /\
  (forall q, q <> si -> forall s', goto a' q s' = goto a q s').
Proof using Hc Hf.
  intros Ha Hsi He. unfold add_edge. pose proof (so_canonical _ Ha _ (list_elem_of_lookup_2 _ _ _ Hsi)) as Hcan.
  pose proof (intern_spec (closure c t (moved c items s)) a Ha (moved_canonical _ _ Hcan)) as K.
  destruct (intern (closure c t (moved c items s)) a) as [dest a']. destruct K as (Ha' & Hdest & Hpre & Hpree & Hnew). simpl.
  assert (Hlt : si < length (a_edge a)). { rewrite (so_edge _ Ha). exact (lookup_lt_Some _ _ _ Hsi). }
  assert (Hgoto : forall q s', goto a' q s' = goto a q s').
  { intros q s'. unfold goto. destruct (a_edge a !! q) as [e|] eqn:E.
    - rewrite (prefix_lookup_Some _ _ _ _ E Hpree). reflexivity.
    - destruct (a_edge a' !! q) as [e|] eqn:E'; [|reflexivity]. destruct (Hnew _ _ E') as [|[_ ->]]; [congruence|]. apply lookup_empty. }
  split; [split; simpl; try apply Ha'|split; [exact Hpre|split]].
  - rewrite length_alter. apply (so_edge _ Ha').
  - intros s'. unfold goto. simpl. destruct (lookup_lt_is_Some_2 _ _ Hlt) as [e Hei].
    pose proof (prefix_lookup_Some _ _ _ _ Hei Hpree) as Hei'. rewrite list_lookup_alter_eq, Hei'. simpl.
    destruct (decide (s' = s)) as [->|Hne].
    + rewrite lookup_insert_eq. split; [set_solver|exact Hdest].
    + rewrite lookup_insert_ne by congruence. specialize (He s'). unfold goto in He. rewrite Hei in He. simpl in He.
      destruct (e !! s') as [d|]; [|set_solver]. destruct He as [H1 H2]. split; [set_solver|]. exact (prefix_lookup_Some _ _ _ _ H2 Hpre).
  - intros q Hq s'. rewrite <- Hgoto. unfold goto. simpl. rewrite list_lookup_alter_ne by congruence. reflexivity.
Qed.

Lemma add_edges_spec syms : forall a si items done, states_ok a -> a_states a !! si = Some items -> edges_ok a si items done ->
  let a' := foldl (add_edge c t si items) a syms in
  states_ok a' /\ a_states a `prefix_of` a_states a' /\ edges_ok a' si items (done ++ syms) /\
  (forall q, q <> si -> forall s', goto a' q s' = goto a q s').
Proof using Hc Hf.
  induction syms as [|s syms IH]; intros a si items done Ha Hsi He; cbn [foldl].
  - rewrite app_nil_r. auto.
  - destruct (add_edge_spec a si items s done Ha Hsi He) as (Ha1 & Hp1 & He1 & Hg1).
    destruct (IH _ si items _ Ha1 (prefix_lookup_Some _ _ _ _ Hsi Hp1) He1) as (Ha2 & Hp2 & He2 & Hg2).
    split; [exact Ha2|]. split; [etransitivity; eauto|]. split; [rewrite <- (assoc_L (++)) in He2; exact He2|].
    intros q Hq s'. rewrite Hg2, Hg1 by exact Hq. reflexivity.
Qed.

(** The states before [si] have their edges, the others none. *)
Record built (si : nat) (a : automaton) : Prop := {
  bu_ok : states_ok a;
  bu_first : a_states a !! 0 = Some (closure c t [startItem]);
  bu_done q items : q < si -> a_states a !! q = Some items -> edges_ok a q items (next_syms c items);
  bu_todo q s : si <= q -> goto a q s = None }.

Lemma edges_ok_prefix a a' q items done : edges_ok a q items done -> a_states a `prefix_of` a_states a' ->
  (forall s, goto a' q s = goto a q s) -> edges_ok a' q items done.
Proof.
  intros H Hp Hg s. specialize (H s). rewrite Hg. destruct (goto a q s); [|exact H]. destruct H as [H1 H2].
  split; [exact H1|]. exact (prefix_lookup_Some _ _ _ _ H2 Hp).
Qed.

Lemma built_step si a items : built si a -> a_states a !! si = Some items ->
  built (S si) (foldl (add_edge c t si items) a (next_syms c items)).
Proof using Hc Hf.
  intros Hb Hsi. assert (He : edges_ok a si items []). { intros s. rewrite (bu_todo _ _ Hb) by lia. apply not_elem_of_nil. }
  destruct (add_edges_spec (next_syms c items) a si items [] (bu_ok _ _ Hb) Hsi He) as (Ha & Hp & Hes & Hg).
  split; [exact Ha|exact (prefix_lookup_Some _ _ _ _ (bu_first _ _ Hb) Hp)| |].
  - intros q x Hq Hx. destruct (decide (q = si)) as [->|Hne].
    + pose proof (prefix_lookup_Some _ _ _ _ Hsi Hp). simplify_eq. exact Hes.
    + destruct (a_states a !! q) as [y|] eqn:E; [|apply lookup_ge_None in E; apply lookup_lt_Some in Hsi; lia].
      pose proof (prefix_lookup_Some _ _ _ _ E Hp). simplify_eq.
      exact (edges_ok_prefix _ _ _ _ _ (bu_done _ _ Hb q x ltac:(lia) E) Hp (Hg q Hne)).
  - intros q s Hq. rewrite Hg by lia. apply (bu_todo _ _ Hb). lia.
Qed.

Context (Hstart : item_ok c startItem).

Lemma startItem_ok it : it ∈ [startItem] -> item_ok c it.
Proof using Hstart. intros ->%list_elem_of_singleton. exact Hstart. Qed.

Lemma built_start : built 0 (snd (intern (closure c t [startItem]) (mkAutomaton [] ∅ []))).
Proof using Hc Hf Hstart.
  assert (H0 : states_ok (mkAutomaton [] ∅ [])). { split; simpl; [reflexivity|constructor|set_solver|intros ? ?; rewrite lookup_empty; discriminate|intros ? ?; rewrite lookup_nil; discriminate]. }
  assert (Hcan : canonical (closure c t [startItem])). { eexists. split; [|reflexivity]. exact startItem_ok. }
  pose proof (intern_spec _ _ H0 Hcan) as K. set (items := closure c t [startItem]) in *.
  assert (E : intern items (mkAutomaton [] ∅ []) = (0, mkAutomaton [items] (<[pack items := 0]> ∅) [∅])).
  { unfold intern. cbn [a_index]. rewrite lookup_empty. reflexivity. }
  rewrite E in *. destruct K as (Ha & H1 & _). split; [exact Ha|exact H1|intros q x Hq; lia|].
  intros [|q] s _; [exact (lookup_empty s)|reflexivity].
Qed.

(** ** Termination *)

Definition universe : list item := sortItems (elements (list_to_set (C := gset item) (all_items c))).

Lemma strongly_sorted_filter {A} (R : A -> A -> Prop) (P : A -> Prop) `{forall x, Decision (P x)} l : StronglySorted R l -> StronglySorted R (filter P l).
Proof.
  induction 1 as [|x l Hs IH Hx]; [constructor|]. rewrite filter_cons. case_decide; [|exact IH]. constructor; [exact IH|].
  rewrite Forall_forall in *. intros y [_ Hy]%list_elem_of_filter. apply Hx, Hy.
Qed.

Lemma canonical_sublist items : canonical items -> items ∈ sublists universe.
Proof using Hc.
  intros Hcan. pose proof Hcan as (seed & Hs & E). destruct (closure_spec c Hc seed Hs) as (_ & Hn & Hsort). rewrite <- E in Hn, Hsort.
  replace items with (filter (fun it => it ∈ items) universe); [apply filter_sublists|].
  apply sorted_items_eq; [apply strongly_sorted_filter, sortItems_sorted|exact Hsort| |exact Hn|].
  - apply NoDup_filter. unfold universe. rewrite sortItems_perm. apply NoDup_elements.
  - intros it. rewrite list_elem_of_filter. unfold universe. rewrite sortItems_perm, elem_of_elements, elem_of_list_to_set.
    split; [intros [H _]; exact H|]. intros H. split; [exact H|]. apply elem_of_all_items, (canonical_ok _ _ Hcan H).
Qed.

Lemma states_bound a : states_ok a -> length (a_states a) <= length (sublists universe).
Proof using Hc.
  intros Ha. apply submseteq_length, NoDup_submseteq; [apply (so_nodup _ Ha)|]. intros x Hx. apply canonical_sublist, (so_canonical _ Ha _ Hx).
Qed.

(** Every state has its edges. *)
Definition complete (a : automaton) : Prop := built (length (a_states a)) a.

Lemma state_loop_spec fuel : forall si a, built si a -> si <= length (a_states a) -> length (sublists universe) < fuel + si ->
  exists a', state_loop fuel c t si a = Some a' /\ complete a'.
Proof using Hc Hf.
  induction fuel as [|f IH]; intros si a Hb Hle Hf'.
  - pose proof (states_bound a (bu_ok _ _ Hb)). lia.
  - cbn [state_loop]. destruct (a_states a !! si) as [items|] eqn:E.
    + assert (He : edges_ok a si items []). { intros s. rewrite (bu_todo _ _ Hb) by lia. apply not_elem_of_nil. }
      destruct (add_edges_spec (next_syms c items) a si items [] (bu_ok _ _ Hb) E He) as (_ & Hp & _).
      apply prefix_length in Hp. apply lookup_lt_Some in E as Hlt. apply IH; [exact (built_step _ _ _ Hb E)|lia|lia].
    + exists a. split; [reflexivity|]. apply lookup_ge_None in E. unfold complete. replace (length (a_states a)) with si by lia. exact Hb.
Qed.

Lemma state_loop_mono fuel : forall si a a', state_loop fuel c t si a = Some a' -> forall fuel', fuel <= fuel' -> state_loop fuel' c t si a = Some a'.
Proof.
  induction fuel as [|f IH]; intros si a a' H [|f'] Hle; [discriminate|discriminate|lia|]. cbn [state_loop] in *.
  destruct (a_states a !! si); [|exact H]. apply (IH _ _ _ H). lia.
Qed.

(** The loop over the states ends, whatever the grammar. *)
Lemma build_states_gives : exists a, gives (fun fuel => build_states fuel c t) a /\ complete a.
Proof using Hc Hf Hstart.
  destruct (state_loop_spec (S (length (sublists universe))) 0 _ built_start ltac:(lia) ltac:(lia)) as (a & Ha & Hcomp).
  exists a. split; [|exact Hcomp]. exists (S (length (sublists universe))). intros fuel Hle. exact (state_loop_mono _ _ _ _ Ha _ Hle).
Qed.

Lemma build_states_complete fuel a : build_states fuel c t = Some a -> complete a.
Proof using Hc Hf Hstart.
  intros H. destruct build_states_gives as (a' & [F HF] & Hcomp).
  assert (a = a') as ->; [|exact Hcomp]. specialize (HF (fuel + F) ltac:(lia)). unfold build_states in *.
  rewrite (state_loop_mono _ _ _ _ H (fuel + F) ltac:(lia)) in HF. congruence.
Qed.

(** ** The automaton *)

Definition state_items (a : automaton) (q : nat) : list item := default [] (a_states a !! q).

Section complete.
Context (a : automaton) (Ha : complete a).

Lemma state_items_lookup q it : it ∈ state_items a q -> exists items, a_states a !! q = Some items /\ it ∈ items.
Proof. unfold state_items. destruct (a_states a !! q); simpl; [eauto|intros []%not_elem_of_nil]. Qed.

Lemma state_item_ok q it : it ∈ state_items a q -> item_ok c it.
Proof using Ha Hc.
  intros (items & Hq & Hit)%state_items_lookup. exact (canonical_ok _ _ (so_canonical _ (bu_ok _ _ Ha) _ (list_elem_of_lookup_2 _ _ _ Hq)) Hit).
Qed.

(** A state is closed. *)
Lemma state_closed q it it' : it ∈ state_items a q -> it' ∈ item_adds c t it -> it' ∈ state_items a q.
Proof using Ha Hc.
  intros (items & Hq & Hit)%state_items_lookup H. unfold state_items. rewrite Hq. simpl.
  exact (canonical_closed _ _ _ (so_canonical _ (bu_ok _ _ Ha) _ (list_elem_of_lookup_2 _ _ _ Hq)) Hit H).
Qed.

Lemma start_in : startItem ∈ state_items a 0.
Proof using Ha Hc Hstart.
  unfold state_items. rewrite (bu_first _ _ Ha). apply (closure_spec c Hc _ startItem_ok). apply in_seed. left.
Qed.

Lemma goto_lookup q s q' : goto a q s = Some q' -> exists items, a_states a !! q = Some items /\ s ∈ next_syms c items /\
  a_states a !! q' = Some (closure c t (moved c items s)).
Proof using Ha.
  intros H. assert (Hq : q < length (a_states a)).
  { rewrite <- (so_edge _ (bu_ok _ _ Ha)). unfold goto in H. destruct (a_edge a !! q) eqn:E; [exact (lookup_lt_Some _ _ _ E)|discriminate]. }
  destruct (lookup_lt_is_Some_2 _ _ Hq) as [items Hi]. exists items. split; [exact Hi|].
  pose proof (bu_done _ _ Ha q items Hq Hi s) as K. rewrite H in K. exact K.
Qed.

(** The dot of an item moves along an edge. *)
Lemma goto_forward q it s : it ∈ state_items a q -> after_dot c it = Some s ->
  exists q', goto a q s = Some q' /\ mkItem (i_prod it) (S (i_dot it)) (i_look it) ∈ state_items a q'.
Proof using Ha Hc.
  intros (items & Hq & Hit)%state_items_lookup Hs. pose proof (lookup_lt_Some _ _ _ Hq) as Hlt.
  pose proof (bu_done _ _ Ha q items Hlt Hq s) as K.
  assert (Hin : s ∈ next_syms c items). { apply elem_of_addMany. right. apply list_elem_of_omap. eauto. }
  destruct (goto a q s) as [q'|]; [|contradiction]. destruct K as [_ Hq']. exists q'. split; [reflexivity|].
  unfold state_items. rewrite Hq'. simpl. pose proof (so_canonical _ (bu_ok _ _ Ha) _ (list_elem_of_lookup_2 _ _ _ Hq)) as Hcan.
  apply (closure_spec c Hc _ (fun it => moved_ok items s it Hcan)). apply in_seed, elem_of_moved. eauto.
Qed.

Lemma in_closure_dot seed it : in_closure c seed it -> i_dot it = 0 \/ it ∈ seed.
Proof using Hc. induction 1 as [it H|it it' _ _ H]; [auto|]. apply (elem_of_item_adds c) in H. left. destruct H as (? & ? & ? & ? & ? & ? & ? & ? & ? & ?). assumption. Qed.

(** An item whose dot moved comes from each state before. *)
Lemma goto_backward q s q' i d look : goto a q s = Some q' -> mkItem i (S d) look ∈ state_items a q' ->
  mkItem i d look ∈ state_items a q /\ p_rhs (c_prod c i) !! d = Some s.
Proof using Ha Hc.
  intros Hg Hit. destruct (goto_lookup _ _ _ Hg) as (items & Hq & _ & Hq'). unfold state_items in *. rewrite Hq, Hq' in *. simpl in *.
  pose proof (so_canonical _ (bu_ok _ _ Ha) _ (list_elem_of_lookup_2 _ _ _ Hq)) as Hcan.
  apply (closure_spec c Hc _ (fun it => moved_ok items s it Hcan)) in Hit. apply in_closure_dot in Hit as [?|Hit]; [discriminate|].
  apply elem_of_moved in Hit as ([i' d' l'] & Hin & Hs & [= -> -> ->]). auto.
Qed.

(** No edge goes to the start state, whose items have not moved. *)
Lemma start_dots it : it ∈ state_items a 0 -> i_dot it = 0.
Proof using Ha Hc Hstart.
  unfold state_items. rewrite (bu_first _ _ Ha). simpl. intros H%(closure_spec c Hc _ startItem_ok).
  apply in_closure_dot in H as [|H]; [assumption|]. apply list_elem_of_singleton in H as ->. reflexivity.
Qed.

Lemma goto_not_start q s : goto a q s <> Some 0.
Proof using Ha Hc Hstart.
  intros H. destruct (goto_lookup _ _ _ H) as (items & Hq & Hs & Hq'). apply elem_of_addMany in Hs as [[]%not_elem_of_nil|Hs].
  apply list_elem_of_omap in Hs as (it & Hit & Hs). pose proof (so_canonical _ (bu_ok _ _ Ha) _ (list_elem_of_lookup_2 _ _ _ Hq)) as Hcan.
  assert (K : mkItem (i_prod it) (S (i_dot it)) (i_look it) ∈ state_items a 0).
  { unfold state_items. rewrite Hq'. apply (closure_spec c Hc _ (fun it => moved_ok items s it Hcan)). apply in_seed, elem_of_moved. eauto. }
  apply start_dots in K. discriminate.
Qed.
End complete.
End automaton.
