(* ===== verification/Language.v ===== *)
(** * Tables

    What the cells of the tables of x/parse/compile.go hold: actions of items of
    the state, all of them but those that a declared precedence drops, and
    accept alone where the input may end. *)
From Stdlib Require Import ZArith Lia.
From stdpp Require Import base numbers option list strings gmap relations sorting.
From S2P Require Import Prelude Grammars Compile Lexer Derive Firsts Automaton.

Local Open Scope nat_scope.

(** ** Keys *)

Lemma cellKey_high q s : (Z.of_nat s < 65536)%Z -> N.shiftr (cellKey q s) 16 = N.of_nat q.
Proof.
  intros Hs. assert (H : N.shiftr (N.of_nat s) 16 = 0%N) by (rewrite N.shiftr_div_pow2; apply N.div_small; change (2 ^ 16)%N with 65536%N; lia).
  unfold cellKey. rewrite N.shiftr_lor, N.shiftr_shiftl_l by lia. rewrite H, N.sub_diag, N.shiftl_0_r, N.lor_0_r. reflexivity.
Qed.

Lemma cellKey_low q s : (Z.of_nat s < 65536)%Z -> N.land (cellKey q s) (N.ones 16) = N.of_nat s.
Proof.
  intros Hs. unfold cellKey. rewrite N.land_lor_distr_l, !N.land_ones. rewrite N.shiftl_mul_pow2.
  rewrite N.Div0.mod_mul, N.lor_0_l. apply N.mod_small. change (2 ^ 16)%N with 65536%N. lia.
Qed.

Lemma cellKey_inj q s q' s' : (Z.of_nat s < 65536)%Z -> (Z.of_nat s' < 65536)%Z -> cellKey q s = cellKey q' s' -> q = q' /\ s = s'.
Proof.
  intros Hs Hs' H. pose proof (cellKey_high q s Hs) as H1. pose proof (cellKey_low q s Hs) as H2.
  rewrite H, (cellKey_high q' s' Hs') in H1. rewrite H, (cellKey_low q' s' Hs') in H2. lia.
Qed.

(** ** Conflicts *)

(** The kind of each action is one of three, and accept has no value. *)
Definition raw_wf (a : rawAct) : Prop :=
  ac_kind (ra_act a) = actShift \/ ac_kind (ra_act a) = actReduce \/ ra_act a = mkAction actAccept 0.
(** The shifts of a cell go to one state. *)
Definition shifts_agree (l : list rawAct) : Prop :=
  forall a b, a ∈ l -> b ∈ l -> ac_kind (ra_act a) = actShift -> ac_kind (ra_act b) = actShift -> ra_act a = ra_act b.

Lemma elem_of_dedup l a : a ∈ dedupReduce l -> a ∈ l.
Proof.
  unfold dedupReduce. generalize (@nil nat). induction l as [|x l IH]; intros seen; simpl; [auto|].
  case_bool_decide; [intros Ha%IH; right; exact Ha|]. intros [->|Ha%IH]%elem_of_cons; [left|right; exact Ha].
Qed.

Lemma dedup_keeps l a : a ∈ l -> exists b, b ∈ dedupReduce l /\ ac_val (ra_act b) = ac_val (ra_act a).
Proof.
  unfold dedupReduce. intros H. cut (ac_val (ra_act a) ∈ (@nil nat) \/ exists b, b ∈ dedup_seen [] l /\ ac_val (ra_act b) = ac_val (ra_act a)).
  { intros [[]%not_elem_of_nil|H']; exact H'. }
  revert H. generalize (@nil nat). induction l as [|x l IH]; intros seen; simpl; [intros []%not_elem_of_nil|].
  intros [->|H]%elem_of_cons.
  - case_bool_decide as E; [left; exact E|]. right. exists x. split; [left|reflexivity].
  - case_bool_decide as E.
    + exact (IH seen H).
    + destruct (IH (ac_val (ra_act x) :: seen) H) as [[Hx|Hx]%elem_of_cons|(b & Hb & Hv)]; [right; exists x; split; [left|congruence]|left; exact Hx|].
      right. exists b. split; [right; exact Hb|exact Hv].
Qed.

Lemma dedup_nil l : dedupReduce l = [] -> l = [].
Proof. destruct l as [|a l]; [reflexivity|]. discriminate. Qed.

Lemma merge_shift_act l : forall s amb, (forall a, a ∈ s :: l -> ac_kind (ra_act a) = actShift) -> shifts_agree (s :: l) ->
  ra_act (fst (foldl merge_shift (s, amb) l)) = ra_act s /\
  ((forall a, a ∈ s :: l -> ra_has a = false) -> ra_has (fst (foldl merge_shift (s, amb) l)) = false).
Proof.
  induction l as [|a l IH]; intros s amb Hk Ha; cbn [foldl]; [split; [reflexivity|]; intros H; apply H; left|].
  assert (E : ra_act a = ra_act s). { apply Ha; [right; left|left|apply Hk; right; left|apply Hk; left]. }
  set (st := merge_shift (s, amb) a). assert (Est : ra_act (fst st) = ra_act s /\ ((forall x, x ∈ s :: a :: l -> ra_has x = false) -> ra_has (fst st) = false)).
  { unfold st, merge_shift. simpl. rewrite E.
    split; [destruct (ra_has a && negb (ra_has s)); simpl; destruct (ra_act s); reflexivity|].
    intros H. rewrite (H a) by (right; left). simpl. apply H. left. }
  destruct st as [s' amb']. simpl in Est. destruct Est as [E1 E2]. destruct (IH s' amb') as [H1 H2].
  - intros x [->|Hx]%elem_of_cons; [rewrite E1; apply Hk; left|apply Hk; right; right; exact Hx].
  - assert (HS : forall x, x ∈ s' :: l -> ra_act x = ra_act s \/ (x ∈ l)). { intros x [->|Hx]%elem_of_cons; auto. }
    intros x y Hx Hy Kx Ky. transitivity (ra_act s); [|symmetry].
    + destruct (HS x Hx) as [|Hx']; [assumption|]. apply Ha; [right; right; exact Hx'|left|exact Kx|apply Hk; left].
    + destruct (HS y Hy) as [|Hy']; [assumption|]. apply Ha; [right; right; exact Hy'|left|exact Ky|apply Hk; left].
  - rewrite H1. split; [exact E1|]. intros H. apply H2. intros x [->|Hx]%elem_of_cons; [apply E2, H|apply H; right; right; exact Hx].
Qed.

Lemma mergeShifts_spec l : (forall a, a ∈ l -> ac_kind (ra_act a) = actShift) -> shifts_agree l ->
  match mergeShifts l with
  | None => l = []
  | Some s => exists a, a ∈ l /\ ra_act s = ra_act a /\ ((forall a, a ∈ l -> ra_has a = false) -> ra_has s = false)
  end.
Proof.
  intros Hk Ha. destruct l as [|s l]; [reflexivity|]. unfold mergeShifts.
  destruct (merge_shift_act l s false Hk Ha) as [H1 H2]. destruct (foldl merge_shift (s, false) l) as [s' amb]. simpl in *.
  exists s. split; [left|]. destruct amb; simpl; auto.
Qed.

Lemma existsb_elem {A} (f : A -> bool) l : existsb f l = true <-> exists x, x ∈ l /\ f x = true.
Proof.
  rewrite existsb_exists. split; intros (x & Hx & Hf); exists x; (split; [|exact Hf]); apply list_elem_of_In; exact Hx.
Qed.

Lemma elem_of_kind k (l : list rawAct) a : a ∈ filter (fun a => Is_true (is_kind k a)) l <-> a ∈ l /\ ac_kind (ra_act a) = k.
Proof. rewrite list_elem_of_filter, Is_true_true. unfold is_kind. rewrite Nat.eqb_eq. tauto. Qed.

Lemma resolve_conflict_cases shift reds : reds <> [] ->
  (forall r, r ∈ resolve_conflict shift reds -> r = shift \/ r ∈ reds) /\ resolve_conflict shift reds <> [] /\
  (forall r, r ∈ reds -> (exists r', r' ∈ resolve_conflict shift reds /\ ac_val (ra_act r') = ac_val (ra_act r) /\ r' ∈ reds) \/ resolvePair shift r = (true, false)) /\
  (shift ∈ resolve_conflict shift reds \/ forall r, r ∈ reds -> resolvePair shift r = (false, true)).
Proof.
  intros Hne. unfold resolve_conflict. destruct (existsb _ reds) eqn:Eu.
  - split; [intros r [->|H%elem_of_dedup]%elem_of_cons; auto|]. split; [discriminate|]. split; [|left; left].
    intros r Hr. left. destruct (dedup_keeps _ _ Hr) as (b & Hb & Hv). exists b. split; [right; exact Hb|]. split; [exact Hv|apply elem_of_dedup, Hb].
  - assert (Hdec : forall r, r ∈ reds -> resolvePair shift r = (true, false) \/ resolvePair shift r = (false, true)).
    { intros r Hr. destruct (resolvePair shift r) as [[] []] eqn:E; auto; exfalso.
      - assert (K : existsb (fun r => fst (resolvePair shift r) && snd (resolvePair shift r)) reds = true) by (apply existsb_elem; exists r; rewrite E; auto). congruence.
      - unfold resolvePair in E. destruct (negb (ra_has shift) && negb (ra_has r)); [discriminate|].
        destruct (_ <? _)%Z; [discriminate|]. destruct (_ <? _)%Z; [discriminate|]. destruct (ra_assoc r); discriminate. }
    set (keepRed := filter (fun r => Is_true (snd (resolvePair shift r))) reds).
    assert (Hkeep : forall r, r ∈ keepRed <-> r ∈ reds /\ resolvePair shift r = (false, true)).
    { intros r. unfold keepRed. rewrite list_elem_of_filter, Is_true_true. split.
      - intros [H Hr]. split; [exact Hr|]. destruct (Hdec r Hr) as [E|E]; rewrite E in *; [discriminate|reflexivity].
      - intros [Hr E]. rewrite E. auto. }
    set (keepShift := existsb (fun r => fst (resolvePair shift r)) reds).
    assert (Hs : keepShift = true <-> exists r, r ∈ reds /\ resolvePair shift r = (true, false)).
    { unfold keepShift. rewrite existsb_elem. split; intros (r & Hr & E); exists r; (split; [exact Hr|]); [|rewrite E; reflexivity].
      destruct (Hdec r Hr) as [E'|E']; [exact E'|]. rewrite E' in E. discriminate. }
    destruct ((if keepShift then [shift] else []) ++ dedupReduce keepRed) as [|x out] eqn:Eout.
    { exfalso. apply app_eq_nil in Eout as [E1 E2]. destruct keepShift eqn:Eks; [discriminate|]. apply dedup_nil in E2.
      destruct reds as [|r reds]; [congruence|]. destruct (Hdec r ltac:(left)) as [E|E].
      - assert (F : false = true) by (apply Hs; exists r; split; [left|exact E]). discriminate.
      - assert (H : r ∈ keepRed) by (apply Hkeep; split; [left|exact E]). rewrite E2 in H. apply not_elem_of_nil in H. exact H. }
    rewrite <- Eout. split; [|split; [rewrite Eout; discriminate|split]].
    + intros r [H|H%elem_of_dedup]%elem_of_app; [destruct keepShift; [apply list_elem_of_singleton in H; auto|apply not_elem_of_nil in H as []]|].
      right. apply Hkeep, H.
    + intros r Hr. destruct (Hdec r Hr) as [E|E]; [right; exact E|left]. destruct (dedup_keeps keepRed r) as (b & Hb & Hv); [apply Hkeep; auto|].
      exists b. split; [apply elem_of_app; right; exact Hb|]. split; [exact Hv|]. apply Hkeep, elem_of_dedup, Hb.
    + destruct keepShift eqn:Eks; [left; left|right]. intros r Hr. destruct (Hdec r Hr) as [E|E]; [|exact E].
      assert (F : false = true) by (apply Hs; eauto). discriminate.
Qed.

Section cell.
Context (l : list rawAct) (Hwf : forall a, a ∈ l -> raw_wf a) (Hagree : shifts_agree l).

Local Abbreviation shifts := (filter (fun a => Is_true (is_kind actShift a)) l).
Local Abbreviation reds := (filter (fun a => Is_true (is_kind actReduce a)) l).

Lemma shifts_spec : match mergeShifts shifts with
  | None => shifts = []
  | Some s => exists a, a ∈ l /\ ac_kind (ra_act a) = actShift /\ ra_act s = ra_act a /\ ((forall a, a ∈ l -> ra_has a = false) -> ra_has s = false)
  end.
Proof using Hagree.
  pose proof (mergeShifts_spec shifts) as K. destruct (mergeShifts shifts) as [s|].
  - destruct K as (a & Ha & Hs & Hh).
    + intros a Ha%elem_of_kind. apply Ha.
    + intros a b Ha%elem_of_kind Hb%elem_of_kind. apply Hagree; tauto.
    + apply elem_of_kind in Ha as [Ha Hk]. exists a. split; [exact Ha|]. split; [exact Hk|]. split; [exact Hs|]. intros H. apply Hh. intros x Hx%elem_of_kind. apply H, Hx.
  - apply K; [intros a Ha%elem_of_kind; apply Ha|]. intros a b Ha%elem_of_kind Hb%elem_of_kind. apply Hagree; tauto.
Qed.

(** A resolved cell holds actions of the cell. *)
Lemma cell_sound x : x ∈ map ra_act (resolveCell l) -> x ∈ map ra_act l.
Proof using Hwf Hagree.
  intros (r & -> & Hr)%list_elem_of_fmap. unfold resolveCell in Hr. pose proof shifts_spec as Hs.
  destruct (existsb (is_kind actAccept) l) eqn:Ea.
  - apply list_elem_of_singleton in Hr as ->. apply existsb_elem in Ea as (a & Ha & Hk). apply Nat.eqb_eq in Hk.
    apply list_elem_of_fmap. exists a. split; [|exact Ha]. destruct (Hwf a Ha) as [H|[H|H]]; [rewrite Hk in H; discriminate|rewrite Hk in H; discriminate|]. symmetry. exact H.
  - assert (Hred : forall r, r ∈ reds -> ra_act r ∈ map ra_act l). { intros x Hx%elem_of_kind. apply list_elem_of_fmap. exists x. tauto. }
    destruct (mergeShifts shifts) as [s|].
    + destruct Hs as (a & Ha & Hk & Hact & _).
      assert (Hsh : ra_act s ∈ map ra_act l). { rewrite Hact. apply list_elem_of_fmap. eauto. }
      destruct reds as [|r0 reds'] eqn:Er; [apply list_elem_of_singleton in Hr as ->; exact Hsh|].
      destruct (resolve_conflict_cases s (r0 :: reds') ltac:(discriminate)) as [H _]. destruct (H _ Hr) as [->|H']; [exact Hsh|exact (Hred _ H')].
    + destruct reds as [|r0 reds'] eqn:Er; [apply not_elem_of_nil in Hr as []|]. apply Hred, elem_of_dedup, Hr.
Qed.

(** A cell with actions keeps one. *)
Lemma cell_nonempty : l <> [] -> resolveCell l <> [].
Proof using Hwf Hagree.
  intros Hl. unfold resolveCell. pose proof shifts_spec as Hs. destruct (existsb (is_kind actAccept) l) eqn:Ea; [discriminate|].
  destruct (mergeShifts shifts) as [s|].
  - destruct reds as [|r0 reds'] eqn:Er; [discriminate|]. apply (resolve_conflict_cases s (r0 :: reds') ltac:(discriminate)).
  - destruct l as [|a l'] eqn:El; [congruence|]. rewrite <- El in *. intros E.
    assert (Ha : a ∈ l) by (rewrite El; left). destruct (Hwf a Ha) as [H|[H|H]].
    + assert (K : a ∈ shifts) by (apply elem_of_kind; auto). rewrite Hs in K. apply not_elem_of_nil in K. exact K.
    + assert (K : a ∈ reds) by (apply elem_of_kind; auto). destruct reds as [|r0 reds']; [apply not_elem_of_nil in K; exact K|].
      apply dedup_nil in E. discriminate.
    + assert (existsb (is_kind actAccept) l = true); [|congruence]. apply existsb_elem. exists a. split; [exact Ha|]. unfold is_kind. rewrite H. reflexivity.
Qed.

(** Accept is the only action of its cell. *)
Lemma cell_accept a : a ∈ l -> ac_kind (ra_act a) = actAccept -> map ra_act (resolveCell l) = [mkAction actAccept 0].
Proof.
  intros Ha Hk. unfold resolveCell. replace (existsb (is_kind actAccept) l) with true; [reflexivity|]. symmetry. apply existsb_elem.
  exists a. split; [exact Ha|]. apply Nat.eqb_eq. exact Hk.
Qed.

(** A reduction is dropped only for accept or for a shift that precedence
    prefers. *)
Lemma cell_reduce a : a ∈ l -> ac_kind (ra_act a) = actReduce -> (forall b, b ∈ l -> ac_kind (ra_act b) <> actAccept) ->
  ra_act a ∈ map ra_act (resolveCell l) \/ exists s, mergeShifts shifts = Some s /\ resolvePair s a = (true, false).
Proof using Hagree.
  intros Ha Hk Hacc. unfold resolveCell. replace (existsb (is_kind actAccept) l) with false.
  2: { symmetry. apply not_true_iff_false. intros (b & Hb & E)%existsb_elem. apply Nat.eqb_eq in E. exact (Hacc b Hb E). }
  assert (Hr : a ∈ reds) by (apply elem_of_kind; auto).
  assert (Heq : forall b, b ∈ reds -> ac_val (ra_act b) = ac_val (ra_act a) -> ra_act b = ra_act a).
  { intros b [_ Hb]%elem_of_kind Hv. destruct (ra_act a), (ra_act b); simpl in *; congruence. }
  pose proof shifts_spec as Hs. destruct (mergeShifts shifts) as [s|].
  - destruct reds as [|r0 reds'] eqn:Er; [apply not_elem_of_nil in Hr as []|]. rewrite <- Er in *.
    destruct (resolve_conflict_cases s reds) as (_ & _ & H & _); [rewrite Er; discriminate|].
    destruct (H a Hr) as [(b & Hb & Hv & Hin)|H']; [left|right; eauto]. apply list_elem_of_fmap. exists b. split; [symmetry; apply Heq; assumption|].
    exact Hb.
  - left. destruct (dedup_keeps _ _ Hr) as (b & Hb & Hv). destruct reds as [|r0 reds'] eqn:Er; [apply not_elem_of_nil in Hr as []|].
    rewrite <- Er in *. apply list_elem_of_fmap. exists b. split; [|exact Hb]. symmetry. apply Heq; [apply elem_of_dedup, Hb|exact Hv].
Qed.

(** A shift is dropped only for accept or for reductions that precedence
    prefers, all of them. *)
Lemma cell_shift a : a ∈ l -> ac_kind (ra_act a) = actShift -> (forall b, b ∈ l -> ac_kind (ra_act b) <> actAccept) ->
  ra_act a ∈ map ra_act (resolveCell l) \/
  exists s, mergeShifts shifts = Some s /\ reds <> [] /\ forall r, r ∈ reds -> resolvePair s r = (false, true).
Proof using Hagree.
  intros Ha Hk Hacc. unfold resolveCell. replace (existsb (is_kind actAccept) l) with false.
  2: { symmetry. apply not_true_iff_false. intros (b & Hb & E)%existsb_elem. apply Nat.eqb_eq in E. exact (Hacc b Hb E). }
  assert (Hin : a ∈ shifts) by (apply elem_of_kind; auto).
  pose proof shifts_spec as Hs. destruct (mergeShifts shifts) as [s|]; [|rewrite Hs in Hin; apply not_elem_of_nil in Hin as []].
  destruct Hs as (a0 & Ha0 & Hk0 & Hact & _). assert (E : ra_act s = ra_act a) by (rewrite Hact; apply Hagree; assumption).
  destruct reds as [|r0 reds'] eqn:Er.
  - left. apply list_elem_of_fmap. exists s. split; [congruence|left].
  - destruct (resolve_conflict_cases s (r0 :: reds') ltac:(discriminate)) as (_ & _ & _ & [H|H]).
    + left. apply list_elem_of_fmap. exists s. split; [congruence|exact H].
    + right. exists s. split; [reflexivity|]. split; [discriminate|exact H].
Qed.
End cell.

(** * The compiled language

    The tables that [language_of] writes, cell by cell, and what the automaton of
    a compiled language promises the parser: the laws [Automaton_laws]. *)

(** ** The raw cells of a state *)

(** The actions that the items ask for on a symbol, in order. *)
Definition raw_list (c : compiler) (edge : gmap nat nat) (items : list item) (s : nat) : list rawAct :=
  omap (fun it => '(s', r) ← raw_of c edge it; if s' =? s then Some r else None) items.

Lemma raw_cells_fold (es : list (nat * rawAct)) : forall raw s,
  foldl add_raw raw es !! s = match omap (fun '(s', r) => if s' =? s then Some r else None) es with
                              | [] => raw !! s
                              | l => Some (default [] (raw !! s) ++ l)
                              end.
Proof.
  induction es as [|[s' r] es IH]; intros raw s; csimpl; [reflexivity|]. rewrite IH. unfold add_raw. csimpl.
  destruct (Nat.eqb_spec s' s) as [->|Hne].
  - rewrite lookup_insert_eq. csimpl. destruct (omap _ es); [reflexivity|]. rewrite <- (assoc_L (++)). reflexivity.
  - rewrite lookup_insert_ne by exact Hne. reflexivity.
Qed.

Lemma raw_cells_lookup c edge items s :
  raw_cells c edge items !! s = match raw_list c edge items s with [] => None | l => Some l end.
Proof.
  unfold raw_cells. rewrite raw_cells_fold, lookup_empty. unfold raw_list.
  assert (E : omap (fun '(s', r) => if s' =? s then Some r else None) (omap (raw_of c edge) items) =
              omap (fun it => '(s', r) ← raw_of c edge it; if s' =? s then Some r else None) items).
  { induction items as [|it items IH]; [reflexivity|]. csimpl. destruct (raw_of c edge it) as [[s' r]|]; csimpl; [|exact IH].
    rewrite IH. destruct (s' =? s); reflexivity. }
  rewrite E. destruct (omap _ items); reflexivity.
Qed.

Lemma elem_of_raw_list c edge items s r : r ∈ raw_list c edge items s <-> exists it, it ∈ items /\ raw_of c edge it = Some (s, r).
Proof.
  unfold raw_list. rewrite list_elem_of_omap. split; intros (it & Hit & H); exists it; (split; [exact Hit|]).
  - destruct (raw_of c edge it) as [[s' r']|]; [|discriminate]. simpl in H. destruct (Nat.eqb_spec s' s); simplify_eq. reflexivity.
  - rewrite H. simpl. rewrite Nat.eqb_refl. reflexivity.
Qed.

(** ** Writing the cells *)

Lemma add_cells_lookup si q s : (Z.of_nat s < 65536)%Z -> forall cells act forks,
  NoDup (map fst cells) -> (forall e, e ∈ cells -> (Z.of_nat (fst e) < 65536)%Z) ->
  fst (foldl (add_cell si) (act, forks) cells) !! cellKey q s =
  match (if decide (q = si) then list_to_map (M := gmap nat _) cells !! s else None) with
  | Some l => match map ra_act (resolveCell l) with [] => act !! cellKey q s | acts => Some acts end
  | None => act !! cellKey q s
  end.
Proof.
  intros Hs. induction cells as [|[s' l] cells IH]; intros act forks Hn Hlt.
  - simpl. destruct (decide (q = si)); [rewrite lookup_empty|]; reflexivity.
  - apply NoDup_cons in Hn as [Hnot Hn]. cbn [foldl].
    assert (Hlt' : forall e, e ∈ cells -> (Z.of_nat (fst e) < 65536)%Z) by (intros e He; apply Hlt; right; exact He).
    assert (Hs' : (Z.of_nat s' < 65536)%Z) by exact (Hlt (s', l) ltac:(left)).
    assert (Est : exists act' forks', add_cell si (act, forks) (s', l) = (act', forks') /\
      act' = match map ra_act (resolveCell l) with [] => act | acts => <[cellKey si s' := acts]> act end).
    { unfold add_cell. simpl. destruct (map ra_act (resolveCell l)); eauto. }
    destruct Est as (act' & forks' & -> & ->). rewrite (IH _ _ Hn Hlt'). simpl list_to_map.
    destruct (decide (q = si)) as [->|Hq].
    + destruct (decide (s = s')) as [->|Hne].
      * rewrite lookup_insert_eq. rewrite (proj1 (not_elem_of_list_to_map (M := gmap nat) cells s') Hnot).
        destruct (map ra_act (resolveCell l)); [reflexivity|]. apply lookup_insert_eq.
      * rewrite lookup_insert_ne by congruence.
        assert (Hkey : forall acts : list action, (<[cellKey si s' := acts]> act) !! cellKey si s = act !! cellKey si s).
        { intros acts. apply lookup_insert_ne. intros E. apply cellKey_inj in E as [_ E]; congruence. }
        destruct (map ra_act (resolveCell l)) as [|x xs]; [reflexivity|]. rewrite (Hkey (x :: xs)). reflexivity.
    + destruct (map ra_act (resolveCell l)) as [|x xs]; [reflexivity|]. apply lookup_insert_ne.
      intros E. apply cellKey_inj in E as [E _]; congruence.
Qed.

Section language.
Context (g : Grammar) (c : compiler) (Hc : compiler_wf c) (Hf : fits c) (Hstart : item_ok c startItem).
Context (a : automaton) (Ha : complete c a).

Local Abbreviation t := (nullableFirst c).
Local Abbreviation n := (length (c_syms c)).
Local Abbreviation lang := (language_of g c a).

Lemma symbol_fits s : s < n -> (Z.of_nat s < 65536)%Z.
Proof using Hf. intros H. pose proof (fit_syms _ Hf). lia. Qed.

Definition edge_of (q : nat) : gmap nat nat := nth q (a_edge a) ∅.

Lemma edge_goto q s : edge_of q !! s = goto a q s.
Proof.
  unfold edge_of, goto. rewrite nth_lookup. destruct (a_edge a !! q); [reflexivity|]. simpl. apply lookup_empty.
Qed.

Lemma goto_symbol q s q' : goto a q s = Some q' -> s < n /\ q < length (a_states a) /\ q' < length (a_states a).
Proof using Ha Hc.
  intros H. destruct (goto_lookup c a Ha _ _ _ H) as (items & Hq & Hs & Hq').
  split; [|split; [exact (lookup_lt_Some _ _ _ Hq)|exact (lookup_lt_Some _ _ _ Hq')]].
  apply elem_of_addMany in Hs as [[]%not_elem_of_nil|Hs]. apply list_elem_of_omap in Hs as (it & Hit & Hs).
  pose proof (so_canonical _ _ (bu_ok _ _ _ Ha) _ (list_elem_of_lookup_2 _ _ _ Hq)) as Hcan.
  destruct (canonical_ok c Hc _ _ Hcan Hit) as (Hi & _). destruct (lookup_lt_is_Some_2 _ _ Hi) as [p Hp].
  unfold after_dot in Hs. rewrite (c_prod_lookup c _ _ Hp) in Hs.
  exact (wf_rhs _ Hc p s (list_elem_of_lookup_2 _ _ _ Hp) (list_elem_of_lookup_2 _ _ _ Hs)).
Qed.

Lemma raw_of_symbol q it s r : it ∈ state_items a q -> raw_of c (edge_of q) it = Some (s, r) -> s < n.
Proof using Ha Hc Hstart.
  intros Hit H. unfold raw_of in H. destruct (after_dot c it) as [sym|] eqn:Es.
  - destruct (terminal c sym) eqn:Et; [|discriminate]. destruct (edge_of q !! sym); simplify_eq/=. exact (terminal_lt c _ Et).
  - destruct (state_item_ok c Hc a Ha q it Hit) as (_ & _ & Hl). destruct ((i_prod it =? 0) && (i_look it =? SymEOF)); simplify_eq; [|exact Hl].
    destruct Hstart as (_ & _ & H). exact H.
Qed.

Lemma add_states_lookup q s : (Z.of_nat s < 65536)%Z -> forall es st, NoDup (map fst es) -> (forall e, e ∈ es -> a_states a !! fst e = Some (snd e)) ->
  fst (foldl (add_state c (a_edge a)) st es) !! cellKey q s =
  match (if decide (q ∈ map fst es) then raw_list c (edge_of q) (state_items a q) s else []) with
  | [] => fst st !! cellKey q s
  | l => match map ra_act (resolveCell l) with [] => fst st !! cellKey q s | acts => Some acts end
  end.
Proof using Ha Hc Hf Hstart.
  intros Hs. induction es as [|[si items] es IH]; intros [act forks] Hn Hes; cbn [foldl]; [reflexivity|].
  apply NoDup_cons in Hn as [Hnot Hn]. rewrite IH; [|exact Hn|intros e He; apply Hes; right; exact He]. simpl map.
  pose proof (Hes (si, items) ltac:(left)) as Hsi. simpl in Hsi.
  assert (Hitems : state_items a si = items) by (unfold state_items; rewrite Hsi; reflexivity).
  assert (E : fst (add_state c (a_edge a) (act, forks) (si, items)) !! cellKey q s =
    match (if decide (q = si) then raw_list c (edge_of q) (state_items a q) s else []) with
    | [] => act !! cellKey q s
    | l => match map ra_act (resolveCell l) with [] => act !! cellKey q s | acts => Some acts end
    end).
  { unfold add_state. simpl. rewrite (add_cells_lookup si q s Hs).
    - destruct (decide (q = si)) as [->|]; [|reflexivity]. rewrite list_to_map_to_list, raw_cells_lookup, Hitems. unfold edge_of.
      destruct (raw_list c (nth si (a_edge a) ∅) items s); reflexivity.
    - apply NoDup_fst_map_to_list.
    - intros [s' l] He. simpl. apply elem_of_map_to_list in He. rewrite raw_cells_lookup in He.
      destruct (raw_list c (nth si (a_edge a) ∅) items s') as [|r rs] eqn:E; [discriminate|].
      assert (Hr : r ∈ raw_list c (edge_of si) items s') by (unfold edge_of; rewrite E; left).
      apply elem_of_raw_list in Hr as (it & Hit & Hr). apply symbol_fits, (raw_of_symbol si it s' r); [rewrite Hitems; exact Hit|exact Hr]. }
  rewrite E. clear E. destruct (decide (q = si)) as [->|Hne].
  - rewrite decide_False by exact Hnot. rewrite decide_True by left. reflexivity.
  - destruct (decide (q ∈ map fst es)) as [Hin|Hin].
    + rewrite decide_True by (right; exact Hin). reflexivity.
    + rewrite decide_False; [reflexivity|]. intros [?|?]%elem_of_cons; contradiction.
Qed.

Lemma imap_pair_fst {A} (l : list A) : map fst (imap pair l) = seq 0 (length l).
Proof.
  apply list_eq. intros i. rewrite list_lookup_fmap, list_lookup_imap. destruct (l !! i) eqn:E; simpl.
  - symmetry. apply lookup_seq. apply lookup_lt_Some in E. lia.
  - symmetry. apply lookup_seq_ge. apply lookup_ge_None in E. exact E.
Qed.

(** A cell of the table. *)
Lemma acts_at_cell q s : (Z.of_nat s < 65536)%Z ->
  acts_at lang q s = match map ra_act (resolveCell (raw_list c (edge_of q) (state_items a q) s)) with [] => None | acts => Some acts end.
Proof using Ha Hc Hf Hstart.
  intros Hs. unfold acts_at, language_of. destruct (foldl (add_state c (a_edge a)) (∅, 0) (imap pair (a_states a))) as [act forks] eqn:E. simpl.
  pose proof (add_states_lookup q s Hs (imap pair (a_states a)) (∅, 0)) as K. rewrite E in K. simpl in K. rewrite K; clear K.
  - rewrite imap_pair_fst, lookup_empty. destruct (decide (q ∈ seq 0 (length (a_states a)))) as [Hq|Hq].
    + destruct (raw_list c (edge_of q) (state_items a q) s) eqn:El; [reflexivity|]. destruct (map _ _); reflexivity.
    + assert (state_items a q = []) as ->; [|reflexivity]. unfold state_items. rewrite lookup_ge_None_2; [reflexivity|].
      apply Nat.nlt_ge. intros H. apply Hq, elem_of_seq. lia.
  - rewrite imap_pair_fst. apply NoDup_seq.
  - intros [i x] H. apply elem_of_imap_pair in H. exact H.
Qed.

Lemma gotos_fold q s : s < n -> forall (es : list (nat * nat)) si (gto : gmap N nat), NoDup (map fst es) -> (forall e, e ∈ es -> (Z.of_nat (fst e) < 65536)%Z) ->
  foldl (fun gto '(sym, dest) => <[cellKey si sym := dest]> gto) gto es !! cellKey q s =
  match (if decide (q = si) then list_to_map (M := gmap nat nat) es !! s else None) with Some d => Some d | None => gto !! cellKey q s end.
Proof using Hf.
  intros Hs. induction es as [|[s' d] es IH]; intros si gto Hn Hlt.
  - simpl. destruct (decide (q = si)); [rewrite lookup_empty|]; reflexivity.
  - apply NoDup_cons in Hn as [Hnot Hn]. cbn [foldl].
    assert (Hlt' : forall e, e ∈ es -> (Z.of_nat (fst e) < 65536)%Z) by (intros e He; apply Hlt; right; exact He).
    pose proof (Hlt (s', d) ltac:(left)) as Hs'. simpl in Hs'. rewrite (IH _ _ Hn Hlt'). simpl list_to_map.
    destruct (decide (q = si)) as [->|Hq].
    + destruct (decide (s = s')) as [->|Hne].
      * rewrite !lookup_insert_eq, (proj1 (not_elem_of_list_to_map (M := gmap nat) es s') Hnot). reflexivity.
      * rewrite (lookup_insert_ne gto) by (intros E; apply cellKey_inj in E as [_ E]; [congruence|exact Hs'|exact (symbol_fits s Hs)]).
        rewrite lookup_insert_ne by congruence. reflexivity.
    + apply lookup_insert_ne. intros E. apply cellKey_inj in E as [E _]; [congruence|exact Hs'|exact (symbol_fits s Hs)].
Qed.

Lemma add_gotos_lookup q s : s < n -> forall es gto, NoDup (map fst es) -> (forall e, e ∈ es -> a_edge a !! fst e = Some (snd e)) ->
  foldl add_gotos gto es !! cellKey q s = match (if decide (q ∈ map fst es) then goto a q s else None) with Some d => Some d | None => gto !! cellKey q s end.
Proof using Ha Hc Hf.
  intros Hs. induction es as [|[si e] es IH]; intros gto Hn Hes; cbn [foldl]; [reflexivity|].
  apply NoDup_cons in Hn as [Hnot Hn]. rewrite IH; [|exact Hn|intros x Hx; apply Hes; right; exact Hx]. simpl map.
  pose proof (Hes (si, e) ltac:(left)) as Hsi. simpl in Hsi.
  assert (Hgoto : forall s', goto a si s' = e !! s') by (intros s'; unfold goto; rewrite Hsi; reflexivity).
  unfold add_gotos. simpl. rewrite (gotos_fold q s Hs).
  2: { apply NoDup_fst_map_to_list. }
  2: { intros [s' d] H. apply elem_of_map_to_list in H. rewrite <- Hgoto in H. apply goto_symbol in H as [H _]. exact (symbol_fits s' H). }
  rewrite list_to_map_to_list. destruct (decide (q = si)) as [->|Hne].
  - rewrite decide_False by exact Hnot. rewrite decide_True by left. rewrite Hgoto. reflexivity.
  - destruct (decide (q ∈ map fst es)) as [Hin|Hin].
    + rewrite decide_True by (right; exact Hin). reflexivity.
    + rewrite decide_False; [reflexivity|]. intros [?|?]%elem_of_cons; contradiction.
Qed.

Lemma gto_cell q s : s < n -> l_gto lang !! cellKey q s = goto a q s.
Proof using Ha Hc Hf.
  intros Hs. unfold language_of. destruct (foldl (add_state c (a_edge a)) (∅, 0) (imap pair (a_states a))) as [act forks]. simpl.
  rewrite (add_gotos_lookup q s Hs).
  - rewrite imap_pair_fst, lookup_empty. destruct (decide (q ∈ seq 0 (length (a_edge a)))) as [Hq|Hq]; [destruct (goto a q s); reflexivity|].
    unfold goto. rewrite lookup_ge_None_2; [reflexivity|]. apply Nat.nlt_ge. intros H. apply Hq, elem_of_seq. lia.
  - rewrite imap_pair_fst. apply NoDup_seq.
  - intros [i x] H. apply elem_of_imap_pair in H. exact H.
Qed.

(** ** What the cells mean *)

Lemma raw_list_wf q s : (forall r, r ∈ raw_list c (edge_of q) (state_items a q) s -> raw_wf r) /\
  shifts_agree (raw_list c (edge_of q) (state_items a q) s).
Proof.
  assert (H : forall r, r ∈ raw_list c (edge_of q) (state_items a q) s ->
    (exists dest, edge_of q !! s = Some dest /\ ra_act r = mkAction actShift dest) \/ ac_kind (ra_act r) = actReduce \/ ra_act r = mkAction actAccept 0).
  { intros r (it & _ & Hr)%elem_of_raw_list. unfold raw_of in Hr. destruct (after_dot c it) as [sym|].
    - destruct (terminal c sym); [|discriminate]. destruct (edge_of q !! sym) as [dest|] eqn:E; simplify_eq/=. left. eauto.
    - destruct ((i_prod it =? 0) && (i_look it =? SymEOF)); simplify_eq; auto. }
  split.
  - intros r Hr. unfold raw_wf. destruct (H r Hr) as [(dest & _ & ->)|[|]]; auto.
  - intros x y Hx Hy Kx Ky. destruct (H x Hx) as [(d & Hd & Ex)|[E|E]]; [|rewrite E in Kx; discriminate|rewrite E in Kx; discriminate].
    destruct (H y Hy) as [(d' & Hd' & Ey)|[E|E]]; [|rewrite E in Ky; discriminate|rewrite E in Ky; discriminate]. congruence.
Qed.

(** An item with its dot at the end. *)
Definition at_end (it : item) : Prop := after_dot c it = None.

(** Each action of a cell is that of an item. *)
Lemma cell_action q s acts x : (Z.of_nat s < 65536)%Z -> acts_at lang q s = Some acts -> x ∈ acts ->
  (ac_kind x = actShift /\ terminal c s = true /\ goto a q s = Some (ac_val x)) \/
  (ac_kind x = actReduce /\ exists it, it ∈ state_items a q /\ at_end it /\ i_prod it = ac_val x /\ i_look it = s /\ ~ (ac_val x = 0 /\ s = SymEOF)) \/
  (x = mkAction actAccept 0 /\ s = SymEOF /\ exists it, it ∈ state_items a q /\ at_end it /\ i_prod it = 0 /\ i_look it = SymEOF).
Proof using Ha Hc Hf Hstart.
  intros Hs Hacts Hx. rewrite (acts_at_cell q s Hs) in Hacts. destruct (raw_list_wf q s) as [Hw Hag].
  assert (Hin : x ∈ map ra_act (raw_list c (edge_of q) (state_items a q) s)).
  { apply (cell_sound _ Hw Hag). destruct (map ra_act (resolveCell _)); simplify_eq. exact Hx. }
  apply list_elem_of_fmap in Hin as (r & -> & Hr). apply elem_of_raw_list in Hr as (it & Hit & Hr). unfold raw_of in Hr.
  destruct (after_dot c it) as [sym|] eqn:Es.
  - left. destruct (terminal c sym) eqn:Et; [|discriminate]. destruct (edge_of q !! sym) as [dest|] eqn:E; simplify_eq/=.
    rewrite edge_goto in E. auto.
  - right. destruct (i_prod it =? 0) eqn:E1; destruct (i_look it =? SymEOF) eqn:E2; simplify_eq/=.
    + right. apply Nat.eqb_eq in E1, E2. split; [reflexivity|]. split; [reflexivity|]. exists it. unfold at_end. auto.
    + left. apply Nat.eqb_neq in E2. split; [reflexivity|]. exists it. unfold at_end. split; [exact Hit|]. split; [exact Es|]. tauto.
    + left. apply Nat.eqb_neq in E1. split; [reflexivity|]. exists it. unfold at_end. split; [exact Hit|]. split; [exact Es|]. tauto.
    + left. apply Nat.eqb_neq in E1. split; [reflexivity|]. exists it. unfold at_end. split; [exact Hit|]. split; [exact Es|]. tauto.
Qed.

(** Where the input may end, the only action is accept. *)
Lemma cell_accepts q it : it ∈ state_items a q -> at_end it -> i_prod it = 0 -> i_look it = SymEOF ->
  acts_at lang q SymEOF = Some [mkAction actAccept 0].
Proof using Ha Hc Hf Hstart.
  intros Hit Hend Hi Hl. rewrite acts_at_cell by (apply symbol_fits; destruct Hstart as (_ & _ & H); exact H).
  assert (Hr : rawAccept ∈ raw_list c (edge_of q) (state_items a q) SymEOF).
  { apply elem_of_raw_list. exists it. split; [exact Hit|]. unfold raw_of. rewrite Hend, Hi, Hl. reflexivity. }
  rewrite (cell_accept _ _ Hr) by reflexivity. reflexivity.
Qed.

(** A cell that accepts does nothing else. *)
Lemma cell_only_accept q acts x : acts_at lang q SymEOF = Some acts -> x ∈ acts -> ac_kind x = actAccept -> acts = [mkAction actAccept 0].
Proof using Ha Hc Hf Hstart.
  intros Hacts Hx Hk. rewrite acts_at_cell in Hacts by (apply symbol_fits; destruct Hstart as (_ & _ & H); exact H).
  destruct (raw_list_wf q SymEOF) as [Hw Hag]. set (raw := raw_list c (edge_of q) (state_items a q) SymEOF) in *.
  assert (Hin : x ∈ map ra_act raw) by (apply (cell_sound _ Hw Hag); destruct (map ra_act (resolveCell raw)); simplify_eq; exact Hx).
  apply list_elem_of_fmap in Hin as (r & -> & Hr). rewrite (cell_accept raw r Hr Hk) in Hacts. congruence.
Qed.

(** The grammar declares no precedence. *)
Definition plain : Prop := forall p, p ∈ c_prods c -> p_hasPrec p = false.

Lemma plain_raw q s : plain -> forall r, r ∈ raw_list c (edge_of q) (state_items a q) s -> ra_has r = false.
Proof using Ha Hc.
  intros Hp r (it & Hit & Hr)%elem_of_raw_list. destruct (state_item_ok c Hc a Ha q it Hit) as (Hi & _).
  destruct (lookup_lt_is_Some_2 _ _ Hi) as [p Hlook]. pose proof (Hp p (list_elem_of_lookup_2 _ _ _ Hlook)) as Hno.
  unfold raw_of in Hr. rewrite (c_prod_lookup c _ _ Hlook) in Hr. destruct (after_dot c it) as [sym|].
  - destruct (terminal c sym); [|discriminate]. destruct (edge_of q !! sym); simplify_eq/=. exact Hno.
  - destruct ((i_prod it =? 0) && (i_look it =? SymEOF)); simplify_eq; [reflexivity|exact Hno].
Qed.

Lemma plain_pair s r : ra_has s = false -> ra_has r = false -> resolvePair s r = (true, true).
Proof. intros H1 H2. unfold resolvePair. rewrite H1, H2. reflexivity. Qed.

(** Every action of an item stays in the cell, unless the cell accepts. *)
Lemma plain_kept q s r : plain -> s < n -> r ∈ raw_list c (edge_of q) (state_items a q) s ->
  exists acts, acts_at lang q s = Some acts /\ (ra_act r ∈ acts \/ acts = [mkAction actAccept 0]).
Proof using Ha Hc Hf Hstart.
  intros Hp Hs Hr. rewrite (acts_at_cell q s (symbol_fits s Hs)). set (l := raw_list c (edge_of q) (state_items a q) s) in *.
  destruct (raw_list_wf q s) as [Hw Hag]. fold l in Hw, Hag. pose proof (plain_raw q s Hp) as Hno. fold l in Hno.
  destruct (existsb (is_kind actAccept) l) eqn:Eacc.
  - apply existsb_elem in Eacc as (b & Hb & Hk). apply Nat.eqb_eq in Hk. rewrite (cell_accept l b Hb Hk). eauto.
  - assert (Hacc : forall b, b ∈ l -> ac_kind (ra_act b) <> actAccept).
    { intros b Hb Hk. assert (existsb (is_kind actAccept) l = true); [|congruence]. apply existsb_elem. exists b. split; [exact Hb|]. apply Nat.eqb_eq, Hk. }
    assert (Hsh : forall s, mergeShifts (filter (fun a => Is_true (is_kind actShift a)) l) = Some s -> ra_has s = false).
    { intros x Hx. pose proof (shifts_spec l Hag) as K. rewrite Hx in K. destruct K as (? & _ & _ & _ & K). exact (K Hno). }
    assert (Hin : ra_act r ∈ map ra_act (resolveCell l)).
    { destruct (Hw r Hr) as [Hk|[Hk|Hk]].
      - destruct (cell_shift l Hag r Hr Hk Hacc) as [H|(x & Hx & Hne & H)]; [exact H|].
        destruct (filter (fun a => Is_true (is_kind actReduce a)) l) as [|y ys] eqn:E; [congruence|].
        assert (Hy : y ∈ filter (fun a => Is_true (is_kind actReduce a)) l) by (rewrite E; left).
        apply elem_of_kind in Hy as [Hy _]. specialize (H y ltac:(left)). rewrite (plain_pair x y (Hsh x Hx) (Hno y Hy)) in H. discriminate.
      - destruct (cell_reduce l Hag r Hr Hk Hacc) as [H|(x & Hx & H)]; [exact H|]. rewrite (plain_pair x r (Hsh x Hx) (Hno r Hr)) in H. discriminate.
      - exfalso. apply (Hacc r Hr). rewrite Hk. reflexivity. }
    destruct (map ra_act (resolveCell l)) as [|y ys]; [apply not_elem_of_nil in Hin as []|]. eauto.
Qed.
End language.
