(* ===== verification/Machine.v ===== *)
(** * The LR(1) machine

    The specification of the parser: a nondeterministic machine with one stack
    of states over the tables of a language.  The machine of a grammar that
    declares no precedence accepts every sentence. *)
From Stdlib Require Import ZArith Lia.
From stdpp Require Import base numbers option list strings gmap relations sorting.
From S2P Require Import Prelude Grammars Compile Lexer Derive Firsts Automaton Language.

Local Open Scope nat_scope.

(** ** The machine *)

(** The states, top first, the symbols that are left and the number of
    reductions since the last shift. *)
Record config : Type := mkConfig { m_stack : list nat; m_input : list nat; m_stall : nat }.

Inductive mstep (l : Language) : config -> config -> Prop :=
| m_shift q st s rest k acts q' : acts_at l q s = Some acts -> mkAction actShift q' ∈ acts ->
    mstep l (mkConfig (q :: st) (s :: rest) k) (mkConfig (q' :: q :: st) rest 0)
| m_reduce q st s rest k acts i p q0 st0 q' : acts_at l q s = Some acts -> mkAction actReduce i ∈ acts ->
    l_prods l !! i = Some p -> drop (length (p_rhs p)) (q :: st) = q0 :: st0 -> l_gto l !! cellKey q0 (p_lhs p) = Some q' ->
    mstep l (mkConfig (q :: st) (s :: rest) k) (mkConfig (q' :: q0 :: st0) (s :: rest) (S k)).

(** No more than [bound] reductions in a row. *)
Definition mstep_within (l : Language) (bound : nat) (x y : config) : Prop := mstep l x y /\ m_stall y <= bound.

Definition accepting (l : Language) (x : config) : Prop :=
  exists q st s rest acts a, m_stack x = q :: st /\ m_input x = s :: rest /\ acts_at l q s = Some acts /\ a ∈ acts /\ ac_kind a = actAccept.

Definition accepted (l : Language) (bound : nat) (x : config) : Prop := exists y, rtc (mstep_within l bound) x y /\ accepting l y.

(** ** The order of a derivation *)

(** The shifts, false, and the reductions, true, of a derivation. *)
Fixpoint script (t : ptree) : list bool :=
  match t with PLeaf _ => [false] | PNode _ kids => flat_map script kids ++ [true] end.

(** No more than [bound] reductions in a row, [k] already made. *)
Fixpoint calm (bound k : nat) (l : list bool) : Prop :=
  match l with [] => True | false :: l' => calm bound 0 l' | true :: l' => S k <= bound /\ calm bound (S k) l' end.
Fixpoint stall_after (k : nat) (l : list bool) : nat :=
  match l with [] => k | false :: l' => stall_after 0 l' | true :: l' => stall_after (S k) l' end.

Lemma calm_app bound l l' : forall k, calm bound k (l ++ l') <-> calm bound k l /\ calm bound (stall_after k l) l'.
Proof. induction l as [|[] l IH]; intros k; simpl; [tauto| |]; rewrite IH; tauto. Qed.

Lemma stall_after_app l l' : forall k, stall_after k (l ++ l') = stall_after (stall_after k l) l'.
Proof. induction l as [|[] l IH]; intros k; simpl; auto. Qed.

(** ** Grammars with one start rule *)

(** Alternative 0 is the start of the parse and is not used elsewhere. *)
Record accept_wf (c : compiler) (start : nat) : Prop := {
  aw_prod : exists p, c_prods c !! 0 = Some p /\ p_rhs p = [start];
  aw_unused p i p0 : c_prods c !! 0 = Some p0 -> c_prods c !! i = Some p -> p_lhs p0 ∉ p_rhs p;
  aw_only i p p0 : c_prods c !! 0 = Some p0 -> c_prods c !! i = Some p -> p_lhs p = p_lhs p0 -> i = 0 }.

Section machine.
Context (g : Grammar) (c : compiler) (Hc : compiler_wf c) (Hf : fits c) (Hstart : item_ok c startItem).
Context (start : nat) (Hacc : accept_wf c start).
Context (a : automaton) (Ha : complete c a) (Hplain : plain c).
Context (bound : nat).

Local Abbreviation t := (nullableFirst c).
Local Abbreviation n := (length (c_syms c)).
Local Abbreviation lang := (language_of g c a).

(** The machine goes from [x] to [y], or accepts on the way. *)
Definition runs (x y : config) : Prop := rtc (mstep_within lang bound) x y \/ accepted lang bound x.

Lemma runs_refl x : runs x x.
Proof. left. reflexivity. Qed.

Lemma runs_trans x y z : runs x y -> runs y z -> runs x z.
Proof.
  intros [Hxy|H]; [|right; exact H]. intros [Hyz|(w & Hyw & Hw)]; [left; etransitivity; eauto|right].
  exists w. split; [etransitivity; eauto|exact Hw].
Qed.

Lemma runs_step x y : mstep lang x y -> m_stall y <= bound -> runs x y.
Proof. intros H Hk. left. apply rtc_once. split; assumption. Qed.

Lemma prods_lang : l_prods lang = c_prods c.
Proof. unfold language_of. destruct (foldl _ _ _). reflexivity. Qed.

Lemma after_dot_symbol q it s : it ∈ state_items a q -> after_dot c it = Some s -> s < n.
Proof using Ha Hc.
  intros Hit Hs. destruct (state_item_ok c Hc a Ha q it Hit) as (Hi & _). destruct (lookup_lt_is_Some_2 _ _ Hi) as [p Hp].
  unfold after_dot in Hs. rewrite (c_prod_lookup c _ _ Hp) in Hs.
  exact (wf_rhs _ Hc p s (list_elem_of_lookup_2 _ _ _ Hp) (list_elem_of_lookup_2 _ _ _ Hs)).
Qed.

(** A token after the dot is shifted, or the machine accepts. *)
Lemma run_shift q st it s rest k : it ∈ state_items a q -> after_dot c it = Some s -> terminal c s = true ->
  exists q', goto a q s = Some q' /\ runs (mkConfig (q :: st) (s :: rest) k) (mkConfig (q' :: q :: st) rest 0).
Proof using Ha Hc Hf Hplain Hstart.
  intros Hit Hs Ht. destruct (goto_forward c Hc a Ha q it s Hit Hs) as (q' & Hg & _). exists q'. split; [exact Hg|].
  pose proof (after_dot_symbol q it s Hit Hs) as Hlt.
  assert (Hr : exists r, r ∈ raw_list c (edge_of a q) (state_items a q) s /\ ra_act r = mkAction actShift q').
  { eexists. split; [apply elem_of_raw_list; exists it; split; [exact Hit|]; unfold raw_of; rewrite Hs, Ht, edge_goto, Hg; reflexivity|reflexivity]. }
  destruct Hr as (r & Hr & Hact). destruct (plain_kept g c Hc Hf Hstart a Ha q s r Hplain Hlt Hr) as (acts & Hacts & [Hin|E]).
  - apply runs_step; [|simpl; lia]. eapply m_shift; [exact Hacts|]. rewrite <- Hact. exact Hin.
  - right. exists (mkConfig (q :: st) (s :: rest) k). split; [reflexivity|]. exists q, st, s, rest, acts, (mkAction actAccept 0).
    rewrite E. repeat split; try reflexivity; [rewrite <- E; exact Hacts|left].
Qed.

(** An alternative whose dot is at its end is reduced, or the machine accepts. *)
Lemma run_reduce q st i p b rest k q0 st0 q' : mkItem i (length (p_rhs p)) b ∈ state_items a q -> c_prods c !! i = Some p -> i <> 0 ->
  drop (length (p_rhs p)) (q :: st) = q0 :: st0 -> goto a q0 (p_lhs p) = Some q' -> S k <= bound ->
  runs (mkConfig (q :: st) (b :: rest) k) (mkConfig (q' :: q0 :: st0) (b :: rest) (S k)).
Proof using Ha Hc Hf Hplain Hstart.
  intros Hit Hp Hi Hdrop Hg Hk. destruct (state_item_ok c Hc a Ha q _ Hit) as (_ & _ & Hb). simpl in Hb.
  assert (Hr : exists r, r ∈ raw_list c (edge_of a q) (state_items a q) b /\ ra_act r = mkAction actReduce i).
  { eexists. split; [apply elem_of_raw_list; eexists; split; [exact Hit|]; unfold raw_of, after_dot; simpl;
      rewrite (c_prod_lookup c _ _ Hp), lookup_ge_None_2 by lia; rewrite (proj2 (Nat.eqb_neq i 0) Hi); reflexivity|reflexivity]. }
  destruct Hr as (r & Hr & Hact). destruct (plain_kept g c Hc Hf Hstart a Ha q b r Hplain Hb Hr) as (acts & Hacts & [Hin|E]).
  - apply runs_step; [|exact Hk]. eapply m_reduce with (i := i) (p := p); [exact Hacts|rewrite <- Hact; exact Hin|rewrite prods_lang; exact Hp|exact Hdrop|].
    rewrite (gto_cell g c Hc Hf a Ha); [exact Hg|]. exact (proj1 (wf_lhs _ Hc p (list_elem_of_lookup_2 _ _ _ Hp))).
  - right. exists (mkConfig (q :: st) (b :: rest) k). split; [reflexivity|]. exists q, st, b, rest, acts, (mkAction actAccept 0).
    rewrite E. repeat split; try reflexivity; [rewrite <- E; exact Hacts|left].
Qed.

Definition ids (l : list tok) : list nat := map t_id l.

(** What a derivation does to the machine: it pushes the state of its symbol. *)
Definition tree_runs (t : ptree) : Prop := forall X, derives c X t -> forall q st it b rest k,
  it ∈ state_items a q -> after_dot c it = Some X ->
  b ∈ firstSeq c (nullableFirst c) (drop (S (i_dot it)) (p_rhs (c_prod c (i_prod it)))) (i_look it) -> calm bound k (script t) ->
  exists q', goto a q X = Some q' /\ runs (mkConfig (q :: st) (ids (yield t) ++ b :: rest) k) (mkConfig (q' :: q :: st) (b :: rest) (stall_after k (script t))).

(** The same for the rest of an alternative: [q0] is the state below its
    symbols. *)
Lemma run_forest i p b rest q0 st ts : c_prods c !! i = Some p -> Forall tree_runs ts -> forall d q stk k,
  Forall2 (derives c) (drop d (p_rhs p)) ts -> mkItem i d b ∈ state_items a q -> drop d (q :: stk) = q0 :: st -> d <= length (p_rhs p) ->
  calm bound k (flat_map script ts) ->
  exists q' stk', runs (mkConfig (q :: stk) (ids (flat_map yield ts) ++ b :: rest) k)
                       (mkConfig (q' :: stk') (b :: rest) (stall_after k (flat_map script ts))) /\
    mkItem i (length (p_rhs p)) b ∈ state_items a q' /\ drop (length (p_rhs p)) (q' :: stk') = q0 :: st.
Proof using Ha Hc.
  intros Hp Hts. induction Hts as [|t0 ts Ht0 Hts IH]; intros d q stk k Hd Hit Hdrop Hle Hcalm.
  - inversion Hd as [E|]. apply (f_equal length) in E. rewrite length_drop in E. simpl in E.
    assert (d = length (p_rhs p)) as -> by lia. exists q, stk. split; [apply runs_refl|auto].
  - inversion Hd as [|X t1 Xs ts1 HX HXs E1 E2]; subst t1 ts1. symmetry in E1.
    assert (Hdot : p_rhs p !! d = Some X). { rewrite <- (Nat.add_0_r d), <- lookup_drop, E1. reflexivity. }
    assert (HXs' : drop (S d) (p_rhs p) = Xs). { rewrite (drop_S _ _ _ Hdot) in E1. congruence. }
    simpl in Hcalm. rewrite calm_app in Hcalm. destruct Hcalm as [Hc0 Hcs].
    set (b0 := default b (t_id <$> head (flat_map yield ts))).
    assert (Hinput : exists rest0, ids (flat_map yield ts) ++ b :: rest = b0 :: rest0).
    { unfold b0, ids. destruct (flat_map yield ts) as [|y ys]; simpl; eauto. }
    destruct Hinput as [rest0 Hinput].
    assert (Hafter : after_dot c (mkItem i d b) = Some X). { unfold after_dot. simpl. rewrite (c_prod_lookup c _ _ Hp). exact Hdot. }
    destruct (Ht0 X HX q stk (mkItem i d b) b0 rest0 k Hit Hafter) as (q' & Hg & Hrun); [|exact Hc0|].
    { simpl. rewrite (c_prod_lookup c _ _ Hp), HXs'. apply firstSeq_trees; assumption. }
    destruct (goto_forward c Hc a Ha q (mkItem i d b) X Hit Hafter) as (q'' & Hg' & Hit'). simpl in Hit'. assert (q'' = q') as -> by congruence.
    destruct (IH (S d) q' (q :: stk) (stall_after k (script t0))) as (q2 & stk2 & Hrun2 & Hit2 & Hdrop2); [|exact Hit'|exact Hdrop| |exact Hcs|].
    { rewrite HXs'. exact HXs. } { apply lookup_lt_Some in Hdot. lia. }
    exists q2, stk2. split; [|auto]. eapply runs_trans.
    + simpl flat_map. unfold ids. rewrite map_app, <- (assoc_L (++)). fold (ids (flat_map yield ts)). rewrite Hinput. exact Hrun.
    + rewrite <- Hinput. simpl. rewrite stall_after_app. exact Hrun2.
Qed.

Lemma run_tree t0 : tree_runs t0.
Proof using Ha Hacc Hc Hf Hplain Hstart.
  induction t0 as [k0|i kids IH] using ptree_nested_ind; intros X HX q st it b rest k Hit Hdot Hb Hcalm.
  - inversion HX as [k1 Hterm E1 E2|]; subst. exact (run_shift q st it (t_id k0) (b :: rest) k Hit Hdot Hterm).
  - inversion HX as [|i' p kids' Hp Hkids E1 E2]; subst. simpl in Hcalm. rewrite calm_app in Hcalm. destruct Hcalm as [Hck [HS _]].
    destruct (goto_forward c Hc a Ha q it _ Hit Hdot) as (q' & Hg & _). exists q'. split; [exact Hg|].
    assert (Hi0 : i <> 0).
    { intros ->. destruct (state_item_ok c Hc a Ha q it Hit) as (Hi & _). destruct (lookup_lt_is_Some_2 _ _ Hi) as [p1 Hp1].
      apply (aw_unused _ _ Hacc p1 (i_prod it) p Hp Hp1). unfold after_dot in Hdot. rewrite (c_prod_lookup c _ _ Hp1) in Hdot.
      exact (list_elem_of_lookup_2 _ _ _ Hdot). }
    assert (Hnew : mkItem i 0 b ∈ state_items a q).
    { apply (state_closed c Hc a Ha q it); [exact Hit|]. apply elem_of_item_adds. exists (p_lhs p), i, p.
      split; [exact Hdot|]. split; [exact (proj2 (wf_lhs _ Hc p (list_elem_of_lookup_2 _ _ _ Hp)))|]. auto 10. }
    destruct (run_forest i p b rest q st kids Hp IH 0 q st k) as (q2 & stk & Hrun & Hend & Hdrop); [exact Hkids|exact Hnew|reflexivity|lia|exact Hck|].
    eapply runs_trans; [exact Hrun|]. simpl. rewrite stall_after_app. simpl.
    exact (run_reduce q2 stk i p b rest _ q st q' Hend Hp Hi0 Hdrop Hg HS).
Qed.

(** The machine accepts every sentence. *)
Lemma sentence_accepted t0 : derives c start t0 -> calm bound 0 (script t0) ->
  accepted lang bound (mkConfig [0] (ids (yield t0) ++ [SymEOF]) 0).
Proof using Ha Hacc Hc Hf Hplain Hstart.
  intros Ht Hcalm. destruct (aw_prod _ _ Hacc) as (p & Hp & Hrhs).
  assert (Hdot : after_dot c startItem = Some start). { unfold after_dot. simpl. rewrite (c_prod_lookup c _ _ Hp), Hrhs. reflexivity. }
  pose proof (start_in c Hc Hstart a Ha) as Hin.
  destruct (run_tree t0 start Ht 0 [] startItem SymEOF [] 0 Hin Hdot) as (q & Hg & [Hrun|Hrun]); [|exact Hcalm| |exact Hrun].
  { simpl. rewrite (c_prod_lookup c _ _ Hp), Hrhs. simpl. apply elem_of_firstSeq. right. split; [constructor|reflexivity]. }
  destruct (goto_forward c Hc a Ha 0 startItem start Hin Hdot) as (q' & Hg' & Hit). simpl in Hit. assert (q' = q) as -> by congruence.
  eexists. split; [exact Hrun|]. eexists q, [0], SymEOF, [], _, (mkAction actAccept 0).
  split; [reflexivity|]. split; [reflexivity|]. split; [|split; [left|reflexivity]].
  apply (cell_accepts g c Hc Hf Hstart a Ha q _ Hit); [|reflexivity|reflexivity].
  unfold at_end, after_dot. simpl. rewrite (c_prod_lookup c _ _ Hp), Hrhs. reflexivity.
Qed.
End machine.

(** The machine accepts from a configuration. *)
Definition accepts_from (l : Language) (x : config) : Prop := exists y, rtc (mstep l) x y /\ accepting l y.

Lemma accepted_from l bound x : accepted l bound x -> accepts_from l x.
Proof.
  intros (y & Hxy & Hy). exists y. split; [|exact Hy]. clear Hy. induction Hxy as [x|x z y [H _] _ IH]; [reflexivity|]. eapply rtc_l; eauto.
Qed.

(** A derivation has no more reductions in a row than steps. *)
Lemma calm_long bound l : forall k, k + length l <= bound -> calm bound k l.
Proof. induction l as [|[] l IH]; intros k H; simpl in *; [exact I| |]; [split; [lia|]|]; apply IH; lia. Qed.

(** ** Running the machine *)

Definition next_config (l : Language) (x : config) (q s : nat) (rest : list nat) (a : action) : list config :=
  if ac_kind a =? actShift then [mkConfig (ac_val a :: m_stack x) rest 0]
  else if ac_kind a =? actReduce then
    match l_prods l !! ac_val a with
    | None => []
    | Some p =>
        match drop (length (p_rhs p)) (m_stack x) with
        | [] => []
        | q0 :: st0 => match l_gto l !! cellKey q0 (p_lhs p) with Some q' => [mkConfig (q' :: q0 :: st0) (s :: rest) (S (m_stall x))] | None => [] end
        end
    end
  else [].

Definition next_configs (l : Language) (x : config) : list config :=
  match m_stack x, m_input x with
  | q :: _, s :: rest => match acts_at l q s with Some acts => acts ≫= next_config l x q s rest | None => [] end
  | _, _ => []
  end.

Lemma elem_of_next_configs l x y : mstep l x y -> y ∈ next_configs l x.
Proof.
  destruct 1 as [q st s rest k acts q' Ha Hin|q st s rest k acts i p q0 st0 q' Ha Hin Hp Hd Hq]; unfold next_configs; simpl; rewrite Ha;
    apply list_elem_of_bind; eexists; (split; [|exact Hin]); unfold next_config; simpl; [left|].
  cbn [ac_val]. rewrite Hp. cbn [m_stack]. rewrite Hd, Hq. left.
Qed.

(** All runs end, with fewer than [bound] reductions in a row. *)
Fixpoint all_calm (fuel : nat) (l : Language) (bound : nat) (xs : list config) : bool :=
  match fuel, xs with
  | _, [] => true
  | O, _ => false
  | S f, _ => forallb (fun x => m_stall x <? bound) xs && all_calm f l bound (xs ≫= next_configs l)
  end.

Lemma all_calm_spec fuel l bound : forall xs, all_calm fuel l bound xs = true -> forall x y, x ∈ xs -> rtc (mstep l) x y -> m_stall y < bound.
Proof.
  induction fuel as [|fuel IH]; intros xs H x y Hx Hxy; (destruct xs as [|x0 xs]; [apply not_elem_of_nil in Hx as []|]); [discriminate|].
  cbn [all_calm] in H. apply andb_prop in H as [H1 H2]. apply rtc_inv in Hxy as [<-|(z & Hxz & Hzy)].
  - rewrite forallb_forall in H1. apply Nat.ltb_lt, H1, list_elem_of_In, Hx.
  - apply (IH _ H2 z y); [|exact Hzy]. apply list_elem_of_bind. exists x. split; [exact (elem_of_next_configs l x z Hxz)|exact Hx].
Qed.
