(* ===== verification/Checked.v ===== *)
(** * Checked grammars

    What a grammar has when [prepareCompiler] of x/parse/compile.go accepts it,
    and that the operations of grammar.go only add symbols. *)
From Stdlib Require Import ZArith Lia.
From stdpp Require Import base numbers option list strings gmap relations sorting.
From S2P Require Import Prelude Grammars Compile Lexer Derive Firsts Automaton Language Machine.

Local Open Scope nat_scope.

(** The rule of an alternative is a symbol of the grammar. *)
Definition grammar_ok (g : Grammar) : Prop := forall p, p ∈ g_prods g -> pr_lhs p < length (g_syms g).

(** The symbols and the alternatives of a grammar are numbered in 16 bits. *)
Definition grammar_fits (g : Grammar) : Prop :=
  (Z.of_nat (length (g_syms g)) < 65536)%Z /\ forall p, p ∈ g_prods g -> (Z.of_nat (length (pr_rhs p)) < 65536)%Z.

Section checked.
Context (g : Grammar) (c : compiler) (H : prepareCompiler g = Some c).

Lemma prepare_inv :
  start_of g <> 0 /\ start_of g < length (g_syms g) /\ sr_kind (sym_at g (start_of g)) = kindNonterm /\
  c = mkCompiler (map info_of (g_syms g) ++ [acceptInfo])
        (mkProdInfo (length (g_syms g)) [start_of g] 0 false AssocNone 0 true :: map (prod_of (g_syms g)) (g_prods g)) /\
  (Z.of_nat (length (g_prods g)) + 1 <= 65535)%Z /\ (forall p, p ∈ g_prods g -> prod_ok g p = true) /\ has_alternative g (start_of g) = true.
Proof using H.
  revert H. unfold prepareCompiler. destruct ((start_of g =? 0) || (length (g_syms g) <=? start_of g)) eqn:E1; [discriminate|].
  apply orb_false_iff in E1 as [E1 E2]. apply Nat.eqb_neq in E1. apply Nat.leb_gt in E2.
  case_bool_decide as E3; [discriminate|]. set (c0 := mkCompiler _ _).
  destruct (65535 <? Z.of_nat (length (g_prods g)) + 1)%Z eqn:E4; [discriminate|]. apply Z.ltb_ge in E4.
  destruct (forallb (prod_ok g) (g_prods g)) eqn:E5; [|discriminate]. simpl. destruct (has_alternative g (start_of g)) eqn:E6; [|discriminate]. simpl.
  destruct (negb _); [discriminate|]. intros [= <-]. rewrite forallb_forall in E5.
  split; [exact E1|]. split; [exact E2|]. split; [destruct (sr_kind (sym_at g (start_of g))); [reflexivity|congruence]|]. split; [reflexivity|].
  split; [exact E4|]. split; [|reflexivity]. intros p Hp. apply E5, list_elem_of_In, Hp.
Qed.

Lemma prod_ok_inv p : p ∈ g_prods g -> pr_lhs p <> 0 /\ sr_kind (sym_at g (pr_lhs p)) = kindNonterm /\
  forall s, s ∈ pr_rhs p -> s <> 0 /\ s < length (g_syms g) /\ sr_extra (sym_at g s) = false.
Proof using H.
  intros Hp. destruct prepare_inv as (_ & _ & _ & _ & _ & Hok & _). pose proof (Hok p Hp) as K. unfold prod_ok in K.
  apply andb_true_iff in K as [K K3]. apply andb_true_iff in K as [K1 K2]. apply negb_true_iff, Nat.eqb_neq in K1. apply bool_decide_eq_true in K2.
  split; [exact K1|]. split; [destruct (sr_kind (sym_at g (pr_lhs p))); [reflexivity|congruence]|].
  intros s Hs. rewrite forallb_forall in K3. apply list_elem_of_In in Hs. specialize (K3 s Hs).
  apply andb_true_iff in K3 as [K3 K5]. apply andb_true_iff in K3 as [K3 K4]. apply negb_true_iff, Nat.eqb_neq in K3. apply Nat.ltb_lt in K4.
  apply negb_true_iff in K5. auto.
Qed.

Lemma checked_syms : length (c_syms c) = S (length (g_syms g)).
Proof using H. destruct prepare_inv as (_ & _ & _ & -> & _). simpl. rewrite length_app, length_map. simpl. lia. Qed.

Lemma checked_terminal s : s < length (g_syms g) -> terminal c s = bool_decide (sr_kind (sym_at g s) = kindTerm).
Proof using H.
  intros Hs. destruct prepare_inv as (_ & _ & _ & -> & _). unfold terminal. simpl. rewrite lookup_app_l by (rewrite length_map; exact Hs).
  rewrite list_lookup_fmap. unfold sym_at. rewrite nth_lookup. destruct (lookup_lt_is_Some_2 _ _ Hs) as [x ->]. reflexivity.
Qed.

Lemma checked_accept : terminal c (length (g_syms g)) = false.
Proof using H.
  destruct prepare_inv as (_ & _ & _ & -> & _). unfold terminal. simpl. rewrite lookup_app_r by (rewrite length_map; lia).
  rewrite length_map, Nat.sub_diag. reflexivity.
Qed.

Lemma checked_prod p : p ∈ c_prods c -> p = mkProdInfo (length (g_syms g)) [start_of g] 0 false AssocNone 0 true \/
  exists p0, p0 ∈ g_prods g /\ p = prod_of (g_syms g) p0.
Proof using H.
  destruct prepare_inv as (_ & _ & _ & -> & _). simpl. intros [->|Hp]%elem_of_cons; [left; reflexivity|right].
  apply list_elem_of_fmap in Hp as (p0 & -> & Hp). eauto.
Qed.

Lemma checked_wf : grammar_ok g -> compiler_wf c.
Proof using H.
  intros Hg. destruct prepare_inv as (_ & Hs & Hk & _). split.
  - intros p Hp. rewrite checked_syms. destruct (checked_prod p Hp) as [->|(p0 & Hp0 & ->)]; simpl; [split; [lia|apply checked_accept]|].
    pose proof (Hg p0 Hp0). destruct (prod_ok_inv p0 Hp0) as (_ & Hkind & _). split; [lia|]. rewrite checked_terminal by assumption. rewrite Hkind. reflexivity.
  - intros p s Hp Hin. rewrite checked_syms. destruct (checked_prod p Hp) as [->|(p0 & Hp0 & ->)]; simpl in Hin.
    + apply list_elem_of_singleton in Hin as ->. lia.
    + destruct (prod_ok_inv p0 Hp0) as (_ & _ & K). pose proof (K s Hin). lia.
Qed.

Lemma checked_fits : grammar_fits g -> fits c.
Proof using H.
  intros [H1 H2]. destruct prepare_inv as (_ & _ & _ & E & Hlen & _). split.
  - rewrite checked_syms. lia.
  - rewrite E. simpl. rewrite length_map. lia.
  - intros p Hp. destruct (checked_prod p Hp) as [->|(p0 & Hp0 & ->)]; simpl; [lia|]. exact (H2 p0 Hp0).
Qed.

Lemma checked_start : item_ok c startItem.
Proof using H.
  destruct prepare_inv as (Hne & Hs & _ & E & _). unfold item_ok, startItem. simpl. rewrite checked_syms. rewrite E. simpl.
  split; [lia|]. split; [lia|]. unfold SymEOF. lia.
Qed.

Lemma checked_accept_wf : grammar_ok g -> accept_wf c (start_of g).
Proof using H.
  intros Hg. destruct prepare_inv as (_ & Hs & _ & E & _).
  assert (H0 : c_prods c !! 0 = Some (mkProdInfo (length (g_syms g)) [start_of g] 0 false AssocNone 0 true)) by (rewrite E; reflexivity). split.
  - eauto.
  - intros p i p0 Hp0 Hp Hin. rewrite H0 in Hp0. injection Hp0 as <-. simpl in Hin. apply list_elem_of_lookup_2 in Hp.
    destruct (checked_prod p Hp) as [->|(p1 & Hp1 & ->)]; simpl in Hin; [apply list_elem_of_singleton in Hin; lia|].
    destruct (prod_ok_inv p1 Hp1) as (_ & _ & K). pose proof (K _ Hin). lia.
  - intros i p p0 Hp0 Hp Hl. rewrite H0 in Hp0. injection Hp0 as <-. simpl in Hl. destruct i as [|i]; [reflexivity|exfalso].
    rewrite E in Hp. simpl in Hp. rewrite list_lookup_fmap in Hp. destruct (g_prods g !! i) as [p1|] eqn:Ei; [|discriminate].
    injection Hp as <-. simpl in Hl. pose proof (Hg p1 (list_elem_of_lookup_2 _ _ _ Ei)). lia.
Qed.

(** The alternatives of a rule have its name's flag, and no precedence but that
    of the grammar. *)
Lemma checked_plain : (forall p, p ∈ g_prods g -> pr_hasPrec p = false) -> plain c.
Proof using H.
  intros Hp p Hin. destruct (checked_prod p Hin) as [->|(p0 & Hp0 & ->)]; [reflexivity|]. exact (Hp p0 Hp0).
Qed.
End checked.
