(* ===== verification/Stacks.v ===== *)
(** * The graph-structured stack

    The invariant of the parser of x/parse/parse.go: every predecessor of a
    stack link is an edge of the automaton, with a node that holds a derivation
    of the edge's symbol from the tokens between the two links. *)
From Stdlib Require Import ZArith Lia.
From Stdlib Require Import Strings.Byte.
From stdpp Require Import base numbers option list strings gmap relations.
From S2P Require Import Prelude Grammars Compile Lexer Glr Derive Firsts Automaton Language Machine.

Local Open Scope nat_scope.

(** ** Concrete trees

    A hidden rule is flattened into its parent. *)
Inductive ctree : Type := CLeaf (t : tok) | CNode (kind prod : nat) (kids : list ctree).

Section flat.
Context (c : compiler).
Fixpoint flat (t : ptree) : list ctree :=
  match t with
  | PLeaf t => [CLeaf t]
  | PNode i kids =>
      let fs := flat_map flat kids in
      if p_hidden (c_prod c i) then fs else [CNode (p_lhs (c_prod c i)) i fs]
  end.
End flat.

Fixpoint leaves (t : ctree) : list tok := match t with CLeaf t => [t] | CNode _ _ kids => flat_map leaves kids end.

Lemma flat_map_concat {A B} (f : A -> list B) l : flat_map f l = concat (map f l).
Proof. induction l as [|x l IH]; simpl; congruence. Qed.

Lemma flat_map_flat {A B C} (f : B -> list C) (g : A -> list B) l : flat_map f (flat_map g l) = flat_map (fun x => flat_map f (g x)) l.
Proof. induction l as [|x l IH]; [reflexivity|]. simpl. rewrite flat_map_app, IH. reflexivity. Qed.

(** Flattening keeps the tokens. *)
Lemma flat_leaves c t : flat_map leaves (flat c t) = yield t.
Proof.
  induction t as [t|i kids IH] using ptree_nested_ind; [reflexivity|].
  assert (E : flat_map leaves (flat_map (flat c) kids) = flat_map yield kids).
  { rewrite flat_map_flat. induction IH as [|k ks Hk _ IHk]; [reflexivity|]. simpl. rewrite Hk, IHk. reflexivity. }
  simpl. destruct (p_hidden _); [exact E|]. simpl. rewrite app_nil_r. exact E.
Qed.

(** ** What the parser needs of a table *)

(** An action of the cell of a state and a symbol is that of an item. *)
Definition act_law (c : compiler) (items : nat -> list item) (go : nat -> nat -> option nat) (q s : nat) (x : action) : Prop :=
  (ac_kind x = actShift /\ terminal c s = true /\ go q s = Some (ac_val x)) \/
  (ac_kind x = actReduce /\ exists it, it ∈ items q /\ at_end c it /\ i_prod it = ac_val x /\ i_look it = s /\ ~ (ac_val x = 0 /\ s = SymEOF)) \/
  (x = mkAction actAccept 0 /\ s = SymEOF /\ exists it, it ∈ items q /\ at_end c it /\ i_prod it = 0 /\ i_look it = SymEOF).

Record table_laws (l : Language) (c : compiler) (start : nat) (items : nat -> list item) (go : nat -> nat -> option nat) : Prop := {
  tl_wf : compiler_wf c;
  tl_prods : l_prods l = c_prods c;
  tl_syms : l_syms l = c_syms c;
  tl_start : l_start l = 0;
  tl_accept : accept_wf c start;
  tl_items q it : it ∈ items q -> item_ok c it;
  tl_act q s acts x : (Z.of_nat s < 65536)%Z -> acts_at l q s = Some acts -> x ∈ acts -> act_law c items go q s x;
  tl_gto q s : s < length (c_syms c) -> l_gto l !! cellKey q s = go q s;
  tl_back q s q' i d look : go q s = Some q' -> mkItem i (S d) look ∈ items q' -> mkItem i d look ∈ items q /\ p_rhs (c_prod c i) !! d = Some s;
  tl_not_start q s : go q s <> Some 0;
  tl_goto q i look p : q = 0 \/ (exists q0 s, go q0 s = Some q) -> mkItem i 0 look ∈ items q -> c_prods c !! i = Some p -> i <> 0 -> exists q', go q (p_lhs p) = Some q';
  tl_start_look look : mkItem 0 0 look ∈ items 0 -> look = SymEOF;
  tl_states q s q' : go q s = Some q' -> 0 < l_states l /\ q' < l_states l;
  tl_start_dots it : it ∈ items 0 -> i_dot it = 0;
  tl_only_start q s q' look : go q s = Some q' -> mkItem 0 0 look ∉ items q' }.

(** ** Reading nodes *)

Section reads.
Context (c : compiler).

(** The trees of a node: none for 0, those of its children for a hidden one. *)
Inductive reads (nodes : list node) (kids : list nat) : nat -> list ctree -> Prop :=
| reads_zero : reads nodes kids 0 []
| reads_leaf id n : id <> 0 -> nodes !! id = Some n -> is_hidden n = false -> terminal c (n_kind n) = true -> n_nchild n = 0 ->
    reads nodes kids id [CLeaf (mkTok (n_kind n) (n_start n) (n_end n))]
| reads_node id n ks fs : id <> 0 -> nodes !! id = Some n -> is_hidden n = false -> terminal c (n_kind n) = false ->
    n_nchild n <= length kids - n_child n -> take (n_nchild n) (drop (n_child n) kids) = ks -> Forall (fun k => k < id) ks ->
    Forall2 (reads nodes kids) ks fs -> reads nodes kids id [CNode (n_kind n) (n_prod n) (concat fs)]
| reads_hidden id n ks fs : id <> 0 -> nodes !! id = Some n -> is_hidden n = true -> terminal c (n_kind n) = false ->
    n_nchild n <= length kids - n_child n -> take (n_nchild n) (drop (n_child n) kids) = ks -> Forall (fun k => k < id) ks ->
    Forall2 (reads nodes kids) ks fs -> reads nodes kids id (concat fs).

Lemma take_drop_prefix {A} (l l' : list A) i k : l `prefix_of` l' -> k <= length l - i -> take k (drop i l') = take k (drop i l).
Proof.
  intros [m ->] H. destruct k as [|k]; [reflexivity|]. rewrite drop_app_le by lia. rewrite take_app_le; [reflexivity|]. rewrite length_drop. lia.
Qed.

Lemma reads_mono nodes kids nodes' kids' : nodes `prefix_of` nodes' -> kids `prefix_of` kids' ->
  forall id f, reads nodes kids id f -> reads nodes' kids' id f.
Proof.
  intros Hn Hk. fix IH 3. intros id f H. destruct H as [|id n Hid Hlook Hh Ht Hc|id n ks fs Hid Hlook Hh Ht Hlen Hks Hlt Hfs|id n ks fs Hid Hlook Hh Ht Hlen Hks Hlt Hfs].
  - constructor.
  - apply reads_leaf; try assumption. exact (prefix_lookup_Some _ _ _ _ Hlook Hn).
  - apply reads_node with ks; try assumption; [exact (prefix_lookup_Some _ _ _ _ Hlook Hn)|apply prefix_length in Hk; lia| |].
    + rewrite (take_drop_prefix _ _ _ _ Hk Hlen). exact Hks.
    + clear -IH Hfs. induction Hfs; constructor; auto.
  - apply reads_hidden with n ks; try assumption; [exact (prefix_lookup_Some _ _ _ _ Hlook Hn)|apply prefix_length in Hk; lia| |].
    + rewrite (take_drop_prefix _ _ _ _ Hk Hlen). exact Hks.
    + clear -IH Hfs. induction Hfs; constructor; auto.
Qed.

Lemma reads_lt nodes kids id f : reads nodes kids id f -> id = 0 \/ id < length nodes.
Proof. destruct 1; [auto|right|right|right]; eapply lookup_lt_Some; eassumption. Qed.

Lemma reads_hidden_inv nodes kids id f : reads nodes kids id f -> id <> 0 -> (forall n, nodes !! id = Some n -> is_hidden n = true) ->
  exists n ks fs, nodes !! id = Some n /\ n_nchild n <= length kids - n_child n /\ take (n_nchild n) (drop (n_child n) kids) = ks /\
    Forall (fun k => k < id) ks /\ Forall2 (reads nodes kids) ks fs /\ f = concat fs.
Proof.
  intros H Hid Hh. destruct H as [|id n Hid' Hlook Hv|id n ks fs Hid' Hlook Hv|id n ks fs Hid' Hlook Hv Ht Hlen Hks Hlt Hfs]; [congruence| | |].
  - rewrite (Hh n Hlook) in Hv. discriminate.
  - rewrite (Hh n Hlook) in Hv. discriminate.
  - exists n, ks, fs. auto 10.
Qed.

Lemma node_at_lookup p id n : s_nodes p !! id = Some n -> node_at p id = n.
Proof. intros H. unfold node_at. rewrite nth_lookup, H. reflexivity. Qed.

(** [expand] gives the visible nodes of a node, which read the same. *)
Lemma expand_reads p fuel : forall id f, reads (s_nodes p) (s_kids p) id f -> id < fuel ->
  exists fs, Forall2 (reads (s_nodes p) (s_kids p)) (expand_node fuel p id) fs /\ concat fs = f /\ Forall (fun k => k <= id) (expand_node fuel p id).
Proof.
  induction fuel as [|fuel IH]; intros id f H Hlt; [lia|]. cbn [expand_node].
  destruct (Nat.eqb_spec id 0) as [->|Hid].
  - inversion H; subst; try congruence. exists []. repeat constructor.
  - destruct (is_hidden (node_at p id)) eqn:Eh.
    + destruct (reads_hidden_inv _ _ _ _ H Hid) as (n & ks & fs & Hlook & Hlen & Hks & Hk & Hfs & ->).
      { intros n Hlook. rewrite <- (node_at_lookup _ _ _ Hlook). exact Eh. }
      rewrite (node_at_lookup _ _ _ Hlook). subst ks.
      assert (Eks : map (fun i => nth (n_child n + i) (s_kids p) 0) (seq 0 (n_nchild n)) = take (n_nchild n) (drop (n_child n) (s_kids p))).
      { apply list_eq. intros i. rewrite list_lookup_fmap. destruct (decide (i < n_nchild n)) as [Hi|Hi].
        - rewrite lookup_seq_lt by exact Hi. simpl. rewrite lookup_take_lt, lookup_drop by exact Hi. rewrite nth_lookup.
          destruct (lookup_lt_is_Some_2 (s_kids p) (n_child n + i)) as [x ->]; [lia|reflexivity].
        - rewrite lookup_seq_ge by lia. simpl. rewrite lookup_take_ge by lia. reflexivity. }
      assert (G : forall ks fs, Forall2 (reads (s_nodes p) (s_kids p)) ks fs -> Forall (fun k => k < id) ks ->
        exists gs, Forall2 (reads (s_nodes p) (s_kids p)) (ks ≫= expand_node fuel p) gs /\ concat gs = concat fs /\ Forall (fun k => k <= id) (ks ≫= expand_node fuel p)).
      { clear -IH Hlt. induction 1 as [|k f ks fs Hk _ IHk]; intros Hall; [exists []; repeat constructor|].
        apply Forall_cons in Hall as [Hki Hall]. destruct (IHk Hall) as (gs & H1 & H2 & H3). destruct (IH k f Hk ltac:(lia)) as (gk & K1 & K2 & K3).
        exists (gk ++ gs). rewrite bind_cons. split; [apply Forall2_app; assumption|]. split; [simpl; rewrite concat_app; congruence|].
        apply Forall_app. split; [|exact H3]. eapply Forall_impl; [exact K3|]. simpl. intros. lia. }
      destruct (G _ _ Hfs Hk) as (gs & H1 & H2 & H3). exists gs.
      assert (E : (i ← seq 0 (n_nchild n); expand_node fuel p (nth (n_child n + i) (s_kids p) 0)) = (take (n_nchild n) (drop (n_child n) (s_kids p)) ≫= expand_node fuel p)).
      { rewrite <- Eks. clear. induction (seq 0 (n_nchild n)) as [|i l IHl]; [reflexivity|]. simpl map. rewrite !bind_cons, IHl. reflexivity. }
      rewrite E. auto.
    + exists [f]. split; [constructor; [exact H|constructor]|]. split; [simpl; apply app_nil_r|]. repeat constructor.
Qed.
End reads.

(** * Invariants of the parser's stack

    The operations of x/parse/parse.go keep every property of the edges of the
    graph-structured stack that a shift and a reduction establish.  Trees.v and
    Exact.v give the property. *)

(** A link has a state, a position and a count of reductions. *)
Record mark : Type := mkMark { mk_state : nat; mk_pos : nat; mk_count : Z }.

(** A token at a position, and the position after it. *)
Definition scans (l : Language) (src : list byte) (toks : list tok) (tokMode : bool) (pos : nat) (t : tok) (pos' : nat) : Prop :=
  if tokMode then toks !! pos = Some t /\ pos' = S pos
  else (exists state prev, lex l src pos state prev = mkLexed (t_id t) (t_a t) (t_b t) true) /\ pos' = t_b t.

Section laws.
Context (go : nat -> nat -> option nat) (E : list node -> list nat -> nat -> mark -> mark -> nat -> Prop).

(** Edges upwards over a list of symbols, with their nodes. *)
Inductive echain (nodes : list node) (kids : list nat) (m0 : mark) : list nat -> list nat -> mark -> Prop :=
| echain_nil : echain nodes kids m0 [] [] m0
| echain_snoc Xs raw m1 X nd m : echain nodes kids m0 Xs raw m1 -> go (mk_state m1) X = Some (mk_state m) -> E nodes kids X m1 m nd ->
    echain nodes kids m0 (Xs ++ [X]) (raw ++ [nd]) m.

(** What a property of edges, and one of accepted nodes, has to obey. *)
Record edge_laws (l : Language) (c : compiler) (start : nat) (src : list byte) (toks : list tok) (tokMode : bool) (count : nat -> nat -> Z -> Z)
    (A : list node -> list nat -> nat -> nat -> Prop) : Prop := {
  el_mono nodes kids nodes' kids' X m m' nd : nodes `prefix_of` nodes' -> kids `prefix_of` kids' -> E nodes kids X m m' nd -> E nodes' kids' X m m' nd;
  el_accepted nodes kids nodes' kids' pos nd : nodes `prefix_of` nodes' -> kids `prefix_of` kids' -> A nodes kids pos nd -> A nodes' kids' pos nd;
  el_shift nodes kids m s a b q acts pos k : nodes <> [] -> mk_count m = count (mk_state m) (mk_pos m) k -> (0 <= k)%Z -> acts_at l (mk_state m) s = Some acts -> mkAction actShift q ∈ acts -> terminal c s = true ->
    scans l src toks tokMode (mk_pos m) (mkTok s a b) pos ->
    E (nodes ++ [mkNode s (named_flag l s) a b 0 0 0 0]) kids s m (mkMark q pos (count q pos 0%Z)) (length nodes);
  el_reduce p m0 raw m i info s a b acts pos q k dyn at_ : s_nodes p <> [] -> c_prods c !! i = Some info -> echain (s_nodes p) (s_kids p) m0 (p_rhs info) raw m ->
    acts_at l (mk_state m) s = Some acts -> mkAction actReduce i ∈ acts -> scans l src toks tokMode (mk_pos m) (mkTok s a b) pos ->
    go (mk_state m0) (p_lhs info) = Some q -> l_gto l !! cellKey (mk_state m0) (p_lhs info) = Some q -> mk_count m = count (mk_state m) (mk_pos m) k -> (0 <= k)%Z ->
    let '(id, p') := p_parent l info i raw dyn at_ p in E (s_nodes p') (s_kids p') (p_lhs info) m0 (mkMark q (mk_pos m) (count q (mk_pos m) (k + 1)%Z)) id;
  el_accept nodes kids m nd a b acts pos : E nodes kids start (mkMark 0 0 (count 0 0 0%Z)) m nd -> acts_at l (mk_state m) SymEOF = Some acts ->
    mkAction actAccept 0 ∈ acts -> scans l src toks tokMode (mk_pos m) (mkTok SymEOF a b) pos -> A nodes kids (mk_pos m) nd;
  el_final q pos pos' a b acts k k' : acts_at l q SymEOF = Some acts -> mkAction actAccept 0 ∈ acts -> scans l src toks tokMode pos (mkTok SymEOF a b) pos' ->
    count q pos k = count q pos k' }.
End laws.

Section gss.
Context (l : Language) (c : compiler) (start : nat) (items : nat -> list item) (go : nat -> nat -> option nat).
Context (L : table_laws l c start items go).
Context (src : list byte) (toks : list tok) (tokMode : bool) (lines : list nat) (pathLimit : Z).
Context (count : nat -> nat -> Z -> Z) (Ed : list node -> list nat -> nat -> mark -> mark -> nat -> Prop) (Fin : list node -> list nat -> nat -> nat -> Prop).
Context (Laws : edge_laws go Ed l c start src toks tokMode count Fin).

Local Abbreviation scans_here := (scans l src toks tokMode).

(** ** The invariant *)

(** A link over [par] for a node: an edge of the automaton with the property. *)
Definition edge (p : pr) (ms : list mark) (lk : nat) (par : option nat) (nd : nat) : Prop :=
  exists q m m' X, par = Some q /\ ms !! q = Some m /\ ms !! lk = Some m' /\ go (mk_state m) X = Some (mk_state m') /\
    Ed (s_nodes p) (s_kids p) X m m' nd.

(** [ms] is the mark of each link, [own] the link of each extra. *)
Record gss (p : pr) (ms : list mark) (own : list nat) : Prop := {
  gs_len : length ms = length (s_links p);
  gs_own : length own = length (s_extras p);
  gs_state lk k m : s_links p !! lk = Some k -> ms !! lk = Some m -> mk_state m = k_state k;
  gs_root : exists k, s_links p !! 0 = Some k /\ k_parent k = None /\ k_more k = None;
  gs_root_mark : ms !! 0 = Some (mkMark 0 0 (count 0 0 0%Z));
  gs_edge lk k : lk <> 0 -> s_links p !! lk = Some k -> edge p ms lk (k_parent k) (k_node k);
  gs_extra i e lk : s_extras p !! i = Some e -> own !! i = Some lk -> edge p ms lk (x_parent e) (x_node e);
  gs_more lk k i : s_links p !! lk = Some k -> k_more k = Some i -> own !! i = Some lk;
  gs_next i e j : s_extras p !! i = Some e -> x_more e = Some j -> j < i /\ own !! j = own !! i }.

(** A later state of the parser. *)
Record ext (p : pr) (ms : list mark) (p' : pr) (ms' : list mark) : Prop := {
  ex_nodes : s_nodes p `prefix_of` s_nodes p';
  ex_kids : s_kids p `prefix_of` s_kids p';
  ex_ms : ms `prefix_of` ms' }.

Lemma ext_refl p ms : ext p ms p ms.
Proof. split; reflexivity. Qed.

Lemma ext_trans p ms p1 ms1 p2 ms2 : ext p ms p1 ms1 -> ext p1 ms1 p2 ms2 -> ext p ms p2 ms2.
Proof. intros [A1 B1 C1] [A2 B2 C2]. split; etransitivity; eauto. Qed.

Lemma edge_ext p ms p' ms' lk par nd : ext p ms p' ms' -> edge p ms lk par nd -> edge p' ms' lk par nd.
Proof using Laws.
  intros [H1 H2 H3] (q & m & m' & X & -> & Hq & Hl & Hgo & He). exists q, m, m', X.
  split; [reflexivity|]. split; [exact (prefix_lookup_Some _ _ _ _ Hq H3)|]. split; [exact (prefix_lookup_Some _ _ _ _ Hl H3)|].
  split; [exact Hgo|exact (el_mono _ _ _ _ _ _ _ _ _ _ Laws _ _ _ _ _ _ _ _ H1 H2 He)].
Qed.

Lemma link_at_lookup p lk k : s_links p !! lk = Some k -> link_at p lk = k.
Proof. intros H. unfold link_at. rewrite nth_lookup, H. reflexivity. Qed.

Lemma link_lookup p lk : lk < length (s_links p) -> s_links p !! lk = Some (link_at p lk).
Proof. intros H. destruct (lookup_lt_is_Some_2 _ _ H) as [k Hk]. rewrite (link_at_lookup _ _ _ Hk). exact Hk. Qed.

(** The link of a mark. *)
Lemma mark_link p ms own lk m : gss p ms own -> ms !! lk = Some m -> s_links p !! lk = Some (link_at p lk) /\ k_state (link_at p lk) = mk_state m.
Proof.
  intros G Hm. assert (Hlt : lk < length (s_links p)) by (rewrite <- (gs_len _ _ _ G); exact (lookup_lt_Some _ _ _ Hm)).
  pose proof (link_lookup p lk Hlt) as Hk. split; [exact Hk|]. symmetry. exact (gs_state _ _ _ G lk _ m Hk Hm).
Qed.

(** ** Predecessors *)

Lemma elem_of_chain p ms own fuel : gss p ms own -> forall more lk, (forall i, more = Some i -> own !! i = Some lk) ->
  forall e, e ∈ chain fuel (s_extras p) more -> exists i, s_extras p !! i = Some e /\ own !! i = Some lk.
Proof.
  intros G. induction fuel as [|fuel IH]; intros more lk Hm e He; simpl in He; [apply not_elem_of_nil in He as []|].
  destruct more as [i|]; [|apply not_elem_of_nil in He as []]. destruct (s_extras p !! i) as [x|] eqn:Ex; [|apply not_elem_of_nil in He as []].
  apply elem_of_cons in He as [->|He]; [eauto|]. apply (IH (x_more x) lk); [|exact He].
  intros j Hj. destruct (gs_next _ _ _ G i x j Ex Hj) as [_ ->]. auto.
Qed.

Lemma pred_edge p ms own lk m par nd d : gss p ms own -> ms !! lk = Some m -> lk <> 0 -> (par, nd, d) ∈ eachPred p lk -> edge p ms lk par nd.
Proof.
  intros G Hm H0 Hin. destruct (mark_link p ms own lk m G Hm) as [Hk _]. unfold eachPred in Hin.
  apply elem_of_cons in Hin as [[= -> -> _]|Hin]; [exact (gs_edge _ _ _ G lk _ H0 Hk)|].
  apply list_elem_of_fmap in Hin as (e & [= -> -> _] & He). unfold p_chain in He.
  destruct (elem_of_chain p ms own (length (s_extras p)) G (k_more (link_at p lk)) lk) with (e := e) as (i & Hi & Hown); [|exact He|exact (gs_extra _ _ _ G i e lk Hi Hown)].
  intros i Hi. exact (gs_more _ _ _ G lk _ i Hk Hi).
Qed.

Lemma root_preds p ms own : gss p ms own -> exists nd d, eachPred p 0 = [(None, nd, d)].
Proof.
  intros G. destruct (gs_root _ _ _ G) as (k & Hk & Hpar & Hmore). unfold eachPred. rewrite (link_at_lookup _ _ _ Hk).
  unfold p_chain. rewrite Hpar, Hmore. destruct (length (s_extras p)); simpl; eauto.
Qed.

Lemma bestNode_pred p lk : exists par d, (par, bestNode p lk, d) ∈ eachPred p lk.
Proof.
  unfold bestNode, eachPred. set (k := link_at p lk).
  assert (H : forall es n d, (exists par d', (par, n, d') ∈ (k_parent k, k_node k, k_dyn k) :: map (fun e => (x_parent e, x_node e, x_dyn e)) (p_chain p k)) ->
    (forall e, e ∈ es -> e ∈ p_chain p k) ->
    exists par d', (par, fst (foldl (fun '(n, d) e => if better_pred (x_dyn e) (x_node e) d n then (x_node e, x_dyn e) else (n, d)) (n, d) es), d') ∈
      (k_parent k, k_node k, k_dyn k) :: map (fun e => (x_parent e, x_node e, x_dyn e)) (p_chain p k)).
  { induction es as [|e es IH]; intros n d Hn Hes; simpl; [exact Hn|].
    assert (Hes' : forall e0, e0 ∈ es -> e0 ∈ p_chain p k) by (intros e0 He0; apply Hes; right; exact He0).
    destruct (better_pred _ _ _ _); apply IH; try assumption.
    exists (x_parent e), (x_dyn e). right. apply list_elem_of_fmap. exists e. split; [reflexivity|]. apply Hes. left. }
  apply H; [|auto]. exists (k_parent k), (k_dyn k). left.
Qed.

(** No edge leads to the first link. *)
Lemma edge_not_root p ms own lk par nd : gss p ms own -> edge p ms lk par nd -> forall m, ms !! lk = Some m -> mk_state m <> 0.
Proof using L.
  intros G (q & m & m' & X & _ & _ & Hl & Hgo & _) m0 Hm0 E0. rewrite Hl in Hm0. injection Hm0 as <-. rewrite E0 in Hgo.
  exact (tl_not_start _ _ _ _ _ L _ _ Hgo).
Qed.

(** ** Growing the arrays *)

Lemma gss_errState st p ms own : gss p ms own -> gss (set_errState st p) ms own.
Proof. intros [? ? ? ? ? ? ? ? ?]; split; assumption. Qed.

Lemma gss_noteBound h p ms own : gss p ms own -> gss (noteBound h p) ms own.
Proof. intros G. unfold noteBound. destruct (s_bound p); [exact G|]. destruct G; split; assumption. Qed.

(** The same links and extras over more nodes. *)
Lemma gss_arrays p ms own nodes kids st bd : gss p ms own -> s_nodes p `prefix_of` nodes -> s_kids p `prefix_of` kids ->
  let p' := mkPr nodes kids (s_links p) (s_extras p) st bd in gss p' ms own /\ ext p ms p' ms.
Proof using Laws.
  intros G Hn Hk p'. assert (X : ext p ms p' ms) by (split; simpl; eauto). split; [|exact X].
  destruct G as [H1 H2 H3 H4 H5 H6 H7 H8 H9]. split; simpl; try assumption.
  - intros lk k H0 Hl. exact (edge_ext _ _ _ _ _ _ _ X (H6 lk k H0 Hl)).
  - intros i e lk Hi Ho. exact (edge_ext _ _ _ _ _ _ _ X (H7 i e lk Hi Ho)).
Qed.

Lemma gss_add_link p ms own k m : gss p ms own -> k_more k = None -> mk_state m = k_state k ->
  (exists q m0 X, k_parent k = Some q /\ ms !! q = Some m0 /\ go (mk_state m0) X = Some (mk_state m) /\ Ed (s_nodes p) (s_kids p) X m0 m (k_node k)) ->
  gss (snd (add_link k p)) (ms ++ [m]) own /\ ext p ms (snd (add_link k p)) (ms ++ [m]) /\ (ms ++ [m]) !! length (s_links p) = Some m.
Proof using Laws.
  intros G Hmore Hst (q & m0 & X & Hpar & Hq & Hgo & He). set (p' := snd (add_link k p)).
  assert (Hx : ext p ms p' (ms ++ [m])) by (split; simpl; [reflexivity|reflexivity|eexists; reflexivity]).
  assert (Hnew : (ms ++ [m]) !! length (s_links p) = Some m). { rewrite lookup_app_r by (rewrite (gs_len _ _ _ G); lia). rewrite (gs_len _ _ _ G), Nat.sub_diag. reflexivity. }
  split; [|auto]. pose proof G as [H1 H2 H3 (kr & Hkr & Hkr') H5 H6 H7 H8 H9].
  assert (Hsplit : forall lk k0, s_links p' !! lk = Some k0 -> s_links p !! lk = Some k0 \/ (lk = length (s_links p) /\ k0 = k)).
  { intros lk k0 Hl. simpl in Hl. apply lookup_app_Some in Hl as [Hl|[Hge Hl]]; [auto|].
    destruct (lk - length (s_links p)) as [|j] eqn:Ej; simpl in Hl; [|rewrite lookup_nil in Hl; discriminate]. injection Hl as <-. right. split; [lia|reflexivity]. }
  split.
  - simpl. rewrite !length_app, H1. reflexivity.
  - exact H2.
  - intros lk k0 m1 Hl Hm. destruct (Hsplit lk k0 Hl) as [Hl'|[-> ->]]; [|rewrite Hnew in Hm; congruence].
    rewrite lookup_app_l in Hm by (rewrite H1; exact (lookup_lt_Some _ _ _ Hl')). exact (H3 lk k0 m1 Hl' Hm).
  - exists kr. split; [simpl; apply lookup_app_l_Some, Hkr|exact Hkr'].
  - apply lookup_app_l_Some, H5.
  - intros lk k0 H0 Hl. destruct (Hsplit lk k0 Hl) as [Hl'|[-> ->]]; [exact (edge_ext _ _ _ _ _ _ _ Hx (H6 lk k0 H0 Hl'))|].
    exists q, m0, m, X. split; [exact Hpar|]. split; [apply lookup_app_l_Some, Hq|]. auto.
  - intros i e lk Hi Ho. exact (edge_ext _ _ _ _ _ _ _ Hx (H7 i e lk Hi Ho)).
  - intros lk k0 i Hl Hi. destruct (Hsplit lk k0 Hl) as [Hl'|[-> ->]]; [exact (H8 lk k0 i Hl' Hi)|congruence].
  - exact H9.
Qed.

(** ** New predecessors *)

Lemma find_extra_spec p ms own par fuel : gss p ms own -> forall more lk i, (forall j, more = Some j -> own !! j = Some lk) ->
  find_extra fuel (s_extras p) par more = Some i -> own !! i = Some lk /\ exists e, s_extras p !! i = Some e /\ x_parent e = par.
Proof.
  intros G. induction fuel as [|fuel IH]; intros more lk i Hm H; simpl in H; [discriminate|].
  destruct more as [j|]; [|discriminate]. destruct (s_extras p !! j) as [x|] eqn:Ex; [|discriminate].
  case_bool_decide as Ep; [injection H as <-; split; [auto|eauto]|]. apply (IH (x_more x) lk); [|exact H].
  intros m Hmm. destruct (gs_next _ _ _ G j x m Ex Hmm) as [_ ->]. auto.
Qed.

Lemma set_link_same p ms own lk k k' : gss p ms own -> lk <> 0 -> s_links p !! lk = Some k ->
  k_state k' = k_state k -> edge p ms lk (k_parent k') (k_node k') -> (forall i, k_more k' = Some i -> own !! i = Some lk) ->
  gss (set_link lk k' p) ms own /\ ext p ms (set_link lk k' p) ms.
Proof using Laws.
  intros G H0 Hk Hst He Hm. assert (Hlt : lk < length (s_links p)) by exact (lookup_lt_Some _ _ _ Hk).
  assert (X : ext p ms (set_link lk k' p) ms) by (split; reflexivity).
  split; [|exact X]. destruct G as [H1 H2 H3 (kr & Hkr & Hkr') H5 H6 H7 H8 H9].
  assert (Hsplit : forall lk' k0, s_links (set_link lk k' p) !! lk' = Some k0 -> (lk' = lk /\ k0 = k') \/ (lk' <> lk /\ s_links p !! lk' = Some k0)).
  { simpl. intros lk' k0 Hl. destruct (decide (lk' = lk)) as [->|Hne].
    - rewrite list_lookup_insert_eq in Hl by exact Hlt. injection Hl as <-. auto.
    - rewrite list_lookup_insert_ne in Hl by congruence. auto. }
  split; simpl; try assumption.
  - rewrite length_insert. exact H1.
  - intros lk' k0 m Hl Hm'. destruct (Hsplit lk' k0 Hl) as [[-> ->]|[_ Hl']]; [rewrite Hst; exact (H3 lk k m Hk Hm')|exact (H3 lk' k0 m Hl' Hm')].
  - exists kr. rewrite list_lookup_insert_ne by congruence. auto.
  - intros lk' k0 H0' Hl. apply (edge_ext _ _ _ _ _ _ _ X). destruct (Hsplit lk' k0 Hl) as [[-> ->]|[_ Hl']]; [exact He|exact (H6 lk' k0 H0' Hl')].
  - intros lk' k0 i Hl Hi. destruct (Hsplit lk' k0 Hl) as [[-> ->]|[_ Hl']]; [exact (Hm i Hi)|exact (H8 lk' k0 i Hl' Hi)].
Qed.

Lemma addPred_gss p ms own lk m par nd dyn : gss p ms own -> lk <> 0 -> ms !! lk = Some m -> edge p ms lk par nd ->
  exists own', own `prefix_of` own' /\ gss (addPred lk par nd dyn p) ms own' /\ ext p ms (addPred lk par nd dyn p) ms.
Proof using Laws.
  intros G H0 Hm He. destruct (mark_link p ms own lk m G Hm) as [Hk _]. set (k := link_at p lk) in *.
  unfold addPred. fold k. case_bool_decide as Ep.
  - destruct (better_pred dyn nd (k_dyn k) (k_node k)); [|exists own; split; [reflexivity|split; [exact G|apply ext_refl]]]. exists own. split; [reflexivity|].
    apply (set_link_same p ms own lk k); simpl; try assumption; [reflexivity|rewrite Ep; exact He|]. intros i Hi. exact (gs_more _ _ _ G lk k i Hk Hi).
  - destruct (find_extra _ _ par (k_more k)) as [i|] eqn:Ef.
    + destruct (find_extra_spec p ms own par (length (s_extras p)) G (k_more k) lk i) as (Hown & e & Hi & Hpar); [intros j Hj; exact (gs_more _ _ _ G lk k j Hk Hj)|exact Ef|].
      rewrite Hi. destruct (better_pred dyn nd (x_dyn e) (x_node e)); [|exists own; split; [reflexivity|split; [exact G|apply ext_refl]]]. exists own. split; [reflexivity|].
      set (p' := set_extras _ p). assert (X : ext p ms p' ms) by (split; reflexivity). split; [|exact X].
      assert (Hlt : i < length (s_extras p)) by exact (lookup_lt_Some _ _ _ Hi).
      destruct G as [H1 H2 H3 H4 H5 H6 H7 H8 H9]. split; simpl; try assumption.
      * rewrite length_insert. exact H2.
      * intros j x lk' Hj Ho. apply (edge_ext _ _ _ _ _ _ _ X). destruct (decide (j = i)) as [->|Hne].
        -- rewrite list_lookup_insert_eq in Hj by exact Hlt. injection Hj as <-. simpl. rewrite Hpar. rewrite Hown in Ho. injection Ho as <-. exact He.
        -- rewrite list_lookup_insert_ne in Hj by congruence. exact (H7 j x lk' Hj Ho).
      * intros j x i' Hj Hi'. destruct (decide (j = i)) as [->|Hne].
        -- rewrite list_lookup_insert_eq in Hj by exact Hlt. injection Hj as <-. exact (H9 i e i' Hi Hi').
        -- rewrite list_lookup_insert_ne in Hj by congruence. exact (H9 j x i' Hj Hi').
    + set (p1 := set_extras (s_extras p ++ [mkExtra par nd dyn (k_more k)]) p).
      assert (E1 : ext p ms p1 ms) by (split; reflexivity).
      assert (G1 : gss p1 ms (own ++ [lk])).
      { pose proof G as [H1 H2 H3 H4 H5 H6 H7 H8 H9]. split; simpl; try assumption.
        - rewrite !length_app, H2. reflexivity.
        - intros i e lk' Hi Ho. apply (edge_ext _ _ _ _ _ _ _ E1). apply lookup_app_Some in Hi as [Hi|[Hge Hi]].
          + rewrite lookup_app_l in Ho by (apply lookup_lt_Some in Hi; lia). exact (H7 i e lk' Hi Ho).
          + rewrite lookup_app_r in Ho by lia. rewrite H2 in Ho.
            destruct (i - length (s_extras p)) as [|j]; simpl in Hi, Ho; [|rewrite lookup_nil in Hi; discriminate]. injection Hi as <-. injection Ho as <-. exact He.
        - intros lk' k0 i Hl Hi. apply lookup_app_l_Some. exact (H8 lk' k0 i Hl Hi).
        - intros i e j Hi Hj. apply lookup_app_Some in Hi as [Hi|[Hge Hi]].
          + destruct (H9 i e j Hi Hj) as [Hlt Ho]. apply lookup_lt_Some in Hi. rewrite !lookup_app_l by lia. auto.
          + destruct (i - length (s_extras p)) as [|i'] eqn:Em; simpl in Hi; [|rewrite lookup_nil in Hi; discriminate]. injection Hi as <-. simpl in Hj.
            pose proof (H8 lk k j Hk Hj) as Ho. pose proof (lookup_lt_Some _ _ _ Ho) as Hlt. split; [lia|]. rewrite lookup_app_l by exact Hlt.
            rewrite lookup_app_r by lia. replace (i - length own) with 0 by lia. exact Ho. }
      exists (own ++ [lk]). set (k' := mkLink _ _ _ _ _).
      destruct (set_link_same p1 ms (own ++ [lk]) lk k k' G1 H0 Hk) as [G2 E2]; [reflexivity| | |].
      * simpl. apply (edge_ext _ _ _ _ _ _ _ E1). exact (gs_edge _ _ _ G lk k H0 Hk).
      * simpl. intros i [= <-]. rewrite lookup_app_r by (rewrite (gs_own _ _ _ G); lia). rewrite (gs_own _ _ _ G), Nat.sub_diag. reflexivity.
      * split; [eexists; reflexivity|]. split; [exact G2|]. eapply ext_trans; eauto.
Qed.

(** An edge of a link is one of every link with its mark. *)
Lemma edge_alike p ms lk lk' par nd : ms !! lk = ms !! lk' -> edge p ms lk par nd -> edge p ms lk' par nd.
Proof. intros H (q & m & m' & X & -> & Hq & Hl & Hr). exists q, m, m', X. rewrite <- H. auto. Qed.

Lemma union_chain_gss fuel dst sl m : forall p ms own more, gss p ms own -> dst <> 0 -> ms !! sl = Some m -> ms !! dst = Some m ->
  (forall i, more = Some i -> own !! i = Some sl) ->
  exists own', own `prefix_of` own' /\ gss (union_chain fuel dst more p) ms own' /\ ext p ms (union_chain fuel dst more p) ms.
Proof using Laws.
  induction fuel as [|fuel IH]; intros p ms own more G H0 Hs Hd Hm; simpl; [exists own; split; [reflexivity|split; [exact G|apply ext_refl]]|].
  destruct more as [i|]; [|exists own; split; [reflexivity|split; [exact G|apply ext_refl]]].
  destruct (s_extras p !! i) as [e|] eqn:Ei; [|exists own; split; [reflexivity|split; [exact G|apply ext_refl]]].
  pose proof (Hm i eq_refl) as Hown.
  destruct (addPred_gss p ms own dst m (x_parent e) (x_node e) (x_dyn e) G H0 Hd) as (own1 & Hpre & G1 & E1).
  { apply (edge_alike p ms sl dst); [congruence|]. exact (gs_extra _ _ _ G i e sl Ei Hown). }
  set (p1 := addPred dst (x_parent e) (x_node e) (x_dyn e) p) in *.
  destruct (IH p1 ms own1 (s_extras p1 !! i ≫= x_more) G1 H0 Hs Hd) as (own2 & Hpre2 & G2 & E2).
  { intros j Hj. destruct (s_extras p1 !! i) as [e1|] eqn:Ex; [|discriminate]. simpl in Hj.
    destruct (gs_next _ _ _ G1 i e1 j Ex Hj) as [_ ->]. exact (prefix_lookup_Some _ _ _ _ Hown Hpre). }
  exists own2. split; [etransitivity; eauto|]. split; [exact G2|]. eapply ext_trans; eauto.
Qed.

(** Two different links with one mark are not the first. *)
Lemma alike_nonzero p ms own lk lk' m : gss p ms own -> ms !! lk = Some m -> ms !! lk' = Some m -> lk <> lk' -> lk' <> 0.
Proof using L.
  intros G Hl Hl' Hne ->. destruct (mark_link p ms own lk m G Hl) as [Hk _]. pose proof (gs_edge _ _ _ G lk _ Hne Hk) as He.
  apply (edge_not_root p ms own lk _ _ G He m Hl). rewrite (gs_root_mark _ _ _ G) in Hl'. injection Hl' as <-. reflexivity.
Qed.

Lemma union_gss p ms own dst sl m : gss p ms own -> ms !! sl = Some m -> ms !! dst = Some m ->
  exists own', own `prefix_of` own' /\ gss (p_union dst sl p) ms own' /\ ext p ms (p_union dst sl p) ms.
Proof using L Laws.
  intros G Hs Hd. unfold p_union. destruct (Nat.eqb_spec dst sl) as [->|Hne]; [exists own; split; [reflexivity|split; [exact G|apply ext_refl]]|].
  assert (H0 : dst <> 0) by (apply (alike_nonzero p ms own sl dst m G Hs Hd); congruence).
  assert (Hs0 : sl <> 0) by exact (alike_nonzero p ms own dst sl m G Hd Hs Hne).
  destruct (mark_link p ms own sl m G Hs) as [Hk _]. set (k := link_at p sl) in *.
  destruct (addPred_gss p ms own dst m (k_parent k) (k_node k) (k_dyn k) G H0 Hd) as (own1 & Hpre & G1 & E1).
  { apply (edge_alike p ms sl dst); [congruence|]. exact (gs_edge _ _ _ G sl k Hs0 Hk). }
  destruct (union_chain_gss (length (s_extras p)) dst sl m _ ms own1 (k_more k) G1 H0 Hs Hd) as (own2 & Hpre2 & G2 & E2).
  { intros i Hi. exact (prefix_lookup_Some _ _ _ _ (gs_more _ _ _ G sl k i Hk Hi) Hpre). }
  exists own2. split; [etransitivity; eauto|]. split; [exact G2|]. eapply ext_trans; eauto.
Qed.

(** ** Paths *)

(** The nodes on a way down from a link, leftmost first. *)
Inductive path (p : pr) : nat -> list nat -> nat -> Prop :=
| path_nil lk : path p lk [] lk
| path_snoc lk q nd d ns anc : (Some q, nd, d) ∈ eachPred p lk -> path p q ns anc -> path p lk (ns ++ [nd]) anc.

Lemma path_one p lk q nd d : (Some q, nd, d) ∈ eachPred p lk -> path p lk [nd] q.
Proof. intros H. change [nd] with ([] ++ [nd]). econstructor; [exact H|constructor]. Qed.

Lemma path_app p lk ns anc ms anc' : path p lk ns anc -> path p anc ms anc' -> path p lk (ms ++ ns) anc'.
Proof.
  induction 1 as [lk|lk q nd d ns anc Hp _ IH]; intros H; [rewrite app_nil_r; exact H|].
  rewrite (assoc_L (++)). econstructor; [exact Hp|]. apply IH, H.
Qed.

Lemma onePath_path p n : forall lk raw dyn raw' anc dyn', onePath p (Some lk) n raw dyn = Some (raw', anc, dyn') ->
  exists ns, raw' = ns ++ raw /\ length ns = n /\ path p lk ns anc.
Proof.
  induction n as [|n IH]; intros lk raw dyn raw' anc dyn' H; simpl in H.
  - injection H as <- <- _. exists []. split; [reflexivity|]. split; [reflexivity|constructor].
  - destruct (k_more (link_at p lk)) eqn:Em; [discriminate|]. destruct (k_parent (link_at p lk)) as [q|] eqn:Eq; [|destruct n; discriminate].
    destruct (IH q _ _ _ _ _ H) as (ns & -> & Hlen & Hp). exists (ns ++ [k_node (link_at p lk)]). rewrite <- (assoc_L (++)).
    split; [reflexivity|]. split; [rewrite length_app; simpl; lia|]. econstructor; [|exact Hp]. unfold eachPred. rewrite Eq. left.
Qed.

Definition cursor_ok (p : pr) (lk n : nat) (cu : pathCursor) : Prop := length (pc_path cu) = n /\ path p lk (pc_path cu) (pc_link cu).

Lemma add_path_ok p lk n part st pred : cursor_ok p lk n part -> pred ∈ eachPred p (pc_link part) ->
  Forall (cursor_ok p lk (S n)) (ps_next st) -> Forall (cursor_ok p lk (S n)) (ps_next (add_path pathLimit part st pred)).
Proof.
  intros [Hlen Hpath] Hin Hall. destruct pred as [[par nd] d]. unfold add_path. destruct par as [q|]; [|exact Hall].
  destruct (ps_overflow st); [exact Hall|].
  assert (Hnew : forall dyn, cursor_ok p lk (S n) (mkCursor (nd :: pc_path part) q dyn)).
  { intros dyn. split; simpl; [lia|]. exact (path_app p lk _ _ [nd] q Hpath (path_one _ _ _ _ _ Hin)). }
  destruct (ps_best st !! q) as [i|].
  - destruct (ps_next st !! i) as [old|]; [|exact Hall]. destruct (_ <=? _)%Z; [exact Hall|]. simpl. apply Forall_insert; [exact Hall|apply Hnew].
  - destruct (_ <=? _)%Z; [exact Hall|]. simpl. apply Forall_app. split; [exact Hall|]. constructor; [apply Hnew|constructor].
Qed.

Lemma foldl_ind {A B} (P : A -> Prop) (f : A -> B -> A) xs : forall a, P a -> (forall a x, P a -> x ∈ xs -> P (f a x)) -> P (foldl f a xs).
Proof.
  induction xs as [|x xs IH]; intros a Ha Hf; simpl; [exact Ha|]. apply IH; [apply Hf; [exact Ha|left]|].
  intros b y Hb Hy. apply Hf; [exact Hb|right; exact Hy].
Qed.

Lemma pop_paths_ok p lk n cur : Forall (cursor_ok p lk n) cur -> Forall (cursor_ok p lk (S n)) (ps_next (pop_paths pathLimit p cur)).
Proof.
  intros Hcur. rewrite Forall_forall in Hcur. unfold pop_paths.
  apply (foldl_ind (fun st => Forall (cursor_ok p lk (S n)) (ps_next st))); [constructor|].
  intros st part Hst Hpart. destruct (ps_overflow st); [exact Hst|].
  apply (foldl_ind (fun st => Forall (cursor_ok p lk (S n)) (ps_next st))); [exact Hst|].
  intros st' pred Hst' Hpred. apply (add_path_ok p lk n part); auto.
Qed.

Lemma pop_loop_ok p lk n : forall k cur cur', Forall (cursor_ok p lk k) cur -> pop_loop pathLimit n p cur = Popped cur' ->
  Forall (cursor_ok p lk (n + k)) cur'.
Proof.
  induction n as [|n IH]; intros k cur cur' Hcur H; simpl in H; [injection H as <-; exact Hcur|].
  pose proof (pop_paths_ok p lk k cur Hcur) as K. destruct (ps_overflow (pop_paths pathLimit p cur)); [discriminate|].
  destruct (ps_next (pop_paths pathLimit p cur)) as [|x xs]; [discriminate|]. replace (S n + k) with (n + S k) by lia. exact (IH (S k) _ _ K H).
Qed.

(** A path below an item whose dot moved over it is a chain of edges over the
    symbols before the dot. *)
Lemma path_chain p ms own i look pinfo : gss p ms own -> c_prods c !! i = Some pinfo ->
  forall ns lk anc m, path p lk ns anc -> ms !! lk = Some m -> mkItem i (length ns) look ∈ items (mk_state m) ->
  exists m0, ms !! anc = Some m0 /\ mkItem i 0 look ∈ items (mk_state m0) /\ echain go Ed (s_nodes p) (s_kids p) m0 (take (length ns) (p_rhs pinfo)) ns m.
Proof using L.
  intros G Hp ns lk anc m Hpath. revert m. induction Hpath as [lk|lk q nd d ns anc Hin Hpath IH]; intros m Hm Hit.
  - exists m. split; [exact Hm|]. split; [exact Hit|]. rewrite take_0. constructor.
  - assert (H0 : lk <> 0). { intros ->. destruct (root_preds p ms own G) as (n0 & d0 & Er). rewrite Er in Hin. apply list_elem_of_singleton in Hin. discriminate. }
    destruct (pred_edge p ms own lk m (Some q) nd d G Hm H0 Hin) as (q' & m1 & m' & X & [= <-] & Hq & Hl & Hgo & He).
    rewrite Hm in Hl. injection Hl as <-. rewrite length_app in Hit. simpl in Hit. rewrite Nat.add_1_r in Hit.
    destruct (tl_back _ _ _ _ _ L _ _ _ _ _ _ Hgo Hit) as [Hback Hdot]. rewrite (c_prod_lookup c _ _ Hp) in Hdot.
    destruct (IH m1 Hq Hback) as (m0 & Hm0 & Hit0 & Hch). exists m0. split; [exact Hm0|]. split; [exact Hit0|].
    rewrite length_app. simpl. rewrite Nat.add_1_r, (take_S_r _ _ _ Hdot). exact (echain_snoc _ _ _ _ _ _ _ _ _ _ _ Hch Hgo He).
Qed.

Lemma echain_ext p ms p' ms' m0 Xs raw m : ext p ms p' ms' -> echain go Ed (s_nodes p) (s_kids p) m0 Xs raw m -> echain go Ed (s_nodes p') (s_kids p') m0 Xs raw m.
Proof using Laws.
  intros [H1 H2 _]. induction 1; econstructor; eauto. exact (el_mono _ _ _ _ _ _ _ _ _ _ Laws _ _ _ _ _ _ _ _ H1 H2 H3).
Qed.

(** ** Nodes *)

(** A reduction adds at most one node. *)
Lemma p_parent_arrays info i raw dyn at_ p : s_nodes p <> [] -> exists nodes kids,
  snd (p_parent l info i raw dyn at_ p) = mkPr nodes kids (s_links p) (s_extras p) (s_errState p) (s_bound p) /\
  s_nodes p `prefix_of` nodes /\ s_kids p `prefix_of` kids /\ nodes <> [].
Proof.
  intros N. unfold p_parent. destruct (span_of p _ at_) as [st en].
  assert (Hsame : exists nodes kids, p = mkPr nodes kids (s_links p) (s_extras p) (s_errState p) (s_bound p) /\
    s_nodes p `prefix_of` nodes /\ s_kids p `prefix_of` kids /\ nodes <> []) by (exists (s_nodes p), (s_kids p); destruct p; simpl in *; auto).
  assert (Hadd : forall n kids, exists nodes kids', snd (p_add n (mkPr (s_nodes p) (s_kids p ++ kids) (s_links p) (s_extras p) (s_errState p) (s_bound p))) =
    mkPr nodes kids' (s_links p) (s_extras p) (s_errState p) (s_bound p) /\ s_nodes p `prefix_of` nodes /\ s_kids p `prefix_of` kids' /\ nodes <> []).
  { intros n kids. eexists _, _. split; [reflexivity|]. split; [eexists; reflexivity|]. split; [eexists; reflexivity|]. destruct (s_nodes p); discriminate. }
  destruct (p_hidden info); [destruct (filter _ raw) as [|d [|d' rest]]; [exact Hsame|exact Hsame|apply Hadd]|].
  destruct (match p_expand p _ with [] => _ | _ => _ end) as [st' en']. apply Hadd.
Qed.

Lemma p_parent_later info i raw dyn at_ p ms own : gss p ms own -> s_nodes p <> [] ->
  let p' := snd (p_parent l info i raw dyn at_ p) in gss p' ms own /\ ext p ms p' ms /\ s_links p' = s_links p /\ s_nodes p' <> [].
Proof using Laws.
  intros G N. destruct (p_parent_arrays info i raw dyn at_ p N) as (nodes & kids & -> & H1 & H2 & H3).
  destruct (gss_arrays p ms own nodes kids (s_errState p) (s_bound p) G H1 H2) as [G' X]. simpl. auto.
Qed.

(** ** Heads *)

Context (Hfits : Forall (fun t => (Z.of_nat (t_id t) < 65536)%Z) toks) (Hsyms : (Z.of_nat (length (l_syms l)) <= 65536)%Z).

Definition head_ok (p : pr) (ms : list mark) (h : head) : Prop :=
  (exists m, ms !! h_link h = Some m /\ mk_pos m = h_pos h /\ mk_count m = count (mk_state m) (mk_pos m) (h_stall h) /\ (0 <= h_stall h)%Z /\
     (h_acc h = true -> h_has h = true /\ h_sym h = SymEOF /\ exists acts, acts_at l (mk_state m) SymEOF = Some acts /\ mkAction actAccept 0 ∈ acts)) /\
  (h_has h = true -> exists pos, scans_here (h_pos h) (mkTok (h_sym h) (h_a h) (h_b h)) pos /\ pos = (if tokMode then S (h_pos h) else h_b h) /\
     (Z.of_nat (h_sym h) < 65536)%Z) /\
  (h_acc h = true -> Fin (s_nodes p) (s_kids p) (h_pos h) (h_node h)).

Lemma head_ext p ms p' ms' h : ext p ms p' ms' -> head_ok p ms h -> head_ok p' ms' h.
Proof using Laws.
  intros X ((m & H1 & H2) & H3 & H4). split; [exists m; split; [exact (prefix_lookup_Some _ _ _ _ H1 (ex_ms _ _ _ _ X))|exact H2]|].
  split; [exact H3|]. intros Ha. exact (el_accepted _ _ _ _ _ _ _ _ _ _ Laws _ _ _ _ _ _ (ex_nodes _ _ _ _ X) (ex_kids _ _ _ _ X) (H4 Ha)).
Qed.

(** A later state that keeps the invariant, with these heads. *)
Definition later (p : pr) (ms : list mark) (heads : list head) (p' : pr) : Prop := exists ms' own',
  gss p' ms' own' /\ ext p ms p' ms' /\ s_nodes p' <> [] /\ Forall (head_ok p' ms') heads.

Lemma later_refl p ms own : gss p ms own -> s_nodes p <> [] -> later p ms [] p.
Proof. intros G N. exists ms, own. split; [exact G|]. split; [apply ext_refl|]. split; [exact N|constructor]. Qed.

Lemma later_errState st p ms hs p' : later p ms hs p' -> later p ms hs (set_errState st p').
Proof.
  intros (ms' & own' & G & E & N & F). exists ms', own'. split; [apply gss_errState, G|]. split; [|split; [exact N|exact F]].
  destruct E; split; assumption.
Qed.

Lemma later_drop p ms hs p' : later p ms hs p' -> later p ms [] p'.
Proof. intros (ms' & own' & G & E & N & _). exists ms', own'. auto. Qed.

Lemma later_noteBound p ms h p' : later p ms [] p' -> later p ms [] (noteBound h p').
Proof.
  intros (ms' & own' & G & E & N & F). exists ms', own'. split; [apply gss_noteBound, G|].
  unfold noteBound. destruct (s_bound p'); [auto|]. destruct E. split; [split; assumption|]. auto.
Qed.

Lemma later_forall p ms hs hs' p' : later p ms hs p' -> (forall x, x ∈ hs' -> x ∈ hs) -> later p ms hs' p'.
Proof.
  intros (ms' & own' & G & E & N & F) H. exists ms', own'. rewrite !Forall_forall in *. auto 10.
Qed.

Lemma errAt_state pos h p : exists st, snd (errAt src toks tokMode lines pos h p) = set_errState st p.
Proof. unfold errAt. destruct (lineCol _ _). simpl. eauto. Qed.

Lemma longest_token_id at_ state startAt prev : bt_id (longest_token l src state startAt at_ prev) < Nat.max 1 (length (l_syms l)).
Proof.
  unfold longest_token. apply (foldl_ind (fun b => bt_id b < Nat.max 1 (length (l_syms l)))); [simpl; lia|].
  intros b sid Hb Hin%elem_of_seq. unfold better_token. destruct (negb _); [exact Hb|]. destruct (_ <=? _)%Z; [exact Hb|].
  destruct ((bt_len b <? _)%Z || _); simpl; [lia|exact Hb].
Qed.

Lemma lex_loop_id fuel : forall startAt at_ state prev, lx_id (lex_loop fuel l src startAt at_ state prev) < Nat.max 2 (length (l_syms l)).
Proof.
  induction fuel as [|fuel IH]; intros startAt at_ state prev; simpl; [lia|]. destruct (length src <=? at_); [simpl; unfold SymEOF; lia|].
  pose proof (longest_token_id at_ state startAt prev). destruct ((0 <? _)%Z && _); [simpl; lia|]. destruct (0 <? _)%Z; [apply IH|].
  destruct (0 <? _)%Z; simpl; lia.
Qed.

Lemma lex_id at_ state prev : (Z.of_nat (lx_id (lex l src at_ state prev)) < 65536)%Z.
Proof using Hsyms. unfold lex. destruct (_ <? _); [simpl; lia|]. pose proof (lex_loop_id (S (length src - at_)) at_ at_ state prev). lia. Qed.

Lemma ensure_ok p ms h h' : head_ok p ms h -> ensure l src toks tokMode h p = (true, h') ->
  head_ok p ms h' /\ h_has h' = true /\ h_link h' = h_link h /\ h_pos h' = h_pos h /\ h_acc h' = h_acc h /\ h_eps h' = h_eps h /\ h_stall h' = h_stall h.
Proof using Laws Hfits Hsyms.
  intros Hh. unfold ensure. destruct (h_has h) eqn:Eh; [intros [= <-]; auto 10|]. destruct Hh as ((m & K1 & K2 & K3 & K4 & K5) & _ & H4).
  assert (Hfresh : forall P : Prop, h_acc h = true -> P) by (intros P Ha; destruct (K5 Ha); congruence).
  unfold head_ok, scans. destruct tokMode eqn:Em.
  - destruct (toks !! h_pos h) as [t|] eqn:Et; [|discriminate]. intros [= <-]. simpl. split; [|auto 10].
    split; [exists m; split; [exact K1|]; split; [exact K2|]; split; [exact K3|]; split; [exact K4|apply Hfresh]|]. split; [|exact H4]. intros _. exists (S (h_pos h)). split; [split; [destruct t; exact Et|reflexivity]|]. split; [reflexivity|].
    rewrite Forall_forall in Hfits. apply (Hfits t), (list_elem_of_lookup_2 _ _ _ Et).
  - destruct (_ <? _); [discriminate|]. destruct (lx_ok _) eqn:Eok; [|discriminate]. intros [= <-]. simpl. split; [|auto 10].
    split; [exists m; split; [exact K1|]; split; [exact K2|]; split; [exact K3|]; split; [exact K4|apply Hfresh]|]. split; [|exact H4]. intros _. eexists. split; [split; [|reflexivity]|split; [reflexivity|apply lex_id]].
    exists (k_state (link_at p (h_link h))), (prevSymbol l src p (h_link h)).
    destruct (lex l src _ _ _) as [i a b ok] eqn:El. simpl in *. subst ok. reflexivity.
Qed.

(** ** Shifting and reducing *)

(** The actions of the cell of a head. *)
Definition has_action (p : pr) (h : head) (x : action) : Prop :=
  exists acts, acts_at l (k_state (link_at p (h_link h))) (h_sym h) = Some acts /\ x ∈ acts.

(** The parts of a head whose token is read. *)
Lemma head_parts p ms own h : gss p ms own -> head_ok p ms h -> h_has h = true -> exists m pos, ms !! h_link h = Some m /\
  mk_state m = k_state (link_at p (h_link h)) /\ mk_pos m = h_pos h /\ mk_count m = count (mk_state m) (mk_pos m) (h_stall h) /\ (0 <= h_stall h)%Z /\
  scans_here (mk_pos m) (mkTok (h_sym h) (h_a h) (h_b h)) pos /\ pos = (if tokMode then S (h_pos h) else h_b h) /\ (Z.of_nat (h_sym h) < 65536)%Z.
Proof.
  intros G ((m & Hm & Hpos & Hcount & Hge & _) & Hhas & _) Hh. destruct (Hhas Hh) as (pos & Hs & Hpos' & Hid). exists m, pos.
  destruct (mark_link p ms own _ m G Hm) as [_ Hst]. split; [exact Hm|]. split; [congruence|]. split; [exact Hpos|]. split; [exact Hcount|]. split; [exact Hge|]. rewrite Hpos. split; [exact Hs|]. split; [exact Hpos'|exact Hid].
Qed.

Lemma doShift_later p ms own h q : gss p ms own -> s_nodes p <> [] -> head_ok p ms h -> h_has h = true -> h_acc h = false ->
  has_action p h (mkAction actShift q) -> terminal c (h_sym h) = true -> go (k_state (link_at p (h_link h))) (h_sym h) = Some q ->
  let '(h', p') := doShift l tokMode h q p in later p ms [h'] p'.
Proof using Laws.
  intros G N Hh Hhas Hacc (acts & Hacts & Hin) Ht Hgo. destruct (head_parts p ms own h G Hh Hhas) as (m & pos & Hm & Hst & Hpos & Hcount & Hge & Hs & Epos & _).
  unfold doShift. set (n := mkNode _ _ _ _ _ _ _ _). cbn [p_add].
  destruct (gss_arrays p ms own (s_nodes p ++ [n]) (s_kids p) (s_errState p) (s_bound p) G) as [G1 E1]; [eexists; reflexivity|reflexivity|].
  set (p1 := mkPr _ _ _ _ _ _) in *. set (k := mkLink q _ _ _ _). rewrite <- Hst in Hacts, Hgo.
  destruct (gss_add_link p1 ms own k (mkMark q pos (count q pos 0%Z)) G1 eq_refl eq_refl) as (G2 & E2 & Hnew).
  { exists (h_link h), m, (h_sym h). simpl. split; [reflexivity|]. split; [exact Hm|]. split; [exact Hgo|].
    exact (el_shift _ _ _ _ _ _ _ _ _ _ Laws _ _ _ _ _ _ _ _ _ (h_stall h) N Hcount Hge Hacts Hin Ht Hs). }
  destruct (add_link k p1) as [lk p2] eqn:Ea. simpl in *. assert (lk = length (s_links p)) as -> by (unfold add_link in Ea; simpl in Ea; congruence).
  exists (ms ++ [mkMark q pos (count q pos 0%Z)]), own. split; [exact G2|]. split; [exact (ext_trans _ _ _ _ _ _ E1 E2)|].
  split; [pose proof (ex_nodes _ _ _ _ E2) as [r Hr]; rewrite Hr; destruct (s_nodes p); discriminate|]. constructor; [|constructor].
  split; [exists (mkMark q pos (count q pos 0%Z)); simpl; split; [exact Hnew|]; split; [exact Epos|]; split; [reflexivity|]; split; [lia|congruence]|]. split; [discriminate|]. simpl. congruence.
Qed.

Lemma finishReduce_later p ms own h k i info anc raw dyn m0 m e0 : gss p ms own -> s_nodes p <> [] -> head_ok p ms h -> h_has h = true -> h_acc h = false ->
  c_prods c !! i = Some info -> ms !! h_link h = Some m -> ms !! anc = Some m0 -> echain go Ed (s_nodes p) (s_kids p) m0 (p_rhs info) raw m ->
  has_action p h (mkAction actReduce i) -> k = h_stall h ->
  let '(got, _, p') := finishReduce l (with_counts e0 (k + 1) h) info i anc raw dyn p in later p ms got p'.
Proof using L Laws.
  intros G N Hh Hhas Hacc Hi Hm Hm0 Hch (acts & Hacts & Hin) ->. destruct (head_parts p ms own h G Hh Hhas) as (m' & pos & Hm' & Hst & Hpos & Hcount & Hge & Hs & Epos & Hid).
  rewrite Hm in Hm'. injection Hm' as <-. unfold finishReduce. simpl (h_a _).
  destruct (p_parent_later info i raw dyn (h_a h) p ms own G N) as (G1 & E1 & El & N1).
  assert (Hgo : forall q, l_gto l !! cellKey (mk_state m0) (p_lhs info) = Some q -> go (mk_state m0) (p_lhs info) = Some q).
  { intros q Hq. rewrite <- (tl_gto _ _ _ _ _ L); [exact Hq|]. exact (proj1 (wf_lhs _ (tl_wf _ _ _ _ _ L) _ (list_elem_of_lookup_2 _ _ _ Hi))). }
  rewrite <- Hst in Hacts. pose proof (fun q => el_reduce _ _ _ _ _ _ _ _ _ _ Laws p m0 raw m i info _ _ _ _ _ q (h_stall h) dyn (h_a h) N Hi Hch Hacts Hin Hs) as Hred.
  destruct (p_parent l info i raw dyn (h_a h) p) as [id p1]. simpl in G1, E1, El, N1.
  destruct (mark_link p1 ms own anc m0 G1 Hm0) as [_ Hst0]. rewrite Hst0.
  destruct (l_gto l !! cellKey (mk_state m0) (p_lhs info)) as [q|] eqn:Eq.
  2: { exists ms, own. split; [exact G1|]. split; [exact E1|]. split; [exact N1|constructor]. }
  specialize (Hred q (Hgo q eq_refl) eq_refl Hcount Hge). set (k := mkLink q _ _ _ _). set (m1 := mkMark q (mk_pos m) (count q (mk_pos m) (h_stall h + 1)%Z)) in *.
  destruct (gss_add_link p1 ms own k m1 G1 eq_refl eq_refl) as (G2 & E2 & Hnew).
  { exists anc, m0, (p_lhs info). simpl. auto. }
  destruct (add_link k p1) as [lk p2] eqn:Ea. simpl in *. assert (lk = length (s_links p1)) as -> by (unfold add_link in Ea; simpl in Ea; congruence).
  exists (ms ++ [m1]), own. split; [exact G2|]. split; [exact (ext_trans _ _ _ _ _ _ E1 E2)|].
  split; [pose proof (ex_nodes _ _ _ _ E2) as [r Hr]; rewrite Hr; destruct (s_nodes p1); [congruence|discriminate]|]. constructor; [|constructor].
  split; [exists m1; split; [exact Hnew|]; simpl; split; [exact Hpos|]; split; [reflexivity|]; split; [lia|congruence]|]. destruct Hh as (_ & H3 & _). split; [exact H3|]. simpl. congruence.
Qed.

(** The chain of each path outlives the other reductions. *)
Definition cursor_chain (p : pr) (ms : list mark) (info : prodInfo) (m : mark) (cu : pathCursor) : Prop := exists m0,
  ms !! pc_link cu = Some m0 /\ echain go Ed (s_nodes p) (s_kids p) m0 (p_rhs info) (pc_path cu) m.

Lemma cursor_chain_ext p ms p' ms' info m cu : ext p ms p' ms' -> cursor_chain p ms info m cu -> cursor_chain p' ms' info m cu.
Proof using Laws.
  intros X (m0 & H1 & H2). exists m0. split; [exact (prefix_lookup_Some _ _ _ _ H1 (ex_ms _ _ _ _ X))|exact (echain_ext _ _ _ _ _ _ _ _ X H2)].
Qed.

(** The cell of a head stays the same. *)
Lemma has_action_ext p ms own p' ms' own' h x : gss p ms own -> gss p' ms' own' -> ext p ms p' ms' -> head_ok p ms h -> has_action p h x -> has_action p' h x.
Proof.
  intros G G' X ((m & Hm & _) & _) (acts & Hacts & Hx). exists acts. split; [|exact Hx].
  destruct (mark_link p ms own _ m G Hm) as [_ Hst]. destruct (mark_link p' ms' own' (h_link h) m G') as [_ Hst'].
  - exact (prefix_lookup_Some _ _ _ _ Hm (ex_ms _ _ _ _ X)).
  - rewrite Hst', <- Hst. exact Hacts.
Qed.

Lemma finish_paths_later i info h e0 m : c_prods c !! i = Some info -> h_has h = true -> h_acc h = false -> forall cur p ms own, gss p ms own -> s_nodes p <> [] ->
  head_ok p ms h -> ms !! h_link h = Some m -> has_action p h (mkAction actReduce i) -> Forall (cursor_chain p ms info m) cur ->
  let '(out, p') := finish_paths l (with_counts e0 (h_stall h + 1) h) info i cur p in later p ms out p'.
Proof using L Laws.
  intros Hi Hhas Hacc cur. unfold finish_paths.
  assert (H : forall cur out0 p0 ms0 p ms own, gss p ms own -> s_nodes p <> [] -> ext p0 ms0 p ms -> Forall (head_ok p ms) out0 -> head_ok p ms h ->
    ms !! h_link h = Some m -> has_action p h (mkAction actReduce i) -> Forall (cursor_chain p ms info m) cur ->
    let '(out, p') := foldl (fun '(out, p) part =>
      let '(got, kind, p) := finishReduce l (with_counts e0 (h_stall h + 1) h) info i (pc_link part) (pc_path part) (pc_dyn part) p in
      match kind with redOK => (out ++ got, p) | _ => (out, p) end) (out0, p) cur in later p0 ms0 out p').
  { clear cur. induction cur as [|part cur IH]; intros out0 p0 ms0 p ms own G N E0 Ho Hh Hm Hact Hcur; cbn [foldl].
    - exists ms, own. auto.
    - apply Forall_cons in Hcur as [(m0 & H1 & H2) Hcur].
      pose proof (finishReduce_later p ms own h (h_stall h) i info (pc_link part) (pc_path part) (pc_dyn part) m0 m e0 G N Hh Hhas Hacc Hi Hm H1 H2 Hact eq_refl) as K.
      destruct (finishReduce l _ info i (pc_link part) (pc_path part) (pc_dyn part) p) as [[got kind] p1].
      destruct K as (ms1 & own1 & G1 & E1 & N1 & F1).
      assert (Hcur1 : Forall (cursor_chain p1 ms1 info m) cur). { eapply Forall_impl; [exact Hcur|]. intros cu. apply cursor_chain_ext, E1. }
      assert (Ho1 : Forall (head_ok p1 ms1) out0). { eapply Forall_impl; [exact Ho|]. intros x. apply head_ext, E1. }
      pose proof (ext_trans _ _ _ _ _ _ E0 E1) as E01. pose proof (head_ext _ _ _ _ _ E1 Hh) as Hh1.
      pose proof (prefix_lookup_Some _ _ _ _ Hm (ex_ms _ _ _ _ E1)) as Hm1. pose proof (has_action_ext _ _ _ _ _ _ _ _ G G1 E1 Hh Hact) as Hact1.
      assert (Hog : Forall (head_ok p1 ms1) (out0 ++ got)) by (apply Forall_app; auto).
      destruct kind; [exact (IH _ p0 ms0 p1 ms1 own1 G1 N1 E01 Hog Hh1 Hm1 Hact1 Hcur1)|..];
        exact (IH _ p0 ms0 p1 ms1 own1 G1 N1 E01 Ho1 Hh1 Hm1 Hact1 Hcur1). }
  intros p ms own G N Hh Hm Hact Hcur. exact (H cur [] p ms p ms own G N (ext_refl p ms) (Forall_nil_2 _) Hh Hm Hact Hcur).
Qed.

Lemma with_counts_ok_has p h e k x : has_action p h x -> has_action p (with_counts e k h) x.
Proof. intros H. exact H. Qed.

Lemma doReduce_later p ms own h i : gss p ms own -> s_nodes p <> [] -> head_ok p ms h -> h_has h = true -> h_acc h = false ->
  has_action p h (mkAction actReduce i) ->
  (exists it, it ∈ items (k_state (link_at p (h_link h))) /\ at_end c it /\ i_prod it = i) ->
  let '(got, _, p') := doReduce l pathLimit h i p in later p ms got p'.
Proof using L Laws.
  intros G N Hh Hhas Hacc Hact ([i' d look] & Hit & Hend & Ei). simpl in Ei. subst i'. unfold doReduce. rewrite (tl_prods _ _ _ _ _ L).
  destruct (c_prods c !! i) as [info|] eqn:Hi; [|exact (later_refl p ms own G N)].
  destruct (_ <? _)%Z; [exact (later_refl p ms own G N)|].
  unfold at_end, after_dot in Hend. simpl in Hend. rewrite (c_prod_lookup c _ _ Hi) in Hend. apply lookup_ge_None in Hend.
  destruct (tl_items _ _ _ _ _ L _ _ Hit) as (_ & Hd & _). simpl in Hd. rewrite (c_prod_lookup c _ _ Hi) in Hd.
  assert (d = length (p_rhs info)) as -> by lia. destruct (head_parts p ms own h G Hh Hhas) as (m & _ & Hm & Hst & _). rewrite <- Hst in Hit.
  assert (Hchain : forall cu, cursor_ok p (h_link h) (length (p_rhs info)) cu -> cursor_chain p ms info m cu).
  { intros cu [Hlen Hpath]. rewrite <- Hlen in Hit. destruct (path_chain p ms own i look info G Hi (pc_path cu) (h_link h) (pc_link cu) m Hpath Hm Hit) as (m0 & H1 & _ & H2).
    exists m0. split; [exact H1|]. rewrite Hlen, take_ge in H2 by lia. exact H2. }
  destruct (length (p_rhs info) =? 0) eqn:E0.
  - apply Nat.eqb_eq in E0. destruct (_ <? _)%Z; [exact (later_refl p ms own G N)|].
    destruct (Hchain (mkCursor [] (h_link h) 0)) as (m0 & H1 & H2); [split; [simpl; lia|constructor]|].
    exact (finishReduce_later p ms own h _ i info (h_link h) [] _ m0 m _ G N Hh Hhas Hacc Hi Hm H1 H2 Hact eq_refl).
  - destruct (onePath p (Some (h_link _)) _ [] _) as [[[raw anc] dyn]|] eqn:Eo.
    + apply onePath_path in Eo as (ns & -> & Hlen & Hpath). rewrite app_nil_r in *.
      destruct (Hchain (mkCursor ns anc 0)) as (m0 & H1 & H2); [split; [exact Hlen|exact Hpath]|].
      exact (finishReduce_later p ms own h _ i info anc ns dyn m0 m _ G N Hh Hhas Hacc Hi Hm H1 H2 Hact eq_refl).
    + destruct (pop_loop pathLimit _ p _) as [cur| |] eqn:Ep; [|exact (later_refl p ms own G N)|exact (later_refl p ms own G N)].
      apply (pop_loop_ok p (h_link h) _ 0) in Ep; [|constructor; [split; [reflexivity|constructor]|constructor]]. rewrite Nat.add_0_r in Ep.
      pose proof (finish_paths_later i info h 0 m Hi Hhas Hacc cur p ms own G N Hh Hm Hact) as K.
      destruct (finish_paths l _ info i cur p) as [out p'].
      assert (Hcur : Forall (cursor_chain p ms info m) cur). { eapply Forall_impl; [exact Ep|]. exact Hchain. }
      specialize (K Hcur). destruct out; exact K.
Qed.

(** ** Accepting *)

Lemma accept_ok p ms own h it : gss p ms own -> head_ok p ms h -> h_has h = true -> h_sym h = SymEOF -> has_action p h (mkAction actAccept 0) ->
  it ∈ items (k_state (link_at p (h_link h))) -> at_end c it -> i_prod it = 0 -> Fin (s_nodes p) (s_kids p) (h_pos h) (bestNode p (h_link h)).
Proof using L Laws.
  intros G Hh Hhas Hsym (acts & Hacts & Hin) Hit Hend Hi. destruct (head_parts p ms own h G Hh Hhas) as (m & pos & Hm & Hst & Hpos & _ & _ & Hs & _).
  destruct it as [i d look]. simpl in Hi. subst i. destruct (aw_prod _ _ (tl_accept _ _ _ _ _ L)) as (p0 & Hp0 & Hrhs).
  destruct (tl_items _ _ _ _ _ L _ _ Hit) as (_ & Hd & _). unfold at_end, after_dot in Hend. simpl in Hd, Hend. rewrite (c_prod_lookup c _ _ Hp0), Hrhs in Hd, Hend.
  destruct d as [|[|d]]; simpl in Hd, Hend; [discriminate| |lia]. rewrite <- Hst in Hit, Hacts.
  assert (H0 : h_link h <> 0).
  { intros Ez. rewrite Ez, (gs_root_mark _ _ _ G) in Hm. injection Hm as <-. pose proof (tl_start_dots _ _ _ _ _ L _ Hit) as H. discriminate H. }
  destruct (bestNode_pred p (h_link h)) as (par & dy & Hpred).
  destruct (pred_edge p ms own _ m _ _ _ G Hm H0 Hpred) as (q & m0 & m' & X & -> & Hq & Hl & Hgo & He). rewrite Hm in Hl. injection Hl as <-.
  destruct (tl_back _ _ _ _ _ L _ _ _ _ _ _ Hgo Hit) as [Hback Hdot]. rewrite (c_prod_lookup c _ _ Hp0), Hrhs in Hdot. injection Hdot as <-.
  assert (q = 0) as ->.
  { destruct (decide (q = 0)) as [|Hne]; [assumption|]. destruct (mark_link p ms own q m0 G Hq) as [Hkq _].
    destruct (gs_edge _ _ _ G q _ Hne Hkq) as (q2 & m2 & m3 & X & _ & _ & H3 & Hg & _).
    rewrite Hq in H3. injection H3 as <-. destruct (tl_only_start _ _ _ _ _ L _ _ _ look Hg Hback). }
  rewrite (gs_root_mark _ _ _ G) in Hq. injection Hq as <-. rewrite <- Hpos. rewrite Hsym in Hacts, Hs.
  exact (el_accept _ _ _ _ _ _ _ _ _ _ Laws _ _ m _ _ _ acts pos He Hacts Hin Hs).
Qed.

(** ** Acting *)

Lemma act_loop_later h : h_has h = true -> h_acc h = false -> forall acts out p ms own, gss p ms own -> s_nodes p <> [] ->
  head_ok p ms h -> Forall (head_ok p ms) out -> (forall x, x ∈ acts -> has_action p h x) ->
  let '(got, _, p') := act_loop l src toks tokMode lines pathLimit h acts out p in later p ms got p'.
Proof using L Laws.
  intros Hhas Hacc. induction acts as [|x acts IH]; intros out p ms own G N Hh Hout Hacts; [exists ms, own; auto using ext_refl|].
  assert (Hx : has_action p h x) by (apply Hacts; left).
  assert (Hnext : forall more p1, later p ms more p1 -> later p ms (fst (fst (act_loop l src toks tokMode lines pathLimit h acts (out ++ more) p1))) (snd (act_loop l src toks tokMode lines pathLimit h acts (out ++ more) p1))).
  { intros more p1 (ms1 & own1 & G1 & E1 & N1 & F1).
    pose proof (IH (out ++ more) p1 ms1 own1 G1 N1 (head_ext _ _ _ _ _ E1 Hh)) as K.
    destruct (act_loop _ _ _ _ _ _ h acts (out ++ more) p1) as [[got err] p2]. simpl.
    destruct K as (ms2 & own2 & G2 & E2 & N2 & F2).
    - apply Forall_app. split; [|exact F1]. eapply Forall_impl; [exact Hout|]. intros y. apply head_ext, E1.
    - intros y Hy. apply (has_action_ext p ms own p1 ms1 own1); auto. apply Hacts. right. exact Hy.
    - exists ms2, own2. split; [exact G2|]. split; [exact (ext_trans _ _ _ _ _ _ E1 E2)|]. auto. }
  destruct (head_parts p ms own h G Hh Hhas) as (_ & _ & _ & _ & _ & _ & _ & _ & _ & Hid). pose proof Hx as (acts0 & Hacts0 & Hin).
  pose proof (tl_act _ _ _ _ _ L _ _ _ x Hid Hacts0 Hin) as Hlaw.
  cbn [act_loop]. destruct x as [kind val]. destruct Hlaw as [(Hkind & Ht & Hgo)|[(Hkind & it & Hit & Hend & Hi & _)|([= -> ->] & Hsym & it & Hit & Hend & Hi & _)]]; cbn [ac_kind ac_val] in *.
  - subst kind. rewrite Nat.eqb_refl. pose proof (doShift_later p ms own h val G N Hh Hhas Hacc Hx Ht Hgo) as K.
    destruct (doShift l tokMode h val p) as [h2 p1]. specialize (Hnext [h2] p1 K).
    destruct (act_loop _ _ _ _ _ _ h acts _ p1) as [[got err] p2]. exact Hnext.
  - subst kind. simpl (_ =? _). cbv iota.
    pose proof (doReduce_later p ms own h val G N Hh Hhas Hacc Hx ltac:(eauto)) as K.
    destruct (doReduce l pathLimit h val p) as [[reduced kind] p1]. destruct kind.
    + specialize (Hnext reduced p1 K). destruct (act_loop _ _ _ _ _ _ h acts _ p1) as [[got err] p2]. exact Hnext.
    + specialize (Hnext [] p1 (later_drop _ _ _ _ K)). rewrite app_nil_r in Hnext. destruct (act_loop _ _ _ _ _ _ h acts _ p1) as [[got err] p2]. exact Hnext.
    + destruct (errAt_state (h_pos h) (Some h) p1) as [st Est]. destruct (errAt src toks tokMode lines (h_pos h) (Some h) p1) as [e p2]. simpl in Est. subst p2.
      apply later_errState. destruct K as (ms1 & own1 & G1 & E1 & N1 & _). exists ms1, own1. split; [exact G1|]. split; [exact E1|]. split; [exact N1|].
      eapply Forall_impl; [exact Hout|]. intros y. apply head_ext, E1.
    + apply later_noteBound, (later_drop _ _ _ _ K).
  - simpl (_ =? _). cbv iota. pose proof (accept_ok p ms own h it G Hh Hhas Hsym Hx Hit Hend Hi) as K.
    set (h2 := mkHead _ _ _ _ _ _ _ _ _ _). specialize (Hnext [h2] p). destruct (act_loop _ _ _ _ _ _ h acts _ p) as [[got err] p2]. simpl in Hnext. apply Hnext.
    exists ms, own. split; [exact G|]. split; [apply ext_refl|]. split; [exact N|]. constructor; [|constructor].
    destruct Hh as ((m & H1 & H2 & H3 & H4 & _) & H5 & _). destruct Hx as (acts1 & Hacts1 & Hin1). rewrite Hsym in Hacts1.
    split; [exists m; split; [exact H1|]; split; [exact H2|]; split; [exact H3|]; split; [exact H4|]; intros _; split; [exact Hhas|]; split; [exact Hsym|];
      exists acts1; rewrite <- (proj2 (mark_link p ms own _ m G H1)); auto|]. split; [exact H5|]. intros _. exact K.
Qed.

Lemma p_act_later h p ms own : gss p ms own -> s_nodes p <> [] -> head_ok p ms h -> h_acc h = false ->
  let '(got, _, p') := p_act l src toks tokMode lines pathLimit h p in later p ms got p'.
Proof using L Laws Hfits Hsyms.
  intros G N Hh Hacc. unfold p_act.
  assert (Herr : forall h' p1, (p1 = p) -> let '(e, p2) := errAt src toks tokMode lines (h_pos h') (Some h') p1 in later p ms [] p2).
  { intros h' p1 ->. destruct (errAt_state (h_pos h') (Some h') p) as [st Est]. destruct (errAt src toks tokMode lines (h_pos h') (Some h') p) as [e p2]. simpl in Est. subst p2.
    apply later_errState, (later_refl p ms own G N). }
  destruct (ensure l src toks tokMode h p) as [ok h'] eqn:Een. destruct ok; simpl negb; cbv iota.
  2: { specialize (Herr h' p eq_refl). destruct (errAt _ _ _ _ _ _ _) as [e p2]. exact Herr. }
  destruct (ensure_ok p ms h h' Hh Een) as (Hh' & Hhas & _ & _ & Eacc & _). rewrite Hacc in Eacc.
  destruct (acts_at l _ (h_sym h')) as [acts|] eqn:Eacts.
  2: { specialize (Herr h' p eq_refl). destruct (errAt _ _ _ _ _ _ _) as [e p2]. exact Herr. }
  destruct acts as [|x xs] eqn:Ex.
  1: { specialize (Herr h' p eq_refl). destruct (errAt _ _ _ _ _ _ _) as [e p2]. exact Herr. }
  rewrite <- Ex in *. clear x xs Ex.
  apply (act_loop_later h' Hhas Eacc acts [] p ms own G N Hh'); [constructor|]. intros x Hx. exists acts. auto.
Qed.

Lemma act_heads_later m : forall hs next best p ms own, gss p ms own -> s_nodes p <> [] -> Forall (head_ok p ms) next -> Forall (head_ok p ms) hs ->
  let '(next', _, p') := foldl (act_head l src toks tokMode lines pathLimit m) (next, best, p) hs in later p ms next' p'.
Proof using L Laws Hfits Hsyms.
  induction hs as [|h hs IH]; intros next best p ms own G N Hn Hhs; cbn [foldl]; [exists ms, own; auto using ext_refl|].
  apply Forall_cons in Hhs as [Hh Hhs]. unfold act_head at 2. destruct (h_acc h || negb (h_pos h =? m)) eqn:Eb.
  - apply (IH _ best p ms own G N); [apply Forall_app; auto|exact Hhs].
  - apply orb_false_iff in Eb as [Hacc _]. pose proof (p_act_later h p ms own G N Hh Hacc) as K.
    destruct (p_act l src toks tokMode lines pathLimit h p) as [[grew dead] p1]. destruct K as (ms1 & own1 & G1 & E1 & N1 & F1).
    specialize (IH (next ++ grew) (dead_error best dead (s_errState p1)) p1 ms1 own1 G1 N1).
    destruct (foldl _ _ hs) as [[next' best'] p']. destruct IH as (ms2 & own2 & G2 & E2 & N2 & F2).
    + apply Forall_app. split; [|exact F1]. eapply Forall_impl; [exact Hn|]. intros x. apply head_ext, E1.
    + eapply Forall_impl; [exact Hhs|]. intros x. apply head_ext, E1.
    + exists ms2, own2. split; [exact G2|]. split; [exact (ext_trans _ _ _ _ _ _ E1 E2)|]. auto.
Qed.

(** ** Merging *)

Lemma find_key_spec p k out i : find_key p k out = Some i -> exists o, out !! i = Some o /\ head_key p o = k.
Proof.
  revert i. induction out as [|o out IH]; intros i H; simpl in H; [discriminate|]. case_bool_decide as E; [injection H as <-; exists o; auto|].
  destruct (find_key p k out) as [j|]; [|discriminate]. injection H as <-. exact (IH j eq_refl).
Qed.

Lemma elem_of_insert_head p h hs x : x ∈ insert_head p h hs <-> x = h \/ x ∈ hs.
Proof.
  induction hs as [|y hs IH]; simpl; [rewrite elem_of_cons; split; [intros [|[]%not_elem_of_nil]; auto|intros [|[]%not_elem_of_nil]; auto]|].
  destruct (head_before p h y); rewrite !elem_of_cons, ?IH; tauto.
Qed.

Lemma elem_of_sort_heads p hs x : x ∈ sort_heads p hs <-> x ∈ hs.
Proof.
  unfold sort_heads. assert (H : forall acc, x ∈ foldl (fun acc h => insert_head p h acc) acc hs <-> x ∈ acc \/ x ∈ hs).
  { induction hs as [|y hs IH]; intros acc; cbn [foldl]; [split; [auto|intros [|[]%not_elem_of_nil]; auto]|].
    rewrite IH, elem_of_insert_head, elem_of_cons. tauto. }
  rewrite H. split; [intros [[]%not_elem_of_nil|]; auto|auto].
Qed.

Lemma elem_of_same_pos pos hs x : x ∈ same_pos pos hs -> x ∈ hs.
Proof.
  induction hs as [|y hs IH]; simpl; [auto|]. destruct (_ =? _); [|intros []%not_elem_of_nil]. intros [->|H]%elem_of_cons; [left|right; auto].
Qed.

(** Heads with one key have counted the same reductions. *)
Context (P : head -> Prop) (Hnode : forall n h, P h -> P (set_node n h)).
Context (Hagree : forall h h', P h -> P h' -> h_pos h = h_pos h' -> h_has h = h_has h' -> h_acc h = false -> h_acc h' = false ->
  forall q, count q (h_pos h) (h_stall h) = count q (h_pos h) (h_stall h')).

Lemma merge_head_later out p h p0 ms0 : later p0 ms0 (h :: out) p -> Forall P (h :: out) ->
  later p0 ms0 (fst (merge_head (out, p) h)) (snd (merge_head (out, p) h)) /\ Forall P (fst (merge_head (out, p) h)).
Proof using L Laws Hnode Hagree.
  intros (ms & own & G & E0 & N & F) [HPh HPout]%Forall_cons. apply Forall_cons in F as [Hh Hout]. unfold merge_head.
  destruct (find_key p (head_key p h) out) as [i|] eqn:Ef.
  2: { split; [|apply Forall_app; auto]. exists ms, own. split; [exact G|]. split; [exact E0|]. split; [exact N|]. apply Forall_app. auto. }
  destruct (find_key_spec _ _ _ _ Ef) as (o & Hi & Ek). rewrite Hi. cbn [fst snd].
  pose proof (list_elem_of_lookup_2 _ _ _ Hi) as Hoin.
  assert (Ho : head_ok p ms o) by (rewrite Forall_forall in Hout; exact (Hout o Hoin)).
  assert (HPo : P o) by (rewrite Forall_forall in HPout; exact (HPout o Hoin)).
  unfold head_key in Ek. injection Ek as Est Epos _ Ehas Eacc.
  destruct Hh as ((m & Hm & Hpos & Hcount & Hge & Hacc) & Hhas & Hfin), Ho as ((m' & Hm' & Hpos' & Hcount' & Hge' & Hacc') & Ho).
  assert (m' = m) as ->.
  { destruct (mark_link p ms own _ m G Hm) as [_ Hst], (mark_link p ms own _ m' G Hm') as [_ Hst'].
    assert (Ec : mk_count m' = mk_count m); [|destruct m, m'; simpl in *; congruence].
    rewrite Hcount, Hcount', Hpos, Hpos', <- Epos, <- Hst', Est, Hst.
    destruct (h_acc h) eqn:Ea; [|exact (Hagree o h HPo HPh Epos Ehas Eacc Ea (mk_state m))].
    destruct (Hacc eq_refl) as (Hh & Hsym & acts & Hacts & Hin). destruct (Hhas Hh) as (pos & Hsc & _). rewrite Hsym, <- Epos in Hsc.
    exact (el_final _ _ _ _ _ _ _ _ _ _ Laws _ _ _ _ _ _ _ _ Hacts Hin Hsc). }
  destruct (union_gss p ms own (h_link o) (h_link h) m G Hm Hm') as (own1 & _ & G1 & E1).
  split.
  2: { destruct (h_acc h && better p h o); [apply Forall_insert; [exact HPout|apply Hnode, HPo]|exact HPout]. }
  exists ms, own1. split; [exact G1|]. split; [exact (ext_trans _ _ _ _ _ _ E0 E1)|].
  split; [pose proof (ex_nodes _ _ _ _ E1) as [r Hr]; rewrite Hr; destruct (s_nodes p); [congruence|discriminate]|].
  assert (Hall : Forall (head_ok p ms) (if h_acc h && better p h o then <[i:=set_node (h_node h) o]> out else out)).
  { destruct (h_acc h && better p h o) eqn:Eb; [|exact Hout]. apply andb_prop in Eb as [Ea _]. apply Forall_insert; [exact Hout|].
    destruct Ho as (Ho & _). split; [exists m; auto 10|]. split; [exact Ho|]. intros _. simpl. rewrite Epos. exact (Hfin Ea). }
  eapply Forall_impl; [exact Hall|]. intros x. apply head_ext, E1.
Qed.

Lemma merge_fold_later hs : forall out p0 ms0 p, later p0 ms0 (hs ++ out) p -> Forall P (hs ++ out) ->
  later p0 ms0 (fst (foldl merge_head (out, p) hs)) (snd (foldl merge_head (out, p) hs)) /\ Forall P (fst (foldl merge_head (out, p) hs)).
Proof using L Laws Hnode Hagree.
  induction hs as [|h hs IH]; intros out p0 ms0 p H HP; cbn [foldl]; [auto|].
  destruct H as (ms & own & G & X & N & F). apply Forall_cons in F as [Hh F]. apply Forall_app in F as [Hhs Hout].
  apply Forall_cons in HP as [HPh HP]. apply Forall_app in HP as [HPhs HPout].
  destruct (merge_head_later out p h p ms) as [(ms1 & own1 & G1 & E1 & N1 & F1) HP1]; [exists ms, own; auto using ext_refl|auto|].
  destruct (merge_head (out, p) h) as [out1 p1]. simpl in *. apply IH; [|apply Forall_app; auto]. exists ms1, own1. split; [exact G1|].
  split; [exact (ext_trans _ _ _ _ _ _ X E1)|]. split; [exact N1|]. apply Forall_app. split; [|exact F1].
  eapply Forall_impl; [exact Hhs|]. intros x. apply head_ext, E1.
Qed.

Lemma merge_later hs p ms own : gss p ms own -> s_nodes p <> [] -> Forall (head_ok p ms) hs -> Forall P hs ->
  match merge src toks tokMode lines hs p with (inl hs', p') => later p ms hs' p' /\ Forall P hs' | (inr _, _) => True end.
Proof using L Laws Hnode Hagree Hfits.
  intros G N Hhs HP. unfold merge. destruct (merge_fold_later hs [] p ms p) as [K KP]; [exists ms, own; rewrite app_nil_r; auto using ext_refl|rewrite app_nil_r; exact HP|].
  destruct (foldl merge_head ([], p) hs) as [out p1]. simpl in K, KP.
  destruct (_ <=? _)%Z; [auto|]. destruct (sort_heads p1 out) as [|first rest] eqn:Es; [split; [apply (later_forall _ _ out); [exact K|intros x []%not_elem_of_nil]|constructor]|].
  destruct (_ <? _)%Z; [destruct (errAt _ _ _ _ _ _ _); exact I|].
  assert (Hsub : forall x, x ∈ same_pos (h_pos first) (first :: rest) -> x ∈ out).
  { intros x Hx. apply elem_of_same_pos in Hx. apply (elem_of_sort_heads p1). rewrite Es. exact Hx. }
  split; [exact (later_forall _ _ out _ _ K Hsub)|]. rewrite Forall_forall in *. auto.
Qed.

(** ** The first state *)

Lemma start_gss : gss (start_pr l) [mkMark 0 0 (count 0 0 0%Z)] [].
Proof using L.
  split; simpl; try reflexivity.
  - intros lk k m H Hm. destruct lk as [|lk]; [|destruct lk; discriminate]. injection H as <-. injection Hm as <-. simpl. symmetry. exact (tl_start _ _ _ _ _ L).
  - exists (mkLink (l_start l) None 0 0 None). auto.
  - intros lk k H0 H. destruct lk as [|lk]; [congruence|]. destruct lk; discriminate.
  - intros i e lk H. rewrite lookup_nil in H. discriminate.
  - intros lk k i H Hm. destruct lk as [|lk]; [|destruct lk; discriminate]. injection H as <-. discriminate.
  - intros i e j H. rewrite lookup_nil in H. discriminate.
Qed.

Lemma start_head_ok : head_ok (start_pr l) [mkMark 0 0 (count 0 0 0%Z)] start_head.
Proof. split; [exists (mkMark 0 0 (count 0 0 0%Z)); split; [reflexivity|]; split; [reflexivity|]; split; [reflexivity|]; split; [simpl; lia|discriminate]|]. split; discriminate. Qed.

Lemma winner_in p hs w : winner p hs = Some w -> w ∈ hs /\ h_acc w = true.
Proof.
  unfold winner. assert (H : forall won, (forall x, won = Some x -> x ∈ hs /\ h_acc x = true) -> forall hs', (forall x, x ∈ hs' -> x ∈ hs) ->
    forall x, foldl (fun won h => if negb (h_acc h) then won else match won with None => Some h | Some w => if better p h w then Some h else won end) won hs' = Some x -> x ∈ hs /\ h_acc x = true).
  { intros won Hwon hs'. revert won Hwon. induction hs' as [|h hs' IH]; intros won Hwon Hsub x; cbn [foldl]; [apply Hwon|].
    apply IH; [|intros y Hy; apply Hsub; right; exact Hy]. intros y. destruct (h_acc h) eqn:Ea; simpl; [|apply Hwon].
    assert (Hh : h ∈ hs) by (apply Hsub; left). destruct won as [w0|]; [destruct (better p h w0)|]; intros [= <-]; auto. }
  apply (H None); [discriminate|auto].
Qed.
End gss.
