(* ===== verification/Exact.v ===== *)
(** * Predecessors

    The operations of x/parse/parse.go never lose a predecessor of a stack link,
    so a stack of states that the graph holds stays in it. *)
From Stdlib Require Import ZArith Lia.
From Stdlib Require Import Strings.Byte.
From stdpp Require Import base numbers option list strings gmap relations.
From S2P Require Import Prelude Grammars Compile Lexer Glr Derive Firsts Automaton Language Machine Stacks.

Local Open Scope nat_scope.

(** The links under a link. *)
Definition parents (p : pr) (lk : nat) : list (option nat) := k_parent (link_at p lk) :: map x_parent (p_chain p (link_at p lk)).

Lemma elem_of_parents p lk par : par ∈ parents p lk <-> exists nd d, (par, nd, d) ∈ eachPred p lk.
Proof.
  unfold parents, eachPred. split.
  - intros [->|H]%elem_of_cons; [do 2 eexists; left|]. apply list_elem_of_fmap in H as (e & -> & He). exists (x_node e), (x_dyn e). right.
    apply list_elem_of_fmap. eauto.
  - intros (nd & d & [[= -> _ _]|H]%elem_of_cons); [left|]. apply list_elem_of_fmap in H as (e & [= -> _ _] & He). right. apply list_elem_of_fmap. eauto.
Qed.

(** An alternate predecessor names an older one. *)
Record wf_more (p : pr) : Prop := {
  wm_next i e j : s_extras p !! i = Some e -> x_more e = Some j -> j < i;
  wm_more lk k i : s_links p !! lk = Some k -> k_more k = Some i -> i < length (s_extras p) }.

(** Every predecessor is a link. *)
Definition bounded (p : pr) : Prop := forall lk q, lk < length (s_links p) -> Some q ∈ parents p lk -> q < length (s_links p).

(** ** Chains *)

Definition older (xs : list extra) : Prop := forall i e j, xs !! i = Some e -> x_more e = Some j -> j < i.

(** Extras with the same shape in place, and maybe more of them. *)
Definition keeps (xs ys : list extra) : Prop := forall i e, xs !! i = Some e -> exists e', ys !! i = Some e' /\ x_parent e' = x_parent e /\ x_more e' = x_more e.

Lemma chain_keeps xs ys : older xs -> keeps xs ys -> forall f more, (forall i, more = Some i -> i < length xs /\ i < f) -> forall f', (forall i, more = Some i -> i < f') ->
  map x_parent (chain f' ys more) = map x_parent (chain f xs more).
Proof.
  intros Ho Hk. induction f as [|f IH]; intros more Hm f' Hf'.
  - destruct more as [i|]; [destruct (Hm i eq_refl); lia|]. destruct f'; reflexivity.
  - destruct more as [i|]; [|destruct f'; reflexivity]. destruct (Hm i eq_refl) as [Hx Hi]. specialize (Hf' i eq_refl). destruct f' as [|f']; [lia|].
    simpl. destruct (lookup_lt_is_Some_2 _ _ Hx) as [e He]. destruct (Hk i e He) as (e' & He' & Ep & Em). rewrite He, He'. simpl. rewrite Ep, Em. f_equal.
    apply IH; intros j Hj; pose proof (Ho i e j He Hj); lia.
Qed.

Lemma find_extra_none xs par : older xs -> forall f more, (forall i, more = Some i -> i < length xs /\ i < f) ->
  find_extra f xs par more = None -> par ∉ map x_parent (chain f xs more).
Proof.
  intros Ho. induction f as [|f IH]; intros more Hm H; simpl; [apply not_elem_of_nil|]. destruct more as [i|]; [|apply not_elem_of_nil].
  destruct (Hm i eq_refl) as [Hx _]. destruct (lookup_lt_is_Some_2 _ _ Hx) as [e He]. simpl in H. rewrite He in *. case_bool_decide as Ep; [discriminate|].
  simpl. apply not_elem_of_cons. split; [congruence|]. apply IH; [|exact H]. intros j Hj. pose proof (Ho i e j He Hj). destruct (Hm i eq_refl). lia.
Qed.

Lemma find_extra_some xs par : older xs -> forall f more i, find_extra f xs par more = Some i ->
  par ∈ map x_parent (chain f xs more) /\ exists e, xs !! i = Some e /\ x_parent e = par.
Proof.
  intros Ho. induction f as [|f IH]; intros more i H; simpl in *; [discriminate|]. destruct more as [j|]; [|discriminate].
  destruct (xs !! j) as [e|] eqn:He; [|discriminate]. case_bool_decide as Ep.
  - injection H as <-. split; [simpl; rewrite Ep; left|eauto].
  - destruct (IH _ _ H) as [H1 H2]. split; [simpl; right; exact H1|exact H2].
Qed.

(** ** Growth *)

(** A later state keeps the states and the predecessors of its links, and that
    a bound was passed. *)
Record grows (p p' : pr) : Prop := {
  gr_links : length (s_links p) <= length (s_links p');
  gr_state lk : lk < length (s_links p) -> k_state (link_at p' lk) = k_state (link_at p lk);
  gr_parents lk par : lk < length (s_links p) -> par ∈ parents p lk -> par ∈ parents p' lk;
  gr_bound : s_bound p <> None -> s_bound p' <> None }.

Lemma grows_here p : grows p p.
Proof. split; auto. Qed.

Lemma grows_then p1 p2 p3 : grows p1 p2 -> grows p2 p3 -> grows p1 p3.
Proof.
  intros [A1 A2 A3 A4] [B1 B2 B3 B4]. split; [lia| | |auto].
  - intros lk H. rewrite B2 by lia. auto.
  - intros lk par H Hp. apply B3; [lia|auto].
Qed.

Lemma link_at_app p k lk : lk < length (s_links p) -> nth lk (s_links p ++ [k]) noLink = link_at p lk.
Proof. intros H. unfold link_at. apply app_nth1. exact H. Qed.

Lemma link_at_insert p lk k lk' : lk < length (s_links p) -> nth lk' (<[lk := k]> (s_links p)) noLink = if decide (lk' = lk) then k else link_at p lk'.
Proof.
  intros H. unfold link_at. rewrite !nth_lookup. destruct (decide (lk' = lk)) as [->|Hne].
  - rewrite list_lookup_insert_eq by exact H. reflexivity.
  - rewrite list_lookup_insert_ne by congruence. reflexivity.
Qed.

Lemma grows_same p p' : s_links p' = s_links p -> s_extras p' = s_extras p -> (s_bound p <> None -> s_bound p' <> None) -> grows p p'.
Proof.
  intros E1 E2 Hb. assert (E : forall lk, link_at p' lk = link_at p lk) by (intros lk; unfold link_at; rewrite E1; reflexivity).
  split; [rewrite E1; lia|intros lk _; rewrite E; reflexivity| |exact Hb]. intros lk par _ H. unfold parents, p_chain in *. rewrite E, E2. exact H.
Qed.

Lemma wf_same p p' : s_links p' = s_links p -> s_extras p' = s_extras p -> wf_more p -> wf_more p'.
Proof. intros E1 E2 [H1 H2]. split; rewrite ?E1, E2; assumption. Qed.

(** Adding a link that starts no chain. *)
Lemma old_link k p lk : lk < length (s_links p) -> link_at (snd (add_link k p)) lk = link_at p lk /\ parents (snd (add_link k p)) lk = parents p lk.
Proof.
  intros H. assert (E : link_at (snd (add_link k p)) lk = link_at p lk) by (unfold link_at at 1; simpl; apply link_at_app, H).
  split; [exact E|]. unfold parents, p_chain. rewrite E. reflexivity.
Qed.

Lemma new_link k p : k_more k = None -> parents (snd (add_link k p)) (length (s_links p)) = [k_parent k] /\ link_at (snd (add_link k p)) (length (s_links p)) = k.
Proof.
  intros Hm. assert (Hnew : link_at (snd (add_link k p)) (length (s_links p)) = k). { unfold link_at. simpl. rewrite nth_middle. reflexivity. }
  split; [|exact Hnew]. unfold parents, p_chain. rewrite Hnew, Hm. simpl. destruct (length (s_extras p)); reflexivity.
Qed.

Lemma grows_add_link k p : grows p (snd (add_link k p)).
Proof.
  split; [simpl; rewrite length_app; lia| | |auto].
  - intros lk H. rewrite (proj1 (old_link k p lk H)). reflexivity.
  - intros lk par H Hp. rewrite (proj2 (old_link k p lk H)). exact Hp.
Qed.

Lemma chain_parents p p' k : wf_more p -> keeps (s_extras p) (s_extras p') -> length (s_extras p) <= length (s_extras p') ->
  (forall i, k_more k = Some i -> i < length (s_extras p)) -> map x_parent (p_chain p' k) = map x_parent (p_chain p k).
Proof.
  intros [H1 _] Hk Hle Hm. unfold p_chain. apply chain_keeps; [exact H1|exact Hk| |]; intros i Hi; pose proof (Hm i Hi); lia.
Qed.

Lemma keeps_insert xs i e e' : xs !! i = Some e -> x_parent e' = x_parent e -> x_more e' = x_more e -> keeps xs (<[i := e']> xs).
Proof.
  intros Hi Hp Hm j x Hj. destruct (decide (j = i)) as [->|Hne].
  - exists e'. rewrite list_lookup_insert_eq by exact (lookup_lt_Some _ _ _ Hi). simplify_eq. auto.
  - exists x. rewrite list_lookup_insert_ne by congruence. auto.
Qed.

Lemma keeps_app xs ys : keeps xs (xs ++ ys).
Proof. intros i e H. exists e. split; [apply lookup_app_l_Some, H|auto]. Qed.

Lemma keeps_refl xs : keeps xs xs.
Proof. intros i e H. eauto. Qed.

(** ** Adding a predecessor *)

Lemma set_link_grows lk k p : wf_more p -> lk < length (s_links p) -> k_state k = k_state (link_at p lk) ->
  (forall i, k_more k = Some i -> i < length (s_extras p)) -> (forall par, par ∈ parents p lk -> par ∈ k_parent k :: map x_parent (p_chain p k)) ->
  grows p (set_link lk k p) /\ wf_more (set_link lk k p).
Proof.
  intros [H1 H2] Hlt Hst Hm Hpar.
  assert (Hat : forall lk', link_at (set_link lk k p) lk' = if decide (lk' = lk) then k else link_at p lk') by (intros lk'; apply link_at_insert, Hlt).
  split; split; simpl; try rewrite length_insert; auto.
  - intros lk' _. rewrite Hat. destruct (decide (lk' = lk)) as [->|]; congruence.
  - intros lk' par _ Hp. unfold parents, p_chain. rewrite Hat. simpl. destruct (decide (lk' = lk)) as [->|]; [exact (Hpar par Hp)|exact Hp].
  - intros lk' k0 i Hl Hi. destruct (decide (lk' = lk)) as [->|Hne].
    + rewrite list_lookup_insert_eq in Hl by exact Hlt. injection Hl as <-. exact (Hm i Hi).
    + rewrite list_lookup_insert_ne in Hl by congruence. exact (H2 lk' k0 i Hl Hi).
Qed.

Lemma set_extras_grows xs p : wf_more p -> keeps (s_extras p) xs -> length (s_extras p) <= length xs -> older xs ->
  grows p (set_extras xs p) /\ wf_more (set_extras xs p).
Proof.
  intros Hw Hk Hle Ho. pose proof Hw as [H1 H2]. split; split; simpl; auto.
  - intros lk par Hlt Hp. unfold parents in *. change (link_at (set_extras xs p) lk) with (link_at p lk).
    rewrite (chain_parents p (set_extras xs p)); [exact Hp|exact Hw|exact Hk|exact Hle|]. intros i Hi. apply (H2 lk (link_at p lk)); [|exact Hi].
    unfold link_at. destruct (lookup_lt_is_Some_2 _ _ Hlt) as [k Ek]. rewrite nth_lookup, Ek. reflexivity.
  - intros lk k i Hl Hi. pose proof (H2 lk k i Hl Hi). lia.
Qed.

Lemma link_more p lk i : wf_more p -> lk < length (s_links p) -> k_more (link_at p lk) = Some i -> i < length (s_extras p).
Proof.
  intros [_ H2] Hlt. apply (H2 lk). unfold link_at. destruct (lookup_lt_is_Some_2 _ _ Hlt) as [k Ek]. rewrite nth_lookup, Ek. reflexivity.
Qed.

Lemma addPred_grows lk par nd d p : wf_more p -> lk < length (s_links p) ->
  grows p (addPred lk par nd d p) /\ wf_more (addPred lk par nd d p) /\ keeps (s_extras p) (s_extras (addPred lk par nd d p)) /\
  length (s_links (addPred lk par nd d p)) = length (s_links p) /\ par ∈ parents (addPred lk par nd d p) lk.
Proof.
  intros Hw Hlt. pose proof Hw as [H1 H2]. pose proof (fun i => link_more p lk i Hw Hlt) as Hmore.
  assert (Hsame : par ∈ parents p lk -> grows p p /\ wf_more p /\ keeps (s_extras p) (s_extras p) /\ length (s_links p) = length (s_links p) /\ par ∈ parents p lk)
    by (intros H; split; [apply grows_here|]; split; [exact Hw|]; split; [apply keeps_refl|auto]).
  unfold addPred. set (k := link_at p lk) in *. case_bool_decide as Ep.
  - assert (Hin : par ∈ parents p lk) by (unfold parents; fold k; rewrite Ep; left).
    destruct (better_pred _ _ _ _); [|exact (Hsame Hin)]. set (k' := mkLink _ _ _ _ _).
    destruct (set_link_grows lk k' p Hw Hlt) as [Hg Hw']; [reflexivity|exact Hmore|intros par' Hp; exact Hp|].
    split; [exact Hg|]. split; [exact Hw'|]. split; [apply keeps_refl|]. split; [apply length_insert|exact (gr_parents _ _ Hg lk par Hlt Hin)].
  - destruct (find_extra _ _ par (k_more k)) as [i|] eqn:Ef.
    + destruct (find_extra_some _ _ H1 _ _ _ Ef) as [Hin (e & He & Epar)]. assert (Hin' : par ∈ parents p lk) by (right; exact Hin).
      rewrite He. destruct (better_pred _ _ _ _); [|exact (Hsame Hin')]. set (e' := mkExtra _ _ _ _).
      pose proof (keeps_insert (s_extras p) i e e' He eq_refl eq_refl) as Hk.
      destruct (set_extras_grows (<[i := e']> (s_extras p)) p Hw Hk) as [Hg Hw']; [rewrite length_insert; lia| |].
      { intros a x j Ha Hj. destruct (decide (a = i)) as [->|Hne].
        - rewrite list_lookup_insert_eq in Ha by exact (lookup_lt_Some _ _ _ He). injection Ha as <-. exact (H1 i e j He Hj).
        - rewrite list_lookup_insert_ne in Ha by congruence. exact (H1 a x j Ha Hj). }
      split; [exact Hg|]. split; [exact Hw'|]. split; [exact Hk|]. split; [reflexivity|exact (gr_parents _ _ Hg lk par Hlt Hin')].
    + set (xs := s_extras p ++ [mkExtra par nd d (k_more k)]). pose proof (keeps_app (s_extras p) [mkExtra par nd d (k_more k)]) as Hk. fold xs in Hk.
      assert (Hold : older xs).
      { intros a x j Ha Hj. apply lookup_app_Some in Ha as [Ha|[Hge Ha]]; [exact (H1 a x j Ha Hj)|].
        destruct (a - length (s_extras p)) as [|b] eqn:Eb; simpl in Ha; [|rewrite lookup_nil in Ha; discriminate]. injection Ha as <-. simpl in Hj. pose proof (Hmore j Hj). lia. }
      destruct (set_extras_grows xs p Hw Hk) as [Hg1 Hw1]; [unfold xs; rewrite length_app; lia|exact Hold|].
      set (p1 := set_extras xs p) in *. set (k' := mkLink _ _ _ _ _).
      assert (Hnew : xs !! length (s_extras p) = Some (mkExtra par nd d (k_more k))) by (unfold xs; rewrite lookup_app_r by lia; rewrite Nat.sub_diag; reflexivity).
      assert (Hchain : map x_parent (p_chain p1 k') = par :: map x_parent (p_chain p k)).
      { unfold p_chain at 1. simpl s_extras. assert (El : length xs = S (length (s_extras p))) by (unfold xs; rewrite length_app; simpl; lia). rewrite El. simpl.
        rewrite Hnew. simpl. f_equal. unfold p_chain. apply chain_keeps; [exact H1|exact Hk| |]; intros i Hi; pose proof (Hmore i Hi); lia. }
      destruct (set_link_grows lk k' p1 Hw1 Hlt) as [Hg2 Hw2]; [reflexivity| | |].
      * simpl. intros i [= <-]. unfold xs. rewrite length_app. simpl. lia.
      * intros par' Hp. rewrite Hchain. change (k_parent k') with (k_parent k). unfold parents in Hp. change (link_at p1 lk) with k in Hp.
        rewrite (chain_parents p p1 k Hw Hk) in Hp; [|unfold p1, xs; simpl; rewrite length_app; lia|exact Hmore].
        apply elem_of_cons in Hp as [->|Hp]; [left|right; right; exact Hp].
      * split; [exact (grows_then _ _ _ Hg1 Hg2)|]. split; [exact Hw2|]. split; [exact Hk|]. split; [apply length_insert|].
        unfold parents. unfold link_at. simpl s_links. rewrite nth_lookup, list_lookup_insert_eq by exact Hlt. simpl default.
        change (p_chain (set_link lk k' p1) k') with (p_chain p1 k'). rewrite Hchain. right. left.
Qed.

Lemma keeps_trans xs ys zs : keeps xs ys -> keeps ys zs -> keeps xs zs.
Proof.
  intros H1 H2 i e He. destruct (H1 i e He) as (e1 & He1 & Ep & Em). destruct (H2 i e1 He1) as (e2 & He2 & Ep2 & Em2). exists e2. split; [exact He2|split; congruence].
Qed.

(** ** Merging two links *)

Lemma union_chain_grows fuel dst : forall p more, wf_more p -> dst < length (s_links p) -> (forall i, more = Some i -> i < length (s_extras p) /\ i < fuel) ->
  let p' := union_chain fuel dst more p in
  grows p p' /\ wf_more p' /\ length (s_links p') = length (s_links p) /\
  forall par, par ∈ map x_parent (chain fuel (s_extras p) more) -> par ∈ parents p' dst.
Proof.
  induction fuel as [|fuel IH]; intros p more Hw Hlt Hm; simpl.
  { split; [apply grows_here|]. split; [exact Hw|]. split; [reflexivity|]. intros par []%not_elem_of_nil. }
  destruct more as [i|]; [|split; [apply grows_here|]; split; [exact Hw|]; split; [reflexivity|]; intros par []%not_elem_of_nil].
  destruct (Hm i eq_refl) as [Hx Hi]. destruct (lookup_lt_is_Some_2 _ _ Hx) as [e He]. rewrite He.
  destruct (addPred_grows dst (x_parent e) (x_node e) (x_dyn e) p Hw Hlt) as (Hg & Hw1 & Hk & Hl & Hin).
  set (p1 := addPred dst _ _ _ p) in *. destruct (Hk i e He) as (e1 & He1 & _ & Em). rewrite He1. simpl. rewrite Em.
  assert (Hlen : length (s_extras p) <= length (s_extras p1)).
  { destruct (decide (length (s_extras p) = 0)) as [|Hne]; [lia|]. destruct (lookup_lt_is_Some_2 (s_extras p) (length (s_extras p) - 1)) as [y Hy]; [lia|].
    destruct (Hk _ y Hy) as (y' & Hy' & _). apply lookup_lt_Some in Hy'. lia. }
  destruct (IH p1 (x_more e) Hw1 ltac:(lia)) as (Hg2 & Hw2 & Hl2 & Hin2).
  { intros j Hj. pose proof (wm_next _ Hw i e j He Hj). lia. }
  split; [exact (grows_then _ _ _ Hg Hg2)|]. split; [exact Hw2|]. split; [lia|].
  intros par [->|Hp]%elem_of_cons; [exact (gr_parents _ _ Hg2 dst _ ltac:(lia) Hin)|]. apply Hin2.
  rewrite (chain_keeps (s_extras p) (s_extras p1) (wm_next _ Hw) Hk fuel); [exact Hp| |].
  - intros j Hj. pose proof (wm_next _ Hw i e j He Hj). lia.
  - intros j Hj. pose proof (wm_next _ Hw i e j He Hj). lia.
Qed.

Lemma union_grows dst sl p : wf_more p -> dst < length (s_links p) -> sl < length (s_links p) ->
  let p' := p_union dst sl p in
  grows p p' /\ wf_more p' /\ length (s_links p') = length (s_links p) /\ forall par, par ∈ parents p sl -> par ∈ parents p' dst.
Proof.
  intros Hw Hd Hs. unfold p_union. destruct (Nat.eqb_spec dst sl) as [->|Hne]; [split; [apply grows_here|]; split; [exact Hw|auto]|].
  set (k := link_at p sl). destruct (addPred_grows dst (k_parent k) (k_node k) (k_dyn k) p Hw Hd) as (Hg & Hw1 & Hk & Hl & Hin).
  set (p1 := addPred dst _ _ _ p) in *. pose proof (fun i => link_more p sl i Hw Hs) as Hmore. fold k in Hmore.
  assert (Hlen : length (s_extras p) <= length (s_extras p1)).
  { destruct (decide (length (s_extras p) = 0)) as [|Hz]; [lia|]. destruct (lookup_lt_is_Some_2 (s_extras p) (length (s_extras p) - 1)) as [y Hy]; [lia|].
    destruct (Hk _ y Hy) as (y' & Hy' & _). apply lookup_lt_Some in Hy'. lia. }
  destruct (union_chain_grows (length (s_extras p)) dst p1 (k_more k) Hw1 ltac:(lia)) as (Hg2 & Hw2 & Hl2 & Hin2).
  { intros i Hi. pose proof (Hmore i Hi). lia. }
  split; [exact (grows_then _ _ _ Hg Hg2)|]. split; [exact Hw2|]. split; [lia|]. intros par [->|Hp]%elem_of_cons.
  - exact (gr_parents _ _ Hg2 dst _ ltac:(lia) Hin).
  - apply Hin2. rewrite (chain_keeps (s_extras p) (s_extras p1) (wm_next _ Hw) Hk (length (s_extras p))); [exact Hp| |]; intros i Hi; pose proof (Hmore i Hi); lia.
Qed.

(** * The parser and the machine

    Over the tokens of a scanner, every stack of the parser's graph is one that
    the nondeterministic LR(1) machine reaches, with as many reductions since the
    last shift as the head has counted. *)

Section exact.
Context (l : Language) (c : compiler) (start : nat) (items : nat -> list item) (go : nat -> nat -> option nat).
Context (L : table_laws l c start items go).
Context (src : list byte) (toks : list tok) (lines : list nat) (pathLimit : Z).

Local Abbreviation scans_here := (scans l src toks true).
Local Abbreviation symbols := (map t_id toks).

Lemma scans_drop pos t pos' : scans_here pos t pos' -> pos' = S pos /\ drop pos symbols = t_id t :: drop (S pos) symbols.
Proof.
  intros [Ht ->]. split; [reflexivity|]. apply drop_S. rewrite list_lookup_fmap, Ht. reflexivity.
Qed.

(** ** Marks as configurations *)

(** A state that accepts where the input ends. *)
Definition accepts_at (q pos : nat) : bool :=
  bool_decide (t_id <$> toks !! pos = Some SymEOF) &&
  match acts_at l q SymEOF with Some acts => existsb (fun a => ac_kind a =? actAccept) acts | None => false end.

(** The count of reductions, which an accepting state drops: it has no edges
    above it. *)
Definition counted (q pos : nat) (k : Z) : Z := if accepts_at q pos then 0%Z else k.

(** The machine in the state of a mark, over the states [s]. *)
Definition at_mark (m : mark) (s : list nat) (k : nat) : config := mkConfig (mk_state m :: s) (drop (mk_pos m) symbols) k.

Definition below (m m' : mark) : Prop := mk_pos m < mk_pos m' \/ (mk_pos m = mk_pos m' /\ (mk_count m < mk_count m')%Z).

(** An edge is a run of the machine, over whatever stack. *)
Definition steps (nodes : list node) (kids : list nat) (X : nat) (m m' : mark) (nd : nat) : Prop :=
  (0 <= mk_count m)%Z /\ accepts_at (mk_state m) (mk_pos m) = false /\
  (forall s, exists k, rtc (mstep l) (at_mark m s (Z.to_nat (mk_count m))) (at_mark m' (mk_state m :: s) k) /\
    (accepts_at (mk_state m') (mk_pos m') = false -> k = Z.to_nat (mk_count m'))) /\
  (accepts_at (mk_state m') (mk_pos m') = false -> (0 <= mk_count m')%Z /\ below m m').

Definition machine_accepts (nodes : list node) (kids : list nat) (pos nd : nat) : Prop :=
  exists y, rtc (mstep l) (mkConfig [0] symbols 0) y /\ accepting l y.

Lemma below_trans m1 m2 m3 : below m1 m2 -> below m2 m3 -> below m1 m3.
Proof. unfold below. lia. Qed.

(** A cell that accepts does nothing else. *)
Context (Haccept : forall q acts x, acts_at l q SymEOF = Some acts -> x ∈ acts -> ac_kind x = actAccept -> acts = [mkAction actAccept 0]).

Lemma accepts_at_spec q pos : accepts_at q pos = true <-> t_id <$> toks !! pos = Some SymEOF /\ acts_at l q SymEOF = Some [mkAction actAccept 0].
Proof using Haccept.
  unfold accepts_at. rewrite andb_true_iff, bool_decide_eq_true. split; intros [H1 H2]; (split; [exact H1|]).
  - destruct (acts_at l q SymEOF) as [acts|] eqn:Ea; [|discriminate]. apply existsb_elem in H2 as (x & Hx & Hk). apply Nat.eqb_eq in Hk.
    rewrite (Haccept q acts x Ea Hx Hk). reflexivity.
  - rewrite H2. reflexivity.
Qed.

(** A state that shifts or reduces does not accept. *)
Lemma acting_not_final q pos s a b pos' acts x : scans_here pos (mkTok s a b) pos' -> acts_at l q s = Some acts -> x ∈ acts -> ac_kind x <> actAccept ->
  accepts_at q pos = false.
Proof using Haccept.
  intros [Ht _] Hacts Hx Hk. destruct (accepts_at q pos) eqn:E; [exfalso|reflexivity]. apply accepts_at_spec in E as [E1 E2].
  rewrite Ht in E1. injection E1 as E1. simpl in E1. subst s. rewrite Hacts in E2. injection E2 as ->. apply list_elem_of_singleton in Hx as ->. apply Hk. reflexivity.
Qed.

Lemma counted_live q pos k : accepts_at q pos = false -> counted q pos k = k.
Proof. intros H. unfold counted. rewrite H. reflexivity. Qed.

(** A chain of edges is a run. *)
Lemma chain_runs nodes kids m0 Xs raw m : echain go steps nodes kids m0 Xs raw m -> accepts_at (mk_state m) (mk_pos m) = false -> (0 <= mk_count m)%Z ->
  (0 <= mk_count m0)%Z /\ accepts_at (mk_state m0) (mk_pos m0) = false /\ (m0 = m \/ below m0 m) /\
  forall s, exists tail, rtc (mstep l) (at_mark m0 s (Z.to_nat (mk_count m0))) (at_mark m tail (Z.to_nat (mk_count m))) /\
    drop (length Xs) (mk_state m :: tail) = mk_state m0 :: s.
Proof.
  induction 1 as [|Xs raw m1 X nd m Hch IH Hgo (Hge & Hfin & Hrun & Hbelow)]; intros Hlive Hc.
  - split; [exact Hc|]. split; [exact Hlive|]. split; [auto|]. intros s. exists s. split; [reflexivity|reflexivity].
  - destruct (IH Hfin Hge) as (H1 & H2 & H3 & H4). split; [exact H1|]. split; [exact H2|]. destruct (Hbelow Hlive) as [_ Hb].
    split; [right; destruct H3 as [->|H3]; [exact Hb|exact (below_trans _ _ _ H3 Hb)]|].
    intros s. destruct (H4 s) as (tail & Ht & Hd). destruct (Hrun tail) as (k & Hk & Ek). rewrite (Ek Hlive) in Hk.
    exists (mk_state m1 :: tail). split; [etransitivity; eauto|]. rewrite length_app, Nat.add_1_r. exact Hd.
Qed.

Lemma steps_laws : edge_laws go steps l c start src toks true counted machine_accepts.
Proof using L Haccept.
  split.
  - intros nodes kids nodes' kids' X m m' nd _ _ H. exact H.
  - intros nodes kids nodes' kids' pos nd _ _ H. exact H.
  - intros nodes kids m s a b q acts pos k _ Hc Hk Hacts Hin _ Hs. destruct (scans_drop _ _ _ Hs) as [-> Hd]. simpl in Hd.
    pose proof (acting_not_final _ _ _ _ _ _ _ _ Hs Hacts Hin ltac:(discriminate)) as Hlive. rewrite (counted_live _ _ _ Hlive) in Hc.
    split; [lia|]. split; [exact Hlive|]. split.
    + intros st. exists 0. split.
      * apply rtc_once. unfold at_mark. simpl. rewrite Hd. eapply m_shift; eauto.
      * simpl. intros H. rewrite (counted_live _ _ _ H). reflexivity.
    + simpl. intros H. rewrite (counted_live _ _ _ H). split; [lia|]. left. simpl. lia.
  - intros p m0 raw m i info s a b acts pos q k dyn at_ _ Hi Hch Hacts Hin Hs _ Hq Hc Hk. destruct (p_parent l info i raw dyn at_ p) as [id p'].
    destruct (scans_drop _ _ _ Hs) as [-> Hd]. simpl in Hd.
    pose proof (acting_not_final _ _ _ _ _ _ _ _ Hs Hacts Hin ltac:(discriminate)) as Hlive. rewrite (counted_live _ _ _ Hlive) in Hc.
    destruct (chain_runs _ _ _ _ _ _ Hch Hlive ltac:(lia)) as (H1 & H2 & H3 & H4).
    split; [exact H1|]. split; [exact H2|]. split.
    + intros st. destruct (H4 st) as (tail & Hrun & Hdrop). exists (S (Z.to_nat (mk_count m))). split.
      * eapply rtc_r; [exact Hrun|]. unfold at_mark. simpl. rewrite Hd. eapply m_reduce; [exact Hacts|exact Hin|rewrite (tl_prods _ _ _ _ _ L); exact Hi|exact Hdrop|exact Hq].
      * simpl. intros H. rewrite (counted_live _ _ _ H), Hc. lia.
    + simpl. intros H. rewrite (counted_live _ _ _ H). split; [lia|]. unfold below in *. simpl. destruct H3 as [->|H3]; lia.
  - intros nodes kids m nd a b acts pos (Hge & _ & Hrun & _) Hacts Hin Hs. destruct (scans_drop _ _ _ Hs) as [-> Hd]. simpl in Hd.
    destruct (Hrun []) as (k & Hk & _). exists (at_mark m [0] k). split.
    + unfold at_mark in *. simpl in *. assert (E : Z.to_nat (counted 0 0 0) = 0) by (unfold counted; destruct (accepts_at 0 0); reflexivity). rewrite E, drop_0 in Hk. exact Hk.
    + unfold accepting, at_mark. simpl. exists (mk_state m), [0], SymEOF, (drop (S (mk_pos m)) symbols), acts, (mkAction actAccept 0). auto 10.
  - intros q pos pos' a b acts k k' Hacts Hin [Ht _]. unfold counted. assert (E : accepts_at q pos = true); [|rewrite E; reflexivity].
    apply accepts_at_spec. rewrite Ht. split; [reflexivity|]. rewrite Hacts. f_equal. exact (Haccept q acts _ Hacts Hin eq_refl).
Qed.
End exact.
