(* ===== verification/Follow.v ===== *)
(** * Following the machine

    A head of the parser of x/parse/parse.go follows each configuration of the
    LR(1) machine whose stack lies under its link: acting on the head gives heads
    for all the next configurations, and no reduction of a table fails. *)
From Stdlib Require Import ZArith Lia.
From Stdlib Require Import Strings.Byte.
From stdpp Require Import base numbers option list strings gmap relations.
From S2P Require Import Prelude Grammars Compile Lexer Derive Firsts Automaton Language Machine Glr Stacks Exact.

Local Open Scope nat_scope.

(** ** The stacks of a link *)

(** The states of a way down to the first link. *)
Inductive stack_of (p : pr) : nat -> list nat -> Prop :=
| stack_root lk : None ∈ parents p lk -> stack_of p lk [k_state (link_at p lk)]
| stack_step lk q st : Some q ∈ parents p lk -> stack_of p q st -> stack_of p lk (k_state (link_at p lk) :: st).

(** [n] predecessors down. *)
Inductive down (p : pr) : nat -> nat -> nat -> Prop :=
| down_zero lk : down p 0 lk lk
| down_step n lk q anc : Some q ∈ parents p lk -> down p n q anc -> down p (S n) lk anc.

Lemma stack_top p lk st : stack_of p lk st -> exists rest, st = k_state (link_at p lk) :: rest.
Proof. destruct 1; eauto. Qed.

(** Popping states goes down the links. *)
Lemma stack_drop p n : forall lk st q st', stack_of p lk st -> drop n st = q :: st' ->
  exists anc, down p n lk anc /\ stack_of p anc (q :: st') /\ k_state (link_at p anc) = q.
Proof.
  induction n as [|n IH]; intros lk st q st' H E.
  - rewrite drop_0 in E. rewrite E in H. exists lk. split; [constructor|]. split; [exact H|]. destruct (stack_top _ _ _ H) as (rest & [= -> _]). reflexivity.
  - destruct H as [lk Hn|lk par st Hp Hst]; [simpl in E; destruct n; discriminate|]. simpl in E.
    destruct (IH par st q st' Hst E) as (anc & H1 & H2). exists anc. split; [econstructor; eauto|exact H2].
Qed.

(** ** Growth of the operations *)

Lemma grows_errState st p : grows p (set_errState st p).
Proof. apply grows_same; auto. Qed.

Lemma grows_errAt src toks tokMode lines pos h p : grows p (snd (errAt src toks tokMode lines pos h p)).
Proof. destruct (errAt_state src toks tokMode lines pos h p) as [st ->]. apply grows_errState. Qed.

Lemma grows_noteBound h p : grows p (noteBound h p) /\ s_bound (noteBound h p) <> None.
Proof.
  unfold noteBound. destruct (s_bound p) eqn:E; [split; [apply grows_here|congruence]|]. split; [|discriminate]. apply grows_same; simpl; [reflexivity|reflexivity|congruence].
Qed.

Lemma grows_parent l info i raw dyn at_ p : grows p (snd (p_parent l info i raw dyn at_ p)).
Proof.
  unfold p_parent. destruct (span_of p _ at_) as [st en]. destruct (p_hidden info).
  - destruct (filter _ raw) as [|d [|d' rest]]; [apply grows_here|apply grows_here|]. apply grows_same; auto.
  - destruct (match p_expand p _ with [] => _ | _ => _ end) as [st' en']. apply grows_same; auto.
Qed.

Lemma gss_more go count E p ms own : gss go count E p ms own -> wf_more p.
Proof.
  intros G. split; [intros i e j Hi Hj; exact (proj1 (gs_next _ _ _ _ _ _ G i e j Hi Hj))|].
  intros lk k i Hl Hi. rewrite <- (gs_own _ _ _ _ _ _ G). exact (lookup_lt_Some _ _ _ (gs_more _ _ _ _ _ _ G lk k i Hl Hi)).
Qed.

Lemma bounded_same p p' : s_links p' = s_links p -> s_extras p' = s_extras p -> bounded p -> bounded p'.
Proof. intros E1 E2 H lk q. unfold parents, p_chain, link_at. rewrite E1, E2. apply H. Qed.

Lemma bounded_add_link k p : bounded p -> k_more k = None -> (forall q, k_parent k = Some q -> q < length (s_links p)) -> bounded (snd (add_link k p)).
Proof.
  intros H Hm Hk lk q Hlt Hq. simpl in Hlt. rewrite length_app in *. simpl in Hlt. destruct (decide (lk < length (s_links p))) as [Hl|Hl].
  - rewrite (proj2 (old_link k p lk Hl)) in Hq. pose proof (H lk q Hl Hq). simpl. rewrite length_app. lia.
  - assert (lk = length (s_links p)) as -> by lia. rewrite (proj1 (new_link k p Hm)) in Hq. apply list_elem_of_singleton in Hq.
    pose proof (Hk q (eq_sym Hq)). simpl. rewrite length_app. lia.
Qed.

Lemma stack_grows p p' : bounded p -> grows p p' -> forall lk st, lk < length (s_links p) -> stack_of p lk st -> stack_of p' lk st.
Proof.
  intros Hb Hg lk st Hlt H. induction H as [lk Hn|lk q st Hq Hst IH].
  - rewrite <- (gr_state _ _ Hg lk Hlt). constructor. exact (gr_parents _ _ Hg lk _ Hlt Hn).
  - rewrite <- (gr_state _ _ Hg lk Hlt). econstructor; [exact (gr_parents _ _ Hg lk _ Hlt Hq)|]. apply IH. exact (Hb lk q Hlt Hq).
Qed.

(** ** Popping *)

Lemma down_path p n lk anc : down p n lk anc -> exists ns, length ns = n /\ path p lk ns anc.
Proof.
  induction 1 as [lk|n lk q anc Hq _ (ns & Hlen & Hp)]; [exists []; split; [reflexivity|constructor]|].
  apply elem_of_parents in Hq as (nd & d & Hin). exists (ns ++ [nd]). split; [rewrite length_app; simpl; lia|]. econstructor; eauto.
Qed.

(** One way down is the only one where no link has an alternate. *)
Lemma onePath_unique p n : forall lk raw dyn raw' anc dyn' anc', onePath p (Some lk) n raw dyn = Some (raw', anc, dyn') -> down p n lk anc' -> anc' = anc.
Proof.
  induction n as [|n IH]; intros lk raw dyn raw' anc dyn' anc' H Hd; simpl in H; inversion Hd as [|? ? q ? Hq Hrest]; subst; [congruence|].
  destruct (k_more (link_at p lk)) eqn:Em; [discriminate|]. unfold parents, p_chain in Hq. rewrite Em in Hq.
  assert (E : map x_parent (chain (length (s_extras p)) (s_extras p) None) = []) by (destruct (length (s_extras p)); reflexivity).
  rewrite E in Hq. apply list_elem_of_singleton in Hq. rewrite <- Hq in H. exact (IH _ _ _ _ _ _ _ H Hrest).
Qed.

(** Each index leads to the cursor of its ancestor. *)
Definition indexed (st : paths) : Prop := forall q i, ps_best st !! q = Some i -> exists cu, ps_next st !! i = Some cu /\ pc_link cu = q.

(** From [st] to [st'] the links [qs] were found. *)
Record covers (st : paths) (qs : list (option nat)) (st' : paths) : Prop := {
  cv_indexed : indexed st -> indexed st';
  cv_keep q : is_Some (ps_best st !! q) -> is_Some (ps_best st' !! q);
  cv_over : ps_overflow st' = false -> ps_overflow st = false;
  cv_new q : ps_overflow st' = false -> Some q ∈ qs -> is_Some (ps_best st' !! q) }.

Lemma covers_refl st : covers st [] st.
Proof. split; auto. intros q _ []%not_elem_of_nil. Qed.

Lemma covers_app st a st1 b st2 : covers st a st1 -> covers st1 b st2 -> covers st (a ++ b) st2.
Proof.
  intros [A1 A2 A3 A4] [B1 B2 B3 B4]. split; auto. intros q Ho [H|H]%elem_of_app; auto.
Qed.

Lemma add_path_covers limit part st par nd d : covers st [par] (add_path limit part st (par, nd, d)).
Proof.
  unfold add_path. destruct par as [par|].
  2: { split; auto. intros q _ H%list_elem_of_singleton. discriminate. }
  destruct (ps_overflow st) eqn:Eo; [split; auto; congruence|].
  assert (Hone : forall (st' : paths), is_Some (ps_best st' !! par) -> forall q, Some q ∈ [Some par] -> is_Some (ps_best st' !! q))
    by (intros st' H q [= ->]%list_elem_of_singleton; exact H).
  destruct (ps_best st !! par) as [i|] eqn:Eb.
  - destruct (ps_next st !! i) as [old|] eqn:En; [|split; auto; intros q _; apply Hone; rewrite Eb; eauto].
    destruct (_ <=? _)%Z; [split; auto; intros q _; apply Hone; rewrite Eb; eauto|]. split; simpl; auto.
    + intros H q j Hj. simpl in *. destruct (H q j Hj) as (cu & Hcu & El). destruct (decide (j = i)) as [->|Hne].
      * destruct (H par i Eb) as (cu' & Hcu' & El'). rewrite list_lookup_insert_eq by exact (lookup_lt_Some _ _ _ Hcu).
        eexists. split; [reflexivity|]. simpl. congruence.
      * rewrite list_lookup_insert_ne by congruence. eauto.
  - destruct (_ <=? _)%Z; [split; simpl; auto; discriminate|]. split; simpl; [|intros q|auto|intros q _].
    + intros H q j Hj. simpl in *. destruct (decide (q = par)) as [->|Hne].
      * rewrite lookup_insert_eq in Hj. injection Hj as <-. eexists. split; [apply list_lookup_middle; reflexivity|reflexivity].
      * rewrite lookup_insert_ne in Hj by congruence. destruct (H q j Hj) as (cu & Hcu & El). exists cu. split; [apply lookup_app_l_Some, Hcu|exact El].
    + intros Hq. destruct (decide (q = par)) as [->|Hne]; [rewrite lookup_insert_eq; eauto|rewrite lookup_insert_ne by congruence; exact Hq].
    + intros [= ->]%list_elem_of_singleton. rewrite lookup_insert_eq. eauto.
Qed.

Lemma preds_cover limit part preds : forall st, covers st (map (fun '(par, _, _) => par) preds) (foldl (add_path limit part) st preds).
Proof.
  induction preds as [|[[par nd] d] preds IH]; intros st; [apply covers_refl|]. cbn [foldl map].
  change (par :: ?l) with ([par] ++ l). eapply covers_app; [apply add_path_covers|apply IH].
Qed.

Lemma parents_eachPred p lk : map (fun '(par, _, _) => par) (eachPred p lk) = parents p lk.
Proof. unfold eachPred, parents. simpl. f_equal. rewrite map_map. reflexivity. Qed.

Lemma pop_paths_cover limit p cur part q : ps_overflow (pop_paths limit p cur) = false -> part ∈ cur -> Some q ∈ parents p (pc_link part) ->
  exists cu, cu ∈ ps_next (pop_paths limit p cur) /\ pc_link cu = q.
Proof.
  assert (H : forall cur st, covers st (cur ≫= fun part => parents p (pc_link part))
    (foldl (fun st part => if ps_overflow st then st else foldl (add_path limit part) st (eachPred p (pc_link part))) st cur)).
  { clear cur part. induction cur as [|part cur IH]; intros st; [apply covers_refl|]. cbn [foldl]. rewrite bind_cons. eapply covers_app; [|apply IH].
    destruct (ps_overflow st) eqn:Eo; [split; auto; congruence|]. rewrite <- parents_eachPred. apply preds_cover. }
  intros Ho Hin Hq. destruct (H cur (mkPaths ∅ [] false)) as [H1 _ _ H4]. fold (pop_paths limit p cur) in *.
  destruct (H4 q Ho) as [i Hi]; [apply list_elem_of_bind; exists part; auto|].
  destruct (H1 (fun q i E => ltac:(simpl in E; rewrite lookup_empty in E; discriminate)) q i Hi) as (cu & Hcu & El).
  exists cu. split; [exact (list_elem_of_lookup_2 _ _ _ Hcu)|exact El].
Qed.

(** [popPaths] finds every link [n] down, or gives up for too many. *)
Lemma pop_loop_cover limit p n : forall cur part anc, part ∈ cur -> down p n (pc_link part) anc ->
  match pop_loop limit n p cur with
  | Popped cur' => exists cu, cu ∈ cur' /\ pc_link cu = anc
  | PopBound => True
  | PopSyntax => False
  end.
Proof.
  induction n as [|n IH]; intros cur part anc Hin Hd; inversion Hd as [|? ? q ? Hq Hrest]; subst; cbn [pop_loop]; [eauto|].
  destruct (ps_overflow (pop_paths limit p cur)) eqn:Eo; [exact I|].
  destruct (pop_paths_cover limit p cur part q Eo Hin Hq) as (cu & Hcu & <-).
  destruct (ps_next (pop_paths limit p cur)) as [|x xs] eqn:En; [apply not_elem_of_nil in Hcu as []|]. exact (IH _ _ _ Hcu Hrest).
Qed.

(** ** Reducing *)

Lemma parent_links l info i raw dyn at_ p : s_links (snd (p_parent l info i raw dyn at_ p)) = s_links p /\ s_extras (snd (p_parent l info i raw dyn at_ p)) = s_extras p.
Proof.
  unfold p_parent. destruct (span_of p _ at_) as [st en]. destruct (p_hidden info).
  - destruct (filter _ raw) as [|d [|d' rest]]; split; reflexivity.
  - destruct (match p_expand p _ with [] => _ | _ => _ end) as [st' en']. split; reflexivity.
Qed.

(** A reduction onto a link: a new head over every stack of the link. *)
Lemma finishReduce_follow l h info i anc raw dyn p q : bounded p -> anc < length (s_links p) ->
  l_gto l !! cellKey (k_state (link_at p anc)) (p_lhs info) = Some q ->
  let '(got, kind, p') := finishReduce l h info i anc raw dyn p in
  kind = redOK /\ bounded p' /\ grows p p' /\ exists lk, got = [with_link lk h] /\ lk < length (s_links p') /\
    forall st, stack_of p anc st -> stack_of p' lk (q :: st).
Proof.
  intros Hb Hanc Hq. unfold finishReduce. destruct (parent_links l info i raw dyn (h_a h) p) as [El Ex].
  pose proof (grows_parent l info i raw dyn (h_a h) p) as Hg. destruct (p_parent l info i raw dyn (h_a h) p) as [id p1]. simpl in El, Ex, Hg.
  rewrite (gr_state _ _ Hg anc Hanc), Hq. set (k := mkLink q (Some anc) id dyn None).
  pose proof (bounded_same p p1 El Ex Hb) as Hb1. assert (Hanc1 : anc < length (s_links p1)) by (rewrite El; exact Hanc).
  pose proof (bounded_add_link k p1 Hb1 eq_refl (fun q' E => ltac:(injection E as <-; exact Hanc1))) as Hb2.
  pose proof (grows_then _ _ _ Hg (grows_add_link k p1)) as Hg2. destruct (new_link k p1 eq_refl) as [Hp Hk].
  assert (Hlen : length (s_links p1) < length (s_links (snd (add_link k p1)))) by (simpl; rewrite length_app; simpl; lia).
  change (add_link k p1) with (length (s_links p1), snd (add_link k p1)). cbv iota beta. set (p2 := snd (add_link k p1)) in *.
  split; [reflexivity|]. split; [exact Hb2|]. split; [exact Hg2|]. exists (length (s_links p1)). split; [reflexivity|]. split; [exact Hlen|].
  intros st Hst. pose proof (stack_step p2 (length (s_links p1)) anc st) as K. rewrite Hk, Hp in K. apply K; [left|].
  exact (stack_grows p p2 Hb Hg2 anc st Hanc Hst).
Qed.

(** A head of [out] over the stack [st]. *)
Definition over (h : head) (p : pr) (out : list head) (st : list nat) : Prop :=
  exists lk, with_link lk h ∈ out /\ lk < length (s_links p) /\ stack_of p lk st.

Lemma over_grows h p p' out out' st : bounded p -> grows p p' -> (forall x, x ∈ out -> x ∈ out') -> over h p out st -> over h p' out' st.
Proof.
  intros Hb Hg Hout (lk & H1 & H2 & H3). exists lk. split; [auto|]. split; [pose proof (gr_links _ _ Hg); lia|exact (stack_grows p p' Hb Hg lk st H2 H3)].
Qed.

(** Where a reduction goes from a link. *)
Definition lands (l : Language) (info : prodInfo) (p : pr) (lk q : nat) : Prop :=
  lk < length (s_links p) /\ l_gto l !! cellKey (k_state (link_at p lk)) (p_lhs info) = Some q.

Lemma lands_grows l info p p' lk q : grows p p' -> lands l info p lk q -> lands l info p' lk q.
Proof. intros Hg [H1 H2]. split; [pose proof (gr_links _ _ Hg); lia|]. rewrite (gr_state _ _ Hg lk H1). exact H2. Qed.

Lemma finish_paths_follow l h info i cur p : bounded p -> (forall cu, cu ∈ cur -> exists q, lands l info p (pc_link cu) q) ->
  let '(out, p') := finish_paths l h info i cur p in
  grows p p' /\ (forall cu, cu ∈ cur -> out <> []) /\
  forall cu q st, cu ∈ cur -> lands l info p (pc_link cu) q -> stack_of p (pc_link cu) st -> over h p' out (q :: st).
Proof.
  unfold finish_paths. set (f := fun '(out, p) part => _). revert p.
  assert (H : forall cur out0 p, bounded p -> (forall cu, cu ∈ cur -> exists q, lands l info p (pc_link cu) q) ->
    let '(out, p') := foldl f (out0, p) cur in
    grows p p' /\ (forall x, x ∈ out0 -> x ∈ out) /\ (forall cu, cu ∈ cur -> out <> []) /\
    forall cu q st, cu ∈ cur -> lands l info p (pc_link cu) q -> stack_of p (pc_link cu) st -> over h p' out (q :: st)).
  { clear cur. induction cur as [|part cur IH]; intros out0 p Hb Hc; cbn [foldl].
    - split; [apply grows_here|]. split; [auto|]. split; [intros cu []%not_elem_of_nil|intros cu q st []%not_elem_of_nil].
    - destruct (Hc part) as (q0 & Hl0 & Hq0); [left|]. unfold f at 2.
      pose proof (finishReduce_follow l h info i (pc_link part) (pc_path part) (pc_dyn part) p q0 Hb Hl0 Hq0) as K.
      destruct (finishReduce l h info i (pc_link part) (pc_path part) (pc_dyn part) p) as [[got kind] p1]. destruct K as (-> & Hb1 & Hg1 & lk & -> & Hlk & Hst).
      specialize (IH (out0 ++ [with_link lk h]) p1 Hb1). destruct (foldl f _ cur) as [out p'].
      destruct IH as (Hg2 & Hout & Hne & Hover). { intros cu Hcu. destruct (Hc cu) as [q Hq]; [right; exact Hcu|]. exists q. exact (lands_grows _ _ _ _ _ _ Hg1 Hq). }
      split; [exact (grows_then _ _ _ Hg1 Hg2)|]. assert (Hin : with_link lk h ∈ out) by (apply Hout, elem_of_app; right; left).
      split; [intros x Hx; apply Hout, elem_of_app; left; exact Hx|]. split; [intros cu _ E; rewrite E in Hin; apply not_elem_of_nil in Hin as []|].
      intros cu q st [->|Hcu]%elem_of_cons Hq Hs.
      + destruct Hq as [_ Hq]. rewrite Hq0 in Hq. injection Hq as <-. apply (over_grows h p1 p' [with_link lk h] out _ Hb1 Hg2); [intros x ->%list_elem_of_singleton; exact Hin|].
        exists lk. split; [left|]. split; [exact Hlk|apply Hst, Hs].
      + apply (Hover cu q st Hcu); [exact (lands_grows _ _ _ _ _ _ Hg1 Hq)|]. exact (stack_grows p p1 Hb Hg1 _ _ (proj1 Hq) Hs). }
  intros p Hb Hc. specialize (H cur [] p Hb Hc). destruct (foldl f ([], p) cur) as [out p']. destruct H as (H1 & _ & H2 & H3). auto.
Qed.

(** A reduction whose ways down all end at links where it lands: it gives a head
    over each stack, or passes the bound of paths. *)
Lemma doReduce_follow l limit h i info p : bounded p -> l_prods l !! i = Some info ->
  (h_stall h + 1 <= maxStall)%Z -> (p_rhs info = [] -> (h_eps h + 1 <= maxEpsilon)%Z) ->
  (exists anc, down p (length (p_rhs info)) (h_link h) anc) ->
  (forall anc ns, path p (h_link h) ns anc -> length ns = length (p_rhs info) -> exists q, lands l info p anc q) ->
  let '(got, kind, p') := doReduce l limit h i p in
  grows p p' /\ (kind = redBound \/ kind = redOK /\ exists e, forall anc q st, down p (length (p_rhs info)) (h_link h) anc -> lands l info p anc q -> stack_of p anc st ->
    over (with_counts e (h_stall h + 1) h) p' got (q :: st)).
Proof.
  intros Hb Hi Hstall Heps (anc0 & Hanc0) Hland. unfold doReduce. rewrite Hi, (proj2 (Z.ltb_ge _ _) Hstall).
  destruct (Nat.eqb_spec (length (p_rhs info)) 0) as [E0|E0].
  - rewrite E0 in *. rewrite (proj2 (Z.ltb_ge _ _)) by (apply Heps, nil_length_inv, E0).
    destruct (Hland (h_link h) [] (path_nil p (h_link h)) eq_refl) as (q0 & Hl0 & Hq0).
    set (h1 := with_counts _ _ h). pose proof (finishReduce_follow l h1 info i (h_link h) [] (int32 (p_dyn info)) p q0 Hb Hl0 Hq0) as K.
    destruct (finishReduce l h1 info i (h_link h) [] _ p) as [[got kind] p1]. destruct K as (-> & Hb1 & Hg1 & lk & -> & Hlk & Hst).
    split; [exact Hg1|]. right. split; [reflexivity|]. exists (h_eps h + 1)%Z. intros anc q st Hd [_ Hq] Hs. inversion Hd; subst.
    rewrite Hq0 in Hq. injection Hq as <-. exists lk. split; [left|]. split; [exact Hlk|apply Hst, Hs].
  - set (h1 := with_counts 0 _ h). change (h_link h1) with (h_link h).
    destruct (onePath p (Some (h_link h)) (length (p_rhs info)) [] (int32 (p_dyn info))) as [[[raw anc] dyn]|] eqn:Eo.
    + assert (Hp : exists ns, path p (h_link h) ns anc /\ length ns = length (p_rhs info)) by (destruct (onePath_path _ _ _ _ _ _ _ _ Eo) as (ns & _ & H1 & H2); eauto).
      destruct Hp as (ns & Hp & Hlen). destruct (Hland anc ns Hp Hlen) as (q0 & Hl0 & Hq0).
      pose proof (finishReduce_follow l h1 info i anc raw dyn p q0 Hb Hl0 Hq0) as K.
      destruct (finishReduce l h1 info i anc raw dyn p) as [[got kind] p1]. destruct K as (-> & Hb1 & Hg1 & lk & -> & Hlk & Hst).
      split; [exact Hg1|]. right. split; [reflexivity|]. exists 0%Z. intros anc' q st Hd [_ Hq] Hs.
      rewrite (onePath_unique p _ _ _ _ _ _ _ _ Eo Hd) in *. rewrite Hq0 in Hq. injection Hq as <-. exists lk. split; [left|]. split; [exact Hlk|apply Hst, Hs].
    + set (cu0 := mkCursor [] (h_link h) (int32 (p_dyn info))).
      assert (Hcover : forall anc, down p (length (p_rhs info)) (h_link h) anc -> match pop_loop limit (length (p_rhs info)) p [cu0] with
        Popped cur' => exists cu, cu ∈ cur' /\ pc_link cu = anc | PopBound => True | PopSyntax => False end).
      { intros anc Hd. apply (pop_loop_cover limit p _ [cu0] cu0 anc); [left|exact Hd]. }
      destruct (pop_loop limit _ p [cu0]) as [cur| |] eqn:Ep; [|destruct (Hcover _ Hanc0)|split; [apply grows_here|auto]].
      apply (pop_loop_ok limit p (h_link h) _ 0) in Ep; [|constructor; [split; [reflexivity|constructor]|constructor]]. rewrite Nat.add_0_r in Ep. rewrite Forall_forall in Ep.
      pose proof (finish_paths_follow l h1 info i cur p Hb) as K. destruct (finish_paths l h1 info i cur p) as [out p1].
      destruct K as (Hg1 & Hne & Hover). { intros cu Hcu. destruct (Ep cu Hcu) as [Hlen Hp]. exact (Hland _ _ Hp Hlen). }
      destruct (Hcover _ Hanc0) as (cu0' & Hcu0' & _). destruct out as [|x out]; [destruct (Hne _ Hcu0' eq_refl)|].
      split; [exact Hg1|]. right. split; [reflexivity|]. exists 0%Z. intros anc q st Hd Hq Hs. destruct (Hcover anc Hd) as (cu & Hcu & <-). exact (Hover cu q st Hcu Hq Hs).
Qed.

(** ** The ways down of an item *)

Section follow.
Context (l : Language) (c : compiler) (start : nat) (items : nat -> list item) (go : nat -> nat -> option nat).
Context (L : table_laws l c start items go).
Context (count : nat -> nat -> Z -> Z) (Ed : list node -> list nat -> nat -> mark -> mark -> nat -> Prop).

Local Abbreviation gss_here := (gss go count Ed).

Lemma mark_lt p ms own lk m : gss_here p ms own -> ms !! lk = Some m -> lk < length (s_links p).
Proof. intros G H. rewrite <- (gs_len _ _ _ _ _ _ G). exact (lookup_lt_Some _ _ _ H). Qed.

(** A predecessor lies over an edge. *)
Lemma parent_edge p ms own lk m par : gss_here p ms own -> ms !! lk = Some m -> par ∈ parents p lk ->
  (par = None /\ lk = 0) \/ exists q nd, par = Some q /\ lk <> 0 /\ edge go Ed p ms lk (Some q) nd.
Proof.
  intros G Hm (nd & d & Hin)%elem_of_parents. destruct (decide (lk = 0)) as [->|H0].
  - destruct (root_preds go count Ed p ms own G) as (n0 & d0 & E). rewrite E in Hin. apply list_elem_of_singleton in Hin. left. split; congruence.
  - right. pose proof (pred_edge go count Ed p ms own lk m par nd d G Hm H0 Hin) as He. pose proof He as (q & _ & _ & _ & -> & _). exists q, nd. auto.
Qed.

Lemma gss_bounded p ms own : gss_here p ms own -> bounded p.
Proof.
  intros G lk q Hlt Hq. rewrite <- (gs_len _ _ _ _ _ _ G) in Hlt. destruct (lookup_lt_is_Some_2 _ _ Hlt) as [m Hm].
  destruct (parent_edge p ms own lk m (Some q) G Hm Hq) as [[? _]|(q' & nd & [= <-] & _ & q2 & m2 & m3 & X & [= <-] & Hq2 & _)]; [discriminate|].
  exact (mark_lt p ms own q m2 G Hq2).
Qed.

(** The dot of an item moved over as many edges. *)
Lemma item_down p ms own i look : gss_here p ms own -> forall d lk m, ms !! lk = Some m -> mkItem i d look ∈ items (mk_state m) ->
  exists anc, down p d lk anc.
Proof using L.
  intros G. induction d as [|d IH]; intros lk m Hm Hit; [exists lk; constructor|].
  assert (Hpar : exists par, par ∈ parents p lk) by (exists (k_parent (link_at p lk)); left). destruct Hpar as [par Hpar].
  destruct (parent_edge p ms own lk m par G Hm Hpar) as [[_ ->]|(q & nd & -> & _ & q2 & m2 & m3 & X & [= <-] & Hq2 & Hl & Hgo & _)].
  - rewrite (gs_root_mark _ _ _ _ _ _ G) in Hm. injection Hm as <-. pose proof (tl_start_dots _ _ _ _ _ L _ Hit) as H. discriminate H.
  - rewrite Hm in Hl. injection Hl as <-. destruct (tl_back _ _ _ _ _ L _ _ _ _ _ _ Hgo Hit) as [Hback _].
    destruct (IH q m2 Hq2 Hback) as (anc & Hd). exists anc. econstructor; eauto.
Qed.

(** Below an alternative that ends here the automaton goes on with its symbol. *)
Lemma item_lands p ms own i info look lk m anc ns : gss_here p ms own -> c_prods c !! i = Some info -> ms !! lk = Some m ->
  mkItem i (length (p_rhs info)) look ∈ items (mk_state m) -> ~ (i = 0 /\ look = SymEOF) ->
  path p lk ns anc -> length ns = length (p_rhs info) -> exists q, lands l info p anc q.
Proof using L.
  intros G Hi Hm Hit Hnot Hpath Hlen. rewrite <- Hlen in Hit.
  destruct (path_chain l c start items go L count Ed p ms own i look info G Hi ns lk anc m Hpath Hm Hit) as (m0 & Hm0 & Hit0 & _).
  destruct (mark_link go count Ed p ms own anc m0 G Hm0) as [Hk Hst]. pose proof (mark_lt p ms own anc m0 G Hm0) as Hlt.
  assert (Hstate : (anc = 0 /\ mk_state m0 = 0) \/ exists q0 s, go q0 s = Some (mk_state m0)).
  { destruct (decide (anc = 0)) as [->|H0]; [left; rewrite (gs_root_mark _ _ _ _ _ _ G) in Hm0; injection Hm0 as <-; auto|right].
    destruct (gs_edge _ _ _ _ _ _ G anc _ H0 Hk) as (q & m1 & m' & X & _ & _ & Hl & Hgo & _). rewrite Hm0 in Hl. injection Hl as <-. eauto. }
  assert (Hi0 : i <> 0).
  { intros ->. destruct Hstate as [[_ Ez]|(q0 & s & Hgo)]; [|exact (tl_only_start _ _ _ _ _ L _ _ _ look Hgo Hit0)].
    rewrite Ez in Hit0. exact (Hnot (conj eq_refl (tl_start_look _ _ _ _ _ L _ Hit0))). }
  destruct (tl_goto _ _ _ _ _ L (mk_state m0) i look info) as [q Hq]; [destruct Hstate as [[_ ->]|H]; [auto|right; exact H]|exact Hit0|exact Hi|exact Hi0|].
  exists q. split; [exact Hlt|]. rewrite Hst. rewrite (tl_gto _ _ _ _ _ L); [exact Hq|].
  exact (proj1 (wf_lhs _ (tl_wf _ _ _ _ _ L) _ (list_elem_of_lookup_2 _ _ _ Hi))).
Qed.
End follow.
