(* ===== verification/Acts.v ===== *)
(** * Acting on a head

    Over the tokens of a scanner, where the LR(1) machine makes fewer than [B]
    reductions in a row, a head that acts is replaced by heads that follow every
    step of the machine from the configurations that it holds. *)
From Stdlib Require Import ZArith Lia.
From Stdlib Require Import Strings.Byte.
From stdpp Require Import base numbers option list strings gmap relations.
From S2P Require Import Prelude Grammars Compile Lexer Derive Firsts Automaton Language Machine Glr Stacks Exact Follow.

Local Open Scope nat_scope.

Section acts.
Context (l : Language) (c : compiler) (start : nat) (items : nat -> list item) (go : nat -> nat -> option nat).
Context (L : table_laws l c start items go).
Context (src : list byte) (toks : list tok) (lines : list nat) (pathLimit : Z).
Context (Haccept : forall q acts x, acts_at l q SymEOF = Some acts -> x ∈ acts -> ac_kind x = actAccept -> acts = [mkAction actAccept 0]).
Context (Hfits : Forall (fun t => (Z.of_nat (t_id t) < 65536)%Z) toks) (Hsyms : (Z.of_nat (length (l_syms l)) <= 65536)%Z).

Local Abbreviation symbols := (map t_id toks).
Local Abbreviation first := (mkConfig [0] symbols 0).
Local Abbreviation gss_here := (gss go (counted l toks) (steps l toks)).
Local Abbreviation head_here := (head_ok l src toks true (counted l toks) (machine_accepts l toks)).
Local Abbreviation later_here := (later l go src toks true (counted l toks) (steps l toks) (machine_accepts l toks)).
Local Abbreviation laws_here := (steps_laws l c start items go L src toks Haccept).

(** ** Reachable configurations *)

(** The machine reaches the mark of every link that does not accept. *)
Lemma mark_reached p ms own : gss_here p ms own -> forall lk m, ms !! lk = Some m -> accepts_at l toks (mk_state m) (mk_pos m) = false ->
  exists s, rtc (mstep l) first (at_mark toks m s (Z.to_nat (mk_count m))).
Proof.
  intros G. enough (H : forall n k lk m, mk_pos m = n -> Z.to_nat (mk_count m) = k -> ms !! lk = Some m -> accepts_at l toks (mk_state m) (mk_pos m) = false ->
    exists s, rtc (mstep l) first (at_mark toks m s k)) by (intros lk m; eauto).
  induction n as [n IHn] using lt_wf_ind. induction k as [k IHk] using lt_wf_ind. intros lk m En Ek Hm Hlive.
  destruct (decide (lk = 0)) as [->|H0].
  - rewrite (gs_root_mark _ _ _ _ _ _ G) in Hm. injection Hm as <-. exists []. unfold at_mark, counted in *. simpl in *. rewrite Hlive in Ek. subst k. reflexivity.
  - destruct (mark_link go (counted l toks) (steps l toks) p ms own lk m G Hm) as [Hk _].
    destruct (gs_edge _ _ _ _ _ _ G lk _ H0 Hk) as (q & m1 & m' & X & _ & Hq & Hl & _ & Hge & Hfin & Hrun & Hbelow). rewrite Hm in Hl. injection Hl as <-.
    destruct (Hbelow Hlive) as [Hc Hb].
    assert (IH : exists s, rtc (mstep l) first (at_mark toks m1 s (Z.to_nat (mk_count m1)))).
    { destruct Hb as [Hb|[Hb1 Hb2]]; [apply (IHn (mk_pos m1) ltac:(lia) _ q m1 eq_refl eq_refl Hq Hfin)|].
      apply (IHk (Z.to_nat (mk_count m1)) ltac:(lia) q m1 ltac:(lia) eq_refl Hq Hfin). }
    destruct IH as (s & Hs). destruct (Hrun s) as (k' & Hk' & E). rewrite (E Hlive), Ek in Hk'. exists (mk_state m1 :: s). etransitivity; eauto.
Qed.

(** ** Configurations of a head *)

Definition holds (p : pr) (h : head) (x : config) : Prop :=
  h_acc h = false /\ h_link h < length (s_links p) /\ stack_of p (h_link h) (m_stack x) /\ m_input x = drop (h_pos h) symbols /\ m_stall x = Z.to_nat (h_stall h).

Lemma holds_grows p p' h x : bounded p -> grows p p' -> holds p h x -> holds p' h x.
Proof.
  intros Hb Hg (H1 & H2 & H3 & H4). split; [exact H1|]. split; [pose proof (gr_links _ _ Hg); lia|]. split; [exact (stack_grows p p' Hb Hg _ _ H2 H3)|exact H4].
Qed.

(** What an action of a cell does to the machine. *)
Definition does (a : action) (x y : config) : Prop :=
  (ac_kind a = actShift /\ exists s rest, m_input x = s :: rest /\ y = mkConfig (ac_val a :: m_stack x) rest 0) \/
  (ac_kind a = actReduce /\ exists p q0 st0 q', l_prods l !! ac_val a = Some p /\ drop (length (p_rhs p)) (m_stack x) = q0 :: st0 /\
     l_gto l !! cellKey q0 (p_lhs p) = Some q' /\ y = mkConfig (q' :: q0 :: st0) (m_input x) (S (m_stall x))).

Lemma mstep_does x y : mstep l x y -> exists q st s rest acts a, m_stack x = q :: st /\ m_input x = s :: rest /\ acts_at l q s = Some acts /\ a ∈ acts /\ does a x y.
Proof.
  destruct 1 as [q st s rest k acts q' Ha Hin|q st s rest k acts i p q0 st0 q' Ha Hin Hp Hd Hq]; exists q, st, s, rest, acts; eexists; (repeat split); try eassumption.
  - left. simpl. eauto.
  - right. simpl. eauto 10.
Qed.

(** The heads [got] follow an action of a head. *)
Definition followed (p : pr) (h : head) (a : action) (p' : pr) (got : list head) : Prop :=
  (forall x y, holds p h x -> does a x y -> exists h', h' ∈ got /\ holds p' h' y) /\
  (ac_kind a = actAccept -> exists h', h' ∈ got /\ h_acc h' = true).

Lemma followed_grows p h a p1 got p2 got' : bounded p1 -> grows p1 p2 -> (forall x, x ∈ got -> x ∈ got') -> followed p h a p1 got -> followed p h a p2 got'.
Proof.
  intros Hb Hg Hsub [H1 H2]. split; [|intros Hk; destruct (H2 Hk) as (h' & K1 & K2); eauto].
  intros x y Hx Hy. destruct (H1 x y Hx Hy) as (h' & K1 & K2). exists h'. split; [auto|exact (holds_grows p1 p2 h' y Hb Hg K2)].
Qed.

(** ** Shifting *)

Lemma doShift_follow h q p : bounded p -> h_link h < length (s_links p) -> h_acc h = false ->
  let '(h', p') := doShift l true h q p in grows p p' /\ followed p h (mkAction actShift q) p' [h'].
Proof.
  intros Hb Hlt Hacc. unfold doShift. cbn [p_add]. set (p1 := mkPr _ _ _ _ _ _). set (k := mkLink q _ _ _ _).
  assert (Hg1 : grows p p1) by (apply grows_same; auto). pose proof (grows_then _ _ _ Hg1 (grows_add_link k p1)) as Hg.
  destruct (new_link k p1 eq_refl) as [Hp Hk]. assert (Hlen : length (s_links p1) < length (s_links (snd (add_link k p1)))) by (simpl; rewrite length_app; simpl; lia).
  change (add_link k p1) with (length (s_links p1), snd (add_link k p1)). cbv iota beta. set (p2 := snd (add_link k p1)) in *. cbn [fst snd].
  split; [exact Hg|]. split; [|discriminate]. intros x y (_ & _ & Hst & Hin & _) [(_ & s & rest & Ein & ->)|(? & _)]; [|discriminate].
  eexists. split; [left|]. split; [exact Hacc|]. split; [exact Hlen|]. simpl. split; [|split; [|reflexivity]].
  - pose proof (stack_step p2 (length (s_links p1)) (h_link h) (m_stack x)) as K. rewrite Hk, Hp in K. apply K; [left|exact (stack_grows p p2 Hb Hg _ _ Hlt Hst)].
  - rewrite Hin in Ein. destruct (symbols !! h_pos h) as [s0|] eqn:E0; [rewrite (drop_S _ _ _ E0) in Ein; congruence|].
    rewrite drop_ge in Ein by (apply lookup_ge_None, E0). discriminate.
Qed.

(** ** Reducing *)

Context (B : nat) (Hstall : (Z.of_nat B <= maxStall)%Z).
Context (Heps : (Z.of_nat B <= maxEpsilon)%Z \/ forall i info, l_prods l !! i = Some info -> p_rhs info <> []).
Context (Hcalm : forall y, rtc (mstep l) first y -> m_stall y < B).

(** The empty reductions in a row are among the reductions in a row. *)
Definition counts_ok (h : head) : Prop := (0 <= h_eps h <= h_stall h)%Z.

(** A head that shifts or reduces has made fewer than [B] reductions. *)
Lemma stall_lt p ms own h x : gss_here p ms own -> head_here p ms h -> h_has h = true -> has_action l p h x -> ac_kind x <> actAccept ->
  (0 <= h_stall h < Z.of_nat B)%Z.
Proof.
  intros G Hh Hhas (acts & Hacts & Hin) Hk.
  destruct (head_parts l go src toks true (counted l toks) (steps l toks) (machine_accepts l toks) p ms own h G Hh Hhas) as (m & pos & Hm & Hst & Hpos & Hcount & Hge & Hs & _).
  rewrite <- Hst in Hacts. pose proof (acting_not_final l src toks Haccept _ _ _ _ _ _ _ _ Hs Hacts Hin Hk) as Hlive. rewrite (counted_live l toks _ _ _ Hlive) in Hcount.
  destruct (mark_reached p ms own G _ m Hm Hlive) as (s & Hs'). pose proof (Hcalm _ Hs') as H. simpl in H. lia.
Qed.

Lemma doReduce_followed p ms own h i : gss_here p ms own -> head_here p ms h -> h_has h = true -> h_acc h = false -> counts_ok h ->
  has_action l p h (mkAction actReduce i) ->
  let '(got, kind, p') := doReduce l pathLimit h i p in
  grows p p' /\ (kind = redBound \/ kind = redOK /\ followed p h (mkAction actReduce i) p' got).
Proof.
  intros G Hh Hhas Hacc Hc Hact. pose proof (stall_lt p ms own h _ G Hh Hhas Hact ltac:(discriminate)) as Hlt.
  destruct (head_parts l go src toks true (counted l toks) (steps l toks) (machine_accepts l toks) p ms own h G Hh Hhas) as (m & pos & Hm & Hst & _ & _ & _ & _ & _ & Hid).
  pose proof Hact as (acts & Hacts & Hin).
  destruct (tl_act _ _ _ _ _ L _ _ _ _ Hid Hacts Hin) as [(? & _)|[(_ & it & Hit & Hend & Ei & Elook & Hnot)|(? & _)]]; [discriminate| |discriminate].
  destruct it as [i' d look]. cbn [ac_val i_prod i_look] in *. subst i' look.
  destruct (tl_items _ _ _ _ _ L _ _ Hit) as (Hi & Hd & _). cbn [i_prod i_dot] in *. destruct (lookup_lt_is_Some_2 _ _ Hi) as [info Einfo].
  unfold at_end, after_dot in Hend. cbn [i_prod i_dot] in Hend. rewrite (c_prod_lookup c _ _ Einfo) in Hend, Hd. apply lookup_ge_None in Hend.
  assert (d = length (p_rhs info)) as -> by lia. rewrite <- Hst in Hit.
  assert (Hi' : l_prods l !! i = Some info) by (rewrite (tl_prods _ _ _ _ _ L); exact Einfo).
  assert (Hland : forall anc ns, path p (h_link h) ns anc -> length ns = length (p_rhs info) -> exists q, lands l info p anc q)
    by (intros anc ns; exact (item_lands l c start items go L _ _ p ms own i info _ _ m anc ns G Einfo Hm Hit Hnot)).
  pose proof (gss_bounded go _ _ p ms own G) as Hb.
  pose proof (doReduce_follow l pathLimit h i info p Hb Hi') as K. destruct (doReduce l pathLimit h i p) as [[got kind] p'].
  destruct K as [Hg K].
  { lia. } { intros E. destruct Heps as [|Hne]; [unfold counts_ok in Hc; lia|destruct (Hne i info Hi' E)]. }
  { exact (item_down l c start items go L _ _ p ms own i _ G _ _ m Hm Hit). } { exact Hland. }
  split; [exact Hg|]. destruct K as [->|(-> & e & K)]; [auto|right]. split; [reflexivity|]. split; [|discriminate].
  intros x y (_ & _ & Hs & Hinp & Hk) [(? & _)|(_ & info' & q0 & st0 & q' & Ep & Hdrop & Hq & ->)]; [discriminate|]. cbn [ac_val] in Ep. assert (info' = info) as -> by congruence.
  destruct (stack_drop p _ _ _ _ _ Hs Hdrop) as (anc & Hdown & Hanc & Etop).
  destruct (K anc q' (q0 :: st0) Hdown) as (lk & Hlk & Hlk' & Hst'); [|exact Hanc|].
  { destruct (down_path p _ _ _ Hdown) as (ns & Hlen & Hpath). destruct (Hland anc ns Hpath Hlen) as (q & Hl & _). split; [exact Hl|]. rewrite Etop. exact Hq. }
  eexists. split; [exact Hlk|]. split; [exact Hacc|]. split; [exact Hlk'|]. split; [exact Hst'|]. split; [exact Hinp|]. simpl. rewrite Hk. lia.
Qed.

(** ** All the actions of a cell *)

(** The heads that a head becomes: an accepted one, one after the token, or one
    with one more reduction. *)
Definition next_of (h h' : head) : Prop :=
  h_acc h' = true \/
  (h_acc h' = false /\ h_pos h' = S (h_pos h) /\ h_pos h < length toks /\ h_stall h' = 0%Z /\ h_eps h' = 0%Z /\ h_has h' = false) \/
  (h_acc h' = false /\ h_pos h' = h_pos h /\ h_stall h' = (h_stall h + 1)%Z /\ counts_ok h' /\ h_has h' = true /\ (h_stall h < Z.of_nat B)%Z).

Lemma finishReduce_shape h info i anc raw dyn p : Forall (fun h' => exists lk, h' = with_link lk h) (fst (fst (finishReduce l h info i anc raw dyn p))).
Proof.
  unfold finishReduce. destruct (p_parent _ _ _ _ _ _ _) as [id p1]. destruct (l_gto l !! _) as [q|]; [|constructor].
  simpl. constructor; [eauto|constructor].
Qed.

Lemma finish_paths_shape h info i cur p : Forall (fun h' => exists lk, h' = with_link lk h) (fst (finish_paths l h info i cur p)).
Proof.
  unfold finish_paths. apply (foldl_ind (fun st => Forall (fun h' => exists lk, h' = with_link lk h) (fst st))); [constructor|].
  intros [out p1] part Hout _. pose proof (finishReduce_shape h info i (pc_link part) (pc_path part) (pc_dyn part) p1) as K.
  destruct (finishReduce _ _ _ _ _ _ _ _) as [[got kind] p2]. simpl in *. destruct kind; simpl; [apply Forall_app|..]; auto.
Qed.

Lemma doReduce_shape h i p : Forall (fun h' => exists lk e, h' = with_link lk (with_counts e (h_stall h + 1) h) /\ (e = 0%Z \/ e = (h_eps h + 1)%Z)) (fst (fst (doReduce l pathLimit h i p))).
Proof.
  unfold doReduce. destruct (l_prods l !! i) as [info|]; [|constructor]. destruct (_ <? _)%Z; [constructor|].
  assert (Hsub : forall e got, (e = 0%Z \/ e = (h_eps h + 1)%Z) -> Forall (fun h' => exists lk, h' = with_link lk (with_counts e (h_stall h + 1) h)) got ->
    Forall (fun h' => exists lk e, h' = with_link lk (with_counts e (h_stall h + 1) h) /\ (e = 0%Z \/ e = (h_eps h + 1)%Z)) got).
  { intros e got He H. eapply Forall_impl; [exact H|]. intros h' (lk & ->). eauto. }
  destruct (_ =? 0).
  - destruct (_ <? _)%Z; [constructor|]. apply (Hsub (h_eps h + 1)%Z); [auto|]. apply finishReduce_shape.
  - destruct (onePath _ _ _ _ _) as [[[raw anc] dyn]|]; [apply (Hsub 0%Z); [auto|apply finishReduce_shape]|].
    destruct (pop_loop _ _ _ _) as [cur| |]; [|constructor|constructor].
    pose proof (finish_paths_shape (with_counts 0 (h_stall h + 1) h) info i cur p) as K.
    destruct (finish_paths _ _ _ _ _ _) as [out p']. destruct out; [constructor|]. apply (Hsub 0%Z); auto.
Qed.

Lemma reduce_next h i p : h_has h = true -> h_acc h = false -> counts_ok h -> (h_stall h < Z.of_nat B)%Z -> Forall (next_of h) (fst (fst (doReduce l pathLimit h i p))).
Proof.
  intros Hhas Hacc Hc Hlt. eapply Forall_impl; [apply doReduce_shape|]. intros h' (lk & e & -> & He). right. right. unfold counts_ok in *. simpl.
  split; [exact Hacc|]. split; [reflexivity|]. split; [reflexivity|]. split; [lia|]. split; [exact Hhas|exact Hlt].
Qed.

Lemma act_loop_followed h : h_has h = true -> h_acc h = false -> counts_ok h -> forall acts out p ms own, gss_here p ms own -> s_nodes p <> [] ->
  head_here p ms h -> (forall x, x ∈ acts -> has_action l p h x) ->
  let '(got, _, p') := act_loop l src toks true lines pathLimit h acts out p in
  grows p p' /\ (Forall (next_of h) out -> Forall (next_of h) got) /\
  (s_bound p' <> None \/ (forall x, x ∈ out -> x ∈ got) /\ forall a, a ∈ acts -> followed p h a p' got).
Proof.
  intros Hhas Hacc Hc. induction acts as [|a acts IH]; intros out p ms own G N Hh Hacts.
  { split; [apply grows_here|]. split; [auto|]. right. split; [auto|intros a []%not_elem_of_nil]. }
  assert (Ha : has_action l p h a) by (apply Hacts; left). pose proof (gss_bounded go _ _ p ms own G) as Hb.
  assert (Hlt : h_link h < length (s_links p)) by (destruct Hh as ((m & Hm & _) & _); exact (mark_lt go _ _ p ms own _ m G Hm)).
  assert (Hnext : forall more p1, later_here p ms more p1 -> grows p p1 -> Forall (next_of h) more -> followed p h a p1 more ->
    let '(got, _, p') := act_loop l src toks true lines pathLimit h acts (out ++ more) p1 in
    grows p p' /\ (Forall (next_of h) out -> Forall (next_of h) got) /\
    (s_bound p' <> None \/ (forall x, x ∈ out -> x ∈ got) /\ forall a', a' ∈ a :: acts -> followed p h a' p' got)).
  { intros more p1 (ms1 & own1 & G1 & E1 & N1 & _) Hg1 Hmore Hfol.
    pose proof (IH (out ++ more) p1 ms1 own1 G1 N1) as K. destruct (act_loop _ _ _ _ _ _ h acts (out ++ more) p1) as [[got err] p2].
    destruct K as (Hg2 & Hshape & K).
    - exact (head_ext l c start go src toks true _ _ _ laws_here p ms p1 ms1 h E1 Hh).
    - intros x Hx. apply (has_action_ext l go src toks true (counted l toks) (steps l toks) (machine_accepts l toks) p ms own p1 ms1 own1); auto. apply Hacts. right. exact Hx.
    - split; [exact (grows_then _ _ _ Hg1 Hg2)|]. split; [intros Hout; apply Hshape, Forall_app; auto|].
      destruct K as [K|[K1 K2]]; [left; exact K|right]. pose proof (gss_bounded go _ _ p1 ms1 own1 G1) as Hb1.
      split; [intros x Hx; apply K1, elem_of_app; auto|]. intros a' [->|Ha']%elem_of_cons.
      + apply (followed_grows p h a p1 more p2 got Hb1 Hg2); [intros x Hx; apply K1, elem_of_app; auto|exact Hfol].
      + destruct (K2 a' Ha') as [F1 F2]. split; [|exact F2]. intros x y Hx. apply F1. exact (holds_grows p p1 h x Hb Hg1 Hx). }
  destruct (head_parts l go src toks true (counted l toks) (steps l toks) (machine_accepts l toks) p ms own h G Hh Hhas) as (m & pos & Hm & Hst & Hpos & _ & _ & Hs & _ & Hid). pose proof Ha as (acts0 & Hacts0 & Hin).
  pose proof (tl_act _ _ _ _ _ L _ _ _ a Hid Hacts0 Hin) as Hlaw.
  cbn [act_loop]. destruct a as [kind val]. destruct Hlaw as [(Hkind & Ht & Hgo)|[(Hkind & it & Hit & Hend & Hi & _)|([= -> ->] & Hsym & it & Hit & Hend & Hi & _)]]; cbn [ac_kind ac_val] in *.
  - subst kind. rewrite Nat.eqb_refl. pose proof (doShift_later l c start go src toks true _ _ _ laws_here p ms own h val G N Hh Hhas Hacc Ha Ht Hgo) as K1.
    pose proof (doShift_follow h val p Hb Hlt Hacc) as K2.
    assert (K3 : next_of h (fst (doShift l true h val p))) by (right; left; simpl; destruct Hs as [Hs _]; apply lookup_lt_Some in Hs; auto with lia).
    destruct (doShift l true h val p) as [h2 p1]. destruct K2 as [Hg1 Hf]. exact (Hnext [h2] p1 K1 Hg1 (proj2 (Forall_singleton _ _) K3) Hf).
  - subst kind. simpl (_ =? _). cbv iota.
    pose proof (doReduce_later l c start items go L src toks true pathLimit _ _ _ laws_here p ms own h val G N Hh Hhas Hacc Ha ltac:(eauto)) as K1.
    pose proof (doReduce_followed p ms own h val G Hh Hhas Hacc Hc Ha) as K2.
    pose proof (stall_lt p ms own h _ G Hh Hhas Ha ltac:(discriminate)) as [_ Hlt'].
    pose proof (reduce_next h val p Hhas Hacc Hc Hlt') as K3.
    destruct (doReduce l pathLimit h val p) as [[reduced kind] p1]. destruct K2 as [Hg1 [->|[-> Hf]]].
    + destruct (grows_noteBound h p1) as [Hg2 Hbd]. split; [exact (grows_then _ _ _ Hg1 Hg2)|]. split; [constructor|auto].
    + exact (Hnext reduced p1 K1 Hg1 K3 Hf).
  - simpl (_ =? _). cbv iota. set (h2 := mkHead _ _ _ _ _ _ _ _ _ _). apply (Hnext [h2] p); [|apply grows_here|constructor; [left; reflexivity|constructor]|].
    + pose proof (accept_ok l c start items go L src toks true _ _ _ laws_here p ms own h it G Hh Hhas Hsym Ha Hit Hend Hi) as K.
      exists ms, own. split; [exact G|]. split; [apply ext_refl|]. split; [exact N|]. constructor; [|constructor].
      destruct Hh as ((m' & H1 & H2 & H3 & H4 & _) & H5 & _). rewrite Hsym in Hacts0. assert (m' = m) as -> by congruence. rewrite <- Hst in Hacts0.
      split; [exists m; split; [exact H1|]; split; [exact H2|]; split; [exact H3|]; split; [exact H4|]; intros _; split; [exact Hhas|]; split; [exact Hsym|]; eauto|].
      split; [exact H5|]. intros _. exact K.
    + split; [|intros _; exists h2; split; [left|reflexivity]]. intros x y _ [(? & _)|(? & _)]; discriminate.
Qed.

(** ** A head acts *)

(** The machine accepts from a configuration of the head. *)
Definition promising (p : pr) (h : head) : Prop := h_acc h = true \/ exists x, holds p h x /\ accepts_from l x.

Lemma accepts_from_cell x : accepts_from l x -> exists q st s rest acts a, m_stack x = q :: st /\ m_input x = s :: rest /\
  acts_at l q s = Some acts /\ a ∈ acts /\ (ac_kind a = actAccept \/ exists y, does a x y /\ accepts_from l y).
Proof.
  intros (y & Hxy & Hy). apply rtc_inv in Hxy as [->|(z & Hxz & Hzy)].
  - destruct Hy as (q & st & s & rest & acts & a & H1 & H2 & H3 & H4 & H5). exists q, st, s, rest, acts, a. auto 10.
  - destruct (mstep_does x z Hxz) as (q & st & s & rest & acts & a & H1 & H2 & H3 & H4 & H5). exists q, st, s, rest, acts, a.
    repeat (split; [assumption|]). right. exists z. split; [exact H5|]. exists y. auto.
Qed.

Lemma promising_grows p p' h : bounded p -> grows p p' -> promising p h -> promising p' h.
Proof. intros Hb Hg [H|(x & H1 & H2)]; [left; exact H|right]. exists x. split; [exact (holds_grows p p' h x Hb Hg H1)|exact H2]. Qed.

Lemma symbols_drop pos s rest : drop pos symbols = s :: rest -> exists t, toks !! pos = Some t /\ t_id t = s.
Proof.
  intros E. assert (H : symbols !! pos = Some s) by (rewrite <- (Nat.add_0_r pos), <- lookup_drop, E; reflexivity).
  apply list_lookup_fmap_Some in H as (t & -> & Ht). eauto.
Qed.

Lemma p_act_followed h p ms own : gss_here p ms own -> s_nodes p <> [] -> head_here p ms h -> h_acc h = false -> counts_ok h ->
  let '(got, _, p') := p_act l src toks true lines pathLimit h p in
  grows p p' /\ Forall (next_of h) got /\ (s_bound p' <> None \/ (promising p h -> exists h', h' ∈ got /\ promising p' h')).
Proof.
  intros G N Hh Hacc Hc. unfold p_act.
  assert (Hcell : promising p h -> exists x q st t acts a, holds p h x /\ m_stack x = q :: st /\ toks !! h_pos h = Some t /\ q = k_state (link_at p (h_link h)) /\
    acts_at l q (t_id t) = Some acts /\ a ∈ acts /\ (ac_kind a = actAccept \/ exists y, does a x y /\ accepts_from l y)).
  { intros [?|(x & Hx & Hfrom)]; [congruence|]. destruct (accepts_from_cell x Hfrom) as (q & st & s & rest & acts & a & H1 & H2 & H3 & H4 & H5).
    pose proof Hx as (_ & _ & Hst & Hin & _). rewrite Hin in H2. destruct (symbols_drop _ _ _ H2) as (t & Ht & <-).
    destruct (stack_top p _ _ Hst) as (st' & Est). assert (q = k_state (link_at p (h_link h))) as Eq by congruence. exists x, q, st, t, acts, a. auto 10. }
  assert (Herr : forall h' p1, (p1 = p) -> ~ promising p h -> let '(e, p2) := errAt src toks true lines (h_pos h') (Some h') p1 in
    grows p p2 /\ Forall (next_of h) [] /\ (s_bound p2 <> None \/ (promising p h -> exists h'', h'' ∈ [] /\ promising p2 h''))).
  { intros h' p1 -> Hn. pose proof (grows_errAt src toks true lines (h_pos h') (Some h') p) as Hg. destruct (errAt _ _ _ _ _ _ _) as [e p2].
    split; [exact Hg|]. split; [constructor|]. right. intros H. destruct (Hn H). }
  destruct (ensure l src toks true h p) as [ok h'] eqn:Een. destruct ok; simpl negb; cbv iota.
  2: { specialize (Herr h' p eq_refl). destruct (errAt _ _ _ _ _ _ _) as [e p2]. apply Herr. intros H.
       destruct (Hcell H) as (x & q & st & t & acts & a & _ & _ & Ht & _). unfold ensure in Een. rewrite Ht in Een. destruct (h_has h); discriminate. }
  destruct (ensure_ok l c start go src toks true _ _ _ laws_here Hfits Hsyms p ms h h' Hh Een) as (Hh' & Hhas & Elk & Epos & Eacc & Eeps & Estall). rewrite Hacc in Eacc.
  assert (Hsym : forall t, toks !! h_pos h = Some t -> t_id t = h_sym h').
  { intros t Ht. destruct Hh' as (_ & Hs & _). destruct (Hs Hhas) as (pos & [Ht' _] & _). rewrite Epos, Ht in Ht'. injection Ht' as ->. reflexivity. }
  assert (Hnone : (acts_at l (k_state (link_at p (h_link h'))) (h_sym h') = None \/ acts_at l (k_state (link_at p (h_link h'))) (h_sym h') = Some []) -> ~ promising p h).
  { intros E H. destruct (Hcell H) as (x & q & st & t & acts & a & _ & _ & Ht & -> & Ha & Hin & _). rewrite (Hsym t Ht), <- Elk in Ha.
    destruct E as [E|E]; rewrite E in Ha; [discriminate|injection Ha as <-; apply not_elem_of_nil in Hin as []]. }
  destruct (acts_at l (k_state _) (h_sym h')) as [acts|] eqn:Eacts.
  2: { specialize (Herr h' p eq_refl (Hnone (or_introl eq_refl))). destruct (errAt _ _ _ _ _ _ _) as [e p2]. exact Herr. }
  destruct acts as [|x0 xs] eqn:Ex.
  1: { specialize (Herr h' p eq_refl (Hnone (or_intror eq_refl))). destruct (errAt _ _ _ _ _ _ _) as [e p2]. exact Herr. }
  rewrite <- Ex in *. clear x0 xs Ex Herr Hnone.
  assert (Hc' : counts_ok h') by (unfold counts_ok; rewrite Eeps, Estall; exact Hc).
  pose proof (act_loop_followed h' Hhas Eacc Hc' acts [] p ms own G N Hh' ltac:(intros y Hy; exists acts; auto)) as K.
  destruct (act_loop _ _ _ _ _ _ h' acts [] p) as [[got err] p']. destruct K as (Hg & Hshape & K). split; [exact Hg|].
  split. { eapply Forall_impl; [exact (Hshape (Forall_nil_2 _))|]. intros h2. unfold next_of. rewrite Epos, Estall. auto. }
  destruct K as [K|[_ K]]; [left; exact K|right]. intros H.
  destruct (Hcell H) as (x & q & st & t & acts' & a & (Hx1 & Hx2) & _ & Ht & -> & Ha & Hin & Hgo). rewrite (Hsym t Ht), <- Elk, Eacts in Ha. injection Ha as <-.
  destruct (K a Hin) as [F1 F2]. destruct Hgo as [Hk|(y & Hd & Hy)]; [destruct (F2 Hk) as (h2 & H1 & H2); exists h2; split; [exact H1|left; exact H2]|].
  destruct (F1 x y) as (h2 & H1 & H2); [unfold holds; rewrite Elk, Epos, Estall; auto|exact Hd|]. exists h2. split; [exact H1|]. right. eauto.
Qed.
End acts.
