(* ===== verification/Rounds.v ===== *)
(** * The rounds of the parser

    The loop of [Parse] of x/parse/parse.go over the tokens of a scanner: its heads
    are in step, so a merge keeps what they follow, and the bound of its rounds is
    enough.  It accepts exactly what the LR(1) machine accepts. *)
From Stdlib Require Import ZArith Lia.
From Stdlib Require Import Strings.Byte.
From stdpp Require Import base numbers option list strings gmap relations.
From S2P Require Import Prelude Grammars Compile Lexer Derive Firsts Automaton Language Machine Glr Stacks Exact Follow Acts.

Local Open Scope nat_scope.

(** ** Positions and keys *)

Lemma minPos_spec hs : match minPos hs with
  | None => Forall (fun h => h_acc h = true) hs
  | Some m => (exists h, h ∈ hs /\ h_acc h = false /\ h_pos h = m) /\ forall h, h ∈ hs -> h_acc h = false -> m <= h_pos h
  end.
Proof.
  unfold minPos. set (f := fun m h => _). induction hs as [|h hs IH] using rev_ind; [constructor|].
  rewrite foldl_snoc. destruct (foldl f None hs) as [m|] eqn:E; unfold f at 1; destruct (h_acc h) eqn:Ea.
  - destruct IH as [(h0 & H1 & H2) H3]. split; [exists h0; split; [apply elem_of_app; auto|exact H2]|].
    intros h' [Hh| ->%list_elem_of_singleton]%elem_of_app Hacc; [auto|congruence].
  - destruct IH as [(h0 & H1 & H2) H3]. destruct (Nat.ltb_spec (h_pos h) m) as [Hlt|Hge].
    + split; [exists h; split; [apply elem_of_app; right; left|auto]|]. intros h' [Hh| ->%list_elem_of_singleton]%elem_of_app Hacc; [specialize (H3 h' Hh Hacc)|]; lia.
    + split; [exists h0; split; [apply elem_of_app; auto|exact H2]|]. intros h' [Hh| ->%list_elem_of_singleton]%elem_of_app Hacc; [auto|exact Hge].
  - apply Forall_app. split; [exact IH|]. constructor; [exact Ea|constructor].
  - split; [exists h; split; [apply elem_of_app; right; left|auto]|]. intros h' [Hh| ->%list_elem_of_singleton]%elem_of_app Hacc; [|lia].
    rewrite Forall_forall in IH. specialize (IH h' Hh). congruence.
Qed.

Lemma find_key_none p k out : find_key p k out = None -> k ∉ map (head_key p) out.
Proof.
  induction out as [|o out IH]; simpl; [intros _; apply not_elem_of_nil|]. case_bool_decide as E; [discriminate|].
  destruct (find_key p k out); [discriminate|]. intros _. apply not_elem_of_cons. split; [congruence|exact (IH eq_refl)].
Qed.

Section rounds.
Context (l : Language) (c : compiler) (start : nat) (items : nat -> list item) (go : nat -> nat -> option nat).
Context (L : table_laws l c start items go).
Context (src : list byte) (toks : list tok) (lines : list nat) (pathLimit : Z).
Context (Haccept : forall q acts x, acts_at l q SymEOF = Some acts -> x ∈ acts -> ac_kind x = actAccept -> acts = [mkAction actAccept 0]).
Context (Hfits : Forall (fun t => (Z.of_nat (t_id t) < 65536)%Z) toks) (Hsyms : (Z.of_nat (length (l_syms l)) <= 65536)%Z).
Context (B : nat) (Hstall : (Z.of_nat B <= maxStall)%Z).
Context (Heps : (Z.of_nat B <= maxEpsilon)%Z \/ forall i info, l_prods l !! i = Some info -> p_rhs info <> []).
Context (Hcalm : forall y, rtc (mstep l) (mkConfig [0] (map t_id toks) 0) y -> m_stall y < B).
Context (last : nat) (Hlast : forall i t, toks !! i = Some t -> t_id t = SymEOF -> i = last).
Context (Hwide : (Z.of_nat (3 * Nat.max 1 (l_states l)) <= maxHeads)%Z).

Local Abbreviation gss_here := (gss go (counted l toks) (steps l toks)).
Local Abbreviation head_here := (head_ok l src toks true (counted l toks) (machine_accepts l toks)).
Local Abbreviation later_here := (later l go src toks true (counted l toks) (steps l toks) (machine_accepts l toks)).
Local Abbreviation laws_here := (steps_laws l c start items go L src toks Haccept).
Local Abbreviation promises := (promising l toks).

(** ** Heads in step *)

(** A head that has not accepted has read the tokens to [m] and made [k]
    reductions, or has read one more token. *)
Definition in_step (m : nat) (k : Z) (h : head) : Prop :=
  h_acc h = true \/
  (h_acc h = false /\ counts_ok h /\ h_pos h <= length toks /\
   ((h_pos h = m /\ h_stall h = k /\ h_has h = (0 <? k)%Z /\ (k <= Z.of_nat B)%Z) \/ (h_pos h = S m /\ h_stall h = 0%Z /\ h_has h = false))).

Lemma in_step_node m k n h : in_step m k h -> in_step m k (set_node n h).
Proof. intros H. exact H. Qed.

Lemma in_step_agree m k h h' : in_step m k h -> in_step m k h' -> h_pos h = h_pos h' -> h_has h = h_has h' -> h_acc h = false -> h_acc h' = false ->
  h_stall h = h_stall h'.
Proof.
  intros [?|(_ & _ & _ & H)] [?|(_ & _ & _ & H')]; try congruence. intros E _ _ _.
  destruct H as [(H1 & H2 & _)|(H1 & H2 & _)], H' as [(K1 & K2 & _)|(K1 & K2 & _)]; try congruence; lia.
Qed.

(** Where no head is left at [m] the next position begins. *)
Lemma in_step_next m k hs : Forall (in_step m k) hs -> (forall h, h ∈ hs -> h_acc h = false -> S m <= h_pos h) -> Forall (in_step (S m) 0) hs.
Proof.
  rewrite !Forall_forall. intros H Hm h Hh. destruct (H h Hh) as [Ha|(Ha & H1 & H2 & H3)]; [left; exact Ha|right].
  specialize (Hm h Hh Ha). split; [exact Ha|]. split; [exact H1|]. split; [exact H2|]. left. destruct H3 as [(? & _)|(H3 & H4 & H5)]; [lia|]. repeat split; auto; lia.
Qed.

Lemma next_in_step m k h h' : in_step m k h -> h_acc h = false -> h_pos h = m -> next_of toks B h h' -> in_step m (k + 1) h'.
Proof.
  intros [?|(_ & Hc & Hle & H)] Hacc Hm; [congruence|]. destruct H as [(_ & Hk & _)|(? & _)]; [|lia]. unfold counts_ok in Hc.
  intros [H|[(H1 & H2 & H3 & H4 & H5 & H6)|(H1 & H2 & H3 & H4 & H5 & H6)]]; [left; exact H|right|right]; (split; [exact H1|]).
  - unfold counts_ok. split; [lia|]. split; [lia|]. right. split; [lia|auto].
  - split; [exact H4|]. split; [lia|]. left. split; [lia|]. split; [lia|]. split; [|lia]. rewrite H5. symmetry. apply Z.ltb_lt. lia.
Qed.

(** ** A round *)

Definition hopeful (p : pr) (hs : list head) : Prop := exists h, h ∈ hs /\ promises p h.

Lemma hopeful_grows p p' hs hs' : bounded p -> grows p p' -> (forall h, h ∈ hs -> h ∈ hs') -> hopeful p hs -> hopeful p' hs'.
Proof. intros Hb Hg Hs (h & H1 & H2). exists h. split; [auto|exact (promising_grows l toks p p' h Hb Hg H2)]. Qed.

Lemma act_heads_step m k : (0 <= k)%Z -> forall hs next best p ms own, gss_here p ms own -> s_nodes p <> [] -> Forall (head_here p ms) hs ->
  Forall (in_step m k) hs -> Forall (in_step m (k + 1)) next ->
  let '(next', _, p') := foldl (act_head l src toks true lines pathLimit m) (next, best, p) hs in
  grows p p' /\ Forall (in_step m (k + 1)) next' /\ (s_bound p' <> None \/ (hopeful p (next ++ hs) -> hopeful p' next')).
Proof.
  intros Hk. induction hs as [|h hs IH]; intros next best p ms own G N Hh Hs Hn; cbn [foldl].
  { split; [apply grows_here|]. split; [exact Hn|]. right. rewrite app_nil_r. auto. }
  apply Forall_cons in Hh as [Hh Hhs]. apply Forall_cons in Hs as [Hsh Hss]. unfold act_head at 2.
  destruct (h_acc h || negb (h_pos h =? m)) eqn:Eb.
  - assert (Hkeep : in_step m (k + 1) h).
    { destruct Hsh as [Ha|(Ha & H1 & H2 & H3)]; [left; exact Ha|]. rewrite Ha in Eb. simpl in Eb. apply negb_true_iff, Nat.eqb_neq in Eb.
      right. destruct H3 as [(? & _)|H3]; [congruence|auto 10]. }
    specialize (IH (next ++ [h]) best p ms own G N Hhs Hss ltac:(apply Forall_app; auto)). destruct (foldl _ _ hs) as [[next' best'] p'].
    rewrite <- (assoc_L (++)) in IH. exact IH.
  - apply orb_false_iff in Eb as [Hacc Epos]. apply negb_false_iff, Nat.eqb_eq in Epos.
    assert (Hc : counts_ok h) by (destruct Hsh as [?|(_ & H & _)]; [congruence|exact H]).
    pose proof (p_act_later l c start items go L src toks true lines pathLimit _ _ _ laws_here Hfits Hsyms h p ms own G N Hh Hacc) as K1.
    pose proof (p_act_followed l c start items go L src toks lines pathLimit Haccept Hfits Hsyms B Hstall Heps Hcalm h p ms own G N Hh Hacc Hc) as K2.
    destruct (p_act l src toks true lines pathLimit h p) as [[grew dead] p1]. destruct K1 as (ms1 & own1 & G1 & E1 & N1 & F1). destruct K2 as (Hg1 & Hshape & K2).
    assert (Hgrew : Forall (in_step m (k + 1)) grew) by (eapply Forall_impl; [exact Hshape|]; intros h'; apply next_in_step; assumption).
    specialize (IH (next ++ grew) (dead_error best dead (s_errState p1)) p1 ms1 own1 G1 N1).
    destruct (foldl _ _ hs) as [[next' best'] p']. destruct IH as (Hg2 & Hstep & K3).
    + eapply Forall_impl; [exact Hhs|]. intros x. exact (head_ext l c start go src toks true _ _ _ laws_here p ms p1 ms1 x E1).
    + exact Hss.
    + apply Forall_app. auto.
    + split; [exact (grows_then _ _ _ Hg1 Hg2)|]. split; [exact Hstep|]. destruct K3 as [K3|K3]; [left; exact K3|].
      destruct K2 as [K2|K2]; [left; exact (gr_bound _ _ Hg2 K2)|right]. pose proof (gss_bounded go _ _ p ms own G) as Hb.
      intros (x & Hx & Hp). apply K3. apply elem_of_app in Hx as [Hx|Hx]; [|apply elem_of_cons in Hx as [->|Hx]].
      * exists x. split; [apply elem_of_app; left; apply elem_of_app; left; exact Hx|exact (promising_grows l toks p p1 x Hb Hg1 Hp)].
      * destruct (K2 Hp) as (h' & H1 & H2). exists h'. split; [apply elem_of_app; left; apply elem_of_app; right; exact H1|exact H2].
      * exists x. split; [apply elem_of_app; right; exact Hx|exact (promising_grows l toks p p1 x Hb Hg1 Hp)].
Qed.

(** ** Merging *)

Lemma head_lt p ms own h : gss_here p ms own -> head_here p ms h -> h_link h < length (s_links p).
Proof. intros G ((m & Hm & _) & _). exact (mark_lt go _ _ p ms own _ m G Hm). Qed.

(** The head that another one is merged into takes over what it holds. *)
Lemma holds_merged p ms own m k h o x : gss_here p ms own -> head_here p ms h -> head_here p ms o -> in_step m k h -> in_step m k o ->
  head_key p o = head_key p h -> holds toks p h x -> holds toks (p_union (h_link o) (h_link h) p) o x.
Proof.
  intros G Hh Ho Sh So Ek (H1 & H2 & H3 & H4 & H5). injection Ek as Est Epos _ Ehas Eacc.
  pose proof (head_lt p ms own o G Ho) as Hlo. pose proof (gss_bounded go _ _ p ms own G) as Hb.
  destruct (union_grows (h_link o) (h_link h) p (gss_more _ _ _ _ _ _ G) Hlo H2) as (Hg & _ & Hlen & Hpar).
  split; [congruence|]. split; [rewrite Hlen; exact Hlo|]. split.
  - inversion H3 as [lk Hn E1 E2|lk q st Hq Hst E1 E2]; subst lk; rewrite <- Est, <- (gr_state _ _ Hg _ Hlo).
    + constructor. exact (Hpar _ Hn).
    + apply stack_step with q; [exact (Hpar _ Hq)|]. exact (stack_grows p _ Hb Hg q st (Hb _ _ H2 Hq) Hst).
  - split; [rewrite Epos; exact H4|]. rewrite H5. f_equal. symmetry. apply (in_step_agree m k o h So Sh Epos Ehas); congruence.
Qed.

Lemma merge_head_step m k out p h ms own : gss_here p ms own -> Forall (head_here p ms) (h :: out) -> Forall (in_step m k) (h :: out) -> NoDup (map (head_key p) out) ->
  let '(out', p') := merge_head (out, p) h in
  grows p p' /\ NoDup (map (head_key p') out') /\ (hopeful p (h :: out) -> hopeful p' out').
Proof.
  intros G [Hh Hout]%Forall_cons [Sh Sout]%Forall_cons Hnd. unfold merge_head. destruct (find_key p (head_key p h) out) as [i|] eqn:Ef.
  2: { split; [apply grows_here|]. split.
       - rewrite map_app. apply NoDup_app. split; [exact Hnd|]. split; [|apply NoDup_singleton]. intros x Hx ->%list_elem_of_singleton. exact (find_key_none _ _ _ Ef Hx).
       - intros (x & [->|Hx]%elem_of_cons & Hp); [exists h|exists x]; (split; [|exact Hp]); apply elem_of_app; [right; left|left; exact Hx]. }
  destruct (find_key_spec _ _ _ _ Ef) as (o & Hi & Ek). rewrite Hi. pose proof (list_elem_of_lookup_2 _ _ _ Hi) as Hoin.
  rewrite Forall_forall in Hout, Sout. pose proof (Hout o Hoin) as Ho. pose proof (Sout o Hoin) as So.
  pose proof (head_lt p ms own h G Hh) as Hlh. pose proof (head_lt p ms own o G Ho) as Hlo. pose proof (gss_bounded go _ _ p ms own G) as Hb.
  destruct (union_grows (h_link o) (h_link h) p (gss_more _ _ _ _ _ _ G) Hlo Hlh) as (Hg & _ & _). set (p' := p_union _ _ p) in *.
  set (o' := if h_acc h && better p h o then set_node (h_node h) o else o).
  assert (Eout : (if h_acc h && better p h o then <[i := set_node (h_node h) o]> out else out) = <[i := o']> out).
  { unfold o'. destruct (h_acc h && better p h o); [reflexivity|]. symmetry. apply list_insert_id, Hi. }
  assert (Eo : h_acc o' = h_acc o /\ forall x, holds toks p' o x -> holds toks p' o' x) by (unfold o'; destruct (h_acc h && better p h o); auto). destruct Eo as [Eacc Eholds].
  assert (Hin' : o' ∈ <[i := o']> out) by (apply list_elem_of_lookup_2 with i; apply list_lookup_insert_eq; exact (lookup_lt_Some _ _ _ Hi)).
  rewrite Eout. split; [exact Hg|]. split.
  - assert (E : map (head_key p') (<[i := o']> out) = map (head_key p) out); [|rewrite E; exact Hnd].
    apply list_eq. intros j. rewrite !list_lookup_fmap. destruct (decide (j = i)) as [->|Hne].
    + rewrite list_lookup_insert_eq by exact (lookup_lt_Some _ _ _ Hi). rewrite Hi. simpl. f_equal.
      assert (E : head_key p' o' = head_key p' o) by (unfold o'; destruct (h_acc h && better p h o); reflexivity). rewrite E. unfold head_key. rewrite (gr_state _ _ Hg _ Hlo). reflexivity.
    + rewrite list_lookup_insert_ne by congruence. destruct (out !! j) as [y|] eqn:Ey; [|reflexivity]. simpl. f_equal. unfold head_key.
      rewrite (gr_state _ _ Hg); [reflexivity|]. exact (head_lt p ms own y G (Hout y (list_elem_of_lookup_2 _ _ _ Ey))).
  - intros (x & [->|Hx]%elem_of_cons & Hp).
    + exists o'. split; [exact Hin'|]. destruct Hp as [Ha|(y & Hy & Hfrom)].
      * left. rewrite Eacc. injection Ek as _ _ _ _ E. congruence.
      * right. exists y. split; [|exact Hfrom]. apply Eholds. exact (holds_merged p ms own m k h o y G Hh Ho Sh So Ek Hy).
    + apply list_elem_of_lookup in Hx as [j Hj]. destruct (decide (j = i)) as [->|Hne].
      * rewrite Hi in Hj. injection Hj as <-. exists o'. split; [exact Hin'|]. destruct (promising_grows l toks p p' o Hb Hg Hp) as [Ha|(y & Hy & Hfrom)]; [left; congruence|right; eauto].
      * exists x. split; [|exact (promising_grows l toks p p' x Hb Hg Hp)]. apply list_elem_of_lookup_2 with j. rewrite list_lookup_insert_ne by congruence. exact Hj.
Qed.

Lemma merge_fold_step m k hs : forall out p ms own, gss_here p ms own -> s_nodes p <> [] -> Forall (head_here p ms) (hs ++ out) -> Forall (in_step m k) (hs ++ out) ->
  NoDup (map (head_key p) out) ->
  let '(out', p') := foldl merge_head (out, p) hs in
  (exists ms' own', gss_here p' ms' own' /\ s_nodes p' <> [] /\ Forall (head_here p' ms') out') /\ Forall (in_step m k) out' /\
  NoDup (map (head_key p') out') /\ grows p p' /\ (hopeful p (hs ++ out) -> hopeful p' out').
Proof.
  induction hs as [|h hs IH]; intros out p ms own G N Hh Hs Hnd; cbn [foldl].
  { split; [exists ms, own; auto|]. split; [exact Hs|]. split; [exact Hnd|]. split; [apply grows_here|auto]. }
  cbn [app] in *. apply Forall_cons in Hh as [Hh0 Hh]. apply Forall_app in Hh as [Hhs Hout]. apply Forall_cons in Hs as [Hs0 Hs]. apply Forall_app in Hs as [Hss Hso].
  assert (K0 : later_here p ms (h :: out) p) by (exists ms, own; split; [exact G|]; split; [apply ext_refl|]; split; [exact N|constructor; assumption]).
  destruct (merge_head_later l c start items go L src toks true _ _ _ laws_here (in_step m k) (fun n h => in_step_node m k n h)) with (out := out) (p := p) (h := h) (p0 := p) (ms0 := ms)
    as [(ms1 & own1 & G1 & E1 & N1 & F1) P1].
  { intros a b Ha Hb E1 E2 E3 E4 q. rewrite (in_step_agree m k a b Ha Hb E1 E2 E3 E4). reflexivity. } { exact K0. } { constructor; assumption. }
  pose proof (merge_head_step m k out p h ms own G ltac:(constructor; assumption) ltac:(constructor; assumption) Hnd) as K.
  destruct (merge_head (out, p) h) as [out1 p1]. cbn [fst snd] in *. destruct K as (Hg1 & Hnd1 & Hhope).
  specialize (IH out1 p1 ms1 own1 G1 N1). destruct (foldl merge_head (out1, p1) hs) as [out2 p2]. destruct IH as (H1 & H2 & H3 & H4 & H5).
  - apply Forall_app. split; [|exact F1]. eapply Forall_impl; [exact Hhs|]. intros x. exact (head_ext l c start go src toks true _ _ _ laws_here p ms p1 ms1 x E1).
  - apply Forall_app. auto.
  - exact Hnd1.
  - split; [exact H1|]. split; [exact H2|]. split; [exact H3|]. split; [exact (grows_then _ _ _ Hg1 H4)|]. intros (x & Hx & Hp). apply H5.
    pose proof (gss_bounded go _ _ p ms own G) as Hb.
    apply elem_of_cons in Hx as [->|Hx]; [destruct (Hhope) as (y & Hy1 & Hy2); [exists h; split; [left|exact Hp]|exists y; split; [apply elem_of_app; auto|exact Hy2]]|].
    apply elem_of_app in Hx as [Hx|Hx]; [exists x; split; [apply elem_of_app; auto|exact (promising_grows l toks p p1 x Hb Hg1 Hp)]|].
    destruct (Hhope) as (y & Hy1 & Hy2); [exists x; split; [right; exact Hx|exact Hp]|exists y; split; [apply elem_of_app; auto|exact Hy2]].
Qed.

(** Heads in step have few keys. *)
Definition step_keys (m : nat) (k : Z) : list (nat * nat * nat * bool * bool) :=
  flat_map (fun q => [(q, m, if (0 <? k)%Z then default 0 (t_id <$> toks !! m) else 0, (0 <? k)%Z, false); (q, S m, 0, false, false); (q, last, SymEOF, true, true)])
    (seq 0 (Nat.max 1 (l_states l))).

Lemma length_step_keys m k : length (step_keys m k) = 3 * Nat.max 1 (l_states l).
Proof.
  unfold step_keys. set (f := fun q => _). rewrite (flat_map_constant_length (c := 3)); [rewrite length_seq; lia|reflexivity].
Qed.

Lemma state_lt p ms own lk m : gss_here p ms own -> ms !! lk = Some m -> k_state (link_at p lk) < Nat.max 1 (l_states l).
Proof.
  intros G Hm. destruct (mark_link go _ _ p ms own lk m G Hm) as [Hk Hst]. rewrite Hst. destruct (decide (lk = 0)) as [->|H0].
  - rewrite (gs_root_mark _ _ _ _ _ _ G) in Hm. injection Hm as <-. simpl. lia.
  - destruct (gs_edge _ _ _ _ _ _ G lk _ H0 Hk) as (q & m1 & m' & X & _ & _ & Hl & Hgo & _). rewrite Hm in Hl. injection Hl as <-.
    destruct (tl_states _ _ _ _ _ L _ _ _ Hgo). lia.
Qed.

Lemma head_key_step m k p ms own h : gss_here p ms own -> head_here p ms h -> in_step m k h -> head_key p h ∈ step_keys m k.
Proof.
  intros G Hh Hs. pose proof Hh as ((mk & Hm & _ & _ & _ & Hacc) & Hhas & _). pose proof (state_lt p ms own _ mk G Hm) as Hlt.
  apply list_elem_of_In, in_flat_map. exists (k_state (link_at p (h_link h))). split; [apply in_seq; lia|]. unfold head_key.
  destruct Hs as [Ha|(Ha & _ & _ & [(H1 & H2 & H3 & _)|(H1 & H2 & H3)])]; rewrite Ha.
  - destruct (Hacc Ha) as (Eh & Es & _). destruct (Hhas Eh) as (pos & [Ht _] & _). rewrite (Hlast _ _ Ht Es), Eh, Es. right. right. left. reflexivity.
  - left. rewrite H1, H3. destruct (0 <? k)%Z; [|reflexivity]. destruct (Hhas H3) as (pos & [Ht _] & _). rewrite H1 in Ht. rewrite Ht. reflexivity.
  - right. left. rewrite H1, H3. reflexivity.
Qed.

Lemma few_heads m k p ms own hs : gss_here p ms own -> Forall (head_here p ms) hs -> Forall (in_step m k) hs -> NoDup (map (head_key p) hs) ->
  (Z.of_nat (length hs) <= maxHeads)%Z.
Proof.
  intros G Hh Hs Hnd. rewrite Forall_forall in Hh, Hs. assert (H : length (map (head_key p) hs) <= length (step_keys m k)).
  { apply submseteq_length, NoDup_submseteq; [exact Hnd|]. intros x (h & -> & Hx)%list_elem_of_fmap. exact (head_key_step m k p ms own h G (Hh h Hx) (Hs h Hx)). }
  rewrite length_map, length_step_keys in H. lia.
Qed.

Lemma merge_step m k hs p ms own : gss_here p ms own -> s_nodes p <> [] -> Forall (head_here p ms) hs -> Forall (in_step m k) hs ->
  exists hs' p' ms' own', merge src toks true lines hs p = (inl hs', p') /\ gss_here p' ms' own' /\ s_nodes p' <> [] /\ Forall (head_here p' ms') hs' /\
    Forall (in_step m k) hs' /\ grows p p' /\ (hopeful p hs -> hopeful p' hs').
Proof.
  intros G N Hh Hs. unfold merge. pose proof (merge_fold_step m k hs [] p ms own G N) as K. destruct (foldl merge_head ([], p) hs) as [out p'].
  rewrite !app_nil_r in K. destruct (K Hh Hs (NoDup_nil_2)) as ((ms' & own' & G' & N' & F') & S' & Hnd & Hg & Hhope).
  rewrite (proj2 (Z.leb_le _ _) (few_heads m k p' ms' own' out G' F' S' Hnd)). exists out, p', ms', own'. auto 10.
Qed.

(** ** The loop *)

(** The rounds that are left. *)
Definition rounds_left (m : nat) (k : nat) : nat := (length toks + 1 - m) * (B + 1) - k.

(** The heads of a state between two rounds. *)
Record between (m k : nat) (hs : list head) (p : pr) : Prop := {
  bt_gss : exists ms own, gss_here p ms own /\ Forall (head_here p ms) hs;
  bt_nodes : s_nodes p <> [];
  bt_step : Forall (in_step m (Z.of_nat k)) hs;
  bt_count : k <= B + 1 }.

Lemma live_left m k h : in_step m (Z.of_nat k) h -> h_acc h = false -> k <= B + 1 -> h_pos h <= length toks /\ (h_pos h = m /\ k <= B \/ h_pos h = S m).
Proof. intros [?|(_ & _ & H1 & [(H2 & _ & _ & H3)|(H2 & _)])] Ha Hk; [congruence|split; [exact H1|left; lia]|auto]. Qed.

(** Acting at the first position and merging make one round fewer. *)
Lemma parse_round m k hs p best : between m k hs p -> (exists h, h ∈ hs /\ h_acc h = false /\ h_pos h = m) -> 
  let '(next, _, p1) := foldl (act_head l src toks true lines pathLimit m) ([], best, p) hs in
  exists hs' p', merge src toks true lines next p1 = (inl hs', p') /\ between m (S k) hs' p' /\ rounds_left m k = S (rounds_left m (S k)) /\
    (s_bound p' = None -> hopeful p hs -> hopeful p' hs').
Proof.
  intros [(ms & own & G & F) N Hst Hk] (h & Hin & Hacc & Hpos). rewrite Forall_forall in Hst. destruct (live_left m k h (Hst h Hin) Hacc Hk) as [Hle [[_ HkB]|?]]; [|lia].
  rewrite <- Forall_forall in Hst.
  pose proof (act_heads_later l c start items go L src toks true lines pathLimit _ _ _ laws_here Hfits Hsyms m hs [] best p ms own G N (Forall_nil_2 _) F) as K1.
  pose proof (act_heads_step m (Z.of_nat k) ltac:(lia) hs [] best p ms own G N F Hst (Forall_nil_2 _)) as K2.
  destruct (foldl _ _ hs) as [[next best1] p1]. destruct K1 as (ms1 & own1 & G1 & E1 & N1 & F1). destruct K2 as (Hg1 & S1 & K2).
  destruct (merge_step m (Z.of_nat k + 1) next p1 ms1 own1 G1 N1 F1 S1) as (hs' & p' & ms' & own' & Em & G' & N' & F' & S' & Hg & Hhope).
  exists hs', p'. split; [exact Em|]. split; [split; [eauto|exact N'|replace (Z.of_nat (S k)) with (Z.of_nat k + 1)%Z by lia; exact S'|lia]|].
  split. { unfold rounds_left. assert (1 * (B + 1) <= (length toks + 1 - m) * (B + 1)) by (apply Nat.mul_le_mono_r; lia). lia. }
  intros Hbd Hh. destruct K2 as [K2|K2]; [destruct (gr_bound _ _ Hg K2 Hbd)|auto].
Qed.

Lemma between_next m k hs p : between m k hs p -> (forall h, h ∈ hs -> h_acc h = false -> S m <= h_pos h) -> (exists h, h ∈ hs /\ h_acc h = false) ->
  between (S m) 0 hs p /\ rounds_left (S m) 0 <= rounds_left m k.
Proof.
  intros [H1 H2 H3 H4] Hm (h & Hin & Hacc). split; [split; [exact H1|exact H2|exact (in_step_next m _ hs H3 Hm)|lia]|].
  rewrite Forall_forall in H3. destruct (live_left m k h (H3 h Hin) Hacc H4) as [Hle _]. specialize (Hm h Hin Hacc).
  unfold rounds_left. replace (length toks + 1 - m) with (S (length toks + 1 - S m)) by lia. simpl. lia.
Qed.

Lemma withWant_detail e st p : e_Detail (withWant l src toks true lines (Some e) st p) = e_Detail e.
Proof. reflexivity. Qed.

Lemma parse_loop_exact limit : forall m k hs best p, between m k hs p -> s_bound p = None -> rounds_left m k <= limit ->
  match parse_loop l src toks true lines pathLimit limit hs best p with
  | (inl (hs', _), p') => (exists m' k', between m' k' hs' p') /\ Forall (fun h => h_acc h = true) hs' /\ (hopeful p hs -> hs' <> [])
  | (inr e, _) => e_Detail e = "too many stacks"%string
  end.
Proof.
  induction limit as [|limit IH]; intros m k hs best p Hbt Hbd Hlim; pose proof (minPos_spec hs) as Hmin.
  - cbn [parse_loop]. split; [eauto|]. split; [|intros (h & Hh & _) ->; apply not_elem_of_nil in Hh as []]. rewrite Forall_forall. intros h Hh.
    destruct (h_acc h) eqn:Ea; [reflexivity|exfalso]. pose proof (bt_step _ _ _ _ Hbt) as Hst. rewrite Forall_forall in Hst.
    destruct (live_left m k h (Hst h Hh) Ea (bt_count _ _ _ _ Hbt)) as [Hle [[E Hk]|E]]; unfold rounds_left in Hlim.
    + assert (1 * (B + 1) <= (length toks + 1 - m) * (B + 1)) by (apply Nat.mul_le_mono_r; lia). lia.
    + assert (2 * (B + 1) <= (length toks + 1 - m) * (B + 1)) by (apply Nat.mul_le_mono_r; lia). pose proof (bt_count _ _ _ _ Hbt). lia.
  - cbn [parse_loop]. destruct (minPos hs) as [m'|].
    2: { split; [eauto|]. split; [exact Hmin|]. intros (h & Hh & _) ->. apply not_elem_of_nil in Hh as []. }
    destruct Hmin as [(h & Hh & Ha & Hp) Hmin]. assert (Hbt' : exists k', between m' k' hs p /\ rounds_left m' k' <= S limit).
    { pose proof (bt_step _ _ _ _ Hbt) as Hst. rewrite Forall_forall in Hst. destruct (live_left m k h (Hst h Hh) Ha (bt_count _ _ _ _ Hbt)) as [_ [[E _]|E]]; rewrite <- Hp.
      - exists k. rewrite E. auto.
      - exists 0. destruct (between_next m k hs p Hbt) as [H1 H2]; [intros h' Hh' Ha'; specialize (Hmin h' Hh' Ha'); lia|eauto|]. rewrite E. split; [exact H1|lia]. }
    destruct Hbt' as (k' & Hbt' & Hlim'). pose proof (parse_round m' k' hs p best Hbt' ltac:(eauto)) as K.
    destruct (foldl _ _ hs) as [[next best1] p1]. destruct K as (hs1 & p' & -> & Hbt1 & Eleft & Hhope).
    destruct (s_bound p') as [b|] eqn:Eb; [reflexivity|].
    specialize (IH m' (S k') hs1 best1 p' Hbt1 Eb ltac:(lia)). destruct (parse_loop _ _ _ _ _ _ limit hs1 best1 p') as [[[hs2 best2]|e] p2]; [|exact IH].
    destruct IH as (H1 & H2 & H3). auto.
Qed.

(** ** The run *)

Context (Hrounds : (length toks + 1) * (B + 1) <= step_limit src).

(** The parser accepts the tokens exactly when the machine does, or has too many
    stacks. *)
Lemma parse_run_exact : match parse_run l src toks true lines pathLimit with
  | inl _ => accepts_from l (mkConfig [0] (map t_id toks) 0)
  | inr e => e_Detail e = "too many stacks"%string \/ ~ accepts_from l (mkConfig [0] (map t_id toks) 0)
  end.
Proof.
  assert (H0 : 0 < B) by exact (Hcalm _ (rtc_refl _ _)).
  assert (Hbt : between 0 0 [start_head] (start_pr l)).
  { split; [|discriminate| |lia].
    - exists [mkMark 0 0 (counted l toks 0 0 0%Z)], []. split; [apply (start_gss l c start items go L)|]. constructor; [|constructor].
      apply (start_head_ok l src toks true).
    - constructor; [|constructor]. right. unfold counts_ok. simpl. split; [reflexivity|]. split; [lia|]. split; [lia|]. left. repeat split; lia. }
  assert (Hhope : accepts_from l (mkConfig [0] (map t_id toks) 0) -> hopeful (start_pr l) [start_head]).
  { intros H. exists start_head. split; [left|]. right. eexists. split; [|exact H]. split; [reflexivity|]. split; [simpl; lia|].
    split; [|split; [reflexivity|reflexivity]]. pose proof (stack_root (start_pr l) 0 (list_elem_of_here _ _)) as R. unfold link_at in R. simpl in R. rewrite (tl_start _ _ _ _ _ L) in R. exact R. }
  unfold parse_run. pose proof (parse_loop_exact (step_limit src) 0 0 [start_head] None (start_pr l) Hbt eq_refl) as K.
  destruct (parse_loop _ _ _ _ _ _ _ _ _ _) as [[[hs best]|e] p].
  2: { left. apply K. unfold rounds_left. lia. }
  destruct K as ((m & k & [(ms & own & G & F) _ _ _]) & Hall & Hne); [unfold rounds_left; lia|]. rewrite Forall_forall in Hall.
  destruct (winner p hs) as [w|] eqn:Ew.
  - destruct (winner_in p hs w Ew) as [Hw Ha]. rewrite Forall_forall in F. exact (proj2 (proj2 (F w Hw)) Ha).
  - right. intros H. specialize (Hne (Hhope H)). destruct hs as [|h hs]; [congruence|]. clear -Ew Hall. unfold winner in Ew. simpl in Ew.
    rewrite (Hall h) in Ew by left. simpl in Ew. assert (E : forall hs w, foldl (fun won h => if negb (h_acc h) then won else match won with None => Some h | Some w => if better p h w then Some h else won end) (Some w) hs <> None).
    { clear. induction hs as [|x hs IH]; intros w; [discriminate|]. simpl. destruct (negb _); [apply IH|]. destruct (better _ _ _); apply IH. }
    exact (E hs h Ew).
Qed.
End rounds.
