(* ===== verification/Trees.v ===== *)
(** * Soundness of the parser

    Every edge of the stack holds a derivation of its symbol from the tokens
    between its links, so an accepted head holds a derivation of the start rule
    from the tokens read. *)
From Stdlib Require Import ZArith Lia.
From Stdlib Require Import Strings.Byte.
From stdpp Require Import base numbers option list strings gmap relations.
From S2P Require Import Prelude Grammars Compile Lexer Glr Derive Firsts Automaton Language Machine Stacks.

Local Open Scope nat_scope.

Section sound.
Context (l : Language) (c : compiler) (start : nat) (items : nat -> list item) (go : nat -> nat -> option nat).
Context (L : table_laws l c start items go).
Context (src : list byte) (toks : list tok) (tokMode : bool) (lines : list nat) (pathLimit : Z).

Local Abbreviation scans_here := (scans l src toks tokMode).

(** ** Tokens between positions *)

Inductive spans : nat -> list tok -> nat -> Prop :=
| spans_nil pos : spans pos [] pos
| spans_cons pos t pos' ts pos'' : scans_here pos t pos' -> spans pos' ts pos'' -> spans pos (t :: ts) pos''.

Lemma spans_app a b d us vs : spans a us b -> spans b vs d -> spans a (us ++ vs) d.
Proof. induction 1; simpl; [auto|]. intros H'. econstructor; eauto. Qed.

(** ** The property of edges and of accepted nodes *)

Local Abbreviation reads_in p := (reads c (s_nodes p) (s_kids p)).

Definition derived (nodes : list node) (kids : list nat) (X : nat) (m m' : mark) (nd : nat) : Prop :=
  exists t, derives c X t /\ reads c nodes kids nd (flat c t) /\ spans (mk_pos m) (yield t) (mk_pos m').

(** An accepted node: a derivation of the start rule up to the end. *)
Definition accepted_ok (nodes : list node) (kids : list nat) (pos nd : nat) : Prop := exists t tk pos',
  derives c start t /\ reads c nodes kids nd (flat c t) /\ spans 0 (yield t) pos /\ scans_here pos tk pos' /\ t_id tk = SymEOF.

(** ** The node of a reduction *)

Lemma named_flag_cases sym : named_flag l sym = 0%Z \/ named_flag l sym = 1%Z.
Proof. unfold named_flag, flagNamed. destruct (si_named _); auto. Qed.

Lemma hidden_flags (h : bool) sym n : n_flags n = Z.lor (if h then flagHidden else 0) (named_flag l sym) -> is_hidden n = h.
Proof. intros E. unfold is_hidden. rewrite E. destruct (named_flag_cases sym) as [-> | ->], h; reflexivity. Qed.

Lemma reads_nonzero p raw fs : Forall2 (reads_in p) raw fs -> exists gs, Forall2 (reads_in p) (filter (fun id => id <> 0) raw) gs /\ concat gs = concat fs.
Proof.
  induction 1 as [|id f raw fs Hid _ (gs & Hgs & E)]; [exists []; split; [constructor|reflexivity]|]. rewrite filter_cons.
  case_decide as Hne.
  - exists (f :: gs). split; [constructor; assumption|]. simpl. congruence.
  - exists gs. split; [exact Hgs|]. assert (id = 0) as -> by lia. inversion Hid; subst; try congruence. simpl. exact E.
Qed.

Lemma expand_all p raw fs : Forall2 (reads_in p) raw fs -> exists gs, Forall2 (reads_in p) (p_expand p raw) gs /\ concat gs = concat fs.
Proof.
  unfold p_expand. induction 1 as [|id f raw fs Hid _ (gs & Hgs & E)]; [exists []; split; [constructor|reflexivity]|]. rewrite bind_cons.
  destruct (expand_reads c p (S (length (s_nodes p))) id f Hid) as (gk & Hgk & Ek & _).
  { destruct (reads_lt _ _ _ _ _ Hid); lia. }
  exists (gk ++ gs). split; [apply Forall2_app; assumption|]. simpl. rewrite concat_app. congruence.
Qed.

Lemma reads_all_lt p ns fs : Forall2 (reads_in p) ns fs -> Forall (fun k => k < length (s_nodes p)) ns \/ length (s_nodes p) = 0.
Proof.
  intros H. destruct (decide (length (s_nodes p) = 0)) as [E|E]; [auto|left].
  induction H as [|id f ns fs Hid _ IH]; constructor; [|exact IH]. destruct (reads_lt _ _ _ _ _ Hid); lia.
Qed.

Lemma reads_new p kids gs n : s_nodes p <> [] -> Forall2 (reads_in p) kids gs -> n_child n = length (s_kids p) -> n_nchild n = length kids ->
  terminal c (n_kind n) = false ->
  reads c (s_nodes p ++ [n]) (s_kids p ++ kids) (length (s_nodes p)) (if is_hidden n then concat gs else [CNode (n_kind n) (n_prod n) (concat gs)]).
Proof.
  intros Hne Hks Hch Hn Ht.
  assert (Hlook : (s_nodes p ++ [n]) !! length (s_nodes p) = Some n). { rewrite lookup_app_r by lia. rewrite Nat.sub_diag. reflexivity. }
  assert (Hpos : length (s_nodes p) <> 0). { destruct (s_nodes p); [congruence|simpl; lia]. }
  assert (Hlen : n_nchild n <= length (s_kids p ++ kids) - n_child n). { rewrite length_app. lia. }
  assert (Hks' : take (n_nchild n) (drop (n_child n) (s_kids p ++ kids)) = kids). { rewrite Hch, Hn, drop_app_length, take_ge by lia. reflexivity. }
  assert (Hlt : Forall (fun k => k < length (s_nodes p)) kids). { destruct (reads_all_lt p kids gs Hks); [assumption|lia]. }
  assert (Hgs : Forall2 (reads c (s_nodes p ++ [n]) (s_kids p ++ kids)) kids gs).
  { eapply Forall2_impl; [exact Hks|]. intros id f. apply reads_mono; eexists; reflexivity. }
  destruct (is_hidden n) eqn:Eh; [eapply reads_hidden|eapply reads_node]; eauto.
Qed.

Lemma p_parent_reads p i info raw ts dyn at_ : s_nodes p <> [] -> c_prods c !! i = Some info -> Forall2 (reads_in p) raw (map (flat c) ts) ->
  let '(id, p') := p_parent l info i raw dyn at_ p in reads_in p' id (flat c (PNode i ts)).
Proof using L.
  intros Hne Hi Hraw. unfold p_parent. set (direct := filter _ raw).
  destruct (reads_nonzero p raw _ Hraw) as (gs & Hgs & Egs). fold direct in Hgs. rewrite <- flat_map_concat in Egs.
  destruct (span_of p direct at_) as [st en]. simpl flat. rewrite (c_prod_lookup c _ _ Hi).
  assert (Hterm : terminal c (p_lhs info) = false) by exact (proj2 (wf_lhs _ (tl_wf _ _ _ _ _ L) _ (list_elem_of_lookup_2 _ _ _ Hi))).
  destruct (p_hidden info) eqn:Eh.
  - destruct direct as [|d [|d' rest]] eqn:Ed.
    + inversion Hgs; subst. simpl in Egs. rewrite <- Egs. constructor.
    + inversion Hgs as [|? f ? ? Hd Hnil]; subst. inversion Hnil; subst. simpl in Egs. rewrite app_nil_r in Egs. rewrite <- Egs. exact Hd.
    + set (n := mkNode _ _ _ _ _ _ _ _). pose proof (reads_new p (d :: d' :: rest) gs n Hne Hgs eq_refl eq_refl Hterm) as K.
      rewrite (hidden_flags true (p_lhs info) n eq_refl) in K. rewrite Egs in K. exact K.
  - destruct (expand_all p direct gs Hgs) as (hs & Hhs & Ehs).
    destruct (match p_expand p direct with [] => _ | _ => _ end) as [st' en'].
    set (n := mkNode _ _ _ _ _ _ _ _). pose proof (reads_new p (p_expand p direct) hs n Hne Hhs eq_refl eq_refl Hterm) as K.
    rewrite (hidden_flags false (p_lhs info) n eq_refl) in K. rewrite Ehs, Egs in K. exact K.
Qed.

(** Edges over the symbols of an alternative hold derivations of them. *)
Lemma chain_derives nodes kids m0 Xs raw m : echain go derived nodes kids m0 Xs raw m ->
  exists ts, Forall2 (derives c) Xs ts /\ Forall2 (reads c nodes kids) raw (map (flat c) ts) /\ spans (mk_pos m0) (flat_map yield ts) (mk_pos m).
Proof.
  induction 1 as [|Xs raw m1 X nd m _ (ts & H1 & H2 & H3) _ (t & K1 & K2 & K3)]; [exists []; repeat constructor|]. exists (ts ++ [t]).
  split; [apply Forall2_app; [exact H1|repeat constructor; exact K1]|]. split; [rewrite map_app; apply Forall2_app; [exact H2|repeat constructor; exact K2]|].
  rewrite flat_map_app. simpl. rewrite app_nil_r. exact (spans_app _ _ _ _ _ H3 K3).
Qed.

Lemma derived_laws : edge_laws go derived l c start src toks tokMode (fun _ _ _ => 0%Z) accepted_ok.
Proof using L.
  split.
  - intros nodes kids nodes' kids' X m m' nd H1 H2 (t & Ht & Hr & Hs). exists t. split; [exact Ht|]. split; [exact (reads_mono c _ _ _ _ H1 H2 _ _ Hr)|exact Hs].
  - intros nodes kids nodes' kids' pos nd H1 H2 (t & tk & pos' & Ht & Hr & Hs). exists t, tk, pos'. split; [exact Ht|]. split; [exact (reads_mono c _ _ _ _ H1 H2 _ _ Hr)|exact Hs].
  - intros nodes kids m s a b q acts pos k N _ _ _ _ Ht Hs. exists (PLeaf (mkTok s a b)). split; [exact (derives_leaf c (mkTok s a b) Ht)|].
    split; [|econstructor; [exact Hs|constructor]]. set (n := mkNode _ _ _ _ _ _ _ _).
    apply (reads_leaf c _ _ _ n); simpl; [destruct nodes; simpl; congruence|rewrite lookup_app_r by lia; rewrite Nat.sub_diag; reflexivity| |exact Ht|reflexivity].
    exact (hidden_flags false s n eq_refl).
  - intros p m0 raw m i info s a b acts pos q k dyn at_ N Hi Hch _ _ _ _ _ _ _. destruct (chain_derives _ _ _ _ _ _ Hch) as (ts & H1 & H2 & H3).
    pose proof (p_parent_reads p i info raw ts dyn at_ N Hi H2) as K. destruct (p_parent l info i raw dyn at_ p) as [id p1].
    exists (PNode i ts). split; [econstructor; eauto|]. split; [exact K|exact H3].
  - intros nodes kids m nd a b acts pos (t & Ht & Hr & Hs) _ _ Hsc. exists t, (mkTok SymEOF a b), pos. auto.
  - reflexivity.
Qed.

(** ** The loop *)

Context (Hfits : Forall (fun t => (Z.of_nat (t_id t) < 65536)%Z) toks) (Hsyms : (Z.of_nat (length (l_syms l)) <= 65536)%Z).

Local Abbreviation gss_here := (gss go (fun _ _ _ => 0%Z) derived).
Local Abbreviation later_here := (later l go src toks tokMode (fun _ _ _ => 0%Z) derived accepted_ok).
Local Abbreviation head_here := (head_ok l src toks tokMode (fun _ _ _ => 0%Z) accepted_ok).

Lemma parse_loop_later limit : forall hs best p ms own, gss_here p ms own -> s_nodes p <> [] -> Forall (head_here p ms) hs ->
  match parse_loop l src toks tokMode lines pathLimit limit hs best p with (inl (hs', _), p') => later_here p ms hs' p' | (inr _, _) => True end.
Proof using L Hfits Hsyms.
  induction limit as [|limit IH]; intros hs best p ms own G N Hhs; cbn [parse_loop]; [exists ms, own; auto using ext_refl|].
  destruct (minPos hs) as [m|]; [|exists ms, own; auto using ext_refl].
  pose proof (act_heads_later l c start items go L src toks tokMode lines pathLimit _ _ _ derived_laws Hfits Hsyms m hs [] best p ms own G N (Forall_nil_2 _) Hhs) as K.
  destruct (foldl _ _ hs) as [[next best1] p1]. destruct K as (ms1 & own1 & G1 & E1 & N1 & F1).
  pose proof (merge_later l c start items go L src toks tokMode lines _ _ _ derived_laws Hfits (fun _ => True) (fun _ _ H => H) (fun _ _ _ _ _ _ _ _ _ => eq_refl)
    next p1 ms1 own1 G1 N1 F1 ltac:(apply Forall_true; auto)) as K.
  destruct (merge src toks tokMode lines next p1) as [[hs2|e] p2]; [|exact I].
  destruct K as [(ms2 & own2 & G2 & E2 & N2 & F2) _]. destruct (s_bound p2); [exact I|].
  specialize (IH hs2 best1 p2 ms2 own2 G2 N2 F2). destruct (parse_loop _ _ _ _ _ _ limit hs2 best1 p2) as [[[hs3 best3]|e] p3]; [|exact I].
  destruct IH as (ms3 & own3 & G3 & E3 & N3 & F3). exists ms3, own3. split; [exact G3|].
  split; [exact (ext_trans _ _ _ _ _ _ E1 (ext_trans _ _ _ _ _ _ E2 E3))|]. auto.
Qed.

(** An accepted node holds a derivation of the start rule from the tokens read. *)
Lemma parse_run_sound nd p : parse_run l src toks tokMode lines pathLimit = inl (nd, p) -> exists pos, accepted_ok (s_nodes p) (s_kids p) pos nd.
Proof using L Hfits Hsyms.
  unfold parse_run. intros H.
  pose proof (parse_loop_later (step_limit src) [start_head] None (start_pr l) _ [] (start_gss l c start items go L _ _)) as K.
  destruct (parse_loop _ _ _ _ _ _ _ _ _ _) as [[[hs best]|e] p']; [|discriminate].
  destruct K as (ms & own & G & X & N & F); [discriminate|constructor; [apply start_head_ok|constructor]|].
  destruct (winner p' hs) as [w|] eqn:Ew; [|discriminate]. injection H as <- <-. destruct (winner_in _ _ _ Ew) as [Hw Ha].
  rewrite Forall_forall in F. exists (h_pos w). exact (proj2 (proj2 (F w Hw)) Ha).
Qed.
End sound.

(** * The concrete tree

    [concreteTree] of x/parse/tree.go copies the nodes below the root, each once
    and after its children, and the copy reads as the original. *)

Section trees.
Context (c : compiler) (nodes : list node) (kids : list nat).

Local Abbreviation reads_old := (reads c nodes kids).

(** The children of a node. *)
Definition kids_of (id : nat) : list nat := take (n_nchild (nth id nodes noNode)) (drop (n_child (nth id nodes noNode)) kids).

(** Each node once, after its children. *)
Record ordered (order : list nat) : Prop := {
  or_nodup : NoDup order;
  or_node id : id ∈ order -> id <> 0 /\ exists f, reads_old id f;
  or_kids i id k : order !! i = Some id -> k ∈ kids_of id -> k = 0 \/ exists j, j < i /\ order !! j = Some k }.

Lemma tree_order_nil : ordered [].
Proof. split; [constructor|intros id []%not_elem_of_nil|intros i id k H; rewrite lookup_nil in H; discriminate]. Qed.

Lemma tree_order_snoc order id f : ordered order -> id ∉ order -> id <> 0 -> reads_old id f -> (forall k, k ∈ kids_of id -> k = 0 \/ k ∈ order) ->
  ordered (order ++ [id]).
Proof.
  intros [H1 H2 H3] Hnot H0 Hr Hk. split.
  - apply NoDup_app. split; [exact H1|]. split; [|apply NoDup_singleton]. intros x Hx ->%list_elem_of_singleton. contradiction.
  - intros x [Hx| ->%list_elem_of_singleton]%elem_of_app; [exact (H2 x Hx)|eauto].
  - intros i x k Hi Hx. apply lookup_app_Some in Hi as [Hi|[Hge Hi]].
    + destruct (H3 i x k Hi Hx) as [|(j & Hj & Ej)]; [auto|right]. exists j. split; [exact Hj|apply lookup_app_l_Some, Ej].
    + destruct (i - length order) as [|m]; simpl in Hi; [|rewrite lookup_nil in Hi; discriminate]. injection Hi as <-.
      destruct (Hk k Hx) as [|Hin]; [auto|right]. apply list_elem_of_lookup in Hin as [j Hj]. exists j.
      split; [apply lookup_lt_Some in Hj; lia|apply lookup_app_l_Some, Hj].
Qed.

Lemma reads_kids id f : reads_old id f -> id <> 0 -> exists fs, Forall2 reads_old (kids_of id) fs /\ Forall (fun k => k < id) (kids_of id).
Proof.
  intros H H0. unfold kids_of.
  destruct H as [|id n _ Hlook _ _ Hn|id n ks fs _ Hlook _ _ _ Hks Hlt Hfs|id n ks fs _ Hlook _ _ _ Hks Hlt Hfs]; [congruence| | |];
    rewrite nth_lookup, Hlook; simpl; [rewrite Hn; exists []; split; constructor|rewrite Hks; eauto|rewrite Hks; eauto].
Qed.

(** ** The walk *)

(** The nodes that are open, [seen] but not yet in [order], stay the same. *)
Definition walked (bound : nat) (st st' : gset nat * list nat) : Prop :=
  ordered (snd st') /\ snd st `prefix_of` snd st' /\ (forall x, x ∈ fst st' <-> x ∈ fst st \/ x ∈ snd st') /\
  (forall x, x ∈ snd st' -> x ∈ snd st \/ x < bound).

Lemma walked_refl bound st : ordered (snd st) -> (forall x, x ∈ snd st -> x ∈ fst st) -> walked bound st st.
Proof. intros Ho Hin. split; [exact Ho|]. split; [reflexivity|]. split; [|auto]. intros x. split; [auto|intros [|]; auto]. Qed.

Definition walk_ready (st : gset nat * list nat) (id : nat) : Prop :=
  ordered (snd st) /\ (forall x, x ∈ snd st -> x ∈ fst st) /\ (forall x, x ∈ fst st -> x ∈ snd st \/ id < x).

(** The children of a node, one after the other. *)
Lemma walk_kids fuel id : (forall st k f, reads_old k f -> k < fuel -> walk_ready st k ->
    walked (S k) st (tree_walk fuel nodes kids st k) /\ (k = 0 \/ k ∈ snd (tree_walk fuel nodes kids st k))) ->
  id <= fuel -> forall ks fs st, Forall2 reads_old ks fs -> Forall (fun k => k < id) ks -> ordered (snd st) -> (forall x, x ∈ snd st -> x ∈ fst st) ->
  (forall x, x ∈ fst st -> x ∈ snd st \/ id <= x) ->
  walked id st (foldl (tree_walk fuel nodes kids) st ks) /\ (forall k, k ∈ ks -> k = 0 \/ k ∈ snd (foldl (tree_walk fuel nodes kids) st ks)).
Proof.
  intros Hwalk Hle. induction ks as [|k ks IHk]; intros fs st Hfs Hks Ho Hin Hopen.
  - split; [apply walked_refl; assumption|intros k []%not_elem_of_nil].
  - inversion Hfs as [|? f ? fs' Hk Hfs']; subst. apply Forall_cons in Hks as [Hki Hks]. cbn [foldl].
    destruct (Hwalk st k f Hk ltac:(lia)) as [(Ho1 & [new Hnew] & Hseen1 & Hb1) Hk1].
    { split; [exact Ho|]. split; [exact Hin|]. intros x Hx. destruct (Hopen x Hx); [auto|right; lia]. }
    set (st1 := tree_walk fuel nodes kids st k) in *.
    assert (Hin1 : forall x, x ∈ snd st1 -> x ∈ fst st1) by (intros x Hx; apply Hseen1; auto).
    destruct (IHk fs' st1 Hfs' Hks Ho1 Hin1) as [(Ho2 & [new2 Hnew2] & Hseen2 & Hb2) Hk2].
    { intros x Hx. apply Hseen1 in Hx as [Hx|Hx]; [|auto]. destruct (Hopen x Hx) as [Hx'|]; [|auto]. left. rewrite Hnew. apply elem_of_app. auto. }
    assert (Hsub : forall x, x ∈ snd st1 -> x ∈ snd (foldl (tree_walk fuel nodes kids) st1 ks)) by (intros x Hx; rewrite Hnew2; apply elem_of_app; auto).
    split; [split; [exact Ho2|split; [|split]]|].
    + exists (new ++ new2). rewrite Hnew2, Hnew. symmetry. apply (assoc_L (++)).
    + intros x. rewrite Hseen2, Hseen1. split; [intros [[|]|]; auto|intros [|]; auto].
    + intros x Hx. destruct (Hb2 x Hx) as [Hx'|]; [|auto]. destruct (Hb1 x Hx'); [auto|right; lia].
    + intros k' [->|Hk']%elem_of_cons; [destruct Hk1; auto|auto].
Qed.

Lemma walk_spec fuel : forall st id f, reads_old id f -> id < fuel -> walk_ready st id ->
  walked (S id) st (tree_walk fuel nodes kids st id) /\ (id = 0 \/ id ∈ snd (tree_walk fuel nodes kids st id)).
Proof.
  induction fuel as [|fuel IH]; intros [seen order] id f Hr Hlt (Ho & Hin & Hopen); [lia|]. cbn [tree_walk]. simpl in Ho, Hin, Hopen.
  destruct ((id =? 0) || (length nodes <=? id) || bool_decide (id ∈ seen)) eqn:Eb.
  - split; [apply walked_refl; assumption|]. apply orb_prop in Eb as [Eb|Eb]; [apply orb_prop in Eb as [Eb|Eb]|].
    + left. apply Nat.eqb_eq, Eb.
    + left. apply Nat.leb_le in Eb. destruct (reads_lt _ _ _ _ _ Hr); [assumption|lia].
    + right. apply bool_decide_eq_true in Eb. destruct (Hopen id Eb); [assumption|lia].
  - apply orb_false_iff in Eb as [Eb Hseen]. apply orb_false_iff in Eb as [Hid _]. apply Nat.eqb_neq in Hid. apply bool_decide_eq_false in Hseen.
    destruct (reads_kids id f Hr Hid) as (fs & Hfs & Hks). fold (kids_of id).
    destruct (walk_kids fuel id IH ltac:(lia) (kids_of id) fs ({[ id ]} ∪ seen, order) Hfs Hks) as [(Ho1 & [new Hnew] & Hseen1 & Hb1) Hk1].
    + exact Ho.
    + simpl. intros x Hx. apply elem_of_union. auto.
    + simpl. intros x [->%elem_of_singleton|Hx]%elem_of_union; [auto|]. destruct (Hopen x Hx); [auto|right; lia].
    + destruct (foldl (tree_walk fuel nodes kids) ({[ id ]} ∪ seen, order) (kids_of id)) as [seen1 order1]. simpl in *.
      assert (Hnot : id ∉ order1). { intros Hx. destruct (Hb1 id Hx) as [Hx'|]; [apply Hseen, Hin, Hx'|lia]. }
      split; [|right; apply elem_of_app; right; left]. split; [exact (tree_order_snoc order1 id f Ho1 Hnot Hid Hr Hk1)|].
      split; [exists (new ++ [id]); simpl; rewrite Hnew, <- (assoc_L (++)); reflexivity|]. simpl. split.
      * intros x. rewrite Hseen1, elem_of_union, elem_of_singleton, elem_of_app, list_elem_of_singleton. tauto.
      * intros x [Hx|Hx%list_elem_of_singleton]%elem_of_app; [|right; lia]. destruct (Hb1 x Hx); [auto|right; lia].
Qed.

(** ** The copy *)

Lemma place_of_none order id : id ∉ order -> place_of order id = 0.
Proof.
  induction order as [|x order IH]; simpl; [auto|]. intros H. apply not_elem_of_cons in H as [Hne H].
  destruct (Nat.eqb_spec x id) as [->|]; [congruence|]. rewrite (IH H). reflexivity.
Qed.

Lemma place_of_lookup order : NoDup order -> forall i id, order !! i = Some id -> place_of order id = S i.
Proof.
  induction 1 as [|x order Hnot _ IH]; intros i id H; [rewrite lookup_nil in H; discriminate|]. simpl.
  destruct i as [|i]; simpl in H; [injection H as ->; rewrite Nat.eqb_refl; reflexivity|].
  destruct (Nat.eqb_spec x id) as [->|]; [destruct Hnot; exact (list_elem_of_lookup_2 _ _ _ H)|]. rewrite (IH i id H). reflexivity.
Qed.

Lemma own_places order id : n_nchild (nth id nodes noNode) <= length kids - n_child (nth id nodes noNode) ->
  map (fun k => match kids !! (n_child (nth id nodes noNode) + k) with Some c => place_of order c | None => 0 end) (seq 0 (n_nchild (nth id nodes noNode))) =
  map (place_of order) (kids_of id).
Proof.
  intros H. unfold kids_of. apply list_eq. intros i. rewrite !list_lookup_fmap.
  destruct (decide (i < n_nchild (nth id nodes noNode))) as [Hi|Hi].
  - rewrite lookup_seq_lt, lookup_take_lt, lookup_drop by exact Hi. simpl.
    destruct (lookup_lt_is_Some_2 kids (n_child (nth id nodes noNode) + i)) as [x ->]; [lia|reflexivity].
  - rewrite lookup_seq_ge, lookup_take_ge by lia. reflexivity.
Qed.

(** The first [m] nodes of the order are copied. *)
Definition copied (order : list nat) (m : nat) (st : list node * list nat) : Prop :=
  length (fst st) = S m /\ forall i id f, i < m -> order !! i = Some id -> reads_old id f -> reads c (fst st) (snd st) (S i) f.

Lemma copy_step order m id st : ordered order -> order !! m = Some id -> copied order m st -> copied order (S m) (copy_node nodes kids order st id).
Proof.
  intros Ho Hm [Hlen Hread]. destruct st as [fresh freshKids]. simpl in Hlen, Hread.
  destruct (or_node _ Ho id (list_elem_of_lookup_2 _ _ _ Hm)) as (H0 & f0 & Hf0).
  assert (Hplace : forall k f, k ∈ kids_of id -> reads_old k f -> reads c fresh freshKids (place_of order k) f /\ place_of order k < S m).
  { intros k f Hk Hf. destruct (or_kids _ Ho m id k Hm Hk) as [->|(j & Hj & Ej)].
    - rewrite place_of_none by (intros Hin; destruct (or_node _ Ho 0 Hin); congruence).
      inversion Hf; subst; try congruence. split; [constructor|lia].
    - rewrite (place_of_lookup order (or_nodup _ Ho) j k Ej). split; [exact (Hread j k f Hj Ej Hf)|lia]. }
  assert (Hplaces : forall ks fs, (forall k, k ∈ ks -> k ∈ kids_of id) -> Forall2 reads_old ks fs ->
    Forall2 (reads c fresh freshKids) (map (place_of order) ks) fs /\ Forall (fun k => k < S m) (map (place_of order) ks)).
  { intros ks fs Hsub H. induction H as [|k f ks fs Hk _ IH]; [split; constructor|].
    destruct (Hplace k f ltac:(apply Hsub; left) Hk), IH as [K1 K2]; [intros x Hx; apply Hsub; right; exact Hx|]. split; constructor; assumption. }
  unfold copy_node. set (n := nth id nodes noNode).
  assert (Hnew : forall n' more, (forall f, reads_old id f -> reads c (fresh ++ [n']) (freshKids ++ more) (S m) f) ->
    copied order (S m) (fresh ++ [n'], freshKids ++ more)).
  { intros n' more Hf. split; simpl; [rewrite length_app; simpl; lia|]. intros i id' f' Hi Hid' Hf'. destruct (decide (i = m)) as [->|].
    - rewrite Hm in Hid'. injection Hid' as <-. exact (Hf f' Hf').
    - apply (reads_mono c fresh freshKids); [eexists; reflexivity|eexists; reflexivity|]. apply (Hread i id' f'); [lia|exact Hid'|exact Hf']. }
  assert (Hlook : forall n', (fresh ++ [n']) !! S m = Some n') by (intros n'; rewrite lookup_app_r by lia; rewrite Hlen, Nat.sub_diag; reflexivity).
  destruct (Nat.eqb_spec (n_nchild n) 0) as [Hz|Hnz].
  - rewrite <- (app_nil_r freshKids). apply Hnew. intros f Hf. rewrite app_nil_r.
    destruct Hf as [|id n0 _ Hn Hh Ht Hc|id n0 ks fs _ Hn Hh Ht _ Hks _ Hfs|id n0 ks fs _ Hn Hh Ht _ Hks _ Hfs]; [congruence| | |];
      assert (n0 = n) as -> by (unfold n; rewrite nth_lookup, Hn; reflexivity); [apply reads_leaf; auto| |];
      rewrite Hz in Hks; simpl in Hks; subst ks; inversion Hfs; subst;
      [eapply reads_node with (ks := [])|eapply reads_hidden with (n := n) (ks := [])]; rewrite ?Hz; auto; try lia; constructor.
  - apply Hnew. intros f Hf. set (n' := mkNode _ _ _ _ _ _ _ _).
    assert (Hbound : forall n0, nodes !! id = Some n0 -> n0 = n) by (intros n0 Hn; unfold n; rewrite nth_lookup, Hn; reflexivity).
    assert (Hcopy : forall ks fs, n_nchild n <= length kids - n_child n -> take (n_nchild n) (drop (n_child n) kids) = ks -> Forall2 reads_old ks fs ->
      let own := map (fun k => match kids !! (n_child n + k) with Some c => place_of order c | None => 0 end) (seq 0 (n_nchild n)) in
      n_nchild n' <= length (freshKids ++ own) - n_child n' /\ take (n_nchild n') (drop (n_child n') (freshKids ++ own)) = own /\
      Forall (fun k => k < S m) own /\ Forall2 (reads c (fresh ++ [n']) (freshKids ++ own)) own fs).
    { intros ks fs Hle Hks Hfs own. subst ks. fold (kids_of id) in Hfs. assert (Eown : own = map (place_of order) (kids_of id)) by (apply own_places; exact Hle).
      assert (Hown : length own = n_nchild n) by (unfold own; rewrite length_map, length_seq; reflexivity).
      destruct (Hplaces (kids_of id) fs) as [K1 K2]; [auto|exact Hfs|]. rewrite <- Eown in K1, K2. unfold n'. cbn [n_nchild n_child].
      rewrite length_app, drop_app_length, take_ge by lia. split; [lia|]. split; [reflexivity|]. split; [exact K2|].
      eapply Forall2_impl; [exact K1|]. intros k f1. apply reads_mono; eexists; reflexivity. }
    destruct Hf as [|id n0 _ Hn Hh Ht Hc|id n0 ks fs _ Hn Hh Ht Hle Hks _ Hfs|id n0 ks fs _ Hn Hh Ht Hle Hks _ Hfs]; [congruence| | |];
      pose proof (Hbound _ Hn); subst n0; [congruence| |]; destruct (Hcopy ks fs Hle Hks Hfs) as (K1 & K2 & K3 & K4).
    + exact (reads_node c _ _ (S m) n' _ fs ltac:(lia) (Hlook n') Hh Ht K1 K2 K3 K4).
    + exact (reads_hidden c _ _ (S m) n' _ fs ltac:(lia) (Hlook n') Hh Ht K1 K2 K3 K4).
Qed.

Lemma copy_all order : ordered order -> forall done rest st, order = done ++ rest -> copied order (length done) st ->
  copied order (length order) (foldl (copy_node nodes kids order) st rest).
Proof.
  intros Ho done rest. revert done. induction rest as [|id rest IH]; intros done st E H; cbn [foldl].
  - rewrite app_nil_r in E. subst order. exact H.
  - apply (IH (done ++ [id])); [rewrite <- (assoc_L (++)); exact E|]. rewrite length_app. simpl. rewrite Nat.add_1_r. apply copy_step; [exact Ho| |exact H].
    rewrite E, lookup_app_r by lia. rewrite Nat.sub_diag. reflexivity.
Qed.

(** The copy reads as the original. *)
Lemma concreteTree_reads l src lines root f : reads_old root f ->
  let t := concreteTree l src nodes kids lines root in reads c (t_nodes t) (t_kids t) (t_root t) f.
Proof.
  intros Hr. unfold concreteTree. destruct ((root =? 0) || (length nodes <=? root)) eqn:Eb.
  - simpl. assert (root = 0) as ->.
    { apply orb_prop in Eb as [Eb|Eb]; [apply Nat.eqb_eq, Eb|]. apply Nat.leb_le in Eb. destruct (reads_lt _ _ _ _ _ Hr); [assumption|lia]. }
    inversion Hr; subst; try congruence. constructor.
  - apply orb_false_iff in Eb as [E0 Elen]. apply Nat.eqb_neq in E0. apply Nat.leb_gt in Elen.
    destruct (walk_spec (S (length nodes)) (∅, []) root f Hr ltac:(lia)) as [(Ho & _) Hroot].
    { split; [apply tree_order_nil|]. split; simpl; [intros x []%not_elem_of_nil|intros x []%elem_of_empty]. }
    destruct (tree_walk _ nodes kids (∅, []) root) as [seen order]. simpl in *. destruct Hroot as [|Hroot]; [congruence|].
    pose proof (copy_all order Ho [] order ([noNode], []) eq_refl) as K. destruct (foldl _ _ order) as [fresh freshKids]. simpl.
    destruct K as [_ K]; [split; [reflexivity|intros i id' f' Hi; simpl in Hi; lia]|]. apply list_elem_of_lookup in Hroot as [j Hj].
    rewrite (place_of_lookup order (or_nodup _ Ho) j root Hj). exact (K j root f (lookup_lt_Some _ _ _ Hj) Hj Hr).
Qed.
End trees.
