(* ===== verification/Nodes.v ===== *)
(** * Reading a tree

    x/parse/tree.go: the handles of nodes, the leaves of a tree and its text.  A
    string is a list of bytes and a nil pointer is [None]; an index out of range,
    which panics, makes the result [None]. *)
From Stdlib Require Import ZArith Lia.
From Stdlib Require Import Strings.Byte.
From stdpp Require Import base numbers option list strings gmap.
From S2P Require Import Prelude Grammars Compile Lexer Derive Firsts Automaton Language Machine Glr Stacks.

Local Open Scope nat_scope.

(** ** Handles *)

Record Node : Type := mkHandle { nd_tree : option Tree; nd_id : nat }.
Definition noHandle : Node := mkHandle None 0.

Definition Root (t : option Tree) : Node := match t with None => noHandle | Some t => mkHandle (Some t) (t_root t) end.

(** The tree and the record of a valid handle. *)
Definition Valid (n : Node) : option (Tree * node) :=
  match nd_tree n with
  | None => None
  | Some t => if nd_id n =? 0 then None else match t_nodes t !! nd_id n with Some x => Some (t, x) | None => None end
  end.

Definition Name (n : Node) : string := match Valid n with None => EmptyString | Some (t, x) => si_name (l_sym (t_lang t) (n_kind x)) end.
Definition Start_of (n : Node) : nat := match Valid n with None => 0 | Some (_, x) => n_start x end.
Definition Line (n : Node) : nat := match Valid n with None => 1 | Some (t, _) => fst (lineCol (t_lines t) (Start_of n)) end.
Definition End_of (n : Node) : nat := match Valid n with None => 0 | Some (_, x) => n_end x end.

(** [bytes]: the bytes that a record covers. *)
Definition node_bytes (t : Tree) (x : node) : option (list byte) :=
  if (length (t_Src t) <? n_end x) || (n_end x <? n_start x) then None else Some (take (n_end x - n_start x) (drop (n_start x) (t_Src t))).
Definition lit (t : Tree) (x : node) : list byte :=
  if bool_decide (si_name (l_sym (t_lang t) (n_kind x)) = ";"%string) && (n_start x =? n_end x) then [x0a] else default [] (node_bytes t x).

Definition Bytes (n : Node) : option (list byte) := '(t, x) ← Valid n; node_bytes t x.
Definition Text (n : Node) : list byte := match Valid n with None => [] | Some (t, x) => lit t x end.
Definition Named (n : Node) : bool := match Valid n with None => false | Some (_, x) => negb (Z.land (n_flags x) flagNamed =? 0)%Z end.
Definition ChildCount (n : Node) : nat := match Valid n with None => 0 | Some (_, x) => n_nchild x end.
Definition Child (n : Node) (i : Z) : option Node :=
  match Valid n with
  | None => Some noHandle
  | Some (t, x) =>
      if (i <? 0)%Z || (Z.of_nat (ChildCount n) <=? i)%Z then Some noHandle
      else k ← t_kids t !! (n_child x + Z.to_nat i); Some (mkHandle (Some t) k)
  end.

(** ** Leaves *)

Record Leaf : Type := mkLeaf { lf_Name : string; lf_Text : list byte; lf_Start : nat; lf_End : nat }.

Fixpoint leaves_walk (fuel : nat) (t : Tree) (id : nat) : option (list Leaf) :=
  match fuel with
  | O => None
  | S f =>
      if id =? 0 then Some [] else
      n ← t_nodes t !! id;
      let info := l_sym (t_lang t) (n_kind n) in
      if si_terminal info then Some [mkLeaf (si_name info) (lit t n) (n_start n) (n_end n)]
      else ls ← mapM (fun i => k ← t_kids t !! (n_child n + i); leaves_walk f t k) (seq 0 (n_nchild n)); Some (concat ls)
  end.

(** A node is older than its parent. *)
Definition Leaves (t : option Tree) : option (list Leaf) :=
  match t with
  | None => Some []
  | Some t => if t_root t =? 0 then Some [] else leaves_walk (S (length (t_nodes t))) t (t_root t)
  end.

(** ** Text *)

Definition shown (t : Tree) (x : node) : list byte :=
  let text := lit t x in
  if bool_decide (si_name (l_sym (t_lang t) (n_kind x)) = ";"%string) && (bool_decide (text = [x0a]) || bool_decide (text = [])) then bytes_of ";" else text.

Fixpoint tree_write (fuel : nat) (t : Tree) (id : nat) : option (list byte) :=
  match fuel with
  | O => None
  | S f =>
      n ← t_nodes t !! id;
      let info := l_sym (t_lang t) (n_kind n) in
      let name := bytes_of (si_name info) in
      if si_terminal info then
        let text := shown t n in
        if (Z.land (n_flags n) flagNamed =? 0)%Z then Some text
        else Some (bytes_of "(" ++ name ++ (if bool_decide (text <> []) && bool_decide (text <> name) then bytes_of " " ++ text else []) ++ bytes_of ")")
      else
        kids ← mapM (fun i => k ← t_kids t !! (n_child n + i); s ← tree_write f t k; Some (bytes_of " " ++ s)) (seq 0 (n_nchild n));
        Some (bytes_of "(" ++ name ++ concat kids ++ bytes_of ")")
  end.

Definition SExpr (t : option Tree) : option (list byte) :=
  match t with
  | None => Some []
  | Some t => if t_root t =? 0 then Some [] else tree_write (S (length (t_nodes t))) t (t_root t)
  end.

(** ** The leaves of a tree that reads as a derivation *)

(** The leaf of a token. *)
Definition leaf_of (t : Tree) (k : tok) : Leaf :=
  let n := mkNode (t_id k) 0 (t_a k) (t_b k) 0 0 0 0 in
  mkLeaf (si_name (l_sym (t_lang t) (t_id k))) (lit t n) (t_a k) (t_b k).

Section leaves.
Context (c : compiler) (t : Tree) (Hsyms : l_syms (t_lang t) = c_syms c).

Lemma kind_terminal k : si_terminal (l_sym (t_lang t) k) = terminal c k.
Proof using Hsyms.
  unfold l_sym, terminal. rewrite Hsyms, nth_lookup. destruct (c_syms c !! k); reflexivity.
Qed.

Lemma mapM_snoc {A B} (h : A -> option B) xs x : mapM h (xs ++ [x]) = ys ← mapM h xs; y ← h x; Some (ys ++ [y]).
Proof. induction xs as [|x0 xs IH]; simpl; [destruct (h x); reflexivity|]. rewrite IH. destruct (h x0); [|reflexivity]. simpl. destruct (mapM h xs); [|reflexivity]. simpl. destruct (h x); reflexivity. Qed.

Lemma kids_walk fuel n ks : take (n_nchild n) (drop (n_child n) (t_kids t)) = ks -> n_nchild n <= length (t_kids t) - n_child n ->
  mapM (fun i => k ← t_kids t !! (n_child n + i); leaves_walk fuel t k) (seq 0 (n_nchild n)) = mapM (leaves_walk fuel t) ks.
Proof.
  intros <- Hlen. set (h := fun i => _). assert (E : forall m, m <= n_nchild n -> mapM h (seq 0 m) = mapM (leaves_walk fuel t) (take m (drop (n_child n) (t_kids t)))); [|apply E; lia].
  induction m as [|m IH]; intros Hm; [reflexivity|]. rewrite seq_S. destruct (lookup_lt_is_Some_2 (t_kids t) (n_child n + m)) as [k Hk]; [lia|].
  rewrite (take_S_r _ m k) by (rewrite lookup_drop; exact Hk). rewrite !mapM_snoc, (IH ltac:(lia)). simpl. unfold h at 1. rewrite Hk. reflexivity.
Qed.

(** The leaves of a node are the tokens that it reads. *)
Lemma leaves_reads fuel : forall id f, reads c (t_nodes t) (t_kids t) id f -> id < fuel ->
  leaves_walk fuel t id = Some (map (leaf_of t) (flat_map leaves f)).
Proof using Hsyms.
  induction fuel as [|fuel IH]; intros id f H Hlt; [lia|].
  assert (Hkids : forall ks fs, Forall2 (reads c (t_nodes t) (t_kids t)) ks fs -> Forall (fun k => k < id) ks ->
    exists ls, mapM (leaves_walk fuel t) ks = Some ls /\ concat ls = map (leaf_of t) (flat_map leaves (concat fs))).
  { induction 1 as [|k f0 ks fs Hk _ IHk]; intros Hall; [exists []; split; reflexivity|]. apply Forall_cons in Hall as [H1 H2].
    destruct (IHk H2) as (ls & E1 & E2). exists (map (leaf_of t) (flat_map leaves f0) :: ls). simpl. rewrite (IH k f0 Hk ltac:(lia)), E1. split; [reflexivity|].
    simpl. rewrite E2, flat_map_app, map_app. reflexivity. }
  cbn [leaves_walk]. destruct H as [|id n Hid Hn Hh Ht Hc|id n ks fs Hid Hn Hh Ht Hlen Hks Hall Hfs|id n ks fs Hid Hn Hh Ht Hlen Hks Hall Hfs]; [reflexivity|..];
    rewrite (proj2 (Nat.eqb_neq _ _) Hid), Hn; simpl; rewrite kind_terminal, Ht; [reflexivity|..];
    rewrite (kids_walk fuel n ks Hks Hlen); destruct (Hkids ks fs Hfs Hall) as (ls & -> & E); simpl; rewrite E, ?app_nil_r; reflexivity.
Qed.

(** [Leaves] of a tree whose root reads as [f]. *)
Lemma tree_leaves f : reads c (t_nodes t) (t_kids t) (t_root t) f -> Leaves (Some t) = Some (map (leaf_of t) (flat_map leaves f)).
Proof using Hsyms.
  intros H. unfold Leaves. destruct (Nat.eqb_spec (t_root t) 0) as [E|Hne].
  - rewrite E in H. inversion H; subst; try congruence. reflexivity.
  - apply leaves_reads; [exact H|]. destruct (reads_lt _ _ _ _ _ H); lia.
Qed.
End leaves.
