(* ===== verification/Patterns.v ===== *)
(** * Patterns of tokens

    x/parse/pattern.go: how a token is described, the matcher that a description
    is compiled to, and what it should match. *)
From Stdlib Require Import ZArith Lia.
From Stdlib Require Import Strings.Byte.
From stdpp Require Import base numbers option list strings.
From S2P Require Import Prelude Grammars.

Local Open Scope Z_scope.

(** ** Data *)

(** [patNone] and [condNone] are the kinds of the zero values. *)
Inductive patKind : Type :=
| patNone | patWhile | patLiteral | patKeyword | patClass | patLine | patQuote | patByte | patFunc | patUnless | patWhen | patLook.
Inductive condKind : Type := condNone | condAfter | condLine.

Record Condition : Type := mkCond { cn_kind : condKind; cn_name : string }.

(** [inner] and [next] point to copies that nothing else reaches. *)
Inductive Pattern : Type := mkPattern {
  pt_kind : patKind; pt_text : string; pt_test : option (byte -> bool -> bool); pt_inner : option Pattern; pt_next : option Pattern;
  pt_cond : Condition; pt_match : option Match; pt_lex : Z; pt_hasLex : bool; pt_unit : byte; pt_escapes : bool }.

Definition noCond : Condition := mkCond condNone EmptyString.

(** ** Constructors *)

Definition pat_Class (test : option (byte -> bool -> bool)) : Pattern :=
  mkPattern patClass EmptyString test None None noCond None 0 false x00 false.
Definition pat_While (chars : string) : Pattern :=
  pat_Class (Some (fun c _ => existsb (fun b => bool_decide (b = c)) (bytes_of chars))).
Definition pat_Literal (text : string) : Pattern :=
  mkPattern patLiteral text None None None noCond None 1 true x00 false.
Definition pat_Keyword (text : string) : Pattern :=
  mkPattern patKeyword text None None None noCond None 2 true x00 false.
Definition pat_Line (mark : string) : Pattern :=
  mkPattern patLine mark None None None noCond None 0 false x00 false.
Definition pat_Quote (quote : byte) : Pattern :=
  mkPattern patQuote EmptyString None None None noCond None 0 false quote true.
Definition pat_Byte (c : byte) : Pattern :=
  mkPattern patByte EmptyString None None None noCond None 1 true c false.
Definition pat_Func (m : option Match) : Pattern :=
  mkPattern patFunc EmptyString None None None noCond m 0 false x00 false.
Definition pat_Unless (cond : Condition) (p : Pattern) : Pattern :=
  mkPattern patUnless EmptyString None (Some p) None cond None (pt_lex p) (pt_hasLex p) x00 false.
Definition pat_When (cond : Condition) (p : Pattern) : Pattern :=
  mkPattern patWhen EmptyString None (Some p) None cond None (pt_lex p) (pt_hasLex p) x00 false.
Definition pat_Look (next p : Pattern) : Pattern :=
  mkPattern patLook EmptyString None (Some p) (Some next) noCond None (pt_lex p) (pt_hasLex p) x00 false.
Definition pat_Raw (p : Pattern) : Pattern :=
  mkPattern (pt_kind p) (pt_text p) (pt_test p) (pt_inner p) (pt_next p) (pt_cond p) (pt_match p) (pt_lex p) (pt_hasLex p) (pt_unit p) false.

(** A terminal is its name, [None] when nil. *)
Definition After (term : option string) : Condition :=
  match term with None => noCond | Some name => mkCond condAfter name end.
Definition AtLine : Condition := mkCond condLine EmptyString.

(** ** Matchers

    Each walks over the bytes from the offset on. *)

Definition newline : byte := x0a.
Definition backslash : byte := x5c.

Definition blank (b : byte) : bool := bool_decide (b = x20) || bool_decide (b = x09).

(** The bytes before the offset, last first. *)
Fixpoint line_start (before : list byte) : bool :=
  match before with
  | [] => true
  | b :: before => if blank b then line_start before else bool_decide (b = newline)
  end.
Definition atLine (src : list byte) (at_ : nat) : bool := line_start (rev (take at_ src)).

(** The number of bytes from the start that pass the test. *)
Fixpoint run_length (test : byte -> bool) (bs : list byte) : nat :=
  match bs with b :: bs => if test b then S (run_length test bs) else 0%nat | [] => 0%nat end.

Definition classMatch (test : option (byte -> bool -> bool)) : Match := fun src at_ =>
  match test, drop at_ src with
  | Some t, b :: rest => if t b true then Z.of_nat (S (run_length (fun c => t c false) rest)) else 0
  | _, _ => 0
  end.

Definition wordByte (c : byte) : bool :=
  let c := byte_code c in (c =? 95) || in_range 65 90 c || in_range 97 122 c || in_range 48 57 c.

Definition keywordMatch (text : string) : Match := fun src at_ =>
  let t := bytes_of text in
  if bool_decide (text = EmptyString) || negb (hasPrefix src at_ t) then 0
  else match src !! (at_ + length t)%nat with
       | Some b => if wordByte b then 0 else Z.of_nat (length t)
       | None => Z.of_nat (length t)
       end.

Definition lineMatch (mark : string) : Match := fun src at_ =>
  let m := bytes_of mark in
  if bool_decide (mark = EmptyString) || negb (hasPrefix src at_ m) then 0
  else Z.of_nat (length m + run_length (fun b => negb (bool_decide (b = newline))) (drop (at_ + length m) src)).

(** The number of bytes to the end of the closing quote. *)
Fixpoint quote_rest (quote : byte) (escapes : bool) (bs : list byte) : option nat :=
  match bs with
  | [] => None
  | b :: bs =>
      if bool_decide (b = newline) then None
      else if escapes && bool_decide (b = backslash) then
        match bs with
        | [] => None
        | b :: bs => if bool_decide (b = newline) then None else n ← quote_rest quote escapes bs; Some (2 + n)%nat
        end
      else if bool_decide (b = quote) then Some 1%nat
      else n ← quote_rest quote escapes bs; Some (S n)
  end.

Definition quoteMatch (quote : byte) (escapes : bool) : Match := fun src at_ =>
  match drop at_ src with
  | b :: rest =>
      if bool_decide (b = quote) then match quote_rest quote escapes rest with Some n => Z.of_nat (S n) | None => 0 end else 0
  | [] => 0
  end.

Definition byteMatch (c : byte) : Match := fun src at_ => if bool_decide (src !! at_ = Some c) then 1 else 0.

(** ** Building *)

Record builtPat : Type := mkBuilt { bp_match : option Match; bp_prev : option MatchPrev }.

Definition eval (b : builtPat) (src : list byte) (at_ prev : nat) : Z :=
  match bp_prev b with
  | Some f => f src at_ prev
  | None => match bp_match b with Some m => m src at_ | None => 0 end
  end.

(** [name] is the name of a symbol, [None] when nil. *)
Definition holds (c : Condition) (src : list byte) (at_ prev : nat) (name : option (nat -> string)) : bool :=
  match cn_kind c with
  | condAfter =>
      match name with
      | None => false
      | Some f => if bool_decide (cn_name c = EmptyString) then false else bool_decide (f prev = cn_name c)
      end
  | condLine => atLine src at_
  | condNone => false
  end.

Definition nothing : builtPat := mkBuilt None None.
Definition matched (m : option Match) : builtPat := mkBuilt m None.

(** [Unless] and [When]. *)
Definition guarded (keep : bool) (c : Condition) (name : option (nat -> string)) (inner : builtPat) : builtPat :=
  mkBuilt None (Some (fun src at_ prev => if Bool.eqb keep (holds c src at_ prev name) then eval inner src at_ prev else 0)).

Definition looked (inner ahead : builtPat) : MatchPrev := fun src at_ prev =>
  let n := eval inner src at_ prev in
  if (n <=? 0) || (eval ahead src (at_ + Z.to_nat n) prev <=? 0) then 0 else n.

Fixpoint build (name : option (nat -> string)) (p : Pattern) : builtPat :=
  match pt_kind p with
  | patWhile | patClass => matched (Some (classMatch (pt_test p)))
  | patLiteral => matched (Some (hasBytes (pt_text p)))
  | patKeyword => matched (Some (keywordMatch (pt_text p)))
  | patLine => matched (Some (lineMatch (pt_text p)))
  | patQuote => matched (Some (quoteMatch (pt_unit p) (pt_escapes p)))
  | patByte => matched (Some (byteMatch (pt_unit p)))
  | patFunc => matched (pt_match p)
  | patUnless => match pt_inner p with Some i => guarded false (pt_cond p) name (build name i) | None => nothing end
  | patWhen => match pt_inner p with Some i => guarded true (pt_cond p) name (build name i) | None => nothing end
  | patLook =>
      match pt_inner p, pt_next p with
      | Some i, Some n =>
          let inner := build name i in
          let ahead := build name n in
          match bp_prev inner, bp_prev ahead with
          | None, None => matched (Some (fun src at_ => looked inner ahead src at_ 0%nat))
          | _, _ => mkBuilt None (Some (looked inner ahead))
          end
      | _, _ => nothing
      end
  | patNone => nothing
  end.

(** ** What a pattern matches *)

(** [t] stands in [src] at the offset, before [post]. *)
Definition stands (src : list byte) (at_ : nat) (t post : list byte) : Prop := drop at_ src = t ++ post /\ (at_ <= length src)%nat.

Definition condition (c : Condition) (src : list byte) (at_ prev : nat) (name : option (nat -> string)) : Prop :=
  match cn_kind c with
  | condAfter => exists f, name = Some f /\ cn_name c <> EmptyString /\ f prev = cn_name c
  | condLine => exists before blanks, take at_ src = before ++ blanks /\ Forall (fun b => blank b = true) blanks /\ (before = [] \/ last before = Some newline)
  | condNone => False
  end.

(** The bytes between quotes. *)
Inductive quoted (quote : byte) (escapes : bool) : list byte -> Prop :=
| quoted_nil : quoted quote escapes []
| quoted_byte b bs : b <> newline -> b <> quote -> (escapes = true -> b <> backslash) -> quoted quote escapes bs -> quoted quote escapes (b :: bs)
| quoted_escape b bs : escapes = true -> b <> newline -> quoted quote escapes bs -> quoted quote escapes (backslash :: b :: bs).

(** The pattern takes the [n] bytes at the offset. *)
Fixpoint takes (name : option (nat -> string)) (p : Pattern) (src : list byte) (at_ prev n : nat) : Prop :=
  match pt_kind p with
  | patWhile | patClass => exists t b bs post, pt_test p = Some t /\ stands src at_ (b :: bs) post /\ n = length (b :: bs) /\
      t b true = true /\ Forall (fun c => t c false = true) bs /\ (forall c, head post = Some c -> t c false = false)
  | patLiteral => exists post, stands src at_ (bytes_of (pt_text p)) post /\ n = length (bytes_of (pt_text p))
  | patKeyword => exists post, pt_text p <> EmptyString /\ stands src at_ (bytes_of (pt_text p)) post /\ n = length (bytes_of (pt_text p)) /\
      (forall c, head post = Some c -> wordByte c = false)
  | patLine => exists line post, pt_text p <> EmptyString /\ stands src at_ (bytes_of (pt_text p) ++ line) post /\
      n = length (bytes_of (pt_text p) ++ line) /\ newline ∉ line /\ (forall c, head post = Some c -> c = newline)
  | patQuote => exists body post, stands src at_ (pt_unit p :: body ++ [pt_unit p]) post /\ n = length (pt_unit p :: body ++ [pt_unit p]) /\
      quoted (pt_unit p) (pt_escapes p) body /\ pt_unit p <> newline /\ (pt_escapes p = true -> pt_unit p <> backslash)
  | patByte => exists post, stands src at_ [pt_unit p] post /\ n = 1%nat
  | patFunc => exists m, pt_match p = Some m /\ m src at_ = Z.of_nat n
  | patUnless => match pt_inner p with Some i => ~ condition (pt_cond p) src at_ prev name /\ takes name i src at_ prev n | None => False end
  | patWhen => match pt_inner p with Some i => condition (pt_cond p) src at_ prev name /\ takes name i src at_ prev n | None => False end
  | patLook =>
      match pt_inner p, pt_next p with
      | Some i, Some nx => takes name i src at_ prev n /\ exists m, (0 < m)%nat /\ takes name nx src (at_ + n) prev m
      | _, _ => False
      end
  | patNone => False
  end.

(** ** Induction *)

Section pattern_ind.
Context (P : Pattern -> Prop)
  (Hstep : forall p, (forall i, pt_inner p = Some i -> P i) -> (forall i, pt_next p = Some i -> P i) -> P p).
Fixpoint pattern_nested_ind (p : Pattern) : P p :=
  Hstep p
    (match p return forall i, pt_inner p = Some i -> P i with
     | mkPattern _ _ _ (Some q) _ _ _ _ _ _ _ => fun i H => eq_ind q P (pattern_nested_ind q) i (f_equal (default q) H)
     | mkPattern _ _ _ None _ _ _ _ _ _ _ => fun i H => False_ind _ (eq_ind None (fun o => match o with None => True | Some _ => False end) I (Some i) H)
     end)
    (match p return forall i, pt_next p = Some i -> P i with
     | mkPattern _ _ _ _ (Some q) _ _ _ _ _ _ => fun i H => eq_ind q P (pattern_nested_ind q) i (f_equal (default q) H)
     | mkPattern _ _ _ _ None _ _ _ _ _ _ => fun i H => False_ind _ (eq_ind None (fun o => match o with None => True | Some _ => False end) I (Some i) H)
     end).
End pattern_ind.

(** ** The matchers take what they should *)

Lemma hasPrefix_stands src at_ t : hasPrefix src at_ t = true <-> exists post, stands src at_ t post.
Proof.
  unfold hasPrefix, stands. destruct (Nat.ltb_spec (length src) (at_ + length t)) as [Hlt|Hle].
  - split; [discriminate|]. intros (post & E & Hat). apply (f_equal length) in E. rewrite length_drop, length_app in E. lia.
  - rewrite bool_decide_eq_true. split.
    + intros E. exists (drop (length t) (drop at_ src)). rewrite <- E at 1. rewrite take_drop. split; [reflexivity|lia].
    + intros (post & -> & _). apply take_app_length.
Qed.

Lemma stands_lookup src at_ t post i : stands src at_ t post -> src !! (at_ + length t + i)%nat = post !! i.
Proof. intros [E _]. rewrite <- (Nat.add_assoc at_), <- lookup_drop, E, lookup_app_r by lia. f_equal. lia. Qed.

Lemma stands_det src at_ t post post' : stands src at_ t post -> stands src at_ t post' -> post = post'.
Proof. intros [E _] [E' _]. rewrite E in E'. exact (app_inv_head _ _ _ E'). Qed.

Lemma bytes_of_none text : length (bytes_of text) = O <-> text = EmptyString.
Proof. destruct text; simpl; split; congruence. Qed.

Lemma run_length_split test bs : exists pre post, bs = pre ++ post /\ length pre = run_length test bs /\
  Forall (fun b => test b = true) pre /\ (forall c, head post = Some c -> test c = false).
Proof.
  induction bs as [|b bs (pre & post & -> & Hl & Hp & Hq)]; simpl.
  - exists [], []. repeat split; [constructor|discriminate].
  - destruct (test b) eqn:Eb.
    + exists (b :: pre), post. repeat split; [simpl; lia|constructor; assumption|exact Hq].
    + exists [], (b :: pre ++ post). repeat split; [constructor|]. simpl. congruence.
Qed.

Lemma run_length_app test pre post : Forall (fun b => test b = true) pre -> (forall c, head post = Some c -> test c = false) ->
  run_length test (pre ++ post) = length pre.
Proof.
  intros Hp Hq. induction Hp as [|b pre Hb _ IH]; simpl; [|rewrite Hb, IH; reflexivity].
  destruct post as [|c post]; simpl; [reflexivity|]. rewrite (Hq c eq_refl). reflexivity.
Qed.

Lemma classMatch_takes t src at_ n : (0 < n)%nat -> classMatch (Some t) src at_ = Z.of_nat n <->
  exists b bs post, stands src at_ (b :: bs) post /\ n = length (b :: bs) /\ t b true = true /\
    Forall (fun c => t c false = true) bs /\ (forall c, head post = Some c -> t c false = false).
Proof.
  intros Hn. unfold classMatch, stands. split.
  - destruct (drop at_ src) as [|b rest] eqn:Ed; [lia|]. destruct (t b true) eqn:Eb; [|lia]. intros [= E].
    destruct (run_length_split (fun c => t c false) rest) as (pre & post & -> & Hl & Hp & Hq).
    exists b, pre, post. split; [|split; [simpl; lia|auto]]. split; [reflexivity|].
    apply (f_equal length) in Ed. rewrite length_drop in Ed. simpl in Ed. lia.
  - intros (b & bs & post & (-> & _) & -> & Hb & Hp & Hq). simpl. rewrite Hb, (run_length_app (fun c => t c false)) by assumption. reflexivity.
Qed.

Lemma head_lookup {A} (l : list A) : head l = l !! O.
Proof. destruct l; reflexivity. Qed.

Lemma keywordMatch_takes text src at_ n : (0 < n)%nat -> keywordMatch text src at_ = Z.of_nat n <->
  exists post, text <> EmptyString /\ stands src at_ (bytes_of text) post /\ n = length (bytes_of text) /\ (forall c, head post = Some c -> wordByte c = false).
Proof.
  intros Hn. unfold keywordMatch. case_bool_decide as Et; simpl; [split; [lia|intros (? & ? & _); congruence]|].
  pose proof (hasPrefix_stands src at_ (bytes_of text)) as Hpre. destruct (hasPrefix src at_ (bytes_of text)); simpl.
  - destruct (proj1 Hpre eq_refl) as [post Hs]. pose proof (stands_lookup _ _ _ _ 0 Hs) as E. rewrite Nat.add_0_r, <- head_lookup in E. rewrite E. split.
    + intros H. exists post. destruct (head post) as [c|] eqn:Eh; [destruct (wordByte c) eqn:Ew; [lia|]|]; (split; [exact Et|]; split; [exact Hs|]; split; [lia|]); congruence.
    + intros (post' & _ & Hs' & -> & Hq). rewrite <- (stands_det _ _ _ _ _ Hs Hs') in Hq. destruct (head post) as [c|]; [rewrite (Hq c eq_refl)|]; reflexivity.
  - split; [lia|]. intros (post & _ & Hs & _). assert (false = true) by (apply Hpre; eauto). discriminate.
Qed.

Lemma not_newline_elem line : Forall (fun b => negb (bool_decide (b = newline)) = true) line <-> newline ∉ line.
Proof.
  rewrite Forall_forall. split.
  - intros H Hin. specialize (H _ Hin). apply negb_true_iff, bool_decide_eq_false in H. congruence.
  - intros H b Hb. apply negb_true_iff, bool_decide_eq_false. congruence.
Qed.

Lemma lineMatch_takes mark src at_ n : (0 < n)%nat -> lineMatch mark src at_ = Z.of_nat n <->
  exists line post, mark <> EmptyString /\ stands src at_ (bytes_of mark ++ line) post /\ n = length (bytes_of mark ++ line) /\
    newline ∉ line /\ (forall c, head post = Some c -> c = newline).
Proof.
  intros Hn. unfold lineMatch. set (test := fun b => negb (bool_decide (b = newline))).
  assert (Htest : forall post, (forall c, head post = Some c -> test c = false) <-> (forall c, head post = Some c -> c = newline)).
  { intros post. unfold test. split; intros H c Hc; [specialize (H c Hc); apply negb_false_iff, bool_decide_eq_true in H; exact H|].
    rewrite bool_decide_eq_true_2 by exact (H c Hc). reflexivity. }
  case_bool_decide as Et; simpl; [split; [lia|intros (? & ? & ? & _); congruence]|].
  pose proof (hasPrefix_stands src at_ (bytes_of mark)) as Hpre. destruct (hasPrefix src at_ (bytes_of mark)); simpl.
  - destruct (proj1 Hpre eq_refl) as [rest [Hs Hat]]. rewrite <- drop_drop, Hs, drop_app_length. split.
    + intros H. destruct (run_length_split test rest) as (line & post & -> & Hl & Hp & Hq). rewrite <- Hl in H.
      exists line, post. split; [exact Et|]. split; [split; [rewrite <- app_assoc; exact Hs|exact Hat]|].
      split; [rewrite length_app; lia|]. split; [apply not_newline_elem, Hp|apply Htest, Hq].
    + intros (line & post & _ & [Hs' _] & -> & Hl & Hq). rewrite Hs, <- app_assoc in Hs'. apply app_inv_head in Hs' as ->.
      rewrite (run_length_app test) by (apply not_newline_elem, Hl || apply Htest, Hq). rewrite length_app. reflexivity.
  - split; [lia|]. intros (line & post & _ & [Hs Hat] & _).
    assert (false = true) by (apply Hpre; exists (line ++ post); split; [rewrite Hs, <- app_assoc; reflexivity|exact Hat]). discriminate.
Qed.

Lemma quote_rest_quoted q e : forall n bs, quote_rest q e bs = Some n <->
  exists body post, bs = body ++ q :: post /\ n = S (length body) /\ quoted q e body /\ q <> newline /\ (e = true -> q <> backslash).
Proof.
  assert (Hstep : forall k bs n, (length bs <= k)%nat -> quote_rest q e bs = Some n <->
    exists body post, bs = body ++ q :: post /\ n = S (length body) /\ quoted q e body /\ q <> newline /\ (e = true -> q <> backslash)); [|eauto].
  induction k as [|k IH]; intros [|b bs] n Hk; simpl in Hk; try lia;
    try (simpl; split; [discriminate|intros ([|? ?] & ? & ? & _); discriminate]).
  cbn [quote_rest]. case_bool_decide as Enl.
  { split; [discriminate|]. intros ([|b' body] & post & [= -> ->] & _ & Hq & Hne & _); [congruence|]. inversion Hq; subst; try congruence. exfalso. discriminate. }
  destruct (e && bool_decide (b = backslash)) eqn:Ee.
  { apply andb_true_iff in Ee as [-> Eb%bool_decide_eq_true]. subst b. destruct bs as [|b bs]; simpl in Hk.
    - split; [discriminate|]. intros ([|b' body] & post & E & _ & Hq & _ & Hne); [injection E; intros; exfalso; apply (Hne eq_refl); congruence|].
      destruct body; discriminate.
    - case_bool_decide as Enb.
      + subst b. split; [discriminate|]. intros ([|b' body] & post & E & _ & Hq & _ & Hne); [injection E; intros; exfalso; apply (Hne eq_refl); congruence|].
        injection E as <- E. inversion Hq as [|? ? ? ? Hb|? ? ? Hb]; subst; [exfalso; apply Hb; reflexivity|]. injection E as <- E. congruence.
      + rewrite bind_Some. split.
        * intros (m & Hm & [= <-]). apply IH in Hm as (body & post & -> & -> & Hq & H1 & H2); [|lia].
          exists (backslash :: b :: body), post. split; [reflexivity|]. split; [reflexivity|]. split; [apply quoted_escape; auto|auto].
        * intros ([|b' body] & post & E & -> & Hq & H1 & H2); [injection E; intros; exfalso; apply (H2 eq_refl); congruence|].
          injection E as <- E. inversion Hq as [|? ? ? ? Hb|b' body' He Hb Hq']; subst; [exfalso; apply Hb; reflexivity|]. injection E as -> E.
          exists (S (length body')). split; [|reflexivity]. apply IH; [lia|]. exists body', post. auto. }
  assert (He : e = true -> b <> backslash) by (intros ->; apply andb_false_iff in Ee as [Ee|Ee]; [discriminate|apply bool_decide_eq_false in Ee; exact Ee]).
  clear Ee. case_bool_decide as Eq.
  - subst b. split.
    + intros [= <-]. exists [], bs. split; [reflexivity|]. split; [reflexivity|]. split; [constructor|auto].
    + intros ([|b body] & post & E & -> & Hq & _ & He'); [reflexivity|]. injection E as <- E. inversion Hq; subst; [congruence|]. exfalso. apply He'; reflexivity.
  - rewrite bind_Some. split.
    + intros (m & Hm & [= <-]). apply IH in Hm as (body & post & -> & -> & Hq & H1 & H2); [|lia]. exists (b :: body), post. split; [reflexivity|]. split; [reflexivity|].
      split; [|auto]. apply quoted_byte; assumption.
    + intros ([|b' body] & post & E & -> & Hq & H1 & H2); [injection E; congruence|]. injection E as <- E.
      exists (S (length body)). split; [|reflexivity]. apply IH; [lia|]. exists body, post. inversion Hq as [| |? ? He']; subst; [auto|].
      exfalso. apply He; reflexivity.
Qed.

Lemma quoteMatch_takes q e src at_ n : (0 < n)%nat -> quoteMatch q e src at_ = Z.of_nat n <->
  exists body post, stands src at_ (q :: body ++ [q]) post /\ n = length (q :: body ++ [q]) /\ quoted q e body /\ q <> newline /\ (e = true -> q <> backslash).
Proof.
  intros Hn. unfold quoteMatch, stands. split.
  - destruct (drop at_ src) as [|b rest] eqn:Ed; [lia|]. case_bool_decide as Eb; [subst b|lia]. destruct (quote_rest q e rest) as [m|] eqn:Em; [|lia].
    intros H. apply quote_rest_quoted in Em as (body & post & -> & -> & Hq). exists body, post. split; [split|].
    + simpl. rewrite <- app_assoc. reflexivity.
    + apply (f_equal length) in Ed. rewrite length_drop in Ed. simpl in Ed. lia.
    + split; [simpl; rewrite length_app; simpl; lia|exact Hq].
  - intros (body & post & (-> & _) & -> & Hq). simpl. rewrite bool_decide_eq_true_2 by reflexivity. rewrite <- app_assoc. simpl.
    rewrite (proj2 (quote_rest_quoted q e (S (length body)) _)) by (exists body, post; auto). rewrite length_app. simpl. f_equal. lia.
Qed.

Lemma byteMatch_takes c src at_ n : (0 < n)%nat -> byteMatch c src at_ = Z.of_nat n <-> exists post, stands src at_ [c] post /\ n = 1%nat.
Proof.
  intros Hn. unfold byteMatch, stands. case_bool_decide as E; split.
  - intros H. exists (drop (S at_) src). rewrite (drop_S _ _ _ E). apply lookup_lt_Some in E. split; [split; [reflexivity|lia]|lia].
  - intros (_ & _ & ->). reflexivity.
  - lia.
  - intros (post & [Hs _] & _). destruct E. rewrite <- (Nat.add_0_r at_), <- lookup_drop, Hs. reflexivity.
Qed.

Lemma line_start_spec before : line_start before = true <->
  exists blanks rest, before = blanks ++ rest /\ Forall (fun b => blank b = true) blanks /\ (rest = [] \/ head rest = Some newline).
Proof.
  induction before as [|b before IH]; simpl.
  - split; [|reflexivity]. intros _. exists [], []. repeat split; [constructor|left; reflexivity].
  - destruct (blank b) eqn:Eb.
    + rewrite IH. split; intros (blanks & rest & E & Hb & Hr).
      * exists (b :: blanks), rest. subst. repeat split; [constructor; assumption|exact Hr].
      * destruct blanks as [|b' blanks]; simpl in E; [subst rest; destruct Hr as [Hr|[= ->]]; [discriminate|discriminate Eb]|].
        injection E as <- ->. exists blanks, rest. inversion Hb; auto.
    + rewrite bool_decide_eq_true. split.
      * intros ->. exists [], (newline :: before). repeat split; [constructor|right; reflexivity].
      * intros ([|b' blanks] & rest & E & Hb & Hr); simpl in E; [subst rest; destruct Hr as [Hr|[= ->]]; [discriminate|reflexivity]|].
        injection E as <- _. inversion Hb; congruence.
Qed.

Lemma holds_condition c src at_ prev name : holds c src at_ prev name = true <-> condition c src at_ prev name.
Proof.
  unfold holds, condition. destruct (cn_kind c); [split; [discriminate|intros []]| |].
  - destruct name as [f|].
    + case_bool_decide as E; [split; [discriminate|intros (f' & [= <-] & ? & _); congruence]|]. rewrite bool_decide_eq_true.
      split; [eauto|intros (f' & [= <-] & _ & H); exact H].
    + split; [discriminate|intros (? & ? & _); discriminate].
  - unfold atLine. rewrite line_start_spec. split.
    + intros (blanks & rest & E & Hb & Hr). exists (rev rest), (rev blanks). rewrite <- rev_app_distr, <- E, rev_involutive. split; [reflexivity|].
      split; [apply List.Forall_rev, Hb|].
      destruct Hr as [ ->|Hr]; [left; reflexivity|right]. destruct rest as [|b rest]; [discriminate|]. injection Hr as ->. simpl. apply last_snoc.
    + intros (before & blanks & E & Hb & Hr). exists (rev blanks), (rev before). rewrite E, rev_app_distr. split; [reflexivity|].
      split; [apply List.Forall_rev, Hb|].
      destruct Hr as [ ->|Hr]; [left; reflexivity|right]. apply last_Some in Hr as [l ->]. rewrite rev_app_distr. reflexivity.
Qed.

(** ** What is built takes what the pattern takes *)

Lemma eval_any_prev b src at_ prev prev' : bp_prev b = None -> eval b src at_ prev = eval b src at_ prev'.
Proof. intros E. unfold eval. rewrite E. reflexivity. Qed.

Lemma guarded_takes keep c name inner src at_ prev n : (0 < n)%nat ->
  eval (guarded keep c name inner) src at_ prev = Z.of_nat n <-> holds c src at_ prev name = keep /\ eval inner src at_ prev = Z.of_nat n.
Proof.
  intros Hn. unfold guarded. cbn [eval bp_prev]. unfold eval at 1. simpl. destruct (holds c src at_ prev name), keep; simpl; intuition (congruence || lia).
Qed.

Lemma looked_takes inner ahead src at_ prev n : (0 < n)%nat ->
  looked inner ahead src at_ prev = Z.of_nat n <-> eval inner src at_ prev = Z.of_nat n /\ (0 < eval ahead src (at_ + n) prev)%Z.
Proof.
  intros Hn. unfold looked. destruct (Z.leb_spec (eval inner src at_ prev) 0) as [|Hi]; simpl; [split; [lia|intros [? ?]; lia]|].
  destruct (Z.leb_spec (eval ahead src (at_ + Z.to_nat (eval inner src at_ prev)) prev) 0) as [H|H].
  - split; [lia|]. intros [E ?]. rewrite E, Nat2Z.id in H. lia.
  - split; [|tauto]. intros E. rewrite E, Nat2Z.id in H. auto.
Qed.

Lemma eval_look inner ahead src at_ prev :
  eval (match bp_prev inner, bp_prev ahead with
        | None, None => matched (Some (fun src at_ => looked inner ahead src at_ 0%nat))
        | _, _ => mkBuilt None (Some (looked inner ahead))
        end) src at_ prev = looked inner ahead src at_ prev.
Proof.
  destruct (bp_prev inner) eqn:Ei, (bp_prev ahead) eqn:Ea; try reflexivity. unfold eval at 1. simpl. unfold looked.
  rewrite (eval_any_prev inner src at_ 0 prev Ei). destruct (_ <=? 0); [reflexivity|]. simpl. rewrite (eval_any_prev ahead _ _ 0 prev Ea). reflexivity.
Qed.

Lemma build_takes name p : forall src at_ prev n, (0 < n)%nat -> eval (build name p) src at_ prev = Z.of_nat n <-> takes name p src at_ prev n.
Proof.
  induction p as [p IHi IHn] using pattern_nested_ind. intros src at_ prev n Hn.
  destruct p as [k text test inner next c m lex hasLex unit escapes]; simpl in IHi, IHn; destruct k; cbn [build takes pt_kind pt_test pt_text pt_inner pt_next pt_cond pt_match pt_unit pt_escapes].
  - unfold eval. simpl. split; [lia|intros []].
  - unfold eval. simpl. destruct test as [t|]; [|unfold classMatch; split; [lia|intros (? & ? & ? & ? & ? & _); discriminate]].
    rewrite (classMatch_takes t src at_ n Hn). split; [intros (b & bs & post & H); exists t, b, bs, post; auto|intros (t' & b & bs & post & [= <-] & H); exists b, bs, post; exact H].
  - unfold eval. simpl. unfold hasBytes. pose proof (hasPrefix_stands src at_ (bytes_of text)) as K. destruct (hasPrefix _ _ _).
    + destruct (proj1 K eq_refl) as [post Hs]. split; [intros H; exists post; split; [exact Hs|lia]|intros (post' & _ & ->); reflexivity].
    + split; [lia|]. intros (post & Hs & _). assert (false = true) by (apply K; eauto). discriminate.
  - unfold eval. simpl. apply keywordMatch_takes, Hn.
  - unfold eval. simpl. destruct test as [t|]; [|unfold classMatch; split; [lia|intros (? & ? & ? & ? & ? & _); discriminate]].
    rewrite (classMatch_takes t src at_ n Hn). split; [intros (b & bs & post & H); exists t, b, bs, post; auto|intros (t' & b & bs & post & [= <-] & H); exists b, bs, post; exact H].
  - unfold eval. simpl. apply lineMatch_takes, Hn.
  - unfold eval. simpl. apply quoteMatch_takes, Hn.
  - unfold eval. simpl. apply byteMatch_takes, Hn.
  - unfold eval. simpl. destruct m as [f|]; [split; [eauto|intros (f' & [= <-] & H); exact H]|split; [lia|intros (? & ? & _); discriminate]].
  - destruct inner as [i|]; [|unfold eval; simpl; split; [lia|intros []]]. rewrite guarded_takes, (IHi i eq_refl) by exact Hn.
    rewrite <- holds_condition, not_true_iff_false. reflexivity.
  - destruct inner as [i|]; [|unfold eval; simpl; split; [lia|intros []]]. rewrite guarded_takes, (IHi i eq_refl) by exact Hn.
    rewrite <- holds_condition. reflexivity.
  - destruct inner as [i|]; [|unfold eval; simpl; split; [lia|intros []]]. destruct next as [nx|]; [|unfold eval; simpl; split; [lia|intros []]].
    rewrite eval_look. rewrite looked_takes, (IHi i eq_refl) by exact Hn. split; intros [H H']; (split; [exact H|]).
    + exists (Z.to_nat (eval (build name nx) src (at_ + n) prev)). split; [lia|]. apply (IHn nx eq_refl); lia.
    + destruct H' as (m' & Hm' & H'). apply (IHn nx eq_refl) in H'; [|exact Hm']. lia.
Qed.
