(* ===== verification/Forms.v ===== *)
(** * Forms

    x/parse/form.go: grammar expressions and [Build], which places one into a
    grammar.  A *Form is an index into an arena, [None] when nil; forms do not
    change, and a form is older than the forms that hold it.  Every error is
    [errs.ErrInvalid]. *)
From Stdlib Require Import ZArith Lia.
From Stdlib Require Import Strings.Byte.
From stdpp Require Import base numbers option list strings gmap.
From S2P Require Import Prelude Grammars Patterns.

Local Open Scope nat_scope.

(** ** Results

    [BFuel] is the end of the fuel, or an index that is not in the arena. *)

Inductive bres (A : Type) : Type := BOk (a : A) | BErr | BFuel.
Arguments BOk {A} a.
Arguments BErr {A}.
Arguments BFuel {A}.

#[export] Instance bres_ret : MRet bres := fun A a => BOk a.
#[export] Instance bres_bind : MBind bres := fun A B k m => match m with BOk a => k a | BErr => BErr | BFuel => BFuel end.

(** A loop that stops at the first error. *)
Fixpoint bfold {A B} (f : B -> A -> bres B) (s : B) (l : list A) : bres B :=
  match l with [] => BOk s | x :: l => s ← f s x; bfold f s l end.

(** ** Data *)

Inductive formKind : Type :=
| formRef | formLit | formTok | formWord | formKey | formSeq | formAlt | formRepeat | formRepeat1 | formOpt | formSep | formSep1
| formPrec | formEq | formSkip | formScan | formStart | formCompose | formMark.

#[export] Instance formKind_eq_dec : EqDecision formKind.
Proof. solve_decision. Defined.

Record Form : Type := mkForm {
  fm_kind : formKind; fm_name : string; fm_text : string; fm_word : string; fm_kids : list (option nat);
  fm_match : option Match; fm_start : Z -> bool; fm_cont : Z -> bool; fm_scan : option ScanFunc;
  fm_prec : Z; fm_hasPrec : bool; fm_assoc : Assoc; fm_dyn : Z; fm_hasDyn : bool; fm_lex : Z; fm_hasLex : bool;
  fm_pattern : Pattern; fm_hasPattern : bool; fm_field : string; fm_fieldAs : nat }.

Notation arena := (list Form).

Definition noPattern : Pattern := mkPattern patNone EmptyString None None None noCond None 0 false x00 false.
Definition never (r : Z) : bool := false.

(** A form with its kind, its texts and its children; the rest is zero. *)
Definition plain_form (k : formKind) (name text word : string) (kids : list (option nat)) : Form :=
  mkForm k name text word kids None never never None 0 false AssocNone 0 false 0 false noPattern false EmptyString 0.

Definition new_form (f : Form) (h : arena) : option nat * arena := (Some (length h), h ++ [f]).

(** [keep]: the forms that are not nil. *)
Definition keep (fs : list (option nat)) : list (option nat) := filter (fun f => f <> None) fs.

(** ** Constructors *)

Definition form_Ref (name : string) : arena -> option nat * arena := new_form (plain_form formRef name EmptyString EmptyString []).
Definition form_Lit (text : string) : arena -> option nat * arena := new_form (plain_form formLit EmptyString text EmptyString []).
Definition form_Tok (name : string) (m : option Match) : arena -> option nat * arena :=
  new_form (mkForm formTok name EmptyString EmptyString [] m never never None 0 false AssocNone 0 false 0 false noPattern false EmptyString 0).
Definition form_Word (name : string) (start cont : Z -> bool) : arena -> option nat * arena :=
  new_form (mkForm formWord name EmptyString EmptyString [] None start cont None 0 false AssocNone 0 false 0 false noPattern false EmptyString 0).
Definition form_Key (text word : string) : arena -> option nat * arena := new_form (plain_form formKey EmptyString text word []).
Definition form_Seq (parts : list (option nat)) : arena -> option nat * arena := new_form (plain_form formSeq EmptyString EmptyString EmptyString (keep parts)).
Definition form_Alt (alts : list (option nat)) : arena -> option nat * arena := new_form (plain_form formAlt EmptyString EmptyString EmptyString (keep alts)).
Definition form_Repeat (f : option nat) : arena -> option nat * arena := new_form (plain_form formRepeat EmptyString EmptyString EmptyString [f]).
Definition form_Repeat1 (f : option nat) : arena -> option nat * arena := new_form (plain_form formRepeat1 EmptyString EmptyString EmptyString [f]).
Definition form_Opt (f : option nat) : arena -> option nat * arena := new_form (plain_form formOpt EmptyString EmptyString EmptyString [f]).
Definition form_Sep (item sep : option nat) : arena -> option nat * arena := new_form (plain_form formSep EmptyString EmptyString EmptyString [item; sep]).
Definition form_Sep1 (item sep : option nat) : arena -> option nat * arena := new_form (plain_form formSep1 EmptyString EmptyString EmptyString [item; sep]).
Definition precForm (n : Z) (assoc : Assoc) (f : option nat) : arena -> option nat * arena :=
  new_form (mkForm formPrec EmptyString EmptyString EmptyString [f] None never never None n true assoc 0 false 0 false noPattern false EmptyString 0).
Definition form_Left (n : Z) (f : option nat) : arena -> option nat * arena := precForm n AssocLeft f.
Definition form_Right (n : Z) (f : option nat) : arena -> option nat * arena := precForm n AssocRight f.
Definition form_Prec (n : Z) (f : option nat) : arena -> option nat * arena := precForm n AssocNone f.
Definition form_Dynamic (n : Z) (f : option nat) : arena -> option nat * arena :=
  new_form (mkForm formPrec EmptyString EmptyString EmptyString [f] None never never None 0 false AssocNone n true 0 false noPattern false EmptyString 0).
Definition with_lex (n : Z) (f : Form) : Form :=
  mkForm (fm_kind f) (fm_name f) (fm_text f) (fm_word f) (fm_kids f) (fm_match f) (fm_start f) (fm_cont f) (fm_scan f) (fm_prec f) (fm_hasPrec f)
    (fm_assoc f) (fm_dyn f) (fm_hasDyn f) n true (fm_pattern f) (fm_hasPattern f) (fm_field f) (fm_fieldAs f).
(** A copy; nil of nil. *)
Definition form_Lex (n : Z) (f : option nat) (h : arena) : option nat * arena :=
  match f ≫= (h !!.) with Some fm => new_form (with_lex n fm) h | None => (None, h) end.
Definition form_Eq (name : string) (body : option nat) : arena -> option nat * arena := new_form (plain_form formEq name EmptyString EmptyString [body]).
Definition form_Skip (f : option nat) : arena -> option nat * arena := new_form (plain_form formSkip EmptyString EmptyString EmptyString [f]).
Definition form_Scan (fn : option ScanFunc) (h : arena) : option nat * arena :=
  match fn with
  | None => (None, h)
  | Some _ => new_form (mkForm formScan EmptyString EmptyString EmptyString [] None never never fn 0 false AssocNone 0 false 0 false noPattern false EmptyString 0) h
  end.
Definition form_Start (name : string) : arena -> option nat * arena := new_form (plain_form formStart name EmptyString EmptyString []).
Definition form_Compose (parts : list (option nat)) : arena -> option nat * arena :=
  new_form (plain_form formCompose EmptyString EmptyString EmptyString (keep parts)).

(** [Syntax.Pat]: a token described by a pattern. *)
Definition form_Pat (name : string) (p : Pattern) : arena -> option nat * arena :=
  new_form (mkForm formTok name EmptyString EmptyString [] None never never None 0 false AssocNone 0 false
    (if pt_hasLex p then pt_lex p else 0) (pt_hasLex p) p true EmptyString 0).
(** [Syntax.mark], of a name that is not empty. *)
Definition form_mark (f : option nat) (name : string) (kind : nat) : arena -> option nat * arena :=
  new_form (mkForm formMark EmptyString EmptyString EmptyString [f] None never never None 0 false AssocNone 0 false 0 false noPattern false name kind).

(** The only child. *)
Definition only_kid (f : Form) : option nat := match fm_kids f with [Some k] => Some k | _ => None end.

(** ** Precedence *)

Record precInfo : Type := mkPrec { pi_prec : Z; pi_has : bool; pi_assoc : Assoc; pi_dyn : Z; pi_hasDyn : bool }.
Definition noPrec : precInfo := mkPrec 0 false AssocNone 0 false.

(** One [formPrec] of [peel]. *)
Definition peel_info (f : Form) (info : precInfo) : precInfo :=
  let info := if negb (pi_has info) && fm_hasPrec f then mkPrec (fm_prec f) true (fm_assoc f) (pi_dyn info) (pi_hasDyn info) else info in
  if negb (pi_hasDyn info) && fm_hasDyn f then mkPrec (pi_prec info) (pi_has info) (pi_assoc info) (fm_dyn f) true else info.

Fixpoint peel_loop (fuel : nat) (h : arena) (f : option nat) (info : precInfo) : bres (option nat * precInfo) :=
  match f with
  | None => BOk (None, info)
  | Some id =>
      match fuel, h !! id with
      | S fuel, Some fm =>
          if bool_decide (fm_kind fm = formPrec) then
            match fm_kids fm with
            | [] => BOk (None, peel_info fm info)
            | k :: _ => peel_loop fuel h k (peel_info fm info)
            end
          else BOk (f, info)
      | _, _ => BFuel
      end
  end.
Definition peel (h : arena) (f : option nat) : bres (option nat * precInfo) := peel_loop (length h) h f noPrec.

(** [precInfo.with]. *)
Definition prec_with (info got : precInfo) : precInfo :=
  let info := if pi_has got then mkPrec (pi_prec got) true (pi_assoc got) (pi_dyn info) (pi_hasDyn info) else info in
  if pi_hasDyn got then mkPrec (pi_prec info) (pi_has info) (pi_assoc info) (pi_dyn got) true else info.

(** [precInfo.apply], to the alternative [i]. *)
Definition prec_apply (info : precInfo) (i : nat) (g : Grammar) : Grammar :=
  let g := if pi_has info then
             match pi_assoc info with
             | AssocLeft => prod_Left (pi_prec info) i g
             | AssocRight => prod_Right (pi_prec info) i g
             | AssocNone => prod_Prec (pi_prec info) i g
             end
           else g in
  if pi_hasDyn info then prod_Dynamic (pi_dyn info) i g else g.

(** ** Collecting *)

Record fieldBind : Type := mkField { fb_rule : string; fb_symbol : string; fb_name : string; fb_kind : nat }.
Definition fieldFlag : nat := 1.
Definition fieldText : nat := 2.

Record coll : Type := mkColl {
  co_toks : list nat; co_skips : list nat; co_rules : list (string * nat); co_fields : list fieldBind; co_rule : string;
  co_scan : option ScanFunc; co_scanSet : bool; co_start : string; co_startSet : bool }.
Definition noColl : coll := mkColl [] [] [] [] EmptyString None false EmptyString false.

Definition note_tok (t : nat) (c : coll) : coll :=
  mkColl (co_toks c ++ [t]) (co_skips c) (co_rules c) (co_fields c) (co_rule c) (co_scan c) (co_scanSet c) (co_start c) (co_startSet c).
Definition note_skip (s : nat) (c : coll) : coll :=
  mkColl (co_toks c) (co_skips c ++ [s]) (co_rules c) (co_fields c) (co_rule c) (co_scan c) (co_scanSet c) (co_start c) (co_startSet c).
Definition note_rule (r : string) (b : nat) (c : coll) : coll :=
  mkColl (co_toks c) (co_skips c) (co_rules c ++ [(r, b)]) (co_fields c) (co_rule c) (co_scan c) (co_scanSet c) (co_start c) (co_startSet c).
Definition note_field (f : fieldBind) (c : coll) : coll :=
  mkColl (co_toks c) (co_skips c) (co_rules c) (co_fields c ++ [f]) (co_rule c) (co_scan c) (co_scanSet c) (co_start c) (co_startSet c).
Definition in_rule (r : string) (c : coll) : coll :=
  mkColl (co_toks c) (co_skips c) (co_rules c) (co_fields c) r (co_scan c) (co_scanSet c) (co_start c) (co_startSet c).
Definition note_scan (s : option ScanFunc) (c : coll) : coll :=
  mkColl (co_toks c) (co_skips c) (co_rules c) (co_fields c) (co_rule c) s true (co_start c) (co_startSet c).
Definition note_start (s : string) (c : coll) : coll :=
  mkColl (co_toks c) (co_skips c) (co_rules c) (co_fields c) (co_rule c) (co_scan c) (co_scanSet c) s true.

Fixpoint symbolName_loop (fuel : nat) (h : arena) (f : option nat) : bres string :=
  match fuel with
  | O => BFuel
  | S fuel =>
      '(f, _) ← peel h f;
      match f with
      | None => BOk EmptyString
      | Some id =>
          match h !! id with
          | None => BFuel
          | Some fm =>
              match fm_kind fm with
              | formMark | formSkip | formOpt | formRepeat | formRepeat1 =>
                  match fm_kids fm with [] => BOk EmptyString | None :: _ => BOk EmptyString | k :: _ => symbolName_loop fuel h k end
              | formTok | formWord | formRef => BOk (fm_name fm)
              | formKey | formLit => BOk (fm_text fm)
              | _ => BOk EmptyString
              end
          end
      end
  end.
Definition symbolName (h : arena) (f : option nat) : bres string :=
  match f with None => BOk EmptyString | Some _ => symbolName_loop (length h) h f end.

(** What [walkAt] does at a form before its children, where it has no more to do. *)
Definition walk_note (h : arena) (id : nat) (f : Form) (c : coll) : bres coll :=
  match fm_kind f with
  | formMark =>
      match only_kid f with
      | None => BErr
      | Some k =>
          if bool_decide (fm_field f = EmptyString) then BErr else
          if bool_decide (co_rule c = EmptyString) then BErr else
          symbol ← symbolName h (Some k);
          if bool_decide (symbol = EmptyString) then BErr else BOk (note_field (mkField (co_rule c) symbol (fm_field f) (fm_fieldAs f)) c)
      end
  | formScan => if co_scanSet c then BErr else BOk (note_scan (fm_scan f) c)
  | formStart =>
      if bool_decide (fm_name f = EmptyString) then BErr else
      if co_startSet c && negb (bool_decide (co_start c = fm_name f)) then BErr else BOk (note_start (fm_name f) c)
  | formTok | formWord => if bool_decide (fm_name f = EmptyString) then BErr else BOk (note_tok id c)
  | formKey => if bool_decide (fm_text f = EmptyString) || bool_decide (fm_word f = EmptyString) then BErr else BOk (note_tok id c)
  | formRef => if bool_decide (fm_name f = EmptyString) then BErr else BOk c
  | formRepeat | formRepeat1 | formOpt | formPrec => match only_kid f with None => BErr | Some _ => BOk c end
  | formSep | formSep1 => match fm_kids f with [Some _; Some _] => BOk c | _ => BErr end
  | _ => BOk c
  end.

Definition is_skip (h : arena) (f : option nat) : bool :=
  match f ≫= (h !!.) with Some fm => bool_decide (fm_kind fm = formSkip) | None => false end.

Fixpoint walkAt (fuel : nat) (h : arena) (st : coll * gset nat) (f : option nat) (top : bool) : bres (coll * gset nat) :=
  match f with
  | None => BOk st
  | Some id =>
      if bool_decide (id ∈ snd st) then BOk st else
      match fuel, h !! id with
      | S fuel, Some fm =>
          let c := fst st in
          let seen := {[ id ]} ∪ snd st in
          match fm_kind fm with
          | formEq =>
              match only_kid fm with
              | None => BErr
              | Some k =>
                  if bool_decide (fm_name fm = EmptyString) then BErr else
                  '(c', seen) ← walkAt fuel h (in_rule (fm_name fm) (note_rule (fm_name fm) k c), seen) (Some k) false;
                  BOk (in_rule (co_rule c) c', seen)
              end
          | formSkip =>
              match only_kid fm with
              | None => BErr
              | Some k => walkAt fuel h (if top then note_skip k c else c, seen) (Some k) false
              end
          | formCompose => bfold (fun st k => walkAt fuel h st k (is_skip h k)) (c, seen) (fm_kids fm)
          | _ => c ← walk_note h id fm c; bfold (fun st k => walkAt fuel h st k false) (c, seen) (fm_kids fm)
          end
      | _, _ => BFuel
      end
  end.
Definition walk (h : arena) (f : option nat) : bres coll :=
  '(c, _) ← walkAt (length h) h (noColl, ∅) f (is_skip h f); BOk c.

(** The fields of each rule, in order. *)
Definition add_field (out : gmap string (list fieldBind)) (f : fieldBind) : gmap string (list fieldBind) :=
  <[fb_rule f := default [] (out !! fb_rule f) ++ [f]]> out.
Definition expressionFields (h : arena) (f : option nat) : bres (gmap string (list fieldBind)) :=
  c ← walk h f; BOk (foldl add_field ∅ (co_fields c)).

(** ** Placing *)

(** The grammar so far, and the symbols of the tokens placed. *)
Record placer : Type := mkPlacer { pl_g : Grammar; pl_seen : gmap nat nat }.

Definition set_sym_match (m : option Match) (s : symRec) : symRec :=
  mkSymRec (sr_name s) (sr_kind s) m (sr_matchPrev s) (sr_cont s) (sr_lexPrec s) (sr_named s) (sr_hidden s) (sr_extra s) (sr_immediate s) (sr_external s).
Definition set_sym_matchPrev (m : option MatchPrev) (s : symRec) : symRec :=
  mkSymRec (sr_name s) (sr_kind s) (sr_match s) m (sr_cont s) (sr_lexPrec s) (sr_named s) (sr_hidden s) (sr_extra s) (sr_immediate s) (sr_external s).
Definition set_sym_lexPrec (n : Z) (s : symRec) : symRec :=
  mkSymRec (sr_name s) (sr_kind s) (sr_match s) (sr_matchPrev s) (sr_cont s) n (sr_named s) (sr_hidden s) (sr_extra s) (sr_immediate s) (sr_external s).

Definition nameOf (g : Grammar) (id : nat) : string :=
  if (length (g_syms g) <=? id) || (id =? 0) then EmptyString else sr_name (sym_at g id).

Definition has_matcher (s : symRec) : bool := bool_decide (is_Some (sr_match s)) || bool_decide (is_Some (sr_matchPrev s)).

(** The matcher of a token that has a pattern, or one given. *)
Definition place_matcher (f : Form) (s : nat) (g : Grammar) : Grammar :=
  if fm_hasPattern f then
    let built := build (Some (nameOf g)) (fm_pattern f) in
    match bp_prev built with
    | Some prev => alter_sym (set_sym_matchPrev (Some prev)) s g
    | None => alter_sym (set_sym_match (bp_match built)) s g
    end
  else match fm_match f with
       | Some m => alter_sym (set_sym_match (Some m)) s g
       | None => g
       end.

Definition place_lex (f : Form) (s : nat) (g : Grammar) : Grammar := if fm_hasLex f then alter_sym (set_sym_lexPrec (fm_lex f)) s g else g.

Definition placeToken (h : arena) (f : option nat) (p : placer) : bres (nat * placer) :=
  match f with
  | None => BErr
  | Some id =>
      match pl_seen p !! id with
      | Some s => BOk (s, p)
      | None =>
          match h !! id with
          | None => BFuel
          | Some fm =>
              let placed s g := BOk (s, mkPlacer (place_lex fm s g) (<[id := s]> (pl_seen p))) in
              match fm_kind fm with
              | formTok =>
                  let '(s, g) := Token (fm_name fm) (pl_g p) in
                  if (fm_hasPattern fm || bool_decide (is_Some (fm_match fm))) && has_matcher (sym_at g s) then BErr
                  else placed s (place_matcher fm s g)
              | formWord =>
                  let '(s, g) := Token (fm_name fm) (pl_g p) in
                  if has_matcher (sym_at g s) || bool_decide (is_Some (sr_cont (sym_at g s))) then BErr
                  else placed s (Word (fm_start fm) (fm_cont fm) s g)
              | formKey =>
                  let '(w, g) := Sym (fm_word fm) (pl_g p) in
                  let '(s, g) := Keyword (fm_text fm) w g in
                  placed s g
              | _ => BErr
              end
          end
      end
  end.

Definition is_key (h : arena) (t : nat) : bool := match h !! t with Some fm => bool_decide (fm_kind fm = formKey) | None => false end.

(** [placer.tokens]: the keywords last. *)
Definition place_tokens (h : arena) (toks : list nat) (p : placer) : bres placer :=
  let place keys p t := if Bool.eqb (is_key h t) keys then '(_, p) ← placeToken h (Some t) p; BOk p else BOk p in
  p ← bfold (place false) p toks;
  bfold (place true) p toks.

Definition on_grammar {A} (op : Grammar -> A * Grammar) (p : placer) : A * placer :=
  let '(a, g) := op (pl_g p) in (a, mkPlacer g (pl_seen p)).

(** [rule.Seq] and [info.apply]. *)
Definition place_alternative (r : nat) (syms : list nat) (info : precInfo) (p : placer) : placer :=
  let '(i, p) := on_grammar (rule_Seq r syms) p in mkPlacer (prec_apply info i (pl_g p)) (pl_seen p).

Fixpoint placeAlts (fuel : nat) (h : arena) (r : nat) (f : option nat) (inh : precInfo) (p : placer) : bres placer :=
  match fuel with
  | O => BFuel
  | S fuel =>
      '(body, got) ← peel h f;
      let info := prec_with inh got in
      match body with
      | None => BErr
      | Some id =>
          match h !! id with
          | None => BFuel
          | Some fm =>
              match fm_kind fm with
              | formAlt => match fm_kids fm with [] => BErr | kids => bfold (fun p k => placeAlts fuel h r k info p) p kids end
              | formSeq =>
                  '(syms, p) ← bfold (fun '(syms, p) k => '(s, p) ← placeSymbol fuel h k p; BOk (syms ++ [s], p)) ([], p) (fm_kids fm);
                  BOk (place_alternative r syms info p)
              | formCompose | formSkip | formScan | formStart => BErr
              | _ => '(s, p) ← placeSymbol fuel h body p; BOk (place_alternative r [s] info p)
              end
          end
      end
  end
with placeSymbol (fuel : nat) (h : arena) (f : option nat) (p : placer) : bres (nat * placer) :=
  match fuel with
  | O => BFuel
  | S fuel =>
      match f with
      | None => BErr
      | Some id =>
          match h !! id with
          | None => BFuel
          | Some fm =>
              match fm_kind fm with
              | formRef => if bool_decide (fm_name fm = EmptyString) then BErr else BOk (on_grammar (Sym (fm_name fm)) p)
              | formLit => BOk (on_grammar (Literal (fm_text fm)) p)
              | formTok | formWord | formKey => placeToken h f p
              | formRepeat | formRepeat1 | formOpt =>
                  match fm_kids fm with
                  | [k] =>
                      '(s, p) ← placeSymbol fuel h k p;
                      BOk (on_grammar (match fm_kind fm with formRepeat => Repeat s | formRepeat1 => Repeat1 s | _ => Opt s end) p)
                  | _ => BErr
                  end
              | formSep | formSep1 =>
                  match fm_kids fm with
                  | [i; s] =>
                      '(item, p) ← placeSymbol fuel h i p;
                      '(sep, p) ← placeSymbol fuel h s p;
                      BOk (on_grammar (match fm_kind fm with formSep => Sep item sep | _ => Sep1 item sep end) p)
                  | _ => BErr
                  end
              | formSeq => let '(r, p) := on_grammar (g_hidden "$seq") p in p ← placeAlts fuel h r f noPrec p; BOk (r, p)
              | formAlt => let '(r, p) := on_grammar (g_hidden "$alt") p in p ← placeAlts fuel h r f noPrec p; BOk (r, p)
              | formEq => if bool_decide (fm_name fm = EmptyString) then BErr else BOk (on_grammar (Sym (fm_name fm)) p)
              | formPrec => BErr
              | formSkip | formMark => match only_kid fm with None => BErr | Some k => placeSymbol fuel h (Some k) p end
              | formScan | formStart | formCompose => BErr
              end
          end
      end
  end.

(** A form takes at most three: itself, its invented rule, an alternative of that. *)
Definition place_fuel (h : arena) : nat := 3 * length h + 1.

(** [placer.skip]. *)
Definition place_skip (h : arena) (p : placer) (f : nat) : bres placer :=
  '(s, p) ← placeSymbol (place_fuel h) h (Some f) p;
  if sr_extra (sym_at (pl_g p) s) then BOk p else BOk (mkPlacer (Skip s (pl_g p)) (pl_seen p)).

Definition place_rule (h : arena) (p : placer) (b : string * nat) : bres placer :=
  let '(r, p) := on_grammar (Rule (fst b)) p in placeAlts (place_fuel h) h r (Some (snd b)) noPrec p.

(** The method value [p.g.nameOf] of a pattern reads the grammar when the lexer
    runs, after [Build]: the matchers that are told the previous terminal get
    the names of the finished grammar. *)
Definition resolve_names (h : arena) (seen : gmap nat nat) (final : Grammar) (g : Grammar) (t : nat) : Grammar :=
  match h !! t, seen !! t with
  | Some fm, Some s =>
      if fm_hasPattern fm then
        match bp_prev (build (Some (nameOf final)) (fm_pattern fm)) with
        | Some prev => alter_sym (set_sym_matchPrev (Some prev)) s g
        | None => g
        end
      else g
  | _, _ => g
  end.

Definition Build (h : arena) (name : string) (f : option nat) : bres Grammar :=
  let g := New name in
  match f with
  | None => BOk g
  | Some _ =>
      c ← walk h f;
      p ← place_tokens h (co_toks c) (mkPlacer g ∅);
      p ← bfold (place_skip h) p (co_skips c);
      let p := if co_scanSet c then match co_scan c with Some sf => mkPlacer (Scanner sf (pl_g p)) (pl_seen p) | None => p end else p in
      p ← bfold (place_rule h) p (co_rules c);
      let g := if co_startSet c then Start (co_start c) (pl_g p) else pl_g p in
      BOk (foldl (resolve_names h (pl_seen p) g) g (co_toks c))
  end.
