(* ===== verification/Meanings.v ===== *)
(** * The meaning of forms

    The specification of x/parse/form.go, the sequences of token names that an
    expression stands for, and what the operations of grammar.go add to the
    language of a grammar. *)
From Stdlib Require Import ZArith Lia Ascii.
From stdpp Require Import base numbers option list strings gmap pretty.
From S2P Require Import Prelude Grammars Compile Lexer Derive Checked Patterns Forms.

Local Open Scope nat_scope.

(** A set of sequences of token names. *)
Notation lang := (list string -> Prop).

(** ** Forms *)

(** The name of the symbol that a form refers to. *)
Definition form_symbol (f : Form) : option string :=
  match fm_kind f with
  | formRef | formTok | formWord | formEq => Some (fm_name f)
  | formLit | formKey => Some (fm_text f)
  | _ => None
  end.

Section meaning.
Context (h : arena).

(** The form itself and the forms below it. *)
Inductive reach (f : nat) : nat -> Prop :=
| reach_self : reach f f
| reach_kid x fm k : reach f x -> h !! x = Some fm -> Some k ∈ fm_kids fm -> reach f k.

(** The expression binds the rule [n] to the body [b]. *)
Definition binds (f : nat) (n : string) (b : nat) : Prop :=
  exists e fm, reach f e /\ h !! e = Some fm /\ fm_kind fm = formEq /\ fm_name fm = n /\ only_kid fm = Some b.

(** What a form stands for, where the names stand for [N]. *)
Inductive means (N : string -> lang) : nat -> lang :=
| means_named id fm n w : h !! id = Some fm -> form_symbol fm = Some n -> N n w -> means N id w
| means_seq id fm ks ws : h !! id = Some fm -> fm_kind fm = formSeq -> fm_kids fm = map Some ks -> Forall2 (means N) ks ws -> means N id (concat ws)
| means_alt id fm k w : h !! id = Some fm -> fm_kind fm = formAlt -> Some k ∈ fm_kids fm -> means N k w -> means N id w
| means_repeat id fm k ws : h !! id = Some fm -> fm_kind fm = formRepeat -> only_kid fm = Some k -> Forall (means N k) ws -> means N id (concat ws)
| means_repeat1 id fm k ws : h !! id = Some fm -> fm_kind fm = formRepeat1 -> only_kid fm = Some k -> Forall (means N k) ws -> ws <> [] ->
    means N id (concat ws)
| means_opt_none id fm : h !! id = Some fm -> fm_kind fm = formOpt -> means N id []
| means_opt_some id fm k w : h !! id = Some fm -> fm_kind fm = formOpt -> only_kid fm = Some k -> means N k w -> means N id w
| means_sep_none id fm : h !! id = Some fm -> fm_kind fm = formSep -> means N id []
| means_sep id fm i s w vs ws : h !! id = Some fm -> (fm_kind fm = formSep \/ fm_kind fm = formSep1) -> fm_kids fm = [Some i; Some s] ->
    means N i w -> Forall2 (fun v w => means N s v /\ means N i w) vs ws -> means N id (w ++ concat (zip_with app vs ws))
| means_inner id fm k w : h !! id = Some fm -> (fm_kind fm = formPrec \/ fm_kind fm = formSkip \/ fm_kind fm = formMark) -> only_kid fm = Some k ->
    means N k w -> means N id w.

(** What a name stands for with at most [k] rules inside each other: itself
    where it is a token, and the bodies of its rules. *)
Fixpoint named (T : string -> Prop) (R : string -> nat -> Prop) (k : nat) (n : string) : lang := fun w =>
  (T n /\ w = [n]) \/ match k with O => False | S k => exists b, R n b /\ means (named T R k) b w end.
End meaning.

(** The sequences of tokens of the rule [n] of the expression [f]. *)
Definition sentence (h : arena) (f : nat) (T : string -> Prop) (n : string) : lang := fun w => exists k, named h T (binds h f) k n w.

(** Kids are older, and there are as many as the kind asks for. *)
Definition kids_shape (f : Form) : bool :=
  match fm_kind f with
  | formRef | formLit | formTok | formWord | formKey | formScan | formStart => bool_decide (fm_kids f = [])
  | formSeq | formAlt | formCompose => bool_decide (Forall is_Some (fm_kids f))
  | formSep | formSep1 => bool_decide (length (fm_kids f) = 2)
  | _ => bool_decide (length (fm_kids f) = 1)
  end.
Definition form_wf (id : nat) (f : Form) : bool := kids_shape f && forallb (fun k => match k with Some k => k <? id | None => true end) (fm_kids f).
Definition arena_wf (h : arena) : bool := forallb (fun '(id, f) => form_wf id f) (imap pair h).

(** The names that [grammar.hidden] makes. *)
Definition inventions : list string := ["$repeat#"; "$repeat1#"; "$opt#"; "$sep#"; "$sepp#"; "$seq#"; "$alt#"]%string.
Definition invented (n : string) : bool := existsb (fun p => String.prefix p n) inventions.
Definition names_plain (h : arena) : bool :=
  forallb (fun f => negb (invented (fm_name f)) && negb (invented (fm_text f)) && negb (invented (fm_word f))) h.

(** ** Growing grammars *)

Definition in_prods (g : Grammar) (l : nat) (rhs : list nat) : Prop := exists p, p ∈ g_prods g /\ pr_lhs p = l /\ pr_rhs p = rhs.

(** What a later grammar keeps. *)
Record ext (g g' : Grammar) : Prop := {
  ext_syms s : s < length (g_syms g) -> s < length (g_syms g') /\ sr_name (sym_at g' s) = sr_name (sym_at g s) /\
    (sr_kind (sym_at g s) = kindTerm -> sr_kind (sym_at g' s) = kindTerm) /\ (sr_hidden (sym_at g s) = true -> sr_hidden (sym_at g' s) = true);
  ext_prods l rhs : in_prods g l rhs -> in_prods g' l rhs;
  ext_byName n s : invented n = false -> g_byName g !! n = Some s -> g_byName g' !! n = Some s;
  ext_start : (g_start g' = g_start g /\ g_startSet g' = g_startSet g) \/
    (g_startSet g' = true /\ exists n, invented n = false /\ g_byName g' !! n = Some (g_start g')) }.

#[export] Instance ext_preorder : PreOrder ext.
Proof.
  split.
  - intros g. split; auto.
  - intros g1 g2 g3 [A1 B1 C1 D1] [A2 B2 C2 D2]. split; [|auto..|].
    + intros s Hs. destruct (A1 s Hs) as (H1 & H2 & H3 & H4). destruct (A2 s H1) as (K1 & K2 & K3 & K4). split; [exact K1|]. split; [congruence|]. auto.
    + destruct D2 as [[-> ->]|D2]; [|right; exact D2]. destruct D1 as [D1|(D1 & n & Hn & Hs)]; [left; exact D1|right]. eauto.
Qed.

(** ** Ghost languages

    A list of languages, one for each symbol, that bounds what the symbols derive. *)

Definition mu (m : list lang) (s : nat) : lang := fun w => match m !! s with Some P => P w | None => False end.

Lemma mu_prefix m m' s w : m `prefix_of` m' -> s < length m -> mu m' s w <-> mu m s w.
Proof. intros [more ->] Hs. unfold mu. rewrite lookup_app_l by exact Hs. reflexivity. Qed.

Lemma mu_prefix_1 m m' s w : m `prefix_of` m' -> mu m s w -> mu m' s w.
Proof. intros Hp H. destruct (decide (s < length m)) as [Hs|Hs]; [apply (mu_prefix m m' s w Hp Hs), H|]. unfold mu in H. rewrite (lookup_ge_None_2 m s) in H by lia. destruct H. Qed.

Lemma mu_new m P w : mu (m ++ [P]) (length m) w <-> P w.
Proof. unfold mu. rewrite lookup_app_r, Nat.sub_diag by lia. reflexivity. Qed.

Section bounds.
Context (N : string -> lang).

Record bounded (g : Grammar) (m : list lang) : Prop := {
  bd_length : length m = length (g_syms g);
  bd_lhs p : p ∈ g_prods g -> pr_lhs p < length m /\ Forall (fun s => s < length m) (pr_rhs p);
  bd_prods p ws : p ∈ g_prods g -> Forall2 (mu m) (pr_rhs p) ws -> mu m (pr_lhs p) (concat ws);
  bd_byName n s : invented n = false -> g_byName g !! n = Some s -> 1 < s < length m /\ sr_name (sym_at g s) = n /\ forall w, mu m s w <-> N n w;
  bd_terms s : s < length m -> sr_kind (sym_at g s) = kindTerm -> sr_extra (sym_at g s) = false ->
    s = 1 \/ (invented (sr_name (sym_at g s)) = false /\ g_byName g !! sr_name (sym_at g s) = Some s);
  bd_visible s : 1 < s < length m -> sr_hidden (sym_at g s) = true \/ (invented (sr_name (sym_at g s)) = false /\ g_byName g !! sr_name (sym_at g s) = Some s);
  bd_eof : 1 < length m /\ sr_kind (sym_at g 1) = kindTerm /\ forall w, mu m 1 w }.

Lemma bounded_New name : bounded (New name) [(fun _ => False); (fun _ => True)].
Proof.
  split; simpl.
  - reflexivity.
  - intros p []%not_elem_of_nil.
  - intros p ws []%not_elem_of_nil.
  - intros n s _ H. rewrite lookup_empty in H. discriminate.
  - intros [|[|s]] Hs; [discriminate|auto|lia].
  - intros s Hs. lia.
  - split; [lia|]. split; [reflexivity|]. intros w. exact I.
Qed.

(** The bound of a grammar whose symbols and names are as before. *)
Definition evolves (g g' : Grammar) : Prop := ext g g' /\ forall m, bounded g m -> exists m', m `prefix_of` m' /\ bounded g' m'.

#[export] Instance evolves_preorder : PreOrder evolves.
Proof.
  split.
  - intros g. split; [reflexivity|]. intros m Hm. exists m. auto.
  - intros g1 g2 g3 [E1 H1] [E2 H2]. split; [etransitivity; eassumption|]. intros m Hm. destruct (H1 m Hm) as (m1 & P1 & B1). destruct (H2 m1 B1) as (m2 & P2 & B2).
    exists m2. split; [etransitivity; eassumption|exact B2].
Qed.
End bounds.

(** * Growing grammars

    What each operation of x/parse/grammar.go adds to the language of a grammar:
    nothing beyond the bound of its symbols, and all that they stand for. *)

(** ** Symbols *)

Lemma sym_at_app g r s : s < length (g_syms g) -> nth s (g_syms g ++ [r]) symZero = sym_at g s.
Proof. intros Hs. unfold sym_at. rewrite app_nth1 by exact Hs. reflexivity. Qed.

Lemma sym_at_new g r : nth (length (g_syms g)) (g_syms g ++ [r]) symZero = r.
Proof. rewrite app_nth2, Nat.sub_diag by lia. reflexivity. Qed.

Lemma sym_at_alter f id g s : sym_at (alter_sym f id g) s = if decide (s = id /\ s < length (g_syms g)) then f (sym_at g s) else sym_at g s.
Proof.
  unfold sym_at, alter_sym. simpl. rewrite !nth_lookup. destruct (decide (s = id)) as [ ->|Hne].
  - rewrite list_lookup_alter_eq. destruct (decide (id < length (g_syms g))) as [Hlt|Hge].
    + destruct (lookup_lt_is_Some_2 _ _ Hlt) as [r Hr]. rewrite Hr. destruct (decide (id = id /\ _)) as [_|[]]; [reflexivity|auto].
    + rewrite (lookup_ge_None_2 (g_syms g) id) by lia. destruct (decide (id = id /\ _)) as [[]|]; [lia|reflexivity].
  - rewrite list_lookup_alter_ne by congruence. destruct (decide (s = id /\ _)) as [[]|]; [contradiction|reflexivity].
Qed.

Lemma alter_sym_length f id g : length (g_syms (alter_sym f id g)) = length (g_syms g).
Proof. apply length_alter. Qed.

Lemma prefix_app a b : String.prefix a (a +:+ b) = true.
Proof. induction a as [|c a IH]; simpl; [destruct b; reflexivity|]. destruct (Ascii.ascii_dec c c); [exact IH|congruence]. Qed.

Lemma append_assoc a b c : (a +:+ (b +:+ c) = (a +:+ b) +:+ c)%string.
Proof. induction a as [|x a IH]; [reflexivity|]. change (String x (a +:+ (b +:+ c)) = String x ((a +:+ b) +:+ c)). rewrite IH. reflexivity. Qed.

(** ** Changing a symbol *)

Record harmless (f : symRec -> symRec) (r : symRec) : Prop := {
  hl_name : sr_name (f r) = sr_name r;
  hl_term : sr_kind r = kindTerm -> sr_kind (f r) = kindTerm;
  hl_hidden : sr_hidden r = true -> sr_hidden (f r) = true }.

Lemma ext_alter f id g : harmless f (sym_at g id) -> ext g (alter_sym f id g).
Proof.
  intros [Hn Ht Hh]. split; [|auto..].
  intros s Hs. rewrite alter_sym_length, sym_at_alter. split; [exact Hs|]. destruct (decide _) as [[-> _]|_]; auto.
Qed.

Lemma bounded_alter N f id g m : harmless f (sym_at g id) ->
  (sr_kind (f (sym_at g id)) = kindTerm -> sr_extra (f (sym_at g id)) = false ->
     (sr_kind (sym_at g id) = kindTerm /\ sr_extra (sym_at g id) = false) \/ exists n, invented n = false /\ g_byName g !! n = Some id) ->
  bounded N g m -> bounded N (alter_sym f id g) m.
Proof.
  intros [Hn Ht Hh] Hnew [B1 B2 B3 B4 B5 B6 (B7 & B8 & B9)]. split.
  - rewrite alter_sym_length. exact B1.
  - exact B2.
  - exact B3.
  - intros n s Hinv Hs. destruct (B4 n s Hinv Hs) as (K1 & K2 & K3). rewrite sym_at_alter. split; [exact K1|]. split; [|exact K3].
    destruct (decide _) as [[-> _]|_]; congruence.
  - intros s Hs. rewrite sym_at_alter. destruct (decide _) as [[-> _]|_]; [|apply B5, Hs]. intros Hk He. rewrite Hn.
    destruct (Hnew Hk He) as [[Hk' He']|(n & Hinv & Hin)]; [exact (B5 id Hs Hk' He')|]. destruct (B4 n id Hinv Hin) as (_ & <- & _). auto.
  - intros s Hs. rewrite sym_at_alter. destruct (decide _) as [[-> _]|_]; [|apply B6, Hs]. rewrite Hn. destruct (B6 id Hs); auto.
  - split; [exact B7|]. split; [|exact B9]. rewrite sym_at_alter. destruct (decide _) as [[E _]|_]; [subst id; apply Ht|]; exact B8.
Qed.

(** A change that makes no new token. *)
Lemma evolves_alter N f id g : harmless f (sym_at g id) ->
  (sr_kind (f (sym_at g id)) = kindTerm -> sr_extra (f (sym_at g id)) = false ->
     (sr_kind (sym_at g id) = kindTerm /\ sr_extra (sym_at g id) = false) \/ exists n, invented n = false /\ g_byName g !! n = Some id) ->
  evolves N g (alter_sym f id g).
Proof. intros Hf Hnew. split; [apply ext_alter, Hf|]. intros m Hm. exists m. split; [reflexivity|]. apply bounded_alter; assumption. Qed.

(** ** Adding a symbol *)

Lemma ext_add name k nm g : invented name = true \/ g_byName g !! name = None -> ext g (snd (g_add name k nm g)).
Proof.
  intros Hname. split.
  - intros s Hs. rewrite (sym_at_app g _ s Hs : sym_at (snd (g_add name k nm g)) s = _). simpl. rewrite length_app. simpl. split; [lia|auto].
  - auto.
  - intros n s Hinv Hn. simpl. rewrite lookup_insert_ne; [exact Hn|]. intros ->. destruct Hname; congruence.
  - auto.
Qed.

(** The bound of the new symbol; a name of a user stands for what it should. *)
Lemma bounded_add N name k nm g m (P : lang) : (invented name = true /\ isHidden name = true /\ k = kindNonterm) \/ (invented name = false /\ g_byName g !! name = None /\ P = N name) ->
  bounded N g m -> bounded N (snd (g_add name k nm g)) (m ++ [P]).
Proof.
  intros Hname [B1 B2 B3 B4 B5 B6 (B7 & B8 & B9)].
  assert (Hpre : m `prefix_of` m ++ [P]) by (exists [P]; reflexivity).
  assert (Hlen : length (m ++ [P]) = S (length m)) by (rewrite length_app; simpl; lia).
  assert (Hold : forall s, s < length m -> sym_at (snd (g_add name k nm g)) s = sym_at g s) by (intros s Hs; apply sym_at_app; lia).
  assert (Hnew : sym_at (snd (g_add name k nm g)) (length m) = mkSymRec name k None None None 0 (nm && negb (isHidden name)) (isHidden name) false false false)
    by (rewrite B1; apply sym_at_new).
  assert (Hby : forall n s, invented n = false -> g_byName g !! n = Some s -> g_byName (snd (g_add name k nm g)) !! n = Some s).
  { intros n s. apply ext_byName, ext_add. destruct Hname as [[H _]|(_ & H & _)]; auto. }
  split.
  - simpl. rewrite !length_app, B1. reflexivity.
  - intros p Hp. destruct (B2 p Hp) as [K1 K2]. rewrite Hlen. split; [lia|]. eapply Forall_impl; [exact K2|]. simpl. lia.
  - intros p ws Hp Hws. destruct (B2 p Hp) as [K1 K2]. apply (mu_prefix m _ _ _ Hpre K1). apply (B3 p ws Hp).
    clear -Hws K2 Hpre. induction Hws as [|s w ss ws Hw _ IH]; [constructor|]. apply Forall_cons in K2 as [Hs K2]. constructor; [|exact (IH K2)].
    apply (mu_prefix m _ _ _ Hpre Hs), Hw.
  - intros n s Hinv Hs. simpl in Hs. rewrite Hlen. destruct (decide (n = name)) as [ ->|Hne].
    + rewrite lookup_insert_eq in Hs. injection Hs as <-. destruct Hname as [[H _]|(_ & _ & ->)]; [congruence|]. rewrite <- B1, Hnew. split; [lia|]. split; [reflexivity|].
      intros w. apply mu_new.
    + rewrite lookup_insert_ne in Hs by congruence. destruct (B4 n s Hinv Hs) as (K1 & K2 & K3). rewrite Hold by lia. split; [lia|]. split; [exact K2|].
      intros w. rewrite (mu_prefix m _ _ _ Hpre) by lia. apply K3.
  - intros s Hs Hk He. rewrite Hlen in Hs. destruct (decide (s = length m)) as [ ->|Hne].
    + rewrite Hnew in *. simpl in *. destruct Hname as [(_ & _ & ->)|(H & _)]; [discriminate|]. right. split; [exact H|]. rewrite lookup_insert_eq. f_equal. lia.
    + rewrite Hold in * by lia. destruct (B5 s ltac:(lia) Hk He) as [ ->|[K1 K2]]; [left; reflexivity|right]. split; [exact K1|]. apply Hby; assumption.
  - intros s Hs. rewrite Hlen in Hs. destruct (decide (s = length m)) as [ ->|Hne].
    + rewrite Hnew. simpl. destruct Hname as [(_ & H & _)|(H & _)]; [left; exact H|right]. split; [exact H|]. rewrite lookup_insert_eq. f_equal. lia.
    + rewrite Hold by lia. destruct (B6 s ltac:(lia)) as [K|[K1 K2]]; [left; exact K|right]. split; [exact K1|]. apply Hby; assumption.
  - rewrite Hlen. split; [lia|]. rewrite Hold by lia. split; [exact B8|]. intros w. apply (mu_prefix m _ _ _ Hpre B7), B9.
Qed.

(** ** Names *)

(** A symbol of a name of the user. *)
Lemma term_named N n nm g : invented n = false -> let '(s, g') := g_term n nm g in g_byName g' !! n = Some s /\ evolves N g g'.
Proof.
  intros Hn. unfold g_term. destruct (g_byName g !! n) as [id|] eqn:E; [split; [exact E|reflexivity]|]. simpl. split; [apply lookup_insert_eq|].
  split; [exact (ext_add n kindTerm nm g (or_intror E))|]. intros m Hm. exists (m ++ [N n]). split; [exists [N n]; reflexivity|]. exact (bounded_add N n kindTerm nm g m (N n) (or_intror (conj Hn (conj E eq_refl))) Hm).
Qed.

Lemma Sym_named N n g : invented n = false -> let '(s, g') := Sym n g in g_byName g' !! n = Some s /\ evolves N g g'.
Proof.
  intros Hn. unfold Sym. destruct (g_byName g !! n) as [id|] eqn:E; [split; [exact E|reflexivity]|]. simpl. split; [apply lookup_insert_eq|].
  split; [exact (ext_add n kindNonterm false g (or_intror E))|]. intros m Hm. exists (m ++ [N n]). split; [exists [N n]; reflexivity|]. exact (bounded_add N n kindNonterm false g m (N n) (or_intror (conj Hn (conj E eq_refl))) Hm).
Qed.

Lemma alter_byName f id g : g_byName (alter_sym f id g) = g_byName g.
Proof. reflexivity. Qed.

Lemma Literal_named N n g : invented n = false -> let '(s, g') := Literal n g in g_byName g' !! n = Some s /\ evolves N g g'.
Proof.
  intros Hn. unfold Literal. destruct (g_byName g !! n) as [id|] eqn:E; [split; [exact E|reflexivity]|].
  pose proof (term_named N n false g Hn) as K. destruct (g_term n false g) as [s g']. destruct K as [K1 K2]. split; [exact K1|].
  etransitivity; [exact K2|]. apply evolves_alter; [split; auto|]. auto.
Qed.

Lemma Token_named N n g : invented n = false -> let '(s, g') := Token n g in g_byName g' !! n = Some s /\ evolves N g g'.
Proof. apply term_named. Qed.

Lemma Keyword_named N n w g : invented n = false -> let '(s, g') := Keyword n w g in g_byName g' !! n = Some s /\ evolves N g g'.
Proof.
  intros Hn. unfold Keyword. pose proof (Literal_named N n g Hn) as K. destruct (Literal n g) as [s g']. destruct K as [K1 K2]. split; [exact K1|].
  etransitivity; [exact K2|]. apply evolves_alter; [split; auto|]. auto.
Qed.

Lemma Rule_named N n g : invented n = false -> let '(s, g') := Rule n g in g_byName g' !! n = Some s /\ evolves N g g'.
Proof.
  intros Hn. unfold Rule. pose proof (Sym_named N n g Hn) as K. destruct (Sym n g) as [s g']. destruct K as [K1 K2].
  case_bool_decide as Hk; [auto|]. split; [exact K1|]. etransitivity; [exact K2|]. apply evolves_alter; [split|]; simpl; try tauto.
  - intros ->. destruct (isHidden n); reflexivity.
  - discriminate.
Qed.

Lemma Word_evolves N n start cont s g : invented n = false -> g_byName g !! n = Some s -> evolves N g (Word start cont s g).
Proof. intros Hn Hs. apply evolves_alter; [split; auto|]. eauto. Qed.

Lemma Skip_evolves N s g : evolves N g (Skip s g).
Proof.
  assert (H : evolves N g (alter_sym set_extra s g)) by (apply evolves_alter; [split; auto|simpl; discriminate]). destruct H as [[E1 E2 E3 E4] H].
  split; [split; [exact E1|exact E2|exact E3|exact E4]|]. intros m Hm. destruct (H m Hm) as (m' & Hp & [B1 B2 B3 B4 B5 B6 B7]). exists m'. split; [exact Hp|]. split; assumption.
Qed.

(** ** Alternatives *)

Lemma ext_seq r parts g : ext g (snd (rule_Seq r parts g)).
Proof.
  split; [auto..|simpl|auto|auto].
  intros l rhs (p & Hp & Hl). exists p. split; [apply elem_of_app; left; exact Hp|exact Hl].
Qed.

Lemma in_prods_seq r parts g : in_prods (snd (rule_Seq r parts g)) r parts.
Proof. eexists. split; [apply elem_of_app; right; apply list_elem_of_singleton; reflexivity|]. auto. Qed.

Lemma bounded_seq N r parts g m : bounded N g m -> r < length m -> Forall (fun s => s < length m) parts ->
  (forall ws, Forall2 (mu m) parts ws -> mu m r (concat ws)) -> bounded N (snd (rule_Seq r parts g)) m.
Proof.
  intros [B1 B2 B3 B4 B5 B6 B7] Hr Hparts Hclosed. split; auto; simpl.
  - intros p [Hp| ->%list_elem_of_singleton]%elem_of_app; [exact (B2 p Hp)|]. auto.
  - intros p ws [Hp| ->%list_elem_of_singleton]%elem_of_app; [exact (B3 p ws Hp)|]. apply Hclosed.
Qed.

(** Precedence leaves the symbols of the alternatives. *)
Record same_rules (g g' : Grammar) : Prop := {
  sm_syms : g_syms g' = g_syms g;
  sm_byName : g_byName g' = g_byName g;
  sm_start : g_start g' = g_start g /\ g_startSet g' = g_startSet g;
  sm_prods : map (fun p => (pr_lhs p, pr_rhs p)) (g_prods g') = map (fun p => (pr_lhs p, pr_rhs p)) (g_prods g) }.

#[export] Instance same_rules_preorder : PreOrder same_rules.
Proof. split; [intros g; split; auto|]. intros g1 g2 g3 [A1 A2 [A3 A4] A5] [B1 B2 [B3 B4] B5]. split; [congruence..|split; congruence|congruence]. Qed.

Lemma same_rules_in g g' p : same_rules g g' -> p ∈ g_prods g -> exists p', p' ∈ g_prods g' /\ pr_lhs p' = pr_lhs p /\ pr_rhs p' = pr_rhs p.
Proof.
  intros [_ _ _ E] Hp. assert (H : (pr_lhs p, pr_rhs p) ∈ map (fun p => (pr_lhs p, pr_rhs p)) (g_prods g')).
  { rewrite E. apply list_elem_of_fmap. eauto. }
  apply list_elem_of_fmap in H as (p' & [= E1 E2] & Hp'). eauto.
Qed.

Lemma same_rules_sym g g' : same_rules g g' -> same_rules g' g.
Proof. intros [A1 A2 [A3 A4] A5]. split; [congruence..|split; congruence|congruence]. Qed.

Lemma same_rules_ext g g' : same_rules g g' -> ext g g'.
Proof.
  intros H. pose proof H as [A1 A2 A3 A5]. split.
  - intros s Hs. unfold sym_at. rewrite A1. auto.
  - intros l rhs (p & Hp & El & Er). destruct (same_rules_in g g' p H Hp) as (p' & K1 & K2 & K3). exists p'. split; [exact K1|split; congruence].
  - intros n s _ Hs. rewrite A2. exact Hs.
  - left. exact A3.
Qed.

Lemma same_rules_bounded N g g' m : same_rules g g' -> bounded N g m -> bounded N g' m.
Proof.
  intros H [B1 B2 B3 B4 B5 B6 B7]. pose proof H as [A1 A2 A3 A5]. unfold sym_at in *. split; unfold sym_at; rewrite ?A1, ?A2; auto.
  - intros p Hp. destruct (same_rules_in g' g p (same_rules_sym _ _ H) Hp) as (p' & K1 & <- & <-). exact (B2 p' K1).
  - intros p ws Hp. destruct (same_rules_in g' g p (same_rules_sym _ _ H) Hp) as (p' & K1 & <- & <-). exact (B3 p' ws K1).
Qed.

Lemma same_rules_alter f i g : (forall p, pr_lhs (f p) = pr_lhs p /\ pr_rhs (f p) = pr_rhs p) -> same_rules g (with_prods g (alter f i (g_prods g))).
Proof.
  intros Hf. split; [auto..|]. simpl. generalize (g_prods g). induction i as [|i IH]; intros [|p l]; simpl; try reflexivity.
  - destruct (Hf p) as [-> ->]. reflexivity.
  - f_equal. apply IH.
Qed.

Lemma prec_apply_same info i g : same_rules g (prec_apply info i g).
Proof.
  unfold prec_apply. set (g1 := if pi_has info then _ else g). assert (H1 : same_rules g g1).
  { unfold g1. destruct (pi_has info); [|reflexivity]. destruct (pi_assoc info); apply same_rules_alter; auto. }
  destruct (pi_hasDyn info); [|exact H1]. etransitivity; [exact H1|]. apply same_rules_alter. auto.
Qed.

(** ** Invented rules *)

Lemma inventions_hidden p : p ∈ inventions -> exists q, p = String "$"%char q.
Proof. unfold inventions. rewrite !elem_of_cons, elem_of_nil. intros H. decompose [or] H; subst; try contradiction; eexists; reflexivity. Qed.

(** A hidden symbol with the bound of choice. *)
Lemma hidden_makes N prefix g : (prefix +:+ "#")%string ∈ inventions -> let '(r, g') := g_hidden prefix g in
  r = length (g_syms g) /\ ext g g' /\ g_byName g' !! sr_name (sym_at g' r) = Some r /\ length (g_syms g') = S r /\
  forall m P, bounded N g m -> bounded N g' (m ++ [P]).
Proof.
  intros Hin. unfold g_hidden. set (name := (prefix +:+ "#" +:+ pretty (N.of_nat (length (g_syms g))))%string).
  assert (Hinv : invented name = true).
  { unfold invented. apply existsb_exists. exists (prefix +:+ "#")%string. split; [apply list_elem_of_In, Hin|]. unfold name.
    rewrite append_assoc. apply prefix_app. }
  assert (Hhid : isHidden name = true).
  { destruct (inventions_hidden _ Hin) as [q Hq]. unfold name. destruct prefix as [|a prefix]; [discriminate|]. injection Hq as -> _. reflexivity. }
  pose proof (ext_add name kindNonterm false g (or_introl Hinv)) as He. pose proof (fun m P => bounded_add N name kindNonterm false g m P (or_introl (conj Hinv (conj Hhid eq_refl)))) as Hb.
  pose proof (sym_at_new g (mkSymRec name kindNonterm None None None 0 false (isHidden name) false false false)) as Hnew.
  change (nth (length (g_syms g)) _ symZero) with (sym_at (snd (g_add name kindNonterm false g)) (length (g_syms g))) in Hnew.
  cbn [g_add fst snd] in *. set (g1 := mkGrammar _ _ _ _ _ _ _ _) in *. split; [reflexivity|].
  assert (Hharm : harmless set_hidden (sym_at g1 (length (g_syms g)))) by (split; auto).
  split; [etransitivity; [exact He|apply ext_alter, Hharm]|]. split; [|split].
  - rewrite sym_at_alter, Hnew. simpl. rewrite app_length. simpl. destruct (decide _) as [_|[]]; [apply lookup_insert_eq|split; [reflexivity|lia]].
  - rewrite alter_sym_length. simpl. rewrite length_app. simpl. lia.
  - intros m P Hm. apply bounded_alter; [exact Hharm|auto|exact (Hb m P Hm)].
Qed.

(** ** What a finished grammar derives *)

Definition many (P : lang) : lang := fun w => exists ws, w = concat ws /\ Forall P ws.
Definition some (P : lang) : lang := fun w => exists ws, w = concat ws /\ Forall P ws /\ ws <> [].
Definition maybe (P : lang) : lang := fun w => w = [] \/ P w.
Definition listed (P Q : lang) : lang := fun w => exists w0 vs ws, w = w0 ++ concat (zip_with app vs ws) /\ P w0 /\ Forall2 (fun v w => Q v /\ P w) vs ws.

(** Two languages, one after the other. *)
Definition conc (P Q : lang) : lang := fun w => exists u v, w = u ++ v /\ P u /\ Q v.

Lemma many_conc P Q vs ws : Forall2 (fun v w => Q v /\ P w) vs ws -> many (conc Q P) (concat (zip_with app vs ws)).
Proof.
  intros H. exists (zip_with app vs ws). split; [reflexivity|]. induction H as [|v w vs ws [Hv Hw] _ IH]; simpl; constructor; [|exact IH].
  exists v, w. auto.
Qed.

Lemma conc_many P Q w : many (conc Q P) w -> exists vs ws, w = concat (zip_with app vs ws) /\ Forall2 (fun v w => Q v /\ P w) vs ws.
Proof.
  intros (us & -> & H). induction H as [|u us (v & w & -> & Hv & Hw) _ (vs & ws & E & IH)]; [exists [], []; split; [reflexivity|constructor]|].
  exists (v :: vs), (w :: ws). simpl. rewrite E. auto.
Qed.

Section grown.
Context (N : string -> lang) (G : Grammar) (c : compiler) (Hc : prepareCompiler G = Some c).

(** The names of the tokens of a derivation. *)
Definition gen (s : nat) : lang := fun w => exists t, derives c s t /\ map (fun k => sr_name (sym_at G (t_id k))) (yield t) = w.

Lemma gen_token s : s < length (g_syms G) -> sr_kind (sym_at G s) = kindTerm -> gen s [sr_name (sym_at G s)].
Proof using Hc.
  intros Hs Hk. exists (PLeaf (mkTok s 0 0)). split; [|reflexivity]. apply (derives_leaf c (mkTok s 0 0)). simpl. rewrite (checked_terminal G c Hc s Hs), Hk. reflexivity.
Qed.

Lemma gen_prod l rhs ws : in_prods G l rhs -> Forall2 gen rhs ws -> gen l (concat ws).
Proof using Hc.
  intros (p & Hp & <- & <-) Hws. destruct (prepare_inv G c Hc) as (_ & _ & _ & Ec & _).
  assert (Hin : prod_of (g_syms G) p ∈ c_prods c) by (rewrite Ec; right; apply list_elem_of_fmap; eauto). apply list_elem_of_lookup in Hin as [i Hi].
  assert (Hts : exists ts, Forall2 (derives c) (pr_rhs p) ts /\ map (fun k => sr_name (sym_at G (t_id k))) (flat_map yield ts) = concat ws).
  { clear -Hws. induction Hws as [|s w ss ws (t & Ht & <-) _ (ts & Hts & IH)]; [exists []; split; [constructor|reflexivity]|].
    exists (t :: ts). split; [constructor; assumption|]. simpl. rewrite map_app, IH. reflexivity. }
  destruct Hts as (ts & Hts & E). exists (PNode i ts). split; [exact (derives_node c i (prod_of (g_syms G) p) ts Hi Hts)|exact E].
Qed.

Lemma gen_prod1 l s w : in_prods G l [s] -> gen s w -> gen l w.
Proof using Hc. intros Hp Hs. rewrite <- (app_nil_r w). apply (gen_prod l [s] [w] Hp). constructor; [exact Hs|constructor]. Qed.

Lemma gen_prod2 l s s' w w' : in_prods G l [s; s'] -> gen s w -> gen s' w' -> gen l (w ++ w').
Proof using Hc. intros Hp Hs Hs'. rewrite <- (app_nil_r w'). apply (gen_prod l [s; s'] [w; w'] Hp). constructor; [exact Hs|]. constructor; [exact Hs'|constructor]. Qed.

(** An operation that returns a symbol: its bound, given the bounds of the
    symbols that there are, and what it derives in the finished grammar. *)
Record makes (g : Grammar) (res : nat * Grammar) (U : list lang -> lang) (L : lang) : Prop := {
  mk_ext : ext g (snd res);
  mk_new : fst res < length (g_syms (snd res));
  mk_upper m : bounded N g m -> exists m', m `prefix_of` m' /\ bounded N (snd res) m' /\ (forall w, mu m' (fst res) w -> U m w);
  mk_lower : ext (snd res) G -> forall w, L w -> gen (fst res) w }.

Lemma own_symbol_new r g : g_byName g !! sr_name (sym_at g r) = Some r -> own_symbol r g = (r, g).
Proof. intros H. unfold own_symbol, Sym. rewrite H. reflexivity. Qed.

Lemma own_symbol_seq r r' parts g : g_byName g !! sr_name (sym_at g r) = Some r ->
  own_symbol r (snd (rule_Seq r' parts g)) = (r, snd (rule_Seq r' parts g)).
Proof. intros H. apply (own_symbol_new r (snd (rule_Seq r' parts g))). exact H. Qed.

(** One alternative of a rule. *)
Lemma seq_evolves r parts g : r < length (g_syms g) -> Forall (fun s => s < length (g_syms g)) parts ->
  (forall m, bounded N g m -> forall ws, Forall2 (mu m) parts ws -> mu m r (concat ws)) -> evolves N g (snd (rule_Seq r parts g)).
Proof.
  intros Hr Hparts H. split; [apply ext_seq|]. intros m Hm. exists m. split; [reflexivity|]. pose proof (bd_length _ _ _ Hm) as E. rewrite <- E in *.
  apply bounded_seq; auto.
Qed.

Lemma Repeat_makes s g : s < length (g_syms g) -> makes g (Repeat s g) (fun m => many (mu m s)) (many (gen s)).
Proof using Hc.
  intros Hs. unfold Repeat. pose proof (hidden_makes N "$repeat" g ltac:(set_solver)) as H. destruct (g_hidden "$repeat" g) as [r g1].
  destruct H as (Hr & He & Hby & Hlen & Hb). set (g2 := snd (rule_Seq r [] g1)). change (rule_Seq r [] g1) with (length (g_prods g1), g2). cbv beta iota zeta.
  replace (own_symbol r g2) with (r, g2) by (symmetry; apply own_symbol_seq; exact Hby). set (g3 := snd (rule_Seq r [r; s] g2)).
  change (rule_Seq r [r; s] g2) with (length (g_prods g2), g3). cbv beta iota zeta. replace (own_symbol r g3) with (r, g3) by (symmetry; apply own_symbol_seq; exact Hby).
  split; simpl fst; simpl snd.
  - etransitivity; [exact He|]. etransitivity; [apply ext_seq|apply ext_seq].
  - simpl. lia.
  - intros m Hm. exists (m ++ [many (mu m s)]). pose proof (bd_length _ _ _ Hm) as El. assert (Hp : m `prefix_of` m ++ [many (mu m s)]) by (eexists; reflexivity).
    assert (Hr' : r = length m) by lia. assert (Hll : length (m ++ [many (mu m s)]) = S r) by (rewrite length_app; simpl; lia).
    split; [exact Hp|]. split; [|intros w; rewrite Hr', mu_new; auto].
    apply bounded_seq; [apply bounded_seq; [apply Hb, Hm|lia|constructor|]|lia|repeat constructor; lia|].
    + intros ws Hws. inversion Hws; subst ws. rewrite Hr', mu_new. exists []. split; [reflexivity|constructor].
    + intros ws Hws. inversion Hws as [|? w0 ? ws0 H1 H2]; subst. inversion H2 as [|? w1 ? ws1 H3 H4]; subst. inversion H4; subst.
      rewrite Hr', mu_new in *. destruct H1 as (us & -> & Hus). apply (mu_prefix m _ s w1 Hp) in H3; [|lia]. exists (us ++ [w1]). simpl. rewrite app_nil_r, concat_app. simpl. rewrite app_nil_r.
      split; [reflexivity|]. apply Forall_app. auto.
  - intros HG w (ws & -> & Hws). assert (P0 : in_prods G r []) by (apply (ext_prods _ _ HG), ext_prods with g2; [apply ext_seq|apply in_prods_seq]).
    assert (P1 : in_prods G r [r; s]) by (apply (ext_prods _ _ HG), in_prods_seq).
    induction ws as [|w ws IH] using rev_ind; [exact (gen_prod r [] [] P0 ltac:(constructor))|]. apply Forall_app in Hws as [H1 H2]. apply Forall_cons in H2 as [H2 _].
    rewrite concat_app. simpl. rewrite app_nil_r. apply (gen_prod2 r r s _ _ P1); auto.
Qed.

Lemma forall2_1 (P : nat -> lang) s ws : Forall2 P [s] ws -> exists w, ws = [w] /\ P s w.
Proof. intros H. inversion H as [|? w ? ws' H1 H2]; subst. inversion H2; subst. eauto. Qed.

Lemma forall2_2 (P : nat -> lang) s s' ws : Forall2 P [s; s'] ws -> exists w w', ws = [w; w'] /\ P s w /\ P s' w'.
Proof. intros H. inversion H as [|? w ? ws' H1 H2]; subst. apply forall2_1 in H2 as (w' & -> & H2). eauto. Qed.

Lemma Repeat1_makes s g : s < length (g_syms g) -> makes g (Repeat1 s g) (fun m => some (mu m s)) (some (gen s)).
Proof using Hc.
  intros Hs. unfold Repeat1. pose proof (hidden_makes N "$repeat1" g ltac:(set_solver)) as H. destruct (g_hidden "$repeat1" g) as [r g1].
  destruct H as (Hr & He & _ & Hlen & Hb). pose proof (Repeat_makes s g1 ltac:(lia)) as [K1 K2 K3 K4]. destruct (Repeat s g1) as [more g2]. simpl in K1, K2, K3, K4.
  set (g3 := snd (rule_Seq r [s; more] g2)). change (rule_Seq r [s; more] g2) with (length (g_prods g2), g3). cbv beta iota zeta.
  assert (Hr2 : r < length (g_syms g2)) by (apply (ext_syms _ _ K1); lia). split; simpl fst; simpl snd.
  - etransitivity; [exact He|]. etransitivity; [exact K1|apply ext_seq].
  - exact Hr2.
  - intros m Hm. pose proof (bd_length _ _ _ Hm) as El. destruct (K3 _ (Hb m (some (mu m s)) Hm)) as (m' & Hp & Hm' & Hmore). pose proof (bd_length _ _ _ Hm') as El'.
    assert (Hp0 : m `prefix_of` m ++ [some (mu m s)]) by (eexists; reflexivity). assert (Hl : length (m ++ [some (mu m s)]) = S r) by (rewrite length_app; simpl; lia).
    assert (Hmur : forall w, mu m' r w <-> some (mu m s) w) by (intros w; rewrite (mu_prefix _ _ r w Hp) by lia; replace r with (length m) by lia; apply mu_new).
    exists m'. split; [etransitivity; eassumption|]. split; [|intros w; apply Hmur]. pose proof (prefix_length _ _ Hp).
    apply bounded_seq; [exact Hm'|lia|repeat constructor; lia|]. intros ws (w & w' & -> & H1 & H2)%forall2_2. apply Hmur. simpl. rewrite app_nil_r.
    apply Hmore in H2 as (ws & -> & Hws). exists (w :: ws). split; [reflexivity|]. split; [|discriminate]. constructor.
    + apply (mu_prefix _ _ s w Hp), (mu_prefix _ _ s w Hp0) in H1; [exact H1|lia|lia].
    + eapply Forall_impl; [exact Hws|]. intros v. apply (mu_prefix _ _ s v Hp0). lia.
  - intros HG w (ws & -> & Hws & Hne). destruct ws as [|w ws]; [congruence|]. apply Forall_cons in Hws as [H1 H2]. simpl.
    apply (gen_prod2 r s more); [apply (ext_prods _ _ HG), in_prods_seq|exact H1|]. apply K4; [etransitivity; [apply ext_seq|exact HG]|]. exists ws. auto.
Qed.

Lemma Opt_makes s g : s < length (g_syms g) -> makes g (Opt s g) (fun m => maybe (mu m s)) (maybe (gen s)).
Proof using Hc.
  intros Hs. unfold Opt. pose proof (hidden_makes N "$opt" g ltac:(set_solver)) as H. destruct (g_hidden "$opt" g) as [r g1].
  destruct H as (Hr & He & Hby & Hlen & Hb). set (g2 := snd (rule_Seq r [] g1)). change (rule_Seq r [] g1) with (length (g_prods g1), g2). cbv beta iota zeta.
  set (g3 := snd (rule_Seq r [s] g2)). change (rule_Seq r [s] g2) with (length (g_prods g2), g3). cbv beta iota zeta.
  replace (own_symbol r g3) with (r, g3) by (symmetry; apply own_symbol_seq; exact Hby). split; simpl fst; simpl snd.
  - etransitivity; [exact He|]. etransitivity; [apply ext_seq|apply ext_seq].
  - simpl. lia.
  - intros m Hm. exists (m ++ [maybe (mu m s)]). pose proof (bd_length _ _ _ Hm) as El. assert (Hp : m `prefix_of` m ++ [maybe (mu m s)]) by (eexists; reflexivity).
    assert (Hr' : r = length m) by lia. assert (Hll : length (m ++ [maybe (mu m s)]) = S r) by (rewrite length_app; simpl; lia).
    split; [exact Hp|]. split; [|intros w; rewrite Hr', mu_new; auto].
    apply bounded_seq; [apply bounded_seq; [apply Hb, Hm|lia|constructor|]|lia|repeat constructor; lia|].
    + intros ws Hws. inversion Hws; subst ws. rewrite Hr', mu_new. left. reflexivity.
    + intros ws (w & -> & H)%forall2_1. rewrite Hr', mu_new. simpl. rewrite app_nil_r. right. apply (mu_prefix m _ s w Hp) in H; [exact H|lia].
  - intros HG w [ ->|Hw].
    + apply (gen_prod r [] []); [|constructor]. apply (ext_prods _ _ HG), ext_prods with g2; [apply ext_seq|apply in_prods_seq].
    + apply (gen_prod1 r s); [|exact Hw]. apply (ext_prods _ _ HG), in_prods_seq.
Qed.

Lemma Sep1_makes item sep g : item < length (g_syms g) -> sep < length (g_syms g) ->
  makes g (Sep1 item sep g) (fun m => listed (mu m item) (mu m sep)) (listed (gen item) (gen sep)).
Proof using Hc.
  intros Hi Hs. unfold Sep1. pose proof (hidden_makes N "$sep" g ltac:(set_solver)) as H. destruct (g_hidden "$sep" g) as [r g1].
  destruct H as (Hr & He & _ & Hlen & Hb). pose proof (hidden_makes N "$sepp" g1 ltac:(set_solver)) as H. destruct (g_hidden "$sepp" g1) as [q g2].
  destruct H as (Hq & He2 & _ & Hlen2 & Hb2). set (g3 := snd (rule_Seq q [sep; item] g2)). change (rule_Seq q [sep; item] g2) with (length (g_prods g2), g3). cbv beta iota zeta.
  pose proof (Repeat_makes q g3 ltac:(simpl; lia)) as [K1 K2 K3 K4]. destruct (Repeat q g3) as [more g4]. simpl in K1, K2, K3, K4.
  set (g5 := snd (rule_Seq r [item; more] g4)). change (rule_Seq r [item; more] g4) with (length (g_prods g4), g5). cbv beta iota zeta.
  assert (Hr2 : r < length (g_syms g4)) by (apply (ext_syms _ _ K1); simpl; lia). assert (E3 : ext g2 g3) by apply ext_seq. split; simpl fst; simpl snd.
  - etransitivity; [exact He|]. etransitivity; [exact He2|]. etransitivity; [exact E3|]. etransitivity; [exact K1|apply ext_seq].
  - exact Hr2.
  - intros m Hm. pose proof (bd_length _ _ _ Hm) as El. set (P := listed (mu m item) (mu m sep)). set (Q := conc (mu m sep) (mu m item)).
    pose proof (Hb2 _ Q (Hb m P Hm)) as Hm2. set (m2 := (m ++ [P]) ++ [Q]) in *. pose proof (bd_length _ _ _ Hm2) as El2.
    assert (Hp0 : m `prefix_of` m2) by (exists [P; Q]; unfold m2; rewrite <- (assoc_L (++)); reflexivity).
    assert (Hm3 : bounded N g3 m2).
    { apply bounded_seq; [exact Hm2|lia|repeat constructor; lia|]. intros ws (v & w & -> & H1 & H2)%forall2_2. simpl. rewrite app_nil_r.
      replace q with (length (m ++ [P])) by (rewrite length_app; simpl; lia). apply mu_new. apply (mu_prefix m) in H1; [|exact Hp0|lia]. apply (mu_prefix m) in H2; [|exact Hp0|lia].
      exists v, w. auto. }
    destruct (K3 _ Hm3) as (m' & Hp & Hm' & Hmore). pose proof (bd_length _ _ _ Hm') as El'. pose proof (prefix_length _ _ Hp).
    assert (Hmur : forall w, mu m' r w <-> P w).
    { intros w. rewrite (mu_prefix _ _ r w Hp) by lia. replace r with (length m) by lia. unfold m2. rewrite (mu_prefix (m ++ [P])) by (try (eexists; reflexivity); rewrite length_app; simpl; lia). apply mu_new. }
    exists m'. split; [etransitivity; eassumption|]. split; [|intros w; apply Hmur].
    apply bounded_seq; [exact Hm'|lia|repeat constructor; lia|]. intros ws (w & w' & -> & H1 & H2)%forall2_2. apply Hmur. simpl. rewrite app_nil_r.
    apply (mu_prefix _ _ item w Hp), (mu_prefix _ _ item w Hp0) in H1; [|lia|lia]. apply Hmore in H2.
    assert (H3 : many Q w') by (destruct H2 as (ws & -> & Hws); exists ws; split; [reflexivity|]; eapply Forall_impl; [exact Hws|]; intros v; replace q with (length (m ++ [P])) by (rewrite length_app; simpl; lia); apply mu_new).
    apply conc_many in H3 as (vs & ws & -> & Hvs). exists w, vs, ws. auto.
  - intros HG w (w0 & vs & ws & -> & Hw & Hvs). assert (HG4 : ext g4 G) by (etransitivity; [apply ext_seq|exact HG]).
    apply (gen_prod2 r item more); [apply (ext_prods _ _ HG), in_prods_seq|exact Hw|]. apply (K4 HG4).
    assert (Hpq : in_prods G q [sep; item]) by (apply (ext_prods _ _ HG4), (ext_prods _ _ K1), in_prods_seq).
    destruct (many_conc (gen item) (gen sep) vs ws Hvs) as (us & -> & Hus). exists us. split; [reflexivity|]. eapply Forall_impl; [exact Hus|].
    intros u (v & x & -> & Hv & Hx). exact (gen_prod2 q sep item v x Hpq Hv Hx).
Qed.

(** One operation after another. *)
Lemma makes_then g res res' U U' L L' : makes g res U L -> makes (snd res) res' U' L' ->
  makes g res' (fun m w => exists m', m `prefix_of` m' /\ (forall v, mu m' (fst res) v -> U m v) /\ U' m' w) (fun w => (forall v, L v -> gen (fst res) v) -> L' w).
Proof using.
  intros [A1 A2 A3 A4] [B1 B2 B3 B4]. split; [etransitivity; eassumption|exact B2| |].
  - intros m Hm. destruct (A3 m Hm) as (m1 & P1 & M1 & H1). destruct (B3 m1 M1) as (m2 & P2 & M2 & H2). exists m2. split; [etransitivity; eassumption|]. split; [exact M2|].
    intros w Hw. exists m1. auto.
  - intros HG w Hw. apply (B4 HG), Hw, A4. etransitivity; eassumption.
Qed.

Lemma Sep_makes item sep g : item < length (g_syms g) -> sep < length (g_syms g) ->
  makes g (Sep item sep g) (fun m => maybe (listed (mu m item) (mu m sep))) (maybe (listed (gen item) (gen sep))).
Proof using Hc.
  intros Hi Hs. unfold Sep. pose proof (Sep1_makes item sep g Hi Hs) as K. destruct (Sep1 item sep g) as [s g1] eqn:E.
  pose proof (makes_then _ _ _ _ _ _ _ K (Opt_makes s g1 (mk_new _ _ _ _ K))) as [M1 M2 M3 M4]. split; [exact M1|exact M2| |].
  - intros m Hm. destruct (M3 m Hm) as (m' & Hp & Hm' & H). exists m'. split; [exact Hp|]. split; [exact Hm'|]. intros w Hw.
    destruct (H w Hw) as (m1 & _ & H1 & [ ->|H2]); [left; reflexivity|right; apply H1, H2].
  - intros HG w Hw. apply (M4 HG). intros HL. destruct Hw as [ ->|Hw]; [left; reflexivity|right; apply HL, Hw].
Qed.
End grown.
