(* ===== verification/Placing.v ===== *)
(** * Placing forms

    [placeSymbol] of x/parse/form.go gives a form a symbol that stands for what
    the form stands for: no more, by the bound of the symbols, and no less in any
    grammar that extends the one it leaves. *)
From Stdlib Require Import ZArith Lia.
From stdpp Require Import base numbers option list strings gmap pretty.
From S2P Require Import Prelude Grammars Compile Lexer Derive Checked Patterns Forms Meanings.

Local Open Scope nat_scope.

Lemma bres_bind_ok {A B} (m : bres A) (k : A -> bres B) b : (x ← m; k x) = BOk b <-> exists a, m = BOk a /\ k a = BOk b.
Proof.
  destruct m as [a| |]; simpl; split; [eauto|intros (a' & [= ->] & H); exact H|discriminate|intros (a' & [=] & _)|discriminate|intros (a' & [=] & _)].
Qed.

(** An invariant of the steps of a loop. *)
Lemma bfold_ind {A B} (f : B -> A -> bres B) (P : B -> Prop) l : forall s s', bfold f s l = BOk s' -> P s ->
  (forall s s' x, x ∈ l -> f s x = BOk s' -> P s -> P s') -> P s'.
Proof.
  induction l as [|x l IH]; simpl; intros s s' H Hs Hstep; [injection H as <-; exact Hs|]. apply bres_bind_ok in H as (s1 & H1 & H).
  apply (IH s1 s' H); [exact (Hstep s s1 x ltac:(left) H1 Hs)|]. intros s2 s3 y Hy. apply Hstep. right. exact Hy.
Qed.

Section placing.
Context (h : arena) (Hwf : arena_wf h = true) (Hnames : names_plain h = true).

(** ** The arena *)

Lemma wf_lookup id fm : h !! id = Some fm -> kids_shape fm = true /\ forall k, Some k ∈ fm_kids fm -> k < id.
Proof using Hwf.
  intros H. unfold arena_wf in Hwf. rewrite forallb_forall in Hwf. specialize (Hwf (id, fm) ltac:(apply list_elem_of_In, elem_of_imap_pair, H)).
  simpl in Hwf. apply andb_true_iff in Hwf as [Hshape Hkids]. split; [exact Hshape|]. intros k Hk. rewrite forallb_forall in Hkids.
  apply list_elem_of_In in Hk. specialize (Hkids _ Hk). apply Nat.ltb_lt in Hkids. exact Hkids.
Qed.

Lemma plain_lookup id fm : h !! id = Some fm -> invented (fm_name fm) = false /\ invented (fm_text fm) = false /\ invented (fm_word fm) = false.
Proof using Hnames.
  intros H. unfold names_plain in Hnames. rewrite forallb_forall in Hnames. specialize (Hnames fm ltac:(apply list_elem_of_In, (list_elem_of_lookup_2 _ _ _ H))).
  apply andb_true_iff in Hnames as [H1 H3]. apply andb_true_iff in H1 as [H1 H2]. rewrite !negb_true_iff in *. auto.
Qed.

Lemma plain_symbol id fm n : h !! id = Some fm -> form_symbol fm = Some n -> invented n = false.
Proof using Hnames. intros H Hn. destruct (plain_lookup id fm H) as (H1 & H2 & _). unfold form_symbol in Hn. destruct (fm_kind fm); simplify_eq; assumption. Qed.

Lemma one_kid fm : length (fm_kids fm) = 1 -> exists k, fm_kids fm = [k] /\ only_kid fm = k.
Proof. unfold only_kid. destruct (fm_kids fm) as [|k [|]]; simpl; intros H; try lia. exists k. split; [reflexivity|]. destruct k; reflexivity. Qed.

Lemma all_kids fm : Forall is_Some (fm_kids fm) -> exists ks, fm_kids fm = map Some ks.
Proof. intros H. induction H as [|k ks [x ->] _ [xs E]]; [exists []; reflexivity|]. exists (x :: xs). simpl. rewrite E. reflexivity. Qed.

(** ** What the forms mean, by kind *)

Ltac inv_means H Hk := inversion H; subst; simplify_eq;
  repeat match goal with K1 : fm_kids ?f = _, K2 : fm_kids ?f = _ |- _ => rewrite K1 in K2; simplify_eq end;
  unfold form_symbol in *; try (rewrite Hk in *; try discriminate; exfalso; intuition discriminate).

Lemma means_symbol M id fm n w : h !! id = Some fm -> form_symbol fm = Some n -> means h M id w -> M n w.
Proof.
  intros Hid Hn H. inversion H; subst; simplify_eq; [assumption|..]; exfalso; unfold form_symbol in Hn; destruct (fm_kind fm); intuition discriminate.
Qed.

Lemma means_inner_iff M id fm k w : h !! id = Some fm -> (fm_kind fm = formPrec \/ fm_kind fm = formSkip \/ fm_kind fm = formMark) -> only_kid fm = Some k ->
  means h M id w <-> means h M k w.
Proof.
  intros Hid Hk Ho. split; [|intros H; exact (means_inner h M id fm k w Hid Hk Ho H)]. intros H. inversion H; subst; simplify_eq; try assumption;
    exfalso; unfold form_symbol in *; destruct (fm_kind fm); intuition discriminate.
Qed.

Lemma means_seq_inv M id fm ks w : h !! id = Some fm -> fm_kind fm = formSeq -> fm_kids fm = map Some ks -> means h M id w ->
  exists ws, w = concat ws /\ Forall2 (means h M) ks ws.
Proof.
  intros Hid Hk Hks H. inversion H as [| ? fm' ks' ws Hid' _ Hks' Hws| | | | | | | |]; subst; simplify_eq; unfold form_symbol in *;
    try (rewrite Hk in *; try discriminate; exfalso; intuition discriminate).
  rewrite Hks in Hks'. apply (inj (map Some)) in Hks' as ->. eauto.
Qed.

Lemma means_alt_inv M id fm w : h !! id = Some fm -> fm_kind fm = formAlt -> means h M id w -> exists k, Some k ∈ fm_kids fm /\ means h M k w.
Proof.
  intros Hid Hk H. inv_means H Hk. eauto.
Qed.

Lemma means_repeat_inv M id fm k w : h !! id = Some fm -> fm_kind fm = formRepeat -> only_kid fm = Some k -> means h M id w <-> many (means h M k) w.
Proof.
  intros Hid Hk Ho. split; [|intros (ws & -> & Hws); exact (means_repeat h M id fm k ws Hid Hk Ho Hws)]. intros H.
  inv_means H Hk. eexists. eauto.
Qed.

Lemma means_repeat1_inv M id fm k w : h !! id = Some fm -> fm_kind fm = formRepeat1 -> only_kid fm = Some k -> means h M id w <-> some (means h M k) w.
Proof.
  intros Hid Hk Ho. split; [|intros (ws & -> & Hws & Hne); exact (means_repeat1 h M id fm k ws Hid Hk Ho Hws Hne)]. intros H.
  inv_means H Hk. eexists. eauto.
Qed.

Lemma means_opt_inv M id fm k w : h !! id = Some fm -> fm_kind fm = formOpt -> only_kid fm = Some k -> means h M id w <-> maybe (means h M k) w.
Proof.
  intros Hid Hk Ho. split; [|intros [ ->|Hw]; [exact (means_opt_none h M id fm Hid Hk)|exact (means_opt_some h M id fm k w Hid Hk Ho Hw)]]. intros H.
  inv_means H Hk; [left; reflexivity|right; assumption].
Qed.

Lemma means_sep1_inv M id fm i s w : h !! id = Some fm -> fm_kind fm = formSep1 -> fm_kids fm = [Some i; Some s] -> means h M id w <-> listed (means h M i) (means h M s) w.
Proof.
  intros Hid Hk Ho. split; [|intros (w0 & vs & ws & -> & Hw & Hvs); exact (means_sep h M id fm i s w0 vs ws Hid (or_intror Hk) Ho Hw Hvs)]. intros H.
  inv_means H Hk. eexists _, _, _. eauto.
Qed.

Lemma means_sep_inv M id fm i s w : h !! id = Some fm -> fm_kind fm = formSep -> fm_kids fm = [Some i; Some s] -> means h M id w <-> maybe (listed (means h M i) (means h M s)) w.
Proof.
  intros Hid Hk Ho. split.
  - intros H. inv_means H Hk;
      [left; reflexivity|right; eexists _, _, _; eauto].
  - intros [ ->|(w0 & vs & ws & -> & Hw & Hvs)]; [exact (means_sep_none h M id fm Hid Hk)|exact (means_sep h M id fm i s w0 vs ws Hid (or_introl Hk) Ho Hw Hvs)].
Qed.

(** ** Peeling *)

Lemma peel_loop_means fuel : forall f info f' info', peel_loop fuel h (Some f) info = BOk (Some f', info') ->
  (forall M w, means h M f w <-> means h M f' w) /\ exists fm, h !! f' = Some fm /\ fm_kind fm <> formPrec.
Proof using Hwf.
  induction fuel as [|fuel IH]; intros f info f' info' H; simpl in H; [discriminate|]. destruct (h !! f) as [fm|] eqn:Ef; [|discriminate].
  case_bool_decide as Ek.
  - destruct (wf_lookup f fm Ef) as [Hs _]. unfold kids_shape in Hs. rewrite Ek in Hs. apply bool_decide_eq_true, one_kid in Hs as (k & Hk & Ho). rewrite Hk in H.
    destruct k as [k|]; [|destruct fuel; discriminate]. destruct (IH _ _ _ _ H) as [H1 H2]. split; [|exact H2]. intros M w. rewrite <- H1.
    apply (means_inner_iff M f fm k w Ef (or_introl Ek) Ho).
  - injection H as <- <-. split; [reflexivity|eauto].
Qed.

Lemma peel_means f f' info : peel h (Some f) = BOk (Some f', info) ->
  (forall M w, means h M f w <-> means h M f' w) /\ exists fm, h !! f' = Some fm /\ fm_kind fm <> formPrec.
Proof using Hwf. apply peel_loop_means. Qed.

(** ** The state of placing *)

Section state.
Context (N : string -> lang) (G : Grammar) (c : compiler) (Hc : prepareCompiler G = Some c).

(** The tokens placed are the symbols of their names. *)
Definition seen_ok (p : placer) : Prop := forall id s, pl_seen p !! id = Some s ->
  exists fm n, h !! id = Some fm /\ form_symbol fm = Some n /\ g_byName (pl_g p) !! n = Some s.

Record placing_ok (p : placer) (m : list lang) : Prop := {
  po_bounded : bounded N (pl_g p) m;
  po_seen : seen_ok p }.

Record steps (p p' : placer) (m m' : list lang) : Prop := {
  st_ext : ext (pl_g p) (pl_g p');
  st_prefix : m `prefix_of` m';
  st_ok : placing_ok p' m' }.

Lemma steps_refl p m : placing_ok p m -> steps p p m m.
Proof using. intros H. split; [reflexivity|reflexivity|exact H]. Qed.

Lemma steps_trans p1 p2 p3 m1 m2 m3 : steps p1 p2 m1 m2 -> steps p2 p3 m2 m3 -> steps p1 p3 m1 m3.
Proof using. intros [A1 A2 A3] [B1 B2 B3]. split; [etransitivity; eassumption|etransitivity; eassumption|exact B3]. Qed.

Lemma seen_ok_ext p g' : seen_ok p -> ext (pl_g p) g' -> seen_ok (mkPlacer g' (pl_seen p)).
Proof using Hnames.
  intros Hs He id s H. destruct (Hs id s H) as (fm & n & K1 & K2 & K3). exists fm, n. split; [exact K1|]. split; [exact K2|].
  apply (ext_byName _ _ He); [exact (plain_symbol id fm n K1 K2)|exact K3].
Qed.

(** Names of the finished grammar derive what [M] says of them. *)
Definition derivable (M : string -> lang) : Prop := forall n w id, invented n = false -> M n w -> g_byName G !! n = Some id -> gen G c id w.

(** In a grammar that extends [p]'s the symbol derives what the form means. *)
Definition derives_form (p : placer) (s f : nat) : Prop := ext (pl_g p) G -> forall M, derivable M -> forall w, means h M f w -> gen G c s w.

Lemma derives_form_ext p p' s f : derives_form p s f -> ext (pl_g p) (pl_g p') -> derives_form p' s f.
Proof using. intros H He HG. apply H. etransitivity; eassumption. Qed.

Record placed (p p' : placer) (m m' : list lang) (s f : nat) : Prop := {
  pc_steps : steps p p' m m';
  pc_new : s < length m';
  pc_upper w : mu m' s w -> means h N f w;
  pc_lower : derives_form p' s f }.

(** A symbol that has the form's name. *)
Lemma placed_name p p' m f fm n s : placing_ok p m -> h !! f = Some fm -> form_symbol fm = Some n ->
  g_byName (pl_g p') !! n = Some s -> evolves N (pl_g p) (pl_g p') -> seen_ok p' -> exists m', placed p p' m m' s f.
Proof using Hnames.
  intros Hp Hf Hn Hs [He Hb] Hseen. destruct (Hb m (po_bounded _ _ Hp)) as (m' & Hm & Hm'). exists m'.
  pose proof (plain_symbol f fm n Hf Hn) as Hinv. destruct (bd_byName _ _ _ Hm' n s Hinv Hs) as (K1 & K2 & K3). split.
  - split; [exact He|exact Hm|split; assumption].
  - lia.
  - intros w Hw. apply (means_named h N f fm n w Hf Hn), K3, Hw.
  - intros HG M HM w Hw. apply (HM n w s Hinv (means_symbol M f fm n w Hf Hn Hw)). exact (ext_byName _ _ HG n s Hinv Hs).
Qed.

(** The same for an operation on the grammar. *)
Lemma placed_op p m f fm n (op : Grammar -> nat * Grammar) s p' : placing_ok p m -> h !! f = Some fm -> form_symbol fm = Some n ->
  (let '(s, g) := op (pl_g p) in g_byName g !! n = Some s /\ evolves N (pl_g p) g) -> on_grammar op p = (s, p') -> exists m', placed p p' m m' s f.
Proof using Hnames.
  intros Hp Hf Hn Hop E. unfold on_grammar in E. destruct (op (pl_g p)) as [s0 g0]. injection E as <- <-. destruct Hop as [H1 H2].
  apply (placed_name p (mkPlacer g0 (pl_seen p)) m f fm n s0 Hp Hf Hn H1 H2). apply seen_ok_ext; [exact (po_seen _ _ Hp)|apply H2].
Qed.

(** ** Tokens *)

Lemma place_matcher_evolves f s g : evolves N g (place_matcher f s g).
Proof using.
  unfold place_matcher. destruct (fm_hasPattern f); [destruct (bp_prev _)|destruct (fm_match f); [|reflexivity]]; (apply evolves_alter; [split; auto|auto]).
Qed.

Lemma place_matcher_byName f s g : g_byName (place_matcher f s g) = g_byName g.
Proof using. unfold place_matcher. destruct (fm_hasPattern f); [destruct (bp_prev _)|destruct (fm_match f)]; reflexivity. Qed.

Lemma place_lex_evolves f s g : evolves N g (place_lex f s g).
Proof using. unfold place_lex. destruct (fm_hasLex f); [|reflexivity]. apply evolves_alter; [split; auto|auto]. Qed.

Lemma place_lex_byName f s g : g_byName (place_lex f s g) = g_byName g.
Proof using. unfold place_lex. destruct (fm_hasLex f); reflexivity. Qed.

Lemma placeToken_placed p m f s p' : placing_ok p m -> placeToken h (Some f) p = BOk (s, p') -> exists m', placed p p' m m' s f.
Proof using Hnames.
  intros Hp H. unfold placeToken in H. destruct (pl_seen p !! f) as [s0|] eqn:Es.
  { injection H as <- <-. destruct (po_seen _ _ Hp f s0 Es) as (fm & n & K1 & K2 & K3).
    exact (placed_name p p m f fm n s0 Hp K1 K2 K3 (reflexivity _) (po_seen _ _ Hp)). }
  destruct (h !! f) as [fm|] eqn:Ef; [|discriminate].
  assert (Hplaced : forall n s0 g, form_symbol fm = Some n -> g_byName g !! n = Some s0 -> evolves N (pl_g p) g ->
    exists m', placed p (mkPlacer (place_lex fm s0 g) (<[f := s0]> (pl_seen p))) m m' s0 f).
  { intros n s0 g Hn Hs Hg. assert (He : evolves N (pl_g p) (place_lex fm s0 g)) by (etransitivity; [exact Hg|apply place_lex_evolves]).
    apply (placed_name p _ m f fm n s0 Hp Ef Hn); simpl; [rewrite place_lex_byName; exact Hs|exact He|]. intros id s1. simpl. intros [[<- <-]|[_ H1]]%lookup_insert_Some.
    - exists fm, n. simpl. rewrite place_lex_byName. auto.
    - exact (seen_ok_ext p _ (po_seen _ _ Hp) (proj1 He) id s1 H1). }
  assert (Hsym := plain_symbol f fm). destruct (plain_lookup f fm Ef) as (_ & _ & Hword). unfold form_symbol in Hplaced, Hsym. destruct (fm_kind fm); try discriminate.
  - pose proof (Token_named N (fm_name fm) (pl_g p) (Hsym _ Ef eq_refl)) as K. destruct (Token (fm_name fm) (pl_g p)) as [s0 g]. destruct K as [K1 K2].
    destruct (_ && _); [discriminate|]. injection H as <- <-. apply (Hplaced (fm_name fm)); [reflexivity|rewrite place_matcher_byName; exact K1|].
    etransitivity; [exact K2|apply place_matcher_evolves].
  - pose proof (Token_named N (fm_name fm) (pl_g p) (Hsym _ Ef eq_refl)) as K. destruct (Token (fm_name fm) (pl_g p)) as [s0 g]. destruct K as [K1 K2].
    destruct (_ || _); [discriminate|]. injection H as <- <-. apply (Hplaced (fm_name fm)); [reflexivity|exact K1|].
    etransitivity; [exact K2|exact (Word_evolves N (fm_name fm) _ _ s0 g (Hsym _ Ef eq_refl) K1)].
  - pose proof (Sym_named N (fm_word fm) (pl_g p) Hword) as K. destruct (Sym (fm_word fm) (pl_g p)) as [w0 g]. destruct K as [_ K2].
    pose proof (Keyword_named N (fm_text fm) w0 g (Hsym _ Ef eq_refl)) as K. destruct (Keyword (fm_text fm) w0 g) as [s0 g']. destruct K as [K1 K3].
    injection H as <- <-. apply (Hplaced (fm_text fm)); [reflexivity|exact K1|]. etransitivity; eassumption.
Qed.

(** ** Alternatives *)

Lemma alternative_steps p m r syms info : placing_ok p m -> r < length m -> Forall (fun s => s < length m) syms ->
  (forall ws, Forall2 (mu m) syms ws -> mu m r (concat ws)) ->
  steps p (place_alternative r syms info p) m m /\ in_prods (pl_g (place_alternative r syms info p)) r syms.
Proof using Hnames.
  intros [Hb Hs] Hr Hsyms Hclosed. unfold place_alternative, on_grammar. change (rule_Seq r syms (pl_g p)) with (length (g_prods (pl_g p)), snd (rule_Seq r syms (pl_g p))).
  cbv beta iota zeta. set (g1 := snd (rule_Seq r syms (pl_g p))). simpl pl_g. simpl pl_seen. pose proof (prec_apply_same info (length (g_prods (pl_g p))) g1) as Hsame.
  assert (He : ext (pl_g p) (prec_apply info (length (g_prods (pl_g p))) g1)) by (etransitivity; [apply ext_seq|apply same_rules_ext, Hsame]).
  split; [split|].
  - exact He.
  - reflexivity.
  - split; [|exact (seen_ok_ext p _ Hs He)]. apply (same_rules_bounded N g1 _ m Hsame). apply bounded_seq; assumption.
  - apply (ext_prods _ _ (same_rules_ext _ _ Hsame)), in_prods_seq.
Qed.

Lemma placed_makes p p1 m m1 f op U L s p' : steps p p1 m m1 -> makes N G c (pl_g p1) (op (pl_g p1)) U L -> on_grammar op p1 = (s, p') ->
  (forall w, U m1 w -> means h N f w) -> (forall M, ext (pl_g p1) G -> derivable M -> forall w, means h M f w -> L w) -> exists m', placed p p' m m' s f.
Proof using Hnames.
  intros Hst [M1 M2 M3 M4] E HU HL. unfold on_grammar in E. destruct (op (pl_g p1)) as [s0 g0]. injection E as <- <-. simpl in *.
  destruct (M3 m1 (po_bounded _ _ (st_ok _ _ _ _ Hst))) as (m' & Hp & Hm' & Hup). exists m'. split.
  - apply (steps_trans _ _ _ _ _ _ Hst). split; [exact M1|exact Hp|]. split; [exact Hm'|]. apply seen_ok_ext; [exact (po_seen _ _ (st_ok _ _ _ _ Hst))|exact M1].
  - rewrite (bd_length _ _ _ Hm'). exact M2.
  - intros w Hw. apply HU, Hup, Hw.
  - intros HG M HM w Hw. apply (M4 HG). apply (HL M); [etransitivity; [exact M1|exact HG]|exact HM|exact Hw].
Qed.

Lemma many_mono (P Q : lang) w : (forall v, P v -> Q v) -> many P w -> many Q w.
Proof using. intros H (ws & -> & Hws). exists ws. split; [reflexivity|]. eapply Forall_impl; eauto. Qed.
Lemma some_mono (P Q : lang) w : (forall v, P v -> Q v) -> some P w -> some Q w.
Proof using. intros H (ws & -> & Hws & Hne). exists ws. split; [reflexivity|]. split; [eapply Forall_impl; eauto|exact Hne]. Qed.
Lemma maybe_mono (P Q : lang) w : (forall v, P v -> Q v) -> maybe P w -> maybe Q w.
Proof using. intros H [ ->|Hw]; [left; reflexivity|right; auto]. Qed.
Lemma listed_mono (P P' Q Q' : lang) w : (forall v, P v -> P' v) -> (forall v, Q v -> Q' v) -> listed P Q w -> listed P' Q' w.
Proof using.
  intros H H' (w0 & vs & ws & -> & Hw & Hvs). exists w0, vs, ws. split; [reflexivity|]. split; [auto|]. eapply Forall2_impl; [exact Hvs|]. intros v u [K1 K2]. auto.
Qed.

(** What is proved of a symbol placed earlier holds later. *)
Lemma placed_later p1 p2 p3 m1 m2 m3 s f : placed p1 p2 m1 m2 s f -> steps p2 p3 m2 m3 -> placed p1 p3 m1 m3 s f.
Proof using.
  intros [H1 H2 H3 H4] Hst. pose proof (st_prefix _ _ _ _ Hst) as Hp. split.
  - exact (steps_trans _ _ _ _ _ _ H1 Hst).
  - pose proof (prefix_length _ _ Hp). lia.
  - intros w Hw. apply H3, (mu_prefix _ _ s w Hp H2), Hw.
  - exact (derives_form_ext _ _ _ _ H4 (st_ext _ _ _ _ Hst)).
Qed.

(** The symbols of a sequence. *)
Definition places (place : option nat -> placer -> bres (nat * placer)) : Prop :=
  forall f p m s p', placing_ok p m -> place (Some f) p = BOk (s, p') -> exists m', placed p p' m m' s f.

Lemma place_parts place ks : places place -> forall acc p m syms p', placing_ok p m ->
  bfold (fun '(syms, p) k => '(s, p) ← place k p; BOk (syms ++ [s], p)) (acc, p) (map Some ks) = BOk (syms, p') ->
  exists ss m', syms = acc ++ ss /\ steps p p' m m' /\ Forall2 (fun s k => placed p p' m m' s k) ss ks.
Proof using.
  intros Hplace. induction ks as [|k ks IH]; intros acc p m syms p' Hp H; simpl in H.
  - injection H as <- <-. exists [], m. rewrite app_nil_r. split; [reflexivity|]. split; [apply steps_refl, Hp|constructor].
  - apply bres_bind_ok in H as ([syms1 p1] & H1 & H). apply bres_bind_ok in H1 as ([s p1'] & H1 & [= <- <-]).
    destruct (Hplace k p m s p1' Hp H1) as (m1 & Hk). pose proof (pc_steps _ _ _ _ _ _ Hk) as Hst.
    destruct (IH _ _ m1 _ _ (st_ok _ _ _ _ Hst) H) as (ss & m' & -> & Hst' & Hss). exists (s :: ss), m'. rewrite <- (assoc_L (++)). split; [reflexivity|].
    split; [exact (steps_trans _ _ _ _ _ _ Hst Hst')|]. constructor; [exact (placed_later _ _ _ _ _ _ _ _ Hk Hst')|].
    eapply Forall2_impl; [exact Hss|]. intros s' k' [A1 A2 A3 A4]. split; [exact (steps_trans _ _ _ _ _ _ Hst A1)|exact A2|exact A3|exact A4].
Qed.

(** The alternatives of a rule whose bound has room for them. *)
Definition alternatives (alts : nat -> option nat -> precInfo -> placer -> bres placer) : Prop :=
  forall r f inh p m p', placing_ok p m -> r < length m -> (forall w, means h N f w -> mu m r w) -> alts r (Some f) inh p = BOk p' ->
    exists m', steps p p' m m' /\ derives_form p' r f.

Lemma place_choices alts r info ks : alternatives alts -> forall p m p', placing_ok p m -> r < length m ->
  (forall k w, k ∈ ks -> means h N k w -> mu m r w) -> bfold (fun p k => alts r k info p) p (map Some ks) = BOk p' ->
  exists m', steps p p' m m' /\ forall k, k ∈ ks -> derives_form p' r k.
Proof using.
  intros Halts. induction ks as [|k ks IH]; intros p m p' Hp Hr Hroom H; simpl in H.
  - injection H as <-. exists m. split; [apply steps_refl, Hp|]. intros k []%not_elem_of_nil.
  - apply bres_bind_ok in H as (p1 & H1 & H). destruct (Halts r k info p m p1 Hp Hr ltac:(intros w; apply Hroom; left) H1) as (m1 & Hst & Hk).
    pose proof (st_prefix _ _ _ _ Hst) as Hpre. pose proof (prefix_length _ _ Hpre).
    destruct (IH p1 m1 p' (st_ok _ _ _ _ Hst)) as (m' & Hst' & Hks); [lia| |exact H|].
    + intros k' w Hk' Hw. apply (mu_prefix_1 _ _ r w Hpre), (Hroom k'); [right; exact Hk'|exact Hw].
    + exists m'. split; [exact (steps_trans _ _ _ _ _ _ Hst Hst')|]. intros k' [ ->|Hk']%elem_of_cons; [|exact (Hks k' Hk')].
      exact (derives_form_ext _ _ _ _ Hk (st_ext _ _ _ _ Hst')).
Qed.

(** An invented rule for a sequence or a choice. *)
Lemma place_hidden alts prefix f p m s p' : alternatives alts -> placing_ok p m -> (prefix +:+ "#")%string ∈ inventions ->
  (let '(r, p) := on_grammar (g_hidden prefix) p in p ← alts r (Some f) noPrec p; BOk (r, p)) = BOk (s, p') -> exists m', placed p p' m m' s f.
Proof using Hnames.
  intros Halts Hp Hin H. unfold on_grammar in H. pose proof (hidden_makes N prefix (pl_g p) Hin) as K. destruct (g_hidden prefix (pl_g p)) as [r g1].
  destruct K as (Hr & He & _ & Hlen & Hb). apply bres_bind_ok in H as (p1 & H & [= -> ->]).
  pose proof (bd_length _ _ _ (po_bounded _ _ Hp)) as Hl. set (m1 := m ++ [means h N f]).
  assert (Hst1 : steps p (mkPlacer g1 (pl_seen p)) m m1).
  { split; [exact He|exists [means h N f]; reflexivity|]. split; [apply Hb, Hp|exact (seen_ok_ext p g1 (po_seen _ _ Hp) He)]. }
  assert (Hmu : forall w, mu m1 s w <-> means h N f w) by (intros w; replace s with (length m) by lia; apply mu_new).
  destruct (Halts s f noPrec (mkPlacer g1 (pl_seen p)) m1 p' (st_ok _ _ _ _ Hst1)) as (m' & Hst & Hd); [unfold m1; rewrite length_app; simpl; lia|intros w; apply Hmu|exact H|].
  pose proof (st_prefix _ _ _ _ Hst) as Hpre. pose proof (prefix_length _ _ Hpre) as Hpl. unfold m1 in Hpl. rewrite length_app in Hpl. simpl in Hpl. exists m'. split.
  - exact (steps_trans _ _ _ _ _ _ Hst1 Hst).
  - lia.
  - intros w Hw. apply Hmu, (mu_prefix _ _ s w Hpre); [unfold m1; rewrite length_app; simpl; lia|exact Hw].
  - exact Hd.
Qed.

(** ** Symbols *)

(** One level of [placeAlts]. *)
Lemma place_body place alts r body fm info p m p' : places place -> alternatives alts -> placing_ok p m -> r < length m ->
  (forall w, means h N body w -> mu m r w) -> h !! body = Some fm ->
  match fm_kind fm with
  | formAlt => match fm_kids fm with [] => BErr | kids => bfold (fun p k => alts r k info p) p kids end
  | formSeq =>
      '(syms, p) ← bfold (fun '(syms, p) k => '(s, p) ← place k p; BOk (syms ++ [s], p)) ([], p) (fm_kids fm);
      BOk (place_alternative r syms info p)
  | formCompose | formSkip | formScan | formStart => BErr
  | _ => '(s, p) ← place (Some body) p; BOk (place_alternative r [s] info p)
  end = BOk p' -> exists m', steps p p' m m' /\ derives_form p' r body.
Proof using Hwf Hnames Hc.
  intros Hplace Halts Hp Hr Hroom Ef H. destruct (wf_lookup body fm Ef) as [Hs _]. unfold kids_shape in Hs.
  assert (Hone : ('(s, p) ← place (Some body) p; BOk (place_alternative r [s] info p)) = BOk p' -> exists m', steps p p' m m' /\ derives_form p' r body).
  { intros H1. apply bres_bind_ok in H1 as ([s p1] & H1 & [= <-]). destruct (Hplace body p m s p1 Hp H1) as (m1 & [A1 A2 A3 A4]).
    pose proof (st_prefix _ _ _ _ A1) as Hpre. pose proof (prefix_length _ _ Hpre).
    destruct (alternative_steps p1 m1 r [s] info (st_ok _ _ _ _ A1)) as [B1 B2]; [lia|repeat constructor; lia| |].
    - intros ws (w & -> & Hw)%forall2_1. simpl. rewrite app_nil_r. apply (mu_prefix_1 _ _ r w Hpre), Hroom, A3, Hw.
    - exists m1. split; [exact (steps_trans _ _ _ _ _ _ A1 B1)|]. intros HG M HM w Hw. apply (gen_prod1 G c Hc r s w (ext_prods _ _ HG _ _ B2)).
      apply (A4 ltac:(etransitivity; [exact (st_ext _ _ _ _ B1)|exact HG]) M HM w Hw). }
  destruct (fm_kind fm) eqn:Ek; try discriminate; try exact (Hone H); clear Hone.
  - apply bool_decide_eq_true, all_kids in Hs as (ks & Hks). rewrite Hks in H. apply bres_bind_ok in H as ([syms p1] & H & [= <-]).
    destruct (place_parts place ks Hplace [] p m syms p1 Hp H) as (ss & m1 & -> & A1 & A2). pose proof (st_prefix _ _ _ _ A1) as Hpre. pose proof (prefix_length _ _ Hpre).
    destruct (alternative_steps p1 m1 r ss info (st_ok _ _ _ _ A1)) as [B1 B2].
    + lia.
    + clear -A2. induction A2 as [|s k ss ks Hk _ IH]; constructor; [exact (pc_new _ _ _ _ _ _ Hk)|exact IH].
    + intros ws Hws. apply (mu_prefix_1 _ _ r _ Hpre), Hroom. apply (means_seq h N body fm ks ws Ef Ek Hks). clear -A2 Hws. revert ws Hws.
      induction A2 as [|s k ss ks Hk _ IH]; intros ws Hws; inversion Hws; subst; constructor; [apply (pc_upper _ _ _ _ _ _ Hk); assumption|auto].
    + exists m1. split; [exact (steps_trans _ _ _ _ _ _ A1 B1)|]. intros HG M HM w Hw. destruct (means_seq_inv M body fm ks w Ef Ek Hks Hw) as (ws & -> & Hws).
      apply (gen_prod G c Hc r ss ws (ext_prods _ _ HG _ _ B2)). assert (HG1 : ext (pl_g p1) G) by (etransitivity; [exact (st_ext _ _ _ _ B1)|exact HG]).
      clear -A2 Hws HG1 HM. revert ws Hws. induction A2 as [|s k ss ks Hk _ IH]; intros ws Hws; inversion Hws; subst; constructor; [|auto].
      apply (pc_lower _ _ _ _ _ _ Hk HG1 M HM). assumption.
  - apply bool_decide_eq_true, all_kids in Hs as (ks & Hks). assert (H' : bfold (fun p k => alts r k info p) p (map Some ks) = BOk p').
    { rewrite Hks in H. destruct ks; [discriminate|exact H]. }
    destruct (place_choices alts r info ks Halts p m p' Hp Hr) as (m' & A1 & A2); [|exact H'|].
    + intros k w Hk Hw. apply Hroom, (means_alt h N body fm k w Ef Ek); [|exact Hw]. rewrite Hks. apply list_elem_of_fmap. eauto.
    + exists m'. split; [exact A1|]. intros HG M HM w Hw. destruct (means_alt_inv M body fm w Ef Ek Hw) as (k & Hk & Hw'). rewrite Hks in Hk.
      apply list_elem_of_fmap in Hk as (k' & [= <-] & Hk). exact (A2 k Hk HG M HM w Hw').
Qed.

(** A child that a symbol is placed for is not nil. *)
Lemma some_kid {A} (place : option nat -> placer -> bres (nat * placer)) k p (go : nat -> placer -> bres A) a : (forall p x, place None p <> BOk x) ->
  ('(s, p) ← place k p; go s p) = BOk a -> exists k', k = Some k'.
Proof using.
  intros Hnil H. destruct k as [k|]; [eauto|]. specialize (Hnil p). destruct (place None p) as [x| |]; [destruct (Hnil x eq_refl)|discriminate|discriminate].
Qed.

(** An operation on the symbol of one child, and on those of two. *)
Lemma place_one place (op : nat -> Grammar -> nat * Grammar) (U L : lang -> lang) f k p m s p' : places place -> placing_ok p m ->
  (forall s g, s < length (g_syms g) -> makes N G c g (op s g) (fun m => U (mu m s)) (L (gen G c s))) ->
  (forall P w, (forall v, P v -> means h N k v) -> U P w -> means h N f w) ->
  (forall M w P, means h M f w -> (forall v, means h M k v -> P v) -> L P w) ->
  ('(s, p) ← place (Some k) p; BOk (on_grammar (op s) p)) = BOk (s, p') -> exists m', placed p p' m m' s f.
Proof using Hnames.
  intros Hplace Hp Hop HU HL H. apply bres_bind_ok in H as ([s1 p1] & H1 & H2). destruct (Hplace k p m s1 p1 Hp H1) as (m1 & [A1 A2 A3 A4]).
  assert (E2 : on_grammar (op s1) p1 = (s, p')) by congruence.
  apply (placed_makes p p1 m m1 f (op s1) _ _ s p' A1 (Hop s1 (pl_g p1) ltac:(rewrite <- (bd_length _ _ _ (po_bounded _ _ (st_ok _ _ _ _ A1))); exact A2)) E2).
  - intros w Hw. exact (HU _ w A3 Hw).
  - intros M HG HM w Hw. apply (HL M w _ Hw). exact (A4 HG M HM).
Qed.

Lemma place_two place (op : nat -> nat -> Grammar -> nat * Grammar) (U L : lang -> lang -> lang) f i s0 p m s p' : places place -> placing_ok p m ->
  (forall i s g, i < length (g_syms g) -> s < length (g_syms g) -> makes N G c g (op i s g) (fun m => U (mu m i) (mu m s)) (L (gen G c i) (gen G c s))) ->
  (forall (P Q : lang) w, (forall v, P v -> means h N i v) -> (forall v, Q v -> means h N s0 v) -> U P Q w -> means h N f w) ->
  (forall M w (P Q : lang), means h M f w -> (forall v, means h M i v -> P v) -> (forall v, means h M s0 v -> Q v) -> L P Q w) ->
  ('(item, p) ← place (Some i) p; '(sep, p) ← place (Some s0) p; BOk (on_grammar (op item sep) p)) = BOk (s, p') -> exists m', placed p p' m m' s f.
Proof using Hnames.
  intros Hplace Hp Hop HU HL H. apply bres_bind_ok in H as ([s1 p1] & H1 & H2). destruct (Hplace i p m s1 p1 Hp H1) as (m1 & A).
  apply bres_bind_ok in H2 as ([s2 p2] & H2 & H3). destruct (Hplace s0 p1 m1 s2 p2 (st_ok _ _ _ _ (pc_steps _ _ _ _ _ _ A)) H2) as (m2 & [B1 B2 B3 B4]).
  pose proof (placed_later _ _ _ _ _ _ _ _ A B1) as [A1 A2 A3 A4]. assert (E2 : on_grammar (op s1 s2) p2 = (s, p')) by congruence.
  pose proof (bd_length _ _ _ (po_bounded _ _ (st_ok _ _ _ _ A1))) as Hl.
  apply (placed_makes p p2 m m2 f (op s1 s2) _ _ s p' A1 (Hop s1 s2 (pl_g p2) ltac:(lia) ltac:(lia)) E2).
  - intros w Hw. exact (HU _ _ w A3 B3 Hw).
  - intros M HG HM w Hw. apply (HL M w _ _ Hw); [exact (A4 HG M HM)|exact (B4 HG M HM)].
Qed.

(** A form that stands for its only child. *)
Lemma place_inner place f fm k p m s p' : places place -> placing_ok p m -> h !! f = Some fm -> fm_kind fm = formSkip \/ fm_kind fm = formMark -> only_kid fm = Some k ->
  place (Some k) p = BOk (s, p') -> exists m', placed p p' m m' s f.
Proof using.
  intros Hplace Hp Ef Ek Ho H. destruct (Hplace k p m s p' Hp H) as (m1 & [A1 A2 A3 A4]). exists m1. split; [exact A1|exact A2| |].
  - intros w Hw. apply (means_inner_iff N f fm k w Ef (or_intror Ek) Ho), A3, Hw.
  - intros HG M HM w Hw. apply (A4 HG M HM), (means_inner_iff M f fm k w Ef (or_intror Ek) Ho), Hw.
Qed.

(** One level of [placeSymbol]. *)
Lemma place_level place alts f fm p m s p' : places place -> alternatives alts -> (forall p x, place None p <> BOk x) ->
  placing_ok p m -> h !! f = Some fm ->
  match fm_kind fm with
  | formRef => if bool_decide (fm_name fm = EmptyString) then BErr else BOk (on_grammar (Sym (fm_name fm)) p)
  | formLit => BOk (on_grammar (Literal (fm_text fm)) p)
  | formTok | formWord | formKey => placeToken h (Some f) p
  | formRepeat | formRepeat1 | formOpt =>
      match fm_kids fm with
      | [k] =>
          '(s, p) ← place k p;
          BOk (on_grammar (match fm_kind fm with formRepeat => Repeat s | formRepeat1 => Repeat1 s | _ => Opt s end) p)
      | _ => BErr
      end
  | formSep | formSep1 =>
      match fm_kids fm with
      | [i; s] =>
          '(item, p) ← place i p;
          '(sep, p) ← place s p;
          BOk (on_grammar (match fm_kind fm with formSep => Sep item sep | _ => Sep1 item sep end) p)
      | _ => BErr
      end
  | formSeq => let '(r, p) := on_grammar (g_hidden "$seq") p in p ← alts r (Some f) noPrec p; BOk (r, p)
  | formAlt => let '(r, p) := on_grammar (g_hidden "$alt") p in p ← alts r (Some f) noPrec p; BOk (r, p)
  | formEq => if bool_decide (fm_name fm = EmptyString) then BErr else BOk (on_grammar (Sym (fm_name fm)) p)
  | formPrec => BErr
  | formSkip | formMark => match only_kid fm with None => BErr | Some k => place (Some k) p end
  | formScan | formStart | formCompose => BErr
  end = BOk (s, p') -> exists m', placed p p' m m' s f.
Proof using Hwf Hnames Hc.
  intros Hplace Halts Hnil Hp Ef H.
  assert (Hsym : forall n, form_symbol fm = Some n -> invented n = false) by (intros n; exact (plain_symbol f fm n Ef)).
  assert (Hname : forall n (op : Grammar -> nat * Grammar), form_symbol fm = Some n -> (let '(s, g) := op (pl_g p) in g_byName g !! n = Some s /\ evolves N (pl_g p) g) ->
    BOk (on_grammar op p) = BOk (s, p') -> exists m', placed p p' m m' s f).
  { intros n op Hn Hop E. apply (placed_op p m f fm n op s p' Hp Ef Hn Hop). congruence. }
  unfold form_symbol in *. destruct (fm_kind fm) eqn:Ek; try discriminate; try exact (placeToken_placed p m f s p' Hp H);
    try (case_bool_decide; [discriminate|]; apply (Hname (fm_name fm) (Sym (fm_name fm)) eq_refl); [apply Sym_named; auto|exact H]).
  - apply (Hname (fm_text fm) (Literal (fm_text fm)) eq_refl); [apply Literal_named; auto|exact H].
  - exact (place_hidden alts "$seq" f p m s p' Halts Hp ltac:(set_solver) H).
  - exact (place_hidden alts "$alt" f p m s p' Halts Hp ltac:(set_solver) H).
  - destruct (fm_kids fm) as [|k [|]] eqn:Hks; try discriminate. destruct (some_kid place k p _ _ Hnil H) as [k' ->].
    assert (Ho : only_kid fm = Some k') by (unfold only_kid; rewrite Hks; reflexivity).
    refine (place_one place Repeat many many f k' p m s p' Hplace Hp (Repeat_makes N G c Hc) _ _ H).
    + intros P w HP Hw. apply (means_repeat_inv N f fm k' w Ef Ek Ho). exact (many_mono _ _ w HP Hw).
    + intros M w P Hw HP. apply (means_repeat_inv M f fm k' w Ef Ek Ho) in Hw. exact (many_mono _ _ w HP Hw).
  - destruct (fm_kids fm) as [|k [|]] eqn:Hks; try discriminate. destruct (some_kid place k p _ _ Hnil H) as [k' ->].
    assert (Ho : only_kid fm = Some k') by (unfold only_kid; rewrite Hks; reflexivity).
    refine (place_one place Repeat1 some some f k' p m s p' Hplace Hp (Repeat1_makes N G c Hc) _ _ H).
    + intros P w HP Hw. apply (means_repeat1_inv N f fm k' w Ef Ek Ho). exact (some_mono _ _ w HP Hw).
    + intros M w P Hw HP. apply (means_repeat1_inv M f fm k' w Ef Ek Ho) in Hw. exact (some_mono _ _ w HP Hw).
  - destruct (fm_kids fm) as [|k [|]] eqn:Hks; try discriminate. destruct (some_kid place k p _ _ Hnil H) as [k' ->].
    assert (Ho : only_kid fm = Some k') by (unfold only_kid; rewrite Hks; reflexivity).
    refine (place_one place Opt maybe maybe f k' p m s p' Hplace Hp (Opt_makes N G c Hc) _ _ H).
    + intros P w HP Hw. apply (means_opt_inv N f fm k' w Ef Ek Ho). exact (maybe_mono _ _ w HP Hw).
    + intros M w P Hw HP. apply (means_opt_inv M f fm k' w Ef Ek Ho) in Hw. exact (maybe_mono _ _ w HP Hw).
  - destruct (fm_kids fm) as [|i [|s0 [|]]] eqn:Hks; try discriminate. destruct (some_kid place i p _ _ Hnil H) as [i' ->].
    pose proof H as H'. apply bres_bind_ok in H' as ([x q] & _ & H'). destruct (some_kid place s0 q _ _ Hnil H') as [s' ->].
    refine (place_two place Sep (fun P Q => maybe (listed P Q)) (fun P Q => maybe (listed P Q)) f i' s' p m s p' Hplace Hp (Sep_makes N G c Hc) _ _ H).
    + intros P Q w HP HQ Hw. apply (means_sep_inv N f fm i' s' w Ef Ek Hks). eapply maybe_mono; [|exact Hw]. intros v. apply listed_mono; assumption.
    + intros M w P Q Hw HP HQ. apply (means_sep_inv M f fm i' s' w Ef Ek Hks) in Hw. eapply maybe_mono; [|exact Hw]. intros v. apply listed_mono; assumption.
  - destruct (fm_kids fm) as [|i [|s0 [|]]] eqn:Hks; try discriminate. destruct (some_kid place i p _ _ Hnil H) as [i' ->].
    pose proof H as H'. apply bres_bind_ok in H' as ([x q] & _ & H'). destruct (some_kid place s0 q _ _ Hnil H') as [s' ->].
    refine (place_two place Sep1 listed listed f i' s' p m s p' Hplace Hp (Sep1_makes N G c Hc) _ _ H).
    + intros P Q w HP HQ Hw. apply (means_sep1_inv N f fm i' s' w Ef Ek Hks). exact (listed_mono _ _ _ _ w HP HQ Hw).
    + intros M w P Q Hw HP HQ. apply (means_sep1_inv M f fm i' s' w Ef Ek Hks) in Hw. exact (listed_mono _ _ _ _ w HP HQ Hw).
  - destruct (only_kid fm) as [k|] eqn:Ho; [|discriminate]. exact (place_inner place f fm k p m s p' Hplace Hp Ef (or_introl Ek) Ho H).
  - destruct (only_kid fm) as [k|] eqn:Ho; [|discriminate]. exact (place_inner place f fm k p m s p' Hplace Hp Ef (or_intror Ek) Ho H).
Qed.

(** What is placed stands for its form. *)
Lemma placing_forms fuel : places (placeSymbol fuel h) /\ alternatives (placeAlts fuel h).
Proof using Hwf Hnames Hc.
  induction fuel as [|fuel [IHs IHa]]; [split; intros ? **; discriminate|]. split.
  - intros f p m s p' Hp H. cbn [placeSymbol] in H. destruct (h !! f) as [fm|] eqn:Ef; [|discriminate].
    apply (place_level (placeSymbol fuel h) (placeAlts fuel h) f fm p m s p' IHs IHa); [|exact Hp|exact Ef|exact H].
    intros q x. destruct fuel; discriminate.
  - intros r f inh p m p' Hp Hr Hroom H. cbn [placeAlts] in H. apply bres_bind_ok in H as ([body got] & Hpeel & H).
    destruct body as [body|]; [|discriminate]. destruct (peel_means f body got Hpeel) as (Hmeans & _).
    destruct (h !! body) as [fm|] eqn:Ef; [|discriminate].
    destruct (place_body (placeSymbol fuel h) (placeAlts fuel h) r body fm (prec_with inh got) p m p' IHs IHa Hp Hr) as (m' & A1 & A2); [|exact Ef|exact H|].
    + intros w Hw. apply Hroom, Hmeans, Hw.
    + exists m'. split; [exact A1|]. intros HG M HM w Hw. apply (A2 HG M HM), Hmeans, Hw.
Qed.
End state.
End placing.
