(* ===== verification/Walks.v ===== *)
(** * Walking a form

    [walk] of x/parse/form.go visits every form that an expression reaches and
    collects its rules and its start; and the fuel of [Build] is enough. *)
From Stdlib Require Import ZArith Lia.
From stdpp Require Import base numbers option list strings gmap.
From S2P Require Import Prelude Grammars Compile Lexer Derive Checked Patterns Forms Meanings Placing.

Local Open Scope nat_scope.

Section walking.
Context (h : arena).

(** The expression names [n] as its start. *)
Definition starts (f : nat) (n : string) : Prop := exists x fm, reach h f x /\ h !! x = Some fm /\ fm_kind fm = formStart /\ fm_name fm = n.

(** What the visit of one form adds. *)
Record notes (fm : Form) (c c' : coll) : Prop := {
  nt_rules n b : (n, b) ∈ co_rules c' <-> (n, b) ∈ co_rules c \/ (fm_kind fm = formEq /\ fm_name fm = n /\ only_kid fm = Some b);
  nt_keeps : co_startSet c = true -> co_startSet c' = true /\ co_start c' = co_start c;
  nt_start : fm_kind fm = formStart -> co_startSet c' = true /\ co_start c' = fm_name fm;
  nt_other : fm_kind fm <> formStart -> co_startSet c' = co_startSet c /\ co_start c' = co_start c }.

(** The visit of the forms that the roots reach, but for those seen before. *)
Record walked (roots : nat -> Prop) (c : coll) (seen : gset nat) (c' : coll) (seen' : gset nat) : Prop := {
  wk_sub : seen ⊆ seen';
  wk_reach x : x ∈ seen' -> x ∈ seen \/ exists r, roots r /\ reach h r x;
  wk_closed x fm k : x ∈ seen' -> h !! x = Some fm -> Some k ∈ fm_kids fm -> x ∈ seen \/ k ∈ seen';
  wk_rules n b : (n, b) ∈ co_rules c' <-> (n, b) ∈ co_rules c \/
    exists x fm, x ∈ seen' /\ x ∉ seen /\ h !! x = Some fm /\ fm_kind fm = formEq /\ fm_name fm = n /\ only_kid fm = Some b;
  wk_keeps : co_startSet c = true -> co_startSet c' = true /\ co_start c' = co_start c;
  wk_start x fm : x ∈ seen' -> x ∉ seen -> h !! x = Some fm -> fm_kind fm = formStart -> co_startSet c' = true /\ co_start c' = fm_name fm;
  wk_other : co_startSet c' = true -> co_startSet c = true \/
    exists x fm, x ∈ seen' /\ x ∉ seen /\ h !! x = Some fm /\ fm_kind fm = formStart /\ co_start c' = fm_name fm }.

Lemma walked_none roots c seen : walked roots c seen c seen.
Proof.
  split; auto; try (intros; left; assumption).
  - intros n b. split; [auto|]. intros [H|(x & fm & H & H' & _)]; [exact H|contradiction].
  - intros x fm H H'. contradiction.
Qed.

Lemma walked_roots (R R' : nat -> Prop) c seen c' seen' : (forall r, R r -> R' r) -> walked R c seen c' seen' -> walked R' c seen c' seen'.
Proof. intros HR [A1 A2 A3 A4 A5 A6 A7]. split; auto. intros x Hx. destruct (A2 x Hx) as [H|(r & H1 & H2)]; eauto. Qed.

Lemma walked_trans R c1 s1 c2 s2 c3 s3 : walked R c1 s1 c2 s2 -> walked R c2 s2 c3 s3 -> walked R c1 s1 c3 s3.
Proof.
  intros [A1 A2 A3 A4 A5 A6 A7] [B1 B2 B3 B4 B5 B6 B7]. split.
  - set_solver.
  - intros x Hx. destruct (B2 x Hx) as [H|H]; [apply A2, H|auto].
  - intros x fm k Hx Hf Hk. destruct (B3 x fm k Hx Hf Hk) as [H|H]; [|auto]. destruct (A3 x fm k H Hf Hk) as [H'|H']; [auto|right; set_solver].
  - intros n b. rewrite B4, A4. split.
    + intros [[H|(x & fm & H1 & H2 & H3)]|(x & fm & H1 & H2 & H3)]; [left; exact H|right; exists x, fm; split; [set_solver|auto]|].
      right. exists x, fm. split; [exact H1|]. split; [set_solver|exact H3].
    + intros [H|(x & fm & H1 & H2 & H3)]; [auto|]. destruct (decide (x ∈ s2)) as [H|H]; [left; right; exists x, fm; auto|right; exists x, fm; auto].
  - intros H. destruct (A5 H) as [H1 H2]. destruct (B5 H1) as [K1 K2]. split; [exact K1|congruence].
  - intros x fm H1 H2 H3 H4. destruct (decide (x ∈ s2)) as [H|H]; [|exact (B6 x fm H1 H H3 H4)]. destruct (A6 x fm H H2 H3 H4) as [K1 K2].
    destruct (B5 K1) as [L1 L2]. split; [exact L1|congruence].
  - intros H. destruct (B7 H) as [H'|(x & fm & H1 & H2 & H3)]; [|right; exists x, fm; split; [exact H1|split; [set_solver|exact H3]]].
    destruct (A7 H') as [K|(x & fm & H1 & H2 & H3 & H4 & H5)]; [left; exact K|right]. exists x, fm. split; [set_solver|]. split; [exact H2|]. split; [exact H3|]. split; [exact H4|].
    destruct (B5 H') as [_ ->]. exact H5.
Qed.

(** A form, then its children. *)
Lemma walked_step id fm c c0 seen c' seen' : h !! id = Some fm -> id ∉ seen -> notes fm c c0 ->
  walked (fun k => Some k ∈ fm_kids fm) c0 ({[ id ]} ∪ seen) c' seen' -> (forall k, Some k ∈ fm_kids fm -> k ∈ seen') -> walked (eq id) c seen c' seen'.
Proof.
  intros Hf Hid [N1 N2 N3 N4] [A1 A2 A3 A4 A5 A6 A7] Hkids. assert (Hin : id ∈ seen') by set_solver. split.
  - set_solver.
  - intros x Hx. destruct (A2 x Hx) as [H|(r & H1 & H2)]; [|right; exists id; split; [reflexivity|]].
    + apply elem_of_union in H as [ ->%elem_of_singleton|H]; [right; exists id; split; [reflexivity|constructor]|auto].
    + clear -Hf H1 H2. induction H2 as [|x fm' k _ IH Hx Hk]; [exact (reach_kid h id id fm r (reach_self h id) Hf H1)|exact (reach_kid h id x fm' k IH Hx Hk)].
  - intros x fm' k Hx Hf' Hk. destruct (A3 x fm' k Hx Hf' Hk) as [H|H]; [|auto]. apply elem_of_union in H as [ ->%elem_of_singleton|H]; [|auto].
    right. apply Hkids. assert (fm' = fm) as -> by congruence. exact Hk.
  - intros n b. rewrite A4, N1. split.
    + intros [[H|H]|(x & fm' & H1 & H2 & H3)]; [auto|right; exists id, fm; auto|right; exists x, fm'; split; [exact H1|split; [set_solver|exact H3]]].
    + intros [H|(x & fm' & H1 & H2 & H3 & H4)]; [auto|]. destruct (decide (x = id)) as [ ->|Hne]; [left; right; assert (fm' = fm) as -> by congruence; exact H4|].
      right. exists x, fm'. split; [exact H1|]. split; [set_solver|auto].
  - intros H. destruct (N2 H) as [H1 H2]. destruct (A5 H1) as [K1 K2]. split; [exact K1|congruence].
  - intros x fm' H1 H2 H3 H4. destruct (decide (x = id)) as [ ->|Hne]; [|apply (A6 x fm' H1); [set_solver|exact H3|exact H4]].
    assert (fm' = fm) as -> by congruence. destruct (N3 H4) as [K1 K2]. destruct (A5 K1) as [L1 L2]. split; [exact L1|congruence].
  - intros H. destruct (A7 H) as [H'|(x & fm' & H1 & H2 & H3)]; [|right; exists x, fm'; split; [exact H1|split; [set_solver|exact H3]]].
    destruct (decide (fm_kind fm = formStart)) as [Hk|Hk]; [|left; destruct (N4 Hk) as [<- _]; exact H'].
    right. exists id, fm. destruct (N3 Hk) as [K1 K2]. destruct (A5 K1) as [_ K3]. split; [exact Hin|]. split; [exact Hid|]. split; [exact Hf|]. split; [exact Hk|congruence].
Qed.

(** What is collected but the rule of the moment. *)
Lemma walked_in_rule R c seen r c' seen' : walked R c seen c' seen' -> walked R c seen (in_rule r c') seen'.
Proof. intros [A1 A2 A3 A4 A5 A6 A7]. split; auto. Qed.

Lemma notes_same fm c c' : co_rules c' = co_rules c -> co_startSet c' = co_startSet c -> co_start c' = co_start c -> fm_kind fm <> formStart -> fm_kind fm <> formEq ->
  notes fm c c'.
Proof. intros E1 E2 E3 H1 H2. split; [|intros; split; congruence|intros; contradiction|intros _; split; assumption]. intros n b. rewrite E1. tauto. Qed.

Lemma notes_rule fm k c : fm_kind fm = formEq -> only_kid fm = Some k -> notes fm c (in_rule (fm_name fm) (note_rule (fm_name fm) k c)).
Proof.
  intros Ek Ho. split; simpl; [|auto|congruence|auto]. intros n b. rewrite elem_of_app, list_elem_of_singleton, Ho. split.
  - intros [H|H]; [auto|]. injection H as -> ->. auto.
  - intros [H|(_ & <- & H)]; [auto|]. injection H as ->. auto.
Qed.

Lemma walk_note_notes id fm c c' : fm_kind fm <> formEq -> walk_note h id fm c = BOk c' -> notes fm c c'.
Proof.
  intros Hne H. unfold walk_note in H. destruct (fm_kind fm) eqn:Ek; try congruence;
    try (injection H as <-; apply notes_same; [reflexivity..|congruence|congruence]).
  - case_bool_decide; [discriminate|]. injection H as <-. apply notes_same; [reflexivity..|congruence|congruence].
  - case_bool_decide; [discriminate|]. injection H as <-. apply notes_same; [reflexivity..|congruence|congruence].
  - case_bool_decide; [discriminate|]. injection H as <-. apply notes_same; [reflexivity..|congruence|congruence].
  - destruct (_ || _); [discriminate|]. injection H as <-. apply notes_same; [reflexivity..|congruence|congruence].
  - destruct (only_kid fm); [|discriminate]. injection H as <-. apply notes_same; [reflexivity..|congruence|congruence].
  - destruct (only_kid fm); [|discriminate]. injection H as <-. apply notes_same; [reflexivity..|congruence|congruence].
  - destruct (only_kid fm); [|discriminate]. injection H as <-. apply notes_same; [reflexivity..|congruence|congruence].
  - destruct (fm_kids fm) as [|[] [|[] [|]]]; try discriminate. injection H as <-. apply notes_same; [reflexivity..|congruence|congruence].
  - destruct (fm_kids fm) as [|[] [|[] [|]]]; try discriminate. injection H as <-. apply notes_same; [reflexivity..|congruence|congruence].
  - destruct (only_kid fm); [|discriminate]. injection H as <-. apply notes_same; [reflexivity..|congruence|congruence].
  - destruct (co_scanSet c); [discriminate|]. injection H as <-. apply notes_same; [reflexivity..|congruence|congruence].
  - case_bool_decide; [discriminate|]. destruct (co_startSet c && _) eqn:E; [discriminate|]. injection H as <-. split; simpl; [intros n b; rewrite Ek; intuition discriminate| |auto|congruence].
    intros Hs. rewrite Hs in E. simpl in E. apply negb_false_iff, bool_decide_eq_true in E. auto.
  - destruct (only_kid fm) as [k|]; [|discriminate]. case_bool_decide; [discriminate|]. case_bool_decide; [discriminate|]. apply bres_bind_ok in H as (s & _ & H).
    case_bool_decide; [discriminate|]. injection H as <-. apply notes_same; [reflexivity..|congruence|congruence].
Qed.

Definition walks (go : coll * gset nat -> option nat -> bool -> bres (coll * gset nat)) : Prop :=
  forall c seen f top c' seen', go (c, seen) f top = BOk (c', seen') ->
    match f with None => c' = c /\ seen' = seen | Some id => walked (eq id) c seen c' seen' /\ id ∈ seen' end.

Lemma walk_kids_walked go tops ks : walks go -> forall c seen c' seen', bfold (fun st k => go st k (tops k)) (c, seen) ks = BOk (c', seen') ->
  walked (fun k => Some k ∈ ks) c seen c' seen' /\ forall k, Some k ∈ ks -> k ∈ seen'.
Proof.
  intros Hgo. induction ks as [|k ks IH]; intros c seen c' seen' H; simpl in H.
  - injection H as <- <-. split; [apply walked_none|]. intros k []%not_elem_of_nil.
  - apply bres_bind_ok in H as ([c1 s1] & H1 & H). destruct (IH _ _ _ _ H) as [A1 A2]. pose proof (Hgo _ _ _ _ _ _ H1) as K.
    assert (A1' : walked (fun x => Some x ∈ k :: ks) c1 s1 c' seen') by (eapply walked_roots; [|exact A1]; intros r Hr; right; exact Hr).
    destruct k as [k|].
    + destruct K as [K1 K2]. split.
      * apply (walked_trans _ c seen c1 s1); [|exact A1']. eapply walked_roots; [|exact K1]. intros r <-. left.
      * intros k' [E|Hk]%elem_of_cons; [injection E as ->; apply (wk_sub _ _ _ _ _ A1), K2|exact (A2 k' Hk)].
    + destruct K as [-> ->]. split; [exact A1'|]. intros k' [E|Hk]%elem_of_cons; [discriminate|exact (A2 k' Hk)].
Qed.

Lemma only_kid_kids fm k : only_kid fm = Some k -> fm_kids fm = [Some k].
Proof. unfold only_kid. destruct (fm_kids fm) as [|[k'|] [|]]; congruence. Qed.

Lemma walkAt_walks fuel : walks (walkAt fuel h).
Proof.
  induction fuel as [|fuel IH]; intros c seen [id|] top c' seen' H; try (injection H as <- <-; split; reflexivity).
  - simpl in H. case_bool_decide as Hin; [|discriminate]. injection H as <- <-. split; [apply walked_none|exact Hin].
  - cbn [walkAt fst snd] in H. case_bool_decide as Hin; [injection H as <- <-; split; [apply walked_none|exact Hin]|].
    destruct (h !! id) as [fm|] eqn:Ef; [|discriminate].
    assert (Hnext : forall c0 tops, notes fm c c0 -> bfold (fun st k => walkAt fuel h st k (tops k)) (c0, {[ id ]} ∪ seen) (fm_kids fm) = BOk (c', seen') ->
      walked (eq id) c seen c' seen' /\ id ∈ seen').
    { intros c0 tops Hn Hb. destruct (walk_kids_walked _ tops _ IH _ _ _ _ Hb) as [A1 A2]. split; [exact (walked_step id fm c c0 seen c' seen' Ef Hin Hn A1 A2)|].
      apply (wk_sub _ _ _ _ _ A1). set_solver. }
    assert (Hother : fm_kind fm <> formEq -> (c0 ← walk_note h id fm c; bfold (fun st k => walkAt fuel h st k false) (c0, {[ id ]} ∪ seen) (fm_kids fm)) = BOk (c', seen') ->
      walked (eq id) c seen c' seen' /\ id ∈ seen').
    { intros Hne Hb. apply bres_bind_ok in Hb as (c0 & H1 & H2). exact (Hnext c0 (fun _ => false) (walk_note_notes id fm c c0 Hne H1) H2). }
    assert (Hkid : forall c0 k t c1 s1, only_kid fm = Some k -> notes fm c c0 -> walkAt fuel h (c0, {[ id ]} ∪ seen) (Some k) t = BOk (c1, s1) ->
      walked (eq id) c seen c1 s1 /\ id ∈ s1).
    { intros c0 k t c1 s1 Ho Hn Hb. destruct (IH _ _ (Some k) _ _ _ Hb) as [A1 A2]. pose proof (only_kid_kids fm k Ho) as Hks.
      split; [|apply (wk_sub _ _ _ _ _ A1); set_solver]. apply (walked_step id fm c c0 seen c1 s1 Ef Hin Hn).
      - eapply walked_roots; [|exact A1]. intros r <-. rewrite Hks. left.
      - intros k' Hk'. rewrite Hks in Hk'. apply list_elem_of_singleton in Hk'. injection Hk' as ->. exact A2. }
    destruct (fm_kind fm) eqn:Ek; try (apply Hother; [congruence|exact H]).
    + destruct (only_kid fm) as [k|] eqn:Ho; [|discriminate]. case_bool_decide; [discriminate|]. apply bres_bind_ok in H as ([c1 s1] & H & [= <- <-]).
      destruct (Hkid _ k false c1 s1 eq_refl (notes_rule fm k c Ek Ho) H) as [A1 A2]. split; [apply walked_in_rule, A1|exact A2].
    + destruct (only_kid fm) as [k|] eqn:Ho; [|discriminate]. apply (Hkid _ k false c' seen' eq_refl) in H; [exact H|].
      apply notes_same; [destruct top; reflexivity..|congruence|congruence].
    + apply (Hnext c (is_skip h)); [apply notes_same; [reflexivity..|congruence|congruence]|exact H].
Qed.

(** ** The collection *)

Record collects (f : nat) (c : coll) : Prop := {
  cl_rules n b : (n, b) ∈ co_rules c <-> binds h f n b;
  cl_start n : starts f n -> co_startSet c = true /\ co_start c = n;
  cl_named : co_startSet c = true -> exists x fm, h !! x = Some fm /\ co_start c = fm_name fm }.

Lemma walk_collects f c : walk h (Some f) = BOk c -> collects f c.
Proof.
  intros H. apply bres_bind_ok in H as ([c0 seen] & H & [= ->]). destruct (walkAt_walks _ _ _ (Some f) _ _ _ H) as [[A1 A2 A3 A4 A5 A6 A7] Hf].
  assert (Hreach : forall x, reach h f x -> x ∈ seen).
  { induction 1 as [|x fm k _ IH Hx Hk]; [exact Hf|]. destruct (A3 x fm k IH Hx Hk) as [K|K]; [set_solver|exact K]. }
  split.
  - intros n b. rewrite A4. simpl. unfold binds. split.
    + intros [[]%not_elem_of_nil|(x & fm & H1 & _ & H2)]. destruct (A2 x H1) as [K|(r & <- & K)]; [set_solver|]. exists x, fm. auto.
    + intros (x & fm & H1 & H2). right. exists x, fm. split; [exact (Hreach x H1)|]. split; [set_solver|exact H2].
  - intros n (x & fm & H1 & H2 & H3 & <-). apply (A6 x fm (Hreach x H1)); [set_solver|exact H2|exact H3].
  - intros Hs. destruct (A7 Hs) as [K|(x & fm & _ & _ & K1 & _ & K2)]; [discriminate|eauto].
Qed.
End walking.

(** * Building ends

    The fuel of [Build] is enough for every arena. *)

(** The result is not the end of the fuel, and a value satisfies [P]. *)
Definition ends {A} (P : A -> Prop) (m : bres A) : Prop := match m with BOk a => P a | BErr => True | BFuel => False end.

Lemma ends_bind {A B} (P : A -> Prop) (Q : B -> Prop) m (k : A -> bres B) : ends P m -> (forall a, P a -> ends Q (k a)) -> ends Q (x ← m; k x).
Proof. destruct m; simpl; auto. Qed.

Lemma ends_weaken {A} (P Q : A -> Prop) m : ends P m -> (forall a, P a -> Q a) -> ends Q m.
Proof. destruct m; simpl; auto. Qed.

Lemma ends_fold {A B} (P : B -> Prop) (f : B -> A -> bres B) l : forall s, P s -> (forall s x, x ∈ l -> P s -> ends P (f s x)) -> ends P (bfold f s l).
Proof.
  induction l as [|x l IH]; simpl; intros s Hs Hf; [exact Hs|]. apply (ends_bind P); [apply Hf; [left|exact Hs]|].
  intros s' Hs'. apply IH; [exact Hs'|]. intros s2 y Hy. apply Hf. right. exact Hy.
Qed.

Section ends.
Context (h : arena) (Hwf : arena_wf h = true).

(** A form that may be nil, below [n]. *)
Definition under (n : nat) (f : option nat) : Prop := match f with None => True | Some id => id < n end.

Lemma under_kids id fm k n : h !! id = Some fm -> k ∈ fm_kids fm -> id <= n -> under n k.
Proof using Hwf.
  intros Hf Hk Hn. destruct k as [k|]; [|exact I]. pose proof (proj2 (wf_lookup h Hwf id fm Hf) k Hk). simpl. lia.
Qed.

Lemma only_under id fm k : h !! id = Some fm -> only_kid fm = Some k -> k < id.
Proof using Hwf. intros Hf Hk. apply (proj2 (wf_lookup h Hwf id fm Hf)). rewrite (only_kid_kids fm k Hk). left. Qed.

Lemma peel_loop_ends fuel n : forall f info, under fuel f -> under (length h) f -> under n f -> ends (fun r => under n (fst r)) (peel_loop fuel h f info).
Proof using Hwf.
  induction fuel as [|fuel IH]; intros [id|] info Hf Hl Hn; try exact I; simpl in Hf, Hl, Hn; [lia|]. cbn [peel_loop].
  destruct (lookup_lt_is_Some_2 h id Hl) as [fm Hid]. rewrite Hid. case_bool_decide; [|exact Hn].
  destruct (fm_kids fm) as [|k ks] eqn:Ek; [exact I|]. assert (Hk : k ∈ fm_kids fm) by (rewrite Ek; left).
  apply IH; apply (under_kids id fm k _ Hid Hk); lia.
Qed.

Lemma peel_ends n f : under (length h) f -> under n f -> ends (fun r => under n (fst r)) (peel h f).
Proof using Hwf. intros Hl Hn. apply peel_loop_ends; assumption. Qed.

Lemma symbolName_ends fuel : forall f, under fuel f -> under (length h) f -> 0 < fuel -> ends (fun _ => True) (symbolName_loop fuel h f).
Proof using Hwf.
  induction fuel as [|fuel IH]; intros f Hf Hl Hpos; [lia|]. cbn [symbolName_loop].
  apply (ends_bind (fun r => under (S fuel) (fst r) /\ under (length h) (fst r))).
  { pose proof (peel_ends (S fuel) f Hl Hf) as K1. pose proof (peel_ends (length h) f Hl Hl) as K2. destruct (peel h f); simpl in *; auto. }
  intros [[id|] info] [H1 H2]; simpl in H1, H2; [|exact I]. destruct (lookup_lt_is_Some_2 h id H2) as [fm Hid]. rewrite Hid.
  assert (Hk : ends (fun _ => True) (match fm_kids fm with [] => BOk EmptyString | None :: _ => BOk EmptyString | k :: _ => symbolName_loop fuel h k end)).
  { destruct (fm_kids fm) as [|[k|] ks] eqn:Ek; try exact I. assert (Hk : Some k ∈ fm_kids fm) by (rewrite Ek; left).
    pose proof (proj2 (wf_lookup h Hwf id fm Hid) k Hk). apply IH; simpl; lia. }
  destruct (fm_kind fm); try exact I; exact Hk.
Qed.

(** What is collected is in the arena. *)
Definition coll_in (c : coll) : Prop :=
  Forall (fun t => t < length h) (co_toks c) /\ Forall (fun s => s < length h) (co_skips c) /\ Forall (fun r => snd r < length h) (co_rules c).

Lemma walk_note_ends id fm c : h !! id = Some fm -> coll_in c -> ends coll_in (walk_note h id fm c).
Proof using Hwf.
  intros Hid Hc. pose proof (lookup_lt_Some _ _ _ Hid) as Hl. unfold walk_note.
  assert (Htok : coll_in (note_tok id c)) by (destruct Hc as (C1 & C2 & C3); split; [simpl; apply Forall_app; auto|split; assumption]).
  assert (Hone : ends coll_in (match only_kid fm with None => BErr | Some _ => BOk c end)) by (destruct (only_kid fm); [exact Hc|exact I]).
  destruct (fm_kind fm); try exact Hc; try exact Hone; try (case_bool_decide; [exact I|assumption]).
  - destruct (_ || _); [exact I|exact Htok].
  - destruct (fm_kids fm) as [|[] [|[] [|]]]; try exact I. exact Hc.
  - destruct (fm_kids fm) as [|[] [|[] [|]]]; try exact I. exact Hc.
  - destruct (co_scanSet c); [exact I|exact Hc].
  - case_bool_decide; [exact I|]. destruct (_ && _); [exact I|exact Hc].
  - destruct (only_kid fm) as [k|] eqn:Ho; [|exact I]. case_bool_decide; [exact I|]. case_bool_decide; [exact I|].
    apply (ends_bind (fun _ => True)); [|intros s _; case_bool_decide; [exact I|exact Hc]].
    pose proof (only_under id fm k Hid Ho). apply symbolName_ends; simpl; lia.
Qed.

Lemma walkAt_ends fuel : forall c seen f top, coll_in c -> under fuel f -> under (length h) f -> ends (fun st => coll_in (fst st)) (walkAt fuel h (c, seen) f top).
Proof using Hwf.
  induction fuel as [|fuel IH]; intros c seen [id|] top Hc Hf Hl; try exact Hc; [simpl in Hf; lia|]. cbn [walkAt fst snd]. case_bool_decide; [exact Hc|].
  simpl in Hl, Hf. destruct (lookup_lt_is_Some_2 h id Hl) as [fm Hid]. rewrite Hid.
  assert (Hkids : forall c0 tops, coll_in c0 -> ends (fun st => coll_in (fst st)) (bfold (fun st k => walkAt fuel h st k (tops k)) (c0, {[ id ]} ∪ seen) (fm_kids fm))).
  { intros c0 tops Hc0. apply ends_fold; [exact Hc0|]. intros [c1 s1] k Hk H1. apply IH; [exact H1| |]; apply (under_kids id fm k _ Hid Hk); lia. }
  assert (Hother : ends (fun st => coll_in (fst st)) (c0 ← walk_note h id fm c; bfold (fun st k => walkAt fuel h st k false) (c0, {[ id ]} ∪ seen) (fm_kids fm))).
  { apply (ends_bind coll_in); [apply walk_note_ends; assumption|]. intros c0 Hc0. exact (Hkids c0 (fun _ => false) Hc0). }
  destruct (fm_kind fm); try exact Hother.
  - destruct (only_kid fm) as [k|] eqn:Ho; [|exact I]. case_bool_decide; [exact I|]. pose proof (only_under id fm k Hid Ho).
    apply (ends_bind (fun st => coll_in (fst st))); [|intros [c1 s1] Hin1; exact Hin1]. apply IH; [|simpl; lia|simpl; lia].
    destruct Hc as (C1 & C2 & C3). split; [exact C1|]. split; [exact C2|]. simpl. apply Forall_app. split; [exact C3|]. repeat constructor. simpl. lia.
  - destruct (only_kid fm) as [k|] eqn:Ho; [|exact I]. pose proof (only_under id fm k Hid Ho). apply IH; [|simpl; lia|simpl; lia].
    destruct top; [|exact Hc]. destruct Hc as (C1 & C2 & C3). split; [exact C1|]. split; [|exact C3]. simpl. apply Forall_app. split; [exact C2|]. repeat constructor. lia.
  - apply (Hkids c (is_skip h) Hc).
Qed.

Lemma placeToken_ends f p : under (length h) f -> ends (fun _ => True) (placeToken h f p).
Proof using.
  intros Hf. destruct f as [id|]; [|exact I]. unfold placeToken. destruct (pl_seen p !! id); [exact I|]. simpl in Hf. destruct (lookup_lt_is_Some_2 h id Hf) as [fm ->].
  destruct (fm_kind fm); try exact I.
  - destruct (Token _ _). destruct (_ && _); exact I.
  - destruct (Token _ _). destruct (_ || _); exact I.
  - destruct (Sym _ _). destruct (Keyword _ _ _). exact I.
Qed.

(** The fuel that a form needs for a symbol: an invented rule takes more. *)
Definition symbol_fuel (id : nat) : nat :=
  match h !! id with
  | Some fm => match fm_kind fm with formSeq | formAlt => 3 * id + 4 | _ => 3 * id + 2 end
  | None => 0
  end.

Lemma symbol_fuel_le id : symbol_fuel id <= 3 * id + 4.
Proof using. unfold symbol_fuel. destruct (h !! id) as [fm|]; [destruct (fm_kind fm)|]; lia. Qed.

Definition enough (need : nat -> nat) (fuel : nat) (f : option nat) : Prop := match f with None => 1 <= fuel | Some id => id < length h /\ need id <= fuel end.

Lemma enough_kid id fm k fuel : h !! id = Some fm -> k ∈ fm_kids fm -> 3 * id + 1 <= fuel -> enough symbol_fuel fuel k.
Proof using Hwf.
  intros Hid Hk Hf. pose proof (lookup_lt_Some _ _ _ Hid). destruct k as [k|]; simpl; [|lia]. pose proof (proj2 (wf_lookup h Hwf id fm Hid) k Hk).
  pose proof (symbol_fuel_le k). lia.
Qed.

Lemma placing_ends fuel :
  (forall f p, enough symbol_fuel fuel f -> ends (fun _ => True) (placeSymbol fuel h f p)) /\
  (forall r f inh p, enough (fun id => 3 * id + 3) fuel f -> ends (fun _ => True) (placeAlts fuel h r f inh p)).
Proof using Hwf.
  induction fuel as [|fuel [IHs IHa]].
  { split; [intros [id|] p H|intros r [id|] inh p H]; exfalso; simpl in H; try lia.
    destruct H as [Hl H]. unfold symbol_fuel in H. destruct (lookup_lt_is_Some_2 h id Hl) as [fm E]. rewrite E in H. destruct (fm_kind fm); lia. }
  split.
  - intros [id|] p H; [|exact I]. destruct H as [Hl H]. cbn [placeSymbol]. unfold symbol_fuel in H. destruct (lookup_lt_is_Some_2 h id Hl) as [fm E]. rewrite E in *.
    assert (Hfuel : 3 * id + 1 <= fuel) by (destruct (fm_kind fm); lia).
    assert (Hkid : forall k q, k ∈ fm_kids fm -> ends (fun _ => True) (placeSymbol fuel h k q)) by (intros k q Hk; apply IHs, (enough_kid id fm k fuel E Hk Hfuel)).
    assert (Hone : forall (op : nat -> Grammar -> nat * Grammar), ends (fun _ => True) (match fm_kids fm with [k] => '(s, p) ← placeSymbol fuel h k p; BOk (on_grammar (op s) p) | _ => BErr end)).
    { intros op. destruct (fm_kids fm) as [|k [|]]; try exact I. apply (ends_bind (fun _ => True)); [apply Hkid; left|]. intros [s q] _. exact I. }
    assert (Htwo : forall (op : nat -> nat -> Grammar -> nat * Grammar), ends (fun _ => True) (match fm_kids fm with [i; s] => '(item, p) ← placeSymbol fuel h i p; '(sep, p) ← placeSymbol fuel h s p; BOk (on_grammar (op item sep) p) | _ => BErr end)).
    { intros op. destruct (fm_kids fm) as [|i [|s [|]]]; try exact I. apply (ends_bind (fun _ => True)); [apply Hkid; left|]. intros [x q] _.
      apply (ends_bind (fun _ => True)); [apply Hkid; right; left|]. intros [y q'] _. exact I. }
    assert (Hin : match only_kid fm with None => True | Some k => ends (fun _ => True) (placeSymbol fuel h (Some k) p) end).
    { destruct (only_kid fm) as [k|] eqn:Ho; [|exact I]. apply Hkid. rewrite (only_kid_kids fm k Ho). left. }
    destruct (fm_kind fm); try (case_bool_decide; exact I); try exact I; try (apply placeToken_ends; exact Hl).
    + destruct (on_grammar _ p) as [r q]. apply (ends_bind (fun _ => True)); [apply IHa; simpl; lia|]. intros q' _. exact I.
    + destruct (on_grammar _ p) as [r q]. apply (ends_bind (fun _ => True)); [apply IHa; simpl; lia|]. intros q' _. exact I.
    + exact (Hone Repeat).
    + exact (Hone Repeat1).
    + exact (Hone Opt).
    + exact (Htwo Sep).
    + exact (Htwo Sep1).
    + destruct (only_kid fm); [exact Hin|exact I].
    + destruct (only_kid fm); [exact Hin|exact I].
  - intros r [id|] inh p H; simpl in H; cbn [placeAlts].
    2: { unfold peel. destruct (length h); exact I. }
    destruct H as [Hl H]. assert (Hpeel : ends (fun r => match fst r with None => True | Some b => b < S id /\ exists fm, h !! b = Some fm end) (peel h (Some id))).
    { pose proof (peel_ends (S id) (Some id) Hl ltac:(simpl; lia)) as K1. pose proof (peel_ends (length h) (Some id) Hl Hl) as K2. destruct (peel h (Some id)) as [[[b|] i]| |]; simpl in *; auto.
      split; [exact K1|]. destruct (lookup_lt_is_Some_2 h b K2) as [fm E]. eauto. }
    apply (ends_bind _ _ _ _ Hpeel). intros [[b|] got] Hb; simpl in Hb; [|exact I]. destruct Hb as (Hb & fm & E). rewrite E. pose proof (lookup_lt_Some _ _ _ E) as Hlb.
    assert (Hself : fm_kind fm <> formSeq -> fm_kind fm <> formAlt ->
      ends (fun _ => True) ('(s, p) ← placeSymbol fuel h (Some b) p; BOk (place_alternative r [s] (prec_with inh got) p))).
    { intros N1 N2. apply (ends_bind (fun _ => True)); [apply IHs|intros [s q] _; exact I]. split; [exact Hlb|]. unfold symbol_fuel. rewrite E. destruct (fm_kind fm); (congruence || lia). }
    destruct (fm_kind fm) eqn:Ek; try exact I; try (apply Hself; congruence).
    + apply (ends_bind (fun _ => True)); [|intros [ss q] _; exact I]. apply ends_fold; [exact I|]. intros [ss q] k Hk _. apply (ends_bind (fun _ => True)); [|intros [s q'] _; exact I].
      apply IHs, (enough_kid b fm k fuel E Hk). lia.
    + destruct (wf_lookup h Hwf b fm E) as [Hs _]. unfold kids_shape in Hs. rewrite Ek in Hs. apply bool_decide_eq_true in Hs.
      destruct (fm_kids fm) as [|k0 ks] eqn:Eks; [exact I|]. apply ends_fold; [exact I|]. intros q k Hk _. apply IHa. rewrite Forall_forall in Hs.
      destruct (Hs k Hk) as [k' ->]. rewrite <- Eks in Hk. pose proof (proj2 (wf_lookup h Hwf b fm E) k' Hk). simpl. lia.
Qed.

(** [Build] returns. *)
Lemma Build_ends name f : under (length h) f -> Build h name f <> BFuel.
Proof using Hwf.
  intros Hf H. destruct f as [f|]; [|discriminate]. assert (K : ends (fun _ => True) (Build h name (Some f))); [|rewrite H in K; exact K]. clear H.
  unfold Build. assert (Hpf : forall id, id < length h -> symbol_fuel id <= place_fuel h /\ 3 * id + 3 <= place_fuel h).
  { intros id Hid. pose proof (symbol_fuel_le id). unfold place_fuel. lia. }
  apply (ends_bind coll_in).
  { unfold walk. apply (ends_bind (fun st => coll_in (fst st))); [|intros [c s] Hc; exact Hc]. apply walkAt_ends; [repeat split; constructor|exact Hf|exact Hf]. }
  intros c (C1 & C2 & C3). rewrite Forall_forall in C1, C2. rewrite Forall_forall in C3. apply (ends_bind (fun _ => True)).
  { unfold place_tokens. assert (Hloop : forall keys p, ends (fun _ => True) (bfold (fun p t => if Bool.eqb (is_key h t) keys then '(_, p) ← placeToken h (Some t) p; BOk p else BOk p) p (co_toks c))).
    { intros keys p. apply ends_fold; [exact I|]. intros q t Ht _. destruct (Bool.eqb _ _); [|exact I].
      apply (ends_bind (fun _ => True)); [apply placeToken_ends; simpl; exact (C1 t Ht)|intros [x y] _; exact I]. }
    apply (ends_bind (fun _ => True)); [apply Hloop|]. intros q _. apply Hloop. }
  intros p _. apply (ends_bind (fun _ => True)).
  { apply ends_fold; [exact I|]. intros q s Hs _. unfold place_skip. apply (ends_bind (fun _ => True)).
    - apply (proj1 (placing_ends (place_fuel h))). split; [exact (C2 s Hs)|]. apply Hpf, C2, Hs.
    - intros [x y] _. destruct (sr_extra _); exact I. }
  intros q _. apply (ends_bind (fun _ => True)); [|intros r _; exact I]. apply ends_fold; [exact I|]. intros r b Hb _. unfold place_rule. destruct (on_grammar _ _).
  apply (proj2 (placing_ends (place_fuel h))). split; [exact (C3 b Hb)|]. apply Hpf, C3, Hb.
Qed.
End ends.
