(* ===== verification/Sentences.v ===== *)
(** * Built grammars

    [Build] of x/parse/form.go: the grammar it gives derives the sentences of the
    expression. *)
From Stdlib Require Import ZArith Lia.
From stdpp Require Import base numbers option list strings gmap.
From S2P Require Import Prelude Grammars Compile Lexer Derive Checked Patterns Forms Meanings Placing Walks.

Local Open Scope nat_scope.

(** ** Meanings grow with the names *)

Section mono.
Context (h : arena) (Hwf : arena_wf h = true).

Lemma means_mono (N M : string -> lang) : (forall n w, N n w -> M n w) -> forall id w, means h N id w -> means h M id w.
Proof using Hwf.
  intros HNM. induction id as [id IH] using lt_wf_ind. intros w H.
  assert (Hkid : forall fm k, h !! id = Some fm -> Some k ∈ fm_kids fm -> forall w, means h N k w -> means h M k w).
  { intros fm k Hf Hk. apply IH, (proj2 (wf_lookup h Hwf id fm Hf) k Hk). }
  assert (Honly : forall fm k, h !! id = Some fm -> only_kid fm = Some k -> forall w, means h N k w -> means h M k w).
  { intros fm k Hf Hk. apply (Hkid fm k Hf). rewrite (only_kid_kids fm k Hk). left. }
  inversion H as [id' fm n w' Hf Hn Hw|id' fm ks ws Hf Hk Hks Hws|id' fm k w' Hf Hk Hin Hw|id' fm k ws Hf Hk Ho Hws|id' fm k ws Hf Hk Ho Hws Hne|id' fm Hf Hk
    |id' fm k w' Hf Hk Ho Hw|id' fm Hf Hk|id' fm i s w' vs ws Hf Hk Hks Hw Hvs|id' fm k w' Hf Hk Ho Hw]; subst.
  - apply (means_named h M id fm n w Hf Hn), HNM, Hw.
  - apply (means_seq h M id fm ks ws Hf Hk Hks). assert (Hall : forall k, k ∈ ks -> forall w, means h N k w -> means h M k w).
    { intros k Hin. apply (Hkid fm k Hf). rewrite Hks. apply list_elem_of_fmap. eauto. }
    clear -Hws Hall. induction Hws as [|k w ks ws Hw _ IH]; constructor; [apply Hall; [left|exact Hw]|]. apply IH. intros k' Hk'. apply Hall. right. exact Hk'.
  - apply (means_alt h M id fm k w Hf Hk Hin), (Hkid fm k Hf Hin), Hw.
  - apply (means_repeat h M id fm k ws Hf Hk Ho). eapply Forall_impl; [exact Hws|]. exact (Honly fm k Hf Ho).
  - apply (means_repeat1 h M id fm k ws Hf Hk Ho); [|exact Hne]. eapply Forall_impl; [exact Hws|]. exact (Honly fm k Hf Ho).
  - exact (means_opt_none h M id fm Hf Hk).
  - apply (means_opt_some h M id fm k w Hf Hk Ho), (Honly fm k Hf Ho), Hw.
  - exact (means_sep_none h M id fm Hf Hk).
  - assert (Hi : forall w, means h N i w -> means h M i w) by (apply (Hkid fm i Hf); rewrite Hks; left).
    assert (Hs : forall w, means h N s w -> means h M s w) by (apply (Hkid fm s Hf); rewrite Hks; right; left).
    apply (means_sep h M id fm i s w' vs ws Hf Hk Hks (Hi _ Hw)). eapply Forall2_impl; [exact Hvs|]. simpl. intros v u [A B]. auto.
  - apply (means_inner h M id fm k w Hf Hk Ho), (Honly fm k Hf Ho), Hw.
Qed.

(** A meaning over a growing family needs one member of it. *)
Section limit.
Context (F : nat -> string -> lang) (Hgrow : forall k n w, F k n w -> F (S k) n w).

Lemma grow_le k k' n w : k <= k' -> F k n w -> F k' n w.
Proof using Hgrow. induction 1; auto. Qed.

Lemma means_le k k' id w : k <= k' -> means h (F k) id w -> means h (F k') id w.
Proof using Hwf Hgrow. intros Hle. apply means_mono. intros n v. apply grow_le, Hle. Qed.

Lemma forall_limit id ws : Forall (fun w => exists k, means h (F k) id w) ws -> exists k, Forall (means h (F k) id) ws.
Proof using Hwf Hgrow.
  induction 1 as [|w ws [k Hk] _ [k' IH]]; [exists 0; constructor|]. exists (max k k'). constructor.
  - apply (means_le k); [lia|exact Hk].
  - eapply Forall_impl; [exact IH|]. intros v. apply means_le. lia.
Qed.

Lemma means_limit id : forall w, means h (fun n w => exists k, F k n w) id w -> exists k, means h (F k) id w.
Proof using Hwf Hgrow.
  induction id as [id IH] using lt_wf_ind. intros w H.
  assert (Hkid : forall fm k, h !! id = Some fm -> Some k ∈ fm_kids fm -> forall w, means h (fun n w => exists k, F k n w) k w -> exists j, means h (F j) k w).
  { intros fm k Hf Hk. apply IH, (proj2 (wf_lookup h Hwf id fm Hf) k Hk). }
  assert (Honly : forall fm k, h !! id = Some fm -> only_kid fm = Some k -> forall w, means h (fun n w => exists k, F k n w) k w -> exists j, means h (F j) k w).
  { intros fm k Hf Hk. apply (Hkid fm k Hf). rewrite (only_kid_kids fm k Hk). left. }
  inversion H as [id' fm n w' Hf Hn Hw|id' fm ks ws Hf Hk Hks Hws|id' fm k w' Hf Hk Hin Hw|id' fm k ws Hf Hk Ho Hws|id' fm k ws Hf Hk Ho Hws Hne|id' fm Hf Hk
    |id' fm k w' Hf Hk Ho Hw|id' fm Hf Hk|id' fm i s w' vs ws Hf Hk Hks Hw Hvs|id' fm k w' Hf Hk Ho Hw]; subst.
  - destruct Hw as [k Hw]. exists k. exact (means_named h (F k) id fm n w Hf Hn Hw).
  - assert (Hall : forall k, k ∈ ks -> forall w, means h (fun n w => exists k, F k n w) k w -> exists j, means h (F j) k w).
    { intros k Hin. apply (Hkid fm k Hf). rewrite Hks. apply list_elem_of_fmap. eauto. }
    assert (Hj : exists j, Forall2 (means h (F j)) ks ws).
    { clear -Hwf Hgrow Hws Hall. induction Hws as [|k w ks ws Hw _ IH]; [exists 0; constructor|]. destruct (Hall k ltac:(left) w Hw) as [j1 H1].
      destruct IH as [j2 H2]; [intros k' Hk'; apply Hall; right; exact Hk'|]. exists (max j1 j2). constructor; [apply (means_le j1); [lia|exact H1]|].
      eapply Forall2_impl; [exact H2|]. intros k' v. apply means_le. lia. }
    destruct Hj as [j Hj]. exists j. exact (means_seq h (F j) id fm ks ws Hf Hk Hks Hj).
  - destruct (Hkid fm k Hf Hin w Hw) as [j Hj]. exists j. exact (means_alt h (F j) id fm k w Hf Hk Hin Hj).
  - destruct (forall_limit k ws) as [j Hj]; [eapply Forall_impl; [exact Hws|]; exact (Honly fm k Hf Ho)|]. exists j. exact (means_repeat h (F j) id fm k ws Hf Hk Ho Hj).
  - destruct (forall_limit k ws) as [j Hj]; [eapply Forall_impl; [exact Hws|]; exact (Honly fm k Hf Ho)|]. exists j. exact (means_repeat1 h (F j) id fm k ws Hf Hk Ho Hj Hne).
  - exists 0. exact (means_opt_none h (F 0) id fm Hf Hk).
  - destruct (Honly fm k Hf Ho w Hw) as [j Hj]. exists j. exact (means_opt_some h (F j) id fm k w Hf Hk Ho Hj).
  - exists 0. exact (means_sep_none h (F 0) id fm Hf Hk).
  - assert (Hi := Hkid fm i Hf ltac:(rewrite Hks; left)). assert (Hs := Hkid fm s Hf ltac:(rewrite Hks; right; left)).
    destruct (Hi w' Hw) as [j0 H0]. assert (Hj : exists j, Forall2 (fun v w => means h (F j) s v /\ means h (F j) i w) vs ws).
    { clear -Hwf Hgrow Hvs Hi Hs. induction Hvs as [|v w vs ws [Hv Hw] _ [j IH]]; [exists 0; constructor|]. destruct (Hs v Hv) as [j1 H1]. destruct (Hi w Hw) as [j2 H2].
      exists (max j (max j1 j2)). constructor; [split; [apply (means_le j1); [lia|exact H1]|apply (means_le j2); [lia|exact H2]]|].
      eapply Forall2_impl; [exact IH|]. simpl. intros a b [A B]. split; (eapply means_le; [|eassumption]; lia). }
    destruct Hj as [j Hj]. exists (max j0 j). apply (means_sep h _ id fm i s w' vs ws Hf Hk Hks); [apply (means_le j0); [lia|exact H0]|].
    eapply Forall2_impl; [exact Hj|]. simpl. intros a b [A B]. split; (eapply means_le; [|eassumption]; lia).
  - destruct (Honly fm k Hf Ho w Hw) as [j Hj]. exists j. exact (means_inner h (F j) id fm k w Hf Hk Ho Hj).
Qed.
End limit.

Lemma named_grow T R k : forall n w, named h T R k n w -> named h T R (S k) n w.
Proof using Hwf.
  induction k as [|k IH]; intros n w [H|H]; [left; exact H|destruct H|left; exact H|right]. destruct H as (b & Hb & Hw). exists b. split; [exact Hb|].
  apply (means_mono (named h T R k)); [exact IH|exact Hw].
Qed.

(** A rule stands for all that its body stands for. *)
Lemma sentence_rule f T n b w : binds h f n b -> means h (sentence h f T) b w -> sentence h f T n w.
Proof using Hwf.
  intros Hb Hw. destruct (means_limit (named h T (binds h f)) (named_grow T (binds h f)) b w Hw) as [k Hk]. exists (S k). right. eauto.
Qed.
End mono.

(** ** Building *)

(** A name that is a token of the grammar. *)
Definition token_name (g : Grammar) (n : string) : Prop := exists s, g_byName g !! n = Some s /\ sr_kind (sym_at g s) = kindTerm.

Section built.
Context (h : arena) (Hwf : arena_wf h = true) (Hnames : names_plain h = true) (G : Grammar) (c : compiler) (Hc : prepareCompiler G = Some c).
Context (N : string -> lang).

Lemma tokens_steps toks p m p' : placing_ok h N p m -> place_tokens h toks p = BOk p' -> exists m', steps h N p p' m m'.
Proof using Hnames.
  intros Hp H. unfold place_tokens in H. apply bres_bind_ok in H as (p1 & H1 & H2).
  assert (Hloop : forall keys p1 p2 m1, placing_ok h N p1 m1 ->
    bfold (fun p t => if Bool.eqb (is_key h t) keys then '(_, p) ← placeToken h (Some t) p; BOk p else BOk p) p1 toks = BOk p2 -> exists m2, steps h N p1 p2 m1 m2).
  { intros keys q1 q2 m1 Hq Hb. apply (bfold_ind _ (fun q => exists m2, steps h N q1 q m1 m2) _ _ _ Hb); [exists m1; apply steps_refl, Hq|].
    intros s s' t _ Ht (m2 & Hst). destruct (Bool.eqb _ _); [|injection Ht as <-; eauto]. apply bres_bind_ok in Ht as ([x q] & Ht & [= <-]).
    destruct (placeToken_placed h Hnames N (New EmptyString) (mkCompiler [] []) s m2 t x q (st_ok _ _ _ _ _ _ Hst) Ht) as (m3 & Hpl). exists m3. exact (steps_trans _ _ _ _ _ _ _ _ Hst (pc_steps _ _ _ _ _ _ _ _ _ _ Hpl)). }
  destruct (Hloop false p p1 m Hp H1) as (m1 & Hst1). destruct (Hloop true p1 p' m1 (st_ok _ _ _ _ _ _ Hst1) H2) as (m2 & Hst2).
  exists m2. exact (steps_trans _ _ _ _ _ _ _ _ Hst1 Hst2).
Qed.

Lemma evolves_steps p m g' : placing_ok h N p m -> evolves N (pl_g p) g' -> exists m', steps h N p (mkPlacer g' (pl_seen p)) m m'.
Proof using Hnames.
  intros [Hb Hs] [He Hev]. destruct (Hev m Hb) as (m' & Hp & Hm'). exists m'. split; [exact He|exact Hp|]. split; [exact Hm'|]. exact (seen_ok_ext h Hnames p g' Hs He).
Qed.

Lemma skips_steps skips p m p' : placing_ok h N p m -> bfold (place_skip h) p skips = BOk p' -> exists m', steps h N p p' m m'.
Proof using Hwf Hnames Hc.
  intros Hp H. apply (bfold_ind _ (fun q => exists m2, steps h N p q m m2) _ _ _ H); [exists m; apply steps_refl, Hp|].
  intros q q' f _ Hf (m1 & Hst). unfold place_skip in Hf. apply bres_bind_ok in Hf as ([s q1] & Hs & Hf).
  destruct (proj1 (placing_forms h Hwf Hnames N G c Hc (place_fuel h)) f q m1 s q1 (st_ok _ _ _ _ _ _ Hst) Hs) as (m2 & Hpl). pose proof (pc_steps _ _ _ _ _ _ _ _ _ _ Hpl) as Hst2.
  destruct (sr_extra _); injection Hf as <-; [exists m2; exact (steps_trans _ _ _ _ _ _ _ _ Hst Hst2)|].
  destruct (evolves_steps q1 m2 (Skip s (pl_g q1)) (st_ok _ _ _ _ _ _ Hst2) (Skip_evolves N s (pl_g q1))) as (m3 & Hst3). exists m3.
  exact (steps_trans _ _ _ _ _ _ _ _ Hst (steps_trans _ _ _ _ _ _ _ _ Hst2 Hst3)).
Qed.

(** The alternatives of the rules. *)
Lemma rules_steps rules : forall p m p', placing_ok h N p m -> (forall n b, (n, b) ∈ rules -> invented n = false /\ forall w, means h N b w -> N n w) ->
  bfold (place_rule h) p rules = BOk p' ->
  exists m', steps h N p p' m m' /\ forall n b, (n, b) ∈ rules -> exists r, g_byName (pl_g p') !! n = Some r /\ derives_form h G c p' r b.
Proof using Hwf Hnames Hc.
  induction rules as [|[n b] rules IH]; intros p m p' Hp Hrules H; simpl in H.
  - injection H as <-. exists m. split; [apply steps_refl, Hp|]. intros n b []%not_elem_of_nil.
  - apply bres_bind_ok in H as (p1 & H1 & H). destruct (Hrules n b ltac:(left)) as [Hinv Hroom]. unfold place_rule, on_grammar in H1. simpl fst in H1. simpl snd in H1.
    pose proof (Rule_named N n (pl_g p) Hinv) as K. destruct (Rule n (pl_g p)) as [r g1]. destruct K as [K1 K2].
    destruct (evolves_steps p m g1 Hp K2) as (m1 & Hst1). pose proof (st_ok _ _ _ _ _ _ Hst1) as Hok1.
    destruct (bd_byName _ _ _ (po_bounded _ _ _ _ Hok1) n r Hinv K1) as (L1 & _ & L2).
    destruct (proj2 (placing_forms h Hwf Hnames N G c Hc (place_fuel h)) r b noPrec _ m1 p1 Hok1) as (m2 & Hst2 & Hd); [lia|intros w Hw; apply L2, Hroom, Hw|exact H1|].
    pose proof (steps_trans _ _ _ _ _ _ _ _ Hst1 Hst2) as Hst12.
    destruct (IH p1 m2 p' (st_ok _ _ _ _ _ _ Hst2)) as (m3 & Hst3 & Hall); [intros n' b' Hin; apply Hrules; right; exact Hin|exact H|].
    exists m3. split; [exact (steps_trans _ _ _ _ _ _ _ _ Hst12 Hst3)|]. intros n' b' [E|Hin]%elem_of_cons; [|exact (Hall n' b' Hin)]. injection E as -> ->.
    exists r. split; [|exact (derives_form_ext h G c p1 p' r b Hd (st_ext _ _ _ _ _ _ Hst3))].
    apply (ext_byName _ _ (st_ext _ _ _ _ _ _ Hst3)); [exact Hinv|]. apply (ext_byName _ _ (st_ext _ _ _ _ _ _ Hst2)); [exact Hinv|exact K1].
Qed.

Lemma evolves_same g g' : same_rules g g' -> evolves N g g'.
Proof using. intros H. split; [apply same_rules_ext, H|]. intros m Hm. exists m. split; [reflexivity|exact (same_rules_bounded N g g' m H Hm)]. Qed.

Lemma Start_evolves n g : invented n = false -> evolves N g (Start n g).
Proof using.
  intros Hn. unfold Start. pose proof (Sym_named N n g Hn) as K. destruct (Sym n g) as [s g1]. destruct K as [Hs K]. etransitivity; [exact K|]. split.
  - split; simpl; auto. right. split; [reflexivity|]. exists n. auto.
  - intros m [B1 B2 B3 B4 B5 B6 B7]. exists m. split; [reflexivity|]. split; assumption.
Qed.

Lemma resolve_evolves seen final toks g : evolves N g (foldl (resolve_names h seen final) g toks).
Proof using.
  revert g. induction toks as [|t toks IH]; intros g; simpl; [reflexivity|]. etransitivity; [|apply IH]. unfold resolve_names.
  destruct (h !! t) as [fm|]; [|reflexivity]. destruct (seen !! t) as [s|]; [|reflexivity]. destruct (fm_hasPattern fm); [|reflexivity]. destruct (bp_prev _); [|reflexivity].
  apply evolves_alter; [split; auto|auto].
Qed.

Lemma resolve_start seen final toks g : g_start (foldl (resolve_names h seen final) g toks) = g_start g /\ g_startSet (foldl (resolve_names h seen final) g toks) = g_startSet g /\
  g_byName (foldl (resolve_names h seen final) g toks) = g_byName g.
Proof using.
  revert g. induction toks as [|t toks IH]; intros g; simpl; [auto|]. destruct (IH (resolve_names h seen final g t)) as (-> & -> & ->). unfold resolve_names.
  destruct (h !! t) as [fm|]; [|auto]. destruct (seen !! t) as [s|]; [|auto]. destruct (fm_hasPattern fm); [|auto]. destruct (bp_prev _); auto.
Qed.

(** What [Build] leaves: a bound for the finished grammar, the alternatives of
    every rule, and its start. *)
Record finished (f : nat) : Prop := {
  fi_bounded : exists m, bounded N G m;
  fi_rules n b : binds h f n b -> exists r, g_byName G !! n = Some r /\ forall M, derivable G c M -> forall w, means h M b w -> gen G c r w;
  fi_set : g_startSet G = false -> g_start G = 0;
  fi_start : g_startSet G = true -> exists n, invented n = false /\ g_byName G !! n = Some (g_start G);
  fi_starts n : starts h f n -> g_startSet G = true /\ g_byName G !! n = Some (g_start G) }.

Lemma Build_leaves name f : Build h name (Some f) = BOk G -> (forall n b w, binds h f n b -> means h N b w -> N n w) -> finished f.
Proof using Hwf Hnames Hc.
  intros HB HN. unfold Build in HB. apply bres_bind_ok in HB as (co & Hwalk & HB). destruct (walk_collects h f co Hwalk) as [C1 C2 C3].
  apply bres_bind_ok in HB as (p1 & H1 & HB). apply bres_bind_ok in HB as (p2 & H2 & HB). apply bres_bind_ok in HB as (p4 & H4 & HB).
  assert (Hp0 : placing_ok h N (mkPlacer (New name) ∅) [(fun _ => False); (fun _ => True)]).
  { split; [apply bounded_New|]. intros id s Hs. simpl in Hs. rewrite lookup_empty in Hs. discriminate. }
  destruct (tokens_steps _ _ _ _ Hp0 H1) as (m1 & S1). destruct (skips_steps _ _ _ _ (st_ok _ _ _ _ _ _ S1) H2) as (m2 & S2).
  set (p3 := if co_scanSet co then _ else p2) in H4. assert (S3 : exists m3, steps h N p2 p3 m2 m3).
  { pose proof (st_ok _ _ _ _ _ _ S2) as Hok. unfold p3. destruct (co_scanSet co); [|exists m2; apply steps_refl, Hok]. destruct (co_scan co) as [sf|]; [|exists m2; apply steps_refl, Hok].
    apply (evolves_steps p2 m2 (Scanner sf (pl_g p2)) Hok). apply evolves_same. split; auto. }
  destruct S3 as (m3 & S3). destruct (rules_steps (co_rules co) p3 m3 p4 (st_ok _ _ _ _ _ _ S3)) as (m4 & S4 & Hrules); [|exact H4|].
  { intros n b Hin. apply C1 in Hin. split; [|intros w; exact (HN n b w Hin)]. destruct Hin as (e & fm & _ & He & _ & <- & _). apply (plain_lookup h Hnames e fm He). }
  set (g5 := if co_startSet co then Start (co_start co) (pl_g p4) else pl_g p4) in HB. injection HB as HG.
  assert (E5 : evolves N (pl_g p4) g5).
  { unfold g5. destruct (co_startSet co) eqn:Es; [|reflexivity]. apply Start_evolves. destruct (C3 eq_refl) as (x & fm & Hx & ->). apply (plain_lookup h Hnames x fm Hx). }
  assert (E6 : evolves N (pl_g p4) G) by (etransitivity; [exact E5|]; rewrite <- HG; apply resolve_evolves).
  destruct (resolve_start (pl_seen p4) g5 (co_toks co) g5) as (R1 & R2 & R3). rewrite HG in R1, R2, R3.
  assert (Hset : co_startSet co = true -> g_startSet G = true /\ g_byName G !! co_start co = Some (g_start G)).
  { intros Es. rewrite R1, R2, R3. unfold g5. rewrite Es. unfold Start.
    pose proof (Sym_named N (co_start co) (pl_g p4) ltac:(destruct (C3 Es) as (x & fm & Hx & ->); apply (plain_lookup h Hnames x fm Hx))) as K.
    destruct (Sym (co_start co) (pl_g p4)) as [s g]. split; [reflexivity|exact (proj1 K)]. }
  pose proof (steps_trans _ _ _ _ _ _ _ _ S1 (steps_trans _ _ _ _ _ _ _ _ S2 (steps_trans _ _ _ _ _ _ _ _ S3 S4))) as S14.
  destruct (st_ok _ _ _ _ _ _ S14) as [Hb4 _]. destruct E6 as [E6 B6]. destruct (B6 m4 Hb4) as (m & _ & Hm).
  assert (EG : ext (New name) G) by (etransitivity; [exact (st_ext _ _ _ _ _ _ S14)|exact E6]). split.
  - exists m. exact Hm.
  - intros n b Hb. destruct (Hrules n b (proj2 (C1 n b) Hb)) as (r & Hr & Hd). exists r.
    split; [|exact (Hd E6)]. apply (ext_byName _ _ E6); [|exact Hr]. destruct Hb as (e & fm & _ & He & _ & <- & _). apply (plain_lookup h Hnames e fm He).
  - intros Hs. destruct (ext_start _ _ EG) as [[K _]|[K _]]; [exact K|congruence].
  - intros Hs. destruct (ext_start _ _ EG) as [[_ K]|[_ K]]; [rewrite Hs in K; discriminate K|exact K].
  - intros n Hn. destruct (C2 n Hn) as [Es <-]. exact (Hset Es).
Qed.
End built.

(** ** The language of a built grammar *)

Section language.
Context (h : arena) (Hwf : arena_wf h = true) (Hnames : names_plain h = true) (name : string) (f : nat) (G : Grammar) (HB : Build h name (Some f) = BOk G).
Context (c : compiler) (Hc : prepareCompiler G = Some c).

Lemma built_finished : finished h G c (sentence h f (token_name G)) f.
Proof using Hwf Hnames HB Hc. apply (Build_leaves h Hwf Hnames G c Hc _ name f HB). intros n b w. apply (sentence_rule h Hwf f (token_name G) n b w). Qed.

(** A derivation stays in the bound of its symbol. *)
Lemma bounded_derives m t : bounded (sentence h f (token_name G)) G m -> forall X, derives c X t -> X < length (g_syms G) ->
  (sr_kind (sym_at G X) = kindNonterm \/ sr_extra (sym_at G X) = false) -> mu m X (map (fun k => sr_name (sym_at G (t_id k))) (yield t)).
Proof using Hc.
  intros Hm. pose proof (bd_length _ _ _ Hm) as Hl. destruct (prepare_inv G c Hc) as (_ & _ & _ & _ & _ & Hok & _).
  induction t as [k|i kids IH] using ptree_nested_ind; intros X H HX Hx; inversion H as [k' Hk|i' p kids' Hp Hkids]; subst.
  - rewrite (checked_terminal G c Hc _ HX) in Hk. apply bool_decide_eq_true in Hk. destruct Hx as [Hx|Hx]; [congruence|]. simpl.
    destruct (bd_terms _ _ _ Hm (t_id k) ltac:(lia) Hk Hx) as [E|[Hinv Hn]]; [rewrite E; apply (bd_eof _ _ _ Hm)|].
    apply (bd_byName _ _ _ Hm _ _ Hinv Hn). exists 0. left. split; [exists (t_id k); auto|reflexivity].
  - destruct (checked_prod G c Hc p (list_elem_of_lookup_2 _ _ _ Hp)) as [ ->|(p0 & Hp0 & ->)]; [simpl in HX; lia|]. simpl in *.
    destruct (prod_ok_inv G c Hc p0 Hp0) as (_ & _ & Hrhs).
    assert (Hws : Forall2 (mu m) (pr_rhs p0) (map (fun t => map (fun k => sr_name (sym_at G (t_id k))) (yield t)) kids)).
    { clear -IH Hkids Hrhs. revert IH. induction Hkids as [|s t ss ts Ht _ IHk]; intros IH; [constructor|]. apply Forall_cons in IH as [I1 I2]. simpl. constructor.
      - destruct (Hrhs s ltac:(left)) as (_ & K1 & K2). apply I1; auto.
      - apply IHk; [|exact I2]. intros s' Hs'. apply Hrhs. right. exact Hs'. }
    pose proof (bd_prods _ _ _ Hm p0 _ Hp0 Hws) as Hmu. replace (map _ (flat_map yield kids)) with (concat (map (fun t => map (fun k => sr_name (sym_at G (t_id k))) (yield t)) kids)); [exact Hmu|].
    clear. induction kids as [|t ts IH]; simpl; [reflexivity|]. rewrite map_app, IH. reflexivity.
Qed.

(** A name derives what it stands for. *)
Lemma named_derivable k : derivable G c (named h (token_name G) (binds h f) k).
Proof using Hwf Hnames HB Hc.
  destruct built_finished as [[m Hm] Hrules _ _ _]. pose proof (bd_length _ _ _ Hm) as Hl. induction k as [|k IH]; intros n w s Hinv Hw Hs.
  - destruct Hw as [[(s' & Hs' & Hk) ->]|[]]. rewrite Hs in Hs'. injection Hs' as <-. destruct (bd_byName _ _ _ Hm n s Hinv Hs) as (L1 & L2 & _).
    rewrite <- L2. apply (gen_token G c Hc s); [lia|exact Hk].
  - destruct Hw as [[(s' & Hs' & Hk) ->]|(b & Hb & Hw)].
    + rewrite Hs in Hs'. injection Hs' as <-. destruct (bd_byName _ _ _ Hm n s Hinv Hs) as (L1 & L2 & _). rewrite <- L2. apply (gen_token G c Hc s); [lia|exact Hk].
    + destruct (Hrules n b Hb) as (r & Hr & Hd). rewrite Hs in Hr. injection Hr as <-. exact (Hd _ IH w Hw).
Qed.

(** The start has a name of the user. *)
Lemma start_named : exists n, invented n = false /\ g_byName G !! n = Some (start_of G).
Proof using Hwf Hnames HB Hc.
  destruct built_finished as [[m Hm] _ Hunset Hset _]. destruct (prepare_inv G c Hc) as (Hne & Hlt & Hk & _). unfold start_of in *.
  destruct (g_startSet G) eqn:Es; [exact (Hset eq_refl)|]. destruct (list_find _ (g_prods G)) as [[i p]|] eqn:El; [|destruct (Hne (Hunset eq_refl))].
  apply list_find_Some in El as (_ & Hv & _). apply Is_true_true, negb_true_iff in Hv. pose proof (bd_length _ _ _ Hm) as Hl. destruct (bd_eof _ _ _ Hm) as (_ & He & _).
  assert (pr_lhs p <> 1) by (intros E; rewrite E, He in Hk; discriminate). destruct (bd_visible _ _ _ Hm (pr_lhs p)) as [K|[K1 K2]]; [lia|congruence|eauto].
Qed.

Lemma built_sentences w :
  (exists t, derives c (start_of G) t /\ map (fun k => sr_name (sym_at G (t_id k))) (yield t) = w) <->
  sentence h f (token_name G) (sr_name (sym_at G (start_of G))) w.
Proof using Hwf Hnames HB Hc.
  destruct start_named as (n & Hinv & Hs). destruct built_finished as [[m Hm] _ _ _ _]. destruct (bd_byName _ _ _ Hm n _ Hinv Hs) as (L1 & L2 & L3). rewrite L2.
  destruct (prepare_inv G c Hc) as (_ & Hlt & Hk & _). split.
  - intros (t & Ht & <-). apply L3, (bounded_derives m t Hm); [exact Ht|exact Hlt|left; exact Hk].
  - intros (k & Hw). exact (named_derivable k n w (start_of G) Hinv Hw Hs).
Qed.

Lemma built_start_named n : starts h f n -> sr_name (sym_at G (start_of G)) = n.
Proof using Hwf Hnames HB Hc.
  intros Hn. destruct built_finished as [[m Hm] _ _ _ Hst]. destruct (Hst n Hn) as [Es Hs]. unfold start_of. rewrite Es.
  assert (Hinv : invented n = false) by (destruct Hn as (x & fm & _ & Hx & _ & <-); apply (plain_lookup h Hnames x fm Hx)).
  destruct (bd_byName _ _ _ Hm n _ Hinv Hs) as (_ & L2 & _). exact L2.
Qed.
End language.
