(* ===== verification/Compiled.v ===== *)
(** * Compiled grammars

    The tables that [Compile] of x/parse/compile.go makes have the laws that the
    parser of parse.go needs, so what [Parse] returns is a derivation. *)
From Stdlib Require Import ZArith Lia.
From Stdlib Require Import Strings.Byte.
From stdpp Require Import base numbers option list strings gmap relations.
From S2P Require Import Prelude Grammars Compile Lexer Derive Firsts Automaton Language Machine Checked Glr Stacks Rounds Trees Nodes.

Local Open Scope nat_scope.

Section compiled.
Context (g : Grammar) (c : compiler) (Hc : compiler_wf c) (Hf : fits c) (Hstart : item_ok c startItem).
Context (start : nat) (Hacc : accept_wf c start) (a : automaton) (Ha : complete c a).

Local Abbreviation lang := (language_of g c a).

(** The items of the first state, and of one that an edge leads to. *)
Lemma state_zero : forall it, it ∈ state_items a 0 <-> in_closure c [startItem] it.
Proof using Ha Hc Hstart.
  intros it. unfold state_items. rewrite (bu_first _ _ _ Ha). simpl. apply (closure_spec c Hc). exact (startItem_ok c Hstart).
Qed.

Lemma state_moved q s q' : goto a q s = Some q' -> exists seed, (forall it, it ∈ seed -> item_ok c it /\ i_dot it <> 0) /\
  forall it, it ∈ state_items a q' <-> in_closure c seed it.
Proof using Ha Hc.
  intros Hg. destruct (goto_lookup c a Ha _ _ _ Hg) as (items & Hq & _ & Hq'). exists (moved c items s).
  pose proof (so_canonical _ _ (bu_ok _ _ _ Ha) _ (list_elem_of_lookup_2 _ _ _ Hq)) as Hcan. split.
  - intros it Hit. split; [exact (moved_ok c Hc items s it Hcan Hit)|]. apply elem_of_moved in Hit as (it0 & _ & _ & ->). discriminate.
  - intros it. unfold state_items. rewrite Hq'. simpl. apply (closure_spec c Hc). intros it'. apply (moved_ok c Hc items s it' Hcan).
Qed.

(** The closure adds alternatives of the symbols after its dots, never the first. *)
Lemma added_item seed it i look p : (forall it, it ∈ seed -> item_ok c it) -> in_closure c seed it -> mkItem i 0 look ∈ item_adds c (nullableFirst c) it ->
  c_prods c !! i = Some p -> i <> 0 /\ after_dot c it = Some (p_lhs p).
Proof using Hc Hacc.
  intros Hseed Hin (b & i' & p' & Hdot & _ & Hp' & Hl & Hi & _)%elem_of_item_adds Hp. simpl in Hi. subst i' b. rewrite Hp in Hp'. injection Hp' as <-.
  split; [|exact Hdot]. intros ->. destruct (in_closure_ok c Hc seed it Hseed Hin) as (Hlt & _). destruct (lookup_lt_is_Some_2 _ _ Hlt) as [p1 Hp1].
  unfold after_dot in Hdot. rewrite (c_prod_lookup c _ _ Hp1) in Hdot. exact (aw_unused _ _ Hacc p1 _ p Hp Hp1 (list_elem_of_lookup_2 _ _ _ Hdot)).
Qed.

Lemma start_not_moved q s q' look : goto a q s = Some q' -> mkItem 0 0 look ∉ state_items a q'.
Proof using Ha Hc Hacc.
  intros Hg Hit. destruct (state_moved q s q' Hg) as (seed & Hseed & Hstate). apply Hstate in Hit. destruct (aw_prod _ _ Hacc) as (p0 & Hp0 & _).
  inversion Hit as [it Hin Ei|it it' Hin Hadd Ei]; subst; [exact (proj2 (Hseed _ Hin) eq_refl)|].
  destruct (added_item seed it 0 look p0 (fun it H => proj1 (Hseed it H)) Hin Hadd Hp0). congruence.
Qed.

Lemma start_look look : mkItem 0 0 look ∈ state_items a 0 -> look = SymEOF.
Proof using Ha Hc Hacc Hstart.
  intros Hit%state_zero. destruct (aw_prod _ _ Hacc) as (p0 & Hp0 & _).
  inversion Hit as [it Hin Ei|it it' Hin Hadd Ei]; subst; [apply list_elem_of_singleton in Hin; injection Hin as ->; reflexivity|].
  destruct (added_item _ it 0 look p0 (startItem_ok c Hstart) Hin Hadd Hp0). congruence.
Qed.

(** A state with an alternative before its first symbol has an edge over its rule. *)
Lemma goto_of_item q i look p : q = 0 \/ (exists q0 s, goto a q0 s = Some q) -> mkItem i 0 look ∈ state_items a q -> c_prods c !! i = Some p -> i <> 0 ->
  exists q', goto a q (p_lhs p) = Some q'.
Proof using Ha Hc Hacc Hstart.
  intros Hq Hit Hp Hi.
  assert (Hseed : exists seed, (forall it, it ∈ seed -> item_ok c it) /\ mkItem i 0 look ∉ seed /\ forall it, it ∈ state_items a q <-> in_closure c seed it).
  { destruct Hq as [->|(q0 & s & Hg)].
    - exists [startItem]. split; [exact (startItem_ok c Hstart)|]. split; [intros Hin%list_elem_of_singleton; injection Hin; congruence|exact state_zero].
    - destruct (state_moved q0 s q Hg) as (seed & Hseed & Hstate). exists seed. split; [intros it H; apply (Hseed it H)|]. split; [|exact Hstate].
      intros Hin. exact (proj2 (Hseed _ Hin) eq_refl). }
  destruct Hseed as (seed & Hseed & Hnot & Hstate). pose proof (proj1 (Hstate _) Hit) as Hcl.
  inversion Hcl as [it Hin Ei|it it' Hin Hadd Ei]; subst; [contradiction|].
  destruct (added_item seed it i look p Hseed Hin Hadd Hp) as [_ Hdot].
  destruct (goto_forward c Hc a Ha q it _ (proj2 (Hstate it) Hin) Hdot) as (q' & Hg & _). eauto.
Qed.

Lemma compiled_laws : table_laws lang c start (state_items a) (goto a).
Proof using Ha Hc Hf Hstart Hacc.
  assert (Hlang : l_prods lang = c_prods c /\ l_syms lang = c_syms c /\ l_start lang = 0 /\ l_states lang = length (a_states a)).
  { unfold language_of. destruct (foldl _ _ _). auto. }
  destruct Hlang as (E1 & E2 & E3 & E4). split; try assumption.
  - apply (state_item_ok c Hc a Ha).
  - intros q s acts x. apply (cell_action g c Hc Hf Hstart a Ha).
  - intros q s. apply (gto_cell g c Hc Hf a Ha).
  - intros q s q' i d look. apply (goto_backward c Hc a Ha).
  - apply (goto_not_start c Hc Hstart a Ha).
  - apply goto_of_item.
  - apply start_look.
  - intros q s q' Hg. destruct (goto_symbol c Hc a Ha q s q' Hg) as (_ & H1 & H2). rewrite E4. lia.
  - apply (start_dots c Hc Hstart a Ha).
  - apply start_not_moved.
Qed.
End compiled.

(** ** Tokens of a scanner *)

(** The symbols of a scanner are numbered in 16 bits. *)
Definition scan_fits (sf : ScanFunc) : Prop := forall src at_ valid st tk,
  fst (sf_scan sf src at_ valid st) = Some tk -> (Z.of_nat (sc_id tk) < 65536)%Z.

(** The tokens before the only end of the input, which is last. *)
Definition ends_once (toks : list tok) : Prop :=
  exists ts eof, toks = ts ++ [eof] /\ t_id eof = SymEOF /\ Forall (fun t => t_id t <> SymEOF) ts.

Lemma prelex_loop_ends sf src limit : forall zeros toks st res, Forall (fun t => t_id t <> SymEOF) toks ->
  prelex_loop limit sf src zeros toks st = inl res -> ends_once res.
Proof.
  induction limit as [|limit IH]; intros zeros toks st res Hall H; cbn [prelex_loop] in H; [discriminate|].
  destruct (sf_scan sf src (ls_At st) (fun _ => true) st) as [[t|] st']; [|discriminate].
  destruct (_ || _); [discriminate|]. destruct (_ && (4 <? _)); [discriminate|].
  destruct (Nat.eqb_spec (sc_id t) SymEOF) as [E|Hne].
  - injection H as <-. eexists toks, _. split; [reflexivity|]. split; [exact E|exact Hall].
  - apply IH in H; [exact H|]. apply Forall_app. split; [exact Hall|]. constructor; [exact Hne|constructor].
Qed.

Lemma prelex_loop_fits sf src : scan_fits sf -> forall limit zeros toks st res, Forall (fun t => (Z.of_nat (t_id t) < 65536)%Z) toks ->
  prelex_loop limit sf src zeros toks st = inl res -> Forall (fun t => (Z.of_nat (t_id t) < 65536)%Z) res.
Proof.
  intros Hsf. induction limit as [|limit IH]; intros zeros toks st res Hall H; cbn [prelex_loop] in H; [discriminate|].
  pose proof (Hsf src (ls_At st) (fun _ => true) st) as K.
  destruct (sf_scan sf src (ls_At st) (fun _ => true) st) as [[t|] st']; [|discriminate]. specialize (K t eq_refl).
  destruct (_ || _); [discriminate|]. destruct (_ && (4 <? _)); [discriminate|].
  assert (Hall' : Forall (fun t => (Z.of_nat (t_id t) < 65536)%Z) (toks ++ [mkTok (sc_id t) (Z.to_nat (sc_start t)) (Z.to_nat (sc_end t))])).
  { apply Forall_app. split; [exact Hall|]. constructor; [exact K|constructor]. }
  destruct (_ =? _); [injection H as <-; exact Hall'|]. exact (IH _ _ _ _ Hall' H).
Qed.

(** ** The tokens that a language reads *)

(** [ts] are the tokens of the input up to its end: those of the scanner, or one
    after the other those of the lexer, in the state of some head. *)
Definition tokens_of (l : Language) (src : list byte) (ts : list tok) : Prop :=
  match l_scan l with
  | Some sf => exists eof, prelex l sf src = inl (ts ++ [eof]) /\ t_id eof = SymEOF
  | None => exists pos eof pos', spans l src [] false 0 ts pos /\ scans l src [] false pos eof pos' /\ t_id eof = SymEOF
  end.

Lemma spans_toks l src toks a ts b : spans l src toks true a ts b -> b = a + length ts /\ take (length ts) (drop a toks) = ts.
Proof.
  induction 1 as [pos|pos t pos' ts pos'' [Ht ->] _ [-> IH]]; [split; [simpl; lia|reflexivity]|]. split; [simpl; lia|].
  rewrite (drop_S _ _ _ Ht). simpl. rewrite IH. reflexivity.
Qed.

Lemma spans_to_end l src toks ts pos tk pos' : ends_once toks -> spans l src toks true 0 ts pos -> scans l src toks true pos tk pos' ->
  t_id tk = SymEOF -> toks = ts ++ [tk].
Proof.
  intros (us & eof & -> & He & Hall) [-> Hts]%spans_toks [Htk _] Hid. simpl in Htk. rewrite drop_0 in Hts.
  assert (Hlen : length ts = length us).
  { pose proof (lookup_lt_Some _ _ _ Htk) as Hlt. rewrite length_app in Hlt. simpl in Hlt. destruct (decide (length ts < length us)); [|lia].
    rewrite lookup_app_l in Htk by assumption. rewrite Forall_forall in Hall. destruct (Hall tk (list_elem_of_lookup_2 _ _ _ Htk) Hid). }
  rewrite Hlen, take_app_length in Hts. subst ts. rewrite lookup_app_r, Nat.sub_diag in Htk by lia. injection Htk as <-. reflexivity.
Qed.

(** What [Parse] returns is a derivation of the tokens of the input. *)
Lemma laws_parse l c start items go pathLimit src tree : table_laws l c start items go -> (Z.of_nat (length (l_syms l)) <= 65536)%Z ->
  (forall sf, l_scan l = Some sf -> scan_fits sf) -> Parse pathLimit l src = inl tree ->
  exists t, derives c start t /\ reads c (t_nodes tree) (t_kids tree) (t_root tree) (flat c t) /\ tokens_of l src (yield t).
Proof.
  intros L Hsyms Hscan H. unfold Parse in H. unfold tokens_of. destruct (l_scan l) as [sf|] eqn:Es.
  - destruct (prelex l sf src) as [toks|e] eqn:Ep; [|discriminate].
    destruct (parse_run l src toks true (lineStarts src) pathLimit) as [[nd p]|e] eqn:Er; [|discriminate]. injection H as <-.
    assert (Hfits : Forall (fun t => (Z.of_nat (t_id t) < 65536)%Z) toks) by exact (prelex_loop_fits sf src (Hscan sf eq_refl) _ _ _ _ _ (Forall_nil_2 _) Ep).
    destruct (parse_run_sound l c start items go L src toks true _ pathLimit Hfits Hsyms nd p Er) as (pos & t & tk & pos' & Ht & Hr & Hs & Hsc & Hid).
    exists t. split; [exact Ht|]. split; [exact (concreteTree_reads c _ _ l src _ nd _ Hr)|]. exists tk. split; [|exact Hid].
    f_equal. exact (spans_to_end l src toks (yield t) pos tk pos' (prelex_loop_ends _ _ _ _ _ _ _ (Forall_nil_2 _) Ep) Hs Hsc Hid).
  - destruct (parse_run l src [] false (lineStarts src) pathLimit) as [[nd p]|e] eqn:Er; [|discriminate]. injection H as <-.
    destruct (parse_run_sound l c start items go L src [] false _ pathLimit (Forall_nil_2 _) Hsyms nd p Er) as (pos & t & tk & pos' & Ht & Hr & Hs & Hsc & Hid).
    exists t. split; [exact Ht|]. split; [exact (concreteTree_reads c _ _ l src _ nd _ Hr)|]. exists pos, tk, pos'. auto.
Qed.

(** A tree keeps its language and its source. *)
Lemma concreteTree_keeps l src nodes kids lines root :
  t_lang (concreteTree l src nodes kids lines root) = l /\ t_Src (concreteTree l src nodes kids lines root) = src.
Proof. unfold concreteTree. destruct (_ || _); [split; reflexivity|]. destruct (foldl _ _ _). split; reflexivity. Qed.

Lemma Parse_keeps pathLimit l src tree : Parse pathLimit l src = inl tree -> t_lang tree = l /\ t_Src tree = src.
Proof.
  unfold Parse. destruct (l_scan l) as [sf|]; [destruct (prelex l sf src); [|discriminate]|]; destruct (parse_run _ _ _ _ _ _) as [[root p]|e]; try discriminate;
    intros [= <-]; apply concreteTree_keeps.
Qed.

(** ** A grammar that compiles *)

Record compiled (g : Grammar) (c : compiler) (a : automaton) (l : Language) : Prop := {
  cd_prepare : prepareCompiler g = Some c;
  cd_states : complete c a;
  cd_language : l = language_of g c a }.

Lemma Compile_compiled fuel g l : grammar_ok g -> grammar_fits g -> Compile fuel g = Some (Some l) -> exists c a, compiled g c a l.
Proof.
  intros Hg Hfit H. unfold Compile in H. destruct (prepareCompiler g) as [c|] eqn:Ep; [|discriminate].
  destruct (build_states fuel c (nullableFirst c)) as [a|] eqn:Eb; [|discriminate]. injection H as <-. exists c, a. split; [exact Ep| |reflexivity].
  exact (build_states_complete c (checked_wf g c Ep Hg) (checked_fits g c Ep Hfit) (checked_start g c Ep) fuel a Eb).
Qed.

Lemma language_of_syms g c a : l_syms (language_of g c a) = c_syms c.
Proof. unfold language_of. destruct (foldl _ _ _); reflexivity. Qed.

Lemma compiled_syms g c a l : prepareCompiler g = Some c -> grammar_fits g -> compiled g c a l -> (Z.of_nat (length (l_syms l)) <= 65536)%Z.
Proof.
  intros Ep [Hs _] [_ _ ->]. rewrite language_of_syms, (checked_syms g c Ep). lia.
Qed.

Lemma compiled_table g c a l : grammar_ok g -> grammar_fits g -> compiled g c a l -> table_laws l c (start_of g) (state_items a) (goto a).
Proof.
  intros Hg Hfit [Ep Ha ->].
  exact (compiled_laws g c (checked_wf g c Ep Hg) (checked_fits g c Ep Hfit) (checked_start g c Ep) (start_of g) (checked_accept_wf g c Ep Hg) a Ha).
Qed.

Lemma compiled_scan g c a l : compiled g c a l -> l_scan l = g_scan g.
Proof. intros [_ _ ->]. unfold language_of. destruct (foldl _ _ _). reflexivity. Qed.

(** The tree that [Parse] returns, and its leaves. *)
Lemma compiled_parse fuel g l pathLimit src tree : grammar_ok g -> grammar_fits g -> Compile fuel g = Some (Some l) ->
  (forall sf, g_scan g = Some sf -> scan_fits sf) -> Parse pathLimit l src = inl tree ->
  exists c t, prepareCompiler g = Some c /\ l_syms l = c_syms c /\ t_lang tree = l /\ derives c (start_of g) t /\ tokens_of l src (yield t) /\
    reads c (t_nodes tree) (t_kids tree) (t_root tree) (flat c t) /\ t_Src tree = src /\ Leaves (Some tree) = Some (map (leaf_of tree) (yield t)).
Proof.
  intros Hg Hfit Hl Hscan Hparse. destruct (Compile_compiled fuel g l Hg Hfit Hl) as (c & a & Hcomp). pose proof (cd_prepare _ _ _ _ Hcomp) as Ep.
  destruct (laws_parse l c (start_of g) _ _ pathLimit src tree (compiled_table g c a l Hg Hfit Hcomp) (compiled_syms g c a l Ep Hfit Hcomp)) as (t & H1 & H2 & H3).
  - intros sf E. apply Hscan. rewrite <- (compiled_scan g c a l Hcomp). exact E.
  - exact Hparse.
  - destruct (Parse_keeps _ _ _ _ Hparse) as [El Esrc]. assert (Es : l_syms l = c_syms c) by (rewrite (cd_language _ _ _ _ Hcomp); apply language_of_syms).
    exists c, t. repeat (split; [assumption|]). rewrite <- flat_leaves with (c := c). refine (tree_leaves c tree _ _ H2). rewrite El. exact Es.
Qed.

(** ** Small grammars *)

Definition small (g : Grammar) : bool :=
  (length (g_syms g) <? 100) && forallb (fun p => (pr_lhs p <? length (g_syms g)) && (length (pr_rhs p) <? 100)) (g_prods g).

Lemma small_ok g : small g = true -> grammar_ok g /\ grammar_fits g.
Proof.
  unfold small. intros [H1 H2]%andb_prop. apply Nat.ltb_lt in H1. rewrite forallb_forall in H2.
  assert (H : forall p, p ∈ g_prods g -> pr_lhs p < length (g_syms g) /\ length (pr_rhs p) < 100).
  { intros p Hp%list_elem_of_In. specialize (H2 p Hp). apply andb_prop in H2 as [K1 K2]. apply Nat.ltb_lt in K1, K2. auto. }
  split; [intros p Hp; apply (H p Hp)|]. split; [lia|]. intros p Hp. destruct (H p Hp). lia.
Qed.

(** ** The bounds of the parser *)

(** The parser's bounds are enough for these tokens, where the machine makes
    fewer than [B] reductions in a row. *)
Record within (l : Language) (src : list byte) (toks : list tok) (B : nat) : Prop := {
  wi_states : (Z.of_nat (3 * Nat.max 1 (l_states l)) <= maxHeads)%Z;
  wi_stall : (Z.of_nat B <= maxStall)%Z;
  wi_eps : (Z.of_nat B <= maxEpsilon)%Z \/ forall i info, l_prods l !! i = Some info -> p_rhs info <> [];
  wi_rounds : (length toks + 1) * (B + 1) <= step_limit src;
  wi_calm y : rtc (mstep l) (mkConfig [0] (map t_id toks) 0) y -> m_stall y < B }.

Definition within_check (fuel : nat) (l : Language) (src : list byte) (toks : list tok) (B : nat) : bool :=
  (Z.of_nat (3 * Nat.max 1 (l_states l)) <=? maxHeads)%Z && (Z.of_nat B <=? maxEpsilon)%Z && ((length toks + 1) * (B + 1) <=? step_limit src) &&
  all_calm fuel l B [mkConfig [0] (map t_id toks) 0].

Lemma within_checked fuel l src toks B : within_check fuel l src toks B = true -> within l src toks B.
Proof.
  unfold within_check. intros [[[H1 H2]%andb_prop H3]%andb_prop H4]%andb_prop. apply Z.leb_le in H1, H2. apply Nat.leb_le in H3.
  split; [exact H1|unfold maxStall, maxEpsilon in *; lia|left; exact H2|exact H3|]. intros y Hy. exact (all_calm_spec fuel l B _ H4 _ y (list_elem_of_here _ _) Hy).
Qed.

(** Where a scanner numbers the end of the input. *)
Lemma ends_last toks : ends_once toks -> forall i t, toks !! i = Some t -> t_id t = SymEOF -> i = length toks - 1.
Proof.
  intros (ts & eof & -> & _ & Hall) i t Hi Ht. rewrite length_app. simpl. apply lookup_app_Some in Hi as [Hi|[Hge Hi]].
  - rewrite Forall_forall in Hall. destruct (Hall t (list_elem_of_lookup_2 _ _ _ Hi) Ht).
  - destruct (i - length ts) as [|j] eqn:E; simpl in Hi; [lia|rewrite lookup_nil in Hi; discriminate].
Qed.

(** Over the tokens of a scanner [Parse] accepts what the machine accepts. *)
Lemma compiled_exact g c a l pathLimit src sf toks B : grammar_ok g -> grammar_fits g -> compiled g c a l -> g_scan g = Some sf -> scan_fits sf ->
  prelex l sf src = inl toks -> within l src toks B ->
  match Parse pathLimit l src with
  | inl _ => accepts_from l (mkConfig [0] (map t_id toks) 0)
  | inr e => e_Detail e = "too many stacks"%string \/ ~ accepts_from l (mkConfig [0] (map t_id toks) 0)
  end.
Proof.
  intros Hg Hfit Hcomp Hscan Hsf Hp [W1 W2 W3 W4 W5]. pose proof (compiled_table g c a l Hg Hfit Hcomp) as L.
  pose proof (cd_prepare _ _ _ _ Hcomp) as Ep. pose proof (compiled_syms g c a l Ep Hfit Hcomp) as Hsyms.
  assert (Hfits : Forall (fun t => (Z.of_nat (t_id t) < 65536)%Z) toks) by exact (prelex_loop_fits sf src Hsf _ _ _ _ _ (Forall_nil_2 _) Hp).
  pose proof (ends_last toks (prelex_loop_ends _ _ _ _ _ _ _ (Forall_nil_2 _) Hp)) as Hlast.
  assert (Haccept : forall q acts x, acts_at l q SymEOF = Some acts -> x ∈ acts -> ac_kind x = actAccept -> acts = [mkAction actAccept 0]).
  { destruct Hcomp as [_ Ha ->]. exact (cell_only_accept g c (checked_wf g c Ep Hg) (checked_fits g c Ep Hfit) (checked_start g c Ep) a Ha). }
  unfold Parse. rewrite (compiled_scan g c a l Hcomp), Hscan, Hp.
  pose proof (parse_run_exact l c _ _ _ L src toks (lineStarts src) pathLimit Haccept Hfits Hsyms B W2 W3 W5 _ Hlast W1 W4) as K.
  destruct (parse_run _ _ _ _ _ _) as [[nd p]|e]; exact K.
Qed.

(** The machine of a plain grammar accepts its sentences. *)
Lemma compiled_sentence g c a l t0 : grammar_ok g -> grammar_fits g -> compiled g c a l -> (forall p, p ∈ g_prods g -> pr_hasPrec p = false) ->
  derives c (start_of g) t0 -> accepts_from l (mkConfig [0] (map t_id (yield t0) ++ [SymEOF]) 0).
Proof.
  intros Hg Hfit [Ep Ha ->] Hplain Ht. apply (accepted_from _ (length (script t0))).
  apply (sentence_accepted g c (checked_wf g c Ep Hg) (checked_fits g c Ep Hfit) (checked_start g c Ep) _ (checked_accept_wf g c Ep Hg) a Ha (checked_plain g c Ep Hplain)); [exact Ht|].
  apply calm_long. lia.
Qed.
