(* ===== verification/Tables.v ===== *)
(** * Stored tables

    x/parse/table.go: the tables of a language as bytes, and back.  Writing to a
    [bytes.Buffer] does not fail, so a writer is a list of bytes, or [None] for
    [errs.ErrInvalid].  A reader is a function of the bytes that are left. *)
From Stdlib Require Import ZArith Lia.
From Stdlib Require Import Strings.Byte.
From stdpp Require Import base numbers option list strings gmap sorting.
From S2P Require Import Prelude Grammars Compile.

Local Open Scope nat_scope.

(** ** Bytes *)

Definition tableMagic : string := "LK01".

Definition byte_of (z : Z) : byte := default x00 (Byte.of_N (Z.to_N (z mod 256))).

(** [n] bytes of a number in two's complement, the lowest first. *)
Fixpoint le (n : nat) (z : Z) : list byte :=
  match n with O => [] | S n' => byte_of z :: le n' (z / 256)%Z end.
Fixpoint le_value (bs : list byte) : Z :=
  match bs with [] => 0 | b :: bs' => byte_code b + 256 * le_value bs' end.

(** An int cut to [bits] bits, with its sign. *)
Definition sint (bits z : Z) : Z := ((z + 2 ^ (bits - 1)) mod 2 ^ bits - 2 ^ (bits - 1))%Z.

(** ** Writing *)

Definition writeString (text : string) : list byte := le 4 (Z.of_nat (String.length text)) ++ bytes_of text.
Definition writeCount (n : nat) : option (list byte) :=
  if (2 ^ 32 - 1 <? Z.of_nat n)%Z then None else Some (le 4 (Z.of_nat n)).
Definition writeID (id : nat) : list byte := le 2 (Z.of_nat id).

(** The writer of each element in turn. *)
Definition write_all {A} (f : A -> option (list byte)) (l : list A) : option (list byte) := bs ← mapM f l; Some (concat bs).

Definition add_flag (b : bool) (f flags : Z) : Z := if b then Z.lor flags f else flags.
Definition symFlags (sym : symInfo) : Z :=
  add_flag (si_external sym) 32 (add_flag (si_immediate sym) 16 (add_flag (si_extra sym) 8
    (add_flag (si_hidden sym) 4 (add_flag (si_named sym) 2 (add_flag (si_terminal sym) 1 0))))).

Definition has_flag (flags f : Z) : bool := negb (Z.land flags f =? 0)%Z.
Definition symFromFlags (flags : Z) : symInfo :=
  mkSymInfo EmptyString (has_flag flags 1) (has_flag flags 2) (has_flag flags 4) (has_flag flags 8) (has_flag flags 16) (has_flag flags 32) None None 0.

Definition write_sym (sym : symInfo) : option (list byte) :=
  if negb (si_lexPrec sym =? sint 16 (si_lexPrec sym))%Z then None
  else Some (writeString (si_name sym) ++ [byte_of (symFlags sym)] ++ le 2 (si_lexPrec sym)).

Definition assoc_code (a : Assoc) : Z := match a with AssocNone => 0 | AssocLeft => 1 | AssocRight => 2 end.

Definition write_prod (p : prodInfo) : option (list byte) :=
  n ← writeCount (length (p_rhs p));
  if negb (p_prec p =? sint 32 (p_prec p))%Z || negb (p_dyn p =? sint 32 (p_dyn p))%Z then None
  else Some (writeID (p_lhs p) ++ n ++ flat_map writeID (p_rhs p)
             ++ [byte_of (add_flag (p_hidden p) 4 (add_flag (p_hasPrec p) 1 0)); byte_of (assoc_code (p_assoc p))]
             ++ le 4 (p_prec p) ++ le 4 (p_dyn p)).

(** *** Cells *)

Record actCell : Type := mkActCell { act_state : nat; act_sym : nat; act_acts : list action }.
Record gtoCell : Type := mkGtoCell { gto_state : nat; gto_sym : nat; gto_dest : nat }.

(** The state and the symbol of a key, as a uint32 and a uint16. *)
Definition key_state (key : N) : nat := N.to_nat (N.shiftr key 16 mod 2 ^ 32).
Definition key_sym (key : N) : nat := N.to_nat (key mod 2 ^ 16).

Definition cell_le (a b : nat * nat) : bool := (fst a <? fst b) || ((fst a =? fst b) && (snd a <=? snd b)).

Definition actionCells (l : Language) : list actCell :=
  merge_sort (fun a b => Is_true (cell_le (act_state a, act_sym a) (act_state b, act_sym b)))
    (map (fun '(key, acts) => mkActCell (key_state key) (key_sym key) acts) (map_to_list (l_act l))).
Definition gotoCells (l : Language) : list gtoCell :=
  merge_sort (fun a b => Is_true (cell_le (gto_state a, gto_sym a) (gto_state b, gto_sym b)))
    (map (fun '(key, dest) => mkGtoCell (key_state key) (key_sym key) dest) (map_to_list (l_gto l))).

Definition write_action (a : action) : list byte := byte_of (Z.of_nat (ac_kind a)) :: le 4 (Z.of_nat (ac_val a)).
Definition write_act (cell : actCell) : option (list byte) :=
  n ← writeCount (length (act_acts cell));
  Some (le 4 (Z.of_nat (act_state cell)) ++ writeID (act_sym cell) ++ n ++ flat_map write_action (act_acts cell)).
Definition write_goto (cell : gtoCell) : list byte :=
  le 4 (Z.of_nat (gto_state cell)) ++ writeID (gto_sym cell) ++ le 4 (Z.of_nat (gto_dest cell)).

(** [None] is [errs.ErrInvalid]; no language is nil. *)
Definition MarshalTable (l : option Language) : option (list byte) :=
  l ← l;
  nsyms ← writeCount (length (l_syms l));
  syms ← write_all write_sym (l_syms l);
  nprods ← writeCount (length (l_prods l));
  prods ← write_all write_prod (l_prods l);
  nextras ← writeCount (length (l_extras l));
  nacts ← writeCount (length (actionCells l));
  acts ← write_all write_act (actionCells l);
  ngotos ← writeCount (length (gotoCells l));
  Some (bytes_of tableMagic ++ writeString (l_name l) ++ nsyms ++ syms ++ nprods ++ prods
        ++ nextras ++ flat_map writeID (l_extras l)
        ++ le 4 (Z.of_nat (l_start l)) ++ le 4 (Z.of_nat (l_states l)) ++ le 4 (Z.of_nat (l_forks l))
        ++ nacts ++ acts ++ ngotos ++ flat_map write_goto (gotoCells l)).

(** ** Reading *)

(** [errs.ErrInvalid], [io.EOF] and [io.ErrUnexpectedEOF]. *)
Inductive terr : Type := TInvalid | TEOF | TShort.

Definition rd (A : Type) : Type := list byte -> (A * list byte) + terr.
Definition rd_ret {A} (x : A) : rd A := fun bs => inl (x, bs).
Definition rd_fail {A} (e : terr) : rd A := fun _ => inr e.
Definition rd_bind {A B} (r : rd A) (k : A -> rd B) : rd B :=
  fun bs => match r bs with inl (x, rest) => k x rest | inr e => inr e end.
Local Notation "'let*' x := r 'in' k" := (rd_bind r (fun x => k)) (at level 200, x pattern, r at level 100, k at level 200).

(** An error of [r] is reported as [errs.ErrInvalid]. *)
Definition or_bad {A} (r : rd A) : rd A := fun bs => match r bs with inl x => inl x | inr _ => inr TInvalid end.

(** [io.ReadFull] of [n] bytes, as a number. *)
Definition rd_uint (n : nat) : rd Z := fun bs =>
  match bs with
  | [] => inr TEOF
  | _ => if length bs <? n then inr TShort else inl (le_value (take n bs), drop n bs)
  end.
Definition rd_byte : rd Z := fun bs => match bs with [] => inr TEOF | b :: rest => inl (byte_code b, rest) end.

(** [Read] of no bytes fails at the end of the input. *)
Definition readString : rd string :=
  let* n := or_bad (rd_uint 4) in
  fun bs => if (Z.of_nat (length bs) <? n)%Z then inr TInvalid
            else match bs with
                 | [] => inr TInvalid
                 | _ => inl (String.string_of_list_byte (take (Z.to_nat n) bs), drop (Z.to_nat n) bs)
                 end.
Definition readCount : rd nat := let* n := or_bad (rd_uint 4) in rd_ret (Z.to_nat n).
Definition readID : rd nat := let* n := or_bad (rd_uint 2) in rd_ret (Z.to_nat n).

Fixpoint rd_list {A} (n : nat) (r : rd A) : rd (list A) :=
  match n with
  | O => rd_ret []
  | S n' => let* x := r in let* xs := rd_list n' r in rd_ret (x :: xs)
  end.

Definition read_sym : rd symInfo :=
  let* name := readString in
  let* flags := rd_byte in
  let* prec := rd_uint 2 in
  let s := symFromFlags flags in
  rd_ret (mkSymInfo name (si_terminal s) (si_named s) (si_hidden s) (si_extra s) (si_immediate s) (si_external s) None None (sint 16 prec)).

(** A decoded alternative.  Its associativity is any byte. *)
Record tableProd : Type := mkTableProd {
  tp_lhs : nat; tp_rhs : list nat; tp_prec : Z; tp_hasPrec : bool; tp_assoc : Z; tp_dyn : Z; tp_hidden : bool }.

Definition read_prod : rd tableProd :=
  let* lhs := readID in
  let* nrhs := readCount in
  let* rhs := rd_list nrhs readID in
  let* flags := rd_byte in
  let* assoc := rd_byte in
  let* prec := rd_uint 4 in
  let* dyn := rd_uint 4 in
  rd_ret (mkTableProd lhs rhs (sint 32 prec) (has_flag flags 1) assoc (sint 32 dyn) (has_flag flags 4)).

Definition read_action : rd action :=
  let* kind := rd_byte in
  let* val := rd_uint 4 in
  rd_ret (mkAction (Z.to_nat kind) (Z.to_nat val)).
Definition read_act : rd actCell :=
  let* state := rd_uint 4 in
  let* sym := readID in
  let* n := readCount in
  let* acts := rd_list n read_action in
  rd_ret (mkActCell (Z.to_nat state) sym acts).
Definition read_goto : rd gtoCell :=
  let* state := rd_uint 4 in
  let* sym := readID in
  let* dest := rd_uint 4 in
  rd_ret (mkGtoCell (Z.to_nat state) sym (Z.to_nat dest)).

Record tableData : Type := mkTableData {
  t_name : string; t_syms : list symInfo; t_prods : list tableProd; t_extras : list nat;
  t_start : nat; t_states : nat; t_forks : nat; t_act : gmap N (list action); t_gto : gmap N nat }.

Definition put_act (m : gmap N (list action)) (cell : actCell) : gmap N (list action) := <[cellKey (act_state cell) (act_sym cell) := act_acts cell]> m.
Definition put_goto (m : gmap N nat) (cell : gtoCell) : gmap N nat := <[cellKey (gto_state cell) (gto_sym cell) := gto_dest cell]> m.
Definition forked (cell : actCell) : bool := 1 <? length (act_acts cell).

(** The fields of a table, with the number of its cells that fork. *)
Definition read_fields : rd (tableData * nat) :=
  let* name := readString in
  let* nsym := readCount in
  let* syms := rd_list nsym read_sym in
  let* nprod := readCount in
  let* prods := rd_list nprod read_prod in
  let* nextra := readCount in
  let* extras := rd_list nextra readID in
  let* start := rd_uint 4 in
  let* states := rd_uint 4 in
  let* forks := rd_uint 4 in
  let* nact := readCount in
  let* acts := rd_list nact read_act in
  let* ngoto := readCount in
  let* gotos := rd_list ngoto read_goto in
  rd_ret (mkTableData name syms prods extras (Z.to_nat start) (Z.to_nat states) (Z.to_nat forks) (foldl put_act ∅ acts) (foldl put_goto ∅ gotos),
          length (filter (fun cell => Is_true (forked cell)) acts)).

Definition decodeTable (table : list byte) : tableData + terr :=
  if (length table <? String.length tableMagic) || negb (bool_decide (take (String.length tableMagic) table = bytes_of tableMagic)) then inr TInvalid
  else match read_fields (drop (String.length tableMagic) table) with
       | inr e => inr e
       | inl (t, gotForks, rest) => if negb (bool_decide (rest = [])) || negb (t_forks t =? gotForks) then inr TInvalid else inl t
       end.

(** ** Binding a table to a grammar *)

Definition sym_matches (got want : symInfo) : bool :=
  bool_decide (si_name got = si_name want) && (symFlags got =? symFlags want)%Z && (si_lexPrec got =? si_lexPrec want)%Z.
Definition prod_matches (got : tableProd) (want : prodInfo) : bool :=
  (tp_lhs got =? p_lhs want) && (tp_prec got =? p_prec want)%Z && Bool.eqb (tp_hasPrec got) (p_hasPrec want)
  && (tp_assoc got =? assoc_code (p_assoc want))%Z && (tp_dyn got =? p_dyn want)%Z && Bool.eqb (tp_hidden got) (p_hidden want)
  && bool_decide (tp_rhs got = p_rhs want).

Definition matches (t : tableData) (lang : Language) : bool :=
  bool_decide (t_name t = l_name lang) && (length (t_syms t) =? length (l_syms lang)) && (length (t_prods t) =? length (l_prods lang))
  && (length (t_extras t) =? length (l_extras lang))
  && forallb (fun '(got, want) => sym_matches got want) (zip (t_syms t) (l_syms lang))
  && forallb (fun '(got, want) => prod_matches got want) (zip (t_prods t) (l_prods lang))
  && bool_decide (t_extras t = l_extras lang).

Definition Load (g : Grammar) (table : list byte) : Language + terr :=
  match prepareCompiler g with
  | None => inr TInvalid
  | Some c =>
      let lang := mkLanguage (g_name g) (c_syms c) (c_prods c) ∅ ∅ 0 (g_scan g) (g_extras g) (name_index (c_syms c)) 0 0 in
      match decodeTable table with
      | inr e => inr e
      | inl d =>
          if negb (matches d lang) then inr TInvalid
          else inl (mkLanguage (l_name lang) (l_syms lang) (l_prods lang) (t_act d) (t_gto d) (t_start d) (l_scan lang) (l_extras lang) (l_byName lang) (t_states d) (t_forks d))
      end
  end.
