(* ===== verification/Stored.v ===== *)
(** * Reading what was written

    The readers of x/parse/table.go read back what its writers write, and read
    the same whatever follows. *)
From Stdlib Require Import ZArith Lia.
From Stdlib Require Import Strings.Byte.
From stdpp Require Import base numbers option list strings gmap sorting relations.
From S2P Require Import Prelude Grammars Compile Lexer Derive Firsts Automaton Language Checked Tables.

Local Open Scope nat_scope.

(** ** Numbers *)

Lemma byte_code_of z : byte_code (byte_of z) = (z mod 256)%Z.
Proof.
  unfold byte_of, byte_code. pose proof (Z.mod_pos_bound z 256 ltac:(lia)) as H.
  destruct (Byte.of_N (Z.to_N (z mod 256))) as [b|] eqn:E.
  - apply Byte.to_of_N in E. simpl. rewrite E. lia.
  - apply Byte.of_N_None_iff in E. lia.
Qed.

Lemma le_length n : forall z, length (le n z) = n.
Proof. induction n as [|n IH]; intros z; simpl; [reflexivity|rewrite IH; reflexivity]. Qed.

Lemma le_value_le n : forall z, le_value (le n z) = (z mod 2 ^ (8 * Z.of_nat n))%Z.
Proof.
  induction n as [|n IH]; intros z; [simpl; rewrite Z.mod_1_r; reflexivity|]. simpl le. simpl le_value. rewrite byte_code_of, IH.
  replace (8 * Z.of_nat (S n))%Z with (8 + 8 * Z.of_nat n)%Z by lia. rewrite Z.pow_add_r by lia. change (2 ^ 8)%Z with 256%Z.
  symmetry. apply Z.rem_mul_r; lia.
Qed.

Lemma le_small n z : (0 <= z < 2 ^ (8 * Z.of_nat n))%Z -> le_value (le n z) = z.
Proof. intros H. rewrite le_value_le. apply Z.mod_small, H. Qed.

(** The sign comes back. *)
Lemma sint_le n z : sint (8 * Z.of_nat n) (le_value (le n z)) = sint (8 * Z.of_nat n) z.
Proof. rewrite le_value_le. unfold sint. rewrite Zplus_mod_idemp_l. reflexivity. Qed.

Lemma bytes_of_length s : length (bytes_of s) = String.length s.
Proof. unfold bytes_of, String.list_byte_of_string. rewrite length_map. induction s as [|a s IH]; [reflexivity|]. simpl. rewrite IH. reflexivity. Qed.

(** ** Reading back *)

(** [r] reads [x] from [bs], whatever follows. *)
Definition back {A} (r : rd A) (bs : list byte) (x : A) : Prop := forall rest, r (bs ++ rest) = inl (x, rest).

Lemma back_ret {A} (x : A) : back (rd_ret x) [] x.
Proof. intros rest. reflexivity. Qed.

Lemma back_bind {A B} (r : rd A) (k : A -> rd B) a b x y : back r a x -> back (k x) b y -> back (rd_bind r k) (a ++ b) y.
Proof. intros H1 H2 rest. unfold rd_bind. rewrite <- (assoc_L (++)), H1. apply H2. Qed.

Lemma back_uint n z : 0 < n -> back (rd_uint n) (le n z) (le_value (le n z)).
Proof.
  intros Hn rest. unfold rd_uint. destruct (le n z ++ rest) as [|b bs] eqn:E.
  - apply (f_equal length) in E. rewrite length_app, le_length in E. simpl in E. lia.
  - rewrite <- E. rewrite (proj2 (Nat.ltb_ge _ _)) by (rewrite length_app, le_length; lia).
    rewrite take_app_length', drop_app_length' by (symmetry; apply le_length). reflexivity.
Qed.

Lemma back_or_bad {A} (r : rd A) a x : back r a x -> back (or_bad r) a x.
Proof. intros H rest. unfold or_bad. rewrite H. reflexivity. Qed.

Lemma back_byte z : back rd_byte [byte_of z] (z mod 256)%Z.
Proof. intros rest. simpl. rewrite byte_code_of. reflexivity. Qed.

Lemma back_nat n k : 0 < n -> (Z.of_nat k < 2 ^ (8 * Z.of_nat n))%Z -> back (rd_uint n) (le n (Z.of_nat k)) (Z.of_nat k).
Proof. intros Hn Hk. rewrite <- (le_small n (Z.of_nat k)) at 2 by lia. apply back_uint, Hn. Qed.

Lemma back_count n bs : writeCount n = Some bs -> back readCount bs n.
Proof.
  unfold writeCount. destruct (Z.ltb_spec (2 ^ 32 - 1) (Z.of_nat n)) as [|H]; [discriminate|]. intros E. apply (inj Some) in E. subst bs. unfold readCount.
  rewrite <- (app_nil_r (le 4 _)). eapply back_bind; [apply back_or_bad, back_nat; lia|]. rewrite Nat2Z.id. apply back_ret.
Qed.

Lemma back_id id : (Z.of_nat id < 65536)%Z -> back readID (writeID id) id.
Proof.
  intros H. unfold readID, writeID. rewrite <- (app_nil_r (le 2 _)). eapply back_bind; [apply back_or_bad, back_nat; lia|]. rewrite Nat2Z.id. apply back_ret.
Qed.

(** A string is followed by something. *)
Lemma back_string {B} s (k : string -> rd B) b y : (Z.of_nat (String.length s) < 2 ^ 32)%Z -> b <> [] -> back (k s) b y ->
  back (rd_bind readString k) (writeString s ++ b) y.
Proof.
  intros Hs Hb Hk rest. unfold readString, writeString, rd_bind at 1. unfold rd_bind at 1. rewrite <- !(assoc_L (++)).
  rewrite (back_or_bad _ _ _ (back_nat 4 (String.length s) ltac:(lia) Hs)).
  rewrite <- bytes_of_length. rewrite (proj2 (Z.ltb_ge _ _)) by (rewrite length_app; lia). rewrite Nat2Z.id.
  destruct (bytes_of s ++ b ++ rest) as [|c cs] eqn:E.
  - apply (f_equal length) in E. rewrite !length_app in E. destruct b; [congruence|simpl in E; lia].
  - rewrite <- E. rewrite take_app_length, drop_app_length. unfold bytes_of. rewrite String.string_of_list_byte_of_string. apply Hk.
Qed.

(** ** Lists *)

Lemma back_list {A B} (w : A -> list byte) (r : rd B) (g : A -> B) l : (forall x, x ∈ l -> back r (w x) (g x)) ->
  back (rd_list (length l) r) (flat_map w l) (map g l).
Proof.
  induction l as [|x l IH]; intros H; [apply back_ret|]. cbn [rd_list length flat_map map].
  eapply back_bind; [apply H; left|]. rewrite <- (app_nil_r (flat_map w l)). eapply back_bind; [apply IH; intros y Hy; apply H; right; exact Hy|]. apply back_ret.
Qed.

Lemma write_all_inv {A} (f : A -> option (list byte)) l bs : write_all f l = Some bs -> exists w, bs = flat_map w l /\ forall x, x ∈ l -> f x = Some (w x).
Proof.
  unfold write_all. intros H. destruct (mapM f l) as [bss|] eqn:E; [|discriminate]. injection H as <-. exists (fun x => default [] (f x)).
  apply mapM_Some in E. split.
  - induction E as [|x b l bss Hx _ IH]; [reflexivity|]. simpl. rewrite Hx. simpl. rewrite IH. reflexivity.
  - intros x Hx. apply list_elem_of_lookup in Hx as [i Hi]. destruct (Forall2_lookup_l _ _ _ _ _ E Hi) as (b & _ & Hb). rewrite Hb. reflexivity.
Qed.

(** ** Reading whatever follows *)

Definition stable {A} (r : rd A) : Prop := forall bs x rest more, r bs = inl (x, rest) -> r (bs ++ more) = inl (x, rest ++ more).

Lemma stable_ret {A} (x : A) : stable (rd_ret x).
Proof. intros bs y rest more [= <- <-]. reflexivity. Qed.

Lemma stable_bind {A B} (r : rd A) (k : A -> rd B) : stable r -> (forall x, stable (k x)) -> stable (rd_bind r k).
Proof.
  intros Hr Hk bs y rest more H. unfold rd_bind in *. destruct (r bs) as [[x mid]|e] eqn:E; [|discriminate]. rewrite (Hr _ _ _ more E). exact (Hk x _ _ _ more H).
Qed.

Lemma stable_uint n : stable (rd_uint n).
Proof.
  intros bs x rest more H. unfold rd_uint in *. destruct bs as [|b bs]; [discriminate|]. cbn [app]. change (b :: bs ++ more) with ((b :: bs) ++ more).
  destruct (Nat.ltb_spec (length (b :: bs)) n) as [|Hge]; [discriminate|]. injection H as <- <-. rewrite (proj2 (Nat.ltb_ge _ _)) by (rewrite length_app; lia).
  rewrite take_app_le, drop_app_le by exact Hge. reflexivity.
Qed.

Lemma stable_byte : stable rd_byte.
Proof. intros [|b bs] x rest more [= <- <-]. reflexivity. Qed.

Lemma stable_or_bad {A} (r : rd A) : stable r -> stable (or_bad r).
Proof. intros Hr bs x rest more H. unfold or_bad in *. destruct (r bs) as [[y mid]|e] eqn:E; [|discriminate]. injection H as -> ->. rewrite (Hr _ _ _ more E). reflexivity. Qed.

Lemma stable_string : stable readString.
Proof.
  apply stable_bind; [apply stable_or_bad, stable_uint|]. intros n bs x rest more H. destruct (Z.ltb_spec (Z.of_nat (length bs)) n) as [|Hge]; [discriminate|].
  destruct bs as [|b bs]; [discriminate|]. injection H as <- <-. rewrite (proj2 (Z.ltb_ge _ _)) by (rewrite length_app; lia).
  change ((b :: bs) ++ more) with (b :: bs ++ more). cbv iota. change (b :: bs ++ more) with ((b :: bs) ++ more). rewrite take_app_le, drop_app_le by lia. reflexivity.
Qed.

Lemma stable_count : stable readCount.
Proof. apply stable_bind; [apply stable_or_bad, stable_uint|intros; apply stable_ret]. Qed.

Lemma stable_id : stable readID.
Proof. apply stable_bind; [apply stable_or_bad, stable_uint|intros; apply stable_ret]. Qed.

Lemma stable_list {A} n (r : rd A) : stable r -> stable (rd_list n r).
Proof. intros Hr. induction n as [|n IH]; [apply stable_ret|]. apply stable_bind; [exact Hr|]. intros x. apply stable_bind; [exact IH|]. intros xs. apply stable_ret. Qed.

Create HintDb table.
#[export] Hint Resolve stable_ret stable_uint stable_byte stable_string stable_count stable_id stable_list : table.

Ltac stable_tac := repeat first [progress auto with table | apply stable_bind; [|intros ?] | apply stable_list].

Lemma stable_fields : stable read_fields.
Proof.
  assert (Hsym : stable read_sym) by (unfold read_sym; stable_tac). assert (Hprod : stable read_prod) by (unfold read_prod; stable_tac).
  assert (Haction : stable read_action) by (unfold read_action; stable_tac). assert (Hact : stable read_act) by (unfold read_act; stable_tac).
  assert (Hgoto : stable read_goto) by (unfold read_goto; stable_tac). unfold read_fields. stable_tac.
Qed.

(** A table is followed by nothing. *)
Lemma decode_whole table t more : decodeTable table = inl t -> more <> [] -> decodeTable (table ++ more) = inr TInvalid.
Proof.
  intros H Hm. unfold decodeTable in *. destruct (Nat.ltb_spec (length table) (String.length tableMagic)) as [|Hlen]; [discriminate|].
  rewrite (proj2 (Nat.ltb_ge _ _)) by (rewrite length_app; lia). rewrite take_app_le, drop_app_le by exact Hlen. cbn [orb] in *.
  destruct (negb (bool_decide _)); [reflexivity|]. destruct (read_fields (drop _ table)) as [[[d got] rest]|e] eqn:E; [|discriminate].
  rewrite (stable_fields _ _ _ more E). destruct rest as [|b rest]; destruct more as [|c more]; try congruence; reflexivity.
Qed.

(** ** The parts of a table *)

Definition short (s : string) : Prop := (Z.of_nat (String.length s) < 2 ^ 32)%Z.
Definition id_fits (id : nat) : Prop := (Z.of_nat id < 65536)%Z.
Definition word_fits (n : nat) : Prop := (Z.of_nat n < 2 ^ 32)%Z.

(** What is stored of a symbol: not its matchers. *)
Definition stored_sym (s : symInfo) : symInfo :=
  mkSymInfo (si_name s) (si_terminal s) (si_named s) (si_hidden s) (si_extra s) (si_immediate s) (si_external s) None None (si_lexPrec s).
Definition stored_prod (p : prodInfo) : tableProd :=
  mkTableProd (p_lhs p) (p_rhs p) (p_prec p) (p_hasPrec p) (assoc_code (p_assoc p)) (p_dyn p) (p_hidden p).

Lemma back_sint n z : 0 < n -> z = sint (8 * Z.of_nat n) z -> exists v, back (rd_uint n) (le n z) v /\ sint (8 * Z.of_nat n) v = z.
Proof. intros Hn Hz. eexists. split; [apply back_uint, Hn|]. rewrite sint_le. congruence. Qed.

Lemma back_sym s bs : write_sym s = Some bs -> short (si_name s) -> back read_sym bs (stored_sym s).
Proof.
  unfold write_sym. destruct (Z.eqb_spec (si_lexPrec s) (sint 16 (si_lexPrec s))) as [Ep|]; [|discriminate]. intros E Hs. apply (inj Some) in E. subst bs.
  destruct (back_sint 2 (si_lexPrec s) ltac:(lia) Ep) as (v & Hv & Esint). change (8 * Z.of_nat 2)%Z with 16%Z in Esint.
  unfold read_sym. apply back_string; [exact Hs|discriminate|]. eapply back_bind; [apply back_byte|].
  rewrite <- (app_nil_r (le 2 _)). eapply back_bind; [exact Hv|]. rewrite Esint.
  assert (E : symFromFlags (symFlags s mod 256) = mkSymInfo EmptyString (si_terminal s) (si_named s) (si_hidden s) (si_extra s) (si_immediate s) (si_external s) None None 0).
  { destruct s as [n a b c d e f m m' z]. unfold symFlags. simpl. destruct a, b, c, d, e, f; reflexivity. }
  rewrite E. apply back_ret.
Qed.

Lemma back_prod p bs : write_prod p = Some bs -> id_fits (p_lhs p) -> (forall s, s ∈ p_rhs p -> id_fits s) -> back read_prod bs (stored_prod p).
Proof.
  unfold write_prod. intros (n & En & H)%bind_Some Hlhs Hrhs.
  destruct (Z.eqb_spec (p_prec p) (sint 32 (p_prec p))) as [Ep|]; [|discriminate]. destruct (Z.eqb_spec (p_dyn p) (sint 32 (p_dyn p))) as [Ed|]; [|discriminate].
  cbn [negb orb] in H. apply (inj Some) in H. subst bs.
  destruct (back_sint 4 (p_prec p) ltac:(lia) Ep) as (v & Hv & Ev). destruct (back_sint 4 (p_dyn p) ltac:(lia) Ed) as (w & Hw & Ew).
  change (8 * Z.of_nat 4)%Z with 32%Z in Ev, Ew. unfold read_prod.
  eapply back_bind; [apply back_id, Hlhs|]. eapply back_bind; [apply back_count, En|].
  eapply back_bind; [apply (back_list writeID readID id); intros x Hx; apply back_id, Hrhs, Hx|]. rewrite map_id.
  change ([?a; ?b] ++ ?c) with ([a] ++ ([b] ++ c)). eapply back_bind; [apply back_byte|]. eapply back_bind; [apply back_byte|].
  eapply back_bind; [exact Hv|]. rewrite <- (app_nil_r (le 4 _)). eapply back_bind; [exact Hw|]. rewrite Ev, Ew.
  unfold stored_prod. destruct p as [lhs rhs prec has assoc dyn hid]. simpl. destruct has, hid, assoc; apply back_ret.
Qed.

Definition action_fits (a : action) : Prop := ac_kind a < 256 /\ word_fits (ac_val a).

Lemma back_action a : action_fits a -> back read_action (write_action a) a.
Proof.
  intros [Hk Hv]. unfold read_action, write_action. change (?x :: ?y) with ([x] ++ y). eapply back_bind; [apply back_byte|].
  rewrite <- (app_nil_r (le 4 _)). eapply back_bind; [apply back_nat; [lia|exact Hv]|]. rewrite Z.mod_small, !Nat2Z.id by lia. destruct a. apply back_ret.
Qed.

Lemma back_act cell bs : write_act cell = Some bs -> word_fits (act_state cell) -> id_fits (act_sym cell) -> (forall a, a ∈ act_acts cell -> action_fits a) ->
  back read_act bs cell.
Proof.
  unfold write_act. intros (n & En & H)%bind_Some Hs Hid Ha. apply (inj Some) in H. subst bs.
  unfold read_act. eapply back_bind; [apply back_nat; [lia|exact Hs]|]. eapply back_bind; [apply back_id, Hid|]. eapply back_bind; [apply back_count, En|].
  rewrite <- (app_nil_r (flat_map _ _)). eapply back_bind; [apply (back_list write_action read_action id); intros x Hx; apply back_action, Ha, Hx|].
  rewrite map_id, Nat2Z.id. destruct cell. apply back_ret.
Qed.

Lemma back_goto cell : word_fits (gto_state cell) -> id_fits (gto_sym cell) -> word_fits (gto_dest cell) -> back read_goto (write_goto cell) cell.
Proof.
  intros Hs Hid Hd. unfold read_goto, write_goto. eapply back_bind; [apply back_nat; [lia|exact Hs]|]. eapply back_bind; [apply back_id, Hid|].
  rewrite <- (app_nil_r (le 4 (Z.of_nat (gto_dest cell)))). eapply back_bind; [apply back_nat; [lia|exact Hd]|]. rewrite !Nat2Z.id. destruct cell. apply back_ret.
Qed.

(** ** Cells *)

Lemma key_parts q s : id_fits s -> word_fits q -> key_state (cellKey q s) = q /\ key_sym (cellKey q s) = s.
Proof.
  intros Hs Hq. unfold key_state, key_sym. rewrite (cellKey_high q s Hs), <- (N.land_ones (cellKey q s) 16), (cellKey_low q s Hs). unfold word_fits in Hq.
  rewrite N.mod_small by lia. lia.
Qed.

(** Putting the cells of a map back gives the map. *)
Lemma puts_back {K V C} `{Countable K} (m : gmap K V) (key : C -> K) (val : C -> V) (cell : K * V -> C) cells :
  cells ≡ₚ map cell (map_to_list m) -> (forall k v, m !! k = Some v -> key (cell (k, v)) = k /\ val (cell (k, v)) = v) ->
  foldl (fun m c => <[key c := val c]> m) ∅ cells = m.
Proof.
  intros Hperm Hcell. set (kvs := map (fun c => (key c, val c)) cells).
  assert (Hkvs : kvs ≡ₚ map_to_list m).
  { unfold kvs. rewrite Hperm, map_map. rewrite <- (map_id (map_to_list m)) at 2. apply Permutation_refl'. apply map_ext_in. intros [k v] Hin.
    apply list_elem_of_In, elem_of_map_to_list in Hin. destruct (Hcell k v Hin) as [E1 E2]. rewrite E1, E2. reflexivity. }
  assert (G : forall cells (m0 : gmap K V), foldl (fun m c => <[key c := val c]> m) m0 cells = foldr (fun p => <[p.1 := p.2]>) m0 (map (fun c => (key c, val c)) (rev cells))).
  { clear. induction cells as [|c cells IH]; intros m0; [reflexivity|]. cbn [foldl]. rewrite IH. simpl rev. rewrite map_app, foldr_app. reflexivity. }
  rewrite G. change (list_to_map (M := gmap K V) (map (fun c => (key c, val c)) (rev cells)) = m). rewrite map_rev. fold kvs.
  assert (Hrev : rev kvs ≡ₚ map_to_list m) by (rewrite <- Permutation_rev; exact Hkvs).
  assert (Hnd : NoDup (fst <$> rev kvs)) by (rewrite Hrev; apply NoDup_fst_map_to_list).
  rewrite (list_to_map_proper (M := gmap K) _ _ Hnd Hrev). apply list_to_map_to_list.
Qed.

(** ** The whole table *)

(** The numbers of the tables of a language fit in their bytes, and the forks
    are counted. *)
Record table_fits (l : Language) : Prop := {
  tf_name : short (l_name l);
  tf_syms s : s ∈ l_syms l -> short (si_name s);
  tf_prods p : p ∈ l_prods l -> id_fits (p_lhs p) /\ forall s, s ∈ p_rhs p -> id_fits s;
  tf_extras s : s ∈ l_extras l -> id_fits s;
  tf_start : word_fits (l_start l);
  tf_states : word_fits (l_states l);
  tf_forks_fit : word_fits (l_forks l);
  tf_act key acts : l_act l !! key = Some acts -> (exists q s, key = cellKey q s /\ word_fits q /\ id_fits s) /\ forall a, a ∈ acts -> action_fits a;
  tf_gto key dest : l_gto l !! key = Some dest -> (exists q s, key = cellKey q s /\ word_fits q /\ id_fits s) /\ word_fits dest;
  tf_forks : l_forks l = length (filter (fun e => Is_true (1 <? length (snd e))) (map_to_list (l_act l))) }.

Definition stored (l : Language) : tableData :=
  mkTableData (l_name l) (map stored_sym (l_syms l)) (map stored_prod (l_prods l)) (l_extras l) (l_start l) (l_states l) (l_forks l) (l_act l) (l_gto l).

Lemma key_back q s : word_fits q -> id_fits s -> cellKey (key_state (cellKey q s)) (key_sym (cellKey q s)) = cellKey q s.
Proof. intros Hq Hs. destruct (key_parts q s Hs Hq) as [-> ->]. reflexivity. Qed.

Lemma actions_perm l : actionCells l ≡ₚ map (fun '(key, acts) => mkActCell (key_state key) (key_sym key) acts) (map_to_list (l_act l)).
Proof. apply merge_sort_Permutation. Qed.
Lemma gotos_perm l : gotoCells l ≡ₚ map (fun '(key, dest) => mkGtoCell (key_state key) (key_sym key) dest) (map_to_list (l_gto l)).
Proof. apply merge_sort_Permutation. Qed.

Lemma actions_back l : table_fits l -> foldl put_act ∅ (actionCells l) = l_act l.
Proof.
  intros F. apply (puts_back (l_act l) (fun c => cellKey (act_state c) (act_sym c)) act_acts _ _ (actions_perm l)).
  intros k v Hk. destruct (tf_act _ F k v Hk) as [(q & s & -> & Hq & Hs) _]. split; [exact (key_back q s Hq Hs)|reflexivity].
Qed.

Lemma gotos_back l : table_fits l -> foldl put_goto ∅ (gotoCells l) = l_gto l.
Proof.
  intros F. apply (puts_back (l_gto l) (fun c => cellKey (gto_state c) (gto_sym c)) gto_dest _ _ (gotos_perm l)).
  intros k v Hk. destruct (tf_gto _ F k v Hk) as [(q & s & -> & Hq & Hs) _]. split; [exact (key_back q s Hq Hs)|reflexivity].
Qed.

Lemma forks_back l : table_fits l -> length (filter (fun cell => Is_true (forked cell)) (actionCells l)) = l_forks l.
Proof.
  intros F. rewrite (tf_forks _ F), (actions_perm l). induction (map_to_list (l_act l)) as [|[k v] kvs IH]; [reflexivity|].
  cbn [map]. rewrite !filter_cons. unfold forked at 1. cbn [act_acts snd]. destruct (decide _); cbn [length]; rewrite IH; reflexivity.
Qed.

Lemma action_cell_fits l cell : table_fits l -> cell ∈ actionCells l -> word_fits (act_state cell) /\ id_fits (act_sym cell) /\ forall a, a ∈ act_acts cell -> action_fits a.
Proof.
  intros F H. rewrite (actions_perm l) in H. apply list_elem_of_fmap in H as ([k v] & -> & Hk%elem_of_map_to_list).
  destruct (tf_act _ F k v Hk) as [(q & s & -> & Hq & Hs) Ha]. destruct (key_parts q s Hs Hq) as [-> ->]. auto.
Qed.

Lemma goto_cell_fits l cell : table_fits l -> cell ∈ gotoCells l -> word_fits (gto_state cell) /\ id_fits (gto_sym cell) /\ word_fits (gto_dest cell).
Proof.
  intros F H. rewrite (gotos_perm l) in H. apply list_elem_of_fmap in H as ([k v] & -> & Hk%elem_of_map_to_list).
  destruct (tf_gto _ F k v Hk) as [(q & s & -> & Hq & Hs) Ha]. destruct (key_parts q s Hs Hq) as [-> ->]. auto.
Qed.

Lemma decode_marshal l bs : table_fits l -> MarshalTable (Some l) = Some bs -> decodeTable bs = inl (stored l).
Proof.
  intros F H. unfold MarshalTable in H. apply bind_Some in H as (l0 & E0 & H). apply (inj Some) in E0. subst l0.
  apply bind_Some in H as (nsyms & Hnsyms & H). apply bind_Some in H as (syms & Hsyms & H). apply bind_Some in H as (nprods & Hnprods & H).
  apply bind_Some in H as (prods & Hprods & H). apply bind_Some in H as (nextras & Hnextras & H). apply bind_Some in H as (nacts & Hnacts & H).
  apply bind_Some in H as (acts & Hacts & H). apply bind_Some in H as (ngotos & Hngotos & H). apply (inj Some) in H.
  destruct (write_all_inv _ _ _ Hsyms) as (ws & -> & Hws). destruct (write_all_inv _ _ _ Hprods) as (wp & -> & Hwp). destruct (write_all_inv _ _ _ Hacts) as (wa & -> & Hwa).
  assert (Hback : back read_fields (drop 4 bs) (stored l, l_forks l)).
  { subst bs. change (String.length tableMagic) with 4. rewrite drop_app_length' by reflexivity. unfold read_fields.
    apply back_string; [exact (tf_name _ F)| |].
    { unfold writeCount in Hnsyms. destruct (_ <? _)%Z; [discriminate|]. apply (inj Some) in Hnsyms. subst nsyms. discriminate. }
    eapply back_bind; [apply back_count, Hnsyms|]. eapply back_bind; [apply (back_list ws read_sym stored_sym); intros x Hx; apply back_sym; [exact (Hws x Hx)|exact (tf_syms _ F x Hx)]|].
    eapply back_bind; [apply back_count, Hnprods|].
    eapply back_bind; [apply (back_list wp read_prod stored_prod); intros x Hx; destruct (tf_prods _ F x Hx); apply back_prod; auto|].
    eapply back_bind; [apply back_count, Hnextras|]. eapply back_bind; [apply (back_list writeID readID id); intros x Hx; apply back_id, (tf_extras _ F x Hx)|].
    eapply back_bind; [apply back_nat; [lia|exact (tf_start _ F)]|]. eapply back_bind; [apply back_nat; [lia|exact (tf_states _ F)]|].
    eapply back_bind; [apply back_nat; [lia|exact (tf_forks_fit _ F)]|]. eapply back_bind; [apply back_count, Hnacts|].
    eapply back_bind; [apply (back_list wa read_act id); intros x Hx; destruct (action_cell_fits l x F Hx) as (? & ? & ?); apply back_act; auto|].
    eapply back_bind; [apply back_count, Hngotos|]. rewrite <- (app_nil_r (flat_map write_goto _)).
    eapply back_bind; [apply (back_list write_goto read_goto id); intros x Hx; destruct (goto_cell_fits l x F Hx) as (? & ? & ?); apply back_goto; auto|].
    rewrite !map_id, !Nat2Z.id, (actions_back l F), (gotos_back l F), (forks_back l F). apply back_ret. }
  unfold decodeTable. assert (Hhead : take 4 bs = bytes_of tableMagic /\ 4 <= length bs).
  { subst bs. split; [rewrite take_app_length' by reflexivity; reflexivity|]. rewrite length_app. simpl. lia. }
  destruct Hhead as [Hhead Hlen]. change (String.length tableMagic) with 4. rewrite Hhead, bool_decide_true by reflexivity. rewrite (proj2 (Nat.ltb_ge _ _) Hlen). cbn [orb negb].
  rewrite <- (app_nil_r (drop 4 bs)), Hback. rewrite bool_decide_true by reflexivity. cbn [stored t_forks]. rewrite Nat.eqb_refl. reflexivity.
Qed.

(** * The tables of a grammar fit in their bytes

    The tables that [Compile] of x/parse/compile.go makes have keys of a state
    and a symbol, actions whose numbers fit, and a count of the cells that fork,
    so [Load] of table.go takes them back. *)

(** ** Counting forks *)

Definition forks_of (act : gmap N (list action)) : nat := length (filter (fun e => Is_true (1 <? length (snd e))) (map_to_list act)).

Lemma forks_insert act key acts : act !! key = None -> forks_of (<[key := acts]> act) = if 1 <? length acts then S (forks_of act) else forks_of act.
Proof.
  intros H. unfold forks_of. rewrite (map_to_list_insert act key acts H), filter_cons. cbn [snd]. destruct (1 <? length acts); reflexivity.
Qed.

(** The keys of [act'] are those of [act] and those of [keys]; its forks are
    counted. *)
Definition extends (act : gmap N (list action)) (keys : N -> Prop) (st : gmap N (list action) * nat) : Prop :=
  snd st = forks_of (fst st) /\ forall key, is_Some (fst st !! key) -> is_Some (act !! key) \/ keys key.

Lemma add_cells_forks si : forall cells act forks, NoDup (map fst cells) -> (forall e, e ∈ cells -> id_fits (fst e) /\ act !! cellKey si (fst e) = None) ->
  forks = forks_of act -> extends act (fun key => exists e, e ∈ cells /\ key = cellKey si (fst e)) (foldl (add_cell si) (act, forks) cells).
Proof.
  induction cells as [|[s l] cells IH]; intros act forks Hnd Hfresh Hf; cbn [foldl]; [split; simpl; auto|].
  apply NoDup_cons in Hnd as [Hnot Hnd]. destruct (Hfresh (s, l) ltac:(left)) as [Hs Hnone]. cbn [fst] in *.
  assert (Hne : forall e, e ∈ cells -> cellKey si s <> cellKey si (fst e)).
  { intros e He E. apply cellKey_inj in E as [_ E]; [|exact Hs|exact (proj1 (Hfresh e ltac:(right; exact He)))]. apply Hnot. rewrite E. apply list_elem_of_fmap. eauto. }
  assert (Hweak : forall act1 st, (forall key, is_Some (act1 !! key) -> is_Some (act !! key) \/ key = cellKey si s) ->
    extends act1 (fun key => exists e, e ∈ cells /\ key = cellKey si (fst e)) st -> extends act (fun key => exists e, e ∈ (s, l) :: cells /\ key = cellKey si (fst e)) st).
  { intros act1 st H1 [H2 H3]. split; [exact H2|]. intros key Hk. destruct (H3 key Hk) as [H4|(e & He & E)]; [|right; exists e; split; [right; exact He|exact E]].
    destruct (H1 key H4) as [H5|H5]; [left; exact H5|right; exists (s, l); split; [left|exact H5]]. }
  unfold add_cell at 2. cbn [snd fst]. destruct (map ra_act (resolveCell l)) as [|x xs] eqn:E.
  - apply (Hweak act); [auto|]. apply IH; [exact Hnd| |exact Hf]. intros e He. apply Hfresh. right. exact He.
  - set (acts := x :: xs) in *. apply (Hweak (<[cellKey si s := acts]> act)).
    + intros key [v Hv]. destruct (decide (key = cellKey si s)) as [->|Hk]; [auto|]. rewrite lookup_insert_ne in Hv by congruence. left. eauto.
    + apply IH; [exact Hnd| |].
      * intros e He. destruct (Hfresh e ltac:(right; exact He)) as [H1 H2]. split; [exact H1|]. rewrite lookup_insert_ne by exact (Hne e He). exact H2.
      * rewrite (forks_insert act _ _ Hnone), Hf. reflexivity.
Qed.

Section loading.
Context (g : Grammar) (c : compiler) (Hc : compiler_wf c) (Hf : fits c) (Hstart : item_ok c startItem).
Context (a : automaton) (Ha : complete c a).

Local Abbreviation lang := (language_of g c a).

(** A key of a state and a symbol. *)
Definition state_key (key : N) : Prop := exists q s, key = cellKey q s /\ q < length (a_states a) /\ s < length (c_syms c).

Lemma add_states_forks : forall es st, NoDup (map fst es) -> (forall e, e ∈ es -> a_states a !! fst e = Some (snd e)) -> snd st = forks_of (fst st) ->
  (forall e s, e ∈ es -> id_fits s -> fst st !! cellKey (fst e) s = None) -> (forall key, is_Some (fst st !! key) -> state_key key) ->
  let st' := foldl (add_state c (a_edge a)) st es in snd st' = forks_of (fst st') /\ forall key, is_Some (fst st' !! key) -> state_key key.
Proof using Ha Hc Hf Hstart.
  induction es as [|[si items] es IH]; intros [act forks] Hnd Hes Hforks Hfresh Hkeys; cbn [foldl fst snd] in *; [auto|].
  apply NoDup_cons in Hnd as [Hnot Hnd]. pose proof (Hes (si, items) ltac:(left)) as Hsi. cbn [fst snd] in Hsi.
  assert (Hitems : state_items a si = items) by (unfold state_items; rewrite Hsi; reflexivity).
  assert (Hcell : forall e, e ∈ map_to_list (raw_cells c (nth si (a_edge a) ∅) items) -> fst e < length (c_syms c)).
  { intros [s l] He. apply elem_of_map_to_list in He. rewrite raw_cells_lookup in He. destruct (raw_list c _ items s) as [|r rs] eqn:E; [discriminate|].
    assert (Hr : r ∈ raw_list c (edge_of a si) items s) by (unfold edge_of; rewrite E; left). apply elem_of_raw_list in Hr as (it & Hit & Hr).
    apply (raw_of_symbol c Hc Hstart a Ha si it s r); [rewrite Hitems; exact Hit|exact Hr]. }
  destruct (add_cells_forks si (map_to_list (raw_cells c (nth si (a_edge a) ∅) items)) act forks) as [H1 H2].
  - apply NoDup_fst_map_to_list.
  - intros e He. assert (Hs : id_fits (fst e)) by exact (symbol_fits c Hf _ (Hcell e He)). split; [exact Hs|]. exact (Hfresh (si, items) (fst e) ltac:(left) Hs).
  - exact Hforks.
  - change (add_state c (a_edge a) (act, forks) (si, items)) with (foldl (add_cell si) (act, forks) (map_to_list (raw_cells c (nth si (a_edge a) ∅) items))).
    destruct (foldl (add_cell si) (act, forks) _) as [act1 forks1]. cbn [fst snd] in *. apply IH; [exact Hnd| |exact H1| |].
    + intros e He. apply Hes. right. exact He.
    + intros e s He Hs. cbn [fst]. destruct (act1 !! cellKey (fst e) s) as [v|] eqn:E; [exfalso|reflexivity].
      destruct (H2 (cellKey (fst e) s) ltac:(eauto)) as [[w Hw]|(e' & He' & Ek)]; [rewrite (Hfresh e s ltac:(right; exact He) Hs) in Hw; discriminate|].
      apply cellKey_inj in Ek as [Ek _]; [|exact Hs|exact (symbol_fits c Hf _ (Hcell e' He'))]. apply Hnot. rewrite <- Ek. apply list_elem_of_fmap. eauto.
    + intros key Hk. destruct (H2 key Hk) as [H|(e & He & ->)]; [exact (Hkeys key H)|]. exists si, (fst e).
      split; [reflexivity|]. split; [exact (lookup_lt_Some _ _ _ Hsi)|exact (Hcell e He)].
Qed.

Lemma table_forks : l_forks lang = forks_of (l_act lang) /\ forall key, is_Some (l_act lang !! key) -> state_key key.
Proof using Ha Hc Hf Hstart.
  unfold language_of. pose proof (add_states_forks (imap pair (a_states a)) (∅, 0)) as K.
  destruct (foldl (add_state c (a_edge a)) (∅, 0) (imap pair (a_states a))) as [act forks]. cbn [l_forks l_act fst snd] in *. apply K.
  - rewrite imap_pair_fst. apply NoDup_seq.
  - intros [i x] H. apply elem_of_imap_pair in H. exact H.
  - unfold forks_of. rewrite map_to_list_empty. reflexivity.
  - intros e s _ _. apply lookup_empty.
  - intros key [v Hv]. rewrite lookup_empty in Hv. discriminate.
Qed.

Lemma gto_keys key : is_Some (l_gto lang !! key) -> state_key key.
Proof using Ha Hc.
  unfold language_of. destruct (foldl (add_state c (a_edge a)) (∅, 0) (imap pair (a_states a))) as [act forks]. cbn [l_gto].
  assert (H : forall es gto, (forall e, e ∈ es -> a_edge a !! fst e = Some (snd e)) -> (forall key, is_Some (gto !! key) -> state_key key) ->
    forall key, is_Some (foldl add_gotos gto es !! key) -> state_key key).
  { induction es as [|[si e] es IH]; intros gto Hes Hg; [exact Hg|]. cbn [foldl]. apply IH; [intros x Hx; apply Hes; right; exact Hx|].
    pose proof (Hes (si, e) ltac:(left)) as Hsi. cbn [fst snd] in Hsi. unfold add_gotos. cbn [fst snd].
    assert (Hin : forall sd, sd ∈ map_to_list e -> goto a si (fst sd) = Some (snd sd)).
    { intros [s d] Hd%elem_of_map_to_list. unfold goto. rewrite Hsi. exact Hd. }
    revert gto Hg Hin. induction (map_to_list e) as [|[s d] sds IHs]; intros gto Hg Hin; [exact Hg|]. cbn [foldl]. apply IHs; [|intros sd Hsd; apply Hin; right; exact Hsd].
    intros k [v Hv]. destruct (decide (k = cellKey si s)) as [->|Hne]; [|rewrite lookup_insert_ne in Hv by congruence; apply Hg; eauto].
    destruct (goto_symbol c Hc a Ha si s d (Hin (s, d) ltac:(left))) as (H1 & H2 & _). exists si, s. auto. }
  apply H; [intros [i x] Hx; apply elem_of_imap_pair in Hx; exact Hx|]. intros k [v Hv]. rewrite lookup_empty in Hv. discriminate.
Qed.

(** ** The sizes of a grammar *)

Context (Hname : short (g_name g)) (Hnames : forall s, s ∈ c_syms c -> short (si_name s)) (Hextras : forall s, s ∈ g_extras g -> id_fits s).
Context (Hstates : word_fits (length (a_states a))) (Hprods : word_fits (length (c_prods c))) (Hforks : word_fits (l_forks lang)).

Lemma lang_parts : l_name lang = g_name g /\ l_syms lang = c_syms c /\ l_prods lang = c_prods c /\ l_extras lang = g_extras g /\ l_start lang = 0 /\ l_states lang = length (a_states a).
Proof. unfold language_of. destruct (foldl _ _ _). auto 10. Qed.

Lemma compiled_fits : table_fits lang.
Proof using Ha Hc Hf Hstart Hname Hnames Hextras Hstates Hprods Hforks.
  destruct lang_parts as (E1 & E2 & E3 & E4 & E5 & E6). destruct table_forks as [Hcount Hkeys].
  assert (Hkey : forall key, state_key key -> exists q s, key = cellKey q s /\ word_fits q /\ id_fits s).
  { intros key (q & s & -> & Hq & Hs). exists q, s. split; [reflexivity|]. split; [unfold word_fits in *; lia|exact (symbol_fits c Hf s Hs)]. }
  split.
  - rewrite E1. exact Hname.
  - rewrite E2. exact Hnames.
  - rewrite E3. intros p Hp. split; [exact (symbol_fits c Hf _ (proj1 (wf_lhs _ Hc p Hp)))|]. intros s Hs. exact (symbol_fits c Hf s (wf_rhs _ Hc p s Hp Hs)).
  - rewrite E4. exact Hextras.
  - rewrite E5. unfold word_fits. lia.
  - rewrite E6. exact Hstates.
  - exact Hforks.
  - intros key acts Hact. assert (Hk : state_key key) by (apply Hkeys; eauto). split; [exact (Hkey key Hk)|]. destruct Hk as (q & s & -> & _ & Hs).
    intros x Hx. destruct (cell_action g c Hc Hf Hstart a Ha q s acts x (symbol_fits c Hf s Hs) Hact Hx) as [(Hk & _ & Hg)|[(Hk & it & Hit & _ & Ei & _)|(-> & _)]].
    + destruct (goto_symbol c Hc a Ha _ _ _ Hg) as (_ & _ & Hlt). split; [rewrite Hk; unfold actShift; lia|unfold word_fits in *; lia].
    + destruct (state_item_ok c Hc a Ha q it Hit) as (Hi & _). split; [rewrite Hk; unfold actReduce; lia|unfold word_fits in *; lia].
    + split; unfold word_fits, actAccept; simpl; lia.
  - intros key dest Hg. assert (Hk : state_key key) by (apply gto_keys; eauto). split; [exact (Hkey key Hk)|]. destruct Hk as (q & s & -> & _ & Hs).
    rewrite (gto_cell g c Hc Hf a Ha q s Hs) in Hg. destruct (goto_symbol c Hc a Ha _ _ _ Hg) as (_ & _ & Hlt). unfold word_fits in *. lia.
  - exact Hcount.
Qed.
End loading.

(** ** Loading *)

(** The names, the extras and the states of a grammar fit a table. *)
Record sizes_fit (g : Grammar) (l : Language) : Prop := {
  sz_name : short (g_name g);
  sz_names s : s ∈ g_syms g -> short (sr_name s);
  sz_extras s : s ∈ g_extras g -> id_fits s;
  sz_states : word_fits (l_states l) }.

Definition sizes_check (g : Grammar) (l : Language) : bool :=
  (Z.of_nat (String.length (g_name g)) <? 2 ^ 32)%Z && forallb (fun s => Z.of_nat (String.length (sr_name s)) <? 2 ^ 32)%Z (g_syms g)
  && forallb (fun s => Z.of_nat s <? 65536)%Z (g_extras g) && (Z.of_nat (l_states l) <? 2 ^ 32)%Z.

Lemma sizes_checked g l : sizes_check g l = true -> sizes_fit g l.
Proof.
  unfold sizes_check. intros [[[H1 H2]%andb_prop H3]%andb_prop H4]%andb_prop. rewrite forallb_forall in H2, H3. apply Z.ltb_lt in H1, H4.
  split; [exact H1| | |exact H4]; intros s Hs%list_elem_of_In; apply Z.ltb_lt; [exact (H2 s Hs)|exact (H3 s Hs)].
Qed.

Lemma stored_matches l l' : l_name l' = l_name l -> l_syms l' = l_syms l -> l_prods l' = l_prods l -> l_extras l' = l_extras l -> matches (stored l) l' = true.
Proof.
  intros E1 E2 E3 E4. unfold matches, stored. cbn [t_name t_syms t_prods t_extras]. rewrite E1, E2, E3, E4, !length_map, !Nat.eqb_refl, !bool_decide_true by reflexivity. cbn [andb].
  clear E1 E2 E3 E4. rewrite andb_true_r. apply andb_true_iff. split.
  - induction (l_syms l) as [|s ss IH]; [reflexivity|]. simpl. rewrite IH, andb_true_r. unfold sym_matches. cbn [stored_sym si_name si_lexPrec].
    rewrite bool_decide_true by reflexivity. rewrite !Z.eqb_refl. reflexivity.
  - induction (l_prods l) as [|p ps IH]; [reflexivity|]. simpl. rewrite IH, andb_true_r. unfold prod_matches. cbn [stored_prod tp_lhs tp_rhs tp_prec tp_hasPrec tp_assoc tp_dyn tp_hidden].
    rewrite Nat.eqb_refl, !Z.eqb_refl, !Bool.eqb_reflx, bool_decide_true by reflexivity. reflexivity.
Qed.

(** A table that was written has no more cells than its counts can hold. *)
Lemma marshal_forks l bs : MarshalTable (Some l) = Some bs -> l_forks l = forks_of (l_act l) -> word_fits (l_forks l).
Proof.
  intros H ->. unfold MarshalTable in H. apply bind_Some in H as (l0 & E0 & H). apply (inj Some) in E0. subst l0.
  do 5 (apply bind_Some in H as (? & _ & H)). apply bind_Some in H as (nacts & Hn & _). unfold writeCount in Hn.
  destruct (Z.ltb_spec (2 ^ 32 - 1) (Z.of_nat (length (actionCells l)))) as [|Hle]; [discriminate|]. rewrite (actions_perm l), length_map in Hle.
  unfold word_fits, forks_of. pose proof (length_filter (fun e => Is_true (1 <? length (snd e))) (map_to_list (l_act l))). lia.
Qed.

Lemma load_marshal g c a bs : grammar_ok g -> grammar_fits g -> prepareCompiler g = Some c -> complete c a -> sizes_fit g (language_of g c a) ->
  MarshalTable (Some (language_of g c a)) = Some bs -> Load g bs = inl (language_of g c a) /\ decodeTable bs = inl (stored (language_of g c a)).
Proof.
  intros Hg Hfit Ep Ha [Z1 Z2 Z3 Z4] Hm. pose proof (checked_wf g c Ep Hg) as Hc. pose proof (checked_fits g c Ep Hfit) as Hf. pose proof (checked_start g c Ep) as Hs.
  destruct (lang_parts g c a) as (E1 & E2 & E3 & E4 & E5 & E6).
  assert (F : table_fits (language_of g c a)).
  { apply (compiled_fits g c Hc Hf Hs a Ha); [exact Z1| |exact Z3|rewrite <- E6; exact Z4| |].
    - destruct (prepare_inv g c Ep) as (_ & _ & _ & -> & _). intros s Hin. cbn [c_syms] in Hin. apply elem_of_app in Hin as [Hin|Hin%list_elem_of_singleton]; [|subst s; reflexivity].
      apply list_elem_of_fmap in Hin as (r & -> & Hr). exact (Z2 r Hr).
    - destruct (prepare_inv g c Ep) as (_ & _ & _ & -> & Hle & _). unfold word_fits. cbn [c_prods]. cbn [length]. rewrite length_map. lia.
    - apply (marshal_forks _ bs Hm). exact (proj1 (table_forks g c Hc Hf Hs a Ha)). }
  pose proof (decode_marshal _ bs F Hm) as Hd. split; [|exact Hd]. unfold Load. rewrite Ep, Hd, stored_matches by (symmetry; assumption). cbn [negb]. f_equal.
  cbn [stored t_act t_gto t_start t_states t_forks l_name l_syms l_prods l_scan l_extras l_byName].
  unfold language_of. destruct (foldl (add_state c (a_edge a)) (∅, 0) (imap pair (a_states a))) as [act forks]. reflexivity.
Qed.

(** Nothing shorter or longer than a table is one. *)
Lemma load_whole g bs t : decodeTable bs = inl t ->
  (forall more, more <> [] -> exists e, Load g (bs ++ more) = inr e) /\ (forall k, k < length bs -> exists e, Load g (take k bs) = inr e).
Proof.
  intros H. unfold Load. destruct (prepareCompiler g) as [c|]; [|eauto]. split.
  - intros more Hm. rewrite (decode_whole bs t more H Hm). eauto.
  - intros k Hk. destruct (decodeTable (take k bs)) as [t'|e] eqn:E; [exfalso|eauto].
    assert (Hd : drop k bs <> []) by (intros Ed; apply (f_equal length) in Ed; rewrite length_drop in Ed; simpl in Ed; lia).
    pose proof (decode_whole _ _ _ E Hd) as K. rewrite take_drop in K. congruence.
Qed.
