(* ===== verification/Parses.v ===== *)
(** * Parsers

    What [Compile] and [Parse] of x/parse promise, with a grammar of expressions
    as the example of each theorem. *)
From Stdlib Require Import ZArith Lia.
From Stdlib Require Import Strings.Byte.
From stdpp Require Import base numbers option list strings gmap relations.
From S2P Require Import Prelude Grammars Compile Lexer Derive Firsts Automaton Language Machine Checked Glr Stacks Acts Rounds Trees Nodes Compiled Tables Stored.

Local Open Scope nat_scope.

(** ** An example *)

Fixpoint digit_run (l : list byte) : nat :=
  match l with b :: l' => if ((48 <=? byte_code b) && (byte_code b <=? 57))%Z then S (digit_run l') else 0 | [] => 0 end.
Definition digits_match : Match := fun src at_ => Z.of_nat (digit_run (drop at_ src)).

(** Sums and products of numbers; [prec] decides between them. *)
Definition expressions (prec : bool) : Grammar :=
  let '(num, g) := Token "num" (New "expr") in
  let g := set_Match digits_match num g in
  let '(plus, g) := Literal "+" g in
  let '(star, g) := Literal "*" g in
  let '(e, g) := Rule "expr" g in
  let '(p, g) := rule_Seq e [e; plus; e] g in
  let g := if prec then prod_Left 1 p g else g in
  let '(p, g) := rule_Seq e [e; star; e] g in
  let g := if prec then prod_Left 2 p g else g in
  let '(_, g) := rule_Seq e [num] g in
  Start "expr" g.



(** ** Compiling *)

(** C13: the loops of [Compile] end: it fails exactly for a grammar that the
    checks reject, and otherwise gives the tables of an automaton that has each
    state once and an edge for every symbol after a dot. *)
Theorem compile_ends g (Hg : grammar_ok g) (Hfit : grammar_fits g) : exists res, gives (fun fuel => Compile fuel g) res /\
  match res with
  | None => prepareCompiler g = None
  | Some l => exists c a, compiled g c a l /\ NoDup (a_states a) /\
      forall q it s, it ∈ state_items a q -> after_dot c it = Some s ->
        exists q', goto a q s = Some q' /\ mkItem (i_prod it) (S (i_dot it)) (i_look it) ∈ state_items a q'
  end.
Proof.
  unfold Compile. destruct (prepareCompiler g) as [c|] eqn:Ep.
  2: { exists None. split; [exists 0; reflexivity|reflexivity]. }
  pose proof (checked_wf g c Ep Hg) as Hc. pose proof (checked_fits g c Ep Hfit) as Hf. pose proof (checked_start g c Ep) as Hs.
  destruct (build_states_gives c Hc Hf Hs) as (a & [F HF] & Ha). exists (Some (language_of g c a)).
  split; [exists F; intros fuel Hle; rewrite (HF fuel Hle); reflexivity|]. exists c, a. split; [split; [exact Ep|exact Ha|reflexivity]|].
  split; [exact (so_nodup _ _ (bu_ok _ _ _ Ha))|]. intros q it s. apply (goto_forward c Hc a Ha).
Qed.

Lemma compile_ends_witness : exists l, gives (fun fuel => Compile fuel (expressions true)) (Some l).
Proof.
  destruct (small_ok (expressions true)) as [Hg Hfit]; [vm_compute; reflexivity|].
  destruct (compile_ends (expressions true) Hg Hfit) as (res & Hres & H). destruct res as [l|]; [exists l; exact Hres|].
  assert (E : bool_decide (prepareCompiler (expressions true) = None) = false) by (vm_compute; reflexivity).
  exfalso. apply bool_decide_eq_false in E. exact (E H).
Defined.

(** C15: the first set that the closure gives to the symbols after a dot has
    exactly the tokens that a form they rewrite to begins with, and the
    look-ahead when they rewrite to nothing; a rule is nullable exactly when it
    rewrites to nothing. *)
Theorem firsts_exact c (Hc : compiler_wf c) syms look (Hlook : terminal c look = true) :
  (forall a, a ∈ firstSeq c (nullableFirst c) syms look <->
     (terminal c a = true /\ exists rest, rtc (rewrites c) syms (a :: rest)) \/ (rtc (rewrites c) syms [] /\ a = look)) /\
  (forall s, terminal c s = false -> (nullable (nullableFirst c) s = true <-> rtc (rewrites c) [s] [])).
Proof. split; [intros a; exact (firstSeq_exact c Hc syms look a Hlook)|exact (nullable_exact c Hc)]. Qed.

Lemma firsts_exact_witness : exists c, prepareCompiler (expressions true) = Some c /\ exists rest, rtc (rewrites c) [5] (2 :: rest).
Proof.
  destruct (small_ok (expressions true)) as [Hg _]; [vm_compute; reflexivity|].
  destruct (prepareCompiler (expressions true)) as [c|] eqn:Ep; [|vm_compute in Ep; discriminate]. exists c. split; [reflexivity|].
  assert (Hlook : terminal c 1 = true) by (vm_compute in Ep; injection Ep as <-; reflexivity).
  destruct (firsts_exact c (checked_wf _ _ Ep Hg) [5] 1 Hlook) as [H _].
  assert (Hin : bool_decide (2 ∈ firstSeq c (nullableFirst c) [5] 1) = true) by (vm_compute in Ep; injection Ep as <-; vm_compute; reflexivity).
  apply bool_decide_eq_true in Hin. apply H in Hin as [[_ Hin]|[_ Hin]]; [exact Hin|discriminate].
Defined.

(** ** Parsing *)

(** C7: what [Parse] returns for a language that [Compile] made reads as a
    derivation of the start rule, hidden rules flattened, of the tokens of the
    whole input, and [Leaves] lists those tokens with their text. *)
Theorem parse_sound g (Hg : grammar_ok g) (Hfit : grammar_fits g) fuel l (Hl : Compile fuel g = Some (Some l)) pathLimit src tree
  (Hscan : forall sf, g_scan g = Some sf -> scan_fits sf) (Hparse : Parse pathLimit l src = inl tree) :
  exists c t, prepareCompiler g = Some c /\ derives c (start_of g) t /\ tokens_of l src (yield t) /\
    reads c (t_nodes tree) (t_kids tree) (t_root tree) (flat c t) /\ t_Src tree = src /\ Leaves (Some tree) = Some (map (leaf_of tree) (yield t)).
Proof.
  destruct (compiled_parse fuel g l pathLimit src tree Hg Hfit Hl Hscan Hparse) as (c & t & H1 & _ & _ & H2 & H3 & H4). exists c, t. auto.
Qed.

Definition parses (prec : bool) (text : string) : bool :=
  match Compile 100 (expressions prec) with
  | Some (Some l) => match Parse 8192 l (bytes_of text) with inl _ => true | inr _ => false end
  | _ => false
  end.

Lemma parse_sound_witness : exists l c t, Compile 100 (expressions true) = Some (Some l) /\ derives c (start_of (expressions true)) t /\
  tokens_of l (bytes_of "1+2*34") (yield t) /\ exists tree, Leaves (Some tree) = Some (map (leaf_of tree) (yield t)).
Proof.
  assert (H : parses true "1+2*34" = true) by (vm_compute; reflexivity). unfold parses in H.
  destruct (small_ok (expressions true)) as [Hg Hfit]; [vm_compute; reflexivity|].
  assert (Hs : g_scan (expressions true) = None) by (vm_compute; reflexivity).
  destruct (Compile 100 (expressions true)) as [[l|]|] eqn:Ec; [|discriminate|discriminate].
  destruct (Parse 8192 l (bytes_of "1+2*34")) as [tree|e] eqn:Epar; [|discriminate].
  destruct (parse_sound (expressions true) Hg Hfit 100 l Ec 8192 _ tree ltac:(rewrite Hs; discriminate) Epar) as (c & t & _ & H1 & H2 & _ & _ & H3).
  exists l, c, t. split; [reflexivity|]. split; [exact H1|]. split; [exact H2|]. exists tree. exact H3.
Defined.







(** ** Stored tables *)

(** C12: [Load] of what [MarshalTable] writes of a compiled grammar gives the
    language back, tables, matchers and scanner; bytes that are cut short or
    followed by more are an error. *)
Theorem table_roundtrip g (Hg : grammar_ok g) (Hfit : grammar_fits g) fuel l (Hl : Compile fuel g = Some (Some l)) (Hsizes : sizes_fit g l)
  bs (Hbs : MarshalTable (Some l) = Some bs) :
  Load g bs = inl l /\ (forall more, more <> [] -> exists e, Load g (bs ++ more) = inr e) /\ (forall k, k < length bs -> exists e, Load g (take k bs) = inr e).
Proof.
  destruct (Compile_compiled fuel g l Hg Hfit Hl) as (c & a & [Ep Ha ->]). destruct (load_marshal g c a bs Hg Hfit Ep Ha Hsizes Hbs) as [H1 H2].
  split; [exact H1|exact (load_whole g bs _ H2)].
Qed.

(** The length of the table, and whether it is written. *)
Definition table_length (prec : bool) : option nat :=
  match Compile 100 (expressions prec) with
  | Some (Some l) => if sizes_check (expressions prec) l then length <$> MarshalTable (Some l) else None
  | _ => None
  end.

Lemma table_roundtrip_witness : exists l bs, Compile 100 (expressions false) = Some (Some l) /\ MarshalTable (Some l) = Some bs /\ length bs = 557 /\
  Load (expressions false) bs = inl l /\ exists e, Load (expressions false) (take 556 bs) = inr e.
Proof.
  destruct (small_ok (expressions false)) as [Hg Hfit]; [vm_compute; reflexivity|].
  assert (H : table_length false = Some 557) by (vm_compute; reflexivity). unfold table_length in H.
  destruct (Compile 100 (expressions false)) as [[l|]|] eqn:Ec; [|discriminate|discriminate].
  destruct (sizes_check (expressions false) l) eqn:Es; [|discriminate]. destruct (MarshalTable (Some l)) as [bs|] eqn:Em; [|discriminate].
  apply (inj Some) in H. destruct (table_roundtrip (expressions false) Hg Hfit 100 l Ec (sizes_checked _ _ Es) bs Em) as (H1 & _ & H2).
  exists l, bs. split; [reflexivity|]. split; [exact Em|]. split; [exact H|]. split; [exact H1|]. apply H2. rewrite H. lia.
Defined.
