(* ===== verification/Declared.v ===== *)
(** * Declared grammars

    What [Build] of x/parse/form.go and the patterns of pattern.go promise, with a
    grammar of nested lists as the example of each theorem. *)
From Stdlib Require Import ZArith Lia.
From Stdlib Require Import Strings.Byte.
From stdpp Require Import base numbers option list strings gmap.
From S2P Require Import Prelude Grammars Compile Lexer Derive Checked Glr Nodes Compiled Patterns Forms Meanings Placing Walks Sentences.

Local Open Scope nat_scope.

(** ** An example *)

Definition digit_pattern : Pattern := pat_While "0123456789".




(** ** Forms *)



(** ** Parsing with a built grammar *)








(** ** Patterns *)

(** C14: the matcher that a pattern is built to takes [n] bytes at an offset
    exactly when the pattern describes them, and no byte where it describes
    none. *)
Theorem pattern_exact name p src at_ prev :
  (forall n, 0 < n -> eval (build name p) src at_ prev = Z.of_nat n <-> takes name p src at_ prev n) /\
  ((eval (build name p) src at_ prev <= 0)%Z <-> forall n, 0 < n -> ~ takes name p src at_ prev n).
Proof.
  split; [intros n; exact (build_takes name p src at_ prev n)|]. split.
  - intros Hle n Hn Ht. apply (build_takes name p src at_ prev n Hn) in Ht. lia.
  - intros H. destruct (Z.le_gt_cases (eval (build name p) src at_ prev) 0) as [Hle|Hgt]; [exact Hle|exfalso].
    apply (H (Z.to_nat (eval (build name p) src at_ prev)) ltac:(lia)), build_takes; lia.
Qed.

(** ** Names that literals and rules share *)

(** A number, and a rule whose body is the literal text of the first rule's name. *)
Definition clash : option nat * arena :=
  let '(num, h) := form_Pat "num" digit_pattern [] in
  let '(first, h) := form_Eq "number" num h in
  let '(lit, h) := form_Lit "number" h in
  let '(second, h) := form_Eq "top" lit h in
  let '(start, h) := form_Start "top" h in
  form_Compose [first; second; start] h.

Definition clash_parses (text : string) : option bool :=
  match Build (snd clash) "clash" (fst clash) with
  | BOk g => match Compile 100 g with
      | Some (Some l) => Some (match Parse 8192 l (bytes_of text) with inl _ => true | inr _ => false end)
      | _ => None
      end
  | _ => None
  end.

(** A literal is the symbol of its text: where a rule has that name, the literal
    reads what the rule reads and not its own text. *)
Example literal_of_rule : clash_parses "7" = Some true /\ clash_parses "number" = Some false.
Proof. vm_compute. split; reflexivity. Qed.
