(* ===== verification/Findings.v ===== *)
(** * Theorems: where the code and its documentation part

    Each theorem computes a small graph with the model of the code and
    compares the result with what tensor.go documents: [Pad] adds zeros,
    views read the tensor they view, a coordinate tensor holds its index, and
    random floats are below 1.  The last theorem is a race of the GPU evaluators'
    table. *)
From Stdlib Require Import ZArith Lia.
From stdpp Require Import base numbers option list relations.
From S2P Require Import Prelude Float Alu Shape View Reshape Tracker Expr Rewrite Optimize Flatten Cpu Kernel Code Shader Emits Schedule Eval Tensor Nn Table Demo.

Local Open Scope Z_scope.

(** ** Evaluating a tensor by computation *)

(** Compile with the given fuel, lower, and run in one goroutine; the words of
    the output. *)
Definition evaluate (fuel : nat) (t : tensor) (h : heap) : option (res (list Z)) :=
  match compile fuel (tn_node t) h with
  | None => None
  | Some (Err e, _) => Some (Err e)
  | Some (Ok k, h') =>
      match lowerCPU (h_nodes h') (k_order k) (k_bufs k) (k_built k) with
      | Err e => Some (Err e)
      | Ok prog =>
          option_map (fun out => Ok (fromBytes (k_outType k) out))
            (run (h_bufs h') (job_of (h_nodes h') prog k) (mkScratch [] []) (repeat 0 (Z.to_nat (OutputBytes (Some k)))))
      end
  end.

(** Compile, schedule, and run every invocation; the elements of the output. *)
Definition evaluate_gpu (fuel : nat) (t : tensor) (h : heap) : option (res (list Z)) :=
  match compile fuel (tn_node t) h with
  | None => None
  | Some (Err e, _) => Some (Err e)
  | Some (Ok k, h') =>
      match kernel_Code (h_nodes h') (h_bufs h') (Some k) with
      | Err e => Some (Err e)
      | Ok c =>
          option_map (fun stores => Ok (apply_stores stores (repeat 0 (Z.to_nat (k_size k)))))
            (dispatch h' k c (seqZ 0 (Groups (Some k) * localSize)))
      end
  end.

(** What the tensor denotes, row by row. *)
Definition denotes (t : tensor) (h : heap) : list Z :=
  match tn_node t with
  | None => []
  | Some l => let s := opt_list (nShape (h_nodes h) l) in map (fun i => den h l (unravel s i)) (seqZ 0 (Size s))
  end.

(** A computation on tensors, from the empty heap: its evaluation and what it
    denotes. *)
Definition outcome_of (m : TM tensor) : option (option (res (list Z)) * list Z) :=
  let '(r, h) := m empty_heap in
  match r with Ok t => Some (evaluate 64 t h, denotes t h) | Err _ => None end.

Definition gpu_outcome_of (m : TM tensor) : option (option (res (list Z))) :=
  let '(r, h) := m empty_heap in
  match r with Ok t => Some (evaluate_gpu 64 t h) | Err _ => None end.

Definition moves (ms : list move) (t : tensor) : TM tensor :=
  fold_left (fun acc m => let! t := acc in mv [] m t) ms (tm_ret t).

(** ** Padding *)

(** [(x + 1).Pad({{1, 1}}) * y] *)
Definition pad_inside : TM tensor :=
  let! x := New I32 [10; 20] (Some [2]) in
  let! one := tm_call (Const (NumI32 1)) in
  let! s := tm_call (tensor_Add (Some x) (Some one)) in
  let! p := moves [MPad [(1, 1)]] s in
  let! y := New I32 [3; 4; 5; 6] (Some [4]) in
  tm_call (tensor_Mul (Some p) (Some y)).

(** The padding of an operation inside a graph is not 0 when the operation
    has a constant operand: the rewrite pads the leaves, a splat constant
    ignores the chain, and only the padding of the root is masked. *)
Theorem inner_pad_not_zero : outcome_of pad_inside = Some (Some (Ok [3; 44; 105; 6]), [0; 44; 105; 0]).
Proof. vm_compute. reflexivity. Qed.

(** [a = x + 7], [s = where(1, x, a)], and [(s + 7).Pad({{1, 0}})] *)
Definition pad_shared : TM tensor :=
  let! x := New I32 [10; 20] (Some [2]) in
  let! k := tm_call (Const (NumI32 7)) in
  let! a := tm_call (tensor_Add (Some x) (Some k)) in
  let! one := tm_call (Const (NumI32 1)) in
  let! s := tm_call (tensor_Where (Some one) (Some x) (Some a)) in
  let! r := tm_call (tensor_Add (Some s) (Some k)) in
  moves [MPad [(1, 0)]] r.

Definition pad_plain : TM tensor :=
  let! x := New I32 [10; 20] (Some [2]) in
  let! k := tm_call (Const (NumI32 7)) in
  let! r := tm_call (tensor_Add (Some x) (Some k)) in
  moves [MPad [(1, 0)]] r.

(** Common subexpression elimination ignores the view of a node: the
    padded root is replaced by an equal sum without the padding, and its
    padding holds 7, not 0.  Without the shared sum it holds 0. *)
Theorem shared_pad_lost :
  outcome_of pad_shared = Some (Some (Ok [7; 17; 27]), [0; 17; 27]) /\
  outcome_of pad_plain = Some (Some (Ok [0; 17; 27]), [0; 17; 27]).
Proof. split; vm_compute; reflexivity. Qed.

(** ** Coordinates and scalars *)

(** [Coord(2, {2, 2, 3}).Reshape({12})] *)
Definition coord_flat : TM tensor :=
  let! c := tm_call (Coord 2 (Some [2; 2; 3])) in moves [MReshape [12]] c.

(** A reshaped coordinate tensor cannot be lowered: [lowerCPU] checks the
    axis against the rank of the output, not of the coordinate's shape.  The
    schedule checks it against the shape at the end of the chain and stores
    the coordinates. *)
Theorem reshaped_coord_rejected :
  outcome_of coord_flat = Some (Some (Err ErrAxis), [0; 1; 2; 0; 1; 2; 0; 1; 2; 0; 1; 2]) /\
  gpu_outcome_of coord_flat = Some (Some (Ok [0; 1; 2; 0; 1; 2; 0; 1; 2; 0; 1; 2])).
Proof. split; vm_compute; reflexivity. Qed.

(** [x[2] + 1] as a scalar, expanded to four cells. *)
Definition scalar_view : TM tensor :=
  let! x := New I32 [5; 6; 7] (Some [3]) in
  let! x0 := moves [MShrink [(2, 3)]; MReshape []] x in
  let! one := tm_call (Const (NumI32 1)) in
  let! s := tm_call (tensor_Add (Some x0) (Some one)) in
  moves [MReshape [1]; MExpand [4]] s.

(** Expanding an operation on a scalar view reads the start of the buffer:
    the walk along a chain stops at a step of rank 0 and forgets the leaf's
    own offset. *)
Theorem expanded_scalar_misread : outcome_of scalar_view = Some (Some (Ok [6; 6; 6; 6]), [8; 8; 8; 8]).
Proof. vm_compute. reflexivity. Qed.

(** ** Bytes *)

(** [x.Neg()] of bytes, cast to int32. *)
Definition neg_byte : TM tensor :=
  let! x := New U8 [1; 2] (Some [2]) in
  let! n := tm_call (tensor_Neg (Some x)) in
  tm_call (tensor_Cast (Some n) I32).

(** The CPU reads a byte of a negated uint8 modulo 256 when it casts it;
    the schedule holds it in a 32-bit uint and casts that, so the backends
    store 255 and -1. *)
Theorem byte_negation_differs :
  outcome_of neg_byte = Some (Some (Ok [255; 254]), [255; 254]) /\
  gpu_outcome_of neg_byte = Some (Some (Ok [u32 (-1); u32 (-2)])).
Proof. split; vm_compute; reflexivity. Qed.

(** ** Random tensors *)

Definition rand_bytes (d : DType) (bytes : list Z) (s : Shape) : TM tensor := fun h =>
  let '(r, h) := Rand d (Some (fun n => Some (take (Z.to_nat n) bytes))) (Some s) h in (default (Err ErrOp) r, h).

(** [Rand] shifts arithmetically, so a cell whose top bit is set comes out
    negative: -1 as an int32 and -2^-31 as a float32. *)
Theorem rand_negative :
  option_map fst (outcome_of (rand_bytes I32 [255; 255; 255; 255] [1])) = Some (Some (Ok [u32 (-1)])) /\
  option_map fst (outcome_of (rand_bytes F32 [255; 255; 255; 255] [1])) =
    Some (Some (Ok [pack 0 (SpecFloat.S754_finite true 8388608 (-54))])).
Proof. split; vm_compute; reflexivity. Qed.

(** ** Closing an evaluator *)

(** When an evaluator is closed between the lookup and the install of a
    concurrent [Open], the install assigns to a nil map and panics; the program
    it created is neither stored nor closed. *)
Theorem close_race_panics : exists (s : evaluator) (p : program), rtc table_step (start [CLookup 0%nat; CTake]) s /\
  e_calls s !! 0%nat = Some (CDone (OPanic p)) /\ p ∈ e_made s /\ e_closed s = [] /\ e_items s = None.
Proof.
  destruct (sections [(0, true); (1, true); (0, true); (0, true)]%nat (start [CLookup 0%nat; CTake])) as [s|] eqn:Es; [|vm_compute in Es; discriminate Es].
  exists s, (mkProgram 0 0). split; [eapply sections_reach, Es|]. vm_compute in Es. injection Es as <-.
  split; [reflexivity|]. split; [left|]. split; reflexivity.
Qed.
